(* ===== verification/_CoqProject ===== *)
-Q . S2P
Prelude.v
Consteval.v
Value.v
Arith.v
Slice.v
Token.v
Lexer.v
LexerWp.v
LexerScan.v
LexerSound.v
Decimal.v
FmtSpec.v
FmtGrammar.v
FloatText.v
FmtRender.v
Syntax.v
Cursor.v
CursorWp.v
Lexed.v
ParseType.v
TypeGrammar.v
TypeAccept.v
ParsePattern.v
PatternGrammar.v
BindTarget.v
IntBytes.v
StrOps.v
MapData.v
MapProbe.v
Ty.v
TyVar.v
Assignable.v
Exhaust.v
Width.v
Op.v
Peephole.v
Channel.v
Encoding.v
Slab.v
Obj.v
Heap.v
World.v
GcCoord.v
Equality.v
Disjoint.v
SetOps.v
Ordering.v
Reentry.v
ListHof.v
ListSort.v
ListOps.v
Rand.v
NumTheory.v
