(* ===== verification/Prelude.v ===== *)
(** * Chezzi: a verification library

    Chezzi ([src/src/]) is a statically checked scripting language: a lexer, parser and checker
    ([lexer/], [parser/], [checker/]), a compiler to bytecode with a peephole pass ([compiler/]), and
    a virtual machine with an M:N scheduler, channels, maps and native functions ([vm/], [native/]).
    This library models the parts below as executable definitions, one file each, and proves what
    makes them correct.  Every definition keeps the name of the function or type it translates.

    ** The files

    - [Prelude] (this file): Rust's [Result], [i64] with its checked, saturating and wrapping
      operations ([I64]), IEEE doubles ([F64], on the Standard Library's [SpecFloat]), [Vec::pop],
      bit-field lemmas.
    - [Consteval] ([ast/consteval.rs]): the int and float operators every other part shares, their
      faults, and the constant folder [eval_noting].  The folder is the checker's overflow lint
      and, through [int_binop], the peephole pass's fold and the VM's arithmetic.
    - [Value] ([vm/value.rs]): the 64-bit tagged word of a run-time value.
    - [Arith] ([vm/arith.rs], [vm/compare.rs], [vm/equality.rs], locals of [vm/step.rs]): the operand
      stack, generic arithmetic and comparison, the adaptive quickening of a site and the fused
      local operators, as state functions with three outcomes (value, run-time error, Rust panic).
      The heap is the interface [HeapOps]/[HeapLaws], with a slab of objects as its instance.
    - [Slice] ([slice.rs]): index and slice resolution, and the [repr] of bytes and strings.
    - [Token] ([lexer/mod.rs]): tokens, the keyword and punctuation tables, the indentation stack
      ([indent_step]) and the layout the parser opens inside brackets ([open_layout]).
    - [Lexer] (the same file): the whole scanner as a state monad with the outcomes value, error,
      panic and out of rounds: layout, comments, numbers, words, strings of every prefix, the holes
      of an interpolated string (lexed by the same scanner, one nesting level deeper) and their
      format specs.  The Unicode character tables are the class [CharTables] with the laws
      [CharLaws] on ASCII.
    - [LexerWp]: a weakest-precondition calculus for that monad and the specification of each
      method; [LexerScan]: the grammar of token texts ([tiles], [token_text], [parts_text]) and the
      scanning methods against it; [LexerSound]: the driver and the theorems.
    - [Decimal]: what the program uses of Rust's number formatting (integers in a radix, the shortest
      and the exact digits of a float), with the proof that a decimal inside a float's rounding
      interval is read as that float.
    - [FmtSpec] ([fmtspec.rs], [vm/display.rs]): the format mini-language of interpolated strings:
      its parser, the static validity rule, rendering, the canonical text of a float, the nested
      width and precision.  [FmtGrammar] proves the parser against a grammar of slots, [FloatText]
      the round trip of a float's text, [FmtRender] the rendering.
    - [Syntax] ([ast/mod.rs]): the trees of types and patterns.  [Cursor] ([parser/mod.rs],
      [parser/cursor.rs]): the parser's state, its monad and the methods on tokens; [CursorWp]: a
      weakest-precondition calculus for it; [Lexed]: what [lex] returns is a stream the parser may
      rely on.  [ParseType] ([parser/types.rs]): the type parser;
      [TypeGrammar] and [TypeAccept]: it against the grammar of [docs/reference/grammar.bnf].
      [ParsePattern] ([parser/pattern.rs]): patterns and binding targets; [PatternGrammar] and
      [BindTarget]: what they read.
    - [StrOps] ([vm/core_method.rs], [vm/host.rs]): the methods of strings: searching, splitting,
      joining, replacing, padding, lines, trimming and [to_int].  [IntBytes] ([vm/core_method.rs]):
      an int to bytes and back, in both byte orders.
    - [Rand] ([native/rand.rs]): the SplitMix64 stream and [rand.int].  [NumTheory]
      ([native/math.rs]): the int functions of [std.math].
    - [MapData] ([vm/map_data.rs]): the open-addressing index over an insertion-ordered entry vector.
    - [MapProbe] ([vm/equality.rs], [vm/list_hof.rs], [vm/core_method.rs]): probing with a user [eq]
      that may write the probed map, and lookup, insert, remove on top of it.
    - [Ty] ([checker/ty.rs], [checker/ty_util.rs]): the types of the language with their labels and
      kinds, [compatible], substitution, meets and joins.
    - [TyVar] ([checker/tyvar.rs]): the store of inference variables: unification with deferred
      reads, bounds and carriers, marks and rollback.  A read of a variable follows bindings, which
      is a fixpoint only in an acyclic store, so the walks carry fuel.
    - [Assignable] ([checker/assignable.rs], [checker/ty_util.rs]): what may be stored where and
      what may be compared with what.  Protocol conformance is the record [Judgements], of which
      [container_write_safe] assumes nothing: its types have no protocol in them.
    - [Exhaust] ([checker/exhaust.rs]): exhaustiveness of [match] by a pattern-matrix search; the
      checker's name tables are the interface [CheckerTables]/[CheckerLaws].
    - [Width] ([vm/width.rs]): the gate that limits how many threads run bytecode, as an
      interleaving of atomic steps.
    - [Op] ([base/op.rs]): the instruction set, every constructor.
    - [Peephole] ([compiler/peephole.rs]): the pass, and its correctness on any machine that
      satisfies [MachineLaws]; module [Scalar] is such a machine.
    - [Channel] ([vm/core.rs], [vm/channel.rs], [vm/blocking.rs], [vm/mnsched_park.rs]): the
      transfer protocol of channels ([Pending], [ChanState], [settle]) and the world of parties that
      block on them.  [step] does what the code does ([act]) and keeps a ledger beside it: a value is
      entered as moved when its send answers [Sent] or when the step commits the [Pending] of a blocked
      sender ([committed]), never from what a receiver got.
    - [Encoding] ([native/encoding.rs]): base64, hex, percent-encoding and query strings.
    - [Slab] ([vm/heap_slab.rs]): the vector of doubling segments that never moves a slot.
    - [Obj] ([vm/heap.rs]): the heap's object kinds, their edges and their sizes.
    - [Heap] ([vm/heap_core.rs], [vm/heap.rs]): allocation, the free list, thresholds, marking and
      sweeping.
    - [World] (the same files, seen from the program): threads that share one heap and spawn,
      allocate, store, poll, collect and exit.
    - [GcCoord] ([vm/gc_coord.rs]): the coordinator that stops the threads for a collection, one
      lock hold per step.
    - [Equality] ([vm/equality.rs], [vm/hash.rs]): [==] over the heap with its depth guard, and the
      hash of a key.  A user's [eq] and [hash] are parameters.
    - [SetOps] ([vm/core_method.rs], [vm/equality.rs], [vm/builtins.rs]): the set algebra,
      [Set.from_iter], [unique] and [dedup], on the index of [MapData] and the comparison of
      [Equality].
    - [Ordering] ([vm/compare.rs], [order_key] of [vm/list_hof.rs]): the total order behind [sort],
      [min], [max] and [compare], and the partial one of the operators on tuples and lists.  NaNs are
      told apart by their words, which the interface [NanWords] gives for each float box.
    - [Reentry] ([vm/exec.rs], [vm/rvec.rs]): what a native that calls user code is built from, the
      contract of such a call ([reentrant]: it touches nothing the program cannot name) and the
      calculus for natives.  [ListHof] ([vm/list_hof.rs]): [map], [filter], [fold], [take_while],
      [drop_while], [count], [position].  [ListSort] ([vm/list_hof.rs], [vm/hash.rs],
      [vm/core_method.rs]): [sort], [sort_by], [sort_by_key], [min], [max] and their keyed forms.
      [ListOps] ([vm/core_method.rs], [vm/list_hof.rs]): the methods that take no callback.
    - [Disjoint] ([checker/assignable.rs] against [vm/equality.rs]): where the checker refuses a
      comparison, and what the VM would have answered.

    ** What the theorems show

    - Lexing.  The lexer always returns, and an error points into the source ([lex_total]); the
      source is exactly the texts of the tokens with blanks, comments and line breaks between them
      ([lex_reads]); blocks open and close in step ([lex_blocks]); layout opened inside brackets
      only adds balanced layout tokens ([open_layout_splices]).
    - Parsing.  The type parser always returns, builds only derivations of its grammar and bounds
      their depth ([type_parse_sound]), and accepts every sentence within its limits
      ([type_parse_accepts]).  The pattern parser always returns, reads its grammar and numbers its
      nodes apart ([pattern_parse_sound]).  A speculative target commits to names bound once or
      leaves no trace ([walrus_target_speculates]).  The streams these theorems are about are those the
      lexer returns ([lexed_stream_ok]).
    - Formatting.  The spec parser accepts exactly its grammar ([parse_nested_grammar]); rendering
      fails exactly where the static check does and never panics ([apply_checked]); a printed
      integer reads back ([apply_int_reads]) and so does the text of every finite float, through
      the lexer's own number reader ([repr_float_roundtrip]).
    - Compilation.  [optimize] keeps what a body does, in both directions, faults and handlers
      included ([optimize_correct]).
    - Checking.  Compatibility is a preorder on types without holes ([compatible_preorder]).
      Inference ends in every store the checker can build ([tyvars_total]), finds the most general
      solution ([solve_mgu]), and a failed speculation leaves a trace only in the records that are edited
      in place ([speculation_undone]).  A write through an alias cannot break a container's type
      ([container_write_safe]).  A match
      accepted through the matrix is exhaustive whatever the limits cut off ([exh_arms_sound]).
    - Arithmetic.  Int operators are exact or fault, never wrap ([int_binop_exact]); so are the int
      functions of [std.math], whose loops end within 130 rounds ([math_ints_exact]).  The bounded
      draw of [std.rand] ends from every state and is unbiased ([rand_int_unbiased]).
    - Data.  The hash table refines its entry list under any trace ([map_trace_refines]); a probe is
      right under any re-entrant [eq] and runs on only while that [eq] rewrites the map
      ([map_probe_reentrant]); the map methods refine a partial
      function ([map_ops_refine]); slices are CPython's ([range_indices_cpython]).  The walk behind
      [==] decides structural equality ([equality_decides]), and equal keys hash equally
      ([equal_keys_hash]); put together, the set algebra is that of sets modulo [==]
      ([set_algebra_correct]) and both ways of [unique] keep the first of each class
      ([list_unique_first]).  The bytes of an int read back as the int ([int_bytes_roundtrip]).
    - List methods.  A method with a callback makes exactly the calls its specification asks for,
      over the elements at the call, whatever the callback does ([list_hof_refines]); one without does
      what a function of the contents says and touches nothing else ([list_methods_refine]).  [sort_by] is
      safe under any comparator and a stable sort under one that decides an order
      ([sort_by_correct]); [sort] of values without records is the stable sort by key
      ([sort_total]), in a total preorder that is the operators' order away from NaN and puts negative
      NaNs first and positive ones last ([order_key_total]).
    - Memory.  The slab refines a vector ([slab_refines]); a collection keeps exactly what the
      threads reach ([gc_exact]); no thread ever holds a dangling handle ([heap_no_dangling]).
    - Concurrency.  While a collector runs nobody else does ([stop_the_world]), no step panics and
      no wake-up is lost ([coord_no_lost_wakeup]), and a requested stop ends ([stop_ends]).  The
      gate loses no wake-up, in the middle of an operation too ([gate_no_lost_wakeup]).  Channels
      neither lose nor duplicate a value ([chan_conserves]), are first-in first-out ([chan_fifo]), and
      leave nobody waiting for what is there ([chan_no_missed_pair]).

    Behind these stand lemmas worth reading on their own: [inc_local_fault_span] (the one visible
    trace of fusion), [eval_notes_sound], [eval_fault_innermost] and [eval_visits_linear] (the folder),
    [decode_encode] (the tag layout), [optimize_wf], [alloc_fresh], [repr_roundtrip],
    [base64_roundtrip], [query_roundtrip], [gate_permits] (the gate's capacity),
    [exh_depth_limit_rejects], [arith_int_boxing], [child_gcref_edges], [range_indices_valid],
    [base64_accepts], [assignable_comparable] (what may be stored may be compared),
    [exh_witness_decides] (within its depth the search decides coverage), [fused_ops_unfused],
    [equality_equivalence], [settle_exact], [q_arith_generic] (quickening is invisible),
    [pattern_depth_unbounded] (the carrier loop has no depth limit), [carrier_payload_cycle] (one
    order of compares ties a cycle through a carrier's payload), [error_list_alias] (where
    [container_write_safe] ends), [split_join] ([split] is the inverse of [join]), [to_int_reads] (the
    numerals), [sum_ints_exact], [set_from_iter_ok], [sort_by_key_correct], [list_reduce_extreme_ok],
    [loop_target_binds_once], [gate_queue], [ready_decides], [seal_once], [heap_step_progress] and
    [disjoint_lists_equal].

    ** Bounds and fuel

    - [Slice.collect] has one round more than the receiver is long; [range_indices_valid] proves
      that this is enough.  [Peephole.collapse] has as many rounds as its output is long
      ([tail_loop_terminates]).
    - [Lexer]: each loop of the scanner has one round per remaining character and one more, the
      driver four rounds per character and four more (its measure is [work]), and holes nest at
      most [MAX_HOLE_NEST] deep, the source's own limit; [lex_total] proves that no round runs out.
    - [Decimal.shortest]: 17 digits, the buffer of Rust's digit generation; [shortest_spec] proves
      that they are enough.  [FmtSpec]: one round per item of the spec, one per digit wanted.
    - [Cursor.forever]: one round per remaining token and one more; each round of the source's loops
      that goes on consumes a token.  [ParseType.parse_type_at], [ParsePattern.parse_pattern_at] and
      [parse_bind_target_at] have [MAX_DEPTH + 1] levels, since each level raises [depth]; a primary
      pattern calls itself at most once.
    - [Exhaust.exh_witness_rec] has fuel [MAX_DEPTH + 1 - depth], the recursion bound of the source.
    - [TyVar]: the source recurses without a bound; [tyvars_total] proves that in a reachable store
      some fuel answers, so the statements never say "if it returns".
    - [Ordering.order_key]: the walk over tuples and lists has no guard of its own; its fuel is two
      turns per element and nesting ([weight]), which [order_key_total] and [sort_total] ask for.
      [ListSort.msort]: the number of positions, since a half is shorter.  [ListOps.chunk_loop]: one
      round per element and one more.
    - [Equality]: the source's own depth guard bounds the walk; it is the fuel.
    - [MapProbe.probe_loop]: the source's restart loop need not end when [eq] writes the map on each
      call; [map_probe_reentrant] proves that some fuel answers unless [eq] changes the map's structure
      over and over, and with an [eq] that does not write one turn per entry is enough
      ([map_ops_refine]).
    - [MapData]: a position must fit its field of a slot ([MAX_ENTRIES]); past it the source panics.
    - [Rand.draw_below]: the range bounds the rejected draws, since the stream repeats no word within
      a period; [rand_int_unbiased] proves it.  [NumTheory]: 130 rounds, from the bits of the two
      arguments of [gcd] and the growth of the binomials and factorials ([math_ints_exact]).
    - [Heap]: [mark_fuel], one round per root and per edge, is enough ([collect_spec]).
    - [Peephole.drive]: a body may loop, so the theorem relates the runs that end, both ways.

    ** Not modelled, and next

    The lexer's helpers for the editor and for messages (a token's measured extent, snippets, debug
    printers), the parser of expressions, statements and declarations, the resolver, the checker's
    walk over expressions and statements, protocol conformance (in [Assignable] it is a record of
    judgements) and the compiler's lowering; the dispatch loop, calls and frames; the scheduler's
    ready queues and wake-ups, nurseries, timers; I/O natives, the C interface, the editor services
    and the command line.  Racing reads of a map ([RVec]), the forfeited and handed-over permits of
    the gate, the publication of a thread's roots ([gc_door.rs]), the argument slots of a function
    type's labels, and a try inside a try or the closing of a frame inside one (in the theorem on
    speculation) are left out of the files that model the rest of those components.  The arithmetic has
    one NaN: which word the NaN box of [-x] or of any other operation holds is left to [NanWords], so
    that the order theorems hold whatever it is.  A user's callback is a parameter with a
    contract ([Reentry]), not a run of the dispatch loop, and the order of records is their
    [compare], so [sort_total] leaves them out.  [SetOps] reads a heap that an [eq] hook would write,
    so its theorems are for programs without one; [Insert], [Remove] and [Copy] of a heap set, and
    [Merge] and [Update] of a map, are left out with [set_probe].  Of strings, [upper], [lower] and
    [to_float] are left out; of [std.math] the float functions and [parse_int_base], of [std.rand]
    [float], the seeding and concurrent draws.  Next: the expression parser, the methods above, [url_parse], the pure
    natives, the scheduler's parking protocol over [Channel] and [Width], [close_tyvar_frame] and
    conformance, and an instance of [MachineLaws] on [Arith]'s machine. *)

From Stdlib Require Export ZArith Lia Bool.
From Stdlib Require Import SpecFloat.
From stdpp Require Export base option list numbers.

Declare Scope chz_scope.
Delimit Scope chz_scope with chz.

(** ** Results: Rust's [Result<T, E>] *)

Inductive result (A E : Type) : Type :=
| Ok (a : A)
| Err (e : E).
Arguments Ok {A E} a.
Arguments Err {A E} e.

(** [x <-- r ;; k] is Rust's [let x = r?; k]. *)
Notation "x <-- r ;; k" :=
  (match r with Ok x => k | Err e => Err e end)
  (at level 100, r at next level, k at level 200, right associativity) : chz_scope.

Definition ok_or {A E} (o : option A) (e : E) : result A E :=
  match o with Some a => Ok a | None => Err e end.

(** ** 64-bit integers

    An [i64] is a [Z] in the range below; every operation writes its overflow
    behaviour out.  A [u64] is a [Z] in [0 .. 2^64). *)
Module I64.
  Local Open Scope Z_scope.

Definition MIN : Z := - 2 ^ 63.
Definition MAX : Z := 2 ^ 63 - 1.
Definition is_i64 (z : Z) : bool := (MIN <=? z) && (z <=? MAX).
Definition ok (z : Z) : Prop := MIN <= z <= MAX.

Definition checked (z : Z) : option Z := if is_i64 z then Some z else None.
Definition checked_add (a b : Z) : option Z := checked (a + b).
Definition checked_sub (a b : Z) : option Z := checked (a - b).
Definition checked_mul (a b : Z) : option Z := checked (a * b).
Definition checked_neg (a : Z) : option Z := checked (- a).
Definition checked_div (a b : Z) : option Z :=
  if b =? 0 then None else checked (Z.quot a b).
(** [wrapping_rem]: Rust's [%] truncates, and [MIN % -1] wraps to 0, which is [Z.rem]. *)
Definition wrapping_rem (a b : Z) : Z := Z.rem a b.
Definition saturate (z : Z) : Z := Z.max MIN (Z.min MAX z).
Definition saturating_add (a b : Z) : Z := saturate (a + b).
Definition saturating_sub (a b : Z) : Z := saturate (a - b).
(** The i64 whose low 64 bits are those of [z]. *)
Definition wrap (z : Z) : Z := (z + 2 ^ 63) mod 2 ^ 64 - 2 ^ 63.
(** Rust's [a << k] and [a >> k] on i64, for [0 <= k < 64]: the shifted-out bits are lost, and
    [>>] is arithmetic. *)
Definition shl (a k : Z) : Z := wrap (Z.shiftl a k).
Definition shr (a k : Z) : Z := Z.shiftr a k.

Lemma is_i64_spec z : is_i64 z = true <-> ok z.
Proof. unfold is_i64, ok. rewrite andb_true_iff, !Z.leb_le. lia. Qed.

Lemma checked_Some z v : checked z = Some v <-> v = z /\ ok z.
Proof.
  unfold checked. destruct (is_i64 z) eqn:E.
  - apply is_i64_spec in E. split; [intros [= <-]; auto | intros [-> _]; reflexivity].
  - split; [discriminate | intros [-> H]]. apply is_i64_spec in H. congruence.
Qed.

Lemma checked_None z : checked z = None <-> ~ ok z.
Proof.
  unfold checked. rewrite <- is_i64_spec. destruct (is_i64 z); split; congruence.
Qed.

Lemma wrap_ok z : ok (wrap z).
Proof.
  unfold ok, wrap, MIN, MAX. pose proof (Z.mod_pos_bound (z + 2 ^ 63) (2 ^ 64)). lia.
Qed.

Lemma wrap_id z : ok z -> wrap z = z.
Proof.
  unfold ok, wrap, MIN, MAX. intros H. rewrite Z.mod_small; lia.
Qed.

Lemma saturate_ok z : ok (saturate z).
Proof. unfold ok, saturate, MIN, MAX. lia. Qed.
End I64.

Create HintDb i64.
#[export] Hint Resolve I64.wrap_ok I64.saturate_ok : i64.
#[export] Hint Extern 2 (I64.ok _) => apply I64.is_i64_spec; assumption : i64.

(** Membership of a given element in an explicit list. *)
Ltac in_list := rewrite !elem_of_cons; auto 12.

(** ** Vectors: a Rust [Vec] is a list, its last element the top *)

(** [Vec::pop]. *)
Definition vec_pop {A} (l : list A) : option (list A * A) :=
  match list.last l with Some x => Some (take (pred (length l)) l, x) | None => None end.

Lemma vec_pop_snoc {A} (l : list A) x : vec_pop (l ++ [x]) = Some (l, x).
Proof.
  unfold vec_pop. rewrite last_snoc, length_app. simpl.
  replace (pred (length l + 1)) with (length l) by lia. by rewrite take_app_length.
Qed.

Lemma vec_pop_Some {A} (l l' : list A) x : vec_pop l = Some (l', x) <-> l = l' ++ [x].
Proof.
  split; [|intros ->; apply vec_pop_snoc].
  unfold vec_pop. destruct (list.last l) eqn:E; [|done].
  apply last_Some in E as [k ->]. intros Hp.
  rewrite length_app in Hp. simpl in Hp.
  replace (pred (length k + 1)) with (length k) in Hp by lia.
  rewrite take_app_length in Hp. by injection Hp as -> ->.
Qed.

(** ** Bit fields *)
Section bitfields.
  Local Open Scope Z_scope.

(** A value below [2^k] beside a multiple of [2^k]: the or is the sum. *)
Lemma lor_low (hi k tag : Z) :
  0 <= k -> 0 <= tag < 2 ^ k -> Z.lor (hi * 2 ^ k) tag = hi * 2 ^ k + tag.
Proof.
  intros Hk Ht. symmetry. apply Z.add_nocarry_lor.
  apply Z.bits_inj'. intros n Hn. rewrite Z.land_spec, Z.bits_0.
  destruct (Z.lt_ge_cases n k).
  - rewrite Z.mul_pow2_bits_low by lia. reflexivity.
  - replace tag with (tag mod 2 ^ k) by (apply Z.mod_small; lia).
    rewrite Z.mod_pow2_bits_high by lia. apply andb_false_r.
Qed.

Lemma land_low (w k : Z) : 0 <= k -> Z.land w (2 ^ k - 1) = w mod 2 ^ k.
Proof.
  intros. rewrite <- Z.land_ones by lia. f_equal. rewrite Z.ones_equiv. lia.
Qed.
End bitfields.

(** ** 64-bit floats

    An [f64] is Rocq's executable IEEE-754 [spec_float] at precision 53 and exponent bound 1024,
    with one NaN.  Of the code modelled here two places observe a NaN's sign and payload:
    [total_cmp], for which [Ordering] reads them from the interface [NanWords], and the hash of a NaN
    key, which is equal to no key ([Equality] takes the quiet NaN there). *)
Module F64.
  Local Open Scope Z_scope.

Abbreviation f64 := spec_float.
Definition prec : Z := 53.
Definition emax : Z := 1024.
Definition add (a b : f64) : f64 := SFadd prec emax a b.
Definition sub (a b : f64) : f64 := SFsub prec emax a b.
Definition mul (a b : f64) : f64 := SFmul prec emax a b.
Definition div (a b : f64) : f64 := SFdiv prec emax a b.
Definition neg (a : f64) : f64 := SFopp a.
(** [n as f64]: round to nearest even. *)
Definition of_i64 (n : Z) : f64 := binary_normalize prec emax n 0 false.
(** Rust's [%] on f64, C's [fmod]: the exact remainder of the truncated quotient, with the sign of
    the dividend. *)
Definition rem (a b : f64) : f64 :=
  match a, b with
  | S754_nan, _ | _, S754_nan => S754_nan
  | S754_infinity _, _ => S754_nan
  | _, S754_zero _ => S754_nan
  | _, S754_infinity _ => a
  | S754_zero _, _ => a
  | S754_finite sx mx ex, S754_finite _ my ey =>
      let e := Z.min ex ey in
      let x := Z.shiftl (Zpos mx) (ex - e) in
      let y := Z.shiftl (Zpos my) (ey - e) in
      let r := Z.rem x y in
      if r =? 0 then S754_zero sx
      else binary_normalize prec emax (if sx then - r else r) e sx
  end.
Definition is_zero (a : f64) : bool :=
  match a with S754_zero _ => true | _ => false end.
(** [partial_cmp]. *)
Definition compare (a b : f64) : option comparison := SFcompare a b.
End F64.

(** The floats a machine word can hold: the mantissa is the canonical one of its exponent. *)
Definition float_ok (f : F64.f64) : Prop := valid_binary F64.prec F64.emax f = true.

Lemma digits_log2 m : Zpos (digits2_pos m) = (Z.log2 (Zpos m) + 1)%Z.
Proof.
  induction m as [m IH|m IH|]; simpl digits2_pos; [| |done]; rewrite Pos2Z.inj_succ, IH.
  - rewrite (Pos2Z.inj_xI m), Z.log2_succ_double; lia.
  - rewrite (Pos2Z.inj_xO m), Z.log2_double; lia.
Qed.

Lemma shl_pos d m : Zpos (Pos.iter xO m d) = (Zpos m * 2 ^ Zpos d)%Z.
Proof.
  induction d as [|d IH] using Pos.peano_ind; [simpl; lia|]. rewrite Pos.iter_succ, Pos2Z.inj_xO, IH, Pos2Z.inj_succ, Z.pow_succ_r by lia. lia.
Qed.
