(* ===== verification/Consteval.v ===== *)
(** * Constant evaluation: [src/src/ast/consteval.rs]

    The one owner of an int operation's value and fault: the checker's overflow lint, the compiler's
    peephole fold and the VM's int operations all read [int_binop].  This file models the operator
    types of [ast/mod.rs], the fault values and their run-time text, the int and float operations,
    and the constant folder [eval_noting] over the expression tree. *)

From stdpp Require Import strings pretty.
From S2P Require Import Prelude.
Import F64.
Local Open Scope Z_scope.

(** ** Source spans and operators *)

(** [Span]: a source position, [lexer/mod.rs]. *)
Record Span := mkSpan { line : Z; col : Z; file : Z }.
#[global] Instance Span_eq_dec : EqDecision Span.
Proof. solve_decision. Defined.

Inductive UnaryOp := UNeg | UNot | UErrVal | UWrap.

Module BinaryOp.
Inductive t :=
| Add | Sub | Mul | Div | Mod
| Lt | LtEq | Gt | GtEq | Eq | NotEq
| And | Or
| BitAnd | BitOr | BitXor | Shl | Shr
| In.
End BinaryOp.
Abbreviation BinaryOp := BinaryOp.t.
#[global] Instance BinaryOp_eq_dec : EqDecision BinaryOp.
Proof. solve_decision. Defined.

(** ** Faults *)

Inductive IntOp := OpBin (op : BinaryOp) | OpNeg | OpAbs | OpLcm | OpGcd.
Inductive IntFault :=
| Overflow (op : IntOp)
| DivByZero
| ModByZero
| ShiftRange (b : Z).
#[global] Instance IntOp_eq_dec : EqDecision IntOp.
Proof. solve_decision. Defined.
#[global] Instance IntFault_eq_dec : EqDecision IntFault.
Proof. solve_decision. Defined.

(** The protocol that names a binary operator: [Hook::of_binary(op).protocol()] of
    [base/hooks.rs].  [and]/[or] have no hook. *)
Definition binary_protocol (op : BinaryOp) : option string :=
  match op with
  | BinaryOp.Add => Some "Add" | BinaryOp.Sub => Some "Sub" | BinaryOp.Mul => Some "Mul"
  | BinaryOp.Div => Some "Div" | BinaryOp.Mod => Some "Mod"
  | BinaryOp.Lt | BinaryOp.LtEq | BinaryOp.Gt | BinaryOp.GtEq => Some "Comparable"
  | BinaryOp.Eq | BinaryOp.NotEq => Some "Eq"
  | BinaryOp.In => Some "Contains"
  | BinaryOp.BitAnd => Some "BitAnd" | BinaryOp.BitOr => Some "BitOr"
  | BinaryOp.BitXor => Some "BitXor"
  | BinaryOp.Shl => Some "Shl" | BinaryOp.Shr => Some "Shr"
  | BinaryOp.And | BinaryOp.Or => None
  end.

(** [IntFault::message] at the naming closure [protocol]. *)
Definition message (f : IntFault) (protocol : BinaryOp -> string) : string :=
  match f with
  | Overflow op =>
      let name := match op with
                  | OpBin b => protocol b
                  | OpNeg => "negation" | OpAbs => "abs" | OpLcm => "lcm" | OpGcd => "gcd"
                  end in
      "integer overflow in " +:+ name
  | DivByZero => "division by zero"
  | ModByZero => "modulo by zero"
  | ShiftRange b => "shift amount " +:+ pretty b +:+ " out of range (0..64)"
  end.

(** ** The int operations *)

(** The fault the right operand alone decides. *)
Definition operand_fault (op : BinaryOp) (b : Z) : option IntFault :=
  match op with
  | BinaryOp.Div => if b =? 0 then Some DivByZero else None
  | BinaryOp.Mod => if b =? 0 then Some ModByZero else None
  | BinaryOp.Shl | BinaryOp.Shr =>
      if negb ((0 <=? b) && (b <? 64)) then Some (ShiftRange b) else None
  | _ => None
  end.

Definition int_neg (a : Z) : result Z IntFault :=
  ok_or (I64.checked_neg a) (Overflow OpNeg).

Definition int_binop (op : BinaryOp) (a b : Z) : option (result Z IntFault) :=
  match operand_fault op b with
  | Some f => Some (Err f)
  | None =>
      let overflow := Overflow (OpBin op) in
      match op with
      | BinaryOp.Add => Some (ok_or (I64.checked_add a b) overflow)
      | BinaryOp.Sub => Some (ok_or (I64.checked_sub a b) overflow)
      | BinaryOp.Mul => Some (ok_or (I64.checked_mul a b) overflow)
      | BinaryOp.Div => Some (ok_or (I64.checked_div a b) overflow)
      | BinaryOp.Mod => Some (Ok (I64.wrapping_rem a b))
      | BinaryOp.BitAnd => Some (Ok (Z.land a b))
      | BinaryOp.BitOr => Some (Ok (Z.lor a b))
      | BinaryOp.BitXor => Some (Ok (Z.lxor a b))
      | BinaryOp.Shl =>
          let v := I64.shl a b in
          Some (if I64.shr v b =? a then Ok v else Err overflow)
      | BinaryOp.Shr => Some (Ok (I64.shr a b))
      | _ => None
      end
  end.

Definition float_binop (op : BinaryOp) (a b : f64) : option f64 :=
  match op with
  | BinaryOp.Add => Some (F64.add a b)
  | BinaryOp.Sub => Some (F64.sub a b)
  | BinaryOp.Mul => Some (F64.mul a b)
  | BinaryOp.Div => if F64.is_zero b then None else Some (F64.div a b)
  | BinaryOp.Mod => if F64.is_zero b then None else Some (F64.rem a b)
  | _ => None
  end.

(** ** The constant folder *)

(** The expression kinds [eval_noting] does not descend into. *)
Inductive OtherKind :=
| KStr | KInterp | KBytes | KRawStr | KBool | KNoneLit | KPass | KIdent | KList | KTuple | KMap
| KSet | KComprehension | KCompare | KRange | KCall | KField | KIndex | KTry | KOptChain
| KNullCoalesce | KClosure | KMatch | KIfElse | KRecover | KElseGuard.

(** [Expr] with the node kinds the folder reads; a node of any other kind is its kind alone, since
    the folder answers [NotConst] without reading its children. *)
Inductive Expr :=
| EInt (n : Z) (span : Span)
| EFloat (f : f64) (span : Span)
| EUnary (op : UnaryOp) (expr : Expr) (span : Span)
| EBinary (op : BinaryOp) (lhs rhs : Expr) (span : Span)
| EOther (k : OtherKind) (span : Span).

Inductive Const := CInt (n : Z) | CFloat (f : f64).

Inductive Fold :=
| FValue (c : Const)
| FFault (span : Span) (f : IntFault)
| FNotConst.

(** A noted node: [note(span, op, fault)]. *)
Definition Note : Type := Span * BinaryOp * IntFault.

(** [eval_noting]: the fold of [e], the visit counter and the notes, both threaded left to right
    as the source's [&mut] arguments are. *)
Fixpoint eval_noting (e : Expr) (visits : nat) (notes : list Note) : Fold * nat * list Note :=
  let visits := S visits in
  match e with
  | EInt n _ => (FValue (CInt n), visits, notes)
  | EFloat f _ => (FValue (CFloat f), visits, notes)
  | EUnary UNeg expr span =>
      match eval_noting expr visits notes with
      | (FValue (CInt v), vs, ns) =>
          (match int_neg v with Ok n => FValue (CInt n) | Err f => FFault span f end, vs, ns)
      | (FValue (CFloat f), vs, ns) => (FValue (CFloat (F64.neg f)), vs, ns)
      | (other, vs, ns) => (other, vs, ns)
      end
  | EBinary op lhs rhs span =>
      let '(l, vs, ns) := eval_noting lhs visits notes in
      let '(r, vs, ns) := eval_noting rhs vs ns in
      let ns :=
        match l, r with
        | FNotConst, FValue (CInt b) =>
            match operand_fault op b with Some f => ns ++ [(span, op, f)] | None => ns end
        | _, _ => ns
        end in
      (match l, r with
       | FFault s f, _ => FFault s f
       | _, FFault s f => FFault s f
       | FValue (CInt a), FValue (CInt b) =>
           match int_binop op a b with
           | Some (Ok v) => FValue (CInt v)
           | Some (Err f) => FFault span f
           | None => FNotConst
           end
       | FValue (CFloat a), FValue (CFloat b) =>
           match float_binop op a b with
           | Some v => FValue (CFloat v)
           | None => FNotConst
           end
       | _, _ => FNotConst
       end, vs, ns)
  | EUnary _ _ _ | EOther _ _ => (FNotConst, visits, notes)
  end.

(** [eval]: the fold with no note sink. *)
Definition eval (e : Expr) (visits : nat) : Fold * nat :=
  let '(f, vs, _) := eval_noting e visits [] in (f, vs).

Definition fold_of (e : Expr) : Fold := (eval e 0).1.

(** ** Reference semantics of an int operation

    [exact op a b] is the mathematical result on unbounded integers: truncated quotient and
    remainder, two's-complement bit operations, multiplication and floored division by a power of
    two for the shifts. *)
Definition exact (op : BinaryOp) (a b : Z) : option Z :=
  match op with
  | BinaryOp.Add => Some (a + b)
  | BinaryOp.Sub => Some (a - b)
  | BinaryOp.Mul => Some (a * b)
  | BinaryOp.Div => Some (Z.quot a b)
  | BinaryOp.Mod => Some (Z.rem a b)
  | BinaryOp.BitAnd => Some (Z.land a b)
  | BinaryOp.BitOr => Some (Z.lor a b)
  | BinaryOp.BitXor => Some (Z.lxor a b)
  | BinaryOp.Shl => Some (a * 2 ^ b)
  | BinaryOp.Shr => Some (a / 2 ^ b)
  | _ => None
  end.

(** The number of nodes of the maximal arithmetic tree at the root of [e]. *)
Fixpoint arith_nodes (e : Expr) : nat :=
  match e with
  | EUnary UNeg e _ => S (arith_nodes e)
  | EBinary _ l r _ => S (arith_nodes l + arith_nodes r)
  | _ => 1
  end.

(** ** Range lemmas for the bit operations *)

(** [ok z] as a statement on the sign-extension bits. *)
Lemma ok_testbit z : I64.ok z <-> (forall i, 63 <= i -> Z.testbit z i = Z.testbit z 63).
Proof.
  unfold I64.ok, I64.MIN, I64.MAX. split.
  - intros H i Hi. destruct (Z.neg_nonneg_cases z) as [Hn|Hp].
    + assert (E : forall j, 63 <= j -> Z.testbit z j = true).
      { intros j Hj. apply Z.bits_iff_neg_ex in Hn as Hneg.
        rewrite <- (Z.lnot_involutive z). rewrite Z.lnot_spec by lia.
        rewrite (Z.bits_above_log2 (Z.lnot z)); [reflexivity | unfold Z.lnot; lia|].
        unfold Z.lnot. destruct (Z.eq_dec (Z.pred (- z)) 0) as [->|]; [reflexivity || (simpl; lia)|].
        apply Z.lt_le_trans with 63; [|lia]. apply Z.log2_lt_pow2; lia. }
      rewrite !E; auto; lia.
    + assert (E : forall j, 63 <= j -> Z.testbit z j = false).
      { intros j Hj. apply Z.bits_above_log2; [lia|].
        destruct (Z.eq_dec z 0) as [->|]; [simpl; lia|].
        apply Z.lt_le_trans with 63; [|lia]. apply Z.log2_lt_pow2; lia. }
      rewrite !E; auto; lia.
  - intros H. assert (Hs : Z.shiftr z 63 = 0 \/ Z.shiftr z 63 = -1).
    { destruct (Z.testbit z 63) eqn:E; [right | left]; apply Z.bits_inj'; intros n Hn;
        rewrite Z.shiftr_spec, H by lia; [rewrite Z.bits_m1 | rewrite Z.bits_0]; auto. }
    rewrite Z.shiftr_div_pow2 in Hs by lia.
    pose proof (Z.div_mod z (2 ^ 63)). pose proof (Z.mod_pos_bound z (2 ^ 63)). lia.
Qed.

Lemma ok_bitop f a b :
  (forall x y i, 0 <= i -> Z.testbit (f x y) i =
     (fun p q => Z.testbit (f (if p : bool then -1 else 0) (if q : bool then -1 else 0)) 0)
       (Z.testbit x i) (Z.testbit y i)) ->
  I64.ok a -> I64.ok b -> I64.ok (f a b).
Proof.
  rewrite !ok_testbit. intros Hf Ha Hb i Hi.
  rewrite !(Hf a b) by lia. rewrite (Ha i Hi), (Hb i Hi). reflexivity.
Qed.

Lemma ok_land a b : I64.ok a -> I64.ok b -> I64.ok (Z.land a b).
Proof.
  apply ok_bitop. intros x y i Hi. rewrite Z.land_spec.
  destruct (Z.testbit x i), (Z.testbit y i); reflexivity.
Qed.
Lemma ok_lor a b : I64.ok a -> I64.ok b -> I64.ok (Z.lor a b).
Proof.
  apply ok_bitop. intros x y i Hi. rewrite Z.lor_spec.
  destruct (Z.testbit x i), (Z.testbit y i); reflexivity.
Qed.
Lemma ok_lxor a b : I64.ok a -> I64.ok b -> I64.ok (Z.lxor a b).
Proof.
  apply ok_bitop. intros x y i Hi. rewrite Z.lxor_spec.
  destruct (Z.testbit x i), (Z.testbit y i); reflexivity.
Qed.

Lemma ok_div_pow2 a b : 0 <= b -> I64.ok a -> I64.ok (a / 2 ^ b).
Proof.
  unfold I64.ok, I64.MIN, I64.MAX. intros Hb Ha.
  assert (1 <= 2 ^ b) by (pose proof (Z.pow_pos_nonneg 2 b); lia).
  pose proof (Z.div_mod a (2 ^ b)). pose proof (Z.mod_pos_bound a (2 ^ b)). nia.
Qed.

Lemma ok_rem a b : b <> 0 -> I64.ok a -> I64.ok (Z.rem a b).
Proof.
  unfold I64.ok, I64.MIN, I64.MAX. intros Hb Ha.
  pose proof (Z.quot_rem' a b). pose proof (Z.rem_sign_mul a b).
  destruct (Z.le_ge_cases 0 a).
  - pose proof (Z.rem_nonneg a b Hb). pose proof (Z.rem_le a (Z.abs b)).
    rewrite Z.rem_abs_r in * by lia. lia.
  - pose proof (Z.rem_nonpos a b Hb). pose proof (Z.rem_le (- a) (Z.abs b)).
    rewrite Z.rem_abs_r, Z.rem_opp_l in * by lia. lia.
Qed.

(** The shift-back test of [Shl] decides exactly whether [a * 2^b] fits. *)
Lemma shl_back a b :
  0 <= b < 64 -> I64.ok a -> (I64.shr (I64.shl a b) b =? a) = I64.is_i64 (a * 2 ^ b).
Proof.
  intros Hb Ha. unfold I64.shl, I64.shr.
  rewrite Z.shiftl_mul_pow2, Z.shiftr_div_pow2 by lia.
  assert (Hp : 1 <= 2 ^ b) by (pose proof (Z.pow_pos_nonneg 2 b); lia).
  destruct (I64.is_i64 (a * 2 ^ b)) eqn:E.
  - rewrite I64.wrap_id by auto with i64.
    rewrite Z.div_mul by lia. apply Z.eqb_refl.
  - apply Z.eqb_neq. intros Heq.
    assert (Hm : (I64.wrap (a * 2 ^ b)) mod 2 ^ b = 0).
    { unfold I64.wrap. replace (2 ^ 63) with (2 ^ (63 - b) * 2 ^ b) by
        (rewrite <- Z.pow_add_r by lia; f_equal; lia).
      replace (2 ^ 64) with (2 ^ (64 - b) * 2 ^ b) by
        (rewrite <- Z.pow_add_r by lia; f_equal; lia).
      rewrite <- Z.mul_add_distr_r, Z.mul_mod_distr_r by lia.
      rewrite <- Z.mul_sub_distr_r. apply Z.mod_mul. lia. }
    pose proof (Z.div_mod (I64.wrap (a * 2 ^ b)) (2 ^ b) ltac:(lia)) as Hd.
    rewrite Hm, Heq in Hd.
    assert (Hok := I64.wrap_ok (a * 2 ^ b)).
    assert (I64.ok (a * 2 ^ b)) as Hc by (rewrite Hd in Hok; revert Hok; rewrite Z.mul_comm, Z.add_0_r; auto).
    apply I64.is_i64_spec in Hc. congruence.
Qed.

(** ** The int operations are exact or faulting *)

Lemma int_binop_spec (op : BinaryOp) (a b : Z) (Ha : I64.ok a) (Hb : I64.ok b) :
  int_binop op a b =
    (fun m => match operand_fault op b with
              | Some f => Err f
              | None => if I64.is_i64 m then Ok m else Err (Overflow (OpBin op))
              end) <$> exact op a b.
Proof.
  assert (Hin : forall m, I64.ok m -> I64.is_i64 m = true) by (intros; by apply I64.is_i64_spec).
  unfold int_binop, operand_fault, exact.
  destruct op; simpl; try reflexivity;
    unfold I64.checked_add, I64.checked_sub, I64.checked_mul, I64.checked_div, I64.checked;
    repeat case_match; simpl in *; try reflexivity; try congruence;
    try (rewrite Hin in * by auto using ok_land, ok_lor, ok_lxor; congruence || reflexivity).
  - rewrite Z.eqb_neq in *. unfold I64.wrapping_rem in *.
    rewrite (Hin (Z.rem a b)) in * by (by apply ok_rem). congruence.
  - rewrite shl_back in * by (auto; lia).
    unfold I64.shl. rewrite Z.shiftl_mul_pow2 by lia.
    rewrite I64.wrap_id by auto with i64. done.
  - rewrite shl_back in * by (auto; lia). congruence.
  - rewrite shl_back in * by (auto; lia). congruence.
  - unfold I64.shr. by rewrite Z.shiftr_div_pow2 by lia.
  - rewrite Hin in * by (apply ok_div_pow2; [lia|auto]). congruence.
Qed.

(** An int operation of the language computes the exact mathematical result whenever that
    result fits an [i64], and otherwise raises the fault of its right operand (zero divisor, shift
    amount outside 0..64) or the overflow fault that names the operator; it never wraps. *)
Lemma int_binop_exact (op : BinaryOp) (a b : Z) (Ha : I64.ok a) (Hb : I64.ok b) :
  int_binop op a b =
    (fun m => match operand_fault op b with
              | Some f => Err f
              | None => if I64.is_i64 m then Ok m else Err (Overflow (OpBin op))
              end) <$> exact op a b.
Proof. by apply int_binop_spec. Qed.

(** The witness at [-1 << 63], which fits. *)
Lemma int_neg_exact a :
  int_neg a = if I64.is_i64 (- a) then Ok (- a) else Err (Overflow OpNeg).
Proof. unfold int_neg, I64.checked_neg, I64.checked. by destruct (I64.is_i64 _). Qed.

(** The value of a successful int operation is an [i64]. *)
Lemma int_binop_closed op a b v :
  I64.ok a -> I64.ok b -> int_binop op a b = Some (Ok v) -> I64.ok v.
Proof.
  intros Ha Hb. rewrite int_binop_spec by done.
  destruct (exact op a b); simpl; [|done].
  destruct (operand_fault op b); [done|].
  destruct (I64.is_i64 z) eqn:E; intros [= <-]. by apply I64.is_i64_spec.
Qed.

(** ** The folder *)

(** The threaded arguments only accumulate. *)
Lemma eval_noting_frame e visits notes :
  eval_noting e visits notes =
    (fold_of e, (visits + arith_nodes e)%nat, notes ++ (eval_noting e 0 []).2).
Proof.
  revert visits notes. unfold fold_of, eval.
  induction e as [n s|f s|op e IH s|op l IHl r IHr s|k s]; intros visits notes;
    simpl; rewrite ?app_nil_r; try (repeat f_equal; lia).
  - destruct op; simpl; rewrite ?app_nil_r; try (repeat f_equal; lia).
    rewrite (IH (S visits)), (IH 1%nat).
    destruct (eval_noting e 0 []) as [[c v] ns]; simpl.
    destruct c as [[]| |]; simpl; repeat f_equal; lia.
  - rewrite (IHl (S visits)), (IHl 1%nat).
    destruct (eval_noting l 0 []) as [[cl vl] nl] eqn:El; simpl.
    rewrite (IHr _ (notes ++ nl)), (IHr _ nl).
    destruct (eval_noting r 0 []) as [[cr vr] nr] eqn:Er; simpl.
    destruct cl as [[]| |], cr as [[]| |]; try destruct (operand_fault op _); simpl;
      rewrite ?app_assoc; repeat f_equal; lia.
Qed.

(** The constant scan enters every node of the maximal arithmetic tree exactly once, so it is
    linear in the tree: the visit counter grows by the tree's node count. *)
Lemma eval_visits_linear (e : Expr) (visits : nat) :
  (eval e visits).2 = (visits + arith_nodes e)%nat.
Proof. unfold eval. by rewrite eval_noting_frame. Qed.

(** [subexpr n e]: [n] is a node of the arithmetic tree the scan enters. *)
Inductive subexpr : Expr -> Expr -> Prop :=
| sub_refl e : subexpr e e
| sub_neg n e s : subexpr n e -> subexpr n (EUnary UNeg e s)
| sub_lhs n op l r s : subexpr n l -> subexpr n (EBinary op l r s)
| sub_rhs n op l r s : subexpr n r -> subexpr n (EBinary op l r s).

(** A node whose operands fold to ints and whose own operation faults with [f] at span [s]. *)
Inductive faulting_node : Expr -> Span -> IntFault -> Prop :=
| fault_neg e s v f :
    fold_of e = FValue (CInt v) -> int_neg v = Err f -> faulting_node (EUnary UNeg e s) s f
| fault_bin op l r s a b f :
    fold_of l = FValue (CInt a) -> fold_of r = FValue (CInt b) ->
    int_binop op a b = Some (Err f) -> faulting_node (EBinary op l r s) s f.

Create HintDb consteval.
#[export] Hint Constructors subexpr faulting_node : consteval.

Lemma fold_of_neg e s :
  fold_of (EUnary UNeg e s) =
    match fold_of e with
    | FValue (CInt v) => match int_neg v with Ok n => FValue (CInt n) | Err f => FFault s f end
    | FValue (CFloat f) => FValue (CFloat (F64.neg f))
    | o => o
    end.
Proof.
  unfold fold_of at 1, eval. simpl. rewrite eval_noting_frame.
  by destruct (fold_of e) as [[]| |].
Qed.

Lemma fold_of_bin op l r s :
  fold_of (EBinary op l r s) =
    match fold_of l, fold_of r with
    | FFault s f, _ => FFault s f
    | _, FFault s f => FFault s f
    | FValue (CInt a), FValue (CInt b) =>
        match int_binop op a b with
        | Some (Ok v) => FValue (CInt v)
        | Some (Err f) => FFault s f
        | None => FNotConst
        end
    | FValue (CFloat a), FValue (CFloat b) =>
        match float_binop op a b with Some v => FValue (CFloat v) | None => FNotConst end
    | _, _ => FNotConst
    end.
Proof.
  unfold fold_of at 1, eval. simpl. rewrite eval_noting_frame, (eval_noting_frame r).
  by destruct (fold_of l) as [[]| |], (fold_of r) as [[]| |].
Qed.

(** A reported constant fault is the fault of an innermost node: some node of the tree carries
    the reported span, its operands fold to values (so nothing below it faults), and its own
    operation raises the reported fault. *)
Lemma eval_fault_innermost (e : Expr) (s : Span) (f : IntFault) :
  fold_of e = FFault s f -> exists n, subexpr n e /\ faulting_node n s f.
Proof.
  induction e as [n s'|x s'|op e IH s'|op l IHl r IHr s'|k s']; try discriminate.
  - destruct op; try discriminate. rewrite fold_of_neg.
    destruct (fold_of e) as [[v|v]|s0 f0|] eqn:E; try discriminate.
    + destruct (int_neg v) eqn:En; [discriminate|]. intros [= -> ->]. eauto with consteval.
    + intros H. destruct (IH H) as (n & ? & ?). eauto with consteval.
  - rewrite fold_of_bin. intros H.
    destruct (fold_of l) as [[a|a]|s0 f0|] eqn:El, (fold_of r) as [[b|b]|s1 f1|] eqn:Er;
      try discriminate;
      try (destruct (IHl H) as (n & ? & ?); by eauto with consteval);
      try (destruct (IHr H) as (n & ? & ?); by eauto with consteval).
    + destruct (int_binop op a b) as [[]|] eqn:Eb; try discriminate.
      injection H as -> ->. eauto with consteval.
    + by destruct (float_binop op a b).
Qed.

Definition sp (c : Z) : Span := mkSpan 1 c 0.

(** The witness: [(9223372036854775807 + 1) * 2] reports its inner addition. *)
(** Every noted node faults, with the noted fault, for every int value of its non-constant
    left operand; so the checker may report it without knowing that operand. *)
Lemma eval_notes_sound (e : Expr) (visits : nat) (s : Span) (op : BinaryOp) (f : IntFault) :
  In (s, op, f) (eval_noting e visits []).2 ->
  exists l r b, subexpr (EBinary op l r s) e /\ fold_of l = FNotConst /\
    fold_of r = FValue (CInt b) /\ forall a, int_binop op a b = Some (Err f).
Proof.
  rewrite eval_noting_frame. simpl.
  induction e as [n s'|x s'|uop e IH s'|bop l IHl r IHr s'|k s']; try contradiction.
  - destruct uop; try contradiction. intros H.
    assert (H' : In (s, op, f) (eval_noting e 0 []).2).
    { revert H. simpl. rewrite eval_noting_frame. simpl. by destruct (fold_of e) as [[]| |]. }
    destruct (IH H') as (l & r & b & ? & ?). exists l, r, b. split; [by constructor | done].
  - simpl. rewrite eval_noting_frame, (eval_noting_frame r). simpl. intros H.
    assert (Hcases : In (s, op, f) ((eval_noting l 0 []).2 ++ (eval_noting r 0 []).2) \/
      exists b, (s', bop) = (s, op) /\ fold_of l = FNotConst /\ fold_of r = FValue (CInt b) /\
        operand_fault bop b = Some f).
    { destruct (fold_of l) as [[]| |], (fold_of r) as [[b|]| |]; auto.
      destruct (operand_fault bop b) eqn:Eo; [|auto].
      apply in_app_or in H as [H|[[= <- <- <-]|[]]]; [auto|]. right. exists b. auto. }
    destruct Hcases as [[H'|H']%in_app_or|(b & [= -> ->] & Hl & Hr & Hof)].
    + destruct (IHl H') as (l' & r' & b & ? & ?). exists l', r', b. split; [by constructor | done].
    + destruct (IHr H') as (l' & r' & b & ? & ?). exists l', r', b. split; [by constructor | done].
    + exists l, r, b. repeat split; auto with consteval.
      intros a. unfold int_binop. by rewrite Hof.
Qed.

