(* ===== verification/Value.v ===== *)
(** * Tagged values: [src/src/vm/value.rs]

    A run-time value is one 64-bit word.  A word is a [Z] in [0 .. 2^64); each constructor and
    reader below is the bit expression of the source.  [tagged] is the set of values the words
    stand for; the round trip [decode_encode] says the tag layout loses nothing. *)

From S2P Require Import Prelude.
Local Open Scope Z_scope.

Definition word_ok (w : Z) : Prop := 0 <= w < 2 ^ 64.
Definition u32_ok (r : Z) : Prop := 0 <= r < 2 ^ 32.

(** [n as u64] and [w as i64]. *)
Definition to_u64 (n : Z) : Z := n mod 2 ^ 64.
Definition to_i64 (w : Z) : Z := I64.wrap w.
(** [w as u32]. *)
Definition to_u32 (w : Z) : Z := w mod 2 ^ 32.

Definition TAG_INT_BIT : Z := 1.
Definition TAG_MASK : Z := 7.
Definition TAG_OBJ : Z := 0.
Definition TAG_FLOAT : Z := 2.
Definition NIL : Z := 4.
Definition FALSE : Z := 12.
Definition TRUE : Z := 20.
Definition UNINIT : Z := 28.

Module Value.
Definition INT_MAX_INLINE : Z := 2 ^ 62 - 1.
Definition INT_MIN_INLINE : Z := - 2 ^ 62.
Definition int (n : Z) : Z := Z.lor (to_u64 (Z.shiftl (to_u64 n) 1)) TAG_INT_BIT.
Definition bool (b : Datatypes.bool) : Z := if b then TRUE else FALSE.
Definition nil : Z := NIL.
Definition uninit (line : Z) : Z := Z.lor (to_u64 (Z.shiftl line 5)) UNINIT.
Definition is_uninit (w : Z) : Datatypes.bool := Z.land w 31 =? UNINIT.
Definition uninit_line (w : Z) : Z := to_u32 (Z.shiftr w 5).
Definition obj (r : Z) : Z := Z.lor (to_u64 (Z.shiftl r 3)) TAG_OBJ.
Definition float_ref (r : Z) : Z := Z.lor (to_u64 (Z.shiftl r 3)) TAG_FLOAT.
Definition is_int (w : Z) : Datatypes.bool := Z.land w TAG_INT_BIT =? TAG_INT_BIT.
Definition as_int (w : Z) : Z := I64.shr (to_i64 w) 1.
Definition as_int_inline (w : Z) : option Z := if is_int w then Some (I64.shr (to_i64 w) 1) else None.
Definition is_obj (w : Z) : Datatypes.bool := Z.land w TAG_MASK =? TAG_OBJ.
Definition is_float (w : Z) : Datatypes.bool := Z.land w TAG_MASK =? TAG_FLOAT.
Definition as_gcref (w : Z) : Z := to_u32 (Z.shiftr w 3).
Definition as_obj (w : Z) : option Z := if is_obj w then Some (as_gcref w) else None.
Definition is_nil (w : Z) : Datatypes.bool := w =? NIL.
Definition as_bool (w : Z) : option Datatypes.bool :=
  if w =? TRUE then Some true else if w =? FALSE then Some false else None.
Definition child_gcref (w : Z) : option Z :=
  let t := Z.land w TAG_MASK in
  if (t =? TAG_OBJ) || (t =? TAG_FLOAT) then Some (as_gcref w) else None.

Inductive ValueView := VInt (n : Z) | VBool (b : Datatypes.bool) | VNil | VObj (r : Z).
Definition view (w : Z) : ValueView :=
  if Z.land w TAG_INT_BIT =? TAG_INT_BIT then VInt (I64.shr (to_i64 w) 1)
  else if w =? NIL then VNil
  else if w =? TRUE then VBool true
  else if w =? FALSE then VBool false
  else VObj (as_gcref w).
End Value.
Export (hints) Value.

(** ** The values a word stands for *)

Inductive tagged :=
| TInt (n : Z) | TObj (r : Z) | TFloat (r : Z) | TNil | TBool (b : bool) | TUninit (line : Z).

Definition tagged_ok (t : tagged) : Prop :=
  match t with
  | TInt n => Value.INT_MIN_INLINE <= n <= Value.INT_MAX_INLINE
  | TObj r | TFloat r | TUninit r => u32_ok r
  | _ => True
  end.

Definition encode (t : tagged) : Z :=
  match t with
  | TInt n => Value.int n
  | TObj r => Value.obj r
  | TFloat r => Value.float_ref r
  | TNil => Value.nil
  | TBool b => Value.bool b
  | TUninit l => Value.uninit l
  end.

(** Classification by the source's own readers. *)
Definition decode (w : Z) : option tagged :=
  match Value.as_int_inline w with
  | Some n => Some (TInt n)
  | None =>
      match Value.as_obj w with
      | Some r => Some (TObj r)
      | None =>
          if Value.is_float w then Some (TFloat (Value.as_gcref w))
          else if Value.is_uninit w then Some (TUninit (Value.uninit_line w))
          else if Value.is_nil w then Some TNil
          else TBool <$> Value.as_bool w
      end
  end.

(** ** Every encoded word, as high part and tag *)

Lemma int_eq n : Value.int n = (n mod 2 ^ 63) * 2 + 1.
Proof.
  unfold Value.int, to_u64, TAG_INT_BIT.
  rewrite Z.shiftl_mul_pow2 by lia. change (2 ^ 64) with (2 ^ 63 * 2 ^ 1).
  rewrite Z.mul_mod_distr_r by lia.
  rewrite lor_low by lia. f_equal. change (2 ^ 1) with 2. f_equal.
  apply Z.mod_mod_divide. exists 2. reflexivity.
Qed.

Lemma shifted_eq r k tag : 0 <= k <= 32 -> u32_ok r -> 0 <= tag < 2 ^ k ->
  Z.lor (to_u64 (Z.shiftl r k)) tag = r * 2 ^ k + tag.
Proof.
  unfold u32_ok, to_u64. intros Hk Hr Ht. rewrite Z.shiftl_mul_pow2 by lia.
  assert (2 ^ k <= 2 ^ 32) by (apply Z.pow_le_mono_r; lia).
  rewrite Z.mod_small by nia. apply lor_low; lia.
Qed.

Lemma obj_eq r : u32_ok r -> Value.obj r = r * 8.
Proof. intros. unfold Value.obj, TAG_OBJ. rewrite shifted_eq by (auto; lia). lia. Qed.
Lemma float_ref_eq r : u32_ok r -> Value.float_ref r = r * 8 + 2.
Proof. intros. unfold Value.float_ref, TAG_FLOAT. by rewrite shifted_eq by (auto; lia). Qed.
Lemma uninit_eq l : u32_ok l -> Value.uninit l = l * 32 + 28.
Proof. intros. unfold Value.uninit, UNINIT. by rewrite shifted_eq by (auto; lia). Qed.

(** The readers as arithmetic on the word. *)
Lemma is_int_eq w : Value.is_int w = (w mod 2 =? 1).
Proof. unfold Value.is_int, TAG_INT_BIT. f_equal. exact (land_low w 1 ltac:(lia)). Qed.
Lemma tag_eq w : Z.land w TAG_MASK = w mod 8.
Proof. unfold TAG_MASK. exact (land_low w 3 ltac:(lia)). Qed.
Lemma low5_eq w : Z.land w 31 = w mod 32.
Proof. exact (land_low w 5 ltac:(lia)). Qed.
Lemma as_gcref_eq w : Value.as_gcref w = (w / 8) mod 2 ^ 32.
Proof. unfold Value.as_gcref, to_u32. by rewrite Z.shiftr_div_pow2 by lia. Qed.

Create Rewrite HintDb word.
#[export] Hint Rewrite is_int_eq tag_eq low5_eq as_gcref_eq : word.

Lemma as_int_int n :
  Value.INT_MIN_INLINE <= n <= Value.INT_MAX_INLINE ->
  I64.shr (to_i64 (Value.int n)) 1 = n.
Proof.
  unfold Value.INT_MIN_INLINE, Value.INT_MAX_INLINE. intros H.
  rewrite int_eq. unfold I64.shr, to_i64, I64.wrap. rewrite Z.shiftr_div_pow2 by lia.
  destruct (Z.neg_nonneg_cases n) as [Hn|Hn].
  - replace (n mod 2 ^ 63) with (n + 2 ^ 63) by
      (symmetry; rewrite <- (Z.mod_add n 1) by lia; apply Z.mod_small; lia).
    replace ((n + 2 ^ 63) * 2 + 1 + 2 ^ 63) with (n * 2 + 1 + 2 ^ 63 + 1 * 2 ^ 64) by lia.
    rewrite Z.mod_add, Z.mod_small by lia.
    replace (n * 2 + 1 + 2 ^ 63 - 2 ^ 63) with (1 + n * 2) by lia.
    change (2 ^ 1) with 2. rewrite Z.div_add by lia. reflexivity.
  - rewrite (Z.mod_small n) by lia. rewrite Z.mod_small by lia.
    replace (n * 2 + 1 + 2 ^ 63 - 2 ^ 63) with (1 + n * 2) by lia.
    change (2 ^ 1) with 2. rewrite Z.div_add by lia. reflexivity.
Qed.

(** The low bits and the payload of a shifted word. *)
Lemma word_fields r k tag : 0 < k -> 0 <= tag < k -> (r * k + tag) mod k = tag /\ (r * k + tag) / k = r.
Proof.
  intros Hk Ht. rewrite Z.add_comm, Z.mod_add, Z.div_add by lia.
  rewrite Z.mod_small, Z.div_small by lia. lia.
Qed.

Ltac word_arith :=
  autorewrite with word in *;
  unfold u32_ok, word_ok, TAG_OBJ, TAG_FLOAT, NIL, TRUE, FALSE, UNINIT in *.

Lemma decode_shifted r tag :
  u32_ok r -> (tag = 0 \/ tag = 2) ->
  decode (r * 8 + tag) = Some (if tag =? 0 then TObj r else TFloat r).
Proof.
  intros Hr Ht. unfold decode, Value.as_int_inline, Value.as_obj, Value.is_obj, Value.is_float.
  word_arith.
  destruct (word_fields r 8 tag) as [-> ->]; [lia|lia|].
  rewrite Z.mod_small with (a := r) by lia.
  destruct Ht as [-> | ->].
  - replace ((r * 8 + 0) mod 2) with 0 by (apply Z.mod_unique with (r * 4); lia). reflexivity.
  - replace ((r * 8 + 2) mod 2) with 0 by (apply Z.mod_unique with (r * 4 + 1); lia). reflexivity.
Qed.

Lemma decode_uninit l : u32_ok l -> decode (l * 32 + 28) = Some (TUninit l).
Proof.
  intros Hl. unfold decode, Value.as_int_inline, Value.as_obj, Value.is_obj, Value.is_float,
    Value.is_uninit, Value.uninit_line, to_u32. word_arith.
  rewrite (Z.shiftr_div_pow2 _ 5) by lia. change (2 ^ 5) with 32.
  destruct (word_fields l 32 28) as [-> ->]; [lia|lia|].
  replace ((l * 32 + 28) mod 2) with 0 by (apply Z.mod_unique with (l * 16 + 14); lia).
  replace ((l * 32 + 28) mod 8) with 4 by (apply Z.mod_unique with (l * 4 + 3); lia).
  rewrite (Z.mod_small l) by lia. reflexivity.
Qed.

(** The tag layout is lossless.  The word built for an inline int, a heap handle, a boxed
    float handle, nil, a bool or an uninitialised-slot marker is read back, by the source's own
    readers, as that same value with its payload; so no two values share a word, and slot 0 of the
    heap is not nil. *)
Lemma decode_encode (t : tagged) (Ht : tagged_ok t) : decode (encode t) = Some t.
Proof.
  destruct t as [n|r|r| |b|l]; simpl in *.
  - unfold decode, Value.as_int_inline. rewrite is_int_eq, int_eq.
    destruct (word_fields (n mod 2 ^ 63) 2 1) as [-> _]; [lia|lia|].
    rewrite <- int_eq. rewrite as_int_int by done. reflexivity.
  - rewrite obj_eq by done. rewrite <- (Z.add_0_r (r * 8)). by apply decode_shifted; auto.
  - rewrite float_ref_eq by done. by apply decode_shifted; auto.
  - reflexivity.
  - by destruct b.
  - rewrite uninit_eq by done. by apply decode_uninit.
Qed.

(** The collector's edge reader follows exactly the heap-backed values: it yields the handle of
    an object or of a boxed float, and nothing for an immediate. *)
Lemma child_gcref_edges (t : tagged) (Ht : tagged_ok t) :
  Value.child_gcref (encode t) =
    match t with TObj r | TFloat r => Some r | _ => None end.
Proof.
  unfold Value.child_gcref. rewrite tag_eq, as_gcref_eq.
  destruct t as [n|r|r| |b|l]; simpl in *.
  - rewrite int_eq.
    assert (H : ((n mod 2 ^ 63 * 2 + 1) mod 8) mod 2 = 1).
    { rewrite Z.mod_mod_divide by (exists 4; reflexivity).
      apply word_fields; lia. }
    unfold TAG_OBJ, TAG_FLOAT.
    destruct (_ =? 0) eqn:E0; [apply Z.eqb_eq in E0; rewrite E0 in H; discriminate|].
    destruct (_ =? 2) eqn:E2; [apply Z.eqb_eq in E2; rewrite E2 in H; discriminate|].
    reflexivity.
  - rewrite obj_eq by done. rewrite <- (Z.add_0_r (r * 8)).
    destruct (word_fields r 8 0) as [-> ->]; [lia|lia|]. by rewrite Z.mod_small by done.
  - rewrite float_ref_eq by done.
    destruct (word_fields r 8 2) as [-> ->]; [lia|lia|]. by rewrite Z.mod_small by done.
  - reflexivity.
  - by destruct b.
  - rewrite uninit_eq by done.
    replace ((l * 32 + 28) mod 8) with 4 by (apply Z.mod_unique with (l * 4 + 3); lia). reflexivity.
Qed.

