(* ===== verification/Arith.v ===== *)
(** * VM arithmetic: [src/src/vm/arith.rs], [ordered_bool] of [vm/compare.rs], [compare] of
      [vm/equality.rs]

    A value here is a [tagged] value of [Value.v] (the word layer is [Value.decode_encode]); an int
    outside the inline range and every float live in a heap box.  Heap storage is reached through
    the interface [HeapOps]/[HeapLaws].  An operation is a state function with three outcomes: a
    value, a run-time error of the language, or a Rust panic.  User hooks ([add], [compare], ...
    of a struct), set algebra and [type_name] are arguments: they re-enter the interpreter. *)

From Stdlib Require Import SpecFloat.
From stdpp Require Import strings.
From S2P Require Import Prelude Consteval Value.
Import F64.
Local Open Scope Z_scope.

(** ** Heap objects *)
Inductive Obj :=
| OStr (s : string)
| OBytes (b : list Z)
| OByteArray (b : list Z)
| OBigInt (n : Z)
| OFloatBox (f : f64)
| OList (xs : list tagged)
| OTuple (xs : list tagged)
| OSet (payload : Z)
| OStruct (tid : Z) (fields : list tagged)
| OEnum (variant_id : Z) (payload : list tagged)
| OOther (kind : Z).

(** What the heap promises to the arithmetic: a read, and an allocation that returns a fresh handle
    and changes no other slot. *)
Class HeapOps (H : Type) := {
  hget : H -> Z -> option Obj;
  halloc : H -> Obj -> H * Z;
}.
Class HeapLaws (H : Type) {ops : HeapOps H} := {
  halloc_get : forall h o, hget (halloc h o).1 (halloc h o).2 = Some o;
  halloc_fresh : forall h o, hget h (halloc h o).2 = None;
  halloc_other : forall h o r, r <> (halloc h o).2 -> hget (halloc h o).1 r = hget h r;
}.

(** A slot that is live before an allocation reads the same after it. *)
Lemma halloc_live `{HeapLaws H} h o r x : hget h r = Some x -> hget (halloc h o).1 r = Some x.
Proof.
  intros E. rewrite halloc_other; [done|]. intros ->. by rewrite halloc_fresh in E.
Qed.

(** The append-only slab ([vm/heap_slab.rs], [Slab::push]) keeps the promise. *)
#[global] Instance slab_ops : HeapOps (list Obj) := {
  hget h r := if r <? 0 then None else h !! Z.to_nat r;
  halloc h o := (h ++ [o], Z.of_nat (length h));
}.
#[global] Instance slab_laws : HeapLaws (list Obj).
Proof.
  split; intros h o; cbn [hget halloc slab_ops fst snd].
  - rewrite (proj2 (Z.ltb_ge _ _)) by lia. rewrite Nat2Z.id.
    by rewrite lookup_app_r, Nat.sub_diag by lia.
  - rewrite (proj2 (Z.ltb_ge _ _)) by lia. rewrite Nat2Z.id.
    by apply lookup_ge_None.
  - intros r Hr. destruct (r <? 0) eqn:E; [done|]. apply Z.ltb_ge in E.
    destruct (decide (Z.to_nat r < length h)%nat).
    + by rewrite lookup_app_l by done.
    + rewrite lookup_app_r by lia. rewrite !(proj2 (lookup_ge_None _ _)); simpl; [done|lia|lia].
Qed.

(** ** The VM state of one frame, and its operations *)

Record RuntimeError := mkErr { err_message : string; err_span : Span }.

Inductive outcome (A : Type) := ROk (a : A) | RErr (e : RuntimeError) | RPanic.
Arguments ROk {A} a.
Arguments RErr {A} e.
Arguments RPanic {A}.

(** The quickening state of a site: [Q_COLD], [Q_INT], [Q_GENERIC]. *)
Inductive QState := Q_COLD | Q_INT | Q_GENERIC.
#[global] Instance QState_eq_dec : EqDecision QState.
Proof. solve_decision. Defined.

Record Vm (H : Type) := mkVm {
  heap : H;
  stack : list tagged;
  base : nat;
  quicken : list QState;
}.
Arguments mkVm {H}.
Arguments heap {H}.
Arguments stack {H}.
Arguments base {H}.
Arguments quicken {H}.

Definition set_heap {H} (vm : Vm H) (h : H) : Vm H := mkVm h (stack vm) (base vm) (quicken vm).
Definition set_stack {H} (vm : Vm H) (s : list tagged) : Vm H :=
  mkVm (heap vm) s (base vm) (quicken vm).
Definition set_quicken {H} (vm : Vm H) (q : list QState) : Vm H :=
  mkVm (heap vm) (stack vm) (base vm) q.

(** [&mut self] code that may fail: Rust keeps the mutations made before an error. *)
Definition M (H A : Type) : Type := Vm H -> outcome A * Vm H.

Definition ret {H A} (a : A) : M H A := fun vm => (ROk a, vm).
Definition throw {H A} (e : RuntimeError) : M H A := fun vm => (RErr e, vm).
Definition panic {H A} : M H A := fun vm => (RPanic, vm).
Definition bind {H A B} (m : M H A) (k : A -> M H B) : M H B :=
  fun vm => match m vm with
            | (ROk a, vm) => k a vm
            | (RErr e, vm) => (RErr e, vm)
            | (RPanic, vm) => (RPanic, vm)
            end.
Notation "x <- m ;; k" := (bind m (fun x => k))
  (at level 100, m at next level, k at level 200, right associativity) : chz_scope.
Notation "m ;;; k" := (bind m (fun _ => k))
  (at level 100, k at level 200, right associativity) : chz_scope.
Local Open Scope chz_scope.

Definition gets {H A} (f : Vm H -> A) : M H A := fun vm => (ROk (f vm), vm).
Definition push {H} (v : tagged) : M H unit := fun vm => (ROk tt, set_stack vm (stack vm ++ [v])).
(** [stack.pop().expect(..)]. *)
Definition pop {H} : M H tagged := fun vm =>
  match vec_pop (stack vm) with
  | Some (s, v) => (ROk v, set_stack vm s)
  | None => (RPanic, vm)
  end.
(** [self.stack[self.base() + slot]]: an index past the end panics. *)
Definition get_local {H} (slot : nat) : M H tagged := fun vm =>
  match stack vm !! (base vm + slot)%nat with
  | Some v => (ROk v, vm)
  | None => (RPanic, vm)
  end.
Definition set_local {H} (slot : nat) (v : tagged) : M H unit := fun vm =>
  if (base vm + slot <? length (stack vm))%nat
  then (ROk tt, set_stack vm (<[(base vm + slot)%nat := v]> (stack vm)))
  else (RPanic, vm).
Definition alloc {H} `{HeapOps H} (o : Obj) : M H Z := fun vm =>
  let '(h, r) := halloc (heap vm) o in (ROk r, set_heap vm h).

(** The operators of [BinKind] ([base/op.rs]). *)
Module BinKind.
Inductive t := Add | Sub | Mul | Div | Mod | Lt | LtEq | Gt | GtEq.
End BinKind.
Abbreviation BinKind := BinKind.t.
#[global] Instance BinKind_eq_dec : EqDecision BinKind.
Proof. solve_decision. Defined.

(** The [Op] a kind stands for, split into its two families: the [BinaryOp] of an arithmetic kind,
    the ordering of a comparison kind. *)
Inductive CmpKind := CLt | CLtEq | CGt | CGtEq.
Definition kind_op (k : BinKind) : BinaryOp + CmpKind :=
  match k with
  | BinKind.Add => inl BinaryOp.Add | BinKind.Sub => inl BinaryOp.Sub
  | BinKind.Mul => inl BinaryOp.Mul | BinKind.Div => inl BinaryOp.Div
  | BinKind.Mod => inl BinaryOp.Mod
  | BinKind.Lt => inr CLt | BinKind.LtEq => inr CLtEq
  | BinKind.Gt => inr CGt | BinKind.GtEq => inr CGtEq
  end.

(** [Ordering::is_lt], [is_le], [is_gt], [is_ge]. *)
Definition ord_is (k : CmpKind) (c : comparison) : bool :=
  match k, c with
  | CLt, Lt | CLtEq, Lt | CLtEq, Eq | CGt, Gt | CGtEq, Gt | CGtEq, Eq => true
  | _, _ => false
  end.
Definition cmp_name (k : CmpKind) : string :=
  match k with CLt => "Lt" | CLtEq => "LtEq" | CGt => "Gt" | CGtEq => "GtEq" end.

(** [f64::floor] as an integer, and whether the float lies strictly above it. *)
Definition floor_int (w : f64) : Z * bool :=
  match w with
  | S754_finite s m e =>
      let z := if s then Zneg m else Zpos m in
      if 0 <=? e then (Z.shiftl z e, false)
      else (Z.shiftr z (- e), negb (z mod 2 ^ (- e) =? 0))
  | _ => (0, false)
  end.
(** Exact comparison of an [i64] with a float. *)
Definition cmp_int_f64 (v : Z) (w : f64) : option comparison :=
  match w with
  | S754_nan => None
  | S754_infinity s => Some (if s then Gt else Lt)
  | _ =>
      let '(fi, above) := floor_int w in
      if 2 ^ 63 <=? fi then Some Lt
      else if fi <? - 2 ^ 63 then Some Gt
      else Some (match v ?= fi with
                 | Eq => if above then Lt else Eq
                 | c => c
                 end)
  end.

(** Lexicographic order of two element lists. *)
Fixpoint lex_cmp (a b : list Z) : comparison :=
  match a, b with
  | [], [] => Eq
  | [], _ => Lt
  | _, [] => Gt
  | x :: a, y :: b => match x ?= y with Eq => lex_cmp a b | c => c end
  end.

Section arith.
  Context {H : Type} `{HeapLaws H}.
  (** Re-entrant or table-driven code of the VM. *)
  Context (type_name : H -> tagged -> string).
  Context (struct_arith : BinaryOp -> tagged -> tagged -> Span -> M H tagged).
  Context (invoke_neg_hook : tagged -> Span -> M H tagged).
  Context (set_difference : Z -> Z -> Span -> M H tagged).
  Context (seq_order : tagged -> tagged -> Span -> M H (option comparison)).
  Context (struct_compare : tagged -> tagged -> Span -> M H comparison).

Definition vm_err (msg : string) (span : Span) : RuntimeError := mkErr msg span.

(** *** Boxing *)

Definition is_inline (n : Z) : bool :=
  (Value.INT_MIN_INLINE <=? n) && (n <=? Value.INT_MAX_INLINE).

Definition make_int (n : Z) : M H tagged :=
  if is_inline n then ret (TInt n)
  else r <- alloc (OBigInt n) ;; ret (TObj r).

Definition int_val (h : H) (v : tagged) : option Z :=
  match v with
  | TInt n => Some n
  | TObj r => match hget h r with Some (OBigInt n) => Some n | _ => None end
  | _ => None
  end.

Definition is_integral (h : H) (v : tagged) : bool :=
  match v with
  | TInt _ => true
  | TObj r => match hget h r with Some (OBigInt _) => true | _ => false end
  | _ => false
  end.

Definition box_float (f : f64) : M H tagged := r <- alloc (OFloatBox f) ;; ret (TFloat r).

Definition float_val (h : H) (v : tagged) : option f64 :=
  match v with
  | TFloat r => match hget h r with Some (OFloatBox f) => Some f | _ => None end
  | _ => None
  end.

Definition is_float (v : tagged) : bool := match v with TFloat _ => true | _ => false end.
Definition is_numeric (h : H) (v : tagged) : bool := is_float v || is_integral h v.

(** [int_of] and [float_of] panic on a value of another kind. *)
Definition or_panic {A} (f : Vm H -> option A) : M H A :=
  fun vm => match f vm with Some a => (ROk a, vm) | None => (RPanic, vm) end.
Definition int_of (v : tagged) : M H Z := or_panic (fun vm => int_val (heap vm) v).
Definition float_of (v : tagged) : M H f64 := or_panic (fun vm => float_val (heap vm) v).
Definition as_f64 (v : tagged) : M H f64 :=
  if is_float v then float_of v else n <- int_of v ;; ret (F64.of_i64 n).

(** *** Int operations *)

Definition int_fault_message (f : IntFault) : string :=
  Consteval.message f (fun op => default "" (binary_protocol op)).

(** [int_op]: the value, or the fault as a run-time error; [None] is [unreachable!]. *)
Definition int_op (op : BinaryOp) (a b : Z) (span : Span) : M H Z :=
  match int_binop op a b with
  | Some (Ok n) => ret n
  | Some (Err f) => throw (vm_err (int_fault_message f) span)
  | None => panic
  end.

Definition fast_int_bin (x y : Z) (kind : BinKind) (span : Span) : M H tagged :=
  match kind with
  | BinKind.Add => n <- int_op BinaryOp.Add x y span ;; make_int n
  | BinKind.Sub => n <- int_op BinaryOp.Sub x y span ;; make_int n
  | BinKind.Mul => n <- int_op BinaryOp.Mul x y span ;; make_int n
  | BinKind.Div => n <- int_op BinaryOp.Div x y span ;; make_int n
  | BinKind.Mod => n <- int_op BinaryOp.Mod x y span ;; make_int n
  | BinKind.Lt => ret (TBool (x <? y))
  | BinKind.LtEq => ret (TBool (x <=? y))
  | BinKind.Gt => ret (TBool (x >? y))
  | BinKind.GtEq => ret (TBool (x >=? y))
  end.

(** *** The generic binary operators *)

Definition float_op (op : BinaryOp) (x y : f64) : f64 :=
  match op with
  | BinaryOp.Add => F64.add x y
  | BinaryOp.Sub => F64.sub x y
  | BinaryOp.Mul => F64.mul x y
  | BinaryOp.Div => F64.div x y
  | _ => F64.rem x y
  end.

Definition is_record (o : option Obj) : bool :=
  match o with Some (OStruct _ _) | Some (OEnum _ _) => true | _ => false end.

Definition cannot_apply (name : string) (l r : tagged) (span : Span) : M H tagged :=
  fun vm => (RErr (vm_err ("cannot apply " +:+ name +:+ " to " +:+ type_name (heap vm) l +:+
                           " and " +:+ type_name (heap vm) r) span), vm).

(** The heap handle of a value that [Value::view] shows as [Obj]. *)
Definition view_obj (v : tagged) : option Z :=
  match v with TObj r | TFloat r => Some r | _ => None end.

(** The concatenations of [+] on two heap objects. *)
Definition concat_obj (a b : option Obj) : option Obj :=
  match a, b with
  | Some (OStr a), Some (OStr b) => Some (OStr (a +:+ b))
  | Some (OBytes a), Some (OBytes b) => Some (OBytes (a ++ b))
  | Some (OByteArray a), Some (OByteArray b) => Some (OByteArray (a ++ b))
  | Some (OByteArray a), Some (OBytes b) => Some (OByteArray (a ++ b))
  | Some (OBytes a), Some (OByteArray b) => Some (OBytes (a ++ b))
  | Some (OList a), Some (OList b) => Some (OList (a ++ b))
  | _, _ => None
  end.

(** The non-numeric arms of [arith]. *)
Definition arith_obj (op : BinaryOp) (l r : tagged) (span : Span) : M H tagged :=
  let name := default "" (binary_protocol op) in
  h <- gets heap ;;
  match view_obj l, view_obj r with
  | Some ha, Some hb =>
      if is_record (hget h ha) && is_record (hget h hb) then struct_arith op l r span
      else if decide (op = BinaryOp.Add) then
        match concat_obj (hget h ha) (hget h hb) with
        | Some o => x <- alloc o ;; ret (TObj x)
        | None => cannot_apply name l r span
        end
      else if decide (op = BinaryOp.Sub) then
        match hget h ha, hget h hb with
        | Some (OSet _), Some (OSet _) => set_difference ha hb span
        | _, _ => cannot_apply name l r span
        end
      else cannot_apply name l r span
  | _, _ => cannot_apply name l r span
  end.

Definition arith (op : BinaryOp) (span : Span) : M H unit :=
  r <- pop ;;
  l <- pop ;;
  h <- gets heap ;;
  result <-
    (if is_integral h l && is_integral h r then
       a <- int_of l ;; b <- int_of r ;;
       n <- int_op op a b span ;; make_int n
     else if is_numeric h l && is_numeric h r then
       x <- as_f64 l ;; y <- as_f64 r ;; box_float (float_op op x y)
     else arith_obj op l r span) ;;
  push result.

(** [Vm::compare]. *)
Definition compare (h : H) (l r : tagged) : option comparison :=
  match int_val h l, int_val h r, float_val h l, float_val h r with
  | Some a, Some b, _, _ => Some (a ?= b)
  | Some a, _, _, Some y => cmp_int_f64 a y
  | _, Some b, Some x, _ => CompOpp <$> cmp_int_f64 b x
  | _, _, Some x, Some y => F64.compare x y
  | _, _, _, _ =>
      match l, r with
      | TBool a, TBool b => Some (Z.b2z a ?= Z.b2z b)
      | _, _ =>
          match view_obj l, view_obj r with
          | Some ha, Some hb =>
              match hget h ha, hget h hb with
              | Some (OStr a), Some (OStr b) => Some (String.compare a b)
              | Some (OBytes a | OByteArray a), Some (OBytes b | OByteArray b) => Some (lex_cmp a b)
              | _, _ => None
              end
          | _, _ => None
          end
      end
  end.

Definition ordered_bool (k : CmpKind) (a b : tagged) (span : Span) : M H bool :=
  fun vm =>
    match compare (heap vm) a b with
    | Some ord => (ROk (ord_is k ord), vm)
    | None =>
        if is_numeric (heap vm) a && is_numeric (heap vm) b then (ROk false, vm)
        else (RErr (vm_err ("cannot apply " +:+ cmp_name k +:+ " to " +:+ type_name (heap vm) a +:+
                            " and " +:+ type_name (heap vm) b) span), vm)
    end.

Definition seq_kind (h : H) (v : tagged) : option Z :=
  match v with
  | TObj r => match hget h r with
              | Some (OTuple _) => Some 0 | Some (OList _) => Some 1 | _ => None
              end
  | _ => None
  end.
Definition seq_pair (h : H) (a b : tagged) : bool :=
  match seq_kind h a, seq_kind h b with Some x, Some y => x =? y | _, _ => false end.
Definition is_record_value (h : H) (v : tagged) : bool :=
  match v with TObj r => is_record (hget h r) | _ => false end.

Definition compare_op (k : CmpKind) (span : Span) : M H unit :=
  r <- pop ;;
  l <- pop ;;
  h <- gets heap ;;
  if seq_pair h l r then
    o <- seq_order l r span ;;
    push (TBool (match o with Some ord => ord_is k ord | None => false end))
  else if is_record_value h l && is_record_value h r then
    ord <- struct_compare l r span ;; push (TBool (ord_is k ord))
  else
    b <- ordered_bool k l r span ;; push (TBool b).

Definition run_bin_kind (kind : BinKind) (span : Span) : M H unit :=
  match kind_op kind with inl op => arith op span | inr k => compare_op k span end.

(** *** Quickened and fused operators *)

Definition as_int_inline (v : tagged) : option Z := match v with TInt n => Some n | _ => None end.

(** The two operands a binary operator reads from the stack top, [stack[n-2]] and [stack[n-1]]
    with [n = stack.len()]; a shorter stack panics on the index. *)
Definition top2 (vm : Vm H) : option (tagged * tagged) :=
  let n := length (stack vm) in
  if (n <? 2)%nat then None
  else match stack vm !! (n - 2)%nat, stack vm !! (n - 1)%nat with
       | Some l, Some r => Some (l, r)
       | _, _ => None
       end.

Definition truncate2 : M H unit :=
  fun vm => (ROk tt, set_stack vm (take (length (stack vm) - 2) (stack vm))).

Definition both_inline (l r : tagged) : bool :=
  match as_int_inline l, as_int_inline r with Some _, Some _ => true | _, _ => false end.

Definition set_site (site : nat) (q : QState) : M H unit :=
  fun vm => (ROk tt, set_quicken vm (<[site := q]> (quicken vm))).

Definition q_arith (site : nat) (kind : BinKind) (span : Span) : M H unit :=
  fun vm =>
    match quicken vm !! site, top2 vm with
    | None, _ | _, None => (RPanic, vm)
    | Some Q_INT, Some (l, r) =>
        match as_int_inline l, as_int_inline r with
        | Some x, Some y =>
            (v <- fast_int_bin x y kind span ;; truncate2 ;;; push v) vm
        | _, _ => (set_site site Q_GENERIC ;;; run_bin_kind kind span) vm
        end
    | Some Q_GENERIC, Some _ => run_bin_kind kind span vm
    | Some Q_COLD, Some (l, r) =>
        (set_site site (if both_inline l r then Q_INT else Q_GENERIC) ;;; run_bin_kind kind span) vm
    end.

Definition op_bin_local_local (a b : nat) (kind : BinKind) (span : Span) : M H unit :=
  l <- get_local a ;;
  r <- get_local b ;;
  match as_int_inline l, as_int_inline r with
  | Some x, Some y => v <- fast_int_bin x y kind span ;; push v
  | _, _ => push l ;;; push r ;;; run_bin_kind kind span
  end.

Definition op_bin_local_const (slot : nat) (val : Z) (kind : BinKind) (span : Span) : M H unit :=
  l <- get_local slot ;;
  match as_int_inline l with
  | Some x => v <- fast_int_bin x val kind span ;; push v
  | None => push l ;;; cv <- make_int val ;; push cv ;;; run_bin_kind kind span
  end.

Definition op_inc_local (slot : nat) (delta : Z) (span : Span) : M H unit :=
  cur <- get_local slot ;;
  match as_int_inline cur with
  | Some x =>
      n <- int_op BinaryOp.Add x delta span ;; v <- make_int n ;; set_local slot v
  | None =>
      if is_float cur then
        f <- float_of cur ;; v <- box_float (F64.add f (F64.of_i64 delta)) ;; set_local slot v
      else
        push cur ;;; dv <- make_int delta ;; push dv ;;;
        arith BinaryOp.Add span ;;; v <- pop ;; set_local slot v
  end.

(** The unfused instruction sequences ([vm/step.rs]). *)
Definition op_get_local (slot : nat) : M H unit := v <- get_local slot ;; push v.
Definition op_set_local (slot : nat) : M H unit := v <- pop ;; set_local slot v.
Definition op_const_int (n : Z) : M H unit := v <- make_int n ;; push v.

(** The negation of a NaN is NaN: that the machine also flips its sign is not in [F64]'s one NaN but in
    the word of the new box ([Ordering.NanWords]), which nothing here constrains. *)
Definition neg_value (v : tagged) (span : Span) : M H tagged :=
  h <- gets heap ;;
  match int_val h v with
  | Some n => match int_neg n with
              | Ok m => make_int m
              | Err f => throw (vm_err (int_fault_message f) span)
              end
  | None =>
      if is_float v then f <- float_of v ;; box_float (F64.neg f)
      else if is_record_value h v then invoke_neg_hook v span
      else fun vm => (RErr (vm_err ("cannot apply Neg to " +:+ type_name (heap vm) v) span), vm)
  end.

Definition op_neg (span : Span) : M H unit := v <- pop ;; r <- neg_value v span ;; push r.
Definition op_not (span : Span) : M H unit :=
  v <- pop ;;
  match v with
  | TBool b => push (TBool (negb b))
  | _ => fun vm => (RErr (vm_err ("cannot apply Not to " +:+ type_name (heap vm) v) span), vm)
  end.

(** ** Boxing is invisible *)

Lemma make_int_spec n vm :
  exists v vm', make_int n vm = (ROk v, vm') /\ int_val (heap vm') v = Some n /\
    is_integral (heap vm') v = true /\ stack vm' = stack vm /\ base vm' = base vm /\
    quicken vm' = quicken vm /\
    (forall r o, hget (heap vm) r = Some o -> hget (heap vm') r = Some o).
Proof.
  unfold make_int. destruct (is_inline n).
  - exists (TInt n), vm. repeat split; auto.
  - unfold bind, alloc, ret.
    destruct (halloc (heap vm) (OBigInt n)) as [h' r] eqn:E.
    exists (TObj r), (set_heap vm h'). simpl.
    pose proof (halloc_get (heap vm) (OBigInt n)) as G. rewrite E in G. simpl in G.
    rewrite G. repeat split; auto.
    intros r' o Ho. pose proof (halloc_live (heap vm) (OBigInt n) r' o Ho) as L.
    by rewrite E in L.
Qed.

Lemma is_integral_val h v : is_integral h v = true <-> is_Some (int_val h v).
Proof.
  destruct v as [n|r|r| |b|l]; simpl; try (split; [done | intros [? [=]]]).
  - split; eauto.
  - destruct (hget h r) as [[]|]; (split; [eauto; done | intros [? [=]]; done]).
Qed.

Lemma int_val_not_float h v n : int_val h v = Some n -> is_float v = false.
Proof. by destruct v. Qed.

(** A state whose stack ends in two operands. *)
Definition with_operands (vm : Vm H) (l r : tagged) : Vm H := set_stack vm (stack vm ++ [l; r]).

Lemma pop_snoc (vm : Vm H) s v : stack vm = s ++ [v] -> pop vm = (ROk v, set_stack vm s).
Proof. intros E. unfold pop. by rewrite E, vec_pop_snoc. Qed.

Lemma set_stack_id (vm : Vm H) : set_stack vm (stack vm) = vm.
Proof. by destruct vm. Qed.

(** Popping the two operands of [with_operands] restores the state. *)
Lemma pop2 {A} (k : tagged -> tagged -> M H A) vm l r :
  (r' <- pop ;; l' <- pop ;; k r' l') (with_operands vm l r) = k r l vm.
Proof.
  unfold with_operands, bind at 1.
  rewrite (pop_snoc _ (stack vm ++ [l]) r) by (simpl; by rewrite <- app_assoc).
  unfold bind at 1. rewrite (pop_snoc _ (stack vm) l) by done.
  f_equal. by destruct vm.
Qed.

Lemma or_panic_Some {A} (f : Vm H -> option A) vm a : f vm = Some a -> or_panic f vm = (ROk a, vm).
Proof. intros E. unfold or_panic. by rewrite E. Qed.

(** [arith] on two ints, inline or boxed, is the int operation on their values. *)
Lemma arith_int op span vm l r a b :
  int_val (heap vm) l = Some a -> int_val (heap vm) r = Some b ->
  arith op span (with_operands vm l r) =
    (n <- int_op op a b span ;; v <- make_int n ;; push v) vm.
Proof.
  intros Ha Hb. unfold arith. rewrite pop2. cbn [bind gets].
  unfold bind at 1. cbn [gets].
  assert (is_integral (heap vm) l = true) as -> by (apply is_integral_val; eauto).
  assert (is_integral (heap vm) r = true) as -> by (apply is_integral_val; eauto).
  cbn [andb]. unfold bind, int_of. rewrite (or_panic_Some _ _ a) by done.
  rewrite (or_panic_Some _ _ b) by done.
  destruct (int_op op a b span vm) as [[n|e|] vm1]; done.
Qed.

Lemma compare_int h l r a b :
  int_val h l = Some a -> int_val h r = Some b -> compare h l r = Some (a ?= b).
Proof. intros Ha Hb. unfold compare. by rewrite Ha, Hb. Qed.

Lemma int_not_obj h v n :
  int_val h v = Some n -> seq_kind h v = None /\ is_record_value h v = false.
Proof.
  destruct v as [|r| | | |]; try discriminate; simpl; auto.
  destruct (hget h r) as [[]|]; simpl; intros E; try discriminate; auto.
Qed.

Lemma compare_op_int k span vm l r a b :
  int_val (heap vm) l = Some a -> int_val (heap vm) r = Some b ->
  compare_op k span (with_operands vm l r) = push (TBool (ord_is k (a ?= b))) vm.
Proof.
  intros Ha Hb. unfold compare_op. rewrite pop2.
  unfold bind at 1. cbn [gets]. unfold seq_pair.
  destruct (int_not_obj _ _ _ Ha) as [-> ->]. cbn [andb].
  unfold bind, ordered_bool. by rewrite (compare_int _ _ _ a b Ha Hb).
Qed.

Lemma ord_is_ltb k x y :
  ord_is k (x ?= y) = match k with CLt => x <? y | CLtEq => x <=? y
                                 | CGt => x >? y | CGtEq => x >=? y end.
Proof. unfold Z.ltb, Z.leb, Z.gtb, Z.geb. destruct k; by destruct (x ?= y). Qed.

(** The generic operator on two ints is the int fast path. *)
Lemma run_bin_kind_int kind span vm l r a b :
  int_val (heap vm) l = Some a -> int_val (heap vm) r = Some b ->
  run_bin_kind kind span (with_operands vm l r) =
    (v <- fast_int_bin a b kind span ;; push v) vm.
Proof.
  intros Ha Hb. unfold run_bin_kind.
  destruct kind; simpl;
    try (erewrite arith_int by eauto; unfold fast_int_bin, bind;
         by destruct (int_op _ a b span vm) as [[n|e|] vm1]);
    erewrite compare_op_int by eauto; by rewrite ord_is_ltb.
Qed.

(** ** Quickening and fusion do not change a result

    Two runs have the same effect when they end the same way and, if they succeed, in the same
    state.  (After an error the two may leave different operands on the stack: the handler truncates
    it.) *)
Definition same_effect {A} (x y : outcome A * Vm H) : Prop :=
  x.1 = y.1 /\ (forall a, x.1 = ROk a -> x.2 = y.2).

Lemma same_effect_refl {A} (x : outcome A * Vm H) : same_effect x x.
Proof. split; auto. Qed.

(** The fast path reads no operand from the stack. *)
Lemma make_int_frame n vm s :
  make_int n (set_stack vm s) = ((make_int n vm).1, set_stack (make_int n vm).2 s).
Proof.
  unfold make_int. destruct (is_inline n); [done|].
  unfold bind, alloc, ret. simpl. by destruct (halloc (heap vm) (OBigInt n)).
Qed.

Lemma fast_int_bin_frame x y kind span vm s :
  fast_int_bin x y kind span (set_stack vm s) =
    ((fast_int_bin x y kind span vm).1, set_stack (fast_int_bin x y kind span vm).2 s).
Proof.
  destruct kind; simpl; try done; unfold bind, int_op;
    destruct (int_binop _ x y) as [[]|]; simpl; try done; apply make_int_frame.
Qed.

Lemma make_int_stack n vm : stack (make_int n vm).2 = stack vm.
Proof. destruct (make_int_spec n vm) as (v & vm' & -> & _ & _ & E & _). done. Qed.

Lemma fast_int_bin_stack x y kind span vm :
  stack (fast_int_bin x y kind span vm).2 = stack vm.
Proof.
  destruct kind; simpl; try done; unfold bind, int_op;
    destruct (int_binop _ x y) as [[]|]; simpl; try done; apply make_int_stack.
Qed.

Lemma with_operands_eq vm s l r :
  stack vm = s ++ [l; r] -> vm = with_operands (set_stack vm s) l r.
Proof. destruct vm; simpl. by intros ->. Qed.

Lemma top2_operands vm s l r : stack vm = s ++ [l; r] -> top2 vm = Some (l, r).
Proof.
  intros E. unfold top2. rewrite E, length_app. simpl.
  destruct (_ <? 2)%nat eqn:En; [apply Nat.ltb_lt in En; lia|].
  rewrite !lookup_app_r by lia.
  replace (length s + 2 - 2 - length s)%nat with 0%nat by lia.
  by replace (length s + 2 - 1 - length s)%nat with 1%nat by lia.
Qed.

(** The quickened int path is the generic operator. *)
Lemma fast_path_same x y kind span vm s :
  stack vm = s ++ [TInt x; TInt y] ->
  same_effect ((v <- fast_int_bin x y kind span ;; truncate2 ;;; push v) vm)
              (run_bin_kind kind span vm).
Proof.
  intros E. rewrite (with_operands_eq _ _ _ _ E) at 2.
  rewrite (run_bin_kind_int _ _ _ _ _ x y) by done.
  unfold bind. rewrite fast_int_bin_frame.
  pose proof (fast_int_bin_stack x y kind span vm) as Hs.
  destruct (fast_int_bin x y kind span vm) as [[v|e|] vm1]; simpl in *;
    [|split; [done|intros ? [=]]|split; [done|intros ? [=]]].
  split; [done|]. intros _ _. unfold push, truncate2, set_stack. simpl.
  rewrite Hs, E, length_app. simpl.
  replace (length s + 2 - 2)%nat with (length s) by lia. by rewrite take_app_length.
Qed.

(** Adaptive quickening is invisible.  Whatever the state of its site, a quickened binary
    operator ends as the generic operator does (same value pushed, same error text and span), the
    only other change being that site's own cell; a generic cell stays generic and no cell returns
    to cold. *)
Lemma q_arith_generic site kind span (vm : Vm H) q s l r :
  quicken vm !! site = Some q -> stack vm = s ++ [l; r] ->
  exists q',
    same_effect (q_arith site kind span vm)
      (run_bin_kind kind span (set_quicken vm (<[site := q']> (quicken vm)))) /\
    (q = Q_GENERIC -> q' = Q_GENERIC) /\ q' <> Q_COLD.
Proof.
  intros Hq Hs. unfold q_arith. rewrite Hq, (top2_operands _ _ _ _ Hs).
  assert (Hid : set_quicken vm (<[site := q]> (quicken vm)) = vm)
    by (rewrite list_insert_id by done; by destruct vm).
  destruct q.
  - exists (if both_inline l r then Q_INT else Q_GENERIC).
    split; [apply same_effect_refl|]. by destruct (both_inline l r).
  - destruct l as [x| | | | |], r as [y| | | | |]; simpl;
      try (exists Q_GENERIC; split; [apply same_effect_refl | done]).
    exists Q_INT. rewrite Hid. split; [|done]. by eapply fast_path_same.
  - exists Q_GENERIC. rewrite Hid. split; [apply same_effect_refl | done].
Qed.

(** Stepping through a sequence. *)
Lemma bind_ok {A B} (m : M H A) (k : A -> M H B) vm a vm' :
  m vm = (ROk a, vm') -> bind m k vm = k a vm'.
Proof. intros E. unfold bind. by rewrite E. Qed.

Lemma bind_assoc {A B C} (m : M H A) (f : A -> M H B) (g : B -> M H C) vm :
  bind (bind m f) g vm = bind m (fun a => bind (f a) g) vm.
Proof. unfold bind. by destruct (m vm) as [[] ?]. Qed.

Lemma get_local_ok slot (vm : Vm H) v :
  stack vm !! (base vm + slot)%nat = Some v -> get_local slot vm = (ROk v, vm).
Proof. intros E. unfold get_local. by rewrite E. Qed.

Lemma op_get_local_ok slot (vm : Vm H) v :
  stack vm !! (base vm + slot)%nat = Some v ->
  op_get_local slot vm = (ROk tt, set_stack vm (stack vm ++ [v])).
Proof. intros E. unfold op_get_local. by erewrite bind_ok by (by apply get_local_ok). Qed.

(** A local stays readable under pushed operands. *)
Lemma local_push slot (vm : Vm H) v x :
  stack vm !! (base vm + slot)%nat = Some v ->
  stack (set_stack vm (stack vm ++ [x])) !! (base (set_stack vm (stack vm ++ [x])) + slot)%nat =
    Some v.
Proof. intros E. simpl. by rewrite lookup_app_l by (by eapply lookup_lt_Some). Qed.

Lemma push_push (vm : Vm H) x y :
  set_stack (set_stack vm (stack vm ++ [x])) (stack (set_stack vm (stack vm ++ [x])) ++ [y]) =
    with_operands vm x y.
Proof. unfold with_operands, set_stack. simpl. by rewrite <- app_assoc. Qed.

(** The fused [BinLocalLocal] is the sequence it replaces, [GetLocal a; GetLocal b; op], for
    operands of every type. *)
Lemma op_bin_local_local_unfused a b kind span (vm : Vm H) l r :
  stack vm !! (base vm + a)%nat = Some l -> stack vm !! (base vm + b)%nat = Some r ->
  op_bin_local_local a b kind span vm =
    (op_get_local a ;;; op_get_local b ;;; run_bin_kind kind span) vm.
Proof.
  intros Ha Hb. unfold op_bin_local_local.
  erewrite !bind_ok by (by apply get_local_ok).
  erewrite (bind_ok (op_get_local a)) by (by apply op_get_local_ok).
  erewrite (bind_ok (op_get_local b)) by (apply op_get_local_ok; by apply local_push).
  rewrite push_push.
  destruct l as [x| | | | |], r as [y| | | | |]; simpl;
    try (erewrite !bind_ok by reflexivity; by rewrite push_push).
  by rewrite (run_bin_kind_int _ _ _ _ _ x y).
Qed.

Lemma make_int_inline n (vm : Vm H) : is_inline n = true -> make_int n vm = (ROk (TInt n), vm).
Proof. intros E. unfold make_int. by rewrite E. Qed.

Lemma op_const_int_ok n (vm : Vm H) :
  is_inline n = true -> op_const_int n vm = (ROk tt, set_stack vm (stack vm ++ [TInt n])).
Proof. intros E. unfold op_const_int. by erewrite bind_ok by (by apply make_int_inline). Qed.

(** The fused [BinLocalConst] is [GetLocal slot; ConstInt val; op] for an operand of every type
    and an inline constant. *)
Lemma op_bin_local_const_unfused slot val kind span (vm : Vm H) l :
  stack vm !! (base vm + slot)%nat = Some l -> is_inline val = true ->
  op_bin_local_const slot val kind span vm =
    (op_get_local slot ;;; op_const_int val ;;; run_bin_kind kind span) vm.
Proof.
  intros Hl Hv. unfold op_bin_local_const.
  erewrite !bind_ok by (by apply get_local_ok).
  erewrite (bind_ok (op_get_local slot)) by (by apply op_get_local_ok).
  erewrite (bind_ok (op_const_int val)) by (by apply op_const_int_ok).
  rewrite push_push.
  destruct l as [x| | | | |]; simpl;
    try (erewrite (bind_ok (push _)) by reflexivity;
         erewrite (bind_ok (make_int val)) by (by apply make_int_inline);
         erewrite bind_ok by reflexivity; by rewrite push_push).
  by rewrite (run_bin_kind_int _ _ _ _ _ x val).
Qed.

(** [SetLocal] just after a push. *)
Lemma push_set_local slot (v : tagged) (vm : Vm H) :
  (base vm + slot < length (stack vm))%nat ->
  (push v ;;; op_set_local slot) vm = set_local slot v vm.
Proof.
  intros Hl. erewrite bind_ok by reflexivity. unfold op_set_local.
  erewrite bind_ok by (by apply pop_snoc). f_equal. by destruct vm.
Qed.

(** [arith] on a float and an inline int is the float operation. *)
Lemma arith_float_int op span (vm : Vm H) p f n :
  hget (heap vm) p = Some (OFloatBox f) ->
  arith op span (with_operands vm (TFloat p) (TInt n)) =
    (v <- box_float (float_op op f (F64.of_i64 n)) ;; push v) vm.
Proof.
  intros Hf. unfold arith. rewrite pop2.
  erewrite bind_ok by reflexivity.
  cbn [is_integral is_numeric is_float andb orb]. rewrite bind_assoc.
  erewrite (bind_ok (as_f64 (TFloat p))) by
    (unfold as_f64; simpl is_float; cbv iota; apply or_panic_Some; simpl; by rewrite Hf).
  rewrite bind_assoc. by erewrite (bind_ok (as_f64 (TInt n))) by reflexivity.
Qed.

(** Two heaps in which every live slot of the first reads the same. *)
Lemma box_float_frame f (vm : Vm H) :
  stack (box_float f vm).2 = stack vm /\ base (box_float f vm).2 = base vm.
Proof. unfold box_float, bind, alloc, ret. by destruct (halloc (heap vm) (OFloatBox f)). Qed.

(** The fused [IncLocal] is [GetLocal slot; ConstInt delta; Add; SetLocal slot] for an int, a
    float or any other local and an inline constant. *)
Lemma op_inc_local_unfused slot delta span (vm : Vm H) cur :
  stack vm !! (base vm + slot)%nat = Some cur -> is_inline delta = true ->
  (forall p, cur = TFloat p -> is_Some (float_val (heap vm) cur)) ->
  op_inc_local slot delta span vm =
    (op_get_local slot ;;; op_const_int delta ;;; arith BinaryOp.Add span ;;; op_set_local slot) vm.
Proof.
  intros Hc Hd Hf. unfold op_inc_local.
  pose proof (lookup_lt_Some _ _ _ Hc) as Hlt.
  erewrite !bind_ok by (by apply get_local_ok).
  erewrite (bind_ok (op_get_local slot)) by (by apply op_get_local_ok).
  erewrite (bind_ok (op_const_int delta)) by (by apply op_const_int_ok).
  rewrite push_push.
  destruct cur as [x|p|p| |c|ln]; simpl;
    try (erewrite (bind_ok (push _)) by reflexivity;
         erewrite (bind_ok (make_int delta)) by (by apply make_int_inline);
         erewrite (bind_ok (push _)) by reflexivity; by rewrite push_push).
  - unfold bind at 3. rewrite (arith_int _ _ _ _ _ x delta) by done.
    unfold bind, int_op. destruct (int_binop BinaryOp.Add x delta) as [[n|e]|]; simpl; try done.
    destruct (make_int_spec n vm) as (v & vm' & Hm & _ & _ & Es & Eb & _). rewrite Hm. simpl.
    symmetry. apply push_set_local. rewrite Es, Eb. done.
  - destruct (Hf p eq_refl) as [f Ef]. simpl in Ef.
    destruct (hget (heap vm) p) as [[]|] eqn:Eh; try discriminate. injection Ef as ->.
    erewrite (bind_ok (float_of _)) by (apply or_panic_Some; simpl; by rewrite Eh).
    unfold bind at 2. rewrite (arith_float_int _ _ _ p f delta) by done.
    pose proof (box_float_frame (F64.add f (F64.of_i64 delta)) vm) as [Es Eb].
    unfold bind. simpl float_op.
    destruct (box_float (F64.add f (F64.of_i64 delta)) vm) as [[v|e|] vm'] eqn:Eb'; simpl in *;
      try done.
    symmetry. apply push_set_local. rewrite Es, Eb. done.
Qed.

(** The fused instructions are the sequences they replace, for operands of every type:
    [BinLocalLocal] is [GetLocal a; GetLocal b; op], [BinLocalConst] is [GetLocal a; ConstInt k;
    op], and [IncLocal] is [GetLocal a; ConstInt k; Add; SetLocal a]: the same value or error, the
    same stack, heap and quickening state. *)
Lemma fused_ops_unfused a b k kind span (vm : Vm H) l r :
  stack vm !! (base vm + a)%nat = Some l -> stack vm !! (base vm + b)%nat = Some r -> is_inline k = true ->
  (forall p, l = TFloat p -> is_Some (float_val (heap vm) l)) ->
  op_bin_local_local a b kind span vm = (op_get_local a ;;; op_get_local b ;;; run_bin_kind kind span) vm /\
  op_bin_local_const a k kind span vm = (op_get_local a ;;; op_const_int k ;;; run_bin_kind kind span) vm /\
  op_inc_local a k span vm =
    (op_get_local a ;;; op_const_int k ;;; arith BinaryOp.Add span ;;; op_set_local a) vm.
Proof.
  intros Ha Hb Hk Hf. split; [by eapply op_bin_local_local_unfused|].
  split; [by eapply op_bin_local_const_unfused|by eapply op_inc_local_unfused].
Qed.

(** Int arithmetic does not depend on how an int is stored.  For operands that are ints, inline
    or boxed, [+ - * / %] pops both and pushes the exact result when it fits an [i64], stored so
    that it reads back as itself, with every live heap object unchanged; otherwise it raises the
    operator's fault text at the operator's span. *)
Lemma arith_int_boxing op span (vm : Vm H) l r a b m :
  int_val (heap vm) l = Some a -> int_val (heap vm) r = Some b -> I64.ok a -> I64.ok b ->
  exact op a b = Some m ->
  match operand_fault op b with
  | Some f => (arith op span (with_operands vm l r)).1 = RErr (mkErr (int_fault_message f) span)
  | None =>
      if I64.is_i64 m then
        exists v vm', arith op span (with_operands vm l r) = (ROk tt, vm') /\
          stack vm' = stack vm ++ [v] /\ int_val (heap vm') v = Some m /\
          (forall p o, hget (heap vm) p = Some o -> hget (heap vm') p = Some o)
      else (arith op span (with_operands vm l r)).1 =
             RErr (mkErr (int_fault_message (Overflow (OpBin op))) span)
  end.
Proof.
  intros Hl Hr Ha Hb Hm. rewrite (arith_int _ _ _ _ _ a b) by done.
  pose proof (int_binop_spec op a b Ha Hb) as Hop. rewrite Hm in Hop. simpl in Hop.
  unfold bind, int_op. rewrite Hop.
  destruct (operand_fault op b); [done|]. destruct (I64.is_i64 m); [|done].
  destruct (make_int_spec m vm) as (v & vm' & Em & Ev & _ & Es & _ & _ & Hlive).
  simpl. rewrite Em. exists v, (set_stack vm' (stack vm' ++ [v])).
  simpl. rewrite Es. repeat split; [by unfold push; rewrite Es | done | done].
Qed.
End arith.

(** ** Witnesses: a slab heap, and hooks that are not reached *)
Module ArithDemo.
Definition tn (h : list Obj) (v : tagged) : string := "value".
Definition no_bin {A} (op : BinaryOp) (l r : tagged) (s : Span) : M (list Obj) A := panic.
Definition no_set (l r : Z) (s : Span) : M (list Obj) tagged := panic.
Definition no_cmp {A} (l r : tagged) (s : Span) : M (list Obj) A := panic.
Definition vm0 : Vm (list Obj) :=
  mkVm [OBigInt (2 ^ 62)] [TInt 5; TInt 7; TInt 40; TInt 2] 0 [Q_INT].
End ArithDemo.
Import ArithDemo.

(** The witness: the boxed [2^62] plus [1] stays boxed and reads back exactly. *)
