(* ===== verification/Slice.v ===== *)
(** * Slices and representations: [src/src/slice.rs]

    Index and slice resolution on [i64] bounds with their saturating and checked additions, and the
    [repr] of [bytes], [bytearray] and [str].  A byte or a character is its code point, a [Z]; a
    [usize] is a non-negative [Z].  The reference for slices is CPython's
    [PySlice_AdjustIndices]. *)

From stdpp Require Import strings.
From S2P Require Import Prelude.
Local Open Scope Z_scope.

(** ** Index and slice resolution *)

Definition norm_index (n len : Z) : option Z :=
  let i := if n <? 0 then n + len else n in
  if (0 <=? i) && (i <? len) then Some i else None.

Record RangeParts := mkRange {
  start : option Z;
  end_ : option Z;
  step : Z;
  inclusive : bool;
}.

(** [Ord::clamp]. *)
Definition clamp (x lo hi : Z) : Z := Z.max lo (Z.min hi x).

(** The stepping loop: [fuel] bounds its iterations. *)
Fixpoint collect (fuel : nat) (up : bool) (i hi step : Z) : option (list Z) :=
  match fuel with
  | O => None
  | S fuel =>
      if (up && (i <? hi)) || (negb up && (i >? hi)) then
        match I64.checked_add i step with
        | Some next => (fun l => i :: l) <$> collect fuel up next hi step
        | None => Some [i]
        end
      else Some []
  end.

(** The two clamped bounds of a slice. *)
Definition norm (n b : Z) : Z := if b <? 0 then I64.saturating_add b n else b.

Definition slice_lo (r : RangeParts) (n : Z) : Z :=
  let up := 0 <? step r in
  let '(lo_c, hi_c) := if up then (0, n) else (-1, n - 1) in
  clamp (default (if up then 0 else n - 1) (norm n <$> start r)) lo_c hi_c.

Definition slice_hi (r : RangeParts) (n : Z) : Z :=
  let up := 0 <? step r in
  let '(lo_c, hi_c) := if up then (0, n) else (-1, n - 1) in
  clamp (default (if up then n else -1)
           ((fun b => let b := norm n b in
                      if negb (inclusive r) then b
                      else if up then I64.saturating_add b 1 else I64.saturating_sub b 1)
              <$> end_ r)) lo_c hi_c.

(** [range_indices]: an iteration consumes at least one of the [len] positions, so [len + 1] rounds
    are enough ([None] would be a loop still running). *)
Definition range_indices (r : RangeParts) (len : Z) : option (result (list Z) string) :=
  if step r =? 0 then Some (Err "slice step cannot be zero")
  else Ok <$> collect (S (Z.to_nat len)) (0 <? step r) (slice_lo r len) (slice_hi r len) (step r).

(** ** The reference: CPython's slice adjustment

    [PySlice_Unpack] replaces a missing bound by an extreme value; [PySlice_AdjustIndices] moves a
    negative bound by the length and clamps; the selected positions are [start + k * step]. *)
Definition py_adjust (b len step : Z) : Z :=
  if b <? 0 then
    let b := b + len in
    if b <? 0 then (if step <? 0 then -1 else 0) else b
  else if len <=? b then (if step <? 0 then len - 1 else len) else b.

Definition py_length (start stop step : Z) : Z :=
  if step <? 0 then (if stop <? start then (start - stop - 1) / (- step) + 1 else 0)
  else if start <? stop then (stop - start - 1) / step + 1 else 0.

Definition py_slice (start stop : option Z) (step len : Z) : list Z :=
  let s := py_adjust (default (if step <? 0 then I64.MAX else 0) start) len step in
  let e := match stop with
           | Some e => py_adjust e len step
           | None => if step <? 0 then -1 else len
           end in
  (fun k => s + Z.of_nat k * step) <$> seq 0 (Z.to_nat (py_length s e step)).

(** ** The stepping loop selects the arithmetic progression *)

Lemma progression_one i step :
  (fun k => i + Z.of_nat k * step) <$> seq 0 (Z.to_nat (0 + 1)) = [i].
Proof. change (Z.to_nat (0 + 1)) with 1%nat. cbn [seq fmap list_fmap]. f_equal. lia. Qed.

Lemma collect_up fuel i hi step :
  0 < step -> 0 <= i -> hi <= I64.MAX -> (Z.to_nat (hi - i) < fuel)%nat ->
  collect fuel true i hi step =
    Some ((fun k => i + Z.of_nat k * step) <$> seq 0 (Z.to_nat (py_length i hi step))).
Proof.
  revert i. induction fuel as [|fuel IH]; intros i Hs Hi Hh Hf; [lia|].
  cbn [collect andb orb negb]. unfold py_length. rewrite (proj2 (Z.ltb_ge step 0)) by lia.
  rewrite orb_false_r. destruct (i <? hi) eqn:E; [|done].
  apply Z.ltb_lt in E.
  destruct (I64.checked_add i step) as [next|] eqn:En.
  - apply I64.checked_Some in En as [-> _].
    rewrite IH by lia. unfold py_length. rewrite (proj2 (Z.ltb_ge step 0)) by lia.
    destruct (i + step <? hi) eqn:E2; [apply Z.ltb_lt in E2 | apply Z.ltb_ge in E2].
    + replace (hi - i - 1) with (hi - (i + step) - 1 + 1 * step) by lia.
      rewrite Z.div_add by lia.
      assert (0 <= (hi - (i + step) - 1) / step) by (apply Z.div_pos; lia).
      replace (Z.to_nat ((hi - (i + step) - 1) / step + 1 + 1))
        with (S (Z.to_nat ((hi - (i + step) - 1) / step + 1))) by lia.
      cbn [seq fmap list_fmap option_fmap option_map]. do 2 f_equal; [lia|].
      rewrite <- seq_shift, <- list_fmap_compose. apply list_fmap_ext. intros ? k ?. simpl. lia.
    + replace ((hi - i - 1) / step) with 0 by (symmetry; apply Z.div_small; lia).
      rewrite progression_one. done.
  - apply I64.checked_None in En.
    replace ((hi - i - 1) / step) with 0; [by rewrite progression_one|].
    symmetry. apply Z.div_small. unfold I64.ok, I64.MIN, I64.MAX in *. lia.
Qed.

Lemma collect_down fuel i hi step :
  step < 0 -> i <= I64.MAX -> -1 <= hi -> (Z.to_nat (i - hi) < fuel)%nat ->
  collect fuel false i hi step =
    Some ((fun k => i + Z.of_nat k * step) <$> seq 0 (Z.to_nat (py_length i hi step))).
Proof.
  revert i. induction fuel as [|fuel IH]; intros i Hs Hi Hh Hf; [lia|].
  cbn [collect andb orb negb]. unfold py_length. rewrite (proj2 (Z.ltb_lt step 0)) by lia.
  rewrite Z.gtb_ltb. destruct (hi <? i) eqn:E; [|done].
  apply Z.ltb_lt in E.
  destruct (I64.checked_add i step) as [next|] eqn:En.
  - apply I64.checked_Some in En as [-> _].
    rewrite IH by lia. unfold py_length. rewrite (proj2 (Z.ltb_lt step 0)) by lia.
    destruct (hi <? i + step) eqn:E2; [apply Z.ltb_lt in E2 | apply Z.ltb_ge in E2].
    + replace (i - hi - 1) with (i + step - hi - 1 + 1 * (- step)) by lia.
      rewrite Z.div_add by lia.
      assert (0 <= (i + step - hi - 1) / - step) by (apply Z.div_pos; lia).
      replace (Z.to_nat ((i + step - hi - 1) / - step + 1 + 1))
        with (S (Z.to_nat ((i + step - hi - 1) / - step + 1))) by lia.
      cbn [seq fmap list_fmap option_fmap option_map]. do 2 f_equal; [lia|].
      rewrite <- seq_shift, <- list_fmap_compose. apply list_fmap_ext. intros ? k ?. simpl. lia.
    + replace ((i - hi - 1) / - step) with 0 by (symmetry; apply Z.div_small; lia).
      rewrite progression_one. done.
  - apply I64.checked_None in En.
    replace ((i - hi - 1) / - step) with 0; [by rewrite progression_one|].
    symmetry. apply Z.div_small. unfold I64.ok, I64.MIN, I64.MAX in *. lia.
Qed.

(** The bounds of a slice lie in the positions of its direction. *)
Lemma slice_bounds r n :
  0 <= n -> step r <> 0 ->
  if 0 <? step r then 0 <= slice_lo r n <= n /\ 0 <= slice_hi r n <= n
  else -1 <= slice_lo r n <= n - 1 /\ -1 <= slice_hi r n <= n - 1.
Proof.
  intros Hn Hs. unfold slice_lo, slice_hi, clamp.
  destruct (0 <? step r); lia.
Qed.

(** [len] of a Rust container is at most [isize::MAX]. *)
Definition len_ok (n : Z) : Prop := 0 <= n <= I64.MAX.

(** The loop of [range_indices] always ends, with the progression between the clamped bounds. *)
Lemma range_indices_progression r n :
  len_ok n -> step r <> 0 ->
  range_indices r n =
    Some (Ok ((fun k => slice_lo r n + Z.of_nat k * step r) <$>
              seq 0 (Z.to_nat (py_length (slice_lo r n) (slice_hi r n) (step r))))).
Proof.
  intros Hn Hs. unfold range_indices. rewrite (proj2 (Z.eqb_neq _ _)) by done.
  pose proof (slice_bounds r n (proj1 Hn) Hs) as Hb. unfold len_ok in Hn.
  destruct (0 <? step r) eqn:E.
  - apply Z.ltb_lt in E. rewrite collect_up by lia. done.
  - apply Z.ltb_ge in E. rewrite collect_down by lia. done.
Qed.

(** A plain index resolves exactly when it names a position: [norm_index n len] is the position
    [i] iff [0 <= i < len] and [n] is [i] or its negative form [i - len]. *)
Theorem norm_index_spec (n len i : Z) (Hlen : 0 <= len) :
  norm_index n len = Some i <-> (0 <= i < len /\ (n = i \/ n = i - len)).
Proof.
  unfold norm_index. destruct (n <? 0) eqn:E; [apply Z.ltb_lt in E | apply Z.ltb_ge in E];
    destruct ((0 <=? _) && _) eqn:E2; rewrite ?andb_true_iff, ?andb_false_iff, ?Z.leb_le, ?Z.ltb_lt,
      ?Z.leb_gt, ?Z.ltb_ge in E2; (split; [intros [= <-] || discriminate; lia | intros ?; f_equal; lia]).
Qed.

Lemma norm_index_spec_witness : 0 <= 5 /\ norm_index (-2) 5 = Some 3.
Proof. split; [lia|]. apply (norm_index_spec (-2) 5 3); lia. Defined.

Definition bound_ok (b : option Z) : Prop := match b with Some z => I64.ok z | None => True end.

Lemma norm_ok n b : len_ok n -> I64.ok b -> norm n b = if b <? 0 then b + n else b.
Proof.
  unfold norm, I64.saturating_add, I64.saturate, len_ok, I64.ok, I64.MIN, I64.MAX.
  intros. destruct (b <? 0) eqn:E; [apply Z.ltb_lt in E; lia | done].
Qed.

Lemma sign_cases s :
  s <> 0 -> ((0 <? s) = true /\ (s <? 0) = false) \/ ((0 <? s) = false /\ (s <? 0) = true).
Proof. intros. destruct (Z.ltb_spec 0 s), (Z.ltb_spec s 0); auto; lia. Qed.

Lemma slice_lo_py r n :
  len_ok n -> step r <> 0 -> bound_ok (start r) ->
  slice_lo r n = py_adjust (default (if step r <? 0 then I64.MAX else 0) (start r)) n (step r).
Proof.
  intros Hn Hs Hb. unfold slice_lo, clamp, py_adjust.
  assert (0 <= n <= I64.MAX) as Hn' by apply Hn.
  destruct (sign_cases _ Hs) as [[-> ->] | [-> ->]];
    (destruct (start r) as [b|]; simpl in *; [rewrite norm_ok by done|]);
    unfold I64.MAX in *; repeat case_match; lia.
Qed.

Lemma slice_hi_py r n :
  len_ok n -> step r <> 0 -> bound_ok (end_ r) -> inclusive r = false ->
  slice_hi r n = match end_ r with
                 | Some e => py_adjust e n (step r)
                 | None => if step r <? 0 then -1 else n
                 end.
Proof.
  intros Hn Hs Hb Hi. unfold slice_hi, clamp, py_adjust. rewrite Hi.
  assert (0 <= n <= I64.MAX) as Hn' by apply Hn.
  destruct (sign_cases _ Hs) as [[-> ->] | [-> ->]];
    (destruct (end_ r) as [b|]; simpl in *; [rewrite norm_ok by done|]);
    unfold I64.MAX in *; repeat case_match; lia.
Qed.

(** C40: slicing with an exclusive range is CPython's slicing: for [i64] bounds, any step and any
    length, the loop terminates with the positions CPython selects, and a zero step is the one
    error.  The saturating bounds and the early exit on an overflowing step change nothing. *)
Theorem range_indices_cpython (r : RangeParts) (n : Z) :
  len_ok n -> bound_ok (start r) -> bound_ok (end_ r) -> inclusive r = false ->
  range_indices r n =
    Some (if step r =? 0 then Err "slice step cannot be zero"
          else Ok (py_slice (start r) (end_ r) (step r) n)).
Proof.
  intros Hn Hs He Hi. destruct (step r =? 0) eqn:E.
  - unfold range_indices. by rewrite E.
  - apply Z.eqb_neq in E. rewrite range_indices_progression by done.
    unfold py_slice. rewrite slice_lo_py by done. rewrite slice_hi_py by done. done.
Qed.

Lemma range_indices_cpython_witness :
  range_indices (mkRange (Some (-1)) None (-2) false) 7 = Some (Ok [6; 4; 2; 0]).
Proof.
  rewrite (range_indices_cpython (mkRange (Some (-1)) None (-2) false) 7);
    [reflexivity | unfold len_ok, I64.MAX; lia | unfold bound_ok, I64.ok, I64.MIN, I64.MAX; simpl; lia
    | exact I | reflexivity].
Defined.

Lemma py_length_lt s e step k :
  step <> 0 -> (k < Z.to_nat (py_length s e step))%nat ->
  if 0 <? step then s <= s + Z.of_nat k * step < e else e < s + Z.of_nat k * step <= s.
Proof.
  intros Hs. unfold py_length. destruct (0 <? step) eqn:E.
  - apply Z.ltb_lt in E. rewrite (proj2 (Z.ltb_ge step 0)) by lia.
    destruct (s <? e) eqn:E2; [apply Z.ltb_lt in E2|lia]. intros Hk.
    assert (Z.of_nat k <= (e - s - 1) / step) as Hk'.
    { assert (0 <= (e - s - 1) / step) by (apply Z.div_pos; lia). lia. }
    pose proof (Z.mul_div_le (e - s - 1) step). nia.
  - apply Z.ltb_ge in E. rewrite (proj2 (Z.ltb_lt step 0)) by lia.
    destruct (e <? s) eqn:E2; [apply Z.ltb_lt in E2|lia]. intros Hk.
    assert (Z.of_nat k <= (s - e - 1) / - step) as Hk'.
    { assert (0 <= (s - e - 1) / - step) by (apply Z.div_pos; lia). lia. }
    pose proof (Z.mul_div_le (s - e - 1) (- step)). nia.
Qed.

(** Every selected position is valid and none repeats, for any range (inclusive or not) with a
    non-zero step: the caller may index the receiver without a further check. *)
Lemma range_indices_valid (r : RangeParts) (n : Z) :
  len_ok n -> step r <> 0 ->
  exists l, range_indices r n = Some (Ok l) /\ Forall (fun i => 0 <= i < n) l /\ NoDup l.
Proof.
  intros Hn Hs. rewrite range_indices_progression by done. eexists. split; [done|]. split.
  - apply Forall_fmap, Forall_forall. intros k Hk. apply in_seq in Hk.
    pose proof (slice_bounds r n (proj1 Hn) Hs) as Hb.
    pose proof (py_length_lt (slice_lo r n) (slice_hi r n) (step r) k Hs ltac:(lia)) as Hl.
    simpl. destruct (0 <? step r); lia.
  - apply NoDup_fmap_2; [intros a b Hab; nia | apply NoDup_seq].
Qed.

(** ** Representations

    Text is a list of code points. *)

Definition cp (c : Ascii.ascii) : Z := Z.of_nat (Ascii.nat_of_ascii c).
Definition SQUOTE : Z := 39.
Definition DQUOTE : Z := 34.
Definition BSLASH : Z := 92.

Definition repr_quote (has_single has_double : bool) : Z :=
  if has_single && negb has_double then DQUOTE else SQUOTE.

Definition has (c : Z) (s : list Z) : bool := existsb (Z.eqb c) s.

(** A lowercase hex digit, and [w] of them for [n]: [{n:02x}], [{n:04x}], [{n:08x}]. *)
Definition hex_digit (d : Z) : Z := if d <? 10 then 48 + d else 87 + d.
Fixpoint hex_digits (w : nat) (n : Z) : list Z :=
  match w with
  | O => []
  | S w => hex_digits w (n / 16) ++ [hex_digit (n mod 16)]
  end.

(** One byte of [bytes_repr_quoted]. *)
Definition repr_byte (quote : Z) (always_escape_single : bool) (b : Z) : list Z :=
  if b =? 10 then [BSLASH; 110]
  else if b =? 9 then [BSLASH; 116]
  else if b =? 13 then [BSLASH; 114]
  else if b =? BSLASH then [BSLASH; BSLASH]
  else if (b =? SQUOTE) && (always_escape_single || (quote =? SQUOTE)) then [BSLASH; SQUOTE]
  else if (32 <=? b) && (b <=? 126) then [b]
  else [BSLASH; 120] ++ hex_digits 2 b.

Definition bytes_repr_quoted (bytes : list Z) (always_escape_single : bool) : list Z :=
  let quote := repr_quote (has SQUOTE bytes) (has DQUOTE bytes) in
  [98; quote] ++ flat_map (repr_byte quote always_escape_single) bytes ++ [quote].

Definition bytes_repr (bytes : list Z) : list Z := bytes_repr_quoted bytes false.

Definition text (s : string) : list Z := cp <$> String.list_ascii_of_string s.
Definition bytearray_repr (bytes : list Z) : list Z :=
  text "bytearray(" ++ bytes_repr_quoted bytes true ++ text ")".

(** One character of [str_repr].  [unprintable c] is the verdict of Rust's Unicode tables and the
    correction table on a non-ASCII character. *)
Definition repr_char (unprintable : Z -> bool) (quote c : Z) : list Z :=
  if c =? 10 then [BSLASH; 110]
  else if c =? 9 then [BSLASH; 116]
  else if c =? 13 then [BSLASH; 114]
  else if c =? BSLASH then [BSLASH; BSLASH]
  else if c =? quote then [BSLASH; c]
  else if (c <? 32) || (c =? 127) || ((127 <? c) && unprintable c) then
    if c <=? 255 then [BSLASH; 120] ++ hex_digits 2 c
    else if c <=? 65535 then [BSLASH; 117] ++ hex_digits 4 c
    else [BSLASH; 85] ++ hex_digits 8 c
  else [c].

Definition str_repr (unprintable : Z -> bool) (s : list Z) : list Z :=
  let quote := repr_quote (has SQUOTE s) (has DQUOTE s) in
  [quote] ++ flat_map (repr_char unprintable quote) s ++ [quote].

(** *** Reading a representation back *)

Definition unhex_digit (c : Z) : option Z :=
  if (48 <=? c) && (c <=? 57) then Some (c - 48)
  else if (97 <=? c) && (c <=? 102) then Some (c - 87)
  else None.
Fixpoint unhex (acc : Z) (ds : list Z) : option Z :=
  match ds with
  | [] => Some acc
  | d :: ds => match unhex_digit d with Some v => unhex (acc * 16 + v) ds | None => None end
  end.

(** The reader of a quoted body: [fuel] bounds the characters left. *)
Fixpoint unquote (fuel : nat) (quote : Z) (s : list Z) : option (list Z * list Z) :=
  match fuel with
  | O => None
  | S fuel =>
      match s with
      | [] => None
      | c :: s =>
          if c =? quote then Some ([], s)
          else if c =? BSLASH then
            match s with
            | [] => None
            | e :: s =>
                let '(v, rest) :=
                  if e =? 110 then (Some 10, s) else if e =? 116 then (Some 9, s)
                  else if e =? 114 then (Some 13, s)
                  else if e =? 120 then (unhex 0 (take 2 s), drop 2 s)
                  else if e =? 117 then (unhex 0 (take 4 s), drop 4 s)
                  else if e =? 85 then (unhex 0 (take 8 s), drop 8 s)
                  else (Some e, s) in
                match v, unquote fuel quote rest with
                | Some v, Some (t, rest) => Some (v :: t, rest)
                | _, _ => None
                end
            end
          else match unquote fuel quote s with
               | Some (t, rest) => Some (c :: t, rest)
               | None => None
               end
      end
  end.

(** [read_repr s] reads the text a quoted literal stands for, and the rest of the input. *)
Definition read_repr (s : list Z) : option (list Z * list Z) :=
  match s with [] => None | q :: s => unquote (S (length s)) q s end.

Lemma unhex_app acc a b : unhex acc (a ++ b) = v ← unhex acc a; unhex v b.
Proof.
  revert acc. induction a as [|d a IH]; intros acc; [done|]. simpl.
  destruct (unhex_digit d); [apply IH | done].
Qed.

Lemma unhex_hex_digit d : 0 <= d < 16 -> unhex_digit (hex_digit d) = Some d.
Proof.
  intros Hd. unfold unhex_digit, hex_digit. destruct (d <? 10) eqn:E;
    [apply Z.ltb_lt in E | apply Z.ltb_ge in E]; repeat case_match; f_equal; lia.
Qed.

Lemma unhex_hex_digits w n acc :
  0 <= n < 16 ^ Z.of_nat w -> unhex acc (hex_digits w n) = Some (acc * 16 ^ Z.of_nat w + n).
Proof.
  revert n acc. induction w as [|w IH]; intros n acc Hn.
  - simpl in *. f_equal. change (16 ^ 0) with 1 in *. lia.
  - cbn [hex_digits]. rewrite Nat2Z.inj_succ, Z.pow_succ_r in * by lia.
    pose proof (Z.div_mod n 16 ltac:(lia)). pose proof (Z.mod_pos_bound n 16 ltac:(lia)).
    rewrite unhex_app, IH by (split; [apply Z.div_pos; lia | apply Z.div_lt_upper_bound; lia]).
    simpl. rewrite unhex_hex_digit by lia. f_equal. nia.
Qed.

Lemma hex_digits_length w n : length (hex_digits w n) = w.
Proof. revert n. induction w; intros; simpl; [done|]. rewrite length_app, IHw. simpl. lia. Qed.

(** The reader consumes one escape: its letter [e] announces [w] hex digits. *)
Lemma unquote_hex fuel q e w n s :
  (e, w) ∈ [(120, 2%nat); (117, 4%nat); (85, 8%nat)] -> (q = SQUOTE \/ q = DQUOTE) ->
  0 <= n < 16 ^ Z.of_nat w ->
  unquote (S fuel) q ([BSLASH; e] ++ hex_digits w n ++ s) =
    '(t, rest) ← unquote fuel q s; Some (n :: t, rest).
Proof.
  intros He Hq Hn. cbn [app unquote].
  replace (BSLASH =? q) with false by (destruct Hq as [-> | ->]; done).
  pose proof (unhex_hex_digits w n 0 Hn) as Hu. rewrite Z.mul_0_l, Z.add_0_l in Hu.
  assert (Hd : take w (hex_digits w n ++ s) = hex_digits w n /\ drop w (hex_digits w n ++ s) = s).
  { pose proof (hex_digits_length w n) as E.
    split; [by rewrite take_app_length' | by rewrite drop_app_length']. }
  destruct Hd as [Ht Hdr].
  rewrite !elem_of_cons in He. destruct He as [[= -> ->]|[[= -> ->]|[[= -> ->]|[]%elem_of_nil]]];
    rewrite Z.eqb_refl; cbv [Z.eqb Pos.eqb]; rewrite Ht, Hdr, Hu;
    by destruct (unquote fuel q s) as [[]|].
Qed.

(** The reader consumes a plain character or a two-character escape. *)
Lemma unquote_plain fuel q c s :
  c <> q -> c <> BSLASH -> unquote (S fuel) q (c :: s) =
    '(t, rest) ← unquote fuel q s; Some (c :: t, rest).
Proof.
  intros H1 H2. cbn [unquote]. rewrite (proj2 (Z.eqb_neq _ _) H1), (proj2 (Z.eqb_neq _ _) H2).
  by destruct (unquote fuel q s) as [[]|].
Qed.

Lemma unquote_esc fuel q e v s :
  (q = SQUOTE \/ q = DQUOTE) ->
  (e, v) ∈ [(110, 10); (116, 9); (114, 13); (BSLASH, BSLASH); (SQUOTE, SQUOTE); (DQUOTE, DQUOTE)] ->
  unquote (S fuel) q ([BSLASH; e] ++ s) = '(t, rest) ← unquote fuel q s; Some (v :: t, rest).
Proof.
  intros Hq He. cbn [app unquote].
  replace (BSLASH =? q) with false by (destruct Hq as [-> | ->]; done).
  rewrite Z.eqb_refl. rewrite !elem_of_cons in He.
  destruct He as [[= -> ->]|[[= -> ->]|[[= -> ->]|[[= -> ->]|[[= -> ->]|[[= -> ->]|
    []%elem_of_nil]]]]]]; cbv [Z.eqb Pos.eqb BSLASH SQUOTE DQUOTE];
    by destruct (unquote fuel q s) as [[]|].
Qed.

(** A representation whose pieces the reader inverts one by one is inverted whole. *)
Lemma unquote_flat_map (piece : Z -> list Z) (P : Z -> Prop) q rest s fuel :
  (forall c fuel s, P c -> unquote (S fuel) q (piece c ++ s) =
     '(t, rest) ← unquote fuel q s; Some (c :: t, rest)) ->
  Forall P s -> (length s < fuel)%nat ->
  unquote fuel q (flat_map piece s ++ q :: rest) = Some (s, rest).
Proof.
  intros Hp Hs. revert fuel. induction Hs as [|c s Hc Hs IH]; intros fuel Hf;
    (destruct fuel as [|fuel]; [simpl in *; lia|]).
  - cbn [flat_map app unquote]. by rewrite Z.eqb_refl.
  - cbn [flat_map]. rewrite <- app_assoc, Hp by done. simpl in Hf. by rewrite IH by lia.
Qed.

Lemma flat_map_length_ge {A} (piece : A -> list Z) s :
  (forall c, (1 <= length (piece c))%nat) -> (length s <= length (flat_map piece s))%nat.
Proof.
  intros Hp. induction s as [|c s IH]; simpl; [lia|].
  rewrite length_app. specialize (Hp c). lia.
Qed.

Lemma has_spec c s : has c s = true <-> In c s.
Proof.
  unfold has. rewrite existsb_exists. split.
  - intros (x & Hx & ->%Z.eqb_eq). done.
  - intros Hc. exists c. split; [done | apply Z.eqb_refl].
Qed.

Lemma repr_quote_cases s :
  let q := repr_quote (has SQUOTE s) (has DQUOTE s) in
  q = SQUOTE \/ (q = DQUOTE /\ Forall (fun c => c <> DQUOTE) s).
Proof.
  unfold repr_quote. simpl.
  destruct (has SQUOTE s), (has DQUOTE s) eqn:E; simpl; auto.
  right. split; [done|]. apply Forall_forall. intros c Hc ->.
  rewrite (proj2 (has_spec DQUOTE s)) in E; done.
Qed.

Lemma repr_byte_read q esc b fuel s :
  (q = SQUOTE \/ (q = DQUOTE /\ b <> DQUOTE)) -> 0 <= b < 256 ->
  unquote (S fuel) q (repr_byte q esc b ++ s) = '(t, rest) ← unquote fuel q s; Some (b :: t, rest).
Proof.
  intros Hq Hb. assert (Hq' : q = SQUOTE \/ q = DQUOTE) by tauto.
  unfold repr_byte.
  destruct (b =? 10) eqn:E1; [apply Z.eqb_eq in E1 as ->; by apply unquote_esc; [|in_list]|].
  destruct (b =? 9) eqn:E2; [apply Z.eqb_eq in E2 as ->; by apply unquote_esc; [|in_list]|].
  destruct (b =? 13) eqn:E3; [apply Z.eqb_eq in E3 as ->; by apply unquote_esc; [|in_list]|].
  destruct (b =? BSLASH) eqn:E4; [apply Z.eqb_eq in E4 as ->; by apply unquote_esc; [|in_list]|].
  apply Z.eqb_neq in E4.
  destruct ((b =? SQUOTE) && _) eqn:E5.
  { apply andb_true_iff in E5 as [->%Z.eqb_eq _]. by apply unquote_esc; [|in_list]. }
  destruct ((32 <=? b) && (b <=? 126)) eqn:E6.
  - apply (unquote_plain fuel q b s); [|done].
    intros ->. destruct Hq as [-> | [-> ?]]; [|done].
    by rewrite Z.eqb_refl, orb_true_r in E5.
  - rewrite <- app_assoc. apply (unquote_hex fuel q 120 2 b s); [in_list | done | simpl; lia].
Qed.

Lemma repr_char_read up q c fuel s :
  (q = SQUOTE \/ q = DQUOTE) -> 0 <= c < 2 ^ 32 ->
  unquote (S fuel) q (repr_char up q c ++ s) = '(t, rest) ← unquote fuel q s; Some (c :: t, rest).
Proof.
  intros Hq Hc. unfold repr_char.
  destruct (c =? 10) eqn:E1; [apply Z.eqb_eq in E1 as ->; by apply unquote_esc; [|in_list]|].
  destruct (c =? 9) eqn:E2; [apply Z.eqb_eq in E2 as ->; by apply unquote_esc; [|in_list]|].
  destruct (c =? 13) eqn:E3; [apply Z.eqb_eq in E3 as ->; by apply unquote_esc; [|in_list]|].
  destruct (c =? BSLASH) eqn:E4; [apply Z.eqb_eq in E4 as ->; by apply unquote_esc; [|in_list]|].
  apply Z.eqb_neq in E4.
  destruct (c =? q) eqn:E5.
  { apply Z.eqb_eq in E5 as ->. apply unquote_esc; [done|]. destruct Hq as [-> | ->]; in_list. }
  apply Z.eqb_neq in E5.
  destruct (_ || _); [|by apply (unquote_plain fuel q c s)].
  destruct (c <=? 255) eqn:E6; [apply Z.leb_le in E6|];
    [|destruct (c <=? 65535) eqn:E7; [apply Z.leb_le in E7|]]; rewrite <- app_assoc.
  - apply (unquote_hex fuel q 120 2 c s); [in_list | done | simpl; lia].
  - apply (unquote_hex fuel q 117 4 c s); [in_list | done | simpl; lia].
  - apply (unquote_hex fuel q 85 8 c s); [in_list | done | simpl; lia].
Qed.

Lemma repr_byte_nonempty q esc b : (1 <= length (repr_byte q esc b))%nat.
Proof. unfold repr_byte. repeat case_match; simpl; lia. Qed.
Lemma repr_char_nonempty up q c : (1 <= length (repr_char up q c))%nat.
Proof. unfold repr_char. repeat case_match; simpl; lia. Qed.

(** The quoted text of [bytes_repr_quoted] reads back as the bytes. *)
Lemma bytes_repr_quoted_read bs esc rest :
  Forall (fun b => 0 <= b < 256) bs ->
  read_repr (drop 1 (bytes_repr_quoted bs esc ++ rest)) = Some (bs, rest).
Proof.
  intros Hb. unfold bytes_repr_quoted. cbn [app drop read_repr].
  set (q := repr_quote _ _). pose proof (repr_quote_cases bs) as Hq. fold q in Hq.
  rewrite <- app_assoc. cbn [app].
  apply (unquote_flat_map _ (fun b => 0 <= b < 256 /\ (q = SQUOTE \/ (q = DQUOTE /\ b <> DQUOTE)))).
  - intros c fuel s [Hc Hd]. by apply repr_byte_read.
  - rewrite Forall_forall in *. intros c Hc. split; [auto|].
    destruct Hq as [-> | [-> Hd]]; [auto|]. rewrite Forall_forall in Hd. auto.
  - rewrite length_app. pose proof (flat_map_length_ge (repr_byte q esc) bs (repr_byte_nonempty q esc)).
    simpl. lia.
Qed.

(** [repr] of [bytes] and [bytearray] loses nothing: the printed literal, read back with the
    escapes of the language, is exactly the original bytes, so two different byte strings never
    print alike. *)
Lemma bytes_repr_roundtrip (bs : list Z) (Hb : Forall (fun b => 0 <= b < 256) bs) :
  read_repr (drop 1 (bytes_repr bs)) = Some (bs, []) /\
  read_repr (drop 11 (bytearray_repr bs)) = Some (bs, text ")").
Proof.
  split.
  - unfold bytes_repr. rewrite <- (app_nil_r (bytes_repr_quoted bs false)).
    by apply bytes_repr_quoted_read.
  - unfold bytearray_repr. change (drop 11 (text "bytearray(" ++ ?x)) with (drop 1 x).
    by apply bytes_repr_quoted_read.
Qed.

(** [repr] of a [str] loses nothing, whatever the Unicode tables call printable: the literal
    reads back as the same characters. *)
Lemma str_repr_roundtrip (unprintable : Z -> bool) (s : list Z)
    (Hs : Forall (fun c => 0 <= c < 1114112) s) :
  read_repr (str_repr unprintable s) = Some (s, []).
Proof.
  unfold str_repr. cbn [app read_repr]. set (q := repr_quote _ _).
  pose proof (repr_quote_cases s) as Hq. fold q in Hq.
  apply (unquote_flat_map _ (fun c => 0 <= c < 1114112)).
  - intros c fuel t Hc. apply repr_char_read; [destruct Hq as [Hq|[Hq _]]; auto|]. lia.
  - done.
  - rewrite length_app.
    pose proof (flat_map_length_ge (repr_char unprintable q) s (repr_char_nonempty unprintable q)).
    simpl. lia.
Qed.

(** [repr] loses nothing.  The printed literal of a [bytes], a [bytearray] or a [str], read back
    with the escapes of the language, is exactly the original, so two different values never print
    alike; for a [str] whatever the Unicode tables call printable. *)
Lemma repr_roundtrip (unprintable : Z -> bool) (bs s : list Z)
    (Hb : Forall (fun b => 0 <= b < 256) bs) (Hs : Forall (fun c => 0 <= c < 1114112) s) :
  read_repr (drop 1 (bytes_repr bs)) = Some (bs, []) /\
  read_repr (drop 11 (bytearray_repr bs)) = Some (bs, text ")") /\
  read_repr (str_repr unprintable s) = Some (s, []).
Proof.
  destruct (bytes_repr_roundtrip bs Hb) as [H1 H2]. split; [exact H1|]. split; [exact H2|by apply str_repr_roundtrip].
Qed.

