(* ===== verification/Token.v ===== *)
(** * Tokens and layout: [src/src/lexer/mod.rs]

    The token type with the string literals and holes it holds, the tables that spell keywords and
    punctuation, the text a lexer reads ([source_chars]), the offside rule on a stack of widths
    ([indent_step]), and the parser's request for layout inside brackets ([open_layout]).  A
    character is its code point, a [Z]; the state machine that reads characters is [Lexer]. *)

From stdpp Require Import strings.
From S2P Require Import Prelude Consteval Slice.
Import F64.
Local Open Scope Z_scope.

(** ** Tokens *)

(** [Token], [StrLit], [StrPart], [Hole], [SpecPart] and [Tok]: an interpolated literal holds the
    tokens of its holes.  Text is a list of code points. *)
Inductive Token : Set :=
| KInt (n : Z) | KIntMinMagnitude | KFloat (f : f64) | KStr (s : StrLit) | KBytes (b : list Z)
| KRawStr (s : list Z) | KIdent (s : list Z)
| KFn | KReturn | KIf | KElse | KElif | KFor | KWhile | KIn | KBreak | KContinue | KPass
| KStruct | KEnum | KProtocol | KType | KMatch | KRecover | KDefer | KAssert | KTest | KSpawn
| KParallel | KWait | KYield | KImport | KExtern | KNative | KFrom | KAs | KConst | KAnd | KOr
| KNot | KTrue | KFalse | KNoneKw | KWhere | KPlus | KMinus | KStar | KSlash | KPercent
| KAssign | KWalrus | KEqEq | KNotEq | KLt | KLtEq | KGt | KGtEq | KPlusEq | KMinusEq | KStarEq
| KSlashEq | KPercentEq | KAmpEq | KPipeEq | KCaretEq | KShlEq | KShrEq | KArrow | KPipe
| KQuestion | KQuestionDot | KQuestionQuestion | KBang | KAmp | KCaret | KBitOr | KShl | KShr
| KLParen | KRParen | KLBracket | KRBracket | KLBrace | KRBrace | KComma | KColon | KDot
| KDotDot | KDotDotEq | KDotDotDot | KNewline | KIndent | KDedent | KEof
with StrLit : Set := mkStrLit (parts : list StrPart) (len : nat)
with StrPart : Set := PText (t : list Z) | PHole (h : Hole)
with Hole : Set := mkHole (tokens : list Tok) (spec : option (list SpecPart)) (spec_at : Span)
with SpecPart : Set := SText (t : list Z) | SField (field : list Tok)
with Tok : Set := mkTok (kind : Token) (span : Span) (indent : option Z).

Definition parts (s : StrLit) : list StrPart := let 'mkStrLit p _ := s in p.
Definition len (s : StrLit) : nat := let 'mkStrLit _ n := s in n.
Definition kind (t : Tok) : Token := let 'mkTok k _ _ := t in k.
Definition span (t : Tok) : Span := let 'mkTok _ s _ := t in s.
Definition indent (t : Tok) : option Z := let 'mkTok _ _ i := t in i.

(** The position of a variant in the enum: [==] with a variant that has no payload compares it. *)
Definition discriminant (t : Token) : Z :=
  match t with
  | KInt _ => 0 | KIntMinMagnitude => 1 | KFloat _ => 2 | KStr _ => 3 | KBytes _ => 4
  | KRawStr _ => 5 | KIdent _ => 6 | KFn => 7 | KReturn => 8 | KIf => 9 | KElse => 10
  | KElif => 11 | KFor => 12 | KWhile => 13 | KIn => 14 | KBreak => 15 | KContinue => 16
  | KPass => 17 | KStruct => 18 | KEnum => 19 | KProtocol => 20 | KType => 21 | KMatch => 22
  | KRecover => 23 | KDefer => 24 | KAssert => 25 | KTest => 26 | KSpawn => 27
  | KParallel => 28 | KWait => 29 | KYield => 30 | KImport => 31 | KExtern => 32
  | KNative => 33 | KFrom => 34 | KAs => 35 | KConst => 36 | KAnd => 37 | KOr => 38
  | KNot => 39 | KTrue => 40 | KFalse => 41 | KNoneKw => 42 | KWhere => 43 | KPlus => 44
  | KMinus => 45 | KStar => 46 | KSlash => 47 | KPercent => 48 | KAssign => 49 | KWalrus => 50
  | KEqEq => 51 | KNotEq => 52 | KLt => 53 | KLtEq => 54 | KGt => 55 | KGtEq => 56
  | KPlusEq => 57 | KMinusEq => 58 | KStarEq => 59 | KSlashEq => 60 | KPercentEq => 61
  | KAmpEq => 62 | KPipeEq => 63 | KCaretEq => 64 | KShlEq => 65 | KShrEq => 66 | KArrow => 67
  | KPipe => 68 | KQuestion => 69 | KQuestionDot => 70 | KQuestionQuestion => 71 | KBang => 72
  | KAmp => 73 | KCaret => 74 | KBitOr => 75 | KShl => 76 | KShr => 77 | KLParen => 78
  | KRParen => 79 | KLBracket => 80 | KRBracket => 81 | KLBrace => 82 | KRBrace => 83
  | KComma => 84 | KColon => 85 | KDot => 86 | KDotDot => 87 | KDotDotEq => 88
  | KDotDotDot => 89 | KNewline => 90 | KIndent => 91 | KDedent => 92 | KEof => 93
  end.
Definition is_tok (k t : Token) : bool := discriminant k =? discriminant t.

Definition KEYWORDS : list (list Z * Token) := [
    (text "fn", KFn); (text "return", KReturn); (text "if", KIf); (text "else", KElse);
    (text "elif", KElif); (text "for", KFor); (text "while", KWhile); (text "in", KIn);
    (text "break", KBreak); (text "continue", KContinue); (text "pass", KPass);
    (text "struct", KStruct); (text "enum", KEnum); (text "protocol", KProtocol);
    (text "type", KType); (text "match", KMatch); (text "recover", KRecover);
    (text "defer", KDefer); (text "assert", KAssert); (text "test", KTest);
    (text "spawn", KSpawn); (text "parallel", KParallel); (text "wait", KWait);
    (text "yield", KYield); (text "import", KImport); (text "extern", KExtern);
    (text "native", KNative); (text "from", KFrom); (text "as", KAs); (text "const", KConst);
    (text "and", KAnd); (text "or", KOr); (text "not", KNot); (text "true", KTrue);
    (text "false", KFalse); (text "None", KNoneKw); (text "where", KWhere)].

Definition PUNCTUATION : list Token := [
    KPlus; KMinus; KStar; KSlash; KPercent; KAssign; KWalrus; KEqEq; KNotEq; KLt; KLtEq; KGt;
    KGtEq; KPlusEq; KMinusEq; KStarEq; KSlashEq; KPercentEq; KAmpEq; KPipeEq; KCaretEq; KShlEq;
    KShrEq; KArrow; KPipe; KQuestion; KQuestionDot; KQuestionQuestion; KBang; KAmp; KCaret;
    KBitOr; KShl; KShr; KLParen; KRParen; KLBracket; KRBracket; KLBrace; KRBrace; KComma;
    KColon; KDot; KDotDot; KDotDotEq; KDotDotDot].

(** [Token::lexeme]: the fixed spelling of a keyword, an operator or a delimiter. *)
Definition lexeme (t : Token) : option (list Z) :=
  match List.find (fun '(_, k) => is_tok k t) KEYWORDS with
  | Some (w, _) => Some w
  | None =>
      match t with
      | KPlus => Some (text "+") | KMinus => Some (text "-") | KStar => Some (text "*")
      | KSlash => Some (text "/") | KPercent => Some (text "%") | KAssign => Some (text "=")
      | KWalrus => Some (text ":=") | KEqEq => Some (text "==") | KNotEq => Some (text "!=")
      | KLt => Some (text "<") | KLtEq => Some (text "<=") | KGt => Some (text ">")
      | KGtEq => Some (text ">=") | KPlusEq => Some (text "+=") | KMinusEq => Some (text "-=")
      | KStarEq => Some (text "*=") | KSlashEq => Some (text "/=")
      | KPercentEq => Some (text "%=") | KAmpEq => Some (text "&=")
      | KPipeEq => Some (text "|=") | KCaretEq => Some (text "^=")
      | KShlEq => Some (text "<<=") | KShrEq => Some (text ">>=") | KArrow => Some (text "->")
      | KPipe => Some (text "|>") | KQuestion => Some (text "?")
      | KQuestionDot => Some (text "?.") | KQuestionQuestion => Some (text "??")
      | KBang => Some (text "!") | KAmp => Some (text "&") | KCaret => Some (text "^")
      | KBitOr => Some (text "|") | KShl => Some (text "<<") | KShr => Some (text ">>")
      | KLParen => Some (text "(") | KRParen => Some (text ")") | KLBracket => Some (text "[")
      | KRBracket => Some (text "]") | KLBrace => Some (text "{") | KRBrace => Some (text "}")
      | KComma => Some (text ",") | KColon => Some (text ":") | KDot => Some (text ".")
      | KDotDot => Some (text "..") | KDotDotEq => Some (text "..=")
      | KDotDotDot => Some (text "...")
      | _ => None
      end
  end.

Definition keyword (word : list Z) : option Token :=
  snd <$> List.find (fun '(w, _) => bool_decide (w = word)) KEYWORDS.
Definition is_keyword (word : list Z) : bool := bool_decide (is_Some (keyword word)).

(** [StrLit::plain]: the text of a literal with no hole; [StrLit::from]: a literal of one text. *)
Definition plain (s : StrLit) : option (list Z) :=
  match parts s with [] => Some [] | [PText t] => Some t | _ => None end.
Definition strlit_from (t : list Z) : StrLit :=
  mkStrLit (if bool_decide (t = []) then [] else [PText t]) 0.

(** [ends_operand]: whether a token can end an operand; a [?] keeps the reading before it. *)
Definition ends_operand (t : Token) (before : bool) : bool :=
  match t with
  | KQuestion => before
  | KInt _ | KIntMinMagnitude | KFloat _ | KStr _ | KBytes _ | KRawStr _ | KIdent _ | KTrue
  | KFalse | KNoneKw | KRParen | KRBracket | KRBrace => true
  | _ => false
  end.

(** [LexError]: a position and a message. *)
Record LexError := mkLexError { err_line : Z; err_col : Z; err_message : string }.

(** ** The text a lexer reads *)

Definition NL : Z := 10.
Definition CR : Z := 13.
Definition TAB : Z := 9.
Definition SP : Z := 32.
Definition BOM : Z := 65279.

(** [strip_bom]: at most one leading byte-order mark goes. *)
Definition strip_bom (source : list Z) : list Z :=
  match source with c :: rest => if c =? BOM then rest else source | [] => [] end.

(** The loop of [source_chars]: a [\r] just before a [\n] is dropped. *)
Fixpoint join_crlf (source : list Z) : list Z :=
  match source with
  | [] => []
  | c :: rest =>
      if (c =? CR) && (match rest with d :: _ => d =? NL | [] => false end) then join_crlf rest
      else c :: join_crlf rest
  end.
Definition source_chars (source : list Z) : list Z := join_crlf (strip_bom source).

(** ** Layout *)

(** [while *indents.last().unwrap() > width { indents.pop(); dedents.push(Dedent) }]: the stack left
    and the levels closed.  The top of the stack is the head; [None] is the [unwrap] of an empty
    stack. *)
Fixpoint pop_levels (indents : list nat) (width : nat) : option (list nat * list Token) :=
  match indents with
  | [] => None
  | top :: below =>
      if (width <? top)%nat then
        '(st, dedents) ← pop_levels below width; Some (st, dedents ++ [KDedent])
      else Some (indents, [])
  end.

Definition BAD_DEDENT : string :=
  "inconsistent dedent — does not match any outer indentation level".

(** [indent_step]: the layout of a content line at column [width], and the stack it leaves. *)
Definition indent_step (indents : list nat) (width : nat) :
    option (result (list Token) string * list nat) :=
  top ← head indents;
  if (top <? width)%nat then Some (Ok [KIndent], width :: indents)
  else if (width =? top)%nat then Some (Ok [], indents)
  else
    '(st, dedents) ← pop_levels indents width;
    top ← head st;
    Some (if (top =? width)%nat then (Ok dedents, st) else (Err BAD_DEDENT, st)).

Definition is_opener (t : Token) : bool :=
  match t with KLParen | KLBracket | KLBrace => true | _ => false end.
Definition is_closer (t : Token) : bool :=
  match t with KRParen | KRBracket | KRBrace => true | _ => false end.

(** A token of the layout, at the place of [at]. *)
Definition mk_layout (k : Token) (at_ : Tok) : Tok := mkTok k (span at_) None.

(** The closing [Newline] and one [Dedent] for each level above the first. *)
Definition close_layout (stack : list nat) (t : Tok) : list Tok :=
  mk_layout KNewline t :: repeat (mk_layout KDedent t) (length stack - 1).

(** The loop of [open_layout] from [toks[j..]]: what it pushed to [out] and the tokens it did not
    reach.  [None] is an index past the end. *)
Fixpoint layout_loop (base : nat) (stack : list nat) (depth : nat) (rest : list Tok) :
    option (result (list Tok * list Tok) LexError) :=
  match rest with
  | [] => None
  | t :: more =>
      let closer := is_closer (kind t) in
      if is_tok KEof (kind t) || (closer && (depth =? 0)%nat) then
        Some (Ok (close_layout stack t, rest))
      else
        let go (out : list Tok) (stack : list nat) :=
          depth ← (if is_opener (kind t) then Some (S depth)
                   else if closer then match depth with O => None | S d => Some d end
                   else Some depth);
          r ← layout_loop base stack depth more;
          Some (match r with Ok (o, rest) => Ok (out ++ t :: o, rest) | Err e => Err e end) in
        match (if (depth =? 0)%nat && negb (is_tok KPipe (kind t)) then indent t else None) with
        | Some w =>
            let w := Z.to_nat w in
            if (w <=? base)%nat then Some (Ok (close_layout stack t, rest))
            else
              step ← indent_step stack w;
              match step with
              | (Ok layout, stack) =>
                  go (mk_layout KNewline t :: ((fun k => mk_layout k t) <$> layout)) stack
              | (Err msg, _) => Some (Err (mkLexError (line (span t)) (col (span t)) msg))
              end
        | None => go [] stack
        end
  end.

(** [open_layout]: whether layout was opened, and the tokens with it.  [toks[..=colon]] panics past
    the end. *)
Definition open_layout (toks : list Tok) (colon : nat) :
    option (result (bool * list Tok) LexError) :=
  let first := S colon in
  match t ← toks !! first; indent t with
  | None => Some (Ok (false, toks))
  | Some first_indent =>
      match head (omap indent (rev (take (S colon) toks))) with
      | None => Some (Ok (false, toks))
      | Some base =>
          let base := Z.to_nat base in
          if (Z.to_nat first_indent <=? base)%nat then Some (Ok (false, toks))
          else
            r ← layout_loop base [base] 0 (drop first toks);
            Some (match r with
                  | Ok (out, rest) => Ok (true, take first toks ++ out ++ rest)
                  | Err e => Err e
                  end)
      end
  end.

(** [ident_words]: the line and the text of each identifier, in token order, those of holes and
    spec fields included. *)
Fixpoint ident_word (t : Tok) : list (Z * list Z) :=
  let 'mkTok k s _ := t in
  match k with
  | KIdent w => [(line s, w)]
  | KStr (mkStrLit ps _) =>
      flat_map (fun p =>
        match p with
        | PText _ => []
        | PHole (mkHole toks spec _) =>
            flat_map ident_word toks ++
            match spec with
            | None => []
            | Some sp =>
                flat_map (fun f => match f with SText _ => [] | SField fs => flat_map ident_word fs end) sp
            end
        end) ps
  | _ => []
  end.
Definition ident_words (toks : list Tok) : list (Z * list Z) := flat_map ident_word toks.

(** ** The stack of indents *)
Section layout.
  Local Open Scope nat_scope.

(** Strictly decreasing widths, from the top down to [b]. *)
Fixpoint levels_from (b : nat) (l : list nat) : Prop :=
  match l with
  | [] => False
  | [w] => w = b
  | w :: ((v :: _) as l) => v < w /\ levels_from b l
  end.

Lemma levels_tail b w l : levels_from b (w :: l) -> l <> [] -> levels_from b l.
Proof. destruct l; [done|]. by intros [_ H]. Qed.
Lemma levels_head b l : levels_from b l -> exists w r, l = w :: r.
Proof. destruct l; [done|]. eauto. Qed.
Lemma levels_pos b w l : levels_from b (w :: l) -> b < w -> l <> [].
Proof. destruct l; [simpl; lia|done]. Qed.
Lemma repeat_snoc {A} (x : A) n : repeat x n ++ [x] = repeat x (S n).
Proof. by rewrite <- repeat_cons. Qed.

Lemma pop_levels_spec b l w : levels_from b l -> b <= w -> exists n, pop_levels l w = Some (drop n l, repeat KDedent n) /\
  n < length l /\ levels_from b (drop n l) /\ (forall v r, l = v :: r -> w < v -> 1 <= n).
Proof.
  intros Hl Hb. induction l as [|v l IH]; [done|]. cbn [pop_levels]. destruct (Nat.ltb_spec w v) as [Hw|Hw].
  - assert (l <> []) as Hne by (eapply levels_pos; [exact Hl|lia]).
    destruct IH as (n & E & Hn & Hd & _); [by eapply levels_tail|]. exists (S n). rewrite E. simpl.
    split; [by rewrite repeat_snoc|]. split; [lia|]. split; [done|]. intros. lia.
  - exists 0. simpl. split; [done|]. split; [lia|]. split; [done|]. intros v' r [= <- <-]. lia.
Qed.

(** What the layout of a content line does to the stack. *)
Inductive layout_step (b : nat) (l : list nat) (w : nat) : list Token -> list nat -> Prop :=
| ls_indent : b < w -> layout_step b l w [KIndent] (w :: l)
| ls_same : layout_step b l w [] l
| ls_dedent n : 1 <= n < length l -> layout_step b l w (repeat KDedent n) (drop n l).

Lemma indent_step_spec b l w : levels_from b l -> b <= w -> exists r l', indent_step l w = Some (r, l') /\ levels_from b l' /\
  match r with Ok layout => layout_step b l w layout l' | Err msg => msg = BAD_DEDENT end.
Proof.
  intros Hl Hb. destruct (levels_head b l Hl) as (v & r & E). unfold indent_step. subst l. cbn [head mbind option_bind list.head].
  destruct (Nat.ltb_spec v w) as [Hv|Hv].
  { eexists _, _. split; [done|]. split; [done|]. constructor.
    clear -Hl Hv. revert v Hl Hv. induction r as [|u r IH]; simpl; intros v Hl Hv; [lia|]. destruct Hl as [Hu Hl]. apply (IH u); [done|lia]. }
  destruct (Nat.eqb_spec w v) as [->|Hne]; [eexists _, _; split; [done|]; split; [done|constructor]|].
  destruct (pop_levels_spec _ _ w Hl Hb) as (n & -> & Hn & Hd & H1). cbn [mbind option_bind].
  specialize (H1 v r eq_refl ltac:(lia)). destruct (levels_head _ _ Hd) as (u & q & Eu). rewrite Eu in *. cbn [list.head mbind option_bind].
  destruct (u =? w); eexists _, _; (split; [done|]); (split; [done|]); [|done].
  rewrite <- Eu. constructor. lia.
Qed.

(** ** Layout inside brackets *)

(** The tokens layout inserts. *)
Definition is_block (k : Token) : bool := match k with KNewline | KIndent | KDedent => true | _ => false end.
(** The levels open after some tokens; [None] when a level is closed that was never opened. *)
Fixpoint net (d : nat) (ks : list Token) : option nat :=
  match ks with
  | [] => Some d
  | KIndent :: ks => net (S d) ks
  | KDedent :: ks => match d with O => None | S d => net d ks end
  | _ :: ks => net d ks
  end.
Definition plain_toks (l : list Tok) : list Tok := filter (fun t => is_block (kind t) = false) l.

Lemma net_app d ks ks' : net d (ks ++ ks') = e ← net d ks; net e ks'.
Proof. revert d. induction ks as [|k ks IH]; intros d; [done|]. destruct k; simpl; try apply IH. destruct d; [done|apply IH]. Qed.
Lemma net_plain d k ks : is_block k = false -> net d (k :: ks) = net d ks.
Proof. by destruct k. Qed.
Lemma net_dedents d n : n <= d -> net d (repeat KDedent n) = Some (d - n).
Proof. revert d. induction n as [|n IH]; intros d Hd; simpl; [f_equal; lia|]. destruct d; [lia|]. rewrite IH by lia. f_equal. Qed.
Lemma kinds_mk k t n : kind <$> repeat (mk_layout k t) n = repeat k n.
Proof. induction n as [|n IH]; [done|]. cbn [repeat]. by rewrite fmap_cons, IH. Qed.
Lemma plain_mk ks t : Forall (fun k => is_block k = true) ks -> plain_toks ((fun k => mk_layout k t) <$> ks) = [].
Proof.
  induction 1 as [|k ks Hk _ IH]; [done|]. rewrite fmap_cons. unfold plain_toks. rewrite filter_cons_False; [done|].
  simpl. congruence.
Qed.
Lemma block_repeat k n : is_block k = true -> Forall (fun k => is_block k = true) (repeat k n).
Proof. intros Hk. induction n; by constructor. Qed.

(** The layout of a line changes the levels as the stack says. *)
Lemma layout_step_net b l w ks l' : levels_from b l -> layout_step b l w ks l' ->
  net (length l - 1) ks = Some (length l' - 1) /\ Forall (fun k => is_block k = true) ks.
Proof.
  intros Hl. destruct (levels_head _ _ Hl) as (v & r & ->). intros [Hw| |n Hn].
  - simpl. rewrite Nat.sub_0_r. split; [done|]. by repeat constructor.
  - split; [done|constructor].
  - split; [|by apply block_repeat]. rewrite net_dedents by (simpl in *; lia). f_equal. rewrite length_drop. lia.
Qed.

Lemma close_layout_spec stack t :
  net (length stack - 1) (kind <$> close_layout stack t) = Some 0 /\ plain_toks (close_layout stack t) = [].
Proof.
  unfold close_layout. rewrite fmap_cons, kinds_mk. split.
  - simpl. rewrite net_dedents by lia. f_equal. lia.
  - unfold plain_toks. rewrite filter_cons_False by (simpl; congruence).
    induction (length stack - 1) as [|n IH]; [done|]. cbn [repeat]. by rewrite filter_cons_False by (simpl; congruence).
Qed.

(** What a loop from [rest] with [stack] open yields. *)
Definition loop_post (stack : list nat) (rest : list Tok) (r : result (list Tok * list Tok) LexError) : Prop :=
  match r with
  | Err e => exists t, t ∈ rest /\ e = mkLexError (line (span t)) (col (span t)) BAD_DEDENT
  | Ok (out, rest') => exists mid, rest = mid ++ rest' /\ rest' <> [] /\
      (Forall (fun t => is_block (kind t) = false) mid ->
         plain_toks out = mid /\ net (length stack - 1) (kind <$> out) = Some 0)
  end.

Lemma close_post stack t more : loop_post stack (t :: more) (Ok (close_layout stack t, t :: more)).
Proof. exists []. split; [done|]. split; [done|]. intros _. destruct (close_layout_spec stack t). done. Qed.

(** One more token in front: the layout of its line, then itself. *)
Lemma cons_post stack stack' t more ks r : Forall (fun k => is_block k = true) ks ->
  net (length stack - 1) ks = Some (length stack' - 1) -> loop_post stack' more r ->
  loop_post stack (t :: more)
    (match r with Ok (o, rest) => Ok (((fun k => mk_layout k t) <$> ks) ++ t :: o, rest) | Err e => Err e end).
Proof.
  intros Hks Hn. destruct r as [[o rest']|e].
  - intros (mid & -> & Hne & H). exists (t :: mid). split; [done|]. split; [done|]. intros [Ht Hm]%Forall_cons_1.
    destruct (H Hm) as [Hp Hnet]. split.
    + unfold plain_toks. rewrite list.filter_app. fold (plain_toks ((fun k => mk_layout k t) <$> ks)). rewrite plain_mk by done.
      rewrite filter_cons_True by done. simpl. by f_equal.
    + rewrite fmap_app, fmap_cons, net_app. rewrite <- list_fmap_compose.
      assert ((kind ∘ (fun k => mk_layout k t)) <$> ks = ks) as -> by (clear; induction ks as [|k ks IH]; [done|by rewrite fmap_cons, IH]).
      rewrite Hn. cbn [mbind option_bind]. by rewrite net_plain.
  - intros (u & Hu & ->). exists u. split; [by right|done].
Qed.

Lemma layout_loop_spec base stack depth rest : levels_from base stack ->
  Exists (fun t => is_tok KEof (kind t) = true) rest ->
  exists r, layout_loop base stack depth rest = Some r /\ loop_post stack rest r.
Proof.
  revert stack depth. induction rest as [|t more IH]; intros stack depth Hs He; [by inversion He|]. cbn [layout_loop].
  destruct (is_tok KEof (kind t)) eqn:Et; [eexists; split; [done|apply close_post]|].
  assert (Exists (fun t => is_tok KEof (kind t) = true) more) as He' by (inversion He; [congruence|done]).
  destruct (is_closer (kind t) && (depth =? 0)) eqn:Ec; [eexists; split; [done|apply close_post]|]. cbn [orb].
  assert (forall ks stack', levels_from base stack' -> Forall (fun k => is_block k = true) ks ->
    net (length stack - 1) ks = Some (length stack' - 1) ->
    exists r, (depth ← (if is_opener (kind t) then Some (S depth)
                   else if is_closer (kind t) then match depth with O => None | S d => Some d end else Some depth);
          r ← layout_loop base stack' depth more;
          Some (match r with Ok (o, rest) => Ok (((fun k => mk_layout k t) <$> ks) ++ t :: o, rest) | Err e => Err e end)) = Some r /\
      loop_post stack (t :: more) r) as Hgo.
  { intros ks stack' Hs' Hks Hn.
    assert (exists d, (if is_opener (kind t) then Some (S depth)
       else if is_closer (kind t) then match depth with O => None | S d => Some d end else Some depth) = Some d) as [d ->].
    { destruct (is_opener _); [eauto|]. destruct (is_closer _); [|eauto]. destruct depth; [done|eauto]. }
    destruct (IH stack' d Hs' He') as (r & E & Hr). cbn [mbind option_bind]. rewrite E. cbn [mbind option_bind].
    eexists. split; [done|]. by eapply cons_post. }
  destruct (if _ && _ then indent t else None) as [w|].
  - destruct (Z.to_nat w <=? base) eqn:Ew; [eexists; split; [done|apply close_post]|]. apply Nat.leb_gt in Ew.
    destruct (indent_step_spec base stack (Z.to_nat w) Hs ltac:(lia)) as (r & stack' & -> & Hs' & Hr). cbn [mbind option_bind].
    destruct r as [ks|msg].
    + destruct (layout_step_net _ _ _ _ _ Hs Hr) as [Hn Hks].
      destruct (Hgo (KNewline :: ks) stack' Hs' ltac:(by constructor) Hn) as (r & E & Hp). exists r. split; [exact E|done].
    + eexists. split; [done|]. exists t. split; [by left|]. by subst msg.
  - destruct (Hgo [] stack Hs (Forall_nil _) eq_refl) as (r & E & Hp). exists r. split; [exact E|done].
Qed.

(** Layout inside brackets loses nothing and opens what it closes. When the tokens after the
    colon reach an [Eof], [open_layout] never indexes past the end. It leaves the tokens as they
    are, or refuses a line at no open level (pointing at that line's first token), or splices a
    stretch of the tokens: without the inserted layout the stretch is what it was, in the same
    order, the text around it is untouched, and its [Indent]s and [Dedent]s match. *)
Lemma open_layout_splices (toks : list Tok) (colon : nat) :
  Exists (fun t => is_tok KEof (kind t) = true) (drop (S colon) toks) ->
  match open_layout toks colon with
  | None => False
  | Some (Err e) => exists t, t ∈ drop (S colon) toks /\ e = mkLexError (line (span t)) (col (span t)) BAD_DEDENT
  | Some (Ok (false, toks')) => toks' = toks
  | Some (Ok (true, toks')) => exists mid out rest,
      toks = take (S colon) toks ++ mid ++ rest /\ toks' = take (S colon) toks ++ out ++ rest /\ rest <> [] /\
      (Forall (fun t => is_block (kind t) = false) mid ->
         plain_toks out = mid /\ net 0 (kind <$> out) = Some 0)
  end.
Proof.
  intros He. unfold open_layout. destruct (t ← toks !! S colon; indent t) as [fi|]; [|done].
  destruct (list.head _) as [base|]; [|done]. destruct (_ <=? _); [done|].
  destruct (layout_loop_spec (Z.to_nat base) [Z.to_nat base] 0 _ eq_refl He) as (r & -> & Hr). cbn [mbind option_bind].
  destruct r as [[out rest]|e]; [|done]. destruct Hr as (mid & E & Hne & H). exists mid, out, rest.
  split; [by rewrite <- E, take_drop|]. done.
Qed.

(** A lambda's block inside parentheses: [f(:] with two indented lines and the closing bracket. *)
Definition demo_toks : list Tok :=
  let t k l i := mkTok k (mkSpan l 1 0) i in
  [t (KIdent [102%Z]) 1%Z (Some 0%Z); t KLParen 1%Z None; t KColon 1%Z None;
   t (KIdent [97%Z]) 2%Z (Some 4%Z); t (KIdent [98%Z]) 3%Z (Some 8%Z); t (KIdent [99%Z]) 4%Z (Some 4%Z);
   t KRParen 5%Z (Some 0%Z); t KEof 5%Z None].
End layout.
