(* ===== verification/Lexer.v ===== *)
(** * The lexer: [src/src/lexer/mod.rs]

    The scanning state machine: indentation, comments, words, numbers, the four kinds of string
    literal, interpolation holes lexed in place, and the driver.  A method of [Lexer] is a function
    of the state with four outcomes: a value, a [LexError], a Rust panic (an index or a subtraction
    out of range), or a loop that used up its rounds.  The theorems exclude the last two.

    Each loop runs at most one round more than there are characters left: a round that goes on has
    consumed one.  A hole lexes its code with the scanner itself, so [scan_token] takes the levels
    of holes it may open as its fuel; [MAX_HOLE_NEST] bounds them. *)

From Stdlib Require Import SpecFloat Ascii.
From stdpp Require Import strings.
From S2P Require Import Prelude Consteval Slice Token.
Import F64.
Local Open Scope Z_scope.

(** ** Characters *)

(** Rust's Unicode tables: [char::is_alphabetic], [is_numeric], [is_whitespace] and the [{:?}] of a
    character. *)
Class CharTables := {
  is_alphabetic : Z -> bool;
  is_numeric : Z -> bool;
  is_whitespace : Z -> bool;
  debug_char : Z -> string;
}.

Definition between (lo c hi : Z) : bool := (lo <=? c) && (c <=? hi).
Definition is_ascii_digit (c : Z) : bool := between 48 c 57.
Definition is_ascii_letter (c : Z) : bool := between 65 c 90 || between 97 c 122.
Definition is_ascii_alphanumeric (c : Z) : bool := is_ascii_digit c || is_ascii_letter c.
(** [char::to_digit]. *)
Definition to_digit (radix c : Z) : option Z :=
  let d := if is_ascii_digit c then c - 48
           else if between 97 c 122 then c - 87
           else if between 65 c 90 then c - 55 else 36 in
  if d <? radix then Some d else None.
Definition is_digit (radix c : Z) : bool := bool_decide (is_Some (to_digit radix c)).

(** What the documentation of [char] says of ASCII. *)
Class CharLaws (T : CharTables) : Prop := {
  alphabetic_ascii : forall c, 0 <= c < 128 -> is_alphabetic c = is_ascii_letter c;
  numeric_ascii : forall c, 0 <= c < 128 -> is_numeric c = is_ascii_digit c;
  whitespace_ascii : forall c, 0 <= c < 128 -> is_whitespace c = between 9 c 13 || (c =? 32);
}.

(** [ch "x"] is the code point of a character, as a number. *)
Notation "'ch' c" := (ltac:(let v := eval vm_compute in (cp c%char) in exact v))
  (at level 9, c at level 0, only parsing) : chz_scope.
Local Open Scope chz_scope.

(** A character printed with [{}]: its UTF-8 bytes. *)
Definition utf8_bytes (c : Z) : list Z :=
  if c <? 128 then [c]
  else if c <? 2048 then [192 + c / 64; 128 + c mod 64]
  else if c <? 65536 then [224 + c / 4096; 128 + (c / 64) mod 64; 128 + c mod 64]
  else [240 + c / 262144; 128 + (c / 4096) mod 64; 128 + (c / 64) mod 64; 128 + c mod 64].
Definition show_text (s : list Z) : string :=
  String.string_of_list_ascii ((fun b => ascii_of_nat (Z.to_nat b)) <$> (s ≫= utf8_bytes)).
Definition show_char (c : Z) : string := show_text [c].

(** *** Numbers *)

(** [i64::from_str_radix], [str::parse::<i64>] and [u64]'s, on text without a sign: an invalid
    digit is reported before the overflow it would cause. *)
Definition BAD_DIGIT : string := "invalid digit found in string".
Definition TOO_LARGE : string := "number too large to fit in target type".
Definition EMPTY_INT : string := "cannot parse integer from empty string".
Fixpoint parse_loop (max radix acc : Z) (s : list Z) : result Z string :=
  match s with
  | [] => Ok acc
  | c :: s =>
      match to_digit radix c with
      | None => Err BAD_DIGIT
      | Some d => let v := acc * radix + d in
                  if v <=? max then parse_loop max radix v s else Err TOO_LARGE
      end
  end.
Definition parse_uint (max radix : Z) (s : list Z) : result Z string :=
  if bool_decide (s = []) then Err EMPTY_INT else parse_loop max radix 0 s.
Definition U64_MAX : Z := 2 ^ 64 - 1.

(** The digits at the start of a text, and the rest. *)
Fixpoint digits (s : list Z) : list Z * list Z :=
  match s with
  | [] => ([], [])
  | c :: r => if is_ascii_digit c then let '(d, r) := digits r in (c :: d, r) else ([], s)
  end.
Definition dec_value (s : list Z) : Z := fold_left (fun v c => v * 10 + (c - 48)) s 0.

(** [m * 10^e], rounded once, to the nearest double and to even on a tie. *)
Definition round_dec (m e : Z) : f64 :=
  match m with
  | Z0 => S754_zero false
  | Zneg _ => S754_nan
  | Zpos p =>
      if 0 <=? e then binary_normalize prec emax (m * 10 ^ e) 0 false
      else let '(q, ex, loc) := SFdiv_core_binary prec emax m 0 (10 ^ (- e)) 0 in
           binary_round_aux prec emax false q ex loc
  end.

(** [str::parse::<f64>] on digits with an optional fraction and an optional exponent. *)
Definition parse_f64 (s : list Z) : result f64 string :=
  let bad := Err "invalid float literal" in
  let '(int, r) := digits s in
  let '(frac, r) := match r with
                    | c :: r' => if c =? ch "." then digits r' else ([], r)
                    | [] => ([], [])
                    end in
  if bool_decide (int ++ frac = []) then bad
  else
    let m := dec_value (int ++ frac) in
    let k := Z.of_nat (length frac) in
    match r with
    | [] => Ok (round_dec m (- k))
    | c :: r =>
        if (c =? ch "e") || (c =? ch "E") then
          let '(sgn, r) := match r with
                           | c :: r' => if c =? ch "-" then (-1, r')
                                        else if c =? ch "+" then (1, r') else (1, r)
                           | [] => (1, [])
                           end in
          let '(ds, rest) := digits r in
          if bool_decide (ds = [] \/ rest <> []) then bad
          else Ok (round_dec m (sgn * dec_value ds - k))
        else bad
    end.

(** ** The state *)

(** [Lexer].  The top of the stack of indents is the head of the list. *)
Record Lexer := mkLexer {
  chars : list Z;
  pos : nat;
  lx_line : nat;
  lx_file : Z;
  line_start : nat;
  indents : list nat;
  at_line_start : bool;
  pending : list Tok;
  bracket_depth : nat;
  hole_base : nat;
  hole_nest : nat;
  hole_comment : option Span;
  doc_comments : list (nat * list Z);
  pipe_cont : option nat;
  after_operand : bool;
}.

Definition new_file (source : list Z) (file : Z) : Lexer :=
  {| chars := source_chars source; pos := 0; lx_line := 1; lx_file := file; line_start := 0;
     indents := [0%nat]; at_line_start := true; pending := []; bracket_depth := 0; hole_base := 0;
     hole_nest := 0; hole_comment := None; doc_comments := []; pipe_cont := None;
     after_operand := false |}.

Definition set_pos (p : nat) (s : Lexer) : Lexer :=
  mkLexer (chars s) p (lx_line s) (lx_file s) (line_start s) (indents s) (at_line_start s)
    (pending s) (bracket_depth s) (hole_base s) (hole_nest s) (hole_comment s) (doc_comments s)
    (pipe_cont s) (after_operand s).
(** [self.line += 1; self.line_start = start]. *)
Definition new_line (start : nat) (s : Lexer) : Lexer :=
  mkLexer (chars s) (pos s) (S (lx_line s)) (lx_file s) start (indents s) (at_line_start s)
    (pending s) (bracket_depth s) (hole_base s) (hole_nest s) (hole_comment s) (doc_comments s)
    (pipe_cont s) (after_operand s).
Definition set_indents (l : list nat) (s : Lexer) : Lexer :=
  mkLexer (chars s) (pos s) (lx_line s) (lx_file s) (line_start s) l (at_line_start s)
    (pending s) (bracket_depth s) (hole_base s) (hole_nest s) (hole_comment s) (doc_comments s)
    (pipe_cont s) (after_operand s).
Definition set_at_line_start (b : bool) (s : Lexer) : Lexer :=
  mkLexer (chars s) (pos s) (lx_line s) (lx_file s) (line_start s) (indents s) b
    (pending s) (bracket_depth s) (hole_base s) (hole_nest s) (hole_comment s) (doc_comments s)
    (pipe_cont s) (after_operand s).
Definition set_pending (l : list Tok) (s : Lexer) : Lexer :=
  mkLexer (chars s) (pos s) (lx_line s) (lx_file s) (line_start s) (indents s) (at_line_start s)
    l (bracket_depth s) (hole_base s) (hole_nest s) (hole_comment s) (doc_comments s)
    (pipe_cont s) (after_operand s).
Definition set_depth (d : nat) (s : Lexer) : Lexer :=
  mkLexer (chars s) (pos s) (lx_line s) (lx_file s) (line_start s) (indents s) (at_line_start s)
    (pending s) d (hole_base s) (hole_nest s) (hole_comment s) (doc_comments s)
    (pipe_cont s) (after_operand s).
Definition set_base (b : nat) (s : Lexer) : Lexer :=
  mkLexer (chars s) (pos s) (lx_line s) (lx_file s) (line_start s) (indents s) (at_line_start s)
    (pending s) (bracket_depth s) b (hole_nest s) (hole_comment s) (doc_comments s)
    (pipe_cont s) (after_operand s).
Definition set_nest (n : nat) (s : Lexer) : Lexer :=
  mkLexer (chars s) (pos s) (lx_line s) (lx_file s) (line_start s) (indents s) (at_line_start s)
    (pending s) (bracket_depth s) (hole_base s) n (hole_comment s) (doc_comments s)
    (pipe_cont s) (after_operand s).
Definition set_comment (c : option Span) (s : Lexer) : Lexer :=
  mkLexer (chars s) (pos s) (lx_line s) (lx_file s) (line_start s) (indents s) (at_line_start s)
    (pending s) (bracket_depth s) (hole_base s) (hole_nest s) c (doc_comments s)
    (pipe_cont s) (after_operand s).
Definition add_doc (c : nat * list Z) (s : Lexer) : Lexer :=
  mkLexer (chars s) (pos s) (lx_line s) (lx_file s) (line_start s) (indents s) (at_line_start s)
    (pending s) (bracket_depth s) (hole_base s) (hole_nest s) (hole_comment s)
    (doc_comments s ++ [c]) (pipe_cont s) (after_operand s).
Definition set_pipe (p : option nat) (s : Lexer) : Lexer :=
  mkLexer (chars s) (pos s) (lx_line s) (lx_file s) (line_start s) (indents s) (at_line_start s)
    (pending s) (bracket_depth s) (hole_base s) (hole_nest s) (hole_comment s) (doc_comments s)
    p (after_operand s).
Definition set_operand (b : bool) (s : Lexer) : Lexer :=
  mkLexer (chars s) (pos s) (lx_line s) (lx_file s) (line_start s) (indents s) (at_line_start s)
    (pending s) (bracket_depth s) (hole_base s) (hole_nest s) (hole_comment s) (doc_comments s)
    (pipe_cont s) b.

(** ** The monad *)

Inductive outcome (A : Type) : Type :=
| Ret (a : A) (s : Lexer)
| Fail (e : LexError) (s : Lexer)
| Panic
| Spin.
Arguments Ret {A} a s.
Arguments Fail {A} e s.
Arguments Panic {A}.
Arguments Spin {A}.
Definition LM (A : Type) : Type := Lexer -> outcome A.

#[global] Instance LM_ret : MRet LM := fun A a s => Ret a s.
#[global] Instance LM_bind : MBind LM := fun A B k m s =>
  match m s with Ret a s => k a s | Fail e s => Fail e s | Panic => Panic | Spin => Spin end.

Definition get : LM Lexer := fun s => Ret s s.
Definition gets {A} (f : Lexer -> A) : LM A := fun s => Ret (f s) s.
Definition modify (f : Lexer -> Lexer) : LM unit := fun s => Ret tt (f s).
Definition fail {A} (e : LexError) : LM A := fun s => Fail e s.
(** An index, an [unwrap] or a subtraction that panics on [None]. *)
Definition or_panic {A} (o : option A) : LM A := fun s => match o with Some a => Ret a s | None => Panic end.
Definition checked_sub (a b : nat) : option nat := if (b <=? a)%nat then Some (a - b)%nat else None.
(** [chars[a..b]]. *)
Definition slice (l : list Z) (a b : nat) : option (list Z) :=
  if (a <=? b)%nat && (b <=? length l)%nat then Some (take (b - a) (drop a l)) else None.

(** A loop of at most [n] rounds; [inl] goes on. *)
Fixpoint rounds {A B} (n : nat) (body : A -> LM (A + B)) (a : A) : LM B :=
  match n with
  | O => fun _ => Spin
  | S n => r ← body a; match r with inl a => rounds n body a | inr b => mret b end
  end.
(** A loop in which each round that goes on consumes a character. *)
Definition forever {A B} (body : A -> LM (A + B)) (a : A) : LM B :=
  fun s => rounds (S (length (chars s) - pos s)) body a s.

(** ** Cursor and errors *)

Definition as_u32 (n : nat) : Z := Z.of_nat n mod 2 ^ 32.

Definition span_at (p : nat) : LM Span :=
  s ← get;
  c ← or_panic (checked_sub p (line_start s));
  mret (mkSpan (as_u32 (lx_line s)) (as_u32 (S c)) (lx_file s)).

Definition char_at (i : nat) : LM (option Z) := gets (fun s => chars s !! i).
Definition peek : LM Z := gets (fun s => default 0 (chars s !! pos s)).
Definition peek_next : LM Z := gets (fun s => default 0 (chars s !! S (pos s))).
Definition is_at_end : LM bool := gets (fun s => (length (chars s) <=? pos s)%nat).
Definition advance : LM Z := c ← peek; modify (fun s => set_pos (S (pos s)) s);; mret c.
Definition match_char (expected : Z) : LM bool :=
  c ← peek; if c =? expected then advance;; mret true else mret false.

Definition error_span {A} (sp : Span) (message : string) : LM A :=
  fail (mkLexError (line sp) (col sp) message).
Definition error_at {A} (p : nat) (message : string) : LM A := sp ← span_at p; error_span sp message.
Definition error {A} (message : string) : LM A := p ← gets pos; error_at p message.
(** [error_at(self.pos - back, ..)]. *)
Definition error_back {A} (back : nat) (message : string) : LM A :=
  p ← gets pos; p ← or_panic (checked_sub p back); error_at p message.

Fixpoint advance_n (n : nat) : LM unit :=
  match n with O => mret tt | S n => advance;; advance_n n end.

(** [let r = m; restore; r]: the state is restored on an error too. *)
Definition finally {A} (m : LM A) (restore : Lexer -> option Lexer) : LM A := fun s =>
  match m s with
  | Ret a s => match restore s with Some s => Ret a s | None => Panic end
  | Fail e s => match restore s with Some s => Fail e s | None => Panic end
  | r => r
  end.

(** [while test(self.peek()) { self.advance(); }]. *)
Definition advance_while (test : Z -> bool) : LM unit :=
  forever (fun _ => c ← peek; if test c then advance;; mret (inl tt) else mret (inr tt)) tt.
(** [self.chars[a..b]]. *)
Definition text_of (a b : nat) : LM (list Z) := s ← get; or_panic (slice (chars s) a b).

(** ** Words, operators and numbers *)
Section scan.
  Context `{T : CharTables}.

Definition is_alphanumeric (c : Z) : bool := is_alphabetic c || is_numeric c.
Definition is_word (c : Z) : bool := is_alphanumeric c || (c =? ch "_").
Definition is_quote (c : Z) : bool := (c =? DQUOTE) || (c =? SQUOTE).

(** How many of the first characters pass a test: [take_while(..).count()]. *)
Fixpoint prefix_len (test : Z -> bool) (l : list Z) : nat :=
  match l with c :: l => if test c then S (prefix_len test l) else 0 | [] => 0 end.

(** The lookahead of [pipe_continues_next_line] from [rest = chars[i..]]: where the next content
    starts and where its line does.  [comment] is the inner loop, up to the end of the line. *)
Fixpoint next_content (rest : list Z) (i line_start : nat) (comment : bool) : nat * nat :=
  match rest with
  | [] => (i, line_start)
  | c :: rest =>
      if c =? NL then next_content rest (S i) (S i) false
      else if comment then next_content rest (S i) line_start true
      else if (c =? SP) || (c =? TAB) || (c =? CR) then next_content rest (S i) line_start false
      else if c =? ch "#" then next_content rest (S i) line_start true
      else (i, line_start)
  end.

Definition pipe_continues_next_line : LM bool :=
  s ← get;
  if (match pipe_cont s with Some t => (pos s <=? t)%nat | None => false end) then mret true
  else
    modify (set_pipe None);;
    let '(i, ls) := next_content (drop (pos s) (chars s)) (pos s) (pos s) false in
    if negb (bool_decide (chars s !! i = Some (ch "|") /\ chars s !! S i = Some (ch ">"))) then
      mret false
    else
      lead ← text_of ls i;
      top ← or_panic (head (indents s));
      if existsb (fun c => negb (c =? SP)) lead || (length lead <? top)%nat then mret false
      else modify (set_pipe (Some i));; mret true.

(** Whether the character at [i] can start an operand. *)
Definition starts_operand (s : Lexer) (i : nat) : bool :=
  let next := chars s !! S i in
  match chars s !! i with
  | Some c =>
      if c =? ch "-" then negb (bool_decide (next = Some (ch ">") \/ next = Some (ch "=")))
      else if c =? ch "!" then negb (bool_decide (next = Some (ch "=")))
      else is_word c || is_quote c || (c =? ch "(") || (c =? ch "[") || (c =? ch "{") || (c =? ch "?")
  | None => false
  end.

Definition QQ_SPACING : string :=
  "'??' after a value takes the same spacing on both sides: `a ?? b` or `a??b`".

(** [start.checked_sub(1).map(|i| self.chars[i])]. *)
Definition char_before (start : nat) : LM (option Z) :=
  s ← get;
  match start with
  | O => mret None
  | S i => c ← or_panic (chars s !! i); mret (Some c)
  end.

(** [question]: the token a [?] at [start] begins. *)
Definition question (start : nat) : LM Token :=
  s ← get;
  before ← char_before start;
  tail ← text_of start (length (chars s));
  let run := prefix_len (fun c => c =? ch "?") tail in
  let chain :=
    c ← peek; d ← peek_next;
    if (c =? ch ".") && negb (d =? ch ".") then advance;; mret KQuestionDot else mret KQuestion in
  if after_operand s && negb (bool_decide (before = Some (ch "?"))) && (run =? 2)%nat then
    let left := match before with Some c => negb (is_whitespace c) | None => false end in
    let right := starts_operand s (start + 2) in
    if Bool.eqb left right then advance;; mret KQuestionQuestion
    else if right then error_at start QQ_SPACING
    else chain
  else chain.

Definition identifier (start : nat) : LM Token :=
  advance_while is_word;;
  p ← gets pos;
  word ← text_of start p;
  mret (match keyword word with Some t => t | None => KIdent word end).

(** The first underscore of a text that is not between two digits; [prev_ok] says whether one may
    come first. *)
Fixpoint bad_underscore (digit : Z -> bool) (prev_ok : bool) (l : list Z) (i : nat) : option nat :=
  match l with
  | [] => None
  | c :: l =>
      if (c =? ch "_") && negb (prev_ok && match l with n :: _ => digit n | [] => false end) then Some i
      else bad_underscore digit (digit c) l (S i)
  end.

Definition UNDERSCORE : string := "'_' in a number must be between digits".

(** The radix-prefixed literals; the cursor sits on the marker. *)
Definition radix_number (start : nat) (radix : Z) (name : string) : LM Token :=
  advance;;
  body_start ← gets pos;
  advance_while (fun c => is_ascii_alphanumeric c || (c =? ch "_"));;
  p ← gets pos;
  body ← text_of body_start p;
  if bool_decide (body = []) then error_at start ("empty " +:+ name +:+ " literal")
  else
    match bad_underscore (is_digit radix) true body 0 with
    | Some i => error_at (body_start + i) UNDERSCORE
    | None =>
        match parse_uint I64.MAX radix (filter (fun c => c <> ch "_") body) with
        | Ok v => mret (KInt v)
        | Err e => error_at start ("invalid " +:+ name +:+ " literal: " +:+ e)
        end
    end.

Definition is_e (c : Z) : bool := (c =? ch "e") || (c =? ch "E").
Definition is_sign (c : Z) : bool := (c =? ch "+") || (c =? ch "-").
Definition opt_test (test : Z -> bool) (o : option Z) : bool :=
  match o with Some c => test c | None => false end.

(** The fraction and the exponent of a number: whether either was read. *)
Definition fraction : LM bool :=
  c ← peek; d ← peek_next;
  if (c =? ch ".") && is_ascii_digit d then
    advance;; advance_while (fun c => is_ascii_digit c || (c =? ch "_"));; mret true
  else mret false.
Definition exponent : LM bool :=
  c ← peek;
  if is_e c then
    s ← get;
    let probe := if opt_test is_sign (chars s !! S (pos s)) then S (S (pos s)) else S (pos s) in
    if opt_test is_ascii_digit (chars s !! probe) then
      advance;;
      c ← peek;
      (if is_sign c then advance;; mret tt else mret tt);;
      advance_while is_ascii_digit;; mret true
    else mret false
  else mret false.

Definition leading_zeros (num : list Z) : string :=
  let trimmed := show_text (drop (prefix_len (fun c => c =? ch "0") num) num) in
  if forallb (fun c => between 48 c 55) num then
    "leading zeros in a decimal integer literal are not permitted; write 0o" +:+ trimmed +:+
    " for octal or " +:+ trimmed +:+ " for decimal"
  else
    "leading zeros in a decimal integer literal are not permitted; write " +:+ trimmed +:+
    " for decimal".

(** The value of a decimal literal, the underscores gone. *)
Definition decimal_value (start : nat) (num : list Z) (is_float : bool) : LM Token :=
  if negb is_float && (1 <? length num)%nat && opt_test (fun c => c =? ch "0") (head num)
     && existsb (fun c => between 49 c 57) num then
    error_at start (leading_zeros num)
  else if is_float then
    match parse_f64 num with Ok v => mret (KFloat v) | Err e => error_at start e end
  else
    match parse_uint I64.MAX 10 num with
    | Ok v => mret (KInt v)
    | Err e =>
        if match parse_uint U64_MAX 10 num with Ok v => v =? 2 ^ 63 | Err _ => false end then
          mret KIntMinMagnitude
        else error_at start e
    end.

Definition decimal_number (start : nat) : LM Token :=
  s ← get;
  let field_index :=
    match start with
    | O => false
    | S i => bool_decide (chars s !! i = Some (ch "."))
             && negb (match i with O => false | S j => bool_decide (chars s !! j = Some (ch ".")) end)
    end in
  advance_while (fun c => is_ascii_digit c || (c =? ch "_"));;
  frac ← (if field_index then mret false else fraction);
  exp ← (if field_index then mret false else exponent);
  p ← gets pos;
  word ← text_of start p;
  match bad_underscore is_ascii_digit false (take (prefix_len (fun c => negb (is_e c)) word) word) 0 with
  | Some i => error_at (start + i) UNDERSCORE
  | None => decimal_value start (filter (fun c => c <> ch "_") word) (frac || exp)
  end.

Definition number (start : nat) : LM Token :=
  s ← get;
  c0 ← or_panic (chars s !! start);
  c ← peek;
  if negb (c0 =? ch "0") then decimal_number start
  else if (c =? ch "x") || (c =? ch "X") then radix_number start 16 "hexadecimal"
  else if (c =? ch "b") || (c =? ch "B") then radix_number start 2 "binary"
  else if (c =? ch "o") || (c =? ch "O") then radix_number start 8 "octal"
  else decimal_number start.

(** ** Literals *)

Definition at_close (quote : Z) (triple : bool) : LM bool :=
  s ← get;
  let q i := bool_decide (chars s !! i = Some quote) in
  c ← peek; d ← peek_next;
  mret ((c =? quote) && (negb triple || ((d =? quote) && q (pos s + 2)%nat))).

(** [ESCAPES]: the letter after a backslash and what it stands for. *)
Definition ESCAPES : list (Z * Z) := [
  (ch "n", NL); (ch "t", TAB); (ch "r", CR); (BSLASH, BSLASH); (DQUOTE, DQUOTE); (SQUOTE, SQUOTE);
  (ch "0", 0)].

(** [char::from_u32]: a Unicode scalar value. *)
Definition from_u32 (c : Z) : option Z :=
  if (c <=? 1114111) && negb (between 55296 c 57343) then Some c else None.

(** [unicode_escape]: the cursor is past the [\u]. *)
Definition unicode_escape : LM Z :=
  brace ← gets pos;
  b ← match_char (ch "{");
  if negb b then error "expected '{' after \u in unicode escape"
  else
    ds ← forever (fun ds =>
      e ← is_at_end;
      if e : bool then error_at brace "unterminated unicode escape"
      else
        c ← peek;
        if c =? ch "}" then advance;; mret (inr ds)
        else if negb (is_digit 16 c) then error "invalid hex digit in unicode escape"
        else if (length ds =? 6)%nat then error "unicode escape too long (max 6 hex digits)"
        else c ← advance; mret (inl (ds ++ [c]))) [];
    if bool_decide (ds = []) then error_at brace "empty unicode escape"
    else
      match parse_uint (2 ^ 32 - 1) 16 ds with
      | Err e => error_at brace ("invalid unicode escape: " +:+ e)
      | Ok v =>
          match from_u32 v with
          | Some c => mret c
          | None => error_at brace "invalid unicode code point"
          end
      end.

Definition TRAILING : string := "unterminated string literal (trailing '\')".
Definition UNKNOWN_ESCAPE (c : Z) : string := "unknown escape '\" +:+ show_char c +:+ "'".

(** [escape]: the cursor is on the backslash; [open] is the literal's opener. *)
Definition escape (open : Span) : LM Z :=
  advance;;
  e ← is_at_end;
  if e : bool then error_span open TRAILING
  else
    esc ← advance;
    if esc =? ch "u" then unicode_escape
    else
      match List.find (fun '(letter, _) => letter =? esc) ESCAPES with
      | Some (_, resolved) => mret resolved
      | None =>
          if (esc =? NL) || (esc =? CR) then
            error_back 2 "line continuations are not supported; close the string or use \n"
          else error_back 1 (UNKNOWN_ESCAPE esc)
      end.

(** A verbatim character of a literal: a line break moves the line. *)
Definition literal_char : LM Z :=
  c ← peek;
  (if c =? NL then modify (fun s => new_line (S (pos s)) s) else mret tt);;
  advance.

(** [raw_string] and [raw_triple_string]: verbatim. *)
Definition raw_string (quote : Z) : LM Token :=
  p ← gets pos;
  p ← or_panic (checked_sub p 2);
  open ← span_at p;
  text ← forever (fun text =>
    e ← is_at_end; c ← peek;
    if negb e && negb (c =? quote) then c ← literal_char; mret (inl (text ++ [c]))
    else mret (inr text)) [];
  e ← is_at_end;
  if e : bool then error_span open "unterminated raw string literal"
  else advance;; mret (KRawStr text).

Definition raw_triple_string (quote : Z) : LM Token :=
  p ← gets pos;
  p ← or_panic (checked_sub p 4);
  open ← span_at p;
  text ← forever (fun text =>
    close ← at_close quote true;
    if close : bool then mret (inr text)
    else
      e ← is_at_end;
      if e : bool then error_span open "unterminated triple-quoted raw string literal"
      else c ← literal_char; mret (inl (text ++ [c]))) [];
  advance;; advance;; advance;; mret (KRawStr text).

(** [push_raw_byte], [hex_digit] and [byte_escape]: the byte they push. *)
Definition push_raw_byte (c : Z) : LM Z :=
  if c <=? 127 then mret c
  else error_back 1 "non-ASCII byte in byte literal; use \xHH escape".

Definition hex_digit (who : string) : LM Z :=
  e ← is_at_end;
  if e : bool then error (who +:+ " escape needs two hex digits")
  else
    c ← advance;
    match to_digit 16 c with
    | Some d => mret d
    | None => error_back 1 ("invalid hex digit '" +:+ show_char c +:+ "' in " +:+ who +:+ " escape")
    end.

Definition byte_escape (open : Span) : LM Z :=
  advance;;
  e ← is_at_end;
  if e : bool then error_span open "unterminated byte-string literal (trailing '\')"
  else
    esc ← advance;
    if esc =? ch "n" then mret NL
    else if esc =? ch "t" then mret TAB
    else if esc =? ch "r" then mret CR
    else if esc =? BSLASH then mret BSLASH
    else if esc =? DQUOTE then mret DQUOTE
    else if esc =? SQUOTE then mret SQUOTE
    else if esc =? ch "0" then mret 0
    else if esc =? ch "x" then
      hi ← hex_digit "\x"; lo ← hex_digit "\x"; mret (Z.lor (Z.shiftl hi 4) lo)
    else if esc =? ch "u" then error_back 1 "\u not allowed in a byte literal; use \xHH"
    else if (esc =? NL) || (esc =? CR) then
      error_back 2 "line continuations are not supported; close the literal or use \n"
    else error_back 1 (UNKNOWN_ESCAPE esc).

(** One element of a byte literal: an escape or a raw character. *)
Definition byte_elem (open : Span) : LM Z :=
  c ← peek;
  if c =? BSLASH then byte_escape open
  else
    c ← advance;
    (if c =? NL then modify (fun s => new_line (pos s) s) else mret tt);;
    push_raw_byte c.

Definition byte_string (quote : Z) : LM Token :=
  p ← gets pos;
  p ← or_panic (checked_sub p 2);
  open ← span_at p;
  bytes ← forever (fun bytes =>
    e ← is_at_end; c ← peek;
    if negb e && negb (c =? quote) then b ← byte_elem open; mret (inl (bytes ++ [b]))
    else mret (inr bytes)) [];
  e ← is_at_end;
  if e : bool then error_span open "unterminated byte-string literal"
  else advance;; mret (KBytes bytes).

Definition byte_triple_string (quote : Z) : LM Token :=
  p ← gets pos;
  p ← or_panic (checked_sub p 4);
  open ← span_at p;
  bytes ← forever (fun bytes =>
    close ← at_close quote true;
    if close : bool then mret (inr bytes)
    else
      e ← is_at_end;
      if e : bool then error_span open "unterminated triple-quoted byte-string literal"
      else b ← byte_elem open; mret (inl (bytes ++ [b]))) [];
  advance;; advance;; advance;; mret (KBytes bytes).

(** ** Interpolation

    [next] is [next_token] for the code of a hole. *)

Definition MAX_HOLE_NEST : nat := 149.
Definition ONE_LINE_HOLE_NEST : nat := 8.

(** The index of the brace that closes [{digits}] at the cursor. *)
Definition digit_hole (s : Lexer) : option nat :=
  let n := prefix_len is_ascii_digit (drop (S (pos s)) (chars s)) in
  let i := (S (pos s) + n)%nat in
  if (0 <? n)%nat && bool_decide (chars s !! i = Some (ch "}")) then Some i else None.

Definition COMMENTED_HOLE : string :=
  "'#' starts a comment inside an interpolation hole and the comment runs to the end of the line, so this hole's closing '}' is commented out".

Definition unterminated_hole {A} (brace : Span) : LM A :=
  c ← gets hole_comment;
  match c with
  | Some hash => error_span hash COMMENTED_HOLE
  | None => error_span brace "unterminated '{' in interpolated string"
  end.

(** The next token of a hole: an error at the end of the input is the hole's. *)
Definition hole_next (next : LM Tok) (brace : Span) : LM Tok := fun s =>
  match next s with
  | Fail e s => if (length (chars s) <=? pos s)%nat then unterminated_hole brace s else Fail e s
  | r => r
  end.

Definition is_layout (k : Token) : bool :=
  match k with KEof | KNewline | KIndent | KDedent => true | _ => false end.

Definition hole_tokens (next : LM Tok) (brace : Span) (base : nat) : LM (list Tok * bool) :=
  forever (fun tokens =>
    tok ← hole_next next brace;
    if is_layout (kind tok) then unterminated_hole brace
    else
      depth ← gets bracket_depth;
      let closed_hole := (depth <? base)%nat in
      let eof := mkTok KEof (span tok) None in
      if closed_hole && is_tok KRBrace (kind tok) then mret (inr (tokens ++ [eof], false))
      else if closed_hole && (is_tok KRParen (kind tok) || is_tok KRBracket (kind tok)) then
        error_span (span tok) "unmatched closing bracket in an interpolation hole"
      else if is_tok KColon (kind tok) && (depth =? base)%nat then
        depth ← or_panic (checked_sub depth 1);
        modify (set_depth depth);; mret (inr (tokens ++ [eof], true))
      else mret (inl (tokens ++ [tok]))) [].

(** [hole_code]: the enclosing base comes back whatever the result. *)
Definition hole_code (next : LM Tok) (brace : Span) : LM (list Tok * bool) :=
  s ← get;
  let base := S (bracket_depth s) in
  modify (fun s => set_operand false (set_base base (set_depth base s)));;
  finally (hole_tokens next brace base) (fun s' => Some (set_base (hole_base s) s')).

(** [if !text.is_empty() { parts.push(..Text(take(&mut text))) }]. *)
Definition flush {A} (mk : list Z -> A) (parts : list A) (text : list Z) : list A :=
  if bool_decide (text = []) then parts else parts ++ [mk text].

(** The format spec of a hole, up to its closing brace. *)
Definition hole_spec (next : LM Tok) (brace : Span) (quote : Z) (triple : bool) : LM (list SpecPart) :=
  forever (fun '(spec, text) =>
    e ← is_at_end;
    close ← at_close quote triple;
    if e || close then unterminated_hole brace
    else
      c ← peek;
      if c =? ch "}" then advance;; mret (inr (flush SText spec text))
      else if c =? ch "{" then
        p ← gets pos;
        field ← span_at p;
        advance;;
        '(field_tokens, nested) ← hole_code next field;
        if nested : bool then
          error_span field "format spec: a nested field cannot carry its own format spec"
        else mret (inl (flush SText spec text ++ [SField field_tokens], []))
      else if c =? BSLASH then c ← escape brace; mret (inl (spec, text ++ [c]))
      else c ← literal_char; mret (inl (spec, text ++ [c]))) ([], []).

Definition hole_body (next : LM Tok) (brace : Span) (quote : Z) (triple : bool) : LM Hole :=
  '(tokens, has_spec) ← hole_code next brace;
  if has_spec : bool then
    p ← gets pos;
    spec_at ← span_at p;
    spec ← hole_spec next brace quote triple;
    mret (mkHole tokens (Some spec) spec_at)
  else mret (mkHole tokens None brace).

(** [hole]: the cursor is on the [{]; the nesting and the comment mark come back in any case. *)
Definition hole (next : LM Tok) (quote : Z) (triple : bool) : LM Hole :=
  p ← gets pos;
  brace ← span_at p;
  advance;;
  s ← get;
  if (MAX_HOLE_NEST <=? hole_nest s)%nat then error_span brace "too many nested interpolated strings"
  else
    modify (fun s => set_comment None (set_nest (S (hole_nest s)) s));;
    finally (hole_body next brace quote triple) (fun s' =>
      n ← checked_sub (hole_nest s') 1; Some (set_comment (hole_comment s) (set_nest n s'))).

Definition UNTERMINATED (triple : bool) : string :=
  if triple then "unterminated triple-quoted string literal" else "unterminated string literal".

(** [quoted]: a [str] literal, its opening delimiter consumed. *)
Definition quoted (next : LM Tok) (quote : Z) (triple : bool) : LM Token :=
  let width := (if triple then 3 else 1)%nat in
  p ← gets pos;
  start ← or_panic (checked_sub p width);
  open ← span_at start;
  parts ← forever (fun '(parts, text) =>
    e ← is_at_end;
    if e : bool then error_span open (UNTERMINATED triple)
    else
      close ← at_close quote triple;
      if close : bool then mret (inr (flush PText parts text))
      else
        c ← peek; d ← peek_next;
        if c =? BSLASH then c ← escape open; mret (inl (parts, text ++ [c]))
        else if ((c =? ch "{") || (c =? ch "}")) && (d =? c) then
          advance;; advance;; mret (inl (parts, text ++ [c]))
        else if c =? ch "{" then
          s ← get;
          match digit_hole s with
          | Some end_ =>
              t ← text_of (pos s) (S end_);
              modify (set_pos (S end_));; mret (inl (parts, text ++ t))
          | None =>
              h ← hole next quote triple; mret (inl (flush PText parts text ++ [PHole h], []))
          end
        else if c =? ch "}" then error "unmatched '}' in string (use '}}' for a literal brace)"
        else c ← literal_char; mret (inl (parts, text ++ [c]))) ([], []);
  advance_n width;;
  p ← gets pos;
  n ← or_panic (checked_sub p start);
  mret (KStr (mkStrLit parts n)).

(** ** The scanner *)

(** [while !self.is_at_end() && self.peek() != '\n' { self.advance(); }]. *)
Definition to_line_end : LM unit :=
  forever (fun _ =>
    e ← is_at_end; c ← peek;
    if negb e && negb (c =? NL) then advance;; mret (inl tt) else mret (inr tt)) tt.

Definition TABS : string := "tabs are not allowed for indentation — use spaces".

(** A comment-only line: its text goes to the doc comments. *)
Definition comment_line : LM unit :=
  hash ← gets pos;
  to_line_end;;
  s ← get;
  let body_start := if bool_decide (chars s !! S hash = Some SP) then S (S hash) else S hash in
  body ← text_of body_start (pos s);
  modify (add_doc (lx_line s, body)).

(** A content line at column [width]. *)
Definition content_line (width : nat) : LM (list Tok) :=
  p ← gets pos;
  sp ← span_at p;
  l ← gets indents;
  '(r, l) ← or_panic (indent_step l width);
  modify (set_indents l);;
  match r with
  | Ok layout => mret ((fun k => mkTok k sp None) <$> layout)
  | Err msg => error msg
  end.

(** One round of [scan_indentation]. *)
Definition indentation_round (_ : unit) : LM (unit + option (list Tok)) :=
  s ← get;
  tail ← text_of (pos s) (length (chars s));
  let ws := prefix_len (fun c => (c =? SP) || (c =? TAB)) tail in
  let after := chars s !! (pos s + ws)%nat in
  (if bool_decide (after = None \/ after = Some NL \/ after = Some (ch "#")) then
     modify (set_pos (pos s + ws)%nat) else mret tt);;
  p0 ← gets pos;
  advance_while (fun c => c =? SP);;
  p ← gets pos;
  width ← or_panic (checked_sub p p0);
  c ← peek;
  if c =? TAB then error TABS
  else if c =? NL then
    advance;; modify (fun s => new_line (pos s) s);; mret (inl tt)
  else if c =? ch "#" then comment_line;; mret (inl tt)
  else
    e ← is_at_end;
    if e : bool then mret (inr None)
    else layout ← content_line width; mret (inr (Some layout)).
Definition scan_indentation : LM (option (list Tok)) := forever indentation_round tt.

(** Step B of [scan_token]: white space and comments of a line. *)
Definition skip_inline : LM unit :=
  forever (fun _ =>
    c ← peek;
    if (c =? SP) || (c =? TAB) || (c =? CR) then advance;; mret (inl tt)
    else if c =? ch "#" then
      s ← get;
      (if (0 <? hole_base s)%nat && bool_decide (hole_comment s = None) then
         sp ← span_at (pos s); modify (set_comment (Some sp))
       else mret tt);;
      to_line_end;; mret (inl tt)
    else mret (inr tt)) tt.

(** [if self.match_char(c) { yes } else { no }]. *)
Definition if_next (c : Z) (yes no : LM Token) : LM Token := b ← match_char c; if b : bool then yes else no.

(** Openers and closers move [bracket_depth], clamped at 0. *)
Definition opener (t : Token) : LM Token := modify (fun s => set_depth (S (bracket_depth s)) s);; mret t.
Definition closer (t : Token) : LM Token := modify (fun s => set_depth (bracket_depth s - 1) s);; mret t.

Definition spec_colon : LM bool :=
  gets (fun s => (0 <? hole_base s)%nat && (bracket_depth s =? hole_base s)%nat).

(** The operators and delimiters that start with [c], if it starts one. *)
Definition operator (start : nat) (c : Z) : option (LM Token) :=
  let r : Token -> LM Token := mret in
  if c =? ch "+" then Some (if_next (ch "=") (r KPlusEq) (r KPlus))
  else if c =? ch "-" then Some (if_next (ch ">") (r KArrow) (if_next (ch "=") (r KMinusEq) (r KMinus)))
  else if c =? ch "*" then Some (if_next (ch "=") (r KStarEq) (r KStar))
  else if c =? ch "/" then Some (if_next (ch "=") (r KSlashEq) (r KSlash))
  else if c =? ch "%" then Some (if_next (ch "=") (r KPercentEq) (r KPercent))
  else if c =? ch ":" then
    Some (b ← spec_colon; if b : bool then r KColon else if_next (ch "=") (r KWalrus) (r KColon))
  else if c =? ch "=" then Some (if_next (ch "=") (r KEqEq) (r KAssign))
  else if c =? ch "!" then Some (if_next (ch "=") (r KNotEq) (r KBang))
  else if c =? ch "<" then
    Some (if_next (ch "=") (r KLtEq)
            (if_next (ch "<") (if_next (ch "=") (r KShlEq) (r KShl)) (r KLt)))
  else if c =? ch ">" then
    Some (if_next (ch "=") (r KGtEq)
            (if_next (ch ">") (if_next (ch "=") (r KShrEq) (r KShr)) (r KGt)))
  else if c =? ch "|" then Some (if_next (ch ">") (r KPipe) (if_next (ch "=") (r KPipeEq) (r KBitOr)))
  else if c =? ch "&" then Some (if_next (ch "=") (r KAmpEq) (r KAmp))
  else if c =? ch "^" then Some (if_next (ch "=") (r KCaretEq) (r KCaret))
  else if c =? ch "?" then Some (question start)
  else if c =? ch "(" then Some (opener KLParen)
  else if c =? ch "[" then Some (opener KLBracket)
  else if c =? ch "{" then Some (opener KLBrace)
  else if c =? ch ")" then Some (closer KRParen)
  else if c =? ch "]" then Some (closer KRBracket)
  else if c =? ch "}" then Some (closer KRBrace)
  else if c =? ch "," then Some (r KComma)
  else if c =? ch "." then
    Some (if_next (ch ".")
            (if_next (ch ".") (r KDotDotDot) (if_next (ch "=") (r KDotDotEq) (r KDotDot)))
            (r KDot))
  else None.

(** A [b] or [r] literal: the prefix is consumed, the cursor is on the quote. *)
Definition prefixed (single triple : Z -> LM Token) : LM Token :=
  quote ← advance;
  c ← peek; d ← peek_next;
  if (c =? quote) && (d =? quote) then advance;; advance;; triple quote else single quote.

Definition HOLE_BACKSLASH : string :=
  String.append "a backslash is not allowed in interpolation hole code; write the quote directly, as in "
    (show_text ([DQUOTE; ch "{"; ch "d"; ch "["; DQUOTE; ch "k"; DQUOTE; ch "]"; ch "}"; DQUOTE])).

(** Step E: the token that starts with the consumed character [c] at [start]. *)
Definition lex_kind (next : LM Tok) (start : nat) (c : Z) : LM Token :=
  match operator start c with
  | Some m => m
  | None =>
      p ← peek; d ← peek_next;
      if is_quote c then
        if (p =? c) && (d =? c) then advance;; advance;; quoted next c true else quoted next c false
      else if ((c =? ch "b") || (c =? ch "B")) && is_quote p then
        prefixed byte_string byte_triple_string
      else if ((c =? ch "r") || (c =? ch "R")) && is_quote p then
        prefixed raw_string raw_triple_string
      else if is_ascii_digit c then number start
      else if is_alphabetic c || (c =? ch "_") then identifier start
      else
        base ← gets hole_base;
        if (c =? BSLASH) && (0 <? base)%nat then error_at start HOLE_BACKSLASH
        else error_at start ("unexpected character " +:+ debug_char c)
  end.

(** Steps C to E, and what a suppressed line break does ([inl]). *)
Definition end_of_input : LM Tok :=
  s ← get;
  sp ← span_at (pos s);
  if negb (at_line_start s) then modify (set_at_line_start true);; mret (mkTok KNewline sp None)
  else
    top ← or_panic (head (indents s));
    if (0 <? top)%nat then modify (set_indents (tail (indents s)));; mret (mkTok KDedent sp None)
    else mret (mkTok KEof sp None).

Definition line_break : LM (unit + Tok) :=
  p ← gets pos;
  sp ← span_at p;
  advance;;
  modify (fun s => new_line (pos s) s);;
  depth ← gets bracket_depth;
  if (0 <? depth)%nat then mret (inl tt)
  else
    cont ← pipe_continues_next_line;
    if cont : bool then mret (inl tt)
    else modify (set_at_line_start true);; mret (inr (mkTok KNewline sp None)).

Definition real_token (next : LM Tok) : LM Tok :=
  modify (set_at_line_start false);;
  s ← get;
  let start := pos s in
  sp ← span_at start;
  lead ← text_of (line_start s) start;
  let ind := if forallb (fun c => c =? SP) lead then Some (as_u32 (length lead)) else None in
  c ← advance;
  k ← lex_kind next start c;
  mret (mkTok k sp ind).

(** Step A: the layout of a fresh line; [Some] is the first of its tokens. *)
Definition fresh_line : LM (option Tok) :=
  s ← get;
  if at_line_start s && (bracket_depth s =? 0)%nat then
    layout ← scan_indentation;
    match layout with
    | Some (t :: more) =>
        modify (set_at_line_start false);;
        modify (fun s => set_pending (pending s ++ more) s);; mret (Some t)
    | Some [] => modify (set_at_line_start false);; mret None
    | None => mret None
    end
  else mret None.

(** One round of the loop ['scan]. *)
Definition scan_round (next : LM Tok) (_ : unit) : LM (unit + Tok) :=
  layout ← fresh_line;
  match layout with
  | Some t => mret (inr t)
  | None =>
      skip_inline;;
      e ← is_at_end;
      if e : bool then t ← end_of_input; mret (inr t)
      else
        c ← peek;
        if c =? NL then line_break else t ← real_token next; mret (inr t)
  end.

Definition scan_token (next : LM Tok) : LM Tok :=
  s ← get;
  match pending s with
  | t :: more => modify (set_pending more);; mret t
  | [] => forever (scan_round next) tt
  end.

(** [next_token], with the levels of holes it may open. *)
Fixpoint next_token_at (levels : nat) : LM Tok :=
  tok ← scan_token (match levels with O => fun _ => Spin | S n => next_token_at n end);
  modify (fun s => set_operand (ends_operand (kind tok) (after_operand s)) s);;
  mret tok.
Definition next_token : LM Tok := next_token_at MAX_HOLE_NEST.

(** The driver: a token that is not [Eof] consumes a character, closes a level or ends a line. *)
Definition drive : LM (list Tok) := fun s =>
  rounds (4 * length (chars s) + 4) (fun tokens =>
    tok ← next_token;
    if is_tok KEof (kind tok) then mret (inr (tokens ++ [tok])) else mret (inl (tokens ++ [tok]))) [] s.

Definition tokenize_with_comments (source : list Z) (file : Z) :
    outcome (list Tok * list (nat * list Z)) :=
  (toks ← drive; docs ← gets doc_comments; mret (toks, docs)) (new_file source file).
Definition tokenize (source : list Z) : outcome (list Tok) := drive (new_file source 0).

(** [literal_len]: the extent of the [str] literal a line starts with. *)
Definition literal_len (rest_of_line : list Z) : option nat :=
  match next_token (set_nest (MAX_HOLE_NEST - ONE_LINE_HOLE_NEST) (new_file rest_of_line 0)) with
  | Ret tok _ => match kind tok with KStr s => Some (len s) | _ => None end
  | _ => None
  end.
End scan.
