(* ===== verification/LexerWp.v ===== *)
(** * The lexer's invariant

    A weakest-precondition calculus for the methods of [Lexer], the invariant of its state (the
    cursor, its line and column, the stack of indents), and one lemma for each
    method: no method panics or spins, the state stays well formed, and an error points at a
    character of the source. *)

From Stdlib Require Import Ascii.
From stdpp Require Import strings.
From S2P Require Import Prelude Consteval Slice Token Lexer.
Local Open Scope nat_scope.
Local Open Scope chz_scope.

(** ** Weakest preconditions *)

Definition wp {A} (m : LM A) (Q : A -> Lexer -> Prop) (F : LexError -> Lexer -> Prop) (s : Lexer) : Prop :=
  match m s with Ret a s => Q a s | Fail e s => F e s | Panic | Spin => False end.

Arguments wp : simpl never.

Lemma wp_bind {A B} (m : LM A) (k : A -> LM B) Q F s : wp m (fun a s' => wp (k a) Q F s') F s -> wp (m ≫= k) Q F s.
Proof. unfold wp, mbind, LM_bind. by destruct (m s). Qed.

Lemma wp_ret {A} (a : A) (Q : A -> Lexer -> Prop) F s : Q a s -> wp (mret a) Q F s.
Proof. done. Qed.

Lemma wp_mono {A} (m : LM A) (Q Q' : A -> Lexer -> Prop) F F' s :
  wp m Q F s -> (forall a s', Q a s' -> Q' a s') -> (forall e s', F e s' -> F' e s') -> wp m Q' F' s.
Proof. unfold wp. destruct (m s); naive_solver. Qed.

Lemma wp_or_panic {A} (o : option A) a (Q : A -> Lexer -> Prop) F s : o = Some a -> Q a s -> wp (or_panic o) Q F s.
Proof. by intros ->. Qed.

(** A loop keeps its invariant, and each round that goes on moves the cursor. *)
Lemma wp_forever {A B} (body : A -> LM (A + B)) (I : A -> Lexer -> Prop) Q F a s :
  I a s ->
  (forall a s, I a s -> pos s <= length (chars s) /\
     wp (body a) (fun r s' => match r with
                              | inl a' => I a' s' /\ pos s < pos s' /\ chars s' = chars s
                              | inr b => Q b s'
                              end) F s) ->
  wp (forever body a) Q F s.
Proof.
  intros Hi Hb. unfold forever, wp at 1. change (wp (rounds (S (length (chars s) - pos s)) body a) Q F s).
  assert (length (chars s) - pos s < S (length (chars s) - pos s)) as Hn by lia. revert Hn.
  generalize (S (length (chars s) - pos s)) as n. intros n. revert a s Hi.
  induction n as [|n IH]; intros a s Hi Hn; [lia|]. cbn [rounds]. apply wp_bind.
  destruct (Hb a s Hi) as [Hp Hw]. eapply wp_mono; [exact Hw| |done].
  intros [a'|b] s' H; [|by apply wp_ret]. destruct H as (Hi' & Hlt & Hc).
  destruct (Hb a' s' Hi') as [Hp' _]. apply IH; [done|]. rewrite Hc in *. lia.
Qed.

(** ** Positions *)

(** The line and the column (both from 0 up, the line from 1) after reading a character. *)
Definition bump (lc : nat * nat) (c : Z) : nat * nat :=
  if Z.eqb c NL then (S (lc.1), 0) else (lc.1, S (lc.2)).
Definition locate (l : list Z) (p : nat) : nat * nat := fold_left bump (take p l) (1, 0).
(** The span of the character at [p]: its real line and column. *)
Definition place (l : list Z) (file : Z) (p : nat) : Span :=
  mkSpan (as_u32 (locate l p).1) (as_u32 (S (locate l p).2)) file.

Lemma locate_S l p c : l !! p = Some c -> locate l (S p) = bump (locate l p) c.
Proof. intros H. unfold locate. rewrite (take_S_r _ _ _ H), fold_left_app. done. Qed.

(** ** The invariant *)

(** The stack of indents: strictly decreasing widths from the top down to 0. *)
Abbreviation levels := (levels_from 0).

(** A span that points into the text. *)
Definition points (s : Lexer) (sp : Span) : Prop :=
  exists p, p <= length (chars s) /\ sp = place (chars s) (lx_file s) p.

Definition comment_ok (s : Lexer) : Prop := forall sp, hole_comment s = Some sp -> points s sp.

Record ok (s : Lexer) : Prop := {
  ok_pos : pos s <= length (chars s);
  ok_start : line_start s <= pos s;
  ok_loc p : line_start s <= p <= pos s -> locate (chars s) p = (lx_line s, p - line_start s);
  ok_levels : levels (indents s);
  ok_pending : pending s = [];
  ok_comment : comment_ok s;
}.

(** What every outcome keeps, and what a method that returns keeps too. *)
Record near (s s' : Lexer) : Prop := {
  n_chars : chars s' = chars s;
  n_file : lx_file s' = lx_file s;
  n_nest : hole_nest s' = hole_nest s;
  n_pos : pos s' <= length (chars s);
  n_comment : comment_ok s';
}.
Record runs (s s' : Lexer) : Prop := {
  r_ok : ok s';
  r_chars : chars s' = chars s;
  r_file : lx_file s' = lx_file s;
  r_nest : hole_nest s' = hole_nest s;
  r_base : hole_base s' = hole_base s;
  r_le : pos s <= pos s';
  r_indents : indents s' = indents s;
  r_line : at_line_start s = false -> at_line_start s' = false;
}.

Definition err_post (s : Lexer) (e : LexError) (s' : Lexer) : Prop :=
  near s s' /\ exists p, p <= length (chars s) /\
    err_line e = line (place (chars s) (lx_file s) p) /\ err_col e = col (place (chars s) (lx_file s) p).

Lemma runs_refl s : ok s -> runs s s.
Proof. by split. Qed.
Lemma runs_trans s1 s2 s3 : runs s1 s2 -> runs s2 s3 -> runs s1 s3.
Proof. intros [] []. split; try congruence; try lia; auto. Qed.
Lemma runs_near s s' : runs s s' -> near s s'.
Proof. intros []. split; try done; [|apply ok_comment; done]. rewrite <- r_chars0. by apply ok_pos. Qed.
Lemma near_err s1 s2 e s3 : near s1 s2 -> err_post s2 e s3 -> err_post s1 e s3.
Proof.
  intros [C1 F1 N1 P1 K1] [[C2 F2 N2 P2 K2] (p & Hp & E1 & E2)]. rewrite C1 in *. rewrite F1 in *.
  split; [split; try done; congruence|]. by exists p.
Qed.

(** ** Primitive steps *)

(** A call to a method with a proved specification. *)
Lemma wp_use {A} (m : LM A) (Q Q' : A -> Lexer -> Prop) s0 s :
  near s0 s -> wp m Q (err_post s) s -> (forall a s', Q a s' -> Q' a s') -> wp m Q' (err_post s0) s.
Proof. intros Hn Hw HQ. eapply wp_mono; [done|done|]. intros e s'. by apply near_err. Qed.

Lemma near_refl s : ok s -> near s s.
Proof. intros []. by split. Qed.
Lemma near_set_pos s p : ok s -> p <= length (chars s) -> near s (set_pos p s).
Proof. intros [] ?. by split. Qed.

Lemma span_at_ok s p : ok s -> line_start s <= p <= pos s ->
  span_at p s = Ret (place (chars s) (lx_file s) p) s.
Proof.
  intros H Hp. unfold span_at, get, or_panic, checked_sub, mbind, LM_bind.
  rewrite (proj2 (Nat.leb_le _ _)) by lia. unfold place. by rewrite (ok_loc s H) by done.
Qed.

(** Moving the cursor over characters that are not line breaks. *)
Lemma ok_set_pos s p : ok s -> pos s <= p <= length (chars s) ->
  (forall i, pos s <= i < p -> chars s !! i <> Some NL) -> ok (set_pos p s).
Proof.
  intros [Hp Hs Hl Hi Hq Hc] [H1 H2] Hn. split; cbn [set_pos chars pos line_start lx_line indents pending lx_file]; try done; try lia.
  - intros i Hi'. destruct (decide (i <= pos s)) as [|Hgt]; [apply Hl; lia|].
    assert (forall k, pos s + k <= p -> locate (chars s) (pos s + k) = (lx_line s, pos s + k - line_start s)) as G.
    { induction k as [|k IH]; intros Hk; [rewrite Nat.add_0_r; apply Hl; lia|].
      destruct (lookup_lt_is_Some_2 (chars s) (pos s + k)) as [c Ec]; [lia|].
      replace (pos s + S k) with (S (pos s + k)) by lia. rewrite (locate_S _ _ _ Ec), IH by lia.
      unfold bump. destruct (Z.eqb_spec c NL) as [->|_]; [by destruct (Hn (pos s + k)); [lia|]|].
      cbn [fst snd]. f_equal. lia. }
    replace i with (pos s + (i - pos s)) by lia. apply G. lia.
Qed.

Lemma runs_set_pos s p : ok s -> pos s <= p <= length (chars s) ->
  (forall i, pos s <= i < p -> chars s !! i <> Some NL) -> runs s (set_pos p s).
Proof. intros H Hp Hn. split; try done; [by apply ok_set_pos | simpl; lia]. Qed.

(** Over a line break: the next line starts where the cursor lands. *)
Lemma runs_new_line s : ok s -> chars s !! pos s = Some NL -> runs s (new_line (S (pos s)) (set_pos (S (pos s)) s)).
Proof.
  intros [Hp Hs Hl Hi Hq Hc] H. pose proof (lookup_lt_Some _ _ _ H).
  split; try done; simpl; try lia. split; try done; simpl; try lia.
  intros p Hp'. replace p with (S (pos s)) by lia. rewrite (locate_S _ _ _ H), Hl by lia.
  by rewrite Nat.sub_diag.
Qed.

(** The character under the cursor. *)
Definition cur (s : Lexer) : Z := default 0%Z (chars s !! pos s).

Lemma cur_some s c : chars s !! pos s = Some c -> cur s = c.
Proof. unfold cur. by intros ->. Qed.
Lemma cur_lookup s : pos s < length (chars s) -> chars s !! pos s = Some (cur s).
Proof. intros H. unfold cur. by destruct (lookup_lt_is_Some_2 _ _ H) as [c ->]. Qed.
Lemma cur_end s : ok s -> cur s <> 0%Z -> pos s < length (chars s).
Proof. intros _ H. unfold cur in H. destruct (chars s !! pos s) eqn:E; [by eapply lookup_lt_Some|done]. Qed.

Lemma advance_eq s : advance s = Ret (cur s) (set_pos (S (pos s)) s).
Proof. done. Qed.

(** One step over a character that is not a line break. *)
Lemma runs_advance s : ok s -> pos s < length (chars s) -> cur s <> NL -> runs s (set_pos (S (pos s)) s).
Proof.
  intros H Hp Hc. apply runs_set_pos; [done|lia|]. intros i Hi. replace i with (pos s) by lia.
  rewrite cur_lookup by done. congruence.
Qed.

Lemma wp_advance s (Q : Z -> Lexer -> Prop) F :
  Q (cur s) (set_pos (S (pos s)) s) -> wp advance Q F s.
Proof. done. Qed.
Lemma wp_peek s (Q : Z -> Lexer -> Prop) F : Q (cur s) s -> wp peek Q F s.
Proof. done. Qed.
Lemma wp_peek_next s (Q : Z -> Lexer -> Prop) F : Q (default 0%Z (chars s !! S (pos s))) s -> wp peek_next Q F s.
Proof. done. Qed.
Lemma wp_is_at_end s (Q : bool -> Lexer -> Prop) F : Q (length (chars s) <=? pos s) s -> wp is_at_end Q F s.
Proof. done. Qed.
Lemma wp_get s (Q : Lexer -> Lexer -> Prop) F : Q s s -> wp get Q F s.
Proof. done. Qed.
Lemma wp_gets {A} (f : Lexer -> A) s (Q : A -> Lexer -> Prop) F : Q (f s) s -> wp (gets f) Q F s.
Proof. done. Qed.
Lemma wp_modify f s (Q : unit -> Lexer -> Prop) F : Q tt (f s) -> wp (modify f) Q F s.
Proof. done. Qed.
Lemma wp_span_at s p (Q : Span -> Lexer -> Prop) F : ok s -> line_start s <= p <= pos s ->
  Q (place (chars s) (lx_file s) p) s -> wp (span_at p) Q F s.
Proof. intros H Hp HQ. unfold wp. by rewrite span_at_ok. Qed.

(** An error points where it says. *)
Lemma wp_error_span {A} s s0 sp msg (Q : A -> Lexer -> Prop) :
  near s0 s -> points s sp -> wp (error_span sp msg) Q (err_post s0) s.
Proof.
  intros Hn (p & Hp & ->). unfold wp, error_span, fail, err_post. split; [done|].
  exists p. by rewrite <- (n_chars _ _ Hn), <- (n_file _ _ Hn).
Qed.
(** The error names a position of the line the cursor is on, or was on before its last step. *)
Lemma wp_error_at {A} s s0 p msg (Q : A -> Lexer -> Prop) :
  near s0 s -> line_start s <= p ->
  locate (chars s) p = (lx_line s, p - line_start s) -> p <= length (chars s) ->
  wp (error_at p msg) Q (err_post s0) s.
Proof.
  intros Hn Hs Hl Hp. unfold error_at. apply wp_bind. unfold span_at, wp at 1, get, or_panic, checked_sub, mbind, LM_bind.
  rewrite (proj2 (Nat.leb_le _ _)) by lia. apply wp_error_span; [done|].
  exists p. split; [done|]. unfold place. by rewrite Hl.
Qed.
Lemma wp_error_here {A} s s0 p msg (Q : A -> Lexer -> Prop) :
  near s0 s -> ok s -> line_start s <= p <= pos s -> wp (error_at p msg) Q (err_post s0) s.
Proof. intros Hn H Hp. apply wp_error_at; [done|lia|by apply ok_loc|]. pose proof (ok_pos s H). lia. Qed.
Lemma wp_error {A} s s0 msg (Q : A -> Lexer -> Prop) :
  near s0 s -> ok s -> wp (error msg) Q (err_post s0) s.
Proof. intros Hn H. unfold error. apply wp_bind, wp_gets, wp_error_here; try done. pose proof (ok_start s H). lia. Qed.

(** ** Automation *)

(** One step of a method; a test splits the proof. *)
Ltac wp_step :=
  lazymatch goal with
  | |- wp (_ ≫= _) _ _ _ => apply wp_bind
  | |- wp (mret _) _ _ _ => apply wp_ret
  | |- wp get _ _ _ => apply wp_get
  | |- wp (gets _) _ _ _ => apply wp_gets
  | |- wp (modify _) _ _ _ => apply wp_modify
  | |- wp advance _ _ _ => apply wp_advance
  | |- wp peek _ _ _ => apply wp_peek
  | |- wp peek_next _ _ _ => apply wp_peek_next
  | |- wp is_at_end _ _ _ => apply wp_is_at_end
  | |- wp (if ?b then _ else _) _ _ _ => let E := fresh "E" in destruct b eqn:E
  | |- wp (let '(_, _) := ?p in _) _ _ _ => let E := fresh "E" in destruct p eqn:E
  end; cbv beta.
Ltac wps := repeat wp_step.

(** Boolean tests as propositions. *)
Ltac bools := repeat (
  match goal with
  | H : (_ =? _)%Z = true |- _ => apply Z.eqb_eq in H
  | H : (_ =? _)%Z = false |- _ => apply Z.eqb_neq in H
  | H : (_ <=? _) = true |- _ => apply Nat.leb_le in H
  | H : (_ <=? _) = false |- _ => apply Nat.leb_gt in H
  | H : (_ <? _) = true |- _ => apply Nat.ltb_lt in H
  | H : (_ <? _) = false |- _ => apply Nat.ltb_ge in H
  | H : (_ =? _) = true |- _ => apply Nat.eqb_eq in H
  | H : (_ =? _) = false |- _ => apply Nat.eqb_neq in H
  | H : negb _ = true |- _ => apply negb_true_iff in H
  | H : negb _ = false |- _ => apply negb_false_iff in H
  | H : _ && _ = true |- _ => apply andb_true_iff in H as [? ?]
  | H : _ || _ = false |- _ => apply orb_false_iff in H as [? ?]
  | H : bool_decide _ = true |- _ => apply bool_decide_eq_true in H
  | H : bool_decide _ = false |- _ => apply bool_decide_eq_false in H
  end).

(** ** Runs of characters *)

Lemma prefix_len_le test l : prefix_len test l <= length l.
Proof. induction l as [|c l IH]; simpl; [lia|]. destruct (test c); lia. Qed.
Lemma prefix_len_test test l i : i < prefix_len test l -> exists c, l !! i = Some c /\ test c = true.
Proof.
  revert i. induction l as [|c l IH]; simpl; [lia|]. intros i. destruct (test c) eqn:E; [|lia].
  destruct i as [|i]; [eauto|]. intros H. apply IH. lia.
Qed.
Lemma prefix_len_stop test l c : l !! prefix_len test l = Some c -> test c = false.
Proof.
  induction l as [|d l IH]; simpl; [done|]. destruct (test d) eqn:E; simpl; [done|]. by intros [= ->].
Qed.

(** Where a run of characters that pass a test ends. *)
Definition run_end (test : Z -> bool) (s : Lexer) : nat := pos s + prefix_len test (drop (pos s) (chars s)).

Lemma run_end_le test s : pos s <= length (chars s) -> pos s <= run_end test s <= length (chars s).
Proof. intros H. unfold run_end. pose proof (prefix_len_le test (drop (pos s) (chars s))) as L. rewrite length_drop in L. lia. Qed.
Lemma run_end_test test s i : pos s <= i < run_end test s -> exists c, chars s !! i = Some c /\ test c = true.
Proof.
  unfold run_end. intros H. destruct (prefix_len_test test (drop (pos s) (chars s)) (i - pos s)) as (c & E & Hc); [lia|].
  rewrite lookup_drop in E. replace (pos s + (i - pos s)) with i in E by lia. eauto.
Qed.
Lemma run_end_stop test s c : chars s !! run_end test s = Some c -> test c = false.
Proof. unfold run_end. intros H. apply (prefix_len_stop test (drop (pos s) (chars s))). by rewrite lookup_drop. Qed.

Lemma run_end_step test s c : chars s !! pos s = Some c -> test c = true ->
  run_end test s = run_end test (set_pos (S (pos s)) s).
Proof. intros H Hc. unfold run_end. simpl. rewrite (drop_S _ _ _ H). simpl. rewrite Hc. lia. Qed.
Lemma run_end_stay test s : (forall c, chars s !! pos s = Some c -> test c = false) -> run_end test s = pos s.
Proof.
  intros H. unfold run_end. destruct (chars s !! pos s) as [c|] eqn:E.
  - rewrite (drop_S _ _ _ E). simpl. rewrite H by done. lia.
  - apply lookup_ge_None in E. rewrite drop_ge by done. simpl. lia.
Qed.

(** A loop that advances over a run of characters, in closed form. *)
Lemma run_loop (body : unit -> LM (unit + unit)) (test : Z -> bool) s :
  (forall s c, chars s !! pos s = Some c ->
     body tt s = if test c then Ret (inl tt) (set_pos (S (pos s)) s) else Ret (inr tt) s) ->
  (forall s, chars s !! pos s = None -> body tt s = Ret (inr tt) s) ->
  forever body tt s = Ret tt (set_pos (run_end test s) s).
Proof.
  intros Hb He. unfold forever.
  assert (length (chars s) - pos s < S (length (chars s) - pos s)) as Hn by lia. revert Hn.
  generalize (S (length (chars s) - pos s)) as n. intros n. revert s.
  induction n as [|n IH]; intros s Hn; [lia|]. cbn [rounds]. unfold mbind, LM_bind.
  destruct (chars s !! pos s) as [c|] eqn:E.
  - rewrite (Hb _ _ E). pose proof (lookup_lt_Some _ _ _ E). destruct (test c) eqn:Ec.
    + rewrite IH by (simpl; lia). rewrite (run_end_step test s c E Ec). by destruct s.
    + rewrite run_end_stay by (intros d; rewrite E; by intros [= <-]). by destruct s.
  - rewrite (He _ E). rewrite run_end_stay by (intros d; by rewrite E). by destruct s.
Qed.

Lemma advance_while_eq test s : test 0%Z = false -> advance_while test s = Ret tt (set_pos (run_end test s) s).
Proof.
  intros H0. apply run_loop; intros s'.
  - intros c E. unfold mbind, LM_bind, peek, gets. rewrite E. simpl. by destruct (test c).
  - intros E. unfold mbind, LM_bind, peek, gets. rewrite E. simpl. by rewrite H0.
Qed.
Lemma to_line_end_eq s : to_line_end s = Ret tt (set_pos (run_end (fun c => negb (Z.eqb c NL)) s) s).
Proof.
  apply run_loop; intros s'.
  - intros c E. unfold mbind, LM_bind, is_at_end, peek, gets. cbv beta iota. rewrite E. cbn [default].
    pose proof (lookup_lt_Some _ _ _ E). rewrite (proj2 (Nat.leb_gt _ _)) by done. simpl. by destruct (Z.eqb c NL).
  - intros E. unfold mbind, LM_bind, is_at_end, peek, gets. cbv beta iota. rewrite E. apply lookup_ge_None in E.
    by rewrite (proj2 (Nat.leb_le _ _)) by done.
Qed.

Lemma runs_run_end test s : ok s -> test NL = false -> runs s (set_pos (run_end test s) s).
Proof.
  intros H Hn. apply runs_set_pos; [done|apply run_end_le, (ok_pos s H)|]. intros i Hi E.
  destruct (run_end_test test s i Hi) as (c & E' & Hc). congruence.
Qed.

Lemma wp_advance_while test s (Q : unit -> Lexer -> Prop) F :
  test 0%Z = false -> Q tt (set_pos (run_end test s) s) -> wp (advance_while test) Q F s.
Proof. intros H0 HQ. unfold wp. by rewrite advance_while_eq. Qed.
Lemma wp_to_line_end s (Q : unit -> Lexer -> Prop) F :
  Q tt (set_pos (run_end (fun c => negb (Z.eqb c NL)) s) s) -> wp to_line_end Q F s.
Proof. intros HQ. unfold wp. by rewrite to_line_end_eq. Qed.

(** [chars[a..b]]. *)
Definition seg (l : list Z) (a b : nat) : list Z := take (b - a) (drop a l).
Lemma wp_text_of a b s (Q : list Z -> Lexer -> Prop) F :
  a <= b <= length (chars s) -> Q (seg (chars s) a b) s -> wp (text_of a b) Q F s.
Proof.
  intros H HQ. unfold text_of. apply wp_bind, wp_get. eapply wp_or_panic; [|done]. unfold slice.
  rewrite (proj2 (Nat.leb_le a b)), (proj2 (Nat.leb_le b _)) by lia. done.
Qed.

Lemma seg_snoc l a p c : a <= p -> l !! p = Some c -> seg l a (S p) = seg l a p ++ [c].
Proof.
  intros Ha H. unfold seg. replace (S p - a) with (S (p - a)) by lia.
  apply take_S_r. rewrite lookup_drop. by replace (a + (p - a)) with p by lia.
Qed.
Lemma seg_nil l a : seg l a a = [].
Proof. unfold seg. by rewrite Nat.sub_diag. Qed.
Lemma seg_length l a b : a <= b <= length l -> length (seg l a b) = b - a.
Proof. intros H. unfold seg. rewrite length_take, length_drop. lia. Qed.
Lemma seg_lookup l a b i : i < b - a -> seg l a b !! i = l !! (a + i).
Proof. intros H. unfold seg. by rewrite lookup_take_lt, lookup_drop. Qed.
Lemma seg_app l a b c : a <= b <= c -> seg l a c = seg l a b ++ seg l b c.
Proof.
  intros H. unfold seg. replace (c - a) with ((b - a) + (c - b)) by lia.
  rewrite <- take_take_drop. do 2 f_equal. rewrite drop_drop. f_equal. lia.
Qed.

(** Fields the invariant does not read. *)
Lemma ok_same s s' :
  ok s -> chars s' = chars s -> pos s' = pos s -> lx_line s' = lx_line s -> lx_file s' = lx_file s ->
  line_start s' = line_start s -> indents s' = indents s -> pending s' = pending s ->
  hole_comment s' = hole_comment s -> ok s'.
Proof.
  intros [Hp Hs Hl Hi Hq Hc] E1 E2 E3 E4 E5 E6 E7 E8.
  split; rewrite ?E1, ?E2, ?E3, ?E4, ?E5, ?E6, ?E7; try done.
  intros sp. unfold points. rewrite E1, E4, E8. apply Hc.
Qed.
Ltac same_ok := (eapply ok_same; [eassumption|reflexivity..]).
Lemma runs_set_depth d s : ok s -> runs s (set_depth d s).
Proof. intros H. split; try done. same_ok. Qed.
Lemma near_trans s1 s2 s3 : near s1 s2 -> near s2 s3 -> near s1 s3.
Proof. intros [C1] [C2]. rewrite C1 in *. split; try done; congruence. Qed.

(** ** Words and operators *)
Section methods.
  Context `{L : CharLaws}.

Lemma word_stops : is_word 0%Z = false /\ is_word NL = false.
Proof.
  split; unfold is_word, is_alphanumeric; rewrite alphabetic_ascii, numeric_ascii by (unfold NL; lia); done.
Qed.

(** From [s0] to [s] the method has read [w], the text from [start]. *)
Definition spells (s0 : Lexer) (start : nat) (s : Lexer) (w : list Z) : Prop :=
  runs s0 s /\ start <= pos s /\ seg (chars s0) start (pos s) = w.

Lemma spells_next s0 start s w :
  spells s0 start s w -> pos s < length (chars s) -> cur s <> NL ->
  spells s0 start (set_pos (S (pos s)) s) (w ++ [cur s]).
Proof.
  intros (R & Hs & Hw) Hp Hc. split; [|split; [simpl; lia|]].
  - eapply runs_trans; [exact R|]. apply runs_advance; [apply R|done|done].
  - simpl. rewrite (seg_snoc _ _ _ (cur s)) by (try done; rewrite <- (r_chars _ _ R); by apply cur_lookup). by rewrite Hw.
Qed.

Lemma wp_match_char c s (Q : bool -> Lexer -> Prop) F : c <> 0%Z ->
  (cur s = c -> pos s < length (chars s) -> Q true (set_pos (S (pos s)) s)) ->
  (cur s <> c -> Q false s) -> wp (match_char c) Q F s.
Proof.
  intros Hc H1 H2. unfold match_char. wps; bools; [|by apply H2]. apply H1; [done|].
  unfold cur in *. destruct (chars s !! pos s) eqn:E1; [by eapply lookup_lt_Some|]. simpl in *. congruence.
Qed.

Lemma wp_if_next s0 start s w c yes no (Q : Token -> Lexer -> Prop) F :
  spells s0 start s w -> c <> 0%Z -> c <> NL ->
  (forall s', spells s0 start s' (w ++ [c]) -> wp yes Q F s') -> wp no Q F s ->
  wp (if_next c yes no) Q F s.
Proof.
  intros Hw H0 Hn Hy Hno. unfold if_next. wp_step. apply wp_match_char; [done| |done].
  intros Hc Hp. apply Hy. rewrite <- Hc. apply spells_next; congruence.
Qed.

Lemma wp_char_before s start F : start <= length (chars s) -> wp (char_before start) (fun _ s' => s' = s) F s.
Proof.
  intros H. unfold char_before. wps. destruct start as [|i]; wps; [done|].
  destruct (lookup_lt_is_Some_2 (chars s) i) as [c E]; [lia|]. eapply wp_or_panic; [exact E|]. by apply wp_ret.
Qed.

Lemma wp_question s start :
  ok s -> pos s = S start -> chars s !! start = Some (ch "?") -> line_start s <= start ->
  wp (question start)
    (fun k s' => runs s s' /\ lexeme k = Some (seg (chars s) start (pos s'))) (err_post s) s.
Proof.
  intros H Hp Hc Hls.
  assert (spells s start s [63%Z]) as W.
  { split; [by apply runs_refl|]. split; [lia|]. rewrite Hp, (seg_snoc _ _ _ _ (le_n _) Hc), seg_nil. done. }
  unfold question. wp_step. wp_step. wp_step.
  eapply wp_mono; [apply wp_char_before; pose proof (ok_pos s H); lia| |done].
  intros o s1 ->. wp_step. apply wp_text_of; [pose proof (ok_pos s H); lia|].
  set (run := prefix_len _ _).
  assert (wp (c ← peek; d ← peek_next;
     if (c =? 46)%Z && negb (d =? 46)%Z then advance;; mret KQuestionDot else mret KQuestion)
     (fun k s' => runs s s' /\ lexeme k = Some (seg (chars s) start (pos s'))) (err_post s) s) as Hchain.
  { wps; bools.
    - assert (cur s = 46%Z) as Hcur by done.
      destruct (spells_next _ _ _ _ W) as (R & _ & Hw); [apply cur_end; congruence|by rewrite Hcur|].
      split; [done|]. rewrite Hcur in Hw. by rewrite Hw.
    - destruct W as (R & _ & Hw). split; [done|]. by rewrite Hw. }
  destruct (after_operand s && negb (bool_decide (o = Some 63%Z)) && (run =? 2)) eqn:E; [|done].
  bools. destruct (Bool.eqb _ _).
  - wps. assert (exists c, drop start (chars s) !! 1 = Some c /\ (c =? 63)%Z = true) as (c & Ec & Hc63).
    { apply (prefix_len_test (fun c => (c =? 63)%Z)). unfold run, seg in *.
      rewrite take_ge in * by (rewrite length_drop; lia). lia. }
    rewrite lookup_drop in Ec. replace (start + 1) with (pos s) in Ec by lia. bools. subst c.
    destruct (spells_next _ _ _ _ W) as (R & _ & Hw); [by eapply lookup_lt_Some|by rewrite (cur_some _ _ Ec)|].
    split; [done|]. rewrite (cur_some _ _ Ec) in Hw. by rewrite Hw.
  - destruct (starts_operand s (start + 2)); [|done].
    apply wp_error_here; [by apply near_refl|done|lia].
Qed.

(** A leaf of [operator]: the token read spells its lexeme. *)
Ltac op_leaf :=
  match goal with W : spells _ _ ?s _ |- wp (mret _) _ _ ?s =>
    apply wp_ret; destruct W as (? & _ & ->); split; [assumption|reflexivity] end.
Ltac op_tree :=
  repeat match goal with
  | W : spells _ _ ?s _ |- wp (if_next _ _ _) _ _ ?s =>
      eapply wp_if_next; [exact W|done|done|intros ? ?|]
  end; try op_leaf.

Lemma operator_wp s start c m :
  ok s -> pos s = S start -> chars s !! start = Some c -> line_start s <= start ->
  operator start c = Some m ->
  wp m (fun k s' => runs s s' /\ lexeme k = Some (seg (chars s) start (pos s'))) (err_post s) s.
Proof.
  intros H Hp Hc Hls Hm.
  assert (spells s start s [c]) as W.
  { split; [by apply runs_refl|]. split; [lia|]. by rewrite Hp, (seg_snoc _ _ _ _ (le_n _) Hc), seg_nil. }
  unfold operator in Hm.
  repeat match type of Hm with
  | (if (?c =? ?d)%Z then _ else _) = _ =>
      destruct (Z.eqb_spec c d) as [->|]; [injection Hm as <-; try solve [op_tree] | ]
  end; [.. | done].
  - wp_step. apply wp_gets. destruct (_ && _); op_tree.
  - by apply wp_question.
  - unfold opener. wps. destruct W as (R & _ & Hw). split; [by apply runs_set_depth|]. simpl. by rewrite Hw.
  - unfold opener. wps. destruct W as (R & _ & Hw). split; [by apply runs_set_depth|]. simpl. by rewrite Hw.
  - unfold opener. wps. destruct W as (R & _ & Hw). split; [by apply runs_set_depth|]. simpl. by rewrite Hw.
  - unfold closer. wps. destruct W as (R & _ & Hw). split; [by apply runs_set_depth|]. simpl. by rewrite Hw.
  - unfold closer. wps. destruct W as (R & _ & Hw). split; [by apply runs_set_depth|]. simpl. by rewrite Hw.
  - unfold closer. wps. destruct W as (R & _ & Hw). split; [by apply runs_set_depth|]. simpl. by rewrite Hw.
Qed.

Lemma keyword_lexeme w k : keyword w = Some k -> lexeme k = Some w.
Proof.
  unfold keyword. intros H. apply fmap_Some in H as ([w' k'] & Hf & ->).
  apply find_some in Hf as [Hin Hw]. apply bool_decide_eq_true in Hw as ->.
  unfold KEYWORDS in Hin. repeat destruct Hin as [Hin|Hin]; try done; by injection Hin as <- <-.
Qed.

(** What the text of a token is. *)
Definition reads_word (k : Token) (w : list Z) : Prop :=
  match k with KIdent v => v = w /\ keyword w = None | _ => lexeme k = Some w end.

Lemma wp_identifier s start :
  ok s -> start < pos s ->
  wp (identifier start)
    (fun k s' => runs s s' /\ is_layout k = false /\ reads_word k (seg (chars s) start (pos s'))) (err_post s) s.
Proof.
  intros H Hs. destruct word_stops as [W0 WN]. unfold identifier. wp_step. apply wp_advance_while; [done|].
  pose proof (runs_run_end is_word s H WN) as R. pose proof (run_end_le is_word s (ok_pos s H)).
  wps. apply wp_text_of; [simpl; lia|]. wps. simpl. split; [done|].
  destruct (keyword _) as [k|] eqn:E; [|done]. pose proof (keyword_lexeme _ _ E) as Hk.
  split; [by destruct k|]. by destruct k.
Qed.

(** *** Numbers *)

(** The value of a text of digits in a radix. *)
Fixpoint digit_value (radix acc : Z) (w : list Z) : option Z :=
  match w with
  | [] => Some acc
  | c :: w => d ← to_digit radix c; digit_value radix (acc * radix + d) w
  end.
Definition no_underscores (w : list Z) : list Z := filter (fun c => c <> ch "_") w.

Lemma between_spec lo c hi : between lo c hi = true <-> (lo <= c <= hi)%Z.
Proof. unfold between. rewrite andb_true_iff, !Z.leb_le. done. Qed.
Lemma to_digit_range radix c d : to_digit radix c = Some d -> (0 <= d < radix)%Z.
Proof.
  unfold to_digit, is_ascii_digit. intros H.
  repeat case_match; simplify_eq; rewrite ?between_spec, ?Z.ltb_lt in *; lia.
Qed.
Lemma digit_value_le radix acc w v : (0 < radix)%Z -> (0 <= acc)%Z -> digit_value radix acc w = Some v -> (acc <= v)%Z.
Proof.
  intros Hr. revert acc. induction w as [|c w IH]; intros acc Ha; simpl; [intros [= ->]; lia|].
  destruct (to_digit radix c) as [d|] eqn:E; [|done]. simpl. apply to_digit_range in E. intros H.
  apply IH in H; nia.
Qed.

(** [parse] computes the value and refuses one past its type. *)
Lemma parse_loop_spec max radix acc w v : (0 < radix)%Z -> (0 <= acc <= max)%Z ->
  parse_loop max radix acc w = Ok v <-> digit_value radix acc w = Some v /\ (v <= max)%Z.
Proof.
  intros Hr. revert acc. induction w as [|c w IH]; intros acc Ha; simpl.
  { split; [intros [= <-]|intros [[= <-] _]]; [split; [done|lia]|done]. }
  destruct (to_digit radix c) as [d|] eqn:E; simpl; [|by split; [|intros [? _]]]. apply to_digit_range in E.
  destruct (Z.leb_spec (acc * radix + d) max) as [Hm|Hm]; [apply IH; nia|].
  split; [done|]. intros [H Hv]. apply digit_value_le in H; nia.
Qed.
Lemma parse_uint_spec max radix w v : (0 < radix)%Z -> (0 <= max)%Z ->
  parse_uint max radix w = Ok v <-> w <> [] /\ digit_value radix 0 w = Some v /\ (v <= max)%Z.
Proof.
  intros Hr Hm. unfold parse_uint. case_bool_decide as E.
  - split; [done|]. by intros [? _].
  - rewrite parse_loop_spec by lia. split; [done|]. by intros [_ ?].
Qed.

(** What a number literal denotes: the digits of its radix, the separators left out. *)
Definition RADIX : list (list Z * Z) := [
  ([], 10%Z); (text "0x", 16%Z); (text "0X", 16%Z); (text "0b", 2%Z); (text "0B", 2%Z);
  (text "0o", 8%Z); (text "0O", 8%Z)].
Definition int_text (w : list Z) (v : Z) : Prop :=
  exists pre radix body, (pre, radix) ∈ RADIX /\ w = pre ++ body /\ body <> [] /\
    digit_value radix 0 (no_underscores body) = Some v.
Definition number_text (k : Token) (w : list Z) : Prop :=
  match k with
  | KInt v => int_text w v /\ (0 <= v <= I64.MAX)%Z
  | KIntMinMagnitude => int_text w (2 ^ 63)
  | KFloat f => parse_f64 (no_underscores w) = Ok f
  | _ => False
  end.

Lemma digit_value_nonneg radix w v : (0 < radix)%Z -> digit_value radix 0 w = Some v -> (0 <= v)%Z.
Proof. intros Hr H. by apply digit_value_le in H. Qed.

Lemma bad_underscore_lt d b l j i : bad_underscore d b l j = Some i -> j <= i < j + length l.
Proof.
  revert b j. induction l as [|c l IH]; intros b j; simpl; [done|].
  destruct (_ && _); [intros [= ->]; lia|]. intros Hj%IH. lia.
Qed.

Lemma wp_radix_number s start radix name m0 :
  ok s -> pos s = S start -> line_start s <= start -> pos s < length (chars s) ->
  chars s !! start = Some (ch "0") -> cur s = m0 -> m0 <> NL -> ([ch "0"; m0], radix) ∈ RADIX -> (0 < radix)%Z ->
  wp (radix_number start radix name)
    (fun k s' => runs s s' /\ number_text k (seg (chars s) start (pos s'))) (err_post s) s.
Proof.
  intros H Hp Hls Hlt Hc Hm Hm0 Hin Hr. unfold radix_number. wps.
  pose proof (runs_advance s H Hlt ltac:(congruence)) as R1. set (s1 := set_pos (S (pos s)) s) in *.
  pose proof (r_ok _ _ R1) as O1. apply wp_advance_while; [done|].
  set (test := fun c => is_ascii_alphanumeric c || (c =? 95)%Z).
  pose proof (runs_trans _ _ _ R1 (runs_run_end test s1 O1 eq_refl)) as R2.
  pose proof (run_end_le test s1 (ok_pos _ O1)) as Hle. set (e := run_end test s1) in *.
  assert (pos s1 = S (S start)) as Hp1 by (unfold s1; simpl; lia).
  wps. apply wp_text_of; [done|]. change (chars (set_pos e s1)) with (chars s). change (pos (set_pos e s1)) with e.
  assert (forall p msg, start <= p <= e -> wp (A:=Token) (error_at p msg)
    (fun k s' => runs s s' /\ number_text k (seg (chars s) start (pos s'))) (err_post s) (set_pos e s1)) as Herr.
  { intros p msg Hpe. apply wp_error_here; [by apply runs_near|apply R2|]. simpl. lia. }
  case_bool_decide as Hne; [apply Herr; lia|].
  destruct (bad_underscore _ _ _ _) as [i|] eqn:Ei; [apply Herr|].
  { assert (i < length (seg (chars s) (pos s1) e)) as Hi.
    { apply bad_underscore_lt in Ei. lia. }
    rewrite seg_length in Hi by (done || (change (length (chars s)) with (length (chars s1)); lia)). lia. }
  destruct (parse_uint _ _ _) as [v|e'] eqn:Ev; [|apply Herr; lia]. wps. split; [done|].
  apply parse_uint_spec in Ev as (_ & Ev & Hv); [|done|unfold I64.MAX; lia].
  split; [|split; [by eapply digit_value_nonneg|done]].
  exists [48%Z; m0], radix, (seg (chars s) (pos s1) e). split_and!; try done. cbn [pos set_pos].
  rewrite (seg_app _ start (pos s1) e) by lia. f_equal. rewrite Hp1.
  rewrite (seg_snoc _ _ (S start) m0), (seg_snoc _ _ start 48%Z), seg_nil; try done; try lia.
  rewrite <- Hp, <- Hm. by apply cur_lookup.
Qed.

(** A run that stays on its line. *)
Definition on_line (s s' : Lexer) : Prop := runs s s' /\ line_start s' = line_start s.
Lemma on_line_refl s : ok s -> on_line s s.
Proof. intros H. split; [by apply runs_refl|done]. Qed.
Lemma on_line_trans s1 s2 s3 : on_line s1 s2 -> on_line s2 s3 -> on_line s1 s3.
Proof. intros [R1 E1] [R2 E2]. split; [by eapply runs_trans|congruence]. Qed.
Lemma on_line_advance s : ok s -> cur s <> 0%Z -> cur s <> NL -> on_line s (set_pos (S (pos s)) s).
Proof. intros H H0 Hn. split; [|done]. apply runs_advance; try done. by apply cur_end. Qed.
Lemma on_line_run_end test s : ok s -> test NL = false -> on_line s (set_pos (run_end test s) s).
Proof. intros H Hn. split; [|done]. by apply runs_run_end. Qed.

Lemma wp_fraction s : ok s -> wp fraction (fun _ s' => on_line s s') (err_post s) s.
Proof.
  intros H. unfold fraction. wps; bools; [|by apply on_line_refl].
  assert (cur s = 46%Z) as Hc by done.
  pose proof (on_line_advance s H ltac:(congruence) ltac:(by rewrite Hc)) as R.
  apply wp_advance_while; [done|]. wps. eapply on_line_trans; [exact R|]. apply on_line_run_end; [apply R|done].
Qed.

Lemma wp_exponent s : ok s -> wp exponent (fun _ s' => on_line s s') (err_post s) s.
Proof.
  intros H. unfold exponent. wp_step. wp_step. wp_step; [|by apply wp_ret, on_line_refl].
  assert (forall (t : Z -> bool) s, t 0%Z = false -> t NL = false -> t (cur s) = true -> ok s ->
    on_line s (set_pos (S (pos s)) s)) as G.
  { intros t s' H0 HN Ht Hs'. apply on_line_advance; [done|intros C; congruence..]. }
  wps; bools; [..|by apply on_line_refl].
  all: pose proof (G is_e s eq_refl eq_refl E H) as R; set (s1 := set_pos _ _) in *.
  - pose proof (G is_sign s1 eq_refl eq_refl E1 ltac:(apply R)) as R2. apply wp_advance_while; [done|]. wps.
    eapply on_line_trans; [exact R|]. eapply on_line_trans; [exact R2|]. apply on_line_run_end; [apply R2|done].
  - apply wp_advance_while; [done|]. wps. eapply on_line_trans; [exact R|]. apply on_line_run_end; [apply R|done].
Qed.

Lemma wp_decimal_value s0 s start num w is_float :
  runs s0 s -> line_start s <= start <= pos s -> start <= pos s -> num = no_underscores w -> w <> [] ->
  wp (decimal_value start num is_float) (fun k s' => s' = s /\ number_text k w) (err_post s0) s.
Proof.
  intros R Hls Hs -> Hne. unfold decimal_value.
  assert (forall msg, wp (A:=Token) (error_at start msg) (fun k s' => s' = s /\ number_text k w) (err_post s0) s) as Herr.
  { intros msg. apply wp_error_here; [by apply runs_near|apply R|done]. }
  wp_step; [apply Herr|]. wp_step.
  { destruct (parse_f64 _) eqn:Ef; [by wps|apply Herr]. }
  destruct (parse_uint I64.MAX _ _) as [v|e] eqn:Ev.
  - wps. split; [done|]. apply parse_uint_spec in Ev as (_ & Ev & Hv); [|done|unfold I64.MAX; lia].
    split; [|split; [by eapply (digit_value_nonneg 10)|done]]. exists [], 10%Z, w. split_and!; try done. by left.
  - destruct (parse_uint U64_MAX _ _) as [v|] eqn:Eu; [|wps; apply Herr]. wp_step; [|apply Herr]. wps. split; [done|].
    bools. subst v. apply parse_uint_spec in Eu as (_ & Eu & _); [|done|unfold U64_MAX; lia].
    exists [], 10%Z, w. split_and!; try done. by left.
Qed.

Lemma wp_decimal_number s start :
  ok s -> pos s = S start -> line_start s <= start ->
  wp (decimal_number start)
    (fun k s' => runs s s' /\ number_text k (seg (chars s) start (pos s'))) (err_post s) s.
Proof.
  intros H Hp Hls. unfold decimal_number. wp_step. wp_step. wp_step. apply wp_advance_while; [done|].
  set (test := fun c => is_ascii_digit c || (c =? 95)%Z). pose proof (on_line_run_end test s H eq_refl) as R.
  set (fi := match start with O => false | S i => _ end). set (s1 := set_pos _ _) in *.
  assert (forall m, (forall s, ok s -> wp m (fun (_ : bool) s' => on_line s s') (err_post s) s) ->
    forall s, ok s -> wp (if fi then mret false else m) (fun (_ : bool) s' => on_line s s') (err_post s) s) as Hfi.
  { intros m Hm s' Hs'. wp_step; [wps; by apply on_line_refl|by apply Hm]. }
  wp_step. eapply wp_use; [apply runs_near, R|apply (Hfi _ wp_fraction), R|].
  intros frac s2 R2. wp_step. pose proof (on_line_trans _ _ _ R R2) as R02.
  eapply wp_use; [apply runs_near, R02|apply (Hfi _ wp_exponent), R2|].
  intros exp s3 R3. destruct (on_line_trans _ _ _ R02 R3) as [R03 L3]. clear Hfi R2 R3 R02.
  pose proof (ok_pos _ (r_ok _ _ R03)) as Hlen. rewrite (r_chars _ _ R03) in Hlen. pose proof (r_le _ _ R03).
  wps. apply wp_text_of; [rewrite (r_chars _ _ R03); lia|]. rewrite (r_chars _ _ R03). set (w := seg _ _ _).
  assert (length w = pos s3 - start) as Hw by (apply seg_length; lia).
  destruct (bad_underscore _ _ _ _) as [i|] eqn:Ei.
  - apply bad_underscore_lt in Ei. rewrite length_take in Ei.
    apply wp_error_here; [by apply runs_near|apply R03|lia].
  - eapply wp_mono; [eapply (wp_decimal_value s s3 start _ w); try done; try lia| |done].
    + intros E. by rewrite E in Hw; simpl in Hw; lia.
    + intros k s' [-> Hk]. done.
Qed.

Lemma wp_number s start c :
  ok s -> pos s = S start -> line_start s <= start -> chars s !! start = Some c ->
  wp (number start)
    (fun k s' => runs s s' /\ number_text k (seg (chars s) start (pos s'))) (err_post s) s.
Proof.
  intros H Hp Hls Hc. unfold number. wp_step. wp_step. wp_step. eapply wp_or_panic; [exact Hc|]. wp_step. wp_step.
  wp_step; [by apply wp_decimal_number|]. bools. subst c.
  assert (forall m0 radix name, (cur s =? m0)%Z = true -> m0 <> 0%Z -> m0 <> NL ->
    ([48%Z; m0], radix) ∈ RADIX -> (0 < radix)%Z ->
    wp (radix_number start radix name)
      (fun k s' => runs s s' /\ number_text k (seg (chars s) start (pos s'))) (err_post s) s) as G.
  { intros m0 radix name Hm H0 Hn Hin Hr. bools.
    eapply wp_radix_number; [done..|apply cur_end; congruence|done|exact Hm|done|done|done]. }
  do 3 (wp_step; [match goal with Hm : _ || _ = true |- _ =>
    apply orb_true_iff in Hm as [Hm|Hm]; (eapply G; [exact Hm|done|done|unfold RADIX; in_list|done]) end|]).
  by apply wp_decimal_number.
Qed.

(** *** Literals *)

Lemma near_points s s' sp : near s s' -> points s sp -> points s' sp.
Proof. intros [C F _ _ _] (p & Hp & ->). exists p. by rewrite C, F. Qed.
Lemma runs_points s s' sp : runs s s' -> points s sp -> points s' sp.
Proof. intros R. by apply near_points, runs_near. Qed.
Lemma place_points s p : p <= length (chars s) -> points s (place (chars s) (lx_file s) p).
Proof. intros. by exists p. Qed.

(** An error at a character before the cursor, which may have just passed a line break: [s0] is the
    state at that character's line. *)
Lemma wp_error_back {A} s0 s1 q back msg (Q : A -> Lexer -> Prop) :
  near s0 s1 -> ok s1 -> q <= length (chars s1) -> back <= q -> line_start s1 <= q - back <= pos s1 ->
  wp (error_back back msg) Q (err_post s0) (set_pos q s1).
Proof.
  intros Hn H Hq Hb Hp. unfold error_back. wps. eapply wp_or_panic.
  { unfold checked_sub. cbn [pos set_pos]. by rewrite (proj2 (Nat.leb_le back q)). }
  apply wp_error_at; cbn [chars set_pos line_start lx_line]; [|lia|by apply ok_loc|lia].
  eapply near_trans; [exact Hn|]. by apply near_set_pos.
Qed.

(** A verbatim character extends the text read. *)
Lemma seg_char s s' : runs s s' -> pos s' < length (chars s') ->
  seg (chars s) (pos s) (S (pos s')) = seg (chars s) (pos s) (pos s') ++ [cur s'].
Proof.
  intros R Hp. apply seg_snoc; [apply R|]. rewrite <- (r_chars _ _ R). by apply cur_lookup.
Qed.

(** How the source spells an escaped character. *)
Inductive esc_text : Z -> list Z -> Prop :=
| et_letter e v : (e, v) ∈ ESCAPES -> esc_text v [BSLASH; e]
| et_unicode ds v : 1 <= length ds <= 6 -> digit_value 16 0 ds = Some v -> from_u32 v = Some v ->
    esc_text v ([BSLASH; ch "u"; ch "{"] ++ ds ++ [ch "}"]).

Lemma from_u32_same v c : from_u32 v = Some c -> c = v.
Proof. unfold from_u32. destruct (_ && _); [by intros [= ->]|done]. Qed.

Lemma wp_unicode_escape s : ok s ->
  wp unicode_escape (fun v s' => on_line s s' /\ exists ds, 1 <= length ds <= 6 /\
    digit_value 16 0 ds = Some v /\ from_u32 v = Some v /\
    seg (chars s) (pos s) (pos s') = ch "{" :: ds ++ [ch "}"]) (err_post s) s.
Proof.
  intros H. unfold unicode_escape. wps. apply wp_match_char; [done|..]; intros Hc; cbn [negb]; cbv iota;
    [|apply wp_error; [by apply near_refl|done]].
  intros Hp. pose proof (on_line_advance s H ltac:(congruence) ltac:(by rewrite Hc)) as R.
  wp_step.
  assert (forall s' msg A (Q : A -> Lexer -> Prop), on_line s s' -> wp (error_at (pos s) msg) Q (err_post s) s') as Herr.
  { intros s' msg A Q [R' L']. apply wp_error_here; [by apply runs_near|apply R'|]. rewrite L'. pose proof (ok_start s H). pose proof (r_le _ _ R'). lia. }
  eapply (wp_forever _ (fun ds s' => on_line s s' /\ length ds <= 6 /\ seg (chars s) (pos s) (pos s') = 123%Z :: ds)).
  { split; [exact R|]. split; [simpl; lia|]. simpl. rewrite (seg_char s s (runs_refl s H)) by done. by rewrite seg_nil, Hc. }
  intros ds s1 (R1 & Hd & W1). pose proof (r_ok _ _ (proj1 R1)) as O1. split; [by apply ok_pos|]. wps; bools.
  - by apply Herr.
  - apply Herr. eapply on_line_trans; [exact R1|]. apply on_line_advance; [done|unfold NL; congruence..].
  - assert (on_line s (set_pos (S (pos s1)) s1)) as R3.
    { eapply on_line_trans; [exact R1|]. apply on_line_advance; [done|unfold NL; congruence..]. }
    destruct (parse_uint _ _ _) as [v|] eqn:Ev; [|by apply Herr]. destruct (from_u32 v) as [c|] eqn:Eu; [|by apply Herr].
    apply from_u32_same in Eu as Eq. subst c. wps. split; [done|]. exists ds.
    apply parse_uint_spec in Ev as (_ & Ev & _); [|done|lia].
    split; [split; [destruct ds; [done|simpl; lia]|done]|]. split; [done|]. split; [done|].
    simpl. rewrite seg_char by (apply R1 || done). by rewrite W1, E0.
  - apply wp_error; [apply runs_near, R1|done].
  - apply wp_error; [apply runs_near, R1|done].
  - split; [|simpl; split; [lia|done]]. split; [|split].
    + eapply on_line_trans; [exact R1|]. apply on_line_advance; [done|..]; intros C; rewrite C in *; done.
    + rewrite length_app. simpl. lia.
    + simpl. rewrite seg_char by (apply R1 || done). by rewrite W1.
Qed.

Lemma wp_escape s open : ok s -> cur s = BSLASH -> points s open ->
  wp (escape open) (fun v s' => on_line s s' /\ pos s < pos s' /\ esc_text v (seg (chars s) (pos s) (pos s'))) (err_post s) s.
Proof.
  intros H Hc Ho. pose proof (on_line_advance s H ltac:(by rewrite Hc) ltac:(by rewrite Hc)) as R1.
  pose proof (cur_end s H ltac:(by rewrite Hc)) as Hlt.
  assert (seg (chars s) (pos s) (S (pos s)) = [BSLASH]) as W1.
  { rewrite (seg_char s s (runs_refl s H)) by done. by rewrite seg_nil, Hc. }
  unfold escape. wp_step. wp_step. set (s1 := set_pos (S (pos s)) s) in *. pose proof (r_ok _ _ (proj1 R1)) as O1.
  pose proof (ok_start s H) as Hls. assert (line_start s1 = line_start s) as L1 by apply R1.
  assert (pos s1 = S (pos s)) as P1 by done.
  wps; bools; [apply wp_error_span; [apply runs_near, R1|by eapply runs_points; [apply R1|]]|..].
  all: assert (seg (chars s) (pos s) (S (pos s1)) = [BSLASH; cur s1]) as W2
    by (rewrite seg_char by (apply R1 || done); by rewrite P1, W1).
  - assert (cur s1 = 117%Z) as Hu by done.
    pose proof (on_line_advance s1 O1 ltac:(congruence) ltac:(by rewrite Hu)) as R2.
    pose proof (on_line_trans _ _ _ R1 R2) as R3. set (s2 := set_pos (S (pos s1)) s1) in *.
    eapply wp_use; [apply runs_near, R3|apply wp_unicode_escape, R3|]. intros v s' (R4 & ds & Hd & Hv & Hu2 & W4).
    pose proof (r_le _ _ (proj1 R4)). assert (pos s2 = S (pos s1)) as P2 by done.
    split; [by eapply on_line_trans|]. split; [lia|].
    rewrite (seg_app _ (pos s) (pos s2)) by lia. rewrite P2, W2, Hu. rewrite P2 in W4.
    change (chars s2) with (chars s) in W4. rewrite W4. by apply (et_unicode ds).
  - destruct (List.find _ _) as [[l r]|] eqn:Ef.
    + wps. apply find_some in Ef as [Hin He]. bools. subst l.
      assert (cur s1 <> 0%Z /\ cur s1 <> NL) as [? ?] by (unfold ESCAPES in Hin; split; intros C; rewrite C in Hin;
        repeat destruct Hin as [Hin|Hin]; done).
      split; [|split; [simpl; lia|]]. { eapply on_line_trans; [exact R1|]. by apply on_line_advance. }
      simpl. change (S (S (pos s))) with (S (pos s1)). rewrite W2. constructor. by apply list_elem_of_In.
    + wps; (apply (wp_error_back s s1); [apply runs_near, R1|done|..]; lia).
Qed.

(** A verbatim character, line breaks included. *)
Lemma wp_literal_char s (Q : Z -> Lexer -> Prop) F : ok s -> pos s < length (chars s) ->
  (forall s', runs s s' -> pos s' = S (pos s) -> Q (cur s) s') -> wp literal_char Q F s.
Proof.
  intros H Hp HQ. unfold literal_char. wps; bools; apply HQ; try done.
  - change (runs s (new_line (S (pos s)) (set_pos (S (pos s)) s))). apply runs_new_line; [done|].
    rewrite cur_lookup by done. congruence.
  - by apply runs_advance.
Qed.

(** The opener of a literal whose first [back] characters are read. *)
Lemma wp_open {A} s back (k : Span -> LM A) (Q : A -> Lexer -> Prop) F :
  ok s -> back <= pos s -> line_start s <= pos s - back ->
  (forall open, open = place (chars s) (lx_file s) (pos s - back) -> points s open -> wp (k open) Q F s) ->
  wp (p ← gets pos; p ← or_panic (checked_sub p back); open ← span_at p; k open) Q F s.
Proof.
  intros H Hb Hl Hk. wps. eapply wp_or_panic; [unfold checked_sub; by rewrite (proj2 (Nat.leb_le back (pos s)))|].
  wp_step. apply wp_span_at; [done|lia|]. apply Hk; [done|]. apply place_points. pose proof (ok_pos s H). lia.
Qed.

Lemma wp_raw_string s quote :
  ok s -> 2 <= pos s -> line_start s <= pos s - 2 -> quote <> NL ->
  wp (raw_string quote) (fun k s' => runs s s' /\
    exists w, k = KRawStr w /\ seg (chars s) (pos s) (pos s') = w ++ [quote]) (err_post s) s.
Proof.
  intros H H2 Hl Hq. unfold raw_string. apply wp_open; [done..|]. intros open _ Ho. wp_step.
  eapply (wp_forever _ (fun text s' => runs s s' /\ text = seg (chars s) (pos s) (pos s'))).
  { split; [by apply runs_refl|]. by rewrite seg_nil. }
  intros text s1 [R ->]. pose proof (r_ok _ _ R) as O1. split; [by apply ok_pos|].
  wp_step. wp_step. wp_step. wp_step. wp_step.
  - bools. wp_step. apply wp_literal_char; [done..|]. intros s2 R2 P2. wps.
    split; [|split; [lia|apply R2]]. split; [by eapply runs_trans|]. by rewrite P2, seg_char.
  - wps; bools; [apply wp_error_span; [by apply runs_near|by eapply runs_points]|].
    assert (cur s1 = quote) as Hc. { simpl in E. by bools. }
    split; [eapply runs_trans; [exact R|]; apply runs_advance; congruence|].
    eexists. split; [done|]. simpl. by rewrite seg_char, Hc.
Qed.

Lemma at_close_eq s quote (triple : bool) : quote <> 0%Z ->
  at_close quote triple s =
    Ret (bool_decide (seg (chars s) (pos s) (pos s + if triple then 3 else 1) = repeat quote (if triple then 3 else 1))) s.
Proof.
  intros Hq. unfold at_close. unfold mbind, LM_bind, get, peek, peek_next, gets, mret, LM_ret. f_equal.
  unfold seg. replace (pos s + _ - pos s) with (if triple then 3 else 1) by lia.
  assert (forall i, chars s !! (pos s + i) = drop (pos s) (chars s) !! i) as G by (intros; by rewrite lookup_drop).
  pose proof (G 0) as G0. pose proof (G 1) as G1. pose proof (G 2) as G2. rewrite Nat.add_0_r in G0.
  rewrite Nat.add_1_r in G1. rewrite G0, G1, G2. clear G G0 G1 G2.
  destruct (drop (pos s) (chars s)) as [|a [|b [|c l]]], triple; simpl;
    repeat match goal with |- context [(?x =? quote)%Z] => destruct (Z.eqb_spec x quote) end;
    repeat case_bool_decide; simplify_eq; try done; by destruct quote.
Qed.
Lemma wp_at_close s quote (triple : bool) (Q : bool -> Lexer -> Prop) F : quote <> 0%Z ->
  (forall b, b = bool_decide (seg (chars s) (pos s) (pos s + if triple then 3 else 1) = repeat quote (if triple then 3 else 1)) ->
     Q b s) -> wp (at_close quote triple) Q F s.
Proof. intros Hq H. unfold wp. rewrite at_close_eq by done. by apply H. Qed.

Lemma repeat3_seg s quote : seg (chars s) (pos s) (pos s + 3) = repeat quote 3 ->
  pos s + 3 <= length (chars s).
Proof.
  intros E. apply (f_equal length) in E. unfold seg in E. rewrite length_take, length_drop in E. simpl in E. lia.
Qed.

(** Past a closing delimiter of [n] quotes. *)
Lemma wp_advance_n s0 s n quote (Q : unit -> Lexer -> Prop) F : runs s0 s -> quote <> NL ->
  seg (chars s) (pos s) (pos s + n) = repeat quote n -> pos s + n <= length (chars s) ->
  (forall s', runs s0 s' -> pos s' = pos s + n -> Q tt s') -> wp (advance_n n) Q F s.
Proof.
  intros R Hq. revert s R. induction n as [|n IH]; intros s R Hs Hn HQ; cbn [advance_n].
  { wps. apply HQ; [done|lia]. }
  assert (chars s !! pos s = Some quote) as Hc.
  { rewrite <- (Nat.add_0_r (pos s)), <- (seg_lookup _ _ (pos s + S n)) by lia. by rewrite Hs. }
  wps. apply IH; cbn [pos set_pos chars].
  - eapply runs_trans; [exact R|]. apply runs_advance; [apply R|lia|]. by rewrite (cur_some _ _ Hc).
  - rewrite (seg_app _ (pos s) (S (pos s))) in Hs by lia. rewrite (seg_snoc _ _ _ _ (le_n _) Hc), seg_nil in Hs.
    simpl in Hs. injection Hs as Hs. replace (S (pos s) + n) with (pos s + S n) by lia. done.
  - lia.
  - intros s' R' P'. apply HQ; [done|lia].
Qed.
Lemma wp_advance3 {A} s0 s quote (a : A) (Q : A -> Lexer -> Prop) F : runs s0 s -> quote <> NL ->
  seg (chars s) (pos s) (pos s + 3) = repeat quote 3 ->
  (forall s', runs s0 s' -> pos s' = pos s + 3 -> Q a s') -> wp (advance;; advance;; advance;; mret a) Q F s.
Proof.
  intros R Hq Hs HQ. change (wp (advance;; advance;; advance;; mret a) Q F s) with (wp (advance_n 3;; mret a) Q F s).
  wp_step. eapply wp_advance_n; [done..|by eapply repeat3_seg|]. intros s' R' P'. wps. auto.
Qed.

Lemma wp_raw_triple_string s quote :
  ok s -> 4 <= pos s -> line_start s <= pos s - 4 -> quote <> NL -> quote <> 0%Z ->
  wp (raw_triple_string quote) (fun k s' => runs s s' /\
    exists w, k = KRawStr w /\ seg (chars s) (pos s) (pos s') = w ++ repeat quote 3) (err_post s) s.
Proof.
  intros H H2 Hl Hq H0. unfold raw_triple_string. apply wp_open; [done..|]. intros open _ Ho. wp_step.
  eapply (wp_forever _ (fun text s' => runs s s' /\ text = seg (chars s) (pos s) (pos s'))).
  { split; [by apply runs_refl|]. by rewrite seg_nil. }
  intros text s1 [R ->]. pose proof (r_ok _ _ R) as O1. split; [by apply ok_pos|].
  wp_step. apply wp_at_close; [done|]. intros b Hb. destruct b.
  - wp_step. symmetry in Hb. bools. pose proof (repeat3_seg _ _ Hb).
    eapply wp_advance3; [done..|]. intros s' R' P'. split; [done|]. eexists. split; [done|].
    rewrite P', (seg_app _ (pos s) (pos s1)) by (pose proof (r_le _ _ R); lia). f_equal. by rewrite <- (r_chars _ _ R).
  - wp_step. wp_step. wp_step; bools; [apply wp_error_span; [by apply runs_near|by eapply runs_points]|].
    wp_step. apply wp_literal_char; [done..|]. intros s2 R2 P2. wps.
    split; [|split; [lia|apply R2]]. split; [by eapply runs_trans|]. by rewrite P2, seg_char.
Qed.

(** How the source spells a byte of a byte literal. *)
Inductive byte_text : Z -> list Z -> Prop :=
| bt_raw c : (c <= 127)%Z -> c <> BSLASH -> byte_text c [c]
| bt_esc e v : (e, v) ∈ ESCAPES -> byte_text v [BSLASH; e]
| bt_hex h l hi lo : to_digit 16 h = Some hi -> to_digit 16 l = Some lo ->
    byte_text (16 * hi + lo)%Z [BSLASH; ch "x"; h; l].

Lemma wp_hex_digit s0 s who (Q : Z -> Lexer -> Prop) : runs s0 s -> line_start s <= pos s ->
  (forall d s', pos s < length (chars s) -> to_digit 16 (cur s) = Some d -> runs s s' -> pos s' = S (pos s) -> Q d s') ->
  wp (hex_digit who) Q (err_post s0) s.
Proof.
  intros R Hl HQ. unfold hex_digit. wps; bools; [apply wp_error; [by apply runs_near|apply R]|].
  destruct (to_digit 16 (cur s)) as [d|] eqn:Ed.
  - wps. apply HQ; try done. apply runs_advance; [apply R|done|]. intros C. by rewrite C in Ed.
  - apply (wp_error_back s0 s); [by apply runs_near|apply R|lia..].
Qed.

Lemma wp_byte_escape s0 s open :
  on_line s0 s -> cur s = BSLASH -> points s open -> pos s0 = pos s ->
  wp (byte_escape open) (fun b s' => runs s0 s' /\ pos s0 < pos s' /\ byte_text b (seg (chars s0) (pos s0) (pos s'))) (err_post s0) s.
Proof.
  intros [R L0] Hc Ho P0. pose proof (r_ok _ _ R) as H.
  pose proof (on_line_advance s H ltac:(by rewrite Hc) ltac:(by rewrite Hc)) as R1.
  pose proof (cur_end s H ltac:(by rewrite Hc)) as Hlt.
  assert (seg (chars s0) (pos s0) (S (pos s)) = [BSLASH]) as W1.
  { rewrite seg_char by done. rewrite P0, seg_nil. by rewrite Hc. }
  unfold byte_escape. wp_step. wp_step. set (s1 := set_pos (S (pos s)) s) in *. pose proof (r_ok _ _ (proj1 R1)) as O1.
  pose proof (runs_trans _ _ _ R (proj1 R1)) as R01.
  pose proof (ok_start s H) as Hls. assert (line_start s1 = line_start s) as L1 by apply R1.
  assert (pos s1 = S (pos s)) as P1 by done.
  wp_step. wp_step. wp_step; bools; [apply wp_error_span; [by apply runs_near|by eapply runs_points; [apply R1|]]|].
  wp_step. wp_step. set (s2 := set_pos (S (pos s1)) s1).
  assert (cur s1 <> NL -> runs s0 s2 /\ seg (chars s0) (pos s0) (pos s2) = [BSLASH; cur s1]) as G2.
  { intros Hn. split; [eapply runs_trans; [exact R01|]; by apply runs_advance|].
    change (pos s2) with (S (pos s1)). rewrite seg_char by done. by rewrite P1, W1. }
  assert (forall e v, (cur s1 =? e)%Z = true -> (e, v) ∈ ESCAPES -> e <> NL ->
    runs s0 s2 /\ pos s0 < pos s2 /\ byte_text v (seg (chars s0) (pos s0) (pos s2))) as Gesc.
  { intros e v He Hin Hn. bools. destruct G2 as [R2 W2]; [congruence|]. split; [done|]. split; [simpl; lia|].
    rewrite W2, He. by constructor. }
  repeat (wp_step; [solve [wp_step; eapply Gesc; [eassumption|unfold ESCAPES; in_list|done]]|]).
  wp_step.
  { bools. destruct G2 as [R2 W2]; [by rewrite E7|]. wp_step. apply wp_hex_digit; [done|apply ok_start, R2|].
    intros hi s3 Hl1 Hhi R3 P3. pose proof (runs_trans _ _ _ R2 R3) as R03.
    wp_step. apply wp_hex_digit; [done|apply ok_start, R3|].
    intros lo s4 Hl2 Hlo R4 P4. wps. split; [by eapply runs_trans|].
    split; [simpl in *; lia|]. rewrite P4, seg_char, P3, seg_char, W2, E7 by done. simpl.
    pose proof (to_digit_range _ _ _ Hhi). pose proof (to_digit_range _ _ _ Hlo).
    rewrite Z.shiftl_mul_pow2 by lia. rewrite lor_low by lia. rewrite Z.mul_comm. by apply bt_hex. }
  assert (forall back msg, 1 <= back <= 2 -> wp (A:=Z) (error_back back msg)
    (fun b s' => runs s0 s' /\ pos s0 < pos s' /\ byte_text b (seg (chars s0) (pos s0) (pos s'))) (err_post s0) s2) as Herr.
  { intros back msg Hb. apply (wp_error_back s0 s1); [by apply runs_near|done|simpl in *; lia..]. }
  wps; apply Herr; lia.
Qed.

Lemma wp_byte_elem s open : ok s -> pos s < length (chars s) -> points s open ->
  wp (byte_elem open) (fun b s' => runs s s' /\ pos s < pos s' /\ byte_text b (seg (chars s) (pos s) (pos s'))) (err_post s) s.
Proof.
  intros H Hp Ho. unfold byte_elem. wp_step. wp_step. wp_step; bools; [by apply wp_byte_escape; [apply on_line_refl|..]|].
  assert (seg (chars s) (pos s) (S (pos s)) = [cur s]) as W.
  { rewrite (seg_char s s (runs_refl s H)) by done. by rewrite seg_nil. }
  wp_step. wp_step. wp_step. unfold push_raw_byte. destruct (Z.eqb_spec (cur s) NL) as [E1|E1].
  - wps; [|match goal with E : (_ <=? _)%Z = false |- _ => by rewrite E1 in E end].
    split; [apply (runs_new_line s H); rewrite cur_lookup by done; congruence|]. split; [simpl; lia|].
    simpl. rewrite W, E1. by apply bt_raw.
  - pose proof (runs_advance s H Hp E1) as R. wps.
    + split; [done|]. split; [simpl; lia|]. simpl. rewrite W. apply bt_raw; [by apply Z.leb_le|done].
    + pose proof (ok_start s H). apply (wp_error_back s s); [by apply near_refl|done|lia..].
Qed.

(** How the source spells the bytes of a literal. *)
Definition bytes_text (bs w : list Z) : Prop := exists ws, Forall2 byte_text bs ws /\ w = concat ws.
Lemma bytes_text_nil : bytes_text [] [].
Proof. by exists []. Qed.
Lemma bytes_text_snoc bs w b v : bytes_text bs w -> byte_text b v -> bytes_text (bs ++ [b]) (w ++ v).
Proof.
  intros (ws & Hf & ->) Hb. exists (ws ++ [v]). split; [by apply Forall2_app; [|constructor]|].
  rewrite concat_app. simpl. by rewrite app_nil_r.
Qed.

(** The invariant of the loops over a byte literal. *)
Definition bytes_inv (s : Lexer) (bytes : list Z) (s' : Lexer) : Prop :=
  runs s s' /\ bytes_text bytes (seg (chars s) (pos s) (pos s')).
Lemma bytes_inv_refl s : ok s -> bytes_inv s [] s.
Proof. intros H. split; [by apply runs_refl|]. rewrite seg_nil. apply bytes_text_nil. Qed.
Lemma wp_byte_round s s1 open bytes : bytes_inv s bytes s1 -> pos s1 < length (chars s1) -> points s open ->
  forall (Q : list Z + list Z -> Lexer -> Prop),
  (forall b s2, bytes_inv s (bytes ++ [b]) s2 -> pos s1 < pos s2 -> chars s2 = chars s1 -> Q (inl (bytes ++ [b])) s2) ->
  wp (b ← byte_elem open; mret (inl (bytes ++ [b]))) Q (err_post s) s1.
Proof.
  intros [R HW] Hp Ho Q HQ. wp_step. eapply wp_use; [by apply runs_near|apply wp_byte_elem; [apply R|done|by eapply runs_points]|].
  intros b s2 (R2 & P2 & W2). wps. apply HQ; [|done|apply R2]. split; [by eapply runs_trans|].
  rewrite (seg_app _ (pos s) (pos s1)) by (pose proof (r_le _ _ R); lia). apply bytes_text_snoc; [done|].
  by rewrite <- (r_chars _ _ R).
Qed.

Lemma wp_byte_string s quote :
  ok s -> 2 <= pos s -> line_start s <= pos s - 2 -> quote <> NL ->
  wp (byte_string quote) (fun k s' => runs s s' /\
    exists bs w, k = KBytes bs /\ bytes_text bs w /\ seg (chars s) (pos s) (pos s') = w ++ [quote]) (err_post s) s.
Proof.
  intros H H2 Hl Hq. unfold byte_string. apply wp_open; [done..|]. intros open _ Ho. wp_step.
  eapply (wp_forever _ (bytes_inv s)); [by apply bytes_inv_refl|].
  intros bs s1 I. pose proof I as [R HW]. pose proof (r_ok _ _ R) as O1. split; [by apply ok_pos|].
  wp_step. wp_step. wp_step. wp_step. wp_step.
  - bools. eapply wp_byte_round; [done..|]. intros b s2 I2 P2 C2. done.
  - wps; bools; [apply wp_error_span; [by apply runs_near|by eapply runs_points]|].
    assert (cur s1 = quote) as Hc by (simpl in E; by bools).
    split; [eapply runs_trans; [exact R|]; apply runs_advance; congruence|].
    exists bs. eexists. split; [done|]. split; [exact HW|]. simpl. by rewrite seg_char, Hc.
Qed.

Lemma wp_byte_triple_string s quote :
  ok s -> 4 <= pos s -> line_start s <= pos s - 4 -> quote <> NL -> quote <> 0%Z ->
  wp (byte_triple_string quote) (fun k s' => runs s s' /\
    exists bs w, k = KBytes bs /\ bytes_text bs w /\ seg (chars s) (pos s) (pos s') = w ++ repeat quote 3) (err_post s) s.
Proof.
  intros H H2 Hl Hq H0. unfold byte_triple_string. apply wp_open; [done..|]. intros open _ Ho. wp_step.
  eapply (wp_forever _ (bytes_inv s)); [by apply bytes_inv_refl|].
  intros bs s1 I. pose proof I as [R HW]. pose proof (r_ok _ _ R) as O1. split; [by apply ok_pos|].
  wp_step. apply wp_at_close; [done|]. intros b Hb. destruct b.
  - wp_step. symmetry in Hb. bools. pose proof (repeat3_seg _ _ Hb).
    eapply wp_advance3; [done..|]. intros s' R' P'. split; [done|]. exists bs. eexists. split; [done|]. split; [exact HW|].
    rewrite P', (seg_app _ (pos s) (pos s1)) by (pose proof (r_le _ _ R); lia). f_equal. by rewrite <- (r_chars _ _ R).
  - wp_step. wp_step. wp_step; bools; [apply wp_error_span; [by apply runs_near|by eapply runs_points]|].
    eapply wp_byte_round; [done..|]. intros c s2 I2 P2 C2. done.
Qed.
End methods.
