(* ===== verification/LexerScan.v ===== *)
(** * What the lexer reads

    A grammar of token streams ([tiles]): which characters each token covers, how a literal spells
    its text, what lies inside a hole, and what may separate tokens.  The scanner is then shown to
    read this grammar, to move on with each token and to end. *)

From Stdlib Require Import Ascii.
From stdpp Require Import strings.
From S2P Require Import Prelude Consteval Slice Token Lexer LexerWp.
Local Open Scope nat_scope.
Local Open Scope chz_scope.

(** ** The grammar *)

(** Characters that separate tokens: white space, line breaks, comments up to the end of a line. *)
Inductive gap (l : list Z) : nat -> nat -> Prop :=
| gap_nil a : gap l a a
| gap_space a b c : l !! a = Some c -> c ∈ [SP; TAB; CR; NL] -> gap l (S a) b -> gap l a b
| gap_comment a e b : l !! a = Some (ch "#") -> a < e <= length l ->
    (forall i, a <= i < e -> l !! i <> Some NL) -> (e = length l \/ l !! e = Some NL) ->
    gap l e b -> gap l a b.

(** How a literal spells a piece of its text; a format spec ([spec]) has no doubled braces and no
    digit holes. *)
Inductive char_text (spec : bool) : list Z -> list Z -> Prop :=
| ct_raw c : c <> BSLASH -> c <> ch "{" -> c <> ch "}" -> char_text spec [c] [c]
| ct_esc v w : esc_text v w -> char_text spec [v] w
| ct_brace c : spec = false -> c = ch "{" \/ c = ch "}" -> char_text spec [c] [c; c]
| ct_digits ds : spec = false -> ds <> [] -> Forall (fun c => is_ascii_digit c = true) ds ->
    char_text spec (ch "{" :: ds ++ [ch "}"]) (ch "{" :: ds ++ [ch "}"]).
Definition str_text (spec : bool) (t w : list Z) : Prop :=
  exists ts ws, Forall2 (char_text spec) ts ws /\ t = concat ts /\ w = concat ws.

Section grammar.
  Context (l : list Z) (file : Z).

(** [tiles a b ts]: the characters from [a] to [b] are the tokens [ts] with gaps before, between and
    after them, each token with the span of its first character. *)
Inductive tiles : nat -> nat -> list Tok -> Prop :=
| tiles_end a b : gap l a b -> tiles a b []
| tiles_tok a p q b k i ts : gap l a p -> p <= q -> token_text p q k -> tiles q b ts ->
    tiles a b (mkTok k (place l file p) i :: ts)
(** [token_text p q k]: the characters from [p] to [q] spell [k]. *)
with token_text : nat -> nat -> Token -> Prop :=
| tt_layout p k : k = KIndent \/ k = KDedent \/ k = KEof \/ (k = KNewline /\ p = length l) -> token_text p p k
| tt_newline p : l !! p = Some NL -> token_text p (S p) KNewline
| tt_word p q k : is_layout k = false -> reads_word k (seg l p q) -> token_text p q k
| tt_number p q k : number_text k (seg l p q) -> token_text p q k
| tt_raw p q r quote n w : r = ch "r" \/ r = ch "R" -> is_quote quote = true -> n = 1 \/ n = 3 ->
    seg l p q = r :: repeat quote n ++ w ++ repeat quote n -> token_text p q (KRawStr w)
| tt_bytes p q b quote n bs w : b = ch "b" \/ b = ch "B" -> is_quote quote = true -> n = 1 \/ n = 3 ->
    seg l p q = b :: repeat quote n ++ w ++ repeat quote n -> bytes_text bs w -> token_text p q (KBytes bs)
| tt_str p a b q quote n ps : is_quote quote = true -> n = 1 \/ n = 3 ->
    seg l p a = repeat quote n -> parts_text a b ps -> seg l b q = repeat quote n ->
    p <= a <= b -> b <= q -> token_text p q (KStr (mkStrLit ps (q - p)))
(** [parts_text a b ps]: the characters from [a] to [b] spell the parts of a literal. *)
with parts_text : nat -> nat -> list StrPart -> Prop :=
| pt_nil a : parts_text a a []
| pt_text a b c t ps : a <= b -> t <> [] -> str_text false t (seg l a b) -> parts_text b c ps ->
    parts_text a c (PText t :: ps)
| pt_hole a e c ts ps i : l !! a = Some (ch "{") -> tiles (S a) e ts -> l !! e = Some (ch "}") ->
    parts_text (S e) c ps ->
    parts_text a c (PHole (mkHole (ts ++ [mkTok KEof (place l file e) i]) None (place l file a)) :: ps)
| pt_spec a e z c ts sp ps i : l !! a = Some (ch "{") -> tiles (S a) e ts -> l !! e = Some (ch ":") ->
    spec_text (S e) z sp -> l !! z = Some (ch "}") -> parts_text (S z) c ps ->
    parts_text a c (PHole (mkHole (ts ++ [mkTok KEof (place l file e) i]) (Some sp) (place l file (S e))) :: ps)
(** [spec_text a b sp]: the characters from [a] to [b] spell a format spec. *)
with spec_text : nat -> nat -> list SpecPart -> Prop :=
| st_nil a : spec_text a a []
| st_text a b c t sp : a <= b -> t <> [] -> str_text true t (seg l a b) -> spec_text b c sp ->
    spec_text a c (SText t :: sp)
| st_field a e c ts sp i : l !! a = Some (ch "{") -> tiles (S a) e ts -> l !! e = Some (ch "}") ->
    spec_text (S e) c sp -> spec_text a c (SField (ts ++ [mkTok KEof (place l file e) i]) :: sp).

Lemma gap_trans a b c : gap l a b -> gap l b c -> gap l a c.
Proof. induction 1; intros Hc; [done|eapply gap_space; eauto|eapply gap_comment; eauto]. Qed.

Lemma tiles_snoc a b ts p q k i : tiles a b ts -> gap l b p -> p <= q -> token_text p q k ->
  tiles a q (ts ++ [mkTok k (place l file p) i]).
Proof.
  intros H. revert p q k i. induction H as [a b Hg|a p' q' b k' i' ts Hg Hle Ht _ IH]; intros p q k i Hp Hq Hk; simpl.
  - eapply tiles_tok; [by eapply gap_trans|done|done|]. apply tiles_end. constructor.
  - eapply tiles_tok; eauto.
Qed.
Lemma tiles_gap a b c ts : tiles a b ts -> gap l b c -> tiles a c ts.
Proof.
  induction 1 as [a b Hg|a p q b k i ts Hg Hle Ht _ IH]; intros Hc.
  - apply tiles_end. by eapply gap_trans.
  - eapply tiles_tok; eauto.
Qed.

Lemma parts_snoc a b ps c qs : parts_text a b ps -> parts_text b c qs -> parts_text a c (ps ++ qs).
Proof. induction 1; intros Hc; simpl; [done|econstructor; eauto..]. Qed.
Lemma spec_snoc a b ps c qs : spec_text a b ps -> spec_text b c qs -> spec_text a c (ps ++ qs).
Proof. induction 1; intros Hc; simpl; [done|econstructor; eauto..]. Qed.
End grammar.

Lemma str_text_nil spec : str_text spec [] [].
Proof. by exists [], []. Qed.
Lemma str_text_snoc spec t w c v : str_text spec t w -> char_text spec c v -> str_text spec (t ++ c) (w ++ v).
Proof.
  intros (ts & ws & H & -> & ->) Hc. exists (ts ++ [c]), (ws ++ [v]). split; [by apply Forall2_app; [|constructor]|].
  rewrite !concat_app. simpl. by rewrite !app_nil_r.
Qed.
Lemma str_text_empty spec w : str_text spec [] w -> w = [].
Proof.
  intros (ts & ws & H & E & ->). induction H as [|t v ts ws Hc _ IH]; [done|]. simpl in *.
  symmetry in E. apply app_eq_nil in E as [-> E]. inversion Hc.
Qed.

(** ** Holes *)
Section holes.
  Context `{L : CharLaws}.

(** From [s] to [s'] the token [t] was read. *)
Definition read_tok (s : Lexer) (t : Tok) (s' : Lexer) : Prop :=
  exists p, gap (chars s) (pos s) p /\ pos s <= p <= pos s' /\
    span t = place (chars s) (lx_file s) p /\ token_text (chars s) (lx_file s) p (pos s') (kind t).

(** What a hole needs of the scanner: a token moves the cursor, or the input ended. *)
Definition next_post (s : Lexer) (t : Tok) (s' : Lexer) : Prop :=
  if is_layout (kind t) then near s s' else runs s s' /\ pos s < pos s' /\ read_tok s t s'.
Definition next_ok (n : nat) (next : LM Tok) : Prop :=
  forall s, ok s -> at_line_start s = false -> hole_nest s <= MAX_HOLE_NEST < hole_nest s + n ->
    wp next (next_post s) (err_post s) s.

Lemma wp_unterminated {A} s0 s brace (Q : A -> Lexer -> Prop) :
  near s0 s -> points s0 brace -> wp (unterminated_hole brace) Q (err_post s0) s.
Proof.
  intros Hn Hb. unfold unterminated_hole. wps. destruct (hole_comment s) as [h|] eqn:E.
  - apply wp_error_span; [done|]. by apply (n_comment _ _ Hn).
  - apply wp_error_span; [done|]. by eapply near_points.
Qed.

Lemma wp_hole_next n next s brace : next_ok n next -> ok s -> at_line_start s = false ->
  hole_nest s <= MAX_HOLE_NEST < hole_nest s + n -> points s brace ->
  wp (hole_next next brace) (next_post s) (err_post s) s.
Proof.
  intros Hn H Hl Hm Hb. specialize (Hn s H Hl Hm). unfold wp, hole_next in *.
  destruct (next s) as [t s'|e s'| |]; try done. destruct (length (chars s') <=? pos s'); [|done].
  by apply wp_unterminated; [apply Hn|].
Qed.

(** The single character of a delimiter token. *)
Lemma delim_text l file p q k t c : token_text l file p q t -> is_tok k t = true -> lexeme k = Some [c] ->
  k = KColon \/ k = KRBrace -> q <= length l -> l !! p = Some c /\ q = S p.
Proof.
  intros Ht Hk Hc Hcases Hq. assert (t = k) as ->.
  { destruct Hcases as [-> | ->]; unfold is_tok in Hk; apply Z.eqb_eq in Hk; by destruct t. }
  assert (reads_word k (seg l p q)) as Hw.
  { destruct Hcases as [-> | ->]; inversion Ht; subst; try done;
      match goal with H : _ \/ _ |- _ => destruct H as [?|[?|[?|[? _]]]]; done end. }
  assert (Some (seg l p q) = Some [c]) as Hs by (destruct Hcases as [-> | ->]; simpl in Hw; congruence).
  injection Hs as Hs. assert (length (seg l p q) = 1) as Hlen by (by rewrite Hs).
  unfold seg in *. rewrite length_take, length_drop in Hlen.
  assert (l !! p = Some c) as Hp.
  { rewrite <- (Nat.add_0_r p), <- lookup_drop. rewrite <- (lookup_take_lt _ (q - p)) by lia. by rewrite Hs. }
  split; [done|]. pose proof (lookup_lt_Some _ _ _ Hp). lia.
Qed.

(** What the code of a hole is: tokens up to a [}] or a [:], and an [Eof] there. *)
Definition code_text (s : Lexer) (r : list Tok * bool) (s' : Lexer) : Prop :=
  exists ts e i, r.1 = ts ++ [mkTok KEof (place (chars s) (lx_file s) e) i] /\
    tiles (chars s) (lx_file s) (pos s) e ts /\ pos s <= e /\ pos s' = S e /\
    chars s !! e = Some (if r.2 then ch ":" else ch "}").

Lemma code_end s s1 s2 tok tokens k c (b : bool) :
  tiles (chars s) (lx_file s) (pos s) (pos s1) tokens -> runs s s1 -> runs s1 s2 -> read_tok s1 tok s2 ->
  is_tok k (kind tok) = true -> lexeme k = Some [c] -> k = KColon \/ k = KRBrace ->
  c = (if b then ch ":" else ch "}") ->
  code_text s (tokens ++ [mkTok KEof (span tok) None], b) s2.
Proof.
  intros Ht R R2 (p & Hg & Hp & Hsp & Hk) Hik Hl Hc ->. rewrite (r_chars _ _ R) in *. rewrite (r_file _ _ R) in *.
  pose proof (ok_pos _ (r_ok _ _ R2)) as Hlen. rewrite (r_chars _ _ R2), (r_chars _ _ R) in Hlen.
  destruct (delim_text _ _ _ _ _ _ _ Hk Hik Hl Hc Hlen) as [Hch Hq]. pose proof (r_le _ _ R).
  exists tokens, p, None. split; [by rewrite Hsp|]. split; [by eapply tiles_gap|]. split; [lia|]. split; [done|]. by destruct b.
Qed.

Lemma wp_hole_tokens n next s brace base : next_ok n next -> ok s -> at_line_start s = false ->
  hole_nest s <= MAX_HOLE_NEST < hole_nest s + n -> points s brace -> 1 <= base ->
  wp (hole_tokens next brace base) (fun r s' => runs s s' /\ code_text s r s') (err_post s) s.
Proof.
  intros Hn H Hl Hm Hb Hbase. unfold hole_tokens.
  eapply (wp_forever _ (fun tokens s1 => runs s s1 /\ tiles (chars s) (lx_file s) (pos s) (pos s1) tokens)).
  { split; [by apply runs_refl|]. apply tiles_end. constructor. }
  intros tokens s1 [R Ht]. pose proof (r_ok _ _ R) as O1. split; [by apply ok_pos|]. wp_step.
  eapply wp_use; [by apply runs_near|eapply (wp_hole_next n); try done; [by apply R|by rewrite (r_nest _ _ R)|by eapply runs_points]|].
  intros tok s2 H2. unfold next_post in H2. destruct (is_layout (kind tok)) eqn:El.
  { apply wp_unterminated; [|done]. eapply near_trans; [by apply runs_near|done]. }
  destruct H2 as (R2 & P2 & Htok). pose proof (runs_trans _ _ _ R R2) as R02. wps; bools.
  - split; [done|]. by eapply code_end; [..|by right|].
  - apply wp_error_span; [by apply runs_near|]. destruct Htok as (p & _ & [_ Hp] & -> & _).
    exists p. rewrite (r_chars _ _ R2), (r_file _ _ R2). split; [|done].
    pose proof (ok_pos _ (r_ok _ _ R2)) as Hlen. rewrite (r_chars _ _ R2) in Hlen. lia.
  - eapply wp_or_panic; [unfold checked_sub; by rewrite (proj2 (Nat.leb_le 1 _)) by lia|]. wps.
    assert (code_text s (tokens ++ [mkTok KEof (span tok) None], true) s2) as C by (by eapply code_end; [..|by left|]).
    split; [|done]. eapply runs_trans; [exact R02|]. apply runs_set_depth, R02.
  - split; [|split; [done|apply R2]]. split; [done|]. destruct Htok as (p & Hg & Hp & Hsp & Hk).
    destruct tok as [k sp i]. simpl in Hsp, Hk. subst sp. rewrite (r_chars _ _ R) in *. rewrite (r_file _ _ R) in *.
    eapply tiles_snoc; [exact Ht|exact Hg|lia|done].
Qed.

Lemma wp_finally {A} (m : LM A) restore s (Q : A -> Lexer -> Prop) F :
  wp m (fun a s' => exists s'', restore s' = Some s'' /\ Q a s'')
    (fun e s' => exists s'', restore s' = Some s'' /\ F e s'') s -> wp (finally m restore) Q F s.
Proof. unfold wp, finally. destruct (m s); try done; intros (s'' & -> & H); done. Qed.

Lemma ok_comment_same s s' : ok s -> chars s' = chars s -> lx_file s' = lx_file s ->
  hole_comment s' = hole_comment s -> comment_ok s'.
Proof. intros H C F E sp. unfold points. rewrite C, F, E. apply (ok_comment s H). Qed.

Lemma wp_hole_code n next s brace : next_ok n next -> ok s -> at_line_start s = false ->
  hole_nest s <= MAX_HOLE_NEST < hole_nest s + n -> points s brace ->
  wp (hole_code next brace) (fun r s' => runs s s' /\ code_text s r s') (err_post s) s.
Proof.
  intros Hn H Hl Hm Hb. unfold hole_code. wps. set (s1 := set_operand _ _). apply wp_finally.
  assert (ok s1) as O1 by (by eapply ok_same).
  eapply wp_mono; [eapply (wp_hole_tokens n next s1); try done; lia|..]; simpl.
  - intros r s2 [R2 C2]. eexists. split; [done|]. split; [|done].
    destruct R2 as [O2 C F N B P I Hl2]. split; try done. by eapply ok_same.
  - intros e s2 [[C F N P K] E2]. eexists. split; [done|]. split; [|done]. split; try done.
Qed.

(** A text flushed after the parts before it. *)
Lemma seg_empty l a b : a <= b <= length l -> seg l a b = [] -> a = b.
Proof. intros H E. apply (f_equal length) in E. rewrite seg_length in E by done. simpl in E. lia. Qed.
Lemma flush_spec l file a m b sp t : spec_text l file a m sp -> str_text true t (seg l m b) ->
  m <= b <= length l -> spec_text l file a b (flush SText sp t).
Proof.
  intros Hs Ht Hm. unfold flush. case_bool_decide as E.
  - subst t. apply str_text_empty, seg_empty in Ht as ->; done.
  - eapply spec_snoc; [exact Hs|]. apply (st_text _ _ m b); [lia|done|done|constructor].
Qed.
Lemma flush_parts l file a m b ps t : parts_text l file a m ps -> str_text false t (seg l m b) ->
  m <= b <= length l -> parts_text l file a b (flush PText ps t).
Proof.
  intros Hs Ht Hm. unfold flush. case_bool_decide as E.
  - subst t. apply str_text_empty, seg_empty in Ht as ->; done.
  - eapply parts_snoc; [exact Hs|]. apply (pt_text _ _ m b); [lia|done|done|constructor].
Qed.

(** The invariant of the loops over text: what precedes [m] is in the parts, the rest is [text]. *)
Definition text_inv {A} (spec : bool) (parts_ok : nat -> A -> Prop) (s : Lexer) (pt : A * list Z) (s' : Lexer) : Prop :=
  runs s s' /\ exists m, m <= pos s' /\ parts_ok m pt.1 /\ str_text spec pt.2 (seg (chars s) m (pos s')).

Lemma text_inv_step {A} spec (pok : nat -> A -> Prop) s a t c s1 s2 :
  text_inv spec pok s (a, t) s1 -> runs s1 s2 -> char_text spec c (seg (chars s) (pos s1) (pos s2)) ->
  text_inv spec pok s (a, t ++ c) s2.
Proof.
  intros (R & m & Hm & Hp & Ht) R2 Hc. split; [by eapply runs_trans|]. pose proof (r_le _ _ R2).
  exists m. split; [lia|]. split; [done|]. simpl in *. rewrite (seg_app _ m (pos s1)) by lia. by apply str_text_snoc.
Qed.

(** A round that reads an escape or a verbatim character. *)
Lemma wp_text_escape {A B} spec (pok : nat -> A -> Prop) s a t s1 open (Q : A * list Z + B -> Lexer -> Prop) :
  text_inv spec pok s (a, t) s1 -> cur s1 = BSLASH -> points s open ->
  (forall c s2, text_inv spec pok s (a, t ++ c) s2 -> pos s1 < pos s2 -> chars s2 = chars s1 -> Q (inl (a, t ++ c)) s2) ->
  wp (c ← escape open; mret (inl (a, t ++ [c]))) Q (err_post s) s1.
Proof.
  intros I Hc Ho HQ. pose proof I as (R & _). wp_step.
  eapply wp_use; [by apply runs_near|apply wp_escape; [apply R|done|by eapply runs_points]|].
  intros v s2 ([R2 _] & P2 & W). wps. apply HQ; [|done|apply R2]. eapply text_inv_step; [done..|].
  apply ct_esc. by rewrite <- (r_chars _ _ R).
Qed.
Lemma wp_text_char {A B} spec (pok : nat -> A -> Prop) s a t s1 (Q : A * list Z + B -> Lexer -> Prop) F :
  text_inv spec pok s (a, t) s1 -> pos s1 < length (chars s1) ->
  cur s1 <> BSLASH -> cur s1 <> ch "{" -> cur s1 <> ch "}" ->
  (forall c s2, text_inv spec pok s (a, t ++ c) s2 -> pos s1 < pos s2 -> chars s2 = chars s1 -> Q (inl (a, t ++ c)) s2) ->
  wp (c ← literal_char; mret (inl (a, t ++ [c]))) Q F s1.
Proof.
  intros I Hp H1 H2 H3 HQ. pose proof I as (R & _). wp_step. apply wp_literal_char; [apply R|done|].
  intros s2 R2 P2. wps. apply HQ; [|lia|apply R2]. eapply text_inv_step; [done..|].
  rewrite P2, <- (r_chars _ _ R), (seg_char s1 s1) by (apply runs_refl, R || done). rewrite seg_nil. by apply ct_raw.
Qed.

Lemma wp_hole_spec n next s brace quote triple : next_ok n next -> ok s -> at_line_start s = false ->
  hole_nest s <= MAX_HOLE_NEST < hole_nest s + n -> points s brace -> quote <> 0%Z ->
  wp (hole_spec next brace quote triple) (fun sp s' => runs s s' /\
    exists z, spec_text (chars s) (lx_file s) (pos s) z sp /\ chars s !! z = Some (ch "}") /\ pos s' = S z) (err_post s) s.
Proof.
  intros Hn H Hl Hm Hb Hq. unfold hole_spec.
  eapply (wp_forever _ (text_inv true (fun m sp => spec_text (chars s) (lx_file s) (pos s) m sp) s)).
  { split; [by apply runs_refl|]. exists (pos s). split; [done|]. split; [constructor|]. rewrite seg_nil. apply str_text_nil. }
  intros [sp t] s1 I. pose proof I as (R & m & Hmp & Hsp & Ht). pose proof (r_ok _ _ R) as O1. split; [by apply ok_pos|].
  pose proof (ok_pos _ O1) as Hlen. rewrite (r_chars _ _ R) in Hlen.
  wp_step. wp_step. wp_step. apply wp_at_close; [done|]. intros cl _. wp_step.
  { apply wp_unterminated; [by apply runs_near|done]. }
  bools. wp_step. wp_step. wp_step; [|wp_step; [|wp_step]]; bools.
  - wps. pose proof (runs_trans _ _ _ R (runs_advance s1 O1 ltac:(done) ltac:(unfold NL; congruence))) as R2. split; [done|].
    exists (pos s1). split; [by eapply flush_spec|]. split; [|done]. rewrite <- (r_chars _ _ R), cur_lookup by done. congruence.
  - wp_step. wp_step. wp_step. apply wp_span_at; [done|pose proof (ok_start _ O1); lia|]. wp_step. wp_step.
    pose proof (runs_advance s1 O1 ltac:(done) ltac:(unfold NL; congruence)) as Radv. set (s2 := set_pos _ _) in *.
    pose proof (runs_trans _ _ _ R Radv) as R2. wp_step.
    assert (points s1 (place (chars s1) (lx_file s1) (pos s1))) as Hf by (by apply place_points, ok_pos).
    eapply wp_use; [by apply runs_near|apply (wp_hole_code n); [done|apply R2|by apply R2|by rewrite (r_nest _ _ R2)|exact (runs_points _ _ _ Radv Hf)]|].
    intros [toks nested] s3 [R3 C3]. wps.
    + apply wp_error_span; [apply runs_near; by eapply runs_trans|].
      eapply runs_points; [|exact Hf]. by eapply runs_trans.
    + pose proof (runs_trans _ _ _ R2 R3) as R03. destruct C3 as (ts & e & i & Ets & Hts & He & P3 & Hce).
      rewrite (r_chars _ _ R2) in *. rewrite (r_file _ _ R2) in *. simpl in Ets, Hce. subst toks.
      pose proof (r_le _ _ R3) as Hle. change (pos s2) with (S (pos s1)) in *.
      split; [|split; [lia|rewrite (r_chars _ _ R03), (r_chars _ _ R); done]]. split; [done|]. exists (pos s3). split; [done|]. split.
      * simpl. eapply spec_snoc; [by eapply flush_spec|]. eapply st_field; [|exact Hts|exact Hce|rewrite P3; constructor].
        rewrite <- (r_chars _ _ R), cur_lookup by done. congruence.
      * simpl. rewrite seg_nil. apply str_text_nil.
  - eapply wp_text_escape; [exact I|done|done|]. intros c s2 I2 P2 C2. done.
  - eapply wp_text_char; [exact I|done..|]. intros c s2 I2 P2 C2. done.
Qed.

(** The body of a hole whose brace is at [a]. *)
Definition hole_text (s : Lexer) (a : nat) (h : Hole) (s' : Lexer) : Prop :=
  chars s !! a = Some (ch "{") -> parts_text (chars s) (lx_file s) a (pos s') [PHole h].

Lemma wp_hole_body n next s a quote triple : next_ok n next -> ok s -> at_line_start s = false ->
  hole_nest s <= MAX_HOLE_NEST < hole_nest s + n -> quote <> 0%Z -> pos s = S a ->
  wp (hole_body next (place (chars s) (lx_file s) a) quote triple)
    (fun h s' => runs s s' /\ hole_text s a h s') (err_post s) s.
Proof.
  intros Hn H Hl Hm Hq Ha. pose proof (ok_pos s H) as Hlen.
  assert (points s (place (chars s) (lx_file s) a)) as Hb by (apply place_points; lia).
  unfold hole_body. wp_step. eapply wp_use; [by apply near_refl|by eapply (wp_hole_code n)|].
  intros [toks has_spec] s1 [R1 (ts & e & i & Ets & Hts & He & P1 & Hce)]. simpl in Ets, Hce. subst toks. rewrite Ha in *.
  pose proof (r_ok _ _ R1) as O1. cbv beta iota. destruct has_spec.
  - wp_step. wp_step. wp_step. apply wp_span_at; [done|pose proof (ok_start _ O1); lia|]. wp_step.
    eapply wp_use; [by apply runs_near|apply (wp_hole_spec n); try done; [by apply R1|by rewrite (r_nest _ _ R1)|by eapply runs_points]|].
    intros sp s2 (R2 & z & Hsp & Hz & P2). wps. split; [by eapply runs_trans|]. intros Hbr.
    rewrite (r_chars _ _ R1) in *. rewrite (r_file _ _ R1) in *. rewrite P1 in *.
    eapply pt_spec; [done|exact Hts|exact Hce|exact Hsp|exact Hz|]. rewrite P2. constructor.
  - wps. split; [done|]. intros Hbr. eapply pt_hole; [done|exact Hts|exact Hce|]. rewrite P1. constructor.
Qed.

Lemma wp_hole n next s quote triple : next_ok n next -> ok s -> at_line_start s = false ->
  MAX_HOLE_NEST <= hole_nest s + n -> quote <> 0%Z -> cur s = ch "{" ->
  wp (hole next quote triple) (fun h s' => runs s s' /\ pos s < pos s' /\
    parts_text (chars s) (lx_file s) (pos s) (pos s') [PHole h]) (err_post s) s.
Proof.
  intros Hn H Hl Hm Hq Hc. pose proof (cur_end s H ltac:(congruence)) as Hlt.
  unfold hole. wp_step. wp_step. wp_step. apply wp_span_at; [done|pose proof (ok_start s H); lia|]. wp_step. wp_step.
  pose proof (runs_advance s H Hlt ltac:(unfold NL; congruence)) as R1. set (s1 := set_pos _ _) in *.
  pose proof (r_ok _ _ R1) as O1. wp_step. wp_step.
  wp_step; [apply wp_error_span; [by apply runs_near|]; apply (runs_points s); [done|by apply place_points, ok_pos]|]. bools.
  wp_step. wp_step. set (s2 := set_comment _ _).
  assert (ok s2) as O2 by (destruct O1; by split). assert (hole_nest s1 = hole_nest s) as N1 by done. apply wp_finally.
  eapply wp_mono; [apply (wp_hole_body n next s2 (pos s)); try done; simpl; lia|..].
  - intros h s3 [R3 Ht]. pose proof (r_nest _ _ R3) as N3. simpl in N3.
    eexists. split; [unfold checked_sub; rewrite (proj2 (Nat.leb_le 1 _)) by lia; done|].
    pose proof (r_le _ _ R3) as Hle. simpl in Hle. split; [|split; [simpl; lia|]].
    + destruct R3 as [[? ? ? ? ? ?] C F N B P I Hl2]. split; try done; simpl in *; try lia. split; try done.
      apply (ok_comment_same s1); done.
    + apply Ht. simpl. rewrite cur_lookup by done. congruence.
  - intros e s3 [[C F N P K] E3]. simpl in *.
    eexists. split; [unfold checked_sub; rewrite (proj2 (Nat.leb_le 1 _)) by lia; done|]. split; [|done].
    split; try done; simpl; try lia. by apply (ok_comment_same s1).
Qed.

Lemma is_quote_ne q : is_quote q = true -> q <> 0%Z /\ q <> NL /\ q <> BSLASH /\ q <> ch "{" /\ q <> ch "}".
Proof. unfold is_quote. intros [E|E]%orb_true_iff; bools; subst q; done. Qed.

Lemma digit_hole_text s e : digit_hole s = Some e ->
  exists ds, ds <> [] /\ Forall (fun c => is_ascii_digit c = true) ds /\ e = S (pos s) + length ds /\
    seg (chars s) (S (pos s)) e = ds /\ chars s !! e = Some (ch "}").
Proof.
  unfold digit_hole. set (n := prefix_len _ _). destruct (0 <? n) eqn:En; [|done]. simpl.
  case_bool_decide as Hb; [|done]. intros [= <-]. bools.
  pose proof (prefix_len_le is_ascii_digit (drop (S (pos s)) (chars s))) as Hle. fold n in Hle. rewrite length_drop in Hle.
  pose proof (lookup_lt_Some _ _ _ Hb) as Hlt.
  assert (length (seg (chars s) (S (pos s)) (S (pos s) + n)) = n) as Hlen by (rewrite seg_length; lia).
  exists (seg (chars s) (S (pos s)) (S (pos s) + n)). split_and!; try done; [by intros E; rewrite E in Hlen; simpl in Hlen; lia| |by rewrite Hlen].
  apply list.Forall_lookup. intros i c Hi. pose proof (lookup_lt_Some _ _ _ Hi). rewrite seg_lookup in Hi by lia.
  destruct (prefix_len_test is_ascii_digit (drop (S (pos s)) (chars s)) i) as (d & Hd & Ht); [fold n; lia|].
  rewrite lookup_drop in Hd. congruence.
Qed.

(** A doubled brace and a digit hole are text. *)
Lemma text_brace {A} (pok : nat -> A -> Prop) s a t s1 : text_inv false pok s (a, t) s1 ->
  (default 0 (chars s1 !! S (pos s1)) = cur s1)%Z -> (cur s1 =? ch "{")%Z = true \/ (cur s1 =? ch "}")%Z = true ->
  pos s1 < length (chars s1) ->
  text_inv false pok s (a, t ++ [cur s1]) (set_pos (S (S (pos s1))) s1) /\ pos s1 < S (S (pos s1)).
Proof.
  intros I Hd Hbr Hp. pose proof I as (R & _). pose proof (r_ok _ _ R) as O1.
  assert (cur s1 = 123%Z \/ cur s1 = 125%Z) as Hc by (destruct Hbr; bools; auto).
  assert (chars s1 !! pos s1 = Some (cur s1)) as C1 by (by apply cur_lookup).
  assert (chars s1 !! S (pos s1) = Some (cur s1)) as C2.
  { destruct (chars s1 !! S (pos s1)) as [d|] eqn:Ed; simpl in *; [congruence|]. destruct Hc; congruence. }
  split; [|lia]. eapply text_inv_step; [exact I|..].
  - apply runs_set_pos; [done|pose proof (lookup_lt_Some _ _ _ C2); lia|].
    intros i Hi. assert (i = pos s1 \/ i = S (pos s1)) as [-> | ->] by lia; [rewrite C1|rewrite C2]; unfold NL; destruct Hc; congruence.
  - simpl. rewrite <- (r_chars _ _ R).
    rewrite (seg_snoc _ (pos s1) (S (pos s1)) _ ltac:(lia) C2), (seg_snoc _ _ _ _ (le_n _) C1), seg_nil. by apply ct_brace.
Qed.

Lemma text_digits {A} (pok : nat -> A -> Prop) s a t s1 e : text_inv false pok s (a, t) s1 ->
  cur s1 = ch "{" -> digit_hole s1 = Some e ->
  text_inv false pok s (a, t ++ seg (chars s1) (pos s1) (S e)) (set_pos (S e) s1) /\
  pos s1 < S e /\ S e <= length (chars s1).
Proof.
  intros I Hc Ed. pose proof I as (R & _). pose proof (r_ok _ _ R) as O1.
  destruct (digit_hole_text _ _ Ed) as (ds & Hne & Hds & He & Hseg & Hce). pose proof (lookup_lt_Some _ _ _ Hce).
  assert (chars s1 !! pos s1 = Some 123%Z) as C1 by (rewrite cur_lookup by lia; congruence).
  assert (seg (chars s1) (pos s1) (S e) = 123%Z :: ds ++ [125%Z]) as W.
  { rewrite (seg_app _ (pos s1) (S (pos s1))) by lia. rewrite (seg_snoc _ _ _ _ (le_n _) C1), seg_nil.
    rewrite (seg_snoc _ (S (pos s1)) e _ ltac:(lia) Hce), Hseg. done. }
  split; [|lia]. eapply text_inv_step; [exact I| |simpl; rewrite <- (r_chars _ _ R), W; by apply ct_digits].
  apply runs_set_pos; [done|lia|]. intros i Hi Hnl.
  assert (seg (chars s1) (pos s1) (S e) !! (i - pos s1) = Some NL) as Hin.
  { rewrite seg_lookup by lia. by replace (pos s1 + (i - pos s1)) with i by lia. }
  rewrite W in Hin. destruct (i - pos s1) as [|j]; [done|]. simpl in Hin. apply lookup_app_Some in Hin as [Hin|[_ Hin]].
  - by apply (list.Forall_lookup_1 _ _ _ _ Hds) in Hin.
  - destruct (j - length ds) as [|[|?]]; done.
Qed.

Lemma wp_quoted n next s quote (triple : bool) : let width := if triple then 3 else 1 in
  next_ok n next -> ok s -> at_line_start s = false -> MAX_HOLE_NEST <= hole_nest s + n -> is_quote quote = true ->
  width <= pos s -> line_start s <= pos s - width -> seg (chars s) (pos s - width) (pos s) = repeat quote width ->
  wp (quoted next quote triple) (fun k s' => runs s s' /\
    token_text (chars s) (lx_file s) (pos s - width) (pos s') k /\ exists lit, k = KStr lit) (err_post s) s.
Proof.
  intros width Hn H Hl Hm Hquote Hw Hls Hop. destruct (is_quote_ne _ Hquote) as (Q0 & QN & QB & QL & QR).
  unfold quoted. fold width. wp_step. wp_step. wp_step.
  eapply wp_or_panic; [unfold checked_sub; by rewrite (proj2 (Nat.leb_le width (pos s)))|].
  wp_step. apply wp_span_at; [done|lia|]. wp_step. set (open := place _ _ _).
  assert (points s open) as Ho by (apply place_points; pose proof (ok_pos s H); lia).
  eapply (wp_forever _ (text_inv false (fun m ps => parts_text (chars s) (lx_file s) (pos s) m ps) s)).
  { split; [by apply runs_refl|]. exists (pos s). split; [done|]. split; [constructor|]. rewrite seg_nil. apply str_text_nil. }
  intros [ps t] s1 I. pose proof I as (R & m & Hmp & Hps & Ht). pose proof (r_ok _ _ R) as O1. split; [by apply ok_pos|].
  pose proof (ok_pos _ O1) as Hlen. rewrite (r_chars _ _ R) in Hlen. pose proof (r_le _ _ R) as Hle.
  wp_step. wp_step. wp_step; bools; [apply wp_error_span; [by apply runs_near|by eapply runs_points]|].
  wp_step. apply wp_at_close; [done|]. intros cl Hcl. wp_step.
  { symmetry in Hcl. bools. wp_step. fold width in Hcl.
    assert (pos s1 + width <= length (chars s1)) as Hcw.
    { apply (f_equal length) in Hcl. unfold seg in Hcl. rewrite length_take, length_drop, repeat_length in Hcl. unfold width in *. destruct triple; lia. }
    wp_step. eapply (wp_advance_n s s1); [done..|]. intros s2 R2 P2. wps.
    eapply wp_or_panic; [unfold checked_sub; by rewrite (proj2 (Nat.leb_le (pos s - width) (pos s2))) by lia|]. wps.
    split; [done|]. split; [|by eexists]. eapply (tt_str _ _ _ (pos s) (pos s1)); [done| |exact Hop|by eapply flush_parts| |lia|lia].
    - unfold width. destruct triple; auto.
    - by rewrite P2, <- (r_chars _ _ R). }
  wp_step. wp_step. wp_step. wp_step. wp_step; bools.
  { eapply wp_text_escape; [exact I|done|done|]. intros c s2 I2 P2 C2. done. }
  wp_step.
  { bools. destruct (text_brace _ _ _ _ _ I) as [I2 P2]; [done|by apply orb_true_iff|done|].
    wps. split; [done|split; [simpl; lia|done]]. }
  wp_step; bools.
  { wp_step. wp_step. destruct (digit_hole s1) as [e|] eqn:Ed.
    - destruct (text_digits _ _ _ _ _ _ I ltac:(done) Ed) as (I2 & P2 & L2). wp_step. apply wp_text_of; [lia|]. wps.
      split; [done|split; [simpl; lia|done]].
    - wp_step. eapply wp_use; [by apply runs_near|apply (wp_hole n); try done; [by apply R|by rewrite (r_nest _ _ R)]|].
      intros h s2 (R2 & P2 & Hh). wps. split; [|split; [done|apply R2]]. split; [by eapply runs_trans|].
      exists (pos s2). split; [done|]. rewrite (r_chars _ _ R) in *. rewrite (r_file _ _ R) in *.
      split; [|simpl; rewrite seg_nil; apply str_text_nil]. simpl. eapply parts_snoc; [by eapply flush_parts|exact Hh]. }
  wp_step; bools; [apply wp_error; [by apply runs_near|done]|].
  eapply wp_text_char; [exact I|done..|]. intros c s2 I2 P2 C2. done.
Qed.

(** ** The scanner *)

Definition kind_post (s : Lexer) (start : nat) (k : Token) (s' : Lexer) : Prop :=
  runs s s' /\ is_layout k = false /\ token_text (chars s) (lx_file s) start (pos s') k.

(** Two more quotes: a triple opener. *)
Lemma triple_quotes s q : ok s -> is_quote q = true -> cur s = q -> default 0%Z (chars s !! S (pos s)) = q ->
  runs s (set_pos (S (S (pos s))) s) /\ seg (chars s) (pos s) (S (S (pos s))) = [q; q].
Proof.
  intros H Hq Hc Hd. destruct (is_quote_ne _ Hq) as (Q0 & QN & _).
  assert (chars s !! pos s = Some q) as C1 by (rewrite cur_lookup; [congruence|apply cur_end; congruence]).
  assert (chars s !! S (pos s) = Some q) as C2 by (destruct (chars s !! S (pos s)); simpl in *; congruence).
  split.
  - apply runs_set_pos; [done|pose proof (lookup_lt_Some _ _ _ C2); lia|].
    intros i Hi. assert (i = pos s \/ i = S (pos s)) as [-> | ->] by lia; congruence.
  - by rewrite (seg_snoc _ (pos s) (S (pos s)) _ ltac:(lia) C2), (seg_snoc _ _ _ _ (le_n _) C1), seg_nil.
Qed.

(** The two forms of a prefixed literal, whose prefix [c] is at [start]. *)
Lemma wp_prefixed s start c (single triple : Z -> LM Token) (R1 : Token -> list Z -> Prop) :
  ok s -> pos s = S start -> chars s !! start = Some c -> line_start s <= start -> is_quote (cur s) = true ->
  (forall q s1, is_quote q = true -> runs s s1 -> pos s1 = S (S start) -> line_start s1 <= start ->
     wp (single q) (fun k s' => runs s1 s' /\ exists w, R1 k w /\ seg (chars s1) (pos s1) (pos s') = w ++ [q]) (err_post s1) s1) ->
  (forall q s1, is_quote q = true -> runs s s1 -> pos s1 = S (S (S (S start))) -> line_start s1 <= start ->
     wp (triple q) (fun k s' => runs s1 s' /\ exists w, R1 k w /\ seg (chars s1) (pos s1) (pos s') = w ++ repeat q 3) (err_post s1) s1) ->
  wp (prefixed single triple) (fun k s' => runs s s' /\ exists q n w, is_quote q = true /\ (n = 1 \/ n = 3) /\ R1 k w /\
    seg (chars s) start (pos s') = c :: repeat q n ++ w ++ repeat q n) (err_post s) s.
Proof.
  intros H Hp Hc Hl Hq Hs Ht. destruct (is_quote_ne _ Hq) as (Q0 & QN & _). pose proof (cur_end s H Q0) as Hlt.
  unfold prefixed. wp_step. wp_step. pose proof (runs_advance s H Hlt QN) as Ra. set (s1 := set_pos _ _) in *.
  assert (pos s1 = S (S start)) as P1 by (simpl; lia).
  assert (seg (chars s) start (pos s1) = [c; cur s]) as W1.
  { rewrite P1, <- Hp. rewrite (seg_snoc _ start (pos s) (cur s)) by (lia || by apply cur_lookup).
    by rewrite Hp, (seg_snoc _ _ _ _ (le_n _) Hc), seg_nil. }
  assert (forall k s2 s' w n, runs s s2 -> pos s1 <= pos s2 -> runs s2 s' -> R1 k w -> n = 1 \/ n = 3 ->
    seg (chars s) start (pos s2) = c :: repeat (cur s) n ->
    seg (chars s2) (pos s2) (pos s') = w ++ repeat (cur s) n ->
    runs s s' /\ exists q n w, is_quote q = true /\ (n = 1 \/ n = 3) /\ R1 k w /\
      seg (chars s) start (pos s') = c :: repeat q n ++ w ++ repeat q n) as Hfin.
  { intros k s2 s' w n R2 P2 R' Hk Hn W2 W'. split; [by eapply runs_trans|]. exists (cur s), n, w. split_and!; try done.
    rewrite (seg_app _ start (pos s2)) by (pose proof (r_le _ _ R'); lia).
    rewrite (r_chars _ _ R2) in W'. by rewrite W2, W'. }
  wps; bools.
  - destruct (triple_quotes s1 (cur s)) as [R2 W2]; [apply Ra|done..|]. pose proof (runs_trans _ _ _ Ra R2) as R02.
    change (wp (triple (cur s)) (fun k s' => runs s s' /\ exists q n w, is_quote q = true /\ (n = 1 \/ n = 3) /\ R1 k w /\
      seg (chars s) start (pos s') = c :: repeat q n ++ w ++ repeat q n) (err_post s) (set_pos (S (S (pos s1))) s1)).
    eapply wp_use; [by apply runs_near|apply Ht; [done|done|simpl; lia|done]|].
    intros k s' (R' & w & Hk & W'). eapply (Hfin _ _ _ _ 3); [exact R02|simpl; lia|done|done|by right| |done].
    simpl. rewrite (seg_app _ start (pos s1)) by (simpl in *; lia). rewrite W1. simpl in W2. simpl. rewrite W2. done.
  - eapply wp_use; [by apply runs_near|apply Hs; done|].
    intros k s' (R' & w & Hk & W'). by eapply (Hfin _ _ _ _ 1); [exact Ra| | | |by left|..].
Qed.

Lemma wp_lex_kind n next s start c : next_ok n next -> ok s -> at_line_start s = false ->
  MAX_HOLE_NEST <= hole_nest s + n -> pos s = S start -> chars s !! start = Some c -> line_start s <= start ->
  wp (lex_kind next start c) (kind_post s start) (err_post s) s.
Proof.
  intros Hn H Hat Hm Hp Hc Hl. unfold lex_kind. destruct (operator start c) as [m|] eqn:Eo.
  { eapply wp_mono; [by eapply operator_wp| |done]. intros k s' [R Hk].
    assert (is_layout k = false) as Hlay by (by destruct k). split; [done|]. split; [done|].
    apply tt_word; [done|]. destruct k; done. }
  assert (seg (chars s) start (pos s) = [c]) as W by (by rewrite Hp, (seg_snoc _ _ _ _ (le_n _) Hc), seg_nil).
  wp_step. wp_step. wp_step. wp_step. wp_step.
  { wp_step.
    - bools. destruct (triple_quotes s c) as [R W2]; [done..|].
      change (wp (quoted next c true) (kind_post s start) (err_post s) (set_pos (S (S (pos s))) s)).
      set (s1 := set_pos _ _) in *. assert (pos s1 - 3 = start) as E3 by (simpl; lia).
      eapply wp_use; [by apply runs_near|apply (wp_quoted n next s1 c true); try done; [apply R|simpl; lia..|]|].
      + rewrite E3. simpl. rewrite (seg_app _ start (pos s)) by lia. by rewrite W, W2.
      + intros k s' (R' & Ht & lit & ->). rewrite E3 in Ht. split; [by eapply runs_trans|]. done.
    - assert (pos s - 1 = start) as E3 by lia.
      eapply wp_mono; [apply (wp_quoted n next s c false); try done; simpl; rewrite ?E3; (lia || done)| |done].
      intros k s' (R' & Ht & lit & ->). simpl in Ht. rewrite E3 in Ht. done. }
  wp_step.
  { bools. eapply wp_mono; [apply (wp_prefixed s start c _ _ (fun k w => exists bs, k = KBytes bs /\ bytes_text bs w)); try done| |done].
    - intros q s1 Hq R P1 L1. destruct (is_quote_ne _ Hq) as (Q0 & QN & _).
      eapply wp_mono; [apply wp_byte_string; [apply R|lia|lia|done]| |done].
      intros k s' (R' & bs & w & -> & Hb & Hw). split; [done|]. exists w. by split; [exists bs|].
    - intros q s1 Hq R P1 L1. destruct (is_quote_ne _ Hq) as (Q0 & QN & _).
      eapply wp_mono; [apply wp_byte_triple_string; [apply R|lia|lia|done|done]| |done].
      intros k s' (R' & bs & w & -> & Hb & Hw). split; [done|]. exists w. by split; [exists bs|].
    - intros k s' (R & q & m & w & Hq & Hm' & (bs & -> & Hb) & Hw). split; [done|]. split; [done|].
      eapply tt_bytes; try done. match goal with E : _ || _ = true |- _ => apply orb_true_iff in E as [E|E]; bools; auto end. }
  wp_step.
  { bools. eapply wp_mono; [apply (wp_prefixed s start c _ _ (fun k w => k = KRawStr w)); try done| |done].
    - intros q s1 Hq R P1 L1. destruct (is_quote_ne _ Hq) as (Q0 & QN & _).
      eapply wp_mono; [apply wp_raw_string; [apply R|lia|lia|done]| |done]. intros k s' (R' & w & -> & Hw). split; [done|]. by exists w.
    - intros q s1 Hq R P1 L1. destruct (is_quote_ne _ Hq) as (Q0 & QN & _).
      eapply wp_mono; [apply wp_raw_triple_string; [apply R|lia|lia|done|done]| |done]. intros k s' (R' & w & -> & Hw). split; [done|]. by exists w.
    - intros k s' (R & q & m & w & Hq & Hm' & -> & Hw). split; [done|]. split; [done|].
      eapply tt_raw; try done. match goal with E : _ || _ = true |- _ => apply orb_true_iff in E as [E|E]; bools; auto end. }
  wp_step.
  { eapply wp_mono; [by apply (wp_number s start c)| |done]. intros k s' [R Hk]. split; [done|].
    split; [by destruct k|by apply tt_number]. }
  wp_step.
  { eapply wp_mono; [apply (wp_identifier s start); [done|lia]| |done]. intros k s' (R & Hk & Hw).
    split; [done|]. split; [done|]. by apply tt_word. }
  wps; (apply wp_error_here; [by apply near_refl|done|lia]).
Qed.

Lemma gap_run l a b : a <= b -> (forall i, a <= i < b -> exists c, l !! i = Some c /\ c ∈ [SP; TAB; CR; NL]) -> gap l a b.
Proof.
  intros Hab. remember (b - a) as n eqn:En. revert a Hab En. induction n as [|n IH]; intros a Hab En H.
  - replace b with a by lia. constructor.
  - destruct (H a) as (c & Hc & Hin); [lia|]. eapply gap_space; [done..|]. apply IH; [lia..|]. intros i Hi. apply H. lia.
Qed.
Lemma gap_run_end s test : (forall c, test c = true -> c ∈ [SP; TAB; CR; NL]) -> pos s <= length (chars s) ->
  gap (chars s) (pos s) (run_end test s).
Proof.
  intros Ht Hp. apply gap_run; [by apply run_end_le|]. intros i Hi. destruct (run_end_test _ _ _ Hi) as (c & Hc & Hs). eauto.
Qed.
Lemma gap_one s : pos s < length (chars s) -> cur s ∈ [SP; TAB; CR; NL] -> gap (chars s) (pos s) (S (pos s)).
Proof. intros Hp Hc. eapply gap_space; [by apply cur_lookup|done|constructor]. Qed.
Lemma run_end_lt test s : pos s < length (chars s) -> test (cur s) = true -> pos s < run_end test s.
Proof.
  intros Hp Ht. rewrite (run_end_step test s (cur s)) by (try apply cur_lookup; done).
  pose proof (run_end_le test (set_pos (S (pos s)) s) ltac:(simpl; lia)). simpl in *. lia.
Qed.
Lemma gap_to_line_end s : pos s < length (chars s) -> cur s = ch "#" ->
  gap (chars s) (pos s) (run_end (fun c => negb (Z.eqb c NL)) s).
Proof.
  intros Hp Hc. set (test := fun c => negb (Z.eqb c NL)). pose proof (run_end_le test s ltac:(lia)) as Hle.
  assert (pos s < run_end test s) as Hlt by (apply run_end_lt; [done|unfold test; by rewrite Hc]).
  eapply (gap_comment _ _ (run_end test s)); [rewrite cur_lookup by done; congruence|lia| | |constructor].
  - intros i Hi E. destruct (run_end_test test s i Hi) as (c & Ec & Ht). unfold test in Ht. bools. congruence.
  - destruct (decide (run_end test s = length (chars s))); [by left|right].
    destruct (lookup_lt_is_Some_2 (chars s) (run_end test s)) as [c Ec]; [lia|].
    apply run_end_stop in Ec as Ht. unfold test in Ht. bools. congruence.
Qed.

Lemma wp_skip_inline s : ok s -> wp skip_inline (fun _ s' => runs s s' /\ gap (chars s) (pos s) (pos s') /\
   at_line_start s' = at_line_start s /\ cur s' ∉ [SP; TAB; CR; ch "#"]) (err_post s) s.
Proof.
  intros H. unfold skip_inline.
  eapply (wp_forever _ (fun _ s1 => runs s s1 /\ gap (chars s) (pos s) (pos s1) /\ at_line_start s1 = at_line_start s)).
  { split; [by apply runs_refl|split; [constructor|done]]. }
  intros [] s1 (R & Hg & Hat). pose proof (r_ok _ _ R) as O1. split; [by apply ok_pos|].
  wp_step. wp_step. wp_step; [|wp_step].
  - assert (cur s1 = SP \/ cur s1 = TAB \/ cur s1 = CR) as Hin.
    { apply orb_true_iff in E as [E|E]; [apply orb_true_iff in E as [E|E]|]; bools; auto. }
    assert (cur s1 <> 0%Z /\ cur s1 <> NL) as [C0 CN] by (destruct Hin as [C|[C|C]]; by rewrite C).
    pose proof (cur_end _ O1 C0) as Hlt. wps. split; [|split; [simpl; lia|done]].
    split; [eapply runs_trans; [exact R|by apply runs_advance]|]. split; [|done]. eapply gap_trans; [exact Hg|]. rewrite <- (r_chars _ _ R).
    apply gap_one; [done|]. destruct Hin as [C|[C|C]]; rewrite C; in_list.
  - bools. pose proof (cur_end _ O1 ltac:(congruence)) as Hlt. wp_step. wp_step.
    assert (forall s2, runs s s2 -> pos s2 = pos s1 -> at_line_start s2 = at_line_start s1 ->
      wp (to_line_end;; mret (inl ())) (fun (r : () + ()) s' => match r with
        | inl _ => (runs s s' /\ gap (chars s) (pos s) (pos s') /\ at_line_start s' = at_line_start s) /\ pos s1 < pos s' /\ chars s' = chars s1
        | inr _ => runs s s' /\ gap (chars s) (pos s) (pos s') /\ at_line_start s' = at_line_start s /\ cur s' ∉ [SP; TAB; CR; 35%Z] end) (err_post s) s2) as G.
    { intros s2 R2 P2 A2. wp_step. apply wp_to_line_end. wp_step.
      assert (chars s2 = chars s1) as C2 by (rewrite (r_chars _ _ R2); by rewrite (r_chars _ _ R)).
      assert (cur s2 = 35%Z) as Hc2 by (unfold cur in *; by rewrite C2, P2).
      assert (pos s2 < length (chars s2)) as Hl2 by (by rewrite P2, C2).
      pose proof (gap_to_line_end s2 Hl2 Hc2) as Hg2. pose proof (runs_run_end (fun c => negb (Z.eqb c NL)) s2 (r_ok _ _ R2) eq_refl) as R3.
      assert (pos s2 < run_end (fun c => negb (Z.eqb c NL)) s2) as Hlt2 by (apply run_end_lt; [done|by rewrite Hc2]).
      split; [|split; [simpl; lia|done]]. split; [by eapply runs_trans|]. split; [|simpl; congruence]. eapply gap_trans; [exact Hg|].
      simpl. rewrite <- P2. by rewrite <- (r_chars _ _ R), <- C2. }
    wp_step. wp_step; [|by apply wp_ret, G].
    wp_step. apply wp_span_at; [done|pose proof (ok_start _ O1); lia|]. wp_step. apply G; [|done|done].
    destruct R as [[? ? ? ? ? ?] ? ? ? ? ? ? ?]. split; try done. split; try done. intros sp [= <-]. by exists (pos s1).
  - wps. split; [done|]. split; [done|]. split; [done|]. bools. rewrite !not_elem_of_cons. split_and!; try done. apply not_elem_of_nil.
Qed.

(** *** Indentation *)

Lemma seg_all l a : seg l a (length l) = drop a l.
Proof. unfold seg. apply take_ge. by rewrite length_drop. Qed.

(** The state after the indentation of a line: only the stack of indents may differ. *)
Record steps (s s' : Lexer) : Prop := {
  st_ok : ok s';
  st_chars : chars s' = chars s;
  st_file : lx_file s' = lx_file s;
  st_nest : hole_nest s' = hole_nest s;
  st_base : hole_base s' = hole_base s;
  st_le : pos s <= pos s';
}.
Lemma runs_steps s s' : runs s s' -> steps s s'.
Proof. intros []. by split. Qed.
Lemma steps_trans s1 s2 s3 : steps s1 s2 -> steps s2 s3 -> steps s1 s3.
Proof. intros [] []. split; try congruence; lia. Qed.
Lemma steps_near s s' : steps s s' -> near s s'.
Proof. intros []. split; try done; [|by apply ok_comment]. rewrite <- st_chars0. by apply ok_pos. Qed.

Definition indentation_post (s : Lexer) (r : option (list Tok)) (s' : Lexer) : Prop :=
  steps s s' /\ gap (chars s) (pos s) (pos s') /\ at_line_start s' = at_line_start s /\
  match r with
  | None => length (chars s) <= pos s' /\ indents s' = indents s
  | Some layout => exists kinds w, layout = (fun k => mkTok k (place (chars s) (lx_file s) (pos s')) None) <$> kinds /\
      layout_step 0 (indents s) w kinds (indents s') /\ w <= pos s' - pos s /\
      pos s' < length (chars s) /\ cur s' <> NL
  end.

Lemma wp_comment_line s (Q : unit -> Lexer -> Prop) F : ok s -> cur s = ch "#" ->
  (forall s', runs s s' -> pos s < pos s' -> gap (chars s) (pos s) (pos s') -> at_line_start s' = at_line_start s -> Q tt s') ->
  wp comment_line Q F s.
Proof.
  intros H Hc HQ. pose proof (cur_end _ H ltac:(by rewrite Hc)) as Hlt. unfold comment_line. wps. apply wp_to_line_end. wps.
  set (nn := fun c => negb (Z.eqb c NL)). pose proof (runs_run_end nn s H eq_refl) as R4.
  pose proof (run_end_lt nn s Hlt ltac:(unfold nn; by rewrite Hc)) as Hlt4. pose proof (gap_to_line_end s Hlt Hc) as G4.
  pose proof (run_end_le nn s (ok_pos _ H)) as Hle4.
  apply wp_text_of; [|wps; apply HQ; try done; eapply runs_trans; [exact R4|]; split; try done; eapply ok_same; [apply R4|done..]].
  cbn [pos set_pos chars]. case_bool_decide as Hsp; [|lia].
  destruct (decide (S (S (pos s)) <= run_end nn s)); [lia|].
  replace (S (pos s)) with (run_end nn s) in Hsp by lia. by apply run_end_stop in Hsp.
Qed.

Lemma wp_content_line s w : ok s -> wp (content_line w) (fun layout s' =>
  (steps s s' /\ at_line_start s' = at_line_start s) /\ pos s' = pos s /\ exists kinds,
    layout = (fun k => mkTok k (place (chars s) (lx_file s) (pos s)) None) <$> kinds /\
    layout_step 0 (indents s) w kinds (indents s')) (err_post s) s.
Proof.
  intros H. unfold content_line. wp_step. wp_step. wp_step. apply wp_span_at; [done|pose proof (ok_start _ H); lia|]. wp_step. wp_step. wp_step.
  destruct (indent_step_spec 0 (indents s) w (ok_levels _ H) (Nat.le_0_l _)) as (r & l' & Ei & Hlv & Hr).
  eapply wp_or_panic; [exact Ei|]. cbv beta iota. wp_step. wp_step.
  assert (ok (set_indents l' s)) as O4 by (destruct H; by split).
  assert (steps s (set_indents l' s)) as S4 by (by split).
  destruct r as [kinds|msg]; [|apply wp_error; [by apply steps_near|done]]. wps.
  split; [done|]. split; [done|]. by exists kinds.
Qed.

Lemma wp_scan_indentation s : ok s -> wp scan_indentation (indentation_post s) (err_post s) s.
Proof.
  intros H. unfold scan_indentation.
  eapply (wp_forever _ (fun _ s1 => runs s s1 /\ gap (chars s) (pos s) (pos s1) /\ at_line_start s1 = at_line_start s)).
  { split; [by apply runs_refl|]. split; [constructor|done]. }
  intros [] s1 (R & Hg & Hat). pose proof (r_ok _ _ R) as O1. split; [by apply ok_pos|]. unfold indentation_round.
  wp_step. wp_step. wp_step. apply wp_text_of; [pose proof (ok_pos _ O1); lia|].
  rewrite seg_all. change (pos s1 + prefix_len _ _) with (run_end (fun c => (c =? SP)%Z || (c =? TAB)%Z) s1).
  set (blank := fun c => (c =? SP)%Z || (c =? TAB)%Z).
  wp_step. eapply (wp_mono _ (fun _ s2 => runs s s2 /\ gap (chars s) (pos s) (pos s2) /\ pos s1 <= pos s2 /\
    at_line_start s2 = at_line_start s)); [|intros [] s2 (R2 & G2 & P2 & A2)|done].
  { wp_step; [|by wps]. wps. pose proof (runs_run_end blank s1 O1 eq_refl) as R2.
    split; [by eapply runs_trans|]. split; [|split; [apply run_end_le, ok_pos, O1|done]].
    eapply gap_trans; [exact Hg|]. rewrite <- (r_chars _ _ R). apply gap_run_end; [|by apply ok_pos].
    unfold blank. intros c [Hc|Hc]%orb_true_iff; bools; subst c; in_list. }
  clear Hg Hat. pose proof (r_ok _ _ R2) as O2. wp_step. wp_step. wp_step. apply wp_advance_while; [done|].
  set (sp := fun c => (c =? SP)%Z). pose proof (runs_run_end sp s2 O2 eq_refl) as R3. pose proof (run_end_le sp s2 (ok_pos _ O2)) as Hle.
  assert (gap (chars s) (pos s) (run_end sp s2)) as G3.
  { eapply gap_trans; [exact G2|]. rewrite <- (r_chars _ _ R2). apply gap_run_end; [|by apply ok_pos].
    unfold sp. intros c Hc. bools. subst c. in_list. }
  set (s3 := set_pos (run_end sp s2) s2) in *. pose proof (runs_trans _ _ _ R2 R3) as R03. pose proof (r_ok _ _ R03) as O3.
  assert (at_line_start s3 = at_line_start s) as A3 by done. assert (chars s3 = chars s) as C3 by apply R03.
  change (run_end sp s2) with (pos s3) in Hle, G3. clearbody s3.
  wp_step. wp_step. wp_step. eapply wp_or_panic; [unfold checked_sub; by rewrite (proj2 (Nat.leb_le _ _)) by lia|].
  wp_step. wp_step. wp_step; bools; [apply wp_error; [by apply runs_near|done]|].
  wp_step; bools; [|wp_step; bools].
  - pose proof (cur_end _ O3 ltac:(by rewrite E0)) as Hlt. wps.
    assert (runs s3 (new_line (S (pos s3)) (set_pos (S (pos s3)) s3))) as R4 by (apply runs_new_line; [done|by rewrite cur_lookup, E0]).
    split; [|split; [simpl; lia|by simpl; rewrite C3, (r_chars _ _ R)]]. split; [by eapply runs_trans|]. split; [|done].
    eapply gap_trans; [exact G3|]. rewrite <- C3. apply gap_one; [done|]. rewrite E0. in_list.
  - wp_step. apply wp_comment_line; [done|done|]. intros s4 R4 P4 G4 A4. wps.
    split; [|split; [pose proof (r_le _ _ R); lia|by rewrite (r_chars _ _ R4), C3, (r_chars _ _ R)]].
    split; [by eapply runs_trans|]. split; [|congruence]. eapply gap_trans; [exact G3|]. by rewrite <- C3.
  - wp_step. wp_step. wp_step; bools.
    { wps. split; [by apply runs_steps|]. split; [done|]. split; [done|]. split; [by rewrite <- C3|apply R03]. }
    wp_step. eapply wp_use; [by apply runs_near|by apply wp_content_line|].
    intros layout s4 (S4 & P4 & kinds & El & Hs). wps. split; [eapply steps_trans; [by apply runs_steps|apply S4]|].
    rewrite P4, C3 in *. split; [done|]. split; [rewrite <- A3; apply S4|]. exists kinds, (pos s3 - pos s2).
    rewrite (r_file _ _ R03), (r_indents _ _ R03) in *. split; [done|]. split; [done|]. split; [pose proof (r_le _ _ R); lia|].
    split; [done|]. unfold cur in *. by rewrite P4, (st_chars _ _ (proj1 S4)).
Qed.
End holes.
