(* ===== verification/LexerSound.v ===== *)
(** * The lexer ends, and reads what is there

    The scanner over whole files: it always returns, moves on with each token, and its tokens are
    the source read by the grammar of [LexerScan], in blocks that open and close in step. *)

From Stdlib Require Import Ascii.
From stdpp Require Import strings.
From S2P Require Import Prelude Consteval Slice Token Lexer LexerWp LexerScan.
Local Open Scope nat_scope.
Local Open Scope chz_scope.

(** ** One token *)

(** The levels the reader of the tokens has open: those of the stack and those queued to close. *)
Definition open_levels (s : Lexer) : nat := length (indents s) - 1 + length (pending s).

(** The invariant between tokens: what is queued are the [Dedent]s of the line at the cursor. *)
Record inv (s : Lexer) : Prop := {
  inv_ok : ok (set_pending [] s);
  inv_queue : Forall (fun t => t = mkTok KDedent (place (chars s) (lx_file s) (pos s)) None) (pending s);
  inv_line : pending s <> [] -> at_line_start s = false;
}.

(** What is left to do: characters, queued tokens, levels, the end of the line. *)
Definition work (s : Lexer) : nat :=
  4 * (length (chars s) - pos s) + length (pending s) + 2 * length (indents s) +
  (if at_line_start s then 0 else 1).

(** What a token says of the layout. *)
Definition layout_post (s : Lexer) (k : Token) (s' : Lexer) : Prop :=
  match k with
  | KIndent => open_levels s' = S (open_levels s) /\ at_line_start s = true /\
      pos s < length (chars s) /\ at_line_start s' = false /\ pending s' = []
  | KDedent => S (open_levels s') = open_levels s /\ (at_line_start s = true \/ pending s <> []) /\
      (at_line_start s' = true -> pos s' = length (chars s))
  | KNewline => open_levels s' = open_levels s /\ at_line_start s' = true /\ pending s' = []
  | KEof => open_levels s = 0 /\ at_line_start s = true
  | _ => open_levels s' = open_levels s /\ at_line_start s' = false /\ pending s' = []
  end.

Record scanned (s : Lexer) (t : Tok) (s' : Lexer) : Prop := {
  sc_inv : inv s';
  sc_chars : chars s' = chars s;
  sc_file : lx_file s' = lx_file s;
  sc_nest : hole_nest s' = hole_nest s;
  sc_read : read_tok s t s';
  sc_layout : layout_post s (kind t) s';
  sc_work : is_tok KEof (kind t) = false -> work s' < work s;
  sc_eof : is_tok KEof (kind t) = true -> pos s' = length (chars s);
  sc_runs : is_layout (kind t) = false -> at_line_start s = false -> runs s s';
  sc_moves : is_layout (kind t) = false -> pos s < pos s';
}.

(** From the start of a token to a later round of the loop. *)
Record round (s s1 : Lexer) : Prop := {
  rd_steps : steps s s1;
  rd_indents : indents s1 = indents s;
  rd_gap : gap (chars s) (pos s) (pos s1);
  rd_line : at_line_start s1 = at_line_start s \/ (at_line_start s1 = false /\ pos s < length (chars s));
}.
Lemma round_refl s : ok s -> round s s.
Proof. intros H. split; [by apply runs_steps, runs_refl|done|constructor|by left]. Qed.
Lemma round_trans s1 s2 s3 : round s1 s2 -> round s2 s3 -> round s1 s3.
Proof.
  intros [S1 I1 G1 L1] [S2 I2 G2 L2]. pose proof (st_le _ _ S1). pose proof (st_le _ _ S2). rewrite (st_chars _ _ S1) in *.
  split; [by eapply steps_trans|congruence|by eapply gap_trans|].
  destruct L1 as [L1|[L1 P1]], L2 as [L2|[L2 P2]]; rewrite ?L1 in *; auto; right; split; (done || lia || congruence).
Qed.

(** ** Blocks

    The layout a parser relies on: a line is ended by [Newline]; a block is opened only at the start
    of a line, by one [Indent]; blocks close at the start of a line, by [Dedent]s; every opened block
    is closed when the one [Eof] comes. *)
Inductive line_state := Fresh | Opened | Closed | InLine.
Fixpoint blocks_ok (depth : nat) (st : line_state) (ks : list Token) : bool :=
  match ks with
  | [] => false
  | KEof :: ks =>
      (depth =? 0) && bool_decide (ks = []) && match st with Fresh | Closed => true | _ => false end
  | KIndent :: ks => match st with Fresh => blocks_ok (S depth) Opened ks | _ => false end
  | KDedent :: ks =>
      match st, depth with Fresh, S d | Closed, S d => blocks_ok d Closed ks | _, _ => false end
  | KNewline :: ks => blocks_ok depth Fresh ks
  | _ :: ks => blocks_ok depth InLine ks
  end.

(** What the state of the lexer says of the line. *)
Definition line_rel (st : line_state) (s : Lexer) : Prop :=
  match st with
  | Fresh => at_line_start s = true /\ pending s = []
  | Opened | InLine => at_line_start s = false /\ pending s = []
  | Closed => at_line_start s = true -> pos s = length (chars s)
  end.

Section scanner.
  Context `{L : CharLaws}.

Lemma next_content_le rest i ls c : ls <= i ->
  let '(i', ls') := next_content rest i ls c in ls <= ls' <= i' /\ i' <= i + length rest.
Proof.
  revert i ls c. induction rest as [|d rest IH]; intros i ls c Hl; simpl; [lia|].
  assert (forall a b f, b <= a -> a = S i -> ls <= b ->
    let '(i', ls') := next_content rest a b f in ls <= ls' <= i' /\ i' <= i + S (length rest)) as G.
  { intros a b f Hb -> Hls. specialize (IH (S i) b f Hb). destruct (next_content rest _ _ _). lia. }
  destruct (d =? NL)%Z; [apply G; lia|]. destruct c; [apply G; lia|].
  destruct (_ || _); [apply G; lia|]. destruct (d =? 35)%Z; [apply G; lia|lia].
Qed.

Lemma ok_set_pipe s p : ok s -> ok (set_pipe p s).
Proof. intros H. by eapply ok_same. Qed.

Lemma wp_pipe s F : ok s -> wp pipe_continues_next_line (fun _ s' => runs s s' /\ pos s' = pos s /\ at_line_start s' = at_line_start s) F s.
Proof.
  intros H. unfold pipe_continues_next_line. wp_step. wp_step. wp_step; [wps; split; [by apply runs_refl|done]|].
  pose proof (next_content_le (drop (pos s) (chars s)) (pos s) (pos s) false (le_n _)) as Hle.
  rewrite length_drop in Hle. wp_step. wp_step.
  destruct (next_content _ _ _ _) as [i ls]. wp_step.
  { wps. split; [|done]. split; try done. by apply ok_set_pipe. }
  pose proof (ok_pos s H). wp_step. apply wp_text_of; [simpl; lia|]. destruct (levels_head _ _ (ok_levels s H)) as (w & r & El).
  wp_step. eapply wp_or_panic; [by rewrite El|]. wps; (split; [|done]); split; try done; repeat apply ok_set_pipe; done.
Qed.

Lemma ok_inv s : ok s -> inv s.
Proof.
  intros H. pose proof (ok_pending s H) as Hp. split; rewrite ?Hp; try done.
  by eapply ok_same.
Qed.
Lemma ok_at_line s b : ok s -> ok (set_at_line_start b s).
Proof. intros H. by eapply ok_same. Qed.
Lemma round_near s s1 : round s s1 -> near s s1.
Proof. intros R. apply steps_near, R. Qed.

(** A run that keeps the layout is a round. *)
Lemma runs_round s s' : runs s s' -> at_line_start s' = at_line_start s -> gap (chars s) (pos s) (pos s') -> round s s'.
Proof. intros R A G. split; [by apply runs_steps|apply R|done|by left]. Qed.

(** The token from [p] on, reached in a state [s1], ends in [s']. *)
Lemma round_read s s1 s' k i p : round s s1 -> p = pos s1 -> p <= pos s' ->
  token_text (chars s) (lx_file s) p (pos s') k -> read_tok s (mkTok k (place (chars s) (lx_file s) p) i) s'.
Proof.
  intros R -> Hle Ht. exists (pos s1). split; [apply R|]. split; [split; [apply (st_le _ _ (rd_steps _ _ R))|done]|]. done.
Qed.

Lemma wp_line_break s s1 : ok s -> round s s1 -> pos s1 < length (chars s1) -> cur s1 = NL ->
  wp line_break (fun r s' => match r with
                             | inl _ => round s s' /\ pos s1 < pos s' /\ chars s' = chars s1
                             | inr t => scanned s t s'
                             end) (err_post s) s1.
Proof.
  intros H R Hp Hc. pose proof (st_ok _ _ (rd_steps _ _ R)) as O1. pose proof (st_le _ _ (rd_steps _ _ R)) as Hle.
  unfold line_break. wp_step. wp_step. wp_step. apply wp_span_at; [done|pose proof (ok_start _ O1); lia|].
  wp_step. wp_step. wp_step. wp_step. assert (chars s1 !! pos s1 = Some NL) as Hnl by (by rewrite cur_lookup, Hc).
  pose proof (runs_new_line s1 O1 Hnl) as R12. change (pos (set_pos (S (pos s1)) s1)) with (S (pos s1)).
  set (s2 := new_line _ _) in *. assert (pos s2 = S (pos s1)) as P2 by done.
  assert (round s1 s2) as RD12. { apply runs_round; [done|done|]. rewrite P2. apply gap_one; [done|]. rewrite Hc. in_list. }
  assert (at_line_start s2 = at_line_start s1) as A2 by done. clearbody s2.
  assert (chars s1 = chars s /\ lx_file s1 = lx_file s) as [C1 F1] by (destruct (rd_steps _ _ R); done).
  wp_step. wp_step. wp_step. { wps. split; [by eapply round_trans|]. split; [lia|apply R12]. }
  wp_step. eapply wp_mono; [apply (wp_pipe _ (err_post s)); apply R12| |done].
  intros b s3 (R23 & P3 & A3). pose proof (runs_trans _ _ _ R12 R23) as R13. destruct b.
  { wps. split; [|split; [lia|apply R13]]. eapply round_trans; [exact R|]. apply runs_round; [done|congruence|].
    rewrite P3. apply RD12. }
  wps. set (s4 := set_at_line_start true s3). pose proof (ok_at_line s3 true (r_ok _ _ R13)) as O4.
  assert (chars s4 = chars s /\ pos s4 = S (pos s1)) as [C4 P4] by (simpl; rewrite (r_chars _ _ R13), P3, P2; done).
  assert (indents s4 = indents s) as I4 by (simpl; rewrite (r_indents _ _ R13); apply R).
  assert (pending s4 = []) as E4 by apply O4. pose proof (ok_pending s H) as Es.
  split; try done; simpl.
  - by apply ok_inv.
  - rewrite (r_file _ _ R13). done.
  - rewrite (r_nest _ _ R13). apply R.
  - rewrite C1, F1. eapply round_read; [done|done|simpl in *; lia|]. rewrite P4. apply tt_newline. by rewrite <- C1.
  - split; [|done]. unfold open_levels. by rewrite I4, E4, Es.
  - intros _. unfold work. rewrite C4, P4, I4, E4, Es. simpl. rewrite C1 in *. destruct (at_line_start s); lia.
Qed.

Lemma wp_end_of_input s s1 : ok s -> round s s1 -> length (chars s1) <= pos s1 ->
  wp end_of_input (scanned s) (err_post s) s1.
Proof.
  intros H R Hp. pose proof (st_ok _ _ (rd_steps _ _ R)) as O1. pose proof (st_le _ _ (rd_steps _ _ R)) as Hle.
  assert (chars s1 = chars s /\ lx_file s1 = lx_file s) as [C1 F1] by (destruct (rd_steps _ _ R); done).
  pose proof (ok_pos _ O1) as Hpos. pose proof (ok_pending s H) as Es. pose proof (ok_pending s1 O1) as E1.
  assert (pos s1 = length (chars s)) as P1 by (rewrite C1 in *; lia).
  unfold end_of_input. wp_step. wp_step. wp_step. apply wp_span_at; [done|pose proof (ok_start _ O1); lia|]. rewrite C1, F1.
  assert (forall s' k, ok s' -> chars s' = chars s -> lx_file s' = lx_file s -> hole_nest s' = hole_nest s -> pos s' = pos s1 ->
    k = KNewline \/ k = KDedent \/ k = KEof -> layout_post s k s' -> (k <> KEof -> work s' < work s) ->
    scanned s (mkTok k (place (chars s) (lx_file s) (pos s1)) None) s') as Hfin.
  { intros s' k O' C' F' N' P' Hk Hl Hw. split; simpl; try done.
    - by apply ok_inv.
    - eapply round_read; [done|done|lia|]. rewrite P'. apply tt_layout. destruct Hk as [-> | [-> | ->]]; auto 6.
    - intros E. apply Hw. by intros ->.
    - intros _. congruence.
    - by destruct Hk as [-> | [-> | ->]].
    - by destruct Hk as [-> | [-> | ->]]. }
  wp_step; bools.
  - wps. apply Hfin; try done; simpl; [by apply ok_at_line|apply R|auto|..].
    + unfold open_levels. simpl. by rewrite E1, Es, (rd_indents _ _ R).
    + intros _. unfold work. simpl. rewrite C1, E1, Es, (rd_indents _ _ R). simpl.
      destruct (rd_line _ _ R) as [A|[A Hlt]]; [rewrite <- A, E|destruct (at_line_start s)]; lia.
  - assert (at_line_start s = true) as A by (destruct (rd_line _ _ R) as [A|[A _]]; congruence).
    destruct (levels_head _ _ (ok_levels _ O1)) as (w & r & El). wp_step. eapply wp_or_panic; [by rewrite El|]. wp_step; bools.
    + assert (r <> []) as Hr by (eapply levels_pos; [rewrite <- El; apply O1|done]).
      wps. apply Hfin; try done; simpl; [|apply R|auto|..].
      * destruct O1. split; try done. rewrite El in *. simpl. by eapply levels_tail.
      * unfold open_levels. simpl. rewrite <- (rd_indents _ _ R), El, E1, Es. simpl. destruct r; [done|]. simpl. split; [lia|]. by split; [left|].
      * intros _. unfold work. simpl. rewrite C1, E1, Es, E, A, <- (rd_indents _ _ R), El. simpl. lia.
    + wps. apply Hfin; try done; simpl; [apply R|auto|].
      assert (w = 0) as -> by lia. split; [|done]. unfold open_levels. rewrite <- (rd_indents _ _ R), El, Es.
      pose proof (ok_levels _ O1) as Hlv. rewrite El in Hlv. destruct r; [done|]. simpl in Hlv. lia.
Qed.

Lemma layout_real s k s' : is_layout k = false -> open_levels s' = open_levels s -> at_line_start s' = false ->
  pending s' = [] -> layout_post s k s'.
Proof. by destruct k. Qed.
Lemma round_runs s s1 : round s s1 -> at_line_start s = false -> runs s s1.
Proof.
  intros [[O C F N B P] I G A] Hs. split; try done. intros _. destruct A as [A|[A _]]; congruence.
Qed.

Lemma wp_real_token n next s s1 : next_ok n next -> ok s -> round s s1 -> pos s1 < length (chars s1) ->
  cur s1 <> NL -> MAX_HOLE_NEST <= hole_nest s + n -> wp (real_token next) (scanned s) (err_post s) s1.
Proof.
  intros Hn H R Hp Hc Hm. pose proof (st_ok _ _ (rd_steps _ _ R)) as O1. pose proof (st_le _ _ (rd_steps _ _ R)) as Hle.
  assert (chars s1 = chars s /\ lx_file s1 = lx_file s) as [C1 F1] by (destruct (rd_steps _ _ R); done).
  pose proof (ok_pending s H) as Es. pose proof (ok_start _ O1) as Hls.
  unfold real_token. wp_step. wp_step. set (s2 := set_at_line_start false s1). pose proof (ok_at_line s1 false O1 : ok s2) as O2.
  wp_step. wp_step. wp_step. apply wp_span_at; [done|simpl; lia|]. wp_step. apply wp_text_of; [simpl; lia|].
  wp_step. wp_step. pose proof (runs_advance s2 O2 Hp Hc) as R23. set (s3 := set_pos _ _) in *. wp_step.
  assert (near s s3) as N3. { eapply near_trans; [by apply round_near|]. apply (near_trans _ s2); [|by apply runs_near]. destruct O1. by split. }
  eapply wp_use; [exact N3|eapply (wp_lex_kind n next s3 (pos s1)); try done; [apply R23|by rewrite (n_nest _ _ N3)|exact (cur_lookup s1 Hp)]|].
  intros k s4 (R34 & Hk & Ht). wps. pose proof (runs_trans _ _ _ R23 R34) as R24. pose proof (r_ok _ _ R34) as O4.
  assert (at_line_start s4 = false) as A4 by (by apply (r_line _ _ R24)).
  assert (chars s4 = chars s) as C4 by (rewrite (r_chars _ _ R24); done). assert (indents s4 = indents s) as I4 by (rewrite (r_indents _ _ R24); apply R).
  pose proof (r_le _ _ R34) as Hle4. change (pos s3) with (S (pos s1)) in Hle4. pose proof (ok_pos _ O4) as Hlen4. rewrite C4 in Hlen4.
  change (chars s3) with (chars s1) in Ht. change (lx_file s3) with (lx_file s1) in Ht. rewrite C1, F1 in Ht.
  assert (runs s1 s4 \/ at_line_start s1 <> false) as R14.
  { destruct (at_line_start s1) eqn:E1; [by right|left]. destruct R24. split; try done. }
  split; simpl; try done.
  - by apply ok_inv.
  - rewrite (r_file _ _ R24). done.
  - rewrite (r_nest _ _ R24). apply R.
  - change (lx_file s2) with (lx_file s1). change (chars s2) with (chars s1). rewrite C1, F1. eapply round_read; [done|done|lia|done].
  - apply layout_real; try done; [|apply O4]. unfold open_levels. by rewrite I4, Es, (ok_pending _ O4).
  - intros _. unfold work. rewrite C4, I4, Es, (ok_pending _ O4), A4. cbn [length]. destruct (at_line_start s); lia.
  - intros E. by destruct k.
  - intros _ A. pose proof (round_runs _ _ R A) as R01. destruct R14 as [R14|C]; [by eapply runs_trans|]. by destruct (C (r_line _ _ R01 A)).
  - lia.
Qed.

(** The first layout token of a line, the others queued. *)
Lemma fresh_scanned s s1 k m : ok s -> at_line_start s = true -> steps s s1 -> gap (chars s) (pos s) (pos s1) ->
  pos s1 < length (chars s) ->
  (k = KIndent /\ m = 0 /\ pos s < pos s1 /\ length (indents s1) = S (length (indents s))) \/
  (k = KDedent /\ length (indents s1) + S m = length (indents s) /\ indents s1 <> []) ->
  scanned s (mkTok k (place (chars s) (lx_file s) (pos s1)) None)
    (set_pending (repeat (mkTok KDedent (place (chars s) (lx_file s) (pos s1)) None) m) (set_at_line_start false s1)).
Proof.
  intros H A S1 G Hlt Hk. set (s2 := set_pending _ _). pose proof (st_le _ _ S1) as Hle.
  assert (chars s2 = chars s /\ lx_file s2 = lx_file s) as [C2 F2] by (destruct S1; done).
  assert (indents s <> []) as Hne by (pose proof (ok_levels _ H); by destruct (indents s)).
  assert (length (indents s) <> 0) as Hn0 by (by destruct (indents s)).
  assert (is_layout k = true) as Hlay by (by destruct Hk as [[-> _]|[-> _]]).
  assert (length (pending s2) = m) as Pm by apply repeat_length. pose proof (ok_pending s H) as Es.
  assert (pos s2 = pos s1 /\ at_line_start s2 = false /\ indents s2 = indents s1) as (P2 & A2 & I2) by done.
  assert (inv s2) as Hinv.
  { pose proof (st_ok _ _ S1) as O1. split; [|rewrite C2, F2|done]. { eapply ok_same; try done. by rewrite (ok_pending _ O1). }
    simpl. clear. induction m; simpl; by constructor. }
  assert (hole_nest s2 = hole_nest s) as N2 by apply S1. clearbody s2.
  split; try done; cbn [kind].
  - exists (pos s1). rewrite P2. split; [done|]. split; [done|]. split; [done|]. apply tt_layout. destruct Hk as [[-> _]|[-> _]]; auto.
  - destruct Hk as [(-> & -> & Hlt1 & El)|(-> & El & Hnil)]; cbn [layout_post]; unfold open_levels; rewrite I2, Pm, Es; simpl.
    + split; [lia|]. split; [done|]. split; [lia|]. split; [done|]. by destruct (pending s2).
    + assert (length (indents s1) <> 0) by (by destruct (indents s1)). split; [lia|]. split; [by left|]. congruence.
  - intros _. unfold work. rewrite C2, P2, I2, A2, A, Pm, Es. cbn [length].
    destruct Hk as [(-> & -> & Hlt1 & El)|(-> & El & Hnil)]; lia.
  - by destruct Hk as [[-> _]|[-> _]].
  - by rewrite Hlay.
  - by rewrite Hlay.
Qed.

Lemma wp_fresh_line s : ok s ->
  wp fresh_line (fun r s' => match r with Some t => scanned s t s' | None => round s s' end) (err_post s) s.
Proof.
  intros H. unfold fresh_line. wp_step. wp_step. wp_step; [|wps; by apply round_refl].
  bools. wp_step. eapply wp_mono; [by apply wp_scan_indentation| |done].
  intros [layout|] s1 (S1 & G1 & A1 & Hr); [|wps; split; [done|apply Hr|done|by left]].
  destruct Hr as (kinds & w & -> & Hls & Hw & Hlt & Hc). pose proof (st_ok _ _ S1) as O1. pose proof (st_le _ _ S1) as Hle.
  pose proof (ok_pending _ O1) as E1. inversion Hls as [Hw0 Ek Ei|Ek Ei|m Hm Ek Ei]; subst kinds; simpl.
  - wps. cbn [pending set_at_line_start]. rewrite E1. apply (fresh_scanned s s1 KIndent 0); try done. left. rewrite <- Ei. simpl. split_and!; try done; lia.
  - wps. split; [|by simpl; rewrite <- Ei|done|right; simpl; split; [done|lia]].
    destruct S1. split; try done. by apply ok_at_line.
  - destruct m as [|m]; [lia|]. cbn [repeat]. rewrite fmap_cons. cbv iota. wps. cbn [pending set_at_line_start]. rewrite E1. cbn [app].
    assert ((fun k => mkTok k (place (chars s) (lx_file s) (pos s1)) None) <$> repeat KDedent m =
      repeat (mkTok KDedent (place (chars s) (lx_file s) (pos s1)) None) m) as -> by (clear; induction m as [|m IH]; [done|]; cbn [repeat]; by rewrite fmap_cons, IH).
    apply fresh_scanned; try done. right. rewrite <- Ei, length_drop. split; [done|]. split; [lia|].
    intros Hd. apply (f_equal length) in Hd. rewrite length_drop in Hd. simpl in Hd. lia.
Qed.

(** A token found in a later round. *)
Lemma round_scanned s s1 t s' : ok s -> ok s1 -> round s s1 -> pos s < pos s1 -> scanned s1 t s' -> scanned s t s'.
Proof.
  intros H O1 R Hlt [Hinv C F N Hrd Hl Hw He Hr Hm]. pose proof (ok_pending _ H) as Es. pose proof (ok_pending _ O1) as E1.
  destruct (rd_steps _ _ R) as [_ C1 F1 N1 B1 P1]. pose proof (ok_pos _ O1) as Hlen. rewrite C1 in *. rewrite F1 in *.
  assert (open_levels s1 = open_levels s) as EO by (unfold open_levels; by rewrite E1, Es, (rd_indents _ _ R)).
  assert (at_line_start s1 = true -> at_line_start s = true) as EA.
  { destruct (rd_line _ _ R) as [A|[A _]]; congruence. }
  split; try done.
  - congruence.
  - destruct Hrd as (p & Hg & Hp & Hsp & Ht). exists p. rewrite C1, F1 in *. split; [eapply gap_trans; [apply R|done]|]. split; [lia|done].
  - destruct (kind t); cbn [layout_post] in *; rewrite ?EO, ?C1 in Hl; try done; split_and!; try apply Hl; try (apply EA, Hl); try lia.
    destruct Hl as (_ & [A|A] & _); [left; auto|done].
  - intros E. specialize (Hw E). unfold work in *. rewrite C1, E1, Es, (rd_indents _ _ R) in *.
    destruct (at_line_start s1), (at_line_start s); lia.
  - intros E A. eapply runs_trans; [by apply round_runs|]. apply Hr; [done|]. by apply (r_line _ _ (round_runs _ _ R A)).
  - intros E. specialize (Hm E). lia.
Qed.

Lemma wp_scan_round n next s s1 : next_ok n next -> ok s -> round s s1 -> s1 = s \/ pos s < pos s1 ->
  MAX_HOLE_NEST <= hole_nest s + n ->
  wp (scan_round next tt) (fun r s' => match r with
    | inl _ => (round s s' /\ (s' = s \/ pos s < pos s')) /\ pos s1 < pos s' /\ chars s' = chars s1
    | inr t => scanned s t s'
    end) (err_post s) s1.
Proof.
  intros Hn H R Hs Hm. pose proof (st_ok _ _ (rd_steps _ _ R)) as O1. pose proof (st_le _ _ (rd_steps _ _ R)) as Hle.
  unfold scan_round. wp_step. eapply wp_use; [by apply round_near|by apply wp_fresh_line|].
  intros [t|] s2 H2. { wps. destruct Hs as [-> | Hlt]; [done|]. by eapply round_scanned. }
  wp_step. pose proof (round_trans _ _ _ R H2) as R02. pose proof (st_ok _ _ (rd_steps _ _ R02)) as O2.
  eapply wp_use; [by apply round_near|by apply wp_skip_inline|].
  intros [] s3 (R23 & G3 & A3 & Hc). pose proof (round_trans _ _ _ R02 (runs_round _ _ R23 A3 G3)) as R03.
  pose proof (st_le _ _ (rd_steps _ _ H2)) as Hle12. pose proof (r_le _ _ R23) as Hle23.
  assert (chars s3 = chars s1) as C3 by (rewrite (r_chars _ _ R23); apply H2).
  wp_step. wp_step. wp_step; bools.
  { wp_step. eapply wp_mono; [by apply (wp_end_of_input s s3)| |done]. intros t s4 H4. by wps. }
  wp_step. wp_step. wp_step; bools.
  - eapply wp_mono; [by apply (wp_line_break s s3)| |done]. intros [[]|t] s4 H4; [|done]. destruct H4 as (R04 & P4 & C4).
    split; [split; [done|right; lia]|]. split; [lia|congruence].
  - wp_step. eapply wp_mono; [by apply (wp_real_token n next s s3)| |done]. intros t s4 H4. by wps.
Qed.

(** [scan_token]: a queued token or a scanned one. *)
Lemma wp_scan_token n next s : next_ok n next -> inv s -> MAX_HOLE_NEST <= hole_nest s + n ->
  wp (scan_token next) (scanned s) (err_post s) s.
Proof.
  intros Hn Hi Hm. unfold scan_token. wp_step. wp_step. destruct (pending s) as [|t more] eqn:Ep.
  - assert (ok s) as H by (by apply (ok_same (set_pending [] s)); [apply Hi|..]).
    eapply (wp_forever _ (fun _ s1 => round s s1 /\ (s1 = s \/ pos s < pos s1))).
    { split; [by apply round_refl|by left]. }
    intros [] s1 [R Hs]. split; [apply ok_pos, (rd_steps _ _ R)|]. by apply (wp_scan_round n).
  - wps. destruct Hi as [Ho Hq Hl]. rewrite Ep in *. apply Forall_cons_1 in Hq as [-> Hq]. specialize (Hl ltac:(done)).
    assert (indents s <> []) as Hne by (pose proof (ok_levels _ Ho) as Hv; simpl in Hv; by destruct (indents s)).
    split; try done; simpl.
    + exists (pos s). simpl. split; [constructor|]. split; [done|]. split; [done|]. apply tt_layout. auto.
    + unfold open_levels. simpl. rewrite Ep. simpl. split; [lia|]. split; [by right|congruence].
    + intros _. unfold work. simpl. rewrite Ep. simpl. lia.
Qed.

Lemma scanned_operand s t s' b : scanned s t s' -> scanned s t (set_operand b s').
Proof.
  intros [Hinv C F N Hrd Hl Hw He Hr Hm]. split; try done.
  - destruct Hinv as [Ho Hq Hln]. split; try done. by eapply ok_same.
  - intros E A. destruct (Hr E A). split; try done. by eapply ok_same.
Qed.

Lemma wp_next_token n s : inv s -> MAX_HOLE_NEST <= hole_nest s + n ->
  wp (next_token_at n) (scanned s) (err_post s) s.
Proof.
  revert s. induction n as [|n IH]; intros s Hi Hm; cbn [next_token_at]; wp_step.
  - eapply wp_mono; [apply (wp_scan_token 0); [|done|done]| |done]; [intros s1 _ _ Hlt; lia|].
    intros t s' H. wps. by apply scanned_operand.
  - eapply wp_mono; [apply (wp_scan_token (S n)); [|done|done]| |done]; [|intros t s' H; wps; by apply scanned_operand].
    intros s1 O1 A1 Hlt. eapply wp_mono; [apply IH; [by apply ok_inv|lia]| |done].
    intros t s' Hs. unfold next_post. destruct (is_layout (kind t)) eqn:El.
    + destruct Hs as [[Ho _ _] C F N (p & _ & Hp & _) _ _ _ _ _]. split; try done.
      * rewrite <- C. apply (ok_pos _ Ho).
      * intros sp E. by apply (ok_comment _ Ho).
    + split; [by apply (sc_runs _ _ _ Hs)|]. split; [by apply (sc_moves _ _ _ Hs)|apply Hs].
Qed.

Lemma blocks_step s st t s' ks : scanned s t s' -> line_rel st s -> is_tok KEof (kind t) = false ->
  (forall st', line_rel st' s' -> blocks_ok (open_levels s') st' ks = true) ->
  blocks_ok (open_levels s) st (kind t :: ks) = true.
Proof.
  intros Hs Hr He Hks. pose proof (sc_layout _ _ _ Hs) as Hl. pose proof (sc_chars _ _ _ Hs) as C.
  destruct (kind t) eqn:Ek; cbn [layout_post blocks_ok] in *; try done;
    try (destruct Hl as (EO & A & P); rewrite <- EO; by apply Hks).
  - destruct Hl as (EO & A & P & A' & P'). destruct st; simpl in Hr.
    + rewrite <- EO. by apply Hks.
    + destruct Hr. congruence.
    + specialize (Hr A). lia.
    + destruct Hr. congruence.
  - destruct Hl as (EO & A & P). rewrite <- EO.
    assert (blocks_ok (open_levels s') Closed ks = true) as HC by (apply Hks; intros A'; by rewrite C, P).
    destruct st; simpl in Hr; try done; destruct Hr as [A1 P1]; destruct A; congruence.
Qed.

Definition drive_post (s : Lexer) (rest : list Tok) : Prop :=
  tiles (chars s) (lx_file s) (pos s) (length (chars s)) rest /\
  forall st, line_rel st s -> blocks_ok (open_levels s) st (kind <$> rest) = true.

Lemma scanned_near s t s' : scanned s t s' -> near s s'.
Proof.
  intros Hs. destruct (sc_inv _ _ _ Hs) as [Ho _ _]. pose proof (sc_chars _ _ _ Hs) as C.
  split; try done; [apply Hs|apply Hs|rewrite <- C; apply (ok_pos _ Ho)|]. intros x E. by apply (ok_comment _ Ho).
Qed.

Lemma drive_loop n s tokens : inv s -> hole_nest s = 0 -> work s < n ->
  wp (rounds n (fun tokens => tok ← next_token;
       if is_tok KEof (kind tok) then mret (inr (tokens ++ [tok])) else mret (inl (tokens ++ [tok]))) tokens)
    (fun toks _ => exists rest, toks = tokens ++ rest /\ drive_post s rest) (err_post s) s.
Proof.
  revert s tokens. induction n as [|n IH]; intros s tokens Hi Hn Hw; [lia|]. cbn [rounds]. wp_step. wp_step.
  eapply wp_mono; [apply wp_next_token; [done|rewrite Hn; apply le_n]| |done].
  intros t s1 Hs. destruct (sc_read _ _ _ Hs) as (p & Hg & Hp & Hsp & Ht). destruct t as [k sp i]. cbn [kind span] in *. subst sp.
  destruct (is_tok KEof k) eqn:Ek; cbv iota.
  - wps. eexists. split; [done|]. assert (k = KEof) as -> by (unfold is_tok in Ek; apply Z.eqb_eq in Ek; by destruct k).
    split.
    + eapply tiles_tok; [done|apply Hp|done|]. rewrite (sc_eof _ _ _ Hs) by done. apply tiles_end. constructor.
    + intros st Hst. destruct (sc_layout _ _ _ Hs) as [EO A]. cbn [blocks_ok fmap list_fmap kind]. rewrite EO. simpl.
      destruct st; try done; simpl in Hst; destruct Hst; congruence.
  - wp_step. pose proof (sc_work _ _ _ Hs Ek) as Hlt. pose proof (sc_chars _ _ _ Hs) as C1. pose proof (sc_file _ _ _ Hs) as F1.
    eapply wp_use; [by eapply scanned_near|apply IH; [apply Hs|rewrite (sc_nest _ _ _ Hs); done|lia]|].
    intros toks s2 (rest & -> & Ht' & Hb). rewrite C1, F1 in *. eexists. split; [by rewrite <- app_assoc|]. split.
    + eapply tiles_tok; [done|apply Hp|done|done].
    + intros st Hst. by eapply (blocks_step s st _ s1).
Qed.

Lemma new_file_ok source file : ok (new_file source file).
Proof.
  split; simpl; try done; [lia|]. intros p Hp. replace p with 0 by lia. unfold locate. by rewrite take_0.
Qed.

Lemma tokenize_spec source file :
  wp (toks ← drive; docs ← gets doc_comments; mret (toks, docs))
    (fun r _ => drive_post (new_file source file) r.1) (err_post (new_file source file)) (new_file source file).
Proof.
  pose proof (ok_inv _ (new_file_ok source file)) as Hi. wp_step.
  eapply wp_mono; [apply (drive_loop _ (new_file source file) []); [done|done|]| |done].
  - unfold work. cbn [chars pos new_file pending indents at_line_start length]. lia.
  - intros toks s1 (rest & -> & H). wps. done.
Qed.

(** C14: the lexer always returns. Whatever the text and whatever the Unicode tables say beyond
    ASCII, tokenizing ends with tokens or with an error: no loop spins, no index or subtraction
    goes out of range, and the recursion through holes stays within [MAX_HOLE_NEST]. An error
    carries the line and column of a character of the source, or of its end. *)
Theorem lex_total (source : list Z) (file : Z) :
  match tokenize_with_comments source file with
  | Ret _ _ => True
  | Fail e _ => exists p, p <= length (source_chars source) /\
      err_line e = line (place (source_chars source) file p) /\ err_col e = col (place (source_chars source) file p)
  | Panic | Spin => False
  end.
Proof.
  pose proof (tokenize_spec source file) as H. unfold wp, tokenize_with_comments in *.
  by destruct ((drive ≫= _) (new_file source file)); [|apply H|..].
Qed.

(** C4: the tokens are the source. When tokenizing succeeds, the text is exactly the tokens with
    gaps of white space, comments and line breaks between them: each token carries the line and
    column of its first character and spells its text (an operator its lexeme, a word its
    characters, an int the value of its digits within [i64], a raw or byte literal its contents, a
    [str] literal its text with the escapes resolved), and the tokens of a hole, down to the fields
    of its format spec, tile the characters between its braces in the same way. *)
Theorem lex_reads (source : list Z) (file : Z) toks docs s' :
  tokenize_with_comments source file = Ret (toks, docs) s' ->
  tiles (source_chars source) file 0 (length (source_chars source)) toks.
Proof.
  intros E. pose proof (tokenize_spec source file) as H. unfold wp, tokenize_with_comments in *.
  rewrite E in H. apply H.
Qed.

(** C15: blocks open and close in step. In the tokens of any file an [Indent] comes only at the
    start of a line, [Dedent]s only at the start of a line or after a [Dedent] and never more than
    there are open blocks, a line that holds a token ends in a [Newline], and the one [Eof] comes
    last, at the start of a line, when every block is closed. *)
Theorem lex_blocks (source : list Z) (file : Z) toks docs s' :
  tokenize_with_comments source file = Ret (toks, docs) s' -> blocks_ok 0 Fresh (kind <$> toks) = true.
Proof.
  intros E. pose proof (tokenize_spec source file) as H. unfold wp, tokenize_with_comments in *.
  rewrite E in H. destruct H as [_ H]. by apply (H Fresh).
Qed.
End scanner.

(** ** A source *)
Module LexDemo.
(** Tables that know ASCII only. *)
#[export] Instance ascii_tables : CharTables := {|
  is_alphabetic := is_ascii_letter;
  is_numeric := is_ascii_digit;
  is_whitespace := fun c => between 9 c 13 || (c =? 32)%Z;
  debug_char := show_char;
|}.
#[export] Instance ascii_laws : CharLaws ascii_tables.
Proof. by split. Qed.

Definition NLS : string := String.String (ascii_of_nat 10) EmptyString.
Definition QUOTE : string := String.String (ascii_of_nat 34) EmptyString.
(** A function whose body interpolates a value with a width. *)
Definition source : list Z :=
  text ("fn f(x: int):" +:+ NLS +:+ "    return " +:+ QUOTE +:+ "a{x + 0x_ff:>{w}}z" +:+ QUOTE +:+ " # b" +:+ NLS).
Definition lexed : list Tok * list (nat * list Z) * Lexer :=
  match tokenize_with_comments source 1 with Ret a s => (a, s) | _ => ([], [], new_file [] 0) end.
Lemma lexed_eq : tokenize_with_comments source 1 = Ret (lexed.1.1, lexed.1.2) lexed.2.
Proof. vm_compute. reflexivity. Qed.

(** A string that the line's end cuts off. *)
Definition bad : list Z := text ("x" +:+ NLS +:+ "y = " +:+ QUOTE +:+ "a" +:+ NLS).
Lemma bad_eq : exists e s, tokenize_with_comments bad 1 = Fail e s /\ err_line e = 2%Z.
Proof. eexists _, _. split; [vm_compute; reflexivity|reflexivity]. Qed.

(** A line that holds a lone carriage return counts as content: two line breaks in a row. *)
Example cr_line_newline : exists s, tokenize [97; 10; 13; 13; 10; 98]%Z = Ret (A := list Tok)
  [mkTok (KIdent [97%Z]) (mkSpan 1 1 0) (Some 0%Z); mkTok KNewline (mkSpan 1 2 0) None;
   mkTok KNewline (mkSpan 2 2 0) None; mkTok (KIdent [98%Z]) (mkSpan 3 1 0) (Some 0%Z);
   mkTok KNewline (mkSpan 3 2 0) None; mkTok KEof (mkSpan 3 2 0) None] s.
Proof. eexists. vm_compute. reflexivity. Qed.
End LexDemo.

Lemma lex_total_witness : exists e s,
  tokenize_with_comments (T := LexDemo.ascii_tables) LexDemo.bad 1 = Fail e s /\ err_line e = 2%Z /\
  exists p, p <= length (source_chars LexDemo.bad) /\
    err_line e = line (place (source_chars LexDemo.bad) 1 p) /\
    err_col e = col (place (source_chars LexDemo.bad) 1 p).
Proof.
  pose proof (@lex_total LexDemo.ascii_tables LexDemo.ascii_laws LexDemo.bad 1) as H.
  destruct LexDemo.bad_eq as (e & s & E & L). rewrite E in H. exists e, s.
  split; [exact E|]. split; [exact L|exact H].
Defined.
Lemma lex_reads_witness :
  tiles (source_chars LexDemo.source) 1 0 (length (source_chars LexDemo.source)) LexDemo.lexed.1.1.
Proof. exact (@lex_reads LexDemo.ascii_tables LexDemo.ascii_laws LexDemo.source 1 _ _ _ LexDemo.lexed_eq). Defined.
Lemma lex_blocks_witness : length LexDemo.lexed.1.1 = 15 /\ blocks_ok 0 Fresh (kind <$> LexDemo.lexed.1.1) = true.
Proof.
  split; [vm_compute; reflexivity|].
  exact (@lex_blocks LexDemo.ascii_tables LexDemo.ascii_laws LexDemo.source 1 _ _ _ LexDemo.lexed_eq).
Defined.
