(* ===== verification/Decimal.v ===== *)
(** * Numbers as text

    What the program uses of Rust's number formatting: integers in a radix, and the four ways a
    float is printed: [{}] and [{:e}] (the shortest digits that name the float), [{:.p}] and
    [{:.pe}] (exact, rounded half to even).  The shortest digits follow the standard library's
    digit generation: one decimal digit at a time until what is left is inside the rounding
    interval of the float.

    The theorems: a digit sequence reads back as its number; a decimal inside the rounding interval
    of a float is read as that float ([round_dec_near]); the digit generation ends within its
    buffer of 17 digits and stays inside the interval ([shortest_spec]). *)

From Stdlib Require Import SpecFloat Ascii.
From stdpp Require Import strings.
From S2P Require Import Prelude Slice Token Lexer.
Import F64.
Local Open Scope Z_scope.
Local Open Scope chz_scope.

(** ** Digits *)
Fixpoint to_digits_go (fuel : nat) (b n : Z) (acc : list Z) : list Z :=
  match fuel with
  | O => acc
  | S k => let acc := n mod b :: acc in if n <? b then acc else to_digits_go k b (n / b) acc
  end.
(** The digits of [n] in base [b], the most significant first; one digit for 0. *)
Definition to_digits (b n : Z) : list Z := to_digits_go (S (Z.to_nat (Z.log2 n))) b n [].
Definition of_digits (b : Z) (ds : list Z) : Z := fold_left (fun v d => v * b + d) ds 0.
Definition digit_char (d : Z) : Z := if d <? 10 then 48 + d else 87 + d.
Definition digit_CHAR (d : Z) : Z := if d <? 10 then 48 + d else 55 + d.
(** [{n}] of an unsigned integer; [{n}] of a signed one. *)
Definition show_uint (n : Z) : list Z := digit_char <$> to_digits 10 n.
Definition show_int (n : Z) : list Z := if n <? 0 then ch "-" :: show_uint (- n) else show_uint n.
Definition zeros (n : Z) : list Z := replicate (Z.to_nat n) (ch "0").
Definition ndigits (n : Z) : Z := if n =? 0 then 0 else Z.of_nat (length (to_digits 10 n)).

(** ** Ratios *)
(** [round_half_even a b]: [a / b] to the nearest integer, to even on a tie. *)
Definition round_half_even (a b : Z) : Z :=
  let q := a / b in
  match 2 * (a mod b) ?= b with Lt => q | Eq => if Z.even q then q else q + 1 | Gt => q + 1 end.
(** [a / b] times [2^e], or times [10^k], as a ratio. *)
Definition scale2 (e : Z) (r : Z * Z) : Z * Z := (r.1 * 2 ^ Z.max e 0, r.2 * 2 ^ Z.max (- e) 0).
Definition scale10 (k : Z) (r : Z * Z) : Z * Z := (r.1 * 10 ^ Z.max k 0, r.2 * 10 ^ Z.max (- k) 0).
(** The [K] with [10^(K-1) <= a/b < 10^K]. *)
Definition dec_exp (r : Z * Z) : Z :=
  let '(a, b) := r in if b <=? a then ndigits (a / b) else 1 - ndigits ((b - 1) / a).

(** ** The shortest digits *)
(** [core::num::flt2dec::decode]: the mantissa, the distances to the ends of the rounding interval,
    their common exponent, and whether the ends belong to the interval.  At the lowest mantissa the
    neighbour below is half as far. *)
Definition decode (m e : Z) : Z * Z * Z * Z * bool :=
  if m =? 2 ^ 52 then (4 * m, 1, 2, e - 2, Z.even m) else (2 * m, 1, 1, e - 1, Z.even m).

(** The digits of [r] after [i] places below [10^K], if what is left falls inside the interval. *)
Definition shortest_at (mant minus plus ex : Z) (incl : bool) (K i : Z) : option Z :=
  let '(u, w) := scale10 (i - K) (scale2 ex (1, 1)) in
  let q := mant * u / w in
  let rem := (mant * u) mod w in
  let down := if incl then rem <=? minus * u else rem <? minus * u in
  let up := if incl then w <=? rem + plus * u else w <? rem + plus * u in
  if down || up then Some (if up && (negb down || (w <=? 2 * rem)) then q + 1 else q) else None.
Fixpoint shortest_loop (fuel : nat) (mant minus plus ex : Z) (incl : bool) (K i : Z) : option (Z * Z) :=
  match fuel with
  | O => None
  | S k => match shortest_at mant minus plus ex incl K i with
           | Some n => Some (n, i)
           | None => shortest_loop k mant minus plus ex incl K (i + 1)
           end
  end.
(** The first place: [10^(K-1) < v + plus <= 10^K], or [<=], [<] when the ends belong. *)
Definition first_place (mant plus ex : Z) (incl : bool) : Z :=
  let r := scale2 ex (mant + plus, 1) in
  let K := dec_exp r in
  let '(a, b) := scale10 (1 - K) r in
  if negb incl && (a =? b) then K - 1 else K.
(** [MAX_SIG_DIGITS], the buffer of the digit generation. *)
Definition MAX_SIG_DIGITS : nat := 17.
(** [(n, e)]: the decimal [n * 10^e]. *)
Definition shortest (m e : Z) : option (Z * Z) :=
  let '(mant, minus, plus, ex, incl) := decode m e in
  let K := first_place mant plus ex incl in
  match shortest_loop MAX_SIG_DIGITS mant minus plus ex incl K 1 with
  | Some (n, i) => Some (n, K - i)
  | None => None
  end.

(** ** Layout *)
(** The digits [ds], with the point [k] places before their end. *)
Definition layout_fixed (ds : list Z) (k : Z) : list Z :=
  let ds := zeros (k + 1 - Z.of_nat (length ds)) ++ ds in
  let cut := (length ds - Z.to_nat k)%nat in
  if k <=? 0 then ds ++ zeros (- k) else take cut ds ++ ch "." :: drop cut ds.
(** The digits [ds] as one digit, a fraction, and the exponent [e] of the first digit. *)
Definition layout_exp (ds : list Z) (e : Z) : list Z :=
  match ds with
  | d :: ((_ :: _) as frac) => d :: ch "." :: frac
  | _ => ds
  end ++ ch "e" :: show_int e.

(** Rust's sign: [-] for a negative float, zero included. *)
Definition float_sign (s : bool) : list Z := if s then [ch "-"] else [].
Definition INF : list Z := text "inf".
Definition NAN : list Z := text "NaN".
(** [{x}]. *)
Definition fmt_display (x : f64) : list Z :=
  match x with
  | S754_nan => NAN
  | S754_infinity s => float_sign s ++ INF
  | S754_zero s => float_sign s ++ [ch "0"]
  | S754_finite s m e =>
      float_sign s ++ match shortest (Zpos m) e with
                      | Some (n, q) => layout_fixed (show_uint n) (- q)
                      | None => []
                      end
  end.
(** [{x:e}]. *)
Definition fmt_exp (x : f64) : list Z :=
  match x with
  | S754_nan => NAN
  | S754_infinity s => float_sign s ++ INF
  | S754_zero s => float_sign s ++ text "0e0"
  | S754_finite s m e =>
      float_sign s ++ match shortest (Zpos m) e with
                      | Some (n, q) => layout_exp (show_uint n) (q + ndigits n - 1)
                      | None => []
                      end
  end.
(** [{x:.p}]. *)
Definition fmt_fixed (p : Z) (x : f64) : list Z :=
  match x with
  | S754_nan => NAN
  | S754_infinity s => float_sign s ++ INF
  | S754_zero s => float_sign s ++ layout_fixed [ch "0"] p
  | S754_finite s m e =>
      let '(a, b) := scale10 p (scale2 e (Zpos m, 1)) in
      float_sign s ++ layout_fixed (show_uint (round_half_even a b)) p
  end.
(** [{x:.pe}]: [p + 1] digits, one more place when the rounding carries. *)
Definition sci_digits (p m e : Z) : Z * Z :=
  let r := scale2 e (m, 1) in
  let K := dec_exp r in
  let '(a, b) := scale10 (p + 1 - K) r in
  let n := round_half_even a b in
  if n =? 10 ^ (p + 1) then (10 ^ p, K) else (n, K - 1).
Definition fmt_sci (p : Z) (x : f64) : list Z :=
  match x with
  | S754_nan => NAN
  | S754_infinity s => float_sign s ++ INF
  | S754_zero s => float_sign s ++ layout_exp (zeros (p + 1)) 0
  | S754_finite s m e =>
      let '(n, k) := sci_digits p (Zpos m) e in float_sign s ++ layout_exp (show_uint n) k
  end.

(** ** Rounding to a double *)
(** [m] is the floor of [num / den], and [r], [s] say where in its unit the ratio lies. *)
Definition located (m : Z) (r s : bool) (num den : Z) : Prop :=
  0 <= m /\
  match r, s with
  | false, false => num = m * den
  | false, true => m * den < num /\ 2 * num < (2 * m + 1) * den
  | true, false => 2 * num = (2 * m + 1) * den
  | true, true => (2 * m + 1) * den < 2 * num /\ num < (m + 1) * den
  end.

Lemma located_floor m r s num den : 0 < den -> located m r s num den -> m * den <= num < (m + 1) * den.
Proof. intros Hd [Hm H]. rewrite Z.mul_add_distr_r. destruct r, s; rewrite ?Z.mul_add_distr_r, <- ?Z.mul_assoc in H; lia. Qed.

Lemma shr_1_located m r s num den : 0 < den -> located m r s num den ->
  exists m' r' s', shr_1 (Build_shr_record m r s) = Build_shr_record m' r' s' /\ located m' r' s' num (den * 2).
Proof.
  intros Hd [Hm H]. destruct m as [|p|p]; [| |lia]; [eexists _, _, _; split; [reflexivity|split; [lia|]]; destruct r, s; simpl; lia|].
  destruct p as [p|p|]; (eexists _, _, _; split; [reflexivity|split; [lia|]]); destruct r, s; simpl; nia.
Qed.

Lemma shr_iter_located p : forall m r s num den, 0 < den -> located m r s num den ->
  exists m' r' s', SpecFloat.iter_pos shr_1 p (Build_shr_record m r s) = Build_shr_record m' r' s' /\
                   located m' r' s' num (den * 2 ^ Zpos p).
Proof.
  induction p as [p IH|p IH|]; intros m r s num den Hd H; cbn [SpecFloat.iter_pos].
  - destruct (shr_1_located _ _ _ _ _ Hd H) as (m1 & r1 & s1 & -> & H1).
    destruct (IH _ _ _ num (den * 2) ltac:(lia) H1) as (m2 & r2 & s2 & -> & H2).
    destruct (IH _ _ _ num (den * 2 * 2 ^ Zpos p) ltac:(lia) H2) as (m3 & r3 & s3 & -> & H3). eexists _, _, _. split; [done|].
    replace (den * 2 ^ Zpos p~1) with (den * 2 * 2 ^ Zpos p * 2 ^ Zpos p); [done|].
    replace (Zpos p~1) with (1 + (Zpos p + Zpos p)) by lia. rewrite !Z.pow_add_r by lia. lia.
  - destruct (IH _ _ _ _ _ Hd H) as (m2 & r2 & s2 & -> & H2).
    destruct (IH _ _ _ num (den * 2 ^ Zpos p) ltac:(lia) H2) as (m3 & r3 & s3 & -> & H3). eexists _, _, _. split; [done|].
    replace (den * 2 ^ Zpos p~0) with (den * 2 ^ Zpos p * 2 ^ Zpos p); [done|].
    replace (Zpos p~0) with (Zpos p + Zpos p) by lia. rewrite !Z.pow_add_r by lia. lia.
  - by apply shr_1_located.
Qed.

Definition loc_at (q : Z) (loc : location) (num den : Z) : Prop :=
  let rec := shr_record_of_loc q loc in located (shr_m rec) (shr_r rec) (shr_s rec) num den.

Lemma shr_fexp_located q ex loc num den e :
  0 < den -> loc_at q loc num den -> fexp prec emax (Zdigits2 q + ex) = e -> ex <= e ->
  exists m r s, shr_fexp prec emax q ex loc = (Build_shr_record m r s, e) /\ located m r s num (den * 2 ^ (e - ex)).
Proof.
  intros Hd H He Hle. unfold shr_fexp, loc_at in *. rewrite He. destruct (shr_record_of_loc q loc) as [m r s] eqn:E. cbn [shr_m shr_r shr_s] in H.
  destruct (e - ex) as [|p|p] eqn:Ep; [| |lia]; cbn [shr].
  - replace e with ex by lia. eexists _, _, _. split; [done|]. by rewrite Z.pow_0_r, Z.mul_1_r.
  - destruct (shr_iter_located p _ _ _ _ _ Hd H) as (m' & r' & s' & -> & H').
    eexists _, _, _. split; [|exact H']. f_equal. lia.
Qed.

Lemma zdigits_log2 q : 0 < q -> Zdigits2 q = Z.log2 q + 1.
Proof. destruct q as [|p|p]; [lia| |lia]. intros _. apply digits_log2. Qed.
Lemma zdigits_bounds q : 0 < q -> 2 ^ (Zdigits2 q - 1) <= q < 2 ^ Zdigits2 q.
Proof. intros H. rewrite zdigits_log2 by done. pose proof (Z.log2_spec q H). replace (Z.log2 q + 1 - 1) with (Z.log2 q) by lia. done. Qed.
Lemma zdigits_unique q k : 0 <= k -> 2 ^ (k - 1) <= q < 2 ^ k -> 0 < q -> Zdigits2 q = k.
Proof.
  intros Hk H Hq. rewrite zdigits_log2 by done. enough (Z.log2 q = k - 1) by lia. apply Z.log2_unique; [|by rewrite <- Z.add_1_r, Z.sub_add].
  destruct (Z.eq_dec k 0) as [->|]; [simpl in H; lia|lia].
Qed.

Lemma fexp_eq k : fexp prec emax k = Z.max (k - 53) (-1074).
Proof. reflexivity. Qed.

Lemma float_ok_inv s m e : float_ok (S754_finite s m e) ->
  Z.max (Zdigits2 (Zpos m) + e - 53) (-1074) = e /\ e <= 971.
Proof.
  unfold float_ok, valid_binary, bounded, canonical_mantissa. intros [Hc%Z.eqb_eq Hb%Z.leb_le]%andb_prop.
  rewrite fexp_eq in Hc. split; [exact Hc|exact Hb].
Qed.

(** [num / D] is in the rounding interval of the mantissa [m] at exponent [e]: half a unit either
    way, a quarter below the lowest mantissa, the ends only for an even mantissa. *)
Definition near (m e num D : Z) : Prop :=
  (2 * m - 1) * D <= 2 * num <= (2 * m + 1) * D /\
  (Z.even m = false -> (2 * m - 1) * D < 2 * num < (2 * m + 1) * D) /\
  (m = 2 ^ 52 -> -1074 < e -> (4 * m - 1) * D <= 4 * num).

(** Rounding the located floor gives the one integer whose interval holds the ratio. *)
Lemma round_even_near z num D m r t :
  0 < D -> (2 * z - 1) * D <= 2 * num <= (2 * z + 1) * D ->
  (Z.even z = false -> (2 * z - 1) * D < 2 * num < (2 * z + 1) * D) -> located m r t num D ->
  round_nearest_even m (loc_of_shr_record (Build_shr_record m r t)) = z.
Proof.
  intros HD Hn Ho Hl. pose proof (located_floor _ _ _ _ _ HD Hl) as Hf. destruct Hl as [Hm Hl].
  assert (Hm' : m = z \/ m = z - 1) by nia.
  destruct Hm' as [->| ->]; destruct r, t; cbn [loc_of_shr_record round_nearest_even]; try nia.
  - destruct (Z.even z) eqn:E; [done|]. specialize (Ho eq_refl). nia.
  - destruct (Z.even z) eqn:E; [|specialize (Ho eq_refl); nia].
    rewrite Z.even_sub, E. cbn [Z.even eqb]. lia.
Qed.

(** The floor [q] of the ratio has the magnitude of the mantissa, or falls below the lowest one. *)
Lemma near_magnitude s m e q ex num den :
  float_ok (S754_finite s m e) -> 0 < den -> q * den <= num < (q + 1) * den -> 0 <= q -> ex <= e ->
  ex <= fexp prec emax (Zdigits2 q + ex) -> near (Zpos m) e num (den * 2 ^ (e - ex)) ->
  fexp prec emax (Zdigits2 q + ex) = e \/
  (Zpos m = 2 ^ 52 /\ -1074 < e /\ num < Zpos m * (den * 2 ^ (e - ex)) /\ fexp prec emax (Zdigits2 q + ex) = e - 1).
Proof.
  intros Hok Hd Hq Hq0 Hex Hfx (Hn & Ho & Hb). apply float_ok_inv in Hok as [Hc He].
  set (M := Zpos m) in *. assert (HM : 0 < M) by (unfold M; lia). pose proof (zdigits_bounds M HM) as Hmd.
  set (k := Zdigits2 M) in *. assert (Hk : 1 <= k) by (unfold k; rewrite zdigits_log2 by done; pose proof (Z.log2_nonneg M); lia).
  set (d := e - ex) in *. assert (Hd0 : 0 <= d) by lia.
  assert (Hp : 0 < 2 ^ d) by lia. rewrite !fexp_eq in *.
  assert (Hup : q < 2 ^ (k + d)).
  { rewrite Z.pow_add_r by lia. assert (2 * num < 2 * 2 ^ k * (den * 2 ^ d)) by nia. nia. }
  assert (Hqd : Zdigits2 q <= k + d).
  { destruct (Z.eq_dec q 0) as [->|]; [simpl; lia|]. rewrite zdigits_log2 by lia. enough (Z.log2 q < k + d) by lia. apply Z.log2_lt_pow2; lia. }
  destruct (Z.eq_dec e (-1074)) as [->|Hne]; [left; lia|]. assert (k = 53) as Hk53 by lia.
  destruct (Z.le_gt_cases (2 ^ (52 + d)) q) as [Hlo|Hlo].
  { left. enough (Zdigits2 q = 53 + d) by lia. apply zdigits_unique; [lia| |lia].
    replace (53 + d - 1) with (52 + d) by lia. by rewrite <- Hk53. }
  right. rewrite Z.pow_add_r in Hlo by lia.
  assert (num < 2 ^ 52 * (den * 2 ^ d)) by nia.
  replace (k - 1) with 52 in Hmd by lia.
  assert (M = 2 ^ 52) as HM52 by nia. specialize (Hb HM52 ltac:(lia)).
  split; [done|]. split; [lia|]. split; [nia|].
  assert (Zdigits2 q <= 52 + d).
  { destruct (Z.eq_dec q 0) as [->|]; [simpl; lia|]. rewrite zdigits_log2 by lia. enough (Z.log2 q < 52 + d) by lia.
    apply Z.log2_lt_pow2; [lia|]. by rewrite Z.pow_add_r by lia. }
  assert (1 <= d) by lia.
  enough (Zdigits2 q = 52 + d) by lia. apply zdigits_unique; [lia| |].
  - replace (52 + d - 1) with (51 + d) by lia. rewrite !Z.pow_add_r by lia.
    split; [|lia]. assert (2 * 2 ^ 51 * (den * 2 ^ d) <= 2 * num) by lia. nia.
  - nia.
Qed.

Lemma shr_fexp_canonical s m e : float_ok (S754_finite s m e) ->
  shr_fexp prec emax (Zpos m) e loc_Exact = (Build_shr_record (Zpos m) false false, e).
Proof.
  intros [Hc _]%float_ok_inv. unfold shr_fexp. cbn [shr_record_of_loc]. by rewrite fexp_eq, Hc, Z.sub_diag.
Qed.

(** Rounding any ratio inside the interval of a float gives the float. *)
Lemma round_aux_near s m e q ex loc num den :
  float_ok (S754_finite s m e) -> 0 < den -> loc_at q loc num den -> ex <= e ->
  ex <= fexp prec emax (Zdigits2 q + ex) -> near (Zpos m) e num (den * 2 ^ (e - ex)) ->
  binary_round_aux prec emax s q ex loc = S754_finite s m e.
Proof.
  intros Hok Hd Hl Hex Hfx Hn. pose proof Hl as Hq. unfold loc_at in Hq. apply located_floor in Hq as Hq'; [|done].
  destruct Hq as [Hq0 _]. assert (Hqe : shr_m (shr_record_of_loc q loc) = q) by (by destruct loc as [|[]]). rewrite Hqe in *.
  pose proof (float_ok_inv _ _ _ Hok) as [Hc He]. assert (Hp : 0 < 2 ^ (e - ex)) by lia.
  destruct (near_magnitude _ _ _ _ _ _ _ Hok Hd Hq' Hq0 Hex Hfx Hn) as [Hf|(Hm & Hlo & Hlt & Hf)]; unfold binary_round_aux.
  - destruct (shr_fexp_located _ _ _ _ _ _ Hd Hl Hf Hex) as (m' & r & t & -> & Hl'). cbn [shr_m].
    rewrite (round_even_near (Zpos m) num (den * 2 ^ (e - ex))); [|lia|apply Hn|apply Hn|done].
    rewrite (shr_fexp_canonical s) by done. cbn [shr_m]. by replace (e <=? emax - prec) with true by (symmetry; apply Z.leb_le; unfold emax, prec; lia).
  - destruct (shr_fexp_located _ _ _ _ _ _ Hd Hl Hf ltac:(lia)) as (m' & r & t & -> & Hl'). cbn [shr_m].
    assert (H2 : 2 ^ (e - ex) = 2 ^ (e - 1 - ex) * 2) by (replace (e - ex) with (e - 1 - ex + 1) by lia; rewrite Z.pow_add_r by lia; lia).
    destruct Hn as (Hn & _ & Hb). specialize (Hb Hm Hlo).
    rewrite (round_even_near (2 ^ 53) num (den * 2 ^ (e - 1 - ex))); [|lia| |done|done].
    2:{ rewrite Hm, H2 in *. change (2 ^ 53) with (2 * 2 ^ 52). nia. }
    assert (Hs : shr_fexp prec emax (2 ^ 53) (e - 1) loc_Exact = (Build_shr_record (2 ^ 52) false false, e)).
    { unfold shr_fexp. rewrite fexp_eq. change (Zdigits2 (2 ^ 53)) with 54.
      replace (Z.max (54 + (e - 1) - 53) (-1074) - (e - 1)) with 1 by lia. cbn [shr]. apply f_equal2; [done|lia]. }
    rewrite Hs. cbn [shr_m]. change (2 ^ 52) with (Zpos 4503599627370496) in *. injection Hm as ->.
    by replace (e <=? emax - prec) with true by (symmetry; apply Z.leb_le; unfold emax, prec; lia).
Qed.

Lemma near_scale m e num D c : 0 < c -> near m e (num * c) (D * c) <-> near m e num D.
Proof. intros Hc. unfold near. split; intros (H1 & H2 & H3); (split; [nia|]; split; [intros E; specialize (H2 E); nia|intros E1 E2; specialize (H3 E1 E2); nia]). Qed.

Lemma near_shift m e a b S S' : 0 <= S -> 0 <= S + e -> 0 <= S' -> 0 <= S' + e ->
  near m e (a * 2 ^ S) (b * 2 ^ (S + e)) -> near m e (a * 2 ^ S') (b * 2 ^ (S' + e)).
Proof.
  intros H1 H2 H3 H4 H. destruct (Z.le_ge_cases S S') as [Hle|Hle].
  - replace S' with (S + (S' - S)) by lia. replace (S + (S' - S) + e) with (S + e + (S' - S)) by lia.
    rewrite (Z.pow_add_r 2 S), (Z.pow_add_r 2 (S + e)), !Z.mul_assoc by lia. apply near_scale; [lia|done].
  - replace S with (S' + (S - S')) in H by lia. replace (S' + (S - S') + e) with (S' + e + (S - S')) in H by lia.
    rewrite (Z.pow_add_r 2 S'), (Z.pow_add_r 2 (S' + e)), !Z.mul_assoc in H by lia. by apply near_scale in H; [|lia].
Qed.

(** A ratio near a float has at most its magnitude. *)
Lemma near_exponent s m e a b j S : float_ok (S754_finite s m e) -> 0 < a -> 0 < b <= 2 ^ j -> 0 <= j -> 0 <= S -> 0 <= S + e ->
  near (Zpos m) e (a * 2 ^ S) (b * 2 ^ (S + e)) -> fexp prec emax (Zdigits2 a - j) <= e.
Proof.
  intros [Hc He]%float_ok_inv Ha Hb Hj HS HSe (Hn & _). rewrite fexp_eq.
  pose proof (zdigits_bounds (Zpos m) ltac:(lia)) as Hm. set (k := Zdigits2 (Zpos m)) in *.
  pose proof (zdigits_bounds a Ha) as [Hda _].
  assert (0 < Zdigits2 a) by (rewrite zdigits_log2 by done; pose proof (Z.log2_nonneg a); lia).
  assert (0 < k) by (unfold k; rewrite zdigits_log2 by lia; pose proof (Z.log2_nonneg (Zpos m)); lia).
  set (da := Zdigits2 a) in *. assert (0 < 2 ^ S) by lia. assert (0 < 2 ^ (S + e)) by lia.
  assert (a * 2 ^ S < 2 ^ k * (b * 2 ^ (S + e))) by nia.
  assert (H5 : 2 ^ (da - 1 + S) < 2 ^ (k + (j + (S + e)))).
  { rewrite !(Z.pow_add_r 2 (da - 1)), !(Z.pow_add_r 2 k), (Z.pow_add_r 2 j) by lia. assert (b * 2 ^ (S + e) <= 2 ^ j * 2 ^ (S + e)) by nia.
    assert (2 ^ (da - 1) * 2 ^ S <= a * 2 ^ S) by nia. assert (0 < 2 ^ k) by lia. nia. }
  apply Z.pow_lt_mono_r_iff in H5; lia.
Qed.

Lemma new_location_at q r den : 0 <= q -> 0 <= r < den -> loc_at q (new_location den r) (q * den + r) den.
Proof.
  intros Hq Hr. unfold loc_at, new_location, new_location_even, new_location_odd.
  destruct (Z.even den) eqn:E; destruct (Z.eqb_spec r 0) as [->|Hr0]; try (split; simpl; lia).
  - destruct (Z.compare_spec (2 * r) den); (split; simpl; lia).
  - assert (2 * r <> den) by (intros <-; rewrite Z.even_mul in E; done).
    destruct (Z.compare_spec (2 * r + 1) den); (split; simpl; lia).
Qed.

(** Reading a decimal inside the rounding interval of a float gives the float: an integer, a ratio. *)
Lemma round_int_near m e p S : float_ok (S754_finite false m e) -> 0 <= S -> 0 <= S + e ->
  near (Zpos m) e (Zpos p * 2 ^ S) (1 * 2 ^ (S + e)) -> binary_round prec emax false p 0 = S754_finite false m e.
Proof.
  intros Hok HS HSe Hn. pose proof (near_exponent false m e (Zpos p) 1 0 S Hok ltac:(lia) ltac:(lia) ltac:(lia) HS HSe Hn) as Hx.
  unfold binary_round, shl_align. rewrite Z.add_0_r, Z.sub_0_r. rewrite Z.sub_0_r in Hx. cbn [Zdigits2] in Hx.
  assert (Hone : forall z, loc_at (Zpos z) loc_Exact (Zpos z) 1) by (intros z; split; simpl; lia).
  destruct (fexp prec emax (Zpos (digits2_pos p))) as [|d|d] eqn:E.
  1,2: apply (round_aux_near _ _ _ _ _ _ (Zpos p) 1); [done|lia|apply Hone|lia|cbn [Zdigits2]; rewrite Z.add_0_r; lia|];
    rewrite Z.sub_0_r; apply (near_shift _ _ _ _ S 0) in Hn; [|lia..]; by rewrite Z.mul_1_r in Hn.
  apply (round_aux_near _ _ _ _ _ _ (Zpos (Pos.iter xO p d)) 1); [done|lia|apply Hone|lia| |].
  - rewrite zdigits_log2, shl_pos, Z.log2_mul_pow2 by lia. replace (_ + Zneg d) with (Zpos (digits2_pos p)) by (rewrite digits_log2; lia). lia.
  - rewrite shl_pos. replace (e - Zneg d) with (Zpos d + e) by lia. apply (near_shift _ _ _ _ S); lia || done.
Qed.

(** The quotient that [SFdiv_core_binary] rounds has digits enough for its exponent. *)
Lemma div_core_at a b : 0 < a -> 1 < b ->
  let '(q, ex, loc) := SFdiv_core_binary prec emax a 0 b 0 in
  loc_at q loc (a * 2 ^ (- ex)) b /\ 0 <= q /\ ex <= fexp prec emax (Zdigits2 q + ex) /\
  ex <= 0 /\ ex <= fexp prec emax (Zdigits2 a - Zdigits2 b).
Proof.
  intros Ha Hb. pose proof (zdigits_bounds b ltac:(lia)) as Hdb. pose proof (zdigits_bounds a Ha) as Hda.
  assert (Hp : 0 < Zdigits2 b) by (rewrite zdigits_log2 by lia; pose proof (Z.log2_nonneg b); lia).
  assert (Hp' : 0 < Zdigits2 a) by (rewrite zdigits_log2 by lia; pose proof (Z.log2_nonneg a); lia).
  unfold SFdiv_core_binary. rewrite !Z.add_0_r. set (ex := Z.min (fexp prec emax (Zdigits2 a - Zdigits2 b)) (0 - 0)).
  assert (Hm' : match 0 - 0 - ex with Zpos _ => Z.shiftl a (0 - 0 - ex) | 0 => a | Zneg _ => 0 end = a * 2 ^ (- ex)).
  { destruct (0 - 0 - ex) eqn:E; [replace (- ex) with 0 by lia; lia| |lia]. rewrite Z.shiftl_mul_pow2 by lia. f_equal. f_equal. lia. }
  rewrite Hm'. pose proof (Z_div_mod (a * 2 ^ (- ex)) b ltac:(lia)) as Hdm. destruct (Z.div_eucl (a * 2 ^ (- ex)) b) as [q r].
  destruct Hdm as [Hq Hr]. assert (Hq0 : 0 <= q) by nia. split; [|split; [done|split; [|lia]]].
  - rewrite Hq, (Z.mul_comm b). by apply new_location_at.
  - rewrite fexp_eq. set (D := Zdigits2 a - Zdigits2 b) in *. assert (Hex : ex = Z.min (Z.max (D - 53) (-1074)) 0) by done.
    clearbody ex.
    destruct (Z.le_gt_cases (D - 53) (-1074)); [lia|]. enough (D <= Zdigits2 q + ex) by lia.
    assert (Hlo : 2 ^ (D - 1 - ex) <= q).
    { assert (2 ^ (Zdigits2 a - 1) * 2 ^ (- ex) <= b * q + r) by nia.
      assert (2 ^ (D - 1 - ex) * 2 ^ Zdigits2 b <= b * q + r).
      { rewrite <- Z.pow_add_r by lia. replace (D - 1 - ex + Zdigits2 b) with (Zdigits2 a - 1 + - ex) by lia. by rewrite Z.pow_add_r by lia. }
      assert (b * (q + 1) <= 2 ^ Zdigits2 b * (q + 1)) by nia.
      enough (2 ^ (D - 1 - ex) < q + 1) by lia. apply (Z.mul_lt_mono_pos_l (2 ^ Zdigits2 b)); lia. }
    rewrite zdigits_log2 by lia. enough (D - 1 - ex <= Z.log2 q) by lia. apply Z.log2_le_pow2; lia.
Qed.

Lemma round_ratio_near m e a b S : float_ok (S754_finite false m e) -> 0 < a -> 1 < b -> 0 <= S -> 0 <= S + e ->
  near (Zpos m) e (a * 2 ^ S) (b * 2 ^ (S + e)) ->
  (let '(q, ex, loc) := SFdiv_core_binary prec emax a 0 b 0 in binary_round_aux prec emax false q ex loc) = S754_finite false m e.
Proof.
  intros Hok Ha Hb HS HSe Hn. pose proof (zdigits_bounds b ltac:(lia)) as Hdb.
  assert (Hp : 0 < Zdigits2 b) by (rewrite zdigits_log2 by lia; pose proof (Z.log2_nonneg b); lia).
  pose proof (near_exponent false m e a b (Zdigits2 b) S Hok Ha ltac:(lia) ltac:(lia) HS HSe Hn) as Hx.
  pose proof (div_core_at a b Ha Hb) as H. destruct (SFdiv_core_binary prec emax a 0 b 0) as [[q ex] loc].
  destruct H as (Hl & Hq0 & Hfx & Hex & Hex').
  apply (round_aux_near _ _ _ _ _ _ (a * 2 ^ (- ex)) b); [done|lia|done|lia|done|].
  replace (e - ex) with (- ex + e) by lia. apply (near_shift _ _ _ _ S); lia || done.
Qed.

Lemma round_dec_near m e N q S : float_ok (S754_finite false m e) -> 0 < N -> 0 <= S -> 0 <= S + e ->
  near (Zpos m) e (N * 10 ^ Z.max q 0 * 2 ^ S) (10 ^ Z.max (- q) 0 * 2 ^ (S + e)) ->
  round_dec N q = S754_finite false m e.
Proof.
  intros Hok HN HS HSe Hn. unfold round_dec. destruct N as [|p|p]; [lia| |lia]. destruct (Z.leb_spec 0 q) as [Hq|Hq].
  - rewrite (Z.max_r (- q)), Z.pow_0_r, Z.max_l in Hn by lia. unfold binary_normalize.
    assert (0 < Zpos p * 10 ^ q) by lia. destruct (Zpos p * 10 ^ q) as [|z|z] eqn:Ez; [lia| |lia]. by apply (round_int_near _ _ _ S).
  - rewrite (Z.max_l (- q)), Z.max_r, Z.pow_0_r, Z.mul_1_r in Hn by lia. apply (round_ratio_near _ _ _ _ S); try done.
    apply Z.pow_gt_1; lia.
Qed.

(** ** Digits read back *)
Lemma of_digits_app b xs ys : of_digits b (xs ++ ys) = of_digits b xs * b ^ Z.of_nat (length ys) + of_digits b ys.
Proof.
  unfold of_digits. rewrite fold_left_app. generalize (fold_left (fun v d => v * b + d) xs 0). intros v.
  cut (forall v w, fold_left (fun v d => v * b + d) ys (v + w) = v * b ^ Z.of_nat (length ys) + fold_left (fun v d => v * b + d) ys w).
  { intros H. by rewrite <- H, Z.add_0_r. }
  clear v. induction ys as [|y ys IH]; intros v w; [simpl; lia|]. cbn [fold_left length].
  replace ((v + w) * b + y) with (v * b + (w * b + y)) by lia. rewrite IH, Nat2Z.inj_succ, Z.pow_succ_r by lia. lia.
Qed.

(** The digits of [n]: in range, [n] as a number, and no longer than [n] needs. *)
Definition digits_of (b n : Z) (ds : list Z) : Prop :=
  of_digits b ds = n /\ Forall (fun d => 0 <= d < b) ds /\ ds <> [] /\ n < b ^ Z.of_nat (length ds) /\
  (0 < n -> b ^ (Z.of_nat (length ds) - 1) <= n).

Lemma to_digits_go_spec b : 1 < b -> forall fuel n acc, 0 <= n < 2 ^ Z.of_nat fuel -> fuel <> 0%nat ->
  exists ds, to_digits_go fuel b n acc = ds ++ acc /\ digits_of b n ds /\ (n = 0 -> ds = [0]).
Proof.
  intros Hb. induction fuel as [|k IH]; intros n acc Hn Hf; [done|]. cbn [to_digits_go]. destruct (Z.ltb_spec n b) as [Hlt|Hge].
  - exists [n]. rewrite Z.mod_small by lia. split; [done|]. split; [|by intros ->].
    split; [done|]. split; [repeat constructor; lia|]. split; [done|]. simpl. lia.
  - pose proof (Z.div_mod n b ltac:(lia)) as Hdm. pose proof (Z.mod_pos_bound n b ltac:(lia)) as Hmb.
    rewrite Nat2Z.inj_succ, Z.pow_succ_r in Hn by lia.
    assert (Hq : 0 <= n / b < 2 ^ Z.of_nat k) by (split; [apply Z.div_pos; lia|]; apply Z.div_lt_upper_bound; nia).
    destruct (IH (n / b) (n mod b :: acc) Hq) as (ds & -> & (Hv & Hr & Hne & Hhi & Hlo) & _).
    { intros ->. simpl in Hq. assert (n < b) by nia. lia. }
    exists (ds ++ [n mod b]). rewrite <- app_assoc. split; [done|]. split; [|lia].
    assert (Hl : Z.of_nat (length (ds ++ [n mod b])) = Z.of_nat (length ds) + 1) by (rewrite length_app; simpl; lia).
    assert (0 < Z.of_nat (length ds)) by (destruct ds; [done|simpl; lia]).
    split; [rewrite of_digits_app, Hv; unfold of_digits; simpl; lia|]. split; [apply Forall_app; split; [done|]; constructor; [exact Hmb|constructor]|].
    split; [by destruct ds|]. rewrite Hl, Z.pow_add_r, Z.pow_1_r by lia. split; [nia|]. intros _.
    replace (Z.of_nat (length ds) + 1 - 1) with (Z.of_nat (length ds) - 1 + 1) by lia. rewrite Z.pow_add_r, Z.pow_1_r by lia.
    specialize (Hlo ltac:(nia)). nia.
Qed.

Lemma to_digits_spec b n : 1 < b -> 0 <= n -> digits_of b n (to_digits b n) /\ (n = 0 -> to_digits b n = [0]).
Proof.
  intros Hb Hn. destruct (to_digits_go_spec b Hb (S (Z.to_nat (Z.log2 n))) n []) as (ds & E & H & H0); [|lia|].
  - rewrite Nat2Z.inj_succ, Z2Nat.id by apply Z.log2_nonneg. split; [done|].
    destruct (Z.eq_dec n 0) as [->|]; [done|]. apply Z.log2_spec. lia.
  - rewrite app_nil_r in E. unfold to_digits. by rewrite E.
Qed.

Lemma ndigits_spec n : 0 < n -> 10 ^ (ndigits n - 1) <= n < 10 ^ ndigits n /\ 0 < ndigits n.
Proof.
  intros Hn. destruct (to_digits_spec 10 n) as [(_ & _ & Hne & Hhi & Hlo) _]; [lia..|]. unfold ndigits. destruct (Z.eqb_spec n 0); [lia|].
  split; [split; [by apply Hlo|done]|]. destruct (to_digits 10 n); [done|simpl; lia].
Qed.

(** ** The digit generation *)
Lemma dec_exp_spec a b T : 0 < a -> 0 < b -> 0 <= T -> 0 <= T + dec_exp (a, b) - 1 ->
  b * 10 ^ (T + dec_exp (a, b) - 1) <= a * 10 ^ T < b * 10 ^ (T + dec_exp (a, b)).
Proof.
  intros Ha Hb HT. unfold dec_exp. destruct (Z.leb_spec b a) as [Hle|Hlt].
  - assert (Hq : 0 < a / b) by (apply Z.div_str_pos; lia). destruct (ndigits_spec _ Hq) as [Hn Hp].
    pose proof (Z.div_mod a b ltac:(lia)). pose proof (Z.mod_pos_bound a b Hb). set (j := ndigits (a / b)) in *.
    intros _. replace (T + j - 1) with (j - 1 + T) by lia. rewrite (Z.add_comm T j), !Z.pow_add_r by lia. assert (0 < 10 ^ T) by lia.
    rewrite !Z.mul_assoc. split; [apply Z.mul_le_mono_nonneg_r|apply Z.mul_lt_mono_pos_r]; nia.
  - assert (Hq : 0 < (b - 1) / a) by (apply Z.div_str_pos; lia). destruct (ndigits_spec _ Hq) as [Hn Hp].
    pose proof (Z.div_mod (b - 1) a ltac:(lia)). pose proof (Z.mod_pos_bound (b - 1) a Ha). set (j := ndigits ((b - 1) / a)) in *.
    intros Hj. replace (T + (1 - j) - 1) with (T - j) in * by lia. split.
    + replace (10 ^ T) with (10 ^ j * 10 ^ (T - j)) by (rewrite <- Z.pow_add_r by lia; f_equal; lia). assert (0 < 10 ^ (T - j)) by lia.
      rewrite Z.mul_assoc. apply Z.mul_le_mono_nonneg_r; nia.
    + replace (T + (1 - j)) with (T - j + 1) by lia.
      replace (10 ^ T) with (10 ^ (j - 1) * 10 ^ (T - j + 1)) by (rewrite <- Z.pow_add_r by lia; f_equal; lia).
      assert (0 < 10 ^ (T - j + 1)) by lia. rewrite Z.mul_assoc. apply Z.mul_lt_mono_pos_r; nia.
Qed.

(** The first place is not above the upper end of the interval. *)
Lemma first_place_le mant plus ex incl T : 0 < mant + plus -> 0 <= T ->
  let K := first_place mant plus ex incl in 0 <= T + K - 1 ->
  2 ^ Z.max (- ex) 0 * 10 ^ (T + K - 1) <= (mant + plus) * 2 ^ Z.max ex 0 * 10 ^ T.
Proof.
  intros Hm HT. cbv zeta. unfold first_place, scale2. cbn [fst snd]. rewrite Z.mul_1_l.
  set (a := (mant + plus) * 2 ^ Z.max ex 0). set (b := 2 ^ Z.max (- ex) 0).
  assert (Ha : 0 < a) by (unfold a; nia). assert (Hb : 0 < b) by (unfold b; lia).
  destruct (scale10 (1 - dec_exp (a, b)) (a, b)) as [a' b']. destruct (negb incl && (a' =? b')).
  - intros HK. pose proof (dec_exp_spec a b T Ha Hb HT ltac:(lia)) as [H _]. etrans; [|exact H].
    apply Z.mul_le_mono_nonneg_l; [lia|]. apply Z.pow_le_mono_r; lia.
  - intros HK. by apply dec_exp_spec.
Qed.

Lemma shortest_at_spec mant minus plus ex incl K i N :
  0 < minus < mant -> 0 < plus ->
  shortest_at mant minus plus ex incl K i = Some N ->
  let u := 10 ^ Z.max (i - K) 0 * 2 ^ Z.max ex 0 in let w := 10 ^ Z.max (- (i - K)) 0 * 2 ^ Z.max (- ex) 0 in
  0 < N /\ (mant - minus) * u <= N * w <= (mant + plus) * u /\
  (incl = false -> (mant - minus) * u < N * w < (mant + plus) * u).
Proof.
  intros Hm Hp. unfold shortest_at, scale10, scale2. cbn [fst snd]. rewrite !Z.mul_1_l, !(Z.mul_comm (2 ^ _)).
  set (u := 10 ^ Z.max (i - K) 0 * 2 ^ Z.max ex 0). set (w := 10 ^ Z.max (- (i - K)) 0 * 2 ^ Z.max (- ex) 0). cbv zeta.
  assert (Hu : 0 < u) by (unfold u; nia). assert (Hw : 0 < w) by (unfold w; nia).
  pose proof (Z.div_mod (mant * u) w ltac:(lia)) as Hdm. pose proof (Z.mod_pos_bound (mant * u) w Hw) as Hmb.
  assert (0 <= mant * u / w) by (apply Z.div_pos; nia).
  set (q := mant * u / w) in *. set (r := (mant * u) mod w) in *. clearbody q r u w.
  assert (Hq : 0 < q \/ q = 0 /\ minus * u < r) by (destruct (Z.eq_dec q 0) as [->|]; [right; nia|left; lia]).
  assert (0 < minus * u) by nia. assert (0 < plus * u) by nia. destruct incl.
  - destruct (Z.leb_spec r (minus * u)), (Z.leb_spec w (r + plus * u)), (Z.leb_spec w (2 * r)); simpl; intros [= <-]; (split; [lia|]; split; [lia|done]).
  - destruct (Z.ltb_spec r (minus * u)), (Z.ltb_spec w (r + plus * u)), (Z.leb_spec w (2 * r)); simpl; intros [= <-]; (split; [lia|]; split; [lia|intros _; lia]).
Qed.

(** 17 digits are enough: their unit is narrower than the interval. *)
Lemma shortest_at_17 mant minus plus ex incl : 0 < mant + plus < (minus + plus) * 10 ^ 16 ->
  shortest_at mant minus plus ex incl (first_place mant plus ex incl) 17 <> None.
Proof.
  intros Hm. pose proof (first_place_le mant plus ex incl) as HK. cbv zeta in HK. set (K := first_place mant plus ex incl) in *. clearbody K.
  unfold shortest_at, scale10, scale2. cbn [fst snd]. rewrite !Z.mul_1_l.
  specialize (HK (Z.max (17 - K) 0) ltac:(lia) ltac:(lia) ltac:(lia)).
  replace (Z.max (17 - K) 0 + K - 1) with (16 + Z.max (- (17 - K)) 0) in HK by lia. rewrite Z.pow_add_r in HK by lia.
  set (u := 2 ^ Z.max ex 0 * 10 ^ Z.max (17 - K) 0). set (w := 2 ^ Z.max (- ex) 0 * 10 ^ Z.max (- (17 - K)) 0).
  assert (0 < u) by (unfold u; nia). assert (Hle : 10 ^ 16 * w <= (mant + plus) * u) by (unfold u, w; lia).
  assert (Hlt : (mant + plus) * u < (minus + plus) * 10 ^ 16 * u) by (apply Z.mul_lt_mono_pos_r; lia).
  set (r := (mant * u) mod w). clearbody u w r. destruct incl.
  - destruct (Z.leb_spec r (minus * u)), (Z.leb_spec w (r + plus * u)); try done. lia.
  - destruct (Z.ltb_spec r (minus * u)), (Z.ltb_spec w (r + plus * u)); try done. lia.
Qed.

Lemma shortest_loop_some mant minus plus ex incl K : forall fuel i j, 0 <= j < Z.of_nat fuel ->
  shortest_at mant minus plus ex incl K (i + j) <> None ->
  exists N i', shortest_loop fuel mant minus plus ex incl K i = Some (N, i') /\
    shortest_at mant minus plus ex incl K i' = Some N /\ i <= i' <= i + j.
Proof.
  induction fuel as [|k IH]; intros i j Hj H; [lia|]. cbn [shortest_loop].
  destruct (shortest_at mant minus plus ex incl K i) as [N|] eqn:E; [exists N, i; split; [done|]; split; [done|lia]|].
  destruct (Z.eq_dec j 0) as [->|]; [by rewrite Z.add_0_r in H|].
  destruct (IH (i + 1) (j - 1) ltac:(lia)) as (N & i' & -> & H1 & H2); [by replace (i + 1 + (j - 1)) with (i + j) by lia|].
  exists N, i'. split; [done|]. split; [done|lia].
Qed.

(** The interval's bounds at the exponent [e] of the float instead of [ex] of the decoded one. *)
Lemma rescale ex f e S X Y u w : e = ex + f -> 0 <= f -> 0 <= S -> 0 <= S + e ->
  (X * (u * 2 ^ Z.max ex 0) <= Y * (w * 2 ^ Z.max (- ex) 0) <-> X * (u * 2 ^ (S + e)) <= 2 ^ f * (Y * w * 2 ^ S)) /\
  (Y * (w * 2 ^ Z.max (- ex) 0) <= X * (u * 2 ^ Z.max ex 0) <-> 2 ^ f * (Y * w * 2 ^ S) <= X * (u * 2 ^ (S + e))).
Proof.
  intros He Hf HS HSe.
  assert (Heq : 2 ^ f * 2 ^ S * 2 ^ Z.max ex 0 = 2 ^ Z.max (- ex) 0 * 2 ^ (S + e)) by (rewrite <- !Z.pow_add_r by lia; f_equal; lia).
  assert (HP : 0 < 2 ^ Z.max ex 0) by lia. assert (HA : 0 < 2 ^ (S + e)) by lia.
  set (P := 2 ^ Z.max ex 0) in *. set (A := 2 ^ (S + e)) in *. set (M := 2 ^ Z.max (- ex) 0) in *.
  assert (E1 : 2 ^ f * (Y * w * 2 ^ S) * P = Y * (w * M) * A) by (transitivity (Y * w * (2 ^ f * 2 ^ S * P)); [ring|rewrite Heq; ring]).
  assert (E2 : X * (u * A) * P = X * (u * P) * A) by ring.
  split; rewrite (Z.mul_le_mono_pos_r _ _ A) by done; rewrite (Z.mul_le_mono_pos_r (_ * (_ * A)) _ P) || rewrite (Z.mul_le_mono_pos_r (2 ^ f * _) _ P); try done; by rewrite E1, E2.
Qed.

(** What [shortest_at] found, as [near] states it: [f] is the shift of [decode]. *)
Lemma shortest_near m e f mant minus plus K i N :
  2 ^ f * m = mant -> 0 <= f -> (2 ^ f <= 2 * plus <= 2 ^ f) -> 2 * minus <= 2 ^ f -> (m = 2 ^ 52 -> 4 * minus <= 2 ^ f) ->
  let u := 10 ^ Z.max (i - K) 0 * 2 ^ Z.max (e - f) 0 in let w := 10 ^ Z.max (- (i - K)) 0 * 2 ^ Z.max (- (e - f)) 0 in
  (mant - minus) * u <= N * w <= (mant + plus) * u ->
  (Z.even m = false -> (mant - minus) * u < N * w < (mant + plus) * u) ->
  near m e (N * 10 ^ Z.max (K - i) 0 * 2 ^ Z.max (- e) 0) (10 ^ Z.max (- (K - i)) 0 * 2 ^ (Z.max (- e) 0 + e)).
Proof.
  intros Hm Hf Hp Hmi Hb. cbv zeta. replace (- (K - i)) with (i - K) by lia. replace (- (i - K)) with (K - i) by lia.
  assert (HD : 0 < 10 ^ Z.max (i - K) 0 * 2 ^ (Z.max (- e) 0 + e)) by (apply Z.mul_pos_pos; apply Z.pow_pos_nonneg; lia).
  pose proof (rescale (e - f) f e (Z.max (- e) 0) (mant - minus) N (10 ^ Z.max (i - K) 0) (10 ^ Z.max (K - i) 0)
    ltac:(lia) Hf ltac:(lia) ltac:(lia)) as [R1 R2].
  pose proof (rescale (e - f) f e (Z.max (- e) 0) (mant + plus) N (10 ^ Z.max (i - K) 0) (10 ^ Z.max (K - i) 0)
    ltac:(lia) Hf ltac:(lia) ltac:(lia)) as [R3 R4].
  set (num := N * 10 ^ Z.max (K - i) 0 * 2 ^ Z.max (- e) 0) in *.
  set (D := 10 ^ Z.max (i - K) 0 * 2 ^ (Z.max (- e) 0 + e)) in *.
  intros [H1 H2] Ho. apply R1 in H1. apply R4 in H2.
  assert (Ho' : Z.even m = false -> (mant - minus) * D < 2 ^ f * num < (mant + plus) * D).
  { intros E. specialize (Ho E). rewrite <- !Z.nle_gt in Ho |- *. destruct Ho as [O1 O2].
    split; intros C; [apply O1, R2, C|apply O2, R3, C]. }
  clear R1 R2 R3 R4 Ho. clearbody num D. subst mant. assert (0 < 2 ^ f) by lia. set (F := 2 ^ f) in *. clearbody F.
  assert (P1 : 2 * (minus * D) <= F * D) by (rewrite Z.mul_assoc; apply Z.mul_le_mono_nonneg_r; lia).
  assert (P2 : 2 * (plus * D) = F * D) by (rewrite Z.mul_assoc; f_equal; lia).
  unfold near. split; [|split].
  - split; apply (Z.mul_le_mono_pos_l _ _ F); lia.
  - intros E. specialize (Ho' E). split; apply (Z.mul_lt_mono_pos_l F); lia.
  - intros E _. specialize (Hb E). assert (P3 : 4 * (minus * D) <= F * D) by (rewrite Z.mul_assoc; apply Z.mul_le_mono_nonneg_r; lia).
    apply (Z.mul_le_mono_pos_l _ _ F); lia.
Qed.

(** The digit generation returns a decimal inside the interval. *)
Lemma shortest_spec m e : float_ok (S754_finite false m e) ->
  exists N q, shortest (Zpos m) e = Some (N, q) /\ 0 < N /\
    near (Zpos m) e (N * 10 ^ Z.max q 0 * 2 ^ Z.max (- e) 0) (10 ^ Z.max (- q) 0 * 2 ^ (Z.max (- e) 0 + e)).
Proof.
  intros Hok. pose proof (float_ok_inv _ _ _ Hok) as [Hc He].
  assert (Hm : Zpos m < 2 ^ 53).
  { pose proof (zdigits_bounds (Zpos m) ltac:(lia)) as [_ H]. eapply Z.lt_le_trans; [exact H|]. apply Z.pow_le_mono_r; lia. }
  unfold shortest, decode. destruct (Z.eqb_spec (Zpos m) (2 ^ 52)) as [Hb|Hb].
  - edestruct (shortest_loop_some (4 * Zpos m) 1 2 (e - 2) (Z.even (Zpos m))) with (fuel := MAX_SIG_DIGITS) (i := 1) (j := 16) as (N & i & -> & Hs & _);
      [done|apply shortest_at_17; lia|]. apply shortest_at_spec in Hs as (HN & Hn & Ho); [|lia..].
    eexists _, _. split; [done|]. split; [done|]. eapply (shortest_near _ _ 2); [..|exact Hn|exact Ho]; lia.
  - edestruct (shortest_loop_some (2 * Zpos m) 1 1 (e - 1) (Z.even (Zpos m))) with (fuel := MAX_SIG_DIGITS) (i := 1) (j := 16) as (N & i & -> & Hs & _);
      [done|apply shortest_at_17; lia|]. apply shortest_at_spec in Hs as (HN & Hn & Ho); [|lia..].
    eexists _, _. split; [done|]. split; [done|]. eapply (shortest_near _ _ 1); [..|exact Hn|exact Ho]; lia.
Qed.

(** Every way to write a decimal [N * 10^q] of the interval is read as the float. *)
Lemma near_reads m e N q c j : float_ok (S754_finite false m e) -> 0 < N -> 0 <= c -> 0 <= j ->
  near (Zpos m) e (N * 10 ^ Z.max q 0 * 2 ^ Z.max (- e) 0) (10 ^ Z.max (- q) 0 * 2 ^ (Z.max (- e) 0 + e)) ->
  c - j = q -> round_dec (N * 10 ^ c) (- j) = S754_finite false m e.
Proof.
  intros Hok HN Hc Hj Hn Hq. apply (round_dec_near _ _ _ _ (Z.max (- e) 0)); [done|nia|lia|lia|].
  rewrite (Z.max_r (- j)), (Z.max_l (- - j)), Z.pow_0_r, Z.mul_1_r, Z.opp_involutive by lia.
  assert (Hk : exists k, 0 <= k /\ c = Z.max q 0 + k /\ j = Z.max (- q) 0 + k) by (exists (Z.min c j); lia).
  destruct Hk as (k & Hk & -> & ->). rewrite !Z.pow_add_r by lia. assert (0 < 10 ^ k) by lia.
  replace (N * (10 ^ Z.max q 0 * 10 ^ k) * 2 ^ Z.max (- e) 0) with (N * 10 ^ Z.max q 0 * 2 ^ Z.max (- e) 0 * 10 ^ k) by ring.
  rewrite <- Z.pow_add_r by lia.
  replace (10 ^ (Z.max (- q) 0 + k) * 2 ^ (Z.max (- e) 0 + e)) with (10 ^ Z.max (- q) 0 * 2 ^ (Z.max (- e) 0 + e) * 10 ^ k) by (rewrite (Z.pow_add_r 10) by lia; ring).
  by apply near_scale.
Qed.

(** A float with a fraction needs a decimal fraction; a whole float needs none. *)
Lemma near_whole m e N : e < 0 -> near m e (N * 2 ^ (- e)) 1 -> m = N * 2 ^ (- e).
Proof. intros He ((H1 & H2) & _). lia. Qed.

Lemma first_place_pos mant plus ex incl : 0 < plus -> 2 ^ Z.max (- ex) 0 <= mant * 2 ^ Z.max ex 0 -> 1 <= first_place mant plus ex incl.
Proof.
  intros Hp Hm. unfold first_place, scale2. cbn [fst snd]. rewrite Z.mul_1_l.
  set (a := (mant + plus) * 2 ^ Z.max ex 0). set (b := 2 ^ Z.max (- ex) 0) in *. assert (Hb : 0 < b) by (unfold b; lia).
  assert (Ha : b < a) by (unfold a; nia). assert (HK : 1 <= dec_exp (a, b)).
  { unfold dec_exp. destruct (Z.leb_spec b a); [|lia]. pose proof (ndigits_spec (a / b) ltac:(apply Z.div_str_pos; lia)). lia. }
  destruct (Z.eq_dec (dec_exp (a, b)) 1) as [E|]; [|destruct (scale10 (1 - dec_exp (a, b)) (a, b)), (negb incl && _); lia].
  rewrite E. unfold scale10. cbn [fst snd]. simpl (10 ^ _). rewrite !Z.mul_1_r.
  destruct (Z.eqb_spec a b); [lia|]. by rewrite andb_false_r.
Qed.

Lemma shortest_at_whole mant minus plus ex incl K : 0 < minus -> (mant * 2 ^ Z.max ex 0) mod 2 ^ Z.max (- ex) 0 = 0 ->
  shortest_at mant minus plus ex incl K K <> None.
Proof.
  intros Hm Hw. unfold shortest_at, scale10, scale2. cbn [fst snd]. rewrite Z.sub_diag, !Z.mul_1_l. simpl (10 ^ _). rewrite !Z.mul_1_r, Hw.
  assert (0 < minus * 2 ^ Z.max ex 0) by nia.
  destruct incl; [destruct (Z.leb_spec 0 (minus * 2 ^ Z.max ex 0))|destruct (Z.ltb_spec 0 (minus * 2 ^ Z.max ex 0))]; lia || done.
Qed.

Lemma shortest_loop_first mant minus plus ex incl K N i : 1 <= K -> 0 < minus ->
  (mant * 2 ^ Z.max ex 0) mod 2 ^ Z.max (- ex) 0 = 0 ->
  shortest_loop MAX_SIG_DIGITS mant minus plus ex incl K 1 = Some (N, i) -> i <= K.
Proof.
  intros HK Hm Hw Hs. pose proof (shortest_at_whole mant minus plus ex incl K Hm Hw) as Hat.
  destruct (Z.le_gt_cases K 17) as [Hle|Hgt].
  - destruct (shortest_loop_some mant minus plus ex incl K MAX_SIG_DIGITS 1 (K - 1)) as (N' & i' & E & _ & Hi);
      [unfold MAX_SIG_DIGITS; lia|by replace (1 + (K - 1)) with K by lia|]. rewrite E in Hs. injection Hs as -> ->. lia.
  - enough (i <= 17) by lia. clear Hat. assert (G : forall f j, shortest_loop f mant minus plus ex incl K j = Some (N, i) -> i < j + Z.of_nat f).
    { induction f as [|f IH]; intros j; cbn [shortest_loop]; [done|]. destruct (shortest_at _ _ _ _ _ _ j); [intros [= -> ->]; lia|].
      intros H%IH. lia. }
    apply G in Hs. unfold MAX_SIG_DIGITS in Hs. lia.
Qed.

Lemma shortest_whole m e N q : (0 <= e \/ m mod 2 ^ (- e) = 0) -> 0 < m -> shortest m e = Some (N, q) -> 0 <= q.
Proof.
  intros Hw Hm. unfold shortest.
  assert (H : forall f, 0 <= f -> 2 ^ Z.max (- (e - f)) 0 <= 2 ^ f * m * 2 ^ Z.max (e - f) 0 /\
                        (2 ^ f * m * 2 ^ Z.max (e - f) 0) mod 2 ^ Z.max (- (e - f)) 0 = 0).
  { intros f Hf.
    assert (Hd : exists c, 0 < c /\ 2 ^ f * m * 2 ^ Z.max (e - f) 0 = c * 2 ^ Z.max (- (e - f)) 0).
    { destruct (Z.le_gt_cases 0 e) as [He|He].
      - exists (m * 2 ^ e). split; [nia|].
        replace (2 ^ f * m * 2 ^ Z.max (e - f) 0) with (m * 2 ^ (f + Z.max (e - f) 0)) by (rewrite Z.pow_add_r by lia; ring).
        rewrite <- Z.mul_assoc, <- Z.pow_add_r by lia. f_equal. f_equal. lia.
      - destruct Hw as [?|Hw]; [lia|]. apply Z.mod_divide in Hw as [c ->]; [|lia]. exists c. split; [nia|].
        rewrite Z.max_r, Z.pow_0_r, Z.mul_1_r, Z.max_l by lia. replace (- (e - f)) with (f + - e) by lia. rewrite Z.pow_add_r by lia. ring. }
    destruct Hd as (c & Hc & ->). assert (0 < 2 ^ Z.max (- (e - f)) 0) by lia. split; [nia|]. apply Z.mod_mul. lia. }
  unfold decode. destruct (Z.eqb_spec m (2 ^ 52)).
  - destruct (H 2 ltac:(lia)) as [H1 H2]. change (2 ^ 2) with 4 in *. pose proof (first_place_pos (4 * m) 2 (e - 2) (Z.even m) ltac:(lia) H1).
    destruct (shortest_loop _ _ _ _ _ _ _ _) as [[N' i]|] eqn:E; [|done]. intros [= -> <-]. apply shortest_loop_first in E; lia.
  - destruct (H 1 ltac:(lia)) as [H1 H2]. change (2 ^ 1) with 2 in *. pose proof (first_place_pos (2 * m) 1 (e - 1) (Z.even m) ltac:(lia) H1).
    destruct (shortest_loop _ _ _ _ _ _ _ _) as [[N' i]|] eqn:E; [|done]. intros [= -> <-]. apply shortest_loop_first in E; lia.
Qed.
