(* ===== verification/FmtSpec.v ===== *)
(** * Format specs: [src/src/fmtspec.rs]

    The format mini-language of interpolated strings: parsing a spec into slots, rendering a value
    under a spec, and the canonical text of a float.  Text is a list of code points.  A function
    that may fail returns [result]; one that may also panic ([unreachable!], [expect]) returns an
    option of it, and [None] is the panic. *)

From Stdlib Require Import SpecFloat Ascii.
From stdpp Require Import strings pretty.
From S2P Require Import Prelude Slice Token Lexer Decimal.
Import F64.
Local Open Scope Z_scope.
Local Open Scope chz_scope.

(** [let p = r?; k] with a pattern. *)
Local Notation "' p <-- r ;; k" :=
  (match r with Ok p => k | Err e => Err e end)
  (at level 20, p pattern, r at level 99, k at level 200).

(** ** Data *)
Definition MAX_FIELD : Z := 4096.
Inductive Align := ALeft | ARight | ACenter | APad.
#[global] Instance Align_eq_dec : EqDecision Align.
Proof. solve_decision. Defined.

Record FormatSpec := mkSpec {
  fill : Z;
  align : option Align;
  sign : option Z;
  zero_coerce : bool;
  alt : bool;
  zero_pad : bool;
  width : Z;
  dyn_width : bool;
  dyn_precision : bool;
  group : option Z;
  precision : option Z;
  ty : option Z;
}.
Inductive FmtArg := FInt (n : Z) | FFloat (x : f64) | FStr (s : list Z) | FOther (s : list Z).
Inductive SpecItem := Ch (c : Z) | Field.
#[global] Instance SpecItem_eq_dec : EqDecision SpecItem.
Proof. solve_decision. Defined.
Inductive ScalarKind := KInt | KFloat | KStr.

(** ** Parsing *)
Definition NESTED_SLOTS : string := "format spec: a nested field is allowed only as the width or the precision".
Definition is_one_of (cs : list Z) (c : Z) : bool := bool_decide (c ∈ cs).
Definition is_align : Z -> bool := is_one_of [ch "<"; ch ">"; ch "^"; ch "="].
Definition to_align (c : Z) : Align :=
  if c =? ch "<" then ALeft else if c =? ch ">" then ARight else if c =? ch "^" then ACenter else APad.
Definition is_type : Z -> bool :=
  is_one_of [ch "d"; ch "f"; ch "F"; ch "x"; ch "X"; ch "b"; ch "o"; ch "e"; ch "E"; ch "%"; ch "g"; ch "G"].
Definition EXCEEDS (what : string) : string := "format spec: " +:+ what +:+ " exceeds maximum 4096".

(** [bump].  The accumulator never exceeds [MAX_FIELD], so nothing saturates. *)
Definition bump (acc c : Z) (what : string) : result Z string :=
  let next := acc * 10 + (c - 48) in if MAX_FIELD <? next then Err (EXCEEDS what) else Ok next.

Section Items.
Context (items : list SpecItem).

(** The closures [ch] and [is_field] of [parse_nested]. *)
Definition chr (i : nat) : option Z := match items !! i with Some (Ch c) => Some c | Some Field | None => None end.
Definition is_field (i : nat) : bool := bool_decide (items !! i = Some Field).
(** [ch(i).filter(p)]. *)
Definition chr_if (p : Z -> bool) (i : nat) : option Z :=
  match chr i with Some c => if p c then Some c else None | None => None end.

(** The [[fill]align] slot: the fill if one is written, the align, the next index. *)
Definition align_slot : option Z * option Align * nat :=
  match chr 0, chr_if is_align 1, chr_if is_align 0 with
  | Some fill, Some align, _ => (Some fill, Some (to_align align), 2%nat)
  | _, _, Some align => (None, Some (to_align align), 1%nat)
  | _, _, _ => (None, None, 0%nat)
  end.
Definition char_slot (p : Z -> bool) (i : nat) : option Z * nat :=
  match chr_if p i with Some c => (Some c, S i) | None => (None, i) end.
Definition flag_slot (c : Z) (i : nat) : bool * nat := if bool_decide (chr i = Some c) then (true, S i) else (false, i).

(** The two [while let] loops over digits: a round per item left. *)
Fixpoint digit_loop (fuel : nat) (what : string) (acc : Z) (saw : bool) (i : nat) : result (Z * bool * nat) string :=
  match fuel with
  | O => Ok (acc, saw, i)
  | S k => match chr_if is_ascii_digit i with
           | Some c => match bump acc c what with
                       | Ok acc => digit_loop k what acc true (S i)
                       | Err e => Err e
                       end
           | None => Ok (acc, saw, i)
           end
  end.
(** A width or a precision: a nested field, or digits.  The number, whether it is a field, whether
    anything was there, and the next index. *)
Definition number_slot (what : string) (i : nat) : result (Z * bool * bool * nat) string :=
  if is_field i then Ok (0, true, true, S i)
  else match digit_loop (length items) what 0 false i with
       | Ok (n, saw, i) => Ok (n, false, saw, i)
       | Err e => Err e
       end.

Definition show_items : string :=
  foldr (fun item t => match item with Ch c => show_char c | Field => "{}" end +:+ t) "" items.

(** The type slot and the end of the spec; [field_end] is the index past the last nested field. *)
Definition type_slot (field_end : option nat) (i : nat) : result (option Z) string :=
  let typed :=
    if (i <? length items)%nat then
      match chr i with
      | Some t =>
          if is_type t then Ok (Some t, S i)
          else if bool_decide (field_end = Some i) && is_align t then Err NESTED_SLOTS
          else Err ("format spec: unknown type char '" +:+ show_char t +:+ "'")
      | None => Err NESTED_SLOTS
      end
    else Ok (None, i) in
  '(t, i) <-- typed;;
  if (i =? length items)%nat then Ok t
  else if bool_decide (Field ∈ drop i items) then Err NESTED_SLOTS
  else Err ("format spec: trailing characters in '" +:+ show_items +:+ "'").

Definition parse_nested : result FormatSpec string :=
  let '(explicit, align, i) := align_slot in
  let '(sign, i) := char_slot (is_one_of [ch "+"; ch "-"; ch " "]) i in
  let '(z, i) := flag_slot (ch "z") i in
  let '(alt, i) := flag_slot (ch "#") i in
  let '(zero, i) := flag_slot (ch "0") i in
  let fill := default (if zero then ch "0" else ch " ") explicit in
  '(width, dyn_w, saw_w, i) <-- number_slot "width" i;;
  let field_end := if dyn_w : bool then Some i else None in
  let '(group, i) := char_slot (is_one_of [ch ","; ch "_"]) i in
  let '(dot, i) := flag_slot (ch ".") i in
  '(prec, dyn_p, field_end, i) <--
    (if dot then
       '(prec, dyn_p, saw, i) <-- number_slot "precision" i;;
       if negb saw then Err "format spec: '.' must be followed by a precision"
       else Ok (Some prec, dyn_p, if dyn_p : bool then Some i else field_end, i)
     else Ok (None, false, field_end, i));;
  t <-- type_slot field_end i;;
  Ok (mkSpec fill align sign z alt zero width dyn_w dyn_p group prec t).
End Items.

Definition parse (spec : list Z) : result FormatSpec string := parse_nested (Ch <$> spec).

(** [field_from_int]. *)
Definition field_from_int (n : option Z) (what : string) : result Z string :=
  match n with
  | None => Err ("format spec: a nested " +:+ what +:+ " field must be an int")
  | Some n =>
      if n <? 0 then Err ("format spec: " +:+ what +:+ " must not be negative, got " +:+ pretty n)
      else if MAX_FIELD <? n then Err (EXCEEDS what)
      else Ok n
  end.

(** ** Rendering *)
(** [str::split_once], [contains], [trim_end_matches]. *)
Fixpoint split_once (c : Z) (s : list Z) : option (list Z * list Z) :=
  match s with
  | [] => None
  | d :: r => if d =? c then Some ([], r)
              else match split_once c r with Some (a, b) => Some (d :: a, b) | None => None end
  end.
Definition contains (c : Z) (s : list Z) : bool := existsb (Z.eqb c) s.
Definition trim_end (c : Z) (s : list Z) : list Z :=
  rev ((fix go s := match s with d :: r => if d =? c then go r else s | [] => [] end) (rev s)).
(** [str::parse::<i32>] on digits with an optional [-]. *)
Definition parse_i32 (s : list Z) : option Z :=
  match s with
  | c :: r => if c =? ch "-" then match parse_uint (2 ^ 31) 10 r with Ok n => Some (- n) | Err _ => None end
              else match parse_uint (2 ^ 31 - 1) 10 s with Ok n => Some n | Err _ => None end
  | [] => None
  end.

(** The mantissa of a number's text, and its exponent with the marker, if it has one. *)
Definition split_exp (s : list Z) : list Z * list Z :=
  match split_once (ch "e") s with
  | Some (m, e) => (m, ch "e" :: e)
  | None => match split_once (ch "E") s with Some (m, e) => (m, ch "E" :: e) | None => (s, []) end
  end.
Definition strip_g_zeros (s : list Z) : list Z :=
  let '(mant, e) := split_exp s in
  if contains (ch ".") mant then trim_end (ch ".") (trim_end (ch "0") mant) ++ e else s.
Definition force_point (s : list Z) : list Z :=
  let '(mant, e) := split_exp s in
  if negb (existsb is_ascii_digit mant) || contains (ch ".") mant then s else mant ++ ch "." :: e.
Definition normalize_exp (rust_e : list Z) (marker : Z) : list Z :=
  match split_once (ch "e") rust_e with
  | None => rust_e
  | Some (mant, exp) =>
      let '(sgn, ds) := match exp with
                        | c :: r => if c =? ch "-" then (ch "-", r) else (ch "+", exp)
                        | [] => (ch "+", exp)
                        end in
      mant ++ marker :: sgn :: zeros (2 - Z.of_nat (length ds)) ++ ds
  end.
Definition sign_prefix (neg : bool) (sign : option Z) : list Z :=
  if neg then [ch "-"]
  else match sign with
       | Some c => if c =? ch "+" then [ch "+"] else if c =? ch " " then [ch " "] else []
       | None => []
       end.

(** *** Floats *)
Definition is_sign_negative (x : f64) : bool :=
  match x with S754_zero s | S754_infinity s | S754_finite s _ _ => s | S754_nan => false end.
Definition is_finite (x : f64) : bool := match x with S754_zero _ | S754_finite _ _ _ => true | _ => false end.
Definition is_nan (x : f64) : bool := match x with S754_nan => true | _ => false end.
(** [x.fract() == 0.0], of a finite float. *)
Definition is_whole (x : f64) : bool :=
  match x with
  | S754_finite _ m e => (0 <=? e) || (Zpos m mod 2 ^ (- e) =? 0)
  | _ => true
  end.
(** [str::parse::<f64>] with a sign, and [to_bits] equality. *)
Definition parse_signed (s : list Z) : result f64 string :=
  match s with
  | c :: r => if c =? ch "-" then match parse_f64 r with Ok x => Ok (SFopp x) | Err e => Err e end else parse_f64 s
  | [] => parse_f64 s
  end.
#[global] Instance f64_eq_dec : EqDecision f64.
Proof. solve_decision. Defined.
Definition round_trips (x : f64) (c : list Z) : bool :=
  match parse_signed c with Ok v => bool_decide (v = x) | Err _ => false end.

(** [repr_float].  A precision is a [usize]: a negative one is a panic here. *)
Definition repr_float (x : f64) : option (list Z) :=
  if negb (is_finite x) then Some (fmt_display x)
  else
    let e := fmt_exp x in
    let '(mant, exp_s) := default (e, [ch "0"]) (split_once (ch "e") e) in
    let exp := default 0 (parse_i32 exp_s) in
    let nd := Z.of_nat (length (filter (fun c => is_ascii_digit c = true) mant)) in
    let odd_last := match list.last mant with Some b => Z.odd b | None => false end in
    if negb ((-4 <=? exp) && (exp <? 16)) then
      let even := fmt_sci (nd - 1) x in
      Some (normalize_exp (if odd_last && round_trips x even then even else e) (ch "e"))
    else if is_whole x then Some (fmt_display x ++ text ".0")
    else if odd_last then
      if nd - 1 - exp <? 0 then None
      else let even := fmt_fixed (nd - 1 - exp) x in
           Some (if round_trips x even then even else fmt_display x)
    else Some (fmt_display x).

(** [render_general]: the [split_once] and the parse carry [expect]s. *)
Definition render_general (mag : f64) (precision marker : Z) (alt add_dot_0 : bool) : option (list Z) :=
  if negb (is_finite mag) then Some (fmt_display mag)
  else
    let p := Z.max precision 1 in
    let e := fmt_sci (p - 1) mag in
    match split_once (ch "e") e with
    | None => None
    | Some (_, exp_s) =>
        match parse_i32 exp_s with
        | None => None
        | Some exp =>
            let hi := if add_dot_0 then p - 1 else p in
            let use_exp := negb ((-4 <=? exp) && (exp <? hi)) in
            let body := if use_exp then normalize_exp e marker else fmt_fixed (Z.max (p - 1 - exp) 0) mag in
            let body := if alt then force_point body else strip_g_zeros body in
            Some (if add_dot_0 && negb use_exp && negb (contains (ch ".") body) then body ++ text ".0" else body)
        end
    end.
Definition render_g (mag : f64) (spec : FormatSpec) : option (list Z) :=
  let marker := if bool_decide (ty spec = Some (ch "G")) then ch "E" else ch "e" in
  render_general mag (default 6 (precision spec)) marker (alt spec) false.

(** *** Which specs a kind of value takes *)
Definition ty_in (cs : list Z) (spec : FormatSpec) : bool :=
  match ty spec with Some t => is_one_of cs t | None => false end.
Definition FLOAT_TYPES : list Z := [ch "f"; ch "F"; ch "e"; ch "E"; ch "%"; ch "g"; ch "G"].
Definition RADIX_TYPES : list Z := [ch "x"; ch "X"; ch "b"; ch "o"].

Definition spec_valid_for_scalar (spec : FormatSpec) (kind : ScalarKind) : result unit string :=
  match kind with
  | KInt =>
      if zero_coerce spec && negb (ty_in FLOAT_TYPES spec) then
        Err "format spec: negative-zero coercion 'z' not allowed on an integer"
      else if bool_decide (is_Some (precision spec)) && negb (ty_in FLOAT_TYPES spec) then
        Err "format spec: precision not allowed on an integer"
      else if bool_decide (group spec = Some (ch ",")) && ty_in RADIX_TYPES spec then
        Err ("format spec: grouping ',' not valid with type '" +:+ show_char (default 0 (ty spec)) +:+ "'")
      else Ok tt
  | KFloat =>
      match ty spec with
      | Some t =>
          if t =? ch "d" then Err "format spec: type 'd' not valid for a float"
          else if is_one_of RADIX_TYPES t then
            Err ("format spec: type '" +:+ show_char t +:+ "' not valid for a float")
          else Ok tt
      | None => Ok tt
      end
  | KStr =>
      if zero_coerce spec then Err "format spec: negative-zero coercion 'z' not allowed on a string"
      else match sign spec with
      | Some c => Err ("format spec: sign '" +:+ show_char c +:+ "' not allowed on a string")
      | None =>
      if alt spec then Err "format spec: alternate form '#' not allowed on a string"
      else if bool_decide (align spec = Some APad) then Err "format spec: '=' alignment not allowed on a string"
      else if zero_pad spec then Err "format spec: zero-pad '0' not allowed on a string"
      else match group spec with
      | Some sep => Err ("format spec: grouping '" +:+ show_char sep +:+ "' not allowed on a string")
      | None =>
      match ty spec with
      | Some t => Err ("format spec: type '" +:+ show_char t +:+ "' not valid for a string")
      | None => Ok tt
      end end end
  end.

(** *** Rendering the value: sign prefix, body, whether it is a number *)
Definition base : Type := list Z * list Z * bool.
Definition to_ascii_uppercase (s : list Z) : list Z := (fun c => if between 97 c 122 then c - 32 else c) <$> s.

(** The [match spec.ty] of [render_float]. *)
Definition float_body (spec : FormatSpec) (mag : f64) : option (list Z) :=
  let point s := if alt spec then force_point s else s in
  let prec := default 6 (precision spec) in
  match ty spec with
  | None => match precision spec with
            | Some p => render_general mag p (ch "e") (alt spec) true
            | None => s ← repr_float mag; Some (point s)
            end
  | Some t =>
      if is_one_of [ch "f"; ch "F"] t then Some (point (fmt_fixed prec mag))
      else if is_one_of [ch "e"; ch "E"] t then
        let marker := if t =? ch "E" then ch "E" else ch "e" in
        Some (point (normalize_exp (fmt_sci prec mag) marker))
      else if t =? ch "%" then
        Some (point (fmt_fixed prec (F64.mul mag (F64.of_i64 100))) ++ [ch "%"])
      else if is_one_of [ch "g"; ch "G"] t then render_g mag spec
      else None
  end.
Definition render_float (spec : FormatSpec) (x : f64) : option (result base string) :=
  match spec_valid_for_scalar spec KFloat with
  | Err e => Some (Err e)
  | Ok _ =>
      let neg := negb (is_nan x) && is_sign_negative x && (negb (F64.is_zero x) || is_sign_negative x) in
      body ← float_body spec (SFabs x);
      let body := if negb (is_finite x) && ty_in [ch "E"; ch "F"; ch "G"] spec then to_ascii_uppercase body else body in
      let neg := neg && negb (zero_coerce spec && is_finite x && forallb (fun c => negb (between 49 c 57)) body) in
      Some (Ok (sign_prefix neg (sign spec), body, true))
  end.

Definition render_int (spec : FormatSpec) (n : Z) : option (result base string) :=
  match spec_valid_for_scalar spec KInt with
  | Err e => Some (Err e)
  | Ok _ =>
      let mag := Z.abs n in
      let done body :=
        let radix := if alt spec then match ty spec with
                                      | Some t => if is_one_of RADIX_TYPES t then [ch "0"; t] else []
                                      | None => []
                                      end
                     else [] in
        Some (Ok (sign_prefix (n <? 0) (sign spec) ++ radix, body, true)) in
      match ty spec with
      | None => done (show_uint mag)
      | Some t =>
          if t =? ch "d" then done (show_uint mag)
          else if t =? ch "x" then done (digit_char <$> to_digits 16 mag)
          else if t =? ch "X" then done (digit_CHAR <$> to_digits 16 mag)
          else if t =? ch "b" then done (digit_char <$> to_digits 2 mag)
          else if t =? ch "o" then done (digit_char <$> to_digits 8 mag)
          else if is_one_of FLOAT_TYPES t then render_float spec (F64.of_i64 n)
          else None
      end
  end.
Definition render_str (spec : FormatSpec) (s : list Z) : option (result base string) :=
  match spec_valid_for_scalar spec KStr with
  | Err e => Some (Err e)
  | Ok _ => Some (Ok ([], match precision spec with Some p => take (Z.to_nat p) s | None => s end, false))
  end.
Definition render_base (spec : FormatSpec) (arg : FmtArg) : option (result base string) :=
  match arg with
  | FInt n => render_int spec n
  | FFloat x => render_float spec x
  | FStr s | FOther s => render_str spec s
  end.

(** *** Grouping, padding, alignment *)
(** [group_digits]: position [k] of [n], a separator before it where a group starts. *)
Definition group_digits (digits : list Z) (want : nat) (sep : Z) (size : nat) : list Z :=
  let n := Nat.max (length digits) want in
  let pad := (n - length digits)%nat in
  mjoin ((fun k => (if (0 <? k)%nat && ((n - k) mod size =? 0)%nat then [sep] else []) ++
                   [if (k <? pad)%nat then ch "0" else default 0 (digits !! (k - pad)%nat)]) <$> seq 0 n).
(** The [while] loop that grows the digit count: each round adds one, and [target] are enough. *)
Fixpoint want_loop (fuel want target size : nat) : nat :=
  match fuel with
  | O => want
  | S k => if (want + (want - 1) / size <? target)%nat then want_loop k (S want) target size else want
  end.
(** The leading digits, and the rest. *)
Fixpoint span_digits (is_digit : Z -> bool) (s : list Z) : list Z * list Z :=
  match s with
  | [] => ([], [])
  | c :: r => if is_digit c then let '(d, r) := span_digits is_digit r in (c :: d, r) else ([], s)
  end.
Definition is_ascii_hexdigit (c : Z) : bool := is_ascii_digit c || between 97 c 102 || between 65 c 70.

Definition zero_fill (spec : FormatSpec) (is_numeric : bool) : bool :=
  is_numeric && ((zero_pad spec && bool_decide (align spec = None)) ||
                 (bool_decide (align spec = Some APad) && (fill spec =? ch "0"))).
(** Step 1b of [apply]. *)
Definition group_body (spec : FormatSpec) (prefix body : list Z) (is_numeric : bool) : list Z :=
  match group spec with
  | None => body
  | Some sep =>
      let size := if ty_in RADIX_TYPES spec then 4%nat else 3%nat in
      let '(digits, tail) := span_digits (if ty_in [ch "x"; ch "X"] spec then is_ascii_hexdigit else is_ascii_digit) body in
      if bool_decide (digits = []) then body
      else
        let target := (Z.to_nat (width spec) - (length prefix + length tail))%nat in
        let want := if zero_fill spec is_numeric then want_loop target (length digits) target size else length digits in
        group_digits digits want sep size ++ tail
  end.
Definition push_fill (c : Z) (n : nat) : list Z := replicate n c.
(** Steps 2 and 3 of [apply]. *)
Definition pad_body (spec : FormatSpec) (prefix body : list Z) (is_numeric : bool) : list Z :=
  let w := Z.to_nat (width spec) in
  let full := prefix ++ body in
  let pad := (w - length full)%nat in
  if zero_pad spec && is_numeric && bool_decide (align spec = None) then prefix ++ push_fill (ch "0") pad ++ body
  else if (w <=? length full)%nat then full
  else match default (if is_numeric then ARight else ALeft) (align spec) with
       | ALeft => full ++ push_fill (fill spec) pad
       | ARight => push_fill (fill spec) pad ++ full
       | ACenter => push_fill (fill spec) (pad / 2) ++ full ++ push_fill (fill spec) (pad - pad / 2)
       | APad => prefix ++ push_fill (fill spec) pad ++ body
       end.
Definition apply (spec : FormatSpec) (arg : FmtArg) (out : list Z) : option (result (list Z) string) :=
  r ← render_base spec arg;
  Some (match r with
        | Err e => Err e
        | Ok (prefix, body, is_numeric) =>
            Ok (out ++ pad_body spec prefix (group_body spec prefix body is_numeric) is_numeric)
        end).

(** [op_to_str_fmt] ([vm/display.rs]), the nested fields: [nested] are the values above the formatted
    one, width before precision, each with its [int_val]. *)
Definition resolve_spec (spec : FormatSpec) (nested : list (option Z)) : option (result FormatSpec string) :=
  let set w p := mkSpec (fill spec) (align spec) (sign spec) (zero_coerce spec) (alt spec) (zero_pad spec)
                        w (dyn_width spec) (dyn_precision spec) (group spec) p (ty spec) in
  let with_width w nested :=
    if dyn_precision spec then
      v ← head nested;
      Some (p <-- field_from_int v "precision";; Ok (set w (Some p)))
    else Some (Ok (set w (precision spec))) in
  if dyn_width spec then
    v ← head nested;
    match field_from_int v "width" with
    | Ok w => with_width w (tail nested)
    | Err e => Some (Err e)
    end
  else with_width (width spec) nested.

(** ** The grammar of specs

    [[[fill]align][sign][z][#][0][width][grouping][.precision][type]], a slot each. *)
Inductive number := NField | NDigits (ds : list Z).
Record slots := mkSlots {
  sl_fill : option Z;
  sl_align : option Z;
  sl_sign : option Z;
  sl_z : bool;
  sl_alt : bool;
  sl_zero : bool;
  sl_width : number;
  sl_group : option Z;
  sl_prec : option number;
  sl_type : option Z;
}.
Definition opt_text (o : option Z) : list SpecItem := match o with Some c => [Ch c] | None => [] end.
Definition flag_text (b : bool) (c : Z) : list SpecItem := if b then [Ch c] else [].
Definition number_text (n : number) : list SpecItem := match n with NField => [Field] | NDigits ds => Ch <$> ds end.
Definition number_value (n : number) : Z := match n with NField => 0 | NDigits ds => dec_value ds end.
Definition is_nested (n : number) : bool := match n with NField => true | NDigits _ => false end.

(** The text of the slots from the type backwards. *)
Definition prec_text (sl : slots) : list SpecItem :=
  match sl_prec sl with Some n => Ch (ch ".") :: number_text n | None => [] end ++ opt_text (sl_type sl).
Definition width_text (sl : slots) : list SpecItem :=
  number_text (sl_width sl) ++ opt_text (sl_group sl) ++ prec_text sl.
Definition flags_text (sl : slots) : list SpecItem :=
  opt_text (sl_sign sl) ++ flag_text (sl_z sl) (ch "z") ++ flag_text (sl_alt sl) (ch "#") ++
  flag_text (sl_zero sl) (ch "0") ++ width_text sl.
Definition slots_text (sl : slots) : list SpecItem := opt_text (sl_fill sl) ++ opt_text (sl_align sl) ++ flags_text sl.

Definition number_ok (n : number) : Prop :=
  match n with NField => True | NDigits ds => Forall (fun c => is_ascii_digit c = true) ds /\ dec_value ds <= MAX_FIELD end.
Definition opt_ok (p : Z -> bool) (o : option Z) : Prop := match o with Some c => p c = true | None => True end.
(** A slot holds one of its characters; a fill needs an align; the first [0] is the flag; digits
    stay within [MAX_FIELD]; a point needs a precision. *)
Record slots_ok (sl : slots) : Prop := {
  ok_fill : is_Some (sl_fill sl) -> is_Some (sl_align sl);
  ok_align : opt_ok is_align (sl_align sl);
  ok_sign : opt_ok (is_one_of [ch "+"; ch "-"; ch " "]) (sl_sign sl);
  ok_zero : sl_zero sl = false -> head (number_text (sl_width sl)) <> Some (Ch (ch "0"));
  ok_width : number_ok (sl_width sl);
  ok_group : opt_ok (is_one_of [ch ","; ch "_"]) (sl_group sl);
  ok_prec : match sl_prec sl with Some n => number_ok n /\ n <> NDigits [] | None => True end;
  ok_type : opt_ok is_type (sl_type sl);
}.
(** What the slots mean. *)
Definition slots_spec (sl : slots) : FormatSpec :=
  mkSpec (default (if sl_zero sl then ch "0" else ch " ") (sl_fill sl)) (to_align <$> sl_align sl) (sl_sign sl)
    (sl_z sl) (sl_alt sl) (sl_zero sl) (number_value (sl_width sl)) (is_nested (sl_width sl))
    match sl_prec sl with Some n => is_nested n | None => false end
    (sl_group sl) (number_value <$> sl_prec sl) (sl_type sl).
