(* ===== verification/FmtGrammar.v ===== *)
(** * The parser of format specs against its grammar

    [parse_nested] accepts exactly the texts of well-formed slots, and returns their meaning.  The
    parser works by index; the proofs follow the items that are left, [drop i items]. *)

From Stdlib Require Import SpecFloat Ascii.
From stdpp Require Import strings.
From S2P Require Import Prelude Slice Token Lexer Decimal FmtSpec.
Local Open Scope Z_scope.
Local Open Scope chz_scope.

Definition hd_ch (s : list SpecItem) : option Z := match s with Ch c :: _ => Some c | _ => None end.

Section Left.
Context (items : list SpecItem).

Lemma chr_drop i : chr items i = hd_ch (drop i items).
Proof.
  unfold chr. replace (items !! i) with (drop i items !! 0%nat) by (by rewrite lookup_drop, Nat.add_0_r). by destruct (drop i items) as [|[c|] s].
Qed.
Lemma is_field_drop i : is_field items i = match drop i items with Field :: _ => true | _ => false end.
Proof.
  unfold is_field. replace (items !! i) with (drop i items !! 0%nat) by (by rewrite lookup_drop, Nat.add_0_r). by destruct (drop i items) as [|[c|] s].
Qed.
Lemma drop_next i x s : drop i items = x :: s -> drop (S i) items = s.
Proof. intros H. replace (S i) with (i + 1)%nat by lia. by rewrite <- drop_drop, H. Qed.
Lemma drop_more i s t : drop i items = s ++ t -> drop (i + length s) items = t.
Proof. intros H. by rewrite <- drop_drop, H, drop_app_length. Qed.

(** The items [s] are left at index [i]. *)
Definition left_at (i : nat) (s : list SpecItem) : Prop := drop i items = s /\ (i <= length items)%nat.
Lemma left_next i x s : left_at i (x :: s) -> left_at (S i) s.
Proof. intros [H Hi]. split; [by eapply drop_next|]. apply (f_equal length) in H. rewrite length_drop in H. simpl in H. lia. Qed.
Lemma left_more i s t : left_at i (s ++ t) -> left_at (i + length s) t.
Proof. intros [H Hi]. split; [by eapply drop_more|]. apply (f_equal length) in H. rewrite length_drop, length_app in H. lia. Qed.

(** Each slot, both ways: it takes a character that fits, and only that. *)
Lemma char_slot_take p i o s : left_at i (opt_text o ++ s) -> opt_ok p o -> opt_ok (fun c => negb (p c)) (hd_ch s) ->
  exists j, char_slot items p i = (o, j) /\ left_at j s.
Proof.
  intros Hd Ho Hs. unfold char_slot, chr_if. rewrite chr_drop, (proj1 Hd). destruct o as [c|]; simpl in *.
  - rewrite Ho. exists (S i). split; [done|]. by eapply left_next.
  - exists i. split; [|done]. destruct (hd_ch s) as [c|]; [|done]. simpl in Hs. by destruct (p c).
Qed.
Lemma char_slot_inv p i o j : char_slot items p i = (o, j) ->
  drop i items = opt_text o ++ drop j items /\ opt_ok p o.
Proof.
  unfold char_slot, chr_if. rewrite chr_drop. destruct (drop i items) as [|[c|] s] eqn:E; simpl; [by intros [= <- <-]| |by intros [= <- <-]].
  destruct (p c) eqn:P; intros [= <- <-]; simpl; [by rewrite (drop_next _ _ _ E)|by rewrite E].
Qed.
Lemma flag_slot_take c i b s : left_at i (flag_text b c ++ s) -> (b = false -> hd_ch s <> Some c) ->
  exists j, flag_slot items c i = (b, j) /\ left_at j s.
Proof.
  intros Hd Hs. unfold flag_slot. rewrite chr_drop, (proj1 Hd). destruct b; simpl in *.
  - rewrite bool_decide_eq_true_2 by done. exists (S i). split; [done|]. by eapply left_next.
  - rewrite bool_decide_eq_false_2 by auto. by exists i.
Qed.
Lemma flag_slot_inv c i b j : flag_slot items c i = (b, j) ->
  drop i items = flag_text b c ++ drop j items /\ (b = false -> hd_ch (drop j items) <> Some c).
Proof.
  unfold flag_slot. rewrite chr_drop. case_bool_decide as H; intros [= <- <-]; [|done]. simpl.
  destruct (drop i items) as [|[d|] s] eqn:E; try done. injection H as ->. by rewrite (drop_next _ _ _ E).
Qed.

Definition not_digit (s : list SpecItem) : Prop := opt_ok (fun c => negb (is_ascii_digit c)) (hd_ch s).
Lemma digits_split (s : list SpecItem) : exists ds t, s = (Ch <$> ds) ++ t /\ Forall (fun c => is_ascii_digit c = true) ds /\ not_digit t.
Proof.
  induction s as [|[c|] s IH]; [by exists [], []| |by exists [], (Field :: s)]. destruct IH as (ds & t & -> & H1 & H2).
  destruct (is_ascii_digit c) eqn:E; [exists (c :: ds), t; by repeat constructor|].
  exists [], (Ch c :: (Ch <$> ds) ++ t). split; [done|]. split; [done|]. unfold not_digit. simpl. by rewrite E.
Qed.

Lemma digit_bounds c : is_ascii_digit c = true -> 48 <= c <= 57.
Proof. unfold is_ascii_digit, between. intros [?%Z.leb_le ?%Z.leb_le]%andb_prop. lia. Qed.

Lemma fold_ge ds : forall acc, Forall (fun c => is_ascii_digit c = true) ds -> 0 <= acc ->
  acc <= fold_left (fun v c => v * 10 + (c - 48)) ds acc.
Proof.
  induction ds as [|c ds IH]; intros acc Hd Ha; simpl; [lia|]. inversion_clear Hd as [|? ? Hc Hds].
  apply digit_bounds in Hc. specialize (IH (acc * 10 + (c - 48)) Hds). lia.
Qed.

Lemma digit_loop_eq what ds : forall fuel acc saw i s, drop i items = (Ch <$> ds) ++ s ->
  Forall (fun c => is_ascii_digit c = true) ds -> not_digit s -> (length ds <= fuel)%nat -> 0 <= acc <= MAX_FIELD ->
  digit_loop items fuel what acc saw i =
  let n := fold_left (fun v c => v * 10 + (c - 48)) ds acc in
  if n <=? MAX_FIELD then Ok (n, saw || negb (bool_decide (ds = [])), (i + length ds)%nat) else Err (EXCEEDS what).
Proof.
  induction ds as [|c ds IH]; intros fuel acc saw i s Hd Hds Hs Hf Ha; cbv zeta; cbn [fold_left length].
  - replace (acc <=? MAX_FIELD) with true by (symmetry; apply Z.leb_le; lia). rewrite orb_false_r, Nat.add_0_r.
    destruct fuel as [|k]; [done|]. cbn [digit_loop]. unfold chr_if. rewrite chr_drop, Hd. simpl. unfold not_digit in Hs.
    destruct (hd_ch s) as [c|]; [|done]. simpl in Hs. by destruct (is_ascii_digit c).
  - inversion_clear Hds as [|? ? Hc Hds']. destruct fuel as [|k]; [simpl in Hf; lia|]. cbn [digit_loop]. unfold chr_if.
    rewrite chr_drop, Hd. cbn [hd_ch fmap list_fmap app]. rewrite Hc. unfold bump.
    pose proof (digit_bounds _ Hc). pose proof (fold_ge ds (acc * 10 + (c - 48)) Hds' ltac:(lia)).
    destruct (Z.ltb_spec MAX_FIELD (acc * 10 + (c - 48))).
    + destruct (Z.leb_spec (fold_left (fun v c => v * 10 + (c - 48)) ds (acc * 10 + (c - 48))) MAX_FIELD); [lia|done].
    + rewrite (IH k (acc * 10 + (c - 48)) true (S i) s); [|exact (drop_next i (Ch c) _ Hd)|done|done|simpl in Hf; lia|lia].
      cbv zeta. cbn [orb]. rewrite (bool_decide_eq_false_2 (c :: ds = [])), orb_true_r by done.
      by replace (S i + length ds)%nat with (i + S (length ds))%nat by lia.
Qed.

Definition saw_number (n : number) : bool := match n with NDigits [] => false | _ => true end.
Lemma drop_length_le i ds (s : list SpecItem) : drop i items = (Ch <$> ds) ++ s -> (length ds <= length items)%nat.
Proof. intros H%(f_equal length). rewrite length_drop, length_app, length_fmap in H. lia. Qed.

Lemma number_slot_take what i n s : left_at i (number_text n ++ s) -> number_ok n -> not_digit s -> head s <> Some Field ->
  exists j, number_slot items what i = Ok (number_value n, is_nested n, saw_number n, j) /\ left_at j s.
Proof.
  intros Hd Hn Hs Hf. unfold number_slot. rewrite is_field_drop, (proj1 Hd). destruct n as [|ds]; simpl.
  - exists (S i). split; [done|]. exact (left_next i Field _ Hd).
  - destruct Hn as [Hds Hv]. exists (i + length ds)%nat. replace (match (Ch <$> ds) ++ s with Field :: _ => true | _ => false end) with false.
    2:{ destruct ds; [|done]. simpl. by destruct s as [|[]]. }
    rewrite (digit_loop_eq what ds _ _ _ _ s); [|apply Hd|done..|eapply drop_length_le, Hd|done]. cbv zeta. fold (dec_value ds).
    replace (dec_value ds <=? MAX_FIELD) with true by (symmetry; by apply Z.leb_le). split; [by destruct ds|].
    rewrite <- (length_fmap Ch ds). by apply left_more.
Qed.
Lemma number_slot_inv what i v d saw j : number_slot items what i = Ok (v, d, saw, j) ->
  exists n, drop i items = number_text n ++ drop j items /\ number_ok n /\ v = number_value n /\ d = is_nested n /\ saw = saw_number n.
Proof.
  unfold number_slot. rewrite is_field_drop. destruct (digits_split (drop i items)) as (ds & t & E & Hds & Ht).
  destruct (match drop i items with Field :: _ => true | _ => false end) eqn:F.
  - destruct (drop i items) as [|[c|] s] eqn:Ed; try done. intros [= <- <- <- <-]. exists NField. by rewrite (drop_next _ _ _ Ed).
  - rewrite (digit_loop_eq what ds _ _ _ _ t); [|done..|by eapply drop_length_le|done]. cbv zeta. fold (dec_value ds).
    destruct (Z.leb_spec (dec_value ds) MAX_FIELD); [|done]. intros [= <- <- <- <-]. exists (NDigits ds).
    rewrite <- (length_fmap Ch ds), (drop_more _ _ _ E), E. by destruct ds.
Qed.

Lemma type_slot_take fe i t : left_at i (opt_text t) -> opt_ok is_type t -> type_slot items fe i = Ok t.
Proof.
  intros [Hd Hi] Ht. unfold type_slot. rewrite chr_drop, Hd. pose proof (f_equal length Hd) as Hl. rewrite length_drop in Hl.
  destruct t as [t|]; simpl in *.
  - destruct (Nat.ltb_spec i (length items)); [|lia]. rewrite Ht. destruct (Nat.eqb_spec (S i) (length items)); [done|lia].
  - destruct (Nat.ltb_spec i (length items)); [lia|]. destruct (Nat.eqb_spec i (length items)); [done|lia].
Qed.
Lemma type_slot_inv fe i t : type_slot items fe i = Ok t -> drop i items = opt_text t /\ opt_ok is_type t.
Proof.
  unfold type_slot. rewrite chr_drop. destruct (Nat.ltb_spec i (length items)).
  - destruct (drop i items) as [|[c|] s] eqn:E; simpl; [done| |done]. destruct (is_type c) eqn:T.
    + destruct (Nat.eqb_spec (S i) (length items)) as [Hl|]; [|by case_bool_decide]. intros [= <-]. split; [|done].
      pose proof (f_equal length E) as El. rewrite length_drop in El. simpl in El. destruct s; [done|simpl in El; lia].
    + by destruct (bool_decide (fe = Some i) && is_align c).
  - destruct (Nat.eqb_spec i (length items)) as [->|]; [|by case_bool_decide]. intros [= <-]. by rewrite drop_all.
Qed.
End Left.

Definition no_align (s : list SpecItem) : Prop :=
  opt_ok (fun c => negb (is_align c)) (hd_ch s) /\ opt_ok (fun c => negb (is_align c)) (hd_ch (tail s)).
Lemma align_slot_take items f a s : items = opt_text f ++ opt_text a ++ s -> (is_Some f -> is_Some a) -> opt_ok is_align a -> no_align s ->
  exists j, align_slot items = (f, to_align <$> a, j) /\ left_at items j s.
Proof.
  intros -> Hf Ha [H1 H2]. unfold align_slot, chr_if. rewrite !chr_drop. destruct f as [f|], a as [a|]; simpl in *.
  - rewrite Ha. exists 2%nat. split; [done|]. split; [done|simpl; lia].
  - by destruct Hf.
  - rewrite drop_0, Ha. exists 1%nat. split; [|split; [done|simpl; lia]]. destruct (hd_ch s) as [c|]; simpl in *; [|done]. by destruct (is_align c).
  - exists 0%nat. split; [|split; [done|lia]]. destruct s as [|[c|] s]; simpl in *; [done| |by destruct (hd_ch (drop 0 s))].
    rewrite drop_0. destruct (is_align c); [done|]. destruct (hd_ch s) as [d|]; simpl in *; [|done]. by destruct (is_align d).
Qed.
Lemma align_slot_inv items f a j : align_slot items = (f, a, j) ->
  exists c, items = opt_text f ++ opt_text c ++ drop j items /\ a = to_align <$> c /\ (is_Some f -> is_Some c) /\ opt_ok is_align c.
Proof.
  unfold align_slot, chr_if. rewrite !chr_drop. destruct items as [|[c|] [|[d|] s]]; simpl.
  all: repeat match goal with |- context [if is_align ?x then _ else _] => destruct (is_align x) eqn:? end; intros [= <- <- <-].
  all: first [by exists None|by exists (Some c)|by exists (Some d)].
Qed.

(** Membership in an explicit list, case by case. *)
Ltac mem_cases H := repeat (apply elem_of_cons in H as [->|H]; [|]); [..|by apply elem_of_nil in H].

(** ** The characters of each suffix of a spec *)
Definition C_TYPE : list Z := [ch "d"; ch "f"; ch "F"; ch "x"; ch "X"; ch "b"; ch "o"; ch "e"; ch "E"; ch "%"; ch "g"; ch "G"].
Definition C_PREC : list Z := ch "." :: seqZ 48 10 ++ C_TYPE.
Definition C_WIDTH : list Z := ch "," :: ch "_" :: C_PREC.
Definition within (cs : list Z) (s : list SpecItem) : Prop := Forall (fun x => match x with Ch c => c ∈ cs | Field => True end) s.

Lemma within_mono cs cs' s : cs ⊆ cs' -> within cs s -> within cs' s.
Proof. intros H. apply Forall_impl. intros [c|]; [apply H|done]. Qed.
Lemma within_opt p cs o : opt_ok p o -> (forall c, p c = true -> c ∈ cs) -> within cs (opt_text o).
Proof. destruct o as [c|]; intros Ho H; repeat constructor. by apply H. Qed.
Lemma one_of_in cs c : is_one_of cs c = true -> c ∈ cs.
Proof. apply bool_decide_eq_true_1. Qed.
Lemma within_flag cs b c : c ∈ cs -> within cs (flag_text b c).
Proof. intros. destruct b; by repeat constructor. Qed.
Lemma within_number cs n : number_ok n -> seqZ 48 10 ⊆ cs -> within cs (number_text n).
Proof.
  intros Hn Hc. destruct n as [|ds]; [by repeat constructor|]. destruct Hn as [Hds _]. apply Forall_fmap. eapply Forall_impl; [|exact Hds].
  intros c Hd%digit_bounds. apply Hc, elem_of_seqZ. lia.
Qed.
Lemma within_prec sl : slots_ok sl -> within C_PREC (prec_text sl).
Proof.
  intros Hok. unfold prec_text. apply Forall_app. split.
  - pose proof (ok_prec _ Hok) as Hp. destruct (sl_prec sl) as [n|]; [|done]. constructor; [by left|]. apply within_number; [apply Hp|].
    intros c Hc. right. apply elem_of_app. by left.
  - eapply within_opt; [exact (ok_type _ Hok)|]. intros c Hc%one_of_in. right. apply elem_of_app. by right.
Qed.
Lemma within_width sl : slots_ok sl -> within C_WIDTH (width_text sl).
Proof.
  intros Hok. unfold width_text. apply Forall_app. split; [|apply Forall_app; split].
  - apply within_number; [exact (ok_width _ Hok)|]. intros c Hc. do 3 right. apply elem_of_app. by left.
  - eapply within_opt; [exact (ok_group _ Hok)|]. intros c Hc%one_of_in. mem_cases Hc; by apply (bool_decide_unpack _).
  - eapply within_mono; [|by apply within_prec]. intros c Hc. by do 2 right.
Qed.

(** A predicate that no character of the list satisfies fails at the head. *)
Lemma within_head p cs s : within cs s -> forallb (fun c => negb (p c)) cs = true -> opt_ok (fun c => negb (p c)) (hd_ch s).
Proof.
  intros Hs Hp. destruct s as [|[c|] s]; [done| |done]. apply Forall_inv in Hs. rewrite forallb_forall in Hp. apply Hp. by apply list_elem_of_In.
Qed.
Lemma within_not c cs s : within cs s -> bool_decide (c ∈ cs) = false -> hd_ch s <> Some c.
Proof. intros Hs Hc%bool_decide_eq_false_1 E. destruct s as [|[d|] s]; [done| |done]. injection E as ->. by apply Forall_inv in Hs. Qed.
Lemma within_tail cs s : within cs s -> within cs (tail s).
Proof. destruct s; [done|]. intros H. by inversion H. Qed.

(** What follows the width does not continue it. *)
Lemma after_width sl : slots_ok sl ->
  not_digit (opt_text (sl_group sl) ++ prec_text sl) /\ head (opt_text (sl_group sl) ++ prec_text sl) <> Some Field /\
  hd_ch (opt_text (sl_group sl) ++ prec_text sl) <> Some (ch "0").
Proof.
  intros Hok. pose proof (ok_group _ Hok) as Hg. pose proof (ok_type _ Hok) as Ht. unfold prec_text, not_digit.
  destruct (sl_group sl) as [g|]; simpl.
  { apply one_of_in in Hg. mem_cases Hg; done. }
  destruct (sl_prec sl) as [n|]; simpl; [done|]. destruct (sl_type sl) as [t|]; simpl; [|done].
  apply one_of_in in Ht. mem_cases Ht; done.
Qed.

Lemma within_flags sl : slots_ok sl ->
  let w0 := flag_text (sl_zero sl) (ch "0") ++ width_text sl in
  let w1 := flag_text (sl_alt sl) (ch "#") ++ w0 in let w2 := flag_text (sl_z sl) (ch "z") ++ w1 in
  within C_WIDTH w0 /\ within (ch "#" :: C_WIDTH) w1 /\ within (ch "z" :: ch "#" :: C_WIDTH) w2 /\
  within (ch "+" :: ch "-" :: ch " " :: ch "z" :: ch "#" :: C_WIDTH) (flags_text sl).
Proof.
  intros Hok w0 w1 w2.
  assert (H0 : within C_WIDTH w0).
  { apply Forall_app. split; [apply within_flag; by apply (bool_decide_unpack _)|by apply within_width]. }
  assert (H1 : within (ch "#" :: C_WIDTH) w1).
  { apply Forall_app. split; [apply within_flag; by left|]. eapply within_mono, H0. intros c Hc. by right. }
  assert (H2 : within (ch "z" :: ch "#" :: C_WIDTH) w2).
  { apply Forall_app. split; [apply within_flag; by left|]. eapply within_mono, H1. intros c Hc. by right. }
  split; [done|]. split; [done|]. split; [done|]. apply Forall_app. split.
  - eapply within_opt; [exact (ok_sign _ Hok)|]. intros c Hc%one_of_in. mem_cases Hc; by apply (bool_decide_unpack _).
  - eapply within_mono, H2. intros c Hc. by do 3 right.
Qed.

Lemma zero_head sl : slots_ok sl -> sl_zero sl = false -> hd_ch (width_text sl) <> Some (ch "0").
Proof.
  intros Hok Hz. pose proof (ok_zero _ Hok Hz) as H. pose proof (after_width _ Hok) as (_ & _ & H').
  unfold width_text. destruct (sl_width sl) as [|[|d ds]]; simpl in *; [done|done|]. congruence.
Qed.

(** The parser reads the text of well-formed slots. *)
Lemma parse_accepts sl : slots_ok sl -> parse_nested (slots_text sl) = Ok (slots_spec sl).
Proof.
  intros Hok. set (items := slots_text sl). pose proof (within_flags _ Hok) as (H0 & H1 & H2 & H3). cbv zeta in *.
  pose proof (after_width _ Hok) as (Hnd & Hnf & _). unfold parse_nested.
  destruct (align_slot_take items (sl_fill sl) (sl_align sl) (flags_text sl) eq_refl) as (i1 & -> & L1); [apply Hok..| |].
  { split; eapply within_head; [exact H3|done|apply within_tail, H3|done]. }
  edestruct (char_slot_take items) as (i2 & -> & L2); [exact L1|exact (ok_sign _ Hok)|eapply within_head; [exact H2|done]|].
  edestruct (flag_slot_take items (ch "z")) as (i3 & -> & L3); [exact L2|intros _; eapply within_not; [exact H1|done]|].
  edestruct (flag_slot_take items (ch "#")) as (i4 & -> & L4); [exact L3|intros _; eapply within_not; [exact H0|done]|].
  edestruct (flag_slot_take items (ch "0")) as (i5 & -> & L5); [exact L4|by apply zero_head|].
  edestruct (number_slot_take items "width") as (i6 & -> & L6); [exact L5|exact (ok_width _ Hok)|done|done|].
  edestruct (char_slot_take items (is_one_of [ch ","; ch "_"])) as (i7 & -> & L7);
    [exact L6|exact (ok_group _ Hok)|eapply within_head; [by apply within_prec|done]|].
  pose proof (ok_type _ Hok) as Ht. pose proof (ok_prec _ Hok) as Hp. unfold prec_text in L7.
  assert (Hth : not_digit (opt_text (sl_type sl)) /\ head (opt_text (sl_type sl)) <> Some Field /\ hd_ch (opt_text (sl_type sl)) <> Some (ch ".")).
  { destruct (sl_type sl) as [t|]; [|done]. apply one_of_in in Ht. mem_cases Ht; done. }
  destruct Hth as (T1 & T2 & T3). unfold slots_spec. destruct (sl_prec sl) as [n|].
  - edestruct (flag_slot_take items (ch ".") i7 true) as (i8 & -> & L8); [exact L7|done|].
    edestruct (number_slot_take items "precision") as (i9 & -> & L9); [exact L8|apply Hp|done|done|].
    replace (saw_number n) with true by (destruct n as [|[|]]; [done|by destruct Hp|done]). cbn [negb].
    by rewrite (type_slot_take items _ _ _ L9 Ht).
  - edestruct (flag_slot_take items (ch ".") i7 false) as (i8 & -> & L8); [exact L7|done|].
    by rewrite (type_slot_take items _ _ _ L8 Ht).
Qed.

(** What the parser accepts is the text of well-formed slots. *)
Lemma parse_slots items fs : parse_nested items = Ok fs -> exists sl, slots_ok sl /\ items = slots_text sl /\ fs = slots_spec sl.
Proof.
  unfold parse_nested. destruct (align_slot items) as [[f a] i1] eqn:E1. apply align_slot_inv in E1 as (al & D1 & -> & Hf & Ha).
  destruct (char_slot items _ i1) as [sg i2] eqn:E2. apply char_slot_inv in E2 as [D2 Hsg].
  destruct (flag_slot items (ch "z") i2) as [z i3] eqn:E3. apply flag_slot_inv in E3 as [D3 _].
  destruct (flag_slot items (ch "#") i3) as [al' i4] eqn:E4. apply flag_slot_inv in E4 as [D4 _].
  destruct (flag_slot items (ch "0") i4) as [zr i5] eqn:E5. apply flag_slot_inv in E5 as [D5 Hz].
  destruct (number_slot items "width" i5) as [[[[w dw] sw] i6]|] eqn:E6; [|done].
  apply number_slot_inv in E6 as (nw & D6 & Hw & -> & -> & ->).
  destruct (char_slot items _ i6) as [g i7] eqn:E7. apply char_slot_inv in E7 as [D7 Hg].
  destruct (flag_slot items (ch ".") i7) as [dot i8] eqn:E8. apply flag_slot_inv in E8 as [D8 _].
  assert (Hz' : zr = false -> list.head (number_text nw) <> Some (Ch (ch "0"))).
  { intros E C. apply (Hz E). rewrite D6. destruct nw as [|[|d ds]]; try done. by injection C as ->. }
  destruct dot.
  - destruct (number_slot items "precision" i8) as [[[[p dp] sp] i9]|] eqn:E9; [|done].
    apply number_slot_inv in E9 as (np & D9 & Hp & -> & -> & ->). destruct (saw_number np) eqn:Hs; [|done]. cbn [negb].
    destruct (type_slot items _ i9) as [t|] eqn:E10; [|done]. apply type_slot_inv in E10 as [D10 Ht]. intros [= <-].
    exists (mkSlots f al sg z al' zr nw g (Some np) t). split; [|split; [|done]].
    + split; simpl; try done. split; [done|]. by intros ->.
    + unfold slots_text, flags_text, width_text, prec_text. cbn. etrans; [exact D1|]. by rewrite D2, D3, D4, D5, D6, D7, D8, D9, D10.
  - destruct (type_slot items _ i8) as [t|] eqn:E10; [|done]. apply type_slot_inv in E10 as [D10 Ht]. intros [= <-].
    exists (mkSlots f al sg z al' zr nw g None t). split; [by split|split; [|done]].
    unfold slots_text, flags_text, width_text, prec_text. cbn. etrans; [exact D1|]. by rewrite D2, D3, D4, D5, D6, D7, D8, D10.
Qed.

(** C30: the parser of format specs is its grammar. [parse_nested] accepts exactly the texts of
    well-formed slots: an optional align with an optional fill before it, a sign, [z], [#], [0], a
    width, a grouping, a point with a precision, a type, in this order, the numbers at most
    [MAX_FIELD]; and it returns what those slots mean, a nested field only as width or precision. *)
Theorem parse_nested_grammar (items : list SpecItem) (fs : FormatSpec) :
  parse_nested items = Ok fs <-> exists sl, slots_ok sl /\ items = slots_text sl /\ fs = slots_spec sl.
Proof. split; [apply parse_slots|]. intros (sl & Hok & -> & ->). by apply parse_accepts. Qed.

(** The numbers of a spec that the parser accepts are bounded. *)
Lemma parse_bounds items fs : parse_nested items = Ok fs -> width fs <= MAX_FIELD /\ forall p, precision fs = Some p -> p <= MAX_FIELD.
Proof.
  intros (sl & Hok & -> & ->)%parse_slots. assert (N : forall n, number_ok n -> number_value n <= MAX_FIELD) by (intros [|ds]; [done|by intros [_ H]]).
  split; [apply N, Hok|]. pose proof (ok_prec _ Hok) as Hp. simpl. destruct (sl_prec sl); [|done]. intros p [= <-]. apply N, Hp.
Qed.

(** What the renderer relies on: the parser's type and grouping characters. *)
Definition spec_wf (spec : FormatSpec) : Prop :=
  opt_ok is_type (ty spec) /\ opt_ok (is_one_of [ch ","; ch "_"]) (group spec).
Lemma parse_wf items fs : parse_nested items = Ok fs -> spec_wf fs.
Proof. intros (sl & Hok & -> & ->)%parse_slots. split; apply Hok. Qed.
Lemma resolve_wf spec nested fs : spec_wf spec -> resolve_spec spec nested = Some (Ok fs) -> spec_wf fs.
Proof.
  unfold resolve_spec. intros Hwf. destruct (dyn_width spec), (dyn_precision spec), nested as [|v [|v' nested]]; simpl; try done;
    repeat (destruct (field_from_int _ _); simpl; try done); by intros [= <-].
Qed.
