(* ===== verification/FloatText.v ===== *)
(** * A float's text names the float

    The texts of [Decimal] read back by [parse_f64], the reader the lexer uses for float literals,
    and the round trip of [repr_float] ([src/src/fmtspec.rs]). *)

From Stdlib Require Import SpecFloat Ascii.
From stdpp Require Import strings.
From S2P Require Import Prelude Slice Token Lexer Decimal FmtSpec FmtGrammar.
Import F64.
Local Open Scope Z_scope.
Local Open Scope chz_scope.

(** ** Digits as characters *)
Abbreviation digit_text := (Forall (fun c => is_ascii_digit c = true)).

Lemma digit_char_ok d : 0 <= d < 10 -> digit_char d = 48 + d /\ is_ascii_digit (digit_char d) = true.
Proof. intros H. unfold digit_char. destruct (Z.ltb_spec d 10); [|lia]. split; [done|]. unfold is_ascii_digit, between. lia. Qed.

Lemma dec_value_digits ds : Forall (fun d => 0 <= d < 10) ds -> dec_value (digit_char <$> ds) = of_digits 10 ds.
Proof.
  intros H. unfold dec_value, of_digits. generalize 0 as v. induction ds as [|d ds IH]; intros v; [done|].
  inversion_clear H as [|? ? Hd Hds]. cbn [fmap list_fmap fold_left]. rewrite (proj1 (digit_char_ok _ Hd)).
  replace (v * 10 + (48 + d - 48)) with (v * 10 + d) by lia. by apply IH.
Qed.

Lemma show_uint_spec n : 0 <= n ->
  digit_text (show_uint n) /\ dec_value (show_uint n) = n /\ show_uint n <> [] /\
  (0 < n -> Z.of_nat (length (show_uint n)) = ndigits n).
Proof.
  intros Hn. destruct (to_digits_spec 10 n) as [(Hv & Hr & Hne & _) _]; [lia|done|]. unfold show_uint.
  split; [|split; [by rewrite dec_value_digits|split]].
  - apply Forall_fmap. eapply Forall_impl; [|exact Hr]. intros d Hd. by apply digit_char_ok.
  - by destruct (to_digits 10 n).
  - intros H. unfold ndigits. rewrite length_fmap. destruct (Z.eqb_spec n 0); [lia|done].
Qed.

Lemma dec_value_app a b : dec_value (a ++ b) = dec_value a * 10 ^ Z.of_nat (length b) + dec_value b.
Proof.
  unfold dec_value. rewrite fold_left_app. generalize (fold_left (fun v c => v * 10 + (c - 48)) a 0). intros v.
  cut (forall v w, fold_left (fun v c => v * 10 + (c - 48)) b (v + w) = v * 10 ^ Z.of_nat (length b) + fold_left (fun v c => v * 10 + (c - 48)) b w).
  { intros H. by rewrite <- H, Z.add_0_r. }
  clear v. induction b as [|y b IH]; intros v w; [simpl; lia|]. cbn [fold_left length].
  replace ((v + w) * 10 + (y - 48)) with (v * 10 + (w * 10 + (y - 48))) by lia. rewrite IH, Nat2Z.inj_succ, Z.pow_succ_r by lia. lia.
Qed.
Lemma zeros_spec n : digit_text (zeros n) /\ dec_value (zeros n) = 0 /\ Z.of_nat (length (zeros n)) = Z.max n 0.
Proof.
  unfold zeros. split; [by apply Forall_replicate|]. split; [|rewrite length_replicate; lia].
  unfold dec_value. induction (Z.to_nat n) as [|k IH]; [done|]. by rewrite replicate_S.
Qed.
Lemma dec_value_nonneg s : digit_text s -> 0 <= dec_value s.
Proof. intros H. unfold dec_value. by apply fold_ge. Qed.

(** ** Reading *)
Lemma digits_take a s : digit_text a -> match s with c :: _ => is_ascii_digit c = false | [] => True end -> digits (a ++ s) = (a, s).
Proof.
  intros Ha Hs. induction Ha as [|c a Hc Ha IH]; cbn [app digits].
  - destruct s as [|c s]; [done|]. cbn [digits]. by rewrite Hs.
  - by rewrite Hc, IH.
Qed.

(** A number as digits, perhaps with a point: its digits, and how many are after the point. *)
Inductive mantissa : list Z -> list Z -> nat -> Prop :=
| mant_int a : digit_text a -> a <> [] -> mantissa a a 0
| mant_frac a b : digit_text a -> digit_text b -> a <> [] -> mantissa (a ++ ch "." :: b) (a ++ b) (length b).

Lemma parse_mantissa s ds k : mantissa s ds k -> parse_f64 s = Ok (round_dec (dec_value ds) (- Z.of_nat k)).
Proof.
  intros [a Ha Hne|a b Ha Hb Hne]; unfold parse_f64.
  - rewrite <- (app_nil_r a) at 1. rewrite (digits_take a []) by done. rewrite app_nil_r. by rewrite bool_decide_eq_false_2 by done.
  - rewrite (digits_take a (ch "." :: b)) by done. cbn [Z.eqb Pos.eqb]. rewrite <- (app_nil_r b) at 1. rewrite (digits_take b []) by done.
    rewrite bool_decide_eq_false_2; [done|]. by destruct a.
Qed.

(** The value of an exponent's text. *)
Inductive exponent : list Z -> Z -> Prop :=
| exp_plain ds : digit_text ds -> ds <> [] -> exponent ds (dec_value ds)
| exp_plus ds : digit_text ds -> ds <> [] -> exponent (ch "+" :: ds) (dec_value ds)
| exp_minus ds : digit_text ds -> ds <> [] -> exponent (ch "-" :: ds) (- dec_value ds).

Lemma parse_exponent s ds k e v : mantissa s ds k -> exponent e v ->
  parse_f64 (s ++ ch "e" :: e) = Ok (round_dec (dec_value ds) (v - Z.of_nat k)).
Proof.
  intros Hm He.
  assert (Hx : exists sgn r d, (match e with c :: r' => if c =? ch "-" then (-1, r') else if c =? ch "+" then (1, r') else (1, e) | [] => (1, []) end = (sgn, r))
                /\ digits r = (d, []) /\ d <> [] /\ sgn * dec_value d = v).
  { destruct He as [d Hd Hn|d Hd Hn|d Hd Hn]; (eexists _, d, d; split; [|split; [rewrite <- (app_nil_r d) at 1; by apply digits_take|split; [done|]]]).
    - destruct d as [|c d]; [done|]. inversion_clear Hd as [|? ? Hc _]. apply digit_bounds in Hc.
      destruct (Z.eqb_spec c (ch "-")); [lia|]. by destruct (Z.eqb_spec c (ch "+")); [lia|].
    - lia.
    - done.
    - lia.
    - done.
    - lia. }
  destruct Hx as (sgn & r & d & E1 & E2 & Hd & Hv).
  destruct Hm as [a Ha Hne|a b Ha Hb Hne]; unfold parse_f64.
  - rewrite (digits_take a (ch "e" :: e)) by done. cbn [Z.eqb Pos.eqb orb]. rewrite app_nil_r, bool_decide_eq_false_2 by done. rewrite E1, E2.
    rewrite bool_decide_eq_false_2 by (intros [?|?]; congruence). by rewrite Hv.
  - rewrite <- app_assoc. cbn [app]. rewrite (digits_take a (ch "." :: b ++ ch "e" :: e)) by done. cbn [Z.eqb Pos.eqb].
    rewrite (digits_take b (ch "e" :: e)) by done. rewrite bool_decide_eq_false_2 by (by destruct a). cbn [Z.eqb Pos.eqb orb]. rewrite E1, E2.
    rewrite bool_decide_eq_false_2 by (intros [?|?]; congruence). by rewrite Hv.
Qed.

(** ** Layouts *)
Lemma layout_fixed_mantissa ds k : digit_text ds -> ds <> [] ->
  exists d n, mantissa (layout_fixed ds k) d n /\ dec_value d = dec_value ds * 10 ^ Z.max (- k) 0 /\ Z.of_nat n = Z.max k 0.
Proof.
  intros Hd Hne. unfold layout_fixed. destruct (zeros_spec (k + 1 - Z.of_nat (length ds))) as (Z1 & Z2 & Z3).
  assert (1 <= Z.of_nat (length ds)) by (destruct ds; [done|simpl; lia]). destruct (Z.leb_spec k 0) as [Hk|Hk].
  - assert (zeros (k + 1 - Z.of_nat (length ds)) = []) as -> by (apply nil_length_inv; lia). cbn [app].
    destruct (zeros_spec (- k)) as (Y1 & Y2 & Y3). eexists _, 0%nat. split; [apply mant_int; [by apply Forall_app|by destruct ds]|].
    rewrite dec_value_app, Y2, Y3. lia.
  - set (all := zeros (k + 1 - Z.of_nat (length ds)) ++ ds).
    assert (Ha : digit_text all) by (by apply Forall_app). assert (Hl : Z.of_nat (length all) >= k + 1) by (unfold all; rewrite length_app; lia).
    eexists _, _. split; [apply mant_frac; [by apply Forall_take|by apply Forall_drop|]|].
    { intros E%(f_equal length). rewrite length_take in E. simpl in E. lia. }
    rewrite take_drop, length_drop, (Z.max_r (- k)), Z.pow_0_r, Z.mul_1_r by lia. split; [|lia].
    unfold all. rewrite dec_value_app, Z2. lia.
Qed.

Lemma digit_not c s : digit_text s -> (c < 48 \/ 57 < c) -> contains c s = false.
Proof.
  intros Hs Hc. induction Hs as [|d s Hd _ IH]; [done|]. simpl. apply digit_bounds in Hd. destruct (Z.eqb_spec c d); [lia|done].
Qed.
Lemma split_once_at c a b : contains c a = false -> split_once c (a ++ c :: b) = Some (a, b).
Proof.
  induction a as [|d a IH]; simpl; [by rewrite Z.eqb_refl|]. intros [H1 H2]%orb_false_elim. rewrite Z.eqb_sym, H1, IH by done. done.
Qed.
Lemma split_once_none c s : contains c s = false -> split_once c s = None.
Proof. induction s as [|d s IH]; simpl; [done|]. intros [H1 H2]%orb_false_elim. by rewrite Z.eqb_sym, H1, IH. Qed.

Lemma show_int_exponent e : exponent (show_int e) e.
Proof.
  unfold show_int. destruct (Z.ltb_spec e 0).
  - destruct (show_uint_spec (- e)) as (H1 & H2 & H3 & _); [lia|]. rewrite <- (Z.opp_involutive e), <- H2 at 2. by constructor.
  - destruct (show_uint_spec e) as (H1 & H2 & H3 & _); [done|]. rewrite <- H2 at 2. by constructor.
Qed.

Lemma layout_exp_form ds e : digit_text ds -> ds <> [] ->
  exists M, layout_exp ds e = M ++ ch "e" :: show_int e /\ mantissa M ds (length ds - 1) /\
    contains (ch "e") M = false /\ filter (fun c => is_ascii_digit c = true) M = ds /\ list.last M = list.last ds.
Proof.
  intros Hd Hne. assert (Hf : filter (fun c => is_ascii_digit c = true) ds = ds).
  { clear Hne. induction Hd as [|c s Hc _ IH]; [done|]. rewrite filter_cons_True by done. by f_equal. }
  unfold layout_exp. destruct ds as [|d [|d' r]]; [done| |].
  - exists [d]. split; [done|]. split; [by apply mant_int|]. split; [apply digit_not; [done|lia]|done].
  - exists (d :: ch "." :: d' :: r). inversion_clear Hd as [|? ? Hd1 Hd2]. assert (Hd0 : digit_text [d]) by (by apply Forall_singleton). split; [done|].
    split; [by apply (mant_frac [d] (d' :: r))|]. split; [|split; [|done]].
    + pose proof (digit_not (ch "e") [d] Hd0 ltac:(lia)) as E1. pose proof (digit_not (ch "e") (d' :: r) Hd2 ltac:(lia)) as E2.
      cbn [contains existsb] in *. unfold contains in *. cbn [existsb] in *. rewrite orb_false_r in E1. by rewrite E1, E2.
    + rewrite filter_cons_True in Hf |- * by done. injection Hf as Hf. f_equal. by rewrite filter_cons_False.
Qed.

(** The exponent's text in Python's form has the same value. *)
Lemma normalize_exp_form M k mk : contains (ch "e") M = false ->
  exists E, normalize_exp (M ++ ch "e" :: show_int k) mk = M ++ mk :: E /\ exponent E k.
Proof.
  intros HM. unfold normalize_exp. rewrite split_once_at by done. unfold show_int. destruct (Z.ltb_spec k 0).
  - destruct (show_uint_spec (- k)) as (H1 & H2 & H3 & _); [lia|]. cbn [Z.eqb Pos.eqb].
    set (z := zeros (2 - Z.of_nat (length (show_uint (- k))))). destruct (zeros_spec (2 - Z.of_nat (length (show_uint (- k))))) as (Z1 & Z2 & _). fold z in Z1, Z2.
    eexists. split; [reflexivity|]. replace k with (- dec_value (z ++ show_uint (- k))) at 2 by (rewrite dec_value_app, Z2; lia).
    constructor; [by apply Forall_app|]. intros [_ ?]%app_eq_nil. done.
  - destruct (show_uint_spec k) as (H1 & H2 & H3 & _); [done|].
    set (z := zeros (2 - Z.of_nat (length (show_uint k)))). destruct (zeros_spec (2 - Z.of_nat (length (show_uint k)))) as (Z1 & Z2 & _). fold z in Z1, Z2.
    exists (ch "+" :: z ++ show_uint k). split.
    + destruct (show_uint k) as [|c r] eqn:E; [done|]. inversion_clear H1 as [|? ? Hc _]. apply digit_bounds in Hc. destruct (Z.eqb_spec c (ch "-")); [lia|done].
    + replace k with (dec_value (z ++ show_uint k)) at 2 by (rewrite dec_value_app, Z2; lia). constructor; [by apply Forall_app|].
      intros [_ ?]%app_eq_nil. done.
Qed.

(** ** Exponents as machine integers *)
Lemma parse_loop_digits max ds : forall acc, digit_text ds -> 0 <= acc ->
  fold_left (fun v c => v * 10 + (c - 48)) ds acc <= max -> parse_loop max 10 acc ds = Ok (fold_left (fun v c => v * 10 + (c - 48)) ds acc).
Proof.
  induction ds as [|c ds IH]; intros acc Hd Ha Hm; [done|]. inversion_clear Hd as [|? ? Hc Hds]. cbn [parse_loop fold_left] in *.
  pose proof (digit_bounds _ Hc). unfold to_digit. rewrite Hc. destruct (Z.ltb_spec (c - 48) 10); [|lia].
  pose proof (fold_ge ds (acc * 10 + (c - 48)) Hds ltac:(lia)). destruct (Z.leb_spec (acc * 10 + (c - 48)) max); [|lia]. apply IH; [done|lia|done].
Qed.
Lemma parse_uint_show max n : 0 <= n <= max -> parse_uint max 10 (show_uint n) = Ok n.
Proof.
  intros Hn. destruct (show_uint_spec n) as (H1 & H2 & H3 & _); [lia|]. unfold parse_uint. rewrite bool_decide_eq_false_2 by done.
  unfold dec_value in H2. rewrite parse_loop_digits; [by rewrite H2|done|lia|lia].
Qed.
Lemma parse_i32_show k : - 2 ^ 31 < k < 2 ^ 31 -> parse_i32 (show_int k) = Some k.
Proof.
  intros Hk. unfold parse_i32, show_int. destruct (Z.ltb_spec k 0).
  - cbn [Z.eqb Pos.eqb]. rewrite parse_uint_show by lia. f_equal. lia.
  - destruct (show_uint_spec k) as (H1 & _ & H3 & _); [lia|]. pose proof (parse_uint_show (2 ^ 31 - 1) k ltac:(lia)) as Hp.
    destruct (show_uint k) as [|c r]; [done|]. inversion_clear H1 as [|? ? Hc _]. apply digit_bounds in Hc. destruct (Z.eqb_spec c (ch "-")); [lia|]. by rewrite Hp.
Qed.

Lemma pow10_ge n : 0 <= n -> 2 ^ n <= 10 ^ n.
Proof. intros. apply Z.pow_le_mono_l. lia. Qed.

(** The exponent of the first digit of a decimal near a float. *)
Lemma near_bounds m e N q : float_ok (S754_finite false m e) -> 0 < N ->
  near (Zpos m) e (N * 10 ^ Z.max q 0 * 2 ^ Z.max (- e) 0) (10 ^ Z.max (- q) 0 * 2 ^ (Z.max (- e) 0 + e)) ->
  -1100 < q + ndigits N - 1 < 1100.
Proof.
  intros Hok HN ((Hlo & Hhi) & _). pose proof (float_ok_inv _ _ _ Hok) as [Hc He]. destruct (ndigits_spec N HN) as [Hnd Hp].
  assert (Hm : Zpos m < 2 ^ 53).
  { pose proof (zdigits_bounds (Zpos m) ltac:(lia)) as [_ H]. eapply Z.lt_le_trans; [exact H|]. apply Z.pow_le_mono_r; lia. }
  set (S := Z.max (- e) 0) in *. assert (0 <= S + e) by (unfold S; lia). assert (0 <= S) by (unfold S; lia). assert (-1074 <= e) by lia. clear Hc.
  set (nd := ndigits N) in *. set (Q := 10 ^ Z.max (- q) 0) in *. assert (HQ : 0 < Q) by (unfold Q; lia).
  assert (HA : 0 < 2 ^ S) by lia. assert (HB : 0 < 2 ^ (S + e)) by lia. split.
  - destruct (Z.le_gt_cases 0 (q + nd)) as [?|Hneg]; [lia|].
    assert (K1 : N * 10 ^ Z.max q 0 * 10 ^ (- (q + nd)) < Q).
    { unfold Q. rewrite (Z.max_r q), Z.pow_0_r, Z.mul_1_r, Z.max_l by lia.
      replace (- q) with (nd + - (q + nd)) by lia. rewrite Z.pow_add_r by lia. assert (0 < 10 ^ (- (q + nd))) by lia. nia. }
    set (X := N * 10 ^ Z.max q 0) in *. set (j := - (q + nd)) in *. assert (0 <= j) by lia. pose proof (pow10_ge j ltac:(lia)).
    assert (K2 : Q * 2 ^ (S + e) <= 2 * (X * 2 ^ S)) by nia. assert (0 < 10 ^ j) by lia.
    assert (K3 : Q * 2 ^ (S + e) * 10 ^ j <= 2 * (X * 10 ^ j) * 2 ^ S) by nia.
    assert (K4 : Q * (2 ^ (S + e) * 10 ^ j) < Q * (2 * 2 ^ S)) by nia.
    apply Z.mul_lt_mono_pos_l in K4; [|done]. assert (K5 : 2 ^ (S + e + j) < 2 ^ (1 + S)) by (rewrite !(Z.pow_add_r 2 _ j), (Z.pow_add_r 2 1) by lia; nia).
    apply Z.pow_lt_mono_r_iff in K5; lia.
  - destruct (Z.le_gt_cases (q + nd - 1) 0) as [?|Hpos]; [lia|].
    assert (K1 : 10 ^ (q + nd - 1) * Q <= N * 10 ^ Z.max q 0).
    { unfold Q. destruct (Z.le_gt_cases 0 q).
      - rewrite (Z.max_r (- q)), Z.pow_0_r, Z.mul_1_r, Z.max_l by lia. replace (q + nd - 1) with (nd - 1 + q) by lia. rewrite Z.pow_add_r by lia. assert (0 < 10 ^ q) by lia. nia.
      - rewrite (Z.max_l (- q)), Z.max_r, Z.pow_0_r, Z.mul_1_r, <- Z.pow_add_r by lia. replace (q + nd - 1 + - q) with (nd - 1) by lia. apply Hnd. }
    set (X := N * 10 ^ Z.max q 0) in *. set (j := q + nd - 1) in *. pose proof (pow10_ge j ltac:(lia)).
    assert (K2 : 2 * (10 ^ j * Q * 2 ^ S) <= 2 ^ 54 * (Q * 2 ^ (S + e))) by nia.
    assert (K4 : Q * (2 * (10 ^ j * 2 ^ S)) <= Q * (2 ^ 54 * 2 ^ (S + e))) by lia.
    apply Z.mul_le_mono_pos_l in K4; [|done].
    assert (K5 : 2 ^ (1 + (j + S)) <= 2 ^ (54 + (S + e))) by (rewrite (Z.pow_add_r 2 1), (Z.pow_add_r 2 j), (Z.pow_add_r 2 54) by lia; nia).
    apply Z.pow_le_mono_r_iff in K5; lia.
Qed.

(** ** The texts of a float *)
Definition signed (s : bool) (x : f64) : f64 := if s then SFopp x else x.
Lemma parse_signed_at s t x : head t <> Some (ch "-") -> parse_f64 t = Ok x -> parse_signed (float_sign s ++ t) = Ok (signed s x).
Proof.
  intros Hh Hp. destruct s; simpl; [by rewrite Hp|]. unfold parse_signed. destruct t as [|c t]; [done|].
  destruct (Z.eqb_spec c (ch "-")) as [->|]; [done|exact Hp].
Qed.
Lemma digit_head s r : digit_text s -> s <> [] -> head (s ++ r) <> Some (ch "-").
Proof. intros Hd Hne. destruct s as [|c s]; [done|]. inversion_clear Hd as [|? ? Hc _]. apply digit_bounds in Hc. intros [= ->]. lia. Qed.
Lemma mantissa_head s ds k r : mantissa s ds k -> head (s ++ r) <> Some (ch "-").
Proof. intros [a Ha Hne|a b Ha Hb Hne]; rewrite <- ?app_assoc; by apply digit_head. Qed.
Lemma mantissa_snoc a d : digit_text a -> a <> [] -> digit_text d -> mantissa (a ++ ch "." :: d) (a ++ d) (length d).
Proof. intros. by apply mant_frac. Qed.

Lemma round_trips_names x t : round_trips x t = true -> parse_signed t = Ok x.
Proof. unfold round_trips. destruct (parse_signed t) as [v|]; [|done]. by intros ->%bool_decide_eq_true_1. Qed.

Section Finite.
Context (s : bool) (m : positive) (e : Z) (Hok : float_ok (S754_finite s m e)).
Let x : f64 := S754_finite s m e.
Let P : list Z := float_sign s.

Lemma pos_ok : float_ok (S754_finite false m e).
Proof. exact Hok. Qed.
Lemma signed_x : signed s (S754_finite false m e) = x.
Proof. by destruct s. Qed.

(** A text [P ++ t] names [x] when [t] is read as its magnitude. *)
Lemma names_x t : head t <> Some (ch "-") -> parse_f64 t = Ok (S754_finite false m e) -> parse_signed (P ++ t) = Ok x.
Proof. intros Hh Hp. rewrite <- signed_x. by apply parse_signed_at. Qed.

Lemma sign_e : contains (ch "e") P = false.
Proof. unfold P. by destruct s. Qed.
Lemma contains_app c a b : contains c (a ++ b) = contains c a || contains c b.
Proof. apply existsb_app. Qed.
Lemma sign_digits M : filter (fun c => is_ascii_digit c = true) (P ++ M) = filter (fun c => is_ascii_digit c = true) M.
Proof. unfold P. destruct s; [|done]. simpl. by rewrite filter_cons_False. Qed.

Lemma display_names : exists N q, shortest (Zpos m) e = Some (N, q) /\ 0 < N /\
  fmt_display x = P ++ layout_fixed (show_uint N) (- q) /\ parse_signed (fmt_display x) = Ok x.
Proof.
  destruct (shortest_spec _ _ pos_ok) as (N & q & Hs & HN & Hn). exists N, q. split; [done|]. split; [done|].
  unfold fmt_display, x. fold x. rewrite Hs. split; [done|]. destruct (show_uint_spec N) as (H1 & H2 & H3 & _); [lia|].
  destruct (layout_fixed_mantissa (show_uint N) (- q) H1 H3) as (d & n & Hm & Hd & Hk).
  apply names_x; [rewrite <- (app_nil_r (layout_fixed _ _)); by eapply mantissa_head|]. rewrite (parse_mantissa _ _ _ Hm). f_equal. rewrite Hd, H2, Hk.
  eapply near_reads; [exact pos_ok|exact HN|lia|lia|exact Hn|lia].
Qed.

(** A whole float below the scientific range prints without a point. *)
Lemma display_whole N q : shortest (Zpos m) e = Some (N, q) -> is_whole x = true -> parse_signed (fmt_display x ++ text ".0") = Ok x.
Proof.
  intros Hs Hw. destruct (shortest_spec _ _ pos_ok) as (N' & q' & Hs' & HN & Hn). rewrite Hs in Hs'. injection Hs' as <- <-.
  assert (Hq : 0 <= q).
  { apply (shortest_whole (Zpos m) e N); [|lia|done]. apply orb_prop in Hw as [H%Z.leb_le|H%Z.eqb_eq]; auto. }
  unfold fmt_display, x. fold x. rewrite Hs. destruct (show_uint_spec N) as (H1 & H2 & H3 & _); [lia|]. rewrite <- app_assoc.
  unfold layout_fixed. destruct (Z.leb_spec (- q) 0); [|lia].
  assert (zeros (- q + 1 - Z.of_nat (length (show_uint N))) = []) as ->.
  { apply nil_length_inv. destruct (zeros_spec (- q + 1 - Z.of_nat (length (show_uint N)))) as (_ & _ & Hz).
    assert (1 <= Z.of_nat (length (show_uint N))) by (destruct (show_uint N); [done|simpl; lia]). lia. }
  cbn [app]. rewrite Z.opp_involutive. destruct (zeros_spec q) as (Y1 & Y2 & Y3).
  assert (Hm : mantissa ((show_uint N ++ zeros q) ++ text ".0") ((show_uint N ++ zeros q) ++ [ch "0"]) 1).
  { apply (mant_frac (show_uint N ++ zeros q) [ch "0"]); [by apply Forall_app|by apply Forall_singleton|by destruct (show_uint N)]. }
  apply names_x; [rewrite <- (app_nil_r (_ ++ text ".0")); by eapply mantissa_head|]. rewrite (parse_mantissa _ _ _ Hm). f_equal.
  rewrite !dec_value_app, H2, Y2, Y3. change (dec_value [ch "0"]) with 0. change (Z.of_nat (length [ch "0"])) with 1.
  replace ((N * 10 ^ Z.max q 0 + 0) * 10 ^ 1 + 0) with (N * 10 ^ (q + 1)) by (rewrite Z.max_l, Z.pow_add_r by lia; ring).
  apply (near_reads _ _ _ q (q + 1) 1); [exact pos_ok|done|lia|lia|done|lia].
Qed.

(** The scientific text, in Rust's and in Python's form. *)
Lemma exp_names N q : shortest (Zpos m) e = Some (N, q) ->
  exists M, fmt_exp x = (P ++ M) ++ ch "e" :: show_int (q + ndigits N - 1) /\ contains (ch "e") (P ++ M) = false /\
    Z.of_nat (length (filter (fun c => is_ascii_digit c = true) (P ++ M))) = ndigits N /\
    parse_i32 (show_int (q + ndigits N - 1)) = Some (q + ndigits N - 1) /\ 1 <= ndigits N /\
    (e < 0 -> is_whole x = false -> q < 0) /\
    parse_signed (normalize_exp (fmt_exp x) (ch "e")) = Ok x.
Proof.
  intros Hs. destruct (shortest_spec _ _ pos_ok) as (N' & q' & Hs' & HN & Hn). rewrite Hs in Hs'. injection Hs' as <- <-.
  destruct (show_uint_spec N) as (H1 & H2 & H3 & Hl); [lia|]. specialize (Hl HN). unfold fmt_exp, x. fold x P. rewrite Hs.
  destruct (layout_exp_form (show_uint N) (q + ndigits N - 1) H1 H3) as (M & -> & Hm & HM & Hf & _). exists M.
  rewrite !app_assoc. split; [done|]. assert (HPM : contains (ch "e") (P ++ M) = false) by (by rewrite contains_app, sign_e, HM).
  split; [done|]. split; [by rewrite sign_digits, Hf|]. pose proof (near_bounds _ _ _ _ pos_ok HN Hn) as Hb.
  split; [apply parse_i32_show; lia|]. destruct (ndigits_spec N HN) as [_ Hnd]. split; [lia|]. split.
  - intros He Hw. destruct (Z.le_gt_cases 0 q) as [Hq|]; [|done]. exfalso.
    rewrite (Z.max_l q), (Z.max_r (- q)), (Z.max_l (- e)), Z.pow_0_r, Z.mul_1_l in Hn by lia.
    replace (- e + e) with 0 in Hn by lia. apply near_whole in Hn; [|done]. apply orb_false_iff in Hw as [_ Hw%Z.eqb_neq].
    apply Hw. rewrite Hn. apply Z.mod_mul. lia.
  - destruct (normalize_exp_form (P ++ M) (q + ndigits N - 1) (ch "e") HPM) as (E & -> & HE). rewrite <- app_assoc.
    apply names_x; [by eapply mantissa_head|]. rewrite (parse_exponent _ _ _ _ _ Hm HE). f_equal. rewrite H2.
    replace (q + ndigits N - 1 - Z.of_nat (length (show_uint N) - 1)) with q by lia.
    apply (round_dec_near _ _ _ _ (Z.max (- e) 0)); [exact pos_ok|done|lia|lia|exact Hn].
Qed.

Lemma round_half_even_nonneg a b : 0 <= a -> 0 < b -> 0 <= round_half_even a b.
Proof.
  intros Ha Hb. unfold round_half_even. assert (0 <= a / b) by (apply Z.div_pos; lia).
  destruct (2 * (a mod b) ?= b); [destruct (Z.even (a / b))| |]; lia.
Qed.
Lemma dec_exp_bounds : -1100 < dec_exp (scale2 e (Zpos m, 1)) < 1100.
Proof.
  pose proof (float_ok_inv _ _ _ pos_ok) as [Hc He]. unfold scale2. cbn [fst snd]. rewrite Z.mul_1_l.
  assert (Hm : Zpos m < 2 ^ 53).
  { pose proof (zdigits_bounds (Zpos m) ltac:(lia)) as [_ H]. eapply Z.lt_le_trans; [exact H|]. apply Z.pow_le_mono_r; lia. }
  pose proof (dec_exp_spec (Zpos m * 2 ^ Z.max e 0) (2 ^ Z.max (- e) 0)) as HK.
  set (K := dec_exp (Zpos m * 2 ^ Z.max e 0, 2 ^ Z.max (- e) 0)) in *. clearbody K.
  assert (HA : 0 < 2 ^ Z.max e 0) by lia. assert (HB : 0 < 2 ^ Z.max (- e) 0) by lia. split.
  - destruct (Z.le_gt_cases 0 K) as [?|Hneg]; [lia|]. specialize (HK (1 - K) ltac:(nia) ltac:(lia) ltac:(lia) ltac:(lia)) as [_ HK].
    replace (1 - K + K) with 1 in HK by lia. replace (1 - K) with (- K + 1) in HK by lia. rewrite (Z.pow_add_r 10 (- K)) in HK by lia.
    pose proof (pow10_ge (- K) ltac:(lia)). change (10 ^ 1) with 10 in HK.
    assert (1 <= Zpos m * 2 ^ Z.max e 0) by nia. assert (10 ^ (- K) <= Zpos m * 2 ^ Z.max e 0 * 10 ^ (- K)) by nia.
    assert (H5 : 2 ^ (- K) < 2 ^ Z.max (- e) 0) by lia. apply Z.pow_lt_mono_r_iff in H5; lia.
  - destruct (Z.le_gt_cases K 1) as [?|Hpos]; [lia|]. specialize (HK 0 ltac:(nia) ltac:(lia) ltac:(lia) ltac:(lia)) as [HK _].
    rewrite Z.pow_0_r, Z.mul_1_r in HK. replace (0 + K - 1) with (K - 1) in HK by lia. pose proof (pow10_ge (K - 1) ltac:(lia)).
    assert (H5 : 2 ^ (K - 1) < 2 ^ (53 + Z.max e 0)) by (rewrite (Z.pow_add_r 2 53) by lia; nia). apply Z.pow_lt_mono_r_iff in H5; lia.
Qed.

Lemma sci_form p : 0 <= p ->
  exists M ds k n, fmt_sci p x = (P ++ M) ++ ch "e" :: show_int k /\ contains (ch "e") (P ++ M) = false /\
    mantissa M ds n /\ parse_i32 (show_int k) = Some k.
Proof.
  intros Hp. unfold fmt_sci, x. fold P. destruct (sci_digits p (Zpos m) e) as [n k] eqn:E.
  assert (Hnk : 0 <= n /\ -1102 < k < 1102).
  { unfold sci_digits in E. pose proof dec_exp_bounds as Hk. set (K := dec_exp (scale2 e (Zpos m, 1))) in *.
    unfold scale10, scale2 in E. cbn [fst snd] in E.
    pose proof (round_half_even_nonneg (Zpos m * 2 ^ Z.max e 0 * 10 ^ Z.max (p + 1 - K) 0) (1 * 2 ^ Z.max (- e) 0 * 10 ^ Z.max (- (p + 1 - K)) 0)
      ltac:(repeat apply Z.mul_nonneg_nonneg; lia) ltac:(repeat apply Z.mul_pos_pos; lia)) as Hr.
    assert (0 <= 10 ^ p) by lia. destruct (_ =? 10 ^ (p + 1)); injection E as <- <-; lia. }
  destruct (show_uint_spec n) as (H1 & H2 & H3 & _); [lia|].
  destruct (layout_exp_form (show_uint n) k H1 H3) as (M & -> & Hm & HM & _ & _). eexists M, _, k, _. rewrite !app_assoc.
  split; [done|]. split; [by rewrite contains_app, sign_e, HM|]. split; [exact Hm|]. apply parse_i32_show. lia.
Qed.

(** The scientific text that names the float still does in Python's form. *)
Lemma sci_names p : 0 <= p -> parse_signed (fmt_sci p x) = Ok x -> parse_signed (normalize_exp (fmt_sci p x) (ch "e")) = Ok x.
Proof.
  intros Hp. destruct (sci_form p Hp) as (M & ds & k & n & -> & HM & Hm & _).
  destruct (normalize_exp_form (P ++ M) k (ch "e") HM) as (E & -> & HE). rewrite <- !app_assoc. intros H. rewrite <- H.
  pose proof (parse_exponent _ _ _ _ _ Hm HE) as R1. pose proof (parse_exponent _ _ _ _ _ Hm (show_int_exponent k)) as R2.
  apply (parse_signed_at s) in R1; [|by eapply mantissa_head]. apply (parse_signed_at s) in R2; [|by eapply mantissa_head].
  fold P in R1, R2. by rewrite R1, R2.
Qed.

Lemma repr_finite : exists t, repr_float x = Some t /\ parse_signed t = Ok x.
Proof.
  destruct display_names as (N & q & Hs & HN & _ & Hd). destruct (exp_names N q Hs) as (M & He & HM & Hl & Hi & Hnd & Hfr & Hnm).
  unfold repr_float. change (is_finite x) with true. cbn [negb]. rewrite He, split_once_at by done. cbn [from_option]. unfold id. rewrite Hi, Hl. cbn [from_option].
  replace (ndigits N - 1 - (q + ndigits N - 1)) with (- q) by lia.
  set (odd := match list.last (P ++ M) with Some b => Z.odd b | None => false end). rewrite <- He.
  destruct (negb ((-4 <=? q + ndigits N - 1) && (q + ndigits N - 1 <? 16))).
  - eexists. split; [done|]. destruct odd; cbn [andb]; [|done]. destruct (round_trips x (fmt_sci (ndigits N - 1) x)) eqn:R; [|done].
    apply sci_names; [lia|by apply round_trips_names].
  - destruct (is_whole x) eqn:W; [eexists; split; [done|by eapply display_whole]|]. destruct odd; [|by exists (fmt_display x)].
    assert (Hq : q < 0). { apply Hfr; [|done]. apply orb_false_iff in W as [W%Z.leb_gt _]. done. }
    destruct (Z.ltb_spec (- q) 0); [lia|]. eexists. split; [done|].
    destruct (round_trips x (fmt_fixed (- q) x)) eqn:R; [|done].
    by apply round_trips_names.
Qed.
End Finite.

Lemma repr_names x : float_ok x -> is_finite x = true -> exists t, repr_float x = Some t /\ parse_signed t = Ok x.
Proof.
  intros Hok Hf. destruct x as [s|s| |s m e]; try done; [|by apply repr_finite].
  destruct s; (eexists; split; [vm_compute; reflexivity|reflexivity]).
Qed.

(** C13: the text of a float names it. For every finite double, [repr_float] returns (it does not
    panic), and the text it returns, read by the reader that float literals go through, is that very
    double, sign of zero included; whichever of the shortest digits, the tie-broken digits, the
    scientific or the positional form it chose. *)
Theorem repr_float_roundtrip (x : f64) :
  float_ok x -> is_finite x = true -> exists t, repr_float x = Some t /\ parse_signed t = Ok x.
Proof. apply repr_names. Qed.

Lemma repr_float_roundtrip_witness :
  float_ok (S754_finite true 7205759403792794 (-56)) /\
  exists t, repr_float (S754_finite true 7205759403792794 (-56)) = Some t /\ parse_signed t = Ok (S754_finite true 7205759403792794 (-56)).
Proof. split; [reflexivity|]. exact (repr_float_roundtrip (S754_finite true 7205759403792794 (-56)) eq_refl eq_refl). Defined.
