(* ===== verification/FmtRender.v ===== *)
(** * Rendering under a format spec

    [apply] ([src/src/fmtspec.rs]) against the checker's rule and against a reference layout: it
    fails exactly where the static check fails, never panics, fills the width, and what it prints
    for an integer reads back as that integer. *)

From Stdlib Require Import SpecFloat Ascii.
From stdpp Require Import strings.
From S2P Require Import Prelude Slice Token Lexer Decimal FmtSpec FmtGrammar FloatText.
Import F64.
Local Open Scope Z_scope.
Local Open Scope chz_scope.

(** ** Rounding gives a machine float *)
Lemma float_ok_intro s m e : Z.max (Zdigits2 (Zpos m) + e - 53) (-1074) = e -> e <= 971 -> float_ok (S754_finite s m e).
Proof.
  intros Hc He. unfold float_ok, valid_binary, bounded, canonical_mantissa. apply andb_true_intro. split; [by apply Z.eqb_eq|by apply Z.leb_le].
Qed.

Lemma round_aux_ok s q ex loc num den : 0 < den -> loc_at q loc num den -> 0 <= q -> ex <= fexp prec emax (Zdigits2 q + ex) ->
  float_ok (binary_round_aux prec emax s q ex loc).
Proof.
  intros Hd Hl Hq Hex. set (e := fexp prec emax (Zdigits2 q + ex)) in *. unfold binary_round_aux.
  destruct (shr_fexp_located _ _ _ _ _ e Hd Hl eq_refl Hex) as (m' & r & t & -> & Hl').
  assert (Hp : 0 < den * 2 ^ (e - ex)) by nia. pose proof (located_floor _ _ _ _ _ Hp Hl') as Hf.
  pose proof Hl as Hq'. apply located_floor in Hq'; [|done]. assert (Hqe : shr_m (shr_record_of_loc q loc) = q) by (by destruct loc as [|[]]). rewrite Hqe in Hq'.
  assert (Hdq : q < 2 ^ Zdigits2 q /\ (0 < q -> 2 ^ (Zdigits2 q - 1) <= q /\ 0 < Zdigits2 q)).
  { destruct (Z.eq_dec q 0) as [->|]; [done|]. pose proof (zdigits_bounds q ltac:(lia)). split; [lia|]. intros _. split; [lia|].
    rewrite zdigits_log2 by lia. pose proof (Z.log2_nonneg q). lia. }
  destruct Hl' as [Hm0 _].
  assert (He : e = Z.max (Zdigits2 q + ex - 53) (-1074)) by done. clearbody e.
  (* the floor has the digits of the exponent *)
  assert (Hhi : m' < 2 ^ 53).
  { assert (q + 1 <= 2 ^ 53 * 2 ^ (e - ex)). { rewrite <- Z.pow_add_r by lia. enough (2 ^ Zdigits2 q <= 2 ^ (53 + (e - ex))) by lia. apply Z.pow_le_mono_r; lia. }
    assert ((q + 1) * den <= 2 ^ 53 * (den * 2 ^ (e - ex))) by nia. nia. }
  assert (Hlo : -1074 < e -> 2 ^ 52 <= m').
  { intros Hgt. destruct (Z.eq_dec q 0) as [->|]; [cbn [Zdigits2] in He; lia|]. assert (2 ^ 52 * 2 ^ (e - ex) <= q). { rewrite <- Z.pow_add_r by lia. replace (52 + (e - ex)) with (Zdigits2 q - 1) by lia. lia. }
    assert (2 ^ 52 * (den * 2 ^ (e - ex)) <= q * den) by nia. nia. }
  cbn [shr_m]. set (n := round_nearest_even m' (loc_of_shr_record (Build_shr_record m' r t))). assert (Hn : m' <= n <= m' + 1).
  { unfold n, round_nearest_even. destruct (loc_of_shr_record _) as [|[]]; try destruct (Z.even m'); simpl; lia. }
  clearbody n. destruct (Z.eq_dec n 0) as [->|Hn0].
  { unfold shr_fexp. rewrite fexp_eq. cbn [Zdigits2 shr_record_of_loc]. assert (e = -1074) by lia. subst e.
    replace (Z.max _ _ - _) with 0 by lia. done. }
  destruct (Z.eq_dec n (2 ^ 53)) as [->|Hn53].
  - unfold shr_fexp. rewrite fexp_eq. change (Zdigits2 (2 ^ 53)) with 54. replace (Z.max (54 + e - 53) (-1074) - e) with 1 by lia. cbn [shr].
    change (shr_m (SpecFloat.iter_pos shr_1 1 (shr_record_of_loc (2 ^ 53) loc_Exact))) with (Zpos 4503599627370496).
    destruct (Z.leb_spec (e + 1) (emax - prec)) as [Hle|]; [|done]. apply float_ok_intro; [|exact Hle]. change (Zdigits2 4503599627370496) with 53. lia.
  - destruct n as [|n|n]; [lia| |lia]. pose proof (zdigits_bounds (Zpos n) ltac:(lia)) as Hdn.
    assert (Hcan : Z.max (Zdigits2 (Zpos n) + e - 53) (-1074) = e).
    { assert (Zdigits2 (Zpos n) <= 53) by (rewrite zdigits_log2 by lia; enough (Z.log2 (Zpos n) < 53) by lia; apply Z.log2_lt_pow2; lia).
      destruct (Z.eq_dec e (-1074)) as [->|]; [lia|]. rewrite (zdigits_unique (Zpos n) 53); [lia|lia| |lia]. split; [specialize (Hlo ltac:(lia))|]; simpl in *; lia. }
    unfold shr_fexp. rewrite fexp_eq, Hcan, Z.sub_diag. cbn [shr shr_record_of_loc shr_m].
    destruct (Z.leb_spec e (emax - prec)) as [Hle|]; [|done]. by apply float_ok_intro.
Qed.

Lemma of_i64_ok n : float_ok (F64.of_i64 n).
Proof.
  assert (H : forall s p, float_ok (binary_round prec emax s p 0)).
  { intros s p. unfold binary_round, shl_align. rewrite Z.add_0_r, Z.sub_0_r.
    destruct (fexp prec emax (Zpos (digits2_pos p))) as [|d|d] eqn:E;
      [apply (round_aux_ok _ _ _ _ (Zpos p) 1)..|apply (round_aux_ok _ _ _ _ (Zpos (Pos.iter xO p d)) 1)]; try lia; try (split; simpl; lia).
    - cbn [Zdigits2]. rewrite Z.add_0_r, E. lia.
    - cbn [Zdigits2]. rewrite Z.add_0_r, E. lia.
    - rewrite zdigits_log2, shl_pos, Z.log2_mul_pow2 by lia. replace (_ + Zneg d) with (Zpos (digits2_pos p)) by (rewrite digits_log2; lia). lia. }
  unfold F64.of_i64, binary_normalize. destruct n; [done|apply H..].
Qed.

Lemma round_dec_ok m e : float_ok (Lexer.round_dec m e).
Proof.
  unfold Lexer.round_dec. destruct m as [|p|p]; [done| |done]. destruct (Z.leb_spec 0 e) as [|He]; [apply of_i64_ok|].
  assert (1 < 10 ^ (- e)) by (apply Z.pow_gt_1; lia). pose proof (div_core_at (Zpos p) (10 ^ (- e)) ltac:(lia) ltac:(lia)) as H1.
  destruct (SFdiv_core_binary prec emax (Zpos p) 0 (10 ^ (- e)) 0) as [[q ex] loc]. destruct H1 as (Hl & Hq & Hx & _).
  eapply round_aux_ok; [|exact Hl|done|done]. lia.
Qed.
Lemma parse_f64_ok s f : parse_f64 s = Ok f -> float_ok f.
Proof. unfold parse_f64. intros H. repeat case_match; simplify_eq; apply round_dec_ok. Qed.

(** ** Rendering returns *)
Lemma abs_ok x : float_ok x -> float_ok (SFabs x).
Proof. by destruct x. Qed.
Lemma repr_total x : float_ok x -> is_Some (repr_float x).
Proof.
  intros Hok. destruct (is_finite x) eqn:F; [destruct (repr_names x Hok F) as (t & -> & _); eauto|]. unfold repr_float. rewrite F. by eexists.
Qed.
Lemma general_total mag p mk alt dot : float_ok mag -> is_Some (render_general mag p mk alt dot).
Proof.
  intros Hok. unfold render_general. destruct (is_finite mag) eqn:F; [|by eexists]. cbn [negb].
  assert (Hs : exists M k, fmt_sci (Z.max p 1 - 1) mag = M ++ ch "e" :: show_int k /\ contains (ch "e") M = false /\ parse_i32 (show_int k) = Some k).
  { destruct mag as [s|s| |s m e]; try done.
    - destruct (zeros_spec (Z.max p 1 - 1 + 1)) as (Z1 & _ & Z3).
      destruct (layout_exp_form (zeros (Z.max p 1 - 1 + 1)) 0 Z1) as (M & E & _ & HM & _); [intros C; rewrite C in Z3; simpl in Z3; lia|].
      exists (float_sign s ++ M), 0. unfold fmt_sci. rewrite E, app_assoc. split; [done|]. split; [|done]. rewrite contains_app, HM. by destruct s.
    - destruct (sci_form s m e Hok (Z.max p 1 - 1) ltac:(lia)) as (M & ds & k & n & E & HM & _ & Hk). eauto. }
  destruct Hs as (M & k & -> & HM & Hk). rewrite split_once_at, Hk by done. by eexists.
Qed.

Lemma float_body_total spec mag : float_ok mag -> opt_ok is_type (ty spec) -> spec_valid_for_scalar spec KFloat = Ok tt ->
  is_Some (float_body spec mag).
Proof.
  intros Hok Ht Hv. unfold float_body. destruct (ty spec) as [t|] eqn:E.
  - cbn [spec_valid_for_scalar] in Hv. rewrite E in Hv. apply one_of_in in Ht.
    mem_cases Ht; cbn [is_one_of] in *; try discriminate Hv; try by eexists.
    all: by apply general_total.
  - destruct (precision spec); [by apply general_total|]. destruct (repr_total mag Hok) as [t ->]. by eexists.
Qed.

Definition kind_of (arg : FmtArg) : ScalarKind :=
  match arg with FInt _ => KInt | FFloat _ => KFloat | FStr _ | FOther _ => KStr end.
Definition arg_ok (arg : FmtArg) : Prop := match arg with FFloat x => float_ok x | _ => True end.

Lemma render_float_total spec x : float_ok x -> opt_ok is_type (ty spec) -> spec_valid_for_scalar spec KFloat = Ok tt ->
  exists prefix body, render_float spec x = Some (Ok (prefix, body, true)).
Proof.
  intros Hok Ht Hv. unfold render_float. rewrite Hv. destruct (float_body_total spec (SFabs x)) as [b ->]; [by apply abs_ok|done|done|].
  simpl. eauto.
Qed.

Lemma render_checked spec arg : spec_wf spec -> arg_ok arg ->
  match spec_valid_for_scalar spec (kind_of arg) with
  | Ok _ => exists b, render_base spec arg = Some (Ok b)
  | Err e => render_base spec arg = Some (Err e)
  end.
Proof.
  intros [Ht _] Ha. destruct arg as [n|x|s|s]; cbn [kind_of render_base].
  - unfold render_int. destruct (spec_valid_for_scalar spec KInt) as [[]|] eqn:Hv; [|done].
    destruct (ty spec) as [t|] eqn:E; [|eauto]. pose proof Ht as Ht'. rewrite <- E in Ht'. apply one_of_in in Ht.
    mem_cases Ht; cbn [Z.eqb Pos.eqb]; eauto.
    all: edestruct (render_float_total spec (F64.of_i64 n) (of_i64_ok n) Ht') as (p & b & ->); [cbn [spec_valid_for_scalar]; by rewrite E|]; eauto.
  - destruct (spec_valid_for_scalar spec KFloat) as [[]|] eqn:Hv; [|unfold render_float; by rewrite Hv].
    destruct (render_float_total spec x Ha Ht Hv) as (p & b & ->). eauto.
  - unfold render_str. destruct (spec_valid_for_scalar spec KStr); eauto.
  - unfold render_str. destruct (spec_valid_for_scalar spec KStr); eauto.
Qed.

(** ** The layout *)
(** The fill between the sign and the digits. *)
Definition mid_fill (spec : FormatSpec) (is_numeric : bool) : Z :=
  if zero_pad spec && is_numeric && bool_decide (align spec = None) then ch "0" else fill spec.
Definition laid_out (spec : FormatSpec) (is_numeric : bool) (prefix body t : list Z) : Prop :=
  exists l c r, t = push_fill (fill spec) l ++ prefix ++ push_fill (mid_fill spec is_numeric) c ++ body ++ push_fill (fill spec) r /\
    length t = Nat.max (Z.to_nat (width spec)) (length prefix + length body).

Lemma pad_body_spec spec prefix body num : laid_out spec num prefix body (pad_body spec prefix body num).
Proof.
  unfold laid_out, pad_body, mid_fill, push_fill. rewrite length_app. set (w := Z.to_nat (width spec)).
  set (pad := (w - (length prefix + length body))%nat). destruct (zero_pad spec && num && bool_decide (align spec = None)).
  { exists 0%nat, pad, 0%nat. rewrite app_nil_r. split; [done|]. rewrite !length_app, length_replicate. lia. }
  destruct (Nat.leb_spec w (length prefix + length body)).
  { exists 0%nat, 0%nat, 0%nat. rewrite app_nil_r. split; [done|]. rewrite length_app. lia. }
  destruct (default (if num then ARight else ALeft) (align spec)).
  - exists 0%nat, 0%nat, pad. rewrite <- app_assoc. split; [done|]. rewrite !length_app, length_replicate. lia.
  - exists pad, 0%nat, 0%nat. rewrite app_nil_r. split; [done|]. rewrite !length_app, length_replicate. lia.
  - exists (pad / 2)%nat, 0%nat, (pad - pad / 2)%nat. rewrite <- app_assoc. split; [done|]. rewrite !length_app, !length_replicate.
    pose proof (Nat.Div0.div_le_upper_bound pad 2 pad). lia.
  - exists 0%nat, pad, 0%nat. rewrite app_nil_r. split; [done|]. rewrite !length_app, length_replicate. lia.
Qed.

(** *** Groups, by recursion: a separator before each digit from which a multiple of [size] are left *)
Fixpoint groups (sep : Z) (size : nat) (ds : list Z) : list Z :=
  match ds with
  | [] => []
  | d :: r => d :: (if bool_decide (r <> []) && (length r mod size =? 0)%nat then [sep] else []) ++ groups sep size r
  end.

Lemma groups_from sep size ds : forall n j, n = (j + length ds)%nat ->
  mjoin ((fun k => (if (0 <? k)%nat && ((n - k) mod size =? 0)%nat then [sep] else []) ++ [default 0 (ds !! (k - j)%nat)]) <$> seq j (length ds)) =
  (if (0 <? j)%nat && (bool_decide (ds <> []) && (length ds mod size =? 0)%nat) then [sep] else []) ++ groups sep size ds.
Proof.
  induction ds as [|d r IH]; intros n j Hn; [by rewrite andb_false_r|]. cbn [length seq fmap list_fmap mjoin list_join groups].
  rewrite Nat.sub_diag. replace (n - j)%nat with (S (length r)) by (simpl in Hn; lia). rewrite bool_decide_eq_true_2 by done.
  cbn [andb lookup list_lookup default from_option id length]. rewrite <- app_assoc. f_equal. cbn [app]. f_equal.
  specialize (IH n (S j)). change (0 <? S j)%nat with true in IH. cbn [andb] in IH. rewrite <- IH by (simpl in Hn; lia). f_equal. apply list_fmap_ext. intros i k [-> Hk]%lookup_seq. f_equal. f_equal.
  by replace (S j + i - j)%nat with (S (S j + i - S j))%nat by lia.
Qed.
Lemma groups_indexed sep size ds :
  groups sep size ds =
  mjoin ((fun k => (if (0 <? k)%nat && ((length ds - k) mod size =? 0)%nat then [sep] else []) ++ [default 0 (ds !! k)]) <$> seq 0 (length ds)).
Proof.
  pose proof (groups_from sep size ds (length ds) 0 eq_refl) as H. change (0 <? 0)%nat with false in H. cbn [andb app] in H. rewrite <- H.
  f_equal. apply list_fmap_ext. intros i k _. by rewrite Nat.sub_0_r.
Qed.

Lemma group_digits_eq digits want sep size :
  group_digits digits want sep size = groups sep size (zeros (Z.of_nat want - Z.of_nat (length digits)) ++ digits).
Proof.
  unfold group_digits. rewrite groups_indexed, length_app. unfold zeros. rewrite length_replicate.
  replace (Z.to_nat (Z.of_nat want - Z.of_nat (length digits))) with (want - length digits)%nat by lia.
  replace (length digits `max` want)%nat with (want - length digits + length digits)%nat by lia.
  set (pad := (want - length digits)%nat). replace (pad + length digits - length digits)%nat with pad by lia.
  f_equal. apply list_fmap_ext. intros i k Hk. f_equal. f_equal. destruct (Nat.ltb_spec k pad).
  - rewrite lookup_app_l by (by rewrite length_replicate). by rewrite lookup_replicate_2.
  - rewrite lookup_app_r by (by rewrite length_replicate). by rewrite length_replicate.
Qed.

Lemma div_pred n size : (0 < size)%nat -> (0 < n)%nat -> (n / size = (if n mod size =? 0 then 1 else 0) + (n - 1) / size)%nat.
Proof.
  intros Hs Hn. pose proof (Nat.div_mod_eq n size) as E. pose proof (Nat.mod_upper_bound n size ltac:(lia)) as Hm.
  destruct (Nat.eqb_spec (n mod size) 0) as [Hz|Hz].
  - assert (0 < n / size)%nat by nia. enough ((n - 1) / size = n / size - 1)%nat by lia.
    symmetry. apply Nat.div_unique with (r := (size - 1)%nat); nia.
  - apply (Nat.div_unique (n - 1) size (n / size) (n mod size - 1)); nia.
Qed.
Lemma groups_length sep size ds : (0 < size)%nat -> length (groups sep size ds) = (length ds + (length ds - 1) / size)%nat.
Proof.
  intros Hs. induction ds as [|d r IH]; [simpl; by rewrite Nat.Div0.div_0_l|]. cbn [groups length]. rewrite length_app, IH.
  replace (S (length r) - 1)%nat with (length r) by lia. destruct r as [|d' r]; [done|].
  rewrite bool_decide_eq_true_2 by done. rewrite (div_pred (length (d' :: r)) size) by (simpl; lia). cbn [andb].
  destruct (length (d' :: r) mod size =? 0)%nat; simpl; lia.
Qed.
Lemma groups_filter sep size ds : sep ∉ ds -> filter (fun c => c <> sep) (groups sep size ds) = ds.
Proof.
  induction ds as [|d r IH]; [done|]. intros H. rewrite not_elem_of_cons in H. destruct H as [H1 H2]. cbn [groups].
  rewrite filter_cons_True by done. f_equal. rewrite list.filter_app, IH by done. destruct (_ && _); [|done]. rewrite filter_cons_False by (intros C; by apply C). done.
Qed.

(** The digit count the zero fill asks for: enough for the target, and at most one past it. *)
Lemma want_loop_spec size target : (0 < size)%nat -> forall fuel want, (target <= fuel + want)%nat -> (0 < want)%nat ->
  let r := want_loop fuel want target size in
  (want <= r /\ target <= r + (r - 1) / size /\ (r = want \/ r + (r - 1) / size <= target + 1))%nat.
Proof.
  intros Hs. induction fuel as [|k IH]; intros want Hf Hw; cbv zeta; cbn [want_loop]; [lia|].
  destruct (Nat.ltb_spec (want + (want - 1) / size) target) as [Hlt|]; [|lia]. specialize (IH (S want) ltac:(lia) ltac:(lia)). cbv zeta in IH.
  destruct IH as (H1 & H2 & H3). split; [lia|]. split; [done|]. right. destruct H3 as [->|H3]; [|done].
  replace (S want - 1)%nat with want by lia. pose proof (div_pred want size Hs Hw). destruct (want mod size =? 0)%nat; lia.
Qed.

(** ** Integers *)
Definition radix_of (spec : FormatSpec) : Z :=
  if ty_in [ch "x"; ch "X"] spec then 16 else if ty_in [ch "b"] spec then 2 else if ty_in [ch "o"] spec then 8 else 10.
Definition int_digits (spec : FormatSpec) (n : Z) : list Z :=
  (if ty_in [ch "X"] spec then digit_CHAR else digit_char) <$> to_digits (radix_of spec) (Z.abs n).
Definition int_prefix (spec : FormatSpec) (n : Z) : list Z :=
  sign_prefix (n <? 0) (sign spec) ++
  match ty spec with Some t => if alt spec && is_one_of RADIX_TYPES t then [ch "0"; t] else [] | None => [] end.
Definition group_size (spec : FormatSpec) : nat := if ty_in RADIX_TYPES spec then 4 else 3.
Definition group_text (spec : FormatSpec) (ds : list Z) : list Z :=
  match group spec with Some sep => groups sep (group_size spec) ds | None => ds end.

Lemma render_int_eq spec n : spec_wf spec -> spec_valid_for_scalar spec KInt = Ok tt -> ty_in FLOAT_TYPES spec = false ->
  render_int spec n = Some (Ok (int_prefix spec n, int_digits spec n, true)).
Proof.
  intros [Ht _] Hv Hf. unfold render_int, int_prefix, int_digits, radix_of. rewrite Hv. unfold ty_in in *. destruct (ty spec) as [t|]; [|by destruct (alt spec)].
  apply one_of_in in Ht. mem_cases Ht; try discriminate Hf; cbn [Z.eqb Pos.eqb]; by destruct (alt spec).
Qed.

Lemma radix_range spec : radix_of spec = 2 \/ radix_of spec = 8 \/ radix_of spec = 10 \/ radix_of spec = 16.
Proof. unfold radix_of. destruct (ty_in [ch "x"; ch "X"] spec), (ty_in [ch "b"] spec), (ty_in [ch "o"] spec); auto. Qed.

(** A digit's character: what it reads as, and what it is not. *)
Lemma digit_char_reads b d (up : bool) : 0 <= d < b -> b <= 16 ->
  to_digit b ((if up then digit_CHAR else digit_char) d) = Some d /\
  is_ascii_hexdigit ((if up then digit_CHAR else digit_char) d) = true /\
  (b <= 10 -> is_ascii_digit ((if up then digit_CHAR else digit_char) d) = true) /\
  (if up then digit_CHAR else digit_char) d <> ch "," /\ (if up then digit_CHAR else digit_char) d <> ch "_".
Proof.
  intros Hd Hb. unfold to_digit, is_ascii_hexdigit, is_ascii_digit, between, digit_CHAR, digit_char. destruct up, (Z.ltb_spec d 10).
  all: repeat split; repeat match goal with |- context [(?a <=? ?c)] => destruct (Z.leb_spec a c) end; simpl; try lia; try done.
  all: try (match goal with |- context [(?a <? ?c)] => destruct (Z.ltb_spec a c) end; try lia; f_equal; lia).
Qed.

Lemma parse_loop_radix max b (up : bool) ds : 1 < b <= 16 -> forall acc, Forall (fun d => 0 <= d < b) ds -> 0 <= acc ->
  fold_left (fun v d => v * b + d) ds acc <= max ->
  parse_loop max b acc ((if up then digit_CHAR else digit_char) <$> ds) = Ok (fold_left (fun v d => v * b + d) ds acc).
Proof.
  intros Hb. induction ds as [|d ds IH]; intros acc Hd Ha Hm; [done|]. inversion_clear Hd as [|? ? Hd1 Hds]. cbn [fmap list_fmap parse_loop fold_left] in *.
  destruct (digit_char_reads b d up Hd1 ltac:(lia)) as [-> _].
  assert (Hge : acc * b + d <= fold_left (fun v d => v * b + d) ds (acc * b + d)).
  { assert (Hpos : 0 <= acc * b + d) by nia. revert Hpos Hds. generalize (acc * b + d). clear - Hb. induction ds as [|x ds IH]; intros v Hv Hf; [simpl; lia|].
    inversion_clear Hf as [|? ? Hx Hxs]. cbn [fold_left]. specialize (IH (v * b + x) ltac:(nia) Hxs). nia. }
  destruct (Z.leb_spec (acc * b + d) max); [|lia]. apply IH; [done|nia|done].
Qed.
Lemma int_digits_read spec n z : I64.ok n -> parse_uint U64_MAX (radix_of spec) (zeros z ++ int_digits spec n) = Ok (Z.abs n).
Proof.
  intros Hn. pose proof (radix_range spec) as Hb. set (b := radix_of spec) in *. unfold int_digits. fold b.
  destruct (to_digits_spec b (Z.abs n)) as [(Hv & Hr & Hne & _) _]; [lia|lia|]. unfold parse_uint.
  rewrite bool_decide_eq_false_2 by (intros [_ E]%app_eq_nil; by apply fmap_nil_inv in E).
  assert (Hz : forall s, parse_loop U64_MAX b 0 (zeros z ++ s) = parse_loop U64_MAX b 0 s).
  { intros s. unfold zeros. induction (Z.to_nat z) as [|k IH]; [done|]. rewrite replicate_S. cbn [app parse_loop].
    replace (to_digit b (ch "0")) with (Some 0) by (destruct Hb as [->|[->|[->| ->]]]; done). exact IH. }
  rewrite Hz. unfold of_digits in Hv. rewrite parse_loop_radix; [by rewrite Hv|lia|done|lia|]. rewrite Hv. unfold I64.ok, I64.MIN, I64.MAX, U64_MAX in *. lia.
Qed.

Lemma span_all p s : Forall (fun c => p c = true) s -> span_digits p s = (s, []).
Proof. induction 1 as [|c s Hc _ IH]; cbn [span_digits]; [done|]. by rewrite Hc, IH. Qed.
Lemma int_digits_span spec n : span_digits (if ty_in [ch "x"; ch "X"] spec then is_ascii_hexdigit else is_ascii_digit) (int_digits spec n) = (int_digits spec n, []).
Proof.
  apply span_all. unfold int_digits. pose proof (radix_range spec) as Hb. destruct (to_digits_spec (radix_of spec) (Z.abs n)) as [(_ & Hr & _) _]; [lia|lia|].
  apply Forall_fmap. eapply Forall_impl; [|exact Hr]. intros d Hd. cbn beta. unfold compose.
  destruct (digit_char_reads (radix_of spec) d (ty_in [ch "X"] spec) Hd ltac:(lia)) as (_ & H1 & H2 & _).
  destruct (ty_in [ch "x"; ch "X"] spec) eqn:E; [done|]. apply H2. unfold radix_of. rewrite E. destruct (ty_in [ch "b"] spec), (ty_in [ch "o"] spec); lia.
Qed.
Lemma int_digits_nonempty spec n : int_digits spec n <> [].
Proof.
  unfold int_digits. pose proof (radix_range spec) as Hb. destruct (to_digits_spec (radix_of spec) (Z.abs n)) as [(_ & _ & Hne & _) _]; [lia|lia|].
  intros E. by apply fmap_nil_inv in E.
Qed.

Lemma int_digits_no_sep spec n z sep : is_one_of [ch ","; ch "_"] sep = true -> sep ∉ zeros z ++ int_digits spec n.
Proof.
  intros Hs%one_of_in [Hz|Hd]%elem_of_app.
  - unfold zeros in Hz. apply elem_of_replicate in Hz as [-> _]. rewrite !elem_of_cons, elem_of_nil in Hs. lia.
  - unfold int_digits in Hd. apply list_elem_of_fmap in Hd as (d & -> & Hd). pose proof (radix_range spec) as Hb.
    destruct (to_digits_spec (radix_of spec) (Z.abs n)) as [(_ & Hr & _) _]; [lia|lia|]. rewrite list.Forall_forall in Hr. specialize (Hr d Hd).
    destruct (digit_char_reads (radix_of spec) d (ty_in [ch "X"] spec) Hr ltac:(lia)) as (_ & _ & _ & H1 & H2).
    rewrite !elem_of_cons, elem_of_nil in Hs. destruct Hs as [Hs|[Hs|[]]]; congruence.
Qed.

(** The body of an integer: its digits, the zero fill before them, in groups. *)
Lemma int_body spec prefix n : exists z, 0 <= z /\
  group_body spec prefix (int_digits spec n) true = group_text spec (zeros z ++ int_digits spec n) /\
  (0 < z -> (length prefix + length (group_text spec (zeros z ++ int_digits spec n)) <= Z.to_nat (width spec) + 1)%nat).
Proof.
  unfold group_body, group_text. destruct (group spec) as [sep|]; [|exists 0; split; [done|split; [done|lia]]].
  fold (group_size spec). assert (Hs : (0 < group_size spec)%nat) by (unfold group_size; destruct (ty_in RADIX_TYPES spec); lia).
  rewrite int_digits_span. pose proof (int_digits_nonempty spec n) as Hne. rewrite bool_decide_eq_false_2 by done.
  rewrite group_digits_eq, app_nil_r, Nat.add_0_r. set (ds := int_digits spec n) in *. set (target := (Z.to_nat (width spec) - length prefix)%nat).
  assert (Hl : (0 < length ds)%nat) by (destruct ds; [done|simpl; lia]).
  destruct (zero_fill spec true); [|exists 0; rewrite Z.sub_diag; split; [done|split; [done|lia]]].
  pose proof (want_loop_spec (group_size spec) target Hs target (length ds) ltac:(lia) Hl) as W. cbv zeta in W.
  set (w := want_loop target (length ds) target (group_size spec)) in *. exists (Z.of_nat w - Z.of_nat (length ds)).
  split; [lia|]. split; [done|]. intros Hz. rewrite groups_length, length_app by done. unfold zeros. rewrite length_replicate.
  replace (Z.to_nat (Z.of_nat w - Z.of_nat (length ds)) + length ds)%nat with w by lia.
  assert (w + (w - 1) / group_size spec <= target + 1)%nat by lia. destruct (Nat.le_gt_cases (length prefix) (Z.to_nat (width spec))); [lia|].
  assert (target = 0)%nat as E by lia. unfold w in Hz. rewrite E in Hz. simpl in Hz. lia.
Qed.

Lemma apply_unfold spec arg out p b k : render_base spec arg = Some (Ok (p, b, k)) ->
  apply spec arg out = Some (Ok (out ++ pad_body spec p (group_body spec p b k) k)).
Proof. intros E. unfold apply. by rewrite E. Qed.

(** C31: a spec is refused exactly where the static check refuses it. Under a spec the parser can
    produce, rendering never panics; if [spec_valid_for_scalar] rejects the spec for the value's kind,
    rendering fails with the same message; if it accepts it, rendering appends a text at least as
    long as the width. *)
Theorem apply_checked (spec : FormatSpec) (arg : FmtArg) (out : list Z) :
  spec_wf spec -> arg_ok arg ->
  match spec_valid_for_scalar spec (kind_of arg) with
  | Ok _ => exists t, apply spec arg out = Some (Ok (out ++ t)) /\ (Z.to_nat (width spec) <= length t)%nat
  | Err e => apply spec arg out = Some (Err e)
  end.
Proof.
  intros Hwf Ha. pose proof (render_checked spec arg Hwf Ha) as H. destruct (spec_valid_for_scalar spec (kind_of arg)).
  - destruct H as [[[p b] k] E]. rewrite (apply_unfold _ _ _ _ _ _ E). eexists. split; [done|].
    destruct (pad_body_spec spec p (group_body spec p b k) k) as (_ & _ & _ & _ & ->). lia.
  - unfold apply. by rewrite H.
Qed.

(** A printed integer reads back. What [apply] prints for an [i64] under an integer type is the
    sign and radix prefix, the digits in groups of three or four from the right, and fill around
    them; the digits, the zeros of the zero fill before them included, read in the type's radix as
    the integer's magnitude, and no digit is a separator. The field is as wide as asked, or as wide as the number; grouped zero
    fill goes at most one character past the width. *)
Lemma apply_int_reads (spec : FormatSpec) (n : Z) (t : list Z) :
  spec_wf spec -> I64.ok n -> ty_in FLOAT_TYPES spec = false -> apply spec (FInt n) [] = Some (Ok t) ->
  exists z, laid_out spec true (int_prefix spec n) (group_text spec (zeros z ++ int_digits spec n)) t /\
    parse_uint U64_MAX (radix_of spec) (zeros z ++ int_digits spec n) = Ok (Z.abs n) /\
    (forall sep, group spec = Some sep ->
       filter (fun c => c <> sep) (group_text spec (zeros z ++ int_digits spec n)) = zeros z ++ int_digits spec n) /\
    (0 < z -> (length t <= Z.to_nat (width spec) + 1)%nat).
Proof.
  intros Hwf Hn Hf Ht. destruct (spec_valid_for_scalar spec KInt) as [[]|] eqn:Hv.
  2:{ unfold apply, render_base, render_int in Ht. by rewrite Hv in Ht. }
  pose proof (render_int_eq spec n Hwf Hv Hf) as E. rewrite (apply_unfold _ (FInt n) _ _ _ _ E) in Ht. cbn [app] in Ht. injection Ht as <-.
  destruct (int_body spec (int_prefix spec n) n) as (z & Hz & -> & Hw). exists z. pose proof (pad_body_spec spec (int_prefix spec n) (group_text spec (zeros z ++ int_digits spec n)) true) as L.
  split; [exact L|]. split; [by apply int_digits_read|]. split.
  { intros sep Hg. unfold group_text. rewrite Hg. apply groups_filter, int_digits_no_sep. destruct Hwf as [_ Hwf]. by rewrite Hg in Hwf. }
  intros Hpos. destruct L as (_ & _ & _ & _ & ->). specialize (Hw Hpos). lia.
Qed.

(** ** A number in a column *)
Module FmtDemo.
(** [{x:08,}]. *)
Definition spec : FormatSpec :=
  mkSpec (ch "0") None None false false true 8 false false (Some (ch ",")) None None.
Example parsed : parse (text "08,") = Ok spec.
Proof. reflexivity. Qed.
Lemma wf : spec_wf spec.
Proof. by split. Qed.
(** Nine characters for a width of eight. *)
Example thousand : apply spec (FInt 1000) [] = Some (Ok (text "0,001,000")).
Proof. reflexivity. Qed.
Lemma small : I64.ok 1000.
Proof. unfold I64.ok, I64.MIN, I64.MAX. lia. Qed.
Lemma no_float : ty_in FLOAT_TYPES spec = false.
Proof. reflexivity. Qed.
End FmtDemo.

Lemma apply_checked_witness :
  apply FmtDemo.spec (FStr (text "a")) [] = Some (Err "format spec: zero-pad '0' not allowed on a string") /\
  exists t, apply FmtDemo.spec (FInt 1000) [] = Some (Ok ([] ++ t)) /\ (8 <= length t)%nat.
Proof.
  split.
  - exact (apply_checked FmtDemo.spec (FStr (text "a")) [] FmtDemo.wf Logic.I).
  - exact (apply_checked FmtDemo.spec (FInt 1000) [] FmtDemo.wf Logic.I).
Defined.
