(* ===== verification/Syntax.v ===== *)
(** * Syntax of types and patterns: [src/src/ast/mod.rs]

    The nodes the parser builds for a type annotation and for a pattern, their equality as the
    source writes it (positions and labels do not count), the names a pattern binds, and the
    nesting of a tree, which is what the recursive walkers of later phases spend stack on. *)

From stdpp Require Import strings.
From S2P Require Import Prelude Consteval Slice Token.
Import F64.
Local Open Scope nat_scope.

(** ** Types *)

Inductive Variadic := VNo | VPack | VC.
#[global] Instance Variadic_eq_dec : EqDecision Variadic.
Proof. solve_decision. Defined.

(** [ast::Type]. *)
Inductive TExpr :=
| TNamed (name : list Z) (sp : Span)
| TQualified (module name : list Z) (args : list TExpr)
| TGeneric (name : list Z) (args : list TExpr) (sp : Span)
| TFunc (params : list TExpr) (ret : TExpr) (labels : list (option (list Z))) (variadic : Variadic)
| TTuple (elems : list TExpr)
| TNil (sp : Span).

Section texpr_ind.
  Context (P : TExpr -> Prop).
  Context (Hnamed : forall n sp, P (TNamed n sp)) (Hnil : forall sp, P (TNil sp)).
  Context (Hqual : forall m n args, Forall P args -> P (TQualified m n args)).
  Context (Hgen : forall n args sp, Forall P args -> P (TGeneric n args sp)).
  Context (Hfunc : forall ps r ls v, Forall P ps -> P r -> P (TFunc ps r ls v)).
  Context (Htuple : forall es, Forall P es -> P (TTuple es)).

Fixpoint texpr_induction (t : TExpr) : P t :=
    let all := fix go l : Forall P l :=
      match l with [] => Forall_nil_2 P | x :: l => Forall_cons_2 P x l (texpr_induction x) (go l) end in
    match t with
    | TNamed n sp => Hnamed n sp
    | TQualified m n args => Hqual m n args (all args)
    | TGeneric n args sp => Hgen n args sp (all args)
    | TFunc ps r ls v => Hfunc ps r ls v (all ps) (texpr_induction r)
    | TTuple es => Htuple es (all es)
    | TNil sp => Hnil sp
    end.
End texpr_ind.

(** Equality on two lists of nodes. *)
Section list_eqb.
  Context {A : Type} (eqb : A -> A -> bool).

Fixpoint list_eqb (l k : list A) : bool :=
    match l, k with
    | [], [] => true
    | x :: l, y :: k => eqb x y && list_eqb l k
    | _, _ => false
    end.
End list_eqb.

(** [impl PartialEq for Type]. *)
Fixpoint type_eqb (a b : TExpr) {struct a} : bool :=
  match a, b with
  | TNamed a _, TNamed b _ => bool_decide (a = b)
  | TQualified m1 n1 a1, TQualified m2 n2 a2 =>
      bool_decide (m1 = m2) && bool_decide (n1 = n2) && list_eqb type_eqb a1 a2
  | TGeneric n1 a1 _, TGeneric n2 a2 _ => bool_decide (n1 = n2) && list_eqb type_eqb a1 a2
  | TFunc p1 r1 _ v1, TFunc p2 r2 _ v2 =>
      list_eqb type_eqb p1 p2 && type_eqb r1 r2 && bool_decide (v1 = v2)
  | TTuple t1, TTuple t2 => list_eqb type_eqb t1 t2
  | TNil _, TNil _ => true
  | _, _ => false
  end.

(** [private_name] and [is_blank_name]. *)
Definition private_name (name : list Z) : list Z := text "$" ++ name.
Definition is_blank_name (name : list Z) : bool := bool_decide (name = text "_").

(** The nesting of a type: the frames a recursive walk over it takes. *)
Definition max_of {A} (f : A -> nat) : list A -> nat := foldr (fun x m => f x `max` m) 0.
Fixpoint type_nest (t : TExpr) : nat :=
  match t with
  | TNamed _ _ | TNil _ => 1
  | TQualified _ _ args | TGeneric _ args _ | TTuple args => S (max_of type_nest args)
  | TFunc ps r _ _ => S (max_of type_nest ps `max` type_nest r)
  end.

(** ** Patterns *)

Inductive CarrierTag := TagPresent | TagError.
Inductive LitPattern := LInt (n : Z) | LFloat (f : f64) | LStr (s : list Z) | LBool (b : bool).

(** [ast::Pattern]; a [NodeId] is its number. *)
Inductive Pattern :=
| PIdent (name : list Z) (sp : Span) (id : Z)
| PVariant (id : Z) (name : list Z) (bindings : list Pattern) (enum_name module_name : option (list Z))
| PTuple (elems : list Pattern)
| PLiteral (l : LitPattern)
| PRange (start end_ : Z) (inclusive : bool)
| PWildcard
| POr (alts : list Pattern)
| PCarrier (tag : CarrierTag) (inner : Pattern) (id : Z).

Section pattern_ind.
  Context (P : Pattern -> Prop).
  Context (Hident : forall n sp id, P (PIdent n sp id)) (Hlit : forall l, P (PLiteral l)).
  Context (Hrange : forall a b i, P (PRange a b i)) (Hwild : P PWildcard).
  Context (Hvar : forall id n bs e m, Forall P bs -> P (PVariant id n bs e m)).
  Context (Htuple : forall es, Forall P es -> P (PTuple es)) (Hor : forall es, Forall P es -> P (POr es)).
  Context (Hcarrier : forall t p id, P p -> P (PCarrier t p id)).

Fixpoint pattern_induction (p : Pattern) : P p :=
    let all := fix go l : Forall P l :=
      match l with [] => Forall_nil_2 P | x :: l => Forall_cons_2 P x l (pattern_induction x) (go l) end in
    match p with
    | PIdent n sp id => Hident n sp id
    | PVariant id n bs e m => Hvar id n bs e m (all bs)
    | PTuple es => Htuple es (all es)
    | PLiteral l => Hlit l
    | PRange a b i => Hrange a b i
    | PWildcard => Hwild
    | POr es => Hor es (all es)
    | PCarrier t p id => Hcarrier t p id (pattern_induction p)
    end.
End pattern_ind.

(** [collect_bare_names]: each [Ident] and each bare head without a payload, in order. *)
Fixpoint bare_names (p : Pattern) : list Pattern :=
  match p with
  | PIdent _ _ _ | PVariant _ _ [] None None => [p]
  | PVariant _ _ subs _ _ | PTuple subs | POr subs => flat_map bare_names subs
  | PCarrier _ inner _ => bare_names inner
  | PLiteral _ | PRange _ _ _ | PWildcard => []
  end.

(** [Span::default()]. *)
Definition NO_SPAN : Span := mkSpan 0 0 0.

(** The name of a bare node; [None] is the [unreachable!] arm of [Pattern::binders]. *)
Definition binder (node : Pattern) : option (list Z * Span) :=
  match node with
  | PIdent name sp _ => Some (name, sp)
  | PVariant _ name _ _ _ => Some (name, NO_SPAN)
  | PTuple _ | POr _ | PCarrier _ _ _ | PLiteral _ | PRange _ _ _ | PWildcard => None
  end.
Definition binders (p : Pattern) : option (list (list Z * Span)) := mapM binder (bare_names p).

Fixpoint pattern_nest (p : Pattern) : nat :=
  match p with
  | PIdent _ _ _ | PLiteral _ | PRange _ _ _ | PWildcard => 1
  | PVariant _ _ subs _ _ | PTuple subs | POr subs => S (max_of pattern_nest subs)
  | PCarrier _ inner _ => S (pattern_nest inner)
  end.

(** ** Facts *)

Lemma max_of_le {A} (f : A -> nat) l n : max_of f l <= n <-> Forall (fun x => f x <= n) l.
Proof.
  induction l as [|x l IH]; cbn; [split; [constructor|lia]|].
  rewrite list.Forall_cons, <- IH. lia.
Qed.
Lemma max_of_app {A} (f : A -> nat) l k : max_of f (l ++ k) = max_of f l `max` max_of f k.
Proof. induction l as [|x l IH]; cbn; [done|]. fold (max_of f (l ++ k)). rewrite IH. fold (max_of f l). lia. Qed.

Lemma bare_names_named p : Forall (fun q => is_Some (binder q)) (bare_names p).
Proof.
  induction p using pattern_induction; cbn; try by repeat constructor.
  - destruct bs as [|b bs]; [destruct e, m; by repeat constructor|].
    revert H. generalize (b :: bs). intros l. induction 1; cbn; [done|]. by apply Forall_app_2.
  - induction H; cbn; [done|]. by apply Forall_app_2.
  - induction H; cbn; [done|]. by apply Forall_app_2.
Qed.

(** The [unreachable!] arm of [binders] is unreachable. *)
Lemma binders_total p : is_Some (binders p).
Proof. apply mapM_is_Some, bare_names_named. Qed.

Lemma list_eqb_refl {A} (f : A -> A -> bool) l : Forall (fun x => f x x = true) l -> list_eqb f l l = true.
Proof. induction 1 as [|x l H _ IH]; cbn; [done|]. by rewrite H. Qed.
Lemma type_eqb_refl t : type_eqb t t = true.
Proof.
  induction t using texpr_induction; cbn; rewrite ?bool_decide_true, ?list_eqb_refl by done; try done.
  by rewrite IHt.
Qed.
