(* ===== verification/Cursor.v ===== *)
(** * The parser's state and token cursor: [src/src/parser/mod.rs], [src/src/parser/cursor.rs]

    The state of [Parser], the monad its methods run in, and the methods that look at tokens,
    consume them and word an error.  A method returns a value, fails with a [ParseError] (the state
    is kept: a caller that backtracks restores it by hand), panics (an index out of range, an
    [expect], an [unreachable!], a negative [usize]) or spins (a loop that never ends). *)

From stdpp Require Import strings.
From S2P Require Import Prelude Consteval Slice Token Decimal Syntax.
Import F64.
Local Open Scope nat_scope.
Local Open Scope chz_scope.

(** ** State *)

Record ParseError := mkParseError { pe_message : list Z; pe_span : Span }.

(** [Parser]; [next_id] is the counter [NEXT_NODE_ID]. *)
Record Parser := mkParser {
  value_start : option nat;
  if_line : option (nat * nat);
  stmt_inline : bool;
  toks : list Tok;
  tpos : nat;
  depth : nat;
  fold_depth : nat;
  docs : list (nat * list Z);
  native_enums : list (list Z);
  bang_eq : option nat;
  hole_parsed : bool;
  next_id : Z;
}.

Definition MAX_DEPTH : nat := 512.
Definition MAX_AST_DEPTH : nat := Z.to_nat 16000.
#[global] Arguments MAX_DEPTH : simpl never.
#[global] Arguments MAX_AST_DEPTH : simpl never.

Definition set_tpos (p : nat) (s : Parser) : Parser :=
  mkParser (value_start s) (if_line s) (stmt_inline s) (toks s) p (depth s) (fold_depth s) (docs s)
    (native_enums s) (bang_eq s) (hole_parsed s) (next_id s).
Definition set_depth (d : nat) (s : Parser) : Parser :=
  mkParser (value_start s) (if_line s) (stmt_inline s) (toks s) (tpos s) d (fold_depth s) (docs s)
    (native_enums s) (bang_eq s) (hole_parsed s) (next_id s).
Definition set_fold (f : nat) (s : Parser) : Parser :=
  mkParser (value_start s) (if_line s) (stmt_inline s) (toks s) (tpos s) (depth s) f (docs s)
    (native_enums s) (bang_eq s) (hole_parsed s) (next_id s).
Definition set_bang (b : option nat) (s : Parser) : Parser :=
  mkParser (value_start s) (if_line s) (stmt_inline s) (toks s) (tpos s) (depth s) (fold_depth s)
    (docs s) (native_enums s) b (hole_parsed s) (next_id s).
Definition set_id (n : Z) (s : Parser) : Parser :=
  mkParser (value_start s) (if_line s) (stmt_inline s) (toks s) (tpos s) (depth s) (fold_depth s)
    (docs s) (native_enums s) (bang_eq s) (hole_parsed s) n.

(** [toks.windows(3)]: the names the module declares as a [native enum]. *)
Fixpoint native_enum_names (ts : list Token) : list (list Z) :=
  match ts with
  | k1 :: rest =>
      match k1, rest with
      | KNative, KEnum :: KIdent n :: _ => [n]
      | _, _ => []
      end ++ native_enum_names rest
  | [] => []
  end.

(** [Parser::new], with the doc comments of [parse_with_docs]. *)
Definition new_parser (ts : list Tok) (docs : list (nat * list Z)) (id : Z) : Parser :=
  mkParser None None false ts 0 0 0 docs (native_enum_names (kind <$> ts)) None false id.

(** ** The monad *)

Inductive outcome (A : Type) : Type :=
| Ret (a : A) (s : Parser)
| Fail (e : ParseError) (s : Parser)
| Panic
| Spin.
Arguments Ret {A} a s.
Arguments Fail {A} e s.
Arguments Panic {A}.
Arguments Spin {A}.
Definition PM (A : Type) : Type := Parser -> outcome A.

#[global] Instance PM_ret : MRet PM := fun A a s => Ret a s.
Definition pbind {A B} (m : PM A) (k : A -> PM B) : PM B := fun s =>
  match m s with Ret a s => k a s | Fail e s => Fail e s | Panic => Panic | Spin => Spin end.

Declare Scope parse_scope.
Delimit Scope parse_scope with parse.
Notation "x ← y ; z" := (pbind y (fun x => z))
  (at level 20, y at level 100, z at level 200, only parsing) : parse_scope.
Notation "' x ← y ; z" := (pbind y (fun x => z))
  (at level 20, x pattern, y at level 100, z at level 200, only parsing) : parse_scope.
Notation "x ;; z" := (pbind x (fun _ => z))
  (at level 100, z at level 200, only parsing, right associativity) : parse_scope.
Open Scope parse_scope.

Definition get : PM Parser := fun s => Ret s s.
Definition gets {A} (f : Parser -> A) : PM A := fun s => Ret (f s) s.
Definition modify (f : Parser -> Parser) : PM unit := fun s => Ret tt (f s).
Definition throw {A} (e : ParseError) : PM A := fun s => Fail e s.
(** An index, an [expect] or a subtraction that panics on [None]. *)
Definition or_panic {A} (o : option A) : PM A := fun s => match o with Some a => Ret a s | None => Panic end.
(** [if let Ok(v) = m]: the error of [m] is a value; its effects on the state stay. *)
Definition attempt {A} (m : PM A) : PM (A + ParseError) := fun s =>
  match m s with Ret a s => Ret (inl a) s | Fail e s => Ret (inr e) s | Panic => Panic | Spin => Spin end.

(** A loop of at most [n] rounds; [inl] goes on. *)
Fixpoint rounds {A B} (n : nat) (body : A -> PM (A + B)) (a : A) : PM B :=
  match n with
  | O => fun _ => Spin
  | S n => r ← body a; match r with inl a => rounds n body a | inr b => mret b end
  end.
(** A loop in which each round that goes on consumes a token. *)
Definition forever {A B} (body : A -> PM (A + B)) (a : A) : PM B :=
  fun s => rounds (S (length (toks s) - tpos s)) body a s.

(** [NodeId::fresh]: [fetch_add] wraps at 32 bits. *)
Definition fresh_block (n : Z) : PM Z :=
  s ← get; modify (set_id (Z.modulo (next_id s + n) (2 ^ 32)));; mret (next_id s).
Definition fresh : PM Z := fresh_block 1.

(** ** Words for tokens *)

Definition quoted_text (l : list Z) : list Z := text "'" ++ l ++ text "'".

(** [describe]; every token the last arm meets has a lexeme ([describe_lexeme]). *)
Definition describe (t : Token) : list Z :=
  match t with
  | KNewline => text "end of line"
  | KIndent => text "an indented block"
  | KDedent => text "a dedent"
  | KEof => text "end of input"
  | KIdent name => text "identifier " ++ quoted_text name
  | KInt n => text "integer " ++ show_int n
  | KIntMinMagnitude => text "integer 9223372036854775808"
  | KFloat f => text "float " ++ fmt_display f
  | KStr _ => text "a string literal"
  | KBytes _ => text "a byte-string literal"
  | KRawStr _ => text "a raw-string literal"
  | _ => quoted_text (from_option id [] (lexeme t))
  end.

(** ** Looking at tokens *)

Definition peek_tok : PM Tok := s ← get; or_panic (toks s !! tpos s).
Definition peek : PM Token := t ← peek_tok; mret (kind t).
Definition peek_at (n : nat) : PM Token := gets (fun s => from_option kind KEof (toks s !! (tpos s + n))).
Definition cur_span : PM Span := t ← peek_tok; mret (span t).

Definition advance : PM Tok :=
  tok ← peek_tok;
  modify (fun s => if (tpos s + 1 <? length (toks s))%nat then set_tpos (S (tpos s)) s else s);;
  mret tok.

(** [check] compares with a token that has no payload. *)
Definition check (k : Token) : PM bool := t ← peek; mret (is_tok t k).
Definition eat (k : Token) : PM bool := b ← check k; if b then advance;; mret true else mret false.

Definition err {A} (message : list Z) : PM A := sp ← cur_span; throw (mkParseError message sp).

Definition at_type_assign : PM bool :=
  a ← check KAssign;
  if a then mret true
  else b ← check KNotEq; s ← get; mret (b && bool_decide (bang_eq s = Some (tpos s))).
Definition eat_type_assign : PM bool := b ← at_type_assign; if b then advance;; mret true else mret false.

(** [too_deep]. *)
Definition too_deep {A} : PM A :=
  s ← get;
  err (text "expression nested too deeply" ++
       if hole_parsed s then
         text " (limits: 512 nested levels, 16000 levels of tree depth); an interpolated `{" ++ [8230%Z] ++
         text "}` fragment nests INSIDE the expression around it and spends the same budget"
       else []).

(** ** Delimiters *)

Definition opener_of (close : Token) : option Token :=
  match close with KRParen => Some KLParen | KRBracket => Some KLBracket | KRBrace => Some KLBrace | _ => None end.

(** The forward scan: whether [close] comes while the depth is 0. *)
Fixpoint closes_later (open close : Token) (depth : nat) (rest : list Tok) : bool :=
  match rest with
  | [] => false
  | t :: rest =>
      if is_tok (kind t) open then closes_later open close (S depth) rest
      else if is_tok (kind t) close then
        match depth with O => true | S d => closes_later open close d rest end
      else closes_later open close depth rest
  end.
(** The backward scan: the nearest opener that nothing closes. *)
Fixpoint nearest_open (open close : Token) (depth : nat) (before : list Tok) : option Tok :=
  match before with
  | [] => None
  | t :: before =>
      if is_tok (kind t) close then nearest_open open close (S depth) before
      else if is_tok (kind t) open then
        match depth with O => Some t | S d => nearest_open open close d before end
      else nearest_open open close depth before
  end.
Definition unclosed_opener (s : Parser) (close : Token) : option Tok :=
  match opener_of close with
  | Some open =>
      if closes_later open close 0 (drop (tpos s) (toks s)) then None
      else nearest_open open close 0 (rev (take (tpos s) (toks s)))
  | None => None
  end.

Definition expect (k : Token) : PM Tok :=
  b ← check k;
  if b then advance
  else
    s ← get;
    match unclosed_opener s k with
    | Some open => throw (mkParseError (describe (kind open) ++ text " was never closed") (span open))
    | None => t ← peek; err (text "expected " ++ describe k ++ text ", found " ++ describe t)
    end.

(** ** Names and literals *)

Definition keyword_name_error (t : Token) (sp : Span) : option ParseError :=
  match List.find (fun '(_, k) => is_tok k t) KEYWORDS with
  | Some (w, _) =>
      Some (mkParseError (text "expected identifier, found reserved keyword " ++ quoted_text w ++
                          text " (a keyword cannot be used as a name)") sp)
  | None => None
  end.

Definition expect_ident : PM (list Z) :=
  t ← peek;
  match t with
  | KIdent _ => tok ← advance; match kind tok with KIdent name => mret name | _ => or_panic None end
  | _ =>
      sp ← cur_span;
      match keyword_name_error t sp with
      | Some e => throw e
      | None => err (text "expected identifier, found " ++ describe t)
      end
  end.
Definition expect_ident_or_none : PM (list Z) :=
  b ← eat KNoneKw; if b then mret (text "None") else expect_ident.

Definition expect_int : PM Z :=
  t ← peek;
  match t with
  | KInt _ => tok ← advance; match kind tok with KInt n => mret n | _ => or_panic None end
  | _ => err (text "expected integer, found " ++ describe t)
  end.

(** [-n] on an [i64] panics when it overflows. *)
Definition neg_i64 (n : Z) : option Z := if (n =? - 2 ^ 63)%Z then None else Some (- n)%Z.
Definition expect_pattern_int : PM Z :=
  m ← eat KMinus;
  if m then
    t ← peek;
    match t with
    | KIntMinMagnitude => advance;; mret (- 2 ^ 63)%Z
    | _ => n ← expect_int; or_panic (neg_i64 n)
    end
  else expect_int.

(** ** Lines and lists *)

Definition ended_at_block : PM bool :=
  s ← get;
  if (0 <? tpos s)%nat then t ← or_panic (toks s !! (tpos s - 1)); mret (is_tok (kind t) KDedent)
  else mret false.
Definition eat_in_line (t : Token) : PM bool := b ← ended_at_block; if b then mret false else eat t.

(** [end.iter().any(|t| self.check(t))]. *)
Fixpoint check_any (ends : list Token) : PM bool :=
  match ends with [] => mret false | t :: ends => b ← check t; if b then mret true else check_any ends end.

Definition comma_tail {A} (first : A) (ends : list Token) (elem : PM A) : PM (list A * bool) :=
  forever (fun '(elems, comma) =>
    more ← eat_in_line KComma;
    if more then
      stop ← check_any ends;
      if stop then mret (inr (elems, true))
      else x ← elem; mret (inl (elems ++ [x], true))
    else mret (inr (elems, comma))) ([first], false).

Definition skip_newlines : PM unit :=
  forever (fun _ : unit => b ← check KNewline; if b then advance;; mret (inl tt) else mret (inr tt)) tt.
