(* ===== verification/CursorWp.v ===== *)
(** * Reasoning about the parser's methods

    A weakest-precondition calculus for the parser's monad, the invariant of the token cursor
    ([stream_ok]: the stream ends in [Eof], its number tokens are such as the lexer makes and the cursor
    is inside it), and one rule for each
    cursor method.  [reads s ts s'] says that a method has consumed exactly the tokens [ts]. *)

From stdpp Require Import strings.
From S2P Require Import Prelude Consteval Slice Token Decimal Syntax Cursor.
Local Open Scope nat_scope.
Local Open Scope chz_scope.
Local Open Scope parse_scope.

(** ** Weakest preconditions *)

Definition pwp {A} (m : PM A) (Q : A -> Parser -> Prop) (F : ParseError -> Parser -> Prop) (s : Parser) : Prop :=
  match m s with Ret a s => Q a s | Fail e s => F e s | Panic | Spin => False end.
Arguments pwp : simpl never.

Lemma pwp_bind {A B} (m : PM A) (k : A -> PM B) Q F s :
  pwp m (fun a s' => pwp (k a) Q F s') F s -> pwp (pbind m k) Q F s.
Proof. unfold pwp, pbind. by destruct (m s). Qed.
Lemma pwp_ret {A} (a : A) (Q : A -> Parser -> Prop) F s : Q a s -> pwp (mret a) Q F s.
Proof. done. Qed.
Lemma pwp_mono {A} (m : PM A) (Q Q' : A -> Parser -> Prop) (F F' : ParseError -> Parser -> Prop) s :
  pwp m Q F s -> (forall a s', Q a s' -> Q' a s') -> (forall e s', F e s' -> F' e s') -> pwp m Q' F' s.
Proof. unfold pwp. destruct (m s); naive_solver. Qed.
Lemma pwp_get (Q : Parser -> Parser -> Prop) F s : Q s s -> pwp get Q F s.
Proof. done. Qed.
Lemma pwp_modify f (Q : unit -> Parser -> Prop) F s : Q tt (f s) -> pwp (modify f) Q F s.
Proof. done. Qed.
Lemma pwp_or_panic {A} (o : option A) a (Q : A -> Parser -> Prop) F s : o = Some a -> Q a s -> pwp (or_panic o) Q F s.
Proof. by intros ->. Qed.
Lemma pwp_throw {A} e (Q : A -> Parser -> Prop) (F : ParseError -> Parser -> Prop) s : F e s -> pwp (throw e) Q F s.
Proof. done. Qed.

(** A loop keeps its invariant, and each round that goes on moves the cursor. *)
Lemma pwp_forever {A B} (body : A -> PM (A + B)) (I : A -> Parser -> Prop) Q F a s :
  I a s ->
  (forall a s, I a s -> tpos s < length (toks s) /\
     pwp (body a) (fun r s' => match r with
                               | inl a' => I a' s' /\ tpos s < tpos s' /\ toks s' = toks s
                               | inr b => Q b s'
                               end) F s) ->
  pwp (forever body a) Q F s.
Proof.
  intros Hi Hb. unfold forever, pwp at 1.
  change (pwp (rounds (S (length (toks s) - tpos s)) body a) Q F s).
  assert (length (toks s) - tpos s < S (length (toks s) - tpos s)) as Hn by lia. revert Hn.
  generalize (S (length (toks s) - tpos s)) as n. intros n. revert a s Hi.
  induction n as [|n IH]; intros a s Hi Hn; [lia|]. cbn [rounds]. apply pwp_bind.
  destruct (Hb a s Hi) as [Hp Hw]. eapply pwp_mono; [exact Hw| |done].
  intros [a'|b] s' H; [|by apply pwp_ret]. destruct H as (Hi' & Hlt & Hc).
  destruct (Hb a' s' Hi') as [Hp' _]. apply IH; [done|]. rewrite Hc in *. lia.
Qed.

(** ** Streams *)

(** What the lexer gives the parser: an [Int] is a non-negative [i64], a [Float] a double. *)
Definition tok_ok (t : Tok) : Prop :=
  match kind t with KInt n => (0 <= n < 2 ^ 63)%Z | KFloat f => float_ok f | _ => True end.

Record stream_ok (s : Parser) : Prop := {
  so_pos : tpos s < length (toks s);
  so_eof : exists t, list.last (toks s) = Some t /\ kind t = KEof;
  so_toks : Forall tok_ok (toks s);
}.

(** The state but for the cursor, the two depths, the [!=] mark and the node counter. *)
Record same_frame (s s' : Parser) : Prop := {
  sf_toks : toks s' = toks s;
  sf_value : value_start s' = value_start s;
  sf_if : if_line s' = if_line s;
  sf_inline : stmt_inline s' = stmt_inline s;
  sf_docs : docs s' = docs s;
  sf_native : native_enums s' = native_enums s;
  sf_hole : hole_parsed s' = hole_parsed s;
}.

(** An error carries the position of a token of the stream, and the cursor stays inside it. *)
Definition fails (s : Parser) (e : ParseError) (s' : Parser) : Prop :=
  same_frame s s' /\ stream_ok s' /\ exists t, t ∈ toks s /\ pe_span e = span t.

(** From [s] to [s'] the tokens [ts] were consumed. *)
Record reads (s : Parser) (ts : list Tok) (s' : Parser) : Prop := {
  rd_frame : same_frame s s';
  rd_ok : stream_ok s';
  rd_pos : tpos s' = tpos s + length ts;
  rd_ts : drop (tpos s) (toks s) = ts ++ drop (tpos s') (toks s);
}.

Definition cur (s : Parser) : option Tok := toks s !! tpos s.
Definition step (s : Parser) : Parser := set_tpos (S (tpos s)) s.

Lemma frame_refl s : same_frame s s.
Proof. by split. Qed.
Lemma frame_trans s1 s2 s3 : same_frame s1 s2 -> same_frame s2 s3 -> same_frame s1 s3.
Proof. intros [] []. split; congruence. Qed.
Lemma fails_frame s s1 e s2 : same_frame s s1 -> fails s1 e s2 -> fails s e s2.
Proof.
  intros H (H2 & H3 & t & Ht & E). split; [by eapply frame_trans|]. split; [done|].
  exists t. by rewrite <- (sf_toks _ _ H).
Qed.
Lemma fails_reads s ts s1 e s2 : reads s ts s1 -> fails s1 e s2 -> fails s e s2.
Proof. intros H. apply fails_frame, H. Qed.

Lemma reads_refl s : stream_ok s -> reads s [] s.
Proof. intros H. split; [apply frame_refl|done|cbn; lia|done]. Qed.
Lemma reads_trans s1 a s2 b s3 : reads s1 a s2 -> reads s2 b s3 -> reads s1 (a ++ b) s3.
Proof.
  intros [F1 O1 P1 T1] [F2 O2 P2 T2]. split; [by eapply frame_trans|done|rewrite length_app; lia|].
  rewrite (sf_toks _ _ F1) in T2. by rewrite T1, T2, <- (assoc_L (++)).
Qed.
Lemma reads_nil s s' : same_frame s s' -> stream_ok s' -> tpos s' = tpos s -> reads s [] s'.
Proof. intros F O E. split; [done|done|cbn; lia|]. by rewrite E. Qed.
Lemma reads_ok s ts s' : reads s ts s' -> stream_ok s'.
Proof. apply rd_ok. Qed.
Lemma reads_toks s ts s' : reads s ts s' -> toks s' = toks s.
Proof. intros H. apply (sf_toks _ _ (rd_frame _ _ _ H)). Qed.

Lemma at_token s : stream_ok s -> exists t, cur s = Some t.
Proof. intros []. by apply lookup_lt_is_Some_2. Qed.
Lemma cur_in s t : cur s = Some t -> t ∈ toks s.
Proof. apply list_elem_of_lookup_2. Qed.
Lemma tok_ok_cur s t : stream_ok s -> cur s = Some t -> tok_ok t.
Proof. intros Hs Hc. apply (proj1 (list.Forall_forall _ _) (so_toks _ Hs) t). by apply cur_in. Qed.

(** The cursor moves off every token but the last. *)
Lemma step_reads s t : stream_ok s -> cur s = Some t -> kind t <> KEof -> reads s [t] (step s).
Proof.
  intros [Hp (l & Hl & Hk) Hi] Hc Hne. unfold cur in Hc.
  assert (S (tpos s) < length (toks s)) as Hlt.
  { rewrite list.last_lookup in Hl. destruct (decide (S (tpos s) = length (toks s))) as [E|]; [|lia].
    rewrite <- E in Hl. cbn in Hl. congruence. }
  split; [by split|split; [done|by exists l|done]|cbn; lia|].
  cbn. by apply drop_S.
Qed.
Lemma advance_step s t : stream_ok s -> cur s = Some t -> kind t <> KEof -> advance s = Ret t (step s).
Proof.
  intros Ho Hc Hk. pose proof (step_reads s t Ho Hc Hk) as H. apply reads_ok, so_pos in H. cbn in H.
  unfold advance, peek_tok, pbind, get, or_panic, modify. unfold cur in Hc. rewrite Hc.
  rewrite (proj2 (Nat.ltb_lt _ _)) by lia. done.
Qed.

Lemma is_tok_eof t k : is_tok (kind t) k = true -> k <> KEof -> kind t <> KEof.
Proof. unfold is_tok. intros H Hk E. rewrite E in H. destruct k; cbn in H; congruence. Qed.

(** ** Rules for the cursor *)

Section rules.
  Context (s : Parser) (Hs : stream_ok s).

Section any_failure.
  Context (F : ParseError -> Parser -> Prop).

Lemma pwp_peek_tok (Q : Tok -> Parser -> Prop) : (forall t, cur s = Some t -> Q t s) -> pwp peek_tok Q F s.
Proof.
  intros H. destruct (at_token s Hs) as [t Ht]. unfold peek_tok. apply pwp_bind, pwp_get.
  by eapply pwp_or_panic; [apply Ht|apply H].
Qed.
Lemma pwp_peek (Q : Token -> Parser -> Prop) : (forall t, cur s = Some t -> Q (kind t) s) -> pwp peek Q F s.
Proof. intros H. apply pwp_bind, pwp_peek_tok. intros t Ht. by apply pwp_ret, H. Qed.
Lemma pwp_cur_span (Q : Span -> Parser -> Prop) : (forall t, cur s = Some t -> Q (span t) s) -> pwp cur_span Q F s.
Proof. intros H. apply pwp_bind, pwp_peek_tok. intros t Ht. by apply pwp_ret, H. Qed.
Lemma pwp_peek_at n (Q : Token -> Parser -> Prop) :
  Q (from_option kind KEof (toks s !! (tpos s + n))) s -> pwp (peek_at n) Q F s.
Proof. done. Qed.
Lemma pwp_check k (Q : bool -> Parser -> Prop) :
  (forall t, cur s = Some t -> Q (is_tok (kind t) k) s) -> pwp (check k) Q F s.
Proof. intros H. apply pwp_bind, pwp_peek. intros t Ht. by apply pwp_ret, H. Qed.

Lemma pwp_advance (Q : Tok -> Parser -> Prop) t :
  cur s = Some t -> kind t <> KEof -> (reads s [t] (step s) -> Q t (step s)) -> pwp advance Q F s.
Proof.
  intros Hc Hk H. unfold pwp. rewrite (advance_step s t Hs Hc Hk). by apply H, step_reads.
Qed.
Lemma pwp_eat k (Q : bool -> Parser -> Prop) :
  k <> KEof ->
  (forall t, cur s = Some t -> is_tok (kind t) k = true -> reads s [t] (step s) -> Q true (step s)) ->
  (forall t, cur s = Some t -> is_tok (kind t) k = false -> Q false s) ->
  pwp (eat k) Q F s.
Proof.
  intros Hk Ht Hn. apply pwp_bind, pwp_check. intros t Hc. destruct (is_tok (kind t) k) eqn:E.
  - apply pwp_bind. eapply pwp_advance; [done|by eapply is_tok_eof|]. intros R. by eapply pwp_ret, Ht.
  - by eapply pwp_ret, Hn.
Qed.

Lemma pwp_ended_at_block (Q : bool -> Parser -> Prop) : (forall b, Q b s) -> pwp ended_at_block Q F s.
Proof.
  intros H. apply pwp_bind, pwp_get. destruct (0 <? tpos s) eqn:E; [|by apply pwp_ret].
  pose proof (so_pos _ Hs). destruct (lookup_lt_is_Some_2 (toks s) (tpos s - 1)) as [t Ht]; [lia|].
  apply pwp_bind. eapply pwp_or_panic; [done|]. by apply pwp_ret.
Qed.
Lemma pwp_eat_in_line k (Q : bool -> Parser -> Prop) :
  k <> KEof ->
  (forall t, cur s = Some t -> is_tok (kind t) k = true -> reads s [t] (step s) -> Q true (step s)) ->
  Q false s ->
  pwp (eat_in_line k) Q F s.
Proof.
  intros Hk Ht Hn. apply pwp_bind, pwp_ended_at_block. intros [|]; [by apply pwp_ret|]. by apply pwp_eat.
Qed.
Lemma pwp_check_any ends (Q : bool -> Parser -> Prop) :
  (forall b, Q b s) -> pwp (check_any ends) Q F s.
Proof.
  intros H. induction ends as [|k ends IH]; cbn; [by apply pwp_ret|].
  apply pwp_bind, pwp_check. intros t Ht. by destruct (is_tok _ _); [apply pwp_ret|].
Qed.

(** The token the method wants is there. *)
Lemma pwp_expect_hit k (Q : Tok -> Parser -> Prop) t :
  cur s = Some t -> kind t = k -> k <> KEof -> (reads s [t] (step s) -> Q t (step s)) -> pwp (expect k) Q F s.
Proof.
  intros Hc Hk Hne H. apply pwp_bind, pwp_check. intros t' Hc'. assert (t' = t) as -> by congruence.
  subst k. unfold is_tok. rewrite Z.eqb_refl. by eapply pwp_advance.
Qed.
Lemma pwp_expect_ident_hit (Q : list Z -> Parser -> Prop) t n :
  cur s = Some t -> kind t = KIdent n -> (reads s [t] (step s) -> Q n (step s)) -> pwp expect_ident Q F s.
Proof.
  intros Hc Hk H. apply pwp_bind, pwp_peek. intros t' Hc'. simplify_eq. rewrite Hk.
  apply pwp_bind. eapply pwp_advance; [done|by rewrite Hk|]. intros R. rewrite Hk. by apply pwp_ret, H.
Qed.
End any_failure.

  Context (s0 : Parser) (Hf : same_frame s0 s).
  Abbreviation F := (fails s0).

Lemma fails_at e t : cur s = Some t -> pe_span e = span t -> F e s.
Proof. intros Hc E. split; [done|]. split; [done|]. exists t. rewrite <- (sf_toks _ _ Hf). by split; [apply cur_in|]. Qed.

Lemma pwp_err {A} msg (Q : A -> Parser -> Prop) : pwp (err msg) Q F s.
Proof. apply pwp_bind, pwp_cur_span. intros t Ht. apply pwp_throw. by eapply fails_at. Qed.

Lemma nearest_in open close before d t : nearest_open open close d before = Some t -> t ∈ before.
Proof.
  revert d. induction before as [|x l IH]; intros d; cbn; [done|].
  repeat case_match; intros E; simplify_eq; try (by left); right; by eapply IH.
Qed.
Lemma opener_in k t : unclosed_opener s k = Some t -> t ∈ toks s.
Proof.
  unfold unclosed_opener. repeat case_match; try done. intros H2. apply nearest_in in H2.
  rewrite <- (take_drop (tpos s) (toks s)). apply elem_of_app. left.
  apply list_elem_of_In. apply in_rev. by apply list_elem_of_In.
Qed.
Lemma pwp_expect k (Q : Tok -> Parser -> Prop) :
  k <> KEof -> (forall t, cur s = Some t -> is_tok (kind t) k = true -> reads s [t] (step s) -> Q t (step s)) ->
  pwp (expect k) Q F s.
Proof.
  intros Hk H. apply pwp_bind, pwp_check. intros t Hc. destruct (is_tok (kind t) k) eqn:E.
  - eapply pwp_advance; [done|by eapply is_tok_eof|]. by intros; eapply H.
  - apply pwp_bind, pwp_get. destruct (unclosed_opener s k) eqn:U.
    + apply pwp_throw. split; [done|]. split; [done|]. eexists. split; [|reflexivity].
      rewrite <- (sf_toks _ _ Hf). by eapply opener_in.
    + apply pwp_bind, pwp_peek. intros. apply pwp_err.
Qed.

Lemma pwp_expect_ident (Q : list Z -> Parser -> Prop) :
  (forall t n, cur s = Some t -> kind t = KIdent n -> reads s [t] (step s) -> Q n (step s)) ->
  pwp expect_ident Q F s.
Proof.
  intros H. apply pwp_bind, pwp_peek. intros t Hc.
  assert (pwp (sp ← cur_span;
               match keyword_name_error (kind t) sp with
               | Some e => throw e
               | None => err (text "expected identifier, found " ++ describe (kind t))
               end) Q F s) as He.
  { apply pwp_bind, pwp_cur_span. intros t' Ht'. destruct (keyword_name_error _ _) eqn:E; [|apply pwp_err].
    apply pwp_throw. eapply fails_at; [done|]. revert E. unfold keyword_name_error.
    repeat case_match; intros; by simplify_eq. }
  destruct (kind t) eqn:Hk; try exact He. clear He.
  apply pwp_bind. eapply pwp_advance; [done|by rewrite Hk|]. intros R. rewrite Hk. by eapply pwp_ret, H.
Qed.

Lemma pwp_expect_int (Q : Z -> Parser -> Prop) :
  (forall t n, cur s = Some t -> kind t = KInt n -> (0 <= n < 2 ^ 63)%Z -> reads s [t] (step s) -> Q n (step s)) ->
  pwp expect_int Q F s.
Proof.
  intros H. apply pwp_bind, pwp_peek. intros t Hc.
  destruct (kind t) eqn:Hk; try apply pwp_err.
  apply pwp_bind. eapply pwp_advance; [done|by rewrite Hk|]. intros R. rewrite Hk. eapply pwp_ret, H; try done.
  pose proof (tok_ok_cur s t Hs Hc) as Ho. unfold tok_ok in Ho. by rewrite Hk in Ho.
Qed.

End rules.

(** The same rules for a method that started at [s0] and has consumed [ts] so far. *)
Section reading.
  Context (s0 : Parser) (ts : list Tok) (s : Parser) (R : reads s0 ts s).
  Abbreviation F := (fails s0).

Lemma reads_step t : reads s [t] (step s) -> reads s0 (ts ++ [t]) (step s).
Proof. by apply reads_trans. Qed.

Lemma r_peek (Q : Token -> Parser -> Prop) : (forall t, cur s = Some t -> Q (kind t) s) -> pwp peek Q F s.
Proof. apply pwp_peek, R. Qed.
Lemma r_cur_span (Q : Span -> Parser -> Prop) : (forall t, cur s = Some t -> Q (span t) s) -> pwp cur_span Q F s.
Proof. apply pwp_cur_span, R. Qed.
Lemma r_check k (Q : bool -> Parser -> Prop) :
  (forall t, cur s = Some t -> Q (is_tok (kind t) k) s) -> pwp (check k) Q F s.
Proof. apply pwp_check, R. Qed.
Lemma r_err {A} msg (Q : A -> Parser -> Prop) : pwp (err msg) Q F s.
Proof. apply pwp_err; apply R. Qed.
Lemma r_advance (Q : Tok -> Parser -> Prop) t :
  cur s = Some t -> kind t <> KEof -> (reads s0 (ts ++ [t]) (step s) -> Q t (step s)) -> pwp advance Q F s.
Proof. intros Hc Hk H. eapply pwp_advance; [apply R|done|done|]. intros X. by apply H, reads_step. Qed.
Lemma r_eat k (Q : bool -> Parser -> Prop) :
  k <> KEof ->
  (forall t, cur s = Some t -> is_tok (kind t) k = true -> reads s0 (ts ++ [t]) (step s) -> Q true (step s)) ->
  (forall t, cur s = Some t -> is_tok (kind t) k = false -> Q false s) ->
  pwp (eat k) Q F s.
Proof. intros Hk Ht Hn. apply pwp_eat; [apply R|done| |done]. intros t Hc Hi X. by eapply Ht, reads_step. Qed.
Lemma r_expect k (Q : Tok -> Parser -> Prop) :
  k <> KEof ->
  (forall t, cur s = Some t -> is_tok (kind t) k = true -> reads s0 (ts ++ [t]) (step s) -> Q t (step s)) ->
  pwp (expect k) Q F s.
Proof. intros Hk Ht. apply pwp_expect; [apply R|apply R|done|]. intros t Hc Hi X. by eapply Ht, reads_step. Qed.
Lemma r_expect_ident (Q : list Z -> Parser -> Prop) :
  (forall t n, cur s = Some t -> kind t = KIdent n -> reads s0 (ts ++ [t]) (step s) -> Q n (step s)) ->
  pwp expect_ident Q F s.
Proof. intros Ht. apply pwp_expect_ident; [apply R|apply R|]. intros t n Hc Hk X. by eapply Ht, reads_step. Qed.
Lemma r_expect_int (Q : Z -> Parser -> Prop) :
  (forall t n, cur s = Some t -> kind t = KInt n -> (0 <= n < 2 ^ 63)%Z -> reads s0 (ts ++ [t]) (step s) ->
    Q n (step s)) ->
  pwp expect_int Q F s.
Proof. intros Ht. apply pwp_expect_int; [apply R|apply R|]. intros t n Hc Hk Hn X. by eapply Ht, reads_step. Qed.
Lemma r_ended_at_block (Q : bool -> Parser -> Prop) : (forall b, Q b s) -> pwp ended_at_block Q F s.
Proof. apply pwp_ended_at_block, R. Qed.
Lemma r_eat_in_line k (Q : bool -> Parser -> Prop) :
  k <> KEof ->
  (forall t, cur s = Some t -> is_tok (kind t) k = true -> reads s0 (ts ++ [t]) (step s) -> Q true (step s)) ->
  Q false s ->
  pwp (eat_in_line k) Q F s.
Proof. intros Hk Ht Hn. apply pwp_eat_in_line; [apply R|done| |done]. intros t Hc Hi X. by eapply Ht, reads_step. Qed.
Lemma r_check_any ends (Q : bool -> Parser -> Prop) : (forall b, Q b s) -> pwp (check_any ends) Q F s.
Proof. apply pwp_check_any, R. Qed.

(** A call to a method with a proved specification. *)
Lemma r_call {A} (m : PM A) (P Q : A -> Parser -> Prop) :
  pwp m P (fails s) s -> (forall a s', P a s' -> Q a s') -> pwp m Q F s.
Proof. intros H HQ. eapply pwp_mono; [done|done|]. intros e s'. by apply (fails_reads s0 ts). Qed.
End reading.

(** A test for a token without a payload tells the token. *)
Definition payload (t : Token) : bool :=
  match t with KInt _ | KFloat _ | KStr _ | KBytes _ | KRawStr _ | KIdent _ => true | _ => false end.
Definition bare_tokens : list Token :=
  (KEYWORDS.*2) ++ PUNCTUATION ++ [KIntMinMagnitude; KNewline; KIndent; KDedent; KEof].
Definition undisc (d : Z) : option Token := List.find (fun k => Z.eqb (discriminant k) d) bare_tokens.
Lemma undisc_spec t : undisc (discriminant t) = if payload t then None else Some t.
Proof. destruct t; reflexivity. Qed.
Lemma is_tok_eq t k : is_tok t k = true -> payload k = false -> t = k.
Proof.
  intros H%Z.eqb_eq Hk. pose proof (undisc_spec t) as Ht. rewrite H, (undisc_spec k), Hk in Ht.
  by destruct (payload t); simplify_eq.
Qed.
Lemma is_tok_refl t : is_tok t t = true.
Proof. apply Z.eqb_refl. Qed.
Ltac tok_kind H := apply is_tok_eq in H; [|reflexivity].

(** Every token [describe] names by its spelling has one. *)
Lemma describe_lexeme t : payload t = false ->
  t ∉ [KIntMinMagnitude; KNewline; KIndent; KDedent; KEof] -> is_Some (lexeme t).
Proof.
  intros Hp Hn. destruct (lexeme t) eqn:E; [done|]. exfalso. apply Hn.
  rewrite !elem_of_cons. destruct t; try discriminate; tauto.
Qed.
