(* ===== verification/Lexed.v ===== *)
(** * From the lexer to the parser

    The theorems on the parser ask for a stream that ends in [Eof] and whose literals are those of the
    language ([stream_ok]).  What the lexer returns is such a stream. *)

From stdpp Require Import strings.
From S2P Require Import Prelude Consteval Slice Token Lexer LexerWp LexerScan LexerSound FmtRender.
From S2P Require Import Syntax Cursor CursorWp.
Local Open Scope nat_scope.

Section lexed.
  Context `{L : CharLaws}.

Lemma token_text_ok l file p q k sp i : token_text l file p q k -> tok_ok (mkTok k sp i).
Proof.
  unfold tok_ok. cbn [kind]. intros H. inversion H as [p0 k0 Hk| |p0 q0 k0 Hl Hk|p0 q0 k0 Hk| | |]; subst; try done.
  - by destruct Hk as [->|[->|[->|[-> _]]]].
  - by destruct k.
  - destruct k; try done; cbn in Hk; [unfold I64.MAX in Hk; lia|by eapply parse_f64_ok].
Qed.
Lemma tiles_ok l file a b ts : tiles l file a b ts -> Forall tok_ok ts.
Proof. induction 1; constructor; [by eapply token_text_ok|done]. Qed.

Lemma blocks_eof depth st ts : blocks_ok depth st (kind <$> ts) = true -> exists t, list.last ts = Some t /\ kind t = KEof.
Proof.
  revert depth st. induction ts as [|t ts IH]; intros depth st H; [done|].
  assert (Hnext : (exists d st', blocks_ok d st' (kind <$> ts) = true) -> exists u, list.last (t :: ts) = Some u /\ kind u = KEof).
  { intros (d & st' & H'). destruct (IH d st' H') as (u & Hu & Hk). exists u. rewrite last_cons, Hu. done. }
  rewrite fmap_cons in H. cbn [blocks_ok] in H. destruct (kind t) eqn:Hk; try (apply Hnext; by eexists _, _).
  - apply Hnext. destruct st; try done. by eexists _, _.
  - apply Hnext. destruct st, depth; try done; by eexists _, _.
  - exists t. split; [|done]. apply andb_prop in H as [H _]. apply andb_prop in H as [_ H].
    apply bool_decide_eq_true in H. by destruct ts.
Qed.

(** The parser that starts on the tokens of a file. *)
Lemma lexed_stream_ok (source : list Z) (file : Z) ts docs s' comments id :
  tokenize_with_comments source file = Lexer.Ret (ts, comments) s' -> stream_ok (new_parser ts docs id).
Proof.
  intros E. pose proof (tokenize_spec source file) as H. unfold wp, tokenize_with_comments in *. rewrite E in H.
  destruct H as [Ht Hb]. destruct (blocks_eof _ _ _ (Hb Fresh ltac:(done))) as (t & Hl & Hk).
  split; cbn [tpos toks new_parser]; [destruct ts; [done|cbn; lia]|by exists t|by eapply tiles_ok].
Qed.
End lexed.
