(* ===== verification/ParseType.v ===== *)
(** * Type annotations: [src/src/parser/types.rs]

    The recursive-descent parser of types with its two depth counters: [depth] counts nested
    [parse_type] calls, [fold_depth] the postfix chains of the deepest type built so far. *)

From stdpp Require Import strings.
From S2P Require Import Prelude Consteval Slice Token Decimal Syntax Cursor.
Local Open Scope nat_scope.
Local Open Scope chz_scope.
Local Open Scope parse_scope.

(** [segments.join(".")]. *)
Fixpoint join_dots (segments : list (list Z)) : list Z :=
  match segments with [] => [] | [s] => s | s :: rest => s ++ text "." ++ join_dots rest end.
(** [segments.pop()], with the default of [unwrap_or_default]. *)
Definition last_segment (segments : list (list Z)) : list Z := from_option id [] (list.last segments).

Definition TYPE_DEEP : list Z := text "type nested too deeply".
Definition VARIADIC_LAST : list Z := text "a variadic parameter must be the last parameter of a function type".

(** [while self.eat(&Token::Dot) { segments.push(self.expect_ident()?) }]. *)
Definition dotted (segments : list (list Z)) : PM (list (list Z)) :=
  forever (fun segments =>
    d ← eat KDot;
    if d then n ← expect_ident; mret (inl (segments ++ [n])) else mret (inr segments)) segments.

(** The token can start the error type of [T!E]. *)
Definition starts_error (t : Token) : bool :=
  match t with KIdent _ | KLParen | KFn | KNoneKw => true | _ => false end.

Definition option_of (ty : TExpr) : TExpr := TGeneric (private_name (text "Option")) [ty] NO_SPAN.
Definition result_of (tys : list TExpr) : TExpr := TGeneric (private_name (text "Result")) tys NO_SPAN.

(** The lists of parameters and labels after one more parameter. *)
Definition push_param (params : list TExpr) (labels : list (option (list Z))) (l : option (list Z))
    (t : option TExpr) (v : Variadic) : list TExpr * list (option (list Z)) * Variadic :=
  match t with Some t => (params ++ [t], labels ++ [l], v) | None => (params, labels, v) end.

Section body.
  Context (parse_type : PM TExpr).

Definition parse_labeled_type : PM (option (list Z) * TExpr) :=
  t ← peek; t1 ← peek_at 1;
  match t, t1 with
  | KIdent _, KColon => label ← expect_ident; expect KColon;; ty ← parse_type; mret (Some label, ty)
  | _, _ => ty ← parse_type; mret (None, ty)
  end.

Definition parse_fn_type_param : PM (option (list Z) * option TExpr * Variadic) :=
  d ← eat KDotDotDot;
  if d then
    c ← check KComma; r ← check KRParen;
    if c || r then mret (None, None, VC)
    else '(label, ty) ← parse_labeled_type; mret (label, Some ty, VPack)
  else '(label, ty) ← parse_labeled_type; mret (label, Some ty, VNo).

Definition fn_type_params : PM (list TExpr * list (option (list Z)) * Variadic) :=
  r ← check KRParen;
  if r then mret ([], [], VNo)
  else
    forever (fun '(params, labels, variadic) =>
      if negb (bool_decide (variadic = VNo)) then err VARIADIC_LAST
      else
        '(l, t, v) ← parse_fn_type_param;
        c ← eat KComma;
        mret ((if c then inl else inr) (push_param params labels l t v))) ([], [], VNo).

(** The type arguments after a [\[]. *)
Definition type_list : PM (list TExpr) :=
  first ← parse_type;
  args ← forever (fun args =>
    c ← eat KComma; if c then t ← parse_type; mret (inl (args ++ [t])) else mret (inr args)) [first];
  expect KRBracket;; mret args.

Definition parse_type_postfix (ty : TExpr) : PM TExpr :=
  '(ty, chain) ← forever (fun '(ty, chain) =>
    s ← get;
    if (MAX_AST_DEPTH <? depth s + fold_depth s + chain)%nat then err TYPE_DEEP
    else
      q ← eat KQuestion;
      if q then mret (inl (option_of ty, S chain))
      else
        b ← eat KBang;
        if b then
          t ← peek;
          if starts_error t then e ← parse_type; mret (inl (result_of [ty; e], S chain))
          else mret (inl (result_of [ty], S chain))
        else
          n ← check KNotEq; s ← get;
          if n && negb (bool_decide (bang_eq s = Some (tpos s))) then
            modify (set_bang (Some (tpos s)));; mret (inr (result_of [ty], S chain))
          else mret (inr (ty, chain))) (ty, 0);
  modify (fun s => set_fold (fold_depth s + chain) s);;
  mret ty.

Definition parse_type_body : PM TExpr :=
  f ← eat KFn;
  if f then
    expect KLParen;;
    '(params, labels, variadic) ← fn_type_params;
    expect KRParen;; expect KArrow;;
    ret ← parse_type;
    parse_type_postfix (TFunc params ret labels variadic)
  else
    p ← eat KLParen;
    if p then
      first ← parse_type;
      '(types, comma) ← comma_tail first [KRParen] parse_type;
      expect KRParen;;
      ty ← (if comma then mret (TTuple types) else or_panic (list.last types));
      parse_type_postfix ty
    else
      b ← check KBang;
      if b then sp ← cur_span; parse_type_postfix (TNil sp)
      else
        n ← check KNoneKw;
        if n then sp ← cur_span; advance;; parse_type_postfix (TNil sp)
        else
          name_span ← cur_span;
          name ← expect_ident;
          d ← eat KDot;
          if d then
            n1 ← expect_ident;
            segments ← dotted [name; n1];
            l ← eat KLBracket;
            args ← (if l then type_list else mret []);
            parse_type_postfix (TQualified (join_dots (removelast segments)) (last_segment segments) args)
          else
            l ← eat KLBracket;
            if l then args ← type_list; parse_type_postfix (TGeneric name args name_span)
            else parse_type_postfix (TNamed name name_span).
End body.

(** [usize] subtraction. *)
Definition depth_down : PM unit :=
  s ← get; d ← or_panic (match depth s with O => None | S d => Some d end); modify (set_depth d).

(** [parse_type] with at most [n] nested calls. *)
Fixpoint parse_type_at (n : nat) : PM TExpr :=
  match n with
  | O => fun _ => Spin
  | S n =>
      modify (fun s => set_depth (S (depth s)) s);;
      s ← get;
      if (MAX_DEPTH <? depth s)%nat then err TYPE_DEEP
      else
        modify (set_fold 0);;
        ty ← parse_type_body (parse_type_at n);
        modify (fun s' => set_fold (fold_depth s `max` fold_depth s') s');;
        depth_down;;
        mret ty
  end.
(** Each nested call raises [depth], so [MAX_DEPTH] bounds the nesting. *)
Definition parse_type : PM TExpr := parse_type_at (S MAX_DEPTH).
