(* ===== verification/TypeAccept.v ===== *)
(** * The type parser accepts its grammar

    The productions of [gtype] are ambiguous ([T!E?] has two readings); the parser takes the
    longest error type and the longest result type.  [dtype n] is that reading, as a family of
    productions indexed by the number of nested calls.  Every sentence of [gtype] has a reading
    ([reading]), and the parser finds it ([accepts]). *)

From stdpp Require Import strings.
From S2P Require Import Prelude Consteval Slice Token Decimal Syntax Cursor CursorWp ParseType TypeGrammar.
Local Open Scope nat_scope.
Local Open Scope chz_scope.
Local Open Scope parse_scope.

(** ** Readings *)

Section readings.
  Context (T : list Tok -> TExpr -> Prop).

Inductive types_of : list Tok -> list TExpr -> Prop :=
| to_one ts ty : T ts ty -> types_of ts [ty]
| to_cons ts ty c us tys : T ts ty -> kind c = KComma -> types_of us tys -> types_of (ts ++ c :: us) (ty :: tys).

Inductive param_of : list Tok -> label -> TExpr -> Prop :=
| po_plain ts ty : T ts ty -> param_of ts None ty
| po_label t n c ts ty : kind t = KIdent n -> kind c = KColon -> T ts ty -> param_of (t :: c :: ts) (Some n) ty.

(** One slot of a parameter list, as [parse_fn_type_param] returns it. *)
Inductive slot_of : list Tok -> label -> option TExpr -> Variadic -> Prop :=
| so_fixed ts l ty : param_of ts l ty -> slot_of ts l (Some ty) VNo
| so_pack d ts l ty : kind d = KDotDotDot -> param_of ts l ty -> slot_of (d :: ts) l (Some ty) VPack
| so_c d : kind d = KDotDotDot -> slot_of [d] None None VC.

(** The slots from here on, with the lists built so far. *)
Inductive slots_of : list Tok -> list TExpr * list label * Variadic -> list TExpr * list label * Variadic -> Prop :=
| sl_last ts tys ls l t v : slot_of ts l t v -> slots_of ts (tys, ls, VNo) (push_param tys ls l t v)
| sl_more ts tys ls l t c us r :
    slot_of ts l t VNo -> kind c = KComma -> slots_of us (push_param tys ls l t VNo) r ->
    slots_of (ts ++ c :: us) (tys, ls, VNo) r.

Inductive base_of : list Tok -> TExpr -> Prop :=
| bo_name t n : kind t = KIdent n -> base_of [t] (TNamed n (span t))
| bo_none t : kind t = KNoneKw -> base_of [t] (TNil (span t))
| bo_generic t n l ts args r :
    kind t = KIdent n -> kind l = KLBracket -> types_of ts args -> kind r = KRBracket ->
    base_of (t :: l :: ts ++ [r]) (TGeneric n args (span t))
| bo_qualified t n d ps ns :
    kind t = KIdent n -> kind d = KDot -> gpath ps ns ->
    base_of (t :: d :: ps) (TQualified (join_dots (removelast (n :: ns))) (last_segment (n :: ns)) [])
| bo_qualified_args t n d ps ns l ts args r :
    kind t = KIdent n -> kind d = KDot -> gpath ps ns -> kind l = KLBracket -> types_of ts args ->
    kind r = KRBracket ->
    base_of (t :: d :: ps ++ l :: ts ++ [r])
      (TQualified (join_dots (removelast (n :: ns))) (last_segment (n :: ns)) args)
| bo_group l ts ty r : kind l = KLParen -> T ts ty -> kind r = KRParen -> base_of (l :: ts ++ [r]) ty
| bo_tuple l ts ty c us tys r :
    kind l = KLParen -> T ts ty -> kind c = KComma -> types_of us tys -> kind r = KRParen ->
    base_of (l :: (ts ++ c :: us) ++ [r]) (TTuple (ty :: tys))
| bo_tuple_comma l ts tys c r :
    kind l = KLParen -> types_of ts tys -> kind c = KComma -> kind r = KRParen ->
    base_of (l :: (ts ++ [c]) ++ [r]) (TTuple tys).

Definition starts_type (ts : list Tok) : Prop := exists t rest, ts = t :: rest /\ starts_error (kind t) = true.

(** A postfix: an error type takes all that follows it. *)
Inductive post_of : list Tok -> TExpr -> TExpr -> Prop :=
| pf_nil ty : post_of [] ty ty
| pf_option q ts ty r : kind q = KQuestion -> post_of ts (option_of ty) r -> post_of (q :: ts) ty r
| pf_result b ts ty r : kind b = KBang -> post_of ts (result_of [ty]) r -> post_of (b :: ts) ty r
| pf_error b ts ty e : kind b = KBang -> starts_type ts -> T ts e -> post_of (b :: ts) ty (result_of [ty; e]).

Inductive body_of : list Tok -> TExpr -> Prop :=
| yo_fn0 f l r a ts ret :
    kind f = KFn -> kind l = KLParen -> kind r = KRParen -> kind a = KArrow -> T ts ret ->
    body_of (f :: l :: r :: a :: ts) (TFunc [] ret [] VNo)
| yo_fn f l ps params labels v r a ts ret :
    kind f = KFn -> kind l = KLParen -> slots_of ps ([], [], VNo) (params, labels, v) -> kind r = KRParen ->
    kind a = KArrow -> T ts ret ->
    body_of (f :: l :: ps ++ r :: a :: ts) (TFunc params ret labels v)
| yo_base bs ty ps r : base_of bs ty -> post_of ps ty r -> body_of (bs ++ ps) r
| yo_bang b ps r : kind b = KBang -> post_of (b :: ps) (TNil (span b)) r -> body_of (b :: ps) r.
End readings.

Fixpoint dtype (n : nat) : list Tok -> TExpr -> Prop :=
  match n with O => fun _ _ => False | S n => body_of (dtype n) end.

#[export] Hint Constructors types_of param_of slot_of slots_of base_of post_of body_of : grammar.

(** ** More levels *)

Section mono.
  Context (T U : list Tok -> TExpr -> Prop) (H : forall ts ty, T ts ty -> U ts ty).

Lemma types_of_mono ts tys : types_of T ts tys -> types_of U ts tys.
Proof. induction 1; eauto with grammar. Qed.
Lemma param_of_mono ts l ty : param_of T ts l ty -> param_of U ts l ty.
Proof. destruct 1; eauto with grammar. Qed.
Lemma slot_of_mono ts l t v : slot_of T ts l t v -> slot_of U ts l t v.
Proof. destruct 1; eauto using param_of_mono with grammar. Qed.
Lemma slots_of_mono ts a r : slots_of T ts a r -> slots_of U ts a r.
Proof. induction 1; eauto using slot_of_mono with grammar. Qed.
Lemma base_of_mono ts ty : base_of T ts ty -> base_of U ts ty.
Proof. destruct 1; eauto using types_of_mono with grammar. Qed.
Lemma post_of_mono ts ty r : post_of T ts ty r -> post_of U ts ty r.
Proof. induction 1; eauto with grammar. Qed.
Lemma body_of_mono ts ty : body_of T ts ty -> body_of U ts ty.
Proof. destruct 1; eauto using slots_of_mono, base_of_mono, post_of_mono with grammar. Qed.
End mono.

Lemma dtype_S n ts ty : dtype n ts ty -> dtype (S n) ts ty.
Proof. revert ts ty. induction n as [|n IH]; intros ts ty; [done|]. apply body_of_mono, IH. Qed.
Lemma dtype_le n m ts ty : dtype n ts ty -> n <= m -> dtype m ts ty.
Proof. intros H. induction 1; [done|]. by apply dtype_S. Qed.

(** ** Every sentence has a reading *)

(** The base of a postfix does not change its tokens. *)
Lemma post_of_any T ts ty r : post_of T ts ty r -> forall ty', exists r', post_of T ts ty' r'.
Proof.
  induction 1 as [|q ts ty r Hq _ IH|b ts ty r Hb _ IH|b ts ty e Hb Hs He]; intros ty'; eauto with grammar.
  - destruct (IH (option_of ty')). eauto with grammar.
  - destruct (IH (result_of [ty'])). eauto with grammar.
Qed.

Lemma starts_app ts us : starts_type ts -> starts_type (ts ++ us).
Proof. intros (t & r & -> & H). by exists t, (r ++ us). Qed.

(** A postfix on a sentence goes to its last type. *)
Lemma option_last n ts r q : dtype n ts r -> kind q = KQuestion \/ kind q = KBang -> exists r', dtype n (ts ++ [q]) r'.
Proof.
  intros H Hq. revert ts r H. induction n as [|n IH]; intros ts r; [done|].
  assert (forall ps ty r, post_of (dtype n) ps ty r -> exists r', post_of (dtype n) (ps ++ [q]) ty r') as Hpost.
  { induction 1 as [|q' ps ty r' Hq' _ [? IHp]|b ps ty r' Hb _ [? IHp]|b ps ty e Hb Hs He]; cbn; [destruct Hq| | |]; eauto with grammar.
    destruct (IH _ _ He). eauto using starts_app with grammar. }
  intros H. cbn in H |- *.
  destruct H as [f l r a ts ret Hf Hl Hr Ha Ht|f l ps params labels v r a ts ret Hf Hl Hp Hr Ha Ht|bs ty ps r Hb Hp|b ps r Hb Hp].
  - destruct (IH _ _ Ht). cbn. eauto with grammar.
  - destruct (IH _ _ Ht). cbn. rewrite <- (assoc_L (++)). cbn. eauto with grammar.
  - destruct (Hpost _ _ _ Hp). rewrite <- (assoc_L (++)). eauto with grammar.
  - destruct (Hpost _ _ _ Hp). cbn in *. eauto with grammar.
Qed.

(** What a sentence starts with: a type that an [!] takes, or another [!]. *)
Lemma dtype_starts n ts r : dtype n ts r ->
  starts_type ts \/ exists b ps m ty, n = S m /\ ts = b :: ps /\ kind b = KBang /\ post_of (dtype m) (b :: ps) ty r.
Proof.
  destruct n as [|n]; [done|]. cbn. intros H.
  assert (forall t rest, starts_error (kind t) = true -> starts_type (t :: rest)) as Hst by (intros t rest ?; by exists t, rest).
  destruct H as [f l r a ts ret Hf|f l ps params labels v r a ts ret Hf|bs ty ps r Hb Hp|b ps r Hb Hp].
  - left. apply Hst. by rewrite Hf.
  - left. apply Hst. by rewrite Hf.
  - left. destruct Hb as [? ? E|? E|? ? ? ? ? ? E|? ? ? ? ? E|? ? ? ? ? ? ? ? ? E|? ? ? ? E|? ? ? ? ? ? ? E|? ? ? ? ? E];
      cbn; apply Hst; by rewrite E.
  - right. by exists b, ps, n, (TNil (span b)).
Qed.

Lemma error_last n m ts r b us e :
  dtype n ts r -> kind b = KBang -> dtype m us e -> exists r', dtype (n + m) (ts ++ b :: us) r'.
Proof.
  intros H Hb Hu. revert ts r H. induction n as [|n IH]; intros ts r; [done|].
  assert (forall ps ty r, post_of (dtype n) ps ty r -> exists r', post_of (dtype (n + m)) (ps ++ b :: us) ty r') as Hpost.
  { induction 1 as [ty|q' ps ty r' Hq' _ [? IHp]|b' ps ty r' Hb' _ [? IHp]|b' ps ty e' Hb' Hs He]; cbn; eauto with grammar.
    - destruct (dtype_starts _ _ _ Hu) as [Hst|(b' & ps & m' & ty' & -> & -> & Hb' & Hp)].
      + exists (result_of [ty; e]). apply pf_error; [done|done|]. eapply dtype_le; [done|lia].
      + destruct (post_of_any _ _ _ _ Hp (result_of [ty])) as [r' Hr']. exists r'. apply pf_result; [done|].
        eapply post_of_mono; [|done]. intros; eapply dtype_le; [done|lia].
    - destruct (IH _ _ He). eauto using starts_app with grammar. }
  assert (forall ts r, dtype n ts r -> dtype (n + m) ts r) as Hle by (intros; eapply dtype_le; [done|lia]).
  intros H. cbn in H |- *.
  destruct H as [f l r a ts ret Hf Hl Hr Ha Ht|f l ps params labels v r a ts ret Hf Hl Hp Hr Ha Ht|bs ty ps r Hbs Hp|b' ps r Hb' Hp].
  - destruct (IH _ _ Ht). cbn. eauto with grammar.
  - destruct (IH _ _ Ht). cbn. rewrite <- (assoc_L (++)). cbn. eauto using slots_of_mono with grammar.
  - destruct (Hpost _ _ _ Hp). rewrite <- (assoc_L (++)). eauto using base_of_mono with grammar.
  - destruct (Hpost _ _ _ Hp). cbn in *. eauto with grammar.
Qed.

(** The tokens after which a type may nest. *)
Definition opens_type (t : Tok) : bool :=
  match kind t with KLParen | KLBracket | KFn | KBang => true | _ => false end.
Definition opens (ts : list Tok) : nat := length (List.filter opens_type ts).

Lemma opens_app ts us : opens (ts ++ us) = opens ts + opens us.
Proof. unfold opens. by rewrite List.filter_app, length_app. Qed.
Lemma opens_cons t ts : opens (t :: ts) = (if opens_type t then 1 else 0) + opens ts.
Proof. unfold opens. cbn. by destruct (opens_type t). Qed.
Lemma opens_nil : opens [] = 0.
Proof. done. Qed.

Scheme gtype_mut := Minimality for gtype Sort Prop
  with gtypes_mut := Minimality for gtypes Sort Prop
  with gparam_mut := Minimality for gparam Sort Prop
  with gparams_mut := Minimality for gparams Sort Prop
  with gvariadic_mut := Minimality for gvariadic Sort Prop
  with gplist_mut := Minimality for gplist Sort Prop.

Lemma types_up n m ts tys : types_of (dtype n) ts tys -> n <= m -> types_of (dtype m) ts tys.
Proof. intros H Hl. eapply types_of_mono; [|done]. intros; by eapply dtype_le. Qed.
Lemma param_up n m ts l ty : param_of (dtype n) ts l ty -> n <= m -> param_of (dtype m) ts l ty.
Proof. intros H Hl. eapply param_of_mono; [|done]. intros; by eapply dtype_le. Qed.

(** The fixed parameters, then what follows them. *)
Inductive params_of (T : list Tok -> TExpr -> Prop) : list Tok -> list TExpr -> list label -> Prop :=
| ro_one ts l ty : param_of T ts l ty -> params_of T ts [ty] [l]
| ro_cons ts l ty c us tys ls :
    param_of T ts l ty -> kind c = KComma -> params_of T us tys ls -> params_of T (ts ++ c :: us) (ty :: tys) (l :: ls).
Lemma params_up n m ts tys ls : params_of (dtype n) ts tys ls -> n <= m -> params_of (dtype m) ts tys ls.
Proof. intros H Hl. induction H; constructor; eauto using param_up. Qed.

Lemma params_slots T ts tys ls : params_of T ts tys ls -> forall tys0 ls0,
  slots_of T ts (tys0, ls0, VNo) (tys0 ++ tys, ls0 ++ ls, VNo).
Proof.
  induction 1 as [ts l ty Hp|ts l ty c us tys ls Hp Hc _ IH]; intros tys0 ls0.
  - apply (sl_last T ts tys0 ls0 l (Some ty) VNo). by constructor.
  - eapply (sl_more T ts tys0 ls0 l (Some ty)); [by constructor|done|]. cbn.
    specialize (IH (tys0 ++ [ty]) (ls0 ++ [l])). by rewrite <- !(assoc_L (++)) in IH.
Qed.
Lemma params_then T ts tys ls c us l t v : params_of T ts tys ls -> kind c = KComma -> slot_of T us l t v ->
  forall tys0 ls0, slots_of T (ts ++ c :: us) (tys0, ls0, VNo) (push_param (tys0 ++ tys) (ls0 ++ ls) l t v).
Proof.
  intros H Hc Hs. induction H as [ts l' ty Hp|ts l' ty c' us' tys ls Hp Hc' _ IH]; intros tys0 ls0.
  - eapply (sl_more T ts tys0 ls0 l' (Some ty)); [by constructor|done|]. cbn. by constructor.
  - rewrite <- (assoc_L (++)). eapply (sl_more T ts tys0 ls0 l' (Some ty)); [by constructor|done|]. cbn.
    specialize (IH (tys0 ++ [ty]) (ls0 ++ [l'])). by rewrite <- !(assoc_L (++)) in IH.
Qed.

Ltac count_opens :=
  repeat first [rewrite opens_app | rewrite opens_cons | rewrite opens_nil];
  unfold opens_type; repeat match goal with H : kind ?t = _ |- context [kind ?t] => rewrite H end; cbn; lia.

Lemma base_reading n m ts ty : base_of (dtype n) ts ty -> n <= m -> dtype (S m) ts ty.
Proof.
  intros H Hl. rewrite <- (app_nil_r ts). cbn. eapply yo_base; [|constructor].
  eapply base_of_mono; [|done]. intros; by eapply dtype_le.
Qed.
Lemma slots_up n m ts a r : slots_of (dtype n) ts a r -> n <= m -> slots_of (dtype m) ts a r.
Proof. intros H Hl. eapply slots_of_mono; [|done]. intros; by eapply dtype_le. Qed.
Lemma slot_up n m ts l t v : slot_of (dtype n) ts l t v -> n <= m -> slot_of (dtype m) ts l t v.
Proof. intros H Hl. eapply slot_of_mono; [|done]. intros; by eapply dtype_le. Qed.

(** The productions, one at a time. *)
Lemma group_reading l ts r' r : kind l = KLParen -> kind r' = KRParen -> dtype (S (opens ts)) ts r ->
  dtype (S (opens (l :: ts ++ [r']))) (l :: ts ++ [r']) r.
Proof. intros Hl Hr H. eapply base_reading; [by apply bo_group|count_opens]. Qed.
Lemma tuple_reading l ts r c us rs r' :
  kind l = KLParen -> kind c = KComma -> kind r' = KRParen -> dtype (S (opens ts)) ts r ->
  types_of (dtype (S (opens us))) us rs ->
  dtype (S (opens (l :: (ts ++ c :: us) ++ [r']))) (l :: (ts ++ c :: us) ++ [r']) (TTuple (r :: rs)).
Proof.
  intros Hl Hc Hr H Hu. eapply (base_reading (S (opens ts + opens us))); [|count_opens].
  apply bo_tuple; [done|eapply dtype_le; [done|lia]|done|eapply types_up; [done|lia]|done].
Qed.
Lemma fn_reading f l ps rs ls v r a ts ret :
  kind f = KFn -> kind l = KLParen -> kind r = KRParen -> kind a = KArrow ->
  ps = [] \/ slots_of (dtype (S (opens ps))) ps ([], [], VNo) (rs, ls, v) -> dtype (S (opens ts)) ts ret ->
  exists t, dtype (S (opens (f :: l :: ps ++ r :: a :: ts))) (f :: l :: ps ++ r :: a :: ts) t.
Proof.
  intros Hf Hl Hr Ha Hp Ht. destruct Hp as [->|Hp]; eexists; cbn [app].
  - apply yo_fn0; try done. eapply dtype_le; [done|count_opens].
  - apply yo_fn; try done; [eapply slots_up; [done|count_opens]|eapply dtype_le; [done|count_opens]].
Qed.
Lemma prefix_reading b us e : kind b = KBang -> dtype (S (opens us)) us e ->
  exists r, dtype (S (opens (b :: us))) (b :: us) r.
Proof.
  intros Hb Hu. destruct (dtype_starts _ _ _ Hu) as [Hst|(b' & ps & m & ty & E & -> & Hb' & Hp)].
  - eexists. apply yo_bang; [done|]. apply pf_error; [done|done|]. eapply dtype_le; [done|count_opens].
  - destruct (post_of_any _ _ _ _ Hp (result_of [TNil (span b)])) as [r Hr]. exists r.
    apply yo_bang; [done|]. apply pf_result; [done|]. eapply post_of_mono; [|done].
    intros; eapply dtype_le; [done|]. revert E. count_opens.
Qed.

Lemma reading ts ty : gtype ts ty -> exists r, dtype (S (opens ts)) ts r.
Proof.
  revert ts ty. apply (gtype_mut
    (fun ts _ => exists r, dtype (S (opens ts)) ts r)
    (fun ts tys => exists rs, types_of (dtype (S (opens ts))) ts rs)
    (fun ts l _ => exists r, param_of (dtype (S (opens ts))) ts l r)
    (fun ts _ ls => exists rs, params_of (dtype (S (opens ts))) ts rs ls)
    (fun ts _ _ v => exists l t, slot_of (dtype (S (opens ts))) ts l t v)
    (fun ts _ _ v => ts = [] \/ exists rs ls, slots_of (dtype (S (opens ts))) ts ([], [], VNo) (rs, ls, v))).
  - intros t n Ht. eexists. eapply (base_reading 0); [by apply bo_name|lia].
  - intros t Ht. eexists. eapply (base_reading 0); [by apply bo_none|lia].
  - intros t n l ts args r Ht Hl _ [rs IH] Hr. eexists. eapply base_reading; [by apply bo_generic|count_opens].
  - intros t n d ps ns Ht Hd Hp. eexists. eapply (base_reading 0); [by apply bo_qualified|lia].
  - intros t n d ps ns l ts args r Ht Hd Hp Hl _ [rs IH] Hr. eexists.
    eapply base_reading; [by apply bo_qualified_args|count_opens].
  - intros f l ps params labels v r a ts ret Hf Hl _ Hps Hr Ha _ [rt IH].
    destruct Hps as [->|(rs & ls & Hps)]; [eapply (fn_reading f l [] [] [] v); eauto|eapply fn_reading; eauto].
  - intros l ts ty r Hl _ [rt IH] Hr. eauto using group_reading.
  - intros l ts ty c us tys r Hl _ [rt IH] Hc _ [rs IHs] Hr. eauto using tuple_reading.
  - intros l ts tys c r Hl _ [rs IH] Hc Hr. eexists. change [c; r] with ([c] ++ [r]). rewrite (app_assoc ts [c] [r]).
    eapply base_reading; [by apply bo_tuple_comma|count_opens].
  - intros ts ty q _ [rt IH] Hq. destruct (option_last _ _ _ _ IH (or_introl Hq)) as [r' Hr']. exists r'.
    eapply dtype_le; [done|count_opens].
  - intros ts ty b _ [rt IH] Hb. destruct (option_last _ _ _ _ IH (or_intror Hb)) as [r' Hr']. exists r'.
    eapply dtype_le; [done|count_opens].
  - intros ts ty b us e _ [rt IH] Hb _ [re IHe]. destruct (error_last _ _ _ _ _ _ _ IH Hb IHe) as [r' Hr']. exists r'.
    eapply dtype_le; [done|count_opens].
  - intros b Hb. eexists. apply yo_bang; [done|]. apply pf_result; [done|constructor].
  - intros b us e Hb _ [re IHe]. eauto using prefix_reading.
  - intros ts ty _ [rt IH]. eauto with grammar.
  - intros ts ty c us tys _ [rt IH] Hc _ [rs IHs]. exists (rt :: rs). constructor; [|done|].
    + eapply dtype_le; [done|count_opens].
    + eapply types_up; [done|count_opens].
  - intros ts ty _ [rt IH]. eauto with grammar.
  - intros t n c ts ty Ht Hc _ [rt IH]. exists rt. constructor; [done|done|]. eapply dtype_le; [done|count_opens].
  - intros ts l ty _ [rt IH]. exists [rt]. by constructor.
  - intros ts l ty c us tys ls _ [rt IH] Hc _ [rs IHs]. exists (rt :: rs). constructor; [|done|].
    + eapply param_up; [done|count_opens].
    + eapply params_up; [done|count_opens].
  - intros d Hd. eauto with grammar.
  - intros d ts l ty Hd _ [rt IH]. exists l, (Some rt). constructor; [done|]. eapply param_up; [done|count_opens].
  - by left.
  - intros ts tys ls _ [rs IH]. right. exists rs, ls. apply (params_slots _ _ _ _ IH [] []).
  - intros ts tys ls v _ (l & t & IH). right.
    destruct (push_param [] [] l t v) as [[rs ks] v'] eqn:E. exists rs, ks.
    assert (v' = v) as -> by (destruct t; cbn in E; congruence). rewrite <- E. by constructor.
  - intros ts tys ls c us tys' ls' v _ [rs IH] Hc _ (l & t & IHv). right.
    destruct (push_param rs ls l t v) as [[rs' ks] v'] eqn:E. exists rs', ks.
    assert (v' = v) as -> by (destruct t; cbn in E; congruence). rewrite <- E.
    apply (params_then _ _ _ _ _ _ _ _ _ (params_up _ (S (opens (ts ++ c :: us))) _ _ _ IH ltac:(count_opens)) Hc).
    eapply slot_up; [done|count_opens].
Qed.

(** ** The parser finds the reading *)

(** A token that ends a type: none of those a type goes on with. *)
Definition stops (k : Token) : bool :=
  match k with
  | KQuestion | KBang | KNotEq | KDot | KLBracket | KIdent _ | KLParen | KFn | KNoneKw => false
  | _ => true
  end.

Definition never : ParseError -> Parser -> Prop := fun _ _ => False.
(** The tokens ahead of the cursor. *)
Definition ahead (s : Parser) (l : list Tok) : Prop := drop (tpos s) (toks s) = l.

Lemma ahead_cur s t l : ahead s (t :: l) -> cur s = Some t.
Proof. unfold ahead, cur. intros H. rewrite <- (Nat.add_0_r (tpos s)), <- lookup_drop, H. done. Qed.
Lemma ahead_reads s ts s' l : reads s ts s' -> ahead s (ts ++ l) -> ahead s' l.
Proof.
  intros R. unfold ahead. rewrite (rd_ts _ _ _ R), (reads_toks _ _ _ R). apply app_inv_head.
Qed.

(** No token of a type is a [Dedent]. *)
Definition in_line : list Tok -> Prop := Forall (fun t => kind t <> KDedent).
Lemma in_line_one t k : kind t = k -> k <> KDedent -> in_line [t].
Proof. intros <- H. by repeat constructor. Qed.
Lemma path_in_line ps ns : gpath ps ns -> in_line ps.
Proof. induction 1; repeat constructor; congruence || done. Qed.

Section in_line.
  Context (T : list Tok -> TExpr -> Prop) (HT : forall ts ty, T ts ty -> ts <> [] /\ in_line ts).

Lemma types_in_line ts tys : types_of T ts tys -> in_line ts.
Proof. induction 1; [by eapply HT|]. apply Forall_app. split; [by eapply HT|]. constructor; [congruence|done]. Qed.
Lemma param_in_line ts l ty : param_of T ts l ty -> in_line ts.
Proof. destruct 1; [by eapply HT|]. constructor; [congruence|]. constructor; [congruence|]. by eapply HT. Qed.
Lemma slot_in_line ts l t v : slot_of T ts l t v -> in_line ts.
Proof. destruct 1; [by eapply param_in_line| |by eapply in_line_one]. constructor; [congruence|]. by eapply param_in_line. Qed.
Lemma slots_in_line ts a r : slots_of T ts a r -> in_line ts.
Proof.
  induction 1; [by eapply slot_in_line|]. apply Forall_app. split; [by eapply slot_in_line|].
  constructor; [congruence|done].
Qed.
Lemma body_in_line ts ty : body_of T ts ty -> ts <> [] /\ in_line ts.
Proof.
  assert (forall ps ty r, post_of T ps ty r -> in_line ps) as Hp.
  { induction 1 as [| | |b ts' ? ? ? ? He]; [constructor|constructor; [congruence|done]..|].
    constructor; [congruence|]. by eapply HT. }
  destruct 1 as [f l r a ts ret ? ? ? ? Ht|f l ps params labels v r a ts ret ? ? Hs ? ? Ht|bs ty ps r Hb Hps|b ps r Hb Hps].
  - split; [done|]. do 4 (constructor; [congruence|]). by eapply HT.
  - split; [done|]. do 2 (constructor; [congruence|]). apply Forall_app. split; [by eapply slots_in_line|].
    do 2 (constructor; [congruence|]). by eapply HT.
  - assert (bs <> [] /\ in_line bs) as [Hne Hbs]; [|split; [by destruct bs|]; apply Forall_app; split; [done|by eapply Hp]].
    destruct Hb; (split; [done|]); repeat first [apply Forall_app; split | constructor]; try congruence;
      try (by eapply types_in_line); try (by eapply path_in_line); by eapply HT.
  - split; [done|]. by eapply (Hp (b :: ps)).
Qed.
End in_line.

Lemma dtype_in_line n ts ty : dtype n ts ty -> ts <> [] /\ in_line ts.
Proof. revert ts ty. induction n as [|n IH]; intros ts ty; [done|]. by apply body_in_line. Qed.

(** A call has read [ts], and its fold depth is at most the tokens it has read. *)
Record landed (s : Parser) (ts : list Tok) (s' : Parser) : Prop := {
  ld_reads : reads s ts s';
  ld_depth : depth s' = depth s;
  ld_fold : fold_depth s' <= fold_depth s `max` length ts;
}.

Section runs.
  Context (rec : PM TExpr) (n d : nat) (s0 : Parser).
  Context (Hrec : forall ts ty, dtype n ts ty -> forall s t l,
             stream_ok s -> depth s = d -> ahead s (ts ++ t :: l) -> stops (kind t) = true ->
             d + n + length ts <= MAX_AST_DEPTH -> pwp rec (fun r s' => r = ty /\ landed s ts s') never s).

(** Inside the method that started at [s0]. *)
Record inside (us : list Tok) (s : Parser) : Prop := {
  is_reads : reads s0 us s;
  is_depth : depth s = d;
  is_fold : fold_depth s <= length us;
}.

Lemma inside_step us s t : inside us s -> reads s [t] (step s) -> inside (us ++ [t]) (step s).
Proof. intros [R D F] R1. split; [by eapply reads_trans|done|]. rewrite length_app. cbn. lia. Qed.
Lemma inside_reads us s us' s' :
  inside us s -> reads s us' s' -> depth s' = d -> fold_depth s' <= fold_depth s `max` length us' -> inside (us ++ us') s'.
Proof. intros [R D F] R' D' F'. split; [by eapply reads_trans|done|]. rewrite length_app. lia. Qed.

Lemma n_eat us s t l k (Q : bool -> Parser -> Prop) :
  inside us s -> ahead s (t :: l) -> kind t = k -> k <> KEof ->
  (inside (us ++ [t]) (step s) -> ahead (step s) l -> Q true (step s)) -> pwp (eat k) Q never s.
Proof.
  intros I A Hk Hne H. pose proof (ahead_cur _ _ _ A) as Hc. apply pwp_eat; [apply (is_reads _ _ I)|done| |].
  - intros t' Hc' _ R. assert (t' = t) as -> by congruence. apply H; [by apply inside_step|by eapply (ahead_reads s [t])].
  - intros t' Hc' E. assert (t' = t) as -> by congruence. unfold is_tok in E. by rewrite Hk, Z.eqb_refl in E.
Qed.
Lemma n_skip us s t l k (Q : bool -> Parser -> Prop) :
  inside us s -> ahead s (t :: l) -> is_tok (kind t) k = false -> k <> KEof -> Q false s -> pwp (eat k) Q never s.
Proof.
  intros I A Hk Hne H. pose proof (ahead_cur _ _ _ A) as Hc. apply pwp_eat; [apply (is_reads _ _ I)|done| |done].
  intros t' Hc' E. assert (t' = t) as -> by congruence. congruence.
Qed.
Lemma n_check us s t l k (Q : bool -> Parser -> Prop) :
  inside us s -> ahead s (t :: l) -> Q (is_tok (kind t) k) s -> pwp (check k) Q never s.
Proof.
  intros I A H. pose proof (ahead_cur _ _ _ A) as Hc. apply pwp_check; [apply (is_reads _ _ I)|].
  intros t' Hc'. by assert (t' = t) as -> by congruence.
Qed.
Lemma n_peek us s t l (Q : Token -> Parser -> Prop) :
  inside us s -> ahead s (t :: l) -> Q (kind t) s -> pwp peek Q never s.
Proof.
  intros I A H. pose proof (ahead_cur _ _ _ A) as Hc. apply pwp_peek; [apply (is_reads _ _ I)|].
  intros t' Hc'. by assert (t' = t) as -> by congruence.
Qed.
Lemma n_cur_span us s t l (Q : Span -> Parser -> Prop) :
  inside us s -> ahead s (t :: l) -> Q (span t) s -> pwp cur_span Q never s.
Proof.
  intros I A H. pose proof (ahead_cur _ _ _ A) as Hc. apply pwp_cur_span; [apply (is_reads _ _ I)|].
  intros t' Hc'. by assert (t' = t) as -> by congruence.
Qed.
Lemma n_expect us s t l k (Q : Tok -> Parser -> Prop) :
  inside us s -> ahead s (t :: l) -> kind t = k -> k <> KEof ->
  (inside (us ++ [t]) (step s) -> ahead (step s) l -> Q t (step s)) -> pwp (expect k) Q never s.
Proof.
  intros I A Hk Hne H. eapply pwp_expect_hit; [apply (is_reads _ _ I)|by eapply ahead_cur|done|done|].
  intros R. apply H; [by apply inside_step|by eapply (ahead_reads s [t])].
Qed.
Lemma n_expect_ident us s t l m (Q : list Z -> Parser -> Prop) :
  inside us s -> ahead s (t :: l) -> kind t = KIdent m ->
  (inside (us ++ [t]) (step s) -> ahead (step s) l -> Q m (step s)) -> pwp expect_ident Q never s.
Proof.
  intros I A Hk H. eapply pwp_expect_ident_hit; [apply (is_reads _ _ I)|by eapply ahead_cur|done|].
  intros R. apply H; [by apply inside_step|by eapply (ahead_reads s [t])].
Qed.
Lemma n_rec us s ts ty t l (Q : TExpr -> Parser -> Prop) :
  inside us s -> ahead s (ts ++ t :: l) -> stops (kind t) = true -> dtype n ts ty ->
  d + n + length ts <= MAX_AST_DEPTH ->
  (forall s', inside (us ++ ts) s' -> ahead s' (t :: l) -> tpos s < tpos s' -> toks s' = toks s ->
     fold_depth s' <= fold_depth s `max` length ts -> Q ty s') ->
  pwp rec Q never s.
Proof.
  intros I A Hs Ht Hl H. eapply pwp_mono; [by eapply Hrec; [|apply (is_reads _ _ I)|apply I|..]| |done].
  intros r s' [-> [R D F]]. destruct (dtype_in_line _ _ _ Ht) as [Hne _].
  apply H.
  - by eapply inside_reads; [done|done|rewrite D; apply I|].
  - by eapply ahead_reads.
  - rewrite (rd_pos _ _ _ R). destruct ts; [done|]. cbn. lia.
  - by eapply reads_toks.
  - done.
Qed.

Lemma stops_not t k : stops (kind t) = true -> stops k = false -> payload k = false -> is_tok (kind t) k = false.
Proof.
  intros Ht Hk Hp. destruct (is_tok (kind t) k) eqn:E; [|done]. apply is_tok_eq in E; [|done]. congruence.
Qed.
Lemma stops_error k : stops k = true -> starts_error k = false.
Proof. by destruct k. Qed.

(** *** Postfixes *)
Lemma run_post us ty s ps r t l (Q : TExpr -> Parser -> Prop) :
  inside us s -> ahead s (ps ++ t :: l) -> stops (kind t) = true -> post_of (dtype n) ps ty r ->
  d + n + length (us ++ ps) <= MAX_AST_DEPTH ->
  (forall s', inside (us ++ ps) s' -> ahead s' (t :: l) -> Q r s') ->
  pwp (parse_type_postfix rec ty) Q never s.
Proof.
  intros I A Hs Hp Hl H. apply pwp_bind.
  apply (pwp_forever _ (fun '(ty, c) s1 => exists us1 ps1, inside us1 s1 /\ fold_depth s1 + c <= length us1 /\
     ahead s1 (ps1 ++ t :: l) /\ post_of (dtype n) ps1 ty r /\ us1 ++ ps1 = us ++ ps)).
  { exists us, ps. destruct I. split_and!; try done. lia. }
  revert H Hl. generalize (us ++ ps) as all. clear us ty s ps I A Hp. intros all H Hl.
  intros [ty c] s1 (us & ps & I & Hf & A & Hp & <-). split; [apply so_pos, (rd_ok _ _ _ (is_reads _ _ I))|].
  apply pwp_bind, pwp_get. rewrite length_app in Hl.
  rewrite (is_depth _ _ I), (proj2 (Nat.ltb_ge _ _)) by lia. apply pwp_bind.
  destruct Hp as [ty|q ts ty r Hq Hp|b ts ty r Hb Hp|b ts ty e Hb Hst He].
  - eapply n_skip; [done|done|by apply stops_not|done|]. apply pwp_bind. eapply n_skip; [done|done|by apply stops_not|done|].
    apply pwp_bind. eapply n_check; [done|done|]. rewrite (stops_not _ KNotEq) by done.
    apply pwp_bind, pwp_get, pwp_ret, pwp_bind, pwp_modify, pwp_ret. apply H; [|done].
    rewrite app_nil_r. destruct I as [R D F]. split; [|done|cbn; lia].
    rewrite <- (app_nil_r us). eapply reads_trans; [done|]. apply reads_nil; [by split|by destruct (rd_ok _ _ _ R); split|done].
  - eapply n_eat; [done|done|done|done|]. intros I1 A1. apply pwp_ret. split; [|cbn; split; [lia|done]].
    exists (us ++ [q]), ts. split_and!; try done; [rewrite length_app; cbn; lia|by rewrite <- (assoc_L (++))].
  - eapply n_skip; [done|done|by rewrite Hb|done|]. apply pwp_bind. eapply n_eat; [done|done|done|done|]. intros I1 A1.
    apply pwp_bind.
    assert (exists t1 l1, ts ++ t :: l = t1 :: l1 /\ starts_error (kind t1) = false) as (t1 & l1 & E & Hst).
    { destruct Hp as [|q ? ? ? Hq _|? ? ? ? Hq _|? ? ? ? Hq _]; eexists _, _; (split; [done|]); [by apply stops_error|by rewrite Hq..]. }
    eapply n_peek; [done|rewrite <- E; done|]. rewrite Hst. apply pwp_ret. split; [|cbn; split; [lia|done]].
    exists (us ++ [b]), ts. split_and!; try done; [rewrite length_app; cbn; lia|by rewrite <- (assoc_L (++))].
  - eapply n_skip; [done|done|by rewrite Hb|done|]. apply pwp_bind. eapply n_eat; [done|done|done|done|]. intros I1 A1.
    apply pwp_bind. destruct Hst as (t1 & ts1 & -> & Hst).
    eapply n_peek; [exact I1|exact A1|]. rewrite Hst. apply pwp_bind. cbn in Hl.
    change (ahead (step s1) ((t1 :: ts1) ++ t :: l)) in A1.
    eapply n_rec; [exact I1|exact A1|done|done|cbn; lia|]. intros s2 I2 A2 Hlt Htk Hf2. cbn in Hlt, Htk, Hf2. apply pwp_ret.
    split; [|split; [lia|done]]. exists ((us ++ [b]) ++ t1 :: ts1), []. split_and!; try done; [|constructor|].
    + rewrite !length_app. cbn. lia.
    + by rewrite app_nil_r, <- (assoc_L (++)).
Qed.

(** *** Lists *)
Definition rest_of (ts : list Tok) (tys : list TExpr) : Prop :=
  (ts = [] /\ tys = []) \/ exists c us, ts = c :: us /\ kind c = KComma /\ types_of (dtype n) us tys.
Lemma types_split ts tys : types_of (dtype n) ts tys ->
  exists t1 ty ts2 tys2, ts = t1 ++ ts2 /\ tys = ty :: tys2 /\ dtype n t1 ty /\ rest_of ts2 tys2.
Proof.
  destruct 1 as [ts ty H|ts ty c us tys H Hc Hu].
  - exists ts, ty, [], []. rewrite app_nil_r. split_and!; try done. by left.
  - exists ts, ty, (c :: us), tys. split_and!; try done. right. by exists c, us.
Qed.
(** An element of a list is followed by a comma or by what closes the list. *)
Lemma rest_stops ts tys t l : rest_of ts tys -> stops (kind t) = true ->
  exists t1 l1, ts ++ t :: l = t1 :: l1 /\ stops (kind t1) = true.
Proof. intros [[-> ->]|(c & us & -> & Hc & _)] Ht; [by exists t, l|]. exists c, (us ++ t :: l). by rewrite Hc. Qed.
Lemma pos_inside us s : inside us s -> tpos s < length (toks s).
Proof. intros I. apply so_pos, (rd_ok _ _ _ (is_reads _ _ I)). Qed.

Lemma run_list us s ts tys r l (Q : list TExpr -> Parser -> Prop) :
  inside us s -> ahead s (ts ++ r :: l) -> kind r = KRBracket -> types_of (dtype n) ts tys ->
  d + n + length ts <= MAX_AST_DEPTH ->
  (forall s', inside (us ++ ts ++ [r]) s' -> ahead s' l -> Q tys s') ->
  pwp (type_list rec) Q never s.
Proof.
  intros I A Hr Ht Hl H. assert (stops (kind r) = true) as Hst by by rewrite Hr.
  destruct (types_split _ _ Ht) as (t1 & ty & ts2 & tys2 & -> & -> & Hty & Hrest). rewrite length_app in Hl.
  destruct (rest_stops _ _ r l Hrest Hst) as (x & l1 & E & Hx).
  rewrite <- (assoc_L (++)), E in A. apply pwp_bind. eapply n_rec; [exact I|exact A|done|done|lia|].
  intros s1 I1 A1 _ _ _. rewrite <- E in A1. apply pwp_bind.
  apply (pwp_forever _ (fun args s' => exists us1 ts1 tys1, inside us1 s' /\ ahead s' (ts1 ++ r :: l) /\ rest_of ts1 tys1 /\
    args ++ tys1 = ty :: tys2 /\ us1 ++ ts1 = us ++ t1 ++ ts2 /\ length ts1 <= length ts2)).
  { exists (us ++ t1), ts2, tys2. split_and!; try done. by rewrite <- (assoc_L (++)). }
  clear s1 I1 A1 Hrest E Hx A. intros args s1 (us1 & ts1 & tys1 & I1 & A1 & Hrest & Ea & Eu & Hlen). split; [by eapply pos_inside|].
  apply pwp_bind. destruct Hrest as [[-> ->]|(c & us2 & -> & Hc & Hts)].
  - eapply n_skip; [done|exact A1|by rewrite Hr|done|]. apply pwp_ret, pwp_bind.
    eapply n_expect; [exact I1|exact A1|done|done|]. intros I2 A2. apply pwp_ret. rewrite app_nil_r in *.
    rewrite Ea. apply H; [|done]. rewrite Eu in I2. by rewrite (app_assoc us).
  - change (ahead s1 (c :: (us2 ++ r :: l))) in A1. eapply n_eat; [done|exact A1|done|done|]. intros I2 A2. apply pwp_bind.
    destruct (types_split _ _ Hts) as (t3 & ty3 & ts4 & tys4 & -> & -> & Hty3 & Hrest4).
    destruct (rest_stops _ _ r l Hrest4 Hst) as (x' & l1' & E & Hx).
    rewrite <- (assoc_L (++)), E in A2. cbn in Hlen. rewrite length_app in Hlen.
    eapply n_rec; [exact I2|exact A2|done|done|lia|]. intros s2 I3 A3 Hlt Htk _. rewrite <- E in A3. cbn in Hlt, Htk.
    apply pwp_ret. split; [|split; [lia|done]]. exists ((us1 ++ [c]) ++ t3), ts4, tys4. split_and!; try done.
    + by rewrite <- (assoc_L (++)).
    + rewrite <- Eu. by rewrite <- !(assoc_L (++)).
    + lia.
Qed.

Lemma n_same_line us s t l k (Q : bool -> Parser -> Prop) :
  inside us s -> us <> [] -> in_line us -> ahead s (t :: l) -> kind t = k -> k <> KEof ->
  (inside (us ++ [t]) (step s) -> ahead (step s) l -> Q true (step s)) -> pwp (eat_in_line k) Q never s.
Proof.
  intros I Hne Hin A Hk Hk' H. apply pwp_bind, pwp_bind, pwp_get.
  destruct (exists_last Hne) as (us' & x & ->). pose proof (is_reads _ _ I) as R.
  assert (tpos s = S (tpos s0 + length us')) as Hp by (rewrite (rd_pos _ _ _ R), length_app; cbn; lia).
  rewrite (proj2 (Nat.ltb_lt _ _)) by lia. apply pwp_bind. eapply pwp_or_panic.
  { rewrite Hp, (reads_toks _ _ _ R). cbn. rewrite Nat.sub_0_r, <- lookup_drop, (rd_ts _ _ _ R).
    rewrite <- (assoc_L (++)). apply list_lookup_middle. done. }
  apply pwp_ret. apply Forall_app in Hin as [_ Hx]. apply Forall_inv in Hx.
  destruct (is_tok (kind x) KDedent) eqn:E; [tok_kind E; congruence|]. by eapply n_eat.
Qed.
Lemma n_line_stop us s t l k (Q : bool -> Parser -> Prop) :
  inside us s -> ahead s (t :: l) -> is_tok (kind t) k = false -> k <> KEof -> Q false s -> pwp (eat_in_line k) Q never s.
Proof.
  intros I A Hk Hne H. apply pwp_bind, pwp_ended_at_block; [apply (is_reads _ _ I)|]. intros [|]; [by apply pwp_ret|].
  by eapply n_skip.
Qed.

(** A sentence does not start with a closing parenthesis. *)
Lemma dtype_first m ts ty : dtype m ts ty -> exists t l, ts = t :: l /\ is_tok (kind t) KRParen = false.
Proof.
  intros H. destruct (dtype_starts _ _ _ H) as [(t & l & -> & Hk)|(b & ps & ? & ? & _ & -> & Hb & _)].
  - exists t, l. split; [done|]. destruct (is_tok _ _) eqn:E; [|done]. tok_kind E. by rewrite E in Hk.
  - exists b, ps. by rewrite Hb.
Qed.

(** The end of a tuple: the elements left, and a comma that may end them. *)
Definition target (ts tr : list Tok) (comma : bool) : bool :=
  match ts, tr with [], [] => comma | _, _ => true end.

Lemma run_tail us s first ts tys tr r l (Q : list TExpr * bool -> Parser -> Prop) :
  inside us s -> us <> [] -> in_line us -> ahead s (ts ++ tr ++ r :: l) -> kind r = KRParen -> rest_of ts tys ->
  tr = [] \/ (exists c, tr = [c] /\ kind c = KComma) -> d + n + length ts <= MAX_AST_DEPTH ->
  (forall s', inside (us ++ ts ++ tr) s' -> ahead s' (r :: l) -> Q (first :: tys, target ts tr false) s') ->
  pwp (comma_tail first [KRParen] rec) Q never s.
Proof.
  intros I Hne Hin A Hr Hrest Htr Hl H.
  apply (pwp_forever _ (fun '(elems, comma) s' => exists us1 ts1 tys1, inside us1 s' /\ us1 <> [] /\ in_line us1 /\
    ahead s' (ts1 ++ tr ++ r :: l) /\ rest_of ts1 tys1 /\ elems ++ tys1 = first :: tys /\ us1 ++ ts1 = us ++ ts /\
    length ts1 <= length ts /\ target ts1 tr comma = target ts tr false)).
  { exists us, ts, tys. split_and!; done. }
  clear I Hne Hin A Hrest. intros [elems comma] s1 (us1 & ts1 & tys1 & I & Hne & Hin & A & Hrest & Ee & Eu & Hlen & Ec).
  split; [by eapply pos_inside|]. apply pwp_bind. destruct Hrest as [[-> ->]|(c & us2 & -> & Hc & Hts)].
  - rewrite app_nil_r in Ee, Eu. subst us1. destruct Htr as [->|(c & -> & Hc)].
    + eapply n_line_stop; [done|exact A|by rewrite Hr|done|]. apply pwp_ret. rewrite Ee. cbn in Ec. rewrite Ec.
      apply H; [by rewrite app_nil_r|done].
    + eapply n_same_line; [done|done|done|exact A|done|done|]. intros I2 A2. apply pwp_bind, pwp_bind.
      eapply n_check; [done|exact A2|]. rewrite Hr. cbn. apply pwp_ret, pwp_ret.
      assert (target ts [c] false = true) as Et by by destruct ts. rewrite Et in H. rewrite Ee.
      apply H; [by rewrite (app_assoc us)|done].
  - change (ahead s1 (c :: (us2 ++ tr ++ r :: l))) in A. eapply n_same_line; [done|done|done|exact A|done|done|].
    intros I2 A2. destruct (types_split _ _ Hts) as (t3 & ty3 & ts4 & tys4 & -> & -> & Hty3 & Hrest4).
    assert (exists x l1, ts4 ++ tr ++ r :: l = x :: l1 /\ stops (kind x) = true) as (x & l1 & E & Hx).
    { destruct Htr as [->|(c' & -> & Hc')].
      - apply (rest_stops _ tys4); [done|by rewrite Hr].
      - apply (rest_stops _ tys4); [done|by rewrite Hc']. }
    rewrite <- (assoc_L (++)), E in A2. cbn in Hlen. rewrite length_app in Hlen.
    destruct (dtype_first _ _ _ Hty3) as (t0 & l0 & E0 & Hk0). apply pwp_bind, pwp_bind.
    eapply n_check; [done|by rewrite E0 in A2|]. rewrite Hk0. apply pwp_ret, pwp_bind.
    eapply n_rec; [exact I2|exact A2|done|done|lia|]. intros s2 I3 A3 Hlt Htk _. rewrite <- E in A3. cbn in Hlt, Htk.
    apply pwp_ret. split; [|split; [lia|done]]. exists ((us1 ++ [c]) ++ t3), ts4, tys4. split_and!; try done.
    + by destruct us1.
    + apply Forall_app. split; [|by eapply dtype_in_line]. apply Forall_app. split; [done|]. by eapply in_line_one.
    + by rewrite <- (assoc_L (++)).
    + rewrite <- Eu. by rewrite <- !(assoc_L (++)).
    + lia.
    + rewrite <- Ec. by destruct ts4, tr.
Qed.

Definition path_rest (ps : list Tok) (ns : list (list Z)) : Prop :=
  (ps = [] /\ ns = []) \/ exists y ps', ps = y :: ps' /\ kind y = KDot /\ gpath ps' ns.
Lemma path_split ps ns : gpath ps ns ->
  exists x m ps' ns', ps = x :: ps' /\ ns = m :: ns' /\ kind x = KIdent m /\ path_rest ps' ns'.
Proof.
  destruct 1 as [x m Hx|x m y ps' ns' Hx Hy Hp]; eexists _, _, _, _; (split_and!; [done|done|done|]); [by left|].
  right. by exists y, ps'.
Qed.

Lemma run_dotted us s segs ps ns t l (Q : list (list Z) -> Parser -> Prop) :
  inside us s -> ahead s (ps ++ t :: l) -> is_tok (kind t) KDot = false -> path_rest ps ns ->
  (forall s', inside (us ++ ps) s' -> ahead s' (t :: l) -> Q (segs ++ ns) s') ->
  pwp (dotted segs) Q never s.
Proof.
  intros I A Ht Hp H.
  apply (pwp_forever _ (fun segs1 s' => exists us1 ps1 ns1, inside us1 s' /\ ahead s' (ps1 ++ t :: l) /\
    path_rest ps1 ns1 /\ segs1 ++ ns1 = segs ++ ns /\ us1 ++ ps1 = us ++ ps)).
  { by exists us, ps, ns. }
  clear I A Hp. intros segs1 s1 (us1 & ps1 & ns1 & I & A & Hp & Es & Eu). split; [by eapply pos_inside|].
  apply pwp_bind. destruct Hp as [[-> ->]|(y & ps2 & -> & Hy & Hp)].
  - eapply n_skip; [done|exact A|done|done|]. apply pwp_ret. rewrite app_nil_r in Es, Eu. subst. by apply H.
  - change (ahead s1 (y :: (ps2 ++ t :: l))) in A. eapply n_eat; [done|exact A|done|done|]. intros I2 A2. apply pwp_bind.
    destruct (path_split _ _ Hp) as (x & m & ps3 & ns3 & -> & -> & Hx & Hrest).
    change (ahead (step s1) (x :: (ps3 ++ t :: l))) in A2.
    eapply n_expect_ident; [exact I2|exact A2|done|]. intros I3 A3. apply pwp_ret. split; [|cbn; split; [lia|done]].
    exists ((us1 ++ [y]) ++ [x]), ps3, ns3. split_and!; try done.
    + by rewrite <- (assoc_L (++)).
    + rewrite <- Eu. by rewrite <- !(assoc_L (++)).
Qed.

(** *** Parameters *)
(** A type that starts with a name has no colon after it. *)
Lemma dtype_second m ts ty x y l k : dtype m ts ty -> ts = x :: y :: l -> kind x = KIdent k -> kind y <> KColon.
Proof.
  destruct m as [|m]; [done|]. cbn. intros H E Hx.
  destruct H as [f a b c ts ret Hf|f a ps params labels v r c ts ret Hf|bs ty ps r Hb Hp|b ps r Hb Hp]; try (simplify_eq; congruence).
  destruct Hb; cbn in E; simplify_eq; try congruence.
  inversion Hp; congruence.
Qed.

Lemma run_labeled us s ts lb ty t l (Q : label * TExpr -> Parser -> Prop) :
  inside us s -> ahead s (ts ++ t :: l) -> stops (kind t) = true -> kind t <> KColon -> param_of (dtype n) ts lb ty ->
  d + n + length ts <= MAX_AST_DEPTH ->
  (forall s', inside (us ++ ts) s' -> ahead s' (t :: l) -> tpos s < tpos s' -> toks s' = toks s -> Q (lb, ty) s') ->
  pwp (parse_labeled_type rec) Q never s.
Proof.
  intros I A Hs Hcol Hp Hl H. destruct Hp as [ts ty Ht|x m c ts ty Hx Hc Ht].
  - assert (pwp (ty ← rec; mret (None, ty)) Q never s) as Hrun.
    { apply pwp_bind. eapply n_rec; [exact I|exact A|done|done|done|]. intros s' I' A' Hlt Htk _. by apply pwp_ret, H. }
    apply pwp_bind, pwp_peek; [apply (is_reads _ _ I)|]. intros x Hx. apply pwp_bind, pwp_peek_at.
    destruct (kind x) eqn:Ek; try exact Hrun.
    destruct (from_option kind KEof (toks s !! (tpos s + 1))) eqn:E2; try exact Hrun. exfalso.
    rewrite <- lookup_drop, A in E2. destruct (dtype_in_line _ _ _ Ht) as [Hne _].
    destruct ts as [|x' [|y ts]]; [done|cbn in E2; congruence|]. cbn in E2.
    pose proof (ahead_cur _ _ _ A) as Hc'. assert (x' = x) as -> by congruence.
    by eapply dtype_second.
  - change (ahead s (x :: c :: (ts ++ t :: l))) in A. apply pwp_bind. eapply n_peek; [exact I|exact A|]. rewrite Hx.
    apply pwp_bind, pwp_peek_at. rewrite <- lookup_drop, A. cbn. rewrite Hc. apply pwp_bind.
    eapply n_expect_ident; [exact I|exact A|done|]. intros I1 A1. apply pwp_bind.
    eapply n_expect; [exact I1|exact A1|done|done|]. intros I2 A2. apply pwp_bind. cbn in Hl.
    eapply n_rec; [exact I2|exact A2|done|done|lia|]. intros s' I' A' Hlt Htk _. cbn in Hlt, Htk. apply pwp_ret, H; try done.
    + by rewrite <- !(assoc_L (++)) in I'.
    + lia.
Qed.

Lemma run_slot us s ts lb ty v t l (Q : label * option TExpr * Variadic -> Parser -> Prop) :
  inside us s -> ahead s (ts ++ t :: l) -> kind t = KComma \/ kind t = KRParen -> slot_of (dtype n) ts lb ty v ->
  d + n + length ts <= MAX_AST_DEPTH ->
  (forall s', inside (us ++ ts) s' -> ahead s' (t :: l) -> tpos s < tpos s' -> toks s' = toks s -> Q (lb, ty, v) s') ->
  pwp (parse_fn_type_param rec) Q never s.
Proof.
  intros I A Ht Hs Hl H. assert (stops (kind t) = true) as Hst by (destruct Ht as [-> | ->]; done).
  assert (kind t <> KColon) as Hcol by (destruct Ht as [-> | ->]; done).
  apply pwp_bind. destruct Hs as [ts lb ty Hp|x ts lb ty Hx Hp|x Hx].
  - assert (exists y l', ts ++ t :: l = y :: l' /\ is_tok (kind y) KDotDotDot = false) as (y & l' & E & Hy).
    { destruct Hp as [ts ty Hd|y m c ts ty Hy _ _]; [|eexists y, _; split; [done|by rewrite Hy]].
      destruct (dtype_starts _ _ _ Hd) as [(y & l' & -> & Hk)|(b & ps & ? & ? & _ & -> & Hb & _)].
      - eexists y, _. split; [done|]. destruct (is_tok _ _) eqn:E; [|done]. tok_kind E. by rewrite E in Hk.
      - eexists b, _. split; [done|]. by rewrite Hb. }
    eapply n_skip; [exact I|by rewrite E in A|done|done|]. apply pwp_bind.
    eapply run_labeled; [exact I|exact A|done|done|done|done|]. intros s' I' A' Hlt Htk. by apply pwp_ret, H.
  - change (ahead s (x :: (ts ++ t :: l))) in A. eapply n_eat; [exact I|exact A|done|done|]. intros I1 A1.
    assert (exists y l', ts ++ t :: l = y :: l' /\ is_tok (kind y) KComma = false /\ is_tok (kind y) KRParen = false)
      as (y & l' & E & Hy & Hy').
    { destruct Hp as [ts ty Hd|y m c ts ty Hy _ _]; [|eexists y, _; split; [done|by rewrite Hy]].
      destruct (dtype_starts _ _ _ Hd) as [(y & l' & -> & Hk)|(b & ps & ? & ? & _ & -> & Hb & _)].
      - eexists y, _. split; [done|]. split; destruct (is_tok _ _) eqn:E; try done; tok_kind E; by rewrite E in Hk.
      - eexists b, _. split; [done|]. by rewrite Hb. }
    apply pwp_bind. eapply n_check; [exact I1|by rewrite E in A1|]. rewrite Hy. apply pwp_bind.
    eapply n_check; [exact I1|by rewrite E in A1|]. rewrite Hy'. cbn [orb]. apply pwp_bind. cbn in Hl.
    eapply run_labeled; [exact I1|exact A1|done|done|done|lia|]. intros s' I' A' Hlt Htk. cbn in Hlt, Htk. apply pwp_ret, H; try done.
    + by rewrite <- (assoc_L (++)) in I'.
    + lia.
  - eapply n_eat; [exact I|exact A|done|done|]. intros I1 A1. apply pwp_bind. eapply n_check; [exact I1|exact A1|].
    apply pwp_bind. eapply n_check; [exact I1|exact A1|].
    assert (is_tok (kind t) KComma || is_tok (kind t) KRParen = true) as -> by (destruct Ht as [-> | ->]; done).
    apply pwp_ret, H; try done. cbn. lia.
Qed.

(** The elements after a slot: nothing, or a comma and more slots. *)
Lemma slots_split ts tys ls v r : slots_of (dtype n) ts (tys, ls, v) r ->
  v = VNo /\ exists ts1 lb ty v1 ts2, ts = ts1 ++ ts2 /\ slot_of (dtype n) ts1 lb ty v1 /\
    ((ts2 = [] /\ r = push_param tys ls lb ty v1) \/
     exists c us, ts2 = c :: us /\ kind c = KComma /\ v1 = VNo /\ slots_of (dtype n) us (push_param tys ls lb ty v1) r).
Proof.
  inversion 1 as [ts' ? ? lb ty v1 Hs|ts' ? ? lb ty c us r' Hs Hc Hu]; simplify_eq; (split; [done|]).
  - exists ts, lb, ty, v1, []. rewrite app_nil_r. split_and!; try done. by left.
  - exists ts', lb, ty, VNo, (c :: us). split_and!; try done. right. by exists c, us.
Qed.

Lemma run_slots us s ts res r l (Q : list TExpr * list label * Variadic -> Parser -> Prop) :
  inside us s -> ahead s (ts ++ r :: l) -> kind r = KRParen -> slots_of (dtype n) ts ([], [], VNo) res ->
  d + n + length ts <= MAX_AST_DEPTH ->
  (forall s', inside (us ++ ts) s' -> ahead s' (r :: l) -> Q res s') ->
  pwp (fn_type_params rec) Q never s.
Proof.
  intros I A Hr Hs Hl H. apply pwp_bind.
  assert (exists y l', ts ++ r :: l = y :: l' /\ is_tok (kind y) KRParen = false) as (y & l' & E & Hy).
  { destruct (slots_split _ _ _ _ _ Hs) as (_ & ts1 & lb & ty & v1 & ts2 & -> & Hslot & _).
    assert (forall ts lb ty, param_of (dtype n) ts lb ty -> exists y l', ts = y :: l' /\ is_tok (kind y) KRParen = false) as Hfst.
    { destruct 1 as [? ? Hd|y ? c ? ? Hy _ _]; [by eapply dtype_first|]. exists y. eexists. split; [done|]. by rewrite Hy. }
    destruct Hslot as [ts1 lb ty Hp|x ts1 lb ty Hx Hp|x Hx].
    - destruct (Hfst _ _ _ Hp) as (y & l' & -> & Hy). by eexists y, _.
    - eexists x, _. split; [done|]. by rewrite Hx.
    - eexists x, _. split; [done|]. by rewrite Hx. }
  eapply n_check; [exact I|by rewrite E in A|]. rewrite Hy. clear E y l' Hy.
  apply (pwp_forever _ (fun st s' => exists us1 ts1, inside us1 s' /\ ahead s' (ts1 ++ r :: l) /\
    slots_of (dtype n) ts1 st res /\ us1 ++ ts1 = us ++ ts /\ length ts1 <= length ts)).
  { by exists us, ts. }
  clear I A Hs. intros [[tys ls] v] s1 (us1 & ts1 & I & A & Hs & Eu & Hlen). split; [by eapply pos_inside|].
  destruct (slots_split _ _ _ _ _ Hs) as (-> & ts2 & lb & ty & v1 & ts3 & -> & Hslot & Hrest).
  rewrite bool_decide_true by done. rewrite length_app in Hlen. apply pwp_bind.
  assert (exists x l1, ts3 ++ r :: l = x :: l1 /\ (kind x = KComma \/ kind x = KRParen)) as (x & l1 & E & Hx).
  { destruct Hrest as [[-> _]|(c & us2 & -> & Hc & _)]; eexists _, _; (split; [done|]); auto. }
  rewrite <- (assoc_L (++)), E in A.
  eapply run_slot; [exact I|exact A|done|done|lia|]. intros s2 I2 A2 Hlt Htk. rewrite <- E in A2. apply pwp_bind.
  destruct Hrest as [[-> ->]|(c & us2 & -> & Hc & -> & Hmore)].
  - eapply n_skip; [exact I2|exact A2|by rewrite Hr|done|]. apply pwp_ret, H; [|done].
    rewrite app_nil_r in Eu. by rewrite <- Eu.
  - change (ahead s2 (c :: (us2 ++ r :: l))) in A2. eapply n_eat; [exact I2|exact A2|done|done|]. intros I3 A3.
    apply pwp_ret. split; [|cbn; split; [lia|done]]. exists ((us1 ++ ts2) ++ [c]), us2. split_and!; try done.
    + rewrite <- Eu. by rewrite <- !(assoc_L (++)).
    + cbn in Hlen. lia.
Qed.

(** *** Bodies *)
Ltac reassoc A := revert A; repeat (progress (cbn [app]; rewrite <- ?app_assoc)); try done.
Abbreviation name_code := (name_span ← cur_span;
       name ← expect_ident;
       x ← eat KDot;
       if x then
         n1 ← expect_ident;
         segments ← dotted [name; n1];
         b ← eat KLBracket;
         args ← (if b then type_list rec else mret []);
         parse_type_postfix rec (TQualified (join_dots (removelast segments)) (last_segment segments) args)
       else
         b ← eat KLBracket;
         if b then args ← type_list rec; parse_type_postfix rec (TGeneric name args name_span)
         else parse_type_postfix rec (TNamed name name_span)).

Section body.
  Context (t : Tok) (l : list Tok) (Hst : stops (kind t) = true).

Abbreviation found ts ty := (fun (r : TExpr) s' => r = ty /\ inside ts s' /\ ahead s' (t :: l)).

Lemma run_last us ty s ps r :
  inside us s -> ahead s (ps ++ t :: l) -> post_of (dtype n) ps ty r -> d + n + length (us ++ ps) <= MAX_AST_DEPTH ->
  pwp (parse_type_postfix rec ty) (found (us ++ ps) r) never s.
Proof. intros I A Hp Hl. eapply run_post; [exact I|exact A|done|done|done|]. by intros. Qed.

(** What follows a base: a postfix, or the token after the type. *)
Lemma post_next ps ty r : post_of (dtype n) ps ty r ->
  exists x l1, ps ++ t :: l = x :: l1 /\ is_tok (kind x) KDot = false /\ is_tok (kind x) KLBracket = false.
Proof.
  destruct 1 as [|q ? ? ? Hq _|? ? ? ? Hq _|? ? ? ? Hq _]; eexists _, _; (split; [done|]); rewrite ?Hq; try done.
  split; by apply stops_not.
Qed.

Lemma run_fn s f r a ps ts params labels v ret :
  inside [f] s -> kind f = KFn -> kind r = KRParen -> kind a = KArrow -> dtype n ts ret ->
  (forall us s1 (Q : list TExpr * list label * Variadic -> Parser -> Prop), inside us s1 ->
     ahead s1 (ps ++ r :: a :: ts ++ t :: l) ->
     (forall s', inside (us ++ ps) s' -> ahead s' (r :: a :: ts ++ t :: l) -> Q (params, labels, v) s') ->
     pwp (fn_type_params rec) Q never s1) ->
  forall lp, kind lp = KLParen -> ahead s (lp :: ps ++ r :: a :: ts ++ t :: l) ->
  d + n + length (f :: lp :: ps ++ r :: a :: ts) <= MAX_AST_DEPTH ->
  pwp (expect KLParen;;
       '(params, labels, variadic) ← fn_type_params rec;
       expect KRParen;; expect KArrow;;
       ret ← rec;
       parse_type_postfix rec (TFunc params ret labels variadic))
    (found (f :: lp :: ps ++ r :: a :: ts) (TFunc params ret labels v)) never s.
Proof.
  intros I Hf Hr Ha Hret Hps lp Hlp A Hl. apply pwp_bind. eapply n_expect; [exact I|exact A|done|done|]. intros I1 A1.
  apply pwp_bind. eapply Hps; [exact I1|exact A1|]. intros s1 I2 A2. apply pwp_bind.
  eapply n_expect; [exact I2|exact A2|done|done|]. intros I3 A3. apply pwp_bind.
  eapply n_expect; [exact I3|exact A3|done|done|]. intros I4 A4. apply pwp_bind. cbn in Hl. rewrite length_app in Hl. cbn in Hl.
  eapply n_rec; [exact I4|exact A4|done|done|lia|]. intros s2 I5 A5 _ _ _.
  assert (((((([f] ++ [lp]) ++ ps) ++ [r]) ++ [a]) ++ ts) = f :: lp :: ps ++ r :: a :: ts) as E by (rewrite <- !(assoc_L (++)); done).
  rewrite E in I5. rewrite <- (app_nil_r (f :: lp :: ps ++ r :: a :: ts)).
  apply run_last; [done|done|constructor|rewrite app_nil_r; cbn; rewrite length_app; cbn; lia].
Qed.

Lemma run_group s lp first ts tys tr r ty ps res :
  inside [lp] s -> kind lp = KLParen -> kind r = KRParen -> (exists ts1, dtype n ts1 first /\
    exists ts2, ts = ts1 ++ ts2 /\ rest_of ts2 tys /\
      ty = (if target ts2 tr false then TTuple (first :: tys) else first) /\ (target ts2 tr false = false -> tys = [])) ->
  tr = [] \/ (exists c, tr = [c] /\ kind c = KComma) ->
  post_of (dtype n) ps ty res -> ahead s (ts ++ tr ++ r :: ps ++ t :: l) ->
  d + n + length ((lp :: (ts ++ tr) ++ [r]) ++ ps) <= MAX_AST_DEPTH ->
  pwp (first ← rec;
       '(types, comma) ← comma_tail first [KRParen] rec;
       expect KRParen;;
       ty ← (if comma then mret (TTuple types) else or_panic (list.last types));
       parse_type_postfix rec ty) (found ((lp :: (ts ++ tr) ++ [r]) ++ ps) res) never s.
Proof.
  intros I Hlp Hr (ts1 & Hfirst & ts2 & -> & Hrest & -> & Hone) Htr Hp A Hl. rewrite !length_app in Hl. cbn in Hl.
  rewrite !length_app in Hl. cbn in Hl.
  assert (exists x l1, ts2 ++ tr ++ r :: ps ++ t :: l = x :: l1 /\ stops (kind x) = true) as (x & l1 & E & Hx).
  { destruct Htr as [->|(c' & -> & Hc')].
    - apply (rest_stops _ tys); [done|by rewrite Hr].
    - apply (rest_stops _ tys); [done|by rewrite Hc']. }
  rewrite <- (assoc_L (++)), E in A. apply pwp_bind. eapply n_rec; [exact I|exact A|done|done|lia|].
  intros s1 I1 A1 _ _ _. rewrite <- E in A1. apply pwp_bind.
  destruct (dtype_in_line _ _ _ Hfirst) as [Hne Hin].
  eapply (run_tail _ _ first ts2 tys tr); [exact I1|done| |exact A1|done|done|done|lia|].
  { constructor; [congruence|done]. }
  intros s2 I2 A2. apply pwp_bind. eapply n_expect; [exact I2|exact A2|done|done|]. intros I3 A3. apply pwp_bind.
  assert ((([lp] ++ ts1) ++ ts2 ++ tr) ++ [r] = lp :: ((ts1 ++ ts2) ++ tr) ++ [r]) as Eu by (rewrite <- !(assoc_L (++)); done).
  rewrite Eu in I3.
  assert (d + n + length ((lp :: ((ts1 ++ ts2) ++ tr) ++ [r]) ++ ps) <= MAX_AST_DEPTH) as Hl'
    by (rewrite !length_app; cbn; rewrite !length_app; cbn; lia).
  destruct (target ts2 tr false) eqn:Et.
  - apply pwp_ret. by apply run_last.
  - rewrite (Hone eq_refl). eapply pwp_or_panic; [done|]. by apply run_last.
Qed.

Lemma run_name x m ps r :
  inside [] s0 -> kind x = KIdent m -> post_of (dtype n) ps (TNamed m (span x)) r -> ahead s0 (x :: ps ++ t :: l) ->
  d + n + length ([x] ++ ps) <= MAX_AST_DEPTH -> pwp name_code (found ([x] ++ ps) r) never s0.
Proof.
  intros I Hx Hp A Hl. apply pwp_bind. eapply n_cur_span; [exact I|exact A|]. apply pwp_bind.
  eapply n_expect_ident; [exact I|exact A|done|]. intros I1 A1.
  destruct (post_next _ _ _ Hp) as (y & l1 & E & Hd & Hb). apply pwp_bind.
  eapply n_skip; [exact I1|by rewrite E in A1|done|done|]. apply pwp_bind.
  eapply n_skip; [exact I1|by rewrite E in A1|done|done|]. by apply run_last.
Qed.
Lemma run_generic x m b ts args c ps r :
  inside [] s0 -> kind x = KIdent m -> kind b = KLBracket -> types_of (dtype n) ts args -> kind c = KRBracket ->
  post_of (dtype n) ps (TGeneric m args (span x)) r -> ahead s0 (x :: b :: ts ++ c :: ps ++ t :: l) ->
  d + n + length ((x :: b :: ts ++ [c]) ++ ps) <= MAX_AST_DEPTH ->
  pwp name_code (found ((x :: b :: ts ++ [c]) ++ ps) r) never s0.
Proof.
  intros I Hx Hb Hts Hc Hp A Hl. apply pwp_bind. eapply n_cur_span; [exact I|exact A|]. apply pwp_bind.
  eapply n_expect_ident; [exact I|exact A|done|]. intros I1 A1. apply pwp_bind.
  eapply n_skip; [exact I1|exact A1|by rewrite Hb|done|]. apply pwp_bind.
  eapply n_eat; [exact I1|exact A1|done|done|]. intros I2 A2. apply pwp_bind.
  eapply run_list; [exact I2|exact A2|done|done|rewrite !length_app in Hl; cbn in Hl; rewrite length_app in Hl; lia|].
  intros s1 I3 A3. by apply run_last.
Qed.
Lemma run_qualified x m y p ns ts args ps r :
  inside [] s0 -> kind x = KIdent m -> kind y = KDot -> gpath p ns ->
  (ts = [] /\ args = []) \/ (exists b ts' c, ts = b :: ts' ++ [c] /\ kind b = KLBracket /\ types_of (dtype n) ts' args /\
    kind c = KRBracket) ->
  post_of (dtype n) ps (TQualified (join_dots (removelast (m :: ns))) (last_segment (m :: ns)) args) r ->
  ahead s0 (x :: y :: p ++ ts ++ ps ++ t :: l) -> d + n + length ((x :: y :: p ++ ts) ++ ps) <= MAX_AST_DEPTH ->
  pwp name_code (found ((x :: y :: p ++ ts) ++ ps) r) never s0.
Proof.
  intros I Hx Hy Hpath Hargs Hp A Hl. apply pwp_bind. eapply n_cur_span; [exact I|exact A|]. apply pwp_bind.
  eapply n_expect_ident; [exact I|exact A|done|]. intros I1 A1. apply pwp_bind.
  eapply n_eat; [exact I1|exact A1|done|done|]. intros I2 A2. apply pwp_bind.
  destruct (path_split _ _ Hpath) as (z & k & p' & ns' & -> & -> & Hz & Hrest).
  eapply n_expect_ident; [exact I2|exact A2|done|]. intros I3 A3. apply pwp_bind.
  assert (exists w l1, ts ++ ps ++ t :: l = w :: l1 /\ is_tok (kind w) KDot = false) as (w & l1 & E & Hw).
  { destruct Hargs as [[-> _]|(b & ts' & c & -> & Hb & _)]; [|eexists b, _; split; [done|by rewrite Hb]].
    destruct (post_next _ _ _ Hp) as (w & l1 & E & Hd & _). by exists w, l1. }
  change (ahead (step (step (step s0))) (p' ++ ts ++ ps ++ t :: l)) in A3. rewrite E in A3.
  eapply run_dotted; [exact I3|exact A3|done|done|]. intros s1 I4 A4. rewrite <- E in A4. cbn [app].
  assert (((([] ++ [x]) ++ [y]) ++ [z]) ++ p' = x :: y :: z :: p') as Eu by done. rewrite Eu in I4.
  apply pwp_bind. destruct Hargs as [[-> ->]|(b & ts' & c & -> & Hb & Hts & Hc)].
  - destruct (post_next _ _ _ Hp) as (w' & l1' & E' & _ & Hb). cbn in A4.
    eapply n_skip; [exact I4|by rewrite E' in A4|done|done|]. apply pwp_bind, pwp_ret.
    rewrite app_nil_r in *. by apply (run_last (x :: y :: z :: p')).
  - change (ahead s1 (b :: (ts' ++ [c]) ++ ps ++ t :: l)) in A4. rewrite <- (assoc_L (++)) in A4.
    eapply n_eat; [exact I4|exact A4|done|done|]. intros I5 A5. apply pwp_bind.
    eapply run_list; [exact I5|exact A5|done|done| |].
    { rewrite !length_app in Hl. cbn in Hl. rewrite !length_app in Hl. cbn in Hl. rewrite length_app in Hl. lia. }
    intros s2 I6 A6.
    assert ((((x :: y :: z :: p') ++ [b]) ++ ts' ++ [c]) = x :: y :: (z :: p') ++ b :: ts' ++ [c]) as Ew
      by (rewrite <- !(assoc_L (++)); done).
    rewrite Ew in I6. by apply (run_last (x :: y :: (z :: p') ++ b :: ts' ++ [c])).
Qed.
End body.

Abbreviation found t l ts ty := (fun (r : TExpr) s' => r = ty /\ inside ts s' /\ ahead s' (t :: l)).

(** The body on a sentence that starts with a name. *)
Lemma run_at_name x m lst (Q : TExpr -> Parser -> Prop) :
  inside [] s0 -> kind x = KIdent m -> ahead s0 (x :: lst) -> pwp name_code Q never s0 -> pwp (parse_type_body rec) Q never s0.
Proof.
  intros I Hx A H. apply pwp_bind. eapply n_skip; [exact I|exact A|by rewrite Hx|done|]. apply pwp_bind.
  eapply n_skip; [exact I|exact A|by rewrite Hx|done|]. apply pwp_bind. eapply n_check; [exact I|exact A|]. rewrite Hx.
  apply pwp_bind. eapply n_check; [exact I|exact A|]. rewrite Hx. exact H.
Qed.
Lemma run_at_paren lp lst (Q : TExpr -> Parser -> Prop) :
  inside [] s0 -> kind lp = KLParen -> ahead s0 (lp :: lst) ->
  (inside [lp] (step s0) -> ahead (step s0) lst ->
   pwp (first ← rec;
        '(types, comma) ← comma_tail first [KRParen] rec;
        expect KRParen;;
        ty ← (if comma then mret (TTuple types) else or_panic (list.last types));
        parse_type_postfix rec ty) Q never (step s0)) ->
  pwp (parse_type_body rec) Q never s0.
Proof.
  intros I Hx A H. apply pwp_bind. eapply n_skip; [exact I|exact A|by rewrite Hx|done|]. apply pwp_bind.
  eapply n_eat; [exact I|exact A|done|done|]. exact H.
Qed.

Lemma run_base t l bs ty ps r :
  inside [] s0 -> stops (kind t) = true -> base_of (dtype n) bs ty -> post_of (dtype n) ps ty r ->
  ahead s0 (bs ++ ps ++ t :: l) -> d + n + length (bs ++ ps) <= MAX_AST_DEPTH ->
  pwp (parse_type_body rec) (found t l (bs ++ ps) r) never s0.
Proof.
  intros I Hst Hb Hp A Hl.
  destruct Hb as [x m Hx|x Hx|x m b ts args c Hx Hb Hts Hc|x m y p ns Hx Hy Hpath|x m y p ns b ts args c Hx Hy Hpath Hb Hts Hc
    |lp ts ty c Hlp Hty Hc|lp ts ty c us tys rp Hlp Hty Hc Hus Hrp|lp ts tys c rp Hlp Hts Hc Hrp].
  - eapply run_at_name; [done|done|exact A|]. by eapply run_name.
  - apply pwp_bind. eapply n_skip; [exact I|exact A|by rewrite Hx|done|]. apply pwp_bind.
    eapply n_skip; [exact I|exact A|by rewrite Hx|done|]. apply pwp_bind. eapply n_check; [exact I|exact A|]. rewrite Hx.
    apply pwp_bind. eapply n_check; [exact I|exact A|]. rewrite Hx. apply pwp_bind. eapply n_cur_span; [exact I|exact A|].
    apply pwp_bind. eapply pwp_advance; [apply (is_reads _ _ I)|by eapply ahead_cur|by rewrite Hx|]. intros R.
    apply run_last; [done|by apply (inside_step []) |by eapply (ahead_reads s0 [x])|done|done].
  - assert (ahead s0 (x :: b :: ts ++ c :: ps ++ t :: l)) as A' by (by reassoc A).
    eapply run_at_name; [done|done|exact A'|]. by eapply run_generic.
  - eapply run_at_name; [done|done|exact A|]. rewrite <- (app_nil_r p).
    eapply run_qualified; try done; [by left|rewrite app_nil_r; done].
  - assert (ahead s0 (x :: y :: p ++ (b :: ts ++ [c]) ++ ps ++ t :: l)) as A'.
    { by reassoc A. }
    eapply run_at_name; [done|done|exact A'|]. eapply run_qualified; try done. right. by exists b, ts, c.
  - assert (ahead s0 (lp :: ts ++ [] ++ c :: ps ++ t :: l)) as A' by (by reassoc A).
    eapply run_at_paren; [done|done|exact A'|]. intros I1 A1. rewrite <- (app_nil_r ts).
    eapply (run_group t l Hst _ lp ty ts [] []); try done; [|by left|by rewrite !app_nil_r].
    exists ts. split; [done|]. exists []. rewrite app_nil_r. split_and!; try done. by left.
  - assert (ahead s0 (lp :: (ts ++ c :: us) ++ [] ++ rp :: ps ++ t :: l)) as A'.
    { by reassoc A. }
    eapply run_at_paren; [done|done|exact A'|]. intros I1 A1. rewrite <- (app_nil_r (ts ++ c :: us)).
    eapply (run_group t l Hst _ lp ty (ts ++ c :: us) tys []); try done; [|by left|by rewrite !app_nil_r].
    exists ts. split; [done|]. exists (c :: us). split_and!; try done. right. by exists c, us.
  - assert (ahead s0 (lp :: ts ++ [c] ++ rp :: ps ++ t :: l)) as A'.
    { by reassoc A. }
    destruct (types_split _ _ Hts) as (ts1 & ty & ts2 & tys2 & -> & -> & Hty & Hrest).
    eapply run_at_paren; [done|done|exact A'|]. intros I1 A1.
    eapply (run_group t l Hst _ lp ty (ts1 ++ ts2) tys2 [c]); try done; [|right; by exists c].
    exists ts1. split; [done|]. exists ts2. split_and!; try done; by destruct ts2.
Qed.

Lemma run_body t l ts ty :
  inside [] s0 -> stops (kind t) = true -> body_of (dtype n) ts ty -> ahead s0 (ts ++ t :: l) ->
  d + n + length ts <= MAX_AST_DEPTH -> pwp (parse_type_body rec) (found t l ts ty) never s0.
Proof.
  intros I Hst Hb A Hl.
  destruct Hb as [f lp r a ts ret Hf Hlp Hr Ha Hret|f lp ps params labels v r a ts ret Hf Hlp Hs Hr Ha Hret|bs ty ps r Hb Hp|b ps r Hb Hp].
  - apply pwp_bind. eapply n_eat; [exact I|exact A|done|done|]. intros I1 A1.
    eapply (run_fn t l Hst _ f r a []); try done. intros us s1 Q I2 A2 H. apply pwp_bind.
    eapply n_check; [exact I2|exact A2|]. rewrite Hr. cbn. apply pwp_ret, H; [by rewrite app_nil_r|done].
  - apply pwp_bind. change (ahead s0 (f :: lp :: (ps ++ r :: a :: ts) ++ t :: l)) in A. rewrite <- (assoc_L (++)) in A.
    eapply n_eat; [exact I|exact A|done|done|]. intros I1 A1.
    eapply (run_fn t l Hst _ f r a ps); try done. intros us s1 Q I2 A2 H.
    eapply run_slots; [exact I2|exact A2|done|done| |done]. cbn in Hl. rewrite length_app in Hl. lia.
  - rewrite <- (assoc_L (++)) in A. by eapply run_base.
  - apply pwp_bind. eapply n_skip; [exact I|exact A|by rewrite Hb|done|]. apply pwp_bind.
    eapply n_skip; [exact I|exact A|by rewrite Hb|done|]. apply pwp_bind. eapply n_check; [exact I|exact A|]. rewrite Hb.
    apply pwp_bind. eapply n_cur_span; [exact I|exact A|]. by apply (run_last t l Hst []).
Qed.
End runs.

(** ** The recursion *)

Lemma accepts n ts ty m s t l :
  dtype n ts ty -> n <= m -> stream_ok s -> depth s + n <= MAX_DEPTH -> depth s + n + length ts <= MAX_AST_DEPTH ->
  ahead s (ts ++ t :: l) -> stops (kind t) = true ->
  pwp (parse_type_at m) (fun r s' => r = ty /\ landed s ts s') never s.
Proof.
  revert ts ty m s t l. induction n as [|n IH]; intros ts ty m s t l H Hm Ho Hd Hl A Hst; [done|].
  destruct m as [|m]; [lia|]. cbn [parse_type_at]. apply pwp_bind, pwp_modify, pwp_bind, pwp_get. cbn [depth set_depth].
  rewrite (proj2 (Nat.ltb_ge _ _)) by lia. set (s1 := set_depth (S (depth s)) s).
  apply pwp_bind, pwp_modify, pwp_bind. set (s2 := set_fold 0 s1).
  assert (stream_ok s2) as Ho2 by (by destruct Ho; split).
  assert (forall ts ty, dtype n ts ty -> forall s' t l, stream_ok s' -> depth s' = S (depth s) -> ahead s' (ts ++ t :: l) ->
    stops (kind t) = true -> S (depth s) + n + length ts <= MAX_AST_DEPTH ->
    pwp (parse_type_at m) (fun r s1 => r = ty /\ landed s' ts s1) never s') as Hrec.
  { intros ts' ty' Ht s' t' l' Ho' Hd' A' Hst' Hl'. eapply IH; try done; lia. }
  assert (inside (S (depth s)) s2 [] s2) as I by (split; [by apply reads_refl|done|cbn; lia]).
  eapply pwp_mono; [apply (run_body _ n _ s2 Hrec t l ts ty I Hst H A); lia| |done].
  - intros r s3 (-> & [R D F] & _). apply pwp_bind, pwp_modify, pwp_bind. unfold depth_down.
    apply pwp_bind, pwp_get, pwp_bind. cbn [depth set_fold]. rewrite D. eapply pwp_or_panic; [done|].
    apply pwp_modify, pwp_ret. split; [done|]. split; [|done|cbn in *; lia].
    destruct R as [[] [] P T]. split; [by split|by split|done|done].
Qed.

(** C17: the type parser accepts its whole grammar. If the tokens ahead of the cursor begin with a
    sentence of the grammar of types and the token after it does not go on with a type, and the
    sentence has few enough brackets, [fn]s and [!]s and few enough tokens for the depth that is
    left, then the parser returns a type and has consumed exactly that sentence. *)
Theorem type_parse_accepts s ts ty t l :
  stream_ok s -> gtype ts ty -> ahead s (ts ++ t :: l) -> stops (kind t) = true ->
  depth s + opens ts < MAX_DEPTH -> depth s + opens ts + length ts < MAX_AST_DEPTH ->
  exists r s', parse_type s = Ret r s' /\ reads s ts s' /\ gtype ts r /\ depth s' = depth s.
Proof.
  intros Ho Hg A Hst Hd Hl. destruct (reading ts ty Hg) as [r Hr].
  pose proof (accepts _ _ _ (S MAX_DEPTH) s t l Hr ltac:(lia) Ho ltac:(lia) ltac:(lia) A Hst) as H.
  pose proof (parse_type_spec s Ho ltac:(lia)) as Hs. unfold pwp, parse_type in *.
  destruct (parse_type_at (S MAX_DEPTH) s) as [r' s'|? ?| |]; try done. destruct H as [-> [R D _]].
  exists r, s'. split_and!; try done. destruct Hs as [(us & vs & R' & _ & Hseen & Hg') _ _].
  assert (us = ts) as ->.
  { pose proof (rd_ts _ _ _ R) as E1. rewrite (rd_ts _ _ _ R') in E1. by apply app_inv_tail in E1. }
  assert (vs = ts) as ->; [|done]. eapply seen_plain; [done| |].
  - eapply ahead_cur. by eapply ahead_reads.
  - intros E. by rewrite E in Hst.
Qed.

Module AcceptDemo.
Import TypeDemo.
(** [K\[int\]? =]. *)
Definition sentence : list Tok :=
  [at_ 1 (KIdent (text "K")); at_ 2 KLBracket; at_ 3 (KIdent (text "int")); at_ 6 KRBracket; at_ 7 KQuestion].
Definition start : Parser := new_parser (sentence ++ [at_ 9 KAssign; at_ 11 KEof]) [] 1.
Lemma sentence_ok : stream_ok start.
Proof.
  split; [cbn; lia|by eexists|]. unfold start, sentence, new_parser, toks, tok_ok.
  repeat (constructor; [done|]). constructor.
Qed.
Lemma sentence_type : gtype sentence (option_of (TGeneric (text "K") [TNamed (text "int") (mkSpan 1 3 0)] (mkSpan 1 1 0))).
Proof.
  apply (g_option (take 4 sentence)); [|done].
  apply (g_generic (at_ 1 (KIdent (text "K"))) _ _ [at_ 3 (KIdent (text "int"))]); try done.
  apply gs_one. by apply (g_name (at_ 3 (KIdent (text "int")))).
Qed.
End AcceptDemo.

Lemma type_parse_accepts_witness : exists r s', parse_type AcceptDemo.start = Ret r s' /\ reads AcceptDemo.start AcceptDemo.sentence s'.
Proof.
  destruct (type_parse_accepts AcceptDemo.start AcceptDemo.sentence _ (TypeDemo.at_ 9 KAssign) [TypeDemo.at_ 11 KEof]
    AcceptDemo.sentence_ok AcceptDemo.sentence_type) as (r & s' & E & R & _); [done|done|by apply Nat.ltb_lt|by apply Nat.ltb_lt|].
  by exists r, s'.
Defined.
