(* ===== verification/ParsePattern.v ===== *)
(** * Patterns and binding targets: [src/src/parser/pattern.rs]

    The recursive-descent parser of match patterns, and the targets of [:=], [for] and
    comprehensions, with the speculative read of [<target> :=]. *)

From stdpp Require Import strings.
From S2P Require Import Prelude Consteval Slice Decimal FmtSpec Token Syntax Cursor ParseType.
Import F64.
Local Open Scope nat_scope.
Local Open Scope chz_scope.
Local Open Scope parse_scope.

Definition PATTERN_DEEP : list Z := text "pattern nested too deeply".
Definition PATTERN_HOLE : list Z :=
  text "a string pattern cannot interpolate: `{...}` is a hole, not text; write `{{` and `}}` for literal braces, or bind the value and compare it in a guard".
Definition OUTER_PARENS : list Z :=
  text "an unpacking target takes no outer parentheses; write the names separated by commas".

(** ** Pieces *)

Definition is_float (t : Token) : bool := match t with KFloat _ => true | _ => false end.
Definition carrier_tag (t : Token) : option CarrierTag :=
  match t with KQuestion => Some TagPresent | KBang => Some TagError | _ => None end.

(** The loop over the [?] and [!] before a carrier pattern. *)
Definition carrier_tags : PM (list CarrierTag) :=
  forever (fun tags =>
    t ← peek;
    match carrier_tag t with
    | Some tag => advance;; mret (inl (tags ++ [tag]))
    | None => mret (inr tags)
    end) [].

(** [for tag in tags.into_iter().rev()]. *)
Fixpoint wrap_carriers (rev_tags : list CarrierTag) (pat : Pattern) : PM Pattern :=
  match rev_tags with
  | [] => mret pat
  | tag :: rest => id ← fresh; wrap_carriers rest (PCarrier tag pat id)
  end.

(** The variant, the enum and the module a dotted head names. *)
Definition split_head (segments : list (list Z)) : list Z * option (list Z) * option (list Z) :=
  match segments with
  | [] => ([], None, None)
  | [name] => (name, None, None)
  | [enum; variant] => (variant, Some enum, None)
  | _ => (last_segment segments, list.last (removelast segments),
          Some (join_dots (removelast (removelast segments))))
  end.

Definition bind_leaf (name : list Z) (sp : Span) : PM Pattern :=
  if is_blank_name name then mret PWildcard else id ← fresh; mret (PIdent name sp id).

(** [parse_paren_list]. *)
Definition parse_paren_list (elem : PM Pattern) : PM Pattern :=
  expect KLParen;;
  first ← elem;
  '(elems, comma) ← comma_tail first [KRParen] elem;
  expect KRParen;;
  if comma then mret (PTuple elems) else or_panic (list.last elems).

(** ** Primaries, given the alternation level *)

Section primary.
  (** [parse_subpattern] and [parse_pattern_primary(false)]. *)
  Context (subpattern : PM Pattern) (primary : PM Pattern).

Definition float_pattern : PM Pattern :=
  negative ← eat KMinus;
  tok ← advance;
  match kind tok with
  | KFloat f =>
      let f := if negative then F64.neg f else f in
      a ← check KDotDot; b ← check KDotDotEq;
      if a || b then
        r ← or_panic (repr_float f);
        err (text "a range pattern takes integer bounds, found float " ++ r)
      else mret (PLiteral (LFloat f))
  | _ => or_panic None
  end.

Definition int_pattern : PM Pattern :=
  start ← expect_pattern_int;
  inclusive ← check KDotDotEq;
  d ← eat KDotDot;
  r ← (if d then mret true else eat KDotDotEq);
  if r then e ← expect_pattern_int; mret (PRange start e inclusive)
  else mret (PLiteral (LInt start)).

Definition carrier_pattern : PM Pattern :=
  tags ← carrier_tags;
  l ← check KLParen;
  pat ← (if l then parse_paren_list subpattern else primary);
  wrap_carriers (rev tags) pat.

(** The payload of a variant, after its [(]. *)
Definition payload_patterns : PM (list Pattern) :=
  r ← check KRParen;
  bindings ←
    (if r then mret []
     else forever (fun bindings =>
       p ← subpattern;
       c ← eat KComma;
       mret ((if c then inl else inr) (bindings ++ [p]))) []);
  expect KRParen;; mret bindings.

Definition named_pattern (top : bool) : PM Pattern :=
  name_span ← cur_span;
  none_kw ← check KNoneKw;
  name ← expect_ident_or_none;
  segments ← dotted [name];
  let '(name, enum_name, module_name) := split_head segments in
  l ← eat KLParen;
  if l then
    bindings ← payload_patterns;
    id ← fresh; mret (PVariant id name bindings enum_name module_name)
  else if top || none_kw || bool_decide (is_Some enum_name) then
    id ← fresh; mret (PVariant id name [] enum_name module_name)
  else id ← fresh; mret (PIdent name name_span id).

Definition primary_body (top : bool) : PM Pattern :=
  t ← peek; t1 ← peek_at 1;
  match t with
  | KFloat _ => float_pattern
  | KMinus => if is_float t1 then float_pattern else int_pattern
  | KInt _ => int_pattern
  | KStr s =>
      match plain s with
      | Some text => advance;; mret (PLiteral (LStr text))
      | None => err PATTERN_HOLE
      end
  | KRawStr s => advance;; mret (PLiteral (LStr s))
  | KTrue => advance;; mret (PLiteral (LBool true))
  | KFalse => advance;; mret (PLiteral (LBool false))
  | KLParen => parse_paren_list subpattern
  | KQuestion | KBang => carrier_pattern
  | KIdent name =>
      if is_blank_name name && negb (is_tok t1 KLParen) then advance;; mret PWildcard
      else named_pattern top
  | _ => named_pattern top
  end.
End primary.

(** The carrier loop leaves no [?] or [!], so the primary after it calls no other. *)
Fixpoint parse_pattern_primary (k : nat) (subpattern : PM Pattern) (top : bool) : PM Pattern :=
  match k with
  | O => fun _ => Spin
  | S k => primary_body subpattern (parse_pattern_primary k subpattern false) top
  end.

(** [parse_pattern_impl] with at most [n] nested calls. *)
Fixpoint parse_pattern_at (n : nat) (top : bool) : PM Pattern :=
  match n with
  | O => fun _ => Spin
  | S n =>
      modify (fun s => set_depth (S (depth s)) s);;
      s ← get;
      if (MAX_DEPTH <? depth s)%nat then err PATTERN_DEEP
      else
        let primary := parse_pattern_primary 2 (parse_pattern_at n false) top in
        first ← primary;
        alts ← forever (fun alts =>
          b ← eat KBitOr; if b then p ← primary; mret (inl (alts ++ [p])) else mret (inr alts)) [first];
        result ← (if (length alts =? 1)%nat then or_panic (list.last alts) else mret (POr alts));
        depth_down;;
        mret result
  end.
Definition parse_pattern : PM Pattern := parse_pattern_at (S MAX_DEPTH) true.

(** ** Binding targets *)

(** [parse_bind_target] with at most [n] nested calls. *)
Fixpoint parse_bind_target_at (n : nat) : PM Pattern :=
  match n with
  | O => fun _ => Spin
  | S n =>
      modify (fun s => set_depth (S (depth s)) s);;
      s ← get;
      if (MAX_DEPTH <? depth s)%nat then err PATTERN_DEEP
      else
        l ← check KLParen;
        target ← (if l then parse_paren_list (parse_bind_target_at n)
                  else sp ← cur_span; name ← expect_ident; bind_leaf name sp);
        depth_down;;
        mret target
  end.
Definition parse_bind_target : PM Pattern := parse_bind_target_at (S MAX_DEPTH).

Definition parse_bind_target_list (end_ : Token) : PM (list Pattern * bool) :=
  first ← parse_bind_target;
  comma_tail first [end_] parse_bind_target.

(** The first name that an earlier one repeats. *)
Fixpoint repeated (seen : list (list Z)) (names : list (list Z * Span)) : option (list Z * Span) :=
  match names with
  | [] => None
  | (name, sp) :: rest =>
      if bool_decide (name ∈ seen) then Some (name, sp) else repeated (seen ++ [name]) rest
  end.
Definition reject_repeated_binders (target : Pattern) : PM unit :=
  names ← or_panic (binders target);
  match repeated [] names with
  | Some (name, sp) =>
      throw (mkParseError (text "identifier " ++ quoted_text name ++ text " is bound more than once in this pattern") sp)
  | None => mret tt
  end.

Definition is_tuple (p : Pattern) : bool := match p with PTuple _ => true | _ => false end.

Definition parse_loop_target : PM Pattern :=
  sp ← cur_span;
  parenthesized ← check KLParen;
  '(elems, comma) ← parse_bind_target_list KIn;
  target ←
    (if comma then mret (PTuple elems)
     else
       only ← or_panic (list.last elems);
       if parenthesized && is_tuple only then throw (mkParseError OUTER_PARENS sp) else mret only);
  reject_repeated_binders target;;
  mret target.

(** [pos], [depth] and [fold_depth] are put back by hand; the rest of the state stays. *)
Definition rolled_back (save s : Parser) : Parser :=
  set_fold (fold_depth save) (set_depth (depth save) (set_tpos (tpos save) s)).

(** The body of [try_parse_walrus_target] past its first test. *)
Definition speculate_target : PM (option Pattern) :=
  save ← get;
  let back := modify (rolled_back save);; mret None in
  r ← attempt (parse_bind_target_list KWalrus);
  match r with
  | inl (elems, comma) =>
      w ← check KWalrus;
      if w then
        ok ← (if comma then mret true else p ← or_panic (elems !! 0); mret (negb (is_tuple p)));
        if ok then
          advance;;
          target ← (if comma then mret (PTuple elems) else or_panic (list.last elems));
          reject_repeated_binders target;;
          mret (Some target)
        else back
      else back
  | inr _ => back
  end.
Definition try_parse_walrus_target : PM (option Pattern) :=
  t ← peek; match t with KIdent _ | KLParen => speculate_target | _ => mret None end.

(** [is_compound_assign]. *)
Definition is_compound_assign (t : Token) : bool :=
  match t with
  | KPlusEq | KMinusEq | KStarEq | KSlashEq | KPercentEq | KAmpEq | KPipeEq | KCaretEq | KShlEq | KShrEq => true
  | _ => false
  end.
