(* ===== verification/PatternGrammar.v ===== *)
(** * The grammar of patterns, and the pattern parser against it

    [gpat] is the production [<pattern>] of [src/docs/reference/grammar.bnf] (and [<subpattern>],
    where a bare name binds).  What the parser accepts derives in the grammar, it always returns,
    and the nodes it builds carry distinct identities ([pattern_parse_sound]).  Its carrier loop has
    no bound: the tree of a pattern is as deep as the source is long ([pattern_depth_unbounded]). *)

From stdpp Require Import strings.
From S2P Require Import Prelude Consteval Slice Decimal FmtSpec FloatText Token Syntax Cursor CursorWp ParseType.
From S2P Require Import TypeGrammar TypeAccept ParsePattern.
Import F64.
Local Open Scope nat_scope.
Local Open Scope chz_scope.
Local Open Scope parse_scope.

(** ** The grammar *)

(** An [INT] with an optional minus. *)
Inductive gint : list Tok -> Z -> Prop :=
| gi_pos t n : kind t = KInt n -> gint [t] n
| gi_neg m t n : kind m = KMinus -> kind t = KInt n -> gint [m; t] (- n)
| gi_min m t : kind m = KMinus -> kind t = KIntMinMagnitude -> gint [m; t] (- 2 ^ 63).

(** A literal other than a range. *)
Inductive glit : list Tok -> LitPattern -> Prop :=
| gl_int ts n : gint ts n -> glit ts (LInt n)
| gl_float t f : kind t = KFloat f -> glit [t] (LFloat f)
| gl_neg_float m t f : kind m = KMinus -> kind t = KFloat f -> glit [m; t] (LFloat (F64.neg f))
| gl_str t s l : kind t = KStr s -> plain s = Some l -> glit [t] (LStr l)
| gl_raw t s : kind t = KRawStr s -> glit [t] (LStr s)
| gl_true t : kind t = KTrue -> glit [t] (LBool true)
| gl_false t : kind t = KFalse -> glit [t] (LBool false).

(** The dotted name of a variant; a lone [None] is one too. *)
Inductive ghead : list Tok -> list (list Z) -> Prop :=
| gh_path ts ns : gpath ts ns -> ghead ts ns
| gh_none t : kind t = KNoneKw -> ghead [t] [text "None"]
| gh_none_path t d ts ns : kind t = KNoneKw -> kind d = KDot -> gpath ts ns -> ghead (t :: d :: ts) (text "None" :: ns).

Definition variant_of (id : Z) (ns : list (list Z)) (ps : list Pattern) : Pattern :=
  let '(name, enum, module) := split_head ns in PVariant id name ps enum module.

(** A comma list of elements, and the parenthesized form: one element with no comma is grouping. *)
Section lists.
  Context (E : list Tok -> Pattern -> Prop).

Inductive list_of : list Tok -> list Pattern -> Prop :=
| lo_one ts p : E ts p -> list_of ts [p]
| lo_cons ts p c us ps : E ts p -> kind c = KComma -> list_of us ps -> list_of (ts ++ c :: us) (p :: ps).
Inductive paren_of : list Tok -> Pattern -> Prop :=
| pa_group l ts p r : kind l = KLParen -> E ts p -> kind r = KRParen -> paren_of (l :: ts ++ [r]) p
| pa_tuple l ts p c us ps r :
    kind l = KLParen -> E ts p -> kind c = KComma -> list_of us ps -> kind r = KRParen ->
    paren_of (l :: (ts ++ c :: us) ++ [r]) (PTuple (p :: ps))
| pa_comma l ts ps c r :
    kind l = KLParen -> list_of ts ps -> kind c = KComma -> kind r = KRParen -> paren_of (l :: (ts ++ [c]) ++ [r]) (PTuple ps).

Lemma list_of_snoc ts ps c us p : list_of ts ps -> kind c = KComma -> E us p -> list_of (ts ++ c :: us) (ps ++ [p]).
Proof.
  intros H Hc Hp. induction H as [|? ? ? ? ? ? ? ? IH]; cbn; [by repeat constructor|].
  rewrite <- app_assoc. cbn. by constructor.
Qed.
End lists.

(** [top]: the pattern is a whole arm, where a bare name is a variant. *)
Inductive gprim : bool -> list Tok -> Pattern -> Prop :=
| q_lit top ts l : glit ts l -> gprim top ts (PLiteral l)
| q_range top ts a op us b :
    gint ts a -> kind op = KDotDot \/ kind op = KDotDotEq -> gint us b ->
    gprim top (ts ++ op :: us) (PRange a b (is_tok (kind op) KDotDotEq))
| q_blank top t : kind t = KIdent (text "_") -> gprim top [t] PWildcard
| q_name t n id : kind t = KIdent n -> gprim false [t] (PIdent n (span t) id)
| q_variant top ts ns id :
    ghead ts ns -> top = true \/ 2 <= length ns \/ (exists t, ts = [t] /\ kind t = KNoneKw) ->
    gprim top ts (variant_of id ns [])
| q_unit top ts ns id l r :
    ghead ts ns -> kind l = KLParen -> kind r = KRParen -> gprim top (ts ++ [l; r]) (variant_of id ns [])
| q_payload top ts ns id l us ps r :
    ghead ts ns -> kind l = KLParen -> list_of (gpat false) us ps -> kind r = KRParen ->
    gprim top (ts ++ l :: us ++ [r]) (variant_of id ns ps)
| q_tuple top ts p : paren_of (gpat false) ts p -> gprim top ts p
| q_carrier top t tag ts p id :
    carrier_tag (kind t) = Some tag -> gprim false ts p -> gprim top (t :: ts) (PCarrier tag p id)
with gpat : bool -> list Tok -> Pattern -> Prop :=
| g_prim top ts p : gprim top ts p -> gpat top ts p
| g_or top ts p b us ps : gprim top ts p -> kind b = KBitOr -> galts top us ps -> gpat top (ts ++ b :: us) (POr (p :: ps))
with galts : bool -> list Tok -> list Pattern -> Prop :=
| ga_one top ts p : gprim top ts p -> galts top ts [p]
| ga_cons top ts p b us ps : gprim top ts p -> kind b = KBitOr -> galts top us ps -> galts top (ts ++ b :: us) (p :: ps).

#[export] Hint Constructors gint glit ghead gprim gpat galts list_of paren_of : grammar.

Lemma galts_snoc top ts ps b us p : galts top ts ps -> kind b = KBitOr -> gprim top us p -> galts top (ts ++ b :: us) (ps ++ [p]).
Proof.
  intros H Hb Hp. induction H as [|? ? ? ? ? ? ? ? ? IH]; cbn; [eauto with grammar|].
  rewrite <- app_assoc. cbn. eauto with grammar.
Qed.
(** ** Node identities *)

(** The identities in a pattern. *)
Fixpoint pattern_ids (p : Pattern) : list Z :=
  match p with
  | PIdent _ _ id => [id]
  | PVariant id _ subs _ _ => flat_map pattern_ids subs ++ [id]
  | PTuple subs | POr subs => flat_map pattern_ids subs
  | PCarrier _ inner id => pattern_ids inner ++ [id]
  | PLiteral _ | PRange _ _ _ | PWildcard => []
  end.

(** The counter has an identity left for each token that is left. *)
Definition room (s : Parser) : Prop :=
  (0 <= next_id s /\ next_id s + (Z.of_nat (length (toks s)) - Z.of_nat (tpos s)) < 2 ^ 32)%Z.

(** From [s] to [s'] the identities [ids] were handed out, and [k] tokens took none. *)
Definition allocs (s : Parser) (ids : list Z) (k : Z) (s' : Parser) : Prop :=
  room s ->
  (NoDup ids /\ Forall (fun i => next_id s <= i < next_id s') ids /\ next_id s <= next_id s' /\
   next_id s' + k <= next_id s + (Z.of_nat (tpos s') - Z.of_nat (tpos s)))%Z.

Record got (s : Parser) (ts : list Tok) (ids : list Z) (k : Z) (s' : Parser) : Prop := {
  got_reads : reads s ts s';
  got_depth : depth s' = depth s;
  got_fold : fold_depth s' = fold_depth s;
  got_ids : allocs s ids k s';
}.

Lemma got_refl s : stream_ok s -> got s [] [] 0 s.
Proof. intros H. split; [by apply reads_refl|done|done|]. intros _. split_and!; [constructor|constructor|lia|lia]. Qed.
Lemma got_less s ts ids k k' s' : got s ts ids k s' -> (k' <= k)%Z -> got s ts ids k' s'.
Proof. intros [R D F A] Hk. split; try done. intros Hr. destruct (A Hr) as (? & ? & ? & ?). split_and!; try done. lia. Qed.

Lemma room_after s ts ids k s' : got s ts ids k s' -> (0 <= k)%Z -> room s -> room s'.
Proof.
  intros [R _ _ A] Hk Hr. destruct (A Hr) as (_ & _ & Hle & Hb). destruct Hr as [H0 H1].
  unfold room. rewrite (reads_toks _ _ _ R). lia.
Qed.
Lemma got_trans s ts ids k s1 us ids' k' s2 :
  got s ts ids k s1 -> got s1 us ids' k' s2 -> (0 <= k)%Z -> got s (ts ++ us) (ids ++ ids') (k + k') s2.
Proof.
  intros G1 G2 Hk. split.
  - eapply reads_trans; [apply G1|apply G2].
  - by rewrite (got_depth _ _ _ _ _ G2), (got_depth _ _ _ _ _ G1).
  - by rewrite (got_fold _ _ _ _ _ G2), (got_fold _ _ _ _ _ G1).
  - intros Hr. destruct (got_ids _ _ _ _ _ G1 Hr) as (N1 & F1 & L1 & B1).
    destruct (got_ids _ _ _ _ _ G2 (room_after _ _ _ _ _ G1 Hk Hr)) as (N2 & F2 & L2 & B2). split_and!; [|..|lia|lia].
    + apply list.NoDup_app. split_and!; [done| |done]. intros i Hi Hi'. rewrite list.Forall_forall in F1, F2.
      specialize (F1 i Hi). specialize (F2 i Hi'). lia.
    + apply Forall_app. split; [revert F1|revert F2]; apply Forall_impl; intros; cbn in *; lia.
Qed.
Lemma got_step s ts ids k s1 t :
  got s ts ids k s1 -> reads s (ts ++ [t]) (step s1) -> got s (ts ++ [t]) ids (k + 1) (step s1).
Proof.
  intros [R D F A] R'. split; [done|done|done|]. intros Hr. destruct (A Hr) as (? & ? & ? & ?).
  split_and!; try done. cbn. lia.
Qed.
Lemma got_first s t ts ids k s' : got s (t :: ts) ids k s' -> cur s = Some t.
Proof.
  intros [R _ _ _]. unfold cur. rewrite <- (Nat.add_0_r (tpos s)), <- lookup_drop, (rd_ts _ _ _ R). done.
Qed.
(** [fresh], paid for with a token. *)
Lemma got_fresh s ts ids k s1 :
  got s ts ids k s1 -> (1 <= k)%Z ->
  got s ts (ids ++ [next_id s1]) (k - 1) (set_id (Z.modulo (next_id s1 + 1) (2 ^ 32)) s1).
Proof.
  intros [R D F A] Hk. split; [|done|done|].
  - destruct R as [[] [] P T]. split; [by split|by split|done|done].
  - intros Hr. destruct (A Hr) as (N & Fa & L & B).
    assert ((next_id s1 + 1) mod 2 ^ 32 = next_id s1 + 1)%Z as E.
    { apply Z.mod_small. pose proof (so_pos _ (rd_ok _ _ _ R)) as Hp. rewrite (reads_toks _ _ _ R) in Hp.
      destruct Hr. lia. }
    cbn [next_id set_id]. rewrite E. split_and!; [|..|lia|cbn; lia].
    + apply list.NoDup_app. split_and!; [done| |by apply NoDup_singleton]. intros i Hi Hi'.
      apply list_elem_of_singleton in Hi' as ->. rewrite list.Forall_forall in Fa. specialize (Fa _ Hi). lia.
    + apply Forall_app. split; [revert Fa; apply Forall_impl; intros; cbn in *; lia|]. constructor; [lia|done].
Qed.

(** ** Rules on [got] *)

Section getting.
  Context (s0 : Parser) (ts : list Tok) (ids : list Z) (k : Z) (s : Parser).
  Context (G : got s0 ts ids k s) (Hk : (0 <= k)%Z).
  Abbreviation F := (fails s0).

Lemma g_eat t0 (Q : bool -> Parser -> Prop) :
  t0 <> KEof ->
  (forall t, cur s = Some t -> is_tok (kind t) t0 = true -> got s0 (ts ++ [t]) ids (k + 1) (step s) -> Q true (step s)) ->
  (forall t, cur s = Some t -> is_tok (kind t) t0 = false -> Q false s) ->
  pwp (eat t0) Q F s.
Proof. intros Hne Hy Hn. apply (r_eat _ _ _ (got_reads _ _ _ _ _ G)); [done| |done]. intros t Hc Hi R1. by eapply Hy, got_step. Qed.
Lemma g_expect t0 (Q : Tok -> Parser -> Prop) :
  t0 <> KEof ->
  (forall t, cur s = Some t -> is_tok (kind t) t0 = true -> got s0 (ts ++ [t]) ids (k + 1) (step s) -> Q t (step s)) ->
  pwp (expect t0) Q F s.
Proof. intros Hne Hy. apply (r_expect _ _ _ (got_reads _ _ _ _ _ G)); [done|]. intros t Hc Hi R1. by eapply Hy, got_step. Qed.
Lemma g_expect_ident (Q : list Z -> Parser -> Prop) :
  (forall t n, cur s = Some t -> kind t = KIdent n -> got s0 (ts ++ [t]) ids (k + 1) (step s) -> Q n (step s)) ->
  pwp expect_ident Q F s.
Proof. intros Hy. apply (r_expect_ident _ _ _ (got_reads _ _ _ _ _ G)). intros t n Hc Hi R1. by eapply Hy, got_step. Qed.
Lemma g_advance t (Q : Tok -> Parser -> Prop) :
  cur s = Some t -> kind t <> KEof -> (got s0 (ts ++ [t]) ids (k + 1) (step s) -> Q t (step s)) -> pwp advance Q F s.
Proof. intros Hc Hne Hy. eapply (r_advance _ _ _ (got_reads _ _ _ _ _ G)); [done|done|]. intros R1. by eapply Hy, got_step. Qed.
Lemma g_eat_in_line t0 (Q : bool -> Parser -> Prop) :
  t0 <> KEof ->
  (forall t, cur s = Some t -> is_tok (kind t) t0 = true -> got s0 (ts ++ [t]) ids (k + 1) (step s) -> Q true (step s)) ->
  Q false s -> pwp (eat_in_line t0) Q F s.
Proof. intros Hne Hy Hn. apply (r_eat_in_line _ _ _ (got_reads _ _ _ _ _ G)); [done| |done]. intros t Hc Hi R1. by eapply Hy, got_step. Qed.
Lemma g_fresh (Q : Z -> Parser -> Prop) :
  (1 <= k)%Z -> (forall id s', got s0 ts (ids ++ [id]) (k - 1) s' -> Q id s') -> pwp fresh Q F s.
Proof. intros H1 H. apply pwp_bind, pwp_get, pwp_bind, pwp_modify, pwp_ret. by apply H, got_fresh. Qed.
Lemma got_pos : tpos s < length (toks s).
Proof. apply so_pos, (got_reads _ _ _ _ _ G). Qed.
End getting.

(** A method that reads an element: a pattern of the relation [E] from its tokens. *)
Definition elem_post (E : list Tok -> Pattern -> Prop) (s : Parser) (p : Pattern) (s' : Parser) : Prop :=
  exists ts, got s ts (pattern_ids p) 0 s' /\ ts <> [] /\ E ts p.

Section elements.
  Context (E : list Tok -> Pattern -> Prop) (d : nat) (elem : PM Pattern).
  Context (Helem : forall s, stream_ok s -> depth s = d -> pwp elem (elem_post E s) (fails s) s).

Lemma elem_call s0 ts ids k s (Q : Pattern -> Parser -> Prop) :
  got s0 ts ids k s -> (0 <= k)%Z -> depth s = d ->
  (forall p us s', got s0 (ts ++ us) (ids ++ pattern_ids p) k s' -> us <> [] -> E us p -> tpos s < tpos s' ->
     toks s' = toks s -> depth s' = d -> Q p s') ->
  pwp elem Q (fails s0) s.
Proof.
  intros G Hk Hd H. eapply (r_call s0 ts s (got_reads _ _ _ _ _ G)); [apply Helem; [apply (got_reads _ _ _ _ _ G)|done]|].
  intros p s' (us & G' & Hn & He). pose proof (got_reads _ _ _ _ _ G') as R. apply (H p us s'); try done.
  - rewrite <- (Z.add_0_r k). by eapply got_trans.
  - rewrite (rd_pos _ _ _ R). destruct us; [done|]. cbn. lia.
  - by eapply reads_toks.
  - by rewrite (got_depth _ _ _ _ _ G').
Qed.

(** The elements of a tail and the comma that may end it. *)
Definition tail_of (us : list Tok) (ps : list Pattern) (comma : bool) : Prop :=
  if comma then (exists c us', us = us' ++ [c] /\ kind c = KComma /\ list_of E us' ps) \/
                (list_of E us ps /\ 2 <= length ps)
  else exists p, ps = [p] /\ E us p.

Lemma flat_ids_snoc ps p : flat_map pattern_ids (ps ++ [p]) = flat_map pattern_ids ps ++ pattern_ids p.
Proof. rewrite flat_map_app. cbn. by rewrite app_nil_r. Qed.

Lemma tail_call s0 ts ids k s first us ends (Q : list Pattern * bool -> Parser -> Prop) :
  got s0 (ts ++ us) (ids ++ pattern_ids first) k s -> (0 <= k)%Z -> depth s = d -> E us first ->
  (forall ps comma us' s', got s0 (ts ++ us') (ids ++ flat_map pattern_ids ps) k s' -> tail_of us' ps comma ->
     depth s' = d -> Q (ps, comma) s') ->
  pwp (comma_tail first ends elem) Q (fails s0) s.
Proof.
  intros G Hk Hd He H.
  apply (pwp_forever _ (fun '(ps, comma) s' => exists us', got s0 (ts ++ us') (ids ++ flat_map pattern_ids ps) k s' /\
    list_of E us' ps /\ (if comma : bool then 2 <= length ps else exists p, ps = [p] /\ E us' p) /\ depth s' = d)).
  { exists us. cbn. rewrite app_nil_r. split_and!; try done; [by constructor|by exists first]. }
  clear us s G Hd He. intros [ps comma] s1 (us & G & Hl & Hc & Hd). split; [by eapply got_pos|].
  apply pwp_bind, (g_eat_in_line _ _ _ _ _ G); [done| |].
  - intros c Hcur Hkc G1. tok_kind Hkc. rewrite <- app_assoc in G1.
    apply pwp_bind, (r_check_any _ _ _ (got_reads _ _ _ _ _ G1)). intros [|].
    + apply pwp_ret. eapply (H ps true (us ++ [c])); [eapply got_less; [exact G1|lia]| |done]. left. by exists c, us.
    + apply pwp_bind. eapply elem_call; [exact G1|lia|done|]. intros p us' s2 G2 Hn He Hlt Htk Hd2. apply pwp_ret.
      cbn in Hlt, Htk. split; [|split; [lia|done]]. exists (us ++ c :: us').
      rewrite flat_ids_snoc. split_and!; [|by apply list_of_snoc| |done].
      * rewrite <- !app_assoc in G2. eapply got_less; [exact G2|lia].
      * rewrite length_app. cbn. destruct comma; [lia|]. destruct Hc as (? & -> & _). cbn. lia.
  - apply pwp_ret. eapply H; [exact G| |done]. destruct comma; cbn; [by right|done].
Qed.

Lemma paren_call s0 ts ids k s (Q : Pattern -> Parser -> Prop) :
  got s0 ts ids k s -> (0 <= k)%Z -> depth s = d ->
  (forall p us s', got s0 (ts ++ us) (ids ++ pattern_ids p) (k + 1) s' -> us <> [] -> paren_of E us p -> depth s' = d -> Q p s') ->
  pwp (parse_paren_list elem) Q (fails s0) s.
Proof.
  intros G Hk Hd H. apply pwp_bind, (g_expect _ _ _ _ _ G); [done|]. intros l Hl Hkl G1. tok_kind Hkl.
  apply pwp_bind. eapply elem_call; [exact G1|lia|done|]. intros first us s1 G2 Hn He _ _ Hd1.
  apply pwp_bind. eapply tail_call; [exact G2|lia|done|done|]. clear us s1 G2 Hn He Hd1.
  intros ps comma us s1 G2 Ht Hd1. apply pwp_bind, (g_expect _ _ _ _ _ G2); [done|]. intros r Hr Hkr G3. tok_kind Hkr.
  assert (got s0 (ts ++ l :: us ++ [r]) (ids ++ flat_map pattern_ids ps) (k + 1) (step s1)) as G4.
  { rewrite <- !app_assoc in G3. eapply got_less; [exact G3|lia]. }
  destruct comma; cbn in Ht.
  - apply pwp_ret. apply (H (PTuple ps) (l :: us ++ [r])); [done|done| |done].
    destruct Ht as [(c & us' & -> & Hc & Ht)|[Ht Hlen]]; [by apply pa_comma|].
    destruct Ht; [cbn in Hlen; lia|]. by apply pa_tuple.
  - destruct Ht as (p & -> & Ht). eapply pwp_or_panic; [done|]. apply (H p (l :: us ++ [r])); [|done|by apply pa_group|done].
    cbn in G4. by rewrite app_nil_r in G4.
Qed.
End elements.

(** ** Literals *)

Lemma pattern_int_call s0 ts ids k s (Q : Z -> Parser -> Prop) :
  got s0 ts ids k s -> (0 <= k)%Z ->
  (forall n us s', got s0 (ts ++ us) ids k s' -> us <> [] -> gint us n -> Q n s') ->
  pwp expect_pattern_int Q (fails s0) s.
Proof.
  intros G Hk H.
  assert (forall ts1 ids1 s1 (Q1 : Z -> Parser -> Prop), got s0 ts1 ids1 k s1 ->
    (forall t n, kind t = KInt n -> (0 <= n < 2 ^ 63)%Z -> got s0 (ts1 ++ [t]) ids1 k (step s1) -> Q1 n (step s1)) ->
    pwp expect_int Q1 (fails s0) s1) as Hint.
  { intros ts1 ids1 s1 Q1 G1 H1. apply (r_expect_int _ _ _ (got_reads _ _ _ _ _ G1)). intros t n Hc Hkt Hn R1.
    eapply H1; [done|done|]. eapply got_less; [by eapply got_step|lia]. }
  apply pwp_bind, (g_eat _ _ _ _ _ G); [done| |].
  - intros m Hm Hkm G1. tok_kind Hkm. apply (got_less _ _ _ _ k) in G1; [|lia].
    apply pwp_bind, (r_peek _ _ _ (got_reads _ _ _ _ _ G1)). intros t Ht.
    assert (pwp (n ← expect_int; or_panic (neg_i64 n)) Q (fails s0) (step s)) as Hneg.
    { apply pwp_bind. eapply Hint; [exact G1|]. intros t' n Hkt Hn G2. rewrite <- app_assoc in G2.
      eapply pwp_or_panic; [unfold neg_i64; by rewrite (proj2 (Z.eqb_neq _ _)) by lia|].
      eapply H; [exact G2|done|]. by apply gi_neg. }
    destruct (kind t) eqn:Hkt; try exact Hneg.
    apply pwp_bind. eapply (g_advance _ _ _ _ _ G1); [done|by rewrite Hkt|]. intros G2. apply pwp_ret.
    rewrite <- app_assoc in G2. eapply H; [eapply got_less; [exact G2|lia]|done|]. by apply gi_min.
  - intros _ _ _. eapply Hint; [exact G|]. intros t n Hkt Hn G1. eapply H; [exact G1|done|]. by apply gi_pos.
Qed.

Lemma repr_some f : float_ok f -> is_Some (repr_float f).
Proof.
  intros Hf. destruct (is_finite f) eqn:E; [destruct (repr_names f Hf E) as (t & -> & _); by eexists|].
  unfold repr_float. by rewrite E.
Qed.
Lemma float_ok_neg f : float_ok f -> float_ok (F64.neg f).
Proof. unfold float_ok. by destruct f. Qed.

Section prims.
  Context (s : Parser) (Hs : stream_ok s) (top : bool).
  Abbreviation post := (elem_post (gprim top) s).

Lemma prim_done p ts s' : got s ts (pattern_ids p) 0 s' -> ts <> [] -> gprim top ts p -> post p s'.
Proof. intros G Hn Hp. by exists ts. Qed.

Lemma float_pattern_ok :
  (exists t, cur s = Some t /\ (is_float (kind t) = true \/
     (kind t = KMinus /\ is_float (from_option kind KEof (toks s !! (tpos s + 1))) = true))) ->
  pwp float_pattern post (fails s) s.
Proof.
  intros (t & Hc & Ht). pose proof (got_refl s Hs) as G.
  assert (forall neg ts s1 u f, got s ts [] 0 s1 -> cur s1 = Some u -> kind u = KFloat f -> glit (ts ++ [u]) (LFloat (if neg : bool then F64.neg f else f)) ->
    pwp (tok ← advance;
         match kind tok with
         | KFloat f =>
             let f := if neg then F64.neg f else f in
             a ← check KDotDot; b ← check KDotDotEq;
             if a || b then
               r ← or_panic (repr_float f);
               err (text "a range pattern takes integer bounds, found float " ++ r)
             else mret (PLiteral (LFloat f))
         | _ => or_panic None
         end) post (fails s) s1) as Hlast.
  { intros neg ts s1 u f G1 Hu Hf Hg. apply pwp_bind. eapply (g_advance _ _ _ _ _ G1); [done|by rewrite Hf|]. intros G2.
    pose proof (got_reads _ _ _ _ _ G2) as R2. rewrite Hf. cbn zeta.
    apply pwp_bind, (r_check _ _ _ R2). intros x Hx. apply pwp_bind, (r_check _ _ _ R2). intros y Hy.
    destruct (_ || _).
    - assert (float_ok (if neg then F64.neg f else f)) as Hfo.
      { pose proof (tok_ok_cur _ _ (rd_ok _ _ _ (got_reads _ _ _ _ _ G1)) Hu) as Ho. unfold tok_ok in Ho. rewrite Hf in Ho.
        destruct neg; [by apply float_ok_neg|done]. }
      destruct (repr_some _ Hfo) as [r Hr]. apply pwp_bind. eapply pwp_or_panic; [exact Hr|]. apply (r_err _ _ _ R2).
    - apply pwp_ret. eapply prim_done; [eapply got_less; [exact G2|lia]|by destruct ts|by constructor]. }
  unfold float_pattern. apply pwp_bind, (g_eat _ _ _ _ _ G); [done| |].
  - intros m Hm Hkm G1. tok_kind Hkm. assert (m = t) as -> by congruence. destruct Ht as [Ht|[_ Ht]]; [by rewrite Hkm in Ht|].
    cbn in G1. destruct (at_token (step s)) as [u Hu]; [apply (rd_ok _ _ _ (got_reads _ _ _ _ _ G1))|].
    assert (toks s !! (tpos s + 1) = Some u) as E by (rewrite Nat.add_1_r; exact Hu). rewrite E in Ht. cbn in Ht.
    destruct (kind u) eqn:Hku; try done. eapply (Hlast true [t] (step s) u); [eapply got_less; [exact G1|lia]|done|done|]. by apply gl_neg_float.
  - intros m Hm Hkm. assert (m = t) as -> by congruence. destruct Ht as [Ht|[Ht _]]; [|by rewrite Ht in Hkm].
    destruct (kind t) eqn:Hkt; try done. eapply (Hlast false [] s t); [exact G|done|done|]. by apply gl_float.
Qed.

Lemma int_pattern_ok : pwp int_pattern post (fails s) s.
Proof.
  pose proof (got_refl s Hs) as G. apply pwp_bind. eapply pattern_int_call; [exact G|done|].
  intros a ts s1 G1 Hn Ha. cbn in G1. pose proof (got_reads _ _ _ _ _ G1) as R1.
  apply pwp_bind, (r_check _ _ _ R1). intros x Hx.
  assert (forall op s2, cur s1 = Some op -> kind op = KDotDot \/ kind op = KDotDotEq -> got s (ts ++ [op]) [] 0 s2 ->
    pwp (e ← expect_pattern_int; mret (PRange a e (is_tok (kind x) KDotDotEq))) post (fails s) s2) as Hend.
  { intros op s2 Hop Hk G2. assert (x = op) as -> by congruence. apply pwp_bind. eapply pattern_int_call; [exact G2|done|].
    intros b us s3 G3 Hn' Hb. apply pwp_ret. rewrite <- app_assoc in G3. eapply prim_done; [exact G3|by destruct ts|].
    by apply q_range. }
  apply pwp_bind, (g_eat _ _ _ _ _ G1); [done| |].
  - intros op Hop Hk G2. tok_kind Hk. apply pwp_bind, pwp_ret. eapply Hend; [done|by left|]. eapply got_less; [exact G2|lia].
  - intros _ _ _. apply pwp_bind, (g_eat _ _ _ _ _ G1); [done| |].
    + intros op Hop Hk G2. tok_kind Hk. eapply Hend; [done|by right|]. eapply got_less; [exact G2|lia].
    + intros _ _ _. apply pwp_ret. eapply prim_done; [exact G1|done|]. by repeat constructor.
Qed.

(** A literal of one token. *)
Lemma one_token_ok t l :
  cur s = Some t -> kind t <> KEof -> glit [t] l -> pwp (advance;; mret (PLiteral l)) post (fails s) s.
Proof.
  intros Hc Hk Hg. pose proof (got_refl s Hs) as G. apply pwp_bind. eapply (g_advance _ _ _ _ _ G); [done|done|].
  intros G1. apply pwp_ret. eapply prim_done; [eapply got_less; [exact G1|lia]|done|]. by constructor.
Qed.
End prims.

(** ** Names and variants *)

Lemma ghead_snoc ps ns x t n : ghead ps ns -> kind x = KDot -> kind t = KIdent n -> ghead (ps ++ [x; t]) (ns ++ [n]).
Proof.
  intros H Hx Ht. destruct H; cbn; [constructor; by apply gpath_snoc|by repeat constructor|].
  apply gh_none_path; [done|done|]. by apply gpath_snoc.
Qed.
Lemma ghead_one ps n : ghead ps [n] -> exists t, ps = [t] /\ (kind t = KIdent n \/ (kind t = KNoneKw /\ n = text "None")).
Proof.
  inversion 1 as [? ? Hp|t Ht|? ? ? ? ? ? Hp]; simplify_eq.
  - inversion Hp as [t ? Ht|? ? ? ? ? ? ? Hp']; simplify_eq; [exists t; auto|inversion Hp'].
  - exists t. auto.
  - inversion Hp.
Qed.
Lemma ghead_some ps ns : ghead ps ns -> ps <> [] /\ ns <> [].
Proof. destruct 1 as [? ? []| |]; done. Qed.

Lemma split_enum ns : ns <> [] -> is_Some (split_head ns).1.2 <-> 2 <= length ns.
Proof.
  destruct ns as [|a [|b [|c ns]]]; cbn [split_head fst snd]; intros H; [done|..].
  - cbn. split; [by intros [? ?]|lia].
  - cbn. split; [lia|by eexists].
  - split; [cbn; lia|]. intros _.
    destruct (list.last (removelast (a :: b :: c :: ns))) eqn:E; [by eexists|].
    apply list.last_None in E. by destruct ns.
Qed.

Section named.
  Context (d : nat) (sub : PM Pattern).
  Context (Hsub : forall s, stream_ok s -> depth s = d -> pwp sub (elem_post (gpat false) s) (fails s) s).

Lemma dotted_call s0 ids k s ps ns (Q : list (list Z) -> Parser -> Prop) :
  got s0 ps ids k s -> (0 <= k)%Z -> ghead ps ns ->
  (forall ns' ps' s', got s0 ps' ids k s' -> ghead ps' ns' -> Q ns' s') ->
  pwp (dotted ns) Q (fails s0) s.
Proof.
  intros G Hk Hp H.
  apply (pwp_forever _ (fun ns s' => exists ps, got s0 ps ids k s' /\ ghead ps ns)); [by exists ps|].
  clear ps ns s G Hp. intros ns s1 (ps & G & Hp). split; [by eapply got_pos|].
  apply pwp_bind, (g_eat _ _ _ _ _ G); [done| |].
  - intros x Hx Hkx G1. tok_kind Hkx. apply pwp_bind, (g_expect_ident _ _ _ _ _ G1). intros t n Ht Hkt G2.
    apply pwp_ret. split; [|cbn; split; [lia|done]]. exists (ps ++ [x; t]). rewrite <- app_assoc in G2.
    split; [eapply got_less; [exact G2|lia]|by apply ghead_snoc].
  - intros _ _ _. apply pwp_ret. eauto.
Qed.

Lemma payload_call s0 ts ids k s (Q : list Pattern -> Parser -> Prop) :
  got s0 ts ids k s -> (0 <= k)%Z -> depth s = d ->
  (forall ps us r s', got s0 (ts ++ us ++ [r]) (ids ++ flat_map pattern_ids ps) k s' -> kind r = KRParen ->
     (us = [] /\ ps = []) \/ list_of (gpat false) us ps -> Q ps s') ->
  pwp (payload_patterns sub) Q (fails s0) s.
Proof.
  intros G Hk Hd H.
  assert (forall ps us s1, got s0 (ts ++ us) (ids ++ flat_map pattern_ids ps) k s1 ->
    (us = [] /\ ps = []) \/ list_of (gpat false) us ps -> pwp (expect KRParen;; mret ps) Q (fails s0) s1) as Hclose.
  { intros ps us s1 G1 Hl. apply pwp_bind, (g_expect _ _ _ _ _ G1); [done|]. intros r Hr Hkr G2. tok_kind Hkr.
    apply pwp_ret. rewrite <- app_assoc in G2. eapply H; [eapply got_less; [exact G2|lia]|done|done]. }
  apply pwp_bind, (r_check _ _ _ (got_reads _ _ _ _ _ G)). intros x Hx. apply pwp_bind. destruct (is_tok _ _).
  { apply pwp_ret. eapply (Hclose [] []); [cbn; by rewrite !app_nil_r|by left]. }
  apply (pwp_forever _ (fun ps s' => exists us, got s0 (ts ++ us) (ids ++ flat_map pattern_ids ps) k s' /\ depth s' = d /\
    ((us = [] /\ ps = []) \/ exists us' c, us = us' ++ [c] /\ kind c = KComma /\ list_of (gpat false) us' ps))).
  { exists []. cbn. rewrite !app_nil_r. auto. }
  clear s G Hd x Hx. intros ps s1 (us & G & Hd & Hps). split; [by eapply got_pos|].
  apply pwp_bind. eapply elem_call; [exact Hsub|exact G|done|done|]. intros p us1 s2 G1 Hn Hp Hlt Htk Hd2.
  rewrite <- !app_assoc, <- flat_ids_snoc in G1.
  assert (list_of (gpat false) (us ++ us1) (ps ++ [p])) as Hl.
  { destruct Hps as [[-> ->]|(us' & c & -> & Hc & Hps)]; [by constructor|]. rewrite <- app_assoc. by apply list_of_snoc. }
  apply pwp_bind, (g_eat _ _ _ _ _ G1); [done| |].
  - intros c Hc Hkc G2. tok_kind Hkc. apply pwp_ret. split; [|cbn; split; [lia|done]].
    exists ((us ++ us1) ++ [c]). split_and!; [|done|right; by exists (us ++ us1), c].
    rewrite <- app_assoc in G2. eapply got_less; [exact G2|lia].
  - intros _ _ _. apply pwp_ret. eapply Hclose; [exact G1|by right].
Qed.

Lemma variant_ids id ns ps : pattern_ids (variant_of id ns ps) = flat_map pattern_ids ps ++ [id].
Proof. unfold variant_of. by destruct (split_head ns) as [[? ?] ?]. Qed.

(** What a pattern without a payload is. *)
Lemma bare_head_ok top s t0 ps ns s1 :
  cur s = Some t0 -> got s ps [] 1 s1 -> ghead ps ns ->
  let '(name, enum_name, module_name) := split_head ns in
  pwp (if top || is_tok (kind t0) KNoneKw || bool_decide (is_Some enum_name) then
         id ← fresh; mret (PVariant id name [] enum_name module_name)
       else id ← fresh; mret (PIdent name (span t0) id)) (elem_post (gprim top) s) (fails s) s1.
Proof.
  intros Ht0 G1 Hh. destruct (ghead_some _ _ Hh) as [Hps Hns]. pose proof (split_enum ns Hns) as Henum.
  assert (forall n, ns = [n] -> ps = [t0] /\ (kind t0 = KIdent n \/ kind t0 = KNoneKw)) as Hone.
  { intros n ->. destruct (ghead_one _ _ Hh) as (t & -> & Ht).
    pose proof (got_first _ _ _ _ _ _ G1). assert (t0 = t) as -> by congruence. split; [done|]. tauto. }
  pose proof (fun id => variant_ids id ns []) as Hids. pose proof (q_variant top ps ns) as Hq. unfold variant_of in *.
  destruct (split_head ns) as [[name enum] module] eqn:Esplit. cbn in Henum.
  destruct (top || is_tok (kind t0) KNoneKw || bool_decide (is_Some enum)) eqn:Ecase.
  - apply pwp_bind. eapply (g_fresh _ _ _ _ _ G1); [lia|]. intros id s2 G2. apply pwp_ret.
    exists ps. split_and!; [rewrite Hids; exact G2|done|]. apply Hq; [done|].
    apply orb_prop in Ecase as [Ecase|Ecase]; [apply orb_prop in Ecase as [->|Ecase]; [by left|]|].
    + tok_kind Ecase. destruct (decide (2 <= length ns)) as [|Hlen]; [by right; left|]. right; right.
      destruct ns as [|m [|]]; [done| |cbn in Hlen; lia]. exists t0. by destruct (Hone m).
    + apply bool_decide_eq_true in Ecase. right; left. by apply Henum.
  - apply orb_false_elim in Ecase as [Ecase Hen]. apply orb_false_elim in Ecase as [-> Hnone].
    apply bool_decide_eq_false in Hen. rewrite Henum in Hen. destruct ns as [|m [|]]; [done| |cbn in Hen; lia].
    cbn in Esplit. simplify_eq. apply pwp_bind. eapply (g_fresh _ _ _ _ _ G1); [lia|]. intros id s2 G2. apply pwp_ret.
    destruct (Hone name eq_refl) as (-> & [Ht|Ht]); [|by rewrite Ht in Hnone].
    exists [t0]. split_and!; [exact G2|done|by apply q_name].
Qed.

(** The rest of a pattern after its first name. *)
Lemma head_tail_ok top s t0 n s1 :
  cur s = Some t0 -> depth s = d -> got s [t0] [] 1 s1 -> ghead [t0] [n] ->
  pwp (segments ← dotted [n];
       let '(name, enum_name, module_name) := split_head segments in
       l ← eat KLParen;
       if l then
         bindings ← payload_patterns sub;
         id ← fresh; mret (PVariant id name bindings enum_name module_name)
       else if top || is_tok (kind t0) KNoneKw || bool_decide (is_Some enum_name) then
         id ← fresh; mret (PVariant id name [] enum_name module_name)
       else id ← fresh; mret (PIdent name (span t0) id)) (elem_post (gprim top) s) (fails s) s1.
Proof.
  intros Ht0 Hd G1 Hh. apply pwp_bind. eapply dotted_call; [exact G1|done|exact Hh|]. clear n s1 G1 Hh.
  intros ns ps s1 G1 Hh. destruct (ghead_some _ _ Hh) as [Hps Hns].
  pose proof (bare_head_ok top s t0 ps ns s1 Ht0 G1 Hh) as Hbare.
  pose proof (fun id bs => variant_ids id ns bs) as Hids.
  pose proof (q_unit top ps ns) as Hu. pose proof (q_payload top ps ns) as Hp. unfold variant_of in *.
  destruct (split_head ns) as [[name enum] module] eqn:Esplit.
  apply pwp_bind, (g_eat _ _ _ _ _ G1); [done| |done].
  intros l Hl Hkl G2. tok_kind Hkl. apply pwp_bind.
  eapply payload_call; [exact G2|lia|cbn; by rewrite (got_depth _ _ _ _ _ G1)|]. intros bs us r s2 G3 Hr Hlist.
  apply pwp_bind. eapply (g_fresh _ _ _ _ _ G3); [lia|]. intros id s3 G4. apply pwp_ret.
  rewrite <- app_assoc in G4. exists (ps ++ l :: us ++ [r]). split_and!; [|by destruct ps|].
  - rewrite Hids. eapply got_less; [exact G4|lia].
  - destruct Hlist as [[-> ->]|Hlist]; [by apply Hu|by apply Hp].
Qed.

Lemma named_pattern_ok top s :
  stream_ok s -> depth s = d -> pwp (named_pattern sub top) (elem_post (gprim top) s) (fails s) s.
Proof.
  intros Hs Hd. pose proof (got_refl s Hs) as G. pose proof (got_reads _ _ _ _ _ G) as R.
  apply pwp_bind, (r_cur_span _ _ _ R). intros t0 Ht0. apply pwp_bind, (r_check _ _ _ R). intros t1 Ht1.
  assert (t1 = t0) as -> by congruence. apply pwp_bind, pwp_bind, (g_eat _ _ _ _ _ G); [done| |].
  - intros t Ht Hk G1. tok_kind Hk. assert (t = t0) as -> by congruence. apply pwp_ret.
    eapply head_tail_ok; [done|done|exact G1|by constructor].
  - intros _ _ _. apply (g_expect_ident _ _ _ _ _ G). intros t n Ht Hk G1. assert (t = t0) as -> by congruence.
    eapply head_tail_ok; [done|done|exact G1|]. by repeat constructor.
Qed.
End named.

(** ** Carriers *)

Definition tagged : list CarrierTag -> list Tok -> Prop := Forall2 (fun tag t => carrier_tag (kind t) = Some tag).

Lemma carrier_tags_ok s (Q : list CarrierTag -> Parser -> Prop) :
  stream_ok s ->
  (forall tags ts t s', got s ts [] (Z.of_nat (length tags)) s' -> tagged tags ts -> cur s' = Some t ->
     carrier_tag (kind t) = None -> Q tags s') ->
  pwp carrier_tags Q (fails s) s.
Proof.
  intros Hs H.
  apply (pwp_forever _ (fun tags s' => exists ts, got s ts [] (Z.of_nat (length tags)) s' /\ tagged tags ts)).
  { exists []. split; [by apply got_refl|constructor]. }
  intros tags s1 (ts & G & Ht). split; [by eapply got_pos|].
  apply pwp_bind, (r_peek _ _ _ (got_reads _ _ _ _ _ G)). intros t Hc.
  destruct (carrier_tag (kind t)) as [tag|] eqn:E; [|by eapply pwp_ret, H].
  apply pwp_bind. eapply (g_advance _ _ _ _ _ G); [done|intros Hk; by rewrite Hk in E|]. intros G1. apply pwp_ret.
  split; [|cbn; split; [lia|done]]. exists (ts ++ [t]). split; [|apply Forall2_app; [done|by repeat constructor]].
  rewrite length_app. cbn. eapply got_less; [exact G1|lia].
Qed.

Lemma wrap_carriers_ok s tags ts us pat s1 :
  tagged tags ts -> gprim false us pat -> us <> [] -> got s (ts ++ us) (pattern_ids pat) (Z.of_nat (length tags)) s1 ->
  pwp (wrap_carriers (rev tags) pat)
    (fun p s' => got s (ts ++ us) (pattern_ids p) 0 s' /\ (tags = [] -> p = pat) /\
       forall top, tags <> [] \/ top = false -> gprim top (ts ++ us) p) (fails s) s1.
Proof.
  revert ts us pat s1. induction tags as [|tag tags IH] using rev_ind; intros ts us pat s1 Ht Hp Hn G.
  - inversion Ht. subst. apply pwp_ret. split_and!; [done|done|]. intros top [| ->]; done.
  - apply Forall2_app_inv_l in Ht as (ts' & ts2 & Ht & Hlast & ->).
    inversion Hlast as [|? t ? ? Htag Hnil]; subst. inversion Hnil; subst. rewrite rev_app_distr. cbn [rev app wrap_carriers].
    rewrite length_app in G. cbn in G. rewrite <- app_assoc in G.
    apply pwp_bind. eapply (g_fresh _ _ _ _ _ G); [lia|]. intros id s2 G1.
    eapply pwp_mono; [apply (IH ts' (t :: us) (PCarrier tag pat id))| |done].
    + done.
    + by apply q_carrier.
    + done.
    + cbn. eapply got_less; [exact G1|lia].
    + intros p s3 (G3 & Hnil' & Hg). rewrite <- app_assoc. split_and!; [done|by destruct tags|].
      intros top _. destruct tags as [|]; [|by apply Hg; left].
      inversion Ht; subst. rewrite (Hnil' eq_refl). by apply q_carrier.
Qed.

(** ** Primaries *)

Section primaries.
  Context (d : nat) (sub : PM Pattern).
  Context (Hsub : forall s, stream_ok s -> depth s = d -> pwp sub (elem_post (gpat false) s) (fails s) s).

Lemma carrier_pattern_ok prim top s t tag :
  stream_ok s -> depth s = d -> cur s = Some t -> carrier_tag (kind t) = Some tag ->
  (forall s u, stream_ok s -> depth s = d -> cur s = Some u -> carrier_tag (kind u) = None ->
     pwp prim (elem_post (gprim false) s) (fails s) s) ->
  pwp (carrier_pattern sub prim) (elem_post (gprim top) s) (fails s) s.
Proof.
  intros Hs Hd Hc Htag Hprim. apply pwp_bind. apply carrier_tags_ok; [done|]. intros tags ts u s1 G Ht Hu Hnone.
  assert (tags <> []) as Hne.
  { intros ->. inversion Ht; subst. pose proof (rd_pos _ _ _ (got_reads _ _ _ _ _ G)) as Hp.
    unfold cur in Hu. rewrite (reads_toks _ _ _ (got_reads _ _ _ _ _ G)), Hp in Hu. cbn in Hu. rewrite Nat.add_0_r in Hu.
    unfold cur in Hc. congruence. }
  assert (forall pat us s2, got s (ts ++ us) ([] ++ pattern_ids pat) (Z.of_nat (length tags)) s2 -> us <> [] ->
    gprim false us pat -> pwp (wrap_carriers (rev tags) pat) (elem_post (gprim top) s) (fails s) s2) as Hwrap.
  { intros pat us s2 G2 Hn Hp. eapply pwp_mono; [by apply (wrap_carriers_ok s tags ts us pat s2)| |done].
    intros p s3 (G3 & _ & Hg). exists (ts ++ us). split_and!; [done|by destruct ts, us|]. apply Hg. by left. }
  assert (depth s1 = d) as Hd1 by by rewrite (got_depth _ _ _ _ _ G).
  apply pwp_bind, (r_check _ _ _ (got_reads _ _ _ _ _ G)). intros x Hx. apply pwp_bind. destruct (is_tok _ _) eqn:E.
  - eapply paren_call; [exact Hsub|exact G|lia|done|]. intros p us s2 G2 Hn Hp _.
    eapply Hwrap; [eapply got_less; [exact G2|lia]|done|by apply q_tuple].
  - eapply (r_call s ts s1 (got_reads _ _ _ _ _ G)); [eapply Hprim; [apply (got_reads _ _ _ _ _ G)|done|exact Hu|done]|].
    intros p s2 (us & G2 & Hn & Hp). eapply Hwrap; [|exact Hn|exact Hp].
    rewrite <- (Z.add_0_r (Z.of_nat _)). eapply got_trans; [exact G|exact G2|lia].
Qed.

Lemma primary_body_ok prim top s :
  stream_ok s -> depth s = d ->
  (forall t, cur s = Some t -> carrier_tag (kind t) <> None ->
     pwp (carrier_pattern sub prim) (elem_post (gprim top) s) (fails s) s) ->
  pwp (primary_body sub prim top) (elem_post (gprim top) s) (fails s) s.
Proof.
  intros Hs Hd Hcar. pose proof (got_refl s Hs) as G. pose proof (got_reads _ _ _ _ _ G) as R.
  apply pwp_bind, (r_peek _ _ _ R). intros t Hc. apply pwp_bind, pwp_peek_at.
  pose proof (named_pattern_ok d sub Hsub top s Hs Hd) as Hnamed.
  destruct (kind t) as [| | |lit| | |name| | | | | | | | | | | | | | | | | | | | | | | | | | | | | | | | | | | | | | | | | | | | | | | | | | | | | | | | | | | | | | | | | | | | | | | | | | | | | | | | | | | | | | |] eqn:Hk; try exact Hnamed; try (eapply one_token_ok; [done|exact Hc|by rewrite Hk|by constructor]).
  - by apply int_pattern_ok.
  - apply float_pattern_ok; [done|]. exists t. rewrite Hk. auto.
  - destruct (plain lit) eqn:Hpl; [|apply (r_err _ _ _ R)].
    eapply one_token_ok; [done|exact Hc|by rewrite Hk|by eapply gl_str].
  - destruct (is_blank_name name && _) eqn:Eb; [|exact Hnamed]. apply andb_prop in Eb as [Eb _].
    apply bool_decide_eq_true in Eb as ->. apply pwp_bind. eapply (g_advance _ _ _ _ _ G); [done|by rewrite Hk|].
    intros G1. apply pwp_ret. exists [t]. split_and!; [eapply got_less; [exact G1|lia]|done|by apply q_blank].
  - destruct (is_float _) eqn:Ef; [|by apply int_pattern_ok]. apply float_pattern_ok; [done|]. exists t. auto.
  - apply Hcar with t; [done|]. by rewrite Hk.
  - apply Hcar with t; [done|]. by rewrite Hk.
  - eapply paren_call; [exact Hsub|exact (got_refl s Hs)|done|done|].
    intros p us s2 G2 Hn Hp _. exists us. split_and!; [eapply got_less; [exact G2|lia]|done|by apply q_tuple].
Qed.

Lemma primary_ok top s : stream_ok s -> depth s = d ->
  pwp (parse_pattern_primary 2 sub top) (elem_post (gprim top) s) (fails s) s.
Proof.
  intros Hs Hd. apply primary_body_ok; [done|done|]. intros t Hc Htag.
  destruct (carrier_tag (kind t)) as [tag|] eqn:E; [|done].
  eapply carrier_pattern_ok; [done|done|exact Hc|exact E|]. intros s1 u Hs1 Hd1 Hu Hnone.
  apply primary_body_ok; [done|done|]. intros u' Hu'. congruence.
Qed.
End primaries.

(** ** Alternatives and the recursion *)

Lemma set_depth_frame s n : stream_ok s -> stream_ok (set_depth n s) /\ same_frame s (set_depth n s).
Proof. intros []. split; by split. Qed.

(** What a method reads one level down it reads. *)
Lemma got_down s ts ids k s' n :
  got (set_depth n s) ts ids k s' -> got s ts ids k (set_depth (depth s) s').
Proof.
  intros [R D F A]. split; [|done|done|done]. destruct R as [[] [] P T]. split; [by split|by split|done|done].
Qed.
Lemma fails_down s n e s' : fails (set_depth n s) e s' -> fails s e s'.
Proof. intros (Hf & Ho & Ht). split; [|by split]. by destruct Hf; split. Qed.
Lemma pwp_depth_down s n (Q : unit -> Parser -> Prop) F :
  depth s = S n -> Q tt (set_depth n s) -> pwp depth_down Q F s.
Proof. intros E H. apply pwp_bind, pwp_get, pwp_bind. rewrite E. by eapply pwp_or_panic; [done|]. Qed.

Lemma pattern_at_ok n top s :
  stream_ok s -> depth s <= MAX_DEPTH -> MAX_DEPTH < depth s + n ->
  pwp (parse_pattern_at n top) (elem_post (gpat top) s) (fails s) s.
Proof.
  revert top s. induction n as [|n IH]; intros top s Ho Hd Hn; [lia|]. cbn [parse_pattern_at].
  apply pwp_bind, pwp_modify, pwp_bind, pwp_get. cbn [depth set_depth].
  destruct (set_depth_frame s (S (depth s)) Ho) as [Ho1 Hf1]. set (s1 := set_depth (S (depth s)) s) in *.
  destruct (MAX_DEPTH <? S (depth s)) eqn:E; [by apply pwp_err|]. apply Nat.ltb_ge in E. cbn zeta.
  assert (forall s', stream_ok s' -> depth s' = S (depth s) ->
    pwp (parse_pattern_at n false) (elem_post (gpat false) s') (fails s') s') as Hsub.
  { intros s' Ho' Hd'. apply IH; [done|lia|lia]. }
  pose proof (primary_ok _ _ Hsub top) as Hprim.
  eapply pwp_mono; [|intros p s2 H; exact H|intros e s2; apply (fails_down s (S (depth s)))].
  apply pwp_bind. eapply (elem_call _ _ _ Hprim); [by apply got_refl|done|done|]. intros first us s2 G Hne Hp _ _ Hd2.
  apply pwp_bind.
  apply (pwp_forever _ (fun alts s' => exists us, got s1 us (flat_map pattern_ids alts) 0 s' /\ us <> [] /\
    depth s' = S (depth s) /\ galts top us alts)).
  { exists us. cbn in *. rewrite app_nil_r. split_and!; try done. by constructor. }
  clear first us s2 G Hne Hp Hd2. intros alts s2 (us & G & Hne & Hd2 & Ha). split; [by eapply got_pos|].
  apply pwp_bind, (g_eat _ _ _ _ _ G); [done| |].
  - intros b Hb Hk G1. tok_kind Hk. apply pwp_bind. eapply (elem_call _ _ _ Hprim); [exact G1|done|done|].
    intros p us' s3 G2 Hne' Hp Hlt Htk Hd3. cbn in Hlt, Htk. apply pwp_ret. split; [|split; [lia|done]].
    exists (us ++ b :: us'). rewrite flat_ids_snoc. rewrite <- app_assoc in G2.
    split_and!; [eapply got_less; [exact G2|lia]|by destruct us|done|by apply galts_snoc].
  - intros _ _ _. apply pwp_ret.
    assert (forall p, gpat top us p -> pattern_ids p = flat_map pattern_ids alts ->
      pwp (depth_down;; mret p) (elem_post (gpat top) s) (fails s1) s2) as Hend.
    { intros p Hp Eids. apply pwp_bind. eapply pwp_depth_down; [exact Hd2|]. apply pwp_ret. exists us.
      rewrite Eids. split_and!; [by eapply got_down|done|done]. }
    apply pwp_bind. destruct Ha as [? ts p Hp|? ts p b us' ps Hp Hb Ha]; cbn [length].
    + eapply pwp_or_panic; [done|]. apply Hend; [by constructor|]. cbn. by rewrite app_nil_r.
    + assert ((S (length ps) =? 1) = false) as -> by (by destruct Ha). apply pwp_ret, Hend; [by apply g_or|done].
Qed.

Lemma pattern_spec top s :
  stream_ok s -> depth s <= MAX_DEPTH -> pwp (parse_pattern_at (S MAX_DEPTH) top) (elem_post (gpat top) s) (fails s) s.
Proof. intros Ho Hd. apply pattern_at_ok; [done|done|lia]. Qed.

(** C18: the pattern parser is total and sound. Take a stream that ends in [Eof] and whose number
    tokens are such as the lexer makes: an [Int] in [0, 2^63), so that its negation cannot overflow,
    and a [Float] that is a machine float (every lexed file is such a stream, [lexed_stream_ok]).  With
    the cursor anywhere inside it and the depth within its limit, the parser returns: it never
    panics, so its [unreachable!]s, its [expect]s and the negation of a literal are safe, and it never
    loops. An error points at a token of the stream. A pattern that it returns derives, in the
    grammar of patterns, from exactly the tokens it consumed; the depth is restored; and while the
    counter has a number left for each token, the identities in the pattern are pairwise distinct
    and new. *)
Theorem pattern_parse_sound s :
  tpos s < length (toks s) -> (exists t, list.last (toks s) = Some t /\ kind t = KEof) ->
  Forall (fun t => match kind t with KInt n => (0 <= n < 2 ^ 63)%Z | KFloat f => float_ok f | _ => True end) (toks s) ->
  depth s <= MAX_DEPTH ->
  match parse_pattern s with
  | Ret p s' =>
      (exists ts, reads s ts s' /\ ts <> [] /\ gpat true ts p) /\ depth s' = depth s /\ fold_depth s' = fold_depth s /\
      (room s -> NoDup (pattern_ids p) /\ Forall (fun i => next_id s <= i < next_id s')%Z (pattern_ids p))
  | Fail e s' => toks s' = toks s /\ exists t, t ∈ toks s /\ pe_span e = span t
  | Panic | Spin => False
  end.
Proof.
  intros Hpos He Htoks Hd. pose proof (pattern_spec true s (Build_stream_ok s Hpos He Htoks) Hd) as H. unfold pwp, parse_pattern in *.
  destruct (parse_pattern_at (S MAX_DEPTH) true s) as [p s'|e s'| |]; try done.
  - destruct H as (ts & [R D Fo A] & Hn & Hp). split_and!; [by exists ts|done|done|].
    intros Hr. destruct (A Hr) as (? & ? & _). done.
  - destruct H as (Hf & _ & Ht). split; [apply (sf_toks _ _ Hf)|done].
Qed.

(** ** A chain of carriers *)

Module Carriers.
Definition mark (k : Token) : Tok := mkTok k (mkSpan 1 1 0) None.
(** [??…?x] with [n] question marks. *)
Definition chain (n : nat) : list Tok := replicate n (mark KQuestion) ++ [mark (KIdent (text "x")); mark KEof].
Definition start (n : nat) : Parser := new_parser (chain n) [] 1.

Lemma chain_length n : length (chain n) = n + 2.
Proof. unfold chain. by rewrite length_app, length_replicate. Qed.
Lemma chain_mark n j : j < n -> chain n !! j = Some (mark KQuestion).
Proof. intros H. unfold chain. rewrite lookup_app_l by by rewrite length_replicate. by apply lookup_replicate_2. Qed.
Lemma chain_end n j : chain n !! (n + j) = [mark (KIdent (text "x")); mark KEof] !! j.
Proof. unfold chain. rewrite lookup_app_r by (rewrite length_replicate; lia). rewrite length_replicate. f_equal. lia. Qed.

Lemma chain_name n : chain n !! n = Some (mark (KIdent (text "x"))).
Proof. pose proof (chain_end n 0) as H. by rewrite Nat.add_0_r in H. Qed.
Lemma chain_eof n : chain n !! S n = Some (mark KEof).
Proof. pose proof (chain_end n 1) as H. by rewrite Nat.add_1_r in H. Qed.

Lemma chain_ok n s : toks s = chain n -> tpos s < n + 2 -> stream_ok s.
Proof.
  intros E H. split; rewrite E; [by rewrite chain_length| |].
  - exists (mark KEof). split; [|done]. unfold chain. by rewrite list.last_app.
  - apply Forall_app. split; [by apply Forall_replicate|]. by repeat constructor.
Qed.

(** The state after the marks, where only the name is left. *)
Definition at_name (n : nat) (s : Parser) : Prop := toks s = chain n /\ tpos s = n /\ depth s = 1.

Lemma tags_run n s :
  toks s = chain n -> tpos s = 0 -> depth s = 1 ->
  pwp carrier_tags (fun tags s' => tags = replicate n TagPresent /\ at_name n s') never s.
Proof.
  intros E Hp Hd.
  apply (pwp_forever _ (fun tags s' => toks s' = chain n /\ tpos s' <= n /\ depth s' = 1 /\ tags = replicate (tpos s') TagPresent)).
  { rewrite Hp. split_and!; try done. lia. }
  clear s E Hp Hd. intros tags s (E & Hp & Hd & ->). pose proof (chain_ok n s E ltac:(lia)) as Ho. split; [apply Ho|].
  apply pwp_bind, (pwp_peek s Ho). intros t Ht. unfold cur in Ht. rewrite E in Ht.
  destruct (decide (tpos s < n)) as [Hlt|Hge].
  - rewrite chain_mark in Ht by done. simplify_eq. cbn [carrier_tag kind mark]. apply pwp_bind.
    eapply (pwp_advance s Ho); [unfold cur; by rewrite E, chain_mark|done|]. intros _. apply pwp_ret. cbn.
    split_and!; try done; try lia. by rewrite <- replicate_S_end.
  - assert (tpos s = n) as Hn by lia. rewrite Hn, chain_name in Ht. injection Ht as <-. apply pwp_ret. by rewrite Hn.
Qed.

(** The name after the marks binds. *)
Lemma name_run n sub prim s :
  at_name n s ->
  pwp (primary_body sub prim false)
    (fun p s' => pattern_nest p = 1 /\ toks s' = chain n /\ tpos s' = S n /\ depth s' = 1) never s.
Proof.
  intros (E & Hp & Hd). pose proof (chain_ok n s E ltac:(lia)) as Ho.
  assert (cur s = Some (mark (KIdent (text "x")))) as Hc by (unfold cur; rewrite E, Hp; apply chain_name).
  assert (forall t, cur s = Some t -> t = mark (KIdent (text "x"))) as Hx by (intros t Ht; congruence).
  apply pwp_bind, (pwp_peek s Ho). intros t ->%Hx. cbn [kind mark]. apply pwp_bind, pwp_peek_at.
  change (is_blank_name (text "x")) with false. cbn [andb]. unfold named_pattern.
  apply pwp_bind, (pwp_cur_span s Ho). intros t ->%Hx. apply pwp_bind, (pwp_check s Ho). intros t ->%Hx.
  apply pwp_bind, pwp_bind, (pwp_eat s Ho); [done|by intros t ->%Hx|]. intros t _ _.
  eapply (pwp_expect_ident_hit s Ho); [exact Hc|done|]. intros _.
  pose proof (chain_ok n (step s) E ltac:(cbn; lia)) as Ho1.
  assert (forall t, cur (step s) = Some t -> t = mark KEof) as He.
  { intros t1. unfold cur. cbn. rewrite E, Hp, chain_eof. congruence. }
  apply pwp_bind. apply (pwp_forever _ (fun segs s' => segs = [text "x"] /\ s' = step s)); [done|].
  intros segs s1 [-> ->]. split; [apply Ho1|]. apply pwp_bind, (pwp_eat _ Ho1); [done|by intros t1 ->%He|]. intros t1 _ _.
  apply pwp_ret. cbn [split_head]. apply pwp_bind, (pwp_eat _ Ho1); [done|by intros t2 ->%He|]. intros t2 _ _.
  change (is_tok (KIdent (text "x")) KNoneKw) with false. cbn [orb]. rewrite bool_decide_false by (by intros [? ?]).
  apply pwp_bind, pwp_bind, pwp_get, pwp_bind, pwp_modify, pwp_ret, pwp_ret. cbn. rewrite Hp. done.
Qed.

Lemma wrap_run n tags pat s :
  toks s = chain n -> tpos s = S n -> depth s = 1 ->
  pwp (wrap_carriers tags pat)
    (fun p s' => pattern_nest p = length tags + pattern_nest pat /\ toks s' = chain n /\ tpos s' = S n /\ depth s' = 1) never s.
Proof.
  revert pat s. induction tags as [|tag tags IH]; intros pat s E Hp Hd; [by apply pwp_ret|]. cbn [wrap_carriers].
  apply pwp_bind, pwp_bind, pwp_get, pwp_bind, pwp_modify, pwp_ret. eapply pwp_mono; [by apply IH| |done].
  cbn. intros p s' (-> & H). split; [lia|done].
Qed.

(** The whole chain is one pattern. *)
Lemma first_level : (MAX_DEPTH <? 1) = false.
Proof. reflexivity. Qed.
Lemma chain_run m n : pwp (parse_pattern_at (S m) true) (fun p _ => pattern_nest p = S (S n)) never (start (S n)).
Proof.
  cbn [parse_pattern_at]. apply pwp_bind, pwp_modify, pwp_bind, pwp_get. cbn [depth set_depth start new_parser].
  rewrite first_level. set (s := set_depth 1 (start (S n))). cbn zeta. apply pwp_bind.
  pose proof (chain_ok (S n) s eq_refl ltac:(cbn; lia)) as Ho. cbn [parse_pattern_primary].
  apply pwp_bind, (pwp_peek s Ho). intros t Ht. unfold cur in Ht. cbn in Ht. simplify_eq. cbn [kind mark].
  apply pwp_bind, pwp_peek_at. apply pwp_bind. eapply pwp_mono; [by apply (tags_run (S n))| |done].
  intros tags s1 [-> Hat]. pose proof Hat as (E1 & Hp1 & Hd1). pose proof (chain_ok (S n) s1 E1 ltac:(lia)) as Ho1.
  apply pwp_bind, (pwp_check s1 Ho1). intros t Ht. unfold cur in Ht. rewrite E1, Hp1, chain_name in Ht. injection Ht as <-.
  change (is_tok (kind (mark (KIdent (text "x")))) KLParen) with false. apply pwp_bind.
  eapply pwp_mono; [by apply (name_run (S n))| |done]. intros p s2 (Hn & E2 & Hp2 & Hd2).
  eapply pwp_mono; [by apply (wrap_run (S n))| |done]. intros q s3 (Hq & E3 & Hp3 & Hd3).
  rewrite length_rev, length_replicate, Hn in Hq. apply pwp_bind.
  apply (pwp_forever _ (fun alts s' => alts = [q] /\ s' = s3)); [done|].
  pose proof (chain_ok (S n) s3 E3 ltac:(lia)) as Ho3. intros alts s4 [-> ->]. split; [apply Ho3|].
  apply pwp_bind, (pwp_eat s3 Ho3); [done| |].
  - intros t Ht. unfold cur in Ht. rewrite E3, Hp3, chain_eof in Ht. by simplify_eq.
  - intros t _ _. apply pwp_ret, pwp_bind. eapply pwp_or_panic; [done|]. apply pwp_bind.
    eapply pwp_depth_down; [exact Hd3|]. apply pwp_ret. lia.
Qed.
End Carriers.

(** The depth limits do not bound patterns. For every [n] there is a source of [n + 3] tokens,
    nested at no call deeper than the first, on which the pattern parser returns a pattern nested
    [n + 2] deep: the loop over the [?] and [!] of a carrier is charged to neither depth counter, so
    the walkers that recurse over patterns get trees deeper than [MAX_AST_DEPTH]. *)
Lemma pattern_depth_unbounded n :
  exists p s', length (Carriers.chain (S n)) = n + 3 /\
    parse_pattern (Carriers.start (S n)) = Ret p s' /\ pattern_nest p = n + 2.
Proof.
  pose proof (Carriers.chain_run MAX_DEPTH n) as H. unfold pwp in H. fold parse_pattern in H.
  destruct (parse_pattern (Carriers.start (S n))) as [p s'|e s'| |]; [|done..]. exists p, s'.
  split_and!; [rewrite Carriers.chain_length; lia|done|lia].
Qed.

Lemma pattern_parse_sound_witness :
  exists p s', parse_pattern (Carriers.start 3) = Ret p s' /\ NoDup (pattern_ids p) /\ pattern_ids p = [1; 2; 3; 4]%Z.
Proof.
  destruct (Carriers.chain_ok 3 (Carriers.start 3) eq_refl ltac:(cbn; lia)) as [Hp He Ht].
  pose proof (pattern_parse_sound (Carriers.start 3) Hp He Ht ltac:(cbn; lia)) as H.
  destruct (parse_pattern (Carriers.start 3)) as [p s'|e s'| |] eqn:E; [|vm_compute in E; discriminate..].
  exists p, s'. split; [done|]. destruct H as (_ & _ & _ & Hr). split; [apply Hr; split; cbn; lia|].
  vm_compute in E. by simplify_eq.
Defined.
