(* ===== verification/BindTarget.v ===== *)
(** * Binding targets: [src/src/parser/pattern.rs]

    The targets of [:=], [for] and comprehensions.  The speculative read of [<target> :=] either
    commits to a target that binds each name once, or leaves the cursor and both depth counters
    where they were ([walrus_target_speculates]); a loop target is read the same way
    ([loop_target_binds_once]). *)

From stdpp Require Import strings.
From S2P Require Import Prelude Consteval Slice Decimal FmtSpec FloatText Token Syntax Cursor CursorWp ParseType.
From S2P Require Import TypeGrammar TypeAccept ParsePattern PatternGrammar.
Local Open Scope nat_scope.
Local Open Scope chz_scope.
Local Open Scope parse_scope.

(** ** The grammar *)

(** [<bindElem>]: a name, a blank, or a parenthesized list. *)
Inductive gbind : list Tok -> Pattern -> Prop :=
| gb_name t n id : kind t = KIdent n -> n <> text "_" -> gbind [t] (PIdent n (span t) id)
| gb_blank t : kind t = KIdent (text "_") -> gbind [t] PWildcard
| gb_paren ts p : paren_of gbind ts p -> gbind ts p.

(** A whole target: a comma list, or one element that is no tuple. *)
Definition gtarget (ts : list Tok) (p : Pattern) : Prop :=
  (exists ps, tail_of gbind ts ps true /\ p = PTuple ps) \/ (gbind ts p /\ is_tuple p = false).

(** The names of a pattern. *)
Definition bound_names (p : Pattern) : list (list Z) := from_option (fun l => l.*1) [] (binders p).

(** ** Repeated names *)

Lemma repeated_none seen names : repeated seen names = None -> NoDup (names.*1) /\ Forall (fun n => n ∉ seen) (names.*1).
Proof.
  revert seen. induction names as [|[n sp] names IH]; intros seen; cbn; [by repeat constructor|].
  destruct (bool_decide_reflect (n ∈ seen)) as [|Hn]; [done|]. intros [Hd Hf]%IH.
  rewrite list.Forall_forall in Hf. split.
  - constructor; [|done]. intros Hin. apply (Hf n Hin). apply elem_of_app. right. by left.
  - constructor; [done|]. apply list.Forall_forall. intros m Hm Hs. apply (Hf m Hm). apply elem_of_app. by left.
Qed.
Lemma repeated_some seen names n sp : repeated seen names = Some (n, sp) -> (n, sp) ∈ names.
Proof.
  revert seen. induction names as [|[m sp'] names IH]; intros seen; cbn; [done|].
  case_bool_decide; intros H'; [simplify_eq; by left|right; by eapply IH].
Qed.

(** ** The positions of the names *)

Lemma list_of_each (E : list Tok -> Pattern -> Prop) ts ps :
  list_of E ts ps -> Forall (fun p => exists us, us `sublist_of` ts /\ E us p) ps.
Proof.
  induction 1 as [ts p H|ts p c us ps H Hc _ IH]; [by repeat constructor; exists ts|]. constructor.
  - exists ts. split; [|done]. by apply sublist_inserts_r.
  - revert IH. apply Forall_impl. intros q (vs & Hs & Hq). exists vs. split; [|done].
    apply sublist_inserts_l. by apply sublist_cons.
Qed.
Lemma paren_of_each (E : list Tok -> Pattern -> Prop) ts p :
  paren_of E ts p ->
  (exists us, us `sublist_of` ts /\ length us < length ts /\ E us p) \/
  (exists ps, p = PTuple ps /\ Forall (fun q => exists us, us `sublist_of` ts /\ length us < length ts /\ E us q) ps).
Proof.
  assert (forall l us r, us `sublist_of` (l :: us ++ [r] : list Tok) /\ length us < length (l :: us ++ [r])) as Hin.
  { intros l us r. split; [apply sublist_cons; by apply sublist_inserts_r|]. cbn. rewrite length_app. cbn. lia. }
  assert (forall l vs r ps, Forall (fun q => exists us, us `sublist_of` vs /\ E us q) ps ->
    Forall (fun q => exists us, us `sublist_of` (l :: vs ++ [r]) /\ length us < length (l :: vs ++ [r]) /\ E us q) ps) as Hup.
  { intros l vs r ps. apply Forall_impl. intros q (us & Hs & Hq). exists us. destruct (Hin l vs r) as [H1 H2].
    split_and!; [by etrans|apply sublist_length in Hs; lia|done]. }
  destruct 1 as [l ts p r Hl Hp Hr|l ts p c us ps r Hl Hp Hc Hps Hr|l ts ps c r Hl Hps Hc Hr].
  - left. exists ts. by destruct (Hin l ts r).
  - right. exists (p :: ps). split; [done|]. apply Hup. apply (list_of_each E). by constructor.
  - right. exists ps. split; [done|]. apply Hup. pose proof (list_of_each E _ _ Hps) as H. revert H. apply Forall_impl.
    intros q (us & Hs & Hq). exists us. split; [|done]. by apply sublist_inserts_r.
Qed.

(** Each name stands at a token of the target. *)
Lemma gbind_spans ts p : gbind ts p -> Forall (fun q => exists n t id, q = PIdent n (span t) id /\ t ∈ ts) (bare_names p).
Proof.
  assert (forall m ts p, length ts < m -> gbind ts p ->
    Forall (fun q => exists n t id, q = PIdent n (span t) id /\ t ∈ ts) (bare_names p)) as H; [|intros Hg; apply (H (S (length ts))); [lia|done]].
  induction m as [|m IH]; intros us q Hlt Hg; [lia|].
  destruct Hg as [t n id Ht Hn|t Ht|us q Hp].
  - repeat constructor. exists n, t, id. split; [done|]. by left.
  - constructor.
  - assert (forall vs r, vs `sublist_of` us -> length vs < length us -> gbind vs r ->
      Forall (fun q => exists n t id, q = PIdent n (span t) id /\ t ∈ us) (bare_names r)) as Hsub.
    { intros vs r Hs Hl Hg. specialize (IH vs r ltac:(lia) Hg). revert IH. apply Forall_impl.
      intros x (n & t & id & -> & Hin). exists n, t, id. split; [done|]. by eapply elem_of_sublist. }
    destruct (paren_of_each _ _ _ Hp) as [(vs & Hs & Hl & Hg)|(ps & -> & Hps)]; [by eapply Hsub|]. cbn. clear Hp.
    induction Hps as [|r ps (vs & Hs & Hl & Hg) _ IHps]; cbn; [done|]. apply Forall_app. split; [by eapply Hsub|done].
Qed.

(** ** Targets *)

Lemma bind_leaf_ok s0 ts t n s (Q : Pattern -> Parser -> Prop) :
  got s0 (ts ++ [t]) [] 1 s -> kind t = KIdent n ->
  (forall p s', got s0 (ts ++ [t]) (pattern_ids p) 0 s' -> gbind [t] p -> Q p s') ->
  pwp (bind_leaf n (span t)) Q (fails s0) s.
Proof.
  intros G Hk H. unfold bind_leaf, is_blank_name. case_bool_decide as Hb.
  - subst n. apply pwp_ret, H; [eapply got_less; [exact G|lia]|by constructor].
  - apply pwp_bind. eapply (g_fresh _ _ _ _ _ G); [lia|]. intros id s' G'. apply pwp_ret, H; [exact G'|by constructor].
Qed.

Lemma bind_target_at_ok n s :
  stream_ok s -> depth s <= MAX_DEPTH -> MAX_DEPTH < depth s + n ->
  pwp (parse_bind_target_at n) (elem_post gbind s) (fails s) s.
Proof.
  revert s. induction n as [|n IH]; intros s Ho Hd Hn; [lia|]. cbn [parse_bind_target_at].
  apply pwp_bind, pwp_modify, pwp_bind, pwp_get. cbn [depth set_depth].
  destruct (set_depth_frame s (S (depth s)) Ho) as [Ho1 Hf1]. set (s1 := set_depth (S (depth s)) s) in *.
  destruct (MAX_DEPTH <? S (depth s)) eqn:E; [by apply pwp_err|]. apply Nat.ltb_ge in E.
  assert (forall s', stream_ok s' -> depth s' = S (depth s) ->
    pwp (parse_bind_target_at n) (elem_post gbind s') (fails s') s') as Hsub.
  { intros s' Ho' Hd'. apply IH; [done|lia|lia]. }
  eapply pwp_mono; [|intros p s2 H; exact H|intros e s2; apply (fails_down s (S (depth s)))].
  pose proof (got_refl s1 Ho1) as G. pose proof (got_reads _ _ _ _ _ G) as R.
  assert (forall p us s2, got s1 us (pattern_ids p) 0 s2 -> us <> [] -> gbind us p -> depth s2 = S (depth s) ->
    pwp (depth_down;; mret p) (elem_post gbind s) (fails s1) s2) as Hend.
  { intros p us s2 G2 Hne Hp Hd2. apply pwp_bind. eapply pwp_depth_down; [exact Hd2|]. apply pwp_ret. exists us.
    split_and!; [by eapply got_down|done|done]. }
  apply pwp_bind, (r_check _ _ _ R). intros t Ht. apply pwp_bind. destruct (is_tok _ _).
  - eapply paren_call; [exact Hsub|exact G|done|done|]. intros p us s2 G2 Hne Hp Hd2.
    eapply Hend; [eapply got_less; [exact G2|lia]|done|by constructor|done].
  - apply pwp_bind, (r_cur_span _ _ _ R). intros t0 Ht0. apply pwp_bind, (g_expect_ident _ _ _ _ _ G).
    intros t1 m Ht1 Hk G1. assert (t1 = t0) as -> by congruence.
    eapply (bind_leaf_ok s1 [] t0 m); [exact G1|done|]. intros p s2 G2 Hp.
    eapply Hend; [exact G2|done|done|]. by rewrite (got_depth _ _ _ _ _ G2).
Qed.

Lemma bind_target_list_ok end_ s :
  stream_ok s -> depth s <= MAX_DEPTH ->
  pwp (parse_bind_target_list end_)
    (fun '(ps, comma) s' => exists us, got s us (flat_map pattern_ids ps) 0 s' /\ tail_of gbind us ps comma) (fails s) s.
Proof.
  intros Ho Hd. pose proof (got_refl s Ho) as G.
  assert (forall s', stream_ok s' -> depth s' = depth s -> pwp parse_bind_target (elem_post gbind s') (fails s') s') as Hel.
  { intros s' Ho' Hd'. apply bind_target_at_ok; [done|lia|lia]. }
  apply pwp_bind. eapply (elem_call _ _ _ Hel); [exact G|done|done|]. intros first us s1 G1 Hne He _ _ Hd1.
  eapply (tail_call gbind (depth s) _ Hel s [] [] 0); [exact G1|done|done|done|].
  intros ps comma us' s2 G2 Ht _. by exists us'.
Qed.

(** The names of a target stand at its tokens. *)
Lemma tail_spans us ps comma :
  tail_of gbind us ps comma -> Forall (fun q => exists n t id, q = PIdent n (span t) id /\ t ∈ us) (flat_map bare_names ps).
Proof.
  assert (forall vs ps, vs `sublist_of` us -> list_of gbind vs ps ->
    Forall (fun q => exists n t id, q = PIdent n (span t) id /\ t ∈ us) (flat_map bare_names ps)) as Hl.
  { intros vs qs Hs Hl. pose proof (list_of_each _ _ _ Hl) as H. clear Hl. induction H as [|q qs (ws & Hw & Hq) _ IH]; cbn; [done|].
    apply Forall_app. split; [|done]. pose proof (gbind_spans _ _ Hq) as Hsp. revert Hsp. apply Forall_impl.
    intros x (n & t & id & -> & Hin). exists n, t, id. split; [done|].
    eapply elem_of_sublist; [done|]. by etrans. }
  destruct comma; cbn.
  - intros [(c & vs & -> & Hc & H)|[H _]]; [|by eapply Hl]. eapply (Hl vs); [by apply sublist_inserts_r|done].
  - intros (p & -> & Hp). eapply (Hl us); [done|by constructor].
Qed.

Lemma reject_ok s0 ts s p (Q : unit -> Parser -> Prop) :
  reads s0 ts s -> Forall (fun q => exists n t id, q = PIdent n (span t) id /\ t ∈ toks s0) (bare_names p) ->
  (NoDup (bound_names p) -> Q tt s) -> pwp (reject_repeated_binders p) Q (fails s0) s.
Proof.
  intros R Hsp H. apply pwp_bind. destruct (binders_total p) as [names Hn]. eapply pwp_or_panic; [exact Hn|].
  unfold bound_names in H. rewrite Hn in H. cbn in H.
  destruct (repeated [] names) as [[n sp]|] eqn:Er; [|apply pwp_ret, H, (repeated_none _ _ Er)].
  apply pwp_throw. split; [apply R|]. split; [apply R|]. apply repeated_some in Er. cbn.
  unfold binders in Hn. apply mapM_Some in Hn. apply list_elem_of_lookup in Er as [i Hi].
  destruct (Forall2_lookup_r _ _ _ _ _ Hn Hi) as (q & Hq & Eq). rewrite list.Forall_forall in Hsp.
  destruct (Hsp q (list_elem_of_lookup_2 _ _ _ Hq)) as (m & t & id & -> & Hin). cbn in Eq. simplify_eq. by exists t.
Qed.

(** ** The two readers *)

Lemma pwp_attempt {A} (m : PM A) (Q : A + ParseError -> Parser -> Prop) (P : A -> Parser -> Prop) F F' s :
  pwp m P F s -> (forall a s', P a s' -> Q (inl a) s') -> (forall e s', F e s' -> Q (inr e) s') -> pwp (attempt m) Q F' s.
Proof. unfold pwp, attempt. destruct (m s); auto. Qed.

Lemma rolled_back_reads s s1 : stream_ok s -> same_frame s s1 -> reads s [] (rolled_back s s1).
Proof.
  intros [Hp He Ht] F. apply reads_nil; [by destruct F| |done]. split; cbn; by rewrite (sf_toks _ _ F).
Qed.

Definition walrus_post (s : Parser) (r : option Pattern) (s' : Parser) : Prop :=
  match r with
  | Some p =>
      exists ts w, reads s (ts ++ [w]) s' /\ kind w = KWalrus /\ gtarget ts p /\ NoDup (bound_names p) /\ depth s' = depth s
  | None => reads s [] s' /\ depth s' = depth s /\ fold_depth s' = fold_depth s
  end.

Lemma in_stream s us s' t : reads s us s' -> t ∈ us -> t ∈ toks s.
Proof.
  intros R H. rewrite <- (take_drop (tpos s) (toks s)), (rd_ts _ _ _ R). apply elem_of_app. right. apply elem_of_app. by left.
Qed.
Lemma spans_in_stream s us s' ps comma :
  reads s us s' -> tail_of gbind us ps comma ->
  Forall (fun q => exists n t id, q = PIdent n (span t) id /\ t ∈ toks s) (flat_map bare_names ps).
Proof.
  intros R Ht. pose proof (tail_spans _ _ _ Ht) as H. revert H. apply Forall_impl.
  intros q (n & t & id & -> & Hin). exists n, t, id. split; [done|]. by eapply in_stream.
Qed.

Lemma back_ok s s1 : stream_ok s -> same_frame s s1 ->
  pwp (modify (rolled_back s);; mret None) (walrus_post s) (fails s) s1.
Proof. intros Ho Hf. apply pwp_bind, pwp_modify, pwp_ret. split_and!; [by apply rolled_back_reads|done|done]. Qed.

(** The end of an attempt that reached the [:=]. *)
Lemma commit_ok s us ps comma w s1 p :
  got s (us ++ [w]) (flat_map pattern_ids ps) 1 s1 -> kind w = KWalrus -> tail_of gbind us ps comma -> gtarget us p ->
  bare_names p = flat_map bare_names ps ->
  pwp (reject_repeated_binders p;; mret (Some p)) (walrus_post s) (fails s) s1.
Proof.
  intros G Hw Ht Hp Eb. apply pwp_bind. pose proof (got_reads _ _ _ _ _ G) as R.
  eapply reject_ok; [exact R| |].
  - rewrite Eb. pose proof (tail_spans _ _ _ Ht) as H. revert H. apply Forall_impl.
    intros q (n & t & id & -> & Hin). exists n, t, id. split; [done|]. eapply in_stream; [exact R|].
    apply elem_of_app. by left.
  - intros Hd. apply pwp_ret. exists us, w. split_and!; try done. apply (got_depth _ _ _ _ _ G).
Qed.

Lemma speculate_ok s :
  stream_ok s -> depth s <= MAX_DEPTH -> pwp speculate_target (walrus_post s) (fails s) s.
Proof.
  intros Ho Hd. apply pwp_bind, pwp_get. cbn zeta. apply pwp_bind.
  eapply pwp_attempt; [by apply bind_target_list_ok| |intros e s1 (Hf & _); by apply back_ok].
  intros [ps comma] s1 (us & G & Htail). pose proof (got_reads _ _ _ _ _ G) as R1.
  assert (same_frame s s1) as Hf1 by apply R1.
  apply pwp_bind, (r_check _ _ _ R1). intros w Hw. destruct (is_tok (kind w) KWalrus) eqn:Ek; [|by apply back_ok].
  tok_kind Ek. apply pwp_bind.
  assert (forall p, gtarget us p -> bare_names p = flat_map bare_names ps ->
    forall (m : PM Pattern), (forall s2 (Q : Pattern -> Parser -> Prop), Q p s2 -> pwp m Q (fails s) s2) ->
    pwp (advance;; target ← m; reject_repeated_binders target;; mret (Some target)) (walrus_post s) (fails s) s1) as Hcommit.
  { intros p Hp Eb m Hm. apply pwp_bind. eapply (g_advance _ _ _ _ _ G); [exact Hw|by rewrite Ek|]. intros G2.
    apply pwp_bind, Hm. eapply commit_ok; [eapply got_less; [exact G2|lia]|done|done|done|done]. }
  destruct comma.
  - apply pwp_ret. eapply (Hcommit (PTuple ps)); [left; by exists ps|done|]. intros s2 Q H. by apply pwp_ret.
  - destruct Htail as (p & -> & Hp). apply pwp_bind. eapply pwp_or_panic; [done|]. apply pwp_ret.
    destruct (is_tuple p) eqn:Et; cbn [negb]; [by apply back_ok|].
    eapply (Hcommit p); [by right|cbn; by rewrite app_nil_r|]. intros s2 Q H. by eapply pwp_or_panic.
Qed.
Lemma walrus_target_ok s :
  stream_ok s -> depth s <= MAX_DEPTH -> pwp try_parse_walrus_target (walrus_post s) (fails s) s.
Proof.
  intros Ho Hd. pose proof (reads_refl s Ho) as R. apply pwp_bind, (r_peek _ _ _ R). intros t Ht.
  assert (pwp (mret None) (walrus_post s) (fails s) s) as Hno by (by apply pwp_ret; split_and!).
  pose proof (speculate_ok s Ho Hd) as Hyes. by destruct (kind t).
Qed.

(** A target of [for]: it binds each name once, and is no parenthesized tuple. *)
Lemma loop_target_binds_once s :
  stream_ok s -> depth s <= MAX_DEPTH ->
  pwp parse_loop_target
    (fun p s' => exists ts, reads s ts s' /\ gtarget ts p /\ NoDup (bound_names p) /\ depth s' = depth s) (fails s) s.
Proof.
  intros Ho Hd. pose proof (reads_refl s Ho) as R. apply pwp_bind, (r_cur_span _ _ _ R). intros t0 Ht0.
  apply pwp_bind, (r_check _ _ _ R). intros t Ht. assert (t = t0) as -> by congruence. apply pwp_bind.
  eapply pwp_mono; [by apply bind_target_list_ok| |done]. intros [ps comma] s1 (us & G & Htail).
  pose proof (got_reads _ _ _ _ _ G) as R1. pose proof (spans_in_stream _ _ _ _ _ R1 Htail) as Hsp.
  assert (forall p, gtarget us p -> bare_names p = flat_map bare_names ps ->
    pwp (reject_repeated_binders p;; mret p)
      (fun p s' => exists ts, reads s ts s' /\ gtarget ts p /\ NoDup (bound_names p) /\ depth s' = depth s) (fails s) s1) as Hend.
  { intros p Hp Eb. apply pwp_bind. eapply reject_ok; [exact R1|by rewrite Eb|]. intros Hnd. apply pwp_ret.
    exists us. split_and!; try done. apply (got_depth _ _ _ _ _ G). }
  apply pwp_bind. destruct comma.
  - apply pwp_ret, Hend; [left; by exists ps|done].
  - destruct Htail as (p & -> & Hp). apply pwp_bind. eapply pwp_or_panic; [done|].
    destruct (is_tok (kind t0) KLParen && is_tuple p) eqn:E.
    + apply pwp_throw. split; [apply R1|]. split; [apply R1|]. exists t0. split; [by apply cur_in|done].
    + apply pwp_ret, Hend; [|cbn; by rewrite app_nil_r]. right. split; [done|].
      apply andb_false_iff in E as [E|E]; [|done]. destruct Hp as [| |us p Hp]; [done|done|].
      assert (cur s = Some t0 -> kind t0 <> KLParen -> False) as Hbad.
      { intros _ Hne. apply Hne. destruct Hp as [l ? ? ? Hl|l ? ? ? ? ? ? Hl|l ? ? ? ? Hl];
          pose proof (got_first _ _ _ _ _ _ G); congruence. }
      exfalso. apply Hbad; [done|]. intros Hk. by rewrite Hk in E.
Qed.

(** The speculative read of a binding target commits or leaves no trace. On any stream that ends
    in [Eof], from an identifier or a parenthesis, it always returns. If it commits, it has consumed a target of the
    grammar (a comma list, or one name or blank, possibly grouped) and the [:=] after it, and the
    target binds each name once. If it does not, the cursor and both depth counters are where they
    were, whatever the failed attempt had done to them. Its only error is a repeated name, at the
    token that repeats it. *)
Lemma walrus_target_speculates s :
  stream_ok s -> depth s <= MAX_DEPTH ->
  match try_parse_walrus_target s with
  | Ret (Some p) s' =>
      exists ts w, reads s (ts ++ [w]) s' /\ kind w = KWalrus /\ gtarget ts p /\ NoDup (bound_names p) /\ depth s' = depth s
  | Ret None s' => reads s [] s' /\ depth s' = depth s /\ fold_depth s' = fold_depth s
  | Fail e s' => toks s' = toks s /\ exists t, t ∈ toks s /\ pe_span e = span t
  | Panic | Spin => False
  end.
Proof.
  intros Ho Hd. pose proof (walrus_target_ok s Ho Hd) as H. unfold pwp, walrus_post in H.
  destruct (try_parse_walrus_target s) as [[p|] s'|e s'| |]; try done.
  destruct H as (Hf & _ & Ht). split; [apply (sf_toks _ _ Hf)|done].
Qed.

Module WalrusDemo.
Import TypeDemo.
(** [a, (b, _) := ]. *)
Definition list_target : list Tok :=
  [at_ 1 (KIdent (text "a")); at_ 2 KComma; at_ 4 KLParen; at_ 5 (KIdent (text "b")); at_ 6 KComma;
   at_ 8 (KIdent (text "_")); at_ 9 KRParen; at_ 11 KWalrus; at_ 14 KEof].
Definition committed : Parser := new_parser list_target [] 1.
Lemma committed_ok : stream_ok committed.
Proof.
  split; [cbn; lia|by eexists|]. unfold committed, list_target, new_parser, toks, tok_ok.
  repeat (constructor; [done|]). constructor.
Qed.
(** [(a, b) := ]: a tuple in parentheses is no target. *)
Definition parens : Parser := new_parser
  [at_ 1 KLParen; at_ 2 (KIdent (text "a")); at_ 3 KComma; at_ 5 (KIdent (text "b")); at_ 6 KRParen; at_ 8 KWalrus; at_ 11 KEof] [] 1.
Lemma parens_back : exists s', try_parse_walrus_target parens = Ret None s' /\ tpos s' = 0 /\ next_id s' = 3%Z.
Proof. eexists. by vm_compute. Qed.
(** [a, a := ]: the second [a] is the error. *)
Definition twice : Parser := new_parser
  [at_ 1 (KIdent (text "a")); at_ 2 KComma; at_ 4 (KIdent (text "a")); at_ 6 KWalrus; at_ 9 KEof] [] 1.
Lemma twice_error : exists e s', try_parse_walrus_target twice = Fail e s' /\ pe_span e = mkSpan 1 4 0.
Proof. eexists _, _. by vm_compute. Qed.
End WalrusDemo.

