(* ===== verification/IntBytes.v ===== *)
(** * Ints as bytes: [int_to_bytes] and [int_from_bytes] of [src/src/vm/core_method.rs]

    A byte is a [Z] in [0, 256), an [i64] a [Z] in [I64.ok].  [to_be] and [of_be] are Rust's
    [to_be_bytes] and [from_be_bytes]; the texts of the errors take the printer of an int as an
    argument.  The theorem says that the two conversions are inverse, and when the first one fails. *)

From stdpp Require Import strings.
From S2P Require Import Prelude.
Local Open Scope Z_scope.

Section IntBytes.
Context (show : Z -> string).

(** [n.to_be_bytes()], the low [8 * k] bits of it. *)
Fixpoint to_be (k : nat) (n : Z) : list Z :=
  match k with O => [] | S k => to_be k (Z.shiftr n 8) ++ [Z.land n 255] end.
(** [i64::from_be_bytes]. *)
Definition of_be (bytes : list Z) : Z := I64.wrap (fold_left (fun acc b => Z.lor (Z.shiftl acc 8) b) bytes 0).

Definition fits (signed : bool) (bits n : Z) : bool :=
  if bits =? 64 then true
  else if signed then (- I64.shl 1 (bits - 1) <=? n) && (n <? I64.shl 1 (bits - 1))
  else n <? I64.shl 1 bits.

Definition int_to_bytes (name : string) (n len : Z) (signed big : bool) : result (list Z) string :=
  if negb ((1 <=? len) && (len <=? 8)) then Err (name +:+ ": len must be 1 to 8, got " +:+ show len)
  else if negb signed && (n <? 0) then Err (name +:+ ": " +:+ show n +:+ " is negative; pass signed=true")
  else
    let bits := 8 * len in
    if negb (fits signed bits n) then
      let unit := if len =? 1 then "byte" else "bytes" in
      Err (name +:+ ": " +:+ show n +:+ " does not fit in " +:+ show len +:+ " " +:+ unit)
    else
      let out := drop (8 - Z.to_nat len) (to_be 8 n) in
      Ok (if big then out else reverse out).

Definition int_from_bytes (name : string) (b : list Z) (signed big : bool) : result Z string :=
  if (8 <? length b)%nat then Err (name +:+ ": " +:+ show (Z.of_nat (length b)) +:+ " bytes is more than 8")
  else
    let be := if big then b else reverse b in
    let negative := signed && match be with top :: _ => negb (Z.land top 128 =? 0) | [] => false end in
    let n := of_be (replicate (8 - length be) (if negative then 255 else 0) ++ be) in
    if negb signed && (n <? 0) then Err (name +:+ ": the value does not fit in int; pass signed=true")
    else Ok n.

(** ** Big-endian digits *)
Definition byte (b : Z) : Prop := 0 <= b < 256.
Definition value (bytes : list Z) : Z := fold_left (fun acc b => acc * 256 + b) bytes 0.

Lemma value_app xs ys : value (xs ++ ys) = value xs * 256 ^ Z.of_nat (length ys) + value ys.
Proof.
  unfold value. rewrite fold_left_app. generalize (fold_left (fun acc b => acc * 256 + b) xs 0). intros z.
  induction ys as [|y ys IH] using rev_ind; [simpl; lia|].
  rewrite !fold_left_app, length_app, Nat2Z.inj_add, Z.pow_add_r by lia. simpl. rewrite IH. lia.
Qed.
Lemma value_snoc xs y : value (xs ++ [y]) = value xs * 256 + y.
Proof. unfold value. by rewrite fold_left_app. Qed.
Lemma value_range bs : Forall byte bs -> 0 <= value bs < 256 ^ Z.of_nat (length bs).
Proof.
  induction bs as [|b bs IH] using rev_ind; [done|]. rewrite value_snoc, length_app, Nat2Z.inj_add, Z.pow_add_r by lia.
  intros [Hs Hb]%Forall_app. apply list.Forall_cons in Hb as [Hb _]. specialize (IH Hs). unfold byte in Hb. simpl. lia.
Qed.
Lemma fold_value bs acc : Forall byte bs -> fold_left (fun acc b => Z.lor (Z.shiftl acc 8) b) bs acc = fold_left (fun acc b => acc * 256 + b) bs acc.
Proof.
  intros Hb. revert acc. induction Hb as [|b bs Hb _ IH]; intros acc; [done|]. cbn [fold_left]. rewrite IH. f_equal.
  rewrite Z.shiftl_mul_pow2 by lia. by apply lor_low.
Qed.

Lemma to_be_bytes k n : Forall byte (to_be k n).
Proof.
  revert n. induction k as [|k IH]; intros n; [done|]. simpl. apply Forall_app. split; [apply IH|]. apply Forall_singleton.
  unfold byte. change 255 with (Z.ones 8). rewrite Z.land_ones by lia. apply Z.mod_pos_bound. lia.
Qed.
Lemma length_to_be k n : length (to_be k n) = k.
Proof. revert n. induction k as [|k IH]; intros n; [done|]. simpl. rewrite length_app, IH. simpl. lia. Qed.
Lemma value_to_be k n : value (to_be k n) = n mod 256 ^ Z.of_nat k.
Proof.
  revert n. induction k as [|k IH]; intros n; [simpl; by rewrite Z.mod_1_r|]. cbn [to_be]. rewrite value_snoc, IH, Nat2Z.inj_succ, Z.pow_succ_r by lia.
  change 255 with (Z.ones 8). rewrite Z.land_ones, Z.shiftr_div_pow2 by lia. change (2 ^ 8) with 256.
  rewrite (Z.mul_comm 256 (256 ^ _)), (Z.mul_comm (256 ^ _) 256), Z.rem_mul_r by lia. lia.
Qed.
Lemma to_be_low j k n : drop j (to_be (j + k) n) = to_be k n.
Proof.
  revert n. induction k as [|k IH]; intros n; [rewrite Nat.add_0_r; apply drop_ge; by rewrite length_to_be|].
  rewrite Nat.add_succ_r. cbn [to_be]. rewrite drop_app_le by (rewrite length_to_be; lia). by rewrite IH.
Qed.
(** Digits are determined by their value. *)
Lemma to_be_value bs n : Forall byte bs -> to_be (length bs) n = bs <-> n mod 256 ^ Z.of_nat (length bs) = value bs.
Proof.
  intros Hb. split; [intros <-; by rewrite length_to_be, value_to_be|].
  revert n. induction bs as [|b bs IH] using rev_ind; intros n; [done|]. apply Forall_app in Hb as [Hs Hb].
  apply list.Forall_cons in Hb as [Hb _]. rewrite length_app, Nat.add_1_r, value_snoc. cbn [to_be].
  change 255 with (Z.ones 8). rewrite Z.land_ones, Z.shiftr_div_pow2, Nat2Z.inj_succ, Z.pow_succ_r by lia. change (2 ^ 8) with 256.
  rewrite Z.rem_mul_r by lia. intros E. pose proof (Z.mod_pos_bound n 256). unfold byte in Hb.
  rewrite IH; [|done|]; [do 2 f_equal|]; lia.
Qed.

(** ** Reading *)

(** The int that [bs] stands for: two's complement when the sign is read. *)
Definition meaning (signed : bool) (bs : list Z) : Z :=
  if signed && (2 * value bs >=? 256 ^ Z.of_nat (length bs)) then value bs - 256 ^ Z.of_nat (length bs) else value bs.

Lemma top_bit b bs : byte b -> Forall byte bs ->
  negb (Z.land b 128 =? 0) = (2 * value (b :: bs) >=? 256 ^ Z.of_nat (length (b :: bs))).
Proof.
  intros Hb Hs. change (b :: bs) with ([b] ++ bs). rewrite value_app, length_app. change (value [b]) with b.
  pose proof (value_range bs Hs) as Hv. rewrite Nat2Z.inj_add, Z.pow_add_r by lia. change (256 ^ Z.of_nat (length [b])) with 256.
  assert (E : negb (Z.land b 128 =? 0) = (128 <=? b)).
  { assert (Hc : forall c, (c < 256)%nat -> negb (Z.land (Z.of_nat c) 128 =? 0) = (128 <=? Z.of_nat c)).
    { assert (Hall : forallb (fun c => Bool.eqb (negb (Z.land (Z.of_nat c) 128 =? 0)) (128 <=? Z.of_nat c)) (seq 0 256) = true) by (vm_compute; done).
      intros c Hc. rewrite forallb_forall in Hall. apply Bool.eqb_prop, Hall, in_seq. lia. }
    rewrite <- (Z2Nat.id b) by (unfold byte in Hb; lia). apply Hc. unfold byte in Hb. lia. }
  rewrite E. set (p := 256 ^ Z.of_nat (length bs)) in *. destruct (128 <=? b) eqn:Eb, (2 * (b * p + value bs) >=? 256 * p) eqn:Ep; nia.
Qed.

Lemma of_be_padded bs (neg : bool) : Forall byte bs -> (length bs <= 8)%nat ->
  of_be (replicate (8 - length bs) (if neg then 255 else 0) ++ bs) =
  I64.wrap (if neg then value bs - 256 ^ Z.of_nat (length bs) else value bs).
Proof.
  intros Hb Hl. unfold of_be. rewrite fold_value.
  2: { apply Forall_app. split; [|done]. apply list.Forall_replicate. by destruct neg. }
  fold (value (replicate (8 - length bs) (if neg then 255 else 0) ++ bs)). rewrite value_app. unfold I64.wrap.
  assert (E : value (replicate (8 - length bs) (if neg then 255 else 0)) = if neg then 256 ^ (8 - Z.of_nat (length bs)) - 1 else 0).
  { replace (8 - Z.of_nat (length bs)) with (Z.of_nat (8 - length bs)) by lia. generalize (8 - length bs)%nat. intros m.
    induction m as [|m IH]; [by destruct neg|]. rewrite replicate_S_end, value_snoc, IH.
    destruct neg; [|done]. rewrite Nat2Z.inj_succ, Z.pow_succ_r by lia. lia. }
  rewrite E. destruct neg; [|done]. rewrite Z.mul_sub_distr_r, <- Z.pow_add_r by lia.
  replace (8 - Z.of_nat (length bs) + Z.of_nat (length bs)) with 8 by lia. f_equal. change (256 ^ 8) with (2 ^ 64).
  symmetry. rewrite <- (Z.mod_add _ 1) by lia. f_equal. lia.
Qed.

(** What the width holds. *)
Definition holds (signed : bool) (len n : Z) : Prop :=
  if signed then - 2 ^ (8 * len - 1) <= n < 2 ^ (8 * len - 1) else 0 <= n < 2 ^ (8 * len).

Lemma fits_holds signed len n : 1 <= len <= 8 -> I64.ok n -> (signed = false -> 0 <= n) ->
  fits signed (8 * len) n = true <-> holds signed len n.
Proof.
  unfold I64.ok, I64.MIN, I64.MAX. intros Hl Hn H0. unfold fits, holds. destruct (8 * len =? 64) eqn:E8.
  - replace len with 8 by lia. destruct signed; [lia|]. specialize (H0 eq_refl). change (8 * 8) with 64. lia.
  - assert (P : forall k, 0 <= k <= 62 -> I64.shl 1 k = 2 ^ k).
    { intros k Hk. unfold I64.shl. rewrite Z.shiftl_1_l. apply I64.wrap_id. unfold I64.ok, I64.MIN, I64.MAX.
      assert (2 ^ k <= 2 ^ 62) by (apply Z.pow_le_mono_r; lia). lia. }
    destruct signed; rewrite !P by lia; [lia|]. specialize (H0 eq_refl). lia.
Qed.

Lemma int_to_bytes_iff name n len signed big b : I64.ok n ->
  int_to_bytes name n len signed big = Ok b <->
  1 <= len <= 8 /\ holds signed len n /\ b = (if big then to_be (Z.to_nat len) n else reverse (to_be (Z.to_nat len) n)).
Proof.
  intros Hn. unfold int_to_bytes. destruct ((1 <=? len) && (len <=? 8)) eqn:El; cbn [negb].
  2: { split; [done|]. intros (? & _). lia. }
  assert (Hl : 1 <= len <= 8) by lia. assert (Ed : drop (8 - Z.to_nat len) (to_be 8 n) = to_be (Z.to_nat len) n).
  { rewrite <- (to_be_low (8 - Z.to_nat len) (Z.to_nat len)). do 2 f_equal. lia. }
  rewrite Ed.
  destruct (negb signed && (n <? 0)) eqn:En.
  { split; [done|]. intros (_ & Hh & _). destruct signed; [done|]. unfold holds in Hh. lia. }
  destruct (fits signed (8 * len) n) eqn:Ef; cbn [negb].
  - apply fits_holds in Ef; [|done|done|destruct signed; [done|lia]]. split; [intros [= <-]; done|]. by intros (_ & _ & ->).
  - split; [done|]. intros (_ & Hh & _). apply fits_holds in Hh; [congruence|done|done|destruct signed; [done|lia]].
Qed.

Lemma meaning_range signed bs : Forall byte bs -> bs <> [] ->
  holds signed (Z.of_nat (length bs)) (meaning signed bs) /\ (meaning signed bs) mod 256 ^ Z.of_nat (length bs) = value bs.
Proof.
  intros Hb Hne. pose proof (value_range bs Hb) as Hv. unfold meaning, holds.
  assert (E : 2 ^ (8 * Z.of_nat (length bs)) = 256 ^ Z.of_nat (length bs)) by (rewrite Z.pow_mul_r by lia; done).
  assert (E' : 256 ^ Z.of_nat (length bs) = 2 * 2 ^ (8 * Z.of_nat (length bs) - 1)).
  { assert (0 < length bs)%nat by (destruct bs; [by destruct Hne|simpl; lia]). rewrite <- E, <- Z.pow_succ_r by lia. f_equal. lia. }
  destruct signed; cbn [andb]; [|rewrite E; by rewrite Z.mod_small].
  destruct (2 * value bs >=? _) eqn:Ec; (split; [lia|]).
  - rewrite <- (Z.mod_add _ 1) by lia. rewrite Z.mod_small; lia.
  - by apply Z.mod_small.
Qed.
Lemma holds_unique signed len n m : 1 <= len -> holds signed len n -> holds signed len m -> n mod 256 ^ len = m mod 256 ^ len -> n = m.
Proof.
  intros Hl Hn Hm E. assert (E1 : 2 ^ (8 * len) = 256 ^ len) by (rewrite Z.pow_mul_r by lia; done).
  assert (E2 : 256 ^ len = 2 * 2 ^ (8 * len - 1)) by (rewrite <- E1, <- Z.pow_succ_r by lia; f_equal; lia).
  pose proof (Z.div_mod n (256 ^ len)). pose proof (Z.div_mod m (256 ^ len)). unfold holds in *.
  assert (n / 256 ^ len = m / 256 ^ len \/ n / 256 ^ len <> m / 256 ^ len) as [|] by lia; destruct signed; nia.
Qed.

Lemma int_from_bytes_iff name b signed big n : Forall byte b ->
  int_from_bytes name b signed big = Ok n <->
  (length b <= 8)%nat /\ n = meaning signed (if big then b else reverse b) /\ I64.ok n.
Proof.
  intros Hb. unfold int_from_bytes. destruct (Nat.ltb_spec 8 (length b)) as [|Hl]; [split; [done|lia]|].
  set (be := if big then b else reverse b). assert (Hbe : Forall byte be) by (unfold be; destruct big; [done|by apply list.Forall_reverse]).
  assert (Hlen : length be = length b) by (unfold be; destruct big; [done|apply length_reverse]).
  set (neg := signed && match be with top :: _ => negb (Z.land top 128 =? 0) | [] => false end).
  assert (En : (if neg then value be - 256 ^ Z.of_nat (length be) else value be) = meaning signed be).
  { unfold neg, meaning. destruct be as [|t ts]; [by destruct signed|]. apply list.Forall_cons in Hbe as [Ht Hts].
    by rewrite (top_bit t ts Ht Hts). }
  rewrite of_be_padded, En by (done || lia). pose proof (value_range be Hbe) as Hv.
  assert (Hp : 256 ^ Z.of_nat (length be) <= 2 ^ 64).
  { change (2 ^ 64) with (256 ^ 8). apply Z.pow_le_mono_r; lia. }
  assert (Hok : I64.ok (meaning signed be) \/ signed = false /\ 2 ^ 63 <= value be).
  { unfold meaning, I64.ok, I64.MIN, I64.MAX. destruct signed; cbn [andb]; [|lia]. left. destruct (2 * value be >=? _) eqn:Ec; lia. }
  destruct Hok as [Hok|[-> Hbig]].
  - rewrite I64.wrap_id by done. assert (Hs : negb signed && (meaning signed be <? 0) = false).
    { destruct signed; [done|]. unfold meaning. cbn. lia. }
    rewrite Hs. split; [intros [= <-]; done|]. by intros (_ & -> & _).
  - assert (E : I64.wrap (meaning false be) = value be - 2 ^ 64).
    { unfold I64.wrap, meaning. cbn [andb]. rewrite <- (Z.mod_add _ (-1)) by lia. rewrite Z.mod_small; lia. }
    rewrite E. cbn [negb andb]. replace (value be - 2 ^ 64 <? 0) with true by lia. split; [done|].
    intros (_ & -> & Hok). unfold meaning, I64.ok, I64.MAX in Hok. cbn [andb] in Hok. lia.
Qed.

(** ** The theorem *)

(** C38: the conversions of an int to bytes and back are inverse.  [int_to_bytes] answers exactly for
    the lengths 1 to 8 that hold the int (two's complement when signed); its answer has that many
    bytes; and for any bytes it answers them iff [int_from_bytes] reads the int back from them, in
    either byte order. *)
Theorem int_bytes_roundtrip (to_name from_name : string) (n len : Z) (signed big : bool) (Hn : I64.ok n) :
  ((exists b, int_to_bytes to_name n len signed big = Ok b) <-> 1 <= len <= 8 /\ holds signed len n) /\
  (forall b, Forall byte b -> int_to_bytes to_name n len signed big = Ok b <->
     1 <= len /\ Z.of_nat (length b) = len /\ int_from_bytes from_name b signed big = Ok n).
Proof.
  split.
  { split; [intros [b (Hl & Hh & _)%int_to_bytes_iff]; done|]. intros [Hl Hh]. eexists. by apply int_to_bytes_iff. }
  intros b Hb. rewrite int_to_bytes_iff, int_from_bytes_iff by done. set (be := if big then b else reverse b).
  assert (Hbe : Forall byte be) by (unfold be; destruct big; [done|by apply list.Forall_reverse]).
  assert (Hlen : length be = length b) by (unfold be; destruct big; [done|apply length_reverse]).
  assert (Hrev : forall ds, b = (if big then ds else reverse ds) <-> ds = be).
  { intros ds. unfold be. destruct big; [done|]. split; [intros ->|intros ->]; by rewrite reverse_involutive. }
  rewrite Hrev. split.
  - intros (Hl & Hh & E). assert (El : Z.of_nat (length b) = len) by (rewrite <- Hlen, <- E, length_to_be; lia).
    split; [lia|]. split; [done|]. split; [lia|]. split; [|done].
    assert (Hne : be <> []) by (intros E0; rewrite E0 in Hlen; simpl in Hlen; lia).
    destruct (meaning_range signed be Hbe Hne) as [Hm Em]. rewrite Hlen, El in Hm, Em.
    apply (holds_unique signed len); [lia|done|done|]. rewrite Em, <- E, value_to_be. f_equal. f_equal. lia.
  - intros (H1 & El & H8 & E & _). assert (Hne : be <> []) by (intros E0; rewrite E0 in Hlen; simpl in Hlen; lia).
    destruct (meaning_range signed be Hbe Hne) as [Hm Em]. rewrite Hlen, El in Hm, Em. rewrite E.
    split; [lia|]. split; [done|]. replace (Z.to_nat len) with (length be) by lia. apply to_be_value; [done|].
    by rewrite Hlen, El.
Qed.
End IntBytes.

(** -2 in three bytes, little-endian. *)
Lemma int_bytes_roundtrip_witness : I64.ok (-2) /\
  int_to_bytes (fun _ => "") "to_le_bytes" (-2) 3 true false = Ok [254; 255; 255] /\
  int_from_bytes (fun _ => "") "from_le_bytes" [254; 255; 255] true false = Ok (-2).
Proof.
  assert (Hn : I64.ok (-2)) by (unfold I64.ok, I64.MIN, I64.MAX; lia). split; [done|].
  assert (E : int_to_bytes (fun _ => "") "to_le_bytes" (-2) 3 true false = Ok [254; 255; 255]) by (vm_compute; done).
  split; [done|]. apply (int_bytes_roundtrip (fun _ => "") "to_le_bytes" "from_le_bytes" (-2) 3 true false Hn); [|done].
  repeat constructor; lia.
Defined.
