(* ===== verification/StrOps.v ===== *)
(** * Strings: the [str] methods of [core_method] in [src/src/vm/core_method.rs], [py_blank] of
      [src/src/vm/call.rs], [parse_i64_pep515] of [src/src/vm/host.rs],
      [strip_num_underscores_radix] of [src/src/lexer/mod.rs]

    A string is its list of characters, as in [Lexer]; a method is the function from the receiver
    and its read arguments to its result, before the result is allocated.  What the source takes
    from Rust's [str] is written out: [find], [matches], [split] and [replace] scan from the left
    without overlap.  Whether the allocator can reserve a block of that many bytes is an argument.

    [upper] and [lower] need Unicode's case tables and [to_float] a decimal parser, and are left
    out. *)

From Stdlib Require Import Ascii.
From stdpp Require Import strings list.
From S2P Require Import Prelude Slice Token Lexer.
Local Open Scope Z_scope.
Local Open Scope chz_scope.

Abbreviation str := (list Z).

Section StrOps.
Context {T : CharTables}.
Context (can_reserve : Z -> bool).

(** [s.len()], in bytes. *)
Definition byte_len (s : str) : Z := Z.of_nat (length (s ≫= utf8_bytes)).
Definition ISIZE_MAX : Z := 2 ^ 63 - 1.

(** ** Searching *)
Fixpoint starts_with (s p : str) : bool :=
  match p, s with
  | [], _ => true
  | c :: p, d :: s => (c =? d) && starts_with s p
  | _, [] => false
  end.
Definition ends_with (s p : str) : bool := starts_with (reverse s) (reverse p).
(** [str::find]. *)
Fixpoint find (s sub : str) : option nat :=
  if starts_with s sub then Some O
  else match s with [] => None | _ :: s => S <$> find s sub end.
Definition contains (s sub : str) : bool := bool_decide (is_Some (find s sub)).
(** The count of characters before the match. *)
Definition index_of (s sub : str) : Z :=
  if bool_decide (sub = []) then 0 else match find s sub with Some i => Z.of_nat i | None => -1 end.

(** The scans of [split], [matches] and [replace] for a pattern that is not empty; [skip] characters
    are left of the match just found. *)
Fixpoint split_at (sep : str) (skip : nat) (cur s : str) : list str :=
  match s with
  | [] => [cur]
  | c :: s' =>
      match skip with
      | S skip => split_at sep skip cur s'
      | O => if starts_with s sep then cur :: split_at sep (pred (length sep)) [] s' else split_at sep 0 (cur ++ [c]) s'
      end
  end.
Fixpoint matches (sub : str) (skip : nat) (s : str) : nat :=
  match s with
  | [] => O
  | c :: s' =>
      match skip with
      | S skip => matches sub skip s'
      | O => if starts_with s sub then S (matches sub (pred (length sub)) s') else matches sub 0 s'
      end
  end.
Fixpoint replace_at (old new : str) (skip : nat) (s : str) : str :=
  match s with
  | [] => []
  | c :: s' =>
      match skip with
      | S skip => replace_at old new skip s'
      | O => if starts_with s old then new ++ replace_at old new (pred (length old)) s' else c :: replace_at old new 0 s'
      end
  end.

Definition split (s sep : str) : result (list str) string :=
  if bool_decide (sep = []) then Err "split: sep must not be empty" else Ok (split_at sep 0 [] s).
Definition count (s sub : str) : Z :=
  if bool_decide (sub = []) then Z.of_nat (length s) + 1 else Z.of_nat (matches sub 0 s).
(** An empty pattern matches at every character boundary. *)
Definition replace (s old new : str) : str :=
  if bool_decide (old = []) then new ++ (s ≫= (fun c => c :: new)) else replace_at old new 0 s.

(** The loop of [join] over the parts, the separator before each but the first. *)
Fixpoint join_loop (sep : str) (first : bool) (parts : list str) : str :=
  match parts with [] => [] | p :: parts => (if first then [] else sep) ++ p ++ join_loop sep false parts end.
Definition join (sep : str) (parts : list str) : str := join_loop sep true parts.

Definition strip_prefix (s p : str) : str := if starts_with s p then drop (length p) s else s.
Definition strip_suffix (s p : str) : str := if ends_with s p then take (length s - length p) s else s.

(** ** Building *)
Definition repeat (s : str) (n : Z) : result str string :=
  if n <=? 0 then Ok []
  else
    let total := byte_len s * n in
    if (total <=? ISIZE_MAX) && can_reserve total then Ok (concat (replicate (Z.to_nat n) s))
    else Err "string repeat capacity overflow".
Definition reversed (s : str) : str := reverse s.

(** [fill.chars().cycle().take(need)]. *)
Definition cycle_take (fill : str) (need : nat) : str := (fun i => nth (i mod length fill) fill 0) <$> seq 0 need.
Definition pad (left : bool) (s : str) (width : Z) (fill : str) : result str string :=
  if bool_decide (fill = []) then Err ((if left then "pad_left" else "pad_right") +:+ ": fill must not be empty")
  else
    let len := Z.of_nat (length s) in
    if width <=? len then Ok s
    else
      let need := width - len in
      let fill_cp := Z.of_nat (length fill) in
      let rem := byte_len (take (Z.to_nat (need mod fill_cp)) fill) in
      let total := need / fill_cp * byte_len fill + rem + byte_len s in
      if (total <=? ISIZE_MAX) && can_reserve total then
        let padding := cycle_take fill (Z.to_nat need) in
        Ok (if left then padding ++ s else s ++ padding)
      else Err "string pad capacity overflow".

(** The loop of [split_lines]. *)
Fixpoint lines_loop (lines : list str) (cur s : str) : list str :=
  match s with
  | [] => if bool_decide (cur = []) then lines else lines ++ [cur]
  | c :: s =>
      if c =? 13 then
        match s with
        | 10 :: s => lines_loop (lines ++ [cur]) [] s
        | _ => lines_loop (lines ++ [cur]) [] s
        end
      else if c =? 10 then lines_loop (lines ++ [cur]) [] s
      else lines_loop lines (cur ++ [c]) s
  end.
Definition split_lines (s : str) : list str := lines_loop [] [] s.

(** ** Trimming and numbers *)
Definition py_blank (c : Z) : bool := is_whitespace c || between 28 c 31.
Fixpoint trim_start (p : Z -> bool) (s : str) : str :=
  match s with c :: s' => if p c then trim_start p s' else s | [] => [] end.
(** [str::trim_matches]. *)
Definition trim_matches (p : Z -> bool) (s : str) : str := reverse (trim_start p (reverse (trim_start p s))).
Definition strip (s : str) : str := trim_matches py_blank s.

(** [strip_num_underscores_radix] at radix 10: [prev] is the character before. *)
Fixpoint flanked (prev : option Z) (s : str) : bool :=
  match s with
  | [] => true
  | c :: s' =>
      (if c =? ch "_" then
         match prev with Some p => is_digit 10 p | None => false end && match s' with n :: _ => is_digit 10 n | [] => false end
       else true) && flanked (Some c) s'
  end.
Definition strip_num_underscores (s : str) : option str :=
  if flanked None s then Some (filter (fun c => c <> ch "_") s) else None.

Inductive IntParseErr := Malformed | Overflow.
(** [str::parse::<i64>]: a digit at a time, so an overflow is reported before a bad digit after it. *)
Fixpoint parse_digits (neg : bool) (acc : Z) (s : str) : result Z IntParseErr :=
  match s with
  | [] => Ok acc
  | c :: s =>
      match to_digit 10 c with
      | None => Err Malformed
      | Some d =>
          match I64.checked_mul acc 10 with
          | None => Err Overflow
          | Some m =>
              match (if neg then I64.checked_sub m d else I64.checked_add m d) with
              | None => Err Overflow
              | Some acc => parse_digits neg acc s
              end
          end
      end
  end.
Definition parse_i64 (s : str) : result Z IntParseErr :=
  let neg := match s with c :: _ => c =? ch "-" | [] => false end in
  let digits := match s with c :: s' => if (c =? ch "-") || (c =? ch "+") then s' else s | [] => [] end in
  if bool_decide (digits = []) then Err Malformed else parse_digits neg 0 digits.
Definition parse_i64_pep515 (s : str) : result Z IntParseErr :=
  match strip_num_underscores s with None => Err Malformed | Some t => parse_i64 t end.
Definition to_int (s : str) : result Z IntParseErr := parse_i64_pep515 (trim_matches is_whitespace s).
End StrOps.

(** ** Occurrences *)
Definition occurs_at (s sub : str) (i : nat) : Prop := (i <= length s)%nat /\ starts_with (drop i s) sub = true.

Lemma starts_with_app s p : starts_with s p = true <-> exists r, s = p ++ r.
Proof.
  revert s. induction p as [|c p IH]; intros s; [destruct s; by split; eauto|]. destruct s as [|d s]; simpl.
  - split; [done|by intros []].
  - rewrite andb_true_iff, Z.eqb_eq, IH. split; [intros [-> [r ->]]; by exists r|]. intros [r [= -> ->]]. by split; [|exists r].
Qed.
Lemma starts_with_drop s p : starts_with s p = true -> s = p ++ drop (length p) s.
Proof. intros [r ->]%starts_with_app. by rewrite drop_app_length. Qed.
Lemma starts_with_more s t p : starts_with s p = true -> starts_with (s ++ t) p = true.
Proof. intros [r ->]%starts_with_app. apply starts_with_app. exists (r ++ t). by rewrite (assoc_L (++)). Qed.

(** [find] answers the first occurrence. *)
Lemma find_first s sub : match find s sub with
  | Some i => occurs_at s sub i /\ forall j, (j < i)%nat -> ~ occurs_at s sub j
  | None => forall j, ~ occurs_at s sub j
  end.
Proof.
  assert (F : forall s, find s sub = if starts_with s sub then Some O else match s with [] => None | _ :: s => S <$> find s sub end) by (intros []; done).
  induction s as [|c s IH]; rewrite F; destruct (starts_with _ sub) eqn:E; try (split; [split; [lia|done]|intros; lia]).
  - intros j [Hj Ho]. simpl in Hj. assert (j = O) as -> by lia. cbn [drop] in Ho. congruence.
  - assert (G : forall j, occurs_at (c :: s) sub (S j) <-> occurs_at s sub j) by (intros j; unfold occurs_at; simpl; split; intros [? ?]; (split; [lia|done])).
    assert (G0 : ~ occurs_at (c :: s) sub 0) by (intros [_ H]; cbn [drop] in H; congruence).
    destruct (find s sub) as [i|]; simpl.
    + destruct IH as [IH1 IH2]. split; [by apply G|]. intros [|j] Hj; [done|]. rewrite G. apply IH2. lia.
    + intros [|j]; [done|]. rewrite G. apply IH.
Qed.
Lemma contains_iff s sub : contains s sub = true <-> exists i, occurs_at s sub i.
Proof.
  unfold contains. rewrite bool_decide_eq_true. pose proof (find_first s sub) as H. destruct (find s sub) as [i|].
  - split; [intros _; exists i; apply H|by eexists].
  - split; [by intros []|]. intros [j Hj]. by apply H in Hj.
Qed.

(** ** [split], [join], [count] and [replace] *)
Lemma split_at_cons sep skip cur s : exists p ps, split_at sep skip cur s = p :: ps.
Proof.
  revert skip cur. induction s as [|c s IH]; intros skip cur; cbn [split_at matches replace_at]; [by eexists _, _|]. destruct skip; [|apply IH].
  destruct (starts_with (c :: s) sep); [by eexists _, _|apply IH].
Qed.
Lemma join_cons sep new p skip cur s : join new (p :: split_at sep skip cur s) = p ++ new ++ join new (split_at sep skip cur s).
Proof.
  destruct (split_at_cons sep skip cur s) as (q & qs & ->). done.
Qed.

(** The scan, past the [skip] characters: what the separators join to. *)
Lemma split_replace sep new skip cur s : sep <> [] ->
  join new (split_at sep skip cur s) = cur ++ replace_at sep new skip s.
Proof.
  intros Hs. revert skip cur. induction s as [|c s IH]; intros skip cur; cbn [split_at matches replace_at]; [done|].
  destruct skip as [|skip]; [|apply IH]. destruct (starts_with (c :: s) sep).
  - by rewrite join_cons, IH.
  - rewrite IH, <- (assoc_L (++)). done.
Qed.
Lemma replace_same sep skip s : sep <> [] -> replace_at sep sep skip s = drop skip s.
Proof.
  intros Hs. revert skip. induction s as [|c s IH]; intros skip; cbn [replace_at]; [by rewrite drop_nil|].
  destruct skip as [|skip]; [|apply IH]. destruct (starts_with (c :: s) sep) eqn:E; [|by rewrite IH].
  rewrite IH. apply starts_with_drop in E. destruct sep as [|d sep]; [done|exact (eq_sym E)].
Qed.
Lemma split_count sep skip cur s : length (split_at sep skip cur s) = S (matches sep skip s).
Proof.
  revert skip cur. induction s as [|c s IH]; intros skip cur; cbn [split_at matches replace_at]; [done|]. destruct skip; [|apply IH].
  destruct (starts_with (c :: s) sep); [simpl; by rewrite IH|apply IH].
Qed.
Lemma split_pieces sep skip cur s : sep <> [] -> (skip = O \/ cur = []) ->
  (forall i, (i < length cur)%nat -> starts_with (drop i cur ++ s) sep = false) ->
  Forall (fun p => contains p sep = false) (split_at sep skip cur s).
Proof.
  intros Hs. assert (N : forall cur t, (forall i, (i < length cur)%nat -> starts_with (drop i cur ++ t) sep = false) -> contains cur sep = false).
  { intros u t Hu. apply not_true_iff_false. rewrite contains_iff. intros (i & Hi & Ho). destruct (decide (i < length u)%nat) as [Hl|Hl].
    - specialize (Hu i Hl). by rewrite (starts_with_more _ t _ Ho) in Hu.
    - rewrite drop_ge in Ho by lia. by destruct sep. }
  revert skip cur. induction s as [|c s IH]; intros skip cur Hk Hc; cbn [split_at].
  { apply Forall_singleton. by apply (N cur []). }
  destruct skip as [|skip]; [|destruct Hk as [?| ->]; [done|]; apply IH; [by right|intros i Hi; simpl in Hi; lia]].
  destruct (starts_with (c :: s) sep) eqn:E.
  - constructor; [by apply (N cur (c :: s))|]. apply IH; [by right|intros i Hi; simpl in Hi; lia].
  - apply IH; [by left|]. intros i Hi. rewrite length_app in Hi. simpl in Hi. rewrite drop_app, <- (assoc_L (++)).
    destruct (decide (i < length cur)%nat) as [Hl|Hl].
    + replace (i - length cur)%nat with O by lia. simpl. by apply Hc.
    + rewrite drop_ge by lia. replace (i - length cur)%nat with O by lia. done.
Qed.

(** [split] is the inverse of [join] and agrees with the other scans.  For a separator that is not
    empty it answers pieces that join back to the text; none of them contains the separator;
    [count] is one less than their number; and [replace] is the pieces joined by the new text.  An
    empty separator is a fault. *)
Theorem split_join (s sep new : str) :
  match split s sep with
  | Ok ps => sep <> [] /\ join sep ps = s /\ Forall (fun p => contains p sep = false) ps /\
      Z.of_nat (length ps) = count s sep + 1 /\ join new ps = replace s sep new
  | Err e => sep = [] /\ e = "split: sep must not be empty"%string
  end.
Proof.
  unfold split, count, replace. case_bool_decide as Hs; [done|]. split; [done|].
  split; [rewrite split_replace, replace_same by done; done|].
  split; [apply split_pieces; [done|by left|intros i Hi; simpl in Hi; lia]|].
  split; [rewrite split_count; lia|by rewrite split_replace].
Qed.

(** ** Padding and lines *)
Lemma pad_width can_reserve left s width fill out : pad can_reserve left s width fill = Ok out ->
  Z.of_nat (length out) = Z.max width (Z.of_nat (length s)) /\ exists p, out = if left : bool then p ++ s else s ++ p.
Proof.
  unfold pad. case_bool_decide; [done|]. destruct (Z.leb_spec width (Z.of_nat (length s))).
  - intros [= <-]. split; [lia|]. exists []. destruct left; [done|by rewrite app_nil_r].
  - destruct (_ && _); [|done]. intros [= <-]. split; [|by destruct left; eexists].
    assert (E : length (cycle_take fill (Z.to_nat (width - Z.of_nat (length s)))) = Z.to_nat (width - Z.of_nat (length s)))
      by (unfold cycle_take; by rewrite length_fmap, length_seq).
    destruct left; rewrite length_app, E; lia.
Qed.

Definition terminator (c : Z) : bool := (c =? 10) || (c =? 13).
Lemma lines_loop_ok n lines cur s : (length s <= n)%nat -> Forall (fun c => terminator c = false) cur ->
  exists ls, lines_loop lines cur s = lines ++ ls /\ concat ls = cur ++ filter (fun c => terminator c = false) s /\
    Forall (Forall (fun c => terminator c = false)) ls.
Proof.
  revert lines cur s. induction n as [|n IH]; intros lines cur [|c s] Hn Hc; simpl in Hn; try lia; simpl.
  1, 2: case_bool_decide as E; [subst; exists []; by rewrite app_nil_r|exists [cur]; split; [done|]; split; [simpl; by rewrite !app_nil_r|by apply Forall_singleton]].
  assert (Hnext : forall s, (length s <= n)%nat -> exists ls, lines_loop (lines ++ [cur]) [] s = lines ++ ls /\
    concat ls = cur ++ filter (fun c => terminator c = false) s /\ Forall (Forall (fun c => terminator c = false)) ls).
  { intros t Ht. destruct (IH (lines ++ [cur]) [] t Ht (List.Forall_nil _)) as (ls & -> & E & Hls). exists (cur :: ls).
    split; [by rewrite <- (assoc_L (++))|]. split; [simpl; by rewrite E|]. by constructor. }
  destruct (Z.eqb_spec c 13) as [->|H13]; [|destruct (Z.eqb_spec c 10) as [->|H10]].
  - rewrite (filter_cons_False _ 13) by done. destruct s as [|d s]; [apply (Hnext []); simpl; lia|]. 
    destruct (Z.eqb_spec d 10) as [->|Hd].
    + rewrite (filter_cons_False _ 10) by done. apply Hnext. simpl in Hn. lia.
    + assert (E : (match d with 10 => lines_loop (lines ++ [cur]) [] s | _ => lines_loop (lines ++ [cur]) [] (d :: s) end) = lines_loop (lines ++ [cur]) [] (d :: s)).
      { destruct d as [|p|p]; try done. by do 4 (destruct p as [p|p|]; try done). }
      cbn zeta in *. rewrite E. apply Hnext. lia.
  - rewrite (filter_cons_False _ 10) by done. apply Hnext. lia.
  - assert (Ht : terminator c = false) by (unfold terminator; by rewrite (proj2 (Z.eqb_neq c 10) H10), (proj2 (Z.eqb_neq c 13) H13)).
    rewrite (filter_cons_True _ c) by done. destruct (IH lines (cur ++ [c]) s) as (ls & -> & E & Hls); [lia|apply Forall_app; split; [done|by apply Forall_singleton]|].
    exists ls. split; [done|]. split; [by rewrite E, <- (assoc_L (++))|done].
Qed.
(** [split_lines] loses nothing but the line ends, and no line holds one. *)
Lemma split_lines_ok s : concat (split_lines s) = filter (fun c => terminator c = false) s /\
  Forall (Forall (fun c => terminator c = false)) (split_lines s).
Proof. destruct (lines_loop_ok (length s) [] [] s) as (ls & E & H); [done|constructor|]. unfold split_lines. rewrite E. exact H. Qed.

(** ** Numerals *)
Definition digit (c : Z) : Prop := is_ascii_digit c = true.
Definition value_from (acc : Z) (ds : str) : Z := fold_left (fun v c => v * 10 + (c - 48)) ds acc.
(** An int as [to_int] reads it: a sign, then groups of digits with single underscores between. *)
Definition numeral (t : str) (n : Z) : Prop := exists sign groups,
  t = sign ++ join [95] groups /\ groups <> [] /\ Forall (fun g => g <> [] /\ Forall digit g) groups /\
  (sign = [] \/ sign = [43] \/ sign = [45]) /\
  n = if bool_decide (sign = [45]) then - value_from 0 (concat groups) else value_from 0 (concat groups).

Lemma to_digit10 c : to_digit 10 c = if is_ascii_digit c then Some (c - 48) else None.
Proof.
  unfold to_digit, is_ascii_digit, between. destruct ((48 <=? c) && (c <=? 57)) eqn:E.
  - apply andb_true_iff in E as [?%Z.leb_le ?%Z.leb_le]. by rewrite (proj2 (Z.ltb_lt (c - 48) 10)) by lia.
  - destruct ((97 <=? c) && (c <=? 122)) eqn:E1; [|destruct ((65 <=? c) && (c <=? 90)) eqn:E2; [|done]].
    + apply andb_true_iff in E1 as [?%Z.leb_le _]. by rewrite (proj2 (Z.ltb_ge (c - 87) 10)) by lia.
    + apply andb_true_iff in E2 as [?%Z.leb_le _]. by rewrite (proj2 (Z.ltb_ge (c - 55) 10)) by lia.
Qed.
Lemma is_digit10 c : is_digit 10 c = is_ascii_digit c.
Proof. unfold is_digit. rewrite to_digit10. destruct (is_ascii_digit c); [by apply bool_decide_eq_true; eexists|apply bool_decide_eq_false; by intros []]. Qed.
Lemma digit_range c : digit c <-> 48 <= c <= 57.
Proof. unfold digit, is_ascii_digit, between. rewrite andb_true_iff, !Z.leb_le. done. Qed.
Lemma value_from_ge acc ds : 0 <= acc -> Forall digit ds -> acc <= value_from acc ds.
Proof.
  intros Ha Hd. revert acc Ha. induction Hd as [|c ds Hc _ IH]; intros acc Ha; simpl; [lia|]. apply digit_range in Hc.
  assert (acc <= acc * 10 + (c - 48)); [lia|]. etrans; [|apply IH]; lia.
Qed.

Lemma parse_digits_iff (neg : bool) a s n : let signed v := if neg then - v else v in 0 <= a -> I64.ok (signed a) ->
  parse_digits neg (signed a) s = Ok n <-> Forall digit s /\ n = signed (value_from a s) /\ I64.ok n.
Proof.
  intros signed. revert a. induction s as [|c s IH]; intros a Ha Hok; cbn [parse_digits].
  { split; [by intros [= <-]|]. by intros (_ & -> & _). }
  rewrite to_digit10. destruct (is_ascii_digit c) eqn:Ec.
  2: { split; [done|]. intros (H & _). apply list.Forall_cons in H as [H _]. unfold digit in H. congruence. }
  assert (Hc := Ec). apply digit_range in Hc.
  assert (Hstep : Forall digit (c :: s) <-> Forall digit s) by (rewrite list.Forall_cons; unfold digit; tauto).
  rewrite Hstep. change (value_from a (c :: s)) with (value_from (a * 10 + (c - 48)) s).
  assert (Hbig : forall v, a * 10 <= v <= a * 10 + (c - 48) -> ~ I64.ok (signed v) -> Forall digit s -> ~ I64.ok (signed (value_from (a * 10 + (c - 48)) s))).
  { intros v Hv Hn Hs. pose proof (value_from_ge (a * 10 + (c - 48)) s ltac:(lia) Hs). unfold signed, I64.ok, I64.MIN, I64.MAX in *. destruct neg; lia. }
  destruct (I64.checked_mul (signed a) 10) as [m|] eqn:Em.
  - apply I64.checked_Some in Em as [-> _].
    assert (Es : (if neg then I64.checked_sub (signed a * 10) (c - 48) else I64.checked_add (signed a * 10) (c - 48)) = I64.checked (signed (a * 10 + (c - 48)))).
    { unfold signed. destruct neg; unfold I64.checked_sub, I64.checked_add; f_equal; lia. }
    rewrite Es. destruct (I64.checked (signed (a * 10 + (c - 48)))) as [k|] eqn:Ek.
    + apply I64.checked_Some in Ek as [-> Hk]. apply IH; [lia|done].
    + apply I64.checked_None in Ek. split; [done|]. intros (Hs & -> & Hn). by destruct (Hbig (a * 10 + (c - 48)) ltac:(lia) Ek Hs).
  - apply I64.checked_None in Em. split; [done|]. intros (Hs & -> & Hn). destruct (Hbig (a * 10) ltac:(lia)); [|done|done].
    unfold signed in *. destruct neg; [by rewrite Z.mul_opp_l in Em|done].
Qed.

Lemma parse_all (neg : bool) s n : parse_digits neg 0 s = Ok n <->
  Forall digit s /\ n = (if neg then - value_from 0 s else value_from 0 s) /\ I64.ok n.
Proof. destruct neg; [apply (parse_digits_iff true 0 s n)|apply (parse_digits_iff false 0 s n)]; by try lia. Qed.

(** *** Underscores *)
Definition group (g : str) : Prop := g <> [] /\ Forall digit g.
Definition tail (gs : list str) : str := concat ((fun q => 95 :: q) <$> gs).
Lemma join_tail g gs : join [95] (g :: gs) = g ++ tail gs.
Proof.
  unfold join. cbn [join_loop app]. f_equal. induction gs as [|q gs IH]; [done|]. cbn [join_loop]. rewrite IH. done.
Qed.
Lemma digit_not_bar c : digit c -> (c =? 95) = false.
Proof. intros H%digit_range. apply Z.eqb_neq. lia. Qed.

Lemma flanked_groups prev s : flanked prev s = true -> Forall digit (filter (fun c => c <> 95) s) ->
  exists g gs, s = g ++ tail gs /\ Forall digit g /\ Forall group gs.
Proof.
  revert prev. induction s as [|c s IH]; intros prev Hf Hd; [by exists [], []|].
  cbn [flanked] in Hf. apply andb_true_iff in Hf as [Hc Hf]. destruct (Z.eqb_spec c 95) as [->|Hne].
  - rewrite filter_cons_False in Hd by auto. destruct (IH _ Hf Hd) as (g & gs & Es & Hg & Hgs). exists [], (g :: gs).
    split; [unfold tail; cbn [fmap list_fmap concat app]; by rewrite Es|]. split; [constructor|]. constructor; [|done]. split; [|done].
    intros ->. apply andb_true_iff in Hc as [_ Hc]. destruct s as [|x s]; [done|]. destruct gs as [|q gs]; [done|].
    unfold tail in Es. cbn in Es. injection Es as -> _. done.
  - rewrite filter_cons_True in Hd by done. apply list.Forall_cons in Hd as [Hdc Hd].
    destruct (IH _ Hf Hd) as (g & gs & -> & Hg & Hgs). exists (c :: g), gs. split; [done|]. split; [by constructor|done].
Qed.
Lemma groups_flanked prev g gs : Forall digit g -> Forall group gs ->
  (g = [] -> gs = [] \/ exists p, prev = Some p /\ digit p) -> flanked prev (g ++ tail gs) = true.
Proof.
  intros Hg Hgs. revert prev g Hg. induction Hgs as [|q gs [Hq Hqd] _ IH]; intros prev g Hg.
  - intros _. unfold tail. cbn. rewrite app_nil_r. revert prev. induction Hg as [|c g Hc _ IH]; intros prev; [done|].
    cbn [flanked]. by rewrite (digit_not_bar c Hc), IH.
  - revert prev. induction Hg as [|c g Hc Hg IHg]; intros prev Hp.
    + destruct (Hp eq_refl) as [?|(p & -> & Hpd)]; [done|]. unfold tail. cbn [fmap list_fmap concat app flanked]. cbn [Z.eqb Pos.eqb].
      rewrite is_digit10, Hpd. destruct q as [|x q]; [done|]. cbn [app andb]. apply list.Forall_cons in Hqd as [Hx Hqd]. rewrite is_digit10, Hx.
      apply (IH (Some 95) (x :: q)); [by constructor|done].
    + cbn [app flanked]. rewrite (digit_not_bar c Hc). apply IHg. intros _. right. by exists c.
Qed.
Lemma filter_groups g gs : Forall digit g -> Forall group gs -> filter (fun c => c <> 95) (g ++ tail gs) = g ++ concat gs.
Proof.
  assert (Fd : forall g, Forall digit g -> filter (fun c => c <> 95) g = g).
  { intros u Hu. induction Hu as [|c u Hc _ IH]; [done|]. rewrite filter_cons_True; [by rewrite IH|].
    intros ->. apply digit_range in Hc. lia. }
  intros Hg Hgs. rewrite list.filter_app, (Fd g Hg). f_equal. induction Hgs as [|q gs [_ Hq] _ IH]; [done|].
  unfold tail in *. cbn [fmap list_fmap concat]. rewrite list.filter_app, (filter_cons_False _ 95) by auto. by rewrite (Fd q Hq), IH.
Qed.

(** [to_int] reads exactly the numerals, at their value, when it is an [i64]: blanks around it are
    trimmed, the sign may be [+] or [-], and an underscore stands only between two digits. *)
Theorem to_int_reads {T : CharTables} (s : str) (n : Z) :
  to_int s = Ok n <-> I64.ok n /\ numeral (trim_matches is_whitespace s) n.
Proof.
  unfold to_int, parse_i64_pep515, strip_num_underscores. generalize (trim_matches is_whitespace s). intros t. change (ch "_") with 95.
  split.
  - destruct (flanked None t) eqn:Ef; [|done]. unfold parse_i64. case_bool_decide as Hne; [done|].
    destruct t as [|c t]; [done|]. cbn [flanked] in Ef. apply andb_true_iff in Ef as [Hc Ef].
    destruct (Z.eqb_spec c 95) as [->|Hc95]; [done|]. rewrite filter_cons_True in * by done. cbn iota in *.
    intros H. set (neg := c =? 45) in *. destruct (neg || (c =? 43)) eqn:Es.
    + apply parse_all in H as (Hd & -> & Hok).
      split; [done|]. destruct (flanked_groups _ _ Ef Hd) as (g & gs & -> & Hg & Hgs). rewrite filter_groups in * by done.
      assert (Hgn : g <> []).
      { intros ->. destruct gs as [|q gs]; [done|]. cbn in Ef. apply andb_true_iff in Ef as [Ef _]. apply andb_true_iff in Ef as [Ef _].
        rewrite is_digit10 in Ef. apply digit_range in Ef. unfold neg in Es. apply orb_true_iff in Es as [?%Z.eqb_eq|?%Z.eqb_eq]; lia. }
      exists [c], (g :: gs). rewrite join_tail. split; [done|]. split; [done|]. split; [by constructor|].
      split; [unfold neg in Es; apply orb_true_iff in Es as [->%Z.eqb_eq| ->%Z.eqb_eq]; auto|].
      cbn [concat]. unfold neg. destruct (Z.eqb_spec c 45) as [->|Hne45]; [done|]. rewrite bool_decide_eq_false_2; [done|congruence].
    + assert (neg = false) as En by (by destruct neg). rewrite En in H. apply parse_all in H as (Hd & -> & Hok).
      split; [done|]. assert (Hd' : Forall digit (filter (fun c => c <> 95) (c :: t))) by (by rewrite filter_cons_True).
      assert (Ef' : flanked None (c :: t) = true) by (cbn [flanked]; by rewrite (proj2 (Z.eqb_neq c 95) Hc95)).
      destruct (flanked_groups _ _ Ef' Hd') as (g & gs & Et & Hg & Hgs).
      assert (Hv : c :: filter (fun c => c <> 95) t = g ++ concat gs) by (rewrite <- (filter_groups g gs Hg Hgs), <- Et; by rewrite filter_cons_True).
      rewrite Hv in *. assert (Hgn : g <> []). { intros ->. destruct gs as [|q gs]; [done|]. cbn in Et. injection Et as -> _. done. }
      exists [], (g :: gs). rewrite join_tail. split; [exact Et|]. split; [done|]. split; [by constructor|]. split; [auto|done].
  - intros (Hok & sign & groups & -> & Hgne & Hg & Hs & ->). destruct groups as [|g gs]; [done|].
    apply list.Forall_cons in Hg as [[Hgn Hg] Hgs]. rewrite join_tail.
    assert (Ef : flanked None (sign ++ g ++ tail gs) = true).
    { destruct Hs as [->|[->| ->]]; cbn [app flanked Z.eqb Pos.eqb andb]; by apply groups_flanked. }
    rewrite Ef, list.filter_app, filter_groups by done. destruct g as [|c g]; [done|]. assert (Hc := Hg).
    apply list.Forall_cons in Hc as [Hc _]. apply digit_range in Hc. cbn [concat] in *.
    assert (Hall : Forall digit ((c :: g) ++ concat gs)).
    { apply Forall_app. split; [done|]. apply Forall_concat. eapply list.Forall_impl; [exact Hgs|by intros q []]. }
    unfold parse_i64. destruct Hs as [->|[->| ->]].
    + cbn [app filter list_filter]. cbn iota. rewrite (proj2 (Z.eqb_neq c 45)), (proj2 (Z.eqb_neq c 43)) by lia. cbn [orb].
      rewrite bool_decide_eq_false_2 by done. by apply parse_all.
    + rewrite filter_cons_True by done. cbn [app filter list_filter]. cbn iota. cbn [Z.eqb Pos.eqb orb]. rewrite bool_decide_eq_false_2 by done.
      by apply parse_all.
    + rewrite filter_cons_True by done. cbn [app filter list_filter]. cbn iota. cbn [Z.eqb Pos.eqb orb]. rewrite bool_decide_eq_false_2 by done.
      by apply parse_all.
Qed.

(** *** Where the texts beside the code say otherwise *)

(** A malformed numeral is called out of range when it overflows before its bad character. *)
Lemma overflow_before_bad_digit : parse_i64_pep515 (replicate 20 (ch "9") ++ [ch "x"]) = Err Overflow.
Proof. vm_compute. reflexivity. Qed.
(** [strip] takes U+001C for a blank and [to_int] does not, as Python's [int] would. *)
Lemma to_int_blanks {T : CharTables} {L : CharLaws T} : strip [28; ch "5"] = [ch "5"] /\ to_int [28; ch "5"] = Err Malformed.
Proof.
  assert (E1 : is_whitespace 28 = false) by (by rewrite whitespace_ascii).
  assert (E2 : is_whitespace 53 = false) by (by rewrite whitespace_ascii).
  assert (B1 : py_blank 28 = true) by (unfold py_blank; by rewrite E1).
  assert (B2 : py_blank 53 = false) by (unfold py_blank; by rewrite E2).
  unfold strip, to_int, trim_matches. cbn [trim_start]. rewrite B1, B2, E1. change (reverse [53]) with [53].
  change (reverse [28; 53]) with [53; 28]. cbn [trim_start]. rewrite B2, E2. done.
Qed.
