(* ===== verification/MapData.v ===== *)
(** * Hash maps and sets: [src/src/vm/map_data.rs]

    An insertion-ordered entry vector with an open-addressing index: a power-of-two table of 64-bit
    slots, each a hash tag over [position + 1], linear probing, load factor at most 1/2.  The view
    is that of one thread (racing readers are the user's race).  A [Vec] is a list, a machine word
    a [Z], a [usize] position a [nat]; the slot writer's capacity panic is [None]. *)

From S2P Require Import Prelude.
Local Open Scope Z_scope.

Definition POS_BITS : Z := 40.
Definition TAG_BITS : Z := 64 - POS_BITS.
Definition POS_MASK : Z := 2 ^ POS_BITS - 1.
Definition SPREAD : Z := 0x9e3779b97f4a7c15.

(** [u64] helpers. *)
Definition u64 (z : Z) : Z := z mod 2 ^ 64.
Fixpoint pos_trailing_zeros (p : positive) : Z :=
  match p with xO p => 1 + pos_trailing_zeros p | _ => 0 end.
Definition trailing_zeros (z : Z) : Z :=
  match z with Zpos p => pos_trailing_zeros p | _ => 64 end.
Definition next_power_of_two (n : Z) : Z := 2 ^ Z.log2_up n.

(** [place]: the first slot and the tag of hash [h] in a table of [cap] slots. *)
Definition place (h : Z) (cap : nat) : nat * Z :=
  let x := u64 (h * SPREAD) in
  let b := trailing_zeros (Z.of_nat cap) in
  (Z.to_nat (Z.shiftr x (64 - b)), Z.shiftr (u64 (Z.shiftl x b)) (64 - TAG_BITS)).

(** [slot_word]: [None] is the capacity panic. *)
Definition slot_word (tag : Z) (pos : nat) : option Z :=
  let p := Z.of_nat pos + 1 in
  if p >? POS_MASK then None else Some (Z.lor (u64 (Z.shiftl tag POS_BITS)) p).

(** [table_cap]: [saturating_mul], then the next power of two, at least 8. *)
Definition table_cap (n : nat) : nat :=
  Nat.max (Z.to_nat (next_power_of_two (Z.min (Z.of_nat n * 2) (2 ^ 64 - 1)))) 8.

(** [(i + 1) & (cap - 1)]. *)
Definition next_slot (i cap : nat) : nat := Nat.land (i + 1) (cap - 1).

(** The probe for an empty slot: the source's [while v.get(i) != 0] in [build] and [for _ in 0..cap]
    in [insert]; [fuel] bounds the slots read. *)
Fixpoint find_free (fuel : nat) (t : list Z) (i : nat) : option nat :=
  match fuel with
  | O => None
  | S fuel =>
      match t !! i with
      | Some 0 => Some i
      | Some _ => find_free fuel t (next_slot i (length t))
      | None => None
      end
  end.

(** One round of [build]: place [(h, pos)] in the first free slot of its probe run. *)
Definition build_put (t : list Z) (kp : Z * nat) : option (list Z) :=
  let '(h, pos) := kp in
  let '(i, tag) := place h (length t) in
  i ← find_free (length t) t i;
  w ← slot_word tag pos;
  Some (<[i := w]> t).

Fixpoint build_all (t : list Z) (keys : list (Z * nat)) : option (list Z) :=
  match keys with
  | [] => Some t
  | k :: keys => t ← build_put t k; build_all t keys
  end.

Definition build (n : nat) (keys : list (Z * nat)) : option (list Z) :=
  build_all (replicate (table_cap n) 0) keys.

(** [hashes.iter().copied().zip(0..)]. *)
Definition zip_pos (hashes : list Z) : list (Z * nat) := zip hashes (seq 0 (length hashes)).

(** [SharedIndex::from_hashes] and [rebuild]. *)
Definition from_hashes (hashes : list Z) : option (list Z) :=
  match hashes with [] => Some [] | _ => build (length hashes) (zip_pos hashes) end.

(** An entry with its cached hash: [CachedHash] of [vm/rvec.rs]. *)
Class CachedHash (E : Type) := hash_of : E -> Z.

Section index.
  Context {E : Type} `{CachedHash E}.

(** [SharedIndex::insert]: [entries] already holds the new entry at [pos]. *)
Definition index_insert (t : list Z) (entries : list E) (h : Z) (pos : nat) : option (list Z) :=
  let cap := length t in
  let in_place :=
    if ((pos + 1) * 2 <=? cap)%nat
    then let '(i, tag) := place h cap in (fun i => (i, tag)) <$> find_free cap t i
    else None in
  match in_place with
  | Some (i, tag) => w ← slot_word tag pos; Some (<[i := w]> t)
  | None =>
      let old := zip_pos (hash_of <$> take (Nat.min pos (length entries)) entries) in
      build (Nat.max cap (pos + 1)) (old ++ [(h, pos)])
  end.

(** [Candidates]: the probe iterator, with its cursor [i] and the slots [left] to read. *)
Record Candidates := mkCand { cand_i : nat; cand_left : nat }.

(** One slot read: a stop, a skip, or a candidate position. *)
Inductive slot_read := Stop | Skip | Cand (p : nat).
Definition read_slot (t : list Z) (entries : list E) (h tag : Z) (i : nat) : slot_read :=
  match t !! i with
  | None | Some 0 => Stop
  | Some s =>
      let pos := Z.to_nat (Z.land s POS_MASK - 1) in
      if (Z.shiftr s POS_BITS =? tag) && (pos <? length entries)%nat &&
         match entries !! pos with Some e => hash_of e =? h | None => false end
      then Cand pos else Skip
  end.

(** [Iterator::next]: reads until a hit, an empty slot, or [left] slots. *)
Fixpoint cand_next (t : list Z) (entries : list E) (h tag : Z) (i remaining : nat)
  : option (nat * Candidates) :=
  match remaining with
  | O => None
  | S remaining =>
      match read_slot t entries h tag i with
      | Stop => None
      | Skip => cand_next t entries h tag (next_slot i (length t)) remaining
      | Cand p => Some (p, mkCand (next_slot i (length t)) remaining)
      end
  end.

(** Draining the iterator: each item leaves fewer slots, so [left] items are enough. *)
Fixpoint cand_collect (fuel : nat) (t : list Z) (entries : list E) (h tag : Z) (c : Candidates)
  : list nat :=
  match fuel with
  | O => []
  | S fuel =>
      match cand_next t entries h tag (cand_i c) (cand_left c) with
      | Some (p, c) => p :: cand_collect fuel t entries h tag c
      | None => []
      end
  end.

(** [SharedIndex::candidates], drained. *)
Definition candidates (t : list Z) (entries : list E) (h : Z) : list nat :=
  let cap := length t in
  let '(i, tag) := if (cap =? 0)%nat then (O, 0) else place h cap in
  cand_collect cap t entries h tag (mkCand i cap).

(** ** Tables: [MapData] and [SetData] differ only in their entry type *)
Record TableData := mkTable { entries : list E; index : list Z; version : Z }.

Definition empty_table : TableData := mkTable [] [] 0.

Definition from_entries (es : list E) : option TableData :=
  t ← from_hashes (hash_of <$> es); Some (mkTable es t 0).

Definition push (m : TableData) (e : E) : option TableData :=
  let pos := length (entries m) in
  let es := entries m ++ [e] in
  t ← index_insert (index m) es (hash_of e) pos;
  Some (mkTable es t (u64 (version m + 1))).

(** [Vec::remove]. *)
Definition vec_remove {A} (i : nat) (l : list A) : list A := take i l ++ drop (S i) l.

(** [remove_at]: the outer option is the capacity panic, the inner one "no entry [i]". *)
Definition remove_at (m : TableData) (i : nat) : option (option E * TableData) :=
  match entries m !! i with
  | None => Some (None, m)
  | Some removed =>
      let es := vec_remove i (entries m) in
      t ← from_hashes (hash_of <$> es);
      Some (Some removed, mkTable es t (u64 (version m + 1)))
  end.
End index.
Arguments TableData : clear implicits.
Arguments Candidates : clear implicits.

(** ** Map entries *)

(** A map entry is (cached hash, key, value), a set entry (cached hash, element). *)
Abbreviation MapEntry V := (Z * V * V)%type.
Abbreviation SetEntry V := (Z * V)%type.

Section map.
  Context {V : Type}.
#[global] Instance map_entry_hash : CachedHash (MapEntry V) := fun e => e.1.1.
#[global] Instance set_entry_hash : CachedHash (SetEntry V) := fun e => e.1.

Definition value_at (m : TableData (MapEntry V)) (i : nat) : option V :=
  (fun e : MapEntry V => e.2) <$> entries m !! i.

Definition set_value (m : TableData (MapEntry V)) (i : nat) (v : V) : option V * TableData (MapEntry V) :=
  match entries m !! i with
  | None => (None, m)
  | Some (h, k, old) =>
      (Some old, mkTable (<[i := (h, k, v)]> (entries m)) (index m) (version m))
  end.
End map.

(** ** Table geometry *)

(** A table size: a power of two from 8 to 2^63. *)
Definition is_cap (cap : nat) : Prop := exists b : nat, cap = (2 ^ b)%nat /\ (3 <= b <= 63)%nat.

Lemma trailing_zeros_pow2 b : trailing_zeros (Z.of_nat (2 ^ b)) = Z.of_nat b.
Proof.
  induction b as [|b IH]; [done|].
  rewrite Nat.pow_succ_r', Nat2Z.inj_mul.
  destruct (Z.of_nat (2 ^ b)) as [|p|p] eqn:E.
  - pose proof (Nat.pow_nonzero 2 b). lia.
  - change (Z.of_nat 2 * Zpos p) with (Zpos p~0). cbn [trailing_zeros pos_trailing_zeros] in *. lia.
  - pose proof (Nat2Z.is_nonneg (2 ^ b)). lia.
Qed.

Lemma of_nat_pow2 b : Z.of_nat (2 ^ b) = 2 ^ Z.of_nat b.
Proof. by rewrite Nat2Z.inj_pow. Qed.

Lemma place_spec h cap :
  is_cap cap -> ((place h cap).1 < cap)%nat /\ 0 <= (place h cap).2 < 2 ^ TAG_BITS.
Proof.
  intros (b & -> & Hb). unfold place. rewrite trailing_zeros_pow2. cbn [fst snd].
  set (x := u64 (h * SPREAD)).
  assert (Hx : 0 <= x < 2 ^ 64) by (apply Z.mod_pos_bound; lia).
  set (y := u64 (Z.shiftl x (Z.of_nat b))).
  assert (Hy : 0 <= y < 2 ^ 64) by (apply Z.mod_pos_bound; lia).
  rewrite !Z.shiftr_div_pow2 by (unfold TAG_BITS, POS_BITS; lia).
  split.
  - apply Nat2Z.inj_lt. rewrite of_nat_pow2, Z2Nat.id by (apply Z.div_pos; lia).
    apply Z.div_lt_upper_bound; [lia|]. rewrite <- Z.pow_add_r by lia.
    replace (64 - Z.of_nat b + Z.of_nat b) with 64 by lia. lia.
  - unfold TAG_BITS, POS_BITS. split; [apply Z.div_pos; lia|].
    apply Z.div_lt_upper_bound; lia.
Qed.

(** The slot word of [tag] and position [p]. *)
Definition word (tag : Z) (p : nat) : Z := tag * 2 ^ POS_BITS + (Z.of_nat p + 1).

(** The largest entry count a slot can name. *)
Definition MAX_ENTRIES : Z := POS_MASK.

Lemma slot_word_ok tag p :
  0 <= tag < 2 ^ TAG_BITS -> Z.of_nat p < MAX_ENTRIES -> slot_word tag p = Some (word tag p).
Proof.
  unfold slot_word, word, MAX_ENTRIES, POS_MASK, TAG_BITS, POS_BITS. intros Ht Hp.
  rewrite Z.gtb_ltb, (proj2 (Z.ltb_ge _ _)) by lia.
  f_equal. rewrite Z.shiftl_mul_pow2 by lia. unfold u64. rewrite Z.mod_small by lia.
  apply lor_low; lia.
Qed.

Lemma slot_fields tag p :
  0 <= tag -> Z.of_nat p < MAX_ENTRIES ->
  word tag p <> 0 /\ Z.shiftr (word tag p) POS_BITS = tag /\
  Z.to_nat (Z.land (word tag p) POS_MASK - 1) = p.
Proof.
  unfold word, MAX_ENTRIES, POS_MASK, POS_BITS. intros Ht Hp.
  split; [lia|]. rewrite land_low, Z.shiftr_div_pow2 by lia.
  rewrite (Z.add_comm (tag * _)), Z.div_add, Z.mod_add by lia.
  rewrite Z.div_small, Z.mod_small by lia. lia.
Qed.

(** The probe run from slot [s]: its [d]-th slot. *)
Definition run (cap s d : nat) : nat := (s + d) `mod` cap.

Lemma is_cap_ge cap : is_cap cap -> (8 <= cap)%nat.
Proof.
  intros (b & -> & Hb). change 8%nat with (2 ^ 3)%nat. apply Nat.pow_le_mono_r; lia.
Qed.

Lemma next_slot_run cap s d : is_cap cap -> next_slot (run cap s d) cap = run cap s (S d).
Proof.
  intros Hc. pose proof (is_cap_ge cap Hc). destruct Hc as (b & Hb & _).
  unfold next_slot, run. replace (cap - 1)%nat with (Nat.ones b) by (rewrite Nat.ones_equiv; lia).
  rewrite Nat.land_ones, <- Hb. rewrite Nat.Div0.add_mod_idemp_l. f_equal. lia.
Qed.

Lemma run_0 cap s : (s < cap)%nat -> run cap s 0 = s.
Proof. intros. unfold run. rewrite Nat.add_0_r. by apply Nat.mod_small. Qed.

Lemma run_lt cap s d : (0 < cap)%nat -> (run cap s d < cap)%nat.
Proof. intros. apply Nat.mod_upper_bound. lia. Qed.

Lemma run_eq cap s d :
  (s < cap)%nat -> (d < cap)%nat -> run cap s d = if decide (s + d < cap)%nat then (s + d)%nat else (s + d - cap)%nat.
Proof.
  unfold run. intros Hs Hd. case_decide; [by apply Nat.mod_small|].
  replace (s + d)%nat with ((s + d - cap) + 1 * cap)%nat at 1 by lia.
  rewrite Nat.Div0.mod_add. apply Nat.mod_small. lia.
Qed.

Lemma run_inj cap s d d' :
  (s < cap)%nat -> (d < cap)%nat -> (d' < cap)%nat -> run cap s d = run cap s d' -> d = d'.
Proof. intros Hs Hd Hd'. rewrite !run_eq by done. repeat case_decide; lia. Qed.

Lemma run_onto cap s i : (s < cap)%nat -> (i < cap)%nat -> exists d, (d < cap)%nat /\ run cap s d = i.
Proof.
  intros Hs Hi. exists (if decide (s <= i)%nat then i - s else i + cap - s)%nat.
  case_decide; (split; [lia|]); rewrite run_eq by lia; case_decide; lia.
Qed.

(** ** The index invariant *)

Definition used (t : list Z) : nat := length (filter (fun w => w <> 0) t).

(** [index_inv hs t]: the table [t] indexes the entries whose cached hashes are [hs].  Every used
    slot is the word of one entry, every entry's word is reached from its first slot without
    crossing an empty slot, and no word occurs twice. *)
Record index_inv (hs : list Z) (t : list Z) : Prop := {
  inv_cap : is_cap (length t);
  inv_slot : forall i w, t !! i = Some w -> w <> 0 ->
    exists p h, hs !! p = Some h /\ w = word (place h (length t)).2 p;
  inv_reach : forall p h, hs !! p = Some h ->
    exists d, (d < length t)%nat /\
      t !! run (length t) (place h (length t)).1 d = Some (word (place h (length t)).2 p) /\
      (forall d', (d' < d)%nat ->
         exists w, t !! run (length t) (place h (length t)).1 d' = Some w /\ w <> 0);
  inv_unique : forall i j w, t !! i = Some w -> t !! j = Some w -> w <> 0 -> i = j;
  inv_used : used t = length hs;
}.

(** A probe either finds the first empty slot of its run or sees only used slots. *)
Lemma find_free_run t s fuel d0 :
  is_cap (length t) ->
  (exists d, (d0 <= d < d0 + fuel)%nat /\ find_free fuel t (run (length t) s d0) = Some (run (length t) s d) /\
     t !! run (length t) s d = Some 0 /\
     forall d', (d0 <= d' < d)%nat -> exists w, t !! run (length t) s d' = Some w /\ w <> 0) \/
  (forall d, (d0 <= d < d0 + fuel)%nat -> exists w, t !! run (length t) s d = Some w /\ w <> 0).
Proof.
  intros Hc. pose proof (is_cap_ge _ Hc) as H8. revert d0.
  induction fuel as [|fuel IH]; intros d0; [right; intros; lia|].
  destruct (lookup_lt_is_Some_2 t (run (length t) s d0)) as [w Hw]; [apply run_lt; lia|].
  cbn [find_free]. rewrite Hw. destruct (decide (w = 0)) as [->|Hn].
  - left. exists d0. repeat split; auto; intros; lia.
  - rewrite next_slot_run by done.
    replace (match w with 0 => Some (run (length t) s d0)
             | _ => find_free fuel t (run (length t) s (S d0)) end)
      with (find_free fuel t (run (length t) s (S d0))) by (by destruct w).
    destruct (IH (S d0)) as [(d & Hd & E & Ez & Hb)|Hall].
    + left. exists d. repeat split; auto; [lia|lia|].
      intros d' Hd'. destruct (decide (d' = d0)) as [->|]; [eauto | apply Hb; lia].
    + right. intros d Hd. destruct (decide (d = d0)) as [->|]; [eauto | apply Hall; lia].
Qed.

Lemma used_all t : (forall i, (i < length t)%nat -> exists w, t !! i = Some w /\ w <> 0) ->
  used t = length t.
Proof.
  unfold used. induction t as [|x t IH]; intros Hall; [done|].
  destruct (Hall 0%nat) as (w & [= ->] & Hw); [simpl; lia|].
  rewrite filter_cons_True by done. simpl. f_equal. apply IH.
  intros i Hi. apply (Hall (S i)). simpl. lia.
Qed.

Lemma find_free_ok t s :
  is_cap (length t) -> (s < length t)%nat -> (used t < length t)%nat ->
  exists d, (d < length t)%nat /\ find_free (length t) t s = Some (run (length t) s d) /\
    t !! run (length t) s d = Some 0 /\
    forall d', (d' < d)%nat -> exists w, t !! run (length t) s d' = Some w /\ w <> 0.
Proof.
  intros Hc Hs Hu. destruct (find_free_run t s (length t) 0 Hc) as [(d & Hd & E & Ez & Hb)|Hall].
  - rewrite run_0 in E by done. exists d. repeat split; auto; [lia|]. intros; apply Hb; lia.
  - rewrite used_all in Hu; [lia|]. intros i Hi.
    destruct (run_onto (length t) s i Hs Hi) as (d & Hd & <-). apply Hall. lia.
Qed.

Lemma used_insert t j w :
  t !! j = Some 0 -> w <> 0 -> used (<[j := w]> t) = S (used t).
Proof.
  intros Hj Hw. unfold used.
  rewrite insert_take_drop by (by eapply lookup_lt_Some).
  rewrite <- (take_drop_middle t j 0 Hj) at 3.
  rewrite !list.filter_app, !length_app, filter_cons_True, filter_cons_False by auto.
  simpl. lia.
Qed.

(** No slot holds the word of an entry past the indexed ones. *)
Lemma word_fresh hs t tag i :
  index_inv hs t -> 0 <= tag < 2 ^ TAG_BITS -> Z.of_nat (length hs) < MAX_ENTRIES ->
  t !! i = Some (word tag (length hs)) -> False.
Proof.
  intros Inv Ht Hmax Hi.
  destruct (slot_fields tag (length hs)) as (Hw & _ & E1); [lia|done|].
  destruct (inv_slot _ _ Inv i _ Hi Hw) as (p & h & Hp & E). apply lookup_lt_Some in Hp.
  destruct (slot_fields (place h (length t)).2 p) as (_ & _ & E2); [|lia|].
  - apply (place_spec h _ (inv_cap _ _ Inv)).
  - rewrite <- E, E1 in E2. lia.
Qed.

(** Placing the next entry keeps the invariant. *)
Lemma build_put_inv hs t h :
  index_inv hs t -> (length hs < length t)%nat -> Z.of_nat (length hs) < MAX_ENTRIES ->
  exists t', build_put t (h, length hs) = Some t' /\ length t' = length t /\
    index_inv (hs ++ [h]) t'.
Proof.
  intros Inv Hlt Hmax. destruct (inv_cap _ _ Inv) as (b & Hb & Hb'). pose proof (inv_cap _ _ Inv) as Hc.
  destruct (place_spec h _ Hc) as [Hs Ht].
  unfold build_put. destruct (place h (length t)) as [s tag] eqn:Hp. simpl in Hs, Ht.
  destruct (find_free_ok t s Hc Hs) as (d & Hd & -> & Ez & Hbefore); [rewrite (inv_used _ _ Inv); lia|].
  simpl. rewrite slot_word_ok by done. simpl.
  set (j := run (length t) s d) in *. set (w := word tag (length hs)).
  pose proof (lookup_lt_Some _ _ _ Ez) as Hj.
  assert (Hw : w <> 0) by (apply slot_fields; [lia|done]).
  exists (<[j := w]> t). rewrite length_insert. split; [done|]. split; [done|].
  constructor; rewrite ?length_insert.
  - done.
  - intros i x Hi Hx. destruct (decide (i = j)) as [->|Hij].
    + rewrite list_lookup_insert_eq in Hi by done. injection Hi as <-.
      exists (length hs), h. rewrite Hp. split; [|done].
      by rewrite lookup_app_r, Nat.sub_diag by lia.
    + rewrite list_lookup_insert_ne in Hi by done.
      destruct (inv_slot _ _ Inv i x Hi Hx) as (p & h' & Hp' & ->).
      exists p, h'. split; [|done]. by rewrite lookup_app_l by (by eapply lookup_lt_Some).
  - assert (Hkeep : forall i x, t !! i = Some x -> x <> 0 -> <[j := w]> t !! i = Some x).
    { intros i x Hi Hx. rewrite list_lookup_insert_ne; [done|]. intros ->. congruence. }
    intros p h' Hph. destruct (decide (p < length hs)%nat) as [Hpl|Hpl].
    + rewrite lookup_app_l in Hph by done.
      destruct (inv_reach _ _ Inv p h' Hph) as (d' & Hd' & E & Hb2).
      exists d'. split; [done|]. split.
      * apply Hkeep; [done|]. apply slot_fields; [|lia].
        apply (place_spec h' _ Hc).
      * intros d2 Hd2. destruct (Hb2 d2 Hd2) as (x & Hx & Hnz). exists x. auto.
    + rewrite lookup_app_r in Hph by lia. apply lookup_lt_Some in Hph as Hone. simpl in Hone.
      replace (p - length hs)%nat with 0%nat in Hph by lia. injection Hph as <-.
      replace p with (length hs) by lia. exists d. rewrite Hp. split; [done|]. split.
      * simpl. fold j. by rewrite list_lookup_insert_eq by done.
      * intros d2 Hd2. destruct (Hbefore d2 Hd2) as (x & Hx & Hnz). exists x. auto.
  - intros i k x Hi Hk Hx.
    destruct (decide (i = j)) as [->|Hi'], (decide (k = j)) as [->|Hk']; [done| | |].
    + rewrite list_lookup_insert_eq in Hi by done. injection Hi as <-.
      rewrite list_lookup_insert_ne in Hk by done. by destruct (word_fresh hs t tag k).
    + rewrite list_lookup_insert_eq in Hk by done. injection Hk as <-.
      rewrite list_lookup_insert_ne in Hi by done. by destruct (word_fresh hs t tag i).
    + rewrite list_lookup_insert_ne in Hi, Hk by done. by apply (inv_unique _ _ Inv i k x).
  - rewrite used_insert by done. rewrite (inv_used _ _ Inv), length_app. simpl. lia.
Qed.

(** ** Building *)
Lemma table_cap_ok n : Z.of_nat n < 2 ^ 60 -> is_cap (table_cap n) /\ (2 * n <= table_cap n)%nat.
Proof.
  intros Hn. unfold table_cap, next_power_of_two. rewrite Z.min_l by lia.
  set (k := Z.log2_up (Z.of_nat n * 2)).
  assert (Hk : 0 <= k <= 61).
  { split; [apply Z.log2_up_nonneg|]. change 61 with (Z.log2_up (2 ^ 61)).
    apply Z.log2_up_le_mono. lia. }
  assert (Hpow : Z.to_nat (2 ^ k) = (2 ^ Z.to_nat k)%nat).
  { apply Nat2Z.inj. rewrite of_nat_pow2, !Z2Nat.id by lia. done. }
  assert (Hge : Z.of_nat n * 2 <= 2 ^ k).
  { destruct (decide (n = 0%nat)) as [->|]; [simpl; lia|]. apply Z.log2_log2_up_spec. lia. }
  split; [|lia]. rewrite Hpow. destruct (decide (3 <= Z.to_nat k)%nat) as [H3|H3].
  - exists (Z.to_nat k). split; [|lia]. apply Nat.max_l. change 8%nat with (2 ^ 3)%nat.
    apply Nat.pow_le_mono_r; lia.
  - exists 3%nat. split; [|lia]. apply Nat.max_r. change 8%nat with (2 ^ 3)%nat.
    apply Nat.pow_le_mono_r; lia.
Qed.

Lemma zero_inv cap : is_cap cap -> index_inv [] (replicate cap 0).
Proof.
  intros Hc. constructor; rewrite ?length_replicate; auto.
  - intros i w Hi Hw. apply lookup_replicate in Hi as [-> _]. done.
  - intros p h Hp. rewrite lookup_nil in Hp. done.
  - intros i j w Hi _ Hw. apply lookup_replicate in Hi as [-> _]. done.
  - unfold used. clear Hc. induction cap; simpl; [done|]. by rewrite filter_cons_False by auto.
Qed.

Lemma build_all_inv hs' hs t :
  index_inv hs t -> (length hs + length hs' < length t)%nat ->
  Z.of_nat (length hs + length hs') <= MAX_ENTRIES ->
  exists t', build_all t (zip hs' (seq (length hs) (length hs'))) = Some t' /\
    length t' = length t /\ index_inv (hs ++ hs') t'.
Proof.
  revert hs t. induction hs' as [|h hs' IH]; intros hs t Inv Hlt Hmax;
    cbn [length seq zip_with build_all] in *.
  - exists t. by rewrite app_nil_r.
  - destruct (build_put_inv hs t h Inv) as (t1 & -> & Hl & Inv1); [lia|lia|]. simpl.
    replace (S (length hs)) with (length (hs ++ [h])) by (rewrite length_app; simpl; lia).
    destruct (IH (hs ++ [h]) t1 Inv1) as (t2 & -> & Hl2 & Inv2); rewrite ?length_app; simpl; [lia|lia|].
    exists t2. rewrite <- (assoc_L (++)) in Inv2. split; [done|]. split; [lia|done].
Qed.

Lemma build_inv n hs :
  (length hs <= n)%nat -> (0 < n)%nat -> Z.of_nat n < 2 ^ 60 -> Z.of_nat (length hs) <= MAX_ENTRIES ->
  exists t, build n (zip_pos hs) = Some t /\ length t = table_cap n /\ index_inv hs t.
Proof.
  intros Hle Hn Hn2 Hmax. destruct (table_cap_ok n Hn2) as [Hc H2].
  destruct (build_all_inv hs [] _ (zero_inv _ Hc)) as (t & E & Hl & Inv);
    rewrite ?length_replicate; simpl; [lia|done|].
  exists t. rewrite length_replicate in Hl. auto.
Qed.

(** ** The table invariant *)

(** A table holds no entries and no index, or entries and an index of them at most half full. *)
Definition table_inv {E} `{CachedHash E} (m : TableData E) : Prop :=
  Z.of_nat (length (entries m)) <= MAX_ENTRIES /\
  ((entries m = [] /\ index m = []) \/
   (index_inv (hash_of <$> entries m) (index m) /\
    (0 < length (entries m))%nat /\ (2 * length (entries m) <= length (index m))%nat)).

Section table.
  Context {E : Type} `{CachedHash E}.
  Implicit Types (m : TableData E) (es : list E).

Lemma from_hashes_inv es :
  Z.of_nat (length es) <= MAX_ENTRIES ->
  exists t, from_hashes (hash_of <$> es) = Some t /\ table_inv (mkTable es t 0) /\
    (es = [] -> t = []).
Proof.
  intros Hmax. destruct es as [|e es]; [exists []; by repeat split; auto|].
  unfold from_hashes. remember (e :: es) as l eqn:El.
  assert (Hl : (0 < length l)%nat) by (subst; simpl; lia).
  destruct (build_inv (length (hash_of <$> l)) (hash_of <$> l)) as (t & E1 & E2 & Inv);
    rewrite ?length_fmap; unfold MAX_ENTRIES, POS_MASK, POS_BITS in *; [lia..|].
  assert (Hm : (2 * length l <= length t)%nat).
  { rewrite E2, length_fmap. apply table_cap_ok. lia. }
  exists t. split; [by rewrite length_fmap, El in E1; rewrite El|]. split; [|by subst].
  split; [done|]. right. done.
Qed.

Lemma from_entries_inv es :
  Z.of_nat (length es) <= MAX_ENTRIES ->
  exists m, from_entries es = Some m /\ entries m = es /\ table_inv m.
Proof.
  intros Hmax. destruct (from_hashes_inv es Hmax) as (t & E1 & Inv & _).
  unfold from_entries. rewrite E1. simpl. eauto.
Qed.

Lemma zip_pos_snoc hs h : zip_pos (hs ++ [h]) = zip_pos hs ++ [(h, length hs)].
Proof.
  unfold zip_pos. rewrite length_app, seq_app, zip_with_app by (by rewrite length_seq). done.
Qed.

Lemma push_inv m e :
  table_inv m -> Z.of_nat (length (entries m)) < MAX_ENTRIES ->
  exists m', push m e = Some m' /\ entries m' = entries m ++ [e] /\
    version m' = u64 (version m + 1) /\ table_inv m'.
Proof.
  intros [Hmax Hm] Hlt. unfold push, index_insert.
  set (es := entries m ++ [e]). set (hs := hash_of <$> entries m).
  assert (Hes : hash_of <$> es = hs ++ [hash_of e]) by (by unfold es; rewrite fmap_app).
  assert (Hlen : length es = S (length (entries m))) by (unfold es; rewrite length_app; simpl; lia).
  assert (Hhs : length hs = length (entries m)) by apply length_fmap.
  destruct ((length (entries m) + 1) * 2 <=? length (index m))%nat eqn:Hfit.
  - apply Nat.leb_le in Hfit. destruct Hm as [[_ E0]|(Inv & _ & Hhalf)]; [rewrite E0 in Hfit; simpl in Hfit; lia|].
    destruct (build_put_inv hs (index m) (hash_of e) Inv) as (t & E1 & Hl & Inv'); [lia|lia|].
    unfold build_put in E1. destruct (place (hash_of e) (length (index m))) as [i tag].
    destruct (find_free (length (index m)) (index m) i) as [j|]; [|done]. simpl in E1 |- *.
    rewrite Hhs in E1. destruct (slot_word tag (length (entries m))) as [w|]; [|done].
    simpl in E1 |- *. injection E1 as <-. eexists. split; [done|]. split; [done|]. split; [done|].
    split; simpl; [lia|]. right. rewrite Hes. split; [done|]. split; [lia|]. rewrite Hl. lia.
  - apply Nat.leb_gt in Hfit.
    rewrite Nat.min_l by lia.
    replace (take (length (entries m)) es) with (entries m) by (unfold es; by rewrite take_app_length).
    fold hs.
    rewrite <- Hhs, <- zip_pos_snoc.
    assert (Hcap : Z.of_nat (length (index m)) < 2 ^ 50).
    { unfold MAX_ENTRIES, POS_MASK, POS_BITS in *. lia. }
    destruct (build_inv (Nat.max (length (index m)) (length hs + 1)) (hs ++ [hash_of e]))
      as (t & E1 & Hl & Inv');
      rewrite ?length_app; unfold MAX_ENTRIES, POS_MASK, POS_BITS in *; simpl; [lia..|].
    rewrite E1. simpl. eexists. split; [done|]. split; [done|]. split; [done|].
    split; simpl; [unfold MAX_ENTRIES, POS_MASK, POS_BITS; lia|]. right. rewrite Hes. split; [done|].
    split; [lia|]. rewrite Hl, Hlen. etrans; [|apply table_cap_ok; lia]. lia.
Qed.

(** Past the position field a push panics. *)
Lemma slot_word_full tag p : MAX_ENTRIES <= Z.of_nat p -> slot_word tag p = None.
Proof.
  unfold slot_word, MAX_ENTRIES. intros. by rewrite Z.gtb_ltb, (proj2 (Z.ltb_lt _ _)) by lia.
Qed.

Lemma build_all_full t keys h p :
  MAX_ENTRIES <= Z.of_nat p -> build_all t (keys ++ [(h, p)]) = None.
Proof.
  intros Hp. revert t. induction keys as [|k keys IH]; intros t; cbn [app build_all].
  - unfold build_put. destruct (place h (length t)) as [i tag].
    destruct (find_free _ _ _); simpl; [|done]. by rewrite slot_word_full.
  - destruct (build_put t k); [apply IH | done].
Qed.

Lemma push_full m e : MAX_ENTRIES <= Z.of_nat (length (entries m)) -> push m e = None.
Proof.
  intros Hf. unfold push, index_insert. case_match eqn:E1.
  - destruct p as [i tag]. by rewrite slot_word_full.
  - unfold build. by rewrite build_all_full.
Qed.

Lemma length_vec_remove {A} i (l : list A) : (i < length l)%nat -> length (vec_remove i l) = pred (length l).
Proof. intros. unfold vec_remove. rewrite length_app, length_take, length_drop. lia. Qed.

Lemma remove_at_inv m i :
  table_inv m ->
  exists r m', remove_at m i = Some (r, m') /\ r = entries m !! i /\ table_inv m' /\
    (r <> None -> entries m' = vec_remove i (entries m) /\ version m' = u64 (version m + 1)) /\ (r = None -> m' = m).
Proof.
  intros Inv. unfold remove_at. destruct (entries m !! i) as [e|] eqn:Ei.
  - apply lookup_lt_Some in Ei as Hi. pose proof (length_vec_remove i (entries m) Hi) as Hl.
    destruct (from_hashes_inv (vec_remove i (entries m))) as (t & -> & Inv' & Hnil);
      [destruct Inv; lia|]. simpl. eexists _, _. split; [done|]. split; [done|].
    split; [exact Inv'|]. by split.
  - eexists _, _. split; [done|]. split; [done|]. split; [done|]. by split.
Qed.

(** ** Probing *)

(** The probe as one scan: what draining the iterator reads. *)
Fixpoint cand_scan (t : list Z) es (h tag : Z) (i remaining : nat) : list nat :=
  match remaining with
  | O => []
  | S remaining =>
      let rest := cand_scan t es h tag (next_slot i (length t)) remaining in
      match read_slot t es h tag i with Stop => [] | Skip => rest | Cand p => p :: rest end
  end.

Lemma cand_next_scan t es h tag i remaining :
  cand_scan t es h tag i remaining =
    match cand_next t es h tag i remaining with
    | None => []
    | Some (p, c) => p :: cand_scan t es h tag (cand_i c) (cand_left c)
    end /\
  (forall p c, cand_next t es h tag i remaining = Some (p, c) -> (cand_left c < remaining)%nat).
Proof.
  revert i. induction remaining as [|k IH]; intros i; cbn [cand_scan cand_next]; [done|].
  destruct (read_slot t es h tag i); [done| |].
  - destruct (IH (next_slot i (length t))) as [-> Hlt]. split; [done|].
    intros p c Hc. specialize (Hlt p c Hc). lia.
  - split; [done|]. intros ? ? [= <- <-]. simpl. lia.
Qed.

Lemma cand_collect_scan fuel t es h tag c :
  (cand_left c <= fuel)%nat ->
  cand_collect fuel t es h tag c = cand_scan t es h tag (cand_i c) (cand_left c).
Proof.
  revert c. induction fuel as [|fuel IH]; intros [i k] Hk; simpl in Hk |- *.
  - by replace k with 0%nat by lia.
  - destruct (cand_next_scan t es h tag i k) as [-> Hlt].
    destruct (cand_next t es h tag i k) as [[p c]|]; [|done].
    f_equal. apply IH. specialize (Hlt p c eq_refl). lia.
Qed.

(** The positions a scan yields: the hits of its run before the first stop. *)
Lemma elem_of_cand_scan t es h tag s p k d0 :
  is_cap (length t) ->
  p ∈ cand_scan t es h tag (run (length t) s d0) k <->
  exists d, (d0 <= d < d0 + k)%nat /\ read_slot t es h tag (run (length t) s d) = Cand p /\
    forall d', (d0 <= d' < d)%nat -> read_slot t es h tag (run (length t) s d') <> Stop.
Proof.
  intros Hc. revert d0. induction k as [|k IH]; intros d0; cbn [cand_scan].
  - split; [by intros ?%elem_of_nil | intros (d & ? & _); lia].
  - rewrite next_slot_run by done. specialize (IH (S d0)).
    destruct (read_slot t es h tag (run (length t) s d0)) eqn:E0.
    + split; [by intros ?%elem_of_nil|]. intros (d & Hd & Er & Hb).
      destruct (decide (d = d0)) as [->|]; [congruence|]. by destruct (Hb d0); [lia|].
    + rewrite IH. split; intros (d & Hd & Er & Hb).
      * exists d. repeat split; [lia|lia|done|]. intros d' Hd'.
        destruct (decide (d' = d0)) as [->|]; [congruence|]. apply Hb. lia.
      * exists d. destruct (decide (d = d0)) as [->|]; [congruence|].
        repeat split; [lia|lia|done|]. intros d' Hd'. apply Hb. lia.
    + rewrite elem_of_cons, IH. split.
      * intros [->|(d & Hd & Er & Hb)].
        -- exists d0. repeat split; [lia|lia|done|]. intros; lia.
        -- exists d. repeat split; [lia|lia|done|]. intros d' Hd'.
           destruct (decide (d' = d0)) as [->|]; [congruence|]. apply Hb. lia.
      * intros (d & Hd & Er & Hb). destruct (decide (d = d0)) as [->|]; [left; congruence|].
        right. exists d. repeat split; [lia|lia|done|]. intros d' Hd'. apply Hb. lia.
Qed.

Lemma NoDup_cand_scan t es h tag s k d0 :
  is_cap (length t) ->
  (forall d d' p, (d0 <= d < d0 + k)%nat -> (d0 <= d' < d0 + k)%nat ->
     read_slot t es h tag (run (length t) s d) = Cand p ->
     read_slot t es h tag (run (length t) s d') = Cand p -> d = d') ->
  NoDup (cand_scan t es h tag (run (length t) s d0) k).
Proof.
  intros Hc. revert d0. induction k as [|k IH]; intros d0 Hinj; cbn [cand_scan]; [constructor|].
  rewrite next_slot_run by done.
  assert (HN : NoDup (cand_scan t es h tag (run (length t) s (S d0)) k)).
  { apply IH. intros d d' p Hd Hd'. apply Hinj; lia. }
  destruct (read_slot t es h tag (run (length t) s d0)) as [| |p] eqn:E0; [constructor|done|].
  constructor; [|done]. rewrite elem_of_cand_scan by done. intros (d & Hd & Er & _).
  assert (d0 = d); [|lia]. by apply (Hinj d0 d p); [lia|lia| |].
Qed.

(** A used slot of an indexed table. *)
Lemma read_slot_word t es h p e tag i :
  index_inv (hash_of <$> es) t -> Z.of_nat (length es) <= MAX_ENTRIES ->
  es !! p = Some e -> t !! i = Some (word (place (hash_of e) (length t)).2 p) ->
  read_slot t es h tag i =
    if ((place (hash_of e) (length t)).2 =? tag) && (hash_of e =? h) then Cand p else Skip.
Proof.
  intros Inv Hmax He Hi. apply lookup_lt_Some in He as Hp.
  destruct (place_spec (hash_of e) _ (inv_cap _ _ Inv)) as [_ Ht].
  destruct (slot_fields (place (hash_of e) (length t)).2 p) as (Hz & E1 & E2); [lia|lia|].
  unfold read_slot. rewrite Hi, E1, E2, He, (proj2 (Nat.ltb_lt _ _) Hp), andb_true_r.
  by destruct (word _ _).
Qed.

(** A probe reads the entries only through their hashes. *)
Lemma candidates_hashes t es es' h :
  hash_of <$> es = hash_of <$> es' -> candidates t es h = candidates t es' h.
Proof.
  intros Hes.
  assert (Hr : forall tag i, read_slot t es h tag i = read_slot t es' h tag i).
  { intros tag i. unfold read_slot.
    assert (Hl : length es = length es') by (by rewrite <- (length_fmap hash_of es), Hes, length_fmap).
    destruct (t !! i) as [w|]; [|done]. rewrite Hl. set (pos := Z.to_nat (Z.land w POS_MASK - 1)).
    apply (f_equal (lookup pos)) in Hes. rewrite !list_lookup_fmap in Hes.
    destruct (es !! pos) as [e|], (es' !! pos) as [e'|]; simpl in Hes; [|done..].
    injection Hes as ->. done. }
  unfold candidates. destruct (if (length t =? 0)%nat then _ else _) as [i tag].
  rewrite !cand_collect_scan by done. simpl. generalize (length t). intros k. revert i.
  induction k as [|k IH]; intros i; [done|]. cbn [cand_scan]. by rewrite Hr, IH.
Qed.

(** The slots of an indexed table that a probe for [h] takes as hits. *)
Lemma read_slot_cand t es h i p :
  index_inv (hash_of <$> es) t -> Z.of_nat (length es) <= MAX_ENTRIES ->
  read_slot t es h (place h (length t)).2 i = Cand p <->
  exists e, es !! p = Some e /\ hash_of e = h /\ t !! i = Some (word (place h (length t)).2 p).
Proof.
  intros Inv Hmax. split.
  - intros Er. destruct (t !! i) as [w|] eqn:Hi; [|by unfold read_slot in Er; rewrite Hi in Er].
    destruct (decide (w = 0)) as [->|Hw]; [by unfold read_slot in Er; rewrite Hi in Er|].
    destruct (inv_slot _ _ Inv i w Hi Hw) as (q & h' & Hq & ->).
    apply list_lookup_fmap_Some in Hq as (e & -> & He).
    rewrite (read_slot_word t es h q e) in Er by done.
    destruct (_ && _) eqn:Eb in Er; [|done]. injection Er as ->.
    apply andb_true_iff in Eb as [_ <-%Z.eqb_eq]. eauto.
  - intros (e & He & <- & Hi). rewrite (read_slot_word t es (hash_of e) p e) by done.
    by rewrite !Z.eqb_refl.
Qed.

Lemma read_slot_stop t es h tag i :
  index_inv (hash_of <$> es) t -> (i < length t)%nat ->
  read_slot t es h tag i = Stop -> t !! i = Some 0.
Proof.
  intros Inv Hi Er. destruct (lookup_lt_is_Some_2 t i Hi) as [w Hw]. rewrite Hw. f_equal.
  unfold read_slot in Er. rewrite Hw in Er. destruct w; [done| |]; by destruct (_ && _) in Er.
Qed.

(** A probe yields exactly the positions whose cached hash is [h], each once. *)
Lemma candidates_spec t es h :
  index_inv (hash_of <$> es) t -> Z.of_nat (length es) <= MAX_ENTRIES ->
  NoDup (candidates t es h) /\
  forall p, p ∈ candidates t es h <-> exists e, es !! p = Some e /\ hash_of e = h.
Proof.
  intros Inv Hmax. pose proof (inv_cap _ _ Inv) as Hc. pose proof (is_cap_ge _ Hc) as H8.
  destruct (place_spec h _ Hc) as [Hs _].
  unfold candidates. rewrite (proj2 (Nat.eqb_neq _ _)) by lia.
  destruct (place h (length t)) as [s tag] eqn:Hp. simpl in Hs.
  assert (Hcand : forall i p, read_slot t es h tag i = Cand p <->
    exists e, es !! p = Some e /\ hash_of e = h /\ t !! i = Some (word tag p)).
  { intros i p. pose proof (read_slot_cand t es h i p Inv Hmax) as Hr. by rewrite Hp in Hr. }
  rewrite cand_collect_scan by done. simpl. rewrite <- (run_0 (length t) s) by done. split.
  - apply NoDup_cand_scan; [done|]. intros d d' p Hd Hd' (e & He & Hh & E1)%Hcand (_ & _ & _ & E2)%Hcand.
    apply (run_inj (length t) s); [lia..|]. eapply (inv_unique _ _ Inv); [done..|].
    apply slot_fields; [|apply lookup_lt_Some in He; lia].
    pose proof (place_spec h _ Hc) as Hpl. rewrite Hp in Hpl. simpl in Hpl. lia.
  - intros p. rewrite elem_of_cand_scan by done. split.
    + intros (d & _ & (e & He & Hh & _)%Hcand & _). eauto.
    + intros (e & He & Hh).
      destruct (inv_reach _ _ Inv p h) as (d & Hd & E1 & Hb); [rewrite list_lookup_fmap, He; by subst|].
      rewrite Hp in E1, Hb. simpl in E1, Hb. exists d. split; [lia|]. split; [apply Hcand; eauto|].
      intros d' Hd' Hstop. apply read_slot_stop in Hstop; [|done|by apply run_lt; lia].
      destruct (Hb d') as (w & Hw & Hnz); [lia|]. congruence.
Qed.

Lemma table_candidates m h :
  table_inv m ->
  NoDup (candidates (index m) (entries m) h) /\
  forall p, p ∈ candidates (index m) (entries m) h <->
    exists e, entries m !! p = Some e /\ hash_of e = h.
Proof.
  intros [Hmax [[-> ->]|(Inv & _ & _)]].
  - split; [constructor|]. intros p. split; [by intros ?%elem_of_nil | by intros (e & He & _)].
  - by apply candidates_spec.
Qed.
End table.

(** ** Sequences of map operations *)
Section trace.
  Context {V : Type}.
  Implicit Types m : TableData (MapEntry V).

(** The operations that write a map. *)
Inductive map_op := MPush (h : Z) (k v : V) | MRemove (i : nat) | MSet (i : nat) (v : V).

Definition apply_op m (o : map_op) : option (TableData (MapEntry V)) :=
  match o with
  | MPush h k v => push m (h, k, v)
  | MRemove i => snd <$> remove_at m i
  | MSet i v => Some (set_value m i v).2
  end.
Fixpoint apply_ops m (os : list map_op) : option (TableData (MapEntry V)) :=
  match os with [] => Some m | o :: os => m ← apply_op m o; apply_ops m os end.

(** The reference: the entry list alone. *)
Definition ref_op (es : list (MapEntry V)) (o : map_op) : list (MapEntry V) :=
  match o with
  | MPush h k v => es ++ [(h, k, v)]
  | MRemove i => vec_remove i es
  | MSet i v => alter (fun e : MapEntry V => (e.1.1, e.1.2, v)) i es
  end.

(** The structural changes: those that move the version. *)
Definition structural m (o : map_op) : bool :=
  match o with
  | MPush _ _ _ => true
  | MRemove i => match entries m !! i with Some _ => true | None => false end
  | MSet _ _ => false
  end.

Lemma vec_remove_none {A} i (l : list A) : l !! i = None -> vec_remove i l = l.
Proof.
  intros ?%lookup_ge_None. unfold vec_remove. rewrite take_ge, drop_ge by lia. apply app_nil_r.
Qed.

Lemma set_value_spec m i v :
  (set_value m i v).1 = value_at m i /\
  entries (set_value m i v).2 = ref_op (entries m) (MSet i v) /\
  index (set_value m i v).2 = index m /\ version (set_value m i v).2 = version m.
Proof.
  unfold set_value, value_at. simpl. destruct (entries m !! i) as [[[h k] old]|] eqn:Ei; simpl.
  - repeat split. apply list_eq. intros j. rewrite list_lookup_alter.
    destruct (decide (i = j)) as [->|]; [|by rewrite list_lookup_insert_ne].
    rewrite list_lookup_insert_eq by (by eapply lookup_lt_Some).
    exact (eq_sym (f_equal (fmap _) Ei)).
  - repeat split. apply list_eq. intros j. rewrite list_lookup_alter.
    case_decide as Hij; [subst i|done]. etrans; [exact Ei|]. exact (eq_sym (f_equal (fmap _) Ei)).
Qed.

Lemma hashes_set (es : list (MapEntry V)) i v : hash_of <$> ref_op es (MSet i v) = hash_of <$> es.
Proof.
  simpl. apply list_eq. intros j. rewrite !list_lookup_fmap, list_lookup_alter.
  case_decide as Hij; [|done]. subst. by destruct (es !! j).
Qed.

Lemma set_value_inv m i v : table_inv m -> table_inv (set_value m i v).2.
Proof.
  destruct (set_value_spec m i v) as (_ & Ees & Eix & _). unfold table_inv.
  rewrite Ees, Eix, hashes_set. simpl. rewrite length_alter.
  intros [Hmax [[E0 ->]|Hm]]; (split; [done|]); [left; by rewrite E0 | by right].
Qed.

Lemma apply_op_inv m o :
  table_inv m ->
  (forall h k v, o = MPush h k v -> Z.of_nat (length (entries m)) < MAX_ENTRIES) ->
  exists m', apply_op m o = Some m' /\ table_inv m' /\ entries m' = ref_op (entries m) o /\
    version m' = (if structural m o then u64 (version m + 1) else version m) /\
    (structural m o = false -> index m' = index m).
Proof.
  intros Inv Hlt. destruct o as [h k v|i|i v]; simpl.
  - destruct (push_inv m (h, k, v) Inv) as (m' & -> & E1 & E2 & Inv'); [by eapply Hlt|].
    exists m'. by repeat (split; [done|]).
  - destruct (remove_at_inv m i Inv) as (r & m' & -> & -> & Inv' & Hs & Hn). simpl.
    exists m'. split; [done|]. split; [done|]. destruct (entries m !! i) eqn:Ei.
    + by destruct Hs as [-> ->].
    + rewrite Hn by done. by rewrite vec_remove_none.
  - eexists. split; [done|]. split; [by apply set_value_inv|].
    destruct (set_value_spec m i v) as (_ & E1 & E2 & E3). done.
Qed.

Lemma apply_op_Some m o m' :
  table_inv m -> apply_op m o = Some m' ->
  table_inv m' /\ entries m' = ref_op (entries m) o /\
  version m' = (if structural m o then u64 (version m + 1) else version m) /\
  (structural m o = false -> index m' = index m).
Proof.
  intros Inv E. destruct (apply_op_inv m o Inv) as (m1 & E1 & Hm); [|congruence].
  intros h k v ->. destruct (Z_lt_le_dec (Z.of_nat (length (entries m))) MAX_ENTRIES); [done|].
  simpl in E. by rewrite push_full in E.
Qed.

Lemma length_ref_op es o : (length (ref_op es o) <= S (length es))%nat.
Proof.
  destruct o; simpl; [rewrite length_app; simpl; lia| |rewrite length_alter; lia].
  unfold vec_remove. rewrite length_app, length_take, length_drop. lia.
Qed.

Lemma apply_ops_inv m os :
  table_inv m -> Z.of_nat (length (entries m) + length os) <= MAX_ENTRIES ->
  exists m', apply_ops m os = Some m' /\ table_inv m' /\ entries m' = foldl ref_op (entries m) os.
Proof.
  revert m. induction os as [|o os IH]; intros m Inv Hmax; simpl in *; [eauto|].
  destruct (apply_op_inv m o Inv) as (m1 & -> & Inv1 & E1 & _); [intros; lia|]. simpl.
  pose proof (length_ref_op (entries m) o) as Hl. rewrite <- E1 in Hl |- *. apply IH; [done|lia].
Qed.

(** C7: the hash table refines its entry list.  For every start list and every sequence of pushes,
    removes and value writes that stays within the position field, no operation panics, the entries
    are those of the reference list (insertion order kept), and a probe for any hash yields exactly
    the positions of the entries that cache that hash, each once: no entry is lost to a collision,
    a grow or a rebuild, and a tag hit with another hash is no candidate. *)
Theorem map_trace_refines (es : list (MapEntry V)) (os : list map_op) :
  Z.of_nat (length es + length os) <= MAX_ENTRIES ->
  exists m, (m ← from_entries es; apply_ops m os) = Some m /\
    entries m = foldl ref_op es os /\
    forall h, NoDup (candidates (index m) (entries m) h) /\
      forall p, p ∈ candidates (index m) (entries m) h <->
        exists k v, foldl ref_op es os !! p = Some (h, k, v).
Proof.
  intros Hmax. destruct (from_entries_inv es) as (m0 & -> & E0 & Inv0); [lia|]. simpl.
  destruct (apply_ops_inv m0 os Inv0) as (m & -> & Inv & Es); [by rewrite E0|].
  exists m. rewrite E0 in Es. split; [done|]. split; [done|]. intros h.
  destruct (table_candidates m h Inv) as [HN Hc]. split; [done|]. intros p. rewrite Hc, Es. split.
  - intros ([[h' k] v] & He & <-). eauto.
  - intros (k & v & He). eauto.
Qed.
End trace.

(** Ten keys that share one hash, one of them removed, two pushed: the table grows and is rebuilt. *)
Definition demo_ops : list (@map_op Z) :=
  ((fun k => MPush 7 k (100 + k)) <$> [1; 2; 3; 4; 5; 6; 7; 8; 9; 10])
  ++ [MRemove 3; MSet 0 55; MPush 7 11 111; MPush 12 12 112].

Example demo_trace :
  (fun m => (length (entries m), length (index m), candidates (index m) (entries m) 7)) <$>
    (m ← from_entries [(9, 0, 0)]; apply_ops m demo_ops) =
  Some (12, 32, [1; 2; 3; 4; 5; 6; 7; 8; 9; 10])%nat.
Proof. vm_compute. reflexivity. Qed.

Lemma map_trace_refines_witness :
  exists m, (m ← from_entries [(9, 0, 0)]; apply_ops m demo_ops) = Some m /\
    entries m = foldl ref_op [(9, 0, 0)] demo_ops /\ NoDup (candidates (index m) (entries m) 7).
Proof.
  destruct (map_trace_refines [(9, 0, 0)] demo_ops) as (m & E & Es & Hc); [vm_compute; congruence|].
  exists m. split; [exact E|]. split; [exact Es | apply (Hc 7)].
Defined.
