(* ===== verification/MapProbe.v ===== *)
(** * Heap maps: the probe with a re-entrant [eq], and the map operations built on it

    [next_candidate], [elem_equal], [map_probe] and [map_lookup] of
    [src/src/vm/equality.rs], [map_upsert_in_heap] of [src/src/vm/list_hof.rs] and the [Contains],
    [Get], [Remove] and [Insert] arms of [src/src/vm/core_method.rs].

    A user [eq] can run any bytecode, so it can write the very map that is probed.  The rest of the
    VM is a world [W]; the equality worker [values_equal_guarded] is a parameter that returns its
    answer, the new world and the writes it did to the map, in order.  The restart loop of
    [map_probe] need not end (an [eq] that writes on each call spins, as its comment says), so the
    loop has fuel and [None] means out of fuel. *)

From S2P Require Import Prelude MapData.
Local Open Scope chz_scope.

(** [next_candidate]: step 0 reads the first candidate alone, step 1 copies the rest once. *)
Definition next_candidate (i : nat) (rest : option (list nat)) (fresh : list nat)
  : option nat * option (list nat) :=
  match i with
  | O => (head fresh, rest)
  | S i =>
      let r := match rest with Some r => r | None => drop 1 fresh end in
      (r !! i, Some r)
  end.

Section probe.
  Context {V W X : Type}.
  Abbreviation Table := (TableData (MapEntry V)).

(** A VM state: the world and the heap map under [mh]. *)
Record PState := mkP { world : W; the_map : Table }.

(** A raised fault, or the capacity panic of a write. *)
Inductive pfault := Raised (e : X) | CapacityPanic.

  Context (any_eq_hook : bool).
  Context (same_word : V -> V -> bool).
  Context (values_equal_guarded : W -> Table -> V -> V -> result (bool * W * list (@map_op V)) X).
  Context (snapshot_key : V -> V).

(** [eq_may_reenter]: the program has an [eq] hook. *)
Definition eq_may_reenter : bool := any_eq_hook.

(** [elem_equal]: identity first, then the worker. *)
Definition elem_equal (st : PState) (l r : V) : result (bool * PState) pfault :=
  if same_word l r then Ok (true, st)
  else match values_equal_guarded (world st) (the_map st) l r with
       | Err e => Err (Raised e)
       | Ok (b, w, os) =>
           match apply_ops (the_map st) os with
           | Some m => Ok (b, mkP w m)
           | None => Err CapacityPanic
           end
       end.

(** The two loops of [map_probe]: [None, 0] is a restart. *)
Fixpoint probe_loop (fuel : nat) (st : PState) (hk : Z) (key : V) (rest : option (list nat)) (i : nat)
  : option (result (option nat * PState) pfault) :=
  match fuel with
  | O => None
  | S fuel =>
      let m := the_map st in
      let '(c, rest) := next_candidate i rest (candidates (index m) (entries m) hk) in
      match c with
      | None => Some (Ok (None, st))
      | Some p =>
          match entries m !! p with
          | None => Some (Ok (None, st))
          | Some (_, stored, _) =>
              match elem_equal st stored key with
              | Err e => Some (Err e)
              | Ok (eq, st') =>
                  let live := negb eq_may_reenter || (version (the_map st') =? version m)%Z in
                  if negb live then probe_loop fuel st' hk key None 0
                  else if eq then Some (Ok (Some p, st'))
                  else probe_loop fuel st' hk key rest (S i)
              end
          end
      end
  end.

Definition map_probe (fuel : nat) (st : PState) (hk : Z) (key : V) :=
  probe_loop fuel st hk key None 0.

Definition map_lookup (fuel : nat) (st : PState) (hk : Z) (key : V)
  : option (result (option V * PState) pfault) :=
  match map_probe fuel st hk key with
  | None => None
  | Some (Err e) => Some (Err e)
  | Some (Ok (None, st)) => Some (Ok (None, st))
  | Some (Ok (Some p, st)) => Some (Ok (value_at (the_map st) p, st))
  end.

(** The [push] at the end of an insert. *)
Definition push_entry (st : PState) (hk : Z) (key v : V) : result PState pfault :=
  match push (the_map st) (hk, snapshot_key key, v) with
  | Some m => Ok (mkP (world st) m)
  | None => Err CapacityPanic
  end.

Definition map_upsert_in_heap (fuel : nat) (st : PState) (hk : Z) (key v : V)
  : option (result (option V * PState) pfault) :=
  let insert st := st <-- push_entry st hk key v ;; Ok (None, st) in
  match map_probe fuel st hk key with
  | None => None
  | Some (Err e) => Some (Err e)
  | Some (Ok (Some i, st)) =>
      match set_value (the_map st) i v with
      | (Some old, m) => Some (Ok (Some old, mkP (world st) m))
      | (None, _) => Some (insert st)
      end
  | Some (Ok (None, st)) => Some (insert st)
  end.

(** [MapMethod::Contains] and [MapMethod::Remove], past the key's hash. *)
Definition map_contains (fuel : nat) (st : PState) (hk : Z) (key : V)
  : option (result (bool * PState) pfault) :=
  match map_probe fuel st hk key with
  | None => None
  | Some (Err e) => Some (Err e)
  | Some (Ok (pos, st)) => Some (Ok (match pos with Some _ => true | None => false end, st))
  end.

Definition map_remove (fuel : nat) (st : PState) (hk : Z) (key : V)
  : option (result (option V * PState) pfault) :=
  match map_probe fuel st hk key with
  | None => None
  | Some (Err e) => Some (Err e)
  | Some (Ok (None, st)) => Some (Ok (None, st))
  | Some (Ok (Some i, st)) =>
      match remove_at (the_map st) i with
      | None => Some (Err CapacityPanic)
      | Some (r, m) => Some (Ok ((fun e : MapEntry V => e.2) <$> r, mkP (world st) m))
      end
  end.

(** ** What a sequence of writes does to positions *)
Local Open Scope Z_scope.
  Implicit Types (m : Table) (st : PState).

Definition version_ok m : Prop := 0 <= version m < 2 ^ 64.

(** Two maps with the same cached hashes and keys at the same positions. *)
Definition same_keys m m' : Prop := fst <$> entries m = fst <$> entries m'.
#[local] Instance same_keys_equiv : Equivalence same_keys.
Proof. split; red; unfold same_keys; congruence. Qed.

Lemma same_keys_lookup m m' p h k v :
  same_keys m m' -> entries m !! p = Some (h, k, v) -> exists v', entries m' !! p = Some (h, k, v').
Proof.
  unfold same_keys. intros E Hp. apply (f_equal (lookup p)) in E.
  rewrite !list_lookup_fmap in E. rewrite Hp in E. simpl in E.
  destruct (entries m' !! p) as [[[h' k'] v']|]; [|done]. simpl in E. injection E as <- <-. eauto.
Qed.

Lemma same_keys_candidates m m' h :
  same_keys m m' -> index m = index m' ->
  candidates (index m) (entries m) h = candidates (index m') (entries m') h.
Proof.
  intros E <-. apply candidates_hashes. unfold same_keys in E.
  apply list_eq. intros p. apply (f_equal (lookup p)) in E. rewrite !list_lookup_fmap in E. rewrite !list_lookup_fmap.
  destruct (entries m !! p) as [[[??]?]|], (entries m' !! p) as [[[??]?]|]; simpl in *;
    unfold hash_of, map_entry_hash; simpl; congruence.
Qed.

Lemma same_keys_op m o m' :
  table_inv m -> apply_op m o = Some m' -> structural m o = false ->
  same_keys m m' /\ index m = index m'.
Proof.
  intros Inv E Hs. destruct (apply_op_Some m o m' Inv E) as (_ & Es & _ & Hix).
  split; [|by rewrite Hix]. unfold same_keys. rewrite Es. destruct o as [h k v|i|i v]; simpl in *.
  - done.
  - destruct (entries m !! i) eqn:Ei; [done|]. by rewrite vec_remove_none.
  - apply list_eq. intros j. rewrite !list_lookup_fmap, list_lookup_alter.
    case_decide as Hij; [|done]. subst. by destruct (entries m !! j) as [[[??]?]|].
Qed.

(** A run of writes adds its structural changes to the version; with none, keys stay. *)
Lemma apply_ops_version m os m' :
  table_inv m -> version_ok m -> apply_ops m os = Some m' ->
  table_inv m' /\ version_ok m' /\
  exists n, 0 <= n <= Z.of_nat (length os) /\ version m' = (version m + n) mod 2 ^ 64 /\
    (n = 0 -> same_keys m m' /\ index m = index m').
Proof.
  revert m. induction os as [|o os IH]; intros m Inv Hv Hap; simpl in Hap.
  - injection Hap as <-. split; [done|]. split; [done|]. exists 0. simpl.
    rewrite Z.add_0_r, Z.mod_small by done. split; [lia|]. by split.
  - destruct (apply_op m o) as [m1|] eqn:E1; [|done]. simpl in Hap.
    destruct (apply_op_Some m o m1 Inv E1) as (Inv1 & _ & Ev & _).
    assert (Hv1 : version_ok m1).
    { unfold version_ok. rewrite Ev. destruct (structural m o); [|done]. by apply Z.mod_pos_bound. }
    destruct (IH m1 Inv1 Hv1 Hap) as (Inv' & Hv' & n & Hn & En & Hz).
    split; [done|]. split; [done|]. simpl length. rewrite En, Ev.
    destruct (structural m o) eqn:Es.
    + exists (n + 1). split; [lia|]. split; [|lia].
      unfold u64. rewrite Zplus_mod_idemp_l. f_equal. lia.
    + exists n. split; [lia|]. split; [done|]. intros H0.
      destruct (Hz H0) as [Hk Hi], (same_keys_op m o m1 Inv E1 Es) as [Hk1 Hi1].
      split; [by etrans | congruence].
Qed.

(** ** The probe under re-entrance *)

(** With no [eq] hook in the program an equality runs no user code. *)
Definition worker_quiet : Prop := forall w m l r b w' os,
  any_eq_hook = false -> values_equal_guarded w m l r = Ok (b, w', os) -> os = [].
(** One compare writes the map fewer than [2^64] times (the version is a wrapping [u64]). *)
Definition worker_short : Prop := forall w m l r b w' os,
  values_equal_guarded w m l r = Ok (b, w', os) -> Z.of_nat (length os) < 2 ^ 64.

Definition state_ok st : Prop := table_inv (the_map st) /\ version_ok (the_map st).

(** Two states between which no position of the map moved. *)
Definition unmoved st st' : Prop :=
  same_keys (the_map st) (the_map st') /\ index (the_map st) = index (the_map st').
#[local] Instance unmoved_equiv : Equivalence unmoved.
Proof.
  split; [by split| |].
  - intros x y [? ?]. by split; symmetry.
  - intros x y z [? ?] [? ?]. split; [by etrans | congruence].
Qed.

  Context (Hquiet : worker_quiet) (Hshort : worker_short).

(** A compare after which the version check passes moved no position. *)
Lemma elem_equal_live st l r b st' :
  state_ok st -> elem_equal st l r = Ok (b, st') ->
  state_ok st' /\
  (negb eq_may_reenter || (version (the_map st') =? version (the_map st)) = true -> unmoved st st').
Proof.
  intros [Inv Hv]. unfold elem_equal, eq_may_reenter. destruct (same_word l r).
  { intros [= <- <-]. by split. }
  destruct (values_equal_guarded _ _ l r) as [[[b' w'] os]|e] eqn:Ew; [|done].
  destruct (apply_ops (the_map st) os) as [m'|] eqn:Ea; [|done]. intros [= <- <-].
  destruct (apply_ops_version _ _ _ Inv Hv Ea) as (Inv' & Hv' & n & Hn & En & Hz).
  split; [by split|]. simpl. intros Hlive. apply Hz.
  destruct any_eq_hook eqn:Eh.
  - simpl in Hlive. apply Z.eqb_eq in Hlive. pose proof (Hshort _ _ _ _ _ _ _ Ew) as Hs.
    rewrite Hlive in En. unfold version_ok in Hv.
    destruct (Z_lt_le_dec (version (the_map st) + n) (2 ^ 64)).
    + rewrite Z.mod_small in En by lia. lia.
    + replace (version (the_map st) + n) with ((version (the_map st) + n - 2 ^ 64) + 1 * 2 ^ 64) in En by lia.
      rewrite Z.mod_add, Z.mod_small in En by lia. lia.
  - rewrite (Hquiet _ _ _ _ _ _ _ Eh Ew) in Hn. simpl in Hn. lia.
Qed.

(** The candidates of a state. *)
Definition cands st (hk : Z) : list nat := candidates (index (the_map st)) (entries (the_map st)) hk.

Lemma unmoved_cands st st' hk : unmoved st st' -> cands st hk = cands st' hk.
Proof. intros [Hk Hi]. by apply same_keys_candidates. Qed.

(** [key] was compared unequal to the stored key [k], in a state with the positions of [st]. *)
Definition found_unequal st (key k : V) : Prop :=
  exists st1 st2, elem_equal st1 k key = Ok (false, st2) /\ unmoved st1 st.

(** The loop's invariant: the copied candidates are those of the current table, and each candidate
    before [i] was found unequal since the last restart. *)
Record probe_inv st (hk : Z) (key : V) (rest : option (list nat)) (i : nat) : Prop := {
  pi_ok : state_ok st;
  pi_rest : match rest with Some r => r = drop 1 (cands st hk) | None => (i <= 1)%nat end;
  pi_seen : forall j p k v, (j < i)%nat -> cands st hk !! j = Some p ->
    entries (the_map st) !! p = Some (hk, k, v) -> found_unequal st key k;
}.

Lemma next_candidate_spec i rest fresh :
  match rest with Some r => r = drop 1 fresh | None => (i <= 1)%nat end ->
  exists rest', next_candidate i rest fresh = (fresh !! i, rest') /\
    match rest' with Some r => r = drop 1 fresh | None => (S i <= 1)%nat end.
Proof.
  intros Hr. destruct i as [|i]; simpl.
  - exists rest. split; [by destruct fresh|]. by destruct rest.
  - assert (E : match rest with Some r => r | None => drop 1 fresh end = drop 1 fresh).
    { by destruct rest. }
    rewrite E, lookup_drop. exists (Some (drop 1 fresh)). by split.
Qed.

(** The stored key a candidate names. *)
Lemma cand_entry st hk p :
  state_ok st -> p ∈ cands st hk -> exists k v, entries (the_map st) !! p = Some (hk, k, v).
Proof.
  intros [Inv _] Hp. apply (table_candidates (the_map st) hk Inv) in Hp as ([[h k] v] & He & <-).
  eauto.
Qed.

Lemma entry_cand st hk p k v :
  state_ok st -> entries (the_map st) !! p = Some (hk, k, v) -> p ∈ cands st hk.
Proof.
  intros [Inv _] He. apply (table_candidates (the_map st) hk Inv). by eexists.
Qed.

(** A live unequal compare of candidate [i] keeps the invariant at [i + 1]. *)
Lemma probe_inv_step st st' hk key rest rest' i p k v :
  probe_inv st hk key rest i -> cands st hk !! i = Some p ->
  entries (the_map st) !! p = Some (hk, k, v) -> elem_equal st k key = Ok (false, st') ->
  unmoved st st' -> state_ok st' ->
  match rest' with Some r => r = drop 1 (cands st hk) | None => (S i <= 1)%nat end ->
  probe_inv st' hk key rest' (S i).
Proof.
  intros Pinv Hp He Hne Hun Hok Hr. pose proof (unmoved_cands st st' hk Hun) as Ec.
  constructor; [done|by rewrite <- Ec|]. rewrite <- Ec.
  intros j q k' v' Hj Hq He'.
  destruct (same_keys_lookup _ (the_map st) q hk k' v' (symmetry (proj1 Hun)) He') as [v'' He''].
  destruct (decide (j = i)) as [->|].
  - assert (q = p) as -> by congruence. assert (k' = k) as -> by congruence. by exists st, st'.
  - destruct (pi_seen _ _ _ _ _ Pinv j q k' v'') as (s1 & s2 & E & U); [lia|done..|].
    exists s1, s2. split; [done | by etrans].
Qed.

Definition probe_post (hk : Z) (key : V) (r : option nat) st : Prop :=
  match r with
  | Some p => exists k v st1, entries (the_map st) !! p = Some (hk, k, v) /\
      elem_equal st1 k key = Ok (true, st) /\ unmoved st1 st
  | None => forall p k v, entries (the_map st) !! p = Some (hk, k, v) -> found_unequal st key k
  end.

Lemma probe_loop_post fuel st hk key rest i r st' :
  probe_inv st hk key rest i -> probe_loop fuel st hk key rest i = Some (Ok (r, st')) ->
  state_ok st' /\ probe_post hk key r st'.
Proof.
  revert st rest i. induction fuel as [|fuel IH]; intros st rest i Pinv Hrun; [done|].
  cbn [probe_loop] in Hrun. fold (cands st hk) in Hrun. pose proof (pi_ok _ _ _ _ _ Pinv) as Hok.
  destruct (next_candidate_spec i rest (cands st hk) (pi_rest _ _ _ _ _ Pinv)) as (rest' & En & Hr').
  rewrite En in Hrun. destruct (cands st hk !! i) as [p|] eqn:Ep.
  - destruct (cand_entry st hk p Hok) as (k & v & He); [by eapply list_elem_of_lookup_2|].
    rewrite He in Hrun. destruct (elem_equal st k key) as [[eq st1]|e] eqn:Eq; [|done].
    destruct (elem_equal_live _ _ _ _ _ Hok Eq) as [Hok1 Hlive].
    destruct (negb eq_may_reenter || _) eqn:El in Hrun; cbn [negb] in Hrun.
    + specialize (Hlive El). destruct eq.
      * injection Hrun as <- <-. split; [done|].
        destruct (same_keys_lookup _ _ p hk k v (proj1 Hlive) He) as [v' He'].
        by exists k, v', st.
      * eapply IH; [|done]. by eapply probe_inv_step.
    + eapply IH; [|done]. constructor; [done|lia|]. intros; lia.
  - injection Hrun as <- <-. split; [done|]. intros p k v He.
    pose proof (entry_cand st hk p k v Hok He) as [j Hj]%list_elem_of_lookup_1.
    eapply (pi_seen _ _ _ _ _ Pinv j); [|done..].
    apply lookup_lt_Some in Hj. apply lookup_ge_None in Ep. lia.
Qed.

Lemma probe_inv_start st hk key : state_ok st -> probe_inv st hk key None 0.
Proof. intros. constructor; [done|lia|]. intros; lia. Qed.

(** *** Termination *)

(** Unequal compares that leave the version alone lead from [st] to a state. *)
Inductive pass (key : V) st : PState -> Prop :=
| pass_start : pass key st st
| pass_on st1 k st2 : pass key st st1 -> elem_equal st1 k key = Ok (false, st2) ->
    version (the_map st2) = version (the_map st1) \/ eq_may_reenter = false -> pass key st st2.

(** [rewritten n st st']: on the way from [st] to [st'] [n] compares of stored keys changed the
    version under the probe. *)
Inductive rewritten (hk : Z) (key : V) : nat -> PState -> PState -> Prop :=
| rewritten_none st : rewritten hk key 0 st st
| rewritten_more n st st1 p k v b st2 st' : pass key st st1 -> eq_may_reenter = true ->
    entries (the_map st1) !! p = Some (hk, k, v) -> elem_equal st1 k key = Ok (b, st2) ->
    version (the_map st2) <> version (the_map st1) ->
    rewritten hk key n st2 st' -> rewritten hk key (S n) st st'.

Lemma pass_trans key st1 st2 st3 : pass key st1 st2 -> pass key st2 st3 -> pass key st1 st3.
Proof. intros P1. induction 1; [done|]. by eapply pass_on. Qed.

(** More fuel does not change an answer. *)
Lemma probe_loop_more fuel more st hk key rest i res :
  probe_loop fuel st hk key rest i = Some res -> probe_loop (fuel + more) st hk key rest i = Some res.
Proof.
  revert st rest i. induction fuel as [|fuel IH]; intros st rest i E; [done|]. cbn [probe_loop Nat.add] in *.
  destruct (next_candidate _ _ _) as [[p|] rest']; [|done].
  destruct (entries (the_map st) !! p) as [[[h k] v]|]; [|done].
  destruct (elem_equal st k key) as [[b st1]|e]; [|done].
  destruct (negb (negb eq_may_reenter || _)); [by apply IH|]. destruct b; [done|by apply IH].
Qed.

(** A pass over the candidates of an unmoved map ends in an answer, or in a restart. *)
Lemma probe_pass st hk key rest i : probe_inv st hk key rest i ->
  (exists fuel res, probe_loop fuel st hk key rest i = Some res) \/
  exists fuel st1 p k v b st2, pass key st st1 /\ eq_may_reenter = true /\
    entries (the_map st1) !! p = Some (hk, k, v) /\ elem_equal st1 k key = Ok (b, st2) /\
    version (the_map st2) <> version (the_map st1) /\ state_ok st2 /\
    forall more, probe_loop (fuel + more) st hk key rest i = probe_loop more st2 hk key None 0.
Proof.
  remember (length (cands st hk) - i)%nat as d eqn:Hd.
  revert st rest i Hd. induction d as [d IH] using lt_wf_ind; intros st rest i -> Pinv.
  pose proof (pi_ok _ _ _ _ _ Pinv) as Hok.
  destruct (next_candidate_spec i rest (cands st hk) (pi_rest _ _ _ _ _ Pinv)) as (rest' & En & Hr').
  assert (Eq : forall fuel, probe_loop (S fuel) st hk key rest i = match cands st hk !! i with
    | None => Some (Ok (None, st))
    | Some p => match entries (the_map st) !! p with
        | None => Some (Ok (None, st))
        | Some (_, stored, _) => match elem_equal st stored key with
            | Err e => Some (Err e)
            | Ok (eq, st') =>
                if negb (negb eq_may_reenter || (version (the_map st') =? version (the_map st))) then probe_loop fuel st' hk key None 0
                else if eq then Some (Ok (Some p, st')) else probe_loop fuel st' hk key rest' (S i)
            end end end).
  { intros fuel. cbn [probe_loop]. fold (cands st hk). by rewrite En. }
  destruct (cands st hk !! i) as [p|] eqn:Ep; [|left; exists 1%nat; by eexists].
  destruct (cand_entry st hk p Hok) as (k & v & He); [by eapply list_elem_of_lookup_2|]. rewrite He in Eq.
  destruct (elem_equal st k key) as [[b st1]|e] eqn:Ee; [|left; exists 1%nat; by eexists].
  destruct (elem_equal_live _ _ _ _ _ Hok Ee) as [Hok1 Hlive].
  destruct (negb eq_may_reenter || _) eqn:El; cbn [negb] in Eq.
  - specialize (Hlive eq_refl). destruct b; [left; exists 1%nat; by eexists|].
    assert (Hstep : pass key st st1).
    { eapply pass_on; [apply pass_start|exact Ee|]. apply orb_true_iff in El as [El|El]; [right; by destruct eq_may_reenter|left; lia]. }
    pose proof (probe_inv_step _ _ _ _ _ _ _ _ _ _ Pinv Ep He Ee Hlive Hok1 Hr') as Pinv'.
    pose proof (unmoved_cands st st1 hk Hlive) as Ec. apply lookup_lt_Some in Ep.
    destruct (IH (length (cands st1 hk) - S i)%nat ltac:(rewrite <- Ec; lia) st1 rest' (S i) eq_refl Pinv')
      as [(fuel & res & Er)|(fuel & s1 & q & k' & v' & b & s2 & Hp & Hh & Hq & Hc & Hv & Hok2 & Hm)].
    + left. exists (S fuel), res. by rewrite Eq.
    + right. exists (S fuel), s1, q, k', v', b, s2. split; [by eapply pass_trans|]. split_and!; try done.
      intros more. cbn [Nat.add]. by rewrite Eq.
  - right. apply orb_false_iff in El as [Eh Ev]. exists 1%nat, st, p, k, v, b, st1.
    split; [apply pass_start|]. split; [by destruct eq_may_reenter|]. split_and!; try done. by apply Z.eqb_neq.
Qed.

Lemma probe_ends n st hk key : state_ok st ->
  (exists fuel res, forall more, map_probe (fuel + more) st hk key = Some res) \/
  exists st', rewritten hk key n st st'.
Proof.
  revert st. induction n as [|n IH]; intros st Hok; [right; exists st; apply rewritten_none|].
  destruct (probe_pass st hk key None 0 (probe_inv_start _ _ _ Hok))
    as [(fuel & res & Er)|(fuel & s1 & p & k & v & b & s2 & Hp & Hh & Hq & Hc & Hv & Hok2 & Hm)].
  - left. exists fuel, res. intros more. by apply probe_loop_more.
  - destruct (IH s2 Hok2) as [(fuel' & res & Er)|[st' Hr]].
    + left. exists (fuel + fuel')%nat, res. intros more. unfold map_probe in *. by rewrite <- Nat.add_assoc, Hm.
    + right. exists st'. by eapply rewritten_more.
Qed.

Lemma probe_loop_fault fuel st hk key rest i e :
  probe_loop fuel st hk key rest i = Some (Err e) -> exists st1 k, elem_equal st1 k key = Err e.
Proof.
  revert st rest i. induction fuel as [|fuel IH]; intros st rest i E; [done|]. cbn [probe_loop] in *.
  destruct (next_candidate _ _ _) as [[p|] rest']; [|done].
  destruct (entries (the_map st) !! p) as [[[h k] v]|]; [|done].
  destruct (elem_equal st k key) as [[b st1]|e'] eqn:Ee; [|injection E as ->; by exists st, k].
  destruct (negb (negb eq_may_reenter || _)); [by eapply IH|]. destruct b; [done|by eapply IH].
Qed.

(** C27: a probe is right under any re-entrant [eq], as long as one compare writes the map fewer than
    [2^64] times, and not at all in a program without an [eq] hook.  Whatever writes the user's [eq]
    did to the map between the compares, a position the probe returns holds, in the map as it is then,
    a key of the probed hash that this [eq] found equal; when it returns none, every key of the probed
    hash then in the map was found unequal with the positions as they are then; and a fault it raises
    is one that a compare raised.  It ends: for each [n], either the probe answers, the same with any
    more fuel, or [n] of its compares changed the structure of the map under it; so only an [eq] that
    keeps rewriting the map keeps a probe running, and without an [eq] hook every probe answers. *)
Theorem map_probe_reentrant st hk key :
  state_ok st ->
  (forall fuel r st', map_probe fuel st hk key = Some (Ok (r, st')) ->
   table_inv (the_map st') /\
   match r with
   | Some p => exists k v st1, entries (the_map st') !! p = Some (hk, k, v) /\
       elem_equal st1 k key = Ok (true, st') /\ unmoved st1 st'
   | None => forall p k v, entries (the_map st') !! p = Some (hk, k, v) ->
       exists st1 st2, elem_equal st1 k key = Ok (false, st2) /\ unmoved st1 st'
   end) /\
  (forall fuel e, map_probe fuel st hk key = Some (Err e) -> exists st1 k, elem_equal st1 k key = Err e) /\
  (forall n, (exists fuel res, forall more, map_probe (fuel + more) st hk key = Some res) \/
     exists st', rewritten hk key n st st') /\
  (any_eq_hook = false -> exists fuel res, forall more, map_probe (fuel + more) st hk key = Some res).
Proof.
  intros Hok. split_and!.
  - intros fuel r st' Hrun.
    by destruct (probe_loop_post _ _ _ _ _ _ _ _ (probe_inv_start st hk key Hok) Hrun) as [[Inv _] Hpost].
  - intros fuel e. apply probe_loop_fault.
  - intros n. by apply probe_ends.
  - intros Hh. destruct (probe_ends 1 st hk key Hok) as [?|[st' Hr]]; [done|].
    inversion Hr as [|? ? ? ? ? ? ? ? ? _ He]. unfold eq_may_reenter in He. congruence.
Qed.

(** ** Maps as partial functions

    From here the equality is a function of the two keys: it answers [eqb], writes nothing and does
    not fault. *)
Section pure.
  Context (eqb : V -> V -> bool) (hash : V -> Z).

Definition pure_eq : Prop := forall st l r, elem_equal st l r = Ok (eqb l r, st).
(** The [hash]/[eq] contract of a key type, and what a key snapshot keeps. *)
Record key_laws : Prop := {
  eqb_refl : forall k, eqb k k = true;
  eqb_sym : forall k l, eqb k l = eqb l k;
  eqb_trans : forall k l n, eqb k l = true -> eqb l n = true -> eqb k n = true;
  eqb_hash : forall k l, eqb k l = true -> hash k = hash l;
  snapshot_eq : forall k, eqb (snapshot_key k) k = true;
}.

(** A map as the VM keeps it: cached hashes are those of the keys, keys are pairwise unequal. *)
Record map_ok st : Prop := {
  mo_state : state_ok st;
  mo_hash : forall p h k v, entries (the_map st) !! p = Some (h, k, v) -> h = hash k;
  mo_unique : forall p q h h' k k' v v', entries (the_map st) !! p = Some (h, k, v) ->
    entries (the_map st) !! q = Some (h', k', v') -> eqb k k' = true -> p = q;
}.

(** The partial function a map stands for. *)
Fixpoint assoc (es : list (MapEntry V)) (key : V) : option V :=
  match es with
  | [] => None
  | (_, k, v) :: es => if eqb k key then Some v else assoc es key
  end.

  Context (Hpure : pure_eq) (Hkeys : key_laws).

Lemma assoc_cases es key :
  (exists p h k v, es !! p = Some (h, k, v) /\ eqb k key = true /\ assoc es key = Some v) \/
  ((forall p h k v, es !! p = Some (h, k, v) -> eqb k key = false) /\ assoc es key = None).
Proof.
  induction es as [|[[h k] v] es IH]; simpl; [by right|].
  destruct (eqb k key) eqn:E; [left; by exists 0%nat, h, k, v|].
  destruct IH as [(p & h' & k' & v' & Hp & Hk)|[Hall Hn]].
  - left. by exists (S p), h', k', v'.
  - right. split; [|done]. intros [|p] h' k' v'; [by intros [= <- <- <-] | apply Hall].
Qed.

Lemma assoc_None es key :
  (forall p h k v, es !! p = Some (h, k, v) -> eqb k key = false) -> assoc es key = None.
Proof.
  intros Hall. destruct (assoc_cases es key) as [(p & h & k & v & Hp & Hk & _)|[_ Hn]]; [|done].
  rewrite (Hall p h k v Hp) in Hk. done.
Qed.

Lemma assoc_at st p h k v key :
  map_ok st -> entries (the_map st) !! p = Some (h, k, v) -> eqb k key = true ->
  assoc (entries (the_map st)) key = Some v.
Proof.
  intros Hok Hp Hk. destruct (assoc_cases (entries (the_map st)) key)
    as [(q & h' & k' & v' & Hq & Hk' & ->)|[Hall _]].
  - assert (p = q) as <-; [|congruence]. eapply (mo_unique _ Hok); [done..|].
    apply (eqb_trans Hkeys _ key); [done|]. by rewrite (eqb_sym Hkeys).
  - rewrite (Hall p h k v Hp) in Hk. done.
Qed.

(** The probe ends: one turn per candidate, and one more to see there is none. *)
Lemma probe_loop_total fuel st hk key rest i :
  probe_inv st hk key rest i -> (i <= length (cands st hk) < i + fuel)%nat ->
  exists r, probe_loop fuel st hk key rest i = Some (Ok (r, st)).
Proof.
  revert rest i. induction fuel as [|fuel IH]; intros rest i Pinv Hf; [lia|].
  cbn [probe_loop]. fold (cands st hk). pose proof (pi_ok _ _ _ _ _ Pinv) as Hok.
  destruct (next_candidate_spec i rest (cands st hk) (pi_rest _ _ _ _ _ Pinv)) as (rest' & -> & Hr').
  destruct (cands st hk !! i) as [p|] eqn:Ep; [|eauto].
  destruct (cand_entry st hk p Hok) as (k & v & He); [by eapply list_elem_of_lookup_2|].
  rewrite He, Hpure, Z.eqb_refl, orb_true_r. cbn [negb]. destruct (eqb k key) eqn:Ek; [eauto|].
  apply IH; [|apply lookup_lt_Some in Ep; lia].
  eapply probe_inv_step; try done. by rewrite Hpure, Ek.
Qed.

(** The candidates are at most the entries. *)
Lemma length_cands st hk : state_ok st -> (length (cands st hk) <= length (entries (the_map st)))%nat.
Proof.
  intros Hok. destruct (table_candidates (the_map st) hk (proj1 Hok)) as [HN _].
  transitivity (length (seq 0 (length (entries (the_map st))))); [|by rewrite length_seq].
  apply submseteq_length, NoDup_submseteq; [done|]. intros p Hp.
  destruct (cand_entry st hk p Hok Hp) as (k & v & He). apply lookup_lt_Some in He.
  apply elem_of_seq. lia.
Qed.

(** The probe finds the entry of an equal key, or there is none. *)
Lemma map_probe_pure fuel st key :
  map_ok st -> (length (entries (the_map st)) < fuel)%nat ->
  (exists p k v, map_probe fuel st (hash key) key = Some (Ok (Some p, st)) /\
     entries (the_map st) !! p = Some (hash key, k, v) /\ eqb k key = true) \/
  (map_probe fuel st (hash key) key = Some (Ok (None, st)) /\
   forall p h k v, entries (the_map st) !! p = Some (h, k, v) -> eqb k key = false).
Proof.
  intros Hok Hf. pose proof (mo_state _ Hok) as Hst.
  pose proof (probe_inv_start st (hash key) key Hst) as Pinv.
  destruct (probe_loop_total fuel _ _ _ _ _ Pinv) as [r Hr].
  { pose proof (length_cands st (hash key) Hst). lia. }
  destruct (probe_loop_post _ _ _ _ _ _ _ _ Pinv Hr) as [_ Hpost]. unfold map_probe.
  destruct r as [p|]; simpl in Hpost.
  - destruct Hpost as (k & v & st1 & He & Heq & _). rewrite Hpure in Heq. injection Heq as Hk _.
    left. by exists p, k, v.
  - right. split; [done|]. intros p h k v He. destruct (eqb k key) eqn:Ek; [|done].
    rewrite (mo_hash _ Hok p h k v He), (eqb_hash Hkeys k key Ek) in He.
    destruct (Hpost p k v He) as (s1 & s2 & E & _). rewrite Hpure in E. congruence.
Qed.

(** [Get] and [Contains] on a map the VM keeps return, with fuel for one turn per entry, the
    value of the partial function the map stands for, and leave the state alone. *)
Lemma map_lookup_refines fuel st key :
  map_ok st -> (length (entries (the_map st)) < fuel)%nat ->
  map_lookup fuel st (hash key) key = Some (Ok (assoc (entries (the_map st)) key, st)) /\
  map_contains fuel st (hash key) key =
    Some (Ok (match assoc (entries (the_map st)) key with Some _ => true | None => false end, st)).
Proof.
  intros Hok Hf. unfold map_lookup, map_contains.
  destruct (map_probe_pure fuel st key Hok Hf) as [(p & k & v & -> & He & Hk)|[-> Hall]].
  - rewrite (assoc_at st p _ k v key Hok He Hk). unfold value_at. by rewrite He.
  - by rewrite assoc_None.
Qed.

(** ** Writes *)
Lemma value_write_ok st i v :
  map_ok st -> map_ok (mkP (world st) (set_value (the_map st) i v).2).
Proof.
  intros Hok. destruct (set_value_spec (the_map st) i v) as (_ & Ees & _ & Ev).
  destruct (mo_state _ Hok) as [Inv Hv].
  assert (Hkeep : forall p h k x, entries (set_value (the_map st) i v).2 !! p = Some (h, k, x) ->
    exists x', entries (the_map st) !! p = Some (h, k, x')).
  { intros p h k x. rewrite Ees. simpl. rewrite list_lookup_alter. case_decide; [|eauto]. subst.
    destruct (entries (the_map st) !! p) as [[[h' k'] x']|]; [|done]. intros [= <- <- _]. eauto. }
  constructor; simpl.
  - split; [by apply set_value_inv | unfold version_ok; simpl; by rewrite Ev].
  - intros p h k x [x' Hp]%Hkeep. by apply (mo_hash _ Hok p h k x').
  - intros p q h h' k k' x x' [y Hp]%Hkeep [y' Hq]%Hkeep. by eapply (mo_unique _ Hok).
Qed.

Lemma push_entry_ok st key v :
  map_ok st -> Z.of_nat (length (entries (the_map st))) < MAX_ENTRIES ->
  (forall p h k v, entries (the_map st) !! p = Some (h, k, v) -> eqb k key = false) ->
  exists st', push_entry st (hash key) key v = Ok st' /\ map_ok st' /\
    entries (the_map st') = entries (the_map st) ++ [(hash key, snapshot_key key, v)].
Proof.
  intros Hok Hlt Hnew. unfold push_entry. destruct (mo_state _ Hok) as [Inv Hv].
  pose proof (snapshot_eq Hkeys key) as Hsnap.
  destruct (push_inv (the_map st) (hash key, snapshot_key key, v) Inv Hlt) as (m & -> & Es & Ev & Inv').
  exists (mkP (world st) m). split; [done|]. split; [|done].
  assert (Hold : forall p h k x, entries m !! p = Some (h, k, x) ->
    entries (the_map st) !! p = Some (h, k, x) \/
    (p = length (entries (the_map st)) /\ h = hash key /\ k = snapshot_key key)).
  { intros p h k x. rewrite Es, lookup_app.
    destruct (entries (the_map st) !! p) eqn:E; [by left|]. apply lookup_ge_None in E.
    intros [Hp [= <- <- <-]]%list_lookup_singleton_Some. right. split; [lia|done]. }
  assert (Hne : forall p h k x, entries (the_map st) !! p = Some (h, k, x) ->
    eqb k (snapshot_key key) = false /\ eqb (snapshot_key key) k = false).
  { intros p h k x Hp. rewrite (eqb_sym Hkeys (snapshot_key key)).
    destruct (eqb k (snapshot_key key)) eqn:E; [|done].
    pose proof (eqb_trans Hkeys _ _ _ E Hsnap) as Et. rewrite (Hnew p h k x Hp) in Et. done. }
  constructor; simpl.
  - split; [done|]. unfold version_ok. simpl. rewrite Ev. by apply Z.mod_pos_bound.
  - intros p h k x [Hp|(_ & -> & ->)]%Hold; [by apply (mo_hash _ Hok p h k x)|].
    symmetry. by apply (eqb_hash Hkeys).
  - intros p q h h' k k' x x' [Hp|(-> & _ & ->)]%Hold [Hq|(-> & _ & ->)]%Hold Hkk; [|exfalso..|done].
    + by eapply (mo_unique _ Hok).
    + destruct (Hne p h k x Hp). congruence.
    + destruct (Hne q h' k' x' Hq). congruence.
Qed.

Lemma assoc_app es es' key :
  assoc (es ++ es') key = match assoc es key with Some v => Some v | None => assoc es' key end.
Proof. induction es as [|[[h k] v] es IH]; simpl; [done|]. by destruct (eqb k key). Qed.

Lemma eqb_swap_l k k' key : eqb k k' = true -> eqb k key = eqb k' key.
Proof.
  intros E. destruct (eqb k' key) eqn:E1; [by apply (eqb_trans Hkeys _ k')|].
  destruct (eqb k key) eqn:E2; [|done]. rewrite <- E1. symmetry.
  apply (eqb_trans Hkeys _ k); [by rewrite (eqb_sym Hkeys) | done].
Qed.

(** Writing the value of the entry of [k]. *)
Lemma assoc_value_write st i h k old v key :
  map_ok st -> entries (the_map st) !! i = Some (h, k, old) ->
  assoc (entries (set_value (the_map st) i v).2) key =
    if eqb k key then Some v else assoc (entries (the_map st)) key.
Proof.
  intros Hok Hi. pose proof (value_write_ok st i v Hok) as Hok'.
  destruct (set_value_spec (the_map st) i v) as (_ & Ees & _ & _). simpl in Ees.
  assert (Hat : forall p, entries (set_value (the_map st) i v).2 !! p =
    if decide (i = p) then Some (h, k, v) else entries (the_map st) !! p).
  { intros p. rewrite Ees, list_lookup_alter. case_decide; [|done]. by rewrite Hi. }
  destruct (eqb k key) eqn:Ek.
  - refine (assoc_at _ i h k v key Hok' _ Ek). simpl. rewrite Hat. by case_decide.
  - destruct (assoc_cases (entries (the_map st)) key) as [(p & h' & k' & v' & Hp & Hk' & ->)|[Hall ->]].
    + refine (assoc_at _ p h' k' v' key Hok' _ Hk'). simpl. rewrite Hat.
      case_decide as Hip; [|done]. subst. congruence.
    + apply assoc_None. intros p h' k' v'. rewrite Hat. case_decide; [|apply Hall]. congruence.
Qed.

(** [Insert] on a map the VM keeps is the update of a partial function: it returns the value it
    replaced, keeps the map's invariant, and afterwards an equal key has the new value and every
    other key the value it had. *)
Lemma map_upsert_refines fuel st key v :
  map_ok st -> (length (entries (the_map st)) < fuel)%nat ->
  Z.of_nat (length (entries (the_map st))) < MAX_ENTRIES ->
  exists st', map_upsert_in_heap fuel st (hash key) key v =
      Some (Ok (assoc (entries (the_map st)) key, st')) /\ map_ok st' /\
    forall key', assoc (entries (the_map st')) key' =
      if eqb key key' then Some v else assoc (entries (the_map st)) key'.
Proof.
  intros Hok Hf Hlt. unfold map_upsert_in_heap.
  destruct (map_probe_pure fuel st key Hok Hf) as [(p & k & old & -> & He & Hk)|[-> Hall]].
  - rewrite (assoc_at st p _ k old key Hok He Hk).
    pose proof (value_write_ok st p v Hok) as Hok'.
    pose proof (fun key' => assoc_value_write st p _ k old v key' Hok He) as Ha.
    destruct (set_value_spec (the_map st) p v) as (E1 & _).
    destruct (set_value (the_map st) p v) as [r m]. simpl in *.
    unfold value_at in E1. rewrite He in E1. simpl in E1. subst r.
    eexists. split; [done|]. split; [done|]. intros key'. simpl. rewrite Ha.
    by rewrite (eqb_swap_l k key key' Hk).
  - rewrite assoc_None by done.
    destruct (push_entry_ok st key v Hok Hlt Hall) as (st' & -> & Hok' & Es).
    eexists. split; [done|]. split; [done|]. intros key'. rewrite Es, assoc_app. simpl.
    rewrite (eqb_swap_l _ _ key' (snapshot_eq Hkeys key)).
    destruct (eqb key key') eqn:Ek; [|by destruct (assoc _ key')].
    rewrite assoc_None; [done|]. intros p h k x Hp.
    rewrite (eqb_sym Hkeys), <- (eqb_swap_l key key' k Ek), (eqb_sym Hkeys). by apply (Hall p h k x).
Qed.

(** [Vec::remove] moves each later entry one place down. *)
Lemma lookup_vec_remove (es : list (MapEntry V)) i p :
  vec_remove i es !! p = es !! (if decide (p < i)%nat then p else S p).
Proof.
  unfold vec_remove. rewrite <- delete_take_drop. case_decide.
  - by rewrite list_lookup_delete_lt.
  - by rewrite list_lookup_delete_ge by lia.
Qed.

Lemma remove_ok st i h k v :
  map_ok st -> entries (the_map st) !! i = Some (h, k, v) ->
  exists m, remove_at (the_map st) i = Some (Some (h, k, v), m) /\ map_ok (mkP (world st) m) /\
    entries m = vec_remove i (entries (the_map st)).
Proof.
  intros Hok Hi. destruct (mo_state _ Hok) as [Inv Hv].
  destruct (remove_at_inv (the_map st) i Inv) as (r & m & -> & -> & Inv' & Hs & _).
  rewrite Hi in *. destruct Hs as [Es Ev]; [done|]. exists m. split; [done|]. split; [|done].
  constructor; simpl; rewrite ?Es.
  - split; [done|]. unfold version_ok. simpl. rewrite Ev. by apply Z.mod_pos_bound.
  - intros p h' k' v'. rewrite lookup_vec_remove. apply (mo_hash _ Hok).
  - intros p q h1 h2 k1 k2 v1 v2. rewrite !lookup_vec_remove. intros Hp Hq Hkk.
    pose proof (mo_unique _ Hok _ _ _ _ _ _ _ _ Hp Hq Hkk). repeat case_decide; lia.
Qed.

(** [Remove] on a map the VM keeps returns the value of the key and removes it from the partial
    function; every other key keeps its value and the map its invariant (a removed last entry leaves
    no index table). *)
Lemma map_remove_refines fuel st key :
  map_ok st -> (length (entries (the_map st)) < fuel)%nat ->
  exists st', map_remove fuel st (hash key) key =
      Some (Ok (assoc (entries (the_map st)) key, st')) /\ map_ok st' /\
    (entries (the_map st') = [] -> index (the_map st') = []) /\
    forall key', assoc (entries (the_map st')) key' =
      if eqb key key' then None else assoc (entries (the_map st)) key'.
Proof.
  intros Hok Hf. unfold map_remove.
  assert (Hdrop : forall s, map_ok s -> entries (the_map s) = [] -> index (the_map s) = []).
  { intros s [[[_ [[_ ?]|(_ & Hl & _)]] _] _ _] E0; [done|]. rewrite E0 in Hl. simpl in Hl. lia. }
  destruct (map_probe_pure fuel st key Hok Hf) as [(p & k & v & -> & He & Hk)|[-> Hall]].
  - rewrite (assoc_at st p _ k v key Hok He Hk).
    destruct (remove_ok st p _ k v Hok He) as (m & -> & Hok' & Es).
    eexists. split; [done|]. split; [done|]. split; [by apply Hdrop|]. simpl. rewrite Es. intros key'.
    destruct (eqb key key') eqn:Ek.
    + apply assoc_None. intros q h' k' v' Hq. rewrite lookup_vec_remove in Hq.
      destruct (eqb k' key') eqn:Ek'; [|done].
      assert (Hkk : eqb k k' = true).
      { rewrite (eqb_swap_l k key k' Hk), (eqb_sym Hkeys).
        apply (eqb_trans Hkeys _ key'); [done|]. by rewrite (eqb_sym Hkeys). }
      pose proof (mo_unique _ Hok _ _ _ _ _ _ _ _ He Hq Hkk). case_decide; lia.
    + destruct (assoc_cases (entries (the_map st)) key') as [(q & h' & k' & v' & Hq & Hk' & ->)|[Hall ->]].
      * assert (Hpq : p <> q).
        { intros <-. assert (k' = k) as -> by congruence.
          rewrite (eqb_swap_l k key key' Hk) in Hk'. congruence. }
        rewrite <- Es. refine (assoc_at (mkP (world st) m) (if decide (q < p)%nat then q else pred q)
          h' k' v' key' Hok' _ Hk').
        simpl. rewrite Es, lookup_vec_remove, <- Hq. f_equal. repeat case_decide; lia.
      * apply assoc_None. intros q h' k' v'. rewrite lookup_vec_remove. apply Hall.
  - rewrite assoc_None by done. eexists. split; [done|]. split; [done|]. split; [by apply Hdrop|].
    intros key'. destruct (eqb key key') eqn:Ek; [|done]. apply assoc_None. intros q h k v Hq.
    rewrite (eqb_sym Hkeys), <- (eqb_swap_l key key' k Ek), (eqb_sym Hkeys). by apply (Hall q h k v).
Qed.

(** A map the VM keeps is a partial function and its methods are the function's operations.
    With fuel for one turn per entry and room for one more, [Get] and [Contains] return the value
    of the key and change nothing, [Insert] returns the value it replaced and is the update,
    [Remove] returns the value it removed and is the restriction; each keeps the map's
    invariant. *)
Lemma map_ops_refine fuel st key v :
  map_ok st -> (length (entries (the_map st)) < fuel)%nat ->
  Z.of_nat (length (entries (the_map st))) < MAX_ENTRIES ->
  let old := assoc (entries (the_map st)) key in
  map_lookup fuel st (hash key) key = Some (Ok (old, st)) /\
  map_contains fuel st (hash key) key = Some (Ok (match old with Some _ => true | None => false end, st)) /\
  (exists st', map_upsert_in_heap fuel st (hash key) key v = Some (Ok (old, st')) /\ map_ok st' /\
     forall key', assoc (entries (the_map st')) key' =
       if eqb key key' then Some v else assoc (entries (the_map st)) key') /\
  (exists st', map_remove fuel st (hash key) key = Some (Ok (old, st')) /\ map_ok st' /\
     (entries (the_map st') = [] -> index (the_map st') = []) /\
     forall key', assoc (entries (the_map st')) key' =
       if eqb key key' then None else assoc (entries (the_map st)) key').
Proof.
  intros Hok Hf Hlt old. destruct (map_lookup_refines fuel st key Hok Hf) as [H1 H2].
  split; [exact H1|]. split; [exact H2|]. split; [by apply map_upsert_refines|by apply map_remove_refines].
Qed.
End pure.
End probe.

(** ** Instances *)
Module ProbeDemo.
  Local Open Scope Z_scope.

(** Three keys that share one hash. *)
Definition es : list (MapEntry Z) := [(7, 1, 10); (7, 2, 20); (7, 3, 30)].
Definition st {W} (w : W) : PState := mkP w (default empty_table (from_entries es)).
Definition no_word (_ _ : Z) : bool := false.

(** An [eq] that removes the first entry of the map on its first call. *)
Definition hostile (w : nat) (_ : TableData (MapEntry Z)) (l r : Z)
  : result (bool * nat * list (@map_op Z)) unit :=
  Ok (l =? r, S w, match w with O => [MRemove 0] | _ => [] end).
(** An [eq] that only compares. *)
Definition plain (w : unit) (_ : TableData (MapEntry Z)) (l r : Z)
  : result (bool * unit * list (@map_op Z)) unit := Ok (l =? r, w, []).

Lemma st_ok {W} (w : W) : state_ok (st w).
Proof.
  destruct (from_entries_inv es) as (m & E & _ & Inv); [vm_compute; congruence|].
  unfold state_ok, st. rewrite E. split; [exact Inv|].
  assert (Hv : (version <$> from_entries es) = Some 0) by (vm_compute; reflexivity).
  rewrite E in Hv. injection Hv as Hv. unfold version_ok. simpl. rewrite Hv. lia.
Qed.

Lemma hostile_short : worker_short hostile.
Proof. intros w m l r b w' os [= <- <- <-]. destruct w; simpl; lia. Qed.
Lemma hostile_quiet : worker_quiet true hostile.
Proof. intros w m l r b w' os [=]. Qed.

Definition hash (_ : Z) : Z := 7.
Lemma plain_pure : pure_eq no_word plain Z.eqb.
Proof. intros [w m] l r. reflexivity. Qed.
Lemma plain_short : worker_short plain.
Proof. intros w m l r b w' os [= <- <- <-]. simpl. lia. Qed.
Lemma plain_quiet : worker_quiet false plain.
Proof. by intros w m l r b w' os _ [= <- <- <-]. Qed.
Lemma plain_keys : key_laws id Z.eqb hash.
Proof.
  split; intros.
  - apply Z.eqb_refl.
  - apply Z.eqb_sym.
  - apply Z.eqb_eq in H, H0. apply Z.eqb_eq. lia.
  - done.
  - apply Z.eqb_refl.
Qed.

Lemma entries_st {W} (w : W) : entries (the_map (st w)) = es.
Proof. vm_compute. reflexivity. Qed.

Lemma plain_ok : map_ok Z.eqb hash (st tt).
Proof.
  constructor; [apply st_ok|..]; rewrite entries_st.
  - intros [|[|[|p]]] h k v; simpl; intros; simplify_eq; done.
  - intros [|[|[|p]]] [|[|[|q]]] h h' k k' v v'; simpl; intros; simplify_eq; done.
Qed.
End ProbeDemo.

Lemma map_probe_reentrant_witness :
  (exists st' : PState, map_probe true ProbeDemo.no_word ProbeDemo.hostile 10 (ProbeDemo.st 0%nat) 7%Z 3%Z =
      Some (Ok (Some 1%nat, st')) /\
    exists k v st1, entries (the_map st') !! 1%nat = Some (7%Z, k, v) /\
      elem_equal ProbeDemo.no_word ProbeDemo.hostile st1 k 3%Z = Ok (true, st') /\ unmoved st1 st') /\
  exists fuel res, forall more, map_probe false ProbeDemo.no_word ProbeDemo.plain (fuel + more) (ProbeDemo.st tt) 7%Z 3%Z = Some res.
Proof.
  split.
  - eexists. split; [vm_compute; reflexivity|].
    refine (proj2 (proj1 (map_probe_reentrant true ProbeDemo.no_word ProbeDemo.hostile
      ProbeDemo.hostile_quiet ProbeDemo.hostile_short (ProbeDemo.st 0%nat) 7%Z 3%Z _) 10%nat (Some 1%nat) _ _)).
    + apply ProbeDemo.st_ok.
    + vm_compute. reflexivity.
  - apply (map_probe_reentrant false ProbeDemo.no_word ProbeDemo.plain
      ProbeDemo.plain_quiet ProbeDemo.plain_short (ProbeDemo.st tt) 7%Z 3%Z); [apply ProbeDemo.st_ok|reflexivity].
Defined.
