(* ===== verification/Ty.v ===== *)
(** * The checker's types: [src/src/checker/ty.rs], [src/src/checker/ty_util.rs]

    The type lattice [Ty] of the checker and the pure functions on it: structural compatibility
    ([compatible]), the C-width scalars, the carriers, substitution, the hole tests and the join that
    fills open slots ([merge_unknown]).  Rust's [Vec] is a list, [Box] disappears, [HashMap] of a
    substitution is a [gmap].  A function type keeps the labels it carries ([FnLabels]) without the
    declaration's call slots, which only the binding of a call reads.  A type variable's [u32] is a
    [nat].  [compatible] swaps its arguments as it recurses; it is an open functional closed by
    the sum of the sizes as fuel, and [compatible_unfold] is the source's recursion equation. *)

From Stdlib Require Import Ascii String.
From stdpp Require Import strings gmap.
From S2P Require Import Prelude.
Set Warnings "-register-all".
Local Open Scope string_scope.
Local Open Scope list_scope.
Local Open Scope nat_scope.

(** ** The data *)

(** [Variadic] of [ast/mod.rs]. *)
Inductive Variadic := NoVar | Pack | CVar.
#[global] Instance Variadic_eq_dec : EqDecision Variadic.
Proof. solve_decision. Defined.

(** [CType] of [native/cffi.rs], the widths a slot type can carry. *)
Inductive CType :=
| CInt | CFloat | CBool | CStr | CPtr
| CStruct (name : string) (field_names : list string) (fields : list CType)
| COwnedStr | COptStr | COptOwnedStr
| CInt8 | CInt16 | CInt32 | CInt64 | CUInt8 | CUInt16 | CUInt32 | CUInt64 | CFloat32
| CCallback (params : list CType) (ret : option CType).

(** [FnLabels]: the parameter names, the fewest arguments a call may supply, and the types of the
    keyword-only parameters. *)
Record FnLabels (T : Type) := mkLabels {
  label_names : list (option string);
  label_min : option nat;
  kw : list T;
}.
Arguments mkLabels {T}.
Arguments label_names {T}.
Arguments label_min {T}.
Arguments kw {T}.

(** [Ty]. *)
Inductive Ty :=
| TInt | TFloat | TBool | TStr | TBytes | TByteArray | TNil
| TList (t : Ty) | TMap (k v : Ty) | TSet (t : Ty)
| TFunc (params : list Ty) (ret : Ty) (labels : FnLabels Ty) (variadic : Variadic)
| TTuple (ts : list Ty) | TStruct (name : string) (targs : list Ty)
| TEnum (key : string) (targs : list Ty) | TParam (name : string)
| TResult (t e : Ty) | TOption (t : Ty)
| TChannel (t : Ty) | TShared (t : Ty) | TAtomic (t : Ty) | TAtomicInt | TRwShared (t : Ty)
| TExecutor | TSocket | TListener | TWriter | TReader | TPtr
| TWidth (w : CType) | TProtocol (name : string) (targs : list Ty) | TModule (name : string)
| TUnknown | TVar (n : nat).

(** [Wrap]: the implicit wrap of a value at a carrier slot. *)
Inductive Wrap := WrapSome | WrapOk.

(** [Ty::error_proto], [Ty::result]. *)
Definition error_proto : Ty := TProtocol "Error" [].
Definition result_ty (inner : Ty) : Ty := TResult inner error_proto.

(** [Ty::enum_ty] and its inverse [Ty::as_enum]. *)
Definition enum_ty (key : string) (args : list Ty) : Ty :=
  match args with
  | [t] => if String.eqb key "Option" then TOption t else TEnum key args
  | [t; e] => if String.eqb key "Result" then TResult t e else TEnum key args
  | _ => TEnum key args
  end.

Definition as_enum (t : Ty) : option (string * list Ty) :=
  match t with
  | TOption t => Some ("Option", [t])
  | TResult t e => Some ("Result", [t; e])
  | TEnum k a => Some (k, a)
  | _ => None
  end.

(** [Ty::carrier_parts], [Ty::carrier_payload], [Ty::slot_payload]. *)
Definition carrier_parts (t : Ty) : option (Wrap * Ty * option Ty) :=
  match t with
  | TOption p => Some (WrapSome, p, None)
  | TResult p e => Some (WrapOk, p, Some e)
  | _ => None
  end.

Definition carrier_payload (t : Ty) : option Ty :=
  match carrier_parts t with Some (_, p, _) => Some p | None => None end.

Definition slot_payload (t : Ty) : Ty :=
  match carrier_payload t with Some p => p | None => t end.

(** [Ty::width], [Ty::scalar], [Ty::is_numeric], [Ty::is_unknown], [Ty::fn_parts]. *)
Definition width (t : Ty) : option CType :=
  match t with TWidth c => Some c | _ => None end.

Definition scalar (t : Ty) : Ty :=
  match t with
  | TWidth CFloat32 => TFloat
  | TWidth _ => TInt
  | other => other
  end.

Definition is_numeric (t : Ty) : bool :=
  match scalar t with TInt | TFloat => true | _ => false end.

Definition is_unknown (t : Ty) : bool := match t with TUnknown => true | _ => false end.

Definition fn_parts (t : Ty) : option (list Ty * Ty * Variadic) :=
  match t with TFunc params ret _ v => Some (params, ret, v) | _ => None end.

(** The local [open] of [Ty::has_hole], and [Ty::has_hole]. *)
Fixpoint open (t : Ty) : bool :=
  match t with
  | TUnknown => true
  | TList x | TOption x | TSet x | TChannel x | TShared x | TRwShared x | TAtomic x => open x
  | TMap k v | TResult k v => open k || open v
  | TStruct _ a | TEnum _ a | TProtocol _ a => existsb open a
  | TTuple ts => existsb open ts
  | TFunc params ret _ _ => existsb open params || (negb (is_unknown ret) && open ret)
  | _ => false
  end.

Definition has_hole (t : Ty) : bool := negb (is_unknown t) && open t.

(** [ty_all_holes], [ty_fully_concrete], [ty_concrete_but] of [ty_util.rs]. *)
Fixpoint ty_all_holes (ok : Ty -> bool) (ty : Ty) : bool :=
  match ty with
  | TUnknown | TParam _ | TVar _ => ok ty
  | TList x | TOption x | TSet x => ty_all_holes ok x
  | TMap k v | TResult k v => ty_all_holes ok k && ty_all_holes ok v
  | TStruct _ a | TEnum _ a | TProtocol _ a => forallb (ty_all_holes ok) a
  | TTuple ts => forallb (ty_all_holes ok) ts
  | TFunc params ret _ _ => forallb (ty_all_holes ok) params && ty_all_holes ok ret
  | _ => true
  end.

Definition ty_fully_concrete (ty : Ty) : bool := ty_all_holes (fun _ => false) ty.

Definition ty_concrete_but (rigid : string -> bool) (ty : Ty) : bool :=
  ty_all_holes (fun h => match h with TParam n => rigid n | _ => false end) ty.

(** [subst]: the type parameters of [map] replaced; labels ride along. *)
Fixpoint subst (map : gmap string Ty) (ty : Ty) : Ty :=
  match ty with
  | TParam n => match map !! n with Some t => t | None => ty end
  | TList t => TList (subst map t)
  | TOption t => TOption (subst map t)
  | TResult t e => TResult (subst map t) (subst map e)
  | TMap k v => TMap (subst map k) (subst map v)
  | TSet t => TSet (subst map t)
  | TTuple ts => TTuple (List.map (subst map) ts)
  | TFunc params ret labels v => TFunc (List.map (subst map) params) (subst map ret) labels v
  | TChannel t => TChannel (subst map t)
  | TShared t => TShared (subst map t)
  | TAtomic t => TAtomic (subst map t)
  | TRwShared t => TRwShared (subst map t)
  | TStruct n a => TStruct n (List.map (subst map) a)
  | TEnum n a => TEnum n (List.map (subst map) a)
  | TProtocol n a => TProtocol n (List.map (subst map) a)
  | other => other
  end.

(** [ty_collect_params] with [wanted: None]: every parameter name, in first-seen order. *)
Fixpoint ty_collect_params (ty : Ty) (out : list string) : list string :=
  match ty with
  | TParam n => if existsb (String.eqb n) out then out else out ++ [n]
  | TList e | TSet e | TOption e | TChannel e | TShared e | TAtomic e | TRwShared e =>
      ty_collect_params e out
  | TMap a b | TResult a b => ty_collect_params b (ty_collect_params a out)
  | TTuple parts | TStruct _ parts | TEnum _ parts | TProtocol _ parts =>
      fold_left (fun acc p => ty_collect_params p acc) parts out
  | TFunc params ret _ _ =>
      ty_collect_params ret (fold_left (fun acc p => ty_collect_params p acc) params out)
  | _ => out
  end.

(** ** Compatibility *)

(** Rust's [a.iter().zip(b).all(f)]: the longer list is cut. *)
Definition zip_all {A B} (f : A -> B -> bool) (a : list A) (b : list B) : bool :=
  forallb (fun xy => f xy.1 xy.2) (combine a b).

(** [FnLabels::min_or]. *)
Definition min_or {T} (l : FnLabels T) (params : nat) : nat :=
  let all := params + length (kw l) in
  Nat.min (match label_min l with Some n => n | None => all end) all.

Section functional.
  Variable compatible : Ty -> Ty -> bool.

(** [param_invariant]. *)
Definition param_invariant_with (a b : Ty) : bool := compatible a b && compatible b a.

(** [FnLabels::kw_fits]. *)
Definition kw_fits_with (self actual : FnLabels Ty) : bool :=
  (length (kw self) <=? length (kw actual)) && zip_all param_invariant_with (kw self) (kw actual).

(** The body of [compatible]. *)
Definition compatible_body (expected actual : Ty) : bool :=
  match expected, actual with
  | TUnknown, _ | _, TUnknown => true
  | TVar a, TVar b => a =? b
  | TWidth _, _ => compatible (scalar expected) actual
  | _, TWidth _ => compatible expected (scalar actual)
  | TInt, TInt | TFloat, TFloat | TBool, TBool | TStr, TStr | TBytes, TBytes
  | TByteArray, TByteArray | TNil, TNil => true
  | TList a, TList b | TOption a, TOption b | TChannel a, TChannel b | TShared a, TShared b
  | TRwShared a, TRwShared b | TAtomic a, TAtomic b => compatible a b
  | TResult at_ ae, TResult bt be => compatible at_ bt && compatible ae be
  | TProtocol a aa, TProtocol b ba =>
      String.eqb a b && (length aa =? length ba) && zip_all compatible aa ba
  | TProtocol p [], TStr => String.eqb p "Error"
  | TMap ka va, TMap kb vb => compatible ka kb && compatible va vb
  | TSet a, TSet b => compatible a b
  | TStruct a aa, TStruct b ba | TEnum a aa, TEnum b ba =>
      String.eqb a b && (length aa =? length ba) && zip_all compatible aa ba
  | TAtomicInt, TAtomicInt | TExecutor, TExecutor | TSocket, TSocket | TListener, TListener
  | TWriter, TWriter | TReader, TReader | TPtr, TPtr => true
  | TModule a, TModule b | TParam a, TParam b => String.eqb a b
  | TFunc p1 r1 l1 v1, TFunc p2 r2 l2 v2 =>
      (length p1 =? length p2) && bool_decide (v1 = v2) && kw_fits_with l1 l2 &&
      (min_or l2 (length p2) <=? min_or l1 (length p1)) &&
      zip_all param_invariant_with p1 p2 && compatible r1 r2
  | TTuple a, TTuple b => (length a =? length b) && zip_all compatible a b
  | _, _ => false
  end.
End functional.

(** The number of constructors of a type, labels included; a width counts for its scalar too. *)
Fixpoint ty_size (t : Ty) : nat :=
  match t with
  | TList x | TSet x | TOption x | TChannel x | TShared x | TAtomic x | TRwShared x => S (ty_size x)
  | TMap a b | TResult a b => S (ty_size a + ty_size b)
  | TTuple ts | TStruct _ ts | TEnum _ ts | TProtocol _ ts => S (list_sum (List.map ty_size ts))
  | TFunc ps r l _ =>
      S (list_sum (List.map ty_size ps) + ty_size r + list_sum (List.map ty_size (kw l)))
  | TWidth _ => 2
  | _ => 1
  end.

(** [compatible], for [fuel] nested calls. *)
Fixpoint compatible_fuel (fuel : nat) (expected actual : Ty) : bool :=
  match fuel with
  | O => false
  | S n => compatible_body (compatible_fuel n) expected actual
  end.

(** [compatible]. *)
Definition compatible (expected actual : Ty) : bool :=
  compatible_fuel (ty_size expected + ty_size actual) expected actual.

(** [param_invariant], [FnLabels::kw_fits]. *)
Definition param_invariant (a b : Ty) : bool := param_invariant_with compatible a b.
Definition kw_fits (self actual : FnLabels Ty) : bool := kw_fits_with compatible self actual.

(** ** The join of open types *)

(** [merge_unknown], [ty_util.rs]. *)
Fixpoint merge_unknown (a shape : Ty) {struct a} : Ty :=
  if is_unknown shape then a
  else if is_unknown a then shape
  else match a, shape with
  | TList ae, TList se => TList (merge_unknown ae se)
  | TSet ae, TSet se => TSet (merge_unknown ae se)
  | TOption ae, TOption se => TOption (merge_unknown ae se)
  | TChannel ae, TChannel se => TChannel (merge_unknown ae se)
  | TShared ae, TShared se => TShared (merge_unknown ae se)
  | TRwShared ae, TRwShared se => TRwShared (merge_unknown ae se)
  | TAtomic ae, TAtomic se => TAtomic (merge_unknown ae se)
  | TMap ak av, TMap sk sv => TMap (merge_unknown ak sk) (merge_unknown av sv)
  | TResult at_ ae, TResult st se => TResult (merge_unknown at_ st) (merge_unknown ae se)
  | TTuple ats, TTuple sts =>
      if length ats =? length sts then TTuple (zip_with merge_unknown ats sts) else a
  | TStruct an aa, TStruct sn sa =>
      if String.eqb an sn && (length aa =? length sa) then TStruct an (zip_with merge_unknown aa sa)
      else a
  | TEnum an aa, TEnum sn sa =>
      if String.eqb an sn && (length aa =? length sa) then TEnum an (zip_with merge_unknown aa sa)
      else a
  | TOption ae, s =>
      if is_unknown ae && negb (match s with TOption _ | TResult _ _ | TNil => true | _ => false end)
         && ty_fully_concrete s
      then TOption s else a
  | TFunc ap ar labels av, TFunc sp sr _ sv =>
      if (length ap =? length sp) && bool_decide (av = sv)
      then TFunc (zip_with merge_unknown ap sp) (merge_unknown ar sr) labels av else a
  | _, _ => a
  end.

(** ** Compatibility: the recursion equation *)

Lemma sum_elem x (l : list Ty) : x ∈ l -> ty_size x <= list_sum (List.map ty_size l).
Proof.
  induction l as [|y l IH]; [by intros ?%not_elem_of_nil|].
  intros [->|H]%elem_of_cons; simpl; [|specialize (IH H)]; lia.
Qed.

Lemma ty_size_pos t : 1 <= ty_size t.
Proof. destruct t; simpl; lia. Qed.

Lemma zip_all_ext {A B} (f g : A -> B -> bool) l k :
  (forall x y, x ∈ l -> y ∈ k -> f x y = g x y) -> zip_all f l k = zip_all g l k.
Proof.
  revert k. induction l as [|x l IH]; intros [|y k] H; try done.
  unfold zip_all in *; simpl. rewrite H by set_solver. f_equal.
  apply IH. intros. apply H; set_solver.
Qed.

Lemma andb_cong a a' b b' : a = a' -> b = b' -> a && b = a' && b'.
Proof. congruence. Qed.

Ltac ty_sizes :=
  repeat match goal with
  | H : _ ∈ _ |- _ => apply sum_elem in H
  end; simpl in *; lia.

(** The functional reads its argument at smaller pairs only. *)
Lemma compatible_body_ext f g e a :
  (forall x y, ty_size x + ty_size y < ty_size e + ty_size a -> f x y = g x y) ->
  compatible_body f e a = compatible_body g e a.
Proof.
  intros H.
  assert (Hp : forall x y, ty_size x + ty_size y < ty_size e + ty_size a ->
    param_invariant_with f x y = param_invariant_with g x y).
  { intros x y Hs. unfold param_invariant_with. rewrite !H by lia. done. }
  assert (Hk : forall l k, list_sum (List.map ty_size (kw l)) + list_sum (List.map ty_size (kw k)) <
      ty_size e + ty_size a -> kw_fits_with f l k = kw_fits_with g l k).
  { intros l k Hs. unfold kw_fits_with. f_equal. apply zip_all_ext. intros. apply Hp. ty_sizes. }
  destruct e, a; simpl; try done; try (destruct targs; try done);
    repeat match goal with
    | |- _ && _ = _ && _ => apply andb_cong
    | |- zip_all _ _ _ = _ => apply zip_all_ext; intros
    | |- param_invariant_with _ _ _ = _ => apply Hp
    | |- kw_fits_with _ _ _ = _ => apply Hk
    | |- f _ _ = g _ _ => apply H
    end; try done; try destruct w; try destruct w0; ty_sizes.
Qed.

Lemma compatible_fuel_enough n e a :
  ty_size e + ty_size a <= n -> compatible_fuel n e a = compatible e a.
Proof.
  unfold compatible. revert e a.
  induction n as [n IH] using lt_wf_ind. intros e a Hn.
  pose proof (ty_size_pos e). destruct n as [|n]; [lia|].
  destruct (ty_size e + ty_size a) as [|m] eqn:Em; [lia|]. simpl.
  apply compatible_body_ext. intros x y Hxy.
  rewrite (IH n), (IH m) by lia. done.
Qed.

(** The recursion equation of the source. *)
Lemma compatible_unfold e a : compatible e a = compatible_body compatible e a.
Proof.
  unfold compatible at 1. pose proof (ty_size_pos e).
  destruct (ty_size e + ty_size a) as [|n] eqn:E; [lia|]. simpl.
  apply compatible_body_ext. intros x y Hxy. apply compatible_fuel_enough. lia.
Qed.

(** ** Compatibility through heads and arguments

    Every type but [Unknown], a width and a function is a head (its constructor and its name)
    applied to its arguments. *)
Definition ty_head (t : Ty) : option (nat * string * nat) :=
  match t with
  | TInt => Some (0, "", 0) | TFloat => Some (1, "", 0) | TBool => Some (2, "", 0)
  | TStr => Some (3, "", 0) | TBytes => Some (4, "", 0) | TByteArray => Some (5, "", 0)
  | TNil => Some (6, "", 0) | TList _ => Some (7, "", 0) | TMap _ _ => Some (8, "", 0)
  | TSet _ => Some (9, "", 0) | TFunc _ _ _ _ => None | TTuple _ => Some (10, "", 0)
  | TStruct n _ => Some (11, n, 0) | TEnum n _ => Some (12, n, 0) | TParam n => Some (13, n, 0)
  | TResult _ _ => Some (14, "", 0) | TOption _ => Some (15, "", 0)
  | TChannel _ => Some (16, "", 0) | TShared _ => Some (17, "", 0) | TAtomic _ => Some (18, "", 0)
  | TAtomicInt => Some (19, "", 0) | TRwShared _ => Some (20, "", 0)
  | TExecutor => Some (21, "", 0) | TSocket => Some (22, "", 0) | TListener => Some (23, "", 0)
  | TWriter => Some (24, "", 0) | TReader => Some (25, "", 0) | TPtr => Some (26, "", 0)
  | TWidth _ => None | TProtocol n _ => Some (27, n, 0) | TModule n => Some (28, n, 0)
  | TUnknown => None | TVar n => Some (29, "", n)
  end%string.

Definition kids (t : Ty) : list Ty :=
  match t with
  | TList x | TSet x | TOption x | TChannel x | TShared x | TAtomic x | TRwShared x => [x]
  | TMap a b | TResult a b => [a; b]
  | TTuple ts | TStruct _ ts | TEnum _ ts | TProtocol _ ts => ts
  | _ => []
  end.

(** The intrinsic grant: a [str] is an [Error]. *)
Definition error_str (e a : Ty) : bool :=
  match e, a with TProtocol p [], TStr => String.eqb p "Error" | _, _ => false end.

Lemma zip_all_nil {A B} (f : A -> B -> bool) : zip_all f [] [] = true.
Proof. done. Qed.
Lemma zip_all_cons {A B} (f : A -> B -> bool) x l y k :
  zip_all f (x :: l) (y :: k) = f x y && zip_all f l k.
Proof. done. Qed.

Lemma compatible_plain e a h k :
  ty_head e = Some h -> ty_head a = Some k ->
  compatible e a =
    bool_decide (h = k) && (length (kids e) =? length (kids a)) &&
    zip_all compatible (kids e) (kids a) || error_str e a.
Proof.
  intros He Ha. rewrite compatible_unfold.
  destruct e; try discriminate He; injection He as <-;
    destruct a; try discriminate Ha; injection Ha as <-;
    cbn [compatible_body kids error_str length zip_all];
    repeat match goal with |- context [match ?l with [] => _ | _ :: _ => _ end] =>
      is_var l; destruct l end;
    rewrite ?orb_false_r, ?zip_all_cons, ?zip_all_nil, ?andb_true_r; try done;
    try (rewrite bool_decide_eq_false_2 by congruence; done);
    try (rewrite bool_decide_eq_true_2 by congruence; done).
  all: repeat match goal with
    | |- context [(?x =? ?y)%string] => is_var x; destruct (String.eqb_spec x y); subst
    | |- (?x =? ?y) = _ => destruct (Nat.eqb_spec x y); subst
    end.
  all: first [rewrite bool_decide_eq_true_2 by done | rewrite bool_decide_eq_false_2 by congruence]; done.
Qed.

(** A type with its width erased is [Unknown], a function, or a head applied to arguments. *)
Inductive view : Ty -> Prop :=
| VUnknown : view TUnknown
| VFunc ps r l v : view (TFunc ps r l v)
| VPlain t h (Hh : ty_head t = Some h) : view t.

Lemma scalar_view t : view (scalar t).
Proof.
  destruct t; try (eapply VPlain; reflexivity); try apply VFunc; try apply VUnknown.
  destruct w; eapply VPlain; reflexivity.
Qed.

Lemma compatible_unknown_l a : compatible TUnknown a = true.
Proof. by rewrite compatible_unfold; destruct a. Qed.
Lemma compatible_unknown_r e : compatible e TUnknown = true.
Proof. rewrite compatible_unfold; destruct e; simpl; repeat case_match; done. Qed.

Lemma compatible_width_l w a : compatible (TWidth w) a = compatible (scalar (TWidth w)) a.
Proof.
  rewrite compatible_unfold. destruct a; try reflexivity. by rewrite compatible_unknown_r.
Qed.

Lemma compatible_width_r e w : compatible e (TWidth w) = compatible e (scalar (TWidth w)).
Proof.
  destruct e;
    rewrite compatible_unfold; simpl; repeat case_match; done.
Qed.

(** Compatibility ignores widths. *)
Lemma compatible_scalar e a : compatible e a = compatible (scalar e) (scalar a).
Proof.
  assert (compatible e a = compatible (scalar e) a) as ->.
  { destruct e; try reflexivity. apply compatible_width_l. }
  destruct a; try reflexivity. apply compatible_width_r.
Qed.

Lemma compatible_func_plain ps r l v t h :
  ty_head t = Some h ->
  compatible (TFunc ps r l v) t = false /\ compatible t (TFunc ps r l v) = false.
Proof.
  intros Hh. rewrite !compatible_unfold.
  destruct t; try discriminate Hh; simpl; split; repeat case_match; done.
Qed.

Lemma zip_all_spec {A B} (f : A -> B -> bool) l k :
  zip_all f l k = true <-> forall i x y, l !! i = Some x -> k !! i = Some y -> f x y = true.
Proof.
  revert k. induction l as [|a l IH]; intros [|b k].
  1-3: split; [intros _ [] x y; done | done].
  rewrite zip_all_cons, andb_true_iff, IH. split.
  - intros [Hab H] [|i] x y; simpl; [intros [= <-] [= <-]; done|apply H].
  - intros H. split; [by apply (H 0)|]. intros i. apply (H (S i)).
Qed.

Lemma param_invariant_spec a b :
  param_invariant_with compatible a b = true <-> compatible a b = true /\ compatible b a = true.
Proof. apply andb_true_iff. Qed.

Lemma compatible_plain_spec e a h k :
  ty_head e = Some h -> ty_head a = Some k ->
  (compatible e a = true <->
    (h = k /\ length (kids e) = length (kids a) /\
     forall i x y, kids e !! i = Some x -> kids a !! i = Some y -> compatible x y = true) \/
    error_str e a = true).
Proof.
  intros He Ha. rewrite (compatible_plain _ _ _ _ He Ha).
  rewrite orb_true_iff, !andb_true_iff, bool_decide_eq_true, Nat.eqb_eq, zip_all_spec. tauto.
Qed.

Lemma compatible_func_spec p1 r1 l1 v1 p2 r2 l2 v2 :
  compatible (TFunc p1 r1 l1 v1) (TFunc p2 r2 l2 v2) = true <->
  length p1 = length p2 /\ v1 = v2 /\ length (kw l1) <= length (kw l2) /\
  (forall i x y, kw l1 !! i = Some x -> kw l2 !! i = Some y ->
     compatible x y = true /\ compatible y x = true) /\
  min_or l2 (length p2) <= min_or l1 (length p1) /\
  (forall i x y, p1 !! i = Some x -> p2 !! i = Some y ->
     compatible x y = true /\ compatible y x = true) /\
  compatible r1 r2 = true.
Proof.
  rewrite compatible_unfold. cbn [compatible_body]. unfold kw_fits_with.
  rewrite !andb_true_iff, bool_decide_eq_true, Nat.eqb_eq, !Nat.leb_le, !zip_all_spec.
  setoid_rewrite param_invariant_spec. tauto.
Qed.

(** [p] at every node of a type, the keyword-only parameters of its functions included. *)
Fixpoint everywhere (p : Ty -> bool) (t : Ty) : bool :=
  p t &&
  match t with
  | TList x | TSet x | TOption x | TChannel x | TShared x | TAtomic x | TRwShared x => everywhere p x
  | TMap a b | TResult a b => everywhere p a && everywhere p b
  | TTuple ts | TStruct _ ts | TEnum _ ts | TProtocol _ ts => forallb (everywhere p) ts
  | TFunc ps r l _ => forallb (everywhere p) ps && everywhere p r && forallb (everywhere p) (kw l)
  | _ => true
  end.

Lemma everywhere_here p t : everywhere p t = true -> p t = true.
Proof. destruct t; simpl; rewrite ?andb_true_iff; tauto. Qed.

Lemma forallb_elem {A} (f : A -> bool) l x : forallb f l = true -> x ∈ l -> f x = true.
Proof. rewrite forallb_forall. intros H ?%list_elem_of_In. auto. Qed.

Lemma everywhere_kids p t x : everywhere p t = true -> x ∈ kids t -> everywhere p x = true.
Proof.
  destruct t; simpl; rewrite ?andb_true_iff; intros H Hx; try (by apply not_elem_of_nil in Hx);
    try (by eapply forallb_elem; [apply H|]); set_unfold in Hx; intuition congruence.
Qed.

Lemma everywhere_func p ps r l v :
  everywhere p (TFunc ps r l v) = true ->
  (forall x, x ∈ ps -> everywhere p x = true) /\ everywhere p r = true /\
  (forall x, x ∈ kw l -> everywhere p x = true).
Proof.
  simpl. rewrite !andb_true_iff. intros (_ & (Hp & Hr) & Hk).
  repeat split; try done; intros x Hx;
    [by apply (forallb_elem (everywhere p) ps) | by apply (forallb_elem (everywhere p) (kw l))].
Qed.

Lemma everywhere_mono (p q : Ty -> bool) t :
  (forall t, p t = true -> q t = true) -> everywhere p t = true -> everywhere q t = true.
Proof.
  intros Hpq. remember (ty_size t) as n eqn:En. revert t En. induction n as [n IH] using lt_wf_ind. intros t -> Ht.
  assert (Hx : forall x, ty_size x < ty_size t -> everywhere p x = true -> everywhere q x = true) by (intros x Hlt; by apply (IH _ Hlt)).
  assert (Hl : forall l, (forall x, x ∈ l -> ty_size x < ty_size t) -> forallb (everywhere p) l = true -> forallb (everywhere q) l = true).
  { intros l Hs Hp. apply forallb_forall. intros x Hin%list_elem_of_In. apply Hx; [by apply Hs|by eapply forallb_elem]. }
  clear IH. pose proof (Hpq t (everywhere_here p t Ht)) as Hq. cbn [everywhere] in Ht |- *.
  destruct t; cbn [everywhere] in Ht |- *; rewrite ?andb_true_iff in *; repeat split; try done; try tauto;
    try (apply Hx; [simpl; lia|tauto]); apply Hl; try tauto; intros; simpl; ty_sizes.
Qed.

Lemma everywhere_scalar p t :
  p TInt = true -> p TFloat = true -> everywhere p t = true -> everywhere p (scalar t) = true.
Proof.
  intros Hi Hf H. destruct t; try exact H. destruct w; simpl; rewrite ?Hi, ?Hf; done.
Qed.

Lemma kids_size t x : x ∈ kids t -> ty_size x < ty_size t.
Proof.
  destruct t; simpl; intros Hx; try (by apply not_elem_of_nil in Hx);
    try (apply sum_elem in Hx; lia); set_unfold in Hx; intuition (subst; lia).
Qed.

Lemma scalar_size t : ty_size (scalar t) <= ty_size t.
Proof. destruct t; simpl; try lia. destruct w; simpl; lia. Qed.

(** ** Compatibility is a preorder, and an equivalence where it promises invariance *)

Lemma min_or_le {T} (l : FnLabels T) n : min_or l n <= n + length (kw l).
Proof. unfold min_or. lia. Qed.

Lemma compatible_refl t : compatible t t = true.
Proof.
  induction t as [t IH] using (induction_ltof1 _ ty_size). unfold ltof in IH.
  rewrite compatible_scalar. pose proof (scalar_size t) as Hs.
  destruct (scalar_view t) as [|ps r l v|t' h Hh].
  - apply compatible_unknown_l.
  - apply compatible_func_spec. simpl in Hs.
    split_and!; try done; [..|apply IH; lia];
      intros i x y H1 H2; simplify_eq; apply list_elem_of_lookup_2, sum_elem in H1; split; apply IH; lia.
  - apply (compatible_plain_spec _ _ _ _ Hh Hh). left. split_and!; try done.
    intros i x y H1 H2. simplify_eq. apply list_elem_of_lookup_2, kids_size in H1. apply IH. lia.
Qed.

(** No [Unknown] anywhere. *)
Definition hole_free (t : Ty) : bool := everywhere (fun t => negb (is_unknown t)) t.

Lemma hole_free_scalar t : hole_free t = true -> hole_free (scalar t) = true.
Proof. by apply everywhere_scalar. Qed.

Lemma error_str_spec e a : error_str e a = true -> e = error_proto /\ a = TStr.
Proof.
  destruct e as [| | | | | | | | | | | | | | | | | | | | | | | | | | | | |p [|]| | |]; simpl; try done.
  destruct a; try done. intros ->%String.eqb_eq. done.
Qed.

(** The lookups of three lists of related lengths meet in the middle one. *)
Lemma lookup_mid {A} (l m : list A) i x : l !! i = Some x -> length l <= length m -> is_Some (m !! i).
Proof. intros H%lookup_lt_Some ?. apply lookup_lt_is_Some. lia. Qed.

(** Two lists of types agree, both ways, at every common position. *)
Definition pairwise (l k : list Ty) : Prop :=
  forall i x y, l !! i = Some x -> k !! i = Some y -> compatible x y = true /\ compatible y x = true.

Lemma pairwise_trans l m k :
  (forall y, y ∈ m -> forall x z,
     compatible x y = true -> compatible y z = true -> compatible x z = true) ->
  length l <= length m -> pairwise l m -> pairwise m k -> pairwise l k.
Proof.
  intros HT Hlen H1 H2 i x z Hx Hz. destruct (lookup_mid _ _ _ _ Hx Hlen) as [y Hy].
  pose proof (list_elem_of_lookup_2 _ _ _ Hy) as Ey.
  destruct (H1 _ _ _ Hx Hy), (H2 _ _ _ Hy Hz). split; by apply (HT y).
Qed.

Lemma compatible_trans a b c :
  hole_free b = true -> compatible a b = true -> compatible b c = true -> compatible a c = true.
Proof.
  remember (ty_size b) as n eqn:En. revert a b c En.
  induction n as [n IH] using lt_wf_ind. intros a b c -> Hb Hab Hbc.
  rewrite compatible_scalar in Hab, Hbc |- *.
  apply hole_free_scalar in Hb. pose proof (scalar_size b) as Hs.
  assert (IH' : forall y, ty_size y < ty_size (scalar b) -> hole_free y = true -> forall x z,
    compatible x y = true -> compatible y z = true -> compatible x z = true)
    by (intros; eapply (IH (ty_size y)); eauto; lia).
  clear IH Hs. destruct (scalar_view a) as [|p1 r1 l1 v1|a' h1 H1].
  1: apply compatible_unknown_l.
  all: destruct (scalar_view c) as [|p3 r3 l3 v3|c' h3 H3];
    try apply compatible_unknown_r.
  all: destruct (scalar_view b) as [|p2 r2 l2 v2|b' h2 H2]; try discriminate Hb.
  all: try (destruct (compatible_func_plain p1 r1 l1 v1 _ _ H2); congruence).
  all: try (destruct (compatible_func_plain p2 r2 l2 v2 _ _ H1); congruence).
  all: try (destruct (compatible_func_plain p2 r2 l2 v2 _ _ H3); congruence).
  all: try (destruct (compatible_func_plain p3 r3 l3 v3 _ _ H2); congruence).
  - destruct (everywhere_func _ _ _ _ _ Hb) as (Hp & Hr & Hk).
    apply compatible_func_spec in Hab as (L1 & -> & K1 & KW1 & M1 & P1 & R1).
    apply compatible_func_spec in Hbc as (L2 & -> & K2 & KW2 & M2 & P2 & R2).
    simpl in IH'. apply compatible_func_spec.
    split_and!; try lia; try congruence.
    + eapply (pairwise_trans _ (kw l2)); eauto. intros y Hy.
      apply IH'; [apply sum_elem in Hy; lia | by apply Hk].
    + eapply (pairwise_trans _ p2); eauto; [|lia]. intros y Hy.
      apply IH'; [apply sum_elem in Hy; lia | by apply Hp].
    + apply (IH' r2); try done. lia.
  - apply (compatible_plain_spec _ _ _ _ H1 H3).
    apply (compatible_plain_spec _ _ _ _ H1 H2) in Hab as [(-> & L1 & Hab)|[-> ->]%error_str_spec].
    + apply (compatible_plain_spec _ _ _ _ H2 H3) in Hbc as [(-> & L2 & Hbc)|[E ->]%error_str_spec].
      * left. split_and!; [done|congruence|]. intros i x z Hx Hz.
        destruct (lookup_mid _ (kids b') _ _ Hx ltac:(lia)) as [y Hy].
        pose proof (list_elem_of_lookup_2 _ _ _ Hy) as Ey.
        apply (IH' y); [by apply kids_size|by eapply everywhere_kids|by eapply Hab|by eapply Hbc].
      * right. subst b'. injection H2 as <-.
        assert (exists ts, a' = TProtocol "Error" ts) as [[|] ->]
          by (destruct a'; simplify_eq/=; eauto); done.
    + apply (compatible_plain_spec _ _ _ _ H2 H3) in Hbc as [(Eh & _)|[E ->]%error_str_spec]; [|done].
      injection H2 as <-. right. destruct c'; simplify_eq/=; done.
Qed.

(** Where compatibility promises invariance: no [Error] slot, which also takes a [str], and no
    function whose call may omit arguments. *)
Definition strict_node (t : Ty) : bool :=
  match t with
  | TProtocol p [] => negb (String.eqb p "Error")
  | TFunc ps _ l _ => length ps + length (kw l) <=? min_or l (length ps)
  | _ => true
  end.
Definition strict (t : Ty) : bool := everywhere strict_node t.

Lemma compatible_sym a b :
  strict a = true -> strict b = true -> compatible a b = true -> compatible b a = true.
Proof.
  remember (ty_size a) as n eqn:En. revert a b En.
  induction n as [n IH] using lt_wf_ind. intros a b -> Ha Hb Hab.
  rewrite compatible_scalar in Hab |- *. pose proof (scalar_size a) as Hs.
  apply (everywhere_scalar strict_node) in Ha, Hb; try done.
  destruct (scalar_view a) as [|p1 r1 l1 v1|a' h1 H1]; [apply compatible_unknown_r|..];
    destruct (scalar_view b) as [|p2 r2 l2 v2|b' h2 H2]; try apply compatible_unknown_l;
    try (destruct (compatible_func_plain p1 r1 l1 v1 _ _ H2); congruence);
    try (destruct (compatible_func_plain p2 r2 l2 v2 _ _ H1); congruence).
  - apply compatible_func_spec in Hab as (L & -> & K & KW & M & P & R). apply compatible_func_spec.
    destruct (everywhere_func _ _ _ _ _ Ha) as (_ & Hr1 & _).
    destruct (everywhere_func _ _ _ _ _ Hb) as (_ & Hr2 & _).
    apply everywhere_here in Ha, Hb. simpl in Ha, Hb. rewrite Nat.leb_le in Ha, Hb.
    pose proof (min_or_le l1 (length p1)). pose proof (min_or_le l2 (length p2)).
    split_and!; try done; try lia.
    + intros i x y Hx Hy. destruct (KW _ _ _ Hy Hx). done.
    + intros i x y Hx Hy. destruct (P _ _ _ Hy Hx). done.
    + eapply IH; [|reflexivity|..]; try done. simpl in Hs. lia.
  - apply (compatible_plain_spec _ _ _ _ H2 H1).
    apply (compatible_plain_spec _ _ _ _ H1 H2) in Hab as [(-> & L & K)|[-> ->]%error_str_spec].
    + left. split_and!; try done. intros i x y Hx Hy.
      pose proof (list_elem_of_lookup_2 _ _ _ Hy) as Ey.
      pose proof (list_elem_of_lookup_2 _ _ _ Hx) as Ex.
      eapply IH; [|reflexivity|..]; eauto using everywhere_kids.
      apply kids_size in Ey. lia.
    + apply everywhere_here in Ha. discriminate Ha.
Qed.

(** [enum_ty] and [as_enum]: the carriers are enums spelled by types of their own. *)
Lemma as_enum_enum_ty key args : as_enum (enum_ty key args) = Some (key, args).
Proof.
  unfold enum_ty. destruct args as [|x [|y [|]]]; try done;
    destruct (String.eqb_spec key "Option"), (String.eqb_spec key "Result"); subst; done.
Qed.

(** The walk of [ty_all_holes] stops at the boxes: a hole inside a channel is not seen. *)
Lemma all_holes_stops_at_boxes ok t :
  ty_all_holes ok (TChannel t) = true /\ ty_all_holes ok (TShared t) = true /\
  ty_all_holes ok (TAtomic t) = true /\ ty_all_holes ok (TRwShared t) = true.
Proof. done. Qed.

(** Compatibility is the type system's equality.  It is reflexive; it is transitive through any
    type without holes ([Unknown] is compatible with everything, so it cannot be a link); it is
    symmetric on types with no [Error] slot and no function whose call may omit arguments; and a C
    width counts as its scalar. *)
Lemma compatible_preorder a b c :
  compatible a a = true /\
  (hole_free b = true -> compatible a b = true -> compatible b c = true -> compatible a c = true) /\
  (strict a = true -> strict b = true -> compatible a b = compatible b a) /\
  compatible a b = compatible (scalar a) (scalar b).
Proof.
  split; [apply compatible_refl|]. split; [apply compatible_trans|]. split; [|apply compatible_scalar].
  intros Ha Hb. destruct (compatible a b) eqn:E1, (compatible b a) eqn:E2; try done.
  - by rewrite (compatible_sym a b) in E2.
  - by rewrite (compatible_sym b a) in E1.
Qed.

