(* ===== verification/TyVar.v ===== *)
(** * Type variables: [src/src/checker/tyvar.rs]

    The speculative store of type variables: creation, binding, marks and rollback, the substitution
    of bound variables ([zonk]), the unifier ([solve]) and the compare that rolls back what a failed
    try bound ([join_ty]).  A store is a record; the functions that recurse through bindings ([zonk],
    [solve]) take fuel, and [None] stands for a panic (an index out of range) or for fuel that ran
    out: [zonk_total] and [solve_total] show that neither happens on a store the operations built.
    Whether a type parameter is in scope ([Checker::rigid_param]) is the argument [rigid]; the
    signatures, parameters and spans that a pending read only carries are the types of
    [TyVarPayloads]. *)

From Stdlib Require Import Ascii String.
From stdpp Require Import strings gmap.
From S2P Require Import Prelude Ty.
Set Warnings "-register-all".
Local Open Scope list_scope.
Local Open Scope nat_scope.

(** ** Walks *)

(** Whether the walk of [map_ty] meets a node that satisfies [p]: how [has_var], [mentions_var] and
    [older_var] use it.  It does not enter a function's labels. *)
Fixpoint any_ty (p : Ty -> bool) (t : Ty) : bool :=
  p t ||
  match t with
  | TList x | TSet x | TOption x | TChannel x | TShared x | TAtomic x | TRwShared x => any_ty p x
  | TMap k v | TResult k v => any_ty p k || any_ty p v
  | TTuple ts | TStruct _ ts | TEnum _ ts | TProtocol _ ts => existsb (any_ty p) ts
  | TFunc params ret _ _ => existsb (any_ty p) params || any_ty p ret
  | _ => false
  end.

Definition has_var (t : Ty) : bool := any_ty (fun x => match x with TVar _ => true | _ => false end) t.
Definition mentions_var (t : Ty) (id : nat) : bool :=
  any_ty (fun x => match x with TVar v => v =? id | _ => false end) t.
Definition older_var (t : Ty) (n : nat) : bool :=
  any_ty (fun x => match x with TVar v => v <? n | _ => false end) t.

(** [iter().map(f).collect()] for an [f] that may fail. *)
Definition map_all {A B} (f : A -> option B) : list A -> option (list B) :=
  fix go l := match l with [] => Some [] | x :: l => y ← f x; k ← go l; Some (y :: k) end.

(** [map_ty]: the closure answers [Some] to replace a node; its outer [option] is a failure. *)
Fixpoint map_ty (f : Ty -> option (option Ty)) (t : Ty) : option Ty :=
  r ← f t;
  match r with
  | Some r => Some r
  | None =>
    match t with
    | TList x => TList <$> map_ty f x
    | TSet x => TSet <$> map_ty f x
    | TOption x => TOption <$> map_ty f x
    | TChannel x => TChannel <$> map_ty f x
    | TShared x => TShared <$> map_ty f x
    | TAtomic x => TAtomic <$> map_ty f x
    | TRwShared x => TRwShared <$> map_ty f x
    | TMap k v => k' ← map_ty f k; v' ← map_ty f v; Some (TMap k' v')
    | TResult k v => k' ← map_ty f k; v' ← map_ty f v; Some (TResult k' v')
    | TTuple ts => TTuple <$> map_all (map_ty f) ts
    | TStruct n a => TStruct n <$> map_all (map_ty f) a
    | TEnum n a => TEnum n <$> map_all (map_ty f) a
    | TProtocol n a => TProtocol n <$> map_all (map_ty f) a
    | TFunc params ret labels variadic =>
        params' ← map_all (map_ty f) params; ret' ← map_ty f ret;
        Some (TFunc params' ret' labels variadic)
    | other => Some other
    end
  end.

(** [open_err], [sealed_open_err]. *)
Definition open_err (t : Ty) : bool :=
  match t with
  | TResult ok _ => is_unknown ok || match ok with TVar _ => true | _ => false end
  | _ => false
  end.
Definition sealed_open_err (t : Ty) : option Ty :=
  match t with
  | TResult _ e => if open_err t then Some (TResult TUnknown e) else None
  | _ => None
  end.

(** ** The store *)

(** Data a pending read carries for its verdict. *)
Class TyVarPayloads := {
  FnSig : Type;
  TyParam : Type;
  Span : Type;
}.

Section tyvar.
  Context `{TyVarPayloads}.
  Variable rigid : string -> bool.

(** [CarrierKind], [PendingCarrier], [Pending], [DeferredBound], [TyVars], [TyVarMark]. *)
Inductive CarrierKind := KPresent (t : Ty) | KError.

Record PendingCarrier := mkCarrier {
  c_node : nat; c_span : Span; c_var : nat; c_kind : CarrierKind;
}.
Record Pending := mkPending {
  p_node : nat; p_name : string; p_sig : FnSig; p_spelling : string; p_span : Span;
  p_vars : list (string * nat); p_decode : bool;
}.
Record DeferredBound := mkBound {
  b_params : list TyParam; b_owner : list TyParam; b_map : gmap string Ty; b_span : Span;
}.
Record TyVars := mkTyVars {
  slots : list (option Ty);
  log : list nat;
  pending : list Pending;
  bounds : list DeferredBound;
  reads : gmap nat nat;
  carriers : list PendingCarrier;
  carrier_reads : gmap nat nat;
}.
Record TyVarMark := mkMark {
  m_slots : nat; m_log : nat; m_pending : nat; m_bounds : nat; m_carriers : nat;
}.

Definition tyvars_default : TyVars := mkTyVars [] [] [] [] ∅ [] ∅.

Definition with_slots (s : TyVars) (sl : list (option Ty)) (lg : list nat) : TyVars :=
  mkTyVars sl lg (pending s) (bounds s) (reads s) (carriers s) (carrier_reads s).

(** [TyVars::fresh]. *)
Definition fresh (s : TyVars) : TyVars * nat :=
  (with_slots s (slots s ++ [None]) (log s), length (slots s)).

(** [TyVars::any]. *)
Definition any (s : TyVars) : bool := negb (length (slots s) =? 0).

(** [TyVars::bind]: the index panics out of range. *)
Definition bind (s : TyVars) (id : nat) (t : Ty) : option TyVars :=
  if id <? length (slots s)
  then Some (with_slots s (<[id := Some t]> (slots s)) (log s ++ [id]))
  else None.

(** [TyVars::binding]. *)
Definition binding (s : TyVars) (id : nat) : option (option Ty) := slots s !! id.

(** [TyVars::mark]. *)
Definition mark (s : TyVars) : TyVarMark :=
  mkMark (length (slots s)) (length (log s)) (length (pending s)) (length (bounds s))
         (length (carriers s)).

(** The loops of [TyVars::rollback]: unbind what was bound after the mark, retire what was created
    after it. *)
Definition unbind (limit : nat) (sl : list (option Ty)) (ids : list nat) : list (option Ty) :=
  fold_left (fun sl id => if id <? limit then <[id := None]> sl else sl) ids sl.
Definition retire (limit : nat) (sl : list (option Ty)) : list (option Ty) :=
  take limit sl ++ replicate (length sl - limit) (Some TUnknown).

(** [TyVars::rollback]: the drain and the slice panic past the end. *)
Definition rollback (s : TyVars) (m : TyVarMark) : option TyVars :=
  if (m_log m <=? length (log s)) && (m_slots m <=? length (slots s)) then
    Some (mkTyVars
      (retire (m_slots m) (unbind (m_slots m) (slots s) (drop (m_log m) (log s))))
      (take (m_log m) (log s))
      (take (m_pending m) (pending s))
      (take (m_bounds m) (bounds s))
      (filter (fun ki => ki.2 < m_pending m) (reads s))
      (take (m_carriers m) (carriers s))
      (filter (fun ki => ki.2 < m_carriers m) (carrier_reads s)))
  else None.

(** [TyVars::present_payload]. *)
Definition present_payload (s : TyVars) (v : nat) : option Ty :=
  c ← find (fun c => c_var c =? v) (carriers s);
  match c_kind c with KPresent p => Some p | KError => None end.

(** The closure of [zonk]: a variable is replaced by what [g] gives for it. *)
Definition on_var (g : nat -> option Ty) (x : Ty) : option (option Ty) :=
  match x with TVar id => Some <$> g id | _ => Some None end.

(** [TyVars::zonk]. *)
Fixpoint zonk (fuel : nat) (s : TyVars) (t : Ty) : option Ty :=
  match fuel with
  | O => None
  | S n =>
    if negb (any s) || negb (has_var t) then Some t
    else map_ty (on_var (fun id =>
      b ← binding s id;
      match b with Some b => zonk n s b | None => Some (TVar id) end)) t
  end.

(** [TyVars::settle]. *)
Definition settle (fuel : nat) (s : TyVars) (t : Ty) : option Ty :=
  z ← zonk fuel s t; Some (if has_var z then TUnknown else z).

(** ** The unifier *)

(** [has_leak] of [solve_at]: a parameter that is not in scope here. *)
Definition has_leak (t : Ty) : bool :=
  negb (ty_all_holes (fun h => match h with TParam n => rigid n | _ => true end) t).

(** The variable-to-variable arm of [solve_at]. *)
Definition solve_vars (s : TyVars) (x y : nat) : option TyVars :=
  if x =? y then Some s
  else
    let px := bool_decide (is_Some (present_payload s x)) in
    let py := bool_decide (is_Some (present_payload s y)) in
    let '(from, to) :=
      match px, py with
      | true, false => (y, x)
      | false, true => (x, y)
      | _, _ => if y <? x then (x, y) else (y, x)
      end in
    bind s from (TVar to).

(** The variable-to-type arm of [solve_at]. *)
Definition solve_var (s : TyVars) (x : nat) (t : Ty) (top : bool) : option TyVars :=
  if is_unknown t && top then Some s
  else
    let leaked := has_leak t in
    if mentions_var t x then Some s
    else
      match present_payload s x, t, leaked with
      | Some p, TOption _, true => bind s x (TOption p)
      | Some p, TResult _ e, true =>
          if negb (has_leak e) then bind s x (TResult p e) else Some s
      | _, _, true => Some s
      | Some p, t, false =>
          match carrier_parts t with None => bind s x (TOption p) | Some _ => bind s x t end
      | None, t, false => bind s x t
      end.

(** [for_each] over zipped arguments, the store passed along. *)
Definition solve_zip (f : TyVars -> Ty -> Ty -> option TyVars) : TyVars -> list (Ty * Ty) -> option TyVars :=
  fix go s l := match l with [] => Some s | (x, y) :: l => s ← f s x y; go s l end.

(** The match of [Checker::solve_at] on two types whose bound variables are substituted; [rec] is the
    recursive call. *)
Definition solve_node (rec : TyVars -> Ty -> Ty -> bool -> option TyVars)
    (s : TyVars) (a b : Ty) (top : bool) : option TyVars :=
  let each s l k := solve_zip (fun s x y => rec s x y false) s (combine l k) in
  match a, b with
  | TVar x, TVar y => solve_vars s x y
  | TVar x, t | t, TVar x => solve_var s x t top
  | TWidth _, _ => rec s (scalar a) b top
  | _, TWidth _ => rec s a (scalar b) top
  | TList x, TList y | TSet x, TSet y | TOption x, TOption y | TChannel x, TChannel y
  | TShared x, TShared y | TAtomic x, TAtomic y | TRwShared x, TRwShared y => rec s x y false
  | TMap k1 v1, TMap k2 v2 | TResult k1 v1, TResult k2 v2 =>
      s ← rec s k1 k2 false; rec s v1 v2 false
  | TStruct n1 a1, TStruct n2 a2 | TEnum n1 a1, TEnum n2 a2 | TProtocol n1 a1, TProtocol n2 a2 =>
      if String.eqb n1 n2 && (length a1 =? length a2) then each s a1 a2 else Some s
  | TTuple t1, TTuple t2 => if length t1 =? length t2 then each s t1 t2 else Some s
  | TFunc p1 r1 _ v1, TFunc p2 r2 _ v2 =>
      if (length p1 =? length p2) && bool_decide (v1 = v2)
      then s ← each s p1 p2; rec s r1 r2 false
      else Some s
  | _, _ => Some s
  end.

(** [Checker::solve_at]. *)
Fixpoint solve_at (fuel : nat) (s : TyVars) (a b : Ty) (top : bool) : option TyVars :=
  match fuel with
  | O => None
  | S n => a ← zonk n s a; b ← zonk n s b; solve_node (solve_at n) s a b top
  end.

(** [Checker::solve]. *)
Definition solve (fuel : nat) (s : TyVars) (a b : Ty) : option TyVars :=
  if negb (any s) || negb (has_var a || has_var b) then Some s
  else solve_at fuel s a b true.

(** [Checker::join_ty]: [compatible] after [solve], rolled back when it fails. *)
Definition join_ty (fuel : nat) (s : TyVars) (a b : Ty) : option (bool * TyVars) :=
  if negb (any s) || negb (has_var a || has_var b) then Some (compatible a b, s)
  else
    let m := mark s in
    s1 ← solve fuel s a b;
    a' ← zonk fuel s1 a;
    b' ← zonk fuel s1 b;
    if compatible a' b' then Some (true, s1)
    else s2 ← rollback s1 m; Some (false, s2).

(** [Checker::join_fill]. *)
Definition join_fill (fuel : nat) (s : TyVars) (a b : Ty) : option (option Ty * TyVars) :=
  r ← join_ty fuel s a b;
  Some (if r.1 : bool then Some (merge_unknown a b) else None, r.2).

(** [Checker::defer_carrier]: a node walked before keeps its variable ([SYNTH] is node 0). *)
Definition defer_carrier (s : TyVars) (node : nat) (span : Span) (kind : CarrierKind) :
    option (TyVars * nat) :=
  match carrier_reads s !! node with
  | Some i =>
      c ← carriers s !! i;
      Some (mkTyVars (slots s) (log s) (pending s) (bounds s) (reads s)
              (<[i := mkCarrier (c_node c) (c_span c) (c_var c) kind]> (carriers s))
              (carrier_reads s), c_var c)
  | None =>
      let '(s, var) := fresh s in
      let i := length (carriers s) in
      Some (mkTyVars (slots s) (log s) (pending s) (bounds s) (reads s)
              (carriers s ++ [mkCarrier node span var kind])
              (if node =? 0 then carrier_reads s else <[node := i]> (carrier_reads s)), var)
  end.

(** [Checker::mark_decode_read]: an index past the end would panic. *)
Definition set_decode (p : Pending) : Pending :=
  mkPending (p_node p) (p_name p) (p_sig p) (p_spelling p) (p_span p) (p_vars p) true.
Definition mark_decode_read (s : TyVars) (node : nat) : option TyVars :=
  match reads s !! node with
  | Some i =>
      p ← pending s !! i;
      Some (mkTyVars (slots s) (log s) (<[i := set_decode p]> (pending s)) (bounds s) (reads s)
              (carriers s) (carrier_reads s))
  | None => Some s
  end.

(** [Checker::defer_bound]. *)
Definition defer_bound (s : TyVars) (b : DeferredBound) : TyVars :=
  mkTyVars (slots s) (log s) (pending s) (bounds s ++ [b]) (reads s) (carriers s) (carrier_reads s).

(** The fresh variables and the record of [Checker::defer_generic_fn_value]; [params] are the names
    of the signature's type parameters. *)
Definition fresh_one (acc : TyVars * list (string * nat)) (n : string) :
    TyVars * list (string * nat) :=
  let '(s, v) := fresh acc.1 in (s, acc.2 ++ [(n, v)]).
Definition fresh_all (s : TyVars) (params : list string) : TyVars * list (string * nat) :=
  fold_left fresh_one params (s, []).

Definition defer_generic_fn_value (s : TyVars) (node : nat) (name : string) (sig : FnSig)
    (params : list string) (spelling : string) (span : Span) (decode : bool) :
    option (TyVars * list (string * nat)) :=
  match (if node =? 0 then None else reads s !! node) with
  | Some i => p ← pending s !! i; Some (s, p_vars p)
  | None =>
      let '(s, vars) := fresh_all s params in
      let i := length (pending s) in
      Some (mkTyVars (slots s) (log s)
              (pending s ++ [mkPending node name sig spelling span vars decode]) (bounds s)
              (if node =? 0 then reads s else <[node := i]> (reads s)) (carriers s)
              (carrier_reads s), vars)
  end.

(** The first pending [?x] that the walk of [map_ty] meets in [z]. *)
Fixpoint first_present (s : TyVars) (z : Ty) : option (nat * Ty) :=
  let all := fix all (l : list Ty) := match l with
    | [] => None
    | x :: l => match first_present s x with Some h => Some h | None => all l end
    end in
  match z with
  | TVar v => p ← present_payload s v; Some (v, p)
  | TList x | TSet x | TOption x | TChannel x | TShared x | TAtomic x | TRwShared x =>
      first_present s x
  | TMap k v | TResult k v =>
      match first_present s k with Some h => Some h | None => first_present s v end
  | TTuple ts | TStruct _ ts | TEnum _ ts | TProtocol _ ts => all ts
  | TFunc params ret _ _ =>
      match all params with Some h => Some h | None => first_present s ret end
  | _ => None
  end.

(** [Checker::pinning_value_ty]: every unbound [?x] inside becomes its default. *)
Fixpoint pinning_value_ty (fuel : nat) (s : TyVars) (t : Ty) : option (TyVars * Ty) :=
  match fuel with
  | O => None
  | S n =>
      z ← zonk n s t;
      match first_present s z with
      | None => Some (s, z)
      | Some (v, p) => s ← bind s v (TOption p); pinning_value_ty n s t
      end
  end.
End tyvar.

(** ** Types as a shape over their parts

    The parts the walk enters, and a type rebuilt with other parts. *)
Definition parts (t : Ty) : list Ty :=
  match t with TFunc ps r _ _ => ps ++ [r] | _ => kids t end.

Definition rebuild (t : Ty) (cs : list Ty) : Ty :=
  match t, cs with
  | TList _, [x] => TList x | TSet _, [x] => TSet x | TOption _, [x] => TOption x
  | TChannel _, [x] => TChannel x | TShared _, [x] => TShared x | TAtomic _, [x] => TAtomic x
  | TRwShared _, [x] => TRwShared x
  | TMap _ _, [a; b] => TMap a b | TResult _ _, [a; b] => TResult a b
  | TTuple _, _ => TTuple cs | TStruct n _, _ => TStruct n cs | TEnum n _, _ => TEnum n cs
  | TProtocol n _, _ => TProtocol n cs
  | TFunc ps r l v, _ => TFunc (take (length ps) cs) (default r (cs !! length ps)) l v
  | _, _ => t
  end.

Definition no_labels : FnLabels Ty := mkLabels [] None [].

(** The shape of a node: its head, its arity and its variadic kind, without its labels. *)
Definition shape (t : Ty) : Ty :=
  match t with
  | TFunc ps r _ v => TFunc (List.map (fun _ => TNil) ps) TNil no_labels v
  | _ => rebuild t (List.map (fun _ => TNil) (parts t))
  end.

Definition is_var (t : Ty) : bool := match t with TVar _ => true | _ => false end.

Lemma length_one {A} (l : list A) : length l = 1 -> exists x, l = [x].
Proof. destruct l as [|x [|]]; try done. eauto. Qed.
Lemma length_two {A} (l : list A) : length l = 2 -> exists x y, l = [x; y].
Proof. destruct l as [|x [|y [|]]]; try done. eauto. Qed.

Lemma rebuild_parts t : rebuild t (parts t) = t.
Proof.
  destruct t; try done. simpl. rewrite take_app_length, lookup_app_r by lia.
  by rewrite Nat.sub_diag.
Qed.

Lemma take_snoc_split {A} (cs : list A) n :
  length cs = n + 1 -> exists l x, cs = l ++ [x] /\ length l = n.
Proof.
  intros Hl. destruct cs as [|x l] using rev_ind; simpl in Hl; [lia|].
  rewrite length_app in Hl. simpl in Hl. exists l, x. split; [done|lia].
Qed.

Lemma parts_rebuild t cs : length cs = length (parts t) -> parts (rebuild t cs) = cs.
Proof.
  intros Hl. destruct t; simpl in Hl |- *; try done;
    try (by destruct cs);
    try (by apply length_one in Hl as [? ->]);
    try (by apply length_two in Hl as (? & ? & ->)).
  rewrite length_app in Hl. simpl in Hl.
  apply take_snoc_split in Hl as (l & x & -> & <-).
  rewrite take_app_length, lookup_app_r by lia. by rewrite Nat.sub_diag.
Qed.

Lemma map_all_app {A B} (f : A -> option B) l k :
  map_all f (l ++ k) = (x ← map_all f l; y ← map_all f k; Some (x ++ y)).
Proof.
  induction l as [|a l IH]; simpl; [by destruct (map_all f k)|].
  destruct (f a); [|done]. simpl. fold (map_all f). rewrite IH.
  destruct (map_all f l); [|done]. simpl. by destruct (map_all f k).
Qed.

Lemma map_all_length {A B} (f : A -> option B) l k : map_all f l = Some k -> length k = length l.
Proof.
  revert k. induction l as [|a l IH]; simpl; [by intros k [= <-]|]. fold (map_all f).
  destruct (f a); [|done]. destruct (map_all f l) as [k'|]; [|done].
  intros k [= <-]. simpl. by rewrite (IH k').
Qed.

(** [map_ty] in one equation. *)
Lemma map_ty_unfold f t :
  map_ty f t =
  (r ← f t; match r with
            | Some r => Some r
            | None => cs ← map_all (map_ty f) (parts t); Some (rebuild t cs)
            end).
Proof.
  destruct t; simpl; destruct (f _) as [[r|]|]; try done; simpl;
    repeat match goal with |- context [map_ty f ?x] => destruct (map_ty f x) eqn:? end; try done;
    fold (map_all (map_ty f)); try (by destruct (map_all _ _)).
  all: rewrite map_all_app; destruct (map_all (map_ty f) params) as [ps|] eqn:E; try done; simpl.
  all: match goal with H : map_ty _ _ = _ |- _ => rewrite H end; try done; simpl.
  all: apply map_all_length in E; rewrite <- E, take_app_length, lookup_app_r, Nat.sub_diag by lia; done.
Qed.

(** [any_ty] in one equation. *)
Lemma any_ty_unfold p t : any_ty p t = p t || existsb (any_ty p) (parts t).
Proof.
  destruct t; simpl; rewrite ?orb_false_r; try done.
  rewrite existsb_app. simpl. by rewrite orb_false_r.
Qed.

Lemma parts_size t x : x ∈ parts t -> ty_size x < ty_size t.
Proof.
  destruct t; try apply kids_size. simpl.
  intros [Hx%sum_elem| ->%list_elem_of_singleton]%elem_of_app; lia.
Qed.

(** Induction over a type and its parts. *)
Lemma parts_ind (P : Ty -> Prop) :
  (forall t, (forall x, x ∈ parts t -> P x) -> P t) -> forall t, P t.
Proof.
  intros Hs t. induction t as [t IH] using (induction_ltof1 _ ty_size). unfold ltof in IH.
  apply Hs. intros x Hx. by apply IH, parts_size.
Qed.

Lemma parts_shape t : length (parts (shape t)) = length (parts t).
Proof.
  destruct t; simpl; try done; rewrite ?length_app, ?length_map; done.
Qed.

(** Instantiation: [θ] for every variable, labels dropped (they are not part of a type's
    identity). *)
Fixpoint inst (θ : nat -> Ty) (t : Ty) : Ty :=
  match t with
  | TVar x => θ x
  | TList x => TList (inst θ x) | TSet x => TSet (inst θ x) | TOption x => TOption (inst θ x)
  | TChannel x => TChannel (inst θ x) | TShared x => TShared (inst θ x)
  | TAtomic x => TAtomic (inst θ x) | TRwShared x => TRwShared (inst θ x)
  | TMap k v => TMap (inst θ k) (inst θ v) | TResult k v => TResult (inst θ k) (inst θ v)
  | TTuple ts => TTuple (List.map (inst θ) ts) | TStruct n a => TStruct n (List.map (inst θ) a)
  | TEnum n a => TEnum n (List.map (inst θ) a) | TProtocol n a => TProtocol n (List.map (inst θ) a)
  | TFunc ps r _ v => TFunc (List.map (inst θ) ps) (inst θ r) no_labels v
  | other => other
  end.

Lemma inst_unfold θ t :
  is_var t = false -> inst θ t = rebuild (shape t) (List.map (inst θ) (parts t)).
Proof.
  destruct t; try done; intros _; simpl. rewrite map_app, !length_map.
  simpl. rewrite <- (length_map (inst θ) params).
  rewrite take_app_length, lookup_app_r by lia. by rewrite Nat.sub_diag.
Qed.

(** ** Substitution of variables *)

Lemma map_all_Forall2 {A B} (f : A -> option B) l k :
  map_all f l = Some k <-> Forall2 (fun x y => f x = Some y) l k.
Proof.
  revert k. induction l as [|a l IH]; intros k; simpl.
  - split; [by intros [= <-] | by inversion 1].
  - fold (map_all f). split.
    + destruct (f a) as [b|] eqn:Ea; [|done]. destruct (map_all f l) as [k'|] eqn:El; [|done].
      intros [= <-]. constructor; [done|]. by apply IH.
    + inversion 1 as [|? b ? k' Ha Hl]; subst. rewrite Ha. simpl. apply IH in Hl. by rewrite Hl.
Qed.

Lemma mentions_parts t y :
  is_var t = false -> mentions_var t y = existsb (fun x => mentions_var x y) (parts t).
Proof. unfold mentions_var at 1. rewrite any_ty_unfold. by destruct t. Qed.

Lemma mentions_part t x y :
  is_var t = false -> x ∈ parts t -> mentions_var x y = true -> mentions_var t y = true.
Proof.
  intros Hv Hx Hy. rewrite mentions_parts by done. apply existsb_exists.
  exists x. split; [by apply list_elem_of_In|done].
Qed.

Lemma mentions_inv t y :
  is_var t = false -> mentions_var t y = true -> exists x, x ∈ parts t /\ mentions_var x y = true.
Proof.
  intros Hv. rewrite mentions_parts by done. rewrite existsb_exists.
  intros (x & Hx%list_elem_of_In & Hy). eauto.
Qed.

Lemma mentions_self x y : mentions_var (TVar x) y = true <-> x = y.
Proof. unfold mentions_var. simpl. rewrite orb_false_r. apply Nat.eqb_eq. Qed.

Lemma is_var_inv t : is_var t = true -> exists x, t = TVar x.
Proof. destruct t; try done. eauto. Qed.

Lemma has_var_spec t : has_var t = true <-> exists y, mentions_var t y = true.
Proof.
  induction t as [t IH] using parts_ind. unfold has_var. rewrite any_ty_unfold.
  destruct (is_var t) eqn:Hv.
  - apply is_var_inv in Hv as [x ->]. simpl. split; [|done]. exists x. by apply mentions_self.
  - replace (match t with TVar _ => true | _ => false end) with false by (by destruct t).
    simpl. rewrite existsb_exists. split.
    + intros (x & Hx%list_elem_of_In & Hy). apply (IH x Hx) in Hy as [y Hy].
      exists y. by eapply mentions_part.
    + intros [y Hy]. apply mentions_inv in Hy as (x & Hx & Hy); [|done].
      exists x. split; [by apply list_elem_of_In|]. apply IH; eauto.
Qed.

Lemma map_var_parts g t :
  is_var t = false ->
  map_ty (on_var g) t = (cs ← map_all (map_ty (on_var g)) (parts t); Some (rebuild t cs)).
Proof. intros Hv. rewrite map_ty_unfold. by destruct t. Qed.

Lemma map_var_var g x : map_ty (on_var g) (TVar x) = g x.
Proof. simpl. by destruct (g x). Qed.

Lemma map_var_parts_inv g t z :
  is_var t = false -> map_ty (on_var g) t = Some z ->
  exists cs, z = rebuild t cs /\ Forall2 (fun x y => map_ty (on_var g) x = Some y) (parts t) cs.
Proof.
  intros Hv. rewrite map_var_parts by done.
  destruct (map_all _ _) as [cs|] eqn:E; [|done]. intros [= <-]. apply map_all_Forall2 in E. eauto.
Qed.

Lemma map_var_total g t :
  (forall y, mentions_var t y = true -> is_Some (g y)) -> is_Some (map_ty (on_var g) t).
Proof.
  induction t as [t IH] using parts_ind. intros Hg. destruct (is_var t) eqn:Hv.
  - apply is_var_inv in Hv as [x ->]. rewrite map_var_var. apply Hg. by apply mentions_self.
  - rewrite map_var_parts by done.
    assert (forall l, (forall x, x ∈ l -> x ∈ parts t) ->
      is_Some (map_all (map_ty (on_var g)) l)) as Hl.
    { induction l as [|x l IHl]; intros Hin; [by eexists|]. simpl. fold (map_all (map_ty (on_var g))).
      destruct (IH x) as [y ->]; [apply Hin; left|intros y Hy; apply Hg; eapply mentions_part; eauto; apply Hin; left|].
      destruct IHl as [k ->]; [intros; apply Hin; by right|]. by eexists. }
    destruct (Hl (parts t)) as [cs ->]; [done|]. by eexists.
Qed.

Lemma is_var_rebuild t cs : is_var t = false -> is_var (rebuild t cs) = false.
Proof. destruct t; simpl; try done; intros _; repeat case_match; done. Qed.

Lemma map_var_mentions g t z w :
  map_ty (on_var g) t = Some z -> mentions_var z w = true ->
  exists y r, mentions_var t y = true /\ g y = Some r /\ mentions_var r w = true.
Proof.
  revert z. induction t as [t IH] using parts_ind. intros z Hz Hw. destruct (is_var t) eqn:Hv.
  - apply is_var_inv in Hv as [x ->]. rewrite map_var_var in Hz.
    exists x, z. by rewrite mentions_self.
  - apply map_var_parts_inv in Hz as (cs & -> & Hcs); [|done].
    apply mentions_inv in Hw as (c & Hc & Hw); [|by apply is_var_rebuild].
    rewrite parts_rebuild in Hc by (symmetry; by eapply list.Forall2_length).
    apply list_elem_of_lookup_1 in Hc as [i Hc].
    destruct (Forall2_lookup_r _ _ _ _ _ Hcs Hc) as (x & Hx & Hxc).
    apply list_elem_of_lookup_2 in Hx.
    destruct (IH x Hx c Hxc Hw) as (y & r & Hy & Hg & Hr). exists y, r. eauto using mentions_part.
Qed.

Lemma shape_rebuild t cs : length cs = length (parts t) -> shape (rebuild t cs) = shape t.
Proof.
  intros Hl. destruct t; simpl in Hl |- *; try done;
    try (apply length_one in Hl as [? ->]); try (apply length_two in Hl as (? & ? & ->));
    try done; simpl.
  2-5: f_equal; apply list_eq_same_length with (n := length cs); [by rewrite !length_map..|];
       intros i x y _; rewrite !list_lookup_fmap; intros; simplify_option_eq; done.
  rewrite length_app in Hl. simpl in Hl. f_equal.
  apply list_eq_same_length with (n := length params); [by rewrite !length_map, ?length_take; lia..|].
  intros i x y _. rewrite !list_lookup_fmap. intros; simplify_option_eq; done.
Qed.

Lemma map_ext_elem {A B} (f g : A -> B) l :
  (forall x, x ∈ l -> f x = g x) -> List.map f l = List.map g l.
Proof.
  induction l as [|a l IH]; intros Hf; [done|]. simpl. f_equal; [apply Hf; left|].
  apply IH. intros. apply Hf. by right.
Qed.

Lemma Forall2_map_eq {A B C} (f : A -> C) (g : B -> C) l k :
  Forall2 (fun x y => f x = g y) l k -> List.map f l = List.map g k.
Proof. induction 1; simpl; congruence. Qed.

Lemma Forall2_elem_impl {A B} (P Q : A -> B -> Prop) l k :
  Forall2 P l k -> (forall x y, x ∈ l -> y ∈ k -> P x y -> Q x y) -> Forall2 Q l k.
Proof.
  induction 1 as [|x y l k Hxy Hlk IH]; intros HQ; constructor.
  - apply HQ; [left|left|done].
  - apply IH. intros. apply HQ; [by right|by right|done].
Qed.

Lemma map_var_inst θ g t z :
  map_ty (on_var g) t = Some z ->
  (forall y r, mentions_var t y = true -> g y = Some r -> inst θ r = θ y) ->
  inst θ z = inst θ t.
Proof.
  revert z. induction t as [t IH] using parts_ind. intros z Hz Hg. destruct (is_var t) eqn:Hv.
  - apply is_var_inv in Hv as [x ->]. rewrite map_var_var in Hz. apply Hg; [|done].
    by apply mentions_self.
  - apply map_var_parts_inv in Hz as (cs & -> & Hcs); [|done].
    pose proof (list.Forall2_length _ _ _ Hcs) as Hl.
    rewrite (inst_unfold θ t), (inst_unfold θ (rebuild t cs)) by auto using is_var_rebuild.
    rewrite shape_rebuild, parts_rebuild by done. f_equal. symmetry. apply Forall2_map_eq.
    eapply Forall2_elem_impl; [exact Hcs|]. intros x c Hx _ Hxc. symmetry.
    apply (IH x Hx c Hxc). intros y r Hy. apply Hg. by eapply mentions_part.
Qed.

Lemma map_var_mono g g' t z :
  (forall y r, mentions_var t y = true -> g y = Some r -> g' y = Some r) ->
  map_ty (on_var g) t = Some z -> map_ty (on_var g') t = Some z.
Proof.
  revert z. induction t as [t IH] using parts_ind. intros z Hg Hz. destruct (is_var t) eqn:Hv.
  - apply is_var_inv in Hv as [x ->]. rewrite map_var_var in *. apply Hg; [|done].
    by apply mentions_self.
  - apply map_var_parts_inv in Hz as (cs & -> & Hcs); [|done].
    rewrite map_var_parts by done. erewrite (proj2 (map_all_Forall2 _ _ cs)); [done|].
    eapply Forall2_elem_impl; [exact Hcs|]. intros x c Hx _ Hxc.
    apply (IH x Hx c); [|done]. intros y r Hy. apply Hg. by eapply mentions_part.
Qed.

Lemma map_var_id g t :
  (forall y, mentions_var t y = true -> g y = Some (TVar y)) -> map_ty (on_var g) t = Some t.
Proof.
  induction t as [t IH] using parts_ind. intros Hg. destruct (is_var t) eqn:Hv.
  - apply is_var_inv in Hv as [x ->]. rewrite map_var_var. apply Hg. by apply mentions_self.
  - rewrite map_var_parts by done. erewrite (proj2 (map_all_Forall2 _ _ (parts t))).
    + simpl. by rewrite rebuild_parts.
    + apply Forall2_same_length_lookup_2; [done|]. intros i x y Hx Hy. simplify_eq.
      apply list_elem_of_lookup_2 in Hx. apply IH; [done|].
      intros y Hy. apply Hg. by eapply mentions_part.
Qed.

Lemma inst_ext θ θ' t :
  (forall y, mentions_var t y = true -> θ y = θ' y) -> inst θ t = inst θ' t.
Proof.
  induction t as [t IH] using parts_ind. intros Hg. destruct (is_var t) eqn:Hv.
  - apply is_var_inv in Hv as [x ->]. apply Hg. by apply mentions_self.
  - rewrite !inst_unfold by done. f_equal. apply map_ext_elem. intros x Hx. apply IH; [done|].
    intros y Hy. apply Hg. by eapply mentions_part.
Qed.

(** ** Stores that mean something *)

Section store.
  Context `{TyVarPayloads}.
  Variable rigid : string -> bool.

Definition bound (s : TyVars) (x : nat) (t : Ty) : Prop := slots s !! x = Some (Some t).
Definition unbound (s : TyVars) (x : nat) : Prop := slots s !! x = Some None.
Definition in_range (s : TyVars) (t : Ty) : Prop :=
  forall y, mentions_var t y = true -> y < length (slots s).

(** [θ] is a solution of the store's bindings. *)
Definition satisfies (θ : nat -> Ty) (s : TyVars) : Prop :=
  forall x t, bound s x t -> θ x = inst θ t.

(** Every binding mentions created variables only, and no variable is bound to a type that holds it,
    however indirectly. *)
Definition store_wf (s : TyVars) : Prop := forall x t, bound s x t -> in_range s t.
Definition acyclic (s : TyVars) : Prop :=
  exists rank : nat -> nat, forall x t y,
    bound s x t -> mentions_var t y = true -> rank y < rank x.

Lemma zonk_S n s t :
  in_range s t ->
  zonk (S n) s t = map_ty (on_var (fun id =>
      b ← binding s id; match b with Some b => zonk n s b | None => Some (TVar id) end)) t.
Proof.
  intros Hr. cbn [zonk]. destruct (has_var t) eqn:Hv.
  - unfold any. destruct (length (slots s)) eqn:E; [|done].
    apply has_var_spec in Hv as [y Hy]. apply Hr in Hy. lia.
  - rewrite orb_true_r. symmetry. apply map_var_id. intros y Hy.
    assert (has_var t = true) by (apply has_var_spec; eauto). congruence.
Qed.

Lemma in_range_slot s t y : in_range s t -> mentions_var t y = true -> is_Some (slots s !! y).
Proof. intros Hr Hy. apply lookup_lt_is_Some. by apply Hr. Qed.

Lemma zonk_mono n m s t z : n <= m -> zonk n s t = Some z -> zonk m s t = Some z.
Proof.
  revert m t z. induction n as [|n IH]; intros [|m] t z Hm Hz; try done; try lia.
  cbn [zonk] in *. destruct (negb (any s) || negb (has_var t)); [done|].
  revert Hz. apply map_var_mono.
  intros y r Hy. destruct (binding s y) as [[b|]|]; simpl; [|done|done].
  apply IH. lia.
Qed.

(** Substitution ends on a well-formed acyclic store: one fuel is enough for every type. *)
Lemma zonk_uniform s :
  store_wf s -> acyclic s -> exists n, forall t, in_range s t -> is_Some (zonk n s t).
Proof.
  intros Hw [rank Hrank].
  assert (forall k t, in_range s t -> (forall y, mentions_var t y = true -> rank y < k) ->
    is_Some (zonk (S k) s t)) as Hk.
  { induction k as [|k IH]; intros t' Hr Hlt; rewrite zonk_S by done;
      apply map_var_total; intros y Hy; specialize (Hlt y Hy); [lia|].
    destruct (in_range_slot s t' y Hr Hy) as [[b|] Hb]; unfold binding; rewrite Hb; simpl; [|by eexists].
    apply IH; [by eapply Hw|]. intros y' Hy'. specialize (Hrank y b y' Hb Hy'). lia. }
  exists (S (S (list_max (List.map rank (seq 0 (length (slots s))))))). intros t Hr.
  apply Hk; [done|]. intros y Hy. apply Hr in Hy. apply Nat.lt_succ_r.
  apply (proj1 (list.Forall_forall _ _) (proj1 (list_max_le _ _) (le_n _))).
  apply list_elem_of_In, in_map, in_seq. lia.
Qed.

Lemma zonk_ends s t :
  store_wf s -> acyclic s -> in_range s t -> exists n z, zonk n s t = Some z.
Proof.
  intros Hw Ha Hr. destruct (zonk_uniform s Hw Ha) as [n Hn]. destruct (Hn t Hr) as [z Hz]. eauto.
Qed.

Definition all_unbound (s : TyVars) (t : Ty) : Prop :=
  forall y, mentions_var t y = true -> unbound s y.

Lemma all_unbound_range s t : all_unbound s t -> in_range s t.
Proof. intros Hu y Hy. apply Hu in Hy. by eapply lookup_lt_Some. Qed.

Lemma all_unbound_part s t x :
  is_var t = false -> all_unbound s t -> x ∈ parts t -> all_unbound s x.
Proof. intros Hv Hu Hx y Hy. apply Hu. by eapply mentions_part. Qed.

Lemma in_range_part s t x : is_var t = false -> in_range s t -> x ∈ parts t -> in_range s x.
Proof. intros Hv Hu Hx y Hy. apply Hu. by eapply mentions_part. Qed.

(** What [zonk] returns holds unbound variables only, and means what its argument means. *)
Lemma zonk_unbound n s t z :
  store_wf s -> in_range s t -> zonk n s t = Some z -> all_unbound s z.
Proof.
  intros Hw. revert t z. induction n as [|n IH]; intros t z Hr Hz w Hm; [done|].
  rewrite zonk_S in Hz by done.
  destruct (map_var_mentions _ _ _ _ Hz Hm) as (y & r & Hy & Hg & Hrw). unfold binding in Hg.
  destruct (slots s !! y) as [[b|]|] eqn:Eb; simpl in Hg; [|simplify_eq|done].
  - eapply IH; [by eapply Hw|done|done].
  - apply mentions_self in Hrw as <-. done.
Qed.

Lemma zonk_inst θ n s t z :
  store_wf s -> satisfies θ s -> in_range s t -> zonk n s t = Some z -> inst θ z = inst θ t.
Proof.
  intros Hw Hs. revert t z. induction n as [|n IH]; intros t z Hr Hz; [done|].
  rewrite zonk_S in Hz by done. eapply map_var_inst; [exact Hz|].
  intros y r Hy Hg. unfold binding in Hg.
  destruct (slots s !! y) as [[b|]|] eqn:Eb; simpl in Hg; [|by simplify_eq|done].
  rewrite (Hs _ _ Eb). eapply IH; [by eapply Hw|done].
Qed.

Lemma zonk_fixed n s t : all_unbound s t -> zonk (S n) s t = Some t.
Proof.
  intros Hu. rewrite zonk_S by (by apply all_unbound_range). apply map_var_id.
  intros y Hy. unfold binding. by rewrite (Hu y Hy).
Qed.

Lemma zonk_det n m s t z w : zonk n s t = Some z -> zonk m s t = Some w -> z = w.
Proof.
  intros Hz Hz'. destruct (Nat.le_ge_cases n m) as [Hm|Hm].
  - eapply zonk_mono in Hz; eauto. congruence.
  - eapply zonk_mono in Hz'; eauto. congruence.
Qed.

(** ** What an extension of a store keeps *)

(** [s'] is [s] with the variables [ids], unbound in [s], bound and logged. *)
Definition extends_by (ids : list nat) (s s' : TyVars) : Prop :=
  log s' = log s ++ ids /\ length (slots s') = length (slots s) /\
  (forall x, x ∈ ids -> unbound s x /\ exists t, bound s' x t) /\
  (forall x, x ∉ ids -> slots s' !! x = slots s !! x) /\
  (pending s', bounds s', reads s', carriers s', carrier_reads s') =
    (pending s, bounds s, reads s, carriers s, carrier_reads s).
Definition extends (s s' : TyVars) : Prop := exists ids, extends_by ids s s'.

Lemma extends_refl s : extends s s.
Proof.
  exists []. split_and!; try done; [by rewrite app_nil_r | by intros x ?%not_elem_of_nil].
Qed.

Lemma extends_bound s s' x t : extends s s' -> bound s x t -> bound s' x t.
Proof.
  intros (ids & _ & _ & Hin & Hout & _) Hb. unfold bound in *.
  destruct (decide (x ∈ ids)) as [Hx|Hx]; [|by rewrite Hout].
  destruct (Hin x Hx) as [Hu _]. unfold unbound in Hu. congruence.
Qed.

Lemma extends_trans s1 s2 s3 : extends s1 s2 -> extends s2 s3 -> extends s1 s3.
Proof.
  intros He1 He2. pose proof He1 as (i1 & L1 & N1 & In1 & Out1 & R1).
  destruct He2 as (i2 & L2 & N2 & In2 & Out2 & R2).
  exists (i1 ++ i2). split_and!; [by rewrite L2, L1, app_assoc | congruence | | | congruence].
  - intros x Hx%elem_of_app. split.
    + destruct (decide (x ∈ i1)) as [H1|H1]; [by apply In1|].
      destruct Hx as [Hx|Hx]; [done|]. destruct (In2 x Hx) as [Hu _].
      unfold unbound in *. by rewrite <- Out1.
    + destruct (decide (x ∈ i2)) as [H2|H2]; [by apply In2|].
      destruct Hx as [Hx|Hx]; [|done]. destruct (In1 x Hx) as [_ [t Ht]]. exists t.
      unfold bound in *. by rewrite Out2.
  - intros x Hx. rewrite not_elem_of_app in Hx. rewrite Out2, Out1; tauto.
Qed.

Lemma extends_present s s' v : extends s s' -> present_payload s' v = present_payload s v.
Proof. intros (ids & _ & _ & _ & _ & E). unfold present_payload. injection E as _ _ _ -> _. done. Qed.

Lemma extends_range s s' t : extends s s' -> in_range s t -> in_range s' t.
Proof. intros (ids & _ & E & _) Hr y Hy. rewrite E. by apply Hr. Qed.

(** The number of unbound variables. *)
Definition free_count (s : TyVars) : nat := length (filter (fun o => o = None) (slots s)).

Lemma free_count_ext (l k : list (option Ty)) :
  Forall2 (fun o o' => o' = o \/ (o = None /\ o' <> None)) l k ->
  length (filter (fun o => o = None) k) <= length (filter (fun o => o = None) l) /\
  (length (filter (fun o => o = None) k) = length (filter (fun o => o = None) l) -> k = l).
Proof.
  induction 1 as [|o o' l k Ho Hlk [IH1 IH2]]; [done|].
  destruct Ho as [->|[-> Ho']].
  - rewrite !filter_cons. destruct (decide (o = None)); simpl; split; try lia;
      intros E; f_equal; apply IH2; lia.
  - rewrite (filter_cons_False _ o' k) by done. rewrite filter_cons_True by done. simpl. split; lia.
Qed.

Lemma extends_count s s' :
  extends s s' -> free_count s' <= free_count s /\ (free_count s' = free_count s -> slots s' = slots s).
Proof.
  intros (ids & _ & E & Hin & Hout & _). apply free_count_ext.
  apply Forall2_same_length_lookup_2; [done|]. intros i o o' Ho Ho'.
  destruct (decide (i ∈ ids)) as [Hi|Hi].
  - destruct (Hin i Hi) as [Hu [t Ht]]. unfold unbound, bound in *. simplify_eq. by right.
  - left. rewrite Hout in Ho' by done. congruence.
Qed.

(** ** The invariant of a store, and its preservation *)

Definition payloads_closed (s : TyVars) : Prop :=
  forall c p, c ∈ carriers s -> c_kind c = KPresent p -> has_var p = false.
Definition store_inv (s : TyVars) : Prop := store_wf s /\ acyclic s /\ payloads_closed s.

Lemma present_closed s v p : payloads_closed s -> present_payload s v = Some p -> has_var p = false.
Proof.
  unfold present_payload. intros Hp. destruct (find _ _) as [c|] eqn:E; [|done]. simpl.
  apply find_some in E as [Hin%list_elem_of_In _]. destruct (c_kind c) eqn:Ek; [|done].
  intros [= <-]. by eapply Hp.
Qed.

Lemma closed_unbound s p : has_var p = false -> all_unbound s p.
Proof. intros Hp y Hy. assert (has_var p = true) by (apply has_var_spec; eauto). congruence. Qed.

Lemma store_bind_ok s x t :
  store_inv s -> unbound s x -> all_unbound s t -> mentions_var t x = false ->
  exists s', bind s x t = Some s' /\ store_inv s' /\ extends s s' /\ slots s' = <[x := Some t]> (slots s).
Proof.
  intros (Hw & [rank Hrank] & Hp) Hx Ht Hm. unfold bind.
  pose proof (lookup_lt_Some _ _ _ Hx) as Hlt. rewrite (proj2 (Nat.ltb_lt _ _) Hlt).
  set (s' := with_slots _ _ _). exists s'.
  assert (He : extends s s').
  { exists [x]. split_and!; try done; simpl.
    - by rewrite length_insert.
    - intros y ->%list_elem_of_singleton. split; [done|]. exists t.
      unfold bound. simpl. by rewrite list_lookup_insert_eq.
    - intros y Hy. rewrite list_elem_of_singleton in Hy. by rewrite list_lookup_insert_ne. }
  assert (Hb : forall y u, bound s' y u -> (y = x /\ u = t) \/ (y <> x /\ bound s y u)).
  { intros y u. unfold bound. simpl. destruct (decide (y = x)) as [->|Hne].
    - rewrite list_lookup_insert_eq by done. intros [= <-]. by left.
    - rewrite list_lookup_insert_ne by done. by right. }
  split_and!; try done. split_and!.
  - intros y u [[-> ->]|[_ Hyu]]%Hb; eapply extends_range; eauto using all_unbound_range.
  - exists (fun y => match slots s' !! y with Some (Some _) => S (rank y) | _ => 0 end).
    intros y u w Hyu Hwu. pose proof (Hb _ _ Hyu) as Hcase. unfold bound in Hyu. rewrite Hyu.
    destruct (slots s' !! w) as [[v|]|] eqn:Ew; try lia.
    destruct (Hb w v Ew) as [[-> ->]|[Hne Hwv]]; destruct Hcase as [[-> ->]|[Hne' Hyu']];
      try (apply -> Nat.succ_lt_mono; by eapply Hrank).
    + congruence.
    + apply Ht in Hwu. unfold unbound, bound in *. congruence.
  - exact Hp.
Qed.

(** ** One step of the unifier *)

Definition is_width (t : Ty) : bool := match t with TWidth _ => true | _ => false end.

Lemma combine_snoc {A B} (l : list A) (k : list B) x y :
  length l = length k -> combine (l ++ [x]) (k ++ [y]) = combine l k ++ [(x, y)].
Proof.
  revert k. induction l as [|a l IH]; intros [|b k]; simpl; try done. intros [= E]. by rewrite IH.
Qed.

Lemma solve_zip_snoc f s l x y :
  solve_zip f s (l ++ [(x, y)]) = (s ← solve_zip f s l; f s x y).
Proof.
  revert s. induction l as [|[a b] l IH]; intros s; simpl; [by destruct (f s x y)|].
  destruct (f s a b); [apply IH|done].
Qed.

Lemma map_const_length {A B} (l k : list A) (c : B) :
  List.map (fun _ => c) l = List.map (fun _ => c) k <-> length l = length k.
Proof.
  split.
  - intros E. apply (f_equal length) in E. by rewrite !length_map in E.
  - revert k. induction l as [|x l IH]; intros [|y k]; simpl; try done. intros [= E]. f_equal. auto.
Qed.

(** Two nodes of one shape are solved part by part; two nodes of different shapes bind nothing. *)
Lemma solve_node_shape rec s a b top :
  is_var a = false -> is_var b = false -> is_width a = false -> is_width b = false ->
  (shape a = shape b /\
     solve_node rigid rec s a b top =
       solve_zip (fun s x y => rec s x y false) s (combine (parts a) (parts b))) \/
  (shape a <> shape b /\ solve_node rigid rec s a b top = Some s).
Proof.
  intros Ha Hb Wa Wb. destruct a; try discriminate Ha; try discriminate Wa;
    destruct b; try discriminate Hb; try discriminate Wb;
    cbn [solve_node shape parts kids]; try (right; split; [discriminate|done]);
    try (left; split; [done|]; simpl; repeat (destruct (rec _ _ _ _); simpl); done).
  all: cbn [rebuild].
  all: try (destruct (decide (name = name0)) as [->|Hne]; [by left | right; split; [congruence|done]]).
  all: match goal with |- context [if ?c then _ else _] => destruct c eqn:C end.
  all: rewrite ?andb_true_iff, ?andb_false_iff, ?bool_decide_eq_true, ?bool_decide_eq_false,
         ?String.eqb_eq, ?String.eqb_neq, ?Nat.eqb_eq, ?Nat.eqb_neq in C.
  all: try (right; split; [|done]; intros E; injection E; intros;
       rewrite ?map_const_length in *; intuition congruence).
  all: try (left; split; [f_equal; first [tauto | apply map_const_length; tauto]|]; try done).
  rewrite combine_snoc, solve_zip_snoc by tauto. done.
Qed.

Lemma solve_zip_mono (f g : TyVars -> Ty -> Ty -> option TyVars) s l s' :
  (forall s x y s', f s x y = Some s' -> g s x y = Some s') ->
  solve_zip f s l = Some s' -> solve_zip g s l = Some s'.
Proof.
  intros Hfg. revert s. induction l as [|[x y] l IH]; intros s; simpl; [done|].
  destruct (f s x y) as [s1|] eqn:E; [|done]. rewrite (Hfg _ _ _ _ E). apply IH.
Qed.

Lemma solve_node_mono (rec rec' : TyVars -> Ty -> Ty -> bool -> option TyVars) s a b top s' :
  (forall s a b top s', rec s a b top = Some s' -> rec' s a b top = Some s') ->
  solve_node rigid rec s a b top = Some s' -> solve_node rigid rec' s a b top = Some s'.
Proof.
  intros Hr.
  assert (Hz : forall s l s', solve_zip (fun s x y => rec s x y false) s l = Some s' ->
    solve_zip (fun s x y => rec' s x y false) s l = Some s')
    by (intros s0 l s0'; apply solve_zip_mono; intros; by apply Hr).
  destruct a, b; cbn [solve_node]; try done; try apply Hr; repeat case_match; try done;
    try apply Hz.
  all: intros E; match type of E with (?r ≫= _) = _ => destruct r as [s1|] eqn:E1; [|done] end;
    first [apply Hr in E1 | apply Hz in E1]; rewrite E1; by apply Hr.
Qed.

Lemma solve_at_mono n m s a b top s' :
  n <= m -> solve_at rigid n s a b top = Some s' -> solve_at rigid m s a b top = Some s'.
Proof.
  revert m s a b top s'. induction n as [|n IH]; intros [|m] s a b top s' Hm; try done; [lia|].
  cbn [solve_at]. destruct (zonk n s a) as [za|] eqn:Ea; [|done].
  destruct (zonk n s b) as [zb|] eqn:Eb; [|done].
  rewrite (zonk_mono n m _ _ _ ltac:(lia) Ea), (zonk_mono n m _ _ _ ltac:(lia) Eb). simpl.
  apply solve_node_mono. intros. apply IH; [lia|done].
Qed.

(** A variable meets a variable, or a type. *)
Lemma solve_vars_ok s x y :
  store_inv s -> unbound s x -> unbound s y ->
  exists s', solve_vars s x y = Some s' /\ store_inv s' /\ extends s s' /\
    (x = y /\ s' = s \/ x <> y /\
      (slots s' = <[x := Some (TVar y)]> (slots s) \/ slots s' = <[y := Some (TVar x)]> (slots s))).
Proof.
  intros Hi Hx Hy. unfold solve_vars.
  destruct (Nat.eqb_spec x y) as [->|Hne]; [exists s; split_and!; auto using extends_refl|].
  assert (Hvar : forall v w, unbound s v -> unbound s w -> v <> w ->
    exists s', bind s v (TVar w) = Some s' /\ store_inv s' /\ extends s s' /\
      slots s' = <[v := Some (TVar w)]> (slots s)).
  { intros v w Hv Hw Hvw. apply store_bind_ok; try done.
    - intros u ->%mentions_self. done.
    - destruct (mentions_var (TVar w) v) eqn:E; [|done]. by apply mentions_self in E. }
  destruct (Hvar x y) as (s1 & E1 & I1 & X1 & S1); try done.
  destruct (Hvar y x) as (s2 & E2 & I2 & X2 & S2); try done.
  destruct (bool_decide _), (bool_decide _); try destruct (y <? x);
    rewrite ?E1, ?E2; first [exists s1; tauto | exists s2; tauto].
Qed.

Lemma solve_var_ok s x t top :
  store_inv s -> unbound s x -> all_unbound s t ->
  exists s', solve_var rigid s x t top = Some s' /\ store_inv s' /\ extends s s'.
Proof.
  intros Hi Hx Ht. pose proof Hi as (_ & _ & Hp). unfold solve_var.
  assert (Hs : exists s', Some s = Some s' /\ store_inv s' /\ extends s s')
    by (exists s; split_and!; auto using extends_refl).
  destruct (is_unknown t && top); [done|]. destruct (mentions_var t x) eqn:Em; [done|].
  assert (Hb : forall u, all_unbound s u -> mentions_var u x = false ->
    exists s', bind s x u = Some s' /\ store_inv s' /\ extends s s')
    by (intros u Hu Hm; destruct (store_bind_ok s x u) as (s' & ? & ? & ? & _); eauto).
  destruct (present_payload s x) as [p|] eqn:Ep; [apply present_closed in Ep; [|done]|].
  2: destruct t, (has_leak _ _); auto.
  assert (Hop : exists s', bind s x (TOption p) = Some s' /\ store_inv s' /\ extends s s').
  { assert (Hc : has_var (TOption p) = false) by exact Ep.
    apply Hb; [by apply closed_unbound|]. destruct (mentions_var (TOption p) x) eqn:E; [|done].
    assert (has_var (TOption p) = true) by (apply has_var_spec; eauto). congruence. }
  destruct t, (has_leak _ _); simpl; auto.
  destruct (negb (has_leak _ _)); [|done]. apply Hb.
  - intros y Hy. apply mentions_inv in Hy as (u & Hu & Hy); [|done]. simpl in Hu.
    apply elem_of_cons in Hu as [->|Hu]; [by eapply closed_unbound|].
    apply list_elem_of_singleton in Hu as ->.
    eapply all_unbound_part; [|exact Ht| |exact Hy]; [done|]. simpl. in_list.
  - destruct (mentions_var (TResult p _) x) eqn:E; [|done].
    apply mentions_inv in E as (u & Hu & Hy); [|done]. simpl in Hu.
    apply elem_of_cons in Hu as [->|Hu].
    + assert (has_var p = true) by (apply has_var_spec; eauto). congruence.
    + apply list_elem_of_singleton in Hu as ->. rewrite <- Em. symmetry.
      eapply mentions_part; [done| |exact Hy]. simpl. in_list.
Qed.

(** ** The unifier ends, and keeps the invariant *)

Definition solves (s : TyVars) (a b : Ty) (top : bool) (s' : TyVars) : Prop :=
  exists n, solve_at rigid n s a b top = Some s'.

Lemma zonk_both s a b :
  store_inv s -> in_range s a -> in_range s b ->
  exists n za zb, zonk n s a = Some za /\ zonk n s b = Some zb /\
    all_unbound s za /\ all_unbound s zb.
Proof.
  intros (Hw & Hac & _) Ha Hb. destruct (zonk_ends s a) as (n & za & Hza); try done.
  destruct (zonk_ends s b) as (m & zb & Hzb); try done.
  exists (Nat.max n m), za, zb. split_and!; eauto using zonk_unbound.
  - eapply zonk_mono; [|exact Hza]. lia.
  - eapply zonk_mono; [|exact Hzb]. lia.
Qed.

(** A step after both sides are substituted. *)
Lemma solve_at_step n m s a b za zb top s' :
  zonk n s a = Some za -> zonk n s b = Some zb ->
  solve_node rigid (solve_at rigid m) s za zb top = Some s' -> solves s a b top s'.
Proof.
  intros Ha Hb Hs. exists (S (Nat.max n m)). cbn [solve_at].
  rewrite (zonk_mono n (Nat.max n m) _ _ _ ltac:(lia) Ha).
  rewrite (zonk_mono n (Nat.max n m) _ _ _ ltac:(lia) Hb). simpl.
  eapply solve_node_mono; [|exact Hs]. intros ? ? ? ? ? E. eapply solve_at_mono; [|exact E]. lia.
Qed.

Lemma solve_zip_ends s l :
  (forall s1 x y, (x, y) ∈ l -> store_inv s1 -> extends s s1 ->
     exists s2, solves s1 x y false s2 /\ store_inv s2 /\ extends s1 s2) ->
  forall s1, store_inv s1 -> extends s s1 ->
  exists n s2, solve_zip (fun s x y => solve_at rigid n s x y false) s1 l = Some s2 /\
    store_inv s2 /\ extends s1 s2.
Proof.
  induction l as [|[x y] l IH]; intros Hl s1 Hi He.
  { exists 0, s1. auto using extends_refl. }
  destruct (Hl s1 x y (list_elem_of_here _ _) Hi He) as (s2 & [n Hn] & Hi2 & He2).
  assert (He12 : extends s s2) by (by eapply extends_trans).
  destruct (IH (fun s1 x y Hxy => Hl s1 x y (list_elem_of_further _ _ _ Hxy)) s2 Hi2 He12)
    as (m & s3 & Hm & Hi3 & He3).
  exists (Nat.max n m), s3. split_and!; [|done|by eapply extends_trans].
  simpl. rewrite (solve_at_mono n (Nat.max n m) _ _ _ _ _ ltac:(lia) Hn). simpl.
  eapply solve_zip_mono; [|exact Hm]. intros ? ? ? ? E. eapply solve_at_mono; [|exact E]. lia.
Qed.

Lemma extends_range_pair s s' a b :
  extends s s' -> in_range s a -> in_range s b -> in_range s' a /\ in_range s' b.
Proof. eauto using extends_range. Qed.

Lemma parts_combine a b x y :
  (x, y) ∈ combine (parts a) (parts b) -> x ∈ parts a /\ y ∈ parts b.
Proof.
  intros Hin%list_elem_of_In. split; apply list_elem_of_In;
    [by eapply in_combine_l | by eapply in_combine_r].
Qed.

Lemma scalar_leaf w : has_var (scalar (TWidth w)) = false /\ ty_size (scalar (TWidth w)) = 1.
Proof. by destruct w. Qed.

Lemma solve_ends_aux u : forall m s a b top,
  free_count s <= u ->
  (forall n za zb, zonk n s a = Some za -> zonk n s b = Some zb -> ty_size za + ty_size zb <= m) ->
  store_inv s -> in_range s a -> in_range s b ->
  exists s', solves s a b top s' /\ store_inv s' /\ extends s s'.
Proof.
  induction u as [u IHu] using lt_wf_ind. intros m.
  induction m as [m IHm] using lt_wf_ind. intros s a b top Hu Hm Hi Ha Hb.
  destruct (zonk_both s a b Hi Ha Hb) as (n & za & zb & Hza & Hzb & Ua & Ub).
  specialize (Hm n za zb Hza Hzb).
  assert (Hstep : forall m s', solve_node rigid (solve_at rigid m) s za zb top = Some s' ->
    solves s a b top s') by (intros; by eapply solve_at_step).
  assert (Hrec : forall s1 x y t, store_inv s1 -> extends s s1 -> all_unbound s x -> all_unbound s y ->
    ty_size x + ty_size y < m -> exists s', solves s1 x y t s' /\ store_inv s' /\ extends s1 s').
  { intros s1 x y t Hi1 He Hx Hy Hsz. destruct (extends_count s s1 He) as [Hle Heq].
    destruct (extends_range_pair s s1 x y) as [Rx Ry]; auto using all_unbound_range.
    destruct (Nat.lt_ge_cases (free_count s1) u) as [Hlt|Hge].
    - destruct (zonk_both s1 x y Hi1 Rx Ry) as (k & zx & zy & Ex & Ey & _).
      eapply (IHu _ Hlt (ty_size zx + ty_size zy)); [done| |done..]. intros k' zx' zy' Ex' Ey'.
      rewrite (zonk_det _ _ _ _ _ _ Ex' Ex), (zonk_det _ _ _ _ _ _ Ey' Ey). done.
    - eapply IHm; [exact Hsz|lia| |done..]. intros k zx zy Ex Ey.
      assert (Hs : slots s1 = slots s) by (apply Heq; lia).
      assert (all_unbound s1 x /\ all_unbound s1 y) as [Hx1 Hy1]
        by (split; intros w Hw; unfold unbound; rewrite Hs; [by apply Hx|by apply Hy]).
      rewrite (zonk_det _ _ _ _ _ _ Ex (zonk_fixed 0 s1 x Hx1)).
      rewrite (zonk_det _ _ _ _ _ _ Ey (zonk_fixed 0 s1 y Hy1)). lia. }
  clear IHu IHm. destruct (is_var za) eqn:Va; [apply is_var_inv in Va as [x ->]|].
  { pose proof (Ua x (proj2 (mentions_self x x) eq_refl)) as Hx.
    destruct (is_var zb) eqn:Vb; [apply is_var_inv in Vb as [y ->]|].
    - pose proof (Ub y (proj2 (mentions_self y y) eq_refl)) as Hy.
      destruct (solve_vars_ok s x y) as (s' & E & Hi' & He & _); try done.
      exists s'. split; [|done]. by apply (Hstep 0).
    - destruct (solve_var_ok s x zb top) as (s' & E & Hi' & He); try done.
      exists s'. split; [|done]. apply (Hstep 0). by destruct zb. }
  destruct (is_var zb) eqn:Vb; [apply is_var_inv in Vb as [x ->]|].
  { pose proof (Ub x (proj2 (mentions_self x x) eq_refl)) as Hx.
    destruct (solve_var_ok s x za top) as (s' & E & Hi' & He); try done.
    exists s'. split; [|done]. apply (Hstep 0). by destruct za. }
  destruct (is_width za) eqn:Wa; [|destruct (is_width zb) eqn:Wb].
  - destruct za; try discriminate Wa. destruct (scalar_leaf w) as [Hv Hsz]. simpl in Hm.
    destruct (Hrec s (scalar (TWidth w)) zb top) as (s' & [k Hk] & ?); auto using extends_refl, closed_unbound; [lia|].
    exists s'. split; [|done]. apply (Hstep k). by destruct zb.
  - destruct zb; try discriminate Wb. destruct (scalar_leaf w) as [Hv Hsz]. simpl in Hm.
    destruct (Hrec s za (scalar (TWidth w)) top) as (s' & [k Hk] & ?); auto using extends_refl, closed_unbound; [lia|].
    exists s'. split; [|done]. apply (Hstep k). by destruct za.
  - destruct (solve_zip_ends s (combine (parts za) (parts zb))) with (s1 := s) as (k & s' & Hk & Hi' & He');
      auto using extends_refl.
    + intros s1 x y Hxy Hi1 He1. apply parts_combine in Hxy as [Hx Hy].
      apply Hrec; eauto using all_unbound_part. apply parts_size in Hx, Hy. lia.
    + destruct (solve_node_shape (solve_at rigid k) s za zb top) as [[_ E]|[_ E]]; try done.
      * exists s'. split; [|done]. apply (Hstep k). by rewrite E.
      * exists s. split; [|auto using extends_refl]. by apply (Hstep k).
Qed.

(** [solve_at] ends on every pair of types. *)
Lemma solve_ends s a b top :
  store_inv s -> in_range s a -> in_range s b ->
  exists s', solves s a b top s' /\ store_inv s' /\ extends s s'.
Proof.
  intros Hi Ha Hb. destruct (zonk_both s a b Hi Ha Hb) as (n & za & zb & Hza & Hzb & _).
  eapply (solve_ends_aux (free_count s) (ty_size za + ty_size zb)); try done.
  intros m zx zy Ex Ey.
  by rewrite (zonk_det _ _ _ _ _ _ Ex Hza), (zonk_det _ _ _ _ _ _ Ey Hzb).
Qed.

(** ** The unifier is exact *)

Lemma solves_det s a b top s1 s2 : solves s a b top s1 -> solves s a b top s2 -> s1 = s2.
Proof.
  intros [n Hn] [m Hm]. destruct (Nat.le_ge_cases n m) as [Hle|Hle].
  - eapply solve_at_mono in Hn; [|exact Hle]. congruence.
  - eapply solve_at_mono in Hm; [|exact Hle]. congruence.
Qed.

Lemma zonk_closed n s t z : has_var t = false -> zonk n s t = Some z -> z = t.
Proof. destruct n as [|n]; [done|]. cbn [zonk]. intros ->. rewrite orb_true_r. by intros [= ->]. Qed.

Lemma closed_part t x : has_var t = false -> x ∈ parts t -> has_var x = false.
Proof.
  intros Ht Hx. destruct (has_var x) eqn:E; [|done]. apply has_var_spec in E as [y Hy].
  assert (has_var t = true); [|congruence]. apply has_var_spec. exists y.
  eapply mentions_part; eauto. by destruct t.
Qed.

(** Comparing types without variables binds nothing. *)
Lemma solve_closed n s a b top s' :
  has_var a = false -> has_var b = false -> solve_at rigid n s a b top = Some s' -> s' = s.
Proof.
  revert a b top s'. induction n as [|n IH]; intros a b top s' Ha Hb; [done|]. cbn [solve_at].
  destruct (zonk n s a) as [za|] eqn:Ea; [|done]. destruct (zonk n s b) as [zb|] eqn:Eb; [|done].
  simpl. apply zonk_closed in Ea as ->; [|done]. apply zonk_closed in Eb as ->; [|done].
  destruct (is_width a) eqn:Wa; [|destruct (is_width b) eqn:Wb].
  - destruct a; try discriminate Wa. destruct (scalar_leaf w) as [Hv _].
    destruct b; try discriminate Hb; apply IH; try done.
  - destruct b; try discriminate Wb. destruct (scalar_leaf w) as [Hv _].
    destruct a; try discriminate Ha; try discriminate Wa; apply IH; try done.
  - destruct (solve_node_shape (solve_at rigid n) s a b top) as [[_ ->]|[_ ->]]; try done;
      [by destruct a|by destruct b| |congruence].
    assert (Hl : forall x y, (x, y) ∈ combine (parts a) (parts b) -> has_var x = false /\ has_var y = false).
    { intros x y [Hx Hy]%parts_combine. split; [exact (closed_part a x Ha Hx) | exact (closed_part b y Hb Hy)]. }
    revert Hl. generalize (combine (parts a) (parts b)). intros l.
    induction l as [|[x y] l IHl]; intros Hl; simpl; [congruence|].
    destruct (Hl x y (list_elem_of_here _ _)) as [Hx Hy].
    destruct (solve_at rigid n s x y false) as [s1|] eqn:E1; [|done]. simpl.
    apply IH in E1 as ->; try done. apply IHl. intros. apply Hl. by right.
Qed.

Lemma satisfies_bind θ s s' x t :
  unbound s x -> slots s' = <[x := Some t]> (slots s) ->
  satisfies θ s' <-> satisfies θ s /\ θ x = inst θ t.
Proof.
  intros Hx Hs. pose proof (lookup_lt_Some _ _ _ Hx) as Hlt. unfold satisfies, bound, unbound in *.
  rewrite Hs. split.
  - intros Hθ. split.
    + intros y u Hy. apply Hθ. rewrite list_lookup_insert_ne; [done|congruence].
    + apply Hθ. by rewrite list_lookup_insert_eq.
  - intros [Hθ Hx'] y u. destruct (decide (y = x)) as [->|Hne].
    + rewrite list_lookup_insert_eq by done. by intros [= <-].
    + rewrite list_lookup_insert_ne by done. apply Hθ.
Qed.

(** Every parameter of [t] is in scope. *)
Definition params_rigid (t : Ty) : bool :=
  negb (any_ty (fun x => match x with TParam n => negb (rigid n) | _ => false end) t).

Lemma any_ty_part p t x : x ∈ parts t -> any_ty p x = true -> any_ty p t = true.
Proof.
  intros Hx Hy. rewrite any_ty_unfold, orb_true_iff. right. apply existsb_exists.
  exists x. split; [by apply list_elem_of_In|done].
Qed.

Lemma params_rigid_part t x : x ∈ parts t -> params_rigid t = true -> params_rigid x = true.
Proof.
  unfold params_rigid. rewrite !negb_true_iff. intros Hx Ht.
  destruct (any_ty _ x) eqn:E; [|done]. by rewrite (any_ty_part _ _ _ Hx E) in Ht.
Qed.

Lemma forallb_true {A} (f : A -> bool) l : (forall x, x ∈ l -> f x = true) -> forallb f l = true.
Proof. intros Hl. apply forallb_forall. intros x Hx%list_elem_of_In. auto. Qed.

Lemma rigid_no_leak t : params_rigid t = true -> has_leak rigid t = false.
Proof.
  unfold has_leak. rewrite negb_false_iff. induction t as [t IH] using parts_ind. intros Hr.
  assert (Hp : forall x, x ∈ parts t ->
    ty_all_holes (fun h => match h with TParam n => rigid n | _ => true end) x = true)
    by eauto using params_rigid_part.
  destruct t; simpl in Hp |- *; try done; rewrite ?andb_true_iff;
    try (split; apply Hp; in_list); try (apply Hp; in_list); try (by apply forallb_true).
  - split; [apply forallb_true; intros|]; apply Hp; rewrite elem_of_app; [by left|right].
    by apply list_elem_of_singleton.
  - unfold params_rigid in Hr. simpl in Hr. destruct (rigid name); done.
Qed.

Lemma parts_inst θ t : is_var t = false -> parts (inst θ t) = List.map (inst θ) (parts t).
Proof.
  intros Hv. rewrite inst_unfold by done. apply parts_rebuild.
  by rewrite parts_shape, length_map.
Qed.

Lemma shape_inst θ t : is_var t = false -> shape (inst θ t) = shape t.
Proof.
  intros Hv. rewrite inst_unfold by done.
  rewrite shape_rebuild by (by rewrite parts_shape, length_map).
  destruct t; simpl; rewrite ?map_map, ?length_map; done.
Qed.

Lemma params_rigid_inst θ t : params_rigid (inst θ t) = true -> params_rigid t = true.
Proof.
  induction t as [t IH] using parts_ind. intros Hr. destruct (is_var t) eqn:Hv.
  { by apply is_var_inv in Hv as [x ->]. }
  unfold params_rigid. rewrite any_ty_unfold, negb_true_iff. apply orb_false_iff. split.
  - unfold params_rigid in Hr. destruct t; try done. simpl in Hr |- *.
    by rewrite orb_false_r, negb_true_iff in Hr.
  - destruct (existsb _ _) eqn:E; [|done]. apply existsb_exists in E as (x & Hx%list_elem_of_In & Hy).
    assert (params_rigid x = true) as Hc.
    { apply IH; [done|]. eapply params_rigid_part; [|exact Hr]. rewrite parts_inst by done.
      apply list_elem_of_In, in_map, list_elem_of_In. done. }
    unfold params_rigid in Hc. by rewrite Hy in Hc.
Qed.

Lemma inst_part_elem θ t x : is_var t = false -> x ∈ parts t -> inst θ x ∈ parts (inst θ t).
Proof.
  intros Hv Hx. rewrite parts_inst by done. apply list_elem_of_In, in_map, list_elem_of_In. done.
Qed.

Lemma occurs_size θ t x : mentions_var t x = true -> ty_size (θ x) <= ty_size (inst θ t).
Proof.
  induction t as [t IH] using parts_ind. intros Hm. destruct (is_var t) eqn:Hv.
  - apply is_var_inv in Hv as [y ->]. apply mentions_self in Hm as ->. done.
  - apply mentions_inv in Hm as (c & Hc & Hm); [|done]. specialize (IH c Hc Hm).
    pose proof (parts_size _ _ (inst_part_elem θ t c Hv Hc)). lia.
Qed.

(** A type that properly holds a variable is never equal to it. *)
Lemma occurs_neq θ t x : is_var t = false -> mentions_var t x = true -> θ x <> inst θ t.
Proof.
  intros Hv Hm E. apply mentions_inv in Hm as (c & Hc & Hm); [|done].
  pose proof (occurs_size θ c x Hm). pose proof (parts_size _ _ (inst_part_elem θ t c Hv Hc)).
  rewrite E in *. lia.
Qed.

(** Two nodes have equal instances exactly when they have one shape and equal parts. *)
Lemma inst_eq_parts θ a b :
  is_var a = false -> is_var b = false ->
  inst θ a = inst θ b <->
  shape a = shape b /\ forall x y, (x, y) ∈ combine (parts a) (parts b) -> inst θ x = inst θ y.
Proof.
  intros Va Vb. split.
  - intros E. split; [by rewrite <- (shape_inst θ a), <- (shape_inst θ b), E|].
    assert (Hp : List.map (inst θ) (parts a) = List.map (inst θ) (parts b))
      by (rewrite <- !parts_inst by done; by rewrite E).
    revert Hp. generalize (parts a), (parts b). induction l as [|x l IH]; intros [|y k]; simpl;
      try done; try (by intros _ ? ? ?%not_elem_of_nil).
    intros [= E1 E2] u v [[= -> ->]|Huv]%elem_of_cons; [done|]. by eapply IH.
  - intros [Hs Hp]. rewrite !inst_unfold by done. rewrite Hs. f_equal.
    assert (Hl : length (parts a) = length (parts b))
      by (by rewrite <- parts_shape, Hs, parts_shape).
    clear Hs. revert Hl Hp. generalize (parts a), (parts b).
    induction l as [|x l IH]; intros [|y k]; simpl; try done. intros [= Hl] Hp. f_equal.
    + apply Hp. left.
    + apply IH; [done|]. intros. apply Hp. by right.
Qed.

Definition no_pending (s : TyVars) : Prop := forall v, present_payload s v = None.

Lemma solve_var_binds s x t top :
  no_pending s -> params_rigid t = true -> is_unknown t && top = false -> mentions_var t x = false ->
  solve_var rigid s x t top = bind s x t.
Proof.
  intros Hn Hr Hu Hm. unfold solve_var. rewrite Hu, Hm, (Hn x), (rigid_no_leak t Hr). by destruct t.
Qed.

(** The arms that bind. *)
Lemma solve_var_exact θ0 s x t top s' :
  store_inv s -> no_pending s -> unbound s x -> all_unbound s t -> is_var t = false ->
  θ0 x = inst θ0 t -> (top = true -> inst θ0 t <> TUnknown) -> params_rigid (inst θ0 t) = true ->
  solve_var rigid s x t top = Some s' ->
  forall θ, satisfies θ s' <-> satisfies θ s /\ θ x = inst θ t.
Proof.
  intros Hi Hn Hx Ht Hv E0 Htop Hr Hs θ.
  assert (Hm : mentions_var t x = false).
  { destruct (mentions_var t x) eqn:E; [|done]. by destruct (occurs_neq θ0 t x). }
  rewrite solve_var_binds in Hs; try done; [|by eapply params_rigid_inst|].
  - destruct (store_bind_ok s x t) as (s1 & E & _ & _ & Hs1); try done.
    simplify_eq. by apply satisfies_bind.
  - destruct (is_unknown t) eqn:Eu; [|done]. destruct t; try done. destruct top; [|done].
    by destruct (Htop eq_refl).
Qed.

Lemma solve_vars_exact s x y s' :
  store_inv s -> unbound s x -> unbound s y -> solve_vars s x y = Some s' ->
  forall θ, satisfies θ s' <-> satisfies θ s /\ θ x = θ y.
Proof.
  intros Hi Hx Hy Hs θ. destruct (solve_vars_ok s x y) as (s1 & E & _ & _ & Hcase); try done.
  rewrite E in Hs. injection Hs as ->. destruct Hcase as [[-> ->]|[_ [E'|E']]]; [tauto|..].
  - by rewrite (satisfies_bind θ s s' x (TVar y)).
  - rewrite (satisfies_bind θ s s' y (TVar x)) by done. simpl. split; intros [? ?]; split; done.
Qed.

Lemma solve_zip_exact θ0 n s l s' :
  (forall s x y s', (x, y) ∈ l -> store_inv s -> no_pending s -> in_range s x -> in_range s y ->
     satisfies θ0 s -> solve_at rigid n s x y false = Some s' ->
     store_inv s' /\ extends s s' /\
     forall θ, satisfies θ s' <-> satisfies θ s /\ inst θ x = inst θ y) ->
  (forall x y, (x, y) ∈ l -> in_range s x /\ in_range s y /\ inst θ0 x = inst θ0 y) ->
  store_inv s -> no_pending s -> satisfies θ0 s ->
  solve_zip (fun s x y => solve_at rigid n s x y false) s l = Some s' ->
  forall θ, satisfies θ s' <->
    satisfies θ s /\ forall x y, (x, y) ∈ l -> inst θ x = inst θ y.
Proof.
  revert s. induction l as [|[x y] l IH]; intros s Hrec Hl Hi Hn H0 Hs θ.
  { simpl in Hs. injection Hs as <-. split; [|tauto]. intros ?. split; [done|]. by intros ? ? ?%not_elem_of_nil. }
  simpl in Hs. destruct (solve_at rigid n s x y false) as [s1|] eqn:E1; [|done]. simpl in Hs.
  destruct (Hl x y (list_elem_of_here _ _)) as (Rx & Ry & E0).
  destruct (Hrec s x y s1) as (Hi1 & He1 & Hex1); try done; [left|].
  assert (Hs1 : satisfies θ0 s1) by (by apply Hex1).
  rewrite (IH s1); try done.
  - rewrite Hex1. setoid_rewrite elem_of_cons. split.
    + intros [[Hθ Exy] Hr]. split; [done|]. intros u v [[= -> ->]|Huv]; [done|by apply Hr].
    + intros [Hθ Hr]. split; [split; [done|apply Hr; by left]|]. intros u v Huv. apply Hr. by right.
  - intros. eapply Hrec; try done. by right.
  - intros u v Huv. destruct (Hl u v (list_elem_of_further _ _ _ Huv)) as (? & ? & ?).
    eauto using extends_range.
  - intros v. rewrite (extends_present s s1); done.
Qed.

Lemma solve_exact θ0 n : forall s a b top s',
  store_inv s -> no_pending s -> in_range s a -> in_range s b ->
  satisfies θ0 s -> inst θ0 a = inst θ0 b ->
  (top = true -> inst θ0 a <> TUnknown) -> params_rigid (inst θ0 a) = true ->
  solve_at rigid n s a b top = Some s' ->
  forall θ, satisfies θ s' <-> satisfies θ s /\ inst θ a = inst θ b.
Proof.
  induction n as [|n IH]; intros s a b top s' Hi Hn Ra Rb H0 E0 Htop Hr Hs; [done|].
  cbn [solve_at] in Hs. pose proof Hi as (Hw & _).
  destruct (zonk n s a) as [za|] eqn:Ea; [|done]. destruct (zonk n s b) as [zb|] eqn:Eb; [|done].
  simpl in Hs.
  pose proof (zonk_unbound _ _ _ _ Hw Ra Ea) as Ua. pose proof (zonk_unbound _ _ _ _ Hw Rb Eb) as Ub.
  assert (Hz : forall θ, satisfies θ s -> inst θ za = inst θ a /\ inst θ zb = inst θ b)
    by (intros; split; by eapply zonk_inst).
  destruct (Hz θ0 H0) as [Za Zb]. rewrite <- Za in Htop, Hr. rewrite <- Za, <- Zb in E0.
  cut (forall θ, satisfies θ s' <-> satisfies θ s /\ inst θ za = inst θ zb).
  { intros Hc θ. rewrite Hc. split; intros [Hθ E]; split; try done;
      destruct (Hz θ Hθ) as [<- <-] || destruct (Hz θ Hθ) as [-> ->]; done. }
  clear Hz Za Zb Ea Eb Ra Rb a b.
  destruct (is_var za) eqn:Va; [apply is_var_inv in Va as [x ->]|].
  { pose proof (Ua x (proj2 (mentions_self x x) eq_refl)) as Hx.
    destruct (is_var zb) eqn:Vb; [apply is_var_inv in Vb as [y ->]|].
    - pose proof (Ub y (proj2 (mentions_self y y) eq_refl)) as Hy.
      exact (solve_vars_exact s x y s' Hi Hx Hy Hs).
    - assert (Hs' : solve_var rigid s x zb top = Some s') by (by destruct zb).
      simpl in E0, Htop, Hr. rewrite E0 in Htop, Hr. eapply solve_var_exact; eauto. }
  destruct (is_var zb) eqn:Vb; [apply is_var_inv in Vb as [x ->]|].
  { pose proof (Ub x (proj2 (mentions_self x x) eq_refl)) as Hx.
    assert (Hs' : solve_var rigid s x za top = Some s') by (by destruct za).
    intros θ. simpl in E0. rewrite (solve_var_exact θ0 s x za top s'); try done.
    simpl. split; intros [? ?]; split; done. }
  destruct (proj1 (inst_eq_parts θ0 za zb Va Vb) E0) as [Hsh Hp0].
  destruct (is_width za) eqn:Wa.
  { destruct za; try discriminate Wa. destruct zb; try discriminate Hsh. injection Hsh as <-.
    simpl in Hs. apply solve_closed in Hs as ->; [tauto| |done]. by destruct (scalar_leaf w). }
  assert (is_width zb = false) as Wb by (destruct zb; try done; by destruct za).
  destruct (solve_node_shape (solve_at rigid n) s za zb top) as [[_ E]|[]]; try done.
  rewrite E in Hs. intros θ. rewrite (inst_eq_parts θ za zb) by done.
  rewrite (solve_zip_exact θ0 n s (combine (parts za) (parts zb)) s'); [tauto|..|exact Hs]; try done.
  - intros s1 x y s1' Hxy Hi1 Hn1 Rx Ry Hs1 Hrun.
    destruct (solve_ends s1 x y false) as (s2 & H2 & Hi2 & He2); try done.
    assert (s1' = s2) as -> by (eapply solves_det; [by exists n|done]).
    split_and!; try done.
    apply (IH s1 x y false s2); try done; [by apply Hp0|].
    eapply params_rigid_part; [|exact Hr]. rewrite parts_inst by done.
    apply list_elem_of_In, in_map, list_elem_of_In. by apply parts_combine in Hxy as [? _].
  - intros x y Hxy. split; [|split; [|by apply Hp0]]; apply parts_combine in Hxy as [Hx Hy];
      apply all_unbound_range; [exact (all_unbound_part s za x Va Ua Hx)|exact (all_unbound_part s zb y Vb Ub Hy)].
Qed.

(** ** Marks and rollback *)

(** The indices of re-read nodes are in range. *)
Definition reads_ok (s : TyVars) : Prop :=
  (forall k i, reads s !! k = Some i -> i < length (pending s)) /\
  (forall k i, carrier_reads s !! k = Some i -> i < length (carriers s)).

(** A speculative walk: what the checker does to the store between a mark and its rollback.  [D] are
    the nodes whose reads it marked as decodes, [C] those whose carriers it deferred. *)
Inductive walk_step (s : TyVars) : TyVars -> Prop :=
| walk_fresh : walk_step s (fresh s).1
| walk_bind x t s' : unbound s x -> bind s x t = Some s' -> walk_step s s'
| walk_bound b : walk_step s (defer_bound s b)
| walk_read node name sig ps sp span d s' vs :
    defer_generic_fn_value s node name sig ps sp span d = Some (s', vs) -> walk_step s s'.

Inductive walk (s : TyVars) : list nat -> list nat -> TyVars -> Prop :=
| walk_refl : walk s [] [] s
| walk_snoc D C s1 s2 : walk s D C s1 -> walk_step s1 s2 -> walk s D C s2
| walk_decode D C s1 node s2 : walk s D C s1 -> mark_decode_read s1 node = Some s2 -> walk s (node :: D) C s2
| walk_carrier D C s1 node span kind s2 v :
    walk s D C s1 -> defer_carrier s1 node span kind = Some (s2, v) -> walk s D (node :: C) s2.

(** The records of [s] after a walk: a read is as it was, or marked as a decode; a carrier is as it
    was, or has another payload. *)
Definition set_kind (c : PendingCarrier) (k : CarrierKind) : PendingCarrier := mkCarrier (c_node c) (c_span c) (c_var c) k.
Definition decode_edits (s : TyVars) (D : list nat) (lp : list Pending) : Prop :=
  length lp = length (pending s) /\
  forall i p', lp !! i = Some p' -> exists p, pending s !! i = Some p /\
    (p' = p \/ (p' = set_decode p /\ exists node, node ∈ D /\ reads s !! node = Some i)).
Definition carrier_edits (s : TyVars) (C : list nat) (lc : list PendingCarrier) : Prop :=
  length lc = length (carriers s) /\
  forall i c', lc !! i = Some c' -> exists c, carriers s !! i = Some c /\
    (c' = c \/ exists node k, c' = set_kind c k /\ node ∈ C /\ carrier_reads s !! node = Some i).

(** [s'] holds what [s] held, with more variables, records and bindings; of the records of [s] the
    reads are now [lp] and the carriers [lc]. *)
Record grown (s s' : TyVars) (lp : list Pending) (lc : list PendingCarrier) : Prop := {
  gr_log : exists ids, log s' = log s ++ ids /\
    (forall x, x ∈ ids -> x < length (slots s) -> unbound s x) /\
    (forall x, x < length (slots s) -> x ∉ ids -> slots s' !! x = slots s !! x) /\
    (forall x, x < length (slots s) -> x ∈ ids -> exists t, bound s' x t);
  gr_slots : length (slots s) <= length (slots s');
  gr_pending : length lp = length (pending s) /\ exists k, pending s' = lp ++ k;
  gr_bounds : exists k, bounds s' = bounds s ++ k;
  gr_carriers : length lc = length (carriers s) /\ exists k, carriers s' = lc ++ k;
  gr_reads : forall k i, reads s' !! k = Some i ->
    reads s !! k = Some i \/ (reads s !! k = None /\ length (pending s) <= i);
  gr_reads_old : forall k i, reads s !! k = Some i -> reads s' !! k = Some i;
  gr_creads : forall k i, carrier_reads s' !! k = Some i ->
    carrier_reads s !! k = Some i \/ (carrier_reads s !! k = None /\ length (carriers s) <= i);
  gr_creads_old : forall k i, carrier_reads s !! k = Some i -> carrier_reads s' !! k = Some i;
}.

Lemma grown_refl s : grown s s (pending s) (carriers s).
Proof.
  split; eauto using app_nil_r; try lia.
  exists []; rewrite app_nil_r; split_and!; try done; by intros x ?%not_elem_of_nil || intros x ? ?%not_elem_of_nil.
Qed.

Lemma lookup_app_lt {A} (l k : list A) i : i < length l -> (l ++ k) !! i = l !! i.
Proof. apply lookup_app_l. Qed.

(** Growing the slots only. *)
Lemma grown_slots s s1 lp lc k :
  grown s s1 lp lc -> grown s (with_slots s1 (slots s1 ++ k) (log s1)) lp lc.
Proof.
  intros [(ids & L & Hu & Hs & Hb) Hlen Hp Hbd Hc Hr Hro Hcr Hcro].
  split; simpl; try done; [|rewrite length_app; lia].
  exists ids. split_and!; try done.
  - intros x Hx Hn. simpl. rewrite lookup_app_lt by lia. by apply Hs.
  - intros x Hx Hn. destruct (Hb x Hx Hn) as [t Ht]. exists t. unfold bound in *. simpl.
    rewrite lookup_app_lt by lia. done.
Qed.

Lemma grown_bind s s1 lp lc x t s2 : grown s s1 lp lc -> unbound s1 x -> bind s1 x t = Some s2 -> grown s s2 lp lc.
Proof.
  intros [(ids & L & Hu & Hs & Hb) Hlen Hp Hbd Hc Hr Hro Hcr Hcro] Hx. unfold bind.
  case_match; [|done]. intros [= <-]. split; simpl; try done; [|by rewrite length_insert].
  exists (ids ++ [x]). split_and!.
  - by rewrite L, app_assoc.
  - intros y [Hy| ->%list_elem_of_singleton]%elem_of_app Hlt; [by apply Hu|].
    destruct (decide (x ∈ ids)) as [Hin|Hout]; [by apply Hu|]. unfold unbound in *. by rewrite <- Hs.
  - intros y Hlt [Hy1 Hy2]%not_elem_of_app. rewrite list_elem_of_singleton in Hy2.
    rewrite list_lookup_insert_ne by done. by apply Hs.
  - intros y Hlt Hin. unfold bound. simpl. destruct (decide (y = x)) as [->|Hne].
    + exists t. rewrite list_lookup_insert_eq; [done|lia].
    + rewrite list_lookup_insert_ne by done. apply elem_of_app in Hin as [Hin|Hin%list_elem_of_singleton]; [|done].
      by apply Hb.
Qed.

Lemma grown_carrier s s1 lp lc node span kind s2 v :
  grown s s1 lp lc -> carrier_reads s1 !! node = None ->
  defer_carrier s1 node span kind = Some (s2, v) -> grown s s2 lp lc.
Proof.
  intros Hg Hn. unfold defer_carrier. rewrite Hn. simpl. intros [= <- <-].
  destruct (grown_slots s s1 lp lc [None] Hg) as [Hl Hlen Hp Hbd [Hll [k Hc]] Hr Hro Hcr Hcro].
  split; simpl in *; try done.
  - split; [done|]. exists (k ++ [mkCarrier node span (length (slots s1)) kind]). by rewrite Hc, app_assoc.
  - intros j i. destruct (node =? 0); [apply Hcr|].
    destruct (decide (j = node)) as [->|Hne]; [|rewrite lookup_insert_ne by done; apply Hcr].
    rewrite lookup_insert_eq. intros [= <-]. right. split; [|rewrite Hc, length_app; lia].
    destruct (carrier_reads s !! node) eqn:E; [|done]. apply Hcro in E. congruence.
  - intros j i Hj. destruct (node =? 0); [by apply Hcro|].
    rewrite lookup_insert_ne; [by apply Hcro|]. intros <-. apply Hcro in Hj. congruence.
Qed.

Lemma fresh_all_slots (ps : list string) : forall s (vs : list (string * nat)), exists k vs',
  fold_left fresh_one ps (s, vs) = (with_slots s (slots s ++ k) (log s), vs').
Proof.
  induction ps as [|p ps IH]; intros s vs; simpl.
  - exists [], vs. rewrite app_nil_r. by destruct s.
  - destruct (IH (with_slots s (slots s ++ [None]) (log s)) (vs ++ [(p, length (slots s))]))
      as (k & vs' & E). exists ([None] ++ k), vs'. unfold fresh_one at 2. simpl. rewrite E. simpl.
    by rewrite <- app_assoc.
Qed.

Lemma grown_read s s1 lp lc node name sig ps sp span d s2 vs :
  grown s s1 lp lc -> defer_generic_fn_value s1 node name sig ps sp span d = Some (s2, vs) -> grown s s2 lp lc.
Proof.
  intros Hg. unfold defer_generic_fn_value.
  destruct (if node =? 0 then None else reads s1 !! node) as [i|] eqn:E.
  { destruct (pending s1 !! i); [|done]. by intros [= <- <-]. }
  unfold fresh_all. destruct (fresh_all_slots ps s1 []) as (k & vs' & ->). intros [= <- <-].
  destruct (grown_slots s s1 lp lc k Hg) as [Hl Hlen [Hll [k' Hp]] Hbd Hc Hr Hro Hcr Hcro].
  split; simpl in *; try done.
  - split; [done|]. eexists. by rewrite Hp, <- app_assoc.
  - intros j i. destruct (node =? 0) eqn:E0; [apply Hr|].
    destruct (decide (j = node)) as [->|Hne]; [|rewrite lookup_insert_ne by done; apply Hr].
    rewrite lookup_insert_eq. intros [= <-]. right. split; [|rewrite Hp, length_app; lia].
    destruct (reads s !! node) eqn:Er; [|done]. apply Hro in Er. congruence.
  - intros j i Hj. destruct (node =? 0) eqn:E0; [by apply Hro|].
    rewrite lookup_insert_ne; [by apply Hro|]. intros <-. apply Hro in Hj. congruence.
Qed.

(** A record of [l ++ k] is replaced: the part [l] changes there, if the record is in it. *)
Lemma insert_prefix {A} (l k : list A) i x : exists k',
  <[i := x]> (l ++ k) = (if i <? length l then <[i := x]> l else l) ++ k'.
Proof.
  destruct (Nat.ltb_spec i (length l)) as [Hi|Hi].
  - exists k. by rewrite insert_app_l.
  - exists (<[i - length l := x]> k). by rewrite insert_app_r_alt.
Qed.

Lemma grown_decode s s1 lp lc D node s2 :
  grown s s1 lp lc -> decode_edits s D lp -> mark_decode_read s1 node = Some s2 ->
  exists lp', grown s s2 lp' lc /\ decode_edits s (node :: D) lp'.
Proof.
  intros Hg [Hlen He] Hm. unfold mark_decode_read in Hm.
  assert (Hmono : decode_edits s (node :: D) lp).
  { split; [done|]. intros i p' Hp. destruct (He i p' Hp) as (p & Hs & Hc). exists p. split; [done|].
    destruct Hc as [|(E & n & Hn & Hr)]; [by left|right]. split; [done|]. exists n. split; [by right|done]. }
  destruct (reads s1 !! node) as [i|] eqn:Er; [|injection Hm as <-; by exists lp].
  destruct (pending s1 !! i) as [p|] eqn:Ep; [|done]. injection Hm as <-.
  destruct Hg as [Hl Hsl [_ [k Hp]] Hb Hc Hr Hro Hcr Hcro]. destruct (insert_prefix lp k i (set_decode p)) as [k' Hk].
  exists (if i <? length lp then <[i := set_decode p]> lp else lp).
  assert (Hlen' : length (if i <? length lp then <[i := set_decode p]> lp else lp) = length (pending s))
    by (destruct (i <? length lp); by rewrite ?length_insert).
  split; [split; simpl; try done; split; [done|]; exists k'; by rewrite Hp|]. split; [done|].
  destruct (Nat.ltb_spec i (length lp)) as [Hi|]; [|apply Hmono]. intros j p' Hj.
  destruct (decide (j = i)) as [->|Hne]; [|rewrite list_lookup_insert_ne in Hj by done; by apply Hmono].
  rewrite list_lookup_insert_eq in Hj by done. injection Hj as <-.
  assert (Hlp : lp !! i = Some p) by (rewrite Hp, lookup_app_l in Ep by done; done).
  destruct (He i p Hlp) as (p0 & Hs & Hcase). exists p0. split; [done|]. right. split.
  - by destruct Hcase as [->|[-> _]].
  - exists node. split; [by left|]. destruct (Hr node i Er) as [|[_ ?]]; [done|lia].
Qed.

Lemma grown_defer s s1 lp lc C node span kind s2 v :
  grown s s1 lp lc -> carrier_edits s C lc -> defer_carrier s1 node span kind = Some (s2, v) ->
  exists lc', grown s s2 lp lc' /\ carrier_edits s (node :: C) lc'.
Proof.
  intros Hg [Hlen He] Hd.
  assert (Hmono : carrier_edits s (node :: C) lc).
  { split; [done|]. intros i c' Hc. destruct (He i c' Hc) as (c & Hs & Hcase). exists c. split; [done|].
    destruct Hcase as [|(n & k & E & Hn & Hr)]; [by left|right]. exists n, k. split; [done|]. split; [by right|done]. }
  destruct (carrier_reads s1 !! node) as [i|] eqn:Er; [|exists lc; split; [by eapply grown_carrier|done]].
  unfold defer_carrier in Hd. rewrite Er in Hd. destruct (carriers s1 !! i) as [c|] eqn:Ec; [|done]. simpl in Hd. injection Hd as <- <-.
  destruct Hg as [Hl Hsl Hp Hb [_ [k Hc]] Hr Hro Hcr Hcro].
  destruct (insert_prefix lc k i (set_kind c kind)) as [k' Hk].
  exists (if i <? length lc then <[i := set_kind c kind]> lc else lc).
  assert (Hlen' : length (if i <? length lc then <[i := set_kind c kind]> lc else lc) = length (carriers s))
    by (destruct (i <? length lc); by rewrite ?length_insert).
  split; [split; simpl; try done; split; [done|]; exists k'; by rewrite Hc|]. split; [done|].
  destruct (Nat.ltb_spec i (length lc)) as [Hi|]; [|apply Hmono]. intros j c' Hj.
  destruct (decide (j = i)) as [->|Hne]; [|rewrite list_lookup_insert_ne in Hj by done; by apply Hmono].
  rewrite list_lookup_insert_eq in Hj by done. injection Hj as <-.
  assert (Hlc : lc !! i = Some c) by (rewrite Hc, lookup_app_l in Ec by done; done).
  destruct (He i c Hlc) as (c0 & Hs & Hcase). exists c0. split; [done|]. right. exists node, kind. split; [|split; [by left|]].
  - by destruct Hcase as [->|(? & ? & -> & _)].
  - destruct (Hcr node i Er) as [|[_ ?]]; [done|lia].
Qed.

Lemma walk_grown s D C s' : walk s D C s' ->
  exists lp lc, grown s s' lp lc /\ decode_edits s D lp /\ carrier_edits s C lc.
Proof.
  induction 1 as [|D C s1 s2 _ IH Hstep|D C s1 node s2 _ IH Hm|D C s1 node span kind s2 v _ IH Hd].
  - exists (pending s), (carriers s). split; [apply grown_refl|]. split; split; eauto.
  - destruct IH as (lp & lc & Hg & He). exists lp, lc. split; [|done]. destruct Hstep.
    + by apply (grown_slots s s1 lp lc [None]).
    + by eapply grown_bind.
    + destruct Hg as [Hl Hlen Hp [k Hbd] Hc Hr Hro Hcr Hcro]. split; simpl; try done.
      exists (k ++ [b]). by rewrite Hbd, app_assoc.
    + by eapply grown_read.
  - destruct IH as (lp & lc & Hg & He & Hc). destruct (grown_decode _ _ _ _ _ _ _ Hg He Hm) as (lp' & ? & ?). by exists lp', lc.
  - destruct IH as (lp & lc & Hg & He & Hc). destruct (grown_defer _ _ _ _ _ _ _ _ _ _ Hg Hc Hd) as (lc' & ? & ?). by exists lp, lc'.
Qed.

Lemma unbind_length limit ids : forall sl, length (unbind limit sl ids) = length sl.
Proof.
  unfold unbind. induction ids as [|i ids IH]; intros sl; simpl; [done|].
  rewrite IH. by destruct (i <? limit); rewrite ?length_insert.
Qed.

Lemma unbind_lookup limit ids x : forall sl,
  x < limit -> x < length sl ->
  unbind limit sl ids !! x = if decide (x ∈ ids) then Some None else sl !! x.
Proof.
  unfold unbind. induction ids as [|i ids IH]; intros sl Hx Hl; simpl; [done|].
  destruct (Nat.ltb_spec i limit) as [Hi|Hi]; rewrite IH by (rewrite ?length_insert; done).
  - destruct (decide (x ∈ ids)) as [Hin|Hout].
    + rewrite decide_True; [done|by right].
    + destruct (decide (x = i)) as [->|Hne].
      * rewrite decide_True by left. by rewrite list_lookup_insert_eq.
      * rewrite decide_False by (rewrite elem_of_cons; tauto). by rewrite list_lookup_insert_ne.
  - destruct (decide (x ∈ ids)) as [Hin|Hout].
    + rewrite decide_True; [done|by right].
    + rewrite decide_False; [done|]. rewrite elem_of_cons. intros [->|?]; [lia|done].
Qed.

Lemma retire_unbind sl sl' ids :
  length sl <= length sl' ->
  (forall x, x ∈ ids -> x < length sl -> sl !! x = Some None) ->
  (forall x, x < length sl -> x ∉ ids -> sl' !! x = sl !! x) ->
  retire (length sl) (unbind (length sl) sl' ids) =
    sl ++ replicate (length sl' - length sl) (Some TUnknown).
Proof.
  intros Hlen Hin Hout. unfold retire. rewrite unbind_length. f_equal.
  apply list_eq_same_length with (n := length sl); [done|rewrite length_take, unbind_length; lia|].
  intros i x y Hi. rewrite lookup_take_lt by done. rewrite unbind_lookup by lia.
  destruct (decide (i ∈ ids)) as [Hii|Hii]; [rewrite (Hin i) by done|rewrite Hout by done]; congruence.
Qed.

Lemma filter_old (old new : gmap nat nat) len :
  (forall k i, old !! k = Some i -> i < len) ->
  (forall k i, new !! k = Some i -> old !! k = Some i \/ (old !! k = None /\ len <= i)) ->
  (forall k i, old !! k = Some i -> new !! k = Some i) ->
  filter (fun ki : nat * nat => ki.2 < len) new = old.
Proof.
  intros Hlt Hnew Hold. apply map_eq. intros k. apply option_eq. intros i.
  rewrite map_lookup_filter_Some. simpl. split.
  - intros [Hk Hi]. destruct (Hnew k i Hk) as [?|[_ ?]]; [done|lia].
  - intros Hk. split; [by apply Hold|by eapply Hlt].
Qed.

Lemma unedited {A} (l l' : list A) (R : nat -> A -> A -> Prop) :
  length l' = length l -> (forall i x', l' !! i = Some x' -> exists x, l !! i = Some x /\ (x' = x \/ R i x x')) ->
  (forall i x x', ~ R i x x') -> l' = l.
Proof.
  intros Hlen He Hno. apply list_eq_same_length with (n := length l); [done|done|]. intros i x y Hi Hx Hy.
  destruct (He i x Hx) as (x0 & H0 & [->|HR]); [congruence|by apply Hno in HR].
Qed.

(** Rolling a grown store back to the mark of the old one gives the old one with the records as they
    are now, and retires the new variables. *)
Lemma rollback_grown s s' lp lc :
  reads_ok s -> grown s s' lp lc ->
  rollback s' (mark s) =
    Some (mkTyVars (slots s ++ replicate (length (slots s') - length (slots s)) (Some TUnknown)) (log s)
            lp (bounds s) (reads s) lc (carrier_reads s)).
Proof.
  intros [Hro Hco] [(ids & L & Hu & Hs & Hb) Hlen [Hlp [kp Hp]] [kb Hbd] [Hlc [kc Hc]] Hr Hro' Hcr Hcro].
  unfold rollback, mark. simpl. rewrite L at 1. rewrite length_app.
  rewrite (proj2 (Nat.leb_le _ _)) by lia. rewrite (proj2 (Nat.leb_le _ _) Hlen). simpl.
  f_equal. f_equal.
  - rewrite L, drop_app_length. by apply retire_unbind.
  - by rewrite L, take_app_length.
  - by rewrite Hp, <- Hlp, take_app_length.
  - by rewrite Hbd, take_app_length.
  - by apply filter_old.
  - by rewrite Hc, <- Hlc, take_app_length.
  - by apply filter_old.
Qed.

Lemma extends_grown s s' : extends s s' -> grown s s' (pending s) (carriers s).
Proof.
  intros (ids & L & Hlen & Hin & Hout & E). injection E as E1 E2 E3 E4 E5.
  split; rewrite ?E1, ?E2, ?E3, ?E4, ?E5; try lia; try (by eauto); try (by split; [done|]; exists []; rewrite app_nil_r);
    try (by exists []; rewrite app_nil_r).
  exists ids. split_and!; try done.
  - intros x Hx _. by apply Hin.
  - intros x _ Hx. by apply Hout.
  - intros x _ Hx. by apply Hin.
Qed.

(** ** The compare *)

Lemma solve_spec s a b :
  store_inv s -> in_range s a -> in_range s b ->
  exists n s', store_inv s' /\ extends s s' /\ forall m, n <= m -> solve rigid m s a b = Some s'.
Proof.
  intros Hi Ha Hb. unfold solve. case_match; [exists 0, s; auto using extends_refl|].
  destruct (solve_ends s a b true Hi Ha Hb) as (s' & [n Hn] & Hi' & He).
  exists n, s'. split_and!; try done. intros m Hm. by eapply solve_at_mono.
Qed.

Lemma join_spec s a b :
  store_inv s -> reads_ok s -> in_range s a -> in_range s b ->
  exists n ok s', (forall m, n <= m -> join_ty rigid m s a b = Some (ok, s')) /\
    store_inv s' /\ (ok = true -> extends s s') /\ (ok = false -> s' = s).
Proof.
  intros Hi Hr Ha Hb. unfold join_ty.
  case_match; [exists 0, (compatible a b), s; auto using extends_refl|].
  destruct (solve_spec s a b Hi Ha Hb) as (n & s' & Hi' & He & Hn).
  destruct (zonk_both s' a b) as (k & za & zb & Za & Zb & _); eauto using extends_range.
  assert (Hrb : rollback s' (mark s) = Some s).
  { rewrite (rollback_grown _ _ _ _ Hr (extends_grown _ _ He)). destruct He as (ids & _ & -> & _).
    rewrite Nat.sub_diag. simpl. rewrite app_nil_r. by destruct s. }
  exists (Nat.max n k), (compatible za zb), (if compatible za zb then s' else s).
  split; [|destruct (compatible za zb); split_and!; done].
  intros m Hm. rewrite Hn by lia. simpl.
  rewrite (zonk_mono k m _ _ _ ltac:(lia) Za), (zonk_mono k m _ _ _ ltac:(lia) Zb). simpl.
  destruct (compatible za zb); [done|]. by rewrite Hrb.
Qed.

(** [pinning_value_ty] ends: each round binds one more variable. *)
Lemma first_present_spec s z v p :
  first_present s z = Some (v, p) -> mentions_var z v = true /\ present_payload s v = Some p.
Proof.
  revert v p. induction z as [z IH] using parts_ind. intros v p. destruct (is_var z) eqn:Hv.
  - apply is_var_inv in Hv as [x ->]. simpl. destruct (present_payload s x) eqn:E; [|done].
    intros [= <- <-]. by rewrite mentions_self.
  - assert (Hpart : forall x, x ∈ parts z -> first_present s x = Some (v, p) ->
      mentions_var z v = true /\ present_payload s v = Some p).
    { intros x Hx Hf. destruct (IH x Hx v p Hf). split; [by eapply mentions_part|done]. }
    assert (Hall : forall l, (forall x, x ∈ l -> x ∈ parts z) ->
      (fix all l := match l with [] => None | x :: l =>
         match first_present s x with Some h => Some h | None => all l end end) l = Some (v, p) ->
      mentions_var z v = true /\ present_payload s v = Some p).
    { induction l as [|x l IHl]; [done|]. intros Hl.
      destruct (first_present s x) as [h|] eqn:E; [intros [= ->]; apply (Hpart x); [apply Hl; left|done]|].
      apply IHl. intros y Hy. apply Hl. by right. }
    destruct z; simpl in Hpart, Hall |- *; try done; try (apply Hpart; in_list); try (by apply Hall).
    + destruct (first_present s z1) eqn:E; [intros [= ->]; apply (Hpart z1); [in_list|done]|].
      apply Hpart. in_list.
    + match goal with |- match ?o with _ => _ end = _ -> _ => destruct o as [h|] eqn:E end.
      * intros [= ->]. apply (Hall params); [|done]. intros. apply elem_of_app. by left.
      * apply Hpart. apply elem_of_app. right. by apply list_elem_of_singleton.
    + destruct (first_present s z1) eqn:E; [intros [= ->]; apply (Hpart z1); [in_list|done]|].
      apply Hpart. in_list.
Qed.

Lemma pinning_ends t : forall s,
  store_inv s -> in_range s t ->
  exists n s' z, store_inv s' /\ extends s s' /\ forall m, n <= m -> pinning_value_ty m s t = Some (s', z).
Proof.
  intros s. remember (free_count s) as u eqn:Eu. revert s Eu.
  induction u as [u IH] using lt_wf_ind. intros s -> Hi Hr. pose proof Hi as (Hw & Ha & Hp).
  destruct (zonk_ends s t Hw Ha Hr) as (n & z & Hz).
  destruct (first_present s z) as [[v p]|] eqn:Ef.
  - destruct (first_present_spec s z v p Ef) as [Hm Hpp].
    pose proof (zonk_unbound _ _ _ _ Hw Hr Hz v Hm) as Hv. apply present_closed in Hpp; [|done].
    assert (Hc : has_var (TOption p) = false) by exact Hpp.
    destruct (store_bind_ok s v (TOption p)) as (s1 & Hb & Hi1 & He1 & Hs1);
      auto using closed_unbound.
    { destruct (mentions_var (TOption p) v) eqn:E; [|done].
      assert (has_var (TOption p) = true) by (apply has_var_spec; eauto). congruence. }
    assert (free_count s1 < free_count s) as Hlt.
    { destruct (extends_count s s1 He1) as [Hle Heq]. apply Nat.le_neq. split; [done|].
      intros E. apply Heq in E. pose proof (lookup_lt_Some _ _ _ Hv) as Hl. unfold unbound in Hv.
      rewrite <- E, Hs1, list_lookup_insert_eq in Hv; done. }
    destruct (IH _ Hlt s1) as (k & s' & z' & Hi' & He' & Hk); eauto using extends_range.
    exists (S (Nat.max n k)), s', z'. split_and!; [done|by eapply extends_trans|].
    intros [|m] Hm'; [lia|]. cbn [pinning_value_ty].
    rewrite (zonk_mono n m _ _ _ ltac:(lia) Hz). simpl. rewrite Ef, Hb. simpl. apply Hk. lia.
  - exists (S n), s, z. split_and!; auto using extends_refl.
    intros [|m] Hm; [lia|]. cbn [pinning_value_ty].
    rewrite (zonk_mono n m _ _ _ ltac:(lia) Hz). simpl. by rewrite Ef.
Qed.

(** ** The stores the checker can be in *)

Definition kind_closed (k : CarrierKind) : Prop :=
  match k with KPresent p => has_var p = false | KError => True end.

Inductive reachable : TyVars -> Prop :=
| reach_new : reachable tyvars_default
| reach_fresh s : reachable s -> reachable (fresh s).1
| reach_join s a b n ok s' :
    reachable s -> in_range s a -> in_range s b ->
    join_ty rigid n s a b = Some (ok, s') -> reachable s'
| reach_carrier s node span kind s' v :
    reachable s -> kind_closed kind -> defer_carrier s node span kind = Some (s', v) -> reachable s'
| reach_bound s b : reachable s -> reachable (defer_bound s b)
| reach_read s node name sig ps sp span d s' vs :
    reachable s -> defer_generic_fn_value s node name sig ps sp span d = Some (s', vs) -> reachable s'
| reach_pin s n t s' z :
    reachable s -> in_range s t -> pinning_value_ty n s t = Some (s', z) -> reachable s'
| reach_rollback s m s' : reachable s -> rollback s m = Some s' -> reachable s'.

(** New slots, and new records beside them, keep the invariant. *)
Lemma store_inv_grow s s' k :
  store_inv s -> slots s' = slots s ++ replicate k None -> payloads_closed s' -> store_inv s'.
Proof.
  intros (Hw & [rank Hrank] & _) Hs Hp.
  assert (Hb : forall x t, bound s' x t -> bound s x t).
  { intros x t. unfold bound. rewrite Hs. intros Hx. apply lookup_app_Some in Hx as [Hx|[_ Hx]]; [done|].
    apply lookup_replicate in Hx as [Hx _]. done. }
  split_and!; [|exists rank; eauto|done].
  intros x t Hx y Hy. rewrite Hs, length_app. pose proof (Hw x t (Hb x t Hx) y Hy). lia.
Qed.

Lemma join_mono n m s a b r : n <= m -> join_ty rigid n s a b = Some r -> join_ty rigid m s a b = Some r.
Proof.
  intros Hm. unfold join_ty, solve. case_match; [done|].
  destruct (solve_at rigid n s a b true) as [s1|] eqn:E; [|done].
  rewrite (solve_at_mono _ _ _ _ _ _ _ Hm E). simpl.
  destruct (zonk n s1 a) as [za|] eqn:Ea; [|done]. rewrite (zonk_mono _ _ _ _ _ Hm Ea). simpl.
  destruct (zonk n s1 b) as [zb|] eqn:Eb; [|done]. by rewrite (zonk_mono _ _ _ _ _ Hm Eb).
Qed.

Lemma pinning_mono n m s t r :
  n <= m -> pinning_value_ty n s t = Some r -> pinning_value_ty m s t = Some r.
Proof.
  revert m s. induction n as [|n IH]; intros [|m] s Hm; try done; [lia|]. cbn [pinning_value_ty].
  destruct (zonk n s t) as [z|] eqn:Ez; [|done]. rewrite (zonk_mono n m _ _ _ ltac:(lia) Ez). simpl.
  destruct (first_present s z) as [[v p]|]; [|done]. destruct (bind s v (TOption p)); [|done]. simpl.
  apply IH. lia.
Qed.

Lemma extends_reads s s' : extends s s' -> reads_ok s -> reads_ok s'.
Proof.
  intros (ids & _ & _ & _ & _ & E) Hr. injection E as E1 E2 E3 E4 E5.
  unfold reads_ok. by rewrite E1, E3, E4, E5.
Qed.

Lemma carrier_inv s node span kind s' v :
  store_inv s -> reads_ok s -> kind_closed kind -> defer_carrier s node span kind = Some (s', v) ->
  store_inv s' /\ reads_ok s'.
Proof.
  intros Hi [Hr Hc] Hk. pose proof Hi as (_ & _ & Hp). unfold defer_carrier.
  destruct (carrier_reads s !! node) as [i|] eqn:En.
  - destruct (carriers s !! i) as [c|] eqn:Ec; [|done]. simpl. intros [= <- <-]. split.
    + apply (store_inv_grow s _ 0); [done|by simpl; rewrite app_nil_r|]. intros c' p. simpl.
      intros [j Hj]%list_elem_of_lookup_1 Hck. apply list_lookup_insert_Some in Hj as [(-> & <- & _)|[_ Hj]].
      * simpl in Hck. by subst.
      * eapply Hp; [by eapply list_elem_of_lookup_2|done].
    + split; [done|]. simpl. rewrite length_insert. done.
  - simpl. intros [= <- <-]. split.
    + apply (store_inv_grow s _ 1); [done|done|]. intros c' p. simpl.
      intros [Hin| ->%list_elem_of_singleton]%elem_of_app Hck; [by eapply Hp|]. simpl in Hck. by subst.
    + split; [done|]. simpl. rewrite length_app. simpl. intros j i'. destruct (node =? 0).
      * intros Hj%Hc. lia.
      * rewrite lookup_insert_Some. intros [[_ <-]|[_ Hj%Hc]]; lia.
Qed.

Lemma fresh_all_spec (ps : list string) : forall s (vs : list (string * nat)), exists vs',
  fold_left fresh_one ps (s, vs) = (with_slots s (slots s ++ replicate (length ps) None) (log s), vs').
Proof.
  induction ps as [|p ps IH]; intros s vs; simpl.
  - exists vs. rewrite app_nil_r. by destruct s.
  - destruct (IH (with_slots s (slots s ++ [None]) (log s)) (vs ++ [(p, length (slots s))]))
      as (vs' & E). exists vs'. unfold fresh_one at 2. simpl. rewrite E. simpl.
    by rewrite <- app_assoc.
Qed.

Lemma read_inv s node name sig ps sp span d s' vs :
  store_inv s -> reads_ok s -> defer_generic_fn_value s node name sig ps sp span d = Some (s', vs) ->
  store_inv s' /\ reads_ok s'.
Proof.
  intros Hi [Hr Hc]. pose proof Hi as (_ & _ & Hp). unfold defer_generic_fn_value.
  destruct (if node =? 0 then None else reads s !! node) as [i|] eqn:E.
  { destruct (pending s !! i); [|done]. by intros [= <- <-]. }
  unfold fresh_all. destruct (fresh_all_spec ps s []) as (vs' & ->). intros [= <- <-]. split.
  - by apply (store_inv_grow s _ (length ps)).
  - split; [|done]. simpl. rewrite length_app. simpl. intros j i. destruct (node =? 0).
    + intros Hj%Hr. lia.
    + rewrite lookup_insert_Some. intros [[_ <-]|[_ Hj%Hr]]; lia.
Qed.

Lemma rollback_inv s m s' :
  store_inv s -> reads_ok s -> rollback s m = Some s' -> store_inv s' /\ reads_ok s'.
Proof.
  intros (Hw & [rank Hrank] & Hp) [Hr Hc]. unfold rollback.
  destruct (Nat.leb_spec (m_log m) (length (log s))), (Nat.leb_spec (m_slots m) (length (slots s)));
    try done. simpl. intros [= <-].
  set (sl := unbind _ _ _). assert (Hl : length sl = length (slots s)) by apply unbind_length.
  set (s' := mkTyVars _ _ _ _ _ _ _).
  assert (Hlen : length (slots s') = length (slots s)).
  { simpl. unfold retire. rewrite length_app, length_take, length_replicate. lia. }
  assert (Hb : forall x t, bound s' x t -> bound s x t \/ t = TUnknown).
  { intros x t. unfold bound. simpl. unfold retire. intros Hx.
    apply lookup_app_Some in Hx as [Hx|[_ [Hx _]%lookup_replicate]]; [left|right; congruence].
    apply lookup_take_Some in Hx as [Hx Hlt]. unfold sl in Hx. rewrite unbind_lookup in Hx by lia.
    by destruct (decide _). }
  split; [split_and!|split].
  - intros x t [Hx| ->]%Hb y Hy; [rewrite Hlen; by eapply Hw|done].
  - exists rank. intros x t y [Hx| ->]%Hb Hy; [by eapply Hrank|done].
  - intros c p. simpl. intros Hin. apply Hp.
    apply list_elem_of_lookup_1 in Hin as [j Hj]. apply lookup_take_Some in Hj as [Hj _].
    by eapply list_elem_of_lookup_2.
  - intros k i. simpl. rewrite map_lookup_filter_Some, length_take. simpl. intros [Hk%Hr Hi]. lia.
  - intros k i. simpl. rewrite map_lookup_filter_Some, length_take. simpl. intros [Hk%Hc Hi]. lia.
Qed.

Lemma tyvars_reachable_inv s : reachable s -> store_inv s /\ reads_ok s.
Proof.
  induction 1 as [|s _ [Hi Hr]|s a b n ok s' _ [Hi Hr] Ha Hb Hj|s node span kind s' v _ [Hi Hr] Hk Hd
    |s b _ [Hi Hr]|s node name sig ps sp span d s' vs _ [Hi Hr] Hd|s n t s' z _ [Hi Hr] Ht Hp
    |s m s' _ [Hi Hr] Hm].
  - assert (Hb : forall x t, ~ bound tyvars_default x t) by (by intros x t; unfold bound; simpl).
    split; [split_and!|split].
    + intros x t Hx. by destruct (Hb x t).
    + exists (fun _ => 0). intros x t y Hx. by destruct (Hb x t).
    + by intros c p ?%not_elem_of_nil.
    + done.
    + done.
  - split; [|done]. apply (store_inv_grow s _ 1); try done. apply Hi.
  - destruct (join_spec s a b) as (k & ok' & s1 & Hk & Hi1 & Ht & Hf); try done.
    apply (join_mono n (Nat.max n k)) in Hj; [|lia]. rewrite Hk in Hj by lia. injection Hj as -> ->.
    split; [done|]. destruct ok; [apply (extends_reads s); auto|by rewrite Hf].
  - by eapply carrier_inv.
  - by split.
  - by eapply read_inv.
  - destruct (pinning_ends t s) as (k & s1 & z1 & Hi1 & He & Hk); try done.
    apply (pinning_mono n (Nat.max n k)) in Hp; [|lia]. rewrite Hk in Hp by lia. injection Hp as -> ->.
    split; [done|]. by eapply extends_reads.
  - by eapply rollback_inv.
Qed.

(** ** The solution a store stands for *)

Lemma map_var_compose g t z θ :
  map_ty (on_var g) t = Some z ->
  (forall y r, mentions_var t y = true -> g y = Some r -> inst TVar r = θ y) ->
  inst TVar z = inst θ t.
Proof.
  revert z. induction t as [t IH] using parts_ind. intros z Hz Hg. destruct (is_var t) eqn:Hv.
  - apply is_var_inv in Hv as [x ->]. rewrite map_var_var in Hz. apply Hg; [|done].
    by apply mentions_self.
  - apply map_var_parts_inv in Hz as (cs & -> & Hcs); [|done].
    pose proof (list.Forall2_length _ _ _ Hcs) as Hl.
    rewrite (inst_unfold θ t), (inst_unfold TVar (rebuild t cs)) by auto using is_var_rebuild.
    rewrite shape_rebuild, parts_rebuild by done. f_equal. symmetry. apply Forall2_map_eq.
    eapply Forall2_elem_impl; [exact Hcs|]. intros x c Hx _ Hxc. symmetry.
    apply (IH x Hx c Hxc). intros y r Hy. apply Hg. by eapply mentions_part.
Qed.

(** The substitution [zonk] computes, as an assignment. *)
Definition zonk_var (n : nat) (s : TyVars) (y : nat) : Ty :=
  match zonk n s (TVar y) with Some z => inst TVar z | None => TVar y end.

Lemma zonk_var_inst n s t z :
  in_range s t -> zonk n s t = Some z -> inst TVar z = inst (zonk_var n s) t.
Proof.
  destruct n as [|n]; [done|]. intros Hr. rewrite zonk_S by done. intros Hz.
  eapply map_var_compose; [exact Hz|]. intros y r Hy Hg. simpl in Hg. unfold zonk_var.
  rewrite zonk_S by (intros w ->%mentions_self; by apply Hr).
  rewrite map_var_var. simpl. by rewrite Hg.
Qed.

Lemma zonk_var_satisfies s :
  store_wf s -> acyclic s -> exists n, satisfies (zonk_var n s) s /\
    forall t, in_range s t -> is_Some (zonk n s t).
Proof.
  intros Hw Ha. destruct (zonk_uniform s Hw Ha) as [n Hn]. exists (S n). split.
  - intros x t Hb. unfold zonk_var at 1.
    assert (Hx : in_range s (TVar x)) by (intros y <-%mentions_self; by eapply lookup_lt_Some).
    destruct (Hn t (Hw _ _ Hb)) as [z Hz].
    assert (Hzx : zonk (S n) s (TVar x) = Some z).
    { rewrite zonk_S by done. rewrite map_var_var. simpl. unfold binding.
      unfold bound in Hb. by rewrite Hb. }
    rewrite Hzx. apply zonk_var_inst; [by eapply Hw|]. eapply zonk_mono; [|exact Hz]. lia.
  - intros t Ht. destruct (Hn t Ht) as [z Hz]. exists z. eapply zonk_mono; [|exact Hz]. lia.
Qed.

(** Types that every solution of a store makes equal are substituted to one type. *)
Lemma zonk_equal s a b k za zb :
  store_inv s -> in_range s a -> in_range s b ->
  (forall θ, satisfies θ s -> inst θ a = inst θ b) ->
  zonk k s a = Some za -> zonk k s b = Some zb -> inst TVar za = inst TVar zb.
Proof.
  intros (Hw & Ha & _) Ra Rb Heq Za Zb. destruct (zonk_var_satisfies s Hw Ha) as (n & Hs & Hn).
  destruct (Hn a Ra) as [za' Za']. destruct (Hn b Rb) as [zb' Zb'].
  rewrite (zonk_det _ _ _ _ _ _ Za Za'), (zonk_det _ _ _ _ _ _ Zb Zb').
  rewrite (zonk_var_inst n s a za'), (zonk_var_inst n s b zb') by done. by apply Heq.
Qed.

(** ** What the checker gets from its type variables *)

(** C26: Inference with type variables always comes back.  In every store the checker can build, by
    any order of new variables, compares, deferred reads and carriers, pins and rollbacks to any
    mark (payloads of a pending [?x] holding no variable), substitution, unification, the compare and
    the pin of a [?x] end, without a panic, for types over the created variables, and what
    substitution returns holds unbound variables only. *)
Theorem tyvars_total s a b :
  reachable s -> in_range s a -> in_range s b ->
  (exists n z, (forall m, n <= m -> zonk m s a = Some z) /\ all_unbound s z) /\
  (exists n s', forall m, n <= m -> solve rigid m s a b = Some s') /\
  (exists n r, forall m, n <= m -> join_ty rigid m s a b = Some r) /\
  (exists n r, forall m, n <= m -> pinning_value_ty m s a = Some r).
Proof.
  intros [Hi Hr]%tyvars_reachable_inv Ra Rb. pose proof Hi as (Hw & Hac & _). split_and!.
  - destruct (zonk_ends s a Hw Hac Ra) as (n & z & Hz). exists n, z.
    eauto using zonk_mono, zonk_unbound.
  - destruct (solve_spec s a b Hi Ra Rb) as (n & s' & _ & _ & Hn). eauto.
  - destruct (join_spec s a b Hi Hr Ra Rb) as (n & ok & s' & Hn & _). eauto.
  - destruct (pinning_ends a s Hi Ra) as (n & s' & z & _ & _ & Hn). eauto.
Qed.

(** C3: Unification finds the most general solution.  If some assignment [θ0] solves the store and
    makes two types equal (equality of types ignores a function's labels; the common type is not
    [Unknown] and its parameters are in scope, and no [?x] is pending), then [solve] ends in a store
    whose solutions are exactly the solutions of the old store that make the two types equal: it
    binds what is forced and nothing else, and both types are then substituted to the same type. *)
Theorem solve_mgu s a b θ0 :
  reachable s -> no_pending s -> in_range s a -> in_range s b ->
  satisfies θ0 s -> inst θ0 a = inst θ0 b -> inst θ0 a <> TUnknown ->
  params_rigid (inst θ0 a) = true ->
  exists n s', (forall m, n <= m -> solve rigid m s a b = Some s') /\
    (forall θ, satisfies θ s' <-> satisfies θ s /\ inst θ a = inst θ b) /\
    (forall k za zb, zonk k s' a = Some za -> zonk k s' b = Some zb -> inst TVar za = inst TVar zb).
Proof.
  intros [Hi Hr]%tyvars_reachable_inv Hn Ra Rb H0 E0 Hu Hrig.
  destruct (solve_spec s a b Hi Ra Rb) as (n & s' & Hi' & He & Hs). exists n, s'.
  assert (Hiff : forall θ, satisfies θ s' <-> satisfies θ s /\ inst θ a = inst θ b).
  { specialize (Hs n (le_n n)). unfold solve in Hs. case_match eqn:Ec.
    - injection Hs as <-. intros θ. split; [|tauto]. intros Hθ. split; [done|].
      assert (Hc : forall t y, t = a \/ t = b -> mentions_var t y = true -> False).
      { intros t y Ht Hy. apply orb_true_iff in Ec as [Ec|Ec].
        - unfold any in Ec. rewrite negb_involutive, Nat.eqb_eq in Ec.
          destruct Ht as [-> | ->]; [specialize (Ra y Hy)|specialize (Rb y Hy)]; lia.
        - apply negb_true_iff, orb_false_iff in Ec as [Ea Eb].
          assert (has_var t = true) by (apply has_var_spec; eauto). destruct Ht; congruence. }
      rewrite (inst_ext θ θ0 a), (inst_ext θ θ0 b); [done|intros y Hy..].
      + destruct (Hc b y); auto.
      + destruct (Hc a y); auto.
    - exact (solve_exact θ0 n s a b true s' Hi Hn Ra Rb H0 E0 (fun _ => Hu) Hrig Hs). }
  split_and!; [done|done|]. intros k za zb Za Zb.
  apply (zonk_equal s' a b k za zb); eauto using extends_range.
  intros θ Hθ. by apply Hiff in Hθ as [_ ?].
Qed.

(** C25: A failed try leaves no trace but in records edited in place.  Take a walk since a mark: new
    variables, bindings of unbound ones, deferred reads, bounds and carriers, reads marked as decodes
    (a try inside it and the closing of a frame aside).  Rolling back to the mark gives the store of
    the mark back, with the variables created since bound to [Unknown], except that a read older than
    the mark keeps a decode mark that the walk set and a carrier older than the mark keeps the payload
    that a second walk of its node gave it; so if the walk marked and carried only nodes that the
    store did not know, everything is as it was.  And a compare that answers no leaves the store as it
    was. *)
Theorem speculation_undone s D C s' :
  reachable s -> walk s D C s' ->
  (exists lp lc,
     rollback s' (mark s) =
       Some (mkTyVars (slots s ++ replicate (length (slots s') - length (slots s)) (Some TUnknown)) (log s)
               lp (bounds s) (reads s) lc (carrier_reads s)) /\
     decode_edits s D lp /\ carrier_edits s C lc) /\
  ((forall node, node ∈ D -> reads s !! node = None) -> (forall node, node ∈ C -> carrier_reads s !! node = None) ->
   rollback s' (mark s) =
     Some (with_slots s (slots s ++ replicate (length (slots s') - length (slots s)) (Some TUnknown))
             (log s))) /\
  forall n a b s1, in_range s a -> in_range s b -> join_ty rigid n s a b = Some (false, s1) -> s1 = s.
Proof.
  intros [Hi Hr]%tyvars_reachable_inv Hw. destruct (walk_grown _ _ _ _ Hw) as (lp & lc & Hg & Hd & Hc).
  pose proof (rollback_grown _ _ _ _ Hr Hg) as Hb. split; [by exists lp, lc|]. split.
  - intros HD HC. rewrite Hb. unfold with_slots. destruct Hd as [Ld Hd], Hc as [Lc Hc]. do 2 f_equal.
    + eapply unedited; [done|exact Hd|]. intros i x x' (_ & node & Hn & E). by rewrite HD in E.
    + eapply unedited; [done|exact Hc|]. intros i x x' (node & k & _ & Hn & E). by rewrite HC in E.
  - intros n a b s1 Ra Rb Hj. destruct (join_spec s a b Hi Hr Ra Rb) as (k & ok & s2 & Hk & _ & _ & Hf).
    apply (join_mono n (Nat.max n k)) in Hj; [|lia]. rewrite Hk in Hj by lia.
    injection Hj as -> ->. by apply Hf.
Qed.
End store.

(** *** Concrete stores *)

#[local] Instance demo_payloads : TyVarPayloads := {| FnSig := unit; TyParam := unit; Span := unit |}.

(** Two variables, the first bound to [int] by a compare of lists. *)
Definition demo_vars : TyVars :=
  Eval vm_compute in (fresh (fresh tyvars_default).1).1.

Lemma demo_vars_reachable : reachable (fun _ => false) demo_vars.
Proof. exact (reach_fresh _ _ (reach_fresh _ _ (reach_new _))). Qed.

Definition demo_fn : Ty := TFunc [TVar 0] (TVar 1) no_labels NoVar.
Definition demo_int : Ty := TFunc [TInt] (TList TStr) no_labels NoVar.

Lemma demo_range t : (forall y, mentions_var t y = true -> y < 2) -> in_range demo_vars t.
Proof. done. Qed.

Ltac demo_vars_solve :=
  intros [|[|y]]; [intros; lia | intros; lia | discriminate].

Lemma tyvars_total_witness :
  exists n r, forall m, n <= m -> join_ty (fun _ => false) m demo_vars demo_fn demo_int = Some r.
Proof.
  apply (tyvars_total (fun _ => false) demo_vars demo_fn demo_int demo_vars_reachable);
    apply demo_range; demo_vars_solve.
Defined.

Definition demo_theta (n : nat) : Ty := match n with 0 => TInt | 1 => TList TStr | n => TVar n end.

Lemma solve_mgu_witness :
  exists n s', (forall m, n <= m -> solve (fun _ => false) m demo_vars demo_fn demo_int = Some s') /\
    (forall θ, satisfies θ s' <-> satisfies θ demo_vars /\ inst θ demo_fn = inst θ demo_int) /\
    (forall k za zb, zonk k s' demo_fn = Some za -> zonk k s' demo_int = Some zb ->
       inst TVar za = inst TVar zb).
Proof.
  apply (solve_mgu (fun _ => false) demo_vars demo_fn demo_int demo_theta demo_vars_reachable).
  - intros v. reflexivity.
  - apply demo_range. demo_vars_solve.
  - apply demo_range. demo_vars_solve.
  - intros [|[|x]] t; discriminate.
  - reflexivity.
  - discriminate.
  - reflexivity.
Defined.

(** A walk that binds, creates a variable and walks the old carrier of node 7 again: its payload stays
    behind. *)
Definition demo_carrier : TyVars :=
  Eval vm_compute in match defer_carrier demo_vars 7 tt KError with Some (s, _) => s | None => demo_vars end.
Lemma demo_carrier_reachable : reachable (fun _ => false) demo_carrier.
Proof. by apply (reach_carrier _ demo_vars 7 tt KError demo_carrier 2 demo_vars_reachable I). Qed.

Definition demo_again : TyVars :=
  Eval vm_compute in match defer_carrier demo_carrier 7 tt (KPresent TInt) with Some (s, _) => s | None => demo_carrier end.
Example stale_payload : exists r, rollback demo_again (mark demo_carrier) = Some r /\
  (c_kind <$> carriers r) = [KPresent TInt] /\ (c_kind <$> carriers demo_carrier) = [KError].
Proof. eexists. by split_and!. Qed.

Lemma speculation_undone_witness :
  (exists s', bind demo_vars 0 TInt = Some s' /\
    rollback (fresh s').1 (mark demo_vars) =
      Some (with_slots demo_vars (slots demo_vars ++ [Some TUnknown]) (log demo_vars))) /\
  exists lp lc, rollback demo_again (mark demo_carrier) =
      Some (mkTyVars (slots demo_carrier ++ []) (log demo_carrier) lp (bounds demo_carrier) (reads demo_carrier)
              lc (carrier_reads demo_carrier)) /\ decode_edits demo_carrier [] lp /\ carrier_edits demo_carrier [7] lc.
Proof.
  split.
  - eexists. split; [reflexivity|].
    apply (speculation_undone (fun _ => false) demo_vars [] []); [exact demo_vars_reachable| | |]; [|by intros ? ?%not_elem_of_nil..].
    eapply walk_snoc; [eapply walk_snoc; [apply walk_refl|] | apply walk_fresh].
    eapply (walk_bind _ 0 TInt); reflexivity.
  - apply (speculation_undone (fun _ => false) demo_carrier [] [7] demo_again demo_carrier_reachable).
    apply (walk_carrier demo_carrier [] [] demo_carrier 7 tt (KPresent TInt) demo_again 2); [apply walk_refl|reflexivity].
Defined.

(** *** A pending [?x] whose operand holds a variable

    The default of [?x] is bound over its payload, which no occurs check reads: with a variable in
    the payload the store becomes cyclic. *)
Definition cycle_start : TyVars :=
  Eval vm_compute in
    match defer_carrier (fresh tyvars_default).1 7 tt (KPresent (TVar 0)) with
    | Some (s, _) => s
    | None => tyvars_default
    end.

Lemma knot_diverges s x y n :
  bound s x (TList (TVar y)) -> bound s y (TOption (TVar x)) ->
  zonk n s (TList (TVar y)) = None /\ zonk n s (TOption (TVar x)) = None.
Proof.
  intros Hx Hy. induction n as [|n [IHx IHy]]; [done|].
  assert (any s = true) as Ha by (unfold any; destruct s as [[|]]; [by unfold bound in Hx|done]).
  cbn [zonk]. rewrite Ha. unfold bound in *. simpl. unfold binding. rewrite Hx, Hy. simpl.
  by rewrite IHx, IHy.
Qed.

(** [solve] can tie a knot.  With [?x] pending over an operand of type [Var 0], comparing
    [Var 0] with [List[?x]] and then [?x] with [int] binds [Var 0] to [List[Var 1]] and [Var 1] to
    [Option[Var 0]], and no fuel is enough to substitute either: the occurs check reads the other
    type but not the payload that is bound in its place. *)
Lemma carrier_payload_cycle :
  exists s1 s2,
    solve (fun _ => false) 9 cycle_start (TVar 0) (TList (TVar 1)) = Some s1 /\
    solve (fun _ => false) 9 s1 (TVar 1) TInt = Some s2 /\
    (bound s2 0 (TList (TVar 1)) /\ bound s2 1 (TOption (TVar 0))) /\
    forall n, zonk n s2 (TVar 0) = None /\ zonk n s2 (TVar 1) = None.
Proof.
  do 2 eexists. split; [vm_compute; reflexivity|]. split; [vm_compute; reflexivity|].
  split; [split; reflexivity|]. intros [|n]; [done|].
  match goal with |- zonk _ ?s _ = _ /\ _ =>
    destruct (knot_diverges s 0 1 n eq_refl eq_refl) as [Hx Hy] end.
  cbn [zonk]. simpl. by rewrite Hx, Hy.
Qed.
