(* ===== verification/Assignable.v ===== *)
(** * Assignability: [src/src/checker/assignable.rs]

    [Checker::assignable] (may a value of this type be stored in that slot), [may_be_equal] (may two
    values be compared), the implicit wrap of a value at a carrier slot, the needle rule of [in], and
    the verdict on a pending [?x] / [!e] ([Checker::judge_carrier] of [tyvar.rs]).  The checker's
    store of type variables is passed along as in [TyVar.v]; conformance to a protocol and the [eq]
    bounds ([satisfies_args], [satisfies], [eq_where_bounds_unsatisfied], [eq_bounds_unsatisfied] of
    [satisfies.rs] and [proto.rs]) are arguments that also take and return the store.  Messages are
    left out: a verdict is a [bool]. *)

From Stdlib Require Import Ascii String.
From stdpp Require Import strings gmap.
From S2P Require Import Prelude Ty TyVar.
Set Warnings "-register-all".
Local Open Scope string_scope.
Local Open Scope list_scope.
Local Open Scope nat_scope.

Section assignable.
  Context `{TyVarPayloads}.

(** A check: a verdict and the store it leaves; [None] when it does not come back. *)
Definition check : Type := TyVars -> option (bool * TyVars).

(** [p && q], left to right. *)
Definition andc (p q : check) : check := fun s =>
  r ← p s; if r.1 : bool then q r.2 else Some (false, r.2).
Definition orc (p q : check) : check := fun s =>
  r ← p s; if r.1 : bool then Some (true, r.2) else q r.2.
Definition pure (b : bool) : check := fun s => Some (b, s).

(** [a.iter().zip(b).all(f)]. *)
Fixpoint all_c (f : Ty -> Ty -> check) (l : list (Ty * Ty)) : check :=
  match l with [] => pure true | (x, y) :: l => andc (f x y) (all_c f l) end.

(** The checker's other judgements. *)
Record Judgements := mkJudgements {
  rigid_param : string -> bool;
  satisfies_args : Ty -> string -> list Ty -> check;
  eq_where_bounds_met : Ty -> check;
  eq_bounds_met : Ty -> check;
  hashable : Ty -> check;
}.

  Variable J : Judgements.

(** [Checker::assignable_zonked]; [rec] is [assignable]. *)
Definition assignable_zonked (rec : Ty -> Ty -> check) (expected actual : Ty) : check :=
  match expected, actual with
  | TUnknown, _ | _, TUnknown => pure true
  | TWidth _, _ => rec (scalar expected) actual
  | _, TWidth _ => rec expected (scalar actual)
  | TProtocol p pargs, a => andc (satisfies_args J a p pargs) (eq_where_bounds_met J a)
  | TOption e, TOption a => rec e a
  | TList e, TList a | TSet e, TSet a => pure (compatible e a)
  | TResult et ee, TResult at_ ae => andc (rec et at_) (rec ee ae)
  | TMap ek ev, TMap ak av => pure (compatible ek ak && compatible ev av)
  | TStruct n ea, TStruct m aa | TEnum n ea, TEnum m aa =>
      pure (String.eqb n m && (length ea =? length aa) && zip_all compatible ea aa)
  | TTuple e, TTuple a => andc (pure (length e =? length a)) (all_c rec (combine e a))
  | TFunc p1 r1 l1 v1, TFunc p2 r2 l2 v2 =>
      andc (pure ((length p1 =? length p2) && bool_decide (v1 = v2) && kw_fits l1 l2 &&
                  (min_or l2 (length p2) <=? min_or l1 (length p1)) &&
                  zip_all param_invariant p1 p2))
           (rec r1 r2)
  | _, _ => pure (compatible expected actual)
  end.

(** [Checker::assignable]. *)
Fixpoint assignable (fuel : nat) (expected actual : Ty) : check := fun s =>
  match fuel with
  | O => None
  | S n =>
      if negb (any s) || negb (has_var expected || has_var actual)
      then assignable_zonked (assignable n) expected actual s
      else
        let m := mark s in
        s1 ← solve (rigid_param J) n s expected actual;
        e ← zonk n s1 expected;
        a ← zonk n s1 actual;
        r ← assignable_zonked (assignable n) e a s1;
        if r.1 : bool then Some r else s2 ← rollback r.2 m; Some (false, s2)
  end.

(** The erasure of a comparison with a protocol: every free parameter becomes [Unknown]. *)
Definition erase_params (ns : list string) : gmap string Ty :=
  list_to_map (List.map (fun n => (n, TUnknown)) ns).

(** The protocol arm of [may_be_equal]. *)
Definition proto_equal (p : string) (pargs : list Ty) (a : Ty) : check :=
  let ns := fold_left (fun acc t => ty_collect_params t acc) pargs (ty_collect_params a []) in
  match ns with
  | [] => satisfies_args J a p pargs
  | _ =>
      let map := erase_params ns in
      satisfies_args J (subst map a) p (List.map (subst map) pargs)
  end.

(** [Checker::may_be_equal]. *)
Fixpoint may_be_equal (fuel : nat) (l r : Ty) : check :=
  match fuel with
  | O => fun _ => None
  | S n =>
    match l, r with
    | TUnknown, _ | _, TUnknown => pure true
    | TParam _, _ | _, TParam _ => pure true
    | TProtocol _ _, TProtocol _ _ => pure true
    | TProtocol p pargs, a | a, TProtocol p pargs => proto_equal p pargs a
    | TInt, TFloat | TFloat, TInt | TBytes, TByteArray | TByteArray, TBytes => pure true
    | TList a, TList b | TSet a, TSet b | TOption a, TOption b | TChannel a, TChannel b
    | TShared a, TShared b | TRwShared a, TRwShared b | TAtomic a, TAtomic b => may_be_equal n a b
    | TMap ak av, TMap bk bv => andc (may_be_equal n ak bk) (may_be_equal n av bv)
    | TResult at_ ae, TResult bt be => andc (may_be_equal n at_ bt) (may_be_equal n ae be)
    | TTuple a, TTuple b =>
        andc (pure (length a =? length b)) (all_c (may_be_equal n) (combine a b))
    | TStruct m a, TStruct k b | TEnum m a, TEnum k b =>
        andc (pure (String.eqb m k && (length a =? length b))) (all_c (may_be_equal n) (combine a b))
    | TFunc p1 r1 _ _, TFunc p2 r2 _ _ =>
        andc (andc (pure (length p1 =? length p2)) (all_c (may_be_equal n) (combine p1 p2)))
             (may_be_equal n r1 r2)
    | _, _ => fun s => join_ty (rigid_param J) n s l r
    end
  end.

(** [Checker::builtin_contains_verdict]: [None] for a type that is not a builtin container. *)
Definition needle_fits (fuel : nat) (elem item : Ty) : check :=
  orc (fun s => join_ty (rigid_param J) fuel s elem item)
      (orc (may_be_equal fuel item elem) (assignable fuel elem item)).

Definition builtin_contains_verdict (fuel : nat) (ty item : Ty) : option check :=
  match ty with
  | TList e => Some (andc (needle_fits fuel e item) (eq_bounds_met J e))
  | TSet e => Some (andc (needle_fits fuel e item) (hashable J item))
  | TMap k _ => Some (andc (needle_fits fuel k item) (hashable J item))
  | TStr => Some (pure (match item with TStr | TUnknown => true | _ => false end))
  | TBytes | TByteArray =>
      Some (pure (match item with TInt | TBytes | TByteArray | TUnknown => true | _ => false end))
  | _ => None
  end.

(** [Checker::wrap_mode]: the wrap a plain value gets at a carrier slot. *)
Definition wrap_mode (fuel : nat) (ret ty : Ty) (s : TyVars) : option (option Wrap * TyVars) :=
  r ← assignable fuel ret ty s;
  if r.1 : bool then Some (None, r.2)
  else match ty with
  | TOption _ | TResult _ _ => Some (None, r.2)
  | _ =>
      if negb (ty_fully_concrete ret) then Some (None, r.2)
      else match carrier_parts ret with
      | Some (w, payload, _) =>
          r ← assignable fuel payload ty r.2; Some (if r.1 : bool then Some w else None, r.2)
      | None => Some (None, r.2)
      end
  end.

(** [Checker::ret_coerce_bare]: a bare [return] at a [Result[nil, E]] sink. *)
Definition ret_coerce_bare (ret : Ty) : bool :=
  match ret with TResult TNil _ => ty_fully_concrete ret | _ => false end.

(** What the verdict on a pending carrier records: the wrap of its node, an error, or nothing. *)
Inductive CarrierVerdict := Wraps (w : Wrap) | Mismatch (payload found : Ty) | NeedsType | Judged.

(** [Checker::judge_carrier]. *)
Definition judge_carrier (fuel : nat) (c : PendingCarrier) (s : TyVars) :
    option (CarrierVerdict * TyVars) :=
  z ← zonk fuel s (TVar (c_var c));
  match c_kind c with
  | KPresent t =>
      let mismatch s := Some (Mismatch (slot_payload z) t, s) in
      match z with
      | TVar v => s ← bind s v (TOption t); Some (Wraps WrapSome, s)
      | TOption p => r ← assignable fuel p t s;
          if r.1 : bool then Some (Wraps WrapSome, r.2) else mismatch r.2
      | TResult p _ => r ← assignable fuel p t s;
          if r.1 : bool then Some (Wraps WrapOk, r.2) else mismatch r.2
      | TUnknown => Some (Wraps WrapSome, s)
      | _ => mismatch s
      end
  | KError =>
      match z with
      | TVar v => s ← bind s v TUnknown; Some (NeedsType, s)
      | _ => Some (Judged, s)
      end
  end.
End assignable.

(** ** Types without variables: a relation on types

    On types that hold no variable the checks touch no binding.  [assigns] is the relation they
    decide, given what conformance ([conforms]) and the [eq] bounds ([eq_met]) answer there. *)
Section closed.
  Context `{TyVarPayloads}.
  Variable conforms : Ty -> string -> list Ty -> bool.
  Variable eq_met : Ty -> bool.

Definition assigns_body (assigns : Ty -> Ty -> bool) (e a : Ty) : bool :=
  match e, a with
  | TUnknown, _ | _, TUnknown => true
  | TWidth _, _ => assigns (scalar e) a
  | _, TWidth _ => assigns e (scalar a)
  | TProtocol p pargs, a => conforms a p pargs && eq_met a
  | TOption e, TOption a => assigns e a
  | TResult et ee, TResult at_ ae => assigns et at_ && assigns ee ae
  | TTuple e, TTuple a => (length e =? length a) && zip_all assigns e a
  | TFunc p1 r1 l1 v1, TFunc p2 r2 l2 v2 =>
      (length p1 =? length p2) && bool_decide (v1 = v2) && kw_fits l1 l2 &&
      (min_or l2 (length p2) <=? min_or l1 (length p1)) && zip_all param_invariant p1 p2 &&
      assigns r1 r2
  | _, _ => compatible e a
  end.

Fixpoint assigns_fuel (n : nat) (e a : Ty) : bool :=
  match n with O => false | S n => assigns_body (assigns_fuel n) e a end.
Definition assigns (e a : Ty) : bool := assigns_fuel (ty_size e + ty_size a) e a.

Lemma assigns_body_ext f g e a :
  (forall x y, ty_size x + ty_size y < ty_size e + ty_size a -> f x y = g x y) ->
  assigns_body f e a = assigns_body g e a.
Proof.
  intros Hfg. destruct e, a; simpl; try done;
    repeat match goal with
    | |- _ && _ = _ && _ => apply andb_cong
    | |- zip_all f _ _ = _ => apply zip_all_ext; intros
    | |- f _ _ = g _ _ => apply Hfg
    end; try done; try destruct w; try destruct w0; ty_sizes.
Qed.

Lemma assigns_fuel_enough n e a :
  ty_size e + ty_size a <= n -> assigns_fuel n e a = assigns e a.
Proof.
  unfold assigns. revert e a. induction n as [n IH] using lt_wf_ind. intros e a Hn.
  pose proof (ty_size_pos e). destruct n as [|n]; [lia|].
  destruct (ty_size e + ty_size a) as [|m] eqn:Em; [lia|]. simpl.
  apply assigns_body_ext. intros x y Hxy. rewrite (IH n), (IH m) by lia. done.
Qed.

Lemma assigns_unfold e a : assigns e a = assigns_body assigns e a.
Proof.
  unfold assigns at 1. pose proof (ty_size_pos e).
  destruct (ty_size e + ty_size a) as [|n] eqn:E; [lia|]. simpl.
  apply assigns_body_ext. intros x y Hxy. apply assigns_fuel_enough. lia.
Qed.

(** ** The checks decide the relation *)

(** The other judgements, on types without variables, answer by [conforms] and [eq_met] and bind
    nothing. *)
Definition closed_answers (J : Judgements) : Prop :=
  (forall a p args s, has_var a = false -> forallb (fun t => negb (has_var t)) args = true ->
     satisfies_args J a p args s = Some (conforms a p args, s)) /\
  (forall a s, has_var a = false -> eq_where_bounds_met J a s = Some (eq_met a, s)).

Lemma all_c_zip (f : Ty -> Ty -> check) g l s :
  (forall x y, (x, y) ∈ l -> f x y s = Some (g x y, s)) ->
  all_c f l s = Some (forallb (fun xy => g xy.1 xy.2) l, s).
Proof.
  induction l as [|[x y] l IH]; intros Hl; simpl; [done|]. unfold andc.
  rewrite Hl by left. simpl. destruct (g x y); [|done]. apply IH. intros. apply Hl. by right.
Qed.

Lemma closed_forall t : has_var t = false -> forallb (fun x => negb (has_var x)) (parts t) = true.
Proof.
  intros Ht. apply forallb_true. intros x Hx. by rewrite (closed_part t x Ht Hx).
Qed.

Lemma assignable_closed J n : closed_answers J -> forall e a s,
  has_var e = false -> has_var a = false -> ty_size e + ty_size a <= n ->
  assignable J n e a s = Some (assigns e a, s).
Proof.
  intros [Hsat Heq]. induction n as [|n IH]; intros e a s He Ha Hn.
  { pose proof (ty_size_pos e). lia. }
  cbn [assignable]. rewrite He, Ha, orb_true_r. rewrite assigns_unfold.
  assert (Hrec : forall x y, ty_size x + ty_size y < ty_size e + ty_size a ->
    has_var x = false -> has_var y = false -> assignable J n x y s = Some (assigns x y, s))
    by (intros; apply IH; try done; lia).
  assert (Hp : forall x y, x ∈ parts e -> y ∈ parts a -> assignable J n x y s = Some (assigns x y, s)).
  { intros x y Hx Hy. apply Hrec; [|exact (closed_part e x He Hx)|exact (closed_part a y Ha Hy)].
    apply parts_size in Hx, Hy. lia. }
  pose proof (closed_forall e He) as Hargs. clear IH Hn.
  assert (Hw : forall w, has_var (scalar (TWidth w)) = false) by apply scalar_leaf.
  assert (Hproto : forall p args, e = TProtocol p args ->
    andc (satisfies_args J a p args) (eq_where_bounds_met J a) s = Some (conforms a p args && eq_met a, s)).
  { intros p args ->. unfold andc. rewrite Hsat by done. simpl. destruct (conforms a p args); [|done].
    simpl. by apply Heq. }
  destruct (is_width e) eqn:We.
  { destruct e; try discriminate We. destruct (scalar_leaf w) as [Hv Hs].
    assert (Hr : assignable J n (scalar (TWidth w)) a s = Some (assigns (scalar (TWidth w)) a, s))
      by (apply Hrec; try done; change (ty_size (TWidth w)) with 2; lia).
    destruct a; try exact Hr. done. }
  destruct (is_width a) eqn:Wa.
  { destruct a; try discriminate Wa. destruct (scalar_leaf w) as [Hv Hs].
    assert (Hr : assignable J n e (scalar (TWidth w)) s = Some (assigns e (scalar (TWidth w)), s))
      by (apply Hrec; try done; change (ty_size (TWidth w)) with 2; lia).
    destruct e; try discriminate We; try exact Hr. done. }
  destruct e; try discriminate We; destruct a; try discriminate Wa; try done;
    try (by apply Hproto); try (apply Hp; simpl; in_list).
  all: cbn [assignable_zonked assigns_body].
  all: try (match goal with |- _ = Some (compatible ?x ?y, _) => rewrite (compatible_unfold x y) end;
    reflexivity).
  - unfold andc. simpl. match goal with |- context [if ?c then _ else _] => destruct c end; [|done].
    apply Hp; simpl; rewrite elem_of_app; right; by apply list_elem_of_singleton.
  - unfold andc. simpl. destruct (length ts =? length ts0); [|done]. simpl.
    rewrite (all_c_zip _ assigns); [done|]. intros x y Hxy. apply Hp; simpl.
    + apply list_elem_of_In. apply list_elem_of_In in Hxy. by eapply in_combine_l.
    + apply list_elem_of_In. apply list_elem_of_In in Hxy. by eapply in_combine_r.
  - unfold andc. rewrite Hp by (simpl; in_list). simpl. destruct (assigns e1 a1); [|done].
    apply Hp; simpl; in_list.
Qed.

Lemma kids_parts t x : x ∈ kids t -> x ∈ parts t.
Proof. destruct t; try done. by intros ?%not_elem_of_nil. Qed.

(** ** Interchangeable types *)

(** Two types that compatibility takes for each other. *)
Definition interchangeable (a b : Ty) : Prop := compatible a b = true /\ compatible b a = true.

Lemma interchangeable_refl a : interchangeable a a.
Proof. split; apply compatible_refl. Qed.
Lemma interchangeable_sym a b : interchangeable a b -> interchangeable b a.
Proof. by intros []. Qed.
Lemma interchangeable_scalar a b : interchangeable a b <-> interchangeable (scalar a) (scalar b).
Proof. unfold interchangeable. by rewrite (compatible_scalar a b), (compatible_scalar b a). Qed.
Lemma pairwise_sym l k : pairwise l k -> pairwise k l.
Proof. intros Hp i x y Hx Hy. by destruct (Hp i y x Hy Hx). Qed.


Lemma normal_view t : is_width t = false -> view t.
Proof. intros Hw. replace t with (scalar t) by (by destruct t). apply scalar_view. Qed.
Lemma scalar_normal t : is_width (scalar t) = false.
Proof. destruct t; try done. by destruct w. Qed.

Lemma interchangeable_plain e e' h :
  is_width e' = false -> hole_free e' = true -> interchangeable e e' -> ty_head e = Some h ->
  ty_head e' = Some h /\ length (kids e) = length (kids e') /\ pairwise (kids e) (kids e').
Proof.
  intros Hw Hf [H1 H2] Hh. destruct (normal_view e' Hw) as [|ps r l v|e' h' Hh'].
  - discriminate Hf.
  - destruct (compatible_func_plain ps r l v e h Hh). congruence.
  - apply (compatible_plain_spec _ _ _ _ Hh Hh') in H1 as [(-> & Hl & H1)|[-> ->]%error_str_spec]; [|done].
    apply (compatible_plain_spec _ _ _ _ Hh' Hh) in H2 as [(_ & _ & H2)|[-> ->]%error_str_spec]; [|done].
    split_and!; try done. intros i x y Hx Hy. split; [by eapply H1|by eapply H2].
Qed.

Lemma interchangeable_func e' ps r l v :
  is_width e' = false -> hole_free e' = true -> interchangeable (TFunc ps r l v) e' ->
  exists ps' r' l', e' = TFunc ps' r' l' v /\ length ps = length ps' /\ pairwise ps ps' /\
    length (kw l) = length (kw l') /\ pairwise (kw l) (kw l') /\
    min_or l (length ps) = min_or l' (length ps') /\ interchangeable r r'.
Proof.
  intros Hw Hf [H1 H2]. destruct (normal_view e' Hw) as [|ps' r' l' v'|e' h' Hh'].
  - discriminate Hf.
  - apply compatible_func_spec in H1 as (L1 & -> & K1 & KW1 & M1 & P1 & R1).
    apply compatible_func_spec in H2 as (_ & _ & K2 & _ & M2 & _ & R2).
    exists ps', r', l'. split_and!; try done; lia.
  - destruct (compatible_func_plain ps r l v e' h' Hh'). congruence.
Qed.

(** ** The relation by cases *)

Definition covariant (t : Ty) : bool :=
  match t with TOption _ | TResult _ _ | TTuple _ => true | _ => false end.
Definition is_proto (t : Ty) : bool := match t with TProtocol _ _ => true | _ => false end.

(** The types whose arguments a holder can write through. *)
Definition mutable (t : Ty) : bool :=
  match t with
  | TList _ | TSet _ | TMap _ _ | TStruct _ _ | TEnum _ _ | TChannel _ | TShared _ | TRwShared _
  | TAtomic _ => true
  | _ => false
  end.

(** A type's head says what kind of type it is. *)
Lemma head_kind e e' h :
  ty_head e = Some h -> ty_head e' = Some h ->
  is_proto e' = is_proto e /\ covariant e' = covariant e /\ mutable e' = mutable e /\
  (match e' with TFunc _ _ _ _ => false | _ => true end) = true.
Proof.
  set (code := fun t => match ty_head t with Some (c, _, _) => c | None => 99 end).
  assert (Hp : forall t, is_proto t = (code t =? 27)) by (by intros []).
  assert (Hc : forall t, covariant t = existsb (Nat.eqb (code t)) [10; 14; 15]) by (by intros []).
  assert (Hm : forall t, mutable t = existsb (Nat.eqb (code t)) [7; 8; 9; 11; 12; 16; 17; 18; 20])
    by (by intros []).
  intros He He'. rewrite !Hp, !Hc, !Hm. assert (code e' = code e) as -> by (unfold code; by rewrite He, He').
  split_and!; try done. by destruct e'.
Qed.

Lemma assigns_unknown_r e : assigns e TUnknown = true.
Proof. rewrite assigns_unfold. by destruct e. Qed.

Lemma assigns_scalar e a : assigns e a = assigns (scalar e) (scalar a).
Proof.
  assert (assigns e a = assigns (scalar e) a) as ->.
  { destruct e; try done. rewrite assigns_unfold. destruct a; try done.
    by rewrite assigns_unknown_r. }
  destruct a; try done. generalize (scalar_normal e). generalize (scalar e). clear e. intros e He.
  rewrite assigns_unfold. destruct e; try done.
Qed.

Lemma assigns_proto p args a :
  is_width a = false -> is_unknown a = false ->
  assigns (TProtocol p args) a = conforms a p args && eq_met a.
Proof. intros Hw Hu. rewrite assigns_unfold. by destruct a. Qed.

Lemma assigns_invariant e a :
  is_width e = false -> is_width a = false -> is_proto e = false -> covariant e = false ->
  (match e with TFunc _ _ _ _ => false | _ => true end) = true ->
  assigns e a = compatible e a.
Proof.
  intros We Wa Hp Hc Hf. rewrite assigns_unfold.
  destruct e; try discriminate We; try discriminate Hp; try discriminate Hc; try discriminate Hf;
    destruct a; try discriminate Wa; try done; by rewrite ?compatible_unknown_l, ?compatible_unknown_r.
Qed.

Lemma assigns_covariant e a h k :
  covariant e = true -> ty_head e = Some h -> ty_head a = Some k ->
  assigns e a = true <->
    h = k /\ length (kids e) = length (kids a) /\
    forall i x y, kids e !! i = Some x -> kids a !! i = Some y -> assigns x y = true.
Proof.
  intros Hc He Ha. rewrite assigns_unfold.
  assert (Hz : forall b : bool, (b = true <-> (length (kids e) =? length (kids a)) &&
      zip_all assigns (kids e) (kids a) = true) -> h = k ->
    (b = true <-> h = k /\ length (kids e) = length (kids a) /\
      forall i x y, kids e !! i = Some x -> kids a !! i = Some y -> assigns x y = true)).
  { intros b -> Hhk. rewrite andb_true_iff, Nat.eqb_eq, zip_all_spec. tauto. }
  destruct e; try discriminate Hc; injection He as <-; destruct a; try discriminate Ha;
    injection Ha as <-; try (cbn [assigns_body]; split; [intros Hcm|by intros [[=] _]];
      rewrite compatible_unfold in Hcm; discriminate Hcm).
  all: apply Hz; [|done]; cbn [assigns_body kids length]; rewrite ?zip_all_cons, ?zip_all_nil, ?andb_true_r; done.
Qed.

Lemma assigns_func p1 r1 l1 v1 p2 r2 l2 v2 :
  assigns (TFunc p1 r1 l1 v1) (TFunc p2 r2 l2 v2) = true <->
  length p1 = length p2 /\ v1 = v2 /\ length (kw l1) <= length (kw l2) /\ pairwise (kw l1) (kw l2) /\
  min_or l2 (length p2) <= min_or l1 (length p1) /\ pairwise p1 p2 /\ assigns r1 r2 = true.
Proof.
  rewrite assigns_unfold. cbn [assigns_body]. unfold kw_fits, kw_fits_with, param_invariant, pairwise.
  rewrite !andb_true_iff, bool_decide_eq_true, Nat.eqb_eq, !Nat.leb_le, !zip_all_spec.
  setoid_rewrite param_invariant_spec. tauto.
Qed.

Lemma assigns_func_plain ps r l v t h :
  ty_head t = Some h ->
  assigns (TFunc ps r l v) t = false /\ (is_proto t = false -> assigns t (TFunc ps r l v) = false).
Proof.
  intros Hh. destruct (compatible_func_plain ps r l v t h Hh) as [C1 C2].
  rewrite !assigns_unfold. destruct t; try discriminate Hh; simpl; split; try done; intros; done.
Qed.

(** ** Slots and values may be replaced by interchangeable ones *)

(** Conformance and the [eq] bounds do not tell interchangeable types apart. *)
Definition respects_interchange : Prop :=
  (forall a a' p args args', hole_free a = true -> hole_free a' = true -> interchangeable a a' ->
     forallb hole_free args = true -> forallb hole_free args' = true ->
     length args = length args' -> pairwise args args' ->
     conforms a p args = conforms a' p args') /\
  (forall a a', hole_free a = true -> hole_free a' = true -> interchangeable a a' -> eq_met a = eq_met a').

Lemma hole_free_kids t x : hole_free t = true -> x ∈ kids t -> hole_free x = true.
Proof. apply everywhere_kids. Qed.

Lemma pairwise_compat_trans l m k :
  forallb hole_free m = true -> length l <= length m -> pairwise l m -> pairwise m k -> pairwise l k.
Proof.
  intros Hm. apply pairwise_trans. intros y Hy x z. apply compatible_trans.
  by eapply forallb_elem.
Qed.

Lemma hole_free_list l : (forall x, x ∈ l -> hole_free x = true) -> forallb hole_free l = true.
Proof. apply forallb_true. Qed.

Lemma assigns_interchange n : respects_interchange -> forall e e' a a',
  ty_size e <= n ->
  hole_free e = true -> hole_free e' = true -> hole_free a = true -> hole_free a' = true ->
  interchangeable e e' -> interchangeable a a' -> assigns e a = true -> assigns e' a' = true.
Proof.
  intros [Hconf Heqm]. induction n as [|n IH]; intros e e' a a' Hn He He' Ha Ha' Ie Ia Has.
  { pose proof (ty_size_pos e). lia. }
  assert (Hn' : ty_size (scalar e) <= S n) by (pose proof (scalar_size e); lia). clear Hn.
  apply interchangeable_scalar in Ie, Ia. rewrite assigns_scalar in Has |- *.
  apply hole_free_scalar in He, He', Ha, Ha'.
  revert Hn' He He' Ha Ha' Ie Ia Has. generalize (scalar_normal e), (scalar_normal e'),
    (scalar_normal a), (scalar_normal a'). generalize (scalar e), (scalar e'), (scalar a), (scalar a').
  clear e e' a a'. intros e e' a a' We We' Wa Wa' Hn He He' Ha Ha' Ie Ia Has.
  destruct (normal_view e We) as [|p1 r1 l1 v1|e h Hh]; [discriminate He|..].
  - (* functions *)
    destruct (interchangeable_func e' p1 r1 l1 v1 We' He' Ie)
      as (p1' & r1' & l1' & -> & Lp & Pp & Lk & Pk & Mk & Ir).
    destruct (normal_view a Wa) as [|p2 r2 l2 v2|a k Hk]; [discriminate Ha| |].
    2: { destruct (assigns_func_plain p1 r1 l1 v1 a k Hk). congruence. }
    destruct (interchangeable_func a' p2 r2 l2 v2 Wa' Ha' Ia)
      as (p2' & r2' & l2' & -> & Lp2 & Pp2 & Lk2 & Pk2 & Mk2 & Ir2).
    apply assigns_func in Has as (L & -> & K & KW & M & P & R). apply assigns_func.
    destruct (everywhere_func _ _ _ _ _ He) as (Hp1 & Hr1 & Hk1).
    destruct (everywhere_func _ _ _ _ _ He') as (_ & Hr1' & _).
    destruct (everywhere_func _ _ _ _ _ Ha) as (Hp2 & Hr2 & Hk2).
    destruct (everywhere_func _ _ _ _ _ Ha') as (_ & Hr2' & _).
    split_and!; try congruence; try lia.
    + apply (pairwise_compat_trans _ (kw l1)); [by apply hole_free_list|lia|by apply pairwise_sym|].
      by apply (pairwise_compat_trans _ (kw l2)); [apply hole_free_list|lia|..].
    + apply (pairwise_compat_trans _ p1); [by apply hole_free_list|lia|by apply pairwise_sym|].
      apply (pairwise_compat_trans _ p2); [by apply hole_free_list|lia|done|done].
    + apply (IH r1 r1' r2 r2'); try done. simpl in Hn. lia.
  - destruct (interchangeable_plain e e' h We' He' Ie Hh) as (Hh' & Lk & Pk).
    destruct (is_proto e) eqn:Hp.
    { (* protocols *)
      destruct e; try discriminate Hp. injection Hh as <-.
      assert (exists args', e' = TProtocol name args') as [args' ->]
        by (destruct e'; simplify_eq/=; eauto).
      assert (is_unknown a = false /\ is_unknown a' = false) as [Ua Ua']
        by (split; [by destruct a|by destruct a']).
      rewrite assigns_proto in Has |- * by done.
      rewrite <- (Hconf a a' name targs args'), <- (Heqm a a'); done. }
    destruct (covariant e) eqn:Hc.
    { (* immutable carriers *)
      destruct (normal_view a Wa) as [|p2 r2 l2 v2|a k Hk]; [discriminate Ha| |].
      { destruct (assigns_func_plain p2 r2 l2 v2 e h Hh) as [_ E]. rewrite E in Has; done. }
      destruct (interchangeable_plain a a' k Wa' Ha' Ia Hk) as (Hk' & Lk2 & Pk2).
      pose proof (proj1 (assigns_covariant e a h k Hc Hh Hk) Has) as (Ehk & L & Hks). subst k.
      destruct (head_kind e e' h Hh Hh') as (_ & Hc' & _). rewrite Hc in Hc'.
      apply (assigns_covariant e' a' h h Hc' Hh' Hk').
      split_and!; [done|congruence|]. intros i x' y' Hx' Hy'.
      destruct (lookup_mid _ (kids e) _ _ Hx' ltac:(lia)) as [x Hx].
      destruct (lookup_mid _ (kids a) _ _ Hx ltac:(lia)) as [y Hy].
      apply (IH x x' y y'); eauto using hole_free_kids, list_elem_of_lookup_2.
      - apply list_elem_of_lookup_2, kids_size in Hx. lia.
      - by apply (Pk i).
      - by apply (Pk2 i). }
    (* everything else is compared by [compatible] *)
    destruct (head_kind e e' h Hh Hh') as (Hp' & Hc' & _ & Hf').
    rewrite Hp in Hp'. rewrite Hc in Hc'.
    rewrite assigns_invariant in Has |- *; try done; [|by destruct e].
    destruct Ie as [Ie1 Ie2], Ia as [Ia1 Ia2].
    eapply (compatible_trans e' e a'); [done|done|]. by eapply (compatible_trans e a a').
Qed.

(** ** Written-through containers *)

(** A type of a finished program: no variable, no [Unknown]. *)
Definition finished (t : Ty) : bool := negb (has_var t) && hole_free t.

Lemma finished_spec t : finished t = true <-> has_var t = false /\ hole_free t = true.
Proof. unfold finished. by rewrite andb_true_iff, negb_true_iff. Qed.

Lemma mutable_kids t : mutable t = true -> parts t = kids t.
Proof. by destruct t. Qed.

(** With protocols, for a conformance that tells no interchangeable types apart. *)
Lemma container_write_closed J s n e a :
  closed_answers J -> respects_interchange ->
  mutable e = true -> finished e = true -> finished a = true -> strict e = true -> strict a = true ->
  ty_size e + ty_size a <= n -> assignable J n e a s = Some (true, s) ->
  ty_head a = ty_head e /\ length (kids a) = length (kids e) /\
  forall i S T x m, kids e !! i = Some S -> kids a !! i = Some T -> finished x = true ->
    ty_size S + ty_size T + ty_size x <= m ->
    assignable J m S x s = assignable J m T x s /\ assignable J m x S s = assignable J m x T s.
Proof.
  intros HJ HR Hm [Ve He]%finished_spec [Va Ha]%finished_spec Se Sa Hn Has.
  rewrite (assignable_closed J n HJ) in Has by done. injection Has as Has.
  assert (Wa : is_width a = false).
  { destruct a; try done. destruct e; try discriminate Hm; rewrite assigns_unfold in Has; simpl in Has;
      destruct w; discriminate Has. }
  rewrite assigns_invariant in Has by (try done; by destruct e).
  assert (Ie : interchangeable e a) by (split; [done|by apply compatible_sym]).
  assert (exists h, ty_head e = Some h) as [h Hh] by (destruct e; try done; simpl; eauto).
  destruct (interchangeable_plain e a h Wa Ha Ie Hh) as (Hh' & Lk & Pk).
  split_and!; [congruence|done|]. intros i S T x m HS HT [Vx Hx]%finished_spec Hsz.
  pose proof (list_elem_of_lookup_2 _ _ _ HS) as ES. pose proof (list_elem_of_lookup_2 _ _ _ HT) as ET.
  destruct (head_kind e a h Hh Hh') as (_ & _ & Hma & _). rewrite Hm in Hma.
  assert (VS : has_var S = false) by (apply (closed_part e); [done|by rewrite (mutable_kids e Hm)]).
  assert (VT : has_var T = false) by (apply (closed_part a); [done|by rewrite (mutable_kids a Hma)]).
  rewrite !(assignable_closed J m HJ) by (try done; lia).
  assert (FS : hole_free S = true) by exact (hole_free_kids e S He ES).
  assert (FT : hole_free T = true) by exact (hole_free_kids a T Ha ET).
  assert (IST : interchangeable S T) by (by apply (Pk i)).
  assert (Hbool : forall b c : bool, (b = true -> c = true) -> (c = true -> b = true) -> b = c)
    by (intros [] []; auto; intros; symmetry; auto).
  split; do 2 f_equal; apply Hbool; eapply (assigns_interchange _ HR);
    eauto using interchangeable_refl, interchangeable_sym.
Qed.
End closed.

(** ** Without protocols

    Conformance and the [eq] bounds are asked only where a protocol is expected. *)
Section without_protocols.
  Context `{TyVarPayloads}.

Definition protocol_free (t : Ty) : bool := everywhere (fun t => negb (is_proto t)) t.

Lemma all_c_ext (f g : Ty -> Ty -> check) l s :
  (forall x y s, (x, y) ∈ l -> f x y s = g x y s) -> all_c f l s = all_c g l s.
Proof.
  revert s. induction l as [|[x y] l IH]; intros s Hl; [done|]. cbn [all_c]. unfold andc. rewrite Hl by left.
  destruct (g x y s) as [[[] s1]|]; simpl; try done. apply IH. intros. apply Hl. by right.
Qed.

Lemma assignable_judgements J J' n e a s :
  has_var e = false -> has_var a = false -> protocol_free e = true ->
  assignable J n e a s = assignable J' n e a s.
Proof.
  revert e a s. induction n as [|n IH]; intros e a s He Ha Hp; [done|].
  cbn [assignable]. rewrite He, Ha, orb_true_r.
  assert (Hk : forall x y s, x ∈ kids e -> y ∈ kids a -> assignable J n x y s = assignable J' n x y s).
  { intros x y s0 Hx Hy. apply IH; [apply (closed_part e); [done|by apply kids_parts]|
      apply (closed_part a); [done|by apply kids_parts]|by eapply everywhere_kids]. }
  assert (Hw : forall w, has_var (scalar (TWidth w)) = false /\ protocol_free (scalar (TWidth w)) = true)
    by (by intros []).
  destruct e; try discriminate Hp; destruct a; try reflexivity;
    try (apply IH; [apply Hw|done|apply Hw]); try (apply IH; [done|apply Hw|done]);
    try (apply Hk; simpl; in_list); cbn [assignable_zonked].
  all: unfold andc, pure; cbn [mbind option_bind fst snd].
  - match goal with |- context [if ?c then _ else _] => destruct c end; [|done].
    destruct (everywhere_func _ _ _ _ _ Hp) as (_ & Hr & _).
    apply IH; [apply (closed_part _ e He)|apply (closed_part _ a Ha)|done]; simpl; rewrite elem_of_app; right; by apply list_elem_of_singleton.
  - destruct (length ts =? length ts0); [|done]. apply all_c_ext. intros x y s0 Hxy. apply Hk; simpl.
    + apply list_elem_of_In. apply list_elem_of_In in Hxy. by eapply in_combine_l.
    + apply list_elem_of_In. apply list_elem_of_In in Hxy. by eapply in_combine_r.
  - rewrite Hk by (simpl; in_list). destruct (assignable J' n e1 a1 s) as [[[] s1]|]; simpl; try done. apply Hk; simpl; in_list.
Qed.

(** No protocol, and no function with omittable parameters. *)
Definition plain_node (t : Ty) : bool :=
  match t with
  | TProtocol _ _ => false
  | TFunc ps _ l _ => length ps + length (kw l) <=? min_or l (length ps)
  | _ => true
  end.
Definition plain (t : Ty) : bool := everywhere plain_node t.
Lemma plain_strict t : plain t = true -> strict t = true.
Proof. apply everywhere_mono. by intros []. Qed.
Lemma plain_free t : plain t = true -> protocol_free t = true.
Proof. apply everywhere_mono. by intros []. Qed.

(** A conformance that nothing meets. *)
Definition no_judgements (J : Judgements) : Judgements :=
  mkJudgements (rigid_param J) (fun _ _ _ => pure false) (fun _ => pure true) (eq_bounds_met J) (hashable J).

End without_protocols.

(** ** Comparable types *)

Section comparable.
  Context `{TyVarPayloads}.
  Variable conforms : Ty -> string -> list Ty -> bool.
  Variable eq_met : Ty -> bool.
Let assigns := assigns conforms eq_met.

(** A value's type in a finished, non-generic body: no hole, no width, no type parameter. *)
Definition value_node (t : Ty) : bool :=
  match t with TUnknown | TWidth _ | TParam _ => false | _ => true end.
Definition value_type (t : Ty) : bool := everywhere value_node t && negb (has_var t).

Lemma value_type_kids t x : value_type t = true -> x ∈ kids t -> value_type x = true.
Proof.
  unfold value_type. rewrite !andb_true_iff, !negb_true_iff. intros [Ht Hv] Hx.
  split; [by eapply everywhere_kids|]. apply (closed_part t); [done|]. by apply kids_parts.
Qed.

Lemma value_type_func ps r l v :
  value_type (TFunc ps r l v) = true ->
  (forall x, x ∈ ps -> value_type x = true) /\ value_type r = true.
Proof.
  unfold value_type. rewrite andb_true_iff, negb_true_iff. intros [(Hp & Hr & _)%everywhere_func Hv].
  split; [intros x Hx|]; rewrite andb_true_iff, negb_true_iff; split; auto;
    apply (closed_part _ _ Hv); simpl; rewrite elem_of_app, list_elem_of_singleton; auto.
Qed.

Lemma value_type_node t : value_type t = true -> value_node t = true /\ has_var t = false.
Proof.
  unfold value_type. rewrite andb_true_iff, negb_true_iff. intros [Ht Hv].
  split; [by apply everywhere_here|done].
Qed.

Lemma fold_collect l out :
  (forall x acc, x ∈ l -> ty_collect_params x acc = acc) ->
  fold_left (fun acc p => ty_collect_params p acc) l out = out.
Proof.
  revert out. induction l as [|x l IH]; intros out Hl; simpl; [done|].
  rewrite Hl by left. apply IH. intros. apply Hl. by right.
Qed.

Lemma value_type_params t : value_type t = true -> forall acc, ty_collect_params t acc = acc.
Proof.
  induction t as [t IH] using parts_ind. intros Ht acc. pose proof (value_type_node t Ht) as [Hn _].
  assert (Hk : forall x acc, x ∈ kids t -> ty_collect_params x acc = acc).
  { intros x acc' Hx. apply IH; [by apply kids_parts|by eapply value_type_kids]. }
  destruct t; try discriminate Hn; simpl in Hk |- *; try done; rewrite ?Hk by in_list; try done;
    try (by apply fold_collect).
  destruct (value_type_func _ _ _ _ Ht) as [Hp Hr].
  rewrite fold_collect by (intros x acc' Hx; apply IH; [simpl; apply elem_of_app; by left|by apply Hp]).
  apply IH; [simpl; apply elem_of_app; right; by apply list_elem_of_singleton|done].
Qed.

(** Some slot of one of the two types accepts the other. *)
Definition related (x y : Ty) : Prop :=
  compatible x y = true \/ compatible y x = true \/ assigns x y = true \/ assigns y x = true.
Lemma related_sym x y : related x y -> related y x.
Proof. unfold related. tauto. Qed.

Lemma all_c_true (f : Ty -> Ty -> check) l s :
  (forall x y, (x, y) ∈ l -> f x y s = Some (true, s)) -> all_c f l s = Some (true, s).
Proof.
  induction l as [|[x y] l IH]; intros Hl; simpl; [done|]. unfold andc. rewrite Hl by left. simpl.
  apply IH. intros. apply Hl. by right.
Qed.

Lemma combine_lookup {A B} (l : list A) (k : list B) x y :
  (x, y) ∈ combine l k -> exists i, l !! i = Some x /\ k !! i = Some y.
Proof.
  revert k. induction l as [|a l IH]; intros [|b k]; simpl; try (by intros ?%not_elem_of_nil).
  intros [[= -> ->]|Hin]%elem_of_cons; [by exists 0|]. destruct (IH k Hin) as [i Hi]. by exists (S i).
Qed.

Lemma value_type_view t : value_type t = true ->
  (exists ps r l v, t = TFunc ps r l v) \/ (exists h, ty_head t = Some h).
Proof.
  intros [Hn _]%value_type_node. destruct t; try discriminate Hn; simpl; eauto 6.
Qed.

Lemma value_type_normal t : value_type t = true -> is_width t = false /\ is_unknown t = false.
Proof. intros [Hn _]%value_type_node. by destruct t. Qed.

(** A slot of a type that is not a protocol accepts types of its own head only. *)
Lemma assigns_head x y h :
  value_type x = true -> value_type y = true -> is_proto x = false -> ty_head x = Some h ->
  assigns x y = true ->
  ty_head y = Some h /\ length (kids x) = length (kids y) /\
  forall i u v, kids x !! i = Some u -> kids y !! i = Some v -> compatible u v = true \/ assigns u v = true.
Proof.
  intros Vx Vy Hp Hx Ha. destruct (value_type_normal x Vx) as [Wx _], (value_type_normal y Vy) as [Wy _].
  destruct (value_type_view y Vy) as [(ps & r & l & v & ->)|[k Hy]].
  { destruct (assigns_func_plain conforms eq_met ps r l v x h Hx) as [_ E]. unfold assigns in Ha.
    rewrite E in Ha; done. }
  destruct (covariant x) eqn:Hc.
  - pose proof (proj1 (assigns_covariant conforms eq_met x y h k Hc Hx Hy) Ha) as (-> & Hl & Hk).
    split_and!; try done. intros i u w Hu Hw. right. by eapply Hk.
  - unfold assigns in Ha. rewrite assigns_invariant in Ha; try done; [|by destruct x].
    destruct (proj1 (compatible_plain_spec _ _ _ _ Hx Hy) Ha) as [(E & Hl & Hk)|[-> ->]%error_str_spec]; [|done]. subst k.
    split_and!; try done. intros i u w Hu Hw. left. by eapply Hk.
Qed.

Lemma related_plain x y h :
  value_type x = true -> value_type y = true -> is_proto x = false -> is_proto y = false ->
  ty_head x = Some h -> related x y ->
  ty_head y = Some h /\ length (kids x) = length (kids y) /\
  forall i u v, kids x !! i = Some u -> kids y !! i = Some v -> related u v.
Proof.
  intros Vx Vy Px Py Hx Hr.
  destruct (value_type_view y Vy) as [(ps & r & l & v & ->)|[k Hy]].
  { destruct (compatible_func_plain ps r l v x h Hx) as [C1 C2].
    destruct (assigns_func_plain conforms eq_met ps r l v x h Hx) as [A1 A2].
    unfold related, assigns in Hr. rewrite C1, C2, A1, A2 in Hr by done. by destruct Hr as [|[|[|]]]. }
  destruct Hr as [Hr|[Hr|[Hr|Hr]]].
  - destruct (proj1 (compatible_plain_spec _ _ _ _ Hx Hy) Hr) as [(E & Hl & Hk)|[-> ->]%error_str_spec]; [|done]. subst k.
    split_and!; try done. intros i u w Hu Hw. left. by eapply Hk.
  - destruct (proj1 (compatible_plain_spec _ _ _ _ Hy Hx) Hr) as [(E & Hl & Hk)|[-> ->]%error_str_spec]; [|done]. subst k.
    split_and!; try done. intros i u w Hu Hw. right. left. by eapply Hk.
  - destruct (assigns_head x y h) as (Hy' & Hl & Hk); try done. split_and!; try done.
    intros i u w Hu Hw. destruct (Hk i u w Hu Hw); [by left|by right; right; left].
  - destruct (assigns_head y x k) as (Hy' & Hl & Hk); try done. split_and!; [congruence|done|].
    intros i u w Hu Hw. destruct (Hk i w u Hw Hu); [by right; left|by right; right; right].
Qed.

Lemma related_proto p args y :
  conforms TStr "Error" [] = true -> value_type y = true -> value_type (TProtocol p args) = true ->
  is_proto y = false -> related (TProtocol p args) y -> conforms y p args = true.
Proof.
  intros Hstr Vy Vp Py Hr. destruct (value_type_normal y Vy) as [Wy Uy].
  destruct Hr as [Hr|[Hr|[Hr|Hr]]].
  - destruct (value_type_view y Vy) as [(ps & r & l & v & ->)|[k Hy]].
    { destruct (compatible_func_plain ps r l v (TProtocol p args) _ eq_refl). congruence. }
    destruct (proj1 (compatible_plain_spec (TProtocol p args) y _ _ eq_refl Hy) Hr) as [(E & _)|[[= -> ->] ->]%error_str_spec].
    + rewrite <- E in Hy. by destruct y.
    + done.
  - destruct (value_type_view y Vy) as [(ps & r & l & v & ->)|[k Hy]].
    { destruct (compatible_func_plain ps r l v (TProtocol p args) _ eq_refl). congruence. }
    destruct (proj1 (compatible_plain_spec y (TProtocol p args) _ _ Hy eq_refl) Hr) as [(E & _)|[_ [=]]%error_str_spec].
    rewrite E in Hy. by destruct y.
  - unfold assigns in Hr. rewrite assigns_proto in Hr by done. by apply andb_true_iff in Hr as [? _].
  - destruct (value_type_view y Vy) as [(ps & r & l & v & ->)|[k Hy]].
    { destruct (assigns_func_plain conforms eq_met ps r l v (TProtocol p args) _ eq_refl) as [E _].
      unfold assigns in Hr. congruence. }
    destruct (assigns_head y (TProtocol p args) k) as (E & _); try done. injection E as <-. by destruct y.
Qed.

Lemma related_func p1 r1 l1 v1 p2 r2 l2 v2 :
  related (TFunc p1 r1 l1 v1) (TFunc p2 r2 l2 v2) ->
  length p1 = length p2 /\ related r1 r2 /\
  forall i u v, p1 !! i = Some u -> p2 !! i = Some v -> related u v.
Proof.
  intros [Hr|[Hr|[Hr|Hr]]].
  1-2: apply compatible_func_spec in Hr as (L & _ & _ & _ & _ & P & R).
  3-4: apply assigns_func in Hr as (L & _ & _ & _ & _ & P & R).
  all: split_and!; [done|unfold related; tauto|intros i u v Hu Hv; left].
  1,3: by destruct (P i u v Hu Hv).
  all: by destruct (P i v u Hv Hu).
Qed.

Lemma zip_related (f : Ty -> Ty -> check) l k s :
  (forall i u v, l !! i = Some u -> k !! i = Some v -> f u v s = Some (true, s)) ->
  all_c f (combine l k) s = Some (true, s).
Proof.
  intros Hf. apply all_c_true. intros x y Hxy. destruct (combine_lookup l k x y Hxy) as (i & Hx & Hy).
  by apply (Hf i).
Qed.

Lemma andc_true (p q : check) s :
  p s = Some (true, s) -> q s = Some (true, s) -> andc p q s = Some (true, s).
Proof. intros Hp Hq. unfold andc. by rewrite Hp. Qed.

Lemma join_closed r n s x y :
  has_var x = false -> has_var y = false -> join_ty r n s x y = Some (compatible x y, s).
Proof. intros Hx Hy. unfold join_ty. by rewrite Hx, Hy, orb_true_r. Qed.

Lemma related_may_be_equal J n :
  closed_answers conforms eq_met J -> conforms TStr "Error" [] = true -> forall x y s,
  ty_size x + ty_size y <= n -> value_type x = true -> value_type y = true -> related x y ->
  may_be_equal J n x y s = Some (true, s).
Proof.
  intros [Hsat _] Hstr. induction n as [|n IH]; intros x y s Hn Vx Vy Hr.
  { pose proof (ty_size_pos x). lia. }
  pose proof (value_type_node x Vx) as [Nx Cx]. pose proof (value_type_node y Vy) as [Ny Cy].
  assert (Hproto : forall p args t, value_type t = true -> value_type (TProtocol p args) = true ->
    is_proto t = false -> related (TProtocol p args) t -> proto_equal J p args t s = Some (true, s)).
  { intros p args t Vt Vp Pt Hrel. unfold proto_equal. rewrite (value_type_params t Vt).
    rewrite fold_collect by (intros u acc Hu; apply value_type_params, (value_type_kids _ _ Vp Hu)).
    destruct (value_type_node t Vt) as [_ Ct]. destruct (value_type_node _ Vp) as [_ Cp].
    rewrite Hsat; [by rewrite (related_proto p args t)|done|exact (closed_forall _ Cp)]. }
  destruct (is_proto x) eqn:Px, (is_proto y) eqn:Py.
  - destruct x; try discriminate Px. by destruct y.
  - destruct x; try discriminate Px.
    destruct y; try discriminate Py; try discriminate Ny; by apply Hproto.
  - destruct y; try discriminate Py.
    destruct x; try discriminate Px; try discriminate Nx; apply Hproto; auto using related_sym.
  - destruct (value_type_view x Vx) as [(p1 & r1 & l1 & v1 & ->)|[h Hx]].
    { destruct (value_type_view y Vy) as [(p2 & r2 & l2 & v2 & ->)|[k Hy]].
      2: { apply related_sym in Hr. destruct (related_plain y (TFunc p1 r1 l1 v1) k) as (E & _); done. }
      destruct (related_func _ _ _ _ _ _ _ _ Hr) as (L & R & P). simpl in Hn.
      destruct (value_type_func _ _ _ _ Vx) as [Vp1 Vr1], (value_type_func _ _ _ _ Vy) as [Vp2 Vr2].
      apply andc_true; [apply andc_true; [by rewrite L, Nat.eqb_refl|]|apply IH; try done; lia].
      apply zip_related. intros i u v Hu Hv.
      pose proof (list_elem_of_lookup_2 _ _ _ Hu) as Eu. pose proof (list_elem_of_lookup_2 _ _ _ Hv) as Ev.
      apply IH; auto; [|by eapply P]. apply sum_elem in Eu, Ev. lia. }
    destruct (related_plain x y h) as (Hy & Hl & Hk); try done.
    assert (Hrec : forall i u v, kids x !! i = Some u -> kids y !! i = Some v ->
      may_be_equal J n u v s = Some (true, s)).
    { intros i u v Hu Hv. pose proof (list_elem_of_lookup_2 _ _ _ Hu) as Eu.
      pose proof (list_elem_of_lookup_2 _ _ _ Hv) as Ev.
      apply IH; eauto using value_type_kids. apply kids_size in Eu, Ev. lia. }
    clear IH Hsat Hproto Hn Hr Hk.
    destruct x; try discriminate Nx; try discriminate Px; try discriminate Cx; try discriminate Hx; injection Hx as <-;
      destruct y; try discriminate Hy; simpl in Hl, Hrec; cbn [may_be_equal].
    all: try (rewrite join_closed by done; f_equal; f_equal; injection Hy as ->; apply compatible_refl).
    all: try (by rewrite join_closed by done).
    all: try (apply (Hrec 0); done).
    all: try (apply andc_true; [apply (Hrec 0); done | apply (Hrec 1); done]).
    all: apply andc_true; [rewrite Hl, Nat.eqb_refl; try (injection Hy as ->; rewrite String.eqb_refl); done|].
    all: by apply zip_related.
Qed.

(** A comparison is refused only where no value could be stored.  In a non-generic body, when a
    slot of one type accepts values of the other (in either direction), [==] between the two passes
    the disjointness check, from either side, and binds nothing. *)
Lemma assignable_comparable J s n e a b :
  closed_answers conforms eq_met J -> conforms TStr "Error" [] = true ->
  value_type e = true -> value_type a = true -> ty_size e + ty_size a <= n ->
  assignable J n e a s = Some (true, b) ->
  may_be_equal J n e a s = Some (true, s) /\ may_be_equal J n a e s = Some (true, s).
Proof.
  intros HJ Hstr Ve Va Hn Has.
  destruct (value_type_node e Ve) as [_ Ce], (value_type_node a Va) as [_ Ca].
  rewrite (assignable_closed _ _ J n HJ) in Has by done. injection Has as Has _.
  assert (Hr : related e a) by (unfold related, assigns; tauto).
  split; apply related_may_be_equal; auto using related_sym. lia.
Qed.
End comparable.

(** The [str] grant is taken inside containers.  [compatible] compares the arguments of a
    container and lets a [str] stand for an [Error] there, in one direction: a [List[str]] is accepted
    where a [List[Error]] is expected, whatever conforms to [Error] may be written through that
    alias, and a [str] slot does not accept it. *)
Lemma error_list_alias `{TyVarPayloads} J s n X :
  satisfies_args J X "Error" [] s = Some (true, s) -> eq_where_bounds_met J X s = Some (true, s) ->
  (exists name args, X = TStruct name args) -> has_var X = false ->
  assignable J (S n) (TList error_proto) (TList TStr) s = Some (true, s) /\
  assignable J (S n) error_proto X s = Some (true, s) /\
  assignable J (S n) TStr X s = Some (false, s).
Proof.
  intros Hs He [name [args ->]] Hv. cbn [assignable]. rewrite Hv.
  replace (has_var (TList error_proto) || has_var (TList TStr)) with false by reflexivity.
  replace (has_var error_proto || false) with false by reflexivity.
  replace (has_var TStr || false) with false by reflexivity.
  rewrite !orb_true_r. split_and!; [reflexivity| |reflexivity].
  simpl. unfold andc. rewrite Hs. simpl. exact He.
Qed.

(** *** A program whose only protocol is [Any] *)

#[local] Instance demo_payloads : TyVarPayloads := {| FnSig := unit; TyParam := unit; Span := unit |}.
Definition any_conforms (a : Ty) (p : string) (args : list Ty) : bool := String.eqb p "Any".
Definition any_judgements : Judgements := mkJudgements
  (fun _ => false) (fun a p args => pure (any_conforms a p args)) (fun _ => pure true)
  (fun _ => pure true) (fun _ => pure true).


Definition error_judgements : Judgements := mkJudgements
  (fun _ => false) (fun a p args => pure (String.eqb p "Error")) (fun _ => pure true)
  (fun _ => pure true) (fun _ => pure true).

