(* ===== verification/Exhaust.v ===== *)
(** * Exhaustive matches: [src/src/checker/exhaust.rs]

    The pattern-matrix check of a [match]: surface patterns ([ast/mod.rs] [Pattern]) are lowered to
    matrix rows over constructor domains, and a usefulness search looks for an uncovered value.  The
    checker's name tables are an interface ([CheckerTables]); a [HashMap] of variants is a list with
    distinct keys.  The recursion bound [depth > MAX_DEPTH] is the fuel [MAX_DEPTH + 1 - depth]. *)

From Stdlib Require Import Ascii String.
From stdpp Require Import strings sorting.
From S2P Require Import Prelude Ty.
Set Warnings "-register-all".
Local Open Scope string_scope.
Local Open Scope list_scope.

(** ** Types and patterns of the source *)

(** Types are those of [Ty.v]; here the tags of the carriers and the surface patterns. *)

Inductive CarrierTag := Present | Error.
#[global] Instance CarrierTag_eq_dec : EqDecision CarrierTag.
Proof. solve_decision. Defined.

(** [CarrierTag::pattern_text]. *)
Definition pattern_text (t : CarrierTag) : string :=
  match t with Present => "?_" | Error => "!_" end.

(** [LitPattern] (a float literal as its text) and [Pattern] (spans and node ids left out). *)
Inductive LitPattern := LInt (n : Z) | LFloat (text : string) | LStr (s : string) | LBool (b : bool).
Inductive Pattern :=
| PIdent (name : string)
| PVariant (name : string) (bindings : list Pattern) (enum_name module_name : option string)
| PTuple (ps : list Pattern)
| PLiteral (l : LitPattern)
| PRange (start stop : Z) (inclusive : bool)
| PWildcard
| POr (alts : list Pattern)
| PCarrier (tag : CarrierTag) (inner : Pattern).

(** Induction with a hypothesis for every sub-pattern. *)
Section pattern_ind.
  Context (P : Pattern -> Prop)
    (Hident : forall n, P (PIdent n))
    (Hvariant : forall n bs en mn, Forall P bs -> P (PVariant n bs en mn))
    (Htuple : forall ps, Forall P ps -> P (PTuple ps))
    (Hlit : forall l, P (PLiteral l)) (Hrange : forall a b i, P (PRange a b i))
    (Hwild : P PWildcard) (Hor : forall ps, Forall P ps -> P (POr ps))
    (Hcarrier : forall t p, P p -> P (PCarrier t p)).
Fixpoint Pattern_nested_ind (p : Pattern) : P p :=
  let all := fix all ps : Forall P ps :=
    match ps with
    | [] => Forall_nil_2 _
    | p :: ps => Forall_cons_2 _ _ _ (Pattern_nested_ind p) (all ps)
    end in
  match p with
  | PIdent n => Hident n
  | PVariant n bs en mn => Hvariant n bs en mn (all bs)
  | PTuple ps => Htuple ps (all ps)
  | PLiteral l => Hlit l
  | PRange a b i => Hrange a b i
  | PWildcard => Hwild
  | POr ps => Hor ps (all ps)
  | PCarrier t p => Hcarrier t p (Pattern_nested_ind p)
  end.
End pattern_ind.

(** What the check reads of the checker's tables. *)
Record ImportedVariant := mkImported { iv_key : string; iv_variant : string }.
Class CheckerTables := {
  imported_variants : string -> option ImportedVariant;
  variant_owners : string -> bool;
  is_const_decl : string -> bool;
  (** [resolve_struct_ctor(label, name, enum_name, module_name).is_ok()] *)
  resolve_struct_ctor : string -> string -> option string -> option string -> bool;
  struct_fields_of : Ty -> option (list Ty);
  variants_of : Ty -> option (list (string * list Ty));
}.

(** [BareName] and its classifier, [checker/pattern.rs]. *)
Inductive BareName := Imported (key variant : string) | BVariant | Const | Binder.
Definition is_variant (b : BareName) : bool :=
  match b with Imported _ _ | BVariant => true | Const | Binder => false end.

Definition bare_pattern_name `{CheckerTables} (name : string) : BareName :=
  match imported_variants name with
  | Some iv => Imported (iv_key iv) (iv_variant iv)
  | None =>
      if variant_owners name then BVariant
      else if is_const_decl name then Const else Binder
  end.

Definition carrier_variant_of_key (tag : CarrierTag) (key : string) : option string :=
  if decide (key = "Option") then match tag with Present => Some "Some" | Error => None end
  else if decide (key = "Result") then match tag with Present => Some "Ok" | Error => Some "Err" end
  else None.

Definition carrier_keys : list string := ["Option"; "Result"].
Definition carrier_tag_of_variant (variant : string) : option CarrierTag :=
  find (fun tag => existsb (fun key => bool_decide (carrier_variant_of_key tag key = Some variant)) carrier_keys)
       [Present; Error].

(** ** Domains, matrix patterns, witnesses *)
Inductive Dom :=
| Sum (prefix : string) (members : list (string * list Ty)) (carrier : bool)
| Prod (label : string) (tys : list Ty)
| Bool
| Open.

Inductive Pat := Wild | Ctor (name : string) (args : list Pat) | Never.
Inductive Wit := WWild | WCtor (name : string) (args : list Wit) | WCarrier (tag : CarrierTag) (w : Wit).

Record ExhCheck := mkExh { rows : list (list Pat); dom : Dom; overflow : bool }.

Definition MAX_ROWS : nat := 512.
Definition MAX_DEPTH : nat := 12.
#[global] Arguments MAX_ROWS : simpl never.
#[global] Arguments MAX_DEPTH : simpl never.

(** ** Text *)

(** [bare_display]: the text after the last ["::"]. *)
Fixpoint after_colons (s : string) : option string :=
  match s with
  | EmptyString => None
  | String ":"%char (String ":"%char s' as s1) =>
      match after_colons s1 with
      | Some r => Some r
      | None => Some s'
      end
  | String _ s => after_colons s
  end.
Definition bare_display (key : string) : string := default key (after_colons key).

Definition tuple_tail (n : nat) : string := if (n =? 1)%nat then "," else "".
Definition tuple_parts (parts : list string) : string :=
  String.append (String.concat ", " parts) (tuple_tail (length parts)).
Definition tuple_text (parts : list string) : string :=
  String.append "(" (String.append (tuple_parts parts) ")").

Definition display_of (dom_prefix_or_label name : string) : string :=
  if decide (dom_prefix_or_label = "") then name
  else String.append dom_prefix_or_label (String.append "." name).

Definition dom_label (d : Dom) : string :=
  match d with Sum prefix _ _ => prefix | Prod label _ => label | Bool | Open => "" end.

Definition ctor_display (d : Dom) (name : string) : string :=
  match d with Prod _ _ => bare_display name | _ => display_of (dom_label d) name end.

Fixpoint render_wit (w : Wit) : string :=
  match w with
  | WWild => "_"
  | WCtor name args =>
      let parts := map render_wit args in
      match args with
      | [] => name
      | _ =>
          if decide (name = "") then tuple_text parts
          else String.append name (String.append "(" (String.append (String.concat ", " parts) ")"))
      end
  | WCarrier tag w =>
      let head := substring 0 1 (pattern_text tag) in
      match w with
      | WCarrier _ _ => String.append head (String.append "(" (String.append (render_wit w) ")"))
      | _ => String.append head (render_wit w)
      end
  end.

Definition wit_ctor (d : Dom) (name : string) (args : list Wit) : Wit :=
  match d, args, carrier_tag_of_variant name with
  | Sum _ _ true, [w], Some tag => WCarrier tag w
  | _, _, _ => WCtor (ctor_display d name) args
  end.

(** ** Matrix operations *)
Definition specialize_row (ctor : string) (arity : nat) (row : list Pat) : option (list Pat) :=
  match row with
  | [] => None
  | Wild :: rest => Some (replicate arity Wild ++ rest)
  | Ctor n args :: rest => if decide (n = ctor) then Some (args ++ rest) else None
  | Never :: _ => None
  end.
Definition specialize (rows : list (list Pat)) (ctor : string) (arity : nat) : list (list Pat) :=
  omap (specialize_row ctor arity) rows.

Definition default_row (row : list Pat) : option (list Pat) :=
  match row with Wild :: rest => Some rest | _ => None end.
Definition default_matrix (rows : list (list Pat)) : list (list Pat) := omap default_row rows.

(** The constructor names used by the first column. *)
Definition row_ctor (row : list Pat) : option string :=
  match row with Ctor n _ :: _ => Some n | _ => None end.
Definition used (rows : list (list Pat)) : list string := omap row_ctor rows.

Definition ctors_of (d : Dom) : list (string * list Ty) :=
  match d with
  | Sum _ members _ => members
  | Prod label tys => [(label, tys)]
  | Bool => [("true", []); ("false", [])]
  | Open => []
  end.

Section check.
  Context `{CheckerTables}.

(** [sum_dom]: members sorted by name. *)
Definition name_le (a b : string * list Ty) : Prop := String.leb a.1 b.1 = true.
#[global] Instance name_le_dec : RelDecision name_le.
Proof. intros a b. unfold name_le. apply _. Defined.

Definition sum_dom (key : string) (variants : list (string * list Ty)) : Dom :=
  let all_bare := forallb (fun v : string * list Ty =>
    match imported_variants v.1 with
    | Some iv => bool_decide (iv_key iv = key) && bool_decide (iv_variant iv = v.1)
    | None => false
    end) variants in
  let carrier := bool_decide (key ∈ carrier_keys) in
  let prefix := if carrier || all_bare then "" else bare_display key in
  Sum prefix (merge_sort name_le variants) carrier.

Definition dom_of_ty (ty : Ty) : Dom :=
  match ty with
  | TTuple tys => Prod "" tys
  | TStruct name _ =>
      match struct_fields_of ty with Some fields => Prod name fields | None => Open end
  | TBool => Bool
  | _ =>
      match as_enum ty, variants_of ty with
      | Some (key, _), Some vmap => sum_dom key vmap
      | _, _ => Open
      end
  end.

(** ** Lowering *)
Definition bare_variant_name (bare : bool) (name : string) : string :=
  match imported_variants name with
  | Some iv => if bare then iv_variant iv else name
  | None => name
  end.

(** One sub-pattern's alternatives appended to each combination; [None] past [MAX_ROWS]. *)
Fixpoint cross_alts (combo alts : list Pat) (next : list (list Pat)) : option (list (list Pat)) :=
  match alts with
  | [] => Some next
  | alt :: alts =>
      if (MAX_ROWS <=? length next)%nat then None
      else cross_alts combo alts (next ++ [combo ++ [alt]])
  end.
Fixpoint cross (combos : list (list Pat)) (alts : list Pat) (next : list (list Pat))
  : option (list (list Pat)) :=
  match combos with
  | [] => Some next
  | combo :: combos => next ← cross_alts combo alts next; cross combos alts next
  end.

(** The loop of [exh_product], over the lowering of a sub-pattern. *)
Section product.
  Context (lower : Pattern -> Dom -> list Pat).
Fixpoint product_loop (subs : list Pattern) (tys : list Ty) (combos : list (list Pat))
  : option (list (list Pat)) :=
  match subs, tys with
  | sub :: subs, ty :: tys =>
      next ← cross combos (lower sub (dom_of_ty ty)) []; product_loop subs tys next
  | _, _ => Some combos
  end.
Definition exh_product (ctor : string) (subs : list Pattern) (tys : list Ty) : list Pat :=
  match product_loop subs tys [[]] with
  | Some combos => map (Ctor ctor) combos
  | None => [Never]
  end.
End product.

(** A bare, payload-free name that is no variant binds the whole value. *)
Definition bare_binder (name : string) (bindings : list Pattern) (en mn : option string) : bool :=
  bool_decide (en = None) && bool_decide (mn = None) &&
  match bindings with [] => true | _ => false end && negb (is_variant (bare_pattern_name name)).

Definition find_member (members : list (string * list Ty)) (name : string)
  : option (string * list Ty) := find (fun m => bool_decide (m.1 = name)) members.

(** The member of a sum a carrier head means. *)
Definition carrier_member (tag : CarrierTag) (d : Dom) : option (string * list Ty) :=
  match d with
  | Sum _ members _ =>
      head (omap (fun v => find (fun m : string * list Ty =>
                bool_decide (m.1 = v) && (length m.2 =? 1)%nat) members)
            (omap (carrier_variant_of_key tag) carrier_keys))
  | _ => None
  end.

Fixpoint exh_lower (depth : nat) (pattern : Pattern) (d : Dom) {struct pattern} : list Pat :=
  if (MAX_DEPTH <? depth)%nat then [Never] else
  match pattern with
  | PWildcard => [Wild]
  | PIdent name =>
      let fall := if is_variant (bare_pattern_name name) then [Never] else [Wild] in
      match d, imported_variants name with
      | Sum _ members _, Some iv =>
          if existsb (fun m : string * list Ty =>
               bool_decide (m.1 = iv_variant iv) && match m.2 with [] => true | _ => false end) members
          then [Ctor (iv_variant iv) []] else fall
      | _, _ => fall
      end
  | PLiteral (LBool b) =>
      match d with Bool => [Ctor (if b then "true" else "false") []] | _ => [Never] end
  | PLiteral _ | PRange _ _ _ => [Never]
  | PCarrier tag inner =>
      match carrier_member tag d with
      | Some (vname, tys) => exh_product (exh_lower (S depth)) vname [inner] tys
      | None => [Never]
      end
  | PTuple subs =>
      match d with
      | Prod p tys =>
          if bool_decide (p = "") && (length tys =? length subs)%nat
          then exh_product (exh_lower (S depth)) "" subs tys else [Never]
      | _ => [Never]
      end
  | PVariant name bindings en mn =>
      let binder := if bare_binder name bindings en mn then [Wild] else [Never] in
      match d with
      | Prod p tys =>
          if decide (p = "") then binder
          else if resolve_struct_ctor p name en mn && (length tys =? length bindings)%nat
          then exh_product (exh_lower (S depth)) p bindings tys else [Never]
      | Sum _ members _ =>
          let bare := bool_decide (en = None) && bool_decide (mn = None) in
          match find_member members (bare_variant_name bare name) with
          | Some (vname, tys) =>
              if (length tys =? length bindings)%nat
              then exh_product (exh_lower (S depth)) vname bindings tys else binder
          | None => binder
          end
      | Bool | Open => binder
      end
  | POr alts => flat_map (fun alt => exh_lower (S depth) alt d) alts
  end.

(** ** The search *)

(** [exh_witness_rec]: [fuel] is [MAX_DEPTH + 1 - depth]; [None] is "covered". *)
Fixpoint exh_witness_rec (fuel : nat) (rows : list (list Pat)) (doms : list Dom) {struct fuel}
  : option (list Wit) :=
  match fuel, rows with
  | O, _ | _, [] => Some (replicate (length doms) WWild)
  | S fuel, _ =>
      match doms with
      | [] => None
      | dom0 :: rest_doms =>
          let ctors := ctors_of dom0 in
          let is_used (c : string * list Ty) := bool_decide (c.1 ∈ used rows) in
          if negb (bool_decide (ctors = [])) && forallb is_used ctors then
            (fix each (cs : list (string * list Ty)) : option (list Wit) :=
               match cs with
               | [] => None
               | (name, tys) :: cs =>
                   match exh_witness_rec fuel (specialize rows name (length tys))
                           (map dom_of_ty tys ++ rest_doms) with
                   | Some w => Some (wit_ctor dom0 name (take (length tys) w) :: drop (length tys) w)
                   | None => each cs
                   end
               end) ctors
          else
            match exh_witness_rec fuel (default_matrix rows) rest_doms with
            | None => None
            | Some w =>
                let hd := match find (fun c => negb (is_used c)) ctors with
                          | Some (name, tys) => wit_ctor dom0 name (replicate (length tys) WWild)
                          | None => WWild
                          end in
                Some (hd :: w)
            end
      end
  end.

(** [exh_witness_rec(rows, [dom], 0)]. *)
Definition exh_witness (rows : list (list Pat)) (d : Dom) : option (list Wit) :=
  exh_witness_rec (S MAX_DEPTH) rows [d].

(** ** The check of one [match] *)

(** [MatchKind] of [checker/mod.rs]. *)
Inductive MatchKind :=
| MVariants (label : string) (variants : list (string * list Ty)) (scrut : Ty)
| MLiteral (t : Ty)
| MTuple (tys : list Ty)
| MStruct (label : string) (fields targs : list Ty)
| MSkip.

Definition exh_new (kind : MatchKind) : option ExhCheck :=
  match kind with
  | MVariants label variants _ => Some (mkExh [] (sum_dom label variants) false)
  | MTuple tys => Some (mkExh [] (Prod "" tys) false)
  | MStruct label fields _ => Some (mkExh [] (Prod label fields) false)
  | MLiteral _ | MSkip => None
  end.

(** The row pushes of [exh_add]; [true] is an overflow. *)
Fixpoint push_rows (rs : list (list Pat)) (alts : list Pat) : list (list Pat) * bool :=
  match alts with
  | [] => (rs, false)
  | alt :: alts => if (MAX_ROWS <=? length rs)%nat then (rs, true) else push_rows (rs ++ [[alt]]) alts
  end.

Definition exh_add (e : option ExhCheck) (pattern : Pattern) (guarded : bool)
  : option ExhCheck * bool :=
  match e with
  | None => (None, false)
  | Some chk =>
      if overflow chk then (e, false) else
      let '(rs, over) := if guarded then (rows chk, false)
                         else push_rows (rows chk) (exh_lower 0 pattern (dom chk)) in
      let chk := mkExh rs (dom chk) over in
      if over then (Some chk, false)
      else (Some chk, match exh_witness rs (dom chk) with None => true | Some _ => false end)
  end.

Definition exh_help (e : option ExhCheck) : option string :=
  match e with
  | None => None
  | Some chk =>
      if overflow chk then None else
      match exh_witness (rows chk) (dom chk) with
      | Some (w :: _) =>
          Some (String.append "pattern `" (String.append (render_wit w) "` is not covered"))
      | _ => None
      end
  end.
End check.

(** ** Values, and what a pattern matches *)
Inductive value := VCtor (name : string) (args : list value) | VOther (n : Z).

(** A matrix pattern over a value. *)
Inductive pmatch : Pat -> value -> Prop :=
| pm_wild v : pmatch Wild v
| pm_ctor n ps vs : Forall2 pmatch ps vs -> pmatch (Ctor n ps) (VCtor n vs).
Abbreviation row_matches := (Forall2 pmatch).

(** The work a matrix can cause: its columns and all constructor arguments in it. *)
Definition total (l : list nat) : nat := foldr Nat.add 0 l.
Fixpoint nargs (p : Pat) : nat :=
  match p with Ctor _ args => length args + total (map nargs args) | _ => 0 end.
Definition row_nargs (row : list Pat) : nat := total (map nargs row).
Definition mat_nargs (rows : list (list Pat)) : nat := total (map row_nargs rows).

Section spec.
  Context `{CheckerTables}.

(** The values of a domain: those of its constructors; any value is of an open one. *)
Inductive in_dom : Dom -> value -> Prop :=
| in_ctor d name tys args :
    (name, tys) ∈ ctors_of d -> Forall2 (fun ty v => in_dom (dom_of_ty ty) v) tys args ->
    in_dom d (VCtor name args)
| in_open v : in_dom Open v.

(** A surface pattern over a value of a domain, as [Pattern]'s documentation describes it.  A shape
    the documentation does not define over a domain (a literal of another type) matches nothing. *)
Inductive smatch : Pattern -> Dom -> value -> Prop :=
| sm_wildcard d v : smatch PWildcard d v
| sm_binder name d v : is_variant (bare_pattern_name name) = false -> smatch (PIdent name) d v
| sm_ident_variant name iv pre ms c :
    imported_variants name = Some iv -> (iv_variant iv, []) ∈ ms ->
    smatch (PIdent name) (Sum pre ms c) (VCtor (iv_variant iv) [])
| sm_bool b : smatch (PLiteral (LBool b)) Bool (VCtor (if b then "true" else "false") [])
| sm_carrier tag inner pre ms c key vname ty v :
    carrier_variant_of_key tag key = Some vname -> (vname, [ty]) ∈ ms ->
    smatch inner (dom_of_ty ty) v ->
    smatch (PCarrier tag inner) (Sum pre ms c) (VCtor vname [v])
| sm_tuple ps tys vs : smatches ps tys vs -> smatch (PTuple ps) (Prod "" tys) (VCtor "" vs)
| sm_struct name bs en mn label tys vs :
    resolve_struct_ctor label name en mn = true -> smatches bs tys vs ->
    smatch (PVariant name bs en mn) (Prod label tys) (VCtor label vs)
| sm_variant name bs en mn pre ms c vname tys vs :
    vname = bare_variant_name (bool_decide (en = None) && bool_decide (mn = None)) name ->
    (vname, tys) ∈ ms -> smatches bs tys vs ->
    smatch (PVariant name bs en mn) (Sum pre ms c) (VCtor vname vs)
| sm_catch_all name d v :
    is_variant (bare_pattern_name name) = false -> smatch (PVariant name [] None None) d v
| sm_or alts alt d v : alt ∈ alts -> smatch alt d v -> smatch (POr alts) d v
with smatches : list Pattern -> list Ty -> list value -> Prop :=
| sms_nil : smatches [] [] []
| sms_cons p ps ty tys v vs :
    smatch p (dom_of_ty ty) v -> smatches ps tys vs -> smatches (p :: ps) (ty :: tys) (v :: vs).

(** ** Well-formed matrices *)
Inductive wf_pat : Dom -> Pat -> Prop :=
| wf_wild d : wf_pat d Wild
| wf_never d : wf_pat d Never
| wf_ctor d n tys args :
    (n, tys) ∈ ctors_of d -> Forall2 (fun ty p => wf_pat (dom_of_ty ty) p) tys args ->
    wf_pat d (Ctor n args).
Abbreviation wf_row := (Forall2 wf_pat).

(** Constructor names of a domain are distinct: they are the keys of a [HashMap]. *)
Definition wf_dom (d : Dom) : Prop := NoDup (ctors_of d).*1.

Class CheckerLaws : Prop :=
  variants_distinct : forall ty vs, variants_of ty = Some vs -> NoDup vs.*1.

Lemma sum_dom_wf key vs : NoDup vs.*1 -> wf_dom (sum_dom key vs).
Proof.
  intros HN. unfold wf_dom, sum_dom. simpl.
  assert (Hp : (merge_sort name_le vs).*1 ≡ₚ vs.*1) by (by rewrite merge_sort_Permutation).
  by rewrite Hp.
Qed.

Lemma dom_of_ty_wf `{CheckerLaws} ty : wf_dom (dom_of_ty ty).
Proof.
  assert (Hopen : wf_dom Open) by constructor.
  assert (Hprod : forall l ts, wf_dom (Prod l ts)) by (intros; apply NoDup_singleton).
  assert (Hsum : wf_dom match as_enum ty, variants_of ty with
                        | Some (key, _), Some vmap => sum_dom key vmap | _, _ => Open end).
  { destruct (as_enum ty) as [[key ?]|]; [|done]. destruct (variants_of ty) as [vs|] eqn:E; [|done].
    apply sum_dom_wf. by eapply variants_distinct. }
  destruct ty; simpl in *; try done.
  - by apply (bool_decide_unpack (NoDup ["true"; "false"])).
  - destruct (struct_fields_of _); done.
Qed.

Lemma ctor_unique d n tys tys' :
  wf_dom d -> (n, tys) ∈ ctors_of d -> (n, tys') ∈ ctors_of d -> tys = tys'.
Proof.
  unfold wf_dom. intros HN [i Hi]%list_elem_of_lookup [j Hj]%list_elem_of_lookup.
  assert (i = j) as <-; [|congruence].
  eapply (NoDup_lookup _ i j n); [done|..]; rewrite list_lookup_fmap; [by rewrite Hi | by rewrite Hj].
Qed.

(** ** Rows under specialization and defaulting *)
Lemma matches_wilds k vs : length vs = k -> row_matches (replicate k Wild) vs.
Proof. intros <-. induction vs; simpl; constructor; [constructor | done]. Qed.

Lemma specialize_row_back d ds n tys row r args vs :
  wf_dom d -> (n, tys) ∈ ctors_of d -> wf_row (d :: ds) row -> length args = length tys ->
  specialize_row n (length tys) row = Some r -> row_matches r (args ++ vs) ->
  row_matches row (VCtor n args :: vs).
Proof.
  intros Hd Hn Hrow Hl Hs Hm. inversion Hrow as [|? p ? rest Hp Hrest]; subst. simpl in Hs.
  destruct p as [|m ps|]; [|case_decide as Hc|]; simplify_eq.
  - apply Forall2_app_inv in Hm as [_ Hm]; [|by rewrite length_replicate].
    constructor; [constructor | done].
  - inversion Hp as [| |? ? tys' ? Hin Hps]; subst.
    assert (tys' = tys) as -> by (by eapply ctor_unique). apply Forall2_length in Hps.
    apply Forall2_app_inv in Hm as [Ha Hm]; [|lia]. constructor; [by constructor | done].
Qed.

Lemma specialize_row_forth n row args vs :
  row_matches row (VCtor n args :: vs) ->
  exists r, specialize_row n (length args) row = Some r /\ row_matches r (args ++ vs).
Proof.
  intros Hm. inversion Hm as [|p ? rest ? Hp Hrest]; subst. simpl. inversion Hp; subst.
  - eexists. split; [done|]. apply Forall2_app; [by apply matches_wilds | done].
  - rewrite decide_True by done. eexists. split; [done|]. by apply Forall2_app.
Qed.

Lemma specialize_row_wf d ds n tys row r :
  wf_dom d -> (n, tys) ∈ ctors_of d -> wf_row (d :: ds) row ->
  specialize_row n (length tys) row = Some r -> wf_row (map dom_of_ty tys ++ ds) r.
Proof.
  intros Hd Hn Hrow Hs. inversion Hrow as [|? p ? rest Hp Hrest]; subst. simpl in Hs.
  destruct p as [|m ps|]; [|case_decide as Hc|]; simplify_eq.
  - apply Forall2_app; [|done]. clear. induction tys; simpl; constructor; [constructor | done].
  - inversion Hp as [| |? ? tys' ? Hin Hps]; subst.
    assert (tys' = tys) as -> by (by eapply ctor_unique).
    apply Forall2_app; [|done]. by apply Forall2_fmap_l.
Qed.

(** A specialized row does not gain work, and one of the constructor loses its columns. *)
Lemma row_nargs_app a b : row_nargs (a ++ b) = (row_nargs a + row_nargs b)%nat.
Proof. unfold row_nargs, total. rewrite map_app. induction (map nargs a); simpl; lia. Qed.

Lemma row_nargs_wilds k : row_nargs (replicate k Wild) = 0%nat.
Proof. unfold row_nargs. induction k; simpl; auto. Qed.

Lemma specialize_row_nargs n k row r :
  specialize_row n k row = Some r -> (row_nargs r <= row_nargs row)%nat.
Proof.
  destruct row as [|[|m ps|] rest]; simpl; [done| |case_decide|done]; intros [= <-];
    rewrite row_nargs_app, ?row_nargs_wilds; unfold row_nargs; simpl; lia.
Qed.

Lemma specialize_nargs d ds n tys rs :
  wf_dom d -> (n, tys) ∈ ctors_of d -> Forall (wf_row (d :: ds)) rs ->
  (mat_nargs (specialize rs n (length tys)) + (if decide (n ∈ used rs) then length tys else 0) <=
   mat_nargs rs)%nat.
Proof.
  intros Hd Hn. unfold mat_nargs, specialize, used, total.
  induction rs as [|row rs IH]; intros Hwf; [case_decide as Hc; [by apply not_elem_of_nil in Hc|done]|].
  apply list.Forall_cons in Hwf as [Hrow Hwf]. specialize (IH Hwf).
  inversion Hrow as [|? p ? rest Hp Hrest]; subst.
  destruct p as [|m ps|]; cbn [omap list_omap specialize_row row_ctor map].
  - cbn [foldr map]. rewrite row_nargs_app, row_nargs_wilds. unfold row_nargs at 1 3. simpl.
    fold (row_nargs rest). lia.
  - destruct (decide (m = n)) as [->|Hne].
    + inversion Hp as [| |? ? tys' ? Hin Hps]; subst.
      assert (tys' = tys) as -> by (by eapply ctor_unique). apply Forall2_length in Hps.
      cbn [foldr map]. rewrite row_nargs_app. unfold row_nargs at 1 2 4. simpl.
      fold (row_nargs rest). revert IH.
      destruct (decide (n ∈ omap row_ctor rs)), (decide (n ∈ n :: omap row_ctor rs)); lia.
    + assert (Hiff : n ∈ m :: omap row_ctor rs <-> n ∈ omap row_ctor rs).
      { rewrite elem_of_cons. split; [by intros [?|?] | by right]. }
      cbn [foldr map]. revert IH.
      destruct (decide (n ∈ omap row_ctor rs)), (decide (n ∈ m :: omap row_ctor rs)); try lia; tauto.
  - cbn [foldr map]. lia.
Qed.

(** ** The search is sound *)
Lemma default_row_back d ds row r v vs :
  wf_row (d :: ds) row -> default_row row = Some r -> row_matches r vs -> row_matches row (v :: vs).
Proof.
  intros Hrow Hs Hm. destruct row as [|[|m ps|] rest]; simpl in Hs; simplify_eq.
  constructor; [constructor | done].
Qed.

Lemma default_wf d ds rs : Forall (wf_row (d :: ds)) rs -> Forall (wf_row ds) (default_matrix rs).
Proof.
  rewrite !list.Forall_forall. intros Hwf r (row & Hr & Hs)%list_elem_of_omap.
  specialize (Hwf row Hr). destruct row as [|[|m ps|] rest]; simpl in Hs; simplify_eq.
  by inversion Hwf.
Qed.

Lemma specialize_wf d ds n tys rs :
  wf_dom d -> (n, tys) ∈ ctors_of d -> Forall (wf_row (d :: ds)) rs ->
  Forall (wf_row (map dom_of_ty tys ++ ds)) (specialize rs n (length tys)).
Proof.
  rewrite !list.Forall_forall. intros Hd Hn Hwf r (row & Hr & Hs)%list_elem_of_omap.
  eapply specialize_row_wf; [done|done| |done]. by apply Hwf.
Qed.

(** [rows] cover [doms]: each value vector matches a row. *)
Definition covers (rs : list (list Pat)) (ds : list Dom) : Prop :=
  forall vs, Forall2 in_dom ds vs -> exists row, row ∈ rs /\ row_matches row vs.

Lemma covers_split d ds rs :
  wf_dom d -> ctors_of d <> [] -> Forall (wf_row (d :: ds)) rs ->
  (forall n tys, (n, tys) ∈ ctors_of d ->
     covers (specialize rs n (length tys)) (map dom_of_ty tys ++ ds)) ->
  covers rs (d :: ds).
Proof.
  intros Hd Hne Hwf Hall vs Hvs. inversion Hvs as [|? v ? vs' Hv Hvs']; subst.
  inversion Hv as [? n tys args Hn Hargs|]; subst; [|done].
  destruct (Hall n tys Hn (args ++ vs')) as (r & Hr & Hm).
  { apply Forall2_app; [|done]. by apply Forall2_fmap_l. }
  apply list_elem_of_omap in Hr as (row & Hrow & Hs). exists row. split; [done|].
  rewrite list.Forall_forall in Hwf. eapply specialize_row_back; [done|done|by apply Hwf| |done|done].
  symmetry. by eapply Forall2_length.
Qed.

Lemma covers_default d ds rs :
  Forall (wf_row (d :: ds)) rs -> covers (default_matrix rs) ds -> covers rs (d :: ds).
Proof.
  intros Hwf Hall vs Hvs. inversion Hvs as [|? v ? vs' Hv Hvs']; subst.
  destruct (Hall vs' Hvs') as (r & (row & Hrow & Hs)%list_elem_of_omap & Hm).
  exists row. split; [done|]. rewrite list.Forall_forall in Hwf. eapply default_row_back; [by apply Hwf|done..].
Qed.

(** One turn of the search, with the loop over constructors named. *)
Fixpoint each_ctor (rec : list (list Pat) -> list Dom -> option (list Wit)) (rs : list (list Pat))
    (d : Dom) (ds : list Dom) (cs : list (string * list Ty)) : option (list Wit) :=
  match cs with
  | [] => None
  | (name, tys) :: cs =>
      match rec (specialize rs name (length tys)) (map dom_of_ty tys ++ ds) with
      | Some w => Some (wit_ctor d name (take (length tys) w) :: drop (length tys) w)
      | None => each_ctor rec rs d ds cs
      end
  end.

Lemma each_ctor_cases rec rs d ds cs :
  (each_ctor rec rs d ds cs = None /\
   forall n tys, (n, tys) ∈ cs -> rec (specialize rs n (length tys)) (map dom_of_ty tys ++ ds) = None) \/
  (exists w n tys w', each_ctor rec rs d ds cs = Some w /\ (n, tys) ∈ cs /\
   rec (specialize rs n (length tys)) (map dom_of_ty tys ++ ds) = Some w').
Proof.
  induction cs as [|[n tys] cs IH]; simpl.
  - left. split; [done|]. by intros ?? ?%elem_of_nil.
  - destruct (rec _ _) as [w|] eqn:E.
    + right. eexists _, n, tys, w. split; [done|]. split; [apply list_elem_of_here | done].
    + destruct IH as [[-> Hall]|(w & n' & tys' & w' & -> & Hin & Hw)].
      * left. split; [done|]. intros n' tys' [[= <- <-]|Hin]%elem_of_cons; [done | by apply Hall].
      * right. eexists _, n', tys', w'. split; [done|]. split; [by apply list_elem_of_further | done].
Qed.

(** Is every constructor of the first domain used by the first column? *)
Definition complete (rs : list (list Pat)) (d : Dom) : bool :=
  negb (bool_decide (ctors_of d = [])) && forallb (fun c => bool_decide (c.1 ∈ used rs)) (ctors_of d).

Lemma complete_spec rs d :
  complete rs d = true -> ctors_of d <> [] /\ forall n tys, (n, tys) ∈ ctors_of d -> n ∈ used rs.
Proof.
  unfold complete. rewrite andb_true_iff, negb_true_iff, bool_decide_eq_false. intros [Hne Hall].
  split; [done|]. intros n tys Hin. rewrite forallb_forall in Hall.
  specialize (Hall (n, tys)). rewrite bool_decide_eq_true in Hall. apply Hall. by apply list_elem_of_In.
Qed.

Lemma witness_step fuel r rs d ds :
  exh_witness_rec (S fuel) (r :: rs) (d :: ds) =
  if complete (r :: rs) d then each_ctor (exh_witness_rec fuel) (r :: rs) d ds (ctors_of d)
  else match exh_witness_rec fuel (default_matrix (r :: rs)) ds with
       | None => None
       | Some w => Some (match find (fun c => negb (bool_decide (c.1 ∈ used (r :: rs)))) (ctors_of d) with
                         | Some (name, tys) => wit_ctor d name (replicate (length tys) WWild)
                         | None => WWild
                         end :: w)
       end.
Proof.
  cbn [exh_witness_rec]. fold (complete (r :: rs) d). destruct (complete (r :: rs) d); [|done].
  induction (ctors_of d) as [|[n tys] cs IH]; [done|]. cbn [each_ctor].
  destruct (exh_witness_rec fuel _ _); [done | apply IH].
Qed.

  Context `{CheckerLaws}.

Lemma map_dom_wf tys ds : Forall wf_dom ds -> Forall wf_dom (map dom_of_ty tys ++ ds).
Proof.
  intros Hds. apply Forall_app. split; [|done]. induction tys; simpl; constructor; [|done].
  apply dom_of_ty_wf.
Qed.

Lemma witness_sound fuel rs ds :
  Forall wf_dom ds -> Forall (wf_row ds) rs -> exh_witness_rec fuel rs ds = None -> covers rs ds.
Proof.
  revert rs ds. induction fuel as [|fuel IH]; intros rs ds Hds Hwf E; [done|].
  destruct rs as [|r rs]; [done|]. destruct ds as [|d ds].
  - intros vs Hvs. inversion Hvs; subst. exists r. split; [apply list_elem_of_here|].
    apply list.Forall_cons in Hwf as [Hr _]. inversion Hr. constructor.
  - apply list.Forall_cons in Hds as [Hd Hds]. rewrite witness_step in E.
    destruct (complete (r :: rs) d) eqn:Ec.
    + apply complete_spec in Ec as [Hne _]. apply covers_split; [done..|]. intros n tys Hn.
      destruct (each_ctor_cases (exh_witness_rec fuel) (r :: rs) d ds (ctors_of d))
        as [[_ Hall]|(w & ? & ? & ? & E' & _)]; [|congruence].
      apply IH; [by apply map_dom_wf | by eapply specialize_wf | by apply Hall].
    + apply covers_default; [done|]. apply IH; [done|by eapply default_wf|].
      by destruct (exh_witness_rec fuel _ _).
Qed.

(** ** The search is complete within its depth *)
Definition all_inhabited : Prop := forall ty, exists v, in_dom (dom_of_ty ty) v.

Lemma default_row_forth n args row vs :
  (forall m, row_ctor row = Some m -> m <> n) -> row_matches row (VCtor n args :: vs) ->
  exists r, default_row row = Some r /\ row_matches r vs.
Proof.
  intros Hne Hm. inversion Hm as [|p ? rest ? Hp Hrest]; subst. inversion Hp; subst; simpl; [eauto|].
  by destruct (Hne n).
Qed.

Lemma default_nargs rs : (mat_nargs (default_matrix rs) <= mat_nargs rs)%nat.
Proof.
  unfold mat_nargs, default_matrix, total in *. induction rs as [|row rs IH]; [done|].
  assert (Hrow : forall r, default_row row = Some r -> (row_nargs r <= row_nargs row)%nat).
  { destruct row as [|[|m ps|] rest]; simpl; [done| |done|done]. by intros r [= <-]. }
  cbn [omap list_omap]. destruct (default_row row) as [r|]; simpl;
    [specialize (Hrow r eq_refl)|]; lia.
Qed.

Lemma inhabited_args tys : all_inhabited -> exists vs, Forall2 (fun ty v => in_dom (dom_of_ty ty) v) tys vs.
Proof.
  intros Hinh. induction tys as [|ty tys [vs Hvs]]; [by exists []|].
  destruct (Hinh ty) as [v Hv]. exists (v :: vs). by constructor.
Qed.

Lemma inhabited_doms ds : Forall (fun d => exists v, in_dom d v) ds -> exists vs, Forall2 in_dom ds vs.
Proof.
  induction 1 as [|d ds [v Hv] _ [vs Hvs]]; [by exists [] | exists (v :: vs); by constructor].
Qed.

(** An uncovered value of one constructor, or of none of those used. *)
Definition uncovered (rs : list (list Pat)) (ds : list Dom) : Prop :=
  exists vs, Forall2 in_dom ds vs /\ forall row, row ∈ rs -> ~ row_matches row vs.

Lemma uncovered_split d ds rs n tys :
  (n, tys) ∈ ctors_of d -> uncovered (specialize rs n (length tys)) (map dom_of_ty tys ++ ds) ->
  uncovered rs (d :: ds).
Proof.
  intros Hn (vs & Hvs & Hno). apply Forall2_app_inv_l in Hvs as (args & vs' & Hargs & Hvs & ->).
  apply (Forall2_fmap_l dom_of_ty in_dom) in Hargs. exists (VCtor n args :: vs'). split.
  - constructor; [|done]. by econstructor.
  - intros row Hrow Hm. apply specialize_row_forth in Hm as (r & Hr & Hm).
    rewrite <- (Forall2_length Hargs) in Hr. apply (Hno r); [|done].
    apply list_elem_of_omap. eauto.
Qed.

Lemma uncovered_default d ds rs v :
  in_dom d v -> (forall row m args, row ∈ rs -> v = VCtor m args -> row_ctor row <> Some m) ->
  Forall (wf_row (d :: ds)) rs -> uncovered (default_matrix rs) ds -> uncovered rs (d :: ds).
Proof.
  intros Hv Hunused Hwf (vs & Hvs & Hno). exists (v :: vs). split; [by constructor|].
  intros row Hrow Hm. inversion Hm as [|p ? rest ? Hp Hrest]; subst. inversion Hp; subst.
  - apply (Hno rest); [|done]. apply list_elem_of_omap. by exists (Wild :: rest).
  - eapply Hunused; [done..|]. done.
Qed.

(** A value whose constructor the first column does not use. *)
Lemma unused_value d ds rs :
  all_inhabited -> (exists v, in_dom d v) -> Forall (wf_row (d :: ds)) rs -> complete rs d = false ->
  exists v, in_dom d v /\ forall row m args, row ∈ rs -> v = VCtor m args -> row_ctor row <> Some m.
Proof.
  intros Hinh [v0 Hv0] Hwf Hc. unfold complete in Hc. apply andb_false_iff in Hc as [Hc|Hc].
  - apply negb_false_iff, bool_decide_eq_true in Hc. exists v0. split; [done|].
    intros row m args Hrow _ Hm. rewrite list.Forall_forall in Hwf. specialize (Hwf row Hrow).
    destruct row as [|[|? ps|] rest]; simplify_eq/=. inversion Hwf as [|? ? ? ? Hp]; subst.
    inversion Hp as [| |? ? ? ? Hin]; subst. rewrite Hc in Hin. by apply elem_of_nil in Hin.
  - assert (Hex : exists n tys, (n, tys) ∈ ctors_of d /\ n ∉ used rs).
    { clear Hv0 Hwf. induction (ctors_of d) as [|[n tys] cs IH]; [done|]. simpl in Hc.
      apply andb_false_iff in Hc as [Hn|Hcs].
      - apply bool_decide_eq_false in Hn. exists n, tys. split; [apply list_elem_of_here | done].
      - destruct (IH Hcs) as (n' & tys' & Hin & Hn). exists n', tys'.
        split; [by apply list_elem_of_further | done]. }
    destruct Hex as (n & tys & Hin & Hn). destruct (inhabited_args tys Hinh) as [args Hargs].
    exists (VCtor n args). split; [by econstructor|]. intros row m args' Hrow [= <- <-] Hm.
    apply Hn, list_elem_of_omap. eauto.
Qed.

Lemma witness_complete fuel rs ds w :
  all_inhabited -> Forall wf_dom ds -> Forall (fun d => exists v, in_dom d v) ds ->
  Forall (wf_row ds) rs -> (length ds + mat_nargs rs < fuel)%nat ->
  exh_witness_rec fuel rs ds = Some w -> uncovered rs ds.
Proof.
  intros Hinh. revert rs ds w. induction fuel as [|fuel IH]; intros rs ds w Hds Hne Hwf Hf E; [lia|].
  destruct rs as [|r rs].
  { destruct (inhabited_doms ds Hne) as [vs Hvs]. exists vs. split; [done|]. by intros ? ?%elem_of_nil. }
  destruct ds as [|d ds]; [done|]. rewrite witness_step in E.
  apply list.Forall_cons in Hds as [Hd Hds]. apply list.Forall_cons in Hne as [Hv Hne].
  destruct (complete (r :: rs) d) eqn:Ec.
  - apply complete_spec in Ec as [_ Hused].
    destruct (each_ctor_cases (exh_witness_rec fuel) (r :: rs) d ds (ctors_of d))
      as [[E' _]|(w1 & n & tys & w' & _ & Hin & E')]; [congruence|].
    eapply uncovered_split; [done|]. pose proof (specialize_nargs d ds n tys _ Hd Hin Hwf) as Hdec.
    rewrite decide_True in Hdec by (by eapply Hused).
    eapply IH; [by apply map_dom_wf| |by eapply specialize_wf| |done].
    + apply Forall_app. split; [|done]. apply Forall_fmap, list.Forall_forall. intros ty _. apply Hinh.
    + rewrite length_app, length_map. simpl in Hf. lia.
  - destruct (unused_value d ds _ Hinh Hv Hwf Ec) as (v & Hin & Hun).
    eapply uncovered_default; [done..|].
    destruct (exh_witness_rec fuel (default_matrix (r :: rs)) ds) as [w'|] eqn:E'; [|done].
    pose proof (default_nargs (r :: rs)). simpl in Hf.
    eapply IH; [done|done|by eapply default_wf| |done]. lia.
Qed.

(** ** Lowering is sound *)

(** A lowered pattern: well-formed for its domain, and it matches no more than the source does. *)
Definition lowered (p : Pattern) (d : Dom) (q : Pat) : Prop :=
  wf_pat d q /\ forall v, in_dom d v -> pmatch q v -> smatch p d v.

Lemma lowered_never p d : lowered p d Never.
Proof. split; [constructor|]. intros v _ Hm. inversion Hm. Qed.

Lemma cross_alts_in combo alts next out c :
  cross_alts combo alts next = Some out -> c ∈ out ->
  c ∈ next \/ exists alt, alt ∈ alts /\ c = combo ++ [alt].
Proof.
  revert next. induction alts as [|alt alts IH]; intros next E Hc;
    cbn [cross_alts] in E; [left; congruence|].
  destruct (_ <=? _)%nat; [done|]. destruct (IH _ E Hc) as [Hin|(a & Ha & ->)].
  - apply elem_of_app in Hin as [?| ->%list_elem_of_singleton]; [by left|]. right.
    exists alt. split; [apply list_elem_of_here | done].
  - right. exists a. split; [by apply list_elem_of_further | done].
Qed.

Lemma cross_in combos alts next out c :
  cross combos alts next = Some out -> c ∈ out ->
  c ∈ next \/ exists combo alt, combo ∈ combos /\ alt ∈ alts /\ c = combo ++ [alt].
Proof.
  revert next. induction combos as [|combo combos IH]; intros next E Hc; simpl in E; [left; congruence|].
  destruct (cross_alts combo alts next) as [next'|] eqn:E1; [|done].
  destruct (IH _ E Hc) as [Hin|(co & a & Hco & Ha & ->)].
  - destruct (cross_alts_in _ _ _ _ _ E1 Hin) as [?|(a & Ha & ->)]; [by left|]. right.
    exists combo, a. split; [apply list_elem_of_here | done].
  - right. exists co, a. split; [by apply list_elem_of_further | done].
Qed.

(** The columns of a product: one lowered alternative per sub-pattern. *)
Inductive lowered_all : list Pattern -> list Ty -> list Pat -> Prop :=
| la_nil : lowered_all [] [] []
| la_cons p ps ty tys q qs :
    lowered p (dom_of_ty ty) q -> lowered_all ps tys qs -> lowered_all (p :: ps) (ty :: tys) (q :: qs).

Lemma product_loop_in lower subs tys combos out c :
  Forall (fun sub => forall d q, wf_dom d -> q ∈ lower sub d -> lowered sub d q) subs -> length tys = length subs ->
  product_loop lower subs tys combos = Some out -> c ∈ out ->
  exists combo args, combo ∈ combos /\ c = combo ++ args /\ lowered_all subs tys args.
Proof.
  intros Hl. revert tys combos. induction Hl as [|sub subs Hsub _ IH]; intros [|ty tys] combos Hlen E Hc;
    simpl in *; simplify_eq.
  - exists c, []. split; [done|]. split; [by rewrite app_nil_r | constructor].
  - destruct (cross combos _ []) as [next|] eqn:E1; [|done]. simpl in E.
    destruct (IH tys next Hlen E Hc) as (combo & args & Hin & -> & Hargs).
    destruct (cross_in _ _ _ _ _ E1 Hin) as [?%elem_of_nil|(co & alt & Hco & Halt & ->)]; [done|].
    exists co, (alt :: args). split; [done|]. split; [by rewrite <- app_assoc|].
    constructor; [|done]. apply Hsub; [apply dom_of_ty_wf | done].
Qed.

Lemma lowered_all_wf ps tys qs :
  lowered_all ps tys qs -> Forall2 (fun ty q => wf_pat (dom_of_ty ty) q) tys qs.
Proof. induction 1 as [|? ? ? ? ? ? [Hw _]]; by constructor. Qed.

Lemma lowered_all_match ps tys qs vs :
  lowered_all ps tys qs -> Forall2 (fun ty v => in_dom (dom_of_ty ty) v) tys vs ->
  Forall2 pmatch qs vs -> smatches ps tys vs.
Proof.
  intros Hl. revert vs. induction Hl as [|p ps ty tys q qs [_ Hm] _ IH]; intros vs Hd Hq;
    inversion Hd; subst; inversion Hq; subst; constructor; auto.
Qed.

(** A product lowers a constructor pattern whose source matches its arguments columnwise. *)
Lemma exh_product_lowered lower ctor subs tys d p q :
  wf_dom d -> (ctor, tys) ∈ ctors_of d -> length tys = length subs ->
  Forall (fun sub => forall d q, wf_dom d -> q ∈ lower sub d -> lowered sub d q) subs ->
  (forall vs, smatches subs tys vs -> smatch p d (VCtor ctor vs)) ->
  q ∈ exh_product lower ctor subs tys -> lowered p d q.
Proof.
  intros Hd Hin Hlen Hl Hp. unfold exh_product.
  destruct (product_loop lower subs tys [[]]) as [combos|] eqn:E.
  - intros (c & -> & Hc)%list_elem_of_fmap.
    destruct (product_loop_in _ _ _ _ _ _ Hl Hlen E Hc) as (co & args & ->%list_elem_of_singleton & -> & Ha).
    simpl. split; [econstructor; [done|by eapply lowered_all_wf]|].
    intros v Hv Hm. inversion Hm as [|? ? vs Hvs]; subst. apply Hp.
    inversion Hv as [? ? tys' ? Hin' Hargs|]; subst; [|by apply elem_of_nil in Hin].
    assert (tys' = tys) as -> by (by eapply ctor_unique). by eapply lowered_all_match.
  - intros ->%list_elem_of_singleton. apply lowered_never.
Qed.

Lemma lowered_wild p d : (forall v, smatch p d v) -> lowered p d Wild.
Proof. intros Hp. split; [constructor | by intros]. Qed.

Lemma find_member_in ms n m : find_member ms n = Some m -> m ∈ ms /\ m.1 = n.
Proof.
  unfold find_member. intros E. apply find_some in E as [Hin Hn].
  apply bool_decide_eq_true in Hn. split; [by apply list_elem_of_In | done].
Qed.

Lemma carrier_member_in tag d vname tys :
  carrier_member tag d = Some (vname, tys) ->
  exists pre ms c key ty, d = Sum pre ms c /\ carrier_variant_of_key tag key = Some vname /\
    tys = [ty] /\ (vname, [ty]) ∈ ms.
Proof.
  destruct d as [pre ms c| | |]; cbn [carrier_member]; [|done..]. intros Hh.
  assert (Hm : forall v m, find (fun m : string * list Ty =>
      bool_decide (m.1 = v) && (length m.2 =? 1)%nat) ms = Some m ->
    exists ty, m = (v, [ty]) /\ m ∈ ms).
  { intros v [n ts] [Hin Hb]%find_some. apply andb_true_iff in Hb as [Hn Hl].
    apply bool_decide_eq_true in Hn. apply Nat.eqb_eq in Hl. simpl in *.
    destruct ts as [|ty [|]]; [done| |done]. exists ty. split; [by subst | by apply list_elem_of_In]. }
  apply head_Some_elem_of in Hh.
  apply list_elem_of_omap in Hh as (v & Hv & Hf).
  apply list_elem_of_omap in Hv as (key & Hkey & Hv).
  destruct (Hm v _ Hf) as (ty & [= -> ->] & Hin). by exists pre, ms, c, key, ty.
Qed.

(** The lowering of a sub-pattern is sound at every depth. *)
Definition lower_sound (p : Pattern) : Prop :=
  forall depth d q, wf_dom d -> q ∈ exh_lower depth p d -> lowered p d q.

Ltac only_never := intros ->%list_elem_of_singleton; apply lowered_never.

Lemma lower_sound_at depth ps :
  Forall lower_sound ps ->
  Forall (fun sub => forall d q, wf_dom d -> q ∈ exh_lower (S depth) sub d -> lowered sub d q) ps.
Proof. induction 1 as [|p ps Hp]; constructor; [apply Hp | done]. Qed.

Lemma lower_ident_sound name : lower_sound (PIdent name).
Proof.
  intros depth d q Hd. simpl. destruct (MAX_DEPTH <? depth)%nat; [only_never|].
  intros Hq. assert (Hfall : q ∈ (if is_variant (bare_pattern_name name) then [Never] else [Wild]) ->
    lowered (PIdent name) d q).
  { destruct (is_variant (bare_pattern_name name)) eqn:Ev; [only_never|].
    intros ->%list_elem_of_singleton. apply lowered_wild. intros v. by constructor. }
  destruct d as [pre ms c| | |]; try by apply Hfall.
  destruct (imported_variants name) as [iv|] eqn:Ei; [|by apply Hfall].
  destruct (existsb _ ms) eqn:Ex; [|by apply Hfall].
  apply list_elem_of_singleton in Hq as ->. apply existsb_exists in Ex as ([n ts] & Hin & Hb).
  apply andb_true_iff in Hb as [Hn Hts]. apply bool_decide_eq_true in Hn. simpl in Hn, Hts.
  destruct ts; [|done]. apply list_elem_of_In in Hin. subst n. split; [by econstructor|].
  intros v _ Hm. inversion Hm as [|? ? vs Hvs]; subst. inversion Hvs. by constructor.
Qed.

Lemma lower_variant_sound name bs en mn :
  Forall lower_sound bs -> lower_sound (PVariant name bs en mn).
Proof.
  intros Hbs depth d q Hd. simpl. destruct (MAX_DEPTH <? depth)%nat; [only_never|].
  pose proof (lower_sound_at depth bs Hbs) as Hl.
  assert (Hbinder : q ∈ (if bare_binder name bs en mn then [Wild] else [Never]) ->
    lowered (PVariant name bs en mn) d q).
  { destruct (bare_binder name bs en mn) eqn:Eb; [|only_never]. intros ->%list_elem_of_singleton.
    unfold bare_binder in Eb. rewrite !andb_true_iff, !bool_decide_eq_true, negb_true_iff in Eb.
    destruct Eb as [[[-> ->] Hnil] Hv], bs; [|done]. apply lowered_wild. intros v. by constructor. }
  destruct d as [pre ms c|label tys| |]; try by apply Hbinder.
  - destruct (find_member ms _) as [[vname tys]|] eqn:Ef; [|by apply Hbinder].
    destruct (length tys =? length bs)%nat eqn:El; [|by apply Hbinder]. apply Nat.eqb_eq in El.
    apply find_member_in in Ef as [Hin Hn]. simpl in Hn.
    apply exh_product_lowered; [done..|]. intros vs Hvs. by econstructor.
  - destruct (decide (label = "")); [by apply Hbinder|].
    destruct (_ && _) eqn:Er; [|only_never].
    apply andb_true_iff in Er as [Er El]. apply Nat.eqb_eq in El.
    apply exh_product_lowered; [done|by apply list_elem_of_singleton|done|done|].
    intros vs Hvs. by constructor.
Qed.

Lemma lower_tuple_sound ps : Forall lower_sound ps -> lower_sound (PTuple ps).
Proof.
  intros Hps depth d q Hd. simpl. destruct (MAX_DEPTH <? depth)%nat; [only_never|].
  destruct d as [|label tys| |]; try only_never.
  destruct (_ && _) eqn:Er; [|only_never].
  apply andb_true_iff in Er as [->%bool_decide_eq_true El]. apply Nat.eqb_eq in El.
  apply exh_product_lowered;
    [done|by apply list_elem_of_singleton|done|by apply lower_sound_at|].
  intros vs Hvs. by constructor.
Qed.

Lemma lower_carrier_sound tag p : lower_sound p -> lower_sound (PCarrier tag p).
Proof.
  intros Hp depth d q Hd. simpl. destruct (MAX_DEPTH <? depth)%nat; [only_never|].
  destruct (carrier_member tag d) as [[vname tys]|] eqn:Ec; [|only_never].
  apply carrier_member_in in Ec as (pre & ms & c & key & ty & -> & Hkey & -> & Hin).
  apply exh_product_lowered; [done..|by apply lower_sound_at; constructor|].
  intros vs Hvs. inversion Hvs as [|? ? ? ? ? ? Hv Hnil]; subst. inversion Hnil; subst.
  by econstructor.
Qed.

Lemma exh_lower_sound p : lower_sound p.
Proof.
  induction p as [name|name bs en mn IH|ps IH|l|? ? ?| |ps IH|tag p IH] using Pattern_nested_ind.
  - apply lower_ident_sound.
  - by apply lower_variant_sound.
  - by apply lower_tuple_sound.
  - intros depth d q Hd. simpl. destruct (MAX_DEPTH <? depth)%nat; [only_never|].
    destruct l as [| | |b]; try only_never. destruct d; try only_never.
    intros ->%list_elem_of_singleton. split.
    + apply (wf_ctor _ _ []); [|constructor]. destruct b; simpl; in_list.
    + intros v _ Hm. inversion Hm as [|? ? vs Hvs]; subst. inversion Hvs. constructor.
  - intros depth d q Hd. simpl. destruct (MAX_DEPTH <? depth)%nat; only_never.
  - intros depth d q Hd. simpl. destruct (MAX_DEPTH <? depth)%nat; [only_never|].
    intros ->%list_elem_of_singleton. apply lowered_wild. intros v. constructor.
  - intros depth d q Hd. simpl. destruct (MAX_DEPTH <? depth)%nat; [only_never|].
    intros (alt & Halt & Hq)%list_elem_of_In%in_flat_map.
    apply list_elem_of_In in Halt, Hq. rewrite list.Forall_forall in IH.
    destruct (IH alt Halt (S depth) d q Hd Hq) as [Hwf Hm]. split; [done|].
    intros v Hv Hpm. eapply sm_or; [done | by apply Hm].
  - by apply lower_carrier_sound.
Qed.

(** ** The check of a whole [match] *)

(** The arms in order, each with its guard flag, and [has_wildcard |= exh_add(..)] of [check_match]. *)
Definition exh_arm (s : option ExhCheck * bool) (arm : Pattern * bool) : option ExhCheck * bool :=
  let '(e, b) := exh_add s.1 arm.1 arm.2 in (e, s.2 || b).
Definition exh_arms (e : option ExhCheck) (arms : list (Pattern * bool)) : option ExhCheck * bool :=
  foldl exh_arm (e, false) arms.

(** Every row comes from an unguarded arm and matches no more than it. *)
Definition rows_from (arms : list (Pattern * bool)) (chk : ExhCheck) : Prop :=
  Forall (fun row => exists p q, (p, false) ∈ arms /\ row = [q] /\ lowered p (dom chk) q) (rows chk).

Lemma push_rows_in rs alts out over row :
  push_rows rs alts = (out, over) -> row ∈ out -> row ∈ rs \/ exists q, q ∈ alts /\ row = [q].
Proof.
  revert rs. induction alts as [|alt alts IH]; intros rs E Hr; cbn [push_rows] in E; [left; congruence|].
  destruct (_ <=? _)%nat; [left; congruence|].
  destruct (IH _ E Hr) as [Hin|(q & Hq & ->)].
  - apply elem_of_app in Hin as [?| ->%list_elem_of_singleton]; [by left|].
    right. exists alt. split; [apply list_elem_of_here | done].
  - right. exists q. split; [by apply list_elem_of_further | done].
Qed.

Lemma exh_add_rows arms chk p g :
  wf_dom (dom chk) -> rows_from arms chk ->
  exists chk' b, exh_add (Some chk) p g = (Some chk', b) /\ dom chk' = dom chk /\
    rows_from (arms ++ [(p, g)]) chk' /\ (b = true -> covers (rows chk') [dom chk']).
Proof.
  intros Hd Hrows. assert (Hmono : forall rs o, Forall (fun row => exists p q, (p, false) ∈ arms /\
      row = [q] /\ lowered p (dom chk) q) rs -> rows_from (arms ++ [(p, g)]) (mkExh rs (dom chk) o)).
  { intros rs o. unfold rows_from. simpl. rewrite !list.Forall_forall. intros Hf row Hr.
    destruct (Hf row Hr) as (p' & q & Hin & Hq). exists p', q. split; [|done].
    apply elem_of_app. by left. }
  assert (Hcov : forall rs o, rows_from (arms ++ [(p, g)]) (mkExh rs (dom chk) o) ->
    exh_witness rs (dom chk) = None -> covers rs [dom chk]).
  { intros rs o Hf Ew. eapply witness_sound; [by repeat constructor| |exact Ew].
    unfold rows_from in Hf. simpl in Hf. eapply list.Forall_impl; [exact Hf|].
    intros row (p' & q & _ & -> & Hw & _). by repeat constructor. }
  unfold exh_add. destruct (overflow chk) eqn:Eo.
  { eexists _, _. split; [done|]. split; [done|]. split; [|done]. destruct chk. by apply Hmono. }
  destruct (if g then _ else _) as [rs over] eqn:Ers.
  assert (Hf : rows_from (arms ++ [(p, g)]) (mkExh rs (dom chk) over)).
  { destruct g; [injection Ers as <- <-; by apply Hmono|]. unfold rows_from. simpl.
    apply list.Forall_forall. intros row Hr.
    destruct (push_rows_in _ _ _ _ _ Ers Hr) as [Hin|(q & Hq & ->)].
    - unfold rows_from in Hrows. rewrite list.Forall_forall in Hrows.
      destruct (Hrows row Hin) as (p' & q & Hp' & Hq). exists p', q. split; [apply elem_of_app; by left | done].
    - exists p, q. split; [apply elem_of_app; right; by apply list_elem_of_singleton|]. split; [done|]. by eapply exh_lower_sound. }
  destruct over.
  - exists (mkExh rs (dom chk) true), false. by repeat (split; [done|]).
  - eexists (mkExh rs (dom chk) false), _. split; [reflexivity|]. split; [done|]. split; [done|].
    simpl. destruct (exh_witness rs (dom chk)) eqn:Ew; [done|]. intros _. by eapply Hcov.
Qed.

(** Every value of the domain matches one of the unguarded arms. *)
Definition exhaustive (arms : list (Pattern * bool)) (d : Dom) : Prop :=
  forall v, in_dom d v -> exists p, (p, false) ∈ arms /\ smatch p d v.

Lemma covers_exhaustive arms chk :
  rows_from arms chk -> covers (rows chk) [dom chk] -> exhaustive arms (dom chk).
Proof.
  intros Hrows Hcov v Hv. destruct (Hcov [v]) as (row & Hr & Hm); [by repeat constructor|].
  unfold rows_from in Hrows. rewrite list.Forall_forall in Hrows.
  destruct (Hrows row Hr) as (p & q & Hin & -> & _ & Hq). exists p. split; [done|].
  inversion Hm; subst. by apply Hq.
Qed.

Lemma exhaustive_app arms arms' d : exhaustive arms d -> exhaustive (arms ++ arms') d.
Proof.
  intros He v Hv. destruct (He v Hv) as (p & Hp & Hm). exists p. split; [|done].
  apply elem_of_app. by left.
Qed.

Lemma exh_arms_inv arms seen chk has :
  wf_dom (dom chk) -> rows_from seen chk -> (has = true -> exhaustive seen (dom chk)) ->
  exists chk' has', foldl exh_arm (Some chk, has) arms = (Some chk', has') /\ dom chk' = dom chk /\
    rows_from (seen ++ arms) chk' /\ (has' = true -> exhaustive (seen ++ arms) (dom chk)).
Proof.
  revert seen chk has. induction arms as [|[p g] arms IH]; intros seen chk has Hd Hrows Hhas; cbn [foldl].
  - exists chk, has. by rewrite app_nil_r.
  - destruct (exh_add_rows seen chk p g Hd Hrows) as (chk1 & b & E & Ed & Hr1 & Hc1).
    change (exh_arm (Some chk, has) (p, g)) with (let '(e, b) := exh_add (Some chk) p g in (e, has || b)).
    rewrite E, <- Ed. rewrite cons_middle, (assoc_L (++)).
    apply IH; rewrite ?Ed; [done|done|]. intros [?|?]%orb_true_iff.
    + by apply exhaustive_app, Hhas.
    + rewrite <- Ed. by apply covers_exhaustive, Hc1.
Qed.

(** The variants of a scrutinee are the keys of a [HashMap]. *)
Definition kind_ok (kind : MatchKind) : Prop :=
  match kind with MVariants _ vs _ => NoDup vs.*1 | _ => True end.

(** C20: the exhaustiveness check only accepts exhaustive matches.  When the flag of the arm loop of
    [check_match] is raised by the pattern matrix, every value of the scrutinee's domain matches one
    of the unguarded arms: no row lost to [MAX_ROWS] or [MAX_DEPTH], no guarded arm and no pattern
    shape the lowering cannot model ever makes a match look covered. *)
Theorem exh_arms_sound kind chk arms e :
  kind_ok kind -> exh_new kind = Some chk -> exh_arms (Some chk) arms = (e, true) ->
  forall v, in_dom (dom chk) v -> exists p, (p, false) ∈ arms /\ smatch p (dom chk) v.
Proof.
  intros Hk Hnew Hrun.
  assert (Hd : wf_dom (dom chk) /\ rows chk = []).
  { destruct kind as [label vs ?| |tys|label fields targs|]; simpl in *; simplify_eq; simpl;
      (split; [|done]); [by apply sum_dom_wf|apply NoDup_singleton..]. }
  destruct Hd as [Hd Hnil].
  destruct (exh_arms_inv arms [] chk false Hd) as (chk' & has & E & _ & _ & Hex); [|done|].
  - unfold rows_from. by rewrite Hnil.
  - unfold exh_arms in Hrun. rewrite E in Hrun. injection Hrun as _ ->. by apply Hex.
Qed.

(** Within its depth the search decides coverage.  For a matrix whose constructor arguments
    number less than [MAX_DEPTH] in all, the search reports "covered" exactly when every value of
    the domain matches a row; so a reported witness means a value is really missed. *)
Lemma exh_witness_decides rs d :
  all_inhabited -> (exists v, in_dom d v) -> wf_dom d -> Forall (wf_row [d]) rs ->
  (mat_nargs rs < MAX_DEPTH)%nat ->
  exh_witness rs d = None <-> (forall v, in_dom d v -> exists row, row ∈ rs /\ row_matches row [v]).
Proof.
  intros Hinh Hv Hd Hwf Hn. unfold exh_witness. split.
  - intros E v Hv1. apply (witness_sound (S MAX_DEPTH) rs [d]); [by repeat constructor|done|done|].
    by repeat constructor.
  - intros Hcov. destruct (exh_witness_rec (S MAX_DEPTH) rs [d]) as [w|] eqn:E; [exfalso|done].
    assert (Hds : Forall wf_dom [d]) by (by repeat constructor).
    assert (Hvs : Forall (fun d => exists v, in_dom d v) [d]) by (by repeat constructor).
    assert (Hlt : (length [d] + mat_nargs rs < S MAX_DEPTH)%nat) by (cbn [length]; lia).
    destruct (witness_complete _ _ _ _ Hinh Hds Hvs Hwf Hlt E) as (vs & Hin & Hno).
    inversion Hin as [|? v ? vs' Hv1 Hnil]; subst. inversion Hnil; subst.
    destruct (Hcov v Hv1) as (row & Hr & Hm). by apply (Hno row).
Qed.
End spec.

(** ** Instances *)
Module ExhDemo.

(** The prelude alone: [Option] and its two variants. *)
#[export] Instance tables : CheckerTables := {
  imported_variants name :=
    if decide (name ∈ ["Some"; "None"]) then Some (mkImported "Option" name) else None;
  variant_owners _ := false;
  is_const_decl _ := false;
  resolve_struct_ctor _ _ _ _ := false;
  struct_fields_of _ := None;
  variants_of ty := match ty with TOption t => Some [("Some", [t]); ("None", [])] | _ => None end;
}.

#[export] Instance laws : CheckerLaws.
Proof.
  intros ty vs Hv. destruct ty; simpl in Hv; simplify_eq.
  by apply (bool_decide_unpack (NoDup ["Some"; "None"])).
Qed.

Fixpoint inhabited (t : Ty) : exists v, in_dom (dom_of_ty t) v.
Proof.
  destruct t; try (exists (VOther 0); constructor).
  - exists (VCtor "true" []). apply (in_ctor _ _ []); simpl; [in_list | constructor].
  - assert (Hall : exists vs, Forall2 (fun t v => in_dom (dom_of_ty t) v) ts vs).
    { induction ts as [|t ts [vs Hvs]]; [by exists []|].
      destruct (inhabited t) as [v Hv]. exists (v :: vs). by constructor. }
    destruct Hall as [vs Hvs]. exists (VCtor "" vs).
    apply (in_ctor _ _ ts); [by apply list_elem_of_singleton | done].
  - exists (VCtor "None" []). apply (in_ctor _ _ []); [|constructor].
    change (("None", []) ∈ [("None", []); ("Some", [t])]). in_list.
Qed.

(** A match on a pair of a [bool?] and a [bool]. *)
Definition kind : MatchKind := MTuple [TOption TBool; TBool].
Definition start : ExhCheck := mkExh [] (Prod "" [TOption TBool; TBool]) false.
Definition lit (b : bool) : Pattern := PLiteral (LBool b).
Definition arms : list (Pattern * bool) :=
  [(PTuple [PIdent "None"; PWildcard], false);
   (PTuple [PCarrier Present (lit true); PIdent "x"], false);
   (PTuple [PCarrier Present (lit false); POr [lit true; lit false]], false)].

(** Without the last arm the check names what is missed. *)
Example help_text :
  exh_help (exh_arms (Some start) (take 2 arms)).1 = Some "pattern `(?false, _)` is not covered".
Proof. vm_compute. reflexivity. Qed.

(** Two arms that split fourteen columns on the first one cover every value, and the search gives up
    before it can see it: at its depth limit the answer is "not covered". *)
Definition wide : list (list Pat) :=
  [[Ctor "" (Ctor "true" [] :: replicate 13 Wild)]; [Ctor "" (Ctor "false" [] :: replicate 13 Wild)]].
End ExhDemo.
Import ExhDemo.

Lemma exh_arms_sound_witness :
  exists p, (p, false) ∈ arms /\
    smatch p (Prod "" [TOption TBool; TBool]) (VCtor "" [VCtor "Some" [VCtor "false" []]; VCtor "true" []]).
Proof.
  apply (exh_arms_sound kind start arms (exh_arms (Some start) arms).1); [exact I|reflexivity| |].
  - vm_compute. reflexivity.
  - apply (in_ctor _ _ [TOption TBool; TBool]); [by apply list_elem_of_singleton|].
    constructor; [|constructor; [|constructor]].
    + apply (in_ctor _ _ [TBool]).
      * change (("Some", [TBool]) ∈ [("None", []); ("Some", [TBool])]). in_list.
      * constructor; [|constructor]. apply (in_ctor _ _ []); simpl; [in_list | constructor].
    + apply (in_ctor _ _ []); simpl; [in_list | constructor].
Defined.

(** Past its depth limit the search rejects.  Two arms that split a tuple of fourteen booleans on
    its first column cover every value, yet the search returns a witness: [MAX_DEPTH] errs on the
    side of "not covered". *)
Lemma exh_depth_limit_rejects :
  exh_witness wide (Prod "" (replicate 14 TBool)) <> None /\
  covers wide [Prod "" (replicate 14 TBool)].
Proof.
  split; [vm_compute; congruence|].
  intros vs Hvs. inversion Hvs as [|? v ? vs' Hv Hnil]; subst. inversion Hnil; subst.
  inversion Hv as [? n tys args Hin Hargs|]; subst.
  apply list_elem_of_singleton in Hin. injection Hin as -> ->.
  inversion Hargs as [|? b ? rest Hb Hrest]; subst.
  apply Forall2_length in Hrest. symmetry in Hrest. simpl in Hrest.
  assert (Hrow : forall name, pmatch (Ctor "" (Ctor name [] :: replicate 13 Wild))
    (VCtor "" (VCtor name [] :: rest))).
  { intros name. constructor. constructor; [by repeat constructor|]. by apply matches_wilds. }
  inversion Hb as [? n tys args Hin Hnone|]; subst. simpl in Hin.
  rewrite !elem_of_cons in Hin. destruct Hin as [[= -> ->]|[[= -> ->]|[]%elem_of_nil]];
    inversion Hnone; subst; eexists; (split; [|by constructor; [apply Hrow | constructor]]);
    unfold wide; in_list.
Qed.
