(* ===== verification/Width.v ===== *)
(** * The runner gate: [src/src/vm/width.rs]

    [WidthGate] hands at most [cap] permits to threads in arrival order.  Its free-permit path is
    lock-free (a CAS on [held]); a thread that finds no free permit queues a ticket under the mutex
    and sleeps on a condition variable.  The model is an interleaving of the threads' atomic steps:
    one step per access to the shared atomics [held] and [waiting], per mutex acquire and release,
    per condition-variable wait and notify.  The CAS loop of [try_take] is one step, that of its
    last read: a successful CAS sees [h + ahead < cap], a failing read sees [h + ahead >= cap], and a
    retry changes nothing.  A sleeping thread may wake without a notify.  Tickets are unbounded
    (the source counts them in a [u64]); [cap] does not change during a run. *)

From S2P Require Import Prelude.
Local Open Scope nat_scope.

(** Where a thread is in a gate operation. *)
Inductive pc :=
| Idle
(* [acquire_slot] *)
| AFast | ATry (ahead : nat) | ALock | AQueue | AAdd | ALoop | AWait | ASleep | ARelock
| AGot (pos : nat) | ASub | AMore | AUnlock (more : bool) | ANotify | APanic
(* [try_acquire] *)
| TFast | TTry (ahead : nat)
(* [release] *)
| RCheck | RLock | RNotify
(* [reserve] of the slot of thread [s] *)
| VHeld (s : nat) | VWait (s h : nat) | VLock (s : nat) | VQueue (s : nat) | VAdd | VUnlock
(* [cancel] of the thread's own slot *)
| CLock | CSwap | CSub | CUnlock (removed : bool) | CNotify.

(** A thread: does it own a permit, where it is, and its slot's [ticket] (0 is none, else ticket + 1). *)
Record Thr := mkThr { own : bool; at_ : pc; ticket : nat }.

(** [WidthGate] with its [GateSt] and the mutex holder. *)
Record Gate := mkGate {
  held : nat; queue : list nat; next_ticket : nat; waiting : nat;
  lock : option nat; threads : list Thr;
}.

Definition new_gate (n : nat) : Gate := mkGate 0 [] 0 0 None (replicate n (mkThr false Idle 0)).

(** What a thread starts, or that it goes on, or that it wakes for no reason. *)
Inductive action := Acquire | TryAcquire | Release | Reserve (s : nat) | Cancel | Go | Spurious.

Definition set_thr (i : nat) (t : Thr) (g : Gate) : Gate :=
  mkGate (held g) (queue g) (next_ticket g) (waiting g) (lock g) (<[i := t]> (threads g)).
Definition go (i : nat) (t : Thr) (p : pc) (g : Gate) : Gate := set_thr i (mkThr (own t) p (ticket t)) g.
Definition with_held (h : nat) (g : Gate) : Gate :=
  mkGate h (queue g) (next_ticket g) (waiting g) (lock g) (threads g).
Definition with_waiting (w : nat) (g : Gate) : Gate :=
  mkGate (held g) (queue g) (next_ticket g) w (lock g) (threads g).
Definition with_lock (l : option nat) (g : Gate) : Gate :=
  mkGate (held g) (queue g) (next_ticket g) (waiting g) l (threads g).
Definition with_queue (q : list nat) (n : nat) (g : Gate) : Gate :=
  mkGate (held g) q n (waiting g) (lock g) (threads g).

(** Take the mutex, if free. *)
Definition take_lock (i : nat) (t : Thr) (p : pc) (g : Gate) : option Gate :=
  match lock g with None => Some (with_lock (Some i) (go i t p g)) | Some _ => None end.

(** [notify_all]. *)
Definition wake (t : Thr) : Thr :=
  match at_ t with ASleep => mkThr (own t) ARelock (ticket t) | _ => t end.
Definition notify_all (g : Gate) : Gate :=
  mkGate (held g) (queue g) (next_ticket g) (waiting g) (lock g) (wake <$> threads g).

(** [iter().position(|q| *q == me)]. *)
Fixpoint position (me : nat) (q : list nat) : option nat :=
  match q with
  | [] => None
  | x :: q => if x =? me then Some 0 else S <$> position me q
  end.

Section gate.
  Context (cap : nat).

(** [try_take(ahead)]: on success the thread owns a permit and goes on at [p]. *)
Definition try_take (i : nat) (t : Thr) (ahead : nat) (yes no : pc) (g : Gate) : Gate :=
  if held g + ahead <? cap
  then with_held (S (held g)) (set_thr i (mkThr true yes (ticket t)) g)
  else go i t no g.

(** [queue.push_back(t)] and [slot.ticket.store(t + 1)] for the slot of thread [s]. *)
Definition enqueue (s : nat) (ts : Thr) (g : Gate) : Gate :=
  with_queue (queue g ++ [next_ticket g]) (S (next_ticket g))
    (set_thr s (mkThr (own ts) (at_ ts) (S (next_ticket g))) g).

(** [acquire_slot]. *)
Definition step_acquire (i : nat) (t : Thr) (g : Gate) : option Gate :=
  match at_ t with
  | AFast => Some (go i t (ATry (waiting g)) g)
  | ATry ahead => Some (try_take i t ahead Idle ALock g)
  | ALock => take_lock i t AQueue g
  | AQueue =>
      Some (if ticket t =? 0 then enqueue i (mkThr (own t) AAdd (ticket t)) (go i t AAdd g)
            else go i t ALoop g)
  | AAdd => Some (with_waiting (S (waiting g)) (go i t ALoop g))
  | ALoop =>
      match position (ticket t - 1) (queue g) with
      | None => Some (go i t APanic g)
      | Some pos => Some (try_take i t pos (AGot pos) AWait g)
      end
  | AWait => Some (with_lock None (go i t ASleep g))
  | ARelock => take_lock i t ALoop g
  | AGot pos =>
      Some (with_queue (delete pos (queue g)) (next_ticket g) (set_thr i (mkThr (own t) ASub 0) g))
  | ASub => Some (with_waiting (waiting g - 1) (go i t AMore g))
  | AMore =>
      let more := negb (match queue g with [] => true | _ => false end) && (held g <? cap) in
      Some (go i t (AUnlock more) g)
  | AUnlock more => Some (with_lock None (go i t (if more then ANotify else Idle) g))
  | ANotify => Some (notify_all (go i t Idle g))
  | _ => None
  end.

(** [try_acquire], past its own-ticket check. *)
Definition step_try (i : nat) (t : Thr) (g : Gate) : option Gate :=
  match at_ t with
  | TFast => Some (go i t (TTry (waiting g)) g)
  | TTry ahead => Some (try_take i t ahead Idle Idle g)
  | _ => None
  end.

(** [release], past its [fetch_sub]. *)
Definition step_release (i : nat) (t : Thr) (g : Gate) : option Gate :=
  match at_ t with
  | RCheck => Some (go i t (if 0 <? waiting g then RLock else Idle) g)
  | RLock => match lock g with None => Some (go i t RNotify g) | Some _ => None end
  | RNotify => Some (notify_all (go i t Idle g))
  | _ => None
  end.

Definition step_reserve (i : nat) (t : Thr) (g : Gate) : option Gate :=
  match at_ t with
  | VHeld s => Some (go i t (VWait s (held g)) g)
  | VWait s h => Some (go i t (if h + waiting g <? cap then Idle else VLock s) g)
  | VLock s => take_lock i t (VQueue s) g
  | VQueue s =>
      let g1 := go i t VAdd g in
      match threads g1 !! s with
      | Some ts =>
          Some (if (ticket ts =? 0) && (cap <=? held g + length (queue g))
                then enqueue s ts g1 else go i t VUnlock g)
      | None => None
      end
  | VAdd => Some (with_waiting (S (waiting g)) (go i t VUnlock g))
  | VUnlock => Some (with_lock None (go i t Idle g))
  | _ => None
  end.

Definition step_cancel (i : nat) (t : Thr) (g : Gate) : option Gate :=
  match at_ t with
  | CLock => take_lock i t CSwap g
  | CSwap =>
      Some (if ticket t =? 0 then go i t (CUnlock false) g
            else with_queue (filter (fun q => q <> ticket t - 1) (queue g)) (next_ticket g)
                   (set_thr i (mkThr (own t) CSub 0) g))
  | CSub => Some (with_waiting (waiting g - 1) (go i t (CUnlock true) g))
  | CUnlock removed => Some (with_lock None (go i t (if removed then CNotify else Idle) g))
  | CNotify => Some (notify_all (go i t Idle g))
  | _ => None
  end.

(** One step of thread [i]. *)
Definition tstep (i : nat) (a : action) (g : Gate) : option Gate :=
  t ← threads g !! i;
  match a, at_ t with
  | Acquire, Idle =>
      if own t then None else Some (go i t (if ticket t =? 0 then AFast else ALock) g)
  | TryAcquire, Idle =>
      if own t then None else Some (if ticket t =? 0 then go i t TFast g else g)
  | Release, Idle =>
      if own t
      then Some (with_held (held g - 1) (set_thr i (mkThr false RCheck (ticket t)) g)) else None
  | Reserve s, Idle => Some (go i t (VHeld s) g)
  | Cancel, Idle => Some (if ticket t =? 0 then g else go i t CLock g)
  | Spurious, ASleep => Some (go i t ARelock g)
  | Go, AFast | Go, ATry _ | Go, ALock | Go, AQueue | Go, AAdd | Go, ALoop | Go, AWait | Go, ARelock
  | Go, AGot _ | Go, ASub | Go, AMore | Go, AUnlock _ | Go, ANotify => step_acquire i t g
  | Go, TFast | Go, TTry _ => step_try i t g
  | Go, RCheck | Go, RLock | Go, RNotify => step_release i t g
  | Go, VHeld _ | Go, VWait _ _ | Go, VLock _ | Go, VQueue _ | Go, VAdd | Go, VUnlock => step_reserve i t g
  | Go, CLock | Go, CSwap | Go, CSub | Go, CUnlock _ | Go, CNotify => step_cancel i t g
  | _, _ => None
  end.

(** A run of the gate with [n] threads. *)
Inductive reachable (n : nat) : Gate -> Prop :=
| reach_start : reachable n (new_gate n)
| reach_step g i a g' : reachable n g -> tstep i a g = Some g' -> reachable n g'.

(** A schedule, for concrete runs. *)
Fixpoint exec (g : Gate) (sched : list (nat * action)) : option Gate :=
  match sched with [] => Some g | (i, a) :: sched => g ← tstep i a g; exec g sched end.

(** ** Classes of places *)

(** The mutex is held there. *)
Definition locked (p : pc) : bool :=
  match p with
  | AQueue | AAdd | ALoop | AWait | AGot _ | ASub | AMore | AUnlock _ | APanic
  | VQueue _ | VAdd | VUnlock | CSwap | CSub | CUnlock _ => true
  | _ => false
  end.
(** [waiting] is one less, or one more, than the queue's length. *)
Definition add_due (p : pc) : bool := match p with AAdd | VAdd => true | _ => false end.
Definition sub_due (p : pc) : bool := match p with ASub | CSub => true | _ => false end.
(** The thread's slot has a ticket there; it counts in [waiting] already. *)
Definition counted (p : pc) : bool :=
  match p with ALoop | AWait | ASleep | ARelock | AGot _ => true | _ => false end.
Definition ticketed (p : pc) : bool := match p with AAdd => true | p => counted p end.
(** The thread asks for a permit and has none. *)
Definition asking (p : pc) : bool :=
  match p with
  | AFast | ATry _ | ALock | AQueue | AAdd | ALoop | AWait | ASleep | ARelock | TFast | TTry _ => true
  | _ => false
  end.
(** A notify is certain to come, also to a thread that holds the mutex now. *)
Definition strong (p : pc) : bool := match p with RCheck | RLock => true | _ => false end.
Definition pending (p : pc) : bool :=
  match p with RCheck | RLock | RNotify | ANotify | CSub | CUnlock true | CNotify => true | _ => false end.
(** Places where the queue and [waiting] agree. *)
Definition is_got (p : pc) : bool := match p with AGot _ => true | _ => false end.
Definition neutral (p : pc) : bool := negb (add_due p || sub_due p || is_got p).

(** ** The invariant *)
Definition owners (g : Gate) : nat := length (filter (fun t => own t = true) (threads g)).

(** Where the thread with the mutex is. *)
Definition holder (g : Gate) : option pc := i ← lock g; at_ <$> threads g !! i.
(** The queue without the ticket of a thread that just took its permit. *)
Definition qeff (h : option pc) (q : list nat) : list nat :=
  match h with Some (AGot p) => delete p q | _ => q end.
(** [waiting] less the queue's length. *)
Definition drift (h : option pc) : Z :=
  match h with
  | Some p => if add_due p then -1 else if sub_due p then 1 else 0
  | None => 0
  end%Z.

Definition local_ok (g : Gate) (t : Thr) : Prop :=
  (ticketed (at_ t) = true -> ticket t <> 0) /\ (asking (at_ t) = true -> own t = false) /\
  (forall p, at_ t = AGot p -> queue g !! p = Some (ticket t - 1)) /\ at_ t <> APanic /\
  (counted (at_ t) = true -> 1 <= waiting g).

(** The ticket of [t] could be granted now. *)
Definition grantable (g : Gate) (t : Thr) : Prop :=
  exists pos, qeff (holder g) (queue g) !! pos = Some (ticket t - 1) /\ held g + pos < cap.
Definition somewhere (P : pc -> bool) (g : Gate) : Prop :=
  exists j u, threads g !! j = Some u /\ P (at_ u) = true.

Record inv (g : Gate) : Prop := {
  i_held : held g = owners g;
  i_cap : held g <= cap;
  i_lock : forall i t, threads g !! i = Some t -> locked (at_ t) = true <-> lock g = Some i;
  i_holder : forall i, lock g = Some i -> is_Some (threads g !! i);
  i_wait : Z.of_nat (waiting g) = (Z.of_nat (length (queue g)) + drift (holder g))%Z;
  i_nodup : NoDup (queue g);
  i_next : forall q, q ∈ queue g -> q < next_ticket g;
  i_tick : forall i t q, threads g !! i = Some t -> ticket t = S q -> q ∈ queue g;
  i_inj : forall i j t u q, threads g !! i = Some t -> threads g !! j = Some u ->
    ticket t = S q -> ticket u = S q -> i = j;
  i_local : forall i t, threads g !! i = Some t -> local_ok g t;
  i_await : forall i t, threads g !! i = Some t -> at_ t = AWait -> grantable g t -> somewhere strong g;
  i_sleep : forall i t, threads g !! i = Some t -> at_ t = ASleep -> grantable g t -> somewhere pending g;
}.

Lemma inv_start n : inv (new_gate n).
Proof.
  assert (Hall : forall i t, replicate n (mkThr false Idle 0) !! i = Some t -> t = mkThr false Idle 0).
  { intros i t Ht. by apply lookup_replicate in Ht as [-> _]. }
  constructor; simpl.
  - unfold owners. simpl. clear. induction n; simpl; [done|]. by rewrite filter_cons_False by (simpl; congruence).
  - lia.
  - by intros i t ->%Hall.
  - done.
  - done.
  - constructor.
  - intros q Hq. by apply elem_of_nil in Hq.
  - by intros i t q ->%Hall.
  - by intros i j t u q ->%Hall.
  - intros i t ->%Hall. by repeat split.
  - by intros i t ->%Hall.
  - by intros i t ->%Hall.
Qed.

(** ** Steps that move one thread *)
Lemma lookup_go i t p g j u :
  threads (go i t p g) !! j = Some u ->
  (j = i /\ u = mkThr (own t) p (ticket t)) \/ (j <> i /\ threads g !! j = Some u).
Proof. intros [(<- & -> & _)|[? ?]]%list_lookup_insert_Some; [by left | by right]. Qed.

Lemma owners_set i t u g :
  threads g !! i = Some t ->
  owners (set_thr i u g) + (if own t then 1 else 0) = owners g + (if own u then 1 else 0).
Proof.
  intros Hi. unfold owners. simpl. rewrite insert_take_drop by (by eapply lookup_lt_Some).
  rewrite <- (take_drop_middle (threads g) i t Hi) at 3.
  rewrite !list.filter_app, !length_app, !filter_cons.
  destruct (own t) eqn:Et, (own u) eqn:Eu; repeat case_decide; simpl; try congruence; lia.
Qed.

Lemma owners_go i t p g : threads g !! i = Some t -> owners (go i t p g) = owners g.
Proof. intros Hi. pose proof (owners_set i t (mkThr (own t) p (ticket t)) g Hi) as E. unfold go. simpl in E. lia. Qed.

(** The mutex after a step of thread [i] from [p] to [p']: kept, taken or dropped. *)
Definition lock_move (i : nat) (p p' : pc) (l l' : option nat) : Prop :=
  (l' = l /\ locked p' = locked p) \/ (l = None /\ l' = Some i /\ locked p' = true) \/
  (l = Some i /\ l' = None /\ locked p' = false).

Lemma somewhere_go P i t p' l g :
  threads g !! i = Some t -> somewhere P g -> (P (at_ t) = true -> P p' = true) ->
  somewhere P (with_lock l (go i t p' g)).
Proof.
  intros Hi (j & u & Hj & Hu) Hp. pose proof (lookup_lt_Some _ _ _ Hi) as Hlt.
  destruct (decide (j = i)) as [->|Hne].
  - exists i, (mkThr (own t) p' (ticket t)). simpl. rewrite list_lookup_insert_eq by done.
    split; [done|]. simpl. apply Hp. congruence.
  - exists j, u. simpl. by rewrite list_lookup_insert_ne by done.
Qed.

(** Where the mutex holder is after the step. *)
Lemma holder_go i t p' l' g :
  threads g !! i = Some t -> lock_move i (at_ t) p' (lock g) l' ->
  holder (with_lock l' (go i t p' g)) = holder g \/
  ((holder g = Some (at_ t) \/ holder g = None) /\
   (holder (with_lock l' (go i t p' g)) = Some p' \/ holder (with_lock l' (go i t p' g)) = None)).
Proof.
  intros Hi Hm. pose proof (lookup_lt_Some _ _ _ Hi) as Hlt. unfold holder. simpl.
  destruct Hm as [[-> _]|[(-> & -> & _)|(-> & -> & _)]]; simpl.
  - destruct (lock g) as [k|]; simpl; [|by left]. destruct (decide (k = i)) as [->|].
    + right. rewrite Hi, list_lookup_insert_eq by done. auto.
    + left. by rewrite list_lookup_insert_ne by done.
  - right. rewrite list_lookup_insert_eq by done. auto.
  - right. rewrite Hi. auto.
Qed.

Lemma neutral_holder h q : (forall p, h = Some p -> neutral p = true) -> qeff h q = q /\ drift h = 0%Z.
Proof.
  intros Hn. destruct h as [p|]; [|done]. specialize (Hn p eq_refl). unfold neutral in Hn.
  apply negb_true_iff in Hn. apply orb_false_iff in Hn as [[Ha Hs]%orb_false_iff Hg]. simpl.
  rewrite Ha, Hs. by destruct p.
Qed.

Lemma holder_same i t p' l' g :
  threads g !! i = Some t -> lock_move i (at_ t) p' (lock g) l' ->
  neutral (at_ t) = true -> neutral p' = true ->
  (forall q, qeff (holder (with_lock l' (go i t p' g))) q = qeff (holder g) q) /\
  drift (holder (with_lock l' (go i t p' g))) = drift (holder g).
Proof.
  intros Hi Hm Hn Hn'. destruct (holder_go i t p' l' g Hi Hm) as [->|[Hh Hh']]; [done|].
  assert (Hq : forall h p, neutral p = true -> h = Some p \/ h = None ->
    (forall q, qeff h q = q) /\ drift h = 0%Z).
  { intros h p Hp Hh0. assert (Hall : forall p0, h = Some p0 -> neutral p0 = true) 
      by (intros p0 ->; by destruct Hh0 as [[= ->]|]).
    split; [intros q|]; by apply (neutral_holder h []) || by apply (neutral_holder h q). }
  destruct (Hq _ _ Hn Hh) as [E1 E2], (Hq _ _ Hn' Hh') as [E3 E4].
  split; [intros q; by rewrite E1, E3 | by rewrite E2, E4].
Qed.

Lemma lock_move_ok i t p' l' g j u :
  (forall i t, threads g !! i = Some t -> locked (at_ t) = true <-> lock g = Some i) ->
  threads g !! i = Some t -> lock_move i (at_ t) p' (lock g) l' ->
  threads (go i t p' g) !! j = Some u -> locked (at_ u) = true <-> l' = Some j.
Proof.
  intros Hl Hi Hm [[-> ->]|[Hne Hj]]%lookup_go.
  - simpl. specialize (Hl i t Hi).
    destruct Hm as [[-> ->]|[(_ & -> & ->)|(_ & -> & ->)]]; [done|done|done].
  - rewrite (Hl j u Hj). destruct Hm as [[-> _]|[(-> & -> & _)|(-> & -> & _)]]; [done| |];
      split; congruence.
Qed.

Lemma strong_pending g : somewhere strong g -> somewhere pending g.
Proof. intros (j & u & Hj & Hu). exists j, u. split; [done|]. by destruct (at_ u). Qed.

(** A step that moves one thread, and perhaps the mutex, and changes nothing else. *)
Lemma go_inv i t p' l' g :
  inv g -> threads g !! i = Some t -> lock_move i (at_ t) p' (lock g) l' ->
  neutral (at_ t) = true -> neutral p' = true ->
  local_ok g (mkThr (own t) p' (ticket t)) ->
  (p' = AWait -> ~ grantable g t) -> (p' = ASleep -> at_ t = AWait) ->
  (strong (at_ t) = true -> strong p' = true \/ forall j u, threads g !! j = Some u -> at_ u <> AWait) ->
  (pending (at_ t) = true -> pending p' = true \/ forall j u, threads g !! j = Some u -> at_ u <> ASleep) ->
  inv (with_lock l' (go i t p' g)).
Proof.
  intros I Hi Hm Hn Hn' Hloc Hwait Hsleep Hstr Hpend.
  destruct (holder_same i t p' l' g Hi Hm Hn Hn') as [Eq Ed].
  assert (Hgr : forall u, grantable (with_lock l' (go i t p' g)) u <-> grantable g u).
  { intros u. unfold grantable. simpl. setoid_rewrite Eq. done. }
  constructor; simpl.
  - rewrite (i_held _ I). symmetry. exact (owners_go i t p' g Hi).
  - apply (i_cap _ I).
  - intros j u. by apply (lock_move_ok i t p' l' g), Hm; [apply (i_lock _ I)|].
  - intros j Hj. apply lookup_lt_is_Some. rewrite length_insert.
    destruct Hm as [[-> _]|[(_ & -> & _)|(_ & -> & _)]]; [|simplify_eq|done].
    + by apply lookup_lt_is_Some, (i_holder _ I).
    + by eapply lookup_lt_Some.
  - rewrite Ed. apply (i_wait _ I).
  - apply (i_nodup _ I).
  - apply (i_next _ I).
  - intros j u q [[-> ->]|[Hne Hj]]%lookup_go; simpl; [by apply (i_tick _ I i t) | by apply (i_tick _ I j u)].
  - intros j k u v q [[-> ->]|[Hne Hj]]%lookup_go [[-> ->]|[Hne' Hk]]%lookup_go; simpl; try done;
      intros; by eapply (i_inj _ I).
  - intros j u [[-> ->]|[Hne Hj]]%lookup_go; [done|]. by apply (i_local _ I j u).
  - intros j u [[-> ->]|[Hne Hj]]%lookup_go Hat Hg; apply Hgr in Hg; simpl in *.
    + by destruct (Hwait Hat).
    + destruct (i_await _ I j u Hj Hat Hg) as (k & v & Hk & Hv).
      apply (somewhere_go strong i t p' l' g Hi); [by exists k, v|].
      intros Hs. destruct (Hstr Hs) as [|Hno]; [done|]. by destruct (Hno j u Hj).
  - intros j u [[-> ->]|[Hne Hj]]%lookup_go Hat Hg; apply Hgr in Hg; simpl in *.
    + apply (somewhere_go pending i t p' l' g Hi); [|by rewrite (Hsleep Hat)].
      apply strong_pending. by apply (i_await _ I i t Hi (Hsleep Hat)).
    + destruct (i_sleep _ I j u Hj Hat Hg) as (k & v & Hk & Hv).
      apply (somewhere_go pending i t p' l' g Hi); [by exists k, v|].
      intros Hs. destruct (Hpend Hs) as [|Hno]; [done|]. by destruct (Hno j u Hj).
Qed.

(** ** The other steps *)

(** While thread [i] has the mutex no other thread is about to wait. *)
Lemma alone i j t u g :
  inv g -> threads g !! i = Some t -> locked (at_ t) = true ->
  threads g !! j = Some u -> locked (at_ u) = true -> j = i.
Proof.
  intros I Hi Ht Hj Hu. apply (i_lock _ I i t Hi) in Ht. apply (i_lock _ I j u Hj) in Hu. congruence.
Qed.

Lemma holder_at i t g : inv g -> threads g !! i = Some t -> locked (at_ t) = true -> holder g = Some (at_ t).
Proof.
  intros I Hi Ht. unfold holder. rewrite (proj1 (i_lock _ I i t Hi) Ht). simpl. by rewrite Hi.
Qed.

Lemma counted_in_queue j u g :
  inv g -> threads g !! j = Some u -> ticketed (at_ u) = true -> ticket u - 1 ∈ queue g /\ 1 <= length (queue g).
Proof.
  intros I Hj Hu. destruct (i_local _ I j u Hj) as (Htk & _). specialize (Htk Hu).
  assert (Hin : ticket u - 1 ∈ queue g) by (apply (i_tick _ I j u); [done|lia]).
  split; [done|]. destruct (queue g); [by apply elem_of_nil in Hin | simpl; lia].
Qed.

(** [waiting] catches up with the queue. *)
Lemma wait_inv i t p' w g :
  inv g -> threads g !! i = Some t -> locked (at_ t) = true -> locked p' = true ->
  is_got (at_ t) = false -> neutral p' = true -> w = length (queue g) ->
  local_ok (with_waiting w g) (mkThr (own t) p' (ticket t)) ->
  strong (at_ t) = false -> (pending (at_ t) = true -> pending p' = true) -> p' <> AWait ->
  inv (with_waiting w (go i t p' g)).
Proof.
  intros I Hi Ht Ht' Hgot Hn' -> Hloc Hs Hp Hnw. pose proof (lookup_lt_Some _ _ _ Hi) as Hlt.
  pose proof (holder_at i t g I Hi Ht) as Hh.
  assert (Hl : lock g = Some i) by (by apply (i_lock _ I i t)).
  assert (Hh' : holder (with_waiting (length (queue g)) (go i t p' g)) = Some p').
  { unfold holder. simpl. rewrite Hl. simpl. by rewrite list_lookup_insert_eq by done. }
  destruct (neutral_holder (Some p') (queue g)) as [Eq' Ed']; [by intros ? [= <-]|].
  assert (Eq : qeff (holder g) (queue g) = queue g) by (rewrite Hh; by destruct (at_ t)).
  assert (Hgr : forall u, grantable (with_waiting (length (queue g)) (go i t p' g)) u <-> grantable g u).
  { intros u. unfold grantable. rewrite Hh', Eq. simpl in *. by rewrite Eq'. }
  constructor; simpl; try apply I.
  - rewrite (i_held _ I). symmetry. exact (owners_go i t p' g Hi).
  - intros j u Hj. apply (lock_move_ok i t p' (lock g) g); [apply (i_lock _ I)|done| |done].
    left. by rewrite Ht, Ht'.
  - intros j Hj. apply lookup_lt_is_Some. rewrite length_insert.
    by apply lookup_lt_is_Some, (i_holder _ I).
  - rewrite Hh', Ed'. lia.
  - intros j u q [[-> ->]|[Hne Hj]]%lookup_go; simpl; [by apply (i_tick _ I i t) | by apply (i_tick _ I j u)].
  - intros j k u v q [[-> ->]|[Hne Hj]]%lookup_go [[-> ->]|[Hne' Hk]]%lookup_go; simpl; try done;
      intros; by eapply (i_inj _ I).
  - intros j u [[-> ->]|[Hne Hj]]%lookup_go; [done|].
    destruct (i_local _ I j u Hj) as (A & B & C & D & _). repeat (split; [done|]). intros Hc.
    apply (counted_in_queue j u g I Hj). by destruct (at_ u).
  - intros j u [[-> ->]|[Hne Hj]]%lookup_go Hat _; simpl in *; [done|].
    assert (Hlu : locked (at_ u) = true) by (by rewrite Hat).
    by destruct Hne; apply (alone i j t u g).
  - intros j u [[-> ->]|[Hne Hj]]%lookup_go Hat Hg; simpl in *; [by subst|].
    apply Hgr in Hg. destruct (i_sleep _ I j u Hj Hat Hg) as (k & v & Hk & Hv).
    destruct (somewhere_go pending i t p' (lock g) g Hi) as (k' & v' & Hk' & Hv'); [by exists k, v|done|].
    by exists k', v'.
Qed.

(** A thread takes a permit. *)
Lemma grant_inv i t p' g :
  inv g -> threads g !! i = Some t -> own t = false -> held g < cap ->
  locked p' = locked (at_ t) -> asking (at_ t) = true -> p' = Idle \/ (exists pos, p' = AGot pos) ->
  neutral (at_ t) = true ->
  local_ok g (mkThr true p' (ticket t)) ->
  (forall u, grantable (with_held (S (held g)) (set_thr i (mkThr true p' (ticket t)) g)) u -> grantable g u) ->
  inv (with_held (S (held g)) (set_thr i (mkThr true p' (ticket t)) g)).
Proof.
  intros I Hi Ho Hcap Hl Hask Hp' Hn Hloc Hgr. pose proof (lookup_lt_Some _ _ _ Hi) as Hlt.
  set (g' := with_held (S (held g)) (set_thr i (mkThr true p' (ticket t)) g)).
  set (t0 := mkThr true (at_ t) (ticket t)).
  assert (Hlk : forall j u, threads g' !! j = Some u ->
    (j = i /\ u = mkThr true p' (ticket t)) \/ (j <> i /\ threads g !! j = Some u)).
  { intros j u [(<- & -> & _)|[? ?]]%list_lookup_insert_Some; [by left | by right]. }
  assert (Hsome : forall P, P (at_ t) = false -> somewhere P g -> somewhere P g').
  { intros P HP (k & v & Hk & Hv). exists k, v. split; [|done]. simpl.
    rewrite list_lookup_insert_ne; [done|]. intros <-. congruence. }
  assert (Hwt : drift (holder g') = drift (holder g)).
  { unfold holder. simpl. destruct (lock g) as [k|]; [|done]. simpl.
    destruct (decide (k = i)) as [->|]; [|by rewrite list_lookup_insert_ne by done].
    rewrite Hi, list_lookup_insert_eq by done. cbn [fmap option_fmap option_map at_].
    destruct (neutral_holder (Some (at_ t)) []) as [_ ->]; [by intros ? [= <-]|].
    destruct Hp' as [->|[pos ->]]; done. }
  constructor; simpl; try apply I.
  - pose proof (owners_set i t (mkThr true p' (ticket t)) g Hi) as E. rewrite Ho in E. simpl in E.
    pose proof (i_held _ I). unfold owners in *. simpl in *. lia.
  - done.
  - intros j u [[-> ->]|[Hne Hj]]%Hlk; simpl; [rewrite Hl; by apply (i_lock _ I) | by apply (i_lock _ I)].
  - intros j Hj. apply lookup_lt_is_Some. rewrite length_insert.
    by apply lookup_lt_is_Some, (i_holder _ I).
  - rewrite Hwt. apply (i_wait _ I).
  - intros j u q [[-> ->]|[Hne Hj]]%Hlk; simpl; [by apply (i_tick _ I i t) | by apply (i_tick _ I j u)].
  - intros j k u v q [[-> ->]|[Hne Hj]]%Hlk [[-> ->]|[Hne' Hk]]%Hlk; simpl; try done;
      intros; by eapply (i_inj _ I).
  - intros j u [[-> ->]|[Hne Hj]]%Hlk; [done | by apply (i_local _ I j u)].
  - intros j u [[-> ->]|[Hne Hj]]%Hlk Hat Hg; simpl in *; [by destruct Hp' as [->|[pos ->]]|].
    apply Hsome; [by destruct (at_ t)|]. by apply (i_await _ I j u Hj Hat), Hgr.
  - intros j u [[-> ->]|[Hne Hj]]%Hlk Hat Hg; simpl in *; [by destruct Hp' as [->|[pos ->]]|].
    apply Hsome; [by destruct (at_ t)|]. by apply (i_sleep _ I j u Hj Hat), Hgr.
Qed.

(** A thread gives its permit back: its wake is pending from then on. *)
Lemma release_inv i t g :
  inv g -> threads g !! i = Some t -> at_ t = Idle -> own t = true ->
  inv (with_held (held g - 1) (set_thr i (mkThr false RCheck (ticket t)) g)).
Proof.
  intros I Hi Hat0 Ho. pose proof (lookup_lt_Some _ _ _ Hi) as Hlt.
  set (g' := with_held _ _).
  assert (Hlk : forall j u, threads g' !! j = Some u ->
    (j = i /\ u = mkThr false RCheck (ticket t)) \/ (j <> i /\ threads g !! j = Some u)).
  { intros j u [(<- & -> & _)|[? ?]]%list_lookup_insert_Some; [by left | by right]. }
  assert (Hi' : threads g' !! i = Some (mkThr false RCheck (ticket t))).
  { simpl. by rewrite list_lookup_insert_eq by done. }
  assert (Hh : holder g' = holder g).
  { unfold holder. simpl. destruct (lock g) as [k|] eqn:El; [|done]. simpl.
    destruct (decide (k = i)) as [->|]; [|by rewrite list_lookup_insert_ne by done].
    apply (i_lock _ I i t Hi) in El. rewrite Hat0 in El. done. }
  constructor; simpl; try apply I.
  - pose proof (owners_set i t (mkThr false RCheck (ticket t)) g Hi) as E. rewrite Ho in E. simpl in E.
    pose proof (i_held _ I). unfold owners in *. simpl in *. lia.
  - pose proof (i_cap _ I). lia.
  - intros j u [[-> ->]|[Hne Hj]]%Hlk; simpl; [|by apply (i_lock _ I)].
    rewrite <- (i_lock _ I i t Hi). by rewrite Hat0.
  - intros j Hj. apply lookup_lt_is_Some. rewrite length_insert.
    by apply lookup_lt_is_Some, (i_holder _ I).
  - rewrite Hh. apply (i_wait _ I).
  - intros j u q [[-> ->]|[Hne Hj]]%Hlk; simpl; [by apply (i_tick _ I i t) | by apply (i_tick _ I j u)].
  - intros j k u v q [[-> ->]|[Hne Hj]]%Hlk [[-> ->]|[Hne' Hk]]%Hlk; simpl; try done;
      intros; by eapply (i_inj _ I).
  - intros j u [[-> ->]|[Hne Hj]]%Hlk; [by repeat split | by apply (i_local _ I j u)].
  - intros j u _ _ _. by exists i, (mkThr false RCheck (ticket t)).
  - intros j u _ _ _. by exists i, (mkThr false RCheck (ticket t)).
Qed.

(** A ticket joins the queue, for the slot of [s]. *)
Lemma enqueue_inv i t p s ts g :
  inv g -> threads g !! i = Some t -> locked (at_ t) = true -> neutral (at_ t) = true ->
  (p = AAdd /\ s = i /\ own t = false) \/ p = VAdd ->
  threads (go i t p g) !! s = Some ts -> ticket ts = 0 ->
  pending (at_ t) = false ->
  inv (enqueue s ts (go i t p g)).
Proof.
  intros I Hi Ht Hn Hp Hs Htk0 Hpend. pose proof (lookup_lt_Some _ _ _ Hi) as Hlt.
  pose proof (lookup_lt_Some _ _ _ Hs) as Hslt. simpl in Hslt. rewrite length_insert in Hslt.
  assert (Hl : lock g = Some i) by (by apply (i_lock _ I i t)).
  set (g' := enqueue s ts (go i t p g)). set (n := next_ticket g).
  assert (Hlp : locked p = true) by (by destruct Hp as [[-> _]| ->]).
  (* a thread of the new state, and what it was *)
  assert (Hlk : forall j u, threads g' !! j = Some u -> exists u0, threads g !! j = Some u0 /\
      own u = own u0 /\ (j = i /\ at_ u = p \/ j <> i /\ at_ u = at_ u0) /\
      (j = s /\ ticket u = S n /\ ticket u0 = 0 \/ j <> s /\ ticket u = ticket u0)).
  { intros j u Hj. simpl in Hj.
    apply list_lookup_insert_Some in Hj as [(<- & <- & _)|[Hne Hj]].
    - simpl in Hs. apply list_lookup_insert_Some in Hs as [(<- & <- & _)|[Hne Hs]].
      + exists t. simpl in *. by repeat split; auto.
      + exists ts. simpl. by repeat split; auto.
    - apply list_lookup_insert_Some in Hj as [(<- & <- & _)|[Hne' Hj]].
      + exists t. simpl. by repeat split; auto.
      + exists u. by repeat split; auto. }
  assert (Hh : holder g' = Some p).
  { unfold holder. simpl. rewrite Hl. simpl.
    destruct (threads g' !! i) as [u|] eqn:Eu; simpl in Eu; [|apply lookup_ge_None in Eu; rewrite !length_insert in Eu; lia].
    rewrite Eu. destruct (Hlk i u Eu) as (u0 & _ & _ & [[_ E]|[? _]] & _); [by simpl; rewrite E | done]. }
  assert (Hq : qeff (holder g') (queue g') = queue g ++ [n]).
  { rewrite Hh. by destruct Hp as [[-> _]| ->]. }
  assert (Hq0 : qeff (holder g) (queue g) = queue g).
  { rewrite (holder_at i t g I Hi Ht). by apply neutral_holder; intros ? [= <-]. }
  assert (Hold : forall j u q, threads g !! j = Some u -> ticket u = S q -> q < n).
  { intros j u q Hj E. by apply (i_next _ I), (i_tick _ I j u). }
  assert (Hpos : forall j u pos, threads g !! j = Some u -> ticket u <> 0 ->
    (queue g ++ [n]) !! pos = Some (ticket u - 1) -> queue g !! pos = Some (ticket u - 1)).
  { intros j u pos Hj Hne [Hq1|[_ Hq1]]%lookup_app_Some; [done|].
    apply list_lookup_singleton_Some in Hq1 as [_ E]. 
    pose proof (Hold j u (ticket u - 1) Hj ltac:(lia)). lia. }
  constructor.
  - pose proof (owners_set s ts (mkThr (own ts) (at_ ts) (S n)) (go i t p g) Hs) as E.
    rewrite (owners_go i t p g Hi) in E. cbn [own] in E.
    change (held g = owners (set_thr s (mkThr (own ts) (at_ ts) (S n)) (go i t p g))).
    rewrite (i_held _ I). lia.
  - apply (i_cap _ I).
  - intros j u (u0 & Hj & _ & Hat & _)%Hlk. simpl. rewrite <- (i_lock _ I j u0 Hj).
    destruct Hat as [[-> ->]|[_ ->]]; [|done]. rewrite Hlp. by assert (u0 = t) as -> by congruence.
  - intros j Hj. apply lookup_lt_is_Some. simpl. rewrite !length_insert.
    by apply lookup_lt_is_Some, (i_holder _ I).
  - rewrite Hh. simpl. rewrite length_app. simpl. pose proof (i_wait _ I) as Hw.
    rewrite (holder_at i t g I Hi Ht) in Hw.
    destruct (neutral_holder (Some (at_ t)) []) as [_ E]; [by intros ? [= <-]|]. rewrite E in Hw.
    replace (add_due p) with true by (by destruct Hp as [[-> _]| ->]). lia.
  - simpl. apply list.NoDup_app. split; [apply I|]. split; [|apply NoDup_singleton].
    intros q Hq1 ->%list_elem_of_singleton. apply (i_next _ I) in Hq1. lia.
  - simpl. intros q [Hq1| ->%list_elem_of_singleton]%elem_of_app; [apply (i_next _ I) in Hq1; lia|lia].
  - intros j u q (u0 & Hj & _ & _ & Htk)%Hlk E. simpl. apply elem_of_app.
    destruct Htk as [(-> & E1 & _)|[_ E1]]; [right; apply list_elem_of_singleton; subst n; lia|].
    left. apply (i_tick _ I j u0); [done|congruence].
  - intros j k u v q (u0 & Hj & _ & _ & Hu)%Hlk (v0 & Hk & _ & _ & Hv)%Hlk E1 E2.
    destruct Hu as [(-> & E3 & _)|[_ E3]], Hv as [(-> & E4 & _)|[_ E4]]; [done| | |].
    + assert (q < n) by (eapply Hold; [exact Hk|congruence]). assert (q = n) by congruence. lia.
    + assert (q < n) by (eapply Hold; [exact Hj|congruence]). assert (q = n) by congruence. lia.
    + apply (i_inj _ I j k u0 v0 q); [done|done|congruence|congruence].
  - intros j u (u0 & Hj & Eo & Hat & Htk)%Hlk. destruct (i_local _ I j u0 Hj) as (A & B & C & D & F).
    destruct Hat as [[-> Hat]|[Hji Hat]].
    + unfold local_ok. rewrite Hat, Eo. assert (u0 = t) as -> by congruence.
      destruct Hp as [(-> & -> & Ho)| ->]; [|by repeat split].
      repeat split; try done. destruct Htk as [(_ & -> & _)|[? _]]; [done|congruence].
    + unfold local_ok. rewrite Hat, Eo. split; [|split; [done|split; [|split; [done|done]]]].
      * intros Hti. specialize (A Hti). destruct Htk as [(_ & -> & _)|[_ ->]]; lia.
      * intros pos Hgot. exfalso. apply Hji. eapply (alone i j t u0 g I Hi Ht Hj). by rewrite Hgot.
  - intros j u (u0 & Hj & _ & Hat & _)%Hlk E _. exfalso. destruct Hat as [[-> Hat]|[Hji Hat]].
    + rewrite E in Hat. by destruct Hp as [[-> _]| ->].
    + apply Hji. eapply (alone i j t u0 g I Hi Ht Hj). by rewrite <- Hat, E.
  - intros j u (u0 & Hj & _ & Hat & Htk)%Hlk E (pos & Hpos' & Hlt'). destruct Hat as [[-> Hat]|[Hji Hat]].
    { rewrite E in Hat. by destruct Hp as [[-> _]| ->]. }
    assert (Hu0 : ticket u0 <> 0) by (apply (i_local _ I j u0 Hj); by rewrite <- Hat, E).
    destruct Htk as [(_ & _ & ?)|[_ Etk]]; [done|]. rewrite Hq, Etk in Hpos'.
    assert (Hg : grantable g u0) by (exists pos; rewrite Hq0; split; [by eapply Hpos | done]).
    rewrite E in Hat. destruct (i_sleep _ I j u0 Hj (eq_sym Hat) Hg) as (k & v & Hk & Hv).
    destruct (threads g' !! k) as [v'|] eqn:Ek.
    + destruct (Hlk k v' Ek) as (v0 & Hv0 & _ & [[-> _]|[_ Hav]] & _); [congruence|].
      exists k, v'. split; [done|]. rewrite Hav. congruence.
    + apply lookup_ge_None in Ek. simpl in Ek. rewrite !length_insert in Ek. apply lookup_lt_Some in Hk. lia.
Qed.

(** The thread's own ticket leaves the queue. *)
Lemma leave_inv i t p' q' g :
  inv g -> threads g !! i = Some t -> locked (at_ t) = true -> ticket t <> 0 ->
  p' = ASub \/ p' = CSub -> drift (Some (at_ t)) = 0%Z -> queue g ≡ₚ (ticket t - 1) :: q' ->
  pending (at_ t) = false ->
  pending p' = true \/ (forall u, grantable (with_queue q' (next_ticket g) (set_thr i (mkThr (own t) p' 0) g)) u ->
    grantable g u) ->
  inv (with_queue q' (next_ticket g) (set_thr i (mkThr (own t) p' 0) g)).
Proof.
  intros I Hi Ht Htk Hp' Hd Hq Hnp Hgr. pose proof (lookup_lt_Some _ _ _ Hi) as Hlt.
  assert (Hl : lock g = Some i) by (by apply (i_lock _ I i t)).
  set (g' := with_queue _ _ _).
  assert (Hlk : forall j u, threads g' !! j = Some u ->
    (j = i /\ u = mkThr (own t) p' 0) \/ (j <> i /\ threads g !! j = Some u)).
  { intros j u [(<- & -> & _)|[? ?]]%list_lookup_insert_Some; [by left | by right]. }
  assert (Hi' : threads g' !! i = Some (mkThr (own t) p' 0)).
  { simpl. by rewrite list_lookup_insert_eq by done. }
  assert (Hh : holder g' = Some p') by (unfold holder; simpl; rewrite Hl; simpl in *; by rewrite Hi').
  assert (Hsub : forall q, q ∈ q' -> q ∈ queue g) by (intros q Hin; rewrite Hq; by apply list_elem_of_further).
  assert (Hother : forall j u, j <> i -> threads g !! j = Some u -> locked (at_ u) = true -> False).
  { intros j u Hne Hj Hu. by destruct Hne; apply (alone i j t u g). }
  pose proof (i_nodup _ I) as HN. rewrite Hq in HN. apply list.NoDup_cons in HN as [Hnin HN].
  constructor; simpl.
  - pose proof (owners_set i t (mkThr (own t) p' 0) g Hi) as E. cbn [own] in E.
    change (held g = owners (set_thr i (mkThr (own t) p' 0) g)). rewrite (i_held _ I). lia.
  - apply (i_cap _ I).
  - intros j u [[-> ->]|[Hne Hj]]%Hlk; simpl; [|by apply (i_lock _ I)].
    rewrite Hl. by destruct Hp' as [->| ->].
  - intros j Hj. apply lookup_lt_is_Some. rewrite length_insert.
    by apply lookup_lt_is_Some, (i_holder _ I).
  - rewrite Hh. pose proof (i_wait _ I) as Hw. rewrite (holder_at i t g I Hi Ht), Hd, Hq in Hw.
    simpl in Hw |- *. destruct Hp' as [->| ->]; simpl; lia.
  - done.
  - intros q Hin. by apply (i_next _ I), Hsub.
  - intros j u q [[-> ->]|[Hne Hj]]%Hlk E; simpl in *; [done|].
    pose proof (i_tick _ I j u q Hj E) as Hin. rewrite Hq in Hin.
    apply elem_of_cons in Hin as [->|]; [|done]. destruct Hne. eapply (i_inj _ I); [done..|lia].
  - intros j k u v q [[-> ->]|[Hne Hj]]%Hlk [[-> ->]|[Hne' Hk]]%Hlk; simpl; try done.
    intros. by eapply (i_inj _ I).
  - intros j u [[-> ->]|[Hne Hj]]%Hlk; [by destruct Hp' as [->| ->]; repeat split|].
    destruct (i_local _ I j u Hj) as (A & B & C & D & F). repeat (split; [done|]). split; [|done].
    intros pos Hpos. destruct (Hother j u Hne Hj). by rewrite Hpos.
  - intros j u [[-> ->]|[Hne Hj]]%Hlk Hat _; simpl in *; [by destruct Hp' as [->| ->]|].
    destruct (Hother j u Hne Hj). by rewrite Hat.
  - intros j u [[-> ->]|[Hne Hj]]%Hlk Hat Hg; simpl in *; [by destruct Hp' as [->| ->]|].
    destruct Hgr as [Hpend|Hgr]; [by exists i, (mkThr (own t) p' 0)|].
    destruct (i_sleep _ I j u Hj Hat (Hgr u Hg)) as (k & v & Hk & Hv). exists k, v. split; [|done]. simpl.
    rewrite list_lookup_insert_ne; [done|]. intros <-. congruence.
Qed.

(** Every sleeper wakes. *)
Lemma lookup_notify g j u :
  threads (notify_all g) !! j = Some u <-> exists u0, threads g !! j = Some u0 /\ u = wake u0.
Proof.
  simpl. rewrite list_lookup_fmap_Some.
  split; intros (u0 & E1 & E2); by exists u0.
Qed.

Lemma wake_keeps u :
  own (wake u) = own u /\ ticket (wake u) = ticket u /\ locked (at_ (wake u)) = locked (at_ u) /\
  ticketed (at_ (wake u)) = ticketed (at_ u) /\ asking (at_ (wake u)) = asking (at_ u) /\
  counted (at_ (wake u)) = counted (at_ u) /\ at_ (wake u) <> ASleep /\
  (locked (at_ u) = true \/ strong (at_ u) = true -> at_ (wake u) = at_ u) /\
  (locked (at_ (wake u)) = true -> at_ (wake u) = at_ u).
Proof. unfold wake. destruct u as [o [] tk]; simpl; repeat split; try done; intros [?|?]; done. Qed.

Lemma owners_wake (l : list Thr) :
  length (filter (fun t => own t = true) (wake <$> l)) = length (filter (fun t => own t = true) l).
Proof.
  induction l as [|u l IH]; [done|]. rewrite fmap_cons, !filter_cons.
  destruct (wake_keeps u) as (E & _). rewrite E. case_decide; simpl; lia.
Qed.

Lemma notify_inv i t g :
  inv g -> threads g !! i = Some t -> locked (at_ t) = false -> strong (at_ t) = false ->
  inv (notify_all (go i t Idle g)).
Proof.
  intros I Hi Hl Hs. pose proof (lookup_lt_Some _ _ _ Hi) as Hlt.
  set (g' := notify_all _).
  assert (Hlk : forall j u, threads g' !! j = Some u ->
    (j = i /\ u = mkThr (own t) Idle (ticket t)) \/ (exists u0, j <> i /\ threads g !! j = Some u0 /\ u = wake u0)).
  { intros j u (u0 & [[-> ->]|[Hne Hj]]%lookup_go & ->)%lookup_notify; [by left | right; eauto]. }
  assert (Hh : holder g' = holder g).
  { unfold holder. simpl. destruct (lock g) as [k|] eqn:El; [|done]. simpl.
    destruct (i_holder _ I k El) as [u Hu]. rewrite list_lookup_fmap.
    pose proof (proj2 (i_lock _ I k u Hu) El) as Hlu.
    assert (k <> i) by (intros ->; congruence).
    rewrite list_lookup_insert_ne, Hu by done. simpl. f_equal.
    destruct (wake_keeps u) as (_ & _ & _ & _ & _ & _ & _ & E & _). apply E. by left. }
  constructor; rewrite ?Hh; simpl.
  - unfold owners. simpl. rewrite owners_wake.
    pose proof (owners_go i t Idle g Hi) as E. unfold owners in E. simpl in E. rewrite E. apply (i_held _ I).
  - apply (i_cap _ I).
  - intros j u [[-> ->]|(u0 & Hne & Hj & ->)]%Hlk.
    + rewrite <- (i_lock _ I i t Hi). by rewrite Hl.
    + destruct (wake_keeps u0) as (_ & _ & -> & _). by apply (i_lock _ I).
  - intros j Hj. apply lookup_lt_is_Some. rewrite length_fmap, length_insert.
    by apply lookup_lt_is_Some, (i_holder _ I).
  - apply (i_wait _ I).
  - apply (i_nodup _ I).
  - apply (i_next _ I).
  - intros j u q [[-> ->]|(u0 & Hne & Hj & ->)]%Hlk E; [by apply (i_tick _ I i t)|].
    destruct (wake_keeps u0) as (_ & Et & _). rewrite Et in E. by apply (i_tick _ I j u0).
  - assert (Hold : forall j u q, threads g' !! j = Some u -> ticket u = S q ->
      exists u0, threads g !! j = Some u0 /\ ticket u0 = S q).
    { intros j u q [[-> ->]|(u0 & Hne & Hj & ->)]%Hlk E; [by exists t|]. exists u0.
      destruct (wake_keeps u0) as (_ & Et & _). by rewrite <- Et. }
    intros j k u v q Hj Hk E1 E2. destruct (Hold j u q Hj E1) as (u0 & ? & ?), (Hold k v q Hk E2) as (v0 & ? & ?).
    by eapply (i_inj _ I).
  - intros j u [[-> ->]|(u0 & Hne & Hj & ->)]%Hlk; [by repeat split|].
    destruct (i_local _ I j u0 Hj) as (A & B & C & D & F).
    destruct (wake_keeps u0) as (E1 & E2 & E3 & E4 & E5 & E6 & E7 & E8 & E9).
    unfold local_ok. rewrite E1, E2, E4, E5, E6. simpl. repeat (split; [done|]). split; [|split; [|done]].
    + intros p Hp. apply C. rewrite <- E9; [done|]. by rewrite Hp.
    + intros Hp. apply D. rewrite <- E9; [done|]. by rewrite Hp.
  - intros j u [[-> ->]|(u0 & Hne & Hj & ->)]%Hlk Hat (pos & Hpos & Hc); [done|]. rewrite Hh in Hpos.
    destruct (wake_keeps u0) as (_ & Et & _ & _ & _ & _ & _ & _ & E9).
    assert (Hat0 : at_ u0 = AWait) by (rewrite <- E9; [done|by rewrite Hat]). rewrite Et in Hpos.
    destruct (i_await _ I j u0 Hj Hat0) as (k & v & Hk & Hv); [by exists pos|].
    exists k, (wake v). split.
    + apply lookup_notify. exists v. split; [|done]. simpl. rewrite list_lookup_insert_ne; [done|].
      intros <-. congruence.
    + destruct (wake_keeps v) as (_ & _ & _ & _ & _ & _ & _ & E & _). rewrite E; [done | by right].
  - intros j u [[-> ->]|(u0 & Hne & Hj & ->)]%Hlk Hat _; [done|].
    by destruct (wake_keeps u0) as (_ & _ & _ & _ & _ & _ & E7 & _).
Qed.

(** ** Every step keeps the invariant *)
Lemma position_Some me q pos : position me q = Some pos -> q !! pos = Some me.
Proof.
  revert pos. induction q as [|x q IH]; intros pos; simpl; [done|].
  destruct (Nat.eqb_spec x me) as [->|]; [by intros [= <-]|].
  destruct (position me q) as [k|]; simpl; [|done]. intros [= <-]. by apply IH.
Qed.

Lemma position_in me q : me ∈ q -> is_Some (position me q).
Proof.
  induction q as [|x q IH]; simpl; [by intros ?%elem_of_nil|].
  destruct (Nat.eqb_spec x me) as [->|Hne]; [by eexists|].
  intros [->|Hin]%elem_of_cons; [done|]. destruct (IH Hin) as [k ->]. by eexists.
Qed.

(** The local facts of a thread at its new place, from those at the old one. *)
Ltac local_facts I Hi :=
  let A := fresh in let B := fresh in let C := fresh in let D := fresh in let F := fresh in
  destruct (i_local _ I _ _ Hi) as (A & B & C & D & F);
  unfold local_ok in *; simpl in *; repeat split; try done; auto.
(** A step of [go_inv] whose side conditions are closed by computation. *)
Ltac simple_go I Hi Hat lk :=
  apply (go_inv _ _ _ lk _ I Hi); rewrite ?Hat; try done; local_facts I Hi.

Lemma try_take_inv i t ahead yes no g :
  inv g -> threads g !! i = Some t -> asking (at_ t) = true -> neutral (at_ t) = true ->
  locked yes = locked (at_ t) -> yes = Idle \/ (exists pos, yes = AGot pos /\ queue g !! pos = Some (ticket t - 1) /\
    ahead = pos /\ locked (at_ t) = true /\ counted (at_ t) = true) ->
  (held g + ahead < cap \/ inv (go i t no g)) ->
  inv (try_take i t ahead yes no g).
Proof.
  intros I Hi Hask Hn Hl Hyes Hno. unfold try_take.
  destruct (i_local _ I i t Hi) as (A & B & C & D & F).
  destruct (Nat.ltb_spec (held g + ahead) cap) as [Hlt|Hge]; [|by destruct Hno; [lia|]].
  apply grant_inv; try done; auto; [lia| | |].
  - destruct Hyes as [|(pos & ? & _)]; eauto.
  - destruct Hyes as [->|(pos & -> & Hq & _ & _ & Hc)]; [by repeat split|].
    split; [intros _; apply A; by destruct (at_ t)|]. split; [done|]. split; [by intros ? [= <-]|].
    split; [done|]. intros _. by apply F.
  - pose proof (lookup_lt_Some _ _ _ Hi) as Hlti. intros u (k & Hk & Hk').
    destruct Hyes as [->|(pos & -> & Hq & -> & Hlk & _)].
    + exists k. split; [|simpl in *; lia]. rewrite <- Hk. f_equal. unfold holder. simpl.
      destruct (lock g) as [j|] eqn:El; [|done]. simpl.
      destruct (decide (j = i)) as [->|]; [|by rewrite list_lookup_insert_ne by done].
      apply (i_lock _ I i t Hi) in El. simpl in Hl. congruence.
    + assert (Hh : holder (with_held (S (held g)) (set_thr i (mkThr true (AGot pos) (ticket t)) g)) = Some (AGot pos)).
      { unfold holder. simpl. rewrite (proj1 (i_lock _ I i t Hi) Hlk). simpl. by rewrite list_lookup_insert_eq. }
      rewrite Hh in Hk. simpl in Hk, Hk'. unfold grantable. rewrite (holder_at i t g I Hi Hlk).
      destruct (neutral_holder (Some (at_ t)) (queue g)) as [-> _]; [by intros ? [= <-]|].
      destruct (decide (k < pos)).
      * exists k. split; [|lia]. by rewrite list_lookup_delete_lt in Hk.
      * exists (S k). split; [|lia]. by rewrite list_lookup_delete_ge in Hk by lia.
Qed.

(** At a place where the queue and [waiting] agree. *)
Lemma wait_agrees i t g :
  inv g -> threads g !! i = Some t -> locked (at_ t) = true ->
  Z.of_nat (waiting g) = (Z.of_nat (length (queue g)) + drift (Some (at_ t)))%Z.
Proof. intros I Hi Hl. rewrite <- (holder_at i t g I Hi Hl). apply (i_wait _ I). Qed.

(** Taking or finding a place in the queue. *)
Lemma acquire_queue_inv i t g g' :
  inv g -> threads g !! i = Some t -> at_ t ∈ [AFast; ALock; AQueue; AAdd] \/ (exists n, at_ t = ATry n) ->
  step_acquire i t g = Some g' -> inv g'.
Proof.
  intros I Hi Hin. unfold step_acquire, take_lock. destruct (i_local _ I i t Hi) as (A & B & C & D & F).
  rewrite !elem_of_cons in Hin.
  destruct Hin as [[Hat|[Hat|[Hat|[Hat|[]%elem_of_nil]]]]|[n Hat]]; rewrite Hat in *; simpl in *.
  - intros [= <-]. simple_go I Hi Hat (lock g). by left.
  - destruct (lock g) eqn:El; [done|]. intros [= <-]. simple_go I Hi Hat (Some i). right. by left.
  - intros [= <-]. destruct (Nat.eqb_spec (ticket t) 0) as [Ez|Hz].
    + apply enqueue_inv; rewrite ?Hat; auto; [simpl; by rewrite list_lookup_insert_eq by (by eapply lookup_lt_Some)].
    + simple_go I Hi Hat (lock g); [by left|]. intros _.
      assert (Hq : ticket t - 1 ∈ queue g) by (apply (i_tick _ I i t); [done|lia]).
      pose proof (wait_agrees i t g I Hi) as Hw. rewrite Hat in Hw. specialize (Hw eq_refl). simpl in Hw.
      destruct (queue g); [by apply elem_of_nil in Hq | simpl in Hw; lia].
  - intros [= <-]. pose proof (wait_agrees i t g I Hi) as Hw. rewrite Hat in Hw.
    specialize (Hw eq_refl). simpl in Hw.
    apply wait_inv; rewrite ?Hat; try done; [lia|]. local_facts I Hi. intros _. lia.
  - intros [= <-]. apply try_take_inv; rewrite ?Hat; auto. right.
    simple_go I Hi Hat (lock g). by left.
Qed.

(** The wait loop: the ticket is found, and a thread that goes to sleep could not be granted. *)
Lemma acquire_loop_inv i t g g' :
  inv g -> threads g !! i = Some t -> at_ t ∈ [ALoop; AWait; ARelock] ->
  step_acquire i t g = Some g' -> inv g'.
Proof.
  intros I Hi Hin. unfold step_acquire, take_lock. destruct (i_local _ I i t Hi) as (A & B & C & D & F).
  rewrite !elem_of_cons in Hin.
  destruct Hin as [Hat|[Hat|[Hat|[]%elem_of_nil]]]; rewrite Hat in *; simpl in *.
  - destruct (counted_in_queue i t g I Hi) as [Hq _]; [by rewrite Hat|].
    destruct (position_in _ _ Hq) as [pos Hpos]. rewrite Hpos. intros [= <-]. apply position_Some in Hpos.
    apply try_take_inv; rewrite ?Hat; auto; [right; eauto 10|].
    destruct (decide (held g + pos < cap)); [by left|]. right.
    simple_go I Hi Hat (lock g); [by left|]. intros _ (k & Hk & Hlt).
    rewrite (holder_at i t g I Hi) in Hk by (by rewrite Hat). rewrite Hat in Hk. simpl in Hk.
    assert (k = pos) as ->; [|lia]. eapply list.NoDup_lookup; [apply (i_nodup _ I)|done|done].
  - intros [= <-]. simple_go I Hi Hat (@None nat). right. right.
    split; [|done]. apply (i_lock _ I i t Hi). by rewrite Hat.
  - destruct (lock g) eqn:El; [done|]. intros [= <-]. simple_go I Hi Hat (Some i). right. by left.
Qed.

(** Leaving with a permit. *)
Lemma acquire_leave_inv i t g g' :
  inv g -> threads g !! i = Some t ->
  at_ t ∈ [ASub; AMore; ANotify] \/ (exists n, at_ t = AGot n) \/ (exists b, at_ t = AUnlock b) ->
  step_acquire i t g = Some g' -> inv g'.
Proof.
  intros I Hi Hin. unfold step_acquire. destruct (i_local _ I i t Hi) as (A & B & C & D & F).
  rewrite !elem_of_cons in Hin.
  destruct Hin as [[Hat|[Hat|[Hat|[]%elem_of_nil]]]|[[n Hat]|[b Hat]]]; rewrite Hat in *; simpl in *.
  - intros [= <-]. pose proof (wait_agrees i t g I Hi) as Hw. rewrite Hat in Hw.
    specialize (Hw eq_refl). simpl in Hw.
    apply wait_inv; rewrite ?Hat; try done; try lia; local_facts I Hi.
  - intros [= <-]. simple_go I Hi Hat (lock g). by left.
  - intros [= <-]. apply notify_inv; by rewrite ?Hat.
  - intros [= <-]. specialize (C n eq_refl).
    apply leave_inv; rewrite ?Hat; auto; [by apply delete_Permutation|]. right.
    intros u (k & Hk & Hlt). exists k. split; [|done]. rewrite <- Hk.
    rewrite (holder_at i t g I Hi) by (by rewrite Hat). rewrite Hat. simpl. unfold holder. simpl.
    rewrite (proj1 (i_lock _ I i t Hi)) by (by rewrite Hat). simpl.
    by rewrite list_lookup_insert_eq by (by eapply lookup_lt_Some).
  - assert (Hl : lock g = Some i) by (apply (i_lock _ I i t Hi); by rewrite Hat).
    intros [= <-]. destruct b; simple_go I Hi Hat (@None nat); by right; right.
Qed.

Lemma release_steps_inv i t g g' :
  inv g -> threads g !! i = Some t -> step_release i t g = Some g' -> inv g'.
Proof.
  intros I Hi. unfold step_release. destruct (at_ t) eqn:Hat; try done.
  - assert (Hno : waiting g = 0 -> forall j u, threads g !! j = Some u -> counted (at_ u) = false).
    { intros Hw j u Hj. destruct (i_local _ I j u Hj) as (_ & _ & _ & _ & F).
      destruct (counted (at_ u)); [|done]. specialize (F eq_refl). lia. }
    intros [= <-]. destruct (Nat.ltb_spec 0 (waiting g)) as [|Hw].
    + simple_go I Hi Hat (lock g). by left.
    + simple_go I Hi Hat (lock g); [by left|..]; intros _; right; intros j u Hj E;
        specialize (Hno ltac:(lia) j u Hj); by rewrite E in Hno.
  - destruct (lock g) eqn:El; [done|]. intros [= <-].
    assert (Hno : forall j u, threads g !! j = Some u -> at_ u <> AWait).
    { intros j u Hj E. pose proof (proj1 (i_lock _ I j u Hj)) as Hl. rewrite E, El in Hl.
      by specialize (Hl eq_refl). }
    simple_go I Hi Hat (lock g). by left.
  - intros [= <-]. apply notify_inv; by rewrite ?Hat.
Qed.

Lemma reserve_steps_inv i t g g' :
  inv g -> threads g !! i = Some t -> step_reserve i t g = Some g' -> inv g'.
Proof.
  intros I Hi. unfold step_reserve, take_lock. destruct (at_ t) as [] eqn:Hat; try done.
  - intros [= <-]. simple_go I Hi Hat (lock g). by left.
  - intros [= <-]. destruct (_ <? cap); simple_go I Hi Hat (lock g); by left.
  - destruct (lock g) eqn:El; [done|]. intros [= <-]. simple_go I Hi Hat (Some i). right. by left.
  - destruct (threads (go i t VAdd g) !! s) as [ts|] eqn:Es; [|done].
    intros [= <-]. destruct (_ && _) eqn:Eb.
    + apply andb_true_iff in Eb as [Ez _]. apply Nat.eqb_eq in Ez.
      apply (enqueue_inv i t); rewrite ?Hat; auto.
    + simple_go I Hi Hat (lock g). by left.
  - intros [= <-]. pose proof (wait_agrees i t g I Hi) as Hw. rewrite Hat in Hw.
    specialize (Hw eq_refl). simpl in Hw.
    apply wait_inv; rewrite ?Hat; try done; try lia; local_facts I Hi.
  - intros [= <-]. simple_go I Hi Hat (@None nat). right. right.
    split; [|done]. apply (i_lock _ I i t Hi). by rewrite Hat.
Qed.

(** [retain] of all but one element of a list without duplicates. *)
Lemma retain_Permutation (q : list nat) x :
  NoDup q -> x ∈ q -> q ≡ₚ x :: filter (fun y => y <> x) q.
Proof.
  intros HN Hx. apply NoDup_Permutation; [done| |].
  - apply list.NoDup_cons. split; [|by apply list.NoDup_filter].
    rewrite list_elem_of_filter. by intros [? _].
  - intros y. rewrite elem_of_cons, list_elem_of_filter. destruct (decide (y = x)) as [->|]; [tauto|].
    split; [by right | by intros [?|[_ ?]]].
Qed.

Lemma cancel_steps_inv i t g g' :
  inv g -> threads g !! i = Some t -> step_cancel i t g = Some g' -> inv g'.
Proof.
  intros I Hi. unfold step_cancel, take_lock. destruct (at_ t) as [] eqn:Hat; try done.
  - destruct (lock g) eqn:El; [done|]. intros [= <-]. simple_go I Hi Hat (Some i). right. by left.
  - intros [= <-]. destruct (Nat.eqb_spec (ticket t) 0) as [|Hz].
    + simple_go I Hi Hat (lock g). by left.
    + assert (Hq : ticket t - 1 ∈ queue g) by (apply (i_tick _ I i t); [done|lia]).
      apply leave_inv; rewrite ?Hat; auto. apply retain_Permutation; [apply (i_nodup _ I) | done].
  - intros [= <-]. pose proof (wait_agrees i t g I Hi) as Hw. rewrite Hat in Hw.
    specialize (Hw eq_refl). simpl in Hw.
    apply wait_inv; rewrite ?Hat; try done; try lia; local_facts I Hi.
  - assert (Hl : lock g = Some i) by (apply (i_lock _ I i t Hi); by rewrite Hat).
    intros [= <-]. destruct removed; simple_go I Hi Hat (@None nat); by right; right.
  - intros [= <-]. apply notify_inv; by rewrite ?Hat.
Qed.

Lemma tstep_inv i a g g' : inv g -> tstep i a g = Some g' -> inv g'.
Proof.
  intros I. unfold tstep. destruct (threads g !! i) as [t|] eqn:Hi; [|done]. simpl.
  destruct a; destruct (at_ t) eqn:Hat; try done; try (by apply (release_steps_inv i t));
    try (by apply (reserve_steps_inv i t)); try (by apply (cancel_steps_inv i t));
    try (apply (acquire_queue_inv i t g g' I Hi); rewrite Hat;
         solve [left; in_list | right; eexists; reflexivity]);
    try (apply (acquire_loop_inv i t g g' I Hi); rewrite Hat; solve [in_list]);
    try (apply (acquire_leave_inv i t g g' I Hi); rewrite Hat;
         solve [left; in_list | right; left; eexists; reflexivity | right; right; eexists; reflexivity]).
  - destruct (own t) eqn:Ho; [done|]. intros [= <-].
    destruct (ticket t =? 0); simple_go I Hi Hat (lock g); by left.
  - destruct (own t) eqn:Ho; [done|]. intros [= <-].
    destruct (ticket t =? 0); [simple_go I Hi Hat (lock g); by left | done].
  - destruct (own t) eqn:Ho; [|done]. intros [= <-]. by apply release_inv.
  - intros [= <-]. simple_go I Hi Hat (lock g). by left.
  - intros [= <-]. destruct (ticket t =? 0); [done|]. simple_go I Hi Hat (lock g). by left.
  - unfold step_try. rewrite Hat. intros [= <-]. simple_go I Hi Hat (lock g); [by left|].
    intros _. apply (i_local _ I i t Hi). by rewrite Hat.
  - unfold step_try. rewrite Hat. intros [= <-]. apply try_take_inv; rewrite ?Hat; auto. right.
    simple_go I Hi Hat (lock g). by left.
  - destruct (i_local _ I i t Hi) as (A & B & _ & _ & F). rewrite Hat in A, B, F.
    intros [= <-]. simple_go I Hi Hat (lock g). by left.
Qed.

Lemma reachable_inv n g : reachable n g -> inv g.
Proof. induction 1 as [|g i a g' _ IH Hs]; [apply inv_start | by eapply tstep_inv]. Qed.

(** ** Properties *)

(** The gate never hands out more permits than its capacity.  In every reachable state of every
    interleaving [held] is the number of threads that own a permit and at most [cap], a thread that
    releases finds [held] positive (the [debug_assert]), and no waiting thread misses its ticket (the
    [expect] of [acquire_slot] cannot fail). *)
Lemma gate_permits n g :
  reachable n g ->
  held g <= cap /\ held g = length (filter (fun t => own t = true) (threads g)) /\
  forall i t, threads g !! i = Some t -> (own t = true -> 0 < held g) /\ at_ t <> APanic.
Proof.
  intros I%reachable_inv. split; [apply (i_cap _ I)|]. split; [apply (i_held _ I)|].
  intros i t Hi. split; [|apply (i_local _ I i t Hi)]. intros Ho. rewrite (i_held _ I). unfold owners.
  assert (Hin : t ∈ filter (fun t => own t = true) (threads g)).
  { apply list_elem_of_filter. split; [done|]. by eapply list_elem_of_lookup_2. }
  destruct (filter _ _); [by apply elem_of_nil in Hin | simpl; lia].
Qed.

(** The ticket queue.  In every reachable state queued tickets are distinct and older than the
    next one, every slot's ticket is queued and no two slots share one, at most one thread has the
    mutex, [waiting] equals the queue's length whenever the mutex is free, and it never goes below
    zero ([fetch_sub] at a grant or a cancel finds it positive). *)
Lemma gate_queue n g :
  reachable n g ->
  NoDup (queue g) /\ (forall q, q ∈ queue g -> q < next_ticket g) /\
  (lock g = None -> waiting g = length (queue g)) /\
  (forall i t, threads g !! i = Some t ->
     (forall q, ticket t = S q -> q ∈ queue g) /\ (sub_due (at_ t) = true -> 0 < waiting g)) /\
  (forall i j t u, threads g !! i = Some t -> threads g !! j = Some u ->
     (locked (at_ t) = true /\ locked (at_ u) = true) \/ (ticket t = ticket u /\ ticket t <> 0) -> i = j).
Proof.
  intros I%reachable_inv. split; [apply (i_nodup _ I)|]. split; [apply (i_next _ I)|]. split; [|split].
  - intros Hl. pose proof (i_wait _ I) as Hw. unfold holder in Hw. rewrite Hl in Hw. simpl in Hw. lia.
  - intros i t Hi. split; [intros q; by apply (i_tick _ I i t)|]. intros Hs.
    pose proof (wait_agrees i t g I Hi) as Hw. destruct (at_ t); try done; specialize (Hw eq_refl);
      simpl in Hw; lia.
  - intros i j t u Hi Hj [[Ht Hu]|[E Hz]].
    + symmetry. by apply (alone i j t u g).
    + apply (i_inj _ I i j t u (ticket t - 1)); [done|done|lia|lia].
Qed.

(** A place in the queue that the free permits reach is one in the queue without the ticket that was
    just granted. *)
Lemma sleeper_grantable g i t pos :
  inv g -> threads g !! i = Some t -> at_ t = ASleep -> queue g !! pos = Some (ticket t - 1) ->
  held g + pos < cap -> grantable g t.
Proof.
  intros I Hi Hat Hq Hlt. unfold grantable, qeff. destruct (holder g) as [h|] eqn:Eh; [|by exists pos].
  destruct (is_got h) eqn:Eg; [|exists pos; by destruct h]. assert (exists p, h = AGot p) as [p ->] by (destruct h; try done; by eexists).
  unfold holder in Eh. destruct (lock g) as [j|]; [|done]. simpl in Eh.
  destruct (threads g !! j) as [u|] eqn:Ej; [|done]. simpl in Eh. injection Eh as Eh.
  destruct (i_local _ I i t Hi) as (Ht & _), (i_local _ I j u Ej) as (Hu & _ & Hp & _). rewrite Hat in Ht. rewrite Eh in Hu.
  specialize (Hp p Eh). specialize (Ht eq_refl). specialize (Hu eq_refl).
  assert (pos <> p) as Hne.
  { intros ->. rewrite Hp in Hq. injection Hq as Hq. enough (i = j) as -> by congruence.
    apply (i_inj _ I i j t u (ticket t - 1)); [done|done|lia|lia]. }
  destruct (decide (pos < p)) as [Hlp|Hge]; [exists pos; by rewrite list_lookup_delete_lt by done|].
  exists (pos - 1). rewrite list_lookup_delete_ge by lia. replace (S (pos - 1)) with pos by lia. split; [done|lia].
Qed.

(** C12: no wake-up is lost.  In every reachable state, also while a thread holds the mutex, a sleeping
    thread whose ticket the free permits reach ([held + position < cap]) has a notify on its way: some
    other thread is between its change and its [notify_all].  So when no operation is under way, the
    permits are all taken up to that thread's place in the queue. *)
Theorem gate_no_lost_wakeup n g i t pos :
  reachable n g -> threads g !! i = Some t -> at_ t = ASleep -> queue g !! pos = Some (ticket t - 1) ->
  (held g + pos < cap -> exists j u, threads g !! j = Some u /\ pending (at_ u) = true) /\
  ((forall j u, threads g !! j = Some u -> at_ u = Idle \/ at_ u = ASleep) -> cap <= held g + pos).
Proof.
  intros I%reachable_inv Hi Hat Hq.
  assert (Hp : held g + pos < cap -> exists j u, threads g !! j = Some u /\ pending (at_ u) = true).
  { intros Hlt. apply (i_sleep _ I i t Hi Hat). by eapply sleeper_grantable. }
  split; [done|]. intros Hquiet. destruct (decide (held g + pos < cap)) as [Hlt|]; [|lia].
  destruct (Hp Hlt) as (j & u & Hj & Hu). by destruct (Hquiet j u Hj) as [E|E]; rewrite E in Hu.
Qed.
End gate.

(** ** Instances *)

Lemma exec_reachable cap n g sched g' :
  reachable cap n g -> exec cap g sched = Some g' -> reachable cap n g'.
Proof.
  revert g. induction sched as [|[i a] sched IH]; intros g Hr E; simpl in E; [congruence|].
  destruct (tstep cap i a g) as [g1|] eqn:E1; [|done]. eapply IH; [|done]. by econstructor.
Qed.

Module WidthDemo.
(** One permit, three threads: 0 takes it, 1 and 2 queue and sleep. *)
Definition contended : list (nat * action) :=
  [(0, Acquire); (0, Go); (0, Go)] ++
  [(1, Acquire); (1, Go); (1, Go); (1, Go); (1, Go); (1, Go); (1, Go); (1, Go)] ++
  [(2, Acquire); (2, Go); (2, Go); (2, Go); (2, Go); (2, Go); (2, Go); (2, Go)].
Definition full : Gate :=
  mkGate 1 [0; 1] 2 2 None [mkThr true Idle 0; mkThr false ASleep 1; mkThr false ASleep 2].
(** Then 0 releases and its notify wakes both; 1 is granted and 2 sleeps again. *)
Definition handover : list (nat * action) :=
  [(0, Release); (0, Go); (0, Go); (0, Go)] ++
  [(2, Go); (2, Go); (2, Go); (1, Go); (1, Go); (1, Go); (1, Go); (1, Go); (1, Go)].

Example run_contended : exec 1 (new_gate 3) contended = Some full.
Proof. reflexivity. Qed.
Example run_handover :
  exec 1 full handover =
  Some (mkGate 1 [1] 2 1 None [mkThr false Idle 0; mkThr true Idle 0; mkThr false ASleep 2]).
Proof. reflexivity. Qed.

Lemma full_reachable : reachable 1 3 full.
Proof. by apply (exec_reachable 1 3 (new_gate 3) contended); [constructor|]. Qed.
End WidthDemo.


Lemma gate_no_lost_wakeup_witness : 1 <= held WidthDemo.full + 0.
Proof.
  apply (gate_no_lost_wakeup 1 3 WidthDemo.full 1 (mkThr false ASleep 1) 0 WidthDemo.full_reachable);
    try reflexivity.
  intros [|[|[|j]]] u Hu; simpl in Hu; simplify_eq; simpl; auto.
Defined.
