(* ===== verification/Op.v ===== *)
(** * The instruction set: [src/src/base/op.rs]

    [Op] with the source's constructors and operands, in the source's order.  Payloads the compiler
    only carries (a builtin's id, a hook, a JSON descriptor, a format spec) are the fields of
    [OpPayloads].  [usize] operands are [nat], [u32] and [i64] operands [Z]. *)

From Stdlib Require Import String.
From S2P Require Import Prelude Consteval Arith.
Set Warnings "-register-all".

(** Payload types defined elsewhere in the source. *)
Class OpPayloads := {
  Builtin : Type;
  Hook : Type;
  NativeStatic : Type;
  TypeDescriptor : Type;
  FormatSpec : Type;
}.

(** [CapSrc], [CapEntry], [AssertCmp]. *)
Inductive CapSrc := CSlot (n : nat) | CCaptured (n : Z).
Record CapEntry := mkCap { cap_name : string; cap_src : CapSrc }.
Inductive AssertCmp := ACLt | ACLtEq | ACGt | ACGtEq | ACEq | ACNotEq.

(** [WaitMeta]: the layout of a [wait:]. *)
Record WaitMeta := mkWait {
  wait_n : nat;
  arm_targets : list nat;
  else_target : option nat;
  is_send : list bool;
}.

Module Op.
Section op.
  Context `{OpPayloads}.
Inductive t :=
(* literals, stack *)
| ConstInt (n : Z) | ConstFloat (f : F64.f64) | ConstStr (s : string) | ConstBytes (b : list Z)
| True | False | Nil | Pop
| Assert (has_msg : bool) (cmp : option AssertCmp)
| LoadBuiltin (b : Builtin)
(* variables *)
| GetLocal (slot : nat) | SetLocal (slot : nat)
| GetGlobalSlot (slot : Z) | DefineGlobalSlot (slot : Z) | SetGlobalSlot (slot : Z)
| GetCaptured (slot : Z)
(* arithmetic and logic *)
| Add | Sub | Mul | Div | Mod | Neg | Not
| Lt | LtEq | Gt | GtEq | Eq | NotEq
| BitAnd | BitOr | BitXor | Shl | Shr
| Contains | AsBool | AsInt
(* superinstructions *)
| BinLocalLocal (a b : nat) (kind : BinKind)
| BinLocalConst (slot : nat) (val : Z) (kind : BinKind)
| IncLocal (slot : nat) (delta : Z)
(* control flow *)
| Jump (t : nat) | JumpIfFalse (t : nat) | JumpIfFalseKeep (t : nat) | JumpIfTrueKeep (t : nat)
| PushHandler (t : nat) | PopHandler
(* calls *)
| Call (argc : nat)
| CallMethod (name : string) (argc : nat) (ic : Z)
| CallHook (hook : Hook) (name : string) (argc : nat) (ic : Z)
| CallStatic (type_key method : string) (argc : nat)
| CallStaticDyn (method : string) (argc : nat)
| CallBuiltin (b : Builtin) (argc : nat)
| CallNativeStatic (s : NativeStatic) (argc : nat)
| CallPrint (argc : nat) | CallPrintSep (argc : nat)
| Return | Yield
| DeferCall (argc : nat) | DeferMethod (name : string) (argc : nat)
| EnterDeferScope | LeaveDeferScope | DrainHandlerDefers | Try
| JsonDecode (d : TypeDescriptor) | JsonToValue
(* construction *)
| NewList (n : nat) | NewTuple (n : nat) | NewMap (n : nat) | NewSet (n : nat)
| NewStruct (name : string) (n : nat)
| NewCell | CellLoad | CellStore
| NewEnum (variant : string) (variant_id : Z) (argc : nat)
| MakeFunc (p : nat) | MakeFuncIn (i : Z)
| MakeMethodFunc (type_key method : string)
| JumpIfProvided (slot : Z) (t : nat)
| MakeCffi (id : Z)
| MakeClosure (p : nat) (caps : list CapEntry)
(* access *)
| GetField (name : string) (ic : Z) | GetIndex | SliceRange
| SetField (name : string) (ic : Z) | SetIndex | Dup | Dup2
(* strings *)
| ToStr | ToStrFmt (f : FormatSpec) | BuildStr (n : nat)
(* iteration *)
| ListClone | ArrLen | HasNextHook | IsGenerator | IsCursor | IterableToCursor | IsChannel
| ChanRecvOrClosed
(* match *)
| EnsureEnum (slot : nat)
| MatchArm (scrut : nat) (variant : string) (variant_id : Z) (enum_name : option string)
    (nbind bind_start next : nat)
| MatchNoArm (slot : nat)
(* concurrency *)
| EnterNursery | JoinNursery | ReclaimNursery
| SpawnCall (argc : nat) (thunk : option nat) | SpawnRecv (argc : nat) (thunk : nat)
| SpawnBlock (p : nat) (caps : list CapEntry)
| WaitPoll (m : WaitMeta)
| NewChannel (has_cap : bool) | NewShared | NewRwShared | NewAtomic | NewAtomicInt
| NewExecutor | NewExecutorN.
End op.
End Op.
Abbreviation Op := Op.t.
