(* ===== verification/Peephole.v ===== *)
(** * The peephole pass: [src/src/compiler/peephole.rs]

    [optimize] folds constant windows and fuses hot ones at the tail of its output, with an index
    map from the old code to the new, and relocates every jump at the end.  The definitions follow
    the source; a [Vec] is a list, [map\[a..=b\].fill(x)] a list update, and the [while] loop at the
    tail has fuel (each round shortens the output).

    The correctness theorem is about any machine that runs such code ([Machine]): a type of machine
    states with an equivalence, a step for each op, and the laws the pass relies on, one per rewrite
    rule.  Faults are compared up to their source position. *)

From Stdlib Require Import String SpecFloat.
From S2P Require Import Prelude Consteval Arith Op.
Local Open Scope nat_scope.

Section pass.
  Context `{OpPayloads}.

(** [bin_kind]: the fusable binary operators. *)
Definition bin_kind (op : Op) : option BinKind :=
  match op with
  | Op.Add => Some BinKind.Add | Op.Sub => Some BinKind.Sub | Op.Mul => Some BinKind.Mul
  | Op.Div => Some BinKind.Div | Op.Mod => Some BinKind.Mod
  | Op.Lt => Some BinKind.Lt | Op.LtEq => Some BinKind.LtEq
  | Op.Gt => Some BinKind.Gt | Op.GtEq => Some BinKind.GtEq
  | _ => None
  end.

Definition jump_target (op : Op) : option nat :=
  match op with
  | Op.Jump t | Op.JumpIfFalse t | Op.JumpIfFalseKeep t | Op.JumpIfTrueKeep t | Op.PushHandler t
  | Op.MatchArm _ _ _ _ _ _ t => Some t
  | Op.JumpIfProvided _ t => Some t
  | _ => None
  end.

(** [jump_target_mut] and the write through it: the op with its target replaced. *)
Definition set_jump_target (f : nat -> nat) (op : Op) : Op :=
  match op with
  | Op.Jump t => Op.Jump (f t)
  | Op.JumpIfFalse t => Op.JumpIfFalse (f t)
  | Op.JumpIfFalseKeep t => Op.JumpIfFalseKeep (f t)
  | Op.JumpIfTrueKeep t => Op.JumpIfTrueKeep (f t)
  | Op.PushHandler t => Op.PushHandler (f t)
  | Op.MatchArm scrut v vid en nb bs t => Op.MatchArm scrut v vid en nb bs (f t)
  | Op.JumpIfProvided slot t => Op.JumpIfProvided slot (f t)
  | op => op
  end.

(** The targets of a [WaitPoll]. *)
Definition wait_targets (op : Op) : list nat :=
  match op with
  | Op.WaitPoll m => arm_targets m ++ match else_target m with Some t => [t] | None => [] end
  | _ => []
  end.
Definition set_wait_targets (f : nat -> nat) (op : Op) : Op :=
  match op with
  | Op.WaitPoll m =>
      Op.WaitPoll (mkWait (wait_n m) (f <$> arm_targets m) (f <$> else_target m) (is_send m))
  | op => op
  end.

(** A tail rewrite: the last [window] ops become [fop]. *)
Record Fold := mkFold { fop : Op; window : nat }.

Definition fold_binop (op : Op) : option BinaryOp :=
  match op with
  | Op.Add => Some BinaryOp.Add | Op.Sub => Some BinaryOp.Sub | Op.Mul => Some BinaryOp.Mul
  | Op.Div => Some BinaryOp.Div | Op.Mod => Some BinaryOp.Mod
  | _ => None
  end.

(** The last op, the one before it, and the one before that. *)
Definition tail1 (out : list Op) : option Op := out !! (length out - 1).
Definition tail2 (out : list Op) : option Op := if 2 <=? length out then out !! (length out - 2) else None.
Definition tail3 (out : list Op) : option Op := if 3 <=? length out then out !! (length out - 3) else None.

Definition fold3 (out : list Op) : option Fold :=
  match tail3 out, tail2 out, tail1 out with
  | Some a, Some b, Some o =>
      match fold_binop o with
      | Some op =>
          match a, b with
          | Op.ConstInt a, Op.ConstInt b =>
              match int_binop op a b with
              | Some (Ok v) => Some (mkFold (Op.ConstInt v) 3)
              | _ => None
              end
          | Op.ConstFloat a, Op.ConstFloat b =>
              match float_binop op a b with
              | Some v => Some (mkFold (Op.ConstFloat v) 3)
              | None => None
              end
          | _, _ => None
          end
      | None => None
      end
  | _, _, _ => None
  end.

Definition fold2 (out : list Op) : option Fold :=
  match tail2 out, tail1 out with
  | Some (Op.ConstInt n), Some Op.Neg =>
      match int_neg n with Ok v => Some (mkFold (Op.ConstInt v) 2) | Err _ => None end
  | Some (Op.ConstFloat x), Some Op.Neg => Some (mkFold (Op.ConstFloat (F64.neg x)) 2)
  | Some Op.True, Some Op.Not => Some (mkFold Op.False 2)
  | Some Op.False, Some Op.Not => Some (mkFold Op.True 2)
  | _, _ => None
  end.

Definition try_fold_tail (out : list Op) : option Fold :=
  match fold3 out with Some f => Some f | None => fold2 out end.

(** [IncLocal], then [BinLocalLocal], then [BinLocalConst]. *)
Definition fuse_inc (out : list Op) : option Fold :=
  match tail2 out, tail1 out with
  | Some (Op.BinLocalConst slot val kind), Some (Op.SetLocal s2) =>
      if decide (kind = BinKind.Add) then
        if slot =? s2 then Some (mkFold (Op.IncLocal slot val) 2) else None
      else None
  | _, _ => None
  end.
Definition fuse_bin (out : list Op) : option Fold :=
  match tail3 out, tail2 out, tail1 out with
  | Some (Op.GetLocal a), Some y, Some o =>
      match bin_kind o, y with
      | Some kind, Op.GetLocal b => Some (mkFold (Op.BinLocalLocal a b kind) 3)
      | Some kind, Op.ConstInt val => Some (mkFold (Op.BinLocalConst a val kind) 3)
      | _, _ => None
      end
  | _, _, _ => None
  end.
Definition try_fuse_tail (out : list Op) : option Fold :=
  match fuse_inc out with Some f => Some f | None => fuse_bin out end.

Definition try_tail (out : list Op) : option Fold :=
  match try_fold_tail out with Some f => Some f | None => try_fuse_tail out end.

(** ** [optimize] *)

(** [is_target]: an index at most [n] some op jumps to. *)
Definition op_targets (op : Op) : list nat :=
  match jump_target op with Some t => [t] | None => [] end ++ wait_targets op.
Definition is_target (code : list Op) (t : nat) : bool :=
  existsb (fun op => existsb (fun u => (u =? t) && (u <=? length code)) (op_targets op)) code.

Record Pass := mkPass {
  out : list Op; out_lines : list Span; src_start : list nat; map : list nat;
}.

(** [map\[lo..=hi\].fill(x)]. *)
Definition fill (m : list nat) (lo hi x : nat) : list nat :=
  imap (fun k y => if (lo <=? k) && (k <=? hi) then x else y) m.

(** The tail loop at source index [i]; [tgt] is [is_target]. *)
Fixpoint collapse (fuel : nat) (tgt : nat -> bool) (i : nat) (p : Pass) : Pass :=
  match fuel with
  | O => p
  | S fuel =>
      match try_tail (out p) with
      | None => p
      | Some fold =>
          let m := length (out p) in
          let first := m - window fold in
          if existsb tgt (drop (S first) (src_start p)) then p
          else
            let old_lo := nth first (src_start p) 0 in
            let span := nth (m - 1) (out_lines p) (mkSpan 0 0 0) in
            collapse fuel tgt i
              (mkPass (take first (out p) ++ [fop fold])
                      (take first (out_lines p) ++ [span])
                      (take first (src_start p) ++ [old_lo])
                      (fill (map p) old_lo i first))
      end
  end.

(** One round of the walk. *)
Definition push_op (tgt : nat -> bool) (i : nat) (op : Op) (line : Span) (p : Pass) : Pass :=
  let p := mkPass (out p ++ [op]) (out_lines p ++ [line]) (src_start p ++ [i])
                  (<[i := length (out p)]> (map p)) in
  collapse (length (out p)) tgt i p.

Fixpoint walk (tgt : nat -> bool) (i : nat) (code : list Op) (lines : list Span) (p : Pass) : Pass :=
  match code, lines with
  | op :: code, line :: lines => walk tgt (S i) code lines (push_op tgt i op line p)
  | _, _ => p
  end.

Definition relocate (m : list nat) (op : Op) : Op :=
  let f t := nth t m 0 in set_wait_targets f (set_jump_target f op).

Definition optimize (code : list Op) (lines : list Span) : list Op * list Span :=
  let n := length code in
  if n =? 0 then (code, lines) else
  let p := walk (is_target code) 0 code lines (mkPass [] [] [] (replicate (S n) 0)) in
  let m := <[n := length (out p)]> (map p) in
  (relocate m <$> out p, out_lines p).

(** ** The rewrite rules *)
Inductive rule : list Op -> Op -> Prop :=
| r_int o op a b v :
    fold_binop o = Some op -> int_binop op a b = Some (Ok v) ->
    rule [Op.ConstInt a; Op.ConstInt b; o] (Op.ConstInt v)
| r_float o op a b v :
    fold_binop o = Some op -> float_binop op a b = Some v ->
    rule [Op.ConstFloat a; Op.ConstFloat b; o] (Op.ConstFloat v)
| r_neg_int n v : int_neg n = Ok v -> rule [Op.ConstInt n; Op.Neg] (Op.ConstInt v)
| r_neg_float x : rule [Op.ConstFloat x; Op.Neg] (Op.ConstFloat (F64.neg x))
| r_not_true : rule [Op.True; Op.Not] Op.False
| r_not_false : rule [Op.False; Op.Not] Op.True
| r_inc slot val : rule [Op.BinLocalConst slot val BinKind.Add; Op.SetLocal slot] (Op.IncLocal slot val)
| r_ll o kind a b :
    bin_kind o = Some kind -> rule [Op.GetLocal a; Op.GetLocal b; o] (Op.BinLocalLocal a b kind)
| r_lc o kind slot val :
    bin_kind o = Some kind ->
    rule [Op.GetLocal slot; Op.ConstInt val; o] (Op.BinLocalConst slot val kind).

Lemma tail_shapes (l : list Op) :
  l = [] \/ (exists z, l = [z]) \/ (exists y z, l = [y; z]) \/ (exists pre x y z, l = pre ++ [x; y; z]).
Proof.
  induction l as [|z l _] using rev_ind; [by left|].
  induction l as [|y l _] using rev_ind; [right; left; by exists z|].
  induction l as [|x l _] using rev_ind; [right; right; left; by exists y, z|].
  right; right; right. exists l, x, y, z. by rewrite <- !(assoc_L (++)).
Qed.

Lemma tail_at (pre ws : list Op) k :
  k < length ws -> (pre ++ ws) !! (length (pre ++ ws) - (length ws - k)) = ws !! k.
Proof.
  intros Hk. rewrite length_app, lookup_app_r by lia. f_equal. lia.
Qed.

Lemma tail_three pre x y z :
  tail1 (pre ++ [x; y; z]) = Some z /\ tail2 (pre ++ [x; y; z]) = Some y /\ tail3 (pre ++ [x; y; z]) = Some x.
Proof.
  unfold tail1, tail2, tail3.
  pose proof (tail_at pre [x; y; z] 2) as E2. pose proof (tail_at pre [x; y; z] 1) as E1.
  pose proof (tail_at pre [x; y; z] 0) as E0. cbn [length] in E0, E1, E2.
  assert (Hl : 3 <= length (pre ++ [x; y; z])) by (rewrite length_app; cbn [length]; lia).
  rewrite !(proj2 (Nat.leb_le _ _)) by lia.
  change (3 - 2) with 1 in E2. change (3 - 1) with 2 in E1. change (3 - 0) with 3 in E0.
  rewrite E2, E1, E0 by lia. done.
Qed.

(** Two-op windows, at the end of any output. *)
Lemma pair_rule y z f :
  match fold2 [y; z] with Some f => Some f | None => fuse_inc [y; z] end = Some f ->
  window f = 2 /\ rule [y; z] (fop f).
Proof.
  unfold fold2, fuse_inc, tail2, tail1. cbn [length Nat.leb Nat.sub lookup list_lookup].
  destruct y; try discriminate; destruct z; try discriminate; intros E;
    try (injection E as <-; split; [done | constructor]; fail).
  - destruct (int_neg n) eqn:En; [|discriminate]. injection E as <-. split; [done | by constructor].
  - destruct (decide (kind = BinKind.Add)) as [->|]; [|discriminate].
    destruct (Nat.eqb_spec slot slot0) as [->|]; [|discriminate]. injection E as <-.
    split; [done | constructor].
Qed.

(** Three-op windows. *)
Lemma triple_rule x y z f :
  match fold3 [x; y; z] with Some f => Some f | None => fuse_bin [x; y; z] end = Some f ->
  window f = 3 /\ rule [x; y; z] (fop f).
Proof.
  unfold fold3, fuse_bin, tail3, tail2, tail1. cbn [length Nat.leb Nat.sub lookup list_lookup].
  assert (Hfuse : match x with
    | Op.GetLocal a => match bin_kind z, y with
        | Some kind, Op.GetLocal b => Some (mkFold (Op.BinLocalLocal a b kind) 3)
        | Some kind, Op.ConstInt val => Some (mkFold (Op.BinLocalConst a val kind) 3)
        | _, _ => None end
    | _ => None end = Some f -> window f = 3 /\ rule [x; y; z] (fop f)).
  { destruct x; try discriminate. destruct (bin_kind z) eqn:Ek; [|discriminate].
    destruct y; try discriminate; intros E; injection E as <-; (split; [done | by constructor]). }
  destruct (fold_binop z) as [op|] eqn:Ef; [|exact Hfuse].
  destruct x; try exact Hfuse; destruct y; try exact Hfuse.
  - destruct (int_binop op n n0) as [[v|]|] eqn:Ev; [|exact Hfuse..]. intros E. injection E as <-.
    split; [done | by econstructor].
  - destruct (float_binop op f0 f1) as [v|] eqn:Ev; [|exact Hfuse]. intros E. injection E as <-.
    split; [done | by econstructor].
Qed.

Lemma try_tail_rule out f :
  try_tail out = Some f -> exists pre ws, out = pre ++ ws /\ length ws = window f /\ rule ws (fop f).
Proof.
  destruct (tail_shapes out) as [->|[(z & ->)|[(y & z & ->)|(pre & x & y & z & ->)]]].
  - done.
  - done.
  - intros Hf. exists [], [y; z]. destruct (pair_rule y z f) as [-> Hr]; [|done]. rewrite <- Hf.
    unfold try_tail, try_fold_tail, try_fuse_tail, fold3, fuse_bin, tail3. cbn [length Nat.leb].
    by destruct (fold2 [y; z]), (fuse_inc [y; z]).
  - intros Hf. destruct (tail_three pre x y z) as (E1 & E2 & E3).
    assert (F3 : fold3 (pre ++ [x; y; z]) = fold3 [x; y; z]) by (unfold fold3; by rewrite E1, E2, E3).
    assert (F2 : fold2 (pre ++ [x; y; z]) = fold2 [y; z]) by (unfold fold2; by rewrite E1, E2).
    assert (FI : fuse_inc (pre ++ [x; y; z]) = fuse_inc [y; z]) by (unfold fuse_inc; by rewrite E1, E2).
    assert (FB : fuse_bin (pre ++ [x; y; z]) = fuse_bin [x; y; z]) by (unfold fuse_bin; by rewrite E1, E2, E3).
    unfold try_tail, try_fold_tail, try_fuse_tail in Hf. rewrite F3, F2, FI, FB in Hf.
    assert (Hcase : match fold3 [x; y; z] with Some f => Some f | None => fuse_bin [x; y; z] end = Some f \/
      match fold2 [y; z] with Some f => Some f | None => fuse_inc [y; z] end = Some f).
    { destruct (fold3 [x; y; z]); [by left|]. destruct (fold2 [y; z]); [by right|].
      destruct (fuse_inc [y; z]); [by right | by left]. }
    destruct Hcase as [Hc|Hc].
    + exists pre, [x; y; z]. by destruct (triple_rule x y z f Hc) as [-> Hr].
    + exists (pre ++ [x]), [y; z]. rewrite <- (assoc_L (++)). by destruct (pair_rule y z f Hc) as [-> Hr].
Qed.

(** The tail loop of [optimize] terminates: fuel equal to the output's length is enough for it to
    leave by one of its own exits, with no tail rewrite left or with the next one refused because a
    jump lands inside its window. *)
Lemma tail_loop_terminates tgt i fuel p :
  length (out p) <= fuel ->
  let p' := collapse fuel tgt i p in
  try_tail (out p') = None \/
  exists f, try_tail (out p') = Some f /\
    existsb tgt (drop (S (length (out p') - window f)) (src_start p')) = true.
Proof.
  revert p. induction fuel as [|fuel IH]; intros p Hf p'.
  - subst p'. destruct (out p) eqn:E; [|simpl in Hf; lia]. simpl. rewrite E. by left.
  - subst p'. cbn [collapse]. destruct (try_tail (out p)) as [f|] eqn:Ef; [|by left].
    destruct (existsb _ _) eqn:Ee; [right; by exists f|]. apply IH. cbn [out].
    destruct (try_tail_rule _ _ Ef) as (pre & ws & E & Hw & Hr).
    assert (2 <= length ws) by (destruct Hr; simpl; lia).
    apply (f_equal length) in E. rewrite length_app in E.
    rewrite length_app, length_take. simpl. lia.
Qed.
End pass.

(** ** Machines *)
Inductive moutcome (S E : Type) :=
| Fall (s : S)              (* go on at the next op *)
| Goto (t : nat) (s : S)    (* a jump taken *)
| Raise (e : E) (s : S)     (* a fault *)
| Stop (s : S).             (* the body returned *)
Arguments Fall {S E} s.
Arguments Goto {S E} t s.
Arguments Raise {S E} e s.
Arguments Stop {S E} s.

(** What the pass relies on.  [m_equiv] relates machine states that run alike, [f_equiv] states a
    fault leaves behind (the handler truncates their operand stack), [e_equiv] faults that differ
    at most in their source position. *)
Class Machine `{OpPayloads} := {
  MSt : Type;
  MErr : Type;
  m_equiv : relation MSt;
  f_equiv : relation MSt;
  e_equiv : relation MErr;
  m_exec : Op -> Span -> MSt -> moutcome MSt MErr;
  m_push_handler : MSt -> MSt;
  m_pop_handler : MSt -> MSt;
  m_catch : MErr -> MSt -> MSt;
}.

Section machine.
  Context `{Machine}.

Inductive out_equiv : moutcome MSt MErr -> moutcome MSt MErr -> Prop :=
| oe_fall m m' : m_equiv m m' -> out_equiv (Fall m) (Fall m')
| oe_goto t m m' : m_equiv m m' -> out_equiv (Goto t m) (Goto t m')
| oe_raise e e' m m' : e_equiv e e' -> f_equiv m m' -> out_equiv (Raise e m) (Raise e' m')
| oe_stop m m' : m_equiv m m' -> out_equiv (Stop m) (Stop m').

(** Straight-line execution. *)
Fixpoint exec_seq (b : list (Op * Span)) (m : MSt) : moutcome MSt MErr :=
  match b with
  | [] => Fall m
  | (op, s) :: b => match m_exec op s m with Fall m => exec_seq b m | o => o end
  end.

Definition map_goto (f : nat -> nat) (o : moutcome MSt MErr) : moutcome MSt MErr :=
  match o with Goto t m => Goto (f t) m | o => o end.

(** The handler ops are run by the driver below. *)
Definition is_handler (op : Op) : bool :=
  match op with Op.PushHandler _ | Op.PopHandler => true | _ => false end.

Class MachineLaws : Prop := {
  m_equiv_equiv :: Equivalence m_equiv;
  f_equiv_equiv :: Equivalence f_equiv;
  e_equiv_equiv :: Equivalence e_equiv;
  exec_equiv op s s' m m' : m_equiv m m' -> out_equiv (m_exec op s m) (m_exec op s' m');
  push_handler_equiv m m' : m_equiv m m' -> m_equiv (m_push_handler m) (m_push_handler m');
  pop_handler_equiv m m' : m_equiv m m' -> m_equiv (m_pop_handler m) (m_pop_handler m');
  catch_equiv e e' m m' : e_equiv e e' -> f_equiv m m' -> m_equiv (m_catch e m) (m_catch e' m');
  exec_goto op s m t m' : m_exec op s m = Goto t m' -> t ∈ op_targets op;
  exec_relocate f op s m : is_handler op = false ->
    m_exec (set_wait_targets f (set_jump_target f op)) s m = map_goto f (m_exec op s m);
  exec_rule ws op ss s m : rule ws op -> length ss = length ws ->
    out_equiv (exec_seq (zip ws ss) m) (m_exec op s m);
}.

(** ** Running a body *)

(** The instruction pointer, the handler targets, the machine. *)
Record dstate := mkD { ip : nat; handlers : list nat; machine : MSt }.
Inductive final := Finished (m : MSt) | Uncaught (e : MErr) (m : MSt).
Inductive dres := Running (st : dstate) | Done (r : final).

Definition raise (hs : list nat) (e : MErr) (m : MSt) : dres :=
  match hs with
  | [] => Done (Uncaught e m)
  | t :: hs => Running (mkD t hs (m_catch e m))
  end.

Definition settle (i : nat) (hs : list nat) (o : moutcome MSt MErr) : dres :=
  match o with
  | Fall m => Running (mkD (S i) hs m)
  | Goto t m => Running (mkD t hs m)
  | Raise e m => raise hs e m
  | Stop m => Done (Finished m)
  end.

Definition dstep (cl : list (Op * Span)) (st : dstate) : dres :=
  match cl !! ip st with
  | None => Done (Finished (machine st))
  | Some (Op.PushHandler t, _) =>
      Running (mkD (S (ip st)) (t :: handlers st) (m_push_handler (machine st)))
  | Some (Op.PopHandler, _) =>
      Running (mkD (S (ip st)) (tail (handlers st)) (m_pop_handler (machine st)))
  | Some (op, s) => settle (ip st) (handlers st) (m_exec op s (machine st))
  end.

Fixpoint drive (fuel : nat) (cl : list (Op * Span)) (st : dstate) : dres :=
  match fuel with
  | O => Running st
  | S fuel => match dstep cl st with Running st => drive fuel cl st | Done r => Done r end
  end.

Inductive final_equiv : final -> final -> Prop :=
| fe_finished m m' : m_equiv m m' -> final_equiv (Finished m) (Finished m')
| fe_uncaught e e' m m' : e_equiv e e' -> f_equiv m m' -> final_equiv (Uncaught e m) (Uncaught e' m').

(** A body whose jumps stay inside it (one past the end included). *)
Definition wf_code (code : list Op) : Prop :=
  forall op t, op ∈ code -> t ∈ op_targets op -> t <= length code.

  Context `{!MachineLaws}.

(** ** Blocks: what one output op stands for *)
Definition straight (op : Op) : Prop := op_targets op = [] /\ is_handler op = false.

Definition entry_ok (b : list (Op * Span)) (op : Op) (line : Span) : Prop :=
  b = [(op, line)] \/
  (Forall (fun x => straight x.1) b /\ straight op /\
   forall m m', m_equiv m m' -> out_equiv (exec_seq b m) (m_exec op line m')).

#[local] Instance out_equiv_equiv : Equivalence out_equiv.
Proof.
  split.
  - intros []; by constructor.
  - intros ? ? []; by constructor; symmetry.
  - intros x y z Hxy Hyz. inversion Hxy; subst; inversion Hyz; subst; constructor; by etrans.
Qed.

Lemma exec_seq_app b b' m :
  exec_seq (b ++ b') m = match exec_seq b m with Fall m => exec_seq b' m | o => o end.
Proof.
  revert m. induction b as [|[op s] b IH]; intros m; simpl; [done|]. by destruct (m_exec op s m).
Qed.

Lemma exec_seq_equiv b m m' : m_equiv m m' -> out_equiv (exec_seq b m) (exec_seq b m').
Proof.
  revert m m'. induction b as [|[op s] b IH]; intros m m' Hm; simpl; [by constructor|].
  destruct (exec_equiv op s s m m' Hm); [by apply IH|by constructor..].
Qed.

Lemma rule_straight ws op : rule ws op -> Forall straight ws /\ straight op.
Proof.
  assert (Hb : forall o k, bin_kind o = Some k -> straight o) by (intros []; by intros).
  assert (Hf : forall o k, fold_binop o = Some k -> straight o) by (intros []; by intros).
  intros Hr. destruct Hr; (split; [|by split]);
    repeat (apply Forall_cons_2; [first [by split | by eapply Hb | by eapply Hf]|]); apply Forall_nil_2.
Qed.

Lemma straight_seq_no_goto b m t m' :
  Forall (fun x => straight x.1) b -> exec_seq b m = Goto t m' -> False.
Proof.
  intros Hb. revert m. induction Hb as [|[op s] b [Ht _] _ IH]; intros m; simpl; [done|].
  destruct (m_exec op s m) as [m1|u m1| |] eqn:E; [apply IH| |done..].
  intros _. apply exec_goto in E. simpl in Ht. rewrite Ht in E. by apply elem_of_nil in E.
Qed.

(** The window's blocks, in order, run like the window. *)
Lemma entries_seq (bs : list (list (Op * Span))) (ws : list Op) (ss : list Span) :
  Forall2 (fun b x => entry_ok b x.1 x.2) bs (zip ws ss) -> length ss = length ws -> Forall straight ws ->
  Forall (fun x => straight x.1) (concat bs) /\
  forall m m', m_equiv m m' -> out_equiv (exec_seq (concat bs) m) (exec_seq (zip ws ss) m').
Proof.
  revert ws ss. induction bs as [|b bs IH]; intros ws ss Hb Hl Hs.
  - inversion Hb as [E|]; subst. simpl. split; [constructor|]. intros. by constructor.
  - destruct ws as [|w ws], ss as [|s ss]; simpl in *; try (by inversion Hb).
    inversion Hb as [|? ? ? ? Hw Hbs]; subst. apply list.Forall_cons in Hs as [Hsw Hsws].
    destruct (IH ws ss Hbs) as [Hst Heq]; [lia|done|].
    assert (Hb0 : Forall (fun x => straight x.1) b /\
      forall m m', m_equiv m m' -> out_equiv (exec_seq b m) (m_exec w s m')).
    { destruct Hw as [->|(Ha & _ & Hc)]; [|done]. split; [by apply Forall_singleton|].
      intros m m' Hm. simpl. destruct (exec_equiv w s s m m' Hm); by constructor. }
    destruct Hb0 as [Hb1 Hb2]. split; [by apply Forall_app|]. intros m m' Hm. rewrite exec_seq_app.
    destruct (Hb2 m m' Hm); [by apply Heq|by constructor..].
Qed.

(** ** The pass invariant *)

(** The source index at which output entry [q] starts. *)
Definition start (bs : list (list (Op * Span))) (q : nat) : nat := length (concat (take q bs)).

(** After [i] source ops: the output entries stand for consecutive non-empty blocks of the source,
    [src_start] and [map] name their starts, and every jump target so far starts an entry. *)
Record pass_inv (cl : list (Op * Span)) (tgt : nat -> bool) (i : nat) (p : Pass)
    (bs : list (list (Op * Span))) : Prop := {
  pi_len : i <= length cl;
  pi_concat : concat bs = take i cl;
  pi_lines : length (out_lines p) = length (out p);
  pi_entries : Forall2 (fun b x => entry_ok b x.1 x.2) bs (zip (out p) (out_lines p));
  pi_full : Forall (fun b => b <> []) bs;
  pi_start : src_start p = start bs <$> seq 0 (length bs);
  pi_maplen : length (map p) = S (length cl);
  pi_map : forall q, q < length bs -> map p !! start bs q = Some q;
  pi_tgt : forall t, t < i -> tgt t = true -> exists q, q < length bs /\ start bs q = t;
}.

Lemma entries_length bs (ops : list Op) (ls : list Span) :
  Forall2 (fun b x => entry_ok b x.1 x.2) bs (zip ops ls) -> length ls = length ops -> length bs = length ops.
Proof. intros Hf Hl. apply Forall2_length in Hf. rewrite length_zip_with in Hf. lia. Qed.

Lemma start_app_le bs bs' q : q <= length bs -> start (bs ++ bs') q = start bs q.
Proof. intros Hq. unfold start. by rewrite take_app_le. Qed.

Lemma start_all bs : start bs (length bs) = length (concat bs).
Proof. unfold start. by rewrite take_ge by lia. Qed.

Lemma start_S bs q b : bs !! q = Some b -> start bs (S q) = start bs q + length b.
Proof.
  intros Hb. unfold start. rewrite (take_S_r _ _ b Hb), concat_app, length_app. simpl. by rewrite app_nil_r.
Qed.

Lemma start_lt bs q q' : Forall (fun b => b <> []) bs -> q < q' -> q' <= length bs -> start bs q < start bs q'.
Proof.
  intros Hne Hq. induction Hq as [|q' Hq IH]; intros Hl.
  - destruct (lookup_lt_is_Some_2 bs q) as [b Hb]; [lia|]. rewrite (start_S _ _ _ Hb).
    rewrite list.Forall_forall in Hne. specialize (Hne b ltac:(by eapply list_elem_of_lookup_2)).
    destruct b; [done|simpl; lia].
  - destruct (lookup_lt_is_Some_2 bs q') as [b Hb]; [lia|]. rewrite (start_S _ _ _ Hb).
    specialize (IH ltac:(lia)). lia.
Qed.

Lemma start_ge bs q : Forall (fun b => b <> []) bs -> q <= length bs -> q <= start bs q.
Proof.
  intros Hne. induction q as [|q IH]; [lia|]. intros Hq.
  pose proof (start_lt bs q (S q) Hne). specialize (IH ltac:(lia)). lia.
Qed.

(** One more op is appended. *)
Lemma push_op_inv cl tgt i p bs op line :
  pass_inv cl tgt i p bs -> cl !! i = Some (op, line) ->
  pass_inv cl tgt (S i)
    (mkPass (out p ++ [op]) (out_lines p ++ [line]) (src_start p ++ [i]) (<[i := length (out p)]> (map p)))
    (bs ++ [[(op, line)]]).
Proof.
  intros I Hi. pose proof (lookup_lt_Some _ _ _ Hi) as Hlt.
  pose proof (entries_length _ _ _ (pi_entries _ _ _ _ _ I) (pi_lines _ _ _ _ _ I)) as Hbl.
  assert (Hend : start bs (length bs) = i).
  { rewrite start_all, (pi_concat _ _ _ _ _ I), length_take. lia. }
  assert (Hfull : Forall (fun b : list (Op * Span) => b <> []) (bs ++ [[(op, line)]])).
  { apply Forall_app. split; [apply (pi_full _ _ _ _ _ I) | by apply Forall_singleton]. }
  constructor; simpl.
  - lia.
  - rewrite concat_app, (pi_concat _ _ _ _ _ I), (take_S_r _ _ _ Hi). done.
  - rewrite !length_app. simpl. pose proof (pi_lines _ _ _ _ _ I). lia.
  - rewrite zip_with_app by (by rewrite (pi_lines _ _ _ _ _ I)).
    apply Forall2_app; [apply (pi_entries _ _ _ _ _ I)|]. constructor; [by left|constructor].
  - done.
  - rewrite (pi_start _ _ _ _ _ I), length_app, seq_app, fmap_app. simpl. f_equal.
    + apply list_fmap_ext. intros k x Hx. apply lookup_seq in Hx as [-> Hk]. rewrite start_app_le; [done|lia].
    + rewrite start_app_le, Hend by lia. done.
  - rewrite length_insert. apply (pi_maplen _ _ _ _ _ I).
  - intros q Hq. rewrite length_app in Hq. simpl in Hq. rewrite start_app_le by lia.
    destruct (decide (q = length bs)) as [->|].
    + rewrite Hend, list_lookup_insert_eq; [by rewrite Hbl|]. rewrite (pi_maplen _ _ _ _ _ I). lia.
    + rewrite list_lookup_insert_ne; [apply (pi_map _ _ _ _ _ I); lia|].
      pose proof (start_lt bs q (length bs) (pi_full _ _ _ _ _ I)). lia.
  - intros t Ht Htg. rewrite length_app. simpl. destruct (decide (t = i)) as [->|].
    + exists (length bs). split; [lia|]. by rewrite start_app_le.
    + destruct (pi_tgt _ _ _ _ _ I t) as (q & Hq & E); [lia|done|]. exists q.
      split; [lia|]. by rewrite start_app_le by lia.
Qed.

Lemma lookup_fill (m : list nat) lo hi x k :
  k < length m -> fill m lo hi x !! k = if (lo <=? k) && (k <=? hi) then Some x else m !! k.
Proof.
  intros Hk. unfold fill. rewrite list_lookup_imap. destruct (lookup_lt_is_Some_2 m k Hk) as [y ->].
  simpl. by destruct (_ && _).
Qed.

(** The blocks after the last [w] entries became one. *)
Definition merge (first : nat) (bs : list (list (Op * Span))) : list (list (Op * Span)) :=
  take first bs ++ [concat (drop first bs)].

Lemma start_merge first bs q : first < length bs -> q <= first -> start (merge first bs) q = start bs q.
Proof.
  intros Hf Hq. unfold start, merge. f_equal. f_equal.
  rewrite take_app_le by (rewrite length_take; lia). rewrite take_take. f_equal. lia.
Qed.

Lemma length_merge first bs : first < length bs -> length (merge first bs) = S first.
Proof. intros Hf. unfold merge. rewrite length_app, length_take. simpl. lia. Qed.

(** The window's entries make one. *)
Lemma merge_entries first bs (ops : list Op) (ls : list Span) pre ws f :
  Forall2 (fun b x => entry_ok b x.1 x.2) bs (zip ops ls) -> length ls = length ops ->
  ops = pre ++ ws -> length pre = first -> rule ws f -> ws <> [] ->
  Forall2 (fun b x => entry_ok b x.1 x.2) (merge first bs)
    (zip (take first ops ++ [f]) (take first ls ++ [nth (length ops - 1) ls (mkSpan 0 0 0)])).
Proof.
  intros He Hl -> <- Hr Hne. unfold merge.
  rewrite zip_with_app by (rewrite !length_take; lia).
  apply Forall2_app.
  - apply (Forall2_take _ _ _ (length pre)) in He. by rewrite zip_with_take in He.
  - constructor; [|constructor]. cbn [fst snd]. destruct (rule_straight ws f Hr) as [Hws Hf].
    apply (Forall2_drop _ _ _ (length pre)) in He.
    rewrite zip_with_drop, drop_app_length in He.
    assert (Hl' : length (drop (length pre) ls) = length ws).
    { rewrite length_drop, Hl, length_app. lia. }
    destruct (entries_seq _ _ _ He Hl' Hws) as [Hst Hseq]. right. split; [done|]. split; [done|].
    intros m m' Hm. etrans; [by apply Hseq|].
    etrans; [by apply (exec_rule ws f _ (nth (length (pre ++ ws) - 1) ls (mkSpan 0 0 0)))|].
    apply exec_equiv. reflexivity.
Qed.

Lemma rule_length ws f : rule ws f -> 2 <= length ws.
Proof. by intros []; simpl; lia. Qed.

(** One round of the tail loop. *)
Lemma collapse_round cl tgt i p bs f :
  pass_inv cl tgt (S i) p bs -> try_tail (out p) = Some f ->
  existsb tgt (drop (S (length (out p) - window f)) (src_start p)) = false ->
  let first := length (out p) - window f in
  pass_inv cl tgt (S i)
    (mkPass (take first (out p) ++ [fop f])
            (take first (out_lines p) ++ [nth (length (out p) - 1) (out_lines p) (mkSpan 0 0 0)])
            (take first (src_start p) ++ [nth first (src_start p) 0])
            (fill (map p) (nth first (src_start p) 0) i first))
    (merge first bs) /\ first < length (out p).
Proof.
  intros I (pre & ws & Eout & Hw & Hr)%try_tail_rule Hno first.
  pose proof (rule_length _ _ Hr) as H2.
  pose proof (entries_length _ _ _ (pi_entries _ _ _ _ _ I) (pi_lines _ _ _ _ _ I)) as Hbl.
  assert (Hfirst : first = length pre) by (unfold first; rewrite Eout, length_app; lia).
  assert (Hlt : first < length bs) by (rewrite Hbl, Eout, length_app; lia).
  assert (Hss : nth first (src_start p) 0 = start bs first).
  { rewrite (pi_start _ _ _ _ _ I). apply nth_lookup_Some. rewrite list_lookup_fmap, lookup_seq_lt by done. done. }
  rewrite Hss. split; [|lia].
  assert (Hlast : concat (merge first bs) = concat bs).
  { unfold merge. rewrite concat_app. simpl. rewrite app_nil_r, <- concat_app. by rewrite take_drop. }
  constructor; simpl.
  - apply (pi_len _ _ _ _ _ I).
  - rewrite Hlast. apply (pi_concat _ _ _ _ _ I).
  - rewrite !length_app, !length_take, (pi_lines _ _ _ _ _ I). done.
  - eapply merge_entries; [apply (pi_entries _ _ _ _ _ I)|apply (pi_lines _ _ _ _ _ I)|done|done|done|].
    by destruct ws; [simpl in H2; lia|].
  - unfold merge. apply Forall_app. split; [apply Forall_take, (pi_full _ _ _ _ _ I)|].
    apply Forall_singleton. destruct (drop first bs) as [|b rest] eqn:Ed.
    { apply (f_equal length) in Ed. rewrite length_drop in Ed. simpl in Ed. lia. }
    pose proof (Forall_drop _ first _ (pi_full _ _ _ _ _ I)) as Hf. rewrite Ed in Hf.
    apply list.Forall_cons in Hf as [Hb _]. simpl. by destruct b.
  - rewrite length_merge, (pi_start _ _ _ _ _ I), seq_S, fmap_app by done. simpl. f_equal.
    + rewrite <- fmap_take, take_seq, Nat.min_l by lia. apply list_fmap_ext.
      intros k x Hx. apply lookup_seq in Hx as [-> Hk]. rewrite start_merge; [done|done|lia].
    + by rewrite start_merge.
  - unfold fill. rewrite length_imap. apply (pi_maplen _ _ _ _ _ I).
  - rewrite length_merge by done. intros q Hq. rewrite start_merge by lia.
    assert (Hsq : start bs q <= i).
    { pose proof (start_lt bs q (length bs) (pi_full _ _ _ _ _ I)) as Hs.
      rewrite start_all, (pi_concat _ _ _ _ _ I), length_take in Hs. lia. }
    pose proof (pi_len _ _ _ _ _ I). rewrite lookup_fill by (rewrite (pi_maplen _ _ _ _ _ I); lia).
    destruct (decide (q = first)) as [->|].
    + by rewrite !(proj2 (Nat.leb_le _ _)) by lia.
    + pose proof (start_lt bs q first (pi_full _ _ _ _ _ I)).
      rewrite (proj2 (Nat.leb_gt _ _)) by lia. apply (pi_map _ _ _ _ _ I). lia.
  - intros t Ht Htg. rewrite length_merge by done.
    destruct (pi_tgt _ _ _ _ _ I t Ht Htg) as (q & Hq & E).
    destruct (decide (q <= first)); [exists q; split; [lia|]; by rewrite start_merge|].
    exfalso. enough (Hin : existsb tgt (drop (S first) (src_start p)) = true)
      by (unfold first in Hin; congruence).
    apply existsb_exists. exists t. split; [|done]. apply list_elem_of_In, list_elem_of_lookup.
    exists (q - S first). rewrite lookup_drop, (pi_start _ _ _ _ _ I), list_lookup_fmap.
    replace (S first + (q - S first)) with q by lia. rewrite lookup_seq_lt by lia. simpl. by rewrite E.
Qed.

Lemma collapse_inv fuel cl tgt i p bs :
  pass_inv cl tgt (S i) p bs -> exists bs', pass_inv cl tgt (S i) (collapse fuel tgt i p) bs'.
Proof.
  revert p bs. induction fuel as [|fuel IH]; intros p bs I; simpl; [eauto|].
  destruct (try_tail (out p)) as [f|] eqn:Ef; [|eauto].
  destruct (existsb _ _) eqn:Ee; [eauto|].
  destruct (collapse_round cl tgt i p bs f I Ef Ee) as [I' _]. by eapply IH.
Qed.

Lemma walk_inv code lines cl tgt i p bs :
  pass_inv cl tgt i p bs -> drop i cl = zip code lines -> length lines = length code ->
  exists bs', pass_inv cl tgt (length cl) (walk tgt i code lines p) bs'.
Proof.
  revert lines i p bs. induction code as [|op code IH]; intros [|line lines] i p bs I Hd Hl;
    simpl in *; try lia.
  - exists bs. pose proof (pi_len _ _ _ _ _ I).
    apply (f_equal length) in Hd. rewrite length_drop in Hd. simpl in Hd.
    by replace (length cl) with i by lia.
  - assert (Hi : cl !! i = Some (op, line)).
    { rewrite <- (Nat.add_0_r i), <- lookup_drop, Hd. done. }
    destruct (collapse_inv (length (out p ++ [op])) cl tgt i _ _ (push_op_inv cl tgt i p bs op line I Hi))
      as [bs' I'].
    apply (IH lines (S i) _ bs'); [done| |lia].
    rewrite <- Nat.add_1_r, <- drop_drop, Hd. done.
Qed.

(** ** The simulation *)
Lemma dstep_exec cl st op s :
  cl !! ip st = Some (op, s) -> is_handler op = false ->
  dstep cl st = settle (ip st) (handlers st) (m_exec op s (machine st)).
Proof. intros E Hh. unfold dstep. rewrite E. by destruct op. Qed.

Lemma drive_add k j cl st :
  drive (k + j) cl st = match drive k cl st with Running st => drive j cl st | Done r => Done r end.
Proof. revert st. induction k as [|k IH]; intros st; simpl; [done|]. destruct (dstep cl st); [apply IH|done]. Qed.

Lemma drive_done k j cl st r r' : drive k cl st = Done r -> drive j cl st = Done r' -> r = r'.
Proof.
  intros E1 E2. assert (E3 : drive (k + j) cl st = Done r) by (by rewrite drive_add, E1).
  assert (E4 : drive (j + k) cl st = Done r') by (by rewrite drive_add, E2).
  rewrite Nat.add_comm in E4. congruence.
Qed.

(** A straight block runs through, to its first fault or its end. *)
Lemma run_block cl pre b post hs m :
  cl = pre ++ b ++ post -> Forall (fun x => straight x.1) b -> b <> [] ->
  exists k, 1 <= k /\ drive k cl (mkD (length pre) hs m) =
    match exec_seq b m with
    | Fall m => Running (mkD (length pre + length b) hs m)
    | Goto t m => Running (mkD t hs m)
    | Raise e m => raise hs e m
    | Stop m => Done (Finished m)
    end.
Proof.
  intros Hcl Hb. revert pre m Hcl. induction Hb as [|[op s] b [_ Hh] Hb IH]; intros pre m Hcl Hne; [done|].
  assert (Hi : cl !! length pre = Some (op, s)) by (by rewrite Hcl, lookup_app_r, Nat.sub_diag by lia).
  pose proof (dstep_exec cl (mkD (length pre) hs m) op s Hi Hh) as Hd. simpl in Hd.
  assert (Hone : forall o, m_exec op s m = o ->
    drive 1 cl (mkD (length pre) hs m) = settle (length pre) hs o).
  { intros o Eo. simpl. rewrite Hd, Eo. by destruct (settle (length pre) hs o). }
  simpl. destruct (m_exec op s m) as [m1|t m1|e m1|m1] eqn:Ee.
  - destruct b as [|x b]; [exists 1; split; [done|]; simpl; rewrite Hd; simpl; by rewrite Nat.add_1_r|].
    destruct (IH (pre ++ [(op, s)]) m1) as (k & Hk & E); [by rewrite Hcl, <- (assoc_L (++))|done|].
    exists (S k). split; [lia|]. simpl. rewrite Hd. simpl. rewrite length_app in E. simpl in E.
    rewrite Nat.add_1_r in E. rewrite E.
    by replace (length pre + S (S (length b))) with (S (length pre) + S (length b)) by lia.
  - exists 1. split; [done|]. exact (Hone _ eq_refl).
  - exists 1. split; [done|]. exact (Hone _ eq_refl).
  - exists 1. split; [done|]. exact (Hone _ eq_refl).
Qed.

Section simulation.
  Context (code : list Op) (lines : list Span).
  Context (Hwf : wf_code code) (Hlines : length lines = length code).
  Context (p : Pass) (bs : list (list (Op * Span))).
Let cl := zip code lines.
  Context (I : pass_inv cl (is_target code) (length cl) p bs).
Let n := length code.
Let newmap := <[n := length (out p)]> (map p).
Let f (t : nat) := nth t newmap 0.
Let cl' := zip (relocate newmap <$> out p) (out_lines p).

Lemma cl_length : length cl = n.
Proof. unfold cl. rewrite length_zip_with. unfold n. lia. Qed.

Lemma bs_length : length bs = length (out p).
Proof. apply (entries_length _ _ _ (pi_entries _ _ _ _ _ I) (pi_lines _ _ _ _ _ I)). Qed.

Lemma start_end : start bs (length bs) = n.
Proof. rewrite start_all, (pi_concat _ _ _ _ _ I), take_ge by lia. apply cl_length. Qed.

(** A source index that starts an output entry, or ends the code. *)
Definition boundary (t : nat) : Prop := exists q, q <= length bs /\ start bs q = t /\ f t = q.

Lemma boundary_start q : q <= length bs -> boundary (start bs q).
Proof.
  intros Hq. exists q. split; [done|]. split; [done|]. unfold f, newmap. apply nth_lookup_Some.
  destruct (decide (q = length bs)) as [->|].
  - rewrite start_end, list_lookup_insert_eq; [by rewrite bs_length|].
    rewrite (pi_maplen _ _ _ _ _ I), cl_length. lia.
  - rewrite list_lookup_insert_ne; [apply (pi_map _ _ _ _ _ I); lia|].
    pose proof (start_lt bs q (length bs) (pi_full _ _ _ _ _ I)). rewrite start_end in H2. lia.
Qed.

Lemma target_boundary op t : op ∈ code -> t ∈ op_targets op -> boundary t.
Proof.
  intros Hop Ht. pose proof (Hwf op t Hop Ht) as Hle. fold n in Hle.
  destruct (decide (t = n)) as [->|]; [rewrite <- start_end; by apply boundary_start|].
  destruct (pi_tgt _ _ _ _ _ I t) as (q & Hq & <-).
  - rewrite cl_length. lia.
  - apply existsb_exists. exists op. split; [by apply list_elem_of_In|].
    apply existsb_exists. exists t. split; [by apply list_elem_of_In|].
    rewrite Nat.eqb_refl. apply Nat.leb_le. done.
  - apply boundary_start. lia.
Qed.

Inductive matched : dstate -> dstate -> Prop :=
| matched_at q hs m m' : q <= length bs -> Forall boundary hs -> m_equiv m m' ->
    matched (mkD (start bs q) hs m) (mkD q (f <$> hs) m').

Inductive res_rel : dres -> dres -> Prop :=
| rr_run st st' : matched st st' -> res_rel (Running st) (Running st')
| rr_done r r' : final_equiv r r' -> res_rel (Done r) (Done r').

Lemma matched_goto t hs m m' :
  boundary t -> Forall boundary hs -> m_equiv m m' -> res_rel (Running (mkD t hs m)) (Running (mkD (f t) (f <$> hs) m')).
Proof. intros (q & Hq & <- & Ef) Hhs Hm. rewrite Ef. by repeat constructor. Qed.

Lemma matched_raise hs e e' m m' :
  Forall boundary hs -> e_equiv e e' -> f_equiv m m' -> res_rel (raise hs e m) (raise (f <$> hs) e' m').
Proof.
  intros Hhs He Hm. destruct Hhs as [|t hs Ht Hhs]; simpl; [by repeat constructor|].
  apply matched_goto; [done|done|]. by apply catch_equiv.
Qed.

(** Two outcomes of one block and its output entry, the targets relocated. *)
Lemma matched_settle q b hs o o' :
  bs !! q = Some b -> Forall boundary hs -> out_equiv o o' ->
  (forall t m, o = Goto t m -> boundary t) ->
  res_rel (match o with
           | Fall m => Running (mkD (start bs q + length b) hs m)
           | Goto t m => Running (mkD t hs m)
           | Raise e m => raise hs e m
           | Stop m => Done (Finished m)
           end) (settle q (f <$> hs) (map_goto f o')).
Proof.
  intros Hb Hhs Ho Hg. pose proof (lookup_lt_Some _ _ _ Hb) as Hlt.
  destruct Ho as [m m' Hm|t m m' Hm|e e' m m' He Hm|m m' Hm]; simpl.
  - constructor. rewrite <- (start_S _ _ _ Hb). by constructor; [lia|..].
  - by apply matched_goto; [eapply Hg|..].
  - by apply matched_raise.
  - by repeat constructor.
Qed.
Lemma relocate_handler op : is_handler (relocate newmap op) = is_handler op.
Proof. by destruct op. Qed.

(** Source and output code around entry [q]. *)
Lemma entry_at q : q < length bs ->
  exists b op line, bs !! q = Some b /\ entry_ok b op line /\
    cl' !! q = Some (relocate newmap op, line) /\
    cl = concat (take q bs) ++ b ++ concat (drop (S q) bs).
Proof.
  intros Hq. destruct (lookup_lt_is_Some_2 bs q Hq) as [b Hb].
  destruct (Forall2_lookup_l _ _ _ _ _ (pi_entries _ _ _ _ _ I) Hb) as ([op line] & Hz & Hok).
  exists b, op, line. split; [done|]. split; [done|]. split.
  - unfold cl'. apply lookup_zip_with_Some in Hz as (x & y & E & Hx & Hy). injection E as -> ->.
    apply lookup_zip_with_Some. exists (relocate newmap x), y. split; [done|]. split; [|done].
    rewrite list_lookup_fmap, Hx. done.
  - transitivity (concat bs).
    { rewrite (pi_concat _ _ _ _ _ I). by rewrite take_ge by lia. }
    rewrite <- (take_drop_middle bs q b Hb) at 1. by rewrite concat_app.
Qed.

Lemma source_op b op line q :
  cl = concat (take q bs) ++ b ++ concat (drop (S q) bs) -> b = [(op, line)] ->
  cl !! start bs q = Some (op, line) /\ op ∈ code.
Proof.
  intros Hcl ->. assert (E : cl !! start bs q = Some (op, line)).
  { rewrite Hcl. unfold start. by rewrite lookup_app_r, Nat.sub_diag by lia. }
  split; [done|]. unfold cl in E. apply lookup_zip_with_Some in E as (x & y & E & Hx & _).
  injection E as -> ->. by eapply list_elem_of_lookup_2.
Qed.

(** An entry that is one handler op. *)
Lemma sim_handler q op line hs m m' :
  cl !! start bs q = Some (op, line) -> cl' !! q = Some (relocate newmap op, line) ->
  bs !! q = Some [(op, line)] -> op ∈ code -> is_handler op = true ->
  Forall boundary hs -> m_equiv m m' ->
  res_rel (drive 1 cl (mkD (start bs q) hs m)) (dstep cl' (mkD q (f <$> hs) m')).
Proof.
  intros Hc Hc' Hb Hop Hh Hhs Hm. pose proof (lookup_lt_Some _ _ _ Hb) as Hlt.
  pose proof (start_S _ _ _ Hb) as HS. simpl in HS. rewrite Nat.add_1_r in HS.
  simpl. unfold dstep. cbn [ip handlers machine]. rewrite Hc, Hc'.
  destruct op; try discriminate; cbn.
  - constructor. rewrite <- HS. change (f t :: (f <$> hs)) with (f <$> t :: hs).
    constructor; [lia| |by apply push_handler_equiv]. constructor; [|done].
    eapply target_boundary; [done|]. apply list_elem_of_here.
  - constructor. rewrite <- HS. replace (tail (f <$> hs)) with (f <$> tail hs) by (by destruct hs).
    constructor; [lia| |by apply pop_handler_equiv]. by destruct Hhs.
Qed.

(** One step of the optimized body is one or more steps of the source. *)
Lemma sim st st' :
  matched st st' -> exists k, 1 <= k /\ res_rel (drive k cl st) (dstep cl' st').
Proof.
  intros [q hs m m' Hq Hhs Hm]. destruct (decide (q = length bs)) as [->|Hne].
  - exists 1. split; [done|]. simpl. unfold dstep. cbn [ip machine].
    rewrite start_end, !lookup_ge_None_2; [by repeat constructor| |].
    + unfold cl'. rewrite length_zip_with, length_fmap, bs_length. lia.
    + rewrite cl_length. lia.
  - destruct (entry_at q) as (b & op & line & Hb & Hok & Hc' & Hcl); [lia|].
    destruct (is_handler op) eqn:Eh.
    { destruct Hok as [->|(_ & [_ Hs] & _)]; [|congruence].
      destruct (source_op _ op line q Hcl eq_refl) as [Hc Hop].
      exists 1. split; [done|]. by apply (sim_handler q op line). }
    rewrite (dstep_exec cl' (mkD q (f <$> hs) m') (relocate newmap op) line) by (by rewrite ?relocate_handler).
    cbn [ip handlers machine]. unfold relocate. rewrite exec_relocate by done.
    destruct Hok as [->|(Hst & _ & Heq)].
    + destruct (source_op _ op line q Hcl eq_refl) as [Hc Hop]. exists 1. split; [done|]. simpl.
      rewrite (dstep_exec cl (mkD (start bs q) hs m) op line Hc Eh). cbn [ip handlers machine].
      pose proof (matched_settle q _ hs _ _ Hb Hhs (exec_equiv op line line m m' Hm)) as Hms.
      pose proof (exec_goto op line m) as Hg. simpl in Hms. rewrite Nat.add_1_r in Hms.
      destruct (m_exec op line m) as [m1|t m1|e m1|m1]; simpl.
      * by apply Hms.
      * apply Hms. intros u m0 Et. injection Et as <- _. eapply target_boundary; [done|exact (Hg _ _ eq_refl)].
      * destruct (raise hs e m1); by apply Hms.
      * by apply Hms.
    + destruct (run_block cl (concat (take q bs)) b (concat (drop (S q) bs)) hs m Hcl Hst) as (k & Hk & Ed).
      { pose proof (pi_full _ _ _ _ _ I) as Hf. rewrite list.Forall_forall in Hf.
        apply Hf. by eapply list_elem_of_lookup_2. }
      exists k. split; [done|]. change (start bs q) with (length (concat (take q bs))). rewrite Ed.
      apply (matched_settle q b hs _ _ Hb Hhs (Heq m m' Hm)).
      intros t m1 Et. by destruct (straight_seq_no_goto _ _ _ _ Hst Et).
Qed.
End simulation.
(** ** The two runs end alike *)
Section ends.
  Context (cl cl' : list (Op * Span)) (R : dstate -> dstate -> Prop).
  Context (Hsim : forall st st', R st st' -> exists k, 1 <= k /\
    ((exists st1 st1', drive k cl st = Running st1 /\ dstep cl' st' = Running st1' /\ R st1 st1') \/
     (exists r r', drive k cl st = Done r /\ dstep cl' st' = Done r' /\ final_equiv r r'))).

Lemma ends_forward fuel st st' r :
  R st st' -> drive fuel cl st = Done r -> exists fuel' r', drive fuel' cl' st' = Done r' /\ final_equiv r r'.
Proof.
  revert st st'. induction (lt_wf fuel) as [fuel _ IH]. intros st st' HR Hd.
  destruct (Hsim _ _ HR) as (k & Hk & [(st1 & st1' & E & E' & HR1)|(r0 & r' & E & E' & Hr)]).
  - destruct (decide (fuel <= k)) as [Hle|Hgt].
    + replace k with (fuel + (k - fuel)) in E by lia. rewrite drive_add, Hd in E. discriminate.
    + replace fuel with (k + (fuel - k)) in Hd by lia. rewrite drive_add, E in Hd.
      destruct (IH (fuel - k) ltac:(lia) st1 st1' HR1 Hd) as (fuel' & r' & E1 & Hr).
      exists (S fuel'), r'. split; [|done]. simpl. by rewrite E'.
  - exists 1, r'. simpl. rewrite E'. split; [done|]. by rewrite (drive_done _ _ _ _ _ _ Hd E).
Qed.

Lemma ends_backward fuel st st' r' :
  R st st' -> drive fuel cl' st' = Done r' -> exists fuel' r, drive fuel' cl st = Done r /\ final_equiv r r'.
Proof.
  revert st st'. induction fuel as [|fuel IH]; intros st st' HR Hd; [done|]. simpl in Hd.
  destruct (Hsim _ _ HR) as (k & Hk & [(st1 & st1' & E & E' & HR1)|(r & r0 & E & E' & Hr)]).
  - rewrite E' in Hd. destruct (IH st1 st1' HR1 Hd) as (fuel' & r & E1 & Hr).
    exists (k + fuel'), r. split; [|done]. by rewrite drive_add, E.
  - rewrite E' in Hd. injection Hd as <-. by exists k, r.
Qed.
End ends.

Lemma pass_start code lines :
  pass_inv (zip code lines) (is_target code) 0 (mkPass [] [] [] (replicate (S (length (zip code lines))) 0)) [].
Proof.
  constructor; simpl; try done; try lia. by rewrite length_replicate.
Qed.

(** The simulation between the two bodies, from their first op. *)
Lemma optimize_sim code lines m m' :
  wf_code code -> length lines = length code -> m_equiv m m' ->
  let oc := optimize code lines in
  exists R : dstate -> dstate -> Prop, R (mkD 0 [] m) (mkD 0 [] m') /\
  forall st st', R st st' -> exists k, 1 <= k /\
    ((exists st1 st1', drive k (zip code lines) st = Running st1 /\
        dstep (zip oc.1 oc.2) st' = Running st1' /\ R st1 st1') \/
     (exists r r', drive k (zip code lines) st = Done r /\
        dstep (zip oc.1 oc.2) st' = Done r' /\ final_equiv r r')).
Proof.
  intros Hwf Hl Hm oc. unfold oc, optimize. destruct (Nat.eqb_spec (length code) 0) as [E0|E0].
  - destruct code; [|done]. exists (fun st st' => m_equiv (machine st) (machine st')). split; [done|].
    intros st st' Hst. exists 1. split; [done|]. right. simpl. unfold dstep. simpl. eexists _, _.
    split; [done|]. split; [done|]. by constructor.
  - assert (Hzl : length (zip code lines) = length code) by (rewrite length_zip_with; lia).
    destruct (walk_inv code lines (zip code lines) (is_target code) 0 _ [] (pass_start code lines))
      as [bs I]; [by rewrite drop_0|done|]. rewrite Hzl in I. cbn [fst snd].
    rewrite <- Hzl in I at 1.
    set (p := walk _ _ _ _ _) in *.
    exists (matched code p bs). split.
    + change 0 with (start bs 0) at 1. change [] with ((fun t => nth t (<[length code := length (out p)]> (map p)) 0) <$> []) at 2.
      constructor; [lia|constructor|done].
    + intros st st' Hst. destruct (sim code lines Hwf Hl p bs I st st' Hst) as (k & Hk & Hr).
      exists k. split; [done|]. inversion Hr as [st1 st1' HR E1 E2|r r' HR E1 E2].
      * left. by exists st1, st1'.
      * right. by exists r, r'.
Qed.
(** C1: [optimize] preserves what a body does.  On any machine that satisfies [MachineLaws], from
    equivalent machine states, the source body ends (by returning, by running off its end, or with
    an uncaught fault) exactly when the optimized body does, in an equivalent state and with a fault
    that is the same up to its source position.  Loops, handlers and faults caught inside the body
    are included; neither body can diverge where the other ends. *)
Theorem optimize_correct code lines m m' :
  wf_code code -> length lines = length code -> m_equiv m m' ->
  let src := zip code lines in
  let dst := zip (optimize code lines).1 (optimize code lines).2 in
  (forall fuel r, drive fuel src (mkD 0 [] m) = Done r ->
     exists fuel' r', drive fuel' dst (mkD 0 [] m') = Done r' /\ final_equiv r r') /\
  (forall fuel' r', drive fuel' dst (mkD 0 [] m') = Done r' ->
     exists fuel r, drive fuel src (mkD 0 [] m) = Done r /\ final_equiv r r').
Proof.
  intros Hwf Hl Hm src dst. destruct (optimize_sim code lines m m' Hwf Hl Hm) as (R & H0R & Hsim).
  split; intros fuel r Hd.
  - by eapply (ends_forward src dst R Hsim).
  - by eapply (ends_backward src dst R Hsim).
Qed.

Lemma out_targets code lines p bs op t :
  wf_code code -> length lines = length code ->
  pass_inv (zip code lines) (is_target code) (length (zip code lines)) p bs ->
  op ∈ out p -> t ∈ op_targets op -> op ∈ code.
Proof.
  intros Hwf Hl I Hop Ht. apply list_elem_of_lookup in Hop as [q Hq].
  pose proof (bs_length code lines p bs I) as Hbl. pose proof (lookup_lt_Some _ _ _ Hq) as Hlt.
  destruct (entry_at code lines Hl p bs I q) as (b & op' & line & Hb & Hok & Hc' & Hcl); [lia|].
  destruct (Forall2_lookup_l _ _ _ _ _ (pi_entries _ _ _ _ _ I) Hb) as ([op1 line1] & Hz & Hok1).
  apply lookup_zip_with_Some in Hz as (x & y & E & Hx & Hy). injection E as -> ->.
  assert (x = op) as -> by congruence. destruct Hok1 as [->|(_ & [Hno _] & _)].
  - by eapply (source_op code lines); [..|exact Hcl|reflexivity].
  - simpl in Hno. rewrite Hno in Ht. by apply elem_of_nil in Ht.
Qed.

Lemma op_targets_relocate m op :
  op_targets (relocate m op) = (fun t => nth t m 0) <$> op_targets op.
Proof.
  destruct op; try done. unfold op_targets, relocate. simpl. destruct m0 as [k arms els snd]. simpl.
  rewrite fmap_app. by destruct els.
Qed.

Lemma optimize_wf_in code lines :
  wf_code code -> length lines = length code ->
  let (code', lines') := optimize code lines in
  length lines' = length code' /\ length code' <= length code /\ wf_code code'.
Proof.
  intros Hwf Hl. unfold optimize. destruct (Nat.eqb_spec (length code) 0) as [E0|E0]; [done|].
  assert (Hzl : length (zip code lines) = length code) by (rewrite length_zip_with; lia).
  destruct (walk_inv code lines (zip code lines) (is_target code) 0 _ [] (pass_start code lines))
    as [bs I]; [by rewrite drop_0|done|]. rewrite Hzl in I. rewrite <- Hzl in I at 1.
  set (p := walk _ _ _ _ _) in *.
  pose proof (bs_length code lines p bs I) as Hbl. rewrite length_fmap.
  split; [apply (pi_lines _ _ _ _ _ I)|]. split.
  - rewrite <- Hbl, <- (start_end code lines Hl p bs I). apply start_ge; [apply (pi_full _ _ _ _ _ I)|done].
  - intros op t (op0 & -> & Hop)%list_elem_of_fmap Ht. rewrite op_targets_relocate in Ht.
    apply list_elem_of_fmap in Ht as (u & -> & Hu). rewrite length_fmap, <- Hbl.
    destruct (target_boundary code lines Hwf Hl p bs I op0 u) as (q & Hq & _ & Eq); [|done|].
    + by eapply out_targets.
    + cbn beta in Eq. rewrite Hbl, Eq. lia.
Qed.
End machine.

(** ** A machine of scalars

    Integers, floats, booleans and caught faults on a stack, with locals; the arithmetic is
    [int_binop]'s and [float_binop]'s.  It satisfies the laws, so the theorem applies to it. *)
Module Scalar.
Inductive kind := Fault (f : IntFault) | FloatZero | TypeError | Unsupported.
Inductive val := VInt (n : Z) | VFloat (f : F64.f64) | VBool (b : bool) | VNil | VErr (k : kind).
Record st := mkSt { stack : list val; locals : list val; marks : list nat }.
Definition err : Type := kind * Span.

Definition kind_binop (k : BinKind) : option BinaryOp :=
  match k with
  | BinKind.Add => Some BinaryOp.Add | BinKind.Sub => Some BinaryOp.Sub | BinKind.Mul => Some BinaryOp.Mul
  | BinKind.Div => Some BinaryOp.Div | BinKind.Mod => Some BinaryOp.Mod
  | _ => None
  end.
Definition kind_cmp (k : BinKind) (c : comparison) : bool :=
  match k, c with
  | BinKind.Lt, Lt | BinKind.LtEq, (Lt | Eq) | BinKind.Gt, Gt | BinKind.GtEq, (Gt | Eq) => true
  | _, _ => false
  end.

Definition bin (k : BinKind) (a b : val) : result val kind :=
  match kind_binop k, a, b with
  | Some op, VInt a, VInt b =>
      match int_binop op a b with
      | Some (Ok v) => Ok (VInt v)
      | Some (Err f) => Err (Fault f)
      | None => Err TypeError
      end
  | Some op, VFloat a, VFloat b =>
      match float_binop op a b with Some v => Ok (VFloat v) | None => Err FloatZero end
  | None, VInt a, VInt b => Ok (VBool (kind_cmp k (a ?= b)%Z))
  | None, VFloat a, VFloat b =>
      Ok (VBool (match F64.compare a b with Some c => kind_cmp k c | None => false end))
  | _, _, _ => Err TypeError
  end.

Definition put (v : val) (m : st) : st := mkSt (v :: stack m) (locals m) (marks m).
Definition rest (m : st) : st := mkSt (tail (stack m)) (locals m) (marks m).
Definition top (m : st) : val := default VNil (head (stack m)).
Definition local (slot : nat) (m : st) : val := nth slot (locals m) VNil.
Definition store (slot : nat) (v : val) (m : st) : st := mkSt (stack m) (<[slot := v]> (locals m)) (marks m).
Definition answer (s : Span) (r : result val kind) (m : st) : moutcome st err :=
  match r with Ok v => Fall (put v m) | Err k => Raise (k, s) m end.

Section scalar.
  Context `{OpPayloads}.
Definition exec (op : Op) (s : Span) (m : st) : moutcome st err :=
  match op with
  | Op.ConstInt n => Fall (put (VInt n) m)
  | Op.ConstFloat f => Fall (put (VFloat f) m)
  | Op.True => Fall (put (VBool true) m)
  | Op.False => Fall (put (VBool false) m)
  | Op.Nil => Fall (put VNil m)
  | Op.Pop => Fall (rest m)
  | Op.GetLocal slot => Fall (put (local slot m) m)
  | Op.SetLocal slot => Fall (store slot (top m) (rest m))
  | Op.Neg =>
      match top m with
      | VInt n => answer s (match int_neg n with Ok v => Ok (VInt v) | Err f => Err (Fault f) end) (rest m)
      | VFloat f => Fall (put (VFloat (F64.neg f)) (rest m))
      | _ => Raise (TypeError, s) (rest m)
      end
  | Op.Not =>
      match top m with VBool b => Fall (put (VBool (negb b)) (rest m)) | _ => Raise (TypeError, s) (rest m) end
  | Op.BinLocalLocal a b k => answer s (bin k (local a m) (local b m)) m
  | Op.BinLocalConst slot n k => answer s (bin k (local slot m) (VInt n)) m
  | Op.IncLocal slot n =>
      match bin BinKind.Add (local slot m) (VInt n) with
      | Ok v => Fall (store slot v m)
      | Err k => Raise (k, s) m
      end
  | Op.Jump t => Goto t m
  | Op.JumpIfFalse t =>
      match top m with
      | VBool false => Goto t (rest m)
      | VBool true => Fall (rest m)
      | _ => Raise (TypeError, s) (rest m)
      end
  | Op.Return => Stop m
  | op =>
      match bin_kind op with
      | Some k => answer s (bin k (top (rest m)) (top m)) (rest (rest m))
      | None => Raise (Unsupported, s) m
      end
  end.

Definition push_mark (m : st) : st := mkSt (stack m) (locals m) (length (stack m) :: marks m).
Definition pop_mark (m : st) : st := mkSt (stack m) (locals m) (tail (marks m)).
Definition catch (e : err) (m : st) : st :=
  let keep := default 0 (head (marks m)) in
  mkSt (VErr e.1 :: drop (length (stack m) - keep) (stack m)) (locals m) (tail (marks m)).

#[global] Instance machine : Machine := {|
  MSt := st; MErr := err; m_equiv := eq; f_equiv := eq; e_equiv e e' := e.1 = e'.1;
  m_exec := exec; m_push_handler := push_mark; m_pop_handler := pop_mark; m_catch := catch;
|}.

Lemma answer_equiv s s' r m : out_equiv (answer s r m) (answer s' r m).
Proof. destruct r; by constructor. Qed.

Lemma exec_pos op s s' m : out_equiv (exec op s m) (exec op s' m).
Proof.
  destruct op; cbn [exec bin_kind]; try apply answer_equiv; try (by constructor).
  - destruct (top m); try (by constructor). apply answer_equiv.
  - destruct (top m); by constructor.
  - destruct (bin _ _ _); by constructor.
  - destruct (top m) as [| |[]| |]; by constructor.
Qed.

Lemma exec_target op s m t m' : exec op s m = Goto t m' -> t ∈ op_targets op.
Proof.
  destruct op; cbn [exec bin_kind]; unfold answer; repeat case_match; intros E; try discriminate;
    injection E as <- <-; apply list_elem_of_here.
Qed.

Lemma exec_map_goto f op s m : is_handler op = false ->
  exec (set_wait_targets f (set_jump_target f op)) s m = map_goto f (exec op s m).
Proof.
  destruct op; intros Hh; try discriminate Hh; cbn [exec bin_kind set_wait_targets set_jump_target]; unfold answer;
    repeat case_match; done.
Qed.

Lemma bin_answer o k s m : bin_kind o = Some k -> exec o s m = answer s (bin k (top (rest m)) (top m)) (rest (rest m)).
Proof. by destruct o; try discriminate; intros [= <-]. Qed.

Lemma fold_bin o op : fold_binop o = Some op -> exists k, bin_kind o = Some k /\ kind_binop k = Some op.
Proof. destruct o; try discriminate; intros [= <-]; by eexists. Qed.

Lemma rest_put v m : rest (put v m) = m.
Proof. by destruct m. Qed.

Lemma seq_answer x y o s1 s2 s3 k v w m :
  exec x s1 m = Fall (put v m) -> exec y s2 (put v m) = Fall (put w (put v m)) -> bin_kind o = Some k ->
  exec_seq [(x, s1); (y, s2); (o, s3)] m = answer s3 (bin k v w) m.
Proof.
  intros Ex Ey Ek. cbn [exec_seq]. simpl m_exec. rewrite Ex, Ey, (bin_answer o k s3 _ Ek).
  change (top (put w (put v m))) with w. rewrite !rest_put. change (top (put v m)) with v.
  by destruct (bin k v w).
Qed.

Lemma exec_window ws op ss s m : rule ws op -> length ss = length ws ->
  out_equiv (exec_seq (zip ws ss) m) (exec op s m).
Proof.
  intros Hr Hl. destruct Hr; (destruct ss as [|s1 [|s2 [|s3 [|]]]]; try discriminate Hl); cbn [zip zip_with].
  - destruct (fold_bin _ _ H0) as (k & Ek & Eb).
    rewrite (seq_answer _ _ _ _ _ _ k (VInt a) (VInt b)) by done. unfold bin. rewrite Eb, H1. by constructor.
  - destruct (fold_bin _ _ H0) as (k & Ek & Eb).
    rewrite (seq_answer _ _ _ _ _ _ k (VFloat a) (VFloat b)) by done. unfold bin. rewrite Eb, H1. by constructor.
  - simpl. rewrite H0. destruct m. by constructor.
  - simpl. destruct m. by constructor.
  - simpl. destruct m. by constructor.
  - simpl. destruct m. by constructor.
  - simpl. destruct (bin _ _ _); simpl; [|by constructor]. destruct m. by constructor.
  - rewrite (seq_answer _ _ _ _ _ _ kind0 (local a m) (local b m)); [apply answer_equiv|done| |done].
    by destruct m.
  - rewrite (seq_answer _ _ _ _ _ _ kind0 (local slot m) (VInt val0)); [apply answer_equiv|done..].
Qed.

#[global] Instance machine_laws : MachineLaws.
Proof.
  split; simpl; try (intros; subst; done).
  - apply _.
  - apply _.
  - split; [by intros|by intros ??|intros x y z ->; done].
  - intros op s s' m m' ->. apply exec_pos.
  - intros [k s] [k' s'] m m' E ->. simpl in E. subst. done.
  - apply exec_target.
  - apply exec_map_goto.
  - apply exec_window.
Qed.
End scalar.
End Scalar.

#[global] Instance unit_payloads : OpPayloads := {|
  Builtin := unit; Hook := unit; NativeStatic := unit; TypeDescriptor := unit; FormatSpec := unit;
|}.


Definition wf_codeb `{OpPayloads} (code : list Op) : bool :=
  forallb (fun op => forallb (fun t => t <=? length code) (op_targets op)) code.
Lemma wf_codeb_ok `{OpPayloads} code : wf_codeb code = true -> wf_code code.
Proof.
  intros Hb op t Hop%list_elem_of_In Ht%list_elem_of_In. unfold wf_codeb in Hb. rewrite forallb_forall in Hb.
  specialize (Hb op Hop). rewrite forallb_forall in Hb. by apply Nat.leb_le, Hb.
Qed.

(** [optimize] returns a well-formed body: one span per op, no more ops than it was given, and
    every jump (a [WaitPoll]'s arms included) inside the new body, given that the input's were. *)
Lemma optimize_wf `{OpPayloads} code lines :
  wf_code code -> length lines = length code ->
  let (code', lines') := optimize code lines in
  length lines' = length code' /\ length code' <= length code /\ wf_code code'.
Proof. apply optimize_wf_in. Qed.

(** A counting loop under a handler: [x = 2 * 3], then [x = x + 1] while [x < 10]. *)
Definition loop_code : list Op :=
  [Op.PushHandler 15; Op.ConstInt 2; Op.ConstInt 3; Op.Mul; Op.SetLocal 0;
   Op.GetLocal 0; Op.ConstInt 1; Op.Add; Op.SetLocal 0;
   Op.GetLocal 0; Op.ConstInt 10; Op.Lt; Op.JumpIfFalse 14; Op.Jump 5;
   Op.PopHandler; Op.Return].
Definition loop_lines : list Span := (fun k => mkSpan (Z.of_nat k) 1 0) <$> seq 0 16.
Definition loop_start : Scalar.st := Scalar.mkSt [] [Scalar.VNil] [].

Lemma optimize_correct_witness :
  drive 100 (zip loop_code loop_lines) (mkD 0 [] loop_start) =
    Done (Finished (Scalar.mkSt [] [Scalar.VInt 10] [])) /\
  exists fuel' r', drive fuel' (zip (optimize loop_code loop_lines).1 (optimize loop_code loop_lines).2)
      (mkD 0 [] loop_start) = Done r' /\
    final_equiv (Finished (Scalar.mkSt [] [Scalar.VInt 10] [])) r'.
Proof.
  assert (E : drive 100 (zip loop_code loop_lines) (mkD 0 [] loop_start) =
    Done (Finished (Scalar.mkSt [] [Scalar.VInt 10] []))) by reflexivity.
  split; [exact E|].
  assert (Hwf : wf_code loop_code) by (apply wf_codeb_ok; reflexivity).
  pose proof (optimize_correct loop_code loop_lines loop_start loop_start Hwf eq_refl eq_refl) as [F _].
  exact (F 100 _ E).
Defined.

(** The one observable difference.  A fused [x = x + 1] reports its overflow at the span of the
    store, where the unfused body reports it at the span of the addition. *)
Lemma inc_local_fault_span (sget sconst sadd sset : Span) :
  let code := [Op.GetLocal 0; Op.ConstInt 1; Op.Add; Op.SetLocal 0] in
  let lines := [sget; sconst; sadd; sset] in
  let m := Scalar.mkSt [] [Scalar.VInt I64.MAX] [] in
  let overflow := Scalar.Fault (Overflow (OpBin BinaryOp.Add)) in
  optimize code lines = ([Op.IncLocal 0 1], [sset]) /\
  drive 4 (zip code lines) (mkD 0 [] m) = Done (Uncaught (overflow, sadd) m) /\
  drive 4 (zip (optimize code lines).1 (optimize code lines).2) (mkD 0 [] m) = Done (Uncaught (overflow, sset) m).
Proof. repeat split. Qed.
