(* ===== verification/Channel.v ===== *)
(** * Channels: the transfer protocol of [src/src/vm/core.rs]

    A channel is a buffer, a queue of offers (blocked senders with their values) and a queue of
    slots (blocked rendezvous receivers).  A blocked party has one [Pending], shared by all its
    entries: whoever moves a value commits it with one compare-exchange from [PENDING_QUEUED].

    The [ChanState] operations follow the source, with the [Pending]s in a store [ps] (an [Arc] is
    an index, pointer equality is index equality).  Each runs in one hold of the channel's lock; a
    settled [Pending] never becomes queued again, so the failed compare-exchanges of a loop may be
    read at the moment of its last one.  On top of them, [World] runs any number of channels and
    parties: sends, receives, parks, the arms of a [wait:] published one at a time, closes and
    settlements, in any order. *)

From Stdlib Require Import String.
From S2P Require Import Prelude.
Local Open Scope nat_scope.

(** ** [Pending] *)
Definition PENDING_QUEUED : nat := 0.
Definition PENDING_CANCELLED : nat := 1.
Definition PENDING_CLOSED : nat := 2.
Definition PENDING_DONE : nat := 3.

Definition is_queued (ps : list nat) (p : nat) : bool :=
  match ps !! p with Some s => s =? PENDING_QUEUED | None => false end.

(** [compare_exchange(PENDING_QUEUED, to)]. *)
Definition settle_to (to : nat) (ps : list nat) (p : nat) : bool * list nat :=
  if is_queued ps p then (true, <[p := to]> ps) else (false, ps).
Definition try_commit (ps : list nat) (p arm : nat) : bool * list nat := settle_to (PENDING_DONE + arm) ps p.
(** [Err(state)] when somebody settled the party first. *)
Definition try_cancel (ps : list nat) (p : nat) : result unit nat * list nat :=
  if is_queued ps p then (Ok tt, <[p := PENDING_CANCELLED]> ps)
  else (Err (default PENDING_CANCELLED (ps !! p)), ps).
Definition try_close (ps : list nat) (p : nat) : bool * list nat := settle_to PENDING_CLOSED ps p.

Definition is_me (p : nat) (me : option nat) : bool := match me with Some m => m =? p | None => false end.

(** ** [ChanState] *)
Section chan.
  Context {V : Type}.

Record Offer := mkOffer { o_p : nat; o_arm : nat; o_v : V }.
Record Slot := mkSlot { s_p : nat; s_arm : nat; s_got : option V }.
Record ChanState := mkChan {
  queue : list V; sendq : list Offer; recvq : list Slot;
  closed : bool; sealed : bool; unbuilt : option string;
}.
Definition new_chan : ChanState := mkChan [] [] [] false false None.

Inductive SendOutcome := Sent | Offered | Full | Closed.
Inductive RecvReady := RValue (v : V) | RFired | RClosed | RWait.
Inductive Settled := SCancelled | SClosed | SSent (arm : nat) | SGot (arm : nat) (v : V).

Definition set_queue (q : list V) (ch : ChanState) : ChanState :=
  mkChan q (sendq ch) (recvq ch) (closed ch) (sealed ch) (unbuilt ch).
Definition set_sendq (q : list Offer) (ch : ChanState) : ChanState :=
  mkChan (queue ch) q (recvq ch) (closed ch) (sealed ch) (unbuilt ch).
Definition set_recvq (q : list Slot) (ch : ChanState) : ChanState :=
  mkChan (queue ch) (sendq ch) q (closed ch) (sealed ch) (unbuilt ch).

Definition push (v : V) (ch : ChanState) : ChanState := set_queue (queue ch ++ [v]) ch.
Definition seal (v : V) (ch : ChanState) : bool * ChanState :=
  if sealed ch then (false, ch)
  else (true, mkChan (queue ch ++ [v]) (sendq ch) (recvq ch) true true (unbuilt ch)).
Definition seal_err (msg : string) (ch : ChanState) : bool * ChanState :=
  if sealed ch then (false, ch)
  else (true, mkChan (queue ch) (sendq ch) (recvq ch) true true (Some msg)).
Definition build_outcome (v : V) (ch : ChanState) : ChanState :=
  match unbuilt ch with
  | Some _ => mkChan (queue ch ++ [v]) (sendq ch) (recvq ch) (closed ch) (sealed ch) None
  | None => ch
  end.
Definition offer (p arm : nat) (v : V) (ch : ChanState) : ChanState :=
  set_sendq (sendq ch ++ [mkOffer p arm v]) ch.
Definition slot (p arm : nat) (ch : ChanState) : ChanState :=
  set_recvq (recvq ch ++ [mkSlot p arm None]) ch.

(** The loop of [give] over the slots. *)
Fixpoint give_slots (ps : list nat) (v : V) (me : option nat) (l : list Slot)
  : bool * list nat * list Slot :=
  match l with
  | [] => (false, ps, [])
  | s :: l =>
      if (match s_got s with Some _ => true | None => false end) || is_me (s_p s) me then
        let '(b, ps, l) := give_slots ps v me l in (b, ps, s :: l)
      else
        match try_commit ps (s_p s) (s_arm s) with
        | (true, ps) => (true, ps, mkSlot (s_p s) (s_arm s) (Some v) :: l)
        | (false, ps) => give_slots ps v me l
        end
  end.
Definition give (ps : list nat) (v : V) (me : option nat) (ch : ChanState) : bool * list nat * ChanState :=
  let '(b, ps, l) := give_slots ps v me (recvq ch) in (b, ps, set_recvq l ch).

Definition send_offer (ps : list nat) (v : V) (off : option (nat * nat)) (ch : ChanState)
  : SendOutcome * list nat * ChanState :=
  match off with
  | Some (p, arm) => (Offered, ps, offer p arm v ch)
  | None => (Full, ps, ch)
  end.
Definition send (ps : list nat) (cap : option nat) (v : V) (off : option (nat * nat)) (ch : ChanState)
  : SendOutcome * list nat * ChanState :=
  if closed ch then (Closed, ps, ch) else
  match cap with
  | None => (Sent, ps, push v ch)
  | Some O =>
      match give ps v (fst <$> off) ch with
      | (true, ps, ch) => (Sent, ps, ch)
      | (false, ps, ch) => send_offer ps v off ch
      end
  | Some n => if length (queue ch) <? n then (Sent, ps, push v ch) else send_offer ps v off ch
  end.

(** The loop of [take_offer]. *)
Fixpoint take_offers (ps : list nat) (me : option nat) (l : list Offer) : option V * list nat * list Offer :=
  match l with
  | [] => (None, ps, [])
  | o :: l =>
      if is_me (o_p o) me then let '(r, ps, l) := take_offers ps me l in (r, ps, o :: l)
      else match try_commit ps (o_p o) (o_arm o) with
           | (true, ps) => (Some (o_v o), ps, l)
           | (false, ps) => take_offers ps me l
           end
  end.
Definition take_offer (ps : list nat) (me : option nat) (ch : ChanState) : option V * list nat * ChanState :=
  let '(r, ps, l) := take_offers ps me (sendq ch) in (r, ps, set_sendq l ch).

Definition pop_for (ps : list nat) (me : option nat) (ch : ChanState) : option V * list nat * ChanState :=
  if sealed ch then (list.last (queue ch), ps, ch) else
  match queue ch with
  | v :: q =>
      let '(ov, ps, ch) := take_offer ps me (set_queue q ch) in
      (Some v, ps, match ov with Some ov => push ov ch | None => ch end)
  | [] => take_offer ps me ch
  end.
Definition pop (ps : list nat) (ch : ChanState) : option V * list nat * ChanState := pop_for ps None ch.

(** The first filled slot of [p], and the others. *)
Fixpoint take_slots (p : nat) (l : list Slot) : option V * list Slot :=
  match l with
  | [] => (None, [])
  | s :: l =>
      match s_got s with
      | Some v => if s_p s =? p then (Some v, l)
                  else let '(r, l) := take_slots p l in (r, s :: l)
      | None => let '(r, l) := take_slots p l in (r, s :: l)
      end
  end.
Definition take (p : nat) (ch : ChanState) : option V * ChanState :=
  let '(r, l) := take_slots p (recvq ch) in (r, set_recvq l ch).

Definition withdraw (p : nat) (ch : ChanState) : ChanState :=
  set_recvq (filter (fun s => s_p s <> p) (recvq ch))
    (set_sendq (filter (fun o => o_p o <> p) (sendq ch)) ch).

Definition filled (s : Slot) : Prop := is_Some (s_got s).
#[global] Instance filled_dec s : Decision (filled s).
Proof. unfold filled. destruct (s_got s); [left; eauto | right; by intros []]. Defined.

Definition close (ps : list nat) (ch : ChanState) : list nat * ChanState :=
  (foldl (fun ps o => (try_close ps (o_p o)).2) ps (sendq ch),
   mkChan (queue ch) [] (filter filled (recvq ch)) true (sealed ch) (unbuilt ch)).

Definition len (ch : ChanState) : nat := length (queue ch).

Definition recv_ready_for (ps : list nat) (me : option nat) (ch : ChanState) : bool :=
  negb (match queue ch with [] => true | _ => false end) || sealed ch ||
  existsb (fun o => is_queued ps (o_p o) && negb (is_me (o_p o) me)) (sendq ch).
Definition send_ready_for (ps : list nat) (cap : option nat) (me : option nat) (ch : ChanState) : bool :=
  match cap with
  | None => true
  | Some O =>
      existsb (fun s => (match s_got s with None => true | Some _ => false end) &&
                        is_queued ps (s_p s) && negb (is_me (s_p s) me)) (recvq ch)
  | Some n => length (queue ch) <? n
  end.

(** [Vm::recv_ready] ([vm/channel.rs]): [fired] is the latch or a timer past its deadline,
    [build] the [Err] value made of a sealed text. *)
Definition recv_ready (build : string -> V) (ps : list nat) (fired : bool) (ch : ChanState)
  : RecvReady * list nat * ChanState :=
  let ch := match unbuilt ch with Some msg => build_outcome (build msg) ch | None => ch end in
  match pop ps ch with
  | (Some v, ps, ch) => (RValue v, ps, ch)
  | (None, ps, ch) => ((if fired then RFired else if closed ch then RClosed else RWait), ps, ch)
  end.
End chan.
Arguments Offer : clear implicits.
Arguments Slot : clear implicits.
Arguments ChanState : clear implicits.
Arguments RecvReady : clear implicits.
Arguments Settled : clear implicits.

(** ** Parties and channels *)
Section world.
  Context {V : Type}.

(** A [PendingOp]: its entries as (channel, arm, is_send); [live] until it is settled. *)
Record Party := mkParty { at_ : list (nat * nat * bool); live : bool }.
Record World := mkWorld {
  ps : list nat; parties : list Party; chans : list (option nat * ChanState V);
}.

Definition on_chan (f : ChanState V -> ChanState V) (c : nat) (chs : list (option nat * ChanState V)) :=
  alter (fun x : option nat * ChanState V => (x.1, f x.2)) c chs.

(** [PendingOp::settle]: the result, and the channels left. *)
Definition settle_mut (ps : list nat) (chs : list (option nat * ChanState V)) (p : nat)
    (entries : list (nat * nat * bool)) : Settled V * list nat * list (option nat * ChanState V) :=
  let '(r, chs, ps) :=
    match try_cancel ps p with
    | (Ok _, ps) => (SCancelled, chs, ps)
    | (Err s, ps) =>
        if s =? PENDING_CANCELLED then (SCancelled, chs, ps)
        else if s =? PENDING_CLOSED then (SClosed, chs, ps)
        else
          let arm := s - PENDING_DONE in
          match find (fun e => e.1.2 =? arm) entries with
          | Some (_, _, true) => (SSent arm, chs, ps)
          | Some (c, _, false) =>
              match chs !! c with
              | Some (cap, ch) =>
                  match take p ch with
                  | (Some v, ch) => (SGot arm v, <[c := (cap, ch)]> chs, ps)
                  | (None, ch) => (SCancelled, <[c := (cap, ch)]> chs, ps)
                  end
              | None => (SCancelled, chs, ps)
              end
          | None => (SCancelled, chs, ps)
          end
    end in
  (r, ps, foldl (fun chs e => on_chan (withdraw p) e.1.1 chs) chs entries).

Inductive op :=
| ONewChan (cap : option nat)
| OSend (c : nat) (v : V)              (* a send that may block: with an offer *)
| OTrySend (c : nat) (v : V)           (* one that may not *)
| ORecv (c : nat)                      (* a receive's ready decision *)
| OPark (c : nat)                      (* a receive parks *)
| OWait                                (* a [wait:] starts *)
| OWaitSend (p arm c : nat) (v : V)    (* it publishes a send arm *)
| OWaitRecv (p arm c : nat) (latched : bool) (* it publishes a recv arm; [done_latch] as it reads it *)
| OClose (c : nat)
| OSettle (p : nat).

(** A value left its sender's hands (its [send] answered [Sent], or its offer was committed); a
    value reached a receiver. *)
Inductive event := Moved (c : nat) (v : V) | Received (c : nat) (v : V).

Definition new_party (w : World) : nat := length (parties w).
Definition set_chan (w : World) (ps : list nat) (c : nat) (cap : option nat) (ch : ChanState V) : World :=
  mkWorld ps (parties w) (<[c := (cap, ch)]> (chans w)).
Definition add_party (st : nat) (entries : list (nat * nat * bool)) (w : World) : World :=
  mkWorld (ps w ++ [st]) (parties w ++ [mkParty entries true]) (chans w).

(** The blocked senders of a channel that the step from [ps] to [ps'] committed, by their offers: each
    of them is told [Sent], so its value must have moved. *)
Definition committed_in (ps ps' : list nat) (ch : ChanState V) : list V :=
  omap (fun o => if is_queued ps (o_p o) && bool_decide (ps' !! o_p o = Some (PENDING_DONE + o_arm o))
                 then Some (o_v o) else None) (sendq ch).
Fixpoint committed (i : nat) (ps ps' : list nat) (chs : list (option nat * ChanState V)) : list event :=
  match chs with
  | [] => []
  | x :: chs => (Moved i <$> committed_in ps ps' x.2) ++ committed (S i) ps ps' chs
  end.

(** A party that may still publish on [arm]. *)
Definition may_publish (w : World) (p arm : nat) : option (list (nat * nat * bool)) :=
  party ← parties w !! p;
  if live party && negb (existsb (fun e => e.1.2 =? arm) (at_ party)) then Some (at_ party) else None.

(** One lock hold: the world after it, and what the running party sent or got. *)
Definition act (w : World) (o : op) : option (World * list event) :=
  match o with
  | ONewChan cap => Some (mkWorld (ps w) (parties w) (chans w ++ [(cap, new_chan)]), [])
  | OSend c v =>
      '(cap, ch) ← chans w !! c;
      let p := new_party w in
      match send (ps w ++ [PENDING_QUEUED]) cap v (Some (p, 0)) ch with
      | (out, ps', ch') =>
          let entries := match out with Offered => [(c, 0, true)] | _ => [] end in
          Some (mkWorld ps' (parties w ++ [mkParty entries true]) (<[c := (cap, ch')]> (chans w)),
                match out with Sent => [Moved c v] | _ => [] end)
      end
  | OTrySend c v =>
      '(cap, ch) ← chans w !! c;
      match send (ps w) cap v None ch with
      | (out, ps', ch') => Some (set_chan w ps' c cap ch', match out with Sent => [Moved c v] | _ => [] end)
      end
  | ORecv c =>
      '(cap, ch) ← chans w !! c;
      match pop (ps w) ch with
      | (r, ps', ch') =>
          Some (set_chan w ps' c cap ch', match r with Some v => [Received c v] | None => [] end)
      end
  | OPark c =>
      '(cap, ch) ← chans w !! c;
      let p := new_party w in
      let ch' := if negb (recv_ready_for (ps w) None ch) && negb (closed ch) &&
                    (match cap with Some O => true | _ => false end)
                 then slot p 0 ch else ch in
      Some (set_chan (add_party PENDING_QUEUED [(c, 0, false)] w) (ps w ++ [PENDING_QUEUED]) c cap ch', [])
  | OWait => Some (add_party PENDING_QUEUED [] w, [])
  | OWaitSend p arm c v =>
      entries ← may_publish w p arm;
      '(cap, ch) ← chans w !! c;
      if closed ch || send_ready_for (ps w) cap (Some p) ch then Some (w, [])
      else Some (mkWorld (ps w) (<[p := mkParty (entries ++ [(c, arm, true)]) true]> (parties w))
                   (<[c := (cap, offer p arm v ch)]> (chans w)), [])
  | OWaitRecv p arm c latched =>
      entries ← may_publish w p arm;
      '(cap, ch) ← chans w !! c;
      if closed ch || recv_ready_for (ps w) (Some p) ch || latched then Some (w, [])
      else Some (mkWorld (ps w) (<[p := mkParty (entries ++ [(c, arm, false)]) true]> (parties w))
                   (<[c := (cap, match cap with Some O => slot p arm ch | _ => ch end)]> (chans w)), [])
  | OClose c =>
      '(cap, ch) ← chans w !! c;
      let '(ps', ch') := close (ps w) ch in Some (set_chan w ps' c cap ch', [])
  | OSettle p =>
      party ← parties w !! p;
      if live party then
        let '(r, ps', chs) := settle_mut (ps w) (chans w) p (at_ party) in
        Some (mkWorld ps' (<[p := mkParty [] false]> (parties w)) chs,
              match r with
              | SGot arm v => match find (fun e => e.1.2 =? arm) (at_ party) with
                              | Some (c, _, _) => [Received c v] | None => [] end
              | _ => [] end)
      else None
  end.

(** A step: the blocked senders it committed, read off their [Pending], and the events of [act]. *)
Definition step (w : World) (o : op) : option (World * list event) :=
  '(w', evs) ← act w o; Some (w', committed 0 (ps w) (ps w') (chans w) ++ evs).

Definition empty_world : World := mkWorld [] [] [].

(** A run, with the events so far. *)
Inductive reachable : World -> list event -> Prop :=
| reach_nil : reachable empty_world []
| reach_cons w evs o w' evs' : reachable w evs -> step w o = Some (w', evs') -> reachable w' (evs ++ evs').

Fixpoint run (w : World) (evs : list event) (os : list op) : option (World * list event) :=
  match os with
  | [] => Some (w, evs)
  | o :: os => '(w, evs') ← step w o; run w (evs ++ evs') os
  end.
Definition moved (c : nat) (evs : list event) : list V :=
  omap (fun e => match e with Moved c' v => if c' =? c then Some v else None | _ => None end) evs.
Definition received (c : nat) (evs : list event) : list V :=
  omap (fun e => match e with Received c' v => if c' =? c then Some v else None | _ => None end) evs.
(** The values in filled slots. *)
Definition in_slots (ch : ChanState V) : list V := omap s_got (recvq ch).
End world.
Arguments World : clear implicits.
Arguments op : clear implicits.
Arguments event : clear implicits.

(** ** The operations on one channel *)
Section facts.
  Context {V : Type}.
  Implicit Types (ch : ChanState V).

(** Settled parties stay as they are. *)
Definition keeps (ps ps' : list nat) : Prop :=
  length ps <= length ps' /\ forall p s, ps !! p = Some s -> s <> PENDING_QUEUED -> ps' !! p = Some s.

Lemma keeps_refl ps : keeps ps ps.
Proof. by split. Qed.

Lemma keeps_trans ps1 ps2 ps3 : keeps ps1 ps2 -> keeps ps2 ps3 -> keeps ps1 ps3.
Proof. intros [? H1] [? H2]. split; [lia|]. intros p s Hp Hs. by apply H2; [apply H1|]. Qed.

Lemma is_queued_spec ps p : is_queued ps p = true <-> ps !! p = Some PENDING_QUEUED.
Proof.
  unfold is_queued. destruct (ps !! p) as [s|]; [|done]. rewrite Nat.eqb_eq. split; [by intros ->|congruence].
Qed.

Lemma keeps_queued ps ps' p :
  keeps ps ps' -> p < length ps -> is_queued ps' p = true -> is_queued ps p = true.
Proof.
  intros [_ Hk] [s Hs]%lookup_lt_is_Some_2 Hq. apply is_queued_spec. apply is_queued_spec in Hq.
  destruct (decide (s = PENDING_QUEUED)) as [->|Hne]; [done|]. rewrite (Hk p s Hs Hne) in Hq. congruence.
Qed.

Lemma keeps_insert ps p to : is_queued ps p = true -> keeps ps (<[p := to]> ps).
Proof.
  intros Hq%is_queued_spec. split; [by rewrite length_insert|]. intros q s Hs Hne.
  rewrite list_lookup_insert_ne; [done|]. intros ->. congruence.
Qed.

Lemma keeps_app ps st : keeps ps (ps ++ [st]).
Proof. split; [rewrite length_app; lia|]. intros p s Hp _. by apply lookup_app_l_Some. Qed.

Lemma try_commit_true ps p arm ps' :
  try_commit ps p arm = (true, ps') -> is_queued ps p = true /\ ps' = <[p := PENDING_DONE + arm]> ps.
Proof. unfold try_commit, settle_to. destruct (is_queued ps p); [|done]. by intros [= <-]. Qed.
Lemma try_commit_false ps p arm ps' :
  try_commit ps p arm = (false, ps') -> is_queued ps p = false /\ ps' = ps.
Proof. unfold try_commit, settle_to. destruct (is_queued ps p); [done|]. by intros [= <-]. Qed.

Lemma is_me_spec p me : is_me p me = true <-> me = Some p.
Proof. destruct me as [m|]; simpl; [|done]. rewrite Nat.eqb_eq. split; [by intros ->|congruence]. Qed.

Lemma got_cons (s : Slot V) l :
  omap s_got (s :: l) = match s_got s with Some v => v :: omap s_got l | None => omap s_got l end.
Proof. done. Qed.

(** What [give] leaves: live slots of others are never dropped, filled ones never touched. *)
Inductive gave (ps : list nat) (v : V) (me : option nat) (l : list (Slot V))
  : bool -> list nat -> list (Slot V) -> Prop :=
| gave_yes pre s post pre' :
    l = pre ++ s :: post -> s_got s = None -> is_queued ps (s_p s) = true -> me <> Some (s_p s) ->
    pre' `sublist_of` pre -> (forall x, x ∈ pre -> filled x -> x ∈ pre') -> omap s_got pre' = omap s_got pre ->
    gave ps v me l true (<[s_p s := PENDING_DONE + s_arm s]> ps)
      (pre' ++ mkSlot (s_p s) (s_arm s) (Some v) :: post)
| gave_no l' :
    (forall s, s ∈ l -> s_got s = None -> is_queued ps (s_p s) = true -> me = Some (s_p s)) ->
    l' `sublist_of` l -> (forall x, x ∈ l -> filled x -> x ∈ l') -> omap s_got l' = omap s_got l ->
    gave ps v me l false ps l'.

Lemma give_slots_spec ps v me l b ps' l' :
  give_slots ps v me l = (b, ps', l') -> gave ps v me l b ps' l'.
Proof.
  revert b ps' l'. induction l as [|s l IH]; intros b ps' l'; simpl.
  - intros [= <- <- <-]. apply gave_no; [by intros s Hs%elem_of_nil|done|done|done].
  - destruct ((match s_got s with Some _ => true | None => false end) || is_me (s_p s) me) eqn:Ek.
    + destruct (give_slots ps v me l) as [[b1 ps1] l1] eqn:E. intros [= <- <- <-].
      destruct (IH _ _ _ eq_refl) as [pre s0 post pre' El Hg Hq Hm Hsub Hf Ho|l' Hno Hsub Hf Ho].
      * apply (gave_yes ps v me (s :: l) (s :: pre) s0 post (s :: pre')); try done; [by rewrite El|..].
        -- by apply sublist_skip.
        -- intros x [->|Hx]%elem_of_cons Hfx; [by left|right; by apply Hf].
        -- by rewrite !got_cons, Ho.
      * apply gave_no.
        -- intros x [->|Hx]%elem_of_cons Hgx Hqx; [|by apply Hno]. rewrite Hgx in Ek. simpl in Ek.
           by apply is_me_spec.
        -- by apply sublist_skip.
        -- intros x [->|Hx]%elem_of_cons Hfx; [by left|right; by apply Hf].
        -- by rewrite !got_cons, Ho.
    + apply orb_false_iff in Ek as [Eg Em]. destruct (s_got s) as [|] eqn:Eg'; [done|].
      destruct (try_commit ps (s_p s) (s_arm s)) as [[] ps1] eqn:Ec.
      * apply try_commit_true in Ec as [Hq ->]. intros [= <- <- <-].
        apply (gave_yes ps v me (s :: l) [] s l []); try done.
        intros E. apply is_me_spec in E. congruence.
      * apply try_commit_false in Ec as [Hq ->]. intros E.
        destruct (IH _ _ _ E) as [pre s0 post pre' El Hg Hq0 Hm Hsub Hf Ho|l1 Hno Hsub Hf Ho].
        -- apply (gave_yes ps v me (s :: l) (s :: pre) s0 post pre'); try done; [by rewrite El|..].
           ++ by apply sublist_cons.
           ++ intros x [->|Hx]%elem_of_cons Hfx; [|by apply Hf]. unfold filled in Hfx. rewrite Eg' in Hfx.
              by destruct Hfx.
           ++ by rewrite got_cons, Eg'.
        -- apply gave_no.
           ++ intros x [->|Hx]%elem_of_cons Hgx Hqx; [congruence|by apply Hno].
           ++ by apply sublist_cons.
           ++ intros x [->|Hx]%elem_of_cons Hfx; [|by apply Hf]. unfold filled in Hfx. rewrite Eg' in Hfx.
              by destruct Hfx.
           ++ by rewrite got_cons, Eg'.
Qed.

(** [take_offer]: the first live offer of another party, the dead ones before it dropped. *)
Inductive took (ps : list nat) (me : option nat) (l : list (Offer V))
  : option V -> list nat -> list (Offer V) -> Prop :=
| took_yes pre o post pre' :
    l = pre ++ o :: post -> is_queued ps (o_p o) = true -> me <> Some (o_p o) ->
    (forall x, x ∈ pre -> is_queued ps (o_p x) = true -> me = Some (o_p x)) -> pre' `sublist_of` pre ->
    took ps me l (Some (o_v o)) (<[o_p o := PENDING_DONE + o_arm o]> ps) (pre' ++ post)
| took_no l' :
    (forall x, x ∈ l -> is_queued ps (o_p x) = true -> me = Some (o_p x)) -> l' `sublist_of` l ->
    took ps me l None ps l'.

Lemma take_offers_spec ps me l r ps' l' :
  take_offers ps me l = (r, ps', l') -> took ps me l r ps' l'.
Proof.
  revert r ps' l'. induction l as [|o l IH]; intros r ps' l'; simpl.
  - intros [= <- <- <-]. apply took_no; [by intros s Hs%elem_of_nil|done].
  - destruct (is_me (o_p o) me) eqn:Em.
    + apply is_me_spec in Em. destruct (take_offers ps me l) as [[r1 ps1] l1] eqn:E. intros [= <- <- <-].
      destruct (IH _ _ _ eq_refl) as [pre o0 post pre' El Hq Hm Hd Hsub|l' Hno Hsub].
      * apply (took_yes ps me (o :: l) (o :: pre) o0 post (o :: pre')); try done; [by rewrite El|..].
        -- intros x [->|Hx]%elem_of_cons Hqx; [done|by apply Hd].
        -- by apply sublist_skip.
      * apply took_no; [|by apply sublist_skip].
        intros x [->|Hx]%elem_of_cons Hqx; [done|by apply Hno].
    + assert (Hm : me <> Some (o_p o)) by (intros E; apply is_me_spec in E; congruence).
      destruct (try_commit ps (o_p o) (o_arm o)) as [[] ps1] eqn:Ec.
      * apply try_commit_true in Ec as [Hq ->]. intros [= <- <- <-].
        apply (took_yes ps me (o :: l) [] o l []); try done. by intros x Hx%elem_of_nil.
      * apply try_commit_false in Ec as [Hq ->]. intros E.
        destruct (IH _ _ _ E) as [pre o0 post pre' El Hq0 Hm0 Hd Hsub|l1 Hno Hsub].
        -- apply (took_yes ps me (o :: l) (o :: pre) o0 post pre'); try done; [by rewrite El|..].
           ++ intros x [->|Hx]%elem_of_cons Hqx; [congruence|by apply Hd].
           ++ by apply sublist_cons.
        -- apply took_no; [|by apply sublist_cons].
           intros x [->|Hx]%elem_of_cons Hqx; [congruence|by apply Hno].
Qed.

(** The readiness tests decide the operations.  Unless a sealed text is still unbuilt, a receive
    takes a value exactly when [recv_ready_for] says so; and on an open channel a send moves its
    value at once exactly when [send_ready_for] says so.  So a party that parks after a failed test,
    in the same hold of the lock, could not have gone on. *)
Lemma ready_decides (ps : list nat) (cap : option nat) (me off : option nat) (arm : nat) (v : V) ch :
  (sealed ch = true -> queue ch <> []) -> closed ch = false ->
  (is_Some (pop_for ps me ch).1.1 <-> recv_ready_for ps me ch = true) /\
  ((send ps cap v ((fun p => (p, arm)) <$> off) ch).1.1 = Sent <-> send_ready_for ps cap off ch = true).
Proof.
  intros Hs Hc. split; [clear Hc|clear Hs].
  - unfold pop_for, recv_ready_for. destruct (sealed ch) eqn:Es.
    + rewrite orb_true_r. simpl. rewrite last_is_Some. specialize (Hs eq_refl). done.
    + rewrite orb_false_r. unfold take_offer.
      destruct (queue ch) as [|x q] eqn:Eq.
      * simpl. destruct (take_offers ps me (sendq ch)) as [[r ps'] l'] eqn:Et. simpl.
        apply take_offers_spec in Et. destruct Et as [pre o post pre' El Hq Hm Hd Hsub|l' Hno Hsub].
        -- split; [intros _|done]. rewrite El, existsb_app. simpl. rewrite Hq.
           destruct (is_me (o_p o) me) eqn:Em; [by apply is_me_spec in Em|]. by rewrite orb_true_r.
        -- split; [by intros []|]. intros (o & Ho%list_elem_of_In & [Hq Hm]%andb_true_iff)%existsb_exists.
           specialize (Hno o Ho Hq). apply is_me_spec in Hno. by rewrite Hno in Hm.
      * simpl. destruct (take_offers ps me (sendq ch)) as [[r ps'] l']. simpl. split; [done|by eauto].
  - unfold send, send_ready_for. rewrite Hc.
    assert (Hoff : forall ps0 ch0, (send_offer ps0 v ((fun p => (p, arm)) <$> off) ch0).1.1 <> Sent)
      by (by intros ps0 ch0; destruct off).
    destruct cap as [[|n]|]; [|by destruct (_ <? _); [|split; [intros E; by apply Hoff in E|]]|done].
    replace (fst <$> ((fun p => (p, arm)) <$> off)) with off by (by destruct off).
    unfold give. destruct (give_slots ps v off (recvq ch)) as [[b ps'] l'] eqn:Eg.
    apply give_slots_spec in Eg. destruct Eg as [pre s post pre' El Hg Hq Hm Hsub Hf Ho|l' Hno Hsub Hf Ho].
    + split; [intros _|done]. rewrite El, existsb_app. simpl. rewrite Hg, Hq. simpl.
      destruct (is_me (s_p s) off) eqn:Em; [by apply is_me_spec in Em|]. by rewrite orb_true_r.
    + split; [intros E; by apply Hoff in E|].
      intros (s & Hin%list_elem_of_In & [[Hg Hq]%andb_true_iff Hm]%andb_true_iff)%existsb_exists.
      destruct (s_got s) eqn:Eg; [done|]. specialize (Hno s Hin Eg Hq). apply is_me_spec in Hno.
      by rewrite Hno in Hm.
Qed.

(** *** Sealed channels *)
Inductive chop :=
| CSend (cap : option nat) (v : V) (off : option (nat * nat))
| COffer (p arm : nat) (v : V) | CSlot (p arm : nat)
| CRecv (fired : bool) | CClose | CSeal (v : V) | CSealErr (msg : string) | CTake (p : nat) | CWithdraw (p : nat).

Definition chop_step (build : string -> V) (st : list nat * ChanState V) (o : chop) : list nat * ChanState V :=
  let (ps, ch) := st in
  match o with
  | CSend cap v off => let '(_, ps, ch) := send ps cap v off ch in (ps, ch)
  | COffer p arm v => (ps, offer p arm v ch)
  | CSlot p arm => (ps, slot p arm ch)
  | CRecv fired => let '(_, ps, ch) := recv_ready build ps fired ch in (ps, ch)
  | CClose => close ps ch
  | CSeal v => (ps, (seal v ch).2)
  | CSealErr msg => (ps, (seal_err msg ch).2)
  | CTake p => (ps, (take p ch).2)
  | CWithdraw p => (ps, withdraw p ch)
  end.

(** The outcome a sealed channel carries. *)
Definition outcome (build : string -> V) (ch : ChanState V) : option V :=
  match unbuilt ch with Some msg => Some (build msg) | None => list.last (queue ch) end.

Lemma recv_ready_sealed build ps fired ch v :
  sealed ch = true -> outcome build ch = Some v ->
  exists ch', recv_ready build ps fired ch = (RValue v, ps, ch') /\
    sealed ch' = true /\ closed ch' = closed ch /\ outcome build ch' = Some v.
Proof.
  intros Hs Ho. unfold recv_ready, outcome in *. destruct (unbuilt ch) as [msg|] eqn:Eu.
  - injection Ho as <-. unfold build_outcome. rewrite Eu. unfold pop, pop_for. cbn. rewrite Hs.
    rewrite last_snoc. eexists. split; [done|]. cbn. rewrite last_snoc. done.
  - unfold pop, pop_for. rewrite Hs, Ho. eexists. split; [done|]. rewrite Eu. done.
Qed.

Lemma chop_sealed build ps ch v o :
  sealed ch = true -> closed ch = true -> outcome build ch = Some v ->
  let ch' := (chop_step build (ps, ch) o).2 in
  sealed ch' = true /\ closed ch' = true /\ outcome build ch' = Some v.
Proof.
  intros Hs Hc Ho. destruct o; simpl.
  - unfold send. rewrite Hc. done.
  - done.
  - done.
  - destruct (recv_ready_sealed build ps fired ch v Hs Ho) as (ch' & -> & ? & E & ?). simpl. by rewrite E.
  - done.
  - unfold seal. by rewrite Hs.
  - unfold seal_err. by rewrite Hs.
  - unfold take. by destruct (take_slots p (recvq ch)).
  - done.
Qed.

(** A task's outcome is written once and read by all.  After [seal] or [seal_err] on an unsealed
    channel, whatever operations follow (other seals, sends, receives, closes, settlements), every
    receive yields that same outcome and a later seal is refused. *)
Lemma seal_once (build : string -> V) (ps : list nat) ch (res : V + string) (os : list chop) :
  sealed ch = false -> unbuilt ch = None ->
  let ch1 := match res with inl v => (seal v ch).2 | inr msg => (seal_err msg ch).2 end in
  let '(ps', ch') := foldl (chop_step build) (ps, ch1) os in
  (forall fired, (recv_ready build ps' fired ch').1.1 = RValue (match res with inl v => v | inr msg => build msg end)) /\
  (forall v, (seal v ch').1 = false) /\ (forall msg, (seal_err msg ch').1 = false).
Proof.
  intros Hs Hu ch1.
  assert (H1 : sealed ch1 = true /\ closed ch1 = true /\
    outcome build ch1 = Some (match res with inl v => v | inr msg => build msg end)).
  { subst ch1. destruct res; unfold seal, seal_err, outcome; rewrite Hs; (split; [done|]); (split; [done|]);
      cbn [unbuilt queue snd]; rewrite ?Hu, ?last_snoc; done. }
  clearbody ch1. clear Hs Hu ch. revert ps ch1 H1.
  induction os as [|o os IH]; intros ps ch1 (Hs & Hc & Ho); cbn [foldl].
  - split; [|unfold seal, seal_err; rewrite Hs; done]. intros fired.
    by destruct (recv_ready_sealed build ps fired ch1 _ Hs Ho) as (ch' & -> & _).
  - pose proof (chop_sealed build ps ch1 _ o Hs Hc Ho) as H1. cbv zeta in H1.
    destruct (chop_step build (ps, ch1) o) as [ps2 ch2]. apply IH. done.
Qed.
End facts.

(** ** The invariant *)
Section invariant.
  Context {V : Type}.
  Implicit Types (w : World V) (ch : ChanState V) (evs : list (event V)).

(** [e] is an entry of the unsettled party [p]. *)
Definition entry (parties : list Party) (p : nat) (e : nat * nat * bool) : Prop :=
  exists party, parties !! p = Some party /\ live party = true /\ e ∈ at_ party.
Definition is_live (parties : list Party) (p : nat) : Prop :=
  exists party, parties !! p = Some party /\ live party = true.
Definition arms (entries : list (nat * nat * bool)) : list nat := (fun e => e.1.2) <$> entries.
Definition key (s : Slot V) : nat * nat := (s_p s, s_arm s).
Definition offer_key (o : Offer V) : nat * nat := (o_p o, o_arm o).

(** A channel on its own: no two sides wait for each other, and the buffer keeps its bound. *)
Record chan_ok (ps : list nat) (cap : option nat) ch : Prop := {
  c_unsealed : sealed ch = false /\ unbuilt ch = None;
  c_closed : closed ch = true -> sendq ch = [] /\ Forall filled (recvq ch);
  c_recvq : cap <> Some 0 -> recvq ch = [];
  c_cap : match cap with
    | None => forall o, o ∈ sendq ch -> is_queued ps (o_p o) = false
    | Some O => queue ch = [] /\
        forall o s, o ∈ sendq ch -> s ∈ recvq ch -> s_got s = None ->
          is_queued ps (o_p o) = true -> is_queued ps (s_p s) = true -> o_p o = s_p s
    | Some n => length (queue ch) <= n /\
        forall o, o ∈ sendq ch -> is_queued ps (o_p o) = true -> length (queue ch) = n
    end;
}.

(** The entries of a channel belong to unsettled parties. *)
Record chan_in (ps : list nat) (parties : list Party) (c : nat) ch : Prop := {
  i_offer : forall o, o ∈ sendq ch -> entry parties (o_p o) (c, o_arm o, true);
  i_slot : forall s, s ∈ recvq ch -> entry parties (s_p s) (c, s_arm s, false);
  i_filled : forall s, s ∈ recvq ch -> filled s -> ps !! s_p s = Some (PENDING_DONE + s_arm s);
  i_keys : NoDup (key <$> recvq ch);
  i_offers : NoDup (offer_key <$> sendq ch);
}.

(** What went in came out, or is still there. *)
Definition flow (cap : option nat) ch (m r : list V) : Prop :=
  match cap with
  | Some O => m ≡ₚ r ++ in_slots ch
  | _ => m = r ++ queue ch
  end.

Record inv w evs : Prop := {
  w_len : length (parties w) = length (ps w);
  w_arms : forall p party, parties w !! p = Some party -> NoDup (arms (at_ party));
  w_at : forall p arm, ps w !! p = Some (PENDING_DONE + arm) -> is_live (parties w) p ->
    exists c b, entry (parties w) p (c, arm, b);
  w_done : forall p arm c, ps w !! p = Some (PENDING_DONE + arm) -> entry (parties w) p (c, arm, false) ->
    exists cap ch v, chans w !! c = Some (cap, ch) /\ mkSlot p arm (Some v) ∈ recvq ch;
  w_chan : forall c cap ch, chans w !! c = Some (cap, ch) ->
    chan_ok (ps w) cap ch /\ chan_in (ps w) (parties w) c ch /\ flow cap ch (moved c evs) (received c evs);
  w_none : forall c, chans w !! c = None -> moved c evs = [] /\ received c evs = [];
}.

Lemma entry_unique pl p c c' arm b b' :
  (forall q party, pl !! q = Some party -> NoDup (arms (at_ party))) ->
  entry pl p (c, arm, b) -> entry pl p (c', arm, b') -> c = c' /\ b = b'.
Proof.
  intros Hn (x & Hx & _ & [i Hi]%list_elem_of_lookup) (y & Hy & _ & [j Hj]%list_elem_of_lookup).
  assert (y = x) as -> by congruence. specialize (Hn p x Hx). unfold arms in Hn.
  assert (i = j) as ->.
  { eapply list.NoDup_lookup; [done| |]; rewrite list_lookup_fmap, ?Hi, ?Hj; done. }
  rewrite Hi in Hj. by injection Hj as -> ->.
Qed.

Lemma entry_lt w evs p e : inv w evs -> entry (parties w) p e -> p < length (ps w).
Proof. intros I (x & Hx%lookup_lt_Some & _). rewrite <- (w_len _ _ I). done. Qed.

Lemma chan_ok_mono ps ps' cap ch :
  keeps ps ps' ->
  (forall o, o ∈ sendq ch -> o_p o < length ps) -> (forall s, s ∈ recvq ch -> s_p s < length ps) ->
  chan_ok ps cap ch -> chan_ok ps' cap ch.
Proof.
  intros Hk Ho Hs [Hu Hc Hr Hcap]. constructor; [done..|].
  assert (Hqo : forall o, o ∈ sendq ch -> is_queued ps' (o_p o) = true -> is_queued ps (o_p o) = true)
    by (intros o Hin; by apply keeps_queued; [|apply Ho]).
  destruct cap as [[|n]|].
  - destruct Hcap as [Hq Hx]. split; [done|]. intros o s Ho1 Hs1 Hg Hl Hl'.
    apply Hx; [done|done|done|by apply Hqo|]. by eapply keeps_queued; [|by apply Hs|].
  - destruct Hcap as [Hq Hx]. split; [done|]. intros o Ho1 Hl. apply (Hx o Ho1). by apply Hqo.
  - intros o Ho1. destruct (is_queued ps' (o_p o)) eqn:E; [|done]. apply Hqo in E; [|done].
    by rewrite (Hcap o Ho1) in E.
Qed.

Lemma chan_in_mono ps ps' pl pl' c ch :
  keeps ps ps' -> (forall p e, entry pl p e -> entry pl' p e) ->
  chan_in ps pl c ch -> chan_in ps' pl' c ch.
Proof.
  intros [_ Hk] He [Ho Hs Hf Hn Hno2]. constructor; [by intros; apply He, Ho|by intros; apply He, Hs| |done|done].
  intros s Hin Hfl. by apply Hk; [apply Hf|].
Qed.

Lemma moved_app c (e e' : list (event V)) : moved c (e ++ e') = moved c e ++ moved c e'.
Proof. apply omap_app. Qed.
Lemma received_app c (e e' : list (event V)) : received c (e ++ e') = received c e ++ received c e'.
Proof. apply omap_app. Qed.

(** One channel changes, with what that asks of the parties. *)
Lemma update_inv w evs c cap ch ps' pl' ch' evs' :
  inv w evs -> chans w !! c = Some (cap, ch) ->
  keeps (ps w) ps' -> length pl' = length ps' ->
  (forall p party, pl' !! p = Some party -> NoDup (arms (at_ party))) ->
  (forall p e, entry (parties w) p e -> entry pl' p e) ->
  (forall p c' arm b, entry pl' p (c', arm, b) ->
     entry (parties w) p (c', arm, b) \/ ps' !! p <> Some (PENDING_DONE + arm)) ->
  (forall p, is_live pl' p -> is_live (parties w) p \/ ps' !! p = Some PENDING_QUEUED) ->
  (forall p arm, ps' !! p = Some (PENDING_DONE + arm) -> ps w !! p = Some (PENDING_DONE + arm) \/
     exists b, entry pl' p (c, arm, b) /\ (b = false -> exists v, mkSlot p arm (Some v) ∈ recvq ch')) ->
  (forall s, s ∈ recvq ch -> filled s -> s ∈ recvq ch') ->
  chan_ok ps' cap ch' -> chan_in ps' pl' c ch' ->
  (forall c', c' <> c -> moved c' evs' = [] /\ received c' evs' = []) ->
  flow cap ch' (moved c (evs ++ evs')) (received c (evs ++ evs')) ->
  inv (mkWorld ps' pl' (<[c := (cap, ch')]> (chans w))) (evs ++ evs').
Proof.
  intros I Hc Hk Hlen Harms Hent Hold Hlive Hcommit Hfill Hok Hin Hevs Hflow.
  pose proof (lookup_lt_Some _ _ _ Hc) as Hlt.
  constructor; cbn [ps parties chans].
  - done.
  - done.
  - intros p arm Hp Hl. destruct (Hcommit p arm Hp) as [Hp0|(b & He & _)]; [|by eauto].
    destruct (Hlive p Hl) as [Hl0|Hq]; [|rewrite Hq in Hp; discriminate].
    destruct (w_at _ _ I p arm Hp0 Hl0) as (c' & b & He). exists c', b. by apply Hent.
  - intros p arm c' Hp He. destruct (Hcommit p arm Hp) as [Hp0|(b & He' & Hs)].
    + destruct (Hold _ _ _ _ He) as [He0|]; [|done].
      destruct (w_done _ _ I p arm c' Hp0 He0) as (cap' & ch0 & v & Hch & Hs).
      destruct (decide (c' = c)) as [->|Hne].
      * rewrite Hc in Hch. injection Hch as <- <-. exists cap, ch', v.
        rewrite list_lookup_insert_eq by done. split; [done|]. apply Hfill; [done|]. by eexists.
      * exists cap', ch0, v. by rewrite list_lookup_insert_ne by done.
    + destruct (entry_unique _ _ _ _ _ _ _ Harms He He') as [-> <-].
      destruct (Hs eq_refl) as [v Hv]. exists cap, ch', v. by rewrite list_lookup_insert_eq by done.
  - intros c' cap' ch0 Hch. destruct (decide (c' = c)) as [->|Hne].
    + rewrite list_lookup_insert_eq in Hch by done. by injection Hch as <- <-.
    + rewrite list_lookup_insert_ne in Hch by done. destruct (w_chan _ _ I c' cap' ch0 Hch) as (H1 & H2 & H3).
      destruct (Hevs c' Hne) as [Em Er]. rewrite moved_app, received_app, Em, Er, !app_nil_r.
      split; [|split; [by eapply chan_in_mono|done]].
      eapply chan_ok_mono; [done| | |done].
      * intros o Ho. eapply entry_lt; [done|]. by apply (i_offer _ _ _ _ H2).
      * intros s Hs. eapply entry_lt; [done|]. by apply (i_slot _ _ _ _ H2).
  - intros c' Hch. assert (c' <> c) by (intros ->; by rewrite list_lookup_insert_eq in Hch).
    rewrite list_lookup_insert_ne in Hch by done. destruct (w_none _ _ I c' Hch) as [E1 E2].
    destruct (Hevs c') as [Em Er]; [done|]. by rewrite moved_app, received_app, Em, Er, E1, E2.
Qed.

(** The parties stay. *)
Lemma update_same w evs c cap ch ps' ch' evs' :
  inv w evs -> chans w !! c = Some (cap, ch) ->
  keeps (ps w) ps' -> length ps' = length (ps w) ->
  (forall p arm, ps' !! p = Some (PENDING_DONE + arm) -> ps w !! p = Some (PENDING_DONE + arm) \/
     exists b, entry (parties w) p (c, arm, b) /\ (b = false -> exists v, mkSlot p arm (Some v) ∈ recvq ch')) ->
  (forall s, s ∈ recvq ch -> filled s -> s ∈ recvq ch') ->
  chan_ok ps' cap ch' -> chan_in ps' (parties w) c ch' ->
  (forall c', c' <> c -> moved c' evs' = [] /\ received c' evs' = []) ->
  flow cap ch' (moved c (evs ++ evs')) (received c (evs ++ evs')) ->
  inv (set_chan w ps' c cap ch') (evs ++ evs').
Proof.
  intros I Hc Hk Hl Hcom Hf Hok Hin Hev Hflow.
  eapply update_inv; try done; [|apply (w_arms _ _ I)|by left|by left].
  by rewrite (w_len _ _ I), Hl.
Qed.

(** A new party, or a new entry of an unsettled one. *)
Lemma entry_snoc pl party p e : entry pl p e -> entry (pl ++ [party]) p e.
Proof. intros (x & Hx & Hl & He). exists x. split; [by apply lookup_app_l_Some|done]. Qed.

Lemma entry_snoc_inv pl entries p e :
  entry (pl ++ [mkParty entries true]) p e -> entry pl p e \/ (p = length pl /\ e ∈ entries).
Proof.
  intros (x & Hx & Hl & He). apply lookup_app_Some in Hx as [Hx|[Hle Hx]]; [left; by exists x|right].
  destruct (p - length pl) eqn:E; [|done]. simpl in Hx. injection Hx as <-. split; [lia|done].
Qed.

Lemma parties_inv w evs pl' ps' :
  inv w evs -> keeps (ps w) ps' -> length pl' = length ps' ->
  (forall p party, pl' !! p = Some party -> NoDup (arms (at_ party))) ->
  (forall p e, entry (parties w) p e -> entry pl' p e) ->
  (forall p c' arm b, entry pl' p (c', arm, b) ->
     entry (parties w) p (c', arm, b) \/ ps' !! p <> Some (PENDING_DONE + arm)) ->
  (forall p, is_live pl' p -> is_live (parties w) p \/ ps' !! p = Some PENDING_QUEUED) ->
  (forall p arm, ps' !! p = Some (PENDING_DONE + arm) -> ps w !! p = Some (PENDING_DONE + arm)) ->
  inv (mkWorld ps' pl' (chans w)) evs.
Proof.
  intros I Hk Hlen Harms Hent Hold Hlive Hdone. constructor; cbn [ps parties chans]; [done|done| | | |apply (w_none _ _ I)].
  - intros p arm Hp Hl. destruct (Hlive p Hl) as [Hl0|Hq]; [|rewrite Hq in Hp; discriminate].
    destruct (w_at _ _ I p arm (Hdone _ _ Hp) Hl0) as (c' & b & He). exists c', b. by apply Hent.
  - intros p arm c' Hp He. destruct (Hold _ _ _ _ He) as [He0|]; [|done].
    apply (w_done _ _ I p arm c' (Hdone _ _ Hp) He0).
  - intros c cap ch Hc. destruct (w_chan _ _ I c cap ch Hc) as (H1 & H2 & H3).
    split; [|split; [by eapply chan_in_mono|done]]. eapply chan_ok_mono; [done| | |done].
    + intros o Ho. eapply entry_lt; [done|]. by apply (i_offer _ _ _ _ H2).
    + intros s Hs. eapply entry_lt; [done|]. by apply (i_slot _ _ _ _ H2).
Qed.

Lemma add_party_inv w evs entries :
  inv w evs -> NoDup (arms entries) -> inv (add_party PENDING_QUEUED entries w) evs.
Proof.
  intros I Hn. pose proof (w_len _ _ I) as Hl.
  assert (Hnew : (ps w ++ [PENDING_QUEUED]) !! length (ps w) = Some PENDING_QUEUED)
    by (by rewrite lookup_app_r, Nat.sub_diag by lia).
  apply parties_inv; [done|apply keeps_app|rewrite !length_app; simpl; lia| | | | |].
  - intros p party [Hp|[Hle Hp]]%lookup_app_Some; [by eapply (w_arms _ _ I)|].
    destruct (p - length (parties w)); [|done]. by injection Hp as <-.
  - intros p e. apply entry_snoc.
  - intros p c' arm b [He|[-> _]]%entry_snoc_inv; [by left|right]. rewrite Hl, Hnew. discriminate.
  - intros p (x & Hx & Hlv). apply lookup_app_Some in Hx as [Hx|[Hle Hx]]; [left; by exists x|right].
    destruct (p - length (parties w)) eqn:E; [|done]. by replace p with (length (ps w)) by lia.
  - intros p arm [Hp|[Hle Hp]]%lookup_app_Some; [done|]. by destruct (p - length (ps w)).
Qed.

Lemma may_publish_spec w p arm entries :
  may_publish w p arm = Some entries ->
  parties w !! p = Some (mkParty entries true) /\ arm ∉ arms entries.
Proof.
  unfold may_publish. destruct (parties w !! p) as [[at0 lv]|] eqn:E; [|done]. simpl. destruct lv; [|done].
  destruct (existsb _ at0) eqn:Ex; [done|]. simpl. intros [= <-]. split; [done|].
  intros (e & -> & He)%list_elem_of_fmap. rewrite <- not_true_iff_false in Ex. apply Ex, existsb_exists.
  exists e. split; [by apply list_elem_of_In|]. apply Nat.eqb_refl.
Qed.

Lemma publish_inv w evs p arm entries c b :
  inv w evs -> may_publish w p arm = Some entries ->
  inv (mkWorld (ps w) (<[p := mkParty (entries ++ [(c, arm, b)]) true]> (parties w)) (chans w)) evs.
Proof.
  intros I [Hp Hfresh]%may_publish_spec. pose proof (lookup_lt_Some _ _ _ Hp) as Hlt.
  assert (Hent : forall q e, entry (parties w) q e ->
    entry (<[p := mkParty (entries ++ [(c, arm, b)]) true]> (parties w)) q e).
  { intros q e (x & Hx & Hl & He). destruct (decide (q = p)) as [->|].
    - rewrite Hp in Hx. injection Hx as <-. eexists. rewrite list_lookup_insert_eq by done.
      split; [done|]. split; [done|]. simpl. apply elem_of_app. by left.
    - exists x. by rewrite list_lookup_insert_ne by done. }
  apply parties_inv; [done|apply keeps_refl|rewrite length_insert; apply (w_len _ _ I)| |done| | |done].
  - intros q x Hx. destruct (decide (q = p)) as [->|].
    + rewrite list_lookup_insert_eq in Hx by done. injection Hx as <-. simpl. unfold arms. rewrite fmap_app.
      apply list.NoDup_app. split; [by apply (w_arms _ _ I p _ Hp)|]. split; [|apply NoDup_singleton].
      intros y Hy ->%list_elem_of_singleton. by apply Hfresh.
    + rewrite list_lookup_insert_ne in Hx by done. by apply (w_arms _ _ I q).
  - intros q c' a b' (x & Hx & Hl & He). destruct (decide (q = p)) as [->|].
    + rewrite list_lookup_insert_eq in Hx by done. injection Hx as <-. simpl in He.
      apply elem_of_app in He as [He|[= -> -> ->]%list_elem_of_singleton]; [left; by eexists|right].
      intros Hd. destruct (w_at _ _ I p arm Hd) as (c1 & b1 & x & Hx & _ & Hin); [by eexists|].
      rewrite Hp in Hx. injection Hx as <-. apply Hfresh, list_elem_of_fmap. by exists (c1, arm, b1).
    + rewrite list_lookup_insert_ne in Hx by done. left. by exists x.
  - intros q (x & Hx & Hl). left. destruct (decide (q = p)) as [->|]; [by eexists|].
    rewrite list_lookup_insert_ne in Hx by done. by exists x.
Qed.

(** *** Fewer entries *)
Definition shrinks ch ch' : Prop :=
  queue ch' = queue ch /\ closed ch' = closed ch /\ sealed ch' = sealed ch /\ unbuilt ch' = unbuilt ch /\
  sendq ch' `sublist_of` sendq ch /\ recvq ch' `sublist_of` recvq ch.

Lemma shrink_ok ps cap ch ch' : shrinks ch ch' -> chan_ok ps cap ch -> chan_ok ps cap ch'.
Proof.
  intros (Eq & Ec & Es & Eu & Hs & Hr) [Hu Hc Hrq Hcap]. constructor.
  - by rewrite Es, Eu.
  - rewrite Ec. intros [E1 E2]%Hc. rewrite E1 in Hs. split; [by apply sublist_nil_r|].
    rewrite list.Forall_forall in *. intros s Hin. apply E2. by eapply elem_of_sublist.
  - intros E%Hrq. rewrite E in Hr. by apply sublist_nil_r.
  - destruct cap as [[|n]|]; rewrite ?Eq.
    + destruct Hcap as [Hq Hx]. split; [done|]. intros o s Ho1 Hs1. apply Hx; by eapply elem_of_sublist.
    + destruct Hcap as [Hq Hx]. split; [done|]. intros o Ho1. apply Hx. by eapply elem_of_sublist.
    + intros o Ho1. apply Hcap. by eapply elem_of_sublist.
Qed.

Lemma shrink_in ps pl c ch ch' : shrinks ch ch' -> chan_in ps pl c ch -> chan_in ps pl c ch'.
Proof.
  intros (_ & _ & _ & _ & Hs & Hr) [Ho Hsl Hf Hn Hno2]. constructor.
  - intros o Hin. apply Ho. by eapply elem_of_sublist.
  - intros s Hin. apply Hsl. by eapply elem_of_sublist.
  - intros s Hin. apply Hf. by eapply elem_of_sublist.
  - eapply sublist_NoDup; [exact Hn|]. by apply fmap_sublist.
  - eapply sublist_NoDup; [exact Hno2|]. by apply fmap_sublist.
Qed.

Lemma shrink_inv w evs c cap ch ch' :
  inv w evs -> chans w !! c = Some (cap, ch) -> shrinks ch ch' ->
  (forall s, s ∈ recvq ch -> filled s -> s ∈ recvq ch') -> in_slots ch' = in_slots ch ->
  inv (set_chan w (ps w) c cap ch') evs.
Proof.
  intros I Hc Hsh Hf Hsl. destruct (w_chan _ _ I c cap ch Hc) as (H1 & H2 & H3).
  rewrite <- (app_nil_r evs). eapply update_same; [done|done|apply keeps_refl|done|by left|done| | |done|].
  - by eapply shrink_ok.
  - by eapply shrink_in.
  - rewrite app_nil_r. destruct Hsh as [Eq _]. unfold flow. rewrite Hsl, Eq. done.
Qed.

(** *** Publishing *)
Definition send_blocked (ps : list nat) (cap : option nat) (p : nat) ch : Prop :=
  match cap with
  | None => False
  | Some O => forall s, s ∈ recvq ch -> s_got s = None -> is_queued ps (s_p s) = true -> s_p s = p
  | Some n => n <= length (queue ch)
  end.

Lemma offer_inv w evs c cap ch p arm v :
  inv w evs -> chans w !! c = Some (cap, ch) -> closed ch = false ->
  entry (parties w) p (c, arm, true) -> send_blocked (ps w) cap p ch ->
  (forall o, o ∈ sendq ch -> offer_key o <> (p, arm)) ->
  inv (set_chan w (ps w) c cap (offer p arm v ch)) evs.
Proof.
  intros I Hc Hcl He Hb Hfr. destruct (w_chan _ _ I c cap ch Hc) as ([Hu Hcd Hr Hcap] & [Ho Hs Hf Hn Hno2] & H3).
  rewrite <- (app_nil_r evs). eapply update_same; [done|done|apply keeps_refl|done|by left|done| | |done|].
  - constructor; simpl; [done|by rewrite Hcl|done|]. destruct cap as [[|n]|]; [| |done].
    + destruct Hcap as [Hq Hx]. split; [done|]. intros o s [Ho1| ->%list_elem_of_singleton]%elem_of_app Hs1 Hg Hl Hl'.
      * by apply Hx.
      * simpl. symmetry. by apply Hb.
    + destruct Hcap as [Hq Hx]. split; [done|]. intros o _ _. simpl in Hb. lia.
  - constructor; simpl; [|done..|].
    + intros o [Ho1| ->%list_elem_of_singleton]%elem_of_app; [by apply Ho|done].
    + rewrite fmap_app. apply list.NoDup_app. split; [done|]. split; [|apply NoDup_singleton].
      intros k (o & -> & Hin)%list_elem_of_fmap E%list_elem_of_singleton. by apply (Hfr o Hin).
  - rewrite app_nil_r. done.
Qed.

Lemma slot_inv w evs c ch p arm :
  inv w evs -> chans w !! c = Some (Some 0, ch) -> closed ch = false ->
  entry (parties w) p (c, arm, false) -> (forall s, s ∈ recvq ch -> key s <> (p, arm)) ->
  (forall o, o ∈ sendq ch -> is_queued (ps w) (o_p o) = true -> o_p o = p) ->
  inv (set_chan w (ps w) c (Some 0) (slot p arm ch)) evs.
Proof.
  intros I Hc Hcl He Hk Hb. destruct (w_chan _ _ I c _ ch Hc) as ([Hu Hcd Hr Hcap] & [Ho Hs Hf Hn Hno2] & H3).
  rewrite <- (app_nil_r evs). eapply update_same; [done|done|apply keeps_refl|done|by left| | | |done|].
  - intros s Hin _. simpl. apply elem_of_app. by left.
  - constructor; simpl; [done|by rewrite Hcl|done|].
    destruct Hcap as [Hq Hx]. split; [done|]. intros o s Ho1 [Hs1| ->%list_elem_of_singleton]%elem_of_app Hg Hl Hl'.
    + by apply Hx.
    + by apply Hb.
  - constructor; simpl; [done| | | |done].
    + intros s [Hs1| ->%list_elem_of_singleton]%elem_of_app; [by apply Hs|done].
    + intros s [Hs1| ->%list_elem_of_singleton]%elem_of_app Hfl; [by apply Hf|]. by destruct Hfl.
    + rewrite fmap_app. apply list.NoDup_app. split; [done|]. split; [|apply NoDup_singleton].
      intros k (s & -> & Hin)%list_elem_of_fmap E%list_elem_of_singleton. by apply (Hk s Hin).
  - rewrite app_nil_r. unfold flow, in_slots in *. simpl. rewrite omap_app, app_nil_r. done.
Qed.

(** *** Sending *)
Lemma commit_cases (l : list nat) p to q x :
  <[p := to]> l !! q = Some x -> l !! q = Some x \/ (q = p /\ x = to).
Proof.
  intros E. destruct (decide (q = p)) as [->|]; [|rewrite list_lookup_insert_ne in E by done; by left].
  apply list_lookup_insert_Some in E as [(_ & <- & _)|[? ?]]; [by right|done].
Qed.

Lemma chan_push_inv w evs c cap ch v :
  inv w evs -> chans w !! c = Some (cap, ch) -> closed ch = false ->
  match cap with None => True | Some n => length (queue ch) < n end ->
  inv (set_chan w (ps w) c cap (push v ch)) (evs ++ [Moved c v]).
Proof.
  intros I Hc Hcl Hroom. destruct (w_chan _ _ I c cap ch Hc) as ([Hu Hcd Hr Hcap] & [Ho Hs Hf Hn Hno2] & H3).
  eapply update_same; [done|done|apply keeps_refl|done|by left|done| |done| |].
  - constructor; simpl; [done|by rewrite Hcl|done|]. destruct cap as [[|n]|]; [lia| |done].
    destruct Hcap as [Hq Hx]. rewrite length_app. simpl. split; [lia|]. intros o Ho1 Hl.
    specialize (Hx o Ho1 Hl). lia.
  - intros c' Hne. unfold moved, received. simpl. destruct (Nat.eqb_spec c c'); [congruence|done].
  - rewrite moved_app, received_app. unfold moved at 2, received at 2. simpl. rewrite Nat.eqb_refl.
    rewrite app_nil_r. destruct cap as [[|n]|]; [lia| |]; simpl in *; rewrite H3; by rewrite (assoc_L (++)).
Qed.

Lemma gave_inv w evs c ch v me pre s post pre' :
  inv w evs -> chans w !! c = Some (Some 0, ch) -> closed ch = false ->
  recvq ch = pre ++ s :: post -> s_got s = None -> is_queued (ps w) (s_p s) = true -> me <> Some (s_p s) ->
  pre' `sublist_of` pre -> (forall x, x ∈ pre -> filled x -> x ∈ pre') -> omap s_got pre' = omap s_got pre ->
  inv (set_chan w (<[s_p s := PENDING_DONE + s_arm s]> (ps w)) c (Some 0)
        (set_recvq (pre' ++ mkSlot (s_p s) (s_arm s) (Some v) :: post) ch)) (evs ++ [Moved c v]).
Proof.
  intros I Hc Hcl El Hg Hq Hm Hsub Hfil Hom.
  destruct (w_chan _ _ I c _ ch Hc) as ([Hu Hcd Hr Hcap] & [Ho Hs Hf Hn Hno2] & H3).
  pose proof (keeps_insert (ps w) (s_p s) (PENDING_DONE + s_arm s) Hq) as Hk.
  assert (Hlt : s_p s < length (ps w)) by (apply is_queued_spec in Hq; by apply lookup_lt_Some in Hq).
  assert (Hsub' : pre' ++ s :: post `sublist_of` recvq ch).
  { rewrite El. by apply sublist_app. }
  assert (Hin : forall x, x ∈ pre' ++ mkSlot (s_p s) (s_arm s) (Some v) :: post ->
    x = mkSlot (s_p s) (s_arm s) (Some v) \/ x ∈ recvq ch).
  { intros x Hx. rewrite elem_of_app, elem_of_cons in Hx. rewrite El, elem_of_app, elem_of_cons.
    destruct Hx as [Hx|[->|Hx]]; [right; left; by eapply elem_of_sublist|by left|by auto]. }
  eapply update_same; [done|done|done|by rewrite length_insert| | | | | |].
  - intros p arm [Hp|[-> E]]%commit_cases; [by left|right]. assert (arm = s_arm s) as -> by lia.
    exists false. split; [apply Hs; rewrite El; apply elem_of_app; right; by left|]. intros _. exists v.
    simpl. apply elem_of_app. right. by left.
  - intros x Hx Hfx. rewrite El, elem_of_app, elem_of_cons in Hx. simpl. rewrite elem_of_app, elem_of_cons.
    destruct Hx as [Hx|[->|Hx]]; [left; by apply Hfil| |by auto]. unfold filled in Hfx. rewrite Hg in Hfx.
    by destruct Hfx.
  - constructor; simpl; [done|by rewrite Hcl|done|]. destruct Hcap as [Hqe Hx]. split; [done|].
    intros o x Ho1 [->|Hx1]%Hin Hgx Hl Hl'; [done|]. apply Hx; [done|done|done| |].
    + eapply keeps_queued; [done| |done]. eapply entry_lt; [done|by apply Ho].
    + eapply keeps_queued; [done| |done]. eapply entry_lt; [done|by apply Hs].
  - constructor; simpl; [done| | | |done].
    + intros x [->|Hx]%Hin; [|by apply Hs]. apply (Hs s). rewrite El. apply elem_of_app. right. by left.
    + intros x [->|Hx]%Hin Hfx; simpl; [by rewrite list_lookup_insert_eq|]. destruct Hk as [_ Hk].
      by apply Hk; [apply Hf|].
    + eapply sublist_NoDup; [exact Hn|]. apply (fmap_sublist key) in Hsub'. rewrite fmap_app in *. done.
  - intros c' Hne. unfold moved, received. simpl. destruct (Nat.eqb_spec c c'); [congruence|done].
  - rewrite moved_app, received_app. unfold moved at 2, received at 2. simpl. rewrite Nat.eqb_refl.
    rewrite app_nil_r. simpl in H3. unfold in_slots in *. rewrite El in H3. simpl.
    rewrite omap_app in *. rewrite got_cons in *. rewrite Hg in H3. simpl. rewrite H3, Hom. solve_Permutation.
Qed.

Lemma set_chan_id w c cap ch : chans w !! c = Some (cap, ch) -> set_chan w (ps w) c cap ch = w.
Proof. intros E. unfold set_chan. rewrite list_insert_id by done. by destruct w. Qed.

Lemma set_chan_twice w ps1 ps2 c cap ch1 ch2 :
  set_chan (set_chan w ps1 c cap ch1) ps2 c cap ch2 = set_chan w ps2 c cap ch2.
Proof. unfold set_chan. cbn. by rewrite list_insert_insert_eq. Qed.

Lemma send_offer_inv w evs c cap ch v off out ps' ch' :
  inv w evs -> chans w !! c = Some (cap, ch) -> closed ch = false ->
  send_offer (ps w) v off ch = (out, ps', ch') ->
  (forall p arm, off = Some (p, arm) -> out = Offered -> entry (parties w) p (c, arm, true)) ->
  (forall p, fst <$> off = Some p -> send_blocked (ps w) cap p ch) ->
  (forall k o, off = Some k -> o ∈ sendq ch -> offer_key o <> k) ->
  out <> Sent /\ inv (set_chan w ps' c cap ch') evs.
Proof.
  intros I Hc Hcl Hs He Hb Hfr. destruct off as [[p arm]|]; simpl in Hs; injection Hs as <- <- <-.
  - split; [done|]. apply offer_inv; [done|done|done|by apply He|by apply Hb|intros o Ho; by apply Hfr].
  - split; [done|]. by rewrite set_chan_id.
Qed.

Lemma send_inv w evs c cap ch v off out ps' ch' :
  inv w evs -> chans w !! c = Some (cap, ch) -> send (ps w) cap v off ch = (out, ps', ch') ->
  (forall p arm, off = Some (p, arm) -> out = Offered -> entry (parties w) p (c, arm, true)) ->
  (forall k o, off = Some k -> o ∈ sendq ch -> offer_key o <> k) ->
  inv (set_chan w ps' c cap ch') (evs ++ match out with Sent => [Moved c v] | _ => [] end).
Proof.
  intros I Hc Hs He Hfr. pose proof (lookup_lt_Some _ _ _ Hc) as Hlt. unfold send in Hs.
  assert (Hno : forall o, o <> Sent -> forall w1, inv w1 evs ->
    inv w1 (evs ++ match o with Sent => [Moved c v] | _ => [] end)).
  { intros [] ?; [done|intros; by rewrite app_nil_r..]. }
  destruct (closed ch) eqn:Hcl.
  - injection Hs as <- <- <-. rewrite app_nil_r. by rewrite set_chan_id.
  - destruct cap as [[|n]|].
    + unfold give in Hs. destruct (give_slots (ps w) v (fst <$> off) (recvq ch)) as [[b ps1] l1] eqn:Eg.
      apply give_slots_spec in Eg. destruct Eg as [pre s post pre' El Hg Hq Hm Hsub Hf Ho|l' Hno' Hsub Hf Ho].
      * injection Hs as <- <- <-. by eapply gave_inv.
      * assert (Hch : shrinks ch (set_recvq l' ch)) by (by repeat split).
        pose proof (shrink_inv w evs c _ ch (set_recvq l' ch) I Hc Hch Hf Ho) as I1.
        assert (Hc1 : chans (set_chan w (ps w) c (Some 0) (set_recvq l' ch)) !! c = Some (Some 0, set_recvq l' ch))
          by (simpl; by rewrite list_lookup_insert_eq).
        destruct (send_offer_inv _ evs c (Some 0) (set_recvq l' ch) v off out ps' ch' I1 Hc1 Hcl Hs He) as [Hne I2].
        { intros p Hp s Hs1 Hg Hq. simpl in Hs1. eapply elem_of_sublist in Hs1; [|done].
          specialize (Hno' s Hs1 Hg Hq). congruence. }
        { done. }
        rewrite set_chan_twice in I2. by apply Hno.
    + destruct (Nat.ltb_spec (length (queue ch)) (S n)).
      * injection Hs as <- <- <-. by apply chan_push_inv.
      * destruct (send_offer_inv w evs c _ ch v off out ps' ch' I Hc Hcl Hs He) as [Hne I2]; [done|done|].
        by apply Hno.
    + injection Hs as <- <- <-. by apply chan_push_inv.
Qed.

(** *** Receiving *)
Lemma committed_quiet (ps ps' : list nat) ch :
  (forall o, o ∈ sendq ch -> is_queued ps (o_p o) = true -> ps' !! o_p o <> Some (PENDING_DONE + o_arm o)) ->
  committed_in ps ps' ch = [].
Proof.
  unfold committed_in. induction (sendq ch) as [|o l IH]; intros Hq; [done|]. simpl.
  destruct (is_queued ps (o_p o)) eqn:E; simpl; [rewrite bool_decide_eq_false_2 by (apply Hq; [by left|done])|];
    (apply IH; intros x Hx; apply Hq; by right).
Qed.

Lemma queued_not_done (ps : list nat) p arm : is_queued ps p = true -> ps !! p <> Some (PENDING_DONE + arm).
Proof. intros ->%is_queued_spec. done. Qed.

Lemma committed_one (ps : list nat) ch pre o post :
  NoDup (offer_key <$> sendq ch) -> sendq ch = pre ++ o :: post -> is_queued ps (o_p o) = true ->
  committed_in ps (<[o_p o := PENDING_DONE + o_arm o]> ps) ch = [o_v o].
Proof.
  intros Hn El Hq. set (ps' := <[_ := _]> ps).
  assert (Hoff : forall l, (forall x, x ∈ l -> offer_key x <> offer_key o) ->
    committed_in ps ps' (set_sendq l ch) = []).
  { intros l Hl. apply committed_quiet. intros x Hx Hqx [E|[E1 E2]]%commit_cases; [by eapply queued_not_done|].
    apply (Hl x Hx). unfold offer_key. f_equal; [done|lia]. }
  rewrite El, fmap_app, fmap_cons in Hn. apply list.NoDup_app in Hn as (_ & Hd1 & [Hd2 _]%list.NoDup_cons).
  unfold committed_in in *. cbn [sendq set_sendq] in Hoff. rewrite El, omap_app. cbn [omap list_omap].
  assert (Hself : ps' !! o_p o = Some (PENDING_DONE + o_arm o))
    by (apply list_lookup_insert_eq; apply is_queued_spec in Hq; by eapply lookup_lt_Some).
  rewrite Hq, (bool_decide_eq_true_2 _ Hself). cbn [andb]. rewrite Hoff, (Hoff post); [done|..].
  - intros x Hx E. apply Hd2. rewrite <- E. by apply list_elem_of_fmap_2.
  - intros x Hx E. apply (Hd1 (offer_key x)); [by apply list_elem_of_fmap_2|]. rewrite E. by left.
Qed.

Lemma offer_commit_inv w evs c cap ch pre o post pre' ch' evs' :
  inv w evs -> chans w !! c = Some (cap, ch) ->
  sendq ch = pre ++ o :: post -> is_queued (ps w) (o_p o) = true -> pre' `sublist_of` pre ->
  ch' = set_queue (queue ch') (set_sendq (pre' ++ post) ch) ->
  chan_ok (<[o_p o := PENDING_DONE + o_arm o]> (ps w)) cap ch' ->
  (forall c', c' <> c -> moved c' evs' = [] /\ received c' evs' = []) ->
  flow cap ch' (moved c (evs ++ evs')) (received c (evs ++ evs')) ->
  inv (set_chan w (<[o_p o := PENDING_DONE + o_arm o]> (ps w)) c cap ch') (evs ++ evs').
Proof.
  intros I Hc El Hq Hsub Hch Hok Hev Hflow. destruct (w_chan _ _ I c _ ch Hc) as (_ & [Ho Hs Hf Hn Hno2] & _).
  pose proof (keeps_insert (ps w) (o_p o) (PENDING_DONE + o_arm o) Hq) as Hk.
  eapply update_same; [done|done|done|by rewrite length_insert| | |done| |done|done].
  - intros p arm [Hp|[-> E]]%commit_cases; [by left|right]. assert (arm = o_arm o) as -> by lia.
    exists true. split; [|done]. apply Ho. rewrite El. apply elem_of_app. right. by left.
  - intros s Hin _. rewrite Hch. done.
  - rewrite Hch. constructor; simpl; [|done| |done|].
    3: { eapply sublist_NoDup; [exact Hno2|]. apply fmap_sublist. rewrite El. apply sublist_app; [done|by apply sublist_cons]. }
    + intros x Hx. apply Ho. rewrite El, elem_of_app, elem_of_cons. apply elem_of_app in Hx as [Hx|Hx]; [|by auto].
      left. by eapply elem_of_sublist.
    + intros s Hin Hfl. destruct Hk as [_ Hk]. by apply Hk; [apply Hf|].
Qed.

Lemma event_other (c c' : nat) (vs : list V) (r : option V) : c' <> c ->
  let evs' := (Moved c <$> vs) ++ match r with Some v => [Received c v] | None => [] end in
  moved c' evs' = [] /\ received c' evs' = [].
Proof.
  intros Hne evs'. subst evs'. rewrite moved_app, received_app. unfold moved, received.
  assert (H1 : omap (fun e => match e with Moved c0 v => if c0 =? c' then Some v else None | _ => None end)
    (Moved c <$> vs) = []).
  { induction vs as [|v vs IH]; simpl; [done|]. destruct (Nat.eqb_spec c c'); [congruence|done]. }
  assert (H2 : omap (fun e => match e with Received c0 v => if c0 =? c' then Some v else None | _ => None end)
    (Moved c <$> vs) = []) by (clear; by induction vs).
  rewrite H1, H2. destruct r; simpl; [|done]. destruct (Nat.eqb_spec c c'); [congruence|done].
Qed.

Lemma event_self (c : nat) (vs : list V) (r : option V) :
  let evs' := (Moved c <$> vs) ++ match r with Some v => [Received c v] | None => [] end in
  moved c evs' = vs /\ received c evs' = match r with Some v => [v] | None => [] end.
Proof.
  intros evs'. subst evs'. rewrite moved_app, received_app. unfold moved, received.
  assert (H1 : omap (fun e => match e with Moved c0 v => if c0 =? c then Some v else None | _ => None end)
    (Moved c <$> vs) = vs).
  { induction vs as [|v vs IH]; simpl; [done|]. rewrite Nat.eqb_refl. by f_equal. }
  assert (H2 : omap (fun e => match e with Received c0 v => if c0 =? c then Some v else None | _ => None end)
    (Moved c <$> vs) = []) by (clear; by induction vs).
  rewrite H1, H2. destruct r; simpl; rewrite ?Nat.eqb_refl, ?app_nil_r; done.
Qed.

(** The buffer has a front. *)
Lemma pop_front_inv w evs c cap ch v q r ps' ch' :
  inv w evs -> chans w !! c = Some (cap, ch) -> queue ch = v :: q -> pop (ps w) ch = (r, ps', ch') ->
  inv (set_chan w ps' c cap ch')
    (evs ++ (Moved c <$> committed_in (ps w) ps' ch) ++ match r with Some v => [Received c v] | None => [] end).
Proof.
  intros I Hc Eq Hp. destruct (w_chan _ _ I c cap ch Hc) as ([[Hu Hub] Hcd Hr Hcap] & Hin & H3).
  unfold pop, pop_for, take_offer in Hp. rewrite Hu, Eq in Hp. cbn [sendq set_queue] in Hp.
  destruct (take_offers (ps w) None (sendq ch)) as [[ov ps1] l1] eqn:Et. apply take_offers_spec in Et.
  destruct Et as [pre o post pre' El Hq Hm Hd Hsub|l' Hno Hsub]; injection Hp as <- <- <-.
  - assert (Hin_o : o ∈ sendq ch) by (rewrite El; apply elem_of_app; right; by left).
    change (S (S (S (o_arm o)))) with (PENDING_DONE + o_arm o).
    rewrite (committed_one (ps w) ch pre o post (i_offers _ _ _ _ Hin) El Hq).
    apply (offer_commit_inv w evs c cap ch pre o post pre'); try done.
    + constructor; simpl; [done| |done|].
      * intros E. destruct (Hcd E) as [E' _]. rewrite E' in Hin_o. by apply elem_of_nil in Hin_o.
      * destruct cap as [[|n]|]; [by destruct Hcap as [Hcap _]; rewrite Eq in Hcap| |].
        -- destruct Hcap as [_ Hx]. specialize (Hx o Hin_o Hq). rewrite Eq in Hx. simpl in Hx.
           rewrite length_app. simpl. split; [lia|]. intros; lia.
        -- by rewrite (Hcap o Hin_o) in Hq.
    + intros c' Hne. by apply (event_other c c' [o_v o] (Some v)).
    + rewrite moved_app, received_app. destruct (event_self c [o_v o] (Some v)) as [-> ->].
      destruct cap as [[|n]|]; [by destruct Hcap as [Hcap _]; rewrite Eq in Hcap| |];
        simpl in H3 |- *; rewrite H3, Eq, <- !(assoc_L (++)); done.
  - rewrite committed_quiet by (intros; by apply queued_not_done).
    assert (Hdead : forall o, o ∈ sendq ch -> is_queued (ps w) (o_p o) = false).
    { intros o Ho. destruct (is_queued _ _) eqn:E; [|done]. by specialize (Hno o Ho E). }
    eapply update_same; [done|done|apply keeps_refl|done|by left|done| | | |].
    + constructor; simpl; [done| |done|].
      * intros E. destruct (Hcd E) as [E1 E2]. rewrite E1 in Hsub. split; [by apply sublist_nil_r|done].
      * destruct cap as [[|n]|]; [by destruct Hcap as [Hcap _]; rewrite Eq in Hcap| |].
        -- destruct Hcap as [Hl _]. rewrite Eq in Hl. simpl in Hl. split; [lia|]. intros o Ho Hqo.
           by rewrite (Hdead o) in Hqo by (by eapply elem_of_sublist).
        -- intros o Ho. apply Hdead. by eapply elem_of_sublist.
    + destruct Hin as [Ho Hs Hf Hn Hno2]. constructor; simpl; [|done..|].
      * intros o Ho1. apply Ho. by eapply elem_of_sublist.
      * eapply sublist_NoDup; [exact Hno2|by apply fmap_sublist].
    + intros c' Hne. by apply (event_other c c' [] (Some v)).
    + rewrite moved_app, received_app. destruct (event_self c [] (Some v)) as [-> ->].
      destruct cap as [[|n]|]; [by destruct Hcap as [Hcap _]; rewrite Eq in Hcap| |];
        simpl in H3 |- *; rewrite H3, Eq, app_nil_r, <- !(assoc_L (++)); done.
Qed.

(** The buffer is empty. *)
Lemma pop_empty_inv w evs c cap ch r ps' ch' :
  inv w evs -> chans w !! c = Some (cap, ch) -> queue ch = [] -> pop (ps w) ch = (r, ps', ch') ->
  inv (set_chan w ps' c cap ch')
    (evs ++ (Moved c <$> committed_in (ps w) ps' ch) ++ match r with Some v => [Received c v] | None => [] end).
Proof.
  intros I Hc Eq Hp. destruct (w_chan _ _ I c cap ch Hc) as (Hok & Hin & H3).
  unfold pop, pop_for, take_offer in Hp. rewrite (proj1 (c_unsealed _ _ _ Hok)), Eq in Hp.
  destruct (take_offers (ps w) None (sendq ch)) as [[ov ps1] l1] eqn:Et. apply take_offers_spec in Et.
  destruct Et as [pre o post pre' El Hq Hm Hd Hsub|l' Hno Hsub]; injection Hp as <- <- <-.
  - change (S (S (S (o_arm o)))) with (PENDING_DONE + o_arm o).
    rewrite (committed_one (ps w) ch pre o post (i_offers _ _ _ _ Hin) El Hq). apply (offer_commit_inv w evs c cap ch pre o post pre'); try done.
    + eapply shrink_ok; [|eapply chan_ok_mono; [by apply keeps_insert| | |done]].
      * repeat split; simpl; [|done]. rewrite El. apply sublist_app; [done|]. by apply sublist_cons.
      * intros x Hx. eapply entry_lt; [done|]. by apply (i_offer _ _ _ _ Hin).
      * intros x Hx. eapply entry_lt; [done|]. by apply (i_slot _ _ _ _ Hin).
    + intros c' Hne. by apply (event_other c c' [o_v o] (Some (o_v o))).
    + rewrite moved_app, received_app. destruct (event_self c [o_v o] (Some (o_v o))) as [-> ->].
      destruct cap as [[|n]|]; simpl in H3 |- *; rewrite H3.
      * unfold in_slots. simpl. solve_Permutation.
      * by rewrite Eq, !app_nil_r.
      * by rewrite Eq, !app_nil_r.
  - rewrite committed_quiet by (intros; by apply queued_not_done). simpl. rewrite app_nil_r. eapply shrink_inv; [done|done| |done|done]. by repeat split.
Qed.

Lemma pop_inv w evs c cap ch r ps' ch' :
  inv w evs -> chans w !! c = Some (cap, ch) -> pop (ps w) ch = (r, ps', ch') ->
  inv (set_chan w ps' c cap ch')
    (evs ++ (Moved c <$> committed_in (ps w) ps' ch) ++ match r with Some v => [Received c v] | None => [] end).
Proof.
  intros I Hc Hp. destruct (queue ch) as [|v q] eqn:Eq; [by eapply pop_empty_inv|by eapply pop_front_inv].
Qed.

(** *** Closing *)
Lemma close_store ps (l : list (Offer V)) :
  let ps' := foldl (fun ps o => (try_close ps (o_p o)).2) ps l in
  keeps ps ps' /\ length ps' = length ps /\
  forall p arm, ps' !! p = Some (PENDING_DONE + arm) -> ps !! p = Some (PENDING_DONE + arm).
Proof.
  revert ps. induction l as [|o l IH]; intros ps; simpl; [split; [apply keeps_refl|done]|].
  destruct (IH (try_close ps (o_p o)).2) as (Hk & Hl & Hd). unfold try_close, settle_to in *.
  destruct (is_queued ps (o_p o)) eqn:Eq; simpl in *; [|done].
  rewrite length_insert in Hl. split; [|split; [done|]].
  - eapply keeps_trans; [by apply keeps_insert|done].
  - intros p arm Hp. destruct (commit_cases _ _ _ _ _ (Hd p arm Hp)) as [?|[_ E]]; [done|discriminate].
Qed.

Lemma omap_filled (l : list (Slot V)) : omap s_got (filter filled l) = omap s_got l.
Proof.
  induction l as [|s l IH]; [done|]. rewrite filter_cons, got_cons. destruct (decide (filled s)) as [[v E]|E].
  - by rewrite got_cons, E, IH.
  - unfold filled in E. destruct (s_got s); [by destruct E|done].
Qed.

Lemma close_inv w evs c cap ch ps' ch' :
  inv w evs -> chans w !! c = Some (cap, ch) -> close (ps w) ch = (ps', ch') -> inv (set_chan w ps' c cap ch') evs.
Proof.
  intros I Hc Hcl. destruct (w_chan _ _ I c cap ch Hc) as (Hok & Hin & H3). unfold close in Hcl.
  destruct (close_store (ps w) (sendq ch)) as (Hk & Hl & Hd). injection Hcl as <- <-.
  rewrite <- (app_nil_r evs). eapply update_same; [done|done|done|done|by left; apply Hd| | | |done|].
  - intros s Hs Hf. simpl. apply list_elem_of_filter. done.
  - constructor; simpl; [apply (c_unsealed _ _ _ Hok)| | |].
    + intros _. split; [done|]. apply list.Forall_forall. by intros s [? ?]%list_elem_of_filter.
    + intros E. by rewrite (c_recvq _ _ _ Hok E).
    + pose proof (c_cap _ _ _ Hok) as Hcap. destruct cap as [[|n]|].
      * destruct Hcap as [Hq _]. split; [done|]. by intros o s Ho%elem_of_nil.
      * destruct Hcap as [Hq _]. split; [done|]. by intros o Ho%elem_of_nil.
      * by intros o Ho%elem_of_nil.
  - destruct Hin as [Ho Hs Hf Hn Hno2]. constructor; simpl.
    + by intros o Ho1%elem_of_nil.
    + intros s [_ Hs1]%list_elem_of_filter. by apply Hs.
    + intros s [_ Hs1]%list_elem_of_filter Hfl. destruct Hk as [_ Hk]. by apply Hk; [apply Hf|].
    + eapply sublist_NoDup; [exact Hn|]. apply fmap_sublist, sublist_filter.
    + constructor.
  - rewrite app_nil_r. unfold flow, in_slots in *. simpl. rewrite omap_filled. done.
Qed.

(** *** Settling *)
Lemma settled_inv w evs p entries ps1 chs' evs' :
  inv w evs -> parties w !! p = Some (mkParty entries true) ->
  keeps (ps w) ps1 -> length ps1 = length (ps w) -> (forall q, q <> p -> ps1 !! q = ps w !! q) ->
  (forall c cap ch, chans w !! c = Some (cap, ch) -> exists ch', chs' !! c = Some (cap, ch') /\
     shrinks ch ch' /\ (forall o, o ∈ sendq ch' -> o_p o <> p) /\ (forall s, s ∈ recvq ch' -> s_p s <> p) /\
     (forall s, s ∈ recvq ch -> filled s -> s_p s <> p -> s ∈ recvq ch') /\
     flow cap ch' (moved c (evs ++ evs')) (received c (evs ++ evs'))) ->
  (forall c, chans w !! c = None -> chs' !! c = None /\ moved c evs' = [] /\ received c evs' = []) ->
  inv (mkWorld ps1 (<[p := mkParty [] false]> (parties w)) chs') (evs ++ evs').
Proof.
  intros I Hp Hk Hl Hsame Hch Hnone. pose proof (lookup_lt_Some _ _ _ Hp) as Hlt.
  assert (Hent : forall q e, q <> p -> entry (parties w) q e -> entry (<[p := mkParty [] false]> (parties w)) q e).
  { intros q e Hne (x & Hx & ?). exists x. by rewrite list_lookup_insert_ne. }
  assert (Hent' : forall q e, entry (<[p := mkParty [] false]> (parties w)) q e -> q <> p /\ entry (parties w) q e).
  { intros q e (x & Hx & Hlv & He). destruct (decide (q = p)) as [->|Hne].
    - rewrite list_lookup_insert_eq in Hx by done. by injection Hx as <-.
    - rewrite list_lookup_insert_ne in Hx by done. split; [done|]. by exists x. }
  assert (Hback : forall c cap ch', chs' !! c = Some (cap, ch') -> exists ch, chans w !! c = Some (cap, ch)).
  { intros c cap ch' E. destruct (chans w !! c) as [[cap0 ch]|] eqn:Ec.
    - destruct (Hch c cap0 ch Ec) as (ch1 & E1 & _). rewrite E1 in E. injection E as -> ->. by exists ch.
    - destruct (Hnone c Ec) as [E1 _]. congruence. }
  constructor; cbn [ps parties chans].
  - rewrite length_insert, Hl. apply (w_len _ _ I).
  - intros q x Hx. destruct (decide (q = p)) as [->|].
    + rewrite list_lookup_insert_eq in Hx by done. injection Hx as <-. constructor.
    + rewrite list_lookup_insert_ne in Hx by done. by apply (w_arms _ _ I q).
  - intros q arm Hq (x & Hx & Hlv). destruct (decide (q = p)) as [->|Hne].
    { rewrite list_lookup_insert_eq in Hx by done. by injection Hx as <-. }
    rewrite list_lookup_insert_ne in Hx by done. rewrite Hsame in Hq by done.
    destruct (w_at _ _ I q arm Hq) as (c & b & He); [by exists x|]. exists c, b. by apply Hent.
  - intros q arm c Hq [Hne He]%Hent'. rewrite Hsame in Hq by done.
    destruct (w_done _ _ I q arm c Hq He) as (cap & ch & v & Ec & Hs).
    destruct (Hch c cap ch Ec) as (ch' & Ec' & _ & _ & _ & Hf & _). exists cap, ch', v. split; [done|].
    apply Hf; [done|by eexists|done].
  - intros c cap ch' Ec'. destruct (Hback c cap ch' Ec') as [ch Ec].
    destruct (Hch c cap ch Ec) as (ch1 & E1 & Hsh & Ho & Hs & Hf & Hflow). rewrite Ec' in E1. injection E1 as <-.
    destruct (w_chan _ _ I c cap ch Ec) as (H1 & H2 & _). split; [|split; [|done]].
    + eapply shrink_ok; [done|]. eapply chan_ok_mono; [done| | |done].
      * intros x Hx. eapply entry_lt; [done|]. by apply (i_offer _ _ _ _ H2).
      * intros x Hx. eapply entry_lt; [done|]. by apply (i_slot _ _ _ _ H2).
    + destruct (shrink_in _ _ _ _ _ Hsh H2) as [Ho1 Hs1 Hf1 Hn1 Hno21]. constructor; [| | |done|done].
      * intros o Hin. apply Hent; [by apply Ho|by apply Ho1].
      * intros x Hin. apply Hent; [by apply Hs|by apply Hs1].
      * intros x Hin Hfl. rewrite Hsame by (by apply Hs). by apply Hf1.
  - intros c Ec'. destruct (chans w !! c) as [[cap ch]|] eqn:Ec.
    + destruct (Hch c cap ch Ec) as (ch' & E & _). congruence.
    + destruct (Hnone c Ec) as (_ & Em & Er), (w_none _ _ I c Ec) as [E1 E2].
      by rewrite moved_app, received_app, Em, Er, E1, E2.
Qed.

Lemma filter_noop {A} (P : A -> Prop) `{forall x, Decision (P x)} (l : list A) :
  (forall x, x ∈ l -> P x) -> filter P l = l.
Proof.
  intros Hl. induction l as [|x l IH]; [done|]. rewrite filter_cons, decide_True by (apply Hl; by left).
  f_equal. apply IH. intros y Hy. apply Hl. by right.
Qed.

Lemma withdraw_noop p ch :
  (forall o, o ∈ sendq ch -> o_p o <> p) -> (forall s, s ∈ recvq ch -> s_p s <> p) -> withdraw p ch = ch.
Proof. intros Ho Hs. unfold withdraw. rewrite !filter_noop by done. by destruct ch. Qed.

Lemma withdraw_twice p ch : withdraw p (withdraw p ch) = withdraw p ch.
Proof. apply withdraw_noop; simpl; by intros x [? _]%list_elem_of_filter. Qed.

Lemma withdraw_all p entries (chs : list (option nat * ChanState V)) c :
  foldl (fun chs e => on_chan (withdraw p) e.1.1 chs) chs entries !! c =
  (fun x => (x.1, if decide (c ∈ (fun e : nat * nat * bool => e.1.1) <$> entries) then withdraw p x.2 else x.2)) <$> chs !! c.
Proof.
  revert chs. induction entries as [|e entries IH]; intros chs.
  - simpl. destruct (chs !! c) as [[cap ch]|]; done.
  - cbn [foldl]. rewrite IH. unfold on_chan. destruct (decide (c = e.1.1)) as [->|Hne].
    + rewrite list_lookup_alter_eq. destruct (chs !! e.1.1) as [[cap ch]|]; [|done]. simpl. do 2 f_equal.
      rewrite (decide_True (P:=e.1.1 ∈ e.1.1 :: _)) by (by left).
      destruct (decide _); [by rewrite withdraw_twice|done].
    + rewrite list_lookup_alter_ne by done. destruct (chs !! c) as [[cap ch]|]; [|done]. simpl. do 2 f_equal.
      destruct (decide (c ∈ (fun e => e.1.1) <$> entries)) as [Hin|Hnin].
      * rewrite decide_True; [done|]. by right.
      * rewrite decide_False; [done|]. by intros [->|?]%elem_of_cons.
Qed.

(** All entries of [p] are on the channels its [PendingOp] lists. *)
Lemma withdraw_lookup w evs p entries chs c :
  inv w evs -> parties w !! p = Some (mkParty entries true) ->
  (forall cap ch, chs !! c = Some (cap, ch) -> exists ch0, chans w !! c = Some (cap, ch0) /\ shrinks ch0 ch) ->
  foldl (fun chs e => on_chan (withdraw p) e.1.1 chs) chs entries !! c =
  (fun x => (x.1, withdraw p x.2)) <$> chs !! c.
Proof.
  intros I Hp Hc. rewrite withdraw_all. destruct (chs !! c) as [[cap ch]|] eqn:Ec; [|done]. simpl. do 2 f_equal.
  destruct (decide _) as [|Hnin]; [done|]. symmetry.
  destruct (Hc cap ch eq_refl) as (ch0 & Ec0 & _ & _ & _ & _ & Hso & Hsr).
  destruct (w_chan _ _ I c cap ch0 Ec0) as (_ & [Ho Hs _ _ _] & _).
  assert (Hno : forall arm b, ~ entry (parties w) p (c, arm, b)).
  { intros arm b (x & Hx & _ & He). rewrite Hp in Hx. injection Hx as <-. apply Hnin, list_elem_of_fmap.
    by exists (c, arm, b). }
  apply withdraw_noop.
  - intros o Hin <-. eapply Hno, Ho. by eapply elem_of_sublist.
  - intros s Hin <-. eapply Hno, Hs. by eapply elem_of_sublist.
Qed.

Lemma take_slots_spec p (l : list (Slot V)) :
  match take_slots p l with
  | (Some v, l') => exists a b arm, l = a ++ mkSlot p arm (Some v) :: b /\ l' = a ++ b
  | (None, l') => l' = l /\ forall s, s ∈ l -> filled s -> s_p s <> p
  end.
Proof.
  induction l as [|s l IH]; simpl; [split; [done|]; by intros s Hs%elem_of_nil|].
  assert (Hskip : (filled s -> s_p s <> p) ->
    match (let '(r, l') := take_slots p l in (r, s :: l')) with
    | (Some v, l') => exists a b arm, s :: l = a ++ mkSlot p arm (Some v) :: b /\ l' = a ++ b
    | (None, l') => l' = s :: l /\ forall x, x ∈ s :: l -> filled x -> s_p x <> p
    end).
  { intros Hs. destruct (take_slots p l) as [[v|] l'].
    - destruct IH as (a & b & arm & -> & ->). by exists (s :: a), b, arm.
    - destruct IH as [-> Hno]. split; [done|]. intros x [->|Hx]%elem_of_cons; [done|by apply Hno]. }
  destruct s as [sp sa [v|]]; simpl in *.
  - destruct (Nat.eqb_spec sp p) as [->|Hne]; [by exists [], l, sa|]. by apply Hskip.
  - apply Hskip. by intros [].
Qed.

Lemma omap_withdraw p (l : list (Slot V)) :
  (forall s, s ∈ l -> filled s -> s_p s <> p) -> omap s_got (filter (fun s => s_p s <> p) l) = omap s_got l.
Proof.
  intros Hl. induction l as [|s l IH]; [done|]. rewrite filter_cons, got_cons.
  rewrite <- IH by (intros; apply Hl; [by right|done]). destruct (decide (s_p s <> p)) as [?|E]; [done|].
  destruct (s_got s) eqn:Eg; [|done]. destruct E. apply Hl; [by left|]. unfold filled. rewrite Eg. by eexists.
Qed.

Lemma shrinks_withdraw p ch : shrinks ch (withdraw p ch).
Proof. repeat split; simpl; apply sublist_filter. Qed.

Lemma shrinks_trans ch1 ch2 ch3 : shrinks ch1 ch2 -> shrinks ch2 ch3 -> shrinks ch1 ch3.
Proof.
  intros (E1 & E2 & E3 & E4 & E5 & E6) (F1 & F2 & F3 & F4 & F5 & F6).
  repeat split; [congruence..| |]; by etrans.
Qed.

(** The filled slots of [p] sit on the channel of its committed arm. *)
Lemma filled_arm w evs p c cap ch s :
  inv w evs -> chans w !! c = Some (cap, ch) -> s ∈ recvq ch -> filled s -> s_p s = p ->
  ps w !! p = Some (PENDING_DONE + s_arm s) /\ entry (parties w) p (c, s_arm s, false).
Proof.
  intros I Hc Hs Hf <-. destruct (w_chan _ _ I c cap ch Hc) as (_ & [_ Hsl Hfl _ _] & _).
  split; [by apply Hfl|by apply Hsl].
Qed.

(** Nothing was delivered to [p]: its entries go, no value does. *)
Lemma chan_leave_inv w evs p entries ps1 :
  inv w evs -> parties w !! p = Some (mkParty entries true) ->
  keeps (ps w) ps1 -> length ps1 = length (ps w) -> (forall q, q <> p -> ps1 !! q = ps w !! q) ->
  (forall c cap ch s, chans w !! c = Some (cap, ch) -> s ∈ recvq ch -> filled s -> s_p s <> p) ->
  inv (mkWorld ps1 (<[p := mkParty [] false]> (parties w))
        (foldl (fun chs e => on_chan (withdraw p) e.1.1 chs) (chans w) entries)) evs.
Proof.
  intros I Hp Hk Hl Hsame Hno.
  assert (Hlook : forall c, foldl (fun chs e => on_chan (withdraw p) e.1.1 chs) (chans w) entries !! c =
    (fun x => (x.1, withdraw p x.2)) <$> chans w !! c).
  { intros c. eapply withdraw_lookup; [done|done|]. intros cap ch Ec. exists ch. by repeat split. }
  rewrite <- (app_nil_r evs). eapply settled_inv; [done|done|done|done|done| |].
  - intros c cap ch Ec. exists (withdraw p ch). rewrite Hlook, Ec. split; [done|].
    split; [apply shrinks_withdraw|]. simpl.
    split; [by intros o [? _]%list_elem_of_filter|]. split; [by intros o [? _]%list_elem_of_filter|].
    split; [intros s Hs _ Hne; by apply list_elem_of_filter|]. rewrite app_nil_r.
    destruct (w_chan _ _ I c cap ch Ec) as (_ & _ & H3). unfold flow, in_slots in *. simpl.
    rewrite omap_withdraw by (intros s Hs; by eapply Hno). done.
  - intros c Ec. by rewrite Hlook, Ec.
Qed.

(** A slot of [p] was filled: it takes the value. *)
Lemma got_inv w evs p entries arm c cap ch v a b :
  inv w evs -> parties w !! p = Some (mkParty entries true) -> ps w !! p = Some (PENDING_DONE + arm) ->
  chans w !! c = Some (cap, ch) -> recvq ch = a ++ mkSlot p arm (Some v) :: b ->
  inv (mkWorld (ps w) (<[p := mkParty [] false]> (parties w))
        (foldl (fun chs e => on_chan (withdraw p) e.1.1 chs) (<[c := (cap, set_recvq (a ++ b) ch)]> (chans w)) entries))
      (evs ++ [Received c v]).
Proof.
  intros I Hp Hd Ec El. pose proof (lookup_lt_Some _ _ _ Ec) as Hlt.
  destruct (w_chan _ _ I c cap ch Ec) as (Hok & Hin & H3).
  assert (Hslot : mkSlot p arm (Some v) ∈ recvq ch) by (rewrite El; apply elem_of_app; right; by left).
  assert (Hsub : a ++ b `sublist_of` recvq ch).
  { rewrite El. apply sublist_app; [done|]. by apply sublist_cons. }
  assert (Hsh : shrinks ch (set_recvq (a ++ b) ch)) by (by repeat split).
  assert (Hnof : forall s, s ∈ a ++ b -> filled s -> s_p s <> p).
  { intros s Hs Hf E. destruct (filled_arm w evs p c cap ch s I Ec) as [Hs1 _]; [by eapply elem_of_sublist|done|done|].
    assert (s_arm s = arm) by (rewrite Hd in Hs1; injection Hs1; lia).
    pose proof (i_keys _ _ _ _ Hin) as Hn. rewrite El, fmap_app, fmap_cons in Hn.
    apply list.NoDup_app in Hn as (_ & Hd1 & [Hd2 _]%list.NoDup_cons).
    assert (Ek : key s = (p, arm)) by (unfold key; congruence).
    apply elem_of_app in Hs as [Hs|Hs].
    - apply (Hd1 (key s)); [apply list_elem_of_fmap; by exists s|]. rewrite Ek. by left.
    - apply Hd2, list_elem_of_fmap. by exists s. }
  assert (Hlook : forall c', foldl (fun chs e => on_chan (withdraw p) e.1.1 chs)
      (<[c := (cap, set_recvq (a ++ b) ch)]> (chans w)) entries !! c' =
    (fun x => (x.1, withdraw p x.2)) <$> <[c := (cap, set_recvq (a ++ b) ch)]> (chans w) !! c').
  { intros c'. eapply withdraw_lookup; [done|done|]. intros cap' ch' E. destruct (decide (c' = c)) as [->|].
    - rewrite list_lookup_insert_eq in E by done. injection E as <- <-. by exists ch.
    - rewrite list_lookup_insert_ne in E by done. exists ch'. by repeat split. }
  eapply settled_inv; [done|done|apply keeps_refl|done|done| |].
  - intros c' cap' ch' Ec'. rewrite Hlook. destruct (decide (c' = c)) as [->|Hne].
    + rewrite list_lookup_insert_eq by done. rewrite Ec in Ec'. injection Ec' as <- <-. eexists. split; [done|].
      split; [eapply shrinks_trans; [done|apply shrinks_withdraw]|]. simpl.
      split; [by intros o [? _]%list_elem_of_filter|]. split; [by intros o [? _]%list_elem_of_filter|]. split.
      * intros s Hs Hf Hne. apply list_elem_of_filter. split; [done|]. rewrite El, elem_of_app, elem_of_cons in Hs.
        apply elem_of_app. destruct Hs as [?|[->|?]]; [by left|done|by right].
      * rewrite moved_app, received_app. unfold moved at 2, received at 2. simpl. rewrite Nat.eqb_refl, app_nil_r.
        assert (Hz : cap = Some 0).
        { destruct (decide (cap = Some 0)); [done|]. pose proof (c_recvq _ _ _ Hok) as Hr. rewrite Hr in Hslot by done.
          by apply elem_of_nil in Hslot. }
        subst cap. simpl in H3 |- *. unfold in_slots in *. simpl. rewrite omap_withdraw by done.
        rewrite H3, El, !omap_app, got_cons. simpl. solve_Permutation.
    + rewrite list_lookup_insert_ne by done. rewrite Ec'. eexists. split; [done|].
      split; [apply shrinks_withdraw|]. simpl.
      split; [by intros o [? _]%list_elem_of_filter|]. split; [by intros o [? _]%list_elem_of_filter|].
      split; [intros s Hs _ Hnp; by apply list_elem_of_filter|].
      destruct (w_chan _ _ I c' cap' ch' Ec') as (_ & _ & Hfl). rewrite moved_app, received_app.
      unfold moved at 2, received at 2. simpl. destruct (Nat.eqb_spec c c'); [congruence|]. rewrite !app_nil_r.
      unfold flow, in_slots in *. simpl. rewrite omap_withdraw; [done|]. intros s Hs Hf E.
      destruct (filled_arm w evs p c' cap' ch' s I Ec' Hs Hf E) as [Hs1 He].
      destruct (filled_arm w evs p c cap ch _ I Ec Hslot) as [_ He']; [by eexists|done|]. simpl in He'.
      assert (s_arm s = arm) as Ea by (rewrite Hd in Hs1; injection Hs1; lia). rewrite Ea in He.
      destruct (entry_unique _ _ _ _ _ _ _ (w_arms _ _ I) He He') as [-> _]. done.
  - intros c' Ec'. rewrite Hlook. assert (c' <> c) by congruence. rewrite list_lookup_insert_ne, Ec' by done.
    split; [done|]. unfold moved, received. simpl. destruct (Nat.eqb_spec c c'); [congruence|done].
Qed.

Lemma find_arm (entries : list (nat * nat * bool)) c arm b :
  NoDup (arms entries) -> (c, arm, b) ∈ entries ->
  find (fun e => e.1.2 =? arm) entries = Some (c, arm, b).
Proof.
  induction entries as [|e entries IH]; [by intros _ ?%elem_of_nil|].
  unfold arms. rewrite fmap_cons. intros [Hn1 Hn2]%list.NoDup_cons [<-|Hin]%elem_of_cons; simpl.
  - by rewrite Nat.eqb_refl.
  - destruct (Nat.eqb_spec e.1.2 arm) as [E|]; [|by apply IH]. destruct Hn1. rewrite E.
    apply list_elem_of_fmap. by exists (c, arm, b).
Qed.

(** How a party's wait ended, as its [Pending] and its entries say. *)
Inductive ended w (p : nat) (entries : list (nat * nat * bool)) : Settled V -> Prop :=
| ended_cancelled : ps w !! p = Some PENDING_QUEUED \/ ps w !! p = Some PENDING_CANCELLED ->
    ended w p entries SCancelled
| ended_closed : ps w !! p = Some PENDING_CLOSED -> ended w p entries SClosed
| ended_sent c arm : ps w !! p = Some (PENDING_DONE + arm) -> (c, arm, true) ∈ entries ->
    ended w p entries (SSent arm)
| ended_got c arm cap ch v : ps w !! p = Some (PENDING_DONE + arm) -> (c, arm, false) ∈ entries ->
    chans w !! c = Some (cap, ch) -> mkSlot p arm (Some v) ∈ recvq ch -> ended w p entries (SGot arm v).

Lemma settle_cases w evs p entries r ps' chs' :
  inv w evs -> parties w !! p = Some (mkParty entries true) ->
  settle_mut (ps w) (chans w) p entries = (r, ps', chs') ->
  ended w p entries r /\ is_queued ps' p = false /\
  ((r = SCancelled \/ r = SClosed \/ exists arm, r = SSent arm) /\
     chs' = foldl (fun chs e => on_chan (withdraw p) e.1.1 chs) (chans w) entries /\
     keeps (ps w) ps' /\ length ps' = length (ps w) /\ (forall q, q <> p -> ps' !! q = ps w !! q) /\
     (forall c cap ch s, chans w !! c = Some (cap, ch) -> s ∈ recvq ch -> filled s -> s_p s <> p) \/
   exists arm c cap ch v a b, r = SGot arm v /\ ps' = ps w /\
     ps w !! p = Some (PENDING_DONE + arm) /\ (c, arm, false) ∈ entries /\
     chans w !! c = Some (cap, ch) /\ recvq ch = a ++ mkSlot p arm (Some v) :: b /\
     chs' = foldl (fun chs e => on_chan (withdraw p) e.1.1 chs)
              (<[c := (cap, set_recvq (a ++ b) ch)]> (chans w)) entries).
Proof.
  intros I Hp Hs. pose proof (lookup_lt_Some _ _ _ Hp) as Hlt. rewrite (w_len _ _ I) in Hlt.
  destruct (lookup_lt_is_Some_2 _ _ Hlt) as [st Hst].
  assert (Hnone : (forall arm, st <> PENDING_DONE + arm) ->
    forall c cap ch s, chans w !! c = Some (cap, ch) -> s ∈ recvq ch -> filled s -> s_p s <> p).
  { intros Hne c cap ch s Ec Hin Hf E. destruct (filled_arm w evs p c cap ch s I Ec Hin Hf E) as [E1 _].
    rewrite Hst in E1. injection E1 as ->. by apply (Hne (s_arm s)). }
  unfold settle_mut, try_cancel in Hs. rewrite Hst in Hs. simpl in Hs.
  assert (Eq0 : is_queued (ps w) p = (st =? PENDING_QUEUED)) by (unfold is_queued; by rewrite Hst).
  rewrite Eq0 in Hs. destruct (Nat.eqb_spec st PENDING_QUEUED) as [E0|Hn0].
  { rewrite E0 in Hst, Hnone. injection Hs as <- <- <-. split; [constructor; by left|]. split.
    - unfold is_queued. by rewrite list_lookup_insert_eq.
    - left. split; [by left|]. split; [done|]. split; [apply keeps_insert; apply is_queued_spec; done|].
      split; [by rewrite length_insert|]. split; [intros q Hq; by rewrite list_lookup_insert_ne|].
      by apply Hnone. }
  destruct (Nat.eqb_spec st PENDING_CANCELLED) as [E0|Hn1].
  { rewrite E0 in Hst, Hnone. injection Hs as <- <- <-. split; [constructor; by right|]. split; [by rewrite Eq0|]. left. split; [by left|].
    split; [done|]. split; [apply keeps_refl|]. do 2 (split; [done|]). by apply Hnone. }
  destruct (Nat.eqb_spec st PENDING_CLOSED) as [E0|Hn2].
  { rewrite E0 in Hst, Hnone. injection Hs as <- <- <-. split; [by constructor|]. split; [by rewrite Eq0|]. left. split; [by right; left|].
    split; [done|]. split; [apply keeps_refl|]. do 2 (split; [done|]). by apply Hnone. }
  assert (Ea : exists arm, st = PENDING_DONE + arm).
  { exists (st - PENDING_DONE). unfold PENDING_QUEUED, PENDING_CANCELLED, PENDING_CLOSED, PENDING_DONE in *. lia. }
  destruct Ea as [arm Ea]. rewrite Ea in Hst, Hs. replace (PENDING_DONE + arm - PENDING_DONE) with arm in Hs by lia.
  destruct (w_at _ _ I p arm Hst) as (c & b & x & Hx & _ & Hin); [by eexists|]. rewrite Hp in Hx. injection Hx as <-.
  simpl in Hin. rewrite (find_arm entries c arm b) in Hs; [|by apply (w_arms _ _ I p _ Hp)|done].
  assert (He : entry (parties w) p (c, arm, b)) by (by eexists). destruct b.
  - injection Hs as <- <- <-. split; [by econstructor|]. split; [by rewrite Eq0|]. left.
    split; [right; right; by eexists|]. split; [done|]. split; [apply keeps_refl|]. do 2 (split; [done|]).
    intros c' cap ch s Ec Hs Hf E. destruct (filled_arm w evs p c' cap ch s I Ec Hs Hf E) as [E1 He'].
    assert (s_arm s = arm) as Earm by (rewrite Hst in E1; injection E1; lia). rewrite Earm in He'.
    by destruct (entry_unique _ _ _ _ _ _ _ (w_arms _ _ I) He He') as [_ ?].
  - destruct (w_done _ _ I p arm c Hst He) as (cap & ch & v & Ec & Hsl). rewrite Ec in Hs. unfold take in Hs.
    pose proof (take_slots_spec p (recvq ch)) as Ht. destruct (take_slots p (recvq ch)) as [[v'|] l'].
    + destruct Ht as (a & b & arm' & El & ->). injection Hs as <- <- <-.
      assert (Hsl' : mkSlot p arm' (Some v') ∈ recvq ch) by (rewrite El; apply elem_of_app; right; by left).
      destruct (filled_arm w evs p c cap ch _ I Ec Hsl') as [E1 _]; [by eexists|done|]. simpl in E1.
      assert (arm' = arm) as -> by (rewrite Hst in E1; injection E1; lia).
      split; [by econstructor|]. split; [by rewrite Eq0|]. right. by exists arm, c, cap, ch, v', a, b.
    + destruct Ht as [_ Hno]. exfalso. apply (Hno _ Hsl); [by eexists|done].
Qed.

Lemma settle_inv w evs p entries r ps' chs' :
  inv w evs -> parties w !! p = Some (mkParty entries true) ->
  settle_mut (ps w) (chans w) p entries = (r, ps', chs') ->
  inv (mkWorld ps' (<[p := mkParty [] false]> (parties w)) chs')
    (evs ++ match r with
            | SGot arm v => match find (fun e => e.1.2 =? arm) entries with
                            | Some (c, _, _) => [Received c v] | None => [] end
            | _ => [] end).
Proof.
  intros I Hp Hs.
  destruct (settle_cases _ _ _ _ _ _ _ I Hp Hs) as (_ & _ & [(Hr & -> & Hk & Hl & Hsame & Hno)|
    (arm & c & cap & ch & v & a & b & -> & -> & Hd & Hin & Ec & El & ->)]).
  - assert (Hev : match r with
            | SGot arm v => match find (fun e => e.1.2 =? arm) entries with
                            | Some (c, _, _) => [Received c v] | None => [] end
            | _ => [] end = []) by (by destruct Hr as [->|[->|[? ->]]]).
    rewrite Hev, app_nil_r. by apply chan_leave_inv.
  - rewrite (find_arm entries c arm false); [|by apply (w_arms _ _ I p _ Hp)|done]. by apply got_inv with (arm := arm).
Qed.

(** ** Every step keeps the invariant *)
Lemma new_chan_inv w evs cap :
  inv w evs -> inv (mkWorld (ps w) (parties w) (chans w ++ [(cap, new_chan)])) evs.
Proof.
  intros I. constructor; cbn [ps parties chans]; [apply (w_len _ _ I)|apply (w_arms _ _ I)|apply (w_at _ _ I)| | |].
  - intros p arm c Hp He. destruct (w_done _ _ I p arm c Hp He) as (cap' & ch & v & Ec & Hs).
    exists cap', ch, v. split; [by apply lookup_app_l_Some|done].
  - intros c cap' ch [Ec|[Hle Ec]]%lookup_app_Some; [by apply (w_chan _ _ I)|].
    destruct (c - length (chans w)) eqn:Ed; [|done]. injection Ec as <- <-.
    destruct (w_none _ _ I c) as [-> ->]; [apply lookup_ge_None; lia|]. split; [|split].
    + constructor; simpl; [done|done|done|]. destruct cap as [[|n]|].
      * split; [done|]. by intros o s Ho%elem_of_nil.
      * split; [lia|]. by intros o Ho%elem_of_nil.
      * by intros o Ho%elem_of_nil.
    + constructor; simpl; [by intros x Hx%elem_of_nil..|constructor|constructor].
    + destruct cap as [[|n]|]; simpl; [by apply Permutation_nil_r|done|done].
  - intros c Ec%lookup_ge_None. rewrite length_app in Ec. apply (w_none _ _ I), lookup_ge_None. lia.
Qed.

Lemma recv_blocked ps me ch :
  recv_ready_for ps me ch = false -> forall o, o ∈ sendq ch -> is_queued ps (o_p o) = true -> me = Some (o_p o).
Proof.
  unfold recv_ready_for. intros [_ E]%orb_false_iff o Ho Hq. apply is_me_spec.
  destruct (is_me (o_p o) me) eqn:Em; [done|]. rewrite <- not_true_iff_false in E. destruct E.
  apply existsb_exists. exists o. split; [by apply list_elem_of_In|]. by rewrite Hq, Em.
Qed.

Lemma send_not_ready ps cap p ch :
  send_ready_for ps cap (Some p) ch = false -> send_blocked ps cap p ch.
Proof.
  unfold send_ready_for, send_blocked. destruct cap as [[|n]|]; [|by intros ?%Nat.ltb_ge|done].
  intros E s Hs Hg Hq. destruct (decide (s_p s = p)) as [|Hne]; [done|]. rewrite <- not_true_iff_false in E.
  destruct E. apply existsb_exists. exists s. split; [by apply list_elem_of_In|]. rewrite Hg, Hq. simpl.
  destruct (Nat.eqb_spec p (s_p s)); [congruence|done].
Qed.

Lemma park_inv w evs c cap ch :
  inv w evs -> chans w !! c = Some (cap, ch) ->
  let ch' := if negb (recv_ready_for (ps w) None ch) && negb (closed ch) &&
                (match cap with Some O => true | _ => false end)
             then slot (new_party w) 0 ch else ch in
  inv (set_chan (add_party PENDING_QUEUED [(c, 0, false)] w) (ps w ++ [PENDING_QUEUED]) c cap ch') evs.
Proof.
  intros I Ec ch'. pose proof (add_party_inv w evs [(c, 0, false)] I (NoDup_singleton _)) as I1.
  destruct (w_chan _ _ I c cap ch Ec) as (_ & [Ho Hs _ _ _] & _).
  change (ps w ++ [PENDING_QUEUED]) with (ps (add_party PENDING_QUEUED [(c, 0, false)] w)).
  subst ch'. destruct (recv_ready_for _ _ _) eqn:Er; simpl; [by rewrite set_chan_id|].
  destruct (closed ch) eqn:Hcl; simpl; [by rewrite set_chan_id|].
  destruct cap as [[|n]|]; [|by rewrite set_chan_id..].
  apply slot_inv; [done|done|done| | |].
  - exists (mkParty [(c, 0, false)] true). simpl. unfold new_party. rewrite lookup_app_r, Nat.sub_diag by lia.
    split; [done|]. split; [done|]. by left.
  - intros s Hin E. injection E as E _. destruct (Hs s Hin) as (x & Hx%lookup_lt_Some & _). unfold new_party in E. lia.
  - intros o Hin Hq. exfalso. apply (keeps_queued (ps w)) in Hq; [|apply keeps_app|].
    + by specialize (recv_blocked _ _ _ Er o Hin Hq).
    + eapply entry_lt; [done|by apply Ho].
Qed.

Lemma published w p arm entries e :
  may_publish w p arm = Some entries ->
  entry (<[p := mkParty (entries ++ [e]) true]> (parties w)) p e.
Proof.
  intros [Hp _]%may_publish_spec. apply lookup_lt_Some in Hp. eexists.
  rewrite list_lookup_insert_eq by done. split; [done|]. split; [done|]. apply elem_of_app. right. by left.
Qed.

(** *** The ledger of the blocked senders *)
Lemma inv_events w evs evs' :
  inv w evs -> (forall c, moved c evs' = moved c evs /\ received c evs' = received c evs) -> inv w evs'.
Proof.
  intros I He. constructor; [apply I|apply I|apply I|apply I| |].
  - intros c cap ch. destruct (He c) as [-> ->]. apply (w_chan _ _ I).
  - intros c. destruct (He c) as [-> ->]. apply (w_none _ _ I).
Qed.

Lemma committed_events i ps ps' (chs : list (option nat * ChanState V)) c :
  moved c (committed i ps ps' chs) =
    (if c <? i then [] else match chs !! (c - i) with Some x => committed_in ps ps' x.2 | None => [] end) /\
  received c (committed i ps ps' chs) = [].
Proof.
  revert i. induction chs as [|x chs IH]; intros i; [by destruct (c <? i)|]. cbn [committed].
  rewrite moved_app, received_app. destruct (IH (S i)) as [-> ->]. pose proof (event_self i (committed_in ps ps' x.2) None) as [E1 E2].
  pose proof (fun H => event_other i c (committed_in ps ps' x.2) None H) as E3. cbv zeta in E1, E2, E3. rewrite app_nil_r in E1, E2, E3.
  destruct (Nat.ltb_spec c i), (Nat.ltb_spec c (S i)); try lia.
  - destruct E3 as [-> ->]; [lia|done].
  - replace i with c in * by lia. by rewrite E1, E2, Nat.sub_diag, app_nil_r.
  - destruct E3 as [-> ->]; [lia|]. by replace (c - i) with (S (c - S i)) by lia.
Qed.

(** A step that commits no offer. *)
Lemma quiet_inv w evs w' evs' :
  inv w evs -> inv w' (evs ++ evs') ->
  (forall p arm, is_queued (ps w) p = true -> ps w' !! p = Some (PENDING_DONE + arm) ->
     exists c, entry (parties w) p (c, arm, false)) ->
  inv w' (evs ++ committed 0 (ps w) (ps w') (chans w) ++ evs').
Proof.
  intros I I' Hq. eapply inv_events; [exact I'|]. intros c. rewrite !moved_app, !received_app.
  destruct (committed_events 0 (ps w) (ps w') (chans w) c) as [-> ->]. rewrite Nat.sub_0_r. cbn [Nat.ltb Nat.leb].
  destruct (chans w !! c) as [[cap ch]|] eqn:Ec; [|done]. rewrite committed_quiet; [done|]. cbn [snd].
  intros o Ho Hqo Hd. destruct (Hq _ _ Hqo Hd) as [c' He]. destruct (w_chan _ _ I c cap ch Ec) as (_ & Hin & _).
  by destruct (entry_unique _ _ _ _ _ _ _ (w_arms _ _ I) He (i_offer _ _ _ _ Hin o Ho)).
Qed.

Lemma send_commits ps cap v off ch out ps' ch' p arm :
  send ps cap v off ch = (out, ps', ch') -> is_queued ps p = true -> ps' !! p = Some (PENDING_DONE + arm) ->
  exists s, s ∈ recvq ch /\ s_p s = p /\ s_arm s = arm.
Proof.
  intros Hs Hq Hd. assert (Hoff : forall ch0, send_offer ps v off ch0 = (out, ps', ch') -> ps' = ps)
    by (intros ch0; destruct off as [[]|]; by intros [= _ <- _]).
  assert (Hsame : ps' <> ps) by (intros ->; by apply (queued_not_done ps p arm)).
  unfold send in Hs. destruct (closed ch); [congruence|]. destruct cap as [[|n]|]; [| |congruence].
  - unfold give in Hs. destruct (give_slots ps v (fst <$> off) (recvq ch)) as [[b ps1] l1] eqn:Eg.
    apply give_slots_spec in Eg. destruct Eg as [pre s post pre' El _ _ _ _ _ _|l' _ _ _ _]; [|by apply Hoff in Hs].
    injection Hs as _ <- _. exists s. split; [rewrite El; apply elem_of_app; right; by left|].
    apply commit_cases in Hd as [Hd|[-> E]]; [by apply queued_not_done in Hd|]. split; [done|unfold PENDING_DONE in E; lia].
  - destruct (_ <? _); [congruence|by apply Hoff in Hs].
Qed.

Lemma pop_commits ps ch r ps' ch' p arm :
  pop ps ch = (r, ps', ch') -> is_queued ps p = true -> ps' !! p = Some (PENDING_DONE + arm) ->
  exists o, o ∈ sendq ch /\ o_p o = p /\ o_arm o = arm.
Proof.
  intros Hp Hq Hd. unfold pop, pop_for, take_offer in Hp. cbn [sendq set_queue] in Hp.
  assert (Hsame : ps' <> ps) by (intros ->; by apply (queued_not_done ps p arm)).
  destruct (sealed ch); [congruence|]. destruct (take_offers ps None (sendq ch)) as [[ov ps1] l1] eqn:Et.
  assert (ps1 = ps') as -> by (destruct (queue ch); congruence).
  apply take_offers_spec in Et. destruct Et as [pre o post pre' El _ _ _ _|l' _ _]; [|done].
  exists o. split; [rewrite El; apply elem_of_app; right; by left|].
  apply commit_cases in Hd as [Hd|[-> E]]; [by apply queued_not_done in Hd|]. split; [done|unfold PENDING_DONE in E; lia].
Qed.

Lemma recv_step_inv w evs c cap ch r ps' ch' :
  inv w evs -> chans w !! c = Some (cap, ch) -> pop (ps w) ch = (r, ps', ch') ->
  inv (set_chan w ps' c cap ch')
    (evs ++ committed 0 (ps w) ps' (chans w) ++ match r with Some v => [Received c v] | None => [] end).
Proof.
  intros I Ec Ep. eapply inv_events; [by eapply pop_inv|]. intros c'. rewrite !moved_app, !received_app.
  destruct (committed_events 0 (ps w) ps' (chans w) c') as [-> ->]. rewrite Nat.sub_0_r. cbn [Nat.ltb Nat.leb].
  pose proof (event_self c (committed_in (ps w) ps' ch) None) as [E1 E2].
  pose proof (fun H => event_other c c' (committed_in (ps w) ps' ch) None H) as E3. cbv zeta in E1, E2, E3. rewrite app_nil_r in E1, E2, E3.
  destruct (decide (c' = c)) as [->|Hne]; [by rewrite E1, E2, Ec|]. destruct (E3 Hne) as [-> ->].
  destruct (chans w !! c') as [[cap' ch0]|] eqn:Ec'; [|done]. rewrite committed_quiet; [done|]. cbn [snd].
  intros x Hx Hqx Hd. destruct (pop_commits _ _ _ _ _ _ _ Ep Hqx Hd) as (o & Ho & E4 & E5).
  destruct (w_chan _ _ I c cap ch Ec) as (_ & Hin & _), (w_chan _ _ I c' cap' ch0 Ec') as (_ & Hin' & _).
  pose proof (i_offer _ _ _ _ Hin o Ho) as He. rewrite E4, E5 in He.
  by destruct (entry_unique _ _ _ _ _ _ _ (w_arms _ _ I) He (i_offer _ _ _ _ Hin' x Hx)) as [-> _].
Qed.

Lemma queued_app (ps : list nat) st p : is_queued ps p = true -> (ps ++ [st]) !! p = Some PENDING_QUEUED.
Proof. intros Hq%is_queued_spec. by apply lookup_app_l_Some. Qed.

Lemma settle_commits (ps : list nat) (chs : list (option nat * ChanState V)) p entries r ps' chs' q arm :
  settle_mut ps chs p entries = (r, ps', chs') -> is_queued ps q = true -> ps' !! q <> Some (PENDING_DONE + arm).
Proof.
  intros Hs Hq Hd. assert (ps' = ps \/ ps' = <[p := PENDING_CANCELLED]> ps) as [->| ->]; [|by apply queued_not_done in Hd|].
  - unfold settle_mut, try_cancel in Hs. destruct (is_queued ps p); [right; congruence|left].
    repeat (case_match; try congruence).
  - apply commit_cases in Hd as [Hd|[_ E]]; [by apply queued_not_done in Hd|discriminate].
Qed.

(** [act] with its own events. *)
Lemma act_inv w evs o w' evs' : inv w evs -> act w o = Some (w', evs') ->
  (forall c, o <> ORecv c) -> inv w' (evs ++ evs').
Proof.
  intros I. destruct o as [cap|c v|c v|c|c| |p arm c v|p arm c|c|p]; simpl.
  - intros [= <- <-] _. rewrite app_nil_r. by apply new_chan_inv.
  - destruct (chans w !! c) as [[cap ch]|] eqn:Ec; [|done]. simpl.
    destruct (send _ cap v _ ch) as [[out ps'] ch'] eqn:Es. intros [= <- <-] _.
    set (entries := match out with Offered => [(c, 0, true)] | _ => [] end).
    assert (I1 : inv (add_party PENDING_QUEUED entries w) evs).
    { apply add_party_inv; [done|]. destruct out; simpl; [constructor|apply NoDup_singleton|constructor..]. }
    apply (send_inv _ evs c cap ch v (Some (new_party w, 0)) out ps' ch' I1 Ec Es).
    + intros p arm [= <- <-] ->. exists (mkParty entries true). simpl. unfold new_party.
      rewrite lookup_app_r, Nat.sub_diag by lia. split; [done|]. split; [done|]. by left.
    + intros k o [= <-] Ho [= E _]. destruct (w_chan _ _ I c cap ch Ec) as (_ & Hin & _).
      destruct (i_offer _ _ _ _ Hin o Ho) as (x & Hx%lookup_lt_Some & _). unfold new_party in E. lia.
  - destruct (chans w !! c) as [[cap ch]|] eqn:Ec; [|done]. simpl.
    destruct (send _ cap v _ ch) as [[out ps'] ch'] eqn:Es. intros [= <- <-] _. by eapply send_inv.
  - intros _ Hr. by destruct (Hr c).
  - destruct (chans w !! c) as [[cap ch]|] eqn:Ec; [|done]. simpl. intros [= <- <-] _. rewrite app_nil_r.
    by apply park_inv.
  - intros [= <- <-] _. rewrite app_nil_r. apply add_party_inv; [done|constructor].
  - destruct (may_publish w p arm) as [entries|] eqn:Em; [|done]. simpl.
    destruct (chans w !! c) as [[cap ch]|] eqn:Ec; [|done]. simpl.
    destruct (closed ch) eqn:Hcl; simpl; [intros [= <- <-] _; by rewrite app_nil_r|].
    destruct (send_ready_for _ _ _ _) eqn:Er; intros [= <- <-] _; rewrite app_nil_r; [done|].
    apply (offer_inv _ evs c cap ch p arm v (publish_inv w evs p arm entries c true I Em) Ec Hcl);
      [by eapply published|by apply send_not_ready|].
    intros o Ho [= E1 E2]. destruct (may_publish_spec _ _ _ _ Em) as [Hp Hfresh].
    destruct (w_chan _ _ I c _ ch Ec) as (_ & Hin & _). destruct (i_offer _ _ _ _ Hin o Ho) as (x & Hx & _ & He).
    rewrite E1, Hp in Hx. injection Hx as <-. apply Hfresh, list_elem_of_fmap. by exists (c, o_arm o, true).
  - destruct (may_publish w p arm) as [entries|] eqn:Em; [|done]. simpl.
    destruct (chans w !! c) as [[cap ch]|] eqn:Ec; [|done]. simpl.
    destruct (closed ch) eqn:Hcl; simpl; [intros [= <- <-] _; by rewrite app_nil_r|].
    destruct (recv_ready_for _ _ _) eqn:Er; simpl; [intros [= <- <-] _; by rewrite app_nil_r|].
    destruct latched; intros [= <- <-] _; rewrite app_nil_r; [done|].
    pose proof (publish_inv w evs p arm entries c false I Em) as I1.
    destruct cap as [[|n]|]; [|by rewrite (list_insert_id (chans w)) by done..].
    apply (slot_inv _ evs c ch p arm I1 Ec Hcl); [by eapply published| |].
    + intros s Hin E. injection E as E1 E2. destruct (may_publish_spec _ _ _ _ Em) as [Hp Hfresh].
      destruct (w_chan _ _ I c _ ch Ec) as (_ & [_ Hs _ _ _] & _). destruct (Hs s Hin) as (x & Hx & _ & He).
      rewrite E1, Hp in Hx. injection Hx as <-. apply Hfresh, list_elem_of_fmap. by exists (c, s_arm s, false).
    + intros o Hin Hq. pose proof (recv_blocked _ _ _ Er o Hin Hq). congruence.
  - destruct (chans w !! c) as [[cap ch]|] eqn:Ec; [|done]. simpl.
    destruct (close (ps w) ch) as [ps' ch'] eqn:Ecl. intros [= <- <-] _. rewrite app_nil_r. by eapply close_inv.
  - destruct (parties w !! p) as [[entries lv]|] eqn:Ep; [|done]. simpl. destruct lv; [|done].
    destruct (settle_mut _ _ _ _) as [[r ps'] chs] eqn:Es. intros [= <- <-] _. by apply settle_inv.
Qed.

(** Only a send commits a party outside [pop], and then by a slot. *)
Lemma act_commits w evs o w' evs' p arm : inv w evs -> act w o = Some (w', evs') -> (forall c, o <> ORecv c) ->
  is_queued (ps w) p = true -> ps w' !! p = Some (PENDING_DONE + arm) -> exists c, entry (parties w) p (c, arm, false).
Proof.
  intros I Ha Hr Hq Hd. assert (Hst : ps w' = ps w \/ ps w' = ps w ++ [PENDING_QUEUED] -> False).
  { intros [E|E]; rewrite E in Hd; [by apply queued_not_done in Hd|]. by rewrite queued_app in Hd. }
  assert (Hsend : forall c cap ch v off out psq ps' ch', chans w !! c = Some (cap, ch) -> send psq cap v off ch = (out, ps', ch') ->
    is_queued psq p = true -> ps' !! p = Some (PENDING_DONE + arm) -> exists c, entry (parties w) p (c, arm, false)).
  { intros c cap ch v off out psq ps' ch' Ec Es Hq' Hd'. destruct (send_commits _ _ _ _ _ _ _ _ _ _ Es Hq' Hd') as (s & Hs & <- & <-).
    destruct (w_chan _ _ I c cap ch Ec) as (_ & Hin & _). exists c. by apply (i_slot _ _ _ _ Hin). }
  destruct o as [cap|c v|c v|c|c| |q a c v|q a c lat|c|q]; simpl in Ha.
  - injection Ha as <- <-. destruct Hst. by left.
  - destruct (chans w !! c) as [[cap ch]|] eqn:Ec; [|done]. simpl in Ha.
    destruct (send _ cap v _ ch) as [[out ps'] ch'] eqn:Es. injection Ha as <- <-. eapply Hsend; [done|done| |done].
    apply is_queued_spec. by apply queued_app.
  - destruct (chans w !! c) as [[cap ch]|] eqn:Ec; [|done]. simpl in Ha.
    destruct (send _ cap v _ ch) as [[out ps'] ch'] eqn:Es. injection Ha as <- <-. by eapply Hsend.
  - by destruct (Hr c).
  - destruct (chans w !! c) as [[cap ch]|] eqn:Ec; [|done]. injection Ha as <- <-. destruct Hst. by right.
  - injection Ha as <- <-. destruct Hst. by right.
  - destruct (may_publish w q a); [|done]. simpl in Ha. destruct (chans w !! c) as [[cap ch]|]; [|done]. simpl in Ha.
    destruct Hst. left. case_match; by injection Ha as <- <-.
  - destruct (may_publish w q a); [|done]. simpl in Ha. destruct (chans w !! c) as [[cap ch]|]; [|done]. simpl in Ha.
    destruct Hst. left. case_match; by injection Ha as <- <-.
  - destruct (chans w !! c) as [[cap ch]|] eqn:Ec; [|done]. simpl in Ha. unfold close in Ha. injection Ha as <- <-.
    destruct (close_store (ps w) (sendq ch)) as (_ & _ & Hc). apply Hc in Hd. by apply queued_not_done in Hd.
  - destruct (parties w !! q) as [[entries lv]|] eqn:Ep; [|done]. simpl in Ha. destruct lv; [|done].
    destruct (settle_mut _ _ _ _) as [[r ps'] chs] eqn:Es. injection Ha as <- <-. by eapply settle_commits in Hd.
Qed.

Lemma step_inv w evs o w' evs' : inv w evs -> step w o = Some (w', evs') -> inv w' (evs ++ evs').
Proof.
  intros I. unfold step. destruct (act w o) as [[w1 evs1]|] eqn:Ea; [|done]. intros [= <- <-].
  assert (Ho : (exists c, o = ORecv c) \/ forall c, o <> ORecv c) by (destruct o; try (by right); left; by eexists).
  destruct Ho as [[c ->]|Ho].
  - simpl in Ea. destruct (chans w !! c) as [[cap ch]|] eqn:Ec; [|done]. simpl in Ea.
    destruct (pop (ps w) ch) as [[r ps'] ch'] eqn:Ep. injection Ea as <- <-. by eapply recv_step_inv.
  - apply quiet_inv; [done|by eapply act_inv|]. intros p arm. by eapply act_commits.
Qed.

Lemma chan_reachable_inv w evs : reachable w evs -> inv w evs.
Proof.
  induction 1 as [|w evs o w' evs' _ IH Hs]; [|by eapply step_inv].
  constructor; simpl; intros; rewrite ?lookup_nil in *; done.
Qed.

(** ** What the protocol promises *)

(** C21: no value is lost or delivered twice.  In every run of sends, receives, parks, [wait:] arms,
    closes and settlements over any number of channels, the values that left their senders' hands on
    a channel are, as a multiset, those its receivers got plus those it still holds for them (in the
    buffer, or in the slot of a receiver that has not run yet).  A value has left its sender's hands
    when the send answered [Sent], or when the [Pending] of a blocked sender was committed to the arm
    of its offer, whichever operation committed it: the ledger is read off the senders' side. *)
Theorem chan_conserves w evs c cap ch :
  reachable w evs -> chans w !! c = Some (cap, ch) ->
  moved c evs ≡ₚ received c evs ++ queue ch ++ in_slots ch.
Proof.
  intros I%chan_reachable_inv Hc. destruct (w_chan _ _ I c cap ch Hc) as (Hok & _ & Hf).
  destruct (decide (cap = Some 0)) as [->|Hne].
  - destruct (c_cap _ _ _ Hok) as [-> _]. done.
  - unfold in_slots. rewrite (c_recvq _ _ _ Hok Hne). simpl. rewrite app_nil_r.
    destruct cap as [[|n]|]; [done|by simpl in Hf; rewrite Hf..].
Qed.

(** C34: a buffered channel is a bounded first-in first-out queue.  Its receivers get the values in the
    order in which they left the senders' hands (the send answered [Sent], or a step committed the
    blocked sender's offer), what is left being the buffer; the buffer never exceeds the capacity; and
    a rendezvous channel never buffers. *)
Theorem chan_fifo w evs c cap ch :
  reachable w evs -> chans w !! c = Some (cap, ch) ->
  (cap <> Some 0 -> moved c evs = received c evs ++ queue ch) /\
  (forall n, cap = Some n -> len ch <= n).
Proof.
  intros I%chan_reachable_inv Hc. destruct (w_chan _ _ I c cap ch Hc) as (Hok & _ & Hf).
  pose proof (c_cap _ _ _ Hok) as Hcap. unfold len. split.
  - intros Hne. by destruct cap as [[|n]|].
  - intros n ->. destruct n; [by destruct Hcap as [-> _]|by destruct Hcap].
Qed.

(** C36: nobody waits for what is there, and nobody overtakes.  On a bounded channel a sender is left
    waiting only while the buffer is full, so a send that finds room passes no earlier one; on an
    unbounded channel no sender waits; on a rendezvous channel a waiting sender and a waiting
    receiver are the same party (two arms of one [wait:]); and on a closed channel no sender waits
    and every receiver left was served. *)
Theorem chan_no_missed_pair w evs c cap ch :
  reachable w evs -> chans w !! c = Some (cap, ch) ->
  (forall o, o ∈ sendq ch -> is_queued (ps w) (o_p o) = true ->
     match cap with
     | None => False
     | Some O => forall s, s ∈ recvq ch -> s_got s = None -> is_queued (ps w) (s_p s) = true -> s_p s = o_p o
     | Some n => length (queue ch) = n
     end) /\
  (closed ch = true -> sendq ch = [] /\ Forall filled (recvq ch)).
Proof.
  intros I%chan_reachable_inv Hc. destruct (w_chan _ _ I c cap ch Hc) as (Hok & _ & _).
  split; [|apply (c_closed _ _ _ Hok)]. pose proof (c_cap _ _ _ Hok) as Hcap. intros o Ho Hq.
  destruct cap as [[|n]|].
  - destruct Hcap as [_ Hx]. intros s Hs Hg Hqs. symmetry. by apply Hx.
  - by apply (proj2 Hcap o).
  - by rewrite (Hcap o Ho) in Hq.
Qed.

(** A party learns exactly what happened to it.  [settle] answers [Sent] only if a receiver took
    the offer of that arm, [Got] with the value a sender put in the slot of that arm, [Closed] if a
    close reached it, and [Cancelled] only if nobody committed it; afterwards no channel holds an
    entry of the party and it can no longer be committed. *)
Lemma settle_exact w evs p entries r ps' chs' :
  reachable w evs -> parties w !! p = Some (mkParty entries true) ->
  settle_mut (ps w) (chans w) p entries = (r, ps', chs') ->
  ended w p entries r /\ is_queued ps' p = false /\
  forall c cap ch, chs' !! c = Some (cap, ch) ->
    (forall o, o ∈ sendq ch -> o_p o <> p) /\ (forall s, s ∈ recvq ch -> s_p s <> p).
Proof.
  intros I%chan_reachable_inv Hp Hs. destruct (settle_cases _ _ _ _ _ _ _ I Hp Hs) as (He & Hq & _).
  split; [done|]. split; [done|]. intros c cap ch Hc.
  pose proof (settle_inv _ _ _ _ _ _ _ I Hp Hs) as I'.
  destruct (w_chan _ _ I' c cap ch Hc) as (_ & [Ho Hsl _ _ _] & _). apply lookup_lt_Some in Hp.
  assert (Hgone : forall e, ~ entry (<[p := mkParty [] false]> (parties w)) p e).
  { intros e (x & Hx & Hlv & _). rewrite list_lookup_insert_eq in Hx by done. by injection Hx as <-. }
  split; [intros o Hin <-|intros s Hin <-]; [by eapply Hgone, Ho|by eapply Hgone, Hsl].
Qed.
End invariant.

(** ** A run

    A bounded channel with one place: a send, a second one that blocks, a receive that refills the
    buffer from the blocked sender.  Then a rendezvous: a parked receiver, a send into its slot. *)
Module ChannelDemo.
Definition ops : list (op nat) :=
  [ONewChan (Some 1); OSend 0 10; OSend 0 11; ORecv 0; ONewChan (Some 0); OPark 1; OSend 1 20].
Definition demo : World nat * list (event nat) := default (empty_world, []) (run empty_world [] ops).
Definition blocked : World nat * list (event nat) := default (empty_world, []) (run empty_world [] (firstn 3 ops)).

Lemma run_reachable (w : World nat) evs os w' evs' :
  reachable w evs -> run w evs os = Some (w', evs') -> reachable w' evs'.
Proof.
  revert w evs. induction os as [|o os IH]; intros w evs Hr; simpl; [by intros [= <- <-]|].
  destruct (step w o) as [[w1 e1]|] eqn:Es; [|done]. simpl. apply IH. by econstructor.
Qed.
Lemma demo_reachable : reachable demo.1 demo.2.
Proof. apply (run_reachable empty_world [] ops); [constructor|reflexivity]. Qed.
Lemma blocked_reachable : reachable blocked.1 blocked.2.
Proof. apply (run_reachable empty_world [] (firstn 3 ops)); [constructor|reflexivity]. Qed.
End ChannelDemo.
Import ChannelDemo.

Lemma chan_conserves_witness :
  moved 1 demo.2 = [20] /\ received 1 demo.2 = [] /\ moved 1 demo.2 ≡ₚ received 1 demo.2 ++ [] ++ [20].
Proof.
  split; [reflexivity|]. split; [reflexivity|].
  exact (chan_conserves demo.1 demo.2 1 (Some 0)
    (mkChan [] [] [mkSlot 2 0 (Some 20)] false false None) demo_reachable eq_refl).
Defined.

Lemma chan_fifo_witness :
  moved 0 demo.2 = [10; 11] /\ received 0 demo.2 = [10] /\
  (Some 1 <> Some 0 -> moved 0 demo.2 = received 0 demo.2 ++ [11]) /\ (forall n, Some 1 = Some n -> 1 <= n).
Proof.
  split; [reflexivity|]. split; [reflexivity|].
  exact (chan_fifo demo.1 demo.2 0 (Some 1) (mkChan [11] [] [] false false None) demo_reachable eq_refl).
Defined.

Lemma chan_no_missed_pair_witness :
  is_queued (ps blocked.1) 1 = true /\
  exists ch, chans blocked.1 !! 0 = Some (Some 1, ch) /\ mkOffer 1 0 11 ∈ sendq ch /\ length (queue ch) = 1.
Proof.
  split; [reflexivity|]. exists (mkChan [10] [mkOffer 1 0 11] [] false false None). split; [reflexivity|].
  split; [by left|].
  exact (proj1 (chan_no_missed_pair blocked.1 blocked.2 0 (Some 1)
    (mkChan [10] [mkOffer 1 0 11] [] false false None) blocked_reachable eq_refl)
    (mkOffer 1 0 11) (list_elem_of_here _ _) eq_refl).
Defined.


