(* ===== verification/Encoding.v ===== *)
(** * Text codecs: [src/src/native/encoding.rs]

    base64 (both alphabets), hex, RFC 3986 percent-encoding and query strings, on bytes.  A string
    argument is its UTF-8 bytes; an [Err] of the source is a constructor of [DecodeErr], one per
    message.  [slice::sort_by] on the query pairs is a stable sort by key ([merge_sort]). *)

From stdpp Require Import strings sorting.
From S2P Require Import Prelude Slice.
Local Open Scope Z_scope.
Local Open Scope chz_scope.

Inductive DecodeErr :=
| BadLength                  (* base64: invalid length (not a multiple of 4) *)
| MisplacedPadding           (* base64: misplaced padding *)
| DataAfterPadding           (* base64: data after padding *)
| InvalidCharacter (c : Z)   (* base64: invalid character *)
| NotUtf8 (codec : string)   (* decoded bytes are not valid UTF-8 *)
| OddLength                  (* hex: odd-length input *)
| InvalidHex                 (* hex: invalid hex digit *)
| TruncatedEscape            (* url: truncated percent-escape *)
| InvalidEscape.             (* url: invalid percent-escape *)

(** [String::from_utf8]'s check. *)
Definition cont (b : Z) : bool := (128 <=? b) && (b <=? 191).
Fixpoint utf8_valid (s : list Z) : bool :=
  match s with
  | [] => true
  | b0 :: s1 =>
      if b0 <? 128 then utf8_valid s1 else
      match s1 with
      | [] => false
      | b1 :: s2 =>
          if (194 <=? b0) && (b0 <=? 223) then cont b1 && utf8_valid s2 else
          match s2 with
          | [] => false
          | b2 :: s3 =>
              if (224 <=? b0) && (b0 <=? 239) then
                cont b1 && cont b2 && (negb (b0 =? 224) || (160 <=? b1)) &&
                (negb (b0 =? 237) || (b1 <=? 159)) && utf8_valid s3
              else
              match s3 with
              | [] => false
              | b3 :: s4 =>
                  (240 <=? b0) && (b0 <=? 244) && cont b1 && cont b2 && cont b3 &&
                  (negb (b0 =? 240) || (144 <=? b1)) && (negb (b0 =? 244) || (b1 <=? 143)) && utf8_valid s4
              end
          end
      end
  end.

(** ** base64 *)
Definition STD_ALPHABET : list Z :=
  text "ABCDEFGHIJKLMNOPQRSTUVWXYZabcdefghijklmnopqrstuvwxyz0123456789+/".
Definition URL_ALPHABET : list Z :=
  text "ABCDEFGHIJKLMNOPQRSTUVWXYZabcdefghijklmnopqrstuvwxyz0123456789-_".
Definition PAD : Z := 61.

Definition sextet (alphabet : list Z) (n k : Z) : Z :=
  nth (Z.to_nat (Z.land (Z.shiftr n k) 63)) alphabet 0.
Definition pack3 (b0 b1 b2 : Z) : Z := Z.lor (Z.lor (Z.shiftl b0 16) (Z.shiftl b1 8)) b2.

Fixpoint b64_encode (alphabet : list Z) (bytes : list Z) : list Z :=
  match bytes with
  | [] => []
  | [b0] =>
      let n := pack3 b0 0 0 in [sextet alphabet n 18; sextet alphabet n 12; PAD; PAD]
  | [b0; b1] =>
      let n := pack3 b0 b1 0 in
      [sextet alphabet n 18; sextet alphabet n 12; sextet alphabet n 6; PAD]
  | b0 :: b1 :: b2 :: rest =>
      let n := pack3 b0 b1 b2 in
      [sextet alphabet n 18; sextet alphabet n 12; sextet alphabet n 6; sextet alphabet n 0] ++
      b64_encode alphabet rest
  end.

(** The reverse table: 255 is "not in the alphabet". *)
Definition rev_table (alphabet : list Z) : list Z :=
  foldl (fun t ic => <[Z.to_nat ic.2 := Z.of_nat ic.1]> t) (replicate 256 255)
        (imap (fun i c => (i, c)) alphabet).

(** The inner loop over a quad, from position [j]; [last] is "the final quad". *)
Fixpoint quad_loop (rev : list Z) (last : bool) (j : nat) (cs : list Z) (pad : nat)
  : result (list Z * nat) DecodeErr :=
  match cs with
  | [] => Ok ([], pad)
  | c :: cs =>
      if c =? PAD then
        if negb last || (j <? 2)%nat then Err MisplacedPadding
        else match quad_loop rev last (S j) cs (S pad) with
             | Ok (vals, pad) => Ok (0 :: vals, pad) | Err e => Err e end
      else if (0 <? pad)%nat then Err DataAfterPadding
      else let v := nth (Z.to_nat c) rev 255 in
           if v =? 255 then Err (InvalidCharacter c)
           else match quad_loop rev last (S j) cs pad with
                | Ok (vals, pad) => Ok (v :: vals, pad) | Err e => Err e end
  end.

Definition u8 (n : Z) : Z := n mod 256.
Definition pack4 (v0 v1 v2 v3 : Z) : Z :=
  Z.lor (Z.lor (Z.lor (Z.shiftl v0 18) (Z.shiftl v1 12)) (Z.shiftl v2 6)) v3.
(** The bytes of a quad. *)
Definition quad_bytes (vals : list Z) (pad : nat) : list Z :=
  let n := pack4 (nth 0 vals 0) (nth 1 vals 0) (nth 2 vals 0) (nth 3 vals 0) in
  [u8 (Z.shiftr n 16)] ++ (if (pad <? 2)%nat then [u8 (Z.shiftr n 8)] else []) ++
  (if (pad <? 1)%nat then [u8 n] else []).

Fixpoint decode_quads (rev : list Z) (bytes : list Z) : result (list Z) DecodeErr :=
  match bytes with
  | c0 :: c1 :: c2 :: c3 :: rest =>
      match quad_loop rev (match rest with [] => true | _ => false end) 0 [c0; c1; c2; c3] 0 with
      | Err e => Err e
      | Ok (vals, pad) =>
          match decode_quads rev rest with
          | Ok out => Ok (quad_bytes vals pad ++ out)
          | Err e => Err e
          end
      end
  | _ => Ok []
  end.

Definition no_newline (s : list Z) : list Z := filter (fun b => b <> 13 /\ b <> 10) s.
Definition b64_decode (s alphabet : list Z) : result (list Z) DecodeErr :=
  let bytes := no_newline s in
  if negb (Z.of_nat (length bytes) mod 4 =? 0) then Err BadLength
  else decode_quads (rev_table alphabet) bytes.

Definition bytes_to_result (bytes : list Z) (codec : string) : result (list Z) DecodeErr :=
  if utf8_valid bytes then Ok bytes else Err (NotUtf8 codec).

Definition decode_str (alphabet s : list Z) : result (list Z) DecodeErr :=
  match b64_decode s alphabet with Ok bytes => bytes_to_result bytes "base64" | Err e => Err e end.
Definition base64_encode (s : list Z) : list Z := b64_encode STD_ALPHABET s.
Definition base64_encode_url (s : list Z) : list Z := b64_encode URL_ALPHABET s.
Definition base64_decode (s : list Z) : result (list Z) DecodeErr := decode_str STD_ALPHABET s.
Definition base64_decode_url (s : list Z) : result (list Z) DecodeErr := decode_str URL_ALPHABET s.
Definition base64_encode_bytes (b : list Z) : list Z := b64_encode STD_ALPHABET b.
Definition base64_decode_bytes (s : list Z) : result (list Z) DecodeErr := b64_decode s STD_ALPHABET.

(** ** hex *)
Definition to_digit16 (c : Z) : option Z :=
  if (48 <=? c) && (c <=? 57) then Some (c - 48)
  else if (97 <=? c) && (c <=? 102) then Some (c - 87)
  else if (65 <=? c) && (c <=? 70) then Some (c - 55)
  else None.
Definition hex_encode_bytes (bytes : list Z) : list Z := flat_map (hex_digits 2) bytes.
Fixpoint hex_pairs (bytes : list Z) : result (list Z) DecodeErr :=
  match bytes with
  | h :: l :: rest =>
      match to_digit16 h, to_digit16 l with
      | Some h, Some l => out <-- hex_pairs rest ;; Ok (u8 (h * 16 + l) :: out)
      | _, _ => Err InvalidHex
      end
  | _ => Ok []
  end.
Definition hex_decode (bytes : list Z) : result (list Z) DecodeErr :=
  if negb (Z.of_nat (length bytes) mod 2 =? 0) then Err OddLength
  else out <-- hex_pairs bytes ;; bytes_to_result out "hex".

(** ** Percent-encoding *)
Definition is_alnum (b : Z) : bool :=
  ((48 <=? b) && (b <=? 57)) || ((65 <=? b) && (b <=? 90)) || ((97 <=? b) && (b <=? 122)).
Definition is_unreserved (b : Z) : bool :=
  is_alnum b || (b =? 45) || (b =? 46) || (b =? 95) || (b =? 126).
Definition upper_hex (d : Z) : Z := if d <? 10 then 48 + d else 55 + d.
Definition PERCENT : Z := 37.
Definition PLUS : Z := 43.
Definition AMP : Z := 38.
Definition EQUALS : Z := 61.
Definition QMARK : Z := 63.

Definition percent_encode (s : list Z) : list Z :=
  flat_map (fun b => if is_unreserved b then [b] else [PERCENT; upper_hex (b / 16); upper_hex (b mod 16)]) s.
Fixpoint percent_decode (bytes : list Z) (plus_as_space : bool) : result (list Z) DecodeErr :=
  match bytes with
  | [] => Ok []
  | c :: rest =>
      if c =? PERCENT then
        match rest with
        | h :: l :: rest =>
            match to_digit16 h, to_digit16 l with
            | Some h, Some l => out <-- percent_decode rest plus_as_space ;; Ok (u8 (h * 16 + l) :: out)
            | _, _ => Err InvalidEscape
            end
        | _ => Err TruncatedEscape
        end
      else if plus_as_space && (c =? PLUS) then out <-- percent_decode rest plus_as_space ;; Ok (32 :: out)
      else out <-- percent_decode rest plus_as_space ;; Ok (c :: out)
  end.

Definition url_encode (s : list Z) : list Z := percent_encode s.
Definition url_decode (s : list Z) : result (list Z) DecodeErr :=
  out <-- percent_decode s false ;; bytes_to_result out "url".

(** ** Query strings *)
Abbreviation pair := (list Z * list Z)%type.

(** Byte-wise order of the keys. *)
Fixpoint bytes_le (a b : list Z) : bool :=
  match a, b with
  | [], _ => true
  | _, [] => false
  | x :: a, y :: b => (x <? y) || ((x =? y) && bytes_le a b)
  end.
Definition key_le (a b : pair) : Prop := bytes_le a.1 b.1 = true.
#[global] Instance key_le_dec : RelDecision key_le.
Proof. intros a b. unfold key_le. apply _. Defined.

Fixpoint join_pairs (pairs : list pair) : list Z :=
  match pairs with
  | [] => []
  | [kv] => percent_encode kv.1 ++ EQUALS :: percent_encode kv.2
  | kv :: pairs => percent_encode kv.1 ++ EQUALS :: percent_encode kv.2 ++ AMP :: join_pairs pairs
  end.
Definition query_encode (pairs : list pair) : list Z := join_pairs (merge_sort key_le pairs).

(** [str::split] on one byte: the segments between its occurrences. *)
Fixpoint split_on (c : Z) (s : list Z) : list (list Z) :=
  match s with
  | [] => [[]]
  | x :: s =>
      if x =? c then [] :: split_on c s
      else match split_on c s with seg :: segs => (x :: seg) :: segs | [] => [[x]] end
  end.
(** [str::split_once]. *)
Fixpoint split_once (c : Z) (s : list Z) : option pair :=
  match s with
  | [] => None
  | x :: s => if x =? c then Some ([], s)
              else match split_once c s with Some (a, b) => Some (x :: a, b) | None => None end
  end.

Definition decode_field (raw : list Z) : list Z :=
  match percent_decode raw true with
  | Ok b => if utf8_valid b then b else raw
  | Err _ => raw
  end.

(** The last value of a key at its first position. *)
Fixpoint put_pair (k v : list Z) (pairs : list pair) : list pair :=
  match pairs with
  | [] => [(k, v)]
  | (ek, ev) :: pairs => if decide (ek = k) then (ek, v) :: pairs else (ek, ev) :: put_pair k v pairs
  end.

Definition query_segment (pairs : list pair) (seg : list Z) : list pair :=
  match seg with
  | [] => pairs
  | _ => let '(k_raw, v_raw) := default (seg, []) (split_once EQUALS seg) in
         put_pair (decode_field k_raw) (decode_field v_raw) pairs
  end.
Definition query_decode (q : list Z) : list pair :=
  let q := match q with c :: rest => if c =? QMARK then rest else q | [] => q end in
  foldl query_segment [] (split_on AMP q).

(** ** base64: proofs *)
Section base64.
  Context (alphabet : list Z).

(** What the decoder relies on. *)
Record alphabet_ok : Prop := {
  al_length : length alphabet = 64%nat;
  al_nodup : NoDup alphabet;
  al_byte : Forall (fun c => 0 <= c < 256 /\ c <> PAD /\ c <> 13 /\ c <> 10) alphabet;
}.
  Context (Hal : alphabet_ok).

Lemma rev_other (al : list Z) off (t : list Z) c :
  (forall x, x ∈ al -> Z.to_nat x <> c) ->
  foldl (fun t ic => <[Z.to_nat ic.2 := Z.of_nat ic.1]> t) t (imap (fun i c => (off + i, c)%nat) al) !! c = t !! c.
Proof.
  revert off t. induction al as [|x al IH]; intros off t Hc; [done|]. cbn [imap foldl fst snd].
  assert (E : imap ((fun i c => ((off + i)%nat, c)) ∘ S) al = imap (fun i c => ((S off + i)%nat, c)) al).
  { apply imap_ext. intros. simpl. f_equal. lia. }
  rewrite E, IH; [|intros y Hy; apply Hc; by right]. rewrite list_lookup_insert_ne; [done|]. apply Hc. by left.
Qed.

Lemma rev_at (al : list Z) off (t : list Z) i c :
  length t = 256%nat -> NoDup al -> Forall (fun c => 0 <= c < 256) al -> al !! i = Some c ->
  foldl (fun t ic => <[Z.to_nat ic.2 := Z.of_nat ic.1]> t) t (imap (fun i c => (off + i, c)%nat) al) !! Z.to_nat c
    = Some (Z.of_nat (off + i)).
Proof.
  revert off t i. induction al as [|x al IH]; intros off t i Ht Hnd Hall Hi; [done|].
  apply list.NoDup_cons in Hnd as [Hx Hn]. apply list.Forall_cons in Hall as [Hb Hbs].
  cbn [imap foldl fst snd].
  assert (E : imap ((fun i c => ((off + i)%nat, c)) ∘ S) al = imap (fun i c => ((S off + i)%nat, c)) al).
  { apply imap_ext. intros. simpl. f_equal. lia. }
  rewrite E. destruct i as [|i]; simpl in Hi.
  - injection Hi as ->. rewrite rev_other.
    + by rewrite list_lookup_insert_eq by lia.
    + intros y Hy Ey. rewrite list.Forall_forall in Hbs. specialize (Hbs y Hy).
      assert (y = c) as -> by lia. done.
  - etrans; [apply (IH (S off) _ i); [by rewrite length_insert|done..]|]. f_equal. lia.
Qed.

Lemma al_bytes : Forall (fun c => 0 <= c < 256) alphabet.
Proof. eapply list.Forall_impl; [apply (al_byte Hal)|]. by intros c [? _]. Qed.

Lemma rev_table_at i c : alphabet !! i = Some c -> nth (Z.to_nat c) (rev_table alphabet) 255 = Z.of_nat i.
Proof.
  intros Hi. apply nth_lookup_Some. unfold rev_table. rewrite <- (Nat.add_0_l i).
  apply (rev_at alphabet 0 (replicate 256 255) i c);
    [apply length_replicate|apply (al_nodup Hal)|apply al_bytes|done].
Qed.

Lemma rev_table_out c : 0 <= c < 256 -> c ∉ alphabet -> nth (Z.to_nat c) (rev_table alphabet) 255 = 255.
Proof.
  intros Hc Hn. apply nth_lookup_Some. unfold rev_table.
  etrans; [apply (rev_other alphabet 0 (replicate 256 255) (Z.to_nat c))|].
  - intros x Hx E. pose proof al_bytes as Hb. rewrite list.Forall_forall in Hb. specialize (Hb x Hx).
    assert (x = c) as -> by lia. done.
  - apply lookup_replicate. split; [done|lia].
Qed.

(** A character that stands for [v]. *)
Lemma sextet_char v c :
  0 <= v < 64 -> c = nth (Z.to_nat v) alphabet 0 ->
  (c =? PAD) = false /\ nth (Z.to_nat c) (rev_table alphabet) 255 = v /\ (v =? 255) = false.
Proof.
  intros Hv ->. destruct (lookup_lt_is_Some_2 alphabet (Z.to_nat v)) as [c Hc]; [rewrite (al_length Hal); lia|].
  rewrite (nth_lookup_Some _ _ _ _ Hc), (rev_table_at _ _ Hc).
  pose proof (al_byte Hal) as Hb. rewrite list.Forall_forall in Hb.
  specialize (Hb c ltac:(by eapply list_elem_of_lookup_2)). split; [apply Z.eqb_neq; tauto|].
  split; [lia|apply Z.eqb_neq; lia].
Qed.

Lemma pack3_eq b0 b1 b2 :
  0 <= b0 < 256 -> 0 <= b1 < 256 -> 0 <= b2 < 256 -> pack3 b0 b1 b2 = b0 * 65536 + b1 * 256 + b2.
Proof.
  intros H0 H1 H2. unfold pack3. rewrite !Z.shiftl_mul_pow2 by lia.
  rewrite lor_low by lia. change (2 ^ 16) with 65536. change (2 ^ 8) with 256.
  replace (b0 * 65536 + b1 * 256) with ((b0 * 256 + b1) * 2 ^ 8) by lia.
  rewrite lor_low by lia. change (2 ^ 8) with 256. lia.
Qed.

Lemma pack4_eq v0 v1 v2 v3 :
  0 <= v1 < 64 -> 0 <= v2 < 64 -> 0 <= v3 < 64 ->
  pack4 v0 v1 v2 v3 = v0 * 262144 + v1 * 4096 + v2 * 64 + v3.
Proof.
  intros H1 H2 H3. unfold pack4. rewrite !Z.shiftl_mul_pow2 by lia. rewrite lor_low by lia.
  replace (v0 * 2 ^ 18 + v1 * 2 ^ 12) with ((v0 * 64 + v1) * 2 ^ 12) by lia. rewrite lor_low by lia.
  replace ((v0 * 64 + v1) * 2 ^ 12 + v2 * 2 ^ 6) with (((v0 * 64 + v1) * 64 + v2) * 2 ^ 6) by lia.
  rewrite lor_low by lia. lia.
Qed.

Definition bits6 (n k : Z) : Z := (n / 2 ^ k) mod 64.
Lemma sextet_eq n k : 0 <= k -> sextet alphabet n k = nth (Z.to_nat (bits6 n k)) alphabet 0.
Proof.
  intros Hk. unfold sextet, bits6. rewrite Z.shiftr_div_pow2 by done.
  change 63 with (2 ^ 6 - 1). by rewrite land_low by lia.
Qed.
Lemma bits6_bound n k : 0 <= bits6 n k < 64.
Proof. apply Z.mod_pos_bound. lia. Qed.

Lemma bits6_pack n : 0 <= n < 16777216 ->
  bits6 n 18 * 262144 + bits6 n 12 * 4096 + bits6 n 6 * 64 + bits6 n 0 = n.
Proof.
  intros Hn. unfold bits6. change (2 ^ 18) with 262144. change (2 ^ 12) with 4096. change (2 ^ 6) with 64.
  change (2 ^ 0) with 1. rewrite Z.div_1_r.
  pose proof (Z.div_mod n 64 ltac:(lia)). pose proof (Z.div_mod (n / 64) 64 ltac:(lia)).
  pose proof (Z.div_mod (n / 4096) 64 ltac:(lia)).
  assert (n / 4096 = n / 64 / 64) by (rewrite Z.div_div by lia; done).
  assert (n / 262144 = n / 4096 / 64) by (rewrite Z.div_div by lia; done).
  assert (0 <= n / 262144 < 64) by (split; [apply Z.div_pos; lia|apply Z.div_lt_upper_bound; lia]).
  rewrite (Z.mod_small (n / 262144) 64) by lia. lia.
Qed.

(** The three bytes of a packed value. *)
Lemma unpack3 b0 b1 b2 n :
  0 <= b0 < 256 -> 0 <= b1 < 256 -> 0 <= b2 < 256 -> n = b0 * 65536 + b1 * 256 + b2 ->
  u8 (Z.shiftr n 16) = b0 /\ u8 (Z.shiftr n 8) = b1 /\ u8 n = b2.
Proof.
  intros H0 H1 H2 ->. unfold u8. rewrite !Z.shiftr_div_pow2 by lia.
  change (2 ^ 16) with 65536. change (2 ^ 8) with 256.
  replace ((b0 * 65536 + b1 * 256 + b2) / 65536) with b0
    by (apply Z.div_unique with (b1 * 256 + b2); lia).
  replace ((b0 * 65536 + b1 * 256 + b2) / 256) with (b0 * 256 + b1)
    by (apply Z.div_unique with b2; lia).
  split; [apply Z.mod_small; lia|]. split; symmetry.
  - apply Z.mod_unique with b0; lia.
  - apply Z.mod_unique with (b0 * 256 + b1); lia.
Qed.

Definition quad_ok (last : bool) (c0 c1 c2 c3 : Z) : bool :=
  let rev := rev_table alphabet in
  let p c := c =? PAD in
  let a c := negb (p c) && negb (nth (Z.to_nat c) rev 255 =? 255) in
  a c0 && a c1 && (if a c2 then a c3 || (last && p c3) else last && p c2 && p c3).

Lemma quad_loop_ok last c0 c1 c2 c3 :
  (exists r, quad_loop (rev_table alphabet) last 0 [c0; c1; c2; c3] 0 = Ok r) <-> quad_ok last c0 c1 c2 c3 = true.
Proof.
  unfold quad_ok. cbn [quad_loop Nat.ltb Nat.leb orb].
  rewrite !orb_true_r, !orb_false_r.
  destruct last, (c0 =? PAD), (c1 =? PAD), (c2 =? PAD), (c3 =? PAD),
    (nth (Z.to_nat c0) (rev_table alphabet) 255 =? 255), (nth (Z.to_nat c1) (rev_table alphabet) 255 =? 255),
    (nth (Z.to_nat c2) (rev_table alphabet) 255 =? 255), (nth (Z.to_nat c3) (rev_table alphabet) 255 =? 255);
    simpl; (split; [by intros [r E]; try discriminate E | intros E; try discriminate E; by eexists]).
Qed.

(** Quads that stand for full or padded byte groups. *)
Lemma quad_full last v0 v1 v2 v3 :
  0 <= v0 < 64 -> 0 <= v1 < 64 -> 0 <= v2 < 64 -> 0 <= v3 < 64 ->
  quad_loop (rev_table alphabet) last 0
    [nth (Z.to_nat v0) alphabet 0; nth (Z.to_nat v1) alphabet 0; nth (Z.to_nat v2) alphabet 0;
     nth (Z.to_nat v3) alphabet 0] 0 = Ok ([v0; v1; v2; v3], 0%nat).
Proof.
  intros H0 H1 H2 H3. cbn [quad_loop].
  destruct (sextet_char v0 _ H0 eq_refl) as (-> & -> & ->), (sextet_char v1 _ H1 eq_refl) as (-> & -> & ->),
    (sextet_char v2 _ H2 eq_refl) as (-> & -> & ->), (sextet_char v3 _ H3 eq_refl) as (-> & -> & ->). done.
Qed.
Lemma quad_pad1 v0 v1 v2 :
  0 <= v0 < 64 -> 0 <= v1 < 64 -> 0 <= v2 < 64 ->
  quad_loop (rev_table alphabet) true 0
    [nth (Z.to_nat v0) alphabet 0; nth (Z.to_nat v1) alphabet 0; nth (Z.to_nat v2) alphabet 0; PAD] 0
    = Ok ([v0; v1; v2; 0], 1%nat).
Proof.
  intros H0 H1 H2. cbn [quad_loop].
  destruct (sextet_char v0 _ H0 eq_refl) as (-> & -> & ->), (sextet_char v1 _ H1 eq_refl) as (-> & -> & ->),
    (sextet_char v2 _ H2 eq_refl) as (-> & -> & ->). done.
Qed.
Lemma quad_pad2 v0 v1 :
  0 <= v0 < 64 -> 0 <= v1 < 64 ->
  quad_loop (rev_table alphabet) true 0 [nth (Z.to_nat v0) alphabet 0; nth (Z.to_nat v1) alphabet 0; PAD; PAD] 0
    = Ok ([v0; v1; 0; 0], 2%nat).
Proof.
  intros H0 H1. cbn [quad_loop].
  destruct (sextet_char v0 _ H0 eq_refl) as (-> & -> & ->), (sextet_char v1 _ H1 eq_refl) as (-> & -> & ->). done.
Qed.

(** The bytes a quad gives back, from the value its sextets cut. *)
Lemma quad_back b0 b1 b2 :
  0 <= b0 < 256 -> 0 <= b1 < 256 -> 0 <= b2 < 256 ->
  let n := pack3 b0 b1 b2 in
  quad_bytes [bits6 n 18; bits6 n 12; bits6 n 6; bits6 n 0] 0 = [b0; b1; b2].
Proof.
  intros H0 H1 H2 n. unfold quad_bytes. cbn [nth]. rewrite pack4_eq by apply bits6_bound.
  subst n. rewrite pack3_eq by done. rewrite bits6_pack by lia.
  destruct (unpack3 b0 b1 b2 _ H0 H1 H2 eq_refl) as (-> & -> & ->). done.
Qed.

Lemma bits6_zero b0 b1 :
  bits6 (b0 * 65536 + b1 * 256 + 0) 0 = 0 /\ bits6 (b0 * 65536 + 0 * 256 + 0) 6 = 0.
Proof.
  unfold bits6. change (2 ^ 0) with 1. change (2 ^ 6) with 64. rewrite Z.div_1_r. split.
  - replace (b0 * 65536 + b1 * 256 + 0) with ((b0 * 1024 + b1 * 4) * 64) by lia. apply Z.mod_mul. lia.
  - replace (b0 * 65536 + 0 * 256 + 0) with (b0 * 1024 * 64) by lia. rewrite Z.div_mul by lia.
    replace (b0 * 1024) with (b0 * 16 * 64) by lia. apply Z.mod_mul. lia.
Qed.

Lemma decode_encode_quads bytes :
  Forall (fun b => 0 <= b < 256) bytes ->
  decode_quads (rev_table alphabet) (b64_encode alphabet bytes) = Ok bytes.
Proof.
  remember (length bytes) as k eqn:Ek. revert bytes Ek.
  induction (lt_wf k) as [k _ IH]. intros bytes Ek Hb.
  destruct bytes as [|b0 [|b1 [|b2 rest]]]; [done| | |]; cbn [b64_encode app];
    rewrite !sextet_eq by lia; cbn [decode_quads];
    repeat match goal with H : Forall _ (_ :: _) |- _ => apply list.Forall_cons in H as [? H] end.
  - rewrite quad_pad2 by apply bits6_bound.
    pose proof (quad_back b0 0 0 ltac:(done) ltac:(lia) ltac:(lia)) as Hq. cbv zeta in Hq.
    rewrite pack3_eq in * by lia. destruct (bits6_zero b0 0) as [E0 E6]. rewrite E0, E6 in Hq.
    unfold quad_bytes in *. simpl in *. by injection Hq as ->.
  - rewrite quad_pad1 by apply bits6_bound.
    pose proof (quad_back b0 b1 0 ltac:(done) ltac:(done) ltac:(lia)) as Hq. cbv zeta in Hq.
    rewrite pack3_eq in * by lia. destruct (bits6_zero b0 b1) as [E0 _]. rewrite E0 in Hq.
    unfold quad_bytes in *. simpl in *. by injection Hq as -> ->.
  - rewrite quad_full by apply bits6_bound. rewrite quad_back by done.
    rewrite (IH (length rest)); [done|simpl in Ek; lia|done|done].
Qed.

Lemma encode_length bytes : Z.of_nat (length (b64_encode alphabet bytes)) mod 4 = 0.
Proof.
  remember (length bytes) as k eqn:Ek. revert bytes Ek. induction (lt_wf k) as [k _ IH]. intros bytes Ek.
  destruct bytes as [|b0 [|b1 [|b2 rest]]]; [done..|]. cbn [b64_encode].
  rewrite length_app, Nat2Z.inj_add. simpl (Z.of_nat (length [_; _; _; _])).
  rewrite Z.add_mod, (IH (length rest)) by (simpl in Ek; lia). done.
Qed.

Lemma b64_decode_encode bytes s :
  Forall (fun b => 0 <= b < 256) bytes -> no_newline s = b64_encode alphabet bytes ->
  b64_decode s alphabet = Ok bytes.
Proof.
  intros Hb Hs. unfold b64_decode. rewrite Hs, encode_length. simpl. by apply decode_encode_quads.
Qed.

(** Which texts the decoder accepts. *)
Definition well_padded (s : list Z) : Prop :=
  exists data k, (k <= 2)%nat /\ s = data ++ replicate k PAD /\ Forall (fun c => c ∈ alphabet) data.

Lemma alpha_char c : 0 <= c < 256 ->
  (negb (c =? PAD) && negb (nth (Z.to_nat c) (rev_table alphabet) 255 =? 255)) = true <-> c ∈ alphabet.
Proof.
  intros Hc. rewrite andb_true_iff, !negb_true_iff, !Z.eqb_neq. split.
  - intros [_ H]. destruct (decide (c ∈ alphabet)) as [|Hn]; [done|]. by rewrite rev_table_out in H.
  - intros Hin. pose proof (al_byte Hal) as Hb. rewrite list.Forall_forall in Hb. destruct (Hb c Hin) as (_ & ? & _).
    split; [done|]. apply list_elem_of_lookup in Hin as [i Hi]. rewrite (rev_table_at i c Hi).
    apply lookup_lt_Some in Hi. rewrite (al_length Hal) in Hi. lia.
Qed.

Lemma pad_not_alpha : PAD ∉ alphabet.
Proof.
  intros Hin. pose proof (al_byte Hal) as Hb. rewrite list.Forall_forall in Hb.
  by destruct (Hb _ Hin) as (_ & ? & _).
Qed.

Lemma quad_ok_spec last c0 c1 c2 c3 :
  Forall (fun c => 0 <= c < 256) [c0; c1; c2; c3] ->
  quad_ok last c0 c1 c2 c3 = true <->
  c0 ∈ alphabet /\ c1 ∈ alphabet /\
  ((c2 ∈ alphabet /\ c3 ∈ alphabet) \/ (last = true /\ c2 ∈ alphabet /\ c3 = PAD) \/
   (last = true /\ c2 = PAD /\ c3 = PAD)).
Proof.
  intros Hb. repeat match goal with H : Forall _ (_ :: _) |- _ =>
    let Hc := fresh "Hc" in apply list.Forall_cons in H as [Hc H] end.
  pose proof (alpha_char c0 ltac:(done)) as H0. pose proof (alpha_char c1 ltac:(done)) as H1.
  pose proof (alpha_char c2 ltac:(done)) as H2. pose proof (alpha_char c3 ltac:(done)) as H3.
  pose proof pad_not_alpha as Hp. unfold quad_ok. cbv zeta.
  set (a0 := negb (c0 =? PAD) && _) in *. set (a1 := negb (c1 =? PAD) && _) in *.
  set (a2 := negb (c2 =? PAD) && _) in *. set (a3 := negb (c3 =? PAD) && _) in *.
  rewrite !andb_true_iff, H0, H1. clear H0 H1.
  assert (Hif : (if a2 then a3 || last && (c3 =? PAD) else last && (c2 =? PAD) && (c3 =? PAD)) = true <->
    ((c2 ∈ alphabet /\ c3 ∈ alphabet) \/ (last = true /\ c2 ∈ alphabet /\ c3 = PAD) \/
     (last = true /\ c2 = PAD /\ c3 = PAD))); [|tauto].
  destruct a2; rewrite ?orb_true_iff, ?andb_true_iff, ?H3, ?Z.eqb_eq.
  - assert (c2 ∈ alphabet) by (by apply H2). split; [tauto|]. intros [?|[?|(_ & -> & _)]]; tauto.
  - assert (c2 ∉ alphabet) by (by intros ?%H2). tauto.
Qed.

Lemma well_padded_nil : well_padded [].
Proof. exists [], 0%nat. split; [lia|]. by split. Qed.

Lemma quads_accept bytes :
  Forall (fun c => 0 <= c < 256) bytes -> Z.of_nat (length bytes) mod 4 = 0 ->
  (exists bs, decode_quads (rev_table alphabet) bytes = Ok bs) <-> well_padded bytes.
Proof.
  remember (length bytes) as k eqn:Ek. revert bytes Ek. induction (lt_wf k) as [k _ IH]. intros bytes Ek Hb Hm.
  destruct bytes as [|c0 [|c1 [|c2 [|c3 rest]]]]; try (subst k; discriminate Hm).
  { split; [intros _|by eexists]. apply well_padded_nil. }
  assert (Hb4 : Forall (fun c => 0 <= c < 256) [c0; c1; c2; c3]) by (by apply (Forall_take _ 4) in Hb).
  assert (Hrest : Forall (fun c => 0 <= c < 256) rest) by (by apply (Forall_drop _ 4) in Hb).
  assert (Hm' : Z.of_nat (length rest) mod 4 = 0).
  { subst k. rewrite <- Hm. simpl (length (_ :: _)). rewrite !Nat2Z.inj_succ.
    replace (Z.succ (Z.succ (Z.succ (Z.succ (Z.of_nat (length rest)))))) with (Z.of_nat (length rest) + 1 * 4) by lia.
    by rewrite Z.mod_add. }
  pose proof (IH (length rest) ltac:(simpl in Ek; lia) rest eq_refl Hrest Hm') as IHr.
  set (last := match rest with [] => true | _ => false end).
  transitivity (quad_ok last c0 c1 c2 c3 = true /\ well_padded rest).
  { cbn [decode_quads]. fold last. rewrite <- IHr, <- quad_loop_ok.
    destruct (quad_loop _ last 0 _ 0) as [[vals pad]|e]; [|split; [by intros [] | by intros [[] _]]].
    destruct (decode_quads _ rest); [|split; [by intros []|by intros [_ []]]].
    split; [intros _; by eauto|by eauto]. }
  rewrite quad_ok_spec by done. clear IH IHr Hm Hb Ek. split.
  - intros ((H0 & H1 & H2) & data & j & Hj & Er & Hd). destruct H2 as [[H2 H3]|H2].
    + exists (c0 :: c1 :: c2 :: c3 :: data), j. split; [done|]. rewrite Er. split; [done|]. by repeat constructor.
    + assert (El : rest = []) by (destruct rest; [done|]; destruct H2 as [[? _]|[? _]]; discriminate). rewrite El.
      destruct H2 as [(_ & H2 & ->)|(_ & -> & ->)].
      * exists [c0; c1; c2], 1%nat. split; [lia|]. split; [done|]. by repeat constructor.
      * exists [c0; c1], 2%nat. split; [lia|]. split; [done|]. by repeat constructor.
  - intros (data & j & Hj & Er & Hd). destruct rest as [|r0 rest].
    + destruct data as [|d0 [|d1 [|d2 [|d3 data]]]]; destruct j as [|[|[|j]]]; try lia; simpl in Er;
        simplify_eq;
        repeat match goal with H : Forall _ (_ :: _) |- _ => apply list.Forall_cons in H as [? H] end.
      all: split; [by auto 10|apply well_padded_nil].
    + assert (Hlen : (4 <= length data)%nat).
      { apply (f_equal length) in Er. rewrite length_app, length_replicate in Er.
        destruct rest as [|r1 [|r2 [|r3 rest]]]; try discriminate Hm'. simpl in Er. lia. }
      destruct data as [|d0 [|d1 [|d2 [|d3 data]]]]; simpl in Hlen; try lia. simpl in Er. injection Er as -> -> -> -> Er.
      repeat match goal with H : Forall _ (_ :: _) |- _ => apply list.Forall_cons in H as [? H] end.
      split; [by auto 10|]. by exists data, j.
Qed.
End base64.

Lemma std_ok : alphabet_ok STD_ALPHABET.
Proof. split; [reflexivity|apply (bool_decide_unpack _); vm_compute; exact I..]. Qed.
Lemma url_ok : alphabet_ok URL_ALPHABET.
Proof. split; [reflexivity|apply (bool_decide_unpack _); vm_compute; exact I..]. Qed.

(** Base64 round trips.  The encoding of any bytes, with line breaks put anywhere into it, decodes
    to those bytes; the text members do so for every string, in both alphabets. *)
Lemma base64_roundtrip (bs s : list Z) (Hb : Forall (fun b => 0 <= b < 256) bs) :
  (no_newline s = base64_encode_bytes bs -> base64_decode_bytes s = Ok bs) /\
  (utf8_valid bs = true -> no_newline s = base64_encode bs -> base64_decode s = Ok bs) /\
  (utf8_valid bs = true -> no_newline s = base64_encode_url bs -> base64_decode_url s = Ok bs).
Proof.
  split; [|split].
  - by apply (b64_decode_encode STD_ALPHABET std_ok).
  - intros Hu Hs. unfold base64_decode, decode_str.
    rewrite (b64_decode_encode STD_ALPHABET std_ok bs s Hb Hs). unfold bytes_to_result. by rewrite Hu.
  - intros Hu Hs. unfold base64_decode_url, decode_str.
    rewrite (b64_decode_encode URL_ALPHABET url_ok bs s Hb Hs). unfold bytes_to_result. by rewrite Hu.
Qed.

(** The base64 decoder is strict.  It accepts a text exactly when, its line breaks dropped, the
    text has a multiple of four characters, all of the alphabet except at most two padding signs,
    which end it; in particular each decoder refuses the other alphabet's own characters. *)
Lemma base64_accepts (alphabet s : list Z) :
  alphabet ∈ [STD_ALPHABET; URL_ALPHABET] -> Forall (fun c => 0 <= c < 256) s ->
  (exists bs, b64_decode s alphabet = Ok bs) <->
  Z.of_nat (length (no_newline s)) mod 4 = 0 /\
  exists data k, (k <= 2)%nat /\ no_newline s = data ++ replicate k PAD /\ Forall (fun c => c ∈ alphabet) data.
Proof.
  intros Ha Hs.
  assert (Hal : alphabet_ok alphabet).
  { rewrite !elem_of_cons in Ha. destruct Ha as [->|[->|[]%elem_of_nil]]; [apply std_ok|apply url_ok]. }
  assert (Hc : Forall (fun c => 0 <= c < 256) (no_newline s)).
  { rewrite list.Forall_forall in *. intros c [_ Hin]%list_elem_of_filter. by apply Hs. }
  unfold b64_decode. destruct (Z.eqb_spec (Z.of_nat (length (no_newline s)) mod 4) 0) as [E|E]; simpl.
  - rewrite (quads_accept alphabet Hal _ Hc E). unfold well_padded. tauto.
  - split; [by intros []|tauto].
Qed.

(** ** Percent-encoding, hex and query strings: proofs *)
Definition byte_list (s : list Z) : Prop := Forall (fun b => 0 <= b < 256) s.

Lemma hex_digit_back d : 0 <= d < 16 -> to_digit16 (hex_digit d) = Some d /\ to_digit16 (upper_hex d) = Some d.
Proof.
  intros Hd. unfold to_digit16, hex_digit, upper_hex.
  destruct (d <? 10) eqn:E; [apply Z.ltb_lt in E|apply Z.ltb_ge in E];
    repeat case_match; split; f_equal; lia.
Qed.

Lemma byte_nibbles b : 0 <= b < 256 -> 0 <= b / 16 < 16 /\ 0 <= b mod 16 < 16 /\ u8 (b / 16 * 16 + b mod 16) = b.
Proof.
  intros Hb. pose proof (Z.div_mod b 16 ltac:(lia)). pose proof (Z.mod_pos_bound b 16 ltac:(lia)).
  split; [split; [apply Z.div_pos; lia|apply Z.div_lt_upper_bound; lia]|]. split; [done|].
  unfold u8. rewrite Z.mod_small; lia.
Qed.

Lemma hex_back s : byte_list s -> hex_pairs (hex_encode_bytes s) = Ok s /\ Z.of_nat (length (hex_encode_bytes s)) mod 2 = 0.
Proof.
  intros Hs. induction Hs as [|b s Hb Hs [IH IHl]]; [done|]. cbn [hex_encode_bytes flat_map].
  destruct (byte_nibbles b Hb) as (H1 & H2 & H3).
  assert (E : hex_digits 2 b = [hex_digit (b / 16); hex_digit (b mod 16)]).
  { cbn [hex_digits app]. by rewrite (Z.mod_small (b / 16)) by lia. }
  rewrite E. cbn [app hex_pairs]. destruct (hex_digit_back _ H1) as [-> _], (hex_digit_back _ H2) as [-> _].
  fold (hex_encode_bytes s). rewrite IH, H3. split; [done|]. cbn [length]. rewrite !Nat2Z.inj_succ.
  replace (Z.succ (Z.succ (Z.of_nat (length (hex_encode_bytes s))))) with (Z.of_nat (length (hex_encode_bytes s)) + 1 * 2) by lia.
  by rewrite Z.mod_add.
Qed.

(** Characters that never stand for themselves. *)
Definition safe (c : Z) : Prop := c <> AMP /\ c <> EQUALS /\ c <> QMARK /\ c <> PLUS.

Lemma unreserved_safe b : is_unreserved b = true -> safe b /\ b <> PERCENT.
Proof.
  unfold is_unreserved, is_alnum, safe, AMP, EQUALS, QMARK, PLUS, PERCENT. intros H.
  repeat split; intros ->; discriminate H.
Qed.

Lemma upper_hex_safe d : 0 <= d < 16 -> safe (upper_hex d).
Proof.
  intros Hd. unfold safe, upper_hex, AMP, EQUALS, QMARK, PLUS.
  destruct (d <? 10) eqn:E; [apply Z.ltb_lt in E|apply Z.ltb_ge in E]; lia.
Qed.

Lemma percent_back s plus : byte_list s -> percent_decode (percent_encode s) plus = Ok s.
Proof.
  intros Hs. induction Hs as [|b s Hb Hs IH]; [done|]. unfold percent_encode in *. cbn [flat_map].
  destruct (is_unreserved b) eqn:Eu; cbn [app percent_decode].
  - destruct (unreserved_safe b Eu) as [(_ & _ & _ & Hp) Hpc].
    rewrite (proj2 (Z.eqb_neq _ _) Hpc), (proj2 (Z.eqb_neq _ _) Hp), andb_false_r, IH. done.
  - rewrite Z.eqb_refl. destruct (byte_nibbles b Hb) as (H1 & H2 & H3).
    destruct (hex_digit_back _ H1) as [_ ->], (hex_digit_back _ H2) as [_ ->]. by rewrite IH, H3.
Qed.

Lemma percent_safe s : byte_list s -> Forall safe (percent_encode s).
Proof.
  intros Hs. induction Hs as [|b s Hb Hs IH]; [constructor|]. unfold percent_encode in *. cbn [flat_map].
  apply Forall_app. split; [|done]. destruct (is_unreserved b) eqn:Eu.
  - constructor; [by apply unreserved_safe|constructor].
  - destruct (byte_nibbles b Hb) as (H1 & H2 & _).
    repeat constructor; try done; by apply upper_hex_safe.
Qed.

(** Hex and percent-encoding round trip: [hex_decode] and [url_decode] undo their encoders on
    every string. *)
Lemma hex_url_roundtrip (s : list Z) :
  byte_list s -> utf8_valid s = true ->
  hex_decode (hex_encode_bytes s) = Ok s /\ url_decode (url_encode s) = Ok s.
Proof.
  intros Hs Hu. unfold hex_decode, url_decode, url_encode, bytes_to_result. destruct (hex_back s Hs) as [E1 E2].
  rewrite E2, E1, percent_back by done. simpl. by rewrite Hu.
Qed.


Lemma split_on_none c s : Forall (fun x => x <> c) s -> split_on c s = [s].
Proof.
  intros Hs. induction Hs as [|x s Hx _ IH]; [done|]. simpl. by rewrite (proj2 (Z.eqb_neq _ _) Hx), IH.
Qed.
Lemma split_on_app c s t : Forall (fun x => x <> c) s -> split_on c (s ++ c :: t) = s :: split_on c t.
Proof.
  intros Hs. induction Hs as [|x s Hx _ IH]; simpl; [by rewrite Z.eqb_refl|].
  by rewrite (proj2 (Z.eqb_neq _ _) Hx), IH.
Qed.
Lemma split_once_app c s t : Forall (fun x => x <> c) s -> split_once c (s ++ c :: t) = Some (s, t).
Proof.
  intros Hs. induction Hs as [|x s Hx _ IH]; simpl; [by rewrite Z.eqb_refl|].
  by rewrite (proj2 (Z.eqb_neq _ _) Hx), IH.
Qed.

Lemma put_pair_new k v pairs : k ∉ pairs.*1 -> put_pair k v pairs = pairs ++ [(k, v)].
Proof.
  induction pairs as [|[ek ev] pairs IH]; intros Hk; [done|]. simpl in *.
  rewrite decide_False by (intros ->; apply Hk; by left). rewrite IH; [done|]. intros ?. apply Hk. by right.
Qed.

Definition pair_ok (kv : pair) : Prop :=
  byte_list kv.1 /\ byte_list kv.2 /\ utf8_valid kv.1 = true /\ utf8_valid kv.2 = true.
Definition segment (kv : pair) : list Z := percent_encode kv.1 ++ EQUALS :: percent_encode kv.2.

Lemma decode_field_back s : byte_list s -> utf8_valid s = true -> decode_field (percent_encode s) = s.
Proof. intros Hs Hu. unfold decode_field. by rewrite percent_back, Hu by done. Qed.

Lemma query_segment_back acc kv :
  pair_ok kv -> kv.1 ∉ acc.*1 -> query_segment acc (segment kv) = acc ++ [kv].
Proof.
  intros (H1 & H2 & H3 & H4) Hk. destruct kv as [k v]. simpl in *. unfold query_segment.
  destruct (segment (k, v)) eqn:E; [by apply app_eq_nil in E as [_ E]|]. rewrite <- E. unfold segment. simpl.
  rewrite split_once_app.
  - simpl. rewrite !decode_field_back by done. by apply put_pair_new.
  - eapply list.Forall_impl; [by apply percent_safe|]. by intros c (_ & ? & _).
Qed.

Lemma segment_no_amp kv : pair_ok kv -> Forall (fun x => x <> AMP) (segment kv).
Proof.
  intros (H1 & H2 & _). unfold segment. apply Forall_app.
  split; [|constructor; [done|]]; (eapply list.Forall_impl; [by apply percent_safe|]; by intros c [? _]).
Qed.

Lemma join_split kv pairs :
  Forall pair_ok (kv :: pairs) -> split_on AMP (join_pairs (kv :: pairs)) = segment <$> kv :: pairs.
Proof.
  revert kv. induction pairs as [|kv' pairs IH]; intros kv Hok.
  - apply list.Forall_cons in Hok as [Hk _]. rewrite split_on_none; [done|]. by apply segment_no_amp.
  - apply list.Forall_cons in Hok as [Hk Hok].
    change (join_pairs (kv :: kv' :: pairs)) with (percent_encode kv.1 ++ EQUALS :: percent_encode kv.2 ++ AMP :: join_pairs (kv' :: pairs)).
    rewrite app_comm_cons, (assoc_L (++)). change (percent_encode kv.1 ++ EQUALS :: percent_encode kv.2) with (segment kv).
    rewrite split_on_app by (by apply segment_no_amp). by rewrite IH.
Qed.

Lemma segments_back acc pairs :
  Forall pair_ok pairs -> NoDup ((acc ++ pairs).*1) -> foldl query_segment acc (segment <$> pairs) = acc ++ pairs.
Proof.
  revert acc. induction pairs as [|kv pairs IH]; intros acc Hok Hn; [by rewrite app_nil_r|].
  apply list.Forall_cons in Hok as [Hk Hok]. cbn [fmap list_fmap foldl].
  rewrite query_segment_back; [|done|].
  - rewrite IH; [by rewrite <- (assoc_L (++))|done|]. by rewrite <- (assoc_L (++)).
  - rewrite fmap_app in Hn. apply list.NoDup_app in Hn as (_ & Hd & _). intros Hin. apply (Hd _ Hin). by left.
Qed.

(** A query string carries a map.  Decoding the encoding of any pairs with distinct keys gives
    those pairs, in the order of their keys' bytes; reserved characters, spaces and plus signs in
    keys or values included. *)
Lemma query_roundtrip (pairs : list pair) :
  Forall pair_ok pairs -> NoDup pairs.*1 ->
  query_decode (query_encode pairs) = merge_sort key_le pairs /\ merge_sort key_le pairs ≡ₚ pairs.
Proof.
  intros Hok Hn. assert (Hp : merge_sort key_le pairs ≡ₚ pairs) by apply merge_sort_Permutation.
  split; [|done]. unfold query_encode. set (l := merge_sort key_le pairs) in *.
  assert (Hok' : Forall pair_ok l) by (by rewrite Hp).
  assert (Hn' : NoDup (([] ++ l).*1)) by (simpl; by rewrite Hp).
  rewrite <- (app_nil_l l) at 2. rewrite <- segments_back by done. unfold query_decode.
  destruct l as [|kv l]; [done|]. rewrite <- join_split by done. f_equal. f_equal.
  apply list.Forall_cons in Hok' as [(H1 & H2 & _) _].
  assert (Hhd : exists c rest, join_pairs (kv :: l) = c :: rest /\ c <> QMARK).
  { pose proof (percent_safe _ H1) as Hs.
    assert (E : exists t, join_pairs (kv :: l) = percent_encode kv.1 ++ EQUALS :: t) by (destruct l; by eexists).
    destruct E as [t E]. destruct (percent_encode kv.1) as [|c rest]; [by exists EQUALS, t|].
    apply list.Forall_cons in Hs as [(_ & _ & ? & _) _]. by exists c, (rest ++ EQUALS :: t). }
  destruct Hhd as (c & rest & -> & Hc). by rewrite (proj2 (Z.eqb_neq _ _) Hc).
Qed.

