(* ===== verification/Slab.v ===== *)
(** * Slot storage: [src/src/vm/heap_slab.rs]

    The slab keeps its slots in geometric segments that never move, and [SlotBits] keeps one mark bit
    per slot, segmented alike.  An uninitialized cell of a segment is [None] in its storage, a null
    table entry is [None] in the table.  Slot numbers are [nat]; a bit word is a [Z] in
    [0 .. 2^64).  The append token ([SlabAppend]) serializes the appends and has no state.

    The reference is a flat vector: [slab_rep s l] says the slab [s] holds exactly the slots [l]. *)

From S2P Require Import Prelude.
Local Open Scope nat_scope.

(** ** Geometry *)
Definition FIRST_BITS : nat := 2.
Definition SEGS : nat := 33 - FIRST_BITS.

(** [((1 << FIRST_BITS) >> 1 << k) & !((1 << FIRST_BITS) - 1)]. *)
Definition seg_start (k : nat) : nat :=
  Nat.ldiff (Nat.shiftl (Nat.shiftr (Nat.shiftl 1 FIRST_BITS) 1) k) (Nat.shiftl 1 FIRST_BITS - 1).
Definition seg_cap (k : nat) : nat := Nat.max (seg_start k) (Nat.shiftl 1 FIRST_BITS).
(** [(i | 3).ilog2() + 1 - FIRST_BITS], and the offset in that segment. *)
Definition locate (i : nat) : nat * nat :=
  let k := Nat.log2 (Nat.lor i (Nat.shiftl 1 FIRST_BITS - 1)) + 1 - FIRST_BITS in
  (k, i - seg_start k).
Definition seg_len (k len : nat) : nat := Nat.min (len - seg_start k) (seg_cap k).
Definition seg_count (len : nat) : nat := if len =? 0 then 0 else (locate (len - 1)).1 + 1.
Definition seg_words (k : nat) : nat := (seg_cap k + 63) / 64.
Definition LOW_SLOTS : nat := 64.

(** ** The slab *)
Section slab.
  Context {T : Type}.

(** [Slot]: the object, or a hole. *)
Abbreviation Slot := (option T).
Record Slab := mkSlab { segs : list (option (list (option Slot))); len : nat }.
Definition new_slab : Slab := mkSlab (replicate SEGS None) 0.

Definition seg_base (s : Slab) (k : nat) : option (list (option Slot)) := mjoin (segs s !! k).

(** [Slab::get]: [None] is the [out_of_range] panic; reading a null segment or an uninitialized cell
    would be undefined behaviour and is [None] too. *)
Definition get (s : Slab) (i : nat) : option Slot :=
  if len s <=? i then None
  else let '(k, off) := locate i in st ← seg_base s k; mjoin (st !! off).

(** A store through [Slab::slot_mut]. *)
Definition set_slot (s : Slab) (i : nat) (x : Slot) : option Slab :=
  if len s <=? i then None
  else let '(k, off) := locate i in
       st ← seg_base s k; Some (mkSlab (<[k := Some (<[off := Some x]> st)]> (segs s)) (len s)).

(** [for j in off..off + n { seg.add(j).write(Slot { obj: None }) }]. *)
Fixpoint write_holes (st : list (option Slot)) (off n : nat) : list (option Slot) :=
  match n with
  | O => st
  | S n => write_holes (<[off := Some None]> st) (S off) n
  end.

(** How many slots one append adds. *)
Definition push_count (len max : nat) : nat :=
  let '(k, off) := locate len in
  if len <? LOW_SLOTS then 1 else Nat.max (Nat.min max (seg_cap k - off)) 1.

(** [Slab::push_holes]: the new slab and the dense numbers [start .. start + n). *)
Definition push_holes (s : Slab) (max : nat) : option (Slab * (nat * nat)) :=
  let start := len s in
  if (2 ^ 32 <=? Z.of_nat start)%Z then None
  else
    let '(k, off) := locate start in
    let n := push_count start max in
    seg ← (if off =? 0 then Some (replicate (seg_cap k) None) else seg_base s k);
    Some (mkSlab (<[k := Some (write_holes seg off n)]> (segs s)) (start + n), (start, start + n)).

(** [Slab::segments_mut]: each segment's first slot number and its initialized slots. *)
Definition seg_slots (s : Slab) (k : nat) : list Slot :=
  omap id (take (seg_len k (len s)) (default [] (seg_base s k))).
Definition segments (s : Slab) : list (nat * list Slot) :=
  (fun k => (seg_start k, seg_slots s k)) <$> seq 0 (seg_count (len s)).
(** The same segments after the sweep wrote them in place. *)
Definition write_segments (s : Slab) (new : list (list Slot)) : Slab :=
  mkSlab (imap (fun k seg => match seg, new !! k with
                             | Some st, Some l => Some ((Some <$> l) ++ drop (length l) st)
                             | _, _ => seg
                             end) (segs s)) (len s).
(** [Slab::iter]. *)
Definition iter (s : Slab) : list Slot := (segments s).*2 ≫= id.
End slab.
Arguments Slab : clear implicits.

(** ** [SlotBits] *)
Record SlotBits := mkBits { low : Z; table : option (list (option (list Z))) }.
Definition no_bits : SlotBits := mkBits 0 None.

Definition words (b : SlotBits) (k : nat) : option (list Z) := t ← table b; mjoin (t !! k).
Definition bit_of (i : nat) : Z := Z.shiftl 1 (Z.of_nat (Nat.land i 63)).

(** [SlotBits::word]: the word of slot [i] and the bit's mask. *)
Definition word (b : SlotBits) (i : nat) : option (Z * Z) :=
  if i <? LOW_SLOTS then Some (low b, Z.shiftl 1 (Z.of_nat i))
  else let '(k, off) := locate i in
       ws ← words b k; w ← ws !! Nat.shiftr off 6; Some (w, bit_of off).

(** A store to that word. *)
Definition store_word (b : SlotBits) (i : nat) (w : Z) : SlotBits :=
  if i <? LOW_SLOTS then mkBits w (table b)
  else let '(k, off) := locate i in
       mkBits (low b) ((fun t => alter (fmap (<[Nat.shiftr off 6 := w]>)) k t) <$> table b).

(** [alloc_words]: the table and the segment's words, zeroed, when absent. *)
Definition alloc_words (b : SlotBits) (k : nat) : SlotBits :=
  let t := default (replicate SEGS None) (table b) in
  match mjoin (t !! k) with
  | Some _ => mkBits (low b) (Some t)
  | None => mkBits (low b) (Some (<[k := Some (replicate (seg_words k) 0%Z)]> t))
  end.
Definition word_or_alloc (b : SlotBits) (i : nat) : SlotBits :=
  match word b i with Some _ => b | None => alloc_words b (locate i).1 end.

Definition bits_get (b : SlotBits) (i : nat) : bool :=
  match word b i with Some (w, bit) => negb (Z.land w bit =? 0)%Z | None => false end.
(** [fetch_and(!bit)]. *)
Definition bits_clear (b : SlotBits) (i : nat) : SlotBits :=
  match word b i with Some (w, bit) => store_word b i (Z.ldiff w bit) | None => b end.
(** [set_owned]: whether the bit was clear, and the bits with it set. *)
Definition set_owned (b : SlotBits) (i : nat) : bool * SlotBits :=
  let b := word_or_alloc b i in
  match word b i with
  | Some (old, bit) => ((Z.land old bit =? 0)%Z, store_word b i (Z.lor old bit))
  | None => (false, b)
  end.

(** [segment_words(start)], word [(idx >> 6) - (start >> 6)]: how the sweep reads a mark. *)
Definition segment_words (b : SlotBits) (start : nat) : list Z :=
  if start <? LOW_SLOTS then [low b] else default [] (words b (locate start).1).
Definition segment_mark (b : SlotBits) (start idx : nat) : bool :=
  match segment_words b start !! (Nat.shiftr idx 6 - Nat.shiftr start 6) with
  | Some w => negb (Z.land w (bit_of idx) =? 0)%Z
  | None => false
  end.

(** ** Geometry: the segments tile the slot numbers *)
Lemma seg_start_0 : seg_start 0 = 0.
Proof. reflexivity. Qed.
Lemma seg_start_S k : seg_start (S k) = 2 ^ (S (S k)).
Proof.
  unfold seg_start, FIRST_BITS. change (Nat.shiftr (Nat.shiftl 1 2) 1) with 2.
  change (Nat.shiftl 1 2 - 1) with (Nat.ones 2).
  rewrite Nat.shiftl_mul_pow2, Nat.ldiff_ones_r, Nat.shiftr_div_pow2, Nat.shiftl_mul_pow2.
  change (2 ^ 2) with 4. replace (2 * 2 ^ S k) with (2 ^ k * 4) by (simpl; lia).
  rewrite Nat.div_mul by lia. simpl. lia.
Qed.
Lemma seg_cap_eq k : seg_cap k = 2 ^ Nat.max 2 (S k).
Proof.
  unfold seg_cap, FIRST_BITS. change (Nat.shiftl 1 2) with 4. destruct k as [|k]; [reflexivity|].
  rewrite seg_start_S. assert (4 <= 2 ^ S (S k)); [|rewrite !Nat.max_l, Nat.max_r by lia; done].
  change 4 with (2 ^ 2). apply Nat.pow_le_mono_r; lia.
Qed.
Lemma seg_next k : seg_start (S k) = seg_start k + seg_cap k.
Proof.
  rewrite seg_cap_eq, seg_start_S. destruct k as [|k]; [reflexivity|].
  rewrite seg_start_S, Nat.max_r by lia. simpl. lia.
Qed.
Lemma seg_start_mono j k : j <= k -> seg_start j <= seg_start k.
Proof. induction 1; [done|]. rewrite seg_next. lia. Qed.
Lemma seg_cap_pos k : 4 <= seg_cap k.
Proof. rewrite seg_cap_eq. change 4 with (2 ^ 2). apply Nat.pow_le_mono_r; lia. Qed.

Lemma locate_seg i : (locate i).1 = Nat.log2 (Nat.max i 3) - 1.
Proof.
  unfold locate, FIRST_BITS. change (Nat.shiftl 1 2 - 1) with 3. simpl fst.
  rewrite Nat.log2_lor. change (Nat.log2 3) with 1.
  destruct (Nat.max_spec i 3) as [[Hi ->]|[Hi ->]].
  - change (Nat.log2 3) with 1. destruct i as [|[|[|]]]; [done..|lia].
  - pose proof (Nat.log2_le_mono 3 i Hi) as H. change (Nat.log2 3) with 1 in H. lia.
Qed.

(** Slot [i] lies in the segment [locate] names. *)
Lemma locate_spec i :
  seg_start (locate i).1 <= i < seg_start (S (locate i).1) /\ (locate i).2 = i - seg_start (locate i).1.
Proof.
  split; [|reflexivity]. rewrite locate_seg.
  destruct (Nat.max_spec i 3) as [[Hi ->]|[Hi ->]].
  - change (Nat.log2 3 - 1) with 0. rewrite seg_start_0. split; [lia|]. change (seg_start 1) with 4. lia.
  - pose proof (Nat.log2_spec i) as [H1 H2]; [lia|].
    pose proof (Nat.log2_le_mono 3 i Hi) as H. change (Nat.log2 3) with 1 in H.
    destruct (Nat.log2 i) as [|[|l]]; [lia| |].
    + change (seg_start (1 - 1)) with 0. change (seg_start (S (1 - 1))) with 4.
      change (2 ^ 2) with 4 in H2. lia.
    + replace (S (S l) - 1) with (S l) by lia. rewrite !seg_start_S. done.
Qed.

Lemma locate_off i : (locate i).2 < seg_cap (locate i).1.
Proof. destruct (locate_spec i) as [H ->]. rewrite seg_next in H. lia. Qed.

(** Any segment and offset are where [locate] finds the slot. *)
Lemma locate_at k off : off < seg_cap k -> locate (seg_start k + off) = (k, off).
Proof.
  intros Ho. destruct (locate_spec (seg_start k + off)) as [[H1 H2] H3].
  destruct (locate (seg_start k + off)) as [k' o'] eqn:E. simpl in *.
  assert (k' = k) as ->; [|f_equal; lia].
  destruct (Nat.lt_total k' k) as [Hlt|[?|Hlt]]; [|done|]; exfalso.
  - pose proof (seg_start_mono (S k') k Hlt). lia.
  - pose proof (seg_start_mono (S k) k' Hlt). rewrite seg_next in *. lia.
Qed.

Lemma locate_inj i j : locate i = locate j -> i = j.
Proof.
  intros E. destruct (locate_spec i) as [Hi Hi2], (locate_spec j) as [Hj Hj2].
  rewrite E in *. lia.
Qed.

Lemma locate_bound i : (Z.of_nat i < 2 ^ 32)%Z -> (locate i).1 < SEGS.
Proof.
  intros Hi. rewrite locate_seg. unfold SEGS, FIRST_BITS.
  destruct (Nat.max_spec i 3) as [[Hm ->]|[Hm ->]]; [change (Nat.log2 3) with 1; lia|].
  assert (Nat.log2 i < 32); [|lia]. apply Nat.log2_lt_pow2; [lia|].
  apply Nat2Z.inj_lt. rewrite Nat2Z.inj_pow. exact Hi.
Qed.

Lemma locate_mono i j : i <= j -> (locate i).1 <= (locate j).1.
Proof. intros H. rewrite !locate_seg. apply Nat.sub_le_mono_r, Nat.log2_le_mono. lia. Qed.
#[local] Opaque locate seg_start seg_cap.

(** ** The slab is a growing vector *)
Section rep.
  Context {T : Type}.
Implicit Types (s : Slab T) (l : list (option T)).

Record slab_rep s l : Prop := {
  sr_len : len s = length l;
  sr_max : (Z.of_nat (len s) <= 2 ^ 32)%Z;
  sr_segs : length (segs s) = SEGS;
  sr_caps : forall k st, seg_base s k = Some st -> length st = seg_cap k;
  sr_cell : forall i x, l !! i = Some x ->
    exists st, seg_base s (locate i).1 = Some st /\ st !! (locate i).2 = Some (Some x);
}.

Lemma new_slab_rep : slab_rep new_slab [].
Proof.
  split; [done|simpl; lia|apply length_replicate| |done].
  intros k st. unfold seg_base, new_slab. cbn [segs].
  destruct (_ !! k) eqn:E; [|done]. by apply lookup_replicate in E as [-> _].
Qed.

Lemma rep_get s l i : slab_rep s l -> get s i = l !! i.
Proof.
  intros R. unfold get. destruct (Nat.leb_spec (len s) i) as [Hi|Hi].
  - symmetry. apply lookup_ge_None. by rewrite <- (sr_len _ _ R).
  - rewrite (sr_len _ _ R) in Hi. apply lookup_lt_is_Some_2 in Hi as [x Hx]. rewrite Hx.
    destruct (sr_cell _ _ R i x Hx) as (st & E1 & E2). destruct (locate i) as [k off]. simpl in *.
    by rewrite E1; simpl; rewrite E2.
Qed.

(** The base of a segment after a table store. *)
Lemma seg_base_insert (sg : list (option (list (option (option T))))) n n' k j x :
  k < length sg -> seg_base (mkSlab (<[k := x]> sg) n) j = if decide (j = k) then x else seg_base (mkSlab sg n') j.
Proof.
  intros Hk. unfold seg_base. simpl. case_decide as E.
  - subst. by rewrite list_lookup_insert_eq.
  - by rewrite list_lookup_insert_ne.
Qed.

Lemma rep_cell_bound s l i : slab_rep s l -> i < length l -> (locate i).1 < SEGS.
Proof. intros R Hi. apply locate_bound. pose proof (sr_max _ _ R). rewrite (sr_len _ _ R) in *. lia. Qed.

Lemma rep_set s l i x : slab_rep s l -> i < length l ->
  exists s', set_slot s i x = Some s' /\ slab_rep s' (<[i := x]> l).
Proof.
  intros R Hi. unfold set_slot. rewrite (sr_len _ _ R), (proj2 (Nat.leb_gt _ _) Hi).
  pose proof (rep_cell_bound _ _ _ R Hi) as Hk. pose proof (locate_off i) as Ho.
  destruct (lookup_lt_is_Some_2 l i Hi) as [y Hy]. destruct (sr_cell _ _ R i y Hy) as (st & E1 & E2).
  destruct (locate i) as [k off] eqn:El. simpl in *. rewrite E1. simpl. eexists; split; [reflexivity|].
  pose proof (sr_caps _ _ R k st E1) as Hst. rewrite <- (sr_segs _ _ R) in Hk.
  split; simpl.
  - by rewrite length_insert.
  - rewrite <- (sr_len _ _ R). apply (sr_max _ _ R).
  - rewrite length_insert. apply (sr_segs _ _ R).
  - intros j st'. rewrite (seg_base_insert _ _ (len s)) by done. case_decide as E.
    + subst. intros [= <-]. by rewrite length_insert.
    + intros Hj. by apply (sr_caps _ _ R).
  - intros j z Hz. rewrite (seg_base_insert _ _ (len s)) by done.
    destruct (decide (j = i)) as [->|Hne].
    + rewrite El. simpl. rewrite decide_True by done. rewrite list_lookup_insert_eq in Hz by done.
      injection Hz as ->. eexists; split; [reflexivity|]. by rewrite list_lookup_insert_eq by lia.
    + rewrite list_lookup_insert_ne in Hz by done. destruct (sr_cell _ _ R j z Hz) as (st' & F1 & F2).
      case_decide as E; [|by eauto]. rewrite E in F1. rewrite E1 in F1. injection F1 as <-.
      eexists; split; [reflexivity|]. rewrite list_lookup_insert_ne; [done|].
      intros Heq. apply Hne, locate_inj. rewrite El. destruct (locate j); simpl in *. by subst.
Qed.

Lemma write_holes_lookup (st : list (option (option T))) off n j :
  write_holes st off n !! j = if decide (off <= j < off + n /\ j < length st) then Some (Some None) else st !! j.
Proof.
  revert st off. induction n as [|n IH]; intros st off; simpl.
  - by rewrite decide_False by lia.
  - rewrite IH, length_insert. destruct (decide (j = off)) as [->|Hne].
    + rewrite decide_False by lia. destruct (decide (off < length st)).
      * by rewrite list_lookup_insert_eq, decide_True by lia.
      * rewrite decide_False by lia. by rewrite list_insert_ge by lia.
    + rewrite list_lookup_insert_ne by done. repeat case_decide; try done; lia.
Qed.
Lemma write_holes_length (st : list (option (option T))) off n : length (write_holes st off n) = length st.
Proof. revert st off. induction n; intros; simpl; [done|]. by rewrite IHn, length_insert. Qed.

Lemma push_count_bound n max :
  1 <= push_count n max <= Nat.max max 1 /\ (locate n).2 + push_count n max <= seg_cap (locate n).1.
Proof.
  unfold push_count. pose proof (locate_off n) as Ho. destruct (locate n) as [k off]. simpl in *.
  destruct (n <? LOW_SLOTS); lia.
Qed.

(** The cells an append leaves alone are those of the old slots. *)
Lemma rep_push s l max : slab_rep s l -> (Z.of_nat (length l) < 2 ^ 32)%Z ->
  exists s', push_holes s max = Some (s', (length l, length l + push_count (length l) max)) /\
    slab_rep s' (l ++ replicate (push_count (length l) max) None).
Proof.
  intros R Hl. unfold push_holes. rewrite (sr_len _ _ R), (proj2 (Z.leb_gt _ _) Hl).
  pose proof (locate_bound _ Hl) as Hk. rewrite <- (sr_segs _ _ R) in Hk.
  destruct (push_count_bound (length l) max) as [Hn Hn2]. set (n := push_count (length l) max) in *.
  destruct (locate_spec (length l)) as [Hspec Hoff].
  destruct (locate (length l)) as [k off] eqn:El. simpl in Hk, Hn2, Hspec, Hoff.
  assert (Hseg : exists seg, (if off =? 0 then Some (replicate (seg_cap k) None) else seg_base s k) = Some seg /\
    length seg = seg_cap k /\ (off <> 0 -> seg_base s k = Some seg)).
  { destruct (Nat.eqb_spec off 0) as [E|E].
    - eexists; split; [reflexivity|]. split; [apply length_replicate|done].
    - destruct (lookup_lt_is_Some_2 l (seg_start k)) as [x Hx]; [lia|].
      destruct (sr_cell _ _ R _ _ Hx) as (st & E1 & _).
      pose proof (locate_at k 0 ltac:(lia)) as E0. rewrite Nat.add_0_r in E0. rewrite E0 in E1.
      exists st. split; [done|]. split; [by apply (sr_caps _ _ R)|done]. }
  destruct Hseg as (seg & -> & Hcap & Hold). simpl. eexists; split; [reflexivity|]. split; simpl.
  - by rewrite length_app, length_replicate.
  - assert (length l + n <= seg_start (S k)) by (rewrite seg_next; lia).
    assert (Hk2 : S k <= SEGS) by (rewrite <- (sr_segs _ _ R); lia).
    pose proof (seg_start_mono _ _ Hk2) as Hm. change SEGS with (S 30) in Hm. rewrite (seg_start_S 30) in Hm.
    apply Nat2Z.inj_le in Hm. rewrite Nat2Z.inj_pow in Hm. change (Z.of_nat 2 ^ Z.of_nat 32)%Z with (2 ^ 32)%Z in Hm. lia.
  - rewrite length_insert. apply (sr_segs _ _ R).
  - intros j st. rewrite (seg_base_insert _ _ (len s)) by done. case_decide as E.
    + subst. intros [= <-]. by rewrite write_holes_length.
    + intros Hj. by apply (sr_caps _ _ R).
  - intros j z. rewrite (seg_base_insert _ _ (len s)) by done. rewrite lookup_app_Some.
    intros [Hz|[Hge [-> Hlt]%lookup_replicate]].
    + destruct (sr_cell _ _ R j z Hz) as (st & F1 & F2). pose proof (lookup_lt_Some _ _ _ Hz) as Hj.
      case_decide as E; [|by eauto]. eexists; split; [reflexivity|]. rewrite write_holes_lookup.
      destruct (locate_spec j) as [Hj1 Hj2]. rewrite E in *. rewrite Hold in F1 by lia. injection F1 as <-.
      by rewrite decide_False by lia.
    + assert (Hj : locate j = (k, j - seg_start k)).
      { rewrite <- (locate_at k (j - seg_start k)) by lia. f_equal. lia. }
      rewrite Hj. simpl. rewrite decide_True by done. eexists; split; [reflexivity|].
      rewrite write_holes_lookup, decide_True; [done|lia].
Qed.

(** Segment [k] of a flat vector. *)
Definition flat_seg {A} (l : list A) (k : nat) : list A := take (seg_cap k) (drop (seg_start k) l).

Lemma seg_count_cover n : n <= seg_start (seg_count n).
Proof.
  unfold seg_count. destruct (Nat.eqb_spec n 0) as [->|Hn]; [lia|].
  destruct (locate_spec (n - 1)) as [H _]. rewrite Nat.add_1_r. lia.
Qed.
Lemma seg_count_start n k : k < seg_count n -> seg_start k < n.
Proof.
  unfold seg_count. destruct (Nat.eqb_spec n 0) as [->|Hn]; [lia|]. intros Hk.
  destruct (locate_spec (n - 1)) as [H _]. pose proof (seg_start_mono k (locate (n - 1)).1 ltac:(lia)). lia.
Qed.
Lemma flat_seg_concat {A} (l : list A) n : mjoin (flat_seg l <$> seq 0 n) = take (seg_start n) l.
Proof.
  induction n as [|n IH]; [done|].
  rewrite seq_S, fmap_app, join_app, IH, seg_next. simpl. rewrite app_nil_r. unfold flat_seg.
  apply take_take_drop.
Qed.
Lemma flat_segs {A} (l : list A) : mjoin (flat_seg l <$> seq 0 (seg_count (length l))) = l.
Proof. rewrite flat_seg_concat. apply take_ge, seg_count_cover. Qed.

Lemma flat_seg_lookup {A} (l : list A) k j :
  flat_seg l k !! j = if decide (j < seg_cap k) then l !! (seg_start k + j) else None.
Proof.
  unfold flat_seg. case_decide.
  - by rewrite lookup_take_lt, lookup_drop.
  - by rewrite lookup_take_ge by lia.
Qed.

Lemma rep_seg_cells s l k : slab_rep s l -> k < seg_count (length l) ->
  exists st, seg_base s k = Some st /\ take (seg_len k (len s)) st = Some <$> flat_seg l k.
Proof.
  intros R Hk. apply seg_count_start in Hk as Hs.
  destruct (lookup_lt_is_Some_2 l _ Hs) as [x Hx]. destruct (sr_cell _ _ R _ _ Hx) as (st & E1 & _).
  pose proof (locate_at k 0 ltac:(pose proof (seg_cap_pos k); lia)) as E0. rewrite Nat.add_0_r in E0.
  rewrite E0 in E1. exists st. split; [done|]. rewrite (sr_len _ _ R). apply list_eq. intros j.
  rewrite list_lookup_fmap, flat_seg_lookup. unfold seg_len.
  destruct (decide (j < Nat.min (length l - seg_start k) (seg_cap k))) as [Hj|Hj].
  - rewrite lookup_take_lt, decide_True by lia. destruct (lookup_lt_is_Some_2 l (seg_start k + j)) as [y Hy]; [lia|].
    rewrite Hy. destruct (sr_cell _ _ R _ _ Hy) as (st' & F1 & F2). rewrite (locate_at k j) in F1, F2 by lia.
    simpl in *. congruence.
  - rewrite lookup_take_ge by lia. case_decide; [|done]. by rewrite lookup_ge_None_2 by lia.
Qed.

Lemma rep_segments s l : slab_rep s l ->
  segments s = (fun k => (seg_start k, flat_seg l k)) <$> seq 0 (seg_count (length l)).
Proof.
  intros R. unfold segments. rewrite (sr_len _ _ R). apply list_fmap_ext. intros i k Hk.
  apply lookup_seq in Hk as [-> Hk]. f_equal. unfold seg_slots.
  destruct (rep_seg_cells s l (0 + i) R ltac:(lia)) as (st & -> & E). simpl default. rewrite E.
  clear E. induction (flat_seg l (0 + i)) as [|x xs IH]; [done|]. cbn. f_equal. exact IH.
Qed.

Lemma rep_iter s l : slab_rep s l -> iter s = l.
Proof.
  intros R. unfold iter. rewrite (rep_segments _ _ R), <- list_fmap_compose.
  rewrite <- (flat_segs l) at 2. rewrite list_join_bind. reflexivity.
Qed.

Lemma rep_write_segments s l l' : slab_rep s l -> length l' = length l ->
  slab_rep (write_segments s (flat_seg l' <$> seq 0 (seg_count (length l)))) l'.
Proof.
  intros R El. set (new := flat_seg l' <$> _).
  assert (Hnew : forall k, new !! k = if decide (k < seg_count (length l)) then Some (flat_seg l' k) else None).
  { intros k. unfold new. rewrite list_lookup_fmap. case_decide.
    - by rewrite lookup_seq_lt.
    - by rewrite lookup_seq_ge by lia. }
  assert (Hbase : forall k, seg_base (write_segments s new) k =
    match seg_base s k, new !! k with Some st, Some x => Some ((Some <$> x) ++ drop (length x) st) | b, _ => b end).
  { intros k. unfold seg_base, write_segments. cbn [segs]. rewrite list_lookup_imap.
    destruct (segs s !! k) as [[st|]|]; simpl; [|by destruct (new !! k)|by destruct (new !! k)].
    by destruct (new !! k). }
  split; cbn [len write_segments segs].
  - by rewrite (sr_len _ _ R).
  - apply (sr_max _ _ R).
  - rewrite length_imap. apply (sr_segs _ _ R).
  - intros k st. rewrite Hbase. destruct (seg_base s k) as [st0|] eqn:E0; [|by destruct (new !! k)].
    pose proof (sr_caps _ _ R _ _ E0) as Hc. rewrite Hnew. case_decide; intros [= <-]; [|done].
    rewrite length_app, length_fmap, length_drop, <- Hc. unfold flat_seg. rewrite length_take. lia.
  - intros i x Hx. pose proof (lookup_lt_Some _ _ _ Hx) as Hi. rewrite El in Hi.
    destruct (locate_spec i) as [H1 H2]. set (k := (locate i).1) in *.
    assert (Hk : k < seg_count (length l)).
    { unfold seg_count. rewrite (proj2 (Nat.eqb_neq _ _)) by lia.
      pose proof (locate_mono i (length l - 1) ltac:(lia)). subst k. lia. }
    destruct (rep_seg_cells s l k R Hk) as (st & E & _). rewrite Hbase, E, Hnew, decide_True by done.
    eexists; split; [reflexivity|]. rewrite H2. rewrite seg_next in H1.
    rewrite lookup_app_l, list_lookup_fmap, flat_seg_lookup, decide_True by
      (rewrite ?length_fmap; unfold flat_seg; rewrite ?length_take, ?length_drop; lia).
    replace (seg_start k + (i - seg_start k)) with i by lia. by rewrite Hx.
Qed.
End rep.

(** ** [SlotBits] is a set of slots *)
Record bits_wf (b : SlotBits) : Prop := {
  bw_table : forall t, table b = Some t -> length t = SEGS;
  bw_words : forall k ws, words b k = Some ws -> length ws = seg_words k;
}.

Lemma no_bits_wf : bits_wf no_bits.
Proof. by split. Qed.

Lemma land_63 i : Nat.land i 63 = i mod 64.
Proof. change 63 with (Nat.ones 6). by rewrite Nat.land_ones. Qed.
Lemma shiftr_6 i : Nat.shiftr i 6 = i / 64.
Proof. by rewrite Nat.shiftr_div_pow2. Qed.

(** Past the first 64 slots a segment starts and ends at a multiple of 64. *)
Lemma high_seg i : LOW_SLOTS <= i -> exists c, seg_start (locate i).1 = c * 64 /\
  seg_cap (locate i).1 = c * 64 /\ (locate i).2 = i - c * 64 /\ c * 64 <= i.
Proof.
  unfold LOW_SLOTS. intros Hi. destruct (locate_spec i) as [H ->].
  assert (5 <= (locate i).1) as H5.
  { rewrite locate_seg, Nat.max_l by lia. pose proof (Nat.log2_le_mono 64 i Hi) as Hm.
    change (Nat.log2 64) with 6 in Hm. lia. }
  destruct (locate i).1 as [|k]; [lia|]. exists (2 ^ (k - 4)).
  assert (E : seg_start (S k) = 2 ^ (k - 4) * 64).
  { rewrite seg_start_S. replace (S (S k)) with ((k - 4) + 6) by lia. by rewrite Nat.pow_add_r. }
  rewrite <- E. split; [done|]. split; [|split; [done|lia]].
  rewrite seg_cap_eq, Nat.max_r by lia. by rewrite seg_start_S.
Qed.

Lemma high_word i : LOW_SLOTS <= i ->
  Nat.shiftr (locate i).2 6 = i / 64 - seg_start (locate i).1 / 64 /\ Nat.land (locate i).2 63 = i mod 64 /\
  Nat.shiftr (locate i).2 6 < seg_words (locate i).1.
Proof.
  intros Hi. destruct (high_seg i Hi) as (c & E1 & E2 & E3 & E4). pose proof (locate_off i) as Ho.
  unfold seg_words. rewrite shiftr_6, land_63, E1, E2 in *. rewrite E3 in *.
  rewrite Nat.div_mul by lia. replace i with ((i - c * 64) + c * 64) at 2 4 by lia.
  rewrite Nat.div_add, Nat.Div0.mod_add by lia. split; [lia|]. split; [done|].
  replace (c * 64 + 63) with (63 + c * 64) by lia. rewrite Nat.div_add by lia.
  change (63 / 64) with 0. apply Nat.Div0.div_lt_upper_bound. lia.
Qed.

(** The word's location depends on [i / 64] alone, and the mask is bit [i mod 64]. *)
Lemma word_mask b i w m : word b i = Some (w, m) -> m = Z.shiftl 1 (Z.of_nat (i mod 64)).
Proof.
  unfold word. destruct (Nat.ltb_spec i LOW_SLOTS) as [Hi|Hi].
  - intros [= _ <-]. by rewrite Nat.mod_small.
  - destruct (high_word i Hi) as (_ & E & _). destruct (locate i) as [k off]. simpl in E.
    destruct (words b k); simpl; [|done]. destruct (_ !! _); simpl; [|done].
    intros [= _ <-]. unfold bit_of. by rewrite E.
Qed.

Lemma same_group i j : LOW_SLOTS <= i -> i / 64 = j / 64 ->
  LOW_SLOTS <= j /\ (locate i).1 = (locate j).1 /\ Nat.shiftr (locate i).2 6 = Nat.shiftr (locate j).2 6.
Proof.
  intros Hi E. assert (Hj : LOW_SLOTS <= j).
  { unfold LOW_SLOTS in *. pose proof (Nat.Div0.div_le_mono 64 i 64 Hi) as H1.
    change (64 / 64) with 1 in H1. pose proof (Nat.Div0.mul_div_le j 64). lia. }
  split; [done|]. destruct (high_seg i Hi) as (c & E1 & E2 & E3 & E4).
  assert (Hj1 : c * 64 <= j < c * 64 + c * 64).
  { pose proof (locate_off i). rewrite E2, E3 in *.
    pose proof (Nat.div_mod_eq i 64). pose proof (Nat.div_mod_eq j 64).
    pose proof (Nat.mod_upper_bound i 64). pose proof (Nat.mod_upper_bound j 64).
    assert (c <= i / 64) by (apply Nat.div_le_lower_bound; lia).
    assert (i / 64 < c + c) by (apply Nat.Div0.div_lt_upper_bound; lia). lia. }
  assert (Ej : locate j = ((locate i).1, j - c * 64)).
  { rewrite <- (locate_at (locate i).1 (j - c * 64)) by lia. f_equal. lia. }
  rewrite Ej. split; [done|]. rewrite E3. cbn [snd]. rewrite !shiftr_6.
  replace i with ((i - c * 64) + c * 64) in E by lia. replace j with ((j - c * 64) + c * 64) in E by lia.
  rewrite !Nat.div_add in E by lia. lia.
Qed.

Lemma diff_group i j : LOW_SLOTS <= i -> LOW_SLOTS <= j -> (locate i).1 = (locate j).1 ->
  Nat.shiftr (locate i).2 6 = Nat.shiftr (locate j).2 6 -> i / 64 = j / 64.
Proof.
  intros Hi Hj E1 E2. destruct (high_word i Hi) as (F1 & _), (high_word j Hj) as (F2 & _).
  destruct (high_seg i Hi) as (c & G & _ & _ & Hc), (high_seg j Hj) as (d & G2 & _ & _ & Hd).
  rewrite F1, F2, E1 in E2. rewrite E1 in G. rewrite G in G2. assert (c = d) as <- by lia.
  rewrite G, Nat.div_mul in E2 by lia.
  assert (c <= i / 64 /\ c <= j / 64) by (split; apply Nat.div_le_lower_bound; lia). lia.
Qed.

Lemma low_group i : i < LOW_SLOTS <-> i / 64 = 0.
Proof. unfold LOW_SLOTS. rewrite Nat.div_small_iff by lia. done. Qed.

Lemma words_alter b b' k f : table b' = (fun t => alter (fmap f) k t) <$> table b ->
  forall j, words b' j = if decide (j = k) then f <$> words b j else words b j.
Proof.
  intros E j. unfold words. rewrite E. destruct (table b) as [t|]; simpl; [|by case_decide].
  case_decide as Ej.
  - subst. rewrite list_lookup_alter_eq. by destruct (t !! k) as [[]|].
  - by rewrite list_lookup_alter_ne by done.
Qed.

Lemma store_word_val b i w w0 m j : word b i = Some (w0, m) ->
  fst <$> word (store_word b i w) j = if decide (i / 64 = j / 64) then Some w else fst <$> word b j.
Proof.
  intros Hw. unfold store_word, word in *. destruct (Nat.ltb_spec i LOW_SLOTS) as [Hi|Hi].
  - pose proof (proj1 (low_group i) Hi) as Gi. destruct (Nat.ltb_spec j LOW_SLOTS) as [Hj|Hj].
    + apply low_group in Hj. by rewrite decide_True by lia.
    + rewrite decide_False; [done|]. intros E. apply Nat.le_ngt in Hj. apply Hj, low_group. lia.
  - destruct (Nat.ltb_spec j LOW_SLOTS) as [Hj|Hj].
    { pose proof (proj1 (low_group j) Hj). rewrite decide_False; [done|]. intros E.
      apply Nat.le_ngt in Hi. apply Hi, low_group. lia. }
    pose proof (same_group i j Hi) as Hs. pose proof (diff_group i j Hi Hj) as Hd.
    destruct (locate i) as [k off], (locate j) as [k' off']. cbn [fst snd] in *.
    rewrite (words_alter b _ k (<[Nat.shiftr off 6 := w]>)) by done.
    destruct (words b k) as [ws|] eqn:Ek; cbn [mbind option_bind] in Hw; [|done].
    destruct (ws !! Nat.shiftr off 6) as [x|] eqn:Ex; cbn [mbind option_bind] in Hw; [|done].
    case_decide as Ekk.
    + subst k'. rewrite Ek. cbn [fmap option_fmap option_map mbind option_bind].
      destruct (decide (i / 64 = j / 64)) as [E|E].
      * destruct (Hs E) as (_ & _ & <-). rewrite list_lookup_insert_eq by (by eapply lookup_lt_Some). done.
      * rewrite list_lookup_insert_ne; [done|]. intros F. by apply E, Hd.
    + rewrite decide_False; [done|]. intros E. destruct (Hs E) as (_ & ? & _). congruence.
Qed.

Lemma bits_get_val b i : bits_get b i = match fst <$> word b i with Some w => Z.testbit w (Z.of_nat (i mod 64)) | None => false end.
Proof.
  unfold bits_get. destruct (word b i) as [[w m]|] eqn:E; [|done]. rewrite (word_mask _ _ _ _ E). cbn [fmap option_fmap option_map fst].
  generalize (Z.of_nat (i mod 64)), (Nat2Z.is_nonneg (i mod 64)). intros n Hn.
  destruct (Z.testbit w n) eqn:Et.
  - apply negb_true_iff, Z.eqb_neq. intros H. apply (f_equal (fun z => Z.testbit z n)) in H.
    rewrite Z.land_spec, Z.shiftl_spec, Et, Z.sub_diag, Z.bits_0 in H by lia. done.
  - apply negb_false_iff, Z.eqb_eq. apply Z.bits_inj'. intros m' Hm. rewrite Z.land_spec, Z.bits_0.
    destruct (decide (m' = n)) as [->|Hne]; [by rewrite Et|]. rewrite Z.shiftl_spec by lia.
    replace (Z.testbit 1 (m' - n)) with false; [apply andb_false_r|]. symmetry.
    destruct (Z.lt_ge_cases m' n); [by apply Z.testbit_neg_r; lia|].
    apply (Z.pow2_bits_false 0). lia.
Qed.

Lemma store_word_wf b i w : bits_wf b -> bits_wf (store_word b i w).
Proof.
  intros [Ht Hw]. unfold store_word. destruct (i <? LOW_SLOTS); [by split|].
  destruct (locate i) as [k off]. split; cbn [table].
  - intros t Et. destruct (table b) as [t0|] eqn:E0; [|done]. simpl in Et. injection Et as <-.
    rewrite length_alter. by apply Ht.
  - intros j ws. rewrite (words_alter b _ k (<[Nat.shiftr off 6 := w]>)) by done. case_decide as E; [|apply Hw].
    destruct (words b j) as [ws0|] eqn:Ej; simpl; [|done]. intros [= <-]. rewrite length_insert. by apply Hw.
Qed.

(** Allocating a segment's words adds only zero words. *)
Lemma alloc_words_spec b k j : bits_wf b -> k < SEGS ->
  words (alloc_words b k) j = if decide (j = k) then Some (default (replicate (seg_words k) 0%Z) (words b k)) else words b j.
Proof.
  intros [Ht _] Hk. unfold alloc_words.
  assert (Hd : forall i, mjoin (default (replicate SEGS None) (table b) !! i) = words b i).
  { intros i. unfold words. destruct (table b) as [t|]; [done|]. cbn [default mbind option_bind].
    destruct (_ !! i) as [x|] eqn:E; [|done]. by apply lookup_replicate in E as [-> _]. }
  assert (Hlen : length (default (replicate SEGS None) (table b)) = SEGS).
  { destruct (table b) as [t|] eqn:E; [by apply Ht|apply length_replicate]. }
  rewrite Hd. destruct (words b k) as [ws|] eqn:Ek; unfold words; cbn [table mbind option_bind].
  - rewrite Hd. case_decide; [by subst|done].
  - case_decide as E.
    + subst. by rewrite list_lookup_insert_eq by lia.
    + rewrite list_lookup_insert_ne by done. apply Hd.
Qed.

Lemma alloc_words_low b k : low (alloc_words b k) = low b.
Proof. unfold alloc_words. by destruct (mjoin _). Qed.

Lemma alloc_words_wf b k : bits_wf b -> k < SEGS -> bits_wf (alloc_words b k).
Proof.
  intros W Hk. pose proof W as [Ht Hw]. split.
  - intros t. unfold alloc_words. assert (Hl : length (default (replicate SEGS None) (table b)) = SEGS).
    { destruct (table b) as [t0|] eqn:E; [by apply Ht|apply length_replicate]. }
    destruct (mjoin _); cbn [table]; intros [= <-]; by rewrite ?length_insert.
  - intros j ws. rewrite alloc_words_spec by done. case_decide as E; [|apply Hw]. subst. intros [= <-].
    destruct (words b k) eqn:Ek; simpl; [by apply Hw|apply length_replicate].
Qed.

Lemma word_or_alloc_spec b i : bits_wf b -> (Z.of_nat i < 2 ^ 32)%Z ->
  bits_wf (word_or_alloc b i) /\ is_Some (word (word_or_alloc b i) i) /\
  forall j, bits_get (word_or_alloc b i) j = bits_get b j.
Proof.
  intros W Hi. unfold word_or_alloc. destruct (word b i) as [x|] eqn:E; [rewrite E; by eauto|].
  apply locate_bound in Hi as Hk. split; [by apply alloc_words_wf|].
  unfold word in E. destruct (Nat.ltb_spec i LOW_SLOTS) as [Hl|Hl]; [done|].
  destruct (high_word i Hl) as (_ & _ & Hword).
  assert (En : words b (locate i).1 = None).
  { destruct (locate i) as [k off]. cbn [fst snd] in *. destruct (words b k) as [ws|] eqn:Ek; [|done].
    destruct W as [_ Hw]. apply Hw in Ek as Hlen. rewrite <- Hlen in Hword.
    apply lookup_lt_is_Some_2 in Hword as [x Hx]. cbn [mbind option_bind] in E. rewrite Hx in E. done. }
  split.
  - unfold word. rewrite (proj2 (Nat.ltb_ge _ _) Hl).
    pose proof (alloc_words_spec b _ (locate i).1 W Hk) as Ea. rewrite decide_True, En in Ea by done.
    destruct (locate i) as [k off]. cbn [fst snd] in *. rewrite Ea. cbn [default mbind option_bind].
    rewrite (proj2 (lookup_replicate _ _ _ _)) by (by split). by eexists.
  - intros j. rewrite !bits_get_val. unfold word. destruct (j <? LOW_SLOTS); [by rewrite alloc_words_low|].
    pose proof (alloc_words_spec b (locate i).1 (locate j).1 W Hk) as Ea. rewrite En in Ea.
    destruct (locate j) as [k' off']. cbn [fst snd] in *. rewrite Ea. case_decide as Ek; [|done].
    subst. rewrite En. cbn [default mbind option_bind].
    destruct (replicate _ _ !! _) as [x|] eqn:Ex; [|done]. apply lookup_replicate in Ex as [-> _].
    cbn [mbind option_bind fmap option_fmap option_map fst]. apply Z.bits_0.
Qed.

Lemma group_eq i j : i / 64 = j / 64 -> i mod 64 = j mod 64 -> i = j.
Proof. intros E F. rewrite (Nat.div_mod_eq i 64), (Nat.div_mod_eq j 64). lia. Qed.

Lemma word_group b i j : i / 64 = j / 64 -> fst <$> word b i = fst <$> word b j.
Proof.
  intros E. unfold word. destruct (Nat.ltb_spec i LOW_SLOTS) as [Hi|Hi].
  - apply low_group in Hi. rewrite E in Hi. apply low_group in Hi. by rewrite (proj2 (Nat.ltb_lt _ _) Hi).
  - destruct (same_group i j Hi E) as (Hj & F1 & F2). rewrite (proj2 (Nat.ltb_ge _ _) Hj).
    destruct (locate i) as [k off], (locate j) as [k' off']. cbn [fst snd] in *. subst k'. rewrite F2.
    destruct (words b k) as [ws|]; cbn [mbind option_bind]; [|done]. by destruct (ws !! _).
Qed.

Lemma mask_bit i j : i / 64 = j / 64 ->
  Z.testbit (Z.shiftl 1 (Z.of_nat (i mod 64))) (Z.of_nat (j mod 64)) = bool_decide (j = i).
Proof.
  intros E. rewrite Z.shiftl_spec by lia. destruct (decide (j = i)) as [->|Hne].
  - by rewrite bool_decide_eq_true_2, Z.sub_diag by done.
  - rewrite bool_decide_eq_false_2 by done.
    assert (i mod 64 <> j mod 64) by (intros F; by apply Hne; symmetry; apply group_eq).
    destruct (Z.lt_ge_cases (Z.of_nat (j mod 64)) (Z.of_nat (i mod 64))); [by apply Z.testbit_neg_r; lia|].
    apply (Z.pow2_bits_false 0). lia.
Qed.

Lemma set_owned_spec b i : bits_wf b -> (Z.of_nat i < 2 ^ 32)%Z ->
  (set_owned b i).1 = negb (bits_get b i) /\ bits_wf (set_owned b i).2 /\
  forall j, bits_get (set_owned b i).2 j = bool_decide (j = i) || bits_get b j.
Proof.
  intros W Hi. destruct (word_or_alloc_spec b i W Hi) as (W' & [[w m] Hw] & Hg). unfold set_owned.
  set (b' := word_or_alloc b i) in *. rewrite Hw. cbn [fst snd].
  split; [|split; [by apply store_word_wf|]].
  - rewrite <- Hg. unfold bits_get. by rewrite Hw, negb_involutive.
  - intros j. rewrite <- (Hg j), !bits_get_val, (store_word_val _ _ _ _ _ _ Hw).
    case_decide as E.
    + rewrite <- (word_group _ _ _ E), Hw. cbn [fmap option_fmap option_map fst].
      by rewrite Z.lor_spec, (word_mask _ _ _ _ Hw), mask_bit, orb_comm by done.
    + rewrite bool_decide_eq_false_2; [done|]. by intros ->.
Qed.

Lemma bits_clear_spec b i : bits_wf b ->
  bits_wf (bits_clear b i) /\ forall j, bits_get (bits_clear b i) j = negb (bool_decide (j = i)) && bits_get b j.
Proof.
  intros W. unfold bits_clear. destruct (word b i) as [[w m]|] eqn:Hw.
  - split; [by apply store_word_wf|]. intros j. rewrite !bits_get_val, (store_word_val _ _ _ _ _ _ Hw).
    case_decide as E.
    + rewrite <- (word_group _ _ _ E), Hw. cbn [fmap option_fmap option_map fst].
      by rewrite Z.ldiff_spec, (word_mask _ _ _ _ Hw), mask_bit, andb_comm by done.
    + rewrite bool_decide_eq_false_2; [done|]. by intros ->.
  - split; [done|]. intros j. destruct (decide (j = i)) as [->|Hne].
    + rewrite bool_decide_eq_true_2 by done. unfold bits_get. by rewrite Hw.
    + by rewrite bool_decide_eq_false_2.
Qed.

(** The sweep reads a slot's own mark through its segment's words. *)
Lemma segment_mark_spec b k idx : seg_start k <= idx < seg_start (S k) -> segment_mark b (seg_start k) idx = bits_get b idx.
Proof.
  intros H. assert (Hloc : locate idx = (k, idx - seg_start k)).
  { rewrite <- (locate_at k (idx - seg_start k)) by (rewrite seg_next in H; lia). f_equal. lia. }
  rewrite bits_get_val. unfold segment_mark, segment_words, word. rewrite !shiftr_6.
  destruct (Nat.ltb_spec idx LOW_SLOTS) as [Hi|Hi].
  - rewrite (proj2 (Nat.ltb_lt _ _)) by lia. apply low_group in Hi as Gi. rewrite Gi. simpl Nat.sub. cbn [lookup list_lookup].
    unfold bit_of. rewrite land_63.
    pose proof (bits_get_val b idx) as Hg. unfold bits_get, word in Hg. rewrite (proj2 (Nat.ltb_lt _ _) Hi) in Hg.
    rewrite Nat.mod_small by done. rewrite Nat.mod_small in Hg by done. exact Hg.
  - destruct (high_word idx Hi) as (F1 & F2 & F3). destruct (high_seg idx Hi) as (c & G1 & G2 & G3 & G4).
    rewrite Hloc in *. cbn [fst snd] in *. unfold LOW_SLOTS in *.
    assert (Hs : 64 <= seg_start k).
    { rewrite seg_next, G2, G1 in H. rewrite G1. destruct c as [|c]; lia. }
    rewrite (proj2 (Nat.ltb_ge _ _)) by lia.
    pose proof (locate_at k 0 ltac:(pose proof (seg_cap_pos k); lia)) as E0. rewrite Nat.add_0_r in E0.
    rewrite E0. cbn [fst]. destruct (words b k) as [ws|] eqn:Ek; cbn [default mbind option_bind]; [|done].
    rewrite F1. unfold id. destruct (ws !! _) as [w|] eqn:Ew; cbn [mbind option_bind fmap option_fmap option_map fst]; [|done].
    pose proof (bits_get_val b idx) as Hg. unfold bits_get, word in Hg.
    rewrite (proj2 (Nat.ltb_ge _ _)), Hloc, Ek in Hg by done. cbn [mbind option_bind] in Hg. rewrite F1, Ew in Hg.
    cbn [mbind option_bind fmap option_fmap option_map fst] in Hg. rewrite <- Hg.
    unfold bit_of. by rewrite F2, land_63.
Qed.

(** ** Traces *)
Section trace.
  Context {T : Type}.
Inductive slab_op := OPush (max : nat) | OWrite (i : nat) (x : option T).
Definition slab_step (s : Slab T) (o : slab_op) : option (Slab T) :=
  match o with OPush max => fst <$> push_holes s max | OWrite i x => set_slot s i x end.
(** The reference: a vector that is appended to and written in range. *)
Definition flat_step (l : list (option T)) (o : slab_op) : option (list (option T)) :=
  match o with
  | OPush max => if (2 ^ 32 <=? Z.of_nat (length l))%Z then None
                 else Some (l ++ replicate (push_count (length l) max) None)
  | OWrite i x => if i <? length l then Some (<[i := x]> l) else None
  end.
Fixpoint run_ops {S} (step : S -> slab_op -> option S) (s : S) (os : list slab_op) : option S :=
  match os with [] => Some s | o :: os => s ← step s o; run_ops step s os end.

Lemma slab_step_rep s l o : slab_rep s l ->
  match slab_step s o, flat_step l o with
  | Some s', Some l' => slab_rep s' l'
  | None, None => True
  | _, _ => False
  end.
Proof.
  intros R. destruct o as [max|i x]; simpl.
  - destruct (Z.leb_spec (2 ^ 32) (Z.of_nat (length l))) as [Hl|Hl].
    + unfold push_holes. rewrite (sr_len _ _ R), (proj2 (Z.leb_le _ _) Hl). done.
    + by destruct (rep_push s l max R Hl) as (s' & -> & R').
  - destruct (Nat.ltb_spec i (length l)) as [Hi|Hi].
    + by destruct (rep_set s l i x R Hi) as (s' & -> & R').
    + unfold set_slot. by rewrite (sr_len _ _ R), (proj2 (Nat.leb_le _ _) Hi).
Qed.

(** C37: the segmented slab is a vector that never moves its slots.  After any sequence of appends and
    slot writes it faults exactly when a plain vector would (a slot past the end, a slab of 2^32
    slots), every slot reads back as the vector's, and a walk of the segments visits every slot
    once, in index order: no read reaches an unallocated segment or an uninitialized cell. *)
Theorem slab_refines (os : list slab_op) :
  match run_ops slab_step new_slab os, run_ops flat_step [] os with
  | Some s, Some l => (forall i, get s i = l !! i) /\ iter s = l
  | None, None => True
  | _, _ => False
  end.
Proof.
  assert (H : forall s l, slab_rep s l ->
    match run_ops slab_step s os, run_ops flat_step l os with
    | Some s, Some l => (forall i, get s i = l !! i) /\ iter s = l
    | None, None => True
    | _, _ => False
    end); [|apply H, new_slab_rep].
  induction os as [|o os IH]; intros s l R; simpl.
  - split; [intros i; by apply rep_get|by apply rep_iter].
  - pose proof (slab_step_rep s l o R) as Hs.
    destruct (slab_step s o), (flat_step l o); simpl; try done. by apply IH.
Qed.
End trace.
