(* ===== verification/Obj.v ===== *)
(** * Heap objects: [Obj], [Fields], [Identity], [children] and sizes of [src/src/vm/heap.rs], the
      roots of [src/src/vm/root_registry.rs] and [src/src/vm/mod.rs]

    A handle [GcRef] is a slot number ([nat]); a stored value is a [tagged] value of [Value.v] (the
    word layer is [Value.decode_encode]).  The core behind an [Arc] is an address into a store of
    cores that lives outside the heap, so two objects may name one core.  A retiring vector
    ([RVec]) and a [Vec] are their items and their capacity. *)

From Stdlib Require Import String.
From S2P Require Import Channel.
From stdpp Require Import base list gmap.
From S2P Require Import Prelude Consteval Value MapData.
Local Open Scope nat_scope.

Record RVec (A : Type) := mkRVec { items : list A; capacity : Z }.
Arguments mkRVec {A} items capacity.
Arguments items {A} _.
Arguments capacity {A} _.

(** [v.child_gcref()], as a slot number. *)
Definition child (v : tagged) : option nat := Z.to_nat <$> Value.child_gcref (encode v).

(** ** [Fields]: at most three fields inline, more in a block *)
Inductive Fields :=
| Inline (len : nat) (vals : list tagged)
| Spill (s : RVec tagged).

Module Fields.
Definition from_vec (v : list tagged) : Fields :=
  if length v <=? 3 then Inline (length v) ((fun i => default TNil (v !! i)) <$> seq 0 3)
  else Spill (mkRVec v (Z.of_nat (length v))).
Definition len (f : Fields) : nat := match f with Inline n _ => n | Spill s => length (items s) end.
Definition iter (f : Fields) : list tagged := match f with Inline n vals => take n vals | Spill s => items s end.
Definition get (f : Fields) (i : nat) : option tagged :=
  match f with Inline n vals => take n vals !! i | Spill s => items s !! i end.
(** [false], and no write, past the last field. *)
Definition set (f : Fields) (i : nat) (v : tagged) : bool * Fields :=
  match f with
  | Inline n vals =>
      match take n vals !! i with
      | Some _ => (true, Inline n (<[i := v]> vals))
      | None => (false, f)
      end
  | Spill s => if i <? length (items s) then (true, Spill (mkRVec (<[i := v]> (items s)) (capacity s))) else (false, f)
  end.
Definition heap_bytes (f : Fields) : Z := match f with Inline _ _ => 0 | Spill s => capacity s * 8 end.
End Fields.

(** ** Execution contexts, as far as they hold roots *)
Inductive Deferred :=
| DCall (callee : tagged) (args : list tagged)
| DMethod (recv : tagged) (name : string) (args : list tagged).
Definition deferred_roots (d : Deferred) : list nat :=
  match d with DCall head args | DMethod head _ args => omap child (head :: args) end.

(** [PendingCall::Call], also the call of a [QueuedTask]. *)
Record PendingCall := mkPending { callee : tagged; args : list tagged }.
Definition pending_roots (p : PendingCall) : list nat := omap child (callee p :: args p).

Record CallFrame := mkFrame { home : nat; closure : option nat; deferred : list Deferred }.

Record RootView := mkRoots {
  stack : list tagged; frames : list CallFrame; nurseries : list (list PendingCall);
  start : option PendingCall; module_objs : option (list nat); executors : list nat;
  str_intern : option (list nat);
}.

(** [RootView::walk]. *)
Definition frame_roots (f : CallFrame) : list nat :=
  home f :: match closure f with Some c => [c] | None => [] end ++ (deferred f ≫= deferred_roots).
Definition walk (v : RootView) : list nat :=
  omap child (stack v) ++ (frames v ≫= frame_roots) ++ (nurseries v ≫= fun n => n ≫= pending_roots) ++
  match start v with Some t => pending_roots t | None => [] end ++ default [] (module_objs v) ++
  executors v ++ default [] (str_intern v).

(** A generator's parked context holds frames and a stack only. *)
Definition gen_view (stk : list tagged) (fs : list CallFrame) : RootView := mkRoots stk fs [] None None [] None.

Inductive GenState := GPending (args : list tagged) | GSuspended | GDone.
Record Parked := mkParked { g_state : GenState; g_stack : list tagged; g_frames : list CallFrame }.
Record GeneratorCore := mkGen { g_home : nat; g_closure : option nat; parked : option Parked }.
(** [GeneratorCore::gc_roots]. *)
Definition gen_roots (g : GeneratorCore) : list nat :=
  g_home g :: match g_closure g with Some c => [c] | None => [] end ++
  match parked g with
  | Some p => match g_state p with GPending a => omap child a | _ => [] end ++ walk (gen_view (g_stack p) (g_frames p))
  | None => []
  end.

(** ** [Obj] *)
Module Obj.
Inductive t :=
| Str (s : list Z)
| Bytes (b : list Z)
| ByteArray (b : RVec Z)
| BigInt (n : Z)
| FloatBox (f : F64.f64)
| Iter (its : RVec tagged) (pos : nat)
| List (its : RVec tagged)
| Tuple (its : RVec tagged)
| Map (m : TableData (MapEntry tagged)) (entries_cap index_cap : Z)
| Set_ (s : TableData (SetEntry tagged)) (entries_cap index_cap : Z)
| Struct (tid : Z) (fields : Fields)
| Enum (variant_id : Z) (payload : RVec tagged)
| Cell (v : tagged)
| Func (proto : Z) (home : nat)
| Closure (proto : Z) (captured : RVec tagged) (home : nat)
| Module_ (slots : RVec tagged)
| Native (name : string)
| Builtin (id : Z)
| Cffi (core : nat)
| Ptr (addr : Z)
| Channel (core : nat)
| Shared (core : nat)
| RwShared (core : nat)
| Atomic (core : nat)
| AtomicInt (core : nat)
| Executor (core : nat)
| Socket (core : nat)
| Listener (core : nat)
| Writer (core : nat)
| Reader (core : nat)
| Generator (g : GeneratorCore).
End Obj.
Abbreviation Obj := Obj.t.

(** What the cores hold of the heap: a channel its queued values, a box one value. *)
Inductive Core := CChan (ch : ChanState tagged) | CBox (v : tagged) | COther.
Abbreviation Cores := (gmap nat Core).

(** [ChanState::iter]: buffer, offers and filled slots. *)
Definition chan_iter (ch : ChanState tagged) : list tagged :=
  queue ch ++ (o_v <$> sendq ch) ++ omap s_got (recvq ch).

(** [Heap::children]. *)
Definition children (cs : Cores) (o : Obj) : list nat :=
  match o with
  | Obj.Iter its _ | Obj.List its | Obj.Tuple its | Obj.Enum _ its | Obj.Module_ its => omap child (items its)
  | Obj.Map m _ _ => entries m ≫= fun '(_, k, v) => omap child [k; v]
  | Obj.Set_ s _ _ => omap child ((entries s).*2)
  | Obj.Struct _ f => omap child (Fields.iter f)
  | Obj.Cell v => omap child [v]
  | Obj.Func _ h => [h]
  | Obj.Closure _ captured h => omap child (items captured) ++ [h]
  | Obj.Channel c => match cs !! c with Some (CChan ch) => omap child (chan_iter ch) | _ => [] end
  | Obj.Shared c | Obj.RwShared c | Obj.Atomic c =>
      match cs !! c with Some (CBox v) => omap child [v] | _ => [] end
  | Obj.Generator g => gen_roots g
  | _ => []
  end.

(** ** [Identity] *)
Inductive Identity := Content | CoreKey (disc : Z) (addr : Z) | SlotId.
Definition identity (o : Obj) : Identity :=
  match o with
  | Obj.Str _ | Obj.Bytes _ | Obj.ByteArray _ | Obj.BigInt _ | Obj.FloatBox _ | Obj.List _ | Obj.Tuple _
  | Obj.Map _ _ _ | Obj.Set_ _ _ _ | Obj.Struct _ _ | Obj.Enum _ _ | Obj.Builtin _ => Content
  | Obj.Channel c => CoreKey 20 (Z.of_nat c)
  | Obj.Shared c => CoreKey 21 (Z.of_nat c)
  | Obj.RwShared c => CoreKey 22 (Z.of_nat c)
  | Obj.Atomic c => CoreKey 23 (Z.of_nat c)
  | Obj.AtomicInt c => CoreKey 24 (Z.of_nat c)
  | Obj.Executor c => CoreKey 25 (Z.of_nat c)
  | Obj.Socket c => CoreKey 26 (Z.of_nat c)
  | Obj.Listener c => CoreKey 27 (Z.of_nat c)
  | Obj.Writer c => CoreKey 28 (Z.of_nat c)
  | Obj.Reader c => CoreKey 29 (Z.of_nat c)
  | Obj.Ptr addr => CoreKey 19 addr
  | Obj.Func _ _ | Obj.Closure _ _ _ | Obj.Native _ | Obj.Cffi _ | Obj.Iter _ _ | Obj.Generator _
  | Obj.Module_ _ | Obj.Cell _ => SlotId
  end.

(** ** Sizes *)
Definition obj_bytes_shallow (o : Obj) : Z :=
  match o with
  | Obj.Str s | Obj.Bytes s => Z.of_nat (length s)
  | Obj.ByteArray b => capacity b
  | Obj.Iter v _ | Obj.List v | Obj.Tuple v | Obj.Enum _ v | Obj.Closure _ v _ | Obj.Module_ v => capacity v * 8
  | Obj.Struct _ f => Fields.heap_bytes f
  | Obj.Map _ ec ic => ec * 24 + ic * 8
  | Obj.Set_ _ ec ic => ec * 16 + ic * 8
  | _ => 0
  end.

(** Whether dropping the object drops a core: the sweep defers it. *)
Definition is_arc_core (o : Obj) : bool :=
  match o with
  | Obj.Cffi _ | Obj.Channel _ | Obj.Shared _ | Obj.RwShared _ | Obj.Atomic _ | Obj.AtomicInt _
  | Obj.Executor _ | Obj.Socket _ | Obj.Listener _ | Obj.Writer _ | Obj.Reader _ => true
  | _ => false
  end.

(** ** Fields behave as their vector *)
Lemma fields_from_vec v : Fields.iter (Fields.from_vec v) = v /\ Fields.len (Fields.from_vec v) = length v.
Proof.
  unfold Fields.from_vec. destruct (Nat.leb_spec (length v) 3) as [H|H]; [|done]. split; [|done].
  simpl. destruct v as [|a [|b [|c [|]]]]; try reflexivity. simpl in H. lia.
Qed.
Lemma fields_get f i : Fields.get f i = Fields.iter f !! i.
Proof. by destruct f. Qed.
Lemma fields_set f i v : (Fields.set f i v).1 = true -> Fields.iter (Fields.set f i v).2 = <[i := v]> (Fields.iter f).
Proof.
  destruct f as [n vals|s]; simpl.
  - destruct (take n vals !! i) eqn:E; [|done]. intros _. simpl. rewrite take_insert_lt; [done|].
    apply lookup_lt_Some in E. rewrite length_take in E. lia.
  - by destruct (i <? _).
Qed.
