(* ===== verification/Heap.v ===== *)
(** * The garbage-collected heap: [src/src/vm/heap_core.rs], [src/src/vm/heap.rs] and
      [Vm::collect_from] of [src/src/vm/frames.rs]

    A [HeapCore] is the shared half (slots, free stack, mark bits, counters, error spans); a [Heap]
    is one thread's handle (free-slot cache, counts not yet flushed, the armed write record).  A
    [Vec] used as a stack has its top last.  Counters are [usize] as [Z]; a panic is [None].

    [collect_from] may run only with every other handle stopped ([GcCoord.v]), so each operation
    here is one step.  On top of them, [World] runs any number of threads that allocate, read,
    store and forget handles, with collections in between. *)

From S2P Require Import Channel.
From stdpp Require Import base list gmap.
From S2P Require Import Prelude Consteval Value MapData Obj Slab.
Local Open Scope nat_scope.

Definition MIN_GC_THRESHOLD : Z := 256.
Definition FREE_BATCH : nat := 64.
Definition FLUSH_EVERY : Z := 256.
Definition FLUSH_BYTES : Z := 256 * 1024.
Definition MIN_RETIRED_GOAL : Z := 2 ^ 20.
Definition USIZE_MAX : Z := 2 ^ 64 - 1.
Definition sat_add (a b : Z) : Z := Z.min (a + b) USIZE_MAX.
Definition sat_sub (a b : Z) : Z := Z.max (a - b) 0.

Record HeapCore := mkCore {
  slots : Slab Obj; core_free : list nat; marks : SlotBits;
  next_gc : Z; allocs : Z; bytes : Z; peak_live_bytes : Z; mem_cap : Z; over_cap : bool;
  last_live_bytes : Z; err_spans : gmap nat Span; core_retired : Z;
}.
Record Heap := mkHeap {
  free : list nat; since_gc : Z; gc_check_at : Z; since_gc_bytes : Z;
  pending_mut : option (nat * Z); graveyard : list Obj; retired : Z;
}.
(** [HeapCore::default] and [Heap::on]. *)
Definition new_core : HeapCore := mkCore new_slab [] no_bits MIN_GC_THRESHOLD 0 0 0 0 false 0 ∅ 0.
Definition on_core : Heap := mkHeap [] 0 0 0 None [] 0.

Definition set_slots (s : Slab Obj) (c : HeapCore) : HeapCore :=
  mkCore s (core_free c) (marks c) (next_gc c) (allocs c) (bytes c) (peak_live_bytes c) (mem_cap c) (over_cap c)
    (last_live_bytes c) (err_spans c) (core_retired c).
Definition set_free (l : list nat) (c : HeapCore) : HeapCore :=
  mkCore (slots c) l (marks c) (next_gc c) (allocs c) (bytes c) (peak_live_bytes c) (mem_cap c) (over_cap c)
    (last_live_bytes c) (err_spans c) (core_retired c).
Definition set_marks (b : SlotBits) (c : HeapCore) : HeapCore :=
  mkCore (slots c) (core_free c) b (next_gc c) (allocs c) (bytes c) (peak_live_bytes c) (mem_cap c) (over_cap c)
    (last_live_bytes c) (err_spans c) (core_retired c).
Definition set_counts (al by_ rt : Z) (c : HeapCore) : HeapCore :=
  mkCore (slots c) (core_free c) (marks c) (next_gc c) al by_ (peak_live_bytes c) (mem_cap c) (over_cap c)
    (last_live_bytes c) (err_spans c) rt.
Definition set_spans (m : gmap nat Span) (c : HeapCore) : HeapCore :=
  mkCore (slots c) (core_free c) (marks c) (next_gc c) (allocs c) (bytes c) (peak_live_bytes c) (mem_cap c) (over_cap c)
    (last_live_bytes c) m (core_retired c).
Definition set_cache (l : list nat) (h : Heap) : Heap :=
  mkHeap l (since_gc h) (gc_check_at h) (since_gc_bytes h) (pending_mut h) (graveyard h) (retired h).
Definition set_pending (p : option (nat * Z)) (h : Heap) : Heap :=
  mkHeap (free h) (since_gc h) (gc_check_at h) (since_gc_bytes h) p (graveyard h) (retired h).

(** [Heap::get]: [None] is the dangling panic (an empty slot) or the out-of-range panic. *)
Definition hget (c : HeapCore) (r : nat) : option Obj := mjoin (get (slots c) r).

(** ** Allocation *)

(** [HeapCore::reuse]: [idx] is an empty slot; a stray mark is cleared. *)
Definition reuse (c : HeapCore) (idx : nat) (obj : Obj) : option HeapCore :=
  s ← set_slot (slots c) idx (Some obj);
  let c := set_slots s c in
  Some (if bits_get (marks c) idx then set_marks (bits_clear (marks c) idx) c else c).

(** [HeapCore::alloc_slot]: the slot and the refilled cache. *)
Definition alloc_slot (c : HeapCore) (cache : list nat) (obj : Obj) : option (HeapCore * list nat * nat) :=
  match vec_pop (core_free c) with
  | Some (fr, idx) =>
      let from := length fr - (FREE_BATCH - 1) in
      c ← reuse (set_free (list.take from fr) c) idx obj;
      Some (c, cache ++ drop from fr, idx)
  | None =>
      '(s, (lo, hi)) ← push_holes (slots c) FREE_BATCH;
      c ← reuse (set_slots s c) lo obj;
      Some (c, cache ++ reverse (seq (lo + 1) (hi - (lo + 1))), lo)
  end.

Definition give_back (c : HeapCore) (cache : list nat) : HeapCore := set_free (core_free c ++ cache) c.

(** [Heap::charge_own]. *)
Definition charge_own (h : Heap) (n : Z) : Heap :=
  let held := sat_add (since_gc_bytes h) n in
  mkHeap (free h) (since_gc h) (if (FLUSH_BYTES <=? held)%Z then 0 else gc_check_at h) held (pending_mut h)
    (graveyard h) (retired h).
(** [Heap::charge_bytes]: no check of the flush goal. *)
Definition charge_bytes (h : Heap) (n : Z) : Heap :=
  mkHeap (free h) (since_gc h) (gc_check_at h) (sat_add (since_gc_bytes h) n) (pending_mut h) (graveyard h) (retired h).

(** [Heap::alloc]. *)
Definition alloc (c : HeapCore) (h : Heap) (obj : Obj) : option (HeapCore * Heap * nat) :=
  let h := mkHeap (free h) (since_gc h + 1) (gc_check_at h) (since_gc_bytes h) (pending_mut h) (graveyard h) (retired h) in
  let h := charge_own h (obj_bytes_shallow obj) in
  match vec_pop (free h) with
  | Some (fr, idx) => c ← reuse c idx obj; Some (c, set_cache fr h, idx)
  | None => '(c, cache, idx) ← alloc_slot c (free h) obj; Some (c, set_cache cache h, idx)
  end.

(** ** Writes *)

(** [settle_knowing]: charge the growth of the object the last write armed, and disarm. *)
Definition settle_knowing (c : HeapCore) (h : Heap) (known : option (nat * Z)) : option Heap :=
  match pending_mut h with
  | None => Some h
  | Some (r, before) =>
      now ← match known with
            | Some (k, b) => if k =? r then Some b else obj_bytes_shallow <$> hget c r
            | None => obj_bytes_shallow <$> hget c r
            end;
      Some (charge_own (set_pending None h) (sat_sub now before))
  end.
(** [Heap::write]: settle the last record, arm this one. *)
Definition write (c : HeapCore) (h : Heap) (r : nat) : option Heap :=
  o ← hget c r;
  let b := obj_bytes_shallow o in
  h ← settle_knowing c h (Some (r, b));
  Some (set_pending (Some (r, b)) h).
(** The store a writer makes through the handle. *)
Definition store (c : HeapCore) (r : nat) (o : Obj) : option HeapCore :=
  s ← set_slot (slots c) r (Some o); Some (set_slots s c).

(** ** The collection trigger *)
Definition flush_allocs (c : HeapCore) (n : Z) : HeapCore * Z :=
  if (n =? 0)%Z then (c, allocs c)
  else (set_counts ((allocs c + n) mod 2 ^ 64) (bytes c) (core_retired c) c, allocs c + n)%Z.
Definition flush_bytes (c : HeapCore) (n : Z) : HeapCore * Z :=
  if (n =? 0)%Z then (c, bytes c)
  else (set_counts (allocs c) ((bytes c + n) mod 2 ^ 64) (core_retired c) c, sat_add (bytes c) n)%Z.
Definition bytes_gc_threshold (c : HeapCore) : Z :=
  if (mem_cap c =? 0)%Z then Z.max (last_live_bytes c) (2 ^ 24) else Z.max (mem_cap c / 4) (64 * 1024).
Definition retired_gc_threshold (c : HeapCore) : Z := Z.max (last_live_bytes c) MIN_RETIRED_GOAL.
Definition retired_bytes (c : HeapCore) (h : Heap) : Z := retired h + core_retired c.

(** [should_collect_slow]. *)
Definition should_collect_slow (c : HeapCore) (h : Heap) : option (bool * HeapCore * Heap) :=
  let '(c, al) := flush_allocs c (since_gc h) in
  let h := mkHeap (free h) 0 (gc_check_at h) (since_gc_bytes h) (pending_mut h) (graveyard h) (retired h) in
  h ← settle_knowing c h None;
  let '(c, by_) := flush_bytes c (since_gc_bytes h) in
  let h := mkHeap (free h) (since_gc h) (gc_check_at h) 0 (pending_mut h) (graveyard h) (retired h) in
  let check_at z := mkHeap (free h) (since_gc h) z 0 (pending_mut h) (graveyard h) (retired h) in
  if (next_gc c <=? al)%Z || (bytes_gc_threshold c <=? by_)%Z || (retired_gc_threshold c <=? retired_bytes c h)%Z
  then Some (true, c, check_at 0%Z)
  else Some (false, c, if (mem_cap c =? 0)%Z then check_at (Z.min (next_gc c - al) FLUSH_EVERY) else h).
Definition should_collect (c : HeapCore) (h : Heap) : option (bool * HeapCore * Heap) :=
  if (since_gc h <? gc_check_at h)%Z then Some (false, c, h) else should_collect_slow c h.

(** [Heap::observe_collection]: another handle's sweep ran while this one was stopped. *)
Definition observe_collection (h : Heap) : Heap := mkHeap (free h) 0 0 0 None (graveyard h) (retired h).

(** ** Mark *)

(** [Heap::mark]: newly marked? *)
Definition mark (c : HeapCore) (r : nat) : bool * HeapCore :=
  let '(b, m) := set_owned (marks c) r in (b, set_marks m c).

(** The worklist loop of [collect_from]: [work.pop()] takes the last. *)
Fixpoint mark_loop (fuel : nat) (cs : Cores) (c : HeapCore) (work : list nat) : option HeapCore :=
  match fuel with
  | O => None
  | S fuel =>
      match vec_pop work with
      | None => Some c
      | Some (work, r) =>
          match mark c r with
          | (true, c) => o ← hget c r; mark_loop fuel cs c (work ++ children cs o)
          | (false, c) => mark_loop fuel cs c work
          end
      end
  end.

(** ** Sweep *)
Record SweepSt := mkSweep {
  sw_marks : SlotBits; sw_free : list nat; sw_spans : gmap nat Span; sw_grave : list Obj; sw_live : nat;
}.
(** The body of [sweep_slots]'s inner loop, on slot [idx] of the segment that starts at [start]. *)
Definition sweep_slot (start idx : nat) (slot : option Obj) (st : SweepSt) : option Obj * SweepSt :=
  match slot with
  | None => (None, st)
  | Some o =>
      if segment_mark (sw_marks st) start idx
      then (Some o, mkSweep (bits_clear (sw_marks st) idx) (sw_free st) (sw_spans st) (sw_grave st) (S (sw_live st)))
      else (None, mkSweep (sw_marks st) (sw_free st ++ [idx]) (delete idx (sw_spans st))
                    (if is_arc_core o then sw_grave st ++ [o] else sw_grave st) (sw_live st))
  end.
Fixpoint sweep_seg (start idx : nat) (seg : list (option Obj)) (st : SweepSt) : list (option Obj) * SweepSt :=
  match seg with
  | [] => ([], st)
  | s :: seg =>
      let '(s, st) := sweep_slot start idx s st in
      let '(seg, st) := sweep_seg start (S idx) seg st in (s :: seg, st)
  end.
Fixpoint sweep_segs (segs : list (nat * list (option Obj))) (st : SweepSt) : list (list (option Obj)) * SweepSt :=
  match segs with
  | [] => ([], st)
  | (start, seg) :: segs =>
      let '(seg, st) := sweep_seg start start seg st in
      let '(segs, st) := sweep_segs segs st in (seg :: segs, st)
  end.
(** [HeapCore::sweep_slots]: the core and the longer graveyard. *)
Definition sweep_slots (c : HeapCore) (grave : list Obj) : HeapCore * list Obj :=
  let '(new, st) := sweep_segs (segments (slots c)) (mkSweep (marks c) (core_free c) (err_spans c) grave 0) in
  (mkCore (write_segments (slots c) new) (sw_free st) (sw_marks st)
     (Z.max (Z.of_nat (sw_live st) * 2) MIN_GC_THRESHOLD) 0 0 (peak_live_bytes c) (mem_cap c) (over_cap c)
     (last_live_bytes c) (sw_spans st) 0, sw_grave st).

(** [Heap::live_bytes]; [core_bytes] is what a channel or executor core holds outside the heap. *)
Definition live_bytes_slot (core_bytes : nat -> Z) (acc : gset nat * Z) (slot : option Obj) : gset nat * Z :=
  match slot with
  | None => acc
  | Some o =>
      let total := (acc.2 + 64)%Z in
      match o with
      | Obj.Channel a | Obj.Executor a =>
          if decide (a ∈ acc.1) then (acc.1, (total + obj_bytes_shallow o)%Z)
          else ({[a]} ∪ acc.1, (total + core_bytes a)%Z)
      | _ => (acc.1, (total + obj_bytes_shallow o)%Z)
      end
  end.
Definition live_bytes (core_bytes : nat -> Z) (c : HeapCore) : Z :=
  (foldl (live_bytes_slot core_bytes) (∅, 0%Z) (iter (slots c))).2.
Definition record_live_bytes (c : HeapCore) (lb : Z) : HeapCore :=
  mkCore (slots c) (core_free c) (marks c) (next_gc c) (allocs c) (bytes c) (Z.max (peak_live_bytes c) lb) (mem_cap c)
    (negb (mem_cap c =? 0)%Z && (mem_cap c <? lb)%Z) lb (err_spans c) (core_retired c).

(** [Heap::sweep]. *)
Definition sweep (core_bytes : nat -> Z) (c : HeapCore) (h : Heap) : HeapCore * Heap :=
  let c := give_back c (free h) in
  let c := set_counts (allocs c) (bytes c) (core_retired c + retired h) c in
  let '(c, grave) := sweep_slots c (graveyard h) in
  (record_live_bytes c (live_bytes core_bytes c), mkHeap [] 0 0 0 None grave 0).

(** [Vm::collect_from]: [registry] is the roots of the parked contexts. *)
Definition collect_from (fuel : nat) (core_bytes : nat -> Z) (cs : Cores) (c : HeapCore) (h : Heap)
    (work registry : list nat) : option (HeapCore * Heap) :=
  c ← mark_loop fuel cs c (work ++ registry); Some (sweep core_bytes c h).

(** [impl Drop for Heap]. *)
Definition drop_handle (c : HeapCore) (h : Heap) : HeapCore :=
  let c := (flush_allocs c (since_gc h)).1 in
  let c := (flush_bytes c (since_gc_bytes h)).1 in
  let c := give_back c (free h) in
  set_counts (allocs c) (bytes c) (core_retired c + retired h) c.

(** [set_err_span] and [err_span]. *)
Definition set_err_span (c : HeapCore) (r : nat) (sp : Span) : HeapCore := set_spans (<[r := sp]> (err_spans c)) c.
Definition err_span (c : HeapCore) (r : nat) : option Span := err_spans c !! r.
Definition set_mem_cap (c : HeapCore) (h : Heap) (cap : Z) : HeapCore * Heap :=
  (mkCore (slots c) (core_free c) (marks c) (next_gc c) (allocs c) (bytes c) (peak_live_bytes c) cap false
     (last_live_bytes c) (err_spans c) (core_retired c),
   mkHeap (free h) (since_gc h) 0 (since_gc_bytes h) None (graveyard h) (retired h)).

(** ** The flat view *)
Definition live (l : list (option Obj)) (r : nat) : Prop := exists o, l !! r = Some (Some o).
Definition core_rep (c : HeapCore) (l : list (option Obj)) : Prop := slab_rep (slots c) l /\ bits_wf (marks c).

(** What a collection keeps: the roots and all their objects reach. *)
Inductive reach (cs : Cores) (l : list (option Obj)) (R : list nat) : nat -> Prop :=
| reach_root r : r ∈ R -> reach cs l R r
| reach_child r o d : reach cs l R r -> l !! r = Some (Some o) -> d ∈ children cs o -> reach cs l R d.

Lemma rep_hget c l r : core_rep c l -> hget c r = mjoin (l !! r).
Proof. intros [R _]. unfold hget. by rewrite (rep_get _ _ _ R). Qed.
Lemma rep_hget_Some c l r o : core_rep c l -> hget c r = Some o <-> l !! r = Some (Some o).
Proof.
  intros R. rewrite (rep_hget c l r R). destruct (l !! r) as [[o'|]|]; simpl; naive_solver.
Qed.
Lemma live_hget c l r : core_rep c l -> live l r <-> is_Some (hget c r).
Proof. intros R. unfold live, is_Some. by setoid_rewrite <- (rep_hget_Some c l r _ R). Qed.
Lemma live_lt l r : live l r -> r < length l.
Proof. intros [o E]. by eapply lookup_lt_Some. Qed.
Lemma rep_bound c l r : core_rep c l -> r < length l -> (Z.of_nat r < 2 ^ 32)%Z.
Proof. intros [R _] H. pose proof (sr_max _ _ R). rewrite (sr_len _ _ R) in *. lia. Qed.

Lemma rep_reuse c l idx obj : core_rep c l -> idx < length l ->
  exists c', reuse c idx obj = Some c' /\ core_rep c' (<[idx := Some obj]> l) /\
    core_free c' = core_free c /\ err_spans c' = err_spans c /\
    forall j, bits_get (marks c') j = negb (bool_decide (j = idx)) && bits_get (marks c) j.
Proof.
  intros [R W] Hi. unfold reuse. destruct (rep_set _ _ idx (Some obj) R Hi) as (s & -> & R'). simpl.
  destruct (bits_clear_spec (marks c) idx W) as [W' Hb].
  destruct (bits_get (marks c) idx) eqn:E; eexists; (split; [reflexivity|]); (split; [split; done|]);
    (split; [done|]); (split; [done|]); simpl; [exact Hb|].
  intros j. destruct (decide (j = idx)) as [->|Hne].
  - by rewrite E, andb_false_r.
  - by rewrite bool_decide_eq_false_2.
Qed.

Lemma rep_mark c l r : core_rep c l -> r < length l ->
  (mark c r).1 = negb (bits_get (marks c) r) /\ core_rep (mark c r).2 l /\
  core_free (mark c r).2 = core_free c /\ err_spans (mark c r).2 = err_spans c /\
  forall j, bits_get (marks (mark c r).2) j = bool_decide (j = r) || bits_get (marks c) j.
Proof.
  intros R Hr. pose proof (rep_bound _ _ _ R Hr) as Hb. destruct R as [R W].
  destruct (set_owned_spec (marks c) r W Hb) as (E & W' & Hg). unfold mark.
  destruct (set_owned (marks c) r) as [b m]. simpl in *. repeat (split; [done|]). exact Hg.
Qed.

(** ** Mark *)
Section mark.
  Context (cs : Cores) (l : list (option Obj)).

Definition fanout (r : nat) : nat := match l !! r with Some (Some o) => length (children cs o) | _ => 0 end.
(** The edges of the slots not yet marked. *)
Definition unmarked_edges (c : HeapCore) : nat :=
  sum_list_with (fun r => if bits_get (marks c) r then 0 else fanout r) (seq 0 (length l)).

Lemma sum_list_ext (f g : nat -> nat) (xs : list nat) :
  (forall r, f r = g r) -> sum_list_with f xs = sum_list_with g xs.
Proof. intros H. induction xs as [|x xs IH]; simpl; [done|]. by rewrite H, IH. Qed.

Lemma sum_update (f g : nat -> nat) (a n r : nat) :
  a <= r < a + n -> (forall j, j <> r -> f j = g j) -> g r = 0 -> sum_list_with f (seq a n) = sum_list_with g (seq a n) + f r.
Proof.
  intros Hr Hne Hg. revert a Hr. induction n as [|n IH]; intros a Hr; [lia|]. simpl.
  destruct (decide (a = r)) as [->|Hn].
  - assert (E : sum_list_with f (seq (S r) n) = sum_list_with g (seq (S r) n)); [|lia].
    clear IH Hr. assert (H : forall b, r < b -> sum_list_with f (seq b n) = sum_list_with g (seq b n)); [|apply H; lia].
    induction n as [|n IH]; intros b Hb; [done|]. simpl. rewrite Hne by lia. by rewrite IH by lia.
  - rewrite Hne by done. rewrite IH by lia. lia.
Qed.

Lemma mark_edges c r : core_rep c l -> r < length l -> bits_get (marks c) r = false ->
  unmarked_edges c = unmarked_edges (mark c r).2 + fanout r.
Proof.
  intros R Hr Hm. destruct (rep_mark c l r R Hr) as (_ & _ & _ & _ & Hg). unfold unmarked_edges.
  rewrite (sum_update _ (fun j => if bits_get (marks (mark c r).2) j then 0 else fanout j) 0 (length l) r); [|lia| |].
  - by rewrite Hm.
  - intros j Hj. by rewrite Hg, bool_decide_eq_false_2.
  - by rewrite Hg, bool_decide_eq_true_2.
Qed.

Context (roots : list nat) (Hclosed : forall r, reach cs l roots r -> live l r).

(** The loop's invariant: what is marked is reachable, and the frontier of the marked objects is
    marked or in the worklist. *)
Record mark_inv (c : HeapCore) (work : list nat) : Prop := {
  mi_sound : forall r, live l r -> bits_get (marks c) r = true -> reach cs l roots r;
  mi_work : forall r, r ∈ work -> reach cs l roots r;
  mi_roots : forall r, r ∈ roots -> bits_get (marks c) r = true \/ r ∈ work;
  mi_edges : forall r o d, bits_get (marks c) r = true -> l !! r = Some (Some o) -> d ∈ children cs o ->
    bits_get (marks c) d = true \/ d ∈ work;
}.

Lemma mark_inv_start c : (forall r, live l r -> bits_get (marks c) r = false) -> mark_inv c roots.
Proof.
  intros H. split.
  - intros r Hl E. by rewrite (H r Hl) in E.
  - by constructor.
  - by right.
  - intros r o d E El. rewrite (H r) in E; [done|by exists o].
Qed.

(** One round: [r] is marked, and its children join the worklist unless it was marked before. *)
Lemma mark_inv_step c c' w r o extra :
  mark_inv c (w ++ [r]) -> (forall j, bits_get (marks c') j = bool_decide (j = r) || bits_get (marks c) j) ->
  l !! r = Some (Some o) -> extra = (if bits_get (marks c) r then [] else children cs o) -> mark_inv c' (w ++ extra).
Proof.
  intros I Hg Ho Hx. assert (Hr : reach cs l roots r) by (apply (mi_work _ _ I); set_solver).
  assert (Hold : forall q, bits_get (marks c) q = true \/ q ∈ w ++ [r] -> bits_get (marks c') q = true \/ q ∈ w ++ extra).
  { intros q [H|[H| ->%list_elem_of_singleton]%elem_of_app]; rewrite Hg; [left; by rewrite H, orb_true_r|set_solver|].
    left. by rewrite bool_decide_eq_true_2. }
  split.
  - intros q Hq. rewrite Hg. case_bool_decide; [by subst|]. by apply (mi_sound _ _ I).
  - intros q [Hq|Hq]%elem_of_app; [apply (mi_work _ _ I); set_solver|]. subst extra.
    destruct (bits_get (marks c) r); [by apply elem_of_nil in Hq|by eapply reach_child].
  - intros q Hq. apply Hold. by apply (mi_roots _ _ I).
  - intros q oq d Hq Eq Hd. rewrite Hg in Hq. destruct (bits_get (marks c) q) eqn:Ebq.
    { apply Hold. by eapply (mi_edges _ _ I). }
    rewrite orb_false_r in Hq. apply bool_decide_eq_true in Hq as ->. right. subst extra. rewrite Ebq.
    rewrite Ho in Eq. injection Eq as <-. set_solver.
Qed.

Lemma mark_loop_spec c work fuel :
  core_rep c l -> mark_inv c work -> length work + unmarked_edges c < fuel ->
  exists c', mark_loop fuel cs c work = Some c' /\ core_rep c' l /\ mark_inv c' [] /\
    core_free c' = core_free c /\ err_spans c' = err_spans c.
Proof.
  revert c work. induction fuel as [|fuel IH]; intros c work R I Hf; [lia|]. simpl.
  destruct (vec_pop work) as [[w r]|] eqn:Ew; last first.
  { exists c. split; [done|]. split; [done|]. split; [|done].
    unfold vec_pop in Ew. destruct (list.last work) eqn:El; [done|]. by apply last_None in El as ->. }
  apply vec_pop_Some in Ew as ->. rewrite length_app in Hf. simpl in Hf.
  pose proof (Hclosed r (mi_work _ _ I r ltac:(set_solver))) as Hlive.
  pose proof (live_lt _ _ Hlive) as Hlt. destruct Hlive as [o Ho].
  destruct (rep_mark c l r R Hlt) as (Eb & R' & Ef & Es & Hg).
  pose proof (mark_edges c r R Hlt) as He.
  pose proof (mark_inv_step c (mark c r).2 w r o _ I Hg Ho eq_refl) as I'.
  destruct (mark c r) as [b c'] eqn:Em. cbn [fst snd] in *.
  destruct (bits_get (marks c) r) eqn:Eold; simpl in Eb; subst b.
  - rewrite app_nil_r in I'. destruct (IH c' w R' I') as (c2 & E2 & R2 & I2 & F2 & S2).
    + assert (unmarked_edges c' = unmarked_edges c); [|lia]. unfold unmarked_edges.
      apply sum_list_ext. intros q. rewrite Hg. case_bool_decide; [|done]. subst. by rewrite Eold.
    + exists c2. rewrite F2, S2. done.
  - specialize (He eq_refl). unfold fanout in He. rewrite Ho in He.
    rewrite (proj2 (rep_hget_Some c' l r o R') Ho). cbn [mbind option_bind].
    destruct (IH c' (w ++ children cs o) R' I') as (c2 & E2 & R2 & I2 & F2 & S2).
    + rewrite length_app. lia.
    + exists c2. rewrite F2, S2. done.
Qed.

(** The marks are exactly the reachable objects. *)
Lemma mark_inv_done c r : mark_inv c [] -> live l r -> bits_get (marks c) r = true <-> reach cs l roots r.
Proof.
  intros I Hl. split; [by apply (mi_sound _ _ I)|]. clear Hl. induction 1 as [r Hr|r o d Hr IH Ho Hd].
  - destruct (mi_roots _ _ I r Hr) as [?|[]%elem_of_nil]; done.
  - destruct (mi_edges _ _ I r o d IH Ho Hd) as [?|[]%elem_of_nil]; done.
Qed.
End mark.

(** ** Sweep *)

(** The sweep of a flat run of slots, the mark read directly. *)
Definition flat_slot (idx : nat) (slot : option Obj) (st : SweepSt) : option Obj * SweepSt :=
  match slot with
  | None => (None, st)
  | Some o =>
      if bits_get (sw_marks st) idx
      then (Some o, mkSweep (bits_clear (sw_marks st) idx) (sw_free st) (sw_spans st) (sw_grave st) (S (sw_live st)))
      else (None, mkSweep (sw_marks st) (sw_free st ++ [idx]) (delete idx (sw_spans st))
                    (if is_arc_core o then sw_grave st ++ [o] else sw_grave st) (sw_live st))
  end.
Fixpoint sweep_flat (idx : nat) (l : list (option Obj)) (st : SweepSt) : list (option Obj) * SweepSt :=
  match l with
  | [] => ([], st)
  | s :: l => let '(s, st) := flat_slot idx s st in let '(l, st) := sweep_flat (S idx) l st in (s :: l, st)
  end.

Lemma sweep_seg_flat k idx seg st : seg_start k <= idx -> idx + length seg <= seg_start (S k) ->
  sweep_seg (seg_start k) idx seg st = sweep_flat idx seg st.
Proof.
  revert idx st. induction seg as [|s seg IH]; intros idx st H1 H2; [done|]. simpl in *.
  assert (E : sweep_slot (seg_start k) idx s st = flat_slot idx s st).
  { unfold sweep_slot, flat_slot. destruct s; [|done]. by rewrite segment_mark_spec by lia. }
  rewrite E. destruct (flat_slot idx s st) as [s' st']. by rewrite IH by lia.
Qed.

Lemma sweep_flat_app idx l1 l2 st :
  sweep_flat idx (l1 ++ l2) st =
  let '(a, st) := sweep_flat idx l1 st in let '(b, st) := sweep_flat (idx + length l1) l2 st in (a ++ b, st).
Proof.
  revert idx st. induction l1 as [|s l1 IH]; intros idx st; simpl.
  - rewrite Nat.add_0_r. by destruct (sweep_flat idx l2 st).
  - destruct (flat_slot idx s st) as [s' st']. rewrite IH, Nat.add_succ_comm.
    destruct (sweep_flat (S idx) l1 st') as [a st2]. by destruct (sweep_flat _ l2 st2).
Qed.
Lemma sweep_flat_length idx l st : length (sweep_flat idx l st).1 = length l.
Proof.
  revert idx st. induction l as [|s l IH]; intros idx st; [done|]. simpl.
  destruct (flat_slot idx s st) as [s' st']. specialize (IH (S idx) st').
  destruct (sweep_flat (S idx) l st'). simpl in *. by rewrite IH.
Qed.

(** The segments are swept one after another as one run. *)
Lemma sweep_segs_flat l n st :
  sweep_segs ((fun k => (seg_start k, flat_seg l k)) <$> seq 0 n) st =
  let '(l', st') := sweep_flat 0 (list.take (seg_start n) l) st in
  (flat_seg l' <$> seq 0 n, st').
Proof.
  assert (Hseg : forall k, length (flat_seg l k) <= seg_cap k).
  { intros k. unfold flat_seg. rewrite length_take. lia. }
  assert (Happ : forall xs ys st, sweep_segs (xs ++ ys) st =
    let '(a, st) := sweep_segs xs st in let '(b, st) := sweep_segs ys st in (a ++ b, st)).
  { intros xs ys. induction xs as [|[s0 g0] xs IH]; intros st0; simpl; [by destruct (sweep_segs ys st0)|].
    destruct (sweep_seg s0 s0 g0 st0) as [g st1]. rewrite IH.
    destruct (sweep_segs xs st1) as [a st2]. by destruct (sweep_segs ys st2). }
  induction n as [|n IH]; [done|].
  assert (Et : list.take (seg_start (S n)) l = list.take (seg_start n) l ++ flat_seg l n).
  { rewrite <- (flat_seg_concat l (S n)), seq_S, fmap_app, join_app, flat_seg_concat. simpl. by rewrite app_nil_r. }
  rewrite Et, seq_S, !fmap_app, Happ, IH. clear Et IH.
  rewrite sweep_flat_app.
  pose proof (sweep_flat_length 0 (list.take (seg_start n) l) st) as El.
  destruct (sweep_flat 0 (list.take (seg_start n) l) st) as [a st1]. simpl in El. simpl sweep_segs.
  rewrite length_take in El. rewrite (sweep_seg_flat n) by (rewrite ?seg_next; pose proof (Hseg n); lia).
  assert (Hst : sweep_flat (seg_start n) (flat_seg l n) st1 = sweep_flat (0 + length (list.take (seg_start n) l)) (flat_seg l n) st1).
  { rewrite length_take. destruct (decide (seg_start n <= length l)); [f_equal; lia|].
    unfold flat_seg. rewrite drop_ge by lia. by rewrite take_nil. }
  rewrite Hst. set (off := 0 + length _). pose proof (sweep_flat_length off (flat_seg l n) st1) as Eb.
  destruct (sweep_flat off (flat_seg l n) st1) as [b st2]. simpl in Eb. f_equal.
  rewrite fmap_app. simpl. f_equal.
  - apply list_fmap_ext. intros i k [-> Hk]%lookup_seq. unfold flat_seg.
    destruct (decide (seg_start n <= length l)) as [Hn|Hn].
    + rewrite drop_app_le, take_app_le; [done|rewrite length_drop|];
        pose proof (seg_start_mono (S (0 + i)) n ltac:(lia)); rewrite seg_next in *; lia.
    + unfold flat_seg in Eb. rewrite drop_ge, take_nil in Eb by lia. destruct b; [|done]. by rewrite app_nil_r.
  - f_equal. unfold flat_seg. destruct (decide (seg_start n <= length l)) as [Hn|Hn].
    + rewrite drop_app_ge by lia. replace (seg_start n - length a) with 0 by lia.
      rewrite drop_0, take_ge; [done|]. rewrite Eb. apply Hseg.
    + unfold flat_seg in Eb. rewrite drop_ge, take_nil in Eb by lia. destruct b; [|done].
      rewrite app_nil_r, drop_ge by lia. by rewrite take_nil.
Qed.

(** What the sweep does to a slot: a marked object stays, an unmarked one goes. *)
Definition swept (m : SlotBits) (idx : nat) (slot : option Obj) : option Obj :=
  if bits_get m idx then slot else None.

Record sweep_ok (idx : nat) (l : list (option Obj)) (st st' : SweepSt) (fr : list nat) : Prop := {
  so_free : sw_free st' = sw_free st ++ fr;
  so_nodup : NoDup fr;
  so_freed : forall r, r ∈ fr <-> idx <= r /\ live l (r - idx) /\ bits_get (sw_marks st) r = false;
  so_spans : forall r, sw_spans st' !! r = if decide (r ∈ fr) then None else sw_spans st !! r;
  so_wf : bits_wf (sw_marks st');
  so_low : forall r, r < idx -> bits_get (sw_marks st') r = bits_get (sw_marks st) r;
  so_clear : forall r, idx <= r -> live l (r - idx) -> bits_get (sw_marks st') r = false;
}.

Lemma live_cons s l r : live (s :: l) r <-> (r = 0 /\ is_Some s) \/ exists q, r = S q /\ live l q.
Proof.
  unfold live. destruct r as [|r]; simpl.
  - split; [intros [o [= ->]]; left; eauto|intros [[_ [o ->]]|(q & [=] & _)]; by exists o].
  - split; [right; eauto|intros [[[=] _]|(q & [= ->] & H)]; done].
Qed.

(** The step on one slot. *)
Lemma flat_slot_ok idx s st : bits_wf (sw_marks st) ->
  (flat_slot idx s st).1 = swept (sw_marks st) idx s /\ exists fr, sweep_ok idx [s] st (flat_slot idx s st).2 fr.
Proof.
  intros W. unfold flat_slot, swept. destruct s as [o|]; last first.
  { split; [by destruct (bits_get _ _)|]. exists []. split; simpl; try done.
    - by rewrite app_nil_r.
    - constructor.
    - intros r. split; [by intros ?%elem_of_nil|].
      intros (_ & [[_ [? [=]]]|(q & _ & [? [=]])]%live_cons & _).
    - by intros r _ [[_ [? [=]]]|(q & _ & [? [=]])]%live_cons. }
  assert (Hlive : forall r, idx <= r -> live [Some o] (r - idx) -> r = idx).
  { intros r Hr [[H _]|(q & _ & [? [=]])]%live_cons. lia. }
  destruct (bits_get (sw_marks st) idx) eqn:Eb; (split; [done|]).
  - destruct (bits_clear_spec (sw_marks st) idx W) as [W' Hc]. exists []. split; simpl; try done.
    + by rewrite app_nil_r.
    + constructor.
    + intros r. split; [by intros ?%elem_of_nil|]. intros (Hr & Hl & Hb). rewrite (Hlive r Hr Hl) in Hb. congruence.
    + intros r Hr. by rewrite Hc, bool_decide_eq_false_2 by lia.
    + intros r Hr Hl. rewrite (Hlive r Hr Hl), Hc. by rewrite bool_decide_eq_true_2.
  - exists [idx]. split; simpl; try done.
    + apply NoDup_singleton.
    + intros r. rewrite list_elem_of_singleton. split.
      * intros ->. rewrite Nat.sub_diag. split; [done|]. split; [by exists o|done].
      * intros (Hr & Hl & _). by apply Hlive.
    + intros r. case_decide as Hr; rewrite list_elem_of_singleton in Hr.
      * subst. apply lookup_delete_eq.
      * by rewrite lookup_delete_ne by done.
    + intros r Hr Hl. by rewrite (Hlive r Hr Hl).
Qed.

Lemma sweep_ok_cons idx s l st st1 st2 fr0 fr1 :
  sweep_ok idx [s] st st1 fr0 -> sweep_ok (S idx) l st1 st2 fr1 ->
  (forall r, idx <> r -> bits_get (sw_marks st1) r = bits_get (sw_marks st) r) ->
  sweep_ok idx (s :: l) st st2 (fr0 ++ fr1).
Proof.
  intros [F1 N1 M1 S1 W1 L1 C1] [O1 O2 O3 O4 O5 O6 O7] Hm.
  assert (M1' : forall r, r ∈ fr0 <-> r = idx /\ is_Some s /\ bits_get (sw_marks st) r = false).
  { intros r. rewrite M1, live_cons. split.
    - intros (Hr & [[H0 Hs]|(q & _ & [? [=]])] & Hb). assert (r = idx) by lia. done.
    - intros (-> & Hs & Hb). rewrite Nat.sub_diag. split; [done|]. split; [by left|done]. }
  split.
  - by rewrite O1, F1, (assoc_L (++)).
  - apply list.NoDup_app. split; [done|]. split; [|done]. intros r [-> _]%M1' [H _]%O3. lia.
  - intros r. rewrite elem_of_app, M1', O3, live_cons. split.
    + intros [(-> & Hs & Hb)|(Hr & Hl & Hb)].
      * split; [done|]. split; [|done]. left. split; [lia|done].
      * split; [lia|]. split; [right; exists (r - S idx); split; [lia|done]|]. by rewrite <- Hm by lia.
    + intros (Hr & [[H0 Hs]|(q & Hq & Hl)] & Hb).
      * left. assert (r = idx) as -> by lia. done.
      * right. split; [lia|]. replace (r - S idx) with q by lia. split; [done|]. by rewrite Hm by lia.
  - intros r. rewrite O4, S1. pose proof (elem_of_app fr0 fr1 r). repeat case_decide; tauto.
  - done.
  - intros r Hr. rewrite O6, Hm by lia. done.
  - intros r Hr [[H0 Hs]|(q & Hq & Hl)]%live_cons.
    + assert (r = idx) as -> by lia. rewrite O6 by lia. apply C1; [done|].
      rewrite Nat.sub_diag. apply live_cons. by left.
    + apply O7; [lia|]. by replace (r - S idx) with q by lia.
Qed.

Lemma flat_slot_marks idx s st r : bits_wf (sw_marks st) -> idx <> r ->
  bits_get (sw_marks (flat_slot idx s st).2) r = bits_get (sw_marks st) r.
Proof.
  intros W Hr. unfold flat_slot. destruct s; [|done]. destruct (bits_get _ idx); [|done]. simpl.
  by rewrite (proj2 (bits_clear_spec _ idx W)), bool_decide_eq_false_2.
Qed.

Lemma sweep_flat_spec idx l st : bits_wf (sw_marks st) ->
  (sweep_flat idx l st).1 = imap (fun i => swept (sw_marks st) (idx + i)) l /\
  exists fr, sweep_ok idx l st (sweep_flat idx l st).2 fr.
Proof.
  revert idx st. induction l as [|s l IH]; intros idx st W.
  { split; [done|]. exists []. split; simpl; try done.
    - by rewrite app_nil_r.
    - constructor.
    - intros r. split; [by intros ?%elem_of_nil|intros (_ & [o Ho] & _); done].
    - by intros r _ [o Ho]. }
  simpl. destruct (flat_slot_ok idx s st W) as (Es & fr0 & O0). pose proof (flat_slot_marks idx s st) as Hm.
  destruct (flat_slot idx s st) as [s' st1]. cbn [fst snd] in *. subst s'.
  destruct (IH (S idx) st1 (so_wf _ _ _ _ _ O0)) as (El & fr1 & O). destruct (sweep_flat (S idx) l st1) as [l' st2].
  cbn [fst snd] in *. split; [|exists (fr0 ++ fr1); eapply sweep_ok_cons; eauto].
  rewrite El, Nat.add_0_r. f_equal. apply imap_ext. intros i x Hi. unfold compose, swept.
  rewrite Hm by (done || lia). by replace (S idx + i) with (idx + S i) by lia.
Qed.

Lemma swept_Some m l r o : imap (swept m) l !! r = Some (Some o) <-> l !! r = Some (Some o) /\ bits_get m r = true.
Proof.
  rewrite list_lookup_imap. destruct (l !! r) as [x|]; simpl; [|by split; [|intros [? _]]].
  unfold swept. destruct (bits_get m r); split; try done; [by intros [? _]|by intros [_ ?]].
Qed.
Lemma swept_None m l r : imap (swept m) l !! r = Some None <-> l !! r = Some None \/ (live l r /\ bits_get m r = false).
Proof.
  rewrite list_lookup_imap. unfold live, swept. destruct (l !! r) as [[o|]|]; simpl.
  - destruct (bits_get m r); split; try done; [intros [?|[_ ?]]; done|]. intros _. right. by eauto.
  - destruct (bits_get m r); by split; [left|].
  - split; [done|]. intros [?|[[? ?] _]]; done.
Qed.

(** [sweep_slots] in the flat view. *)
Lemma sweep_slots_spec c l grave : core_rep c l ->
  exists c' grave' fr, sweep_slots c grave = (c', grave') /\
    core_rep c' (imap (swept (marks c)) l) /\ core_free c' = core_free c ++ fr /\ NoDup fr /\
    (forall r, r ∈ fr <-> live l r /\ bits_get (marks c) r = false) /\
    (forall r, err_spans c' !! r = if decide (r ∈ fr) then None else err_spans c !! r) /\
    (forall r, live l r -> bits_get (marks c') r = false) /\ mem_cap c' = mem_cap c.
Proof.
  intros [R W]. unfold sweep_slots. rewrite (rep_segments _ _ R), sweep_segs_flat.
  rewrite take_ge by apply seg_count_cover. set (st := mkSweep _ _ _ _ _).
  destruct (sweep_flat_spec 0 l st W) as (El & fr & O). destruct (sweep_flat 0 l st) as [l' st'] eqn:Es.
  cbn [fst snd] in *. destruct O as [O1 O2 O3 O4 O5 O6 O7].
  assert (Hl : length l' = length l) by (rewrite El; apply length_imap).
  eexists _, _, fr. split; [reflexivity|]. split; [|split; [exact O1|split; [done|]]].
  - split; [|done]. cbn [slots]. replace (imap (swept (marks c)) l) with l' by exact El.
    by apply rep_write_segments.
  - cbn [err_spans marks mem_cap]. split; [|split; [exact O4|split; [|done]]].
    + intros r. rewrite O3, Nat.sub_0_r. split; [tauto|]. split; [lia|done].
    + intros r Hr. apply O7; [lia|]. by rewrite Nat.sub_0_r.
Qed.

(** ** The heap's invariant *)

(** [fs] is every free slot, in the core's stack or in some handle's cache: each is an empty slot and
    is listed once.  No object is marked between collections, and an error span belongs to a live
    object. *)
Record heap_inv (c : HeapCore) (fs : list nat) (l : list (option Obj)) : Prop := {
  hi_rep : core_rep c l;
  hi_nodup : NoDup fs;
  hi_free : forall r, r ∈ fs <-> l !! r = Some None;
  hi_marks : forall r, live l r -> bits_get (marks c) r = false;
  hi_spans : forall r sp, err_spans c !! r = Some sp -> live l r;
}.

Lemma heap_inv_perm c fs fs' l : fs ≡ₚ fs' -> heap_inv c fs l -> heap_inv c fs' l.
Proof. intros E [H1 H2 H3 H4 H5]. split; try done; [by rewrite <- E|]. intros r. by rewrite <- E. Qed.

(** Fields the slots and the free lists do not depend on. *)
Definition same_slots (c c' : HeapCore) : Prop :=
  slots c' = slots c /\ marks c' = marks c /\ err_spans c' = err_spans c.
Lemma heap_inv_same c c' fs l : same_slots c c' -> heap_inv c fs l -> heap_inv c' fs l.
Proof.
  intros (E1 & E2 & E3) [[H1 H1'] H2 H3 H4 H5]. split; unfold core_rep; rewrite ?E1, ?E2, ?E3; done.
Qed.

Lemma new_core_inv : heap_inv new_core [] [].
Proof.
  split; try done.
  - split; [apply new_slab_rep|apply no_bits_wf].
  - constructor.
  - intros r. rewrite lookup_nil. split; [by intros ?%elem_of_nil|done].
  - by intros r [o Ho].
Qed.

Lemma live_insert l r q o : r < length l -> live (<[r := Some o]> l) q <-> q = r \/ live l q.
Proof.
  intros Hr. unfold live. destruct (decide (q = r)) as [->|Hne].
  - rewrite list_lookup_insert_eq by done. split; [by left|by exists o].
  - rewrite list_lookup_insert_ne by done. split; [by right|by intros [?|?]].
Qed.

(** Putting an object into a free slot. *)
Lemma heap_inv_reuse c fs l idx obj : heap_inv c (idx :: fs) l ->
  exists c', reuse c idx obj = Some c' /\ heap_inv c' fs (<[idx := Some obj]> l) /\
    core_free c' = core_free c /\ err_spans c' = err_spans c /\ err_spans c !! idx = None /\ l !! idx = Some None.
Proof.
  intros [R N F M S]. pose proof (proj1 (F idx) (list_elem_of_here _ _)) as Hidx.
  pose proof (lookup_lt_Some _ _ _ Hidx) as Hlt.
  assert (Hdead : ~ live l idx) by (intros [o Ho]; congruence).
  destruct (rep_reuse c l idx obj R Hlt) as (c' & E & R' & Ef & Es & Hg). exists c'. split; [done|].
  split; [|split; [done|split; [done|split; [|done]]]].
  - apply list.NoDup_cons in N as [Nn Nd]. split; [done|done| | |].
    + intros r. destruct (decide (r = idx)) as [->|Hne].
      * rewrite list_lookup_insert_eq by done. by split.
      * rewrite list_lookup_insert_ne, <- F by done. rewrite elem_of_cons. split; [by right|by intros [?|?]].
    + intros r [->|Hr]%live_insert; [by rewrite Hg, bool_decide_eq_true_2| |done].
      rewrite Hg, (M r Hr). apply andb_false_r.
    + intros r sp. rewrite Es. intros Hr. apply live_insert; [done|]. right. by eapply S.
  - destruct (err_spans c !! idx) eqn:E2; [|done]. by apply S in E2.
Qed.

Lemma live_app_holes l n r : live (l ++ replicate n None) r <-> live l r.
Proof.
  unfold live. split; intros [o Ho]; exists o.
  - apply lookup_app_Some in Ho as [Ho|[_ Ho]]; [done|]. by apply lookup_replicate in Ho as [? _].
  - by apply lookup_app_l_Some.
Qed.

(** Appending empty slots. *)
Lemma heap_inv_push c fs l max : heap_inv c fs l -> (Z.of_nat (length l) < 2 ^ 32)%Z ->
  exists s, push_holes (slots c) max = Some (s, (length l, length l + push_count (length l) max)) /\
    heap_inv (set_slots s c) (fs ++ seq (length l) (push_count (length l) max))
      (l ++ replicate (push_count (length l) max) None).
Proof.
  intros [[R W] N F M S] Hl. destruct (rep_push (slots c) l max R Hl) as (s & -> & R').
  exists s. split; [done|]. set (n := push_count (length l) max) in *.
  assert (Hold : forall r, r ∈ fs -> r < length l) by (intros r Hr; eapply lookup_lt_Some, F, Hr).
  split.
  - by split.
  - apply list.NoDup_app. split; [done|]. split; [|apply NoDup_seq].
    intros r Hr [H _]%elem_of_seq. apply Hold in Hr. lia.
  - intros r. rewrite elem_of_app, F, lookup_app, elem_of_seq. destruct (l !! r) as [x|] eqn:E.
    + apply lookup_lt_Some in E. split; [intros [?|?]; [done|lia]|by left].
    + apply lookup_ge_None in E. rewrite lookup_replicate. split; [intros [?|?]; [done|]; split; [done|lia]|].
      intros [_ H]. right. lia.
  - intros r Hr%live_app_holes. by apply M.
  - intros r sp Hr. apply live_app_holes. by eapply S.
Qed.

(** An allocation fills a slot no live object has and nobody else holds. *)
Record alloc_ok (c c' : HeapCore) (l l' : list (option Obj)) (r : nat) (obj : Obj) : Prop := {
  ao_new : l' !! r = Some (Some obj);
  ao_fresh : ~ live l r;
  ao_old : forall q o, q <> r -> l' !! q = Some (Some o) <-> l !! q = Some (Some o);
  ao_span : err_spans c' = err_spans c /\ err_spans c !! r = None;
}.

Lemma alloc_ok_insert c c' l l' idx obj :
  (forall q o, l' !! q = Some (Some o) <-> l !! q = Some (Some o)) -> l' !! idx = Some None ->
  err_spans c' = err_spans c -> err_spans c !! idx = None ->
  alloc_ok c c' l (<[idx := Some obj]> l') idx obj.
Proof.
  intros Hl Hi E1 E2. split; [| | |done].
  - apply list_lookup_insert_eq. by eapply lookup_lt_Some.
  - intros [o Ho%Hl]. congruence.
  - intros q o Hne. by rewrite list_lookup_insert_ne.
Qed.

Lemma heap_alloc c h others l obj : heap_inv c (core_free c ++ free h ++ others) l ->
  (Z.of_nat (length l) < 2 ^ 32)%Z \/ core_free c ++ free h <> [] ->
  exists c' h' r l', alloc c h obj = Some (c', h', r) /\
    heap_inv c' (core_free c' ++ free h' ++ others) l' /\ alloc_ok c c' l l' r obj /\ pending_mut h' = pending_mut h.
Proof.
  intros I Hroom. unfold alloc. cbn [free charge_own].
  destruct (vec_pop (free h)) as [[fr idx]|] eqn:Ep.
  - apply vec_pop_Some in Ep. rewrite Ep in I.
    apply (heap_inv_perm _ _ (idx :: core_free c ++ fr ++ others)) in I; [|solve_Permutation].
    destruct (heap_inv_reuse _ _ _ _ obj I) as (c' & -> & I' & Ef & Es & E0 & Ei). simpl.
    eexists _, _, _, _. split; [reflexivity|]. cbn [free set_cache pending_mut]. rewrite Ef. split; [done|].
    split; [|done]. by apply alloc_ok_insert.
  - assert (Ef0 : free h = []).
    { unfold vec_pop in Ep. destruct (list.last (free h)) eqn:E; [done|]. by apply last_None in E. }
    rewrite Ef0 in *. unfold alloc_slot. destruct (vec_pop (core_free c)) as [[fr idx]|] eqn:Eq.
    + apply vec_pop_Some in Eq. rewrite Eq in I. set (from := length fr - (FREE_BATCH - 1)).
      apply (heap_inv_perm _ _ (idx :: fr ++ others)) in I; [|simpl; solve_Permutation].
      apply (heap_inv_same _ (set_free (list.take from fr) c)) in I; [|done].
      destruct (heap_inv_reuse _ _ _ _ obj I) as (c' & -> & I' & Ef & Es & E0 & Ei). simpl.
      eexists _, _, _, _. split; [reflexivity|]. cbn [free set_cache pending_mut]. rewrite Ef. cbn [core_free set_free].
      split; [|split; [|done]].
      * rewrite (assoc_L (++)), take_drop. done.
      * by apply alloc_ok_insert.
    + assert (Ec0 : core_free c = []).
      { unfold vec_pop in Eq. destruct (list.last (core_free c)) eqn:E; [done|]. by apply last_None in E. }
      rewrite Ec0 in *. destruct Hroom as [Hl|Hne]; [|done].
      destruct (heap_inv_push c _ l FREE_BATCH I Hl) as (s & -> & I'). cbn [mbind option_bind].
      destruct (push_count_bound (length l) FREE_BATCH) as [[Hn _] _]. set (n := push_count _ _) in *.
      apply (heap_inv_perm _ _ (length l :: seq (S (length l)) (n - 1) ++ others)) in I'; last first.
      { destruct n as [|n']; [lia|]. simpl. rewrite Nat.sub_0_r. solve_Permutation. }
      destruct (heap_inv_reuse _ _ _ _ obj I') as (c' & -> & I2 & Ef & Es & E0 & Ei). cbn [mbind option_bind].
      eexists _, _, _, _. split; [reflexivity|]. cbn [free set_cache pending_mut].
      rewrite Ef. cbn [core_free set_slots]. rewrite Ec0. cbn [app]. split; [|split; [|done]].
      * eapply heap_inv_perm, I2. rewrite reverse_Permutation.
        replace (length l + n - (length l + 1)) with (n - 1) by lia. by rewrite Nat.add_1_r.
      * apply alloc_ok_insert; [|done..]. intros q o. rewrite lookup_app. destruct (l !! q) eqn:E; [done|].
        rewrite lookup_replicate. split; [by intros [? _]|done].
Qed.

(** ** A collection *)

(** The rounds the mark loop needs: one per root and one per edge of the heap. *)
Definition mark_fuel (cs : Cores) (c : HeapCore) (work : list nat) : nat :=
  S (length work + sum_list_with (fun s => match s with Some o => length (children cs o) | None => 0 end) (iter (slots c))).

Lemma edges_bound cs c l : core_rep c l -> unmarked_edges cs l c <=
  sum_list_with (fun s => match s with Some o => length (children cs o) | None => 0 end) (iter (slots c)).
Proof.
  intros [R _]. rewrite (rep_iter _ _ R). unfold unmarked_edges, fanout.
  assert (H : forall (l' : list (option Obj)) b, (forall i, l' !! i = l !! (b + i)) ->
    sum_list_with (fun r => if bits_get (marks c) r then 0 else
      match l !! r with Some (Some o) => length (children cs o) | _ => 0 end) (seq b (length l')) <=
    sum_list_with (fun s => match s with Some o => length (children cs o) | None => 0 end) l'); [|by apply (H l 0)].
  intros l'. induction l' as [|s l' IH]; intros b Hl; [done|]. simpl. specialize (IH (S b)) as IH'.
  pose proof (Hl 0) as H0. rewrite Nat.add_0_r in H0. rewrite <- H0. simpl.
  assert (forall i, l' !! i = l !! (S b + i)) by (intros i; rewrite Nat.add_succ_comm; exact (Hl (S i))).
  specialize (IH' H). destruct (bits_get _ _), s; lia.
Qed.

(** [collect_from] on a heap with no dangling reachable handle: it never panics, ends within
    [mark_fuel], keeps exactly the reachable objects, as they were, and frees the other slots. *)
Lemma collect_spec fuel cb cs c h others l work registry :
  heap_inv c (core_free c ++ free h ++ others) l ->
  (forall r, reach cs l (work ++ registry) r -> live l r) ->
  mark_fuel cs c (work ++ registry) <= fuel ->
  exists c' h' l', collect_from fuel cb cs c h work registry = Some (c', h') /\
    heap_inv c' (core_free c' ++ others) l' /\ free h' = [] /\ pending_mut h' = None /\
    (forall r o, l' !! r = Some (Some o) <-> l !! r = Some (Some o) /\ reach cs l (work ++ registry) r) /\
    (forall r sp, err_spans c' !! r = Some sp <-> err_spans c !! r = Some sp /\ reach cs l (work ++ registry) r).
Proof.
  intros [R N F M S] Hc Hf. set (roots := work ++ registry) in *. unfold collect_from. fold roots.
  destruct (mark_loop_spec cs l roots Hc c roots fuel R) as (c1 & -> & R1 & I1 & Ef1 & Es1).
  { by apply mark_inv_start. }
  { pose proof (edges_bound cs c l R). unfold mark_fuel in Hf. lia. }
  pose proof (fun r => mark_inv_done cs l roots c1 r I1) as Hmark. cbn [mbind option_bind]. unfold sweep.
  set (c2 := set_counts _ _ _ (give_back c1 (free h))).
  assert (R2 : core_rep c2 l) by exact R1.
  destruct (sweep_slots_spec c2 l (graveyard h) R2) as (c3 & gv & fr & -> & R3 & F3 & N3 & M3 & S3 & K3 & _).
  assert (Hl : forall r o, imap (swept (marks c2)) l !! r = Some (Some o) <-> l !! r = Some (Some o) /\ reach cs l roots r).
  { intros r o. rewrite swept_Some. change (marks c2) with (marks c1).
    split; intros [Ho Hr]; (split; [done|]); by apply Hmark; [exists o|]. }
  assert (Hlive : forall r, live (imap (swept (marks c2)) l) r <-> live l r /\ reach cs l roots r).
  { intros r. split; [intros [o [Ho Hr]%Hl]; split; [by exists o|done]|].
    intros [[o Ho] Hr]. exists o. by apply Hl. }
  eexists _, _, (imap (swept (marks c2)) l). split; [reflexivity|]. split; [|split; [done|split; [done|split; [done|]]]].
  - apply (heap_inv_same c3); [done|]. cbn [core_free record_live_bytes]. rewrite F3.
    change (core_free c2) with (core_free c1 ++ free h). rewrite Ef1. assert (Hp : ((core_free c ++ free h) ++ fr) ++ others ≡ₚ (core_free c ++ free h ++ others) ++ fr) by solve_Permutation.
    split; [done| | | |].
    + rewrite Hp. apply list.NoDup_app. split; [done|]. split; [|done]. intros r Hr%F [[o Ho] _]%M3. congruence.
    + intros r. by rewrite Hp, elem_of_app, F, M3, swept_None.
    + intros r Hr. apply K3. by apply Hlive in Hr as [? _].
    + intros r sp. rewrite S3. case_decide as Hr; [done|]. change (err_spans c2) with (err_spans c1). rewrite Es1.
      intros Hsp. pose proof (S r sp Hsp) as Hlv. apply Hlive. split; [done|]. apply Hmark; [done|].
      destruct (bits_get (marks c1) r) eqn:Eb; [done|]. exfalso. by apply Hr, M3.
  - intros r sp. cbn [err_spans record_live_bytes]. rewrite S3. change (err_spans c2) with (err_spans c1). rewrite Es1.
    case_decide as Hr.
    + split; [done|]. intros [_ Hr2]. apply M3 in Hr as [Hlv Hb]. apply Hmark in Hr2; [|done].
      change (marks c2) with (marks c1) in Hb. congruence.
    + split; [|tauto]. intros Hsp. split; [done|]. pose proof (S r sp Hsp) as Hlv. apply Hmark; [done|].
      destruct (bits_get (marks c1) r) eqn:Eb; [done|]. exfalso. by apply Hr, M3.
Qed.
