(* ===== verification/World.v ===== *)
(** * Threads on one heap: allocation, stores and collections in any order

    A [World] is one [HeapCore], the cores behind its objects, and the threads that use it.  Each
    thread has its handle and its roots (what [Vm::gc_roots] walks: stack, frames, nurseries).  An
    action is one step of one thread, with what the VM guarantees of it as a guard: a thread names
    only handles it holds or reads out of objects it holds.  [Collect] is [Vm::collect_from] with
    every thread stopped, run over every thread's roots ([GcCoord.v] shows the coordinator gives
    it those).  The world's invariant then says that no handle a thread can reach ever dangles,
    whatever the order of the steps. *)

From S2P Require Import Channel.
From stdpp Require Import base list gmap.
From S2P Require Import Prelude Consteval Value MapData Obj Slab Heap.
Local Open Scope nat_scope.

Record Thread := mkThread { handle : Heap; roots : list nat }.
Record World := mkWorld { core : HeapCore; cores : Cores; threads : list Thread }.

Inductive action :=
| Spawn (i : nat) (rs : list nat)
| Leave (i : nat)
| SetRoots (i : nat) (rs : list nat)
| Alloc (i : nat) (obj : Obj)
| Store (i r : nat) (obj : Obj)
| SetCore (i a : nat) (k : Core)
| SetSpan (i r : nat) (sp : Span)
| Poll (i : nat)
| SetCap (i : nat) (cap : Z)
| Collect (i : nat).

Definition actor (a : action) : nat :=
  match a with
  | Spawn i _ | Leave i | SetRoots i _ | Alloc i _ | Store i _ _ | SetCore i _ _ | SetSpan i _ _ | Poll i
  | SetCap i _ | Collect i => i
  end.

Definition roots_of (ts : list Thread) : list nat := ts ≫= roots.
Definition caches_of (ts : list Thread) : list nat := ts ≫= fun t => free (handle t).
Definition others (w : World) (i : nat) : list Thread := list.take i (threads w) ++ drop (S i) (threads w).

(** The handles a thread can name: its roots and the children of the objects they name. *)
Definition reads (w : World) (t : Thread) : list nat :=
  roots t ++ (roots t ≫= fun r => match hget (core w) r with Some o => children (cores w) o | None => [] end).
Definition core_children (k : Core) : list nat :=
  match k with CChan ch => omap child (chan_iter ch) | CBox v => omap child [v] | COther => [] end.

(** What the VM guarantees of an action. *)
Definition allowed (w : World) (a : action) : bool :=
  match threads w !! actor a with
  | None => false
  | Some t =>
      let held rs := bool_decide (rs ⊆ reads w t) in
      match a with
      | Spawn _ rs | SetRoots _ rs => held rs
      | Alloc _ obj => held (children (cores w) obj)
      | Store _ r obj => bool_decide (r ∈ roots t) && held (children (cores w) obj)
      | SetCore _ _ k => held (core_children k)
      | SetSpan _ r _ => bool_decide (r ∈ roots t)
      | Leave _ | Poll _ | SetCap _ _ | Collect _ => true
      end
  end.

(** Slots are left: the slab has not reached [u32::MAX + 1] of them, or a free one is at hand. *)
Definition has_room (w : World) (a : action) : bool :=
  match a, threads w !! actor a with
  | Alloc _ _, Some t =>
      (Z.of_nat (Slab.len (slots (core w))) <? 2 ^ 32)%Z || negb (bool_decide (core_free (core w) ++ free (handle t) = []))
  | _, _ => true
  end.

Definition set_thread (i : nat) (t : Thread) (c : HeapCore) (w : World) : World :=
  mkWorld c (cores w) (<[i := t]> (threads w)).

Section Step.
Variable core_bytes : nat -> Z.

(** One action; [None] is a panic. *)
Definition step (w : World) (a : action) : option World :=
  let i := actor a in
  t ← threads w !! i;
  let h := handle t in
  match a with
  | Spawn _ rs => Some (mkWorld (core w) (cores w) (threads w ++ [mkThread on_core rs]))
  | Leave _ => Some (mkWorld (drop_handle (core w) h) (cores w) (delete i (threads w)))
  | SetRoots _ rs => Some (set_thread i (mkThread h rs) (core w) w)
  | Alloc _ obj => '(c, h, r) ← alloc (core w) h obj; Some (set_thread i (mkThread h (r :: roots t)) c w)
  | Store _ r obj =>
      h ← write (core w) h r; c ← store (core w) r obj; Some (set_thread i (mkThread h (roots t)) c w)
  | SetCore _ a k => Some (mkWorld (core w) (<[a := k]> (cores w)) (threads w))
  | SetSpan _ r sp => Some (mkWorld (set_err_span (core w) r sp) (cores w) (threads w))
  | Poll _ => '(_, c, h) ← should_collect (core w) h; Some (set_thread i (mkThread h (roots t)) c w)
  | SetCap _ cap =>
      let '(c, h) := set_mem_cap (core w) h cap in Some (set_thread i (mkThread h (roots t)) c w)
  | Collect _ =>
      let registry := roots_of (others w i) in
      '(c, h) ← collect_from (mark_fuel (cores w) (core w) (roots t ++ registry)) core_bytes (cores w) (core w) h
                  (roots t) registry;
      let stopped := (fun t => mkThread (observe_collection (handle t)) (roots t)) <$> threads w in
      Some (mkWorld c (cores w) (<[i := mkThread h (roots t)]> stopped))
  end.

Definition start_world : World := mkWorld new_core ∅ [mkThread on_core []].

Inductive reachable : World -> Prop :=
| reachable_start : reachable start_world
| reachable_step w a w' :
    reachable w -> allowed w a = true -> step w a = Some w' -> reachable w'.
End Step.

(** ** The invariant *)
Record world_inv (w : World) (l : list (option Obj)) : Prop := {
  wi_heap : heap_inv (core w) (core_free (core w) ++ caches_of (threads w)) l;
  wi_pending : forall t r b, t ∈ threads w -> pending_mut (handle t) = Some (r, b) -> live l r;
  wi_live : forall r, reach (cores w) l (roots_of (threads w)) r -> live l r;
}.

Lemma elem_roots_of ts r : r ∈ roots_of ts <-> exists t, t ∈ ts /\ r ∈ roots t.
Proof. unfold roots_of. rewrite list_elem_of_bind. split; intros (t & ? & ?); by exists t. Qed.

(** Reachability is the least set closed under roots and edges. *)
Lemma reach_closed cs l R (P : nat -> Prop) : (forall r, r ∈ R -> P r) ->
  (forall r o d, P r -> l !! r = Some (Some o) -> d ∈ children cs o -> P d) -> forall r, reach cs l R r -> P r.
Proof. intros H1 H2 r. induction 1; [by apply H1|by eapply H2]. Qed.
Lemma reach_mono cs l R R' r : R ⊆ R' -> reach cs l R r -> reach cs l R' r.
Proof. intros H. apply reach_closed; [intros; by apply reach_root, H|intros; by eapply reach_child]. Qed.

(** Splitting one thread off. *)
Section Threads.
Context (w : World) (i : nat) (t : Thread) (Ht : threads w !! i = Some t).

Lemma threads_split : threads w ≡ₚ t :: others w i.
Proof. unfold others. rewrite <- (take_drop_middle _ _ _ Ht) at 1. solve_Permutation. Qed.
Lemma threads_insert t' : <[i := t']> (threads w) ≡ₚ t' :: others w i.
Proof.
  unfold others. rewrite insert_take_drop by (by eapply lookup_lt_Some). solve_Permutation.
Qed.
Lemma threads_delete : delete i (threads w) = others w i.
Proof. apply delete_take_drop. Qed.
Lemma thread_in : t ∈ threads w.
Proof. by eapply list_elem_of_lookup_2. Qed.
Lemma roots_in r : r ∈ roots t -> r ∈ roots_of (threads w).
Proof. intros Hr. apply elem_roots_of. exists t. by split; [apply thread_in|]. Qed.
Lemma others_in q : q ∈ others w i -> q ∈ threads w.
Proof. intros H. rewrite threads_split. by right. Qed.

(** What a thread can name is reachable. *)
Lemma reads_reach l r : world_inv w l -> r ∈ reads w t -> reach (cores w) l (roots_of (threads w)) r.
Proof.
  intros I. unfold reads. rewrite elem_of_app, list_elem_of_bind. intros [H|(q & Hd & Hq)].
  - by apply reach_root, roots_in.
  - destruct (hget (core w) q) as [o|] eqn:E; [|by apply elem_of_nil in Hd].
    eapply reach_child; [by apply reach_root, roots_in|by apply (rep_hget_Some _ _ _ _ (hi_rep _ _ _ (wi_heap _ _ I)))|done].
Qed.

(** A step that leaves the objects alone: new handle state [h'], new roots [rs]. *)
Lemma inv_thread l c' h' rs : world_inv w l ->
  heap_inv c' (core_free c' ++ free h' ++ caches_of (others w i)) l ->
  (forall r b, pending_mut h' = Some (r, b) -> live l r) ->
  (forall r, r ∈ rs -> reach (cores w) l (roots_of (threads w)) r) ->
  world_inv (set_thread i (mkThread h' rs) c' w) l.
Proof.
  intros I H Hp Hr. pose proof (threads_insert (mkThread h' rs)) as E. split; simpl.
  - eapply heap_inv_perm, H. apply Permutation_app_head. symmetry. unfold caches_of. by rewrite E.
  - intros q r b. rewrite E. intros [->|Hq]%elem_of_cons; [apply Hp|]. by apply (wi_pending _ _ I), others_in.
  - intros r Hre. apply (wi_live _ _ I). revert r Hre. apply reach_closed; [|intros; by eapply reach_child].
    intros r. rewrite elem_roots_of. setoid_rewrite E. intros (q & [->|Hq]%elem_of_cons & Hq'); [by apply Hr|].
    apply reach_root, elem_roots_of. exists q. by split; [apply others_in|].
Qed.

Lemma inv_split l : world_inv w l ->
  heap_inv (core w) (core_free (core w) ++ free (handle t) ++ caches_of (others w i)) l.
Proof.
  intros I. eapply heap_inv_perm, (wi_heap _ _ I). apply Permutation_app_head. unfold caches_of. by rewrite threads_split.
Qed.
End Threads.

(** ** Each action keeps the invariant *)
Lemma heap_inv_store c fs l r o : heap_inv c fs l -> live l r ->
  exists c', store c r o = Some c' /\ heap_inv c' fs (<[r := Some o]> l) /\ core_free c' = core_free c.
Proof.
  intros [[R W] N F M S] Hr. pose proof (live_lt _ _ Hr) as Hlt. unfold store.
  destruct (rep_set _ _ r (Some o) R Hlt) as (s & -> & R'). eexists. split; [reflexivity|]. split; [|done].
  assert (Hl : forall q, live (<[r := Some o]> l) q <-> live l q).
  { intros q. rewrite live_insert by done. split; [by intros [->|?]|by right]. }
  split; [done|done| | |].
  - intros q. rewrite F. destruct (decide (q = r)) as [->|Hne]; [|by rewrite list_lookup_insert_ne].
    rewrite list_lookup_insert_eq by done. destruct Hr as [o' ->]. by split.
  - intros q ?%Hl. by apply M.
  - intros q sp ?%S. by apply Hl.
Qed.

Lemma settle_ok c l h known : core_rep c l ->
  (forall r b, pending_mut h = Some (r, b) -> live l r) ->
  exists h', settle_knowing c h known = Some h' /\ free h' = free h /\ pending_mut h' = None.
Proof.
  intros R Hp. unfold settle_knowing. destruct (pending_mut h) as [[r b]|] eqn:E; [|by exists h].
  specialize (Hp r b eq_refl). apply (live_hget _ _ _ R) in Hp as [o ->].
  destruct known as [[k z]|]; [destruct (k =? r)|]; by eexists.
Qed.

Lemma write_ok c l h r : core_rep c l -> live l r ->
  (forall q b, pending_mut h = Some (q, b) -> live l q) ->
  exists h' b, write c h r = Some h' /\ free h' = free h /\ pending_mut h' = Some (r, b).
Proof.
  intros R Hr Hp. unfold write. apply (live_hget _ _ _ R) in Hr as [o ->]. cbn [mbind option_bind].
  destruct (settle_ok c l h (Some (r, obj_bytes_shallow o)) R Hp) as (h1 & -> & E & _). cbn [mbind option_bind].
  by eexists _, _.
Qed.

Lemma flush_same c n m : same_slots c (flush_allocs c n).1 /\ core_free (flush_allocs c n).1 = core_free c /\
  same_slots c (flush_bytes c m).1 /\ core_free (flush_bytes c m).1 = core_free c.
Proof. unfold flush_allocs, flush_bytes. by destruct (n =? 0)%Z, (m =? 0)%Z. Qed.

Lemma same_slots_trans c1 c2 c3 : same_slots c1 c2 -> same_slots c2 c3 -> same_slots c1 c3.
Proof. unfold same_slots. intros (?&?&?) (?&?&?). repeat split; congruence. Qed.

Lemma poll_ok c l h : core_rep c l -> (forall q b, pending_mut h = Some (q, b) -> live l q) ->
  exists b c' h', should_collect c h = Some (b, c', h') /\ same_slots c c' /\ core_free c' = core_free c /\
    free h' = free h /\ (forall q b, pending_mut h' = Some (q, b) -> live l q).
Proof.
  intros R Hp. unfold should_collect. destruct (_ <? _)%Z; [by exists false, c, h|]. unfold should_collect_slow.
  destruct (flush_same c (since_gc h) 0) as (S1 & F1 & _). destruct (flush_allocs c (since_gc h)) as [c1 al]. simpl in S1, F1.
  set (h1 := mkHeap _ _ _ _ _ _ _).
  assert (R1 : core_rep c1 l) by (destruct S1 as (E1 & E2 & _); unfold core_rep; by rewrite E1, E2).
  destruct (settle_ok c1 l h1 None R1 Hp) as (h2 & -> & E2 & P2). cbn [mbind option_bind].
  destruct (flush_same c1 0 (since_gc_bytes h2)) as (_ & _ & S2 & F2).
  destruct (flush_bytes c1 (since_gc_bytes h2)) as [c2 by_]. cbn [fst] in S2, F2.
  destruct (_ || _); eexists _, _, _; (split; [reflexivity|]); (split; [by eapply same_slots_trans|]);
    (split; [congruence|]); destruct (mem_cap c2 =? 0)%Z; cbn [free pending_mut]; rewrite ?E2, ?P2; done.
Qed.

(** The panic of a full slab is the only one an allocation has. *)
Lemma alloc_full c h obj : core_free c = [] -> free h = [] -> (2 ^ 32 <= Z.of_nat (Slab.len (slots c)))%Z ->
  alloc c h obj = None.
Proof.
  intros E1 E2 H. unfold alloc. cbn [free charge_own]. rewrite E2. cbn [vec_pop list.last]. unfold alloc_slot.
  rewrite E1. cbn [vec_pop list.last]. unfold push_holes. by rewrite (proj2 (Z.leb_le _ _) H).
Qed.

Lemma room_or_panic core_bytes w a : has_room w a = false -> step core_bytes w a = None.
Proof.
  unfold has_room. destruct a; try done. cbn [actor]. unfold step. cbn [actor].
  destruct (threads w !! i) as [t|]; [|done]. intros [H1%Z.ltb_ge H2]%orb_false_iff.
  apply negb_false_iff, bool_decide_eq_true, app_eq_nil in H2 as [H2 H3].
  cbn [mbind option_bind]. by rewrite alloc_full.
Qed.

(** The new edges of a world with another core in place. *)
Lemma children_set_core cs a k o d : d ∈ children (<[a := k]> cs) o -> d ∈ children cs o \/ d ∈ core_children k.
Proof.
  destruct o; try (by left); cbn [children];
    (destruct (decide (a = core0)) as [->|Hne]; [rewrite lookup_insert_eq|rewrite lookup_insert_ne by done; by left]);
    destruct k; try (intros ?%elem_of_nil; done); by right.
Qed.

Section StepInv.
Context (core_bytes : nat -> Z) (w : World) (l : list (option Obj)) (I : world_inv w l).
Context (i : nat) (t : Thread) (Ht : threads w !! i = Some t).

Lemma own_pending r b : pending_mut (handle t) = Some (r, b) -> live l r.
Proof. apply (wi_pending _ _ I). by eapply thread_in. Qed.
Lemma root_live r : r ∈ roots t -> live l r.
Proof. intros Hr. apply (wi_live _ _ I), reach_root. by eapply roots_in. Qed.
Lemma root_reach r : r ∈ roots t -> reach (cores w) l (roots_of (threads w)) r.
Proof. intros Hr. apply reach_root. by eapply roots_in. Qed.
Lemma held_reach rs r : bool_decide (rs ⊆ reads w t) = true -> r ∈ rs -> reach (cores w) l (roots_of (threads w)) r.
Proof. intros H%bool_decide_eq_true Hr. by eapply reads_reach, H. Qed.
Lemma rep_now : core_rep (core w) l.
Proof. apply (wi_heap _ _ I). Qed.

Lemma inv_spawn rs : bool_decide (rs ⊆ reads w t) = true ->
  world_inv (mkWorld (core w) (cores w) (threads w ++ [mkThread on_core rs])) l.
Proof.
  intros Hh. split; simpl.
  - eapply heap_inv_perm, (wi_heap _ _ I). unfold caches_of. rewrite bind_app. simpl. by rewrite !app_nil_r.
  - intros q r b. rewrite elem_of_app, list_elem_of_singleton. intros [Hq| ->]; [by apply (wi_pending _ _ I)|done].
  - intros r Hr. apply (wi_live _ _ I). revert r Hr. apply reach_closed; [|intros; by eapply reach_child].
    intros r. unfold roots_of. rewrite bind_app, elem_of_app. simpl. rewrite app_nil_r.
    intros [Hr|Hr]; [by apply reach_root|by eapply held_reach].
Qed.

Lemma world_inv_leave : world_inv (mkWorld (drop_handle (core w) (handle t)) (cores w) (delete i (threads w))) l.
Proof.
  rewrite threads_delete. split; simpl.
  - unfold drop_handle. destruct (flush_same (core w) (since_gc (handle t)) 0) as (S1 & F1 & _).
    set (c1 := (flush_allocs _ _).1) in *. destruct (flush_same c1 0 (since_gc_bytes (handle t))) as (_ & _ & S2 & F2).
    set (c2 := (flush_bytes _ _).1) in *. apply (heap_inv_same (core w)); [by eapply same_slots_trans; [eapply same_slots_trans|]|].
    simpl. rewrite F2, F1, <- (assoc_L (++)). by apply inv_split.
  - intros q r b Hq. by eapply (wi_pending _ _ I), others_in.
  - intros r Hr. apply (wi_live _ _ I). revert Hr. apply reach_mono. intros q. rewrite !elem_roots_of.
    intros (u & Hu & Hq). exists u. by split; [eapply others_in|].
Qed.

Lemma inv_set_core a k : bool_decide (core_children k ⊆ reads w t) = true ->
  world_inv (mkWorld (core w) (<[a := k]> (cores w)) (threads w)) l.
Proof.
  intros Hh. split; simpl; [apply (wi_heap _ _ I)|apply (wi_pending _ _ I)|].
  intros r Hr. apply (wi_live _ _ I). revert r Hr. apply reach_closed; [intros; by apply reach_root|].
  intros r o d Hr Ho [Hd|Hd]%children_set_core; [by eapply reach_child|by eapply held_reach].
Qed.

Lemma inv_span r sp : r ∈ roots t -> world_inv (mkWorld (set_err_span (core w) r sp) (cores w) (threads w)) l.
Proof.
  intros Hr. split; simpl; [|apply (wi_pending _ _ I)|apply (wi_live _ _ I)].
  destruct (wi_heap _ _ I) as [R N F M S]. split; [done..|]. intros q sq. simpl.
  destruct (decide (q = r)) as [->|Hne]; [intros _; by apply root_live|].
  rewrite lookup_insert_ne by done. apply S.
Qed.

(** An allocation: the new handle names an object no thread had. *)
Lemma inv_alloc obj : bool_decide (children (cores w) obj ⊆ reads w t) = true ->
  (Z.of_nat (length l) < 2 ^ 32)%Z \/ core_free (core w) ++ free (handle t) <> [] ->
  exists c h r l', alloc (core w) (handle t) obj = Some (c, h, r) /\ alloc_ok (core w) c l l' r obj /\
    world_inv (set_thread i (mkThread h (r :: roots t)) c w) l'.
Proof.
  intros Hh Hroom. destruct (heap_alloc (core w) (handle t) (caches_of (others w i)) l obj) as
    (c & h & r & l' & E & H & A & Hp); [by apply inv_split|done|].
  exists c, h, r, l'. split; [done|]. split; [done|].
  assert (Hlive : forall q, live l q -> live l' q).
  { intros q [o Ho]. exists o. apply (ao_old _ _ _ _ _ _ A); [|done]. intros ->. by destruct (ao_fresh _ _ _ _ _ _ A); exists o. }
  pose proof (threads_insert w i t Ht (mkThread h (r :: roots t))) as Et. split; simpl.
  - eapply heap_inv_perm, H. apply Permutation_app_head. symmetry. unfold caches_of. by rewrite Et.
  - intros q x b. rewrite Et. intros [->|Hq]%elem_of_cons Hx; apply Hlive.
    + simpl in Hx. rewrite Hp in Hx. by eapply own_pending.
    + by eapply (wi_pending _ _ I), Hx; eapply others_in.
  - assert (Hcl : forall q, reach (cores w) l' (roots_of (<[i := mkThread h (r :: roots t)]> (threads w))) q ->
      q = r \/ reach (cores w) l (roots_of (threads w)) q).
    { apply reach_closed.
      - intros q. rewrite elem_roots_of. setoid_rewrite Et. intros (u & [->|Hu]%elem_of_cons & Hq).
        + simpl in Hq. apply elem_of_cons in Hq as [->|Hq]; [by left|]. right. by apply root_reach.
        + right. apply reach_root, elem_roots_of. exists u. by split; [eapply others_in|].
      - intros q o d Hq Ho Hd. right. destruct (decide (q = r)) as [->|Hne].
        + rewrite (ao_new _ _ _ _ _ _ A) in Ho. simplify_eq. by eapply held_reach.
        + destruct Hq as [->|Hq]; [done|]. apply (ao_old _ _ _ _ _ _ A) in Ho; [|done]. by eapply reach_child. }
    intros q [->|Hq]%Hcl; [by exists obj; apply (ao_new _ _ _ _ _ _ A)|]. by apply Hlive, (wi_live _ _ I).
Qed.

Lemma inv_store r obj : r ∈ roots t -> bool_decide (children (cores w) obj ⊆ reads w t) = true ->
  exists h c, write (core w) (handle t) r = Some h /\ store (core w) r obj = Some c /\
    world_inv (set_thread i (mkThread h (roots t)) c w) (<[r := Some obj]> l).
Proof.
  intros Hr Hh. pose proof (root_live r Hr) as Hlv. pose proof (live_lt _ _ Hlv) as Hlt.
  destruct (write_ok (core w) l (handle t) r rep_now Hlv own_pending) as (h & b & E & Ef & Ep).
  destruct (heap_inv_store (core w) _ l r obj (inv_split _ _ _ Ht _ I) Hlv) as (c & Ec & H & Ef2).
  exists h, c. split; [done|]. split; [done|].
  assert (Hlive : forall q, live l q -> live (<[r := Some obj]> l) q) by (intros q Hq; apply live_insert; auto).
  pose proof (threads_insert w i t Ht (mkThread h (roots t))) as Et. split; simpl.
  - rewrite Ef2. eapply heap_inv_perm, H. apply Permutation_app_head. symmetry. unfold caches_of. rewrite Et. simpl. by rewrite Ef.
  - intros q x z. rewrite Et. intros [->|Hq]%elem_of_cons Hx; apply Hlive.
    + simpl in Hx. rewrite Ep in Hx. by simplify_eq.
    + by eapply (wi_pending _ _ I), Hx; eapply others_in.
  - intros q Hq. apply Hlive, (wi_live _ _ I). revert q Hq. apply reach_closed.
    + intros q. rewrite elem_roots_of. setoid_rewrite Et. intros (u & [->|Hu]%elem_of_cons & Hq); [by apply root_reach|].
      apply reach_root, elem_roots_of. exists u. by split; [eapply others_in|].
    + intros q o d Hq. destruct (decide (q = r)) as [->|Hne].
      * rewrite list_lookup_insert_eq by done. intros [= <-] Hd. by eapply held_reach.
      * rewrite list_lookup_insert_ne by done. intros. by eapply reach_child.
Qed.
End StepInv.

(** ** A collection in a world *)
Definition stop (t : Thread) : Thread := mkThread (observe_collection (handle t)) (roots t).

Lemma reach_equiv cs l R R' r : (forall q, q ∈ R <-> q ∈ R') -> reach cs l R r <-> reach cs l R' r.
Proof. intros H. split; apply reach_mono; intros q; apply H. Qed.

Lemma roots_of_stop ts : roots_of (stop <$> ts) = roots_of ts /\ caches_of (stop <$> ts) = caches_of ts.
Proof. unfold roots_of, caches_of. rewrite !list_fmap_bind. done. Qed.

Lemma inv_collect core_bytes w l i t : world_inv w l -> threads w !! i = Some t ->
  exists c h l',
    collect_from (mark_fuel (cores w) (core w) (roots t ++ roots_of (others w i))) core_bytes (cores w) (core w) (handle t)
      (roots t) (roots_of (others w i)) = Some (c, h) /\
    world_inv (mkWorld c (cores w) (<[i := mkThread h (roots t)]> (stop <$> threads w))) l' /\
    (forall r o, l' !! r = Some (Some o) <->
       l !! r = Some (Some o) /\ reach (cores w) l (roots_of (threads w)) r) /\
    (forall r sp, err_spans c !! r = Some sp <->
       err_spans (core w) !! r = Some sp /\ reach (cores w) l (roots_of (threads w)) r).
Proof.
  intros I Ht. set (reg := roots_of (others w i)).
  assert (HR : forall q, q ∈ roots t ++ reg <-> q ∈ roots_of (threads w)).
  { intros q. rewrite elem_of_app. unfold reg. rewrite !elem_roots_of. setoid_rewrite (threads_split w i t Ht). split.
    - intros [Hq|(u & Hu & Hq)]; [exists t; split; [by left|done]|exists u; split; [by right|done]].
    - intros (u & [->|Hu]%elem_of_cons & Hq); [by left|right; by exists u]. }
  destruct (collect_spec (mark_fuel (cores w) (core w) (roots t ++ reg)) core_bytes (cores w) (core w) (handle t)
    (caches_of (others w i)) l (roots t) reg) as (c & h & l' & E & H & Ef & Ep & Hl & Hs);
    [by apply inv_split|intros r Hr; apply (wi_live _ _ I); by rewrite <- (reach_equiv _ _ _ _ _ HR)|done|].
  setoid_rewrite (reach_equiv _ _ _ _ _ HR) in Hl. setoid_rewrite (reach_equiv _ _ _ _ _ HR) in Hs.
  exists c, h, l'. split; [done|]. split; [|done].
  set (w1 := mkWorld c (cores w) (stop <$> threads w)).
  assert (Ht1 : threads w1 !! i = Some (stop t)) by (simpl; by rewrite list_lookup_fmap, Ht).
  pose proof (threads_insert w1 i _ Ht1 (mkThread h (roots t))) as Et.
  assert (Eo : others w1 i = stop <$> others w i) by (unfold others; simpl; by rewrite fmap_app, <- fmap_take, <- fmap_drop).
  destruct (roots_of_stop (others w i)) as [Er Ec]. rewrite Eo in Et.
  change (threads w1) with (stop <$> threads w) in Et. split; simpl.
  - eapply heap_inv_perm, H. apply Permutation_app_head. symmetry. rewrite <- Ec. unfold caches_of. rewrite Et. simpl. by rewrite Ef.
  - intros q r b. rewrite Et. intros [->|Hq]%elem_of_cons; [simpl; by rewrite Ep|].
    apply list_elem_of_fmap in Hq as (u & -> & _). done.
  - intros r Hr. assert (Hr0 : reach (cores w) l (roots_of (threads w)) r).
    { revert r Hr. apply reach_closed.
      - intros r Hr. apply reach_root, HR. unfold reg. rewrite <- Er. unfold roots_of in *. by rewrite Et in Hr.
      - intros r o d Hr [Ho _]%Hl Hd. by eapply reach_child. }
    destruct (wi_live _ _ I r Hr0) as [o Ho]. exists o. by apply Hl.
Qed.

Lemma world_start_inv : world_inv start_world [].
Proof.
  split; simpl; [apply new_core_inv| |].
  - intros t r b ->%list_elem_of_singleton. done.
  - apply reach_closed; [by intros r ?%elem_of_nil|]. intros r o d _ Ho. by rewrite lookup_nil in Ho.
Qed.

(** Every allowed action with a slot to spare takes its step and keeps the invariant. *)
Lemma world_step_inv core_bytes w l a : world_inv w l -> allowed w a = true -> has_room w a = true ->
  exists w' l', step core_bytes w a = Some w' /\ world_inv w' l'.
Proof.
  unfold allowed, has_room, step. intros I. destruct (threads w !! actor a) as [t|] eqn:Ht; [|done].
  destruct a; cbn [actor] in *; cbn [mbind option_bind]; intros Ha Hroom.
  - eexists _, l. split; [reflexivity|]. by eapply inv_spawn.
  - eexists _, l. split; [reflexivity|]. by eapply world_inv_leave.
  - eexists _, l. split; [reflexivity|]. eapply inv_thread; [done|done|by apply inv_split|by eapply own_pending|].
    intros r Hr. by eapply held_reach.
  - destruct (inv_alloc w l I i t Ht obj Ha) as (c & h & r & l' & -> & _ & I').
    + rewrite Ht, (sr_len _ _ (proj1 (rep_now w l I))) in Hroom. apply orb_prop in Hroom as [H%Z.ltb_lt|H]; [by left|right].
      by apply negb_true_iff, bool_decide_eq_false in H.
    + by eexists _, l'.
  - apply andb_prop in Ha as [Hr%bool_decide_eq_true Hh].
    destruct (inv_store w l I i t Ht r obj Hr Hh) as (h & c & -> & Ec & I'). cbn [mbind option_bind]. rewrite Ec. by eexists _, _.
  - eexists _, l. split; [reflexivity|]. by eapply inv_set_core.
  - eexists _, l. split; [reflexivity|]. eapply inv_span; [done|done|]. by apply bool_decide_eq_true in Ha.
  - destruct (poll_ok (core w) l (handle t) (rep_now w l I) (own_pending w l I i t Ht)) as (b & c & h & -> & S & Ef & Eh & Hp).
    cbn [mbind option_bind]. eexists _, l. split; [reflexivity|]. eapply inv_thread; [done|done| |done|by eapply root_reach].
    apply (heap_inv_same (core w)); [done|]. rewrite Ef, Eh. by apply inv_split.
  - eexists _, l. split; [reflexivity|]. eapply inv_thread; [done|done| |done|by eapply root_reach].
    apply (heap_inv_same (core w)); [done|]. by apply inv_split.
  - destruct (inv_collect core_bytes w l i t I Ht) as (c & h & l' & -> & I' & _). cbn [mbind option_bind]. by eexists _, l'.
Qed.

Lemma world_reachable_inv core_bytes w : reachable core_bytes w -> exists l, world_inv w l.
Proof.
  induction 1 as [|w a w' _ [l I] Ha Hs]; [exists []; apply world_start_inv|].
  destruct (has_room w a) eqn:Hr; [|by rewrite room_or_panic in Hs].
  destruct (world_step_inv core_bytes w l a I Ha Hr) as (w2 & l2 & E & I2). exists l2. by simplify_eq.
Qed.

Lemma inv_iter w l : world_inv w l -> iter (slots (core w)) = l.
Proof. intros I. apply rep_iter, (rep_now w l I). Qed.

(** What the threads reach in a world. *)
Definition held (w : World) (r : nat) : Prop := reach (cores w) (iter (slots (core w))) (roots_of (threads w)) r.

(** C5: In every world the threads can get to, whatever the order of spawns, allocations, stores,
    core writes, polls, exits and collections, each handle a thread can reach through roots,
    object fields, channel buffers and boxes names a live object (a read of it does not hit the
    dangling-handle panic), and each error span belongs to a live object. *)
Theorem heap_no_dangling core_bytes (w : World) (r : nat) (Hw : reachable core_bytes w) (Hr : held w r) :
  is_Some (hget (core w) r) /\ forall q sp, err_span (core w) q = Some sp -> is_Some (hget (core w) q).
Proof.
  destruct (world_reachable_inv _ _ Hw) as [l I]. pose proof (rep_now w l I) as R. unfold held in Hr. rewrite (inv_iter w l I) in Hr.
  split; [by apply (live_hget _ _ _ R), (wi_live _ _ I)|]. intros q sp Hq. apply (live_hget _ _ _ R).
  by eapply (hi_spans _ _ _ (wi_heap _ _ I)).
Qed.

(** An allowed action never panics unless it allocates in a heap whose 2^32 slots are all in
    use; a collection in particular ends within [mark_fuel] rounds and reads no freed slot. *)
Lemma heap_step_progress core_bytes (w : World) (a : action) (Hw : reachable core_bytes w)
  (Ha : allowed w a = true) (Hroom : has_room w a = true) : exists w', step core_bytes w a = Some w' /\ reachable core_bytes w'.
Proof.
  destruct (world_reachable_inv _ _ Hw) as [l I]. destruct (world_step_inv core_bytes w l a I Ha Hroom) as (w' & l' & E & _).
  exists w'. split; [done|]. by eapply reachable_step.
Qed.

(** C2: A collection in any reachable world keeps exactly the objects some thread reaches, as they
    are and with their error spans; every other slot becomes free, listed once, and no roots
    change. *)
Theorem gc_exact core_bytes (w : World) (i : nat) (Hw : reachable core_bytes w)
  (Ha : allowed w (Collect i) = true) : exists w', step core_bytes w (Collect i) = Some w' /\
    (forall r o, hget (core w') r = Some o <-> hget (core w) r = Some o /\ held w r) /\
    (forall r sp, err_span (core w') r = Some sp <-> err_span (core w) r = Some sp /\ held w r) /\
    NoDup (core_free (core w') ++ caches_of (threads w')) /\
    (forall r, r ∈ core_free (core w') ++ caches_of (threads w') <->
       r < Slab.len (slots (core w')) /\ hget (core w') r = None) /\
    roots <$> threads w' = roots <$> threads w.
Proof.
  destruct (world_reachable_inv _ _ Hw) as [l I]. unfold held. rewrite (inv_iter w l I). pose proof (rep_now w l I) as R.
  unfold allowed in Ha. cbn [actor] in Ha. destruct (threads w !! i) as [t|] eqn:Ht; [|done].
  destruct (inv_collect core_bytes w l i t I Ht) as (c & h & l' & E & I' & Hl & Hs).
  pose proof (rep_now _ _ I') as R'. pose proof (wi_heap _ _ I') as H'. cbn [core] in R', H'.
  exists (mkWorld c (cores w) (<[i := mkThread h (roots t)]> (stop <$> threads w))). unfold step. cbn [actor].
  rewrite Ht. cbn [mbind option_bind]. rewrite E. split; [done|]. cbn [core threads].
  split; [|split; [done|split; [apply H'|split]]].
  - intros r o. by rewrite (rep_hget_Some _ _ _ _ R), (rep_hget_Some _ _ _ _ R').
  - intros r. rewrite (hi_free _ _ _ H'), (rep_hget _ _ _ R'), (sr_len _ _ (proj1 R')). split.
    + intros Hr. split; [by eapply lookup_lt_Some|by rewrite Hr].
    + intros [[x Hx]%lookup_lt_is_Some_2 Hn]. rewrite Hx in Hn |- *. simpl in Hn. by subst.
  - rewrite list_fmap_insert, <- list_fmap_compose. apply list_insert_id. by rewrite list_lookup_fmap, Ht.
Qed.

(** An allocation returns a handle that named no object, and no thread could reach, with no
    error span left over from the slot's last object; it then names the new object, and every
    other object is as it was. *)
Lemma alloc_fresh core_bytes (w : World) (i : nat) (obj : Obj) (Hw : reachable core_bytes w)
  (Ha : allowed w (Alloc i obj) = true) (Hroom : has_room w (Alloc i obj) = true) :
  exists w' r rs, step core_bytes w (Alloc i obj) = Some w' /\ roots <$> threads w' !! i = Some (r :: rs) /\
    roots <$> threads w !! i = Some rs /\ hget (core w) r = None /\ ~ held w r /\ hget (core w') r = Some obj /\
    err_span (core w') r = None /\ forall q o, q <> r -> hget (core w') q = Some o <-> hget (core w) q = Some o.
Proof.
  destruct (world_reachable_inv _ _ Hw) as [l I]. unfold held. rewrite (inv_iter w l I). pose proof (rep_now w l I) as R.
  unfold allowed in Ha. unfold has_room in Hroom. cbn [actor] in Ha, Hroom.
  destruct (threads w !! i) as [t|] eqn:Ht; [|done].
  destruct (inv_alloc w l I i t Ht obj Ha) as (c & h & r & l' & E & A & I').
  { rewrite (sr_len _ _ (proj1 R)) in Hroom. apply orb_prop in Hroom as [H%Z.ltb_lt|H]; [by left|right].
    by apply negb_true_iff, bool_decide_eq_false in H. }
  pose proof (rep_now _ _ I') as R'. destruct A as [An Af Ao [Es En]].
  exists (set_thread i (mkThread h (r :: roots t)) c w), r, (roots t). unfold step. cbn [actor]. rewrite Ht.
  cbn [mbind option_bind]. rewrite E. split; [done|]. simpl in R' |- *.
  split; [by rewrite list_lookup_insert_eq by (by eapply lookup_lt_Some)|]. split; [done|].
  split; [|split; [by intros Hr%(wi_live _ _ I)|split; [by apply (rep_hget_Some _ _ _ _ R')|split]]].
  - destruct (hget (core w) r) eqn:E1; [|done]. destruct Af. apply (live_hget _ _ _ R). by rewrite E1.
  - unfold err_span. by rewrite Es.
  - intros q o Hq. rewrite (rep_hget_Some _ _ _ _ R), (rep_hget_Some _ _ _ _ R'). by apply Ao.
Qed.

(** ** Runs *)
Fixpoint run (core_bytes : nat -> Z) (w : World) (acts : list action) : option World :=
  match acts with
  | [] => Some w
  | a :: acts => if allowed w a then w' ← step core_bytes w a; run core_bytes w' acts else None
  end.
Lemma world_run_reachable core_bytes acts w w' : reachable core_bytes w -> run core_bytes w acts = Some w' -> reachable core_bytes w'.
Proof.
  revert w. induction acts as [|a acts IH]; intros w Hw; simpl; [by intros [= <-]|].
  destruct (allowed w a) eqn:Ha; [|done]. intros (w1 & E & H)%bind_Some. eapply IH, H. by eapply reachable_step.
Qed.

(** Two strings and a list of the first; the second string is garbage once its root is dropped. *)
Module Demo.
Definition none (_ : nat) : Z := 0.
Definition acts : list action :=
  [Alloc 0 (Obj.Str [104; 105]%Z); Alloc 0 (Obj.Str [0]%Z); Alloc 0 (Obj.List (mkRVec [TObj 0] 4%Z));
   SetSpan 0 0 (mkSpan 3 4 0); SetSpan 0 1 (mkSpan 5 6 0); Spawn 0 [2]; SetRoots 0 [2]; Alloc 1 (Obj.Tuple (mkRVec [TObj 2] 1%Z));
   Store 1 2 (Obj.List (mkRVec [TObj 0; TInt 7] 4%Z)); Poll 1].
Definition world : World := default start_world (run none start_world acts).
Lemma world_reachable : reachable none world.
Proof.
  unfold world. destruct (run none start_world acts) as [w|] eqn:E; [|apply reachable_start].
  eapply world_run_reachable, E. apply reachable_start.
Qed.
Lemma held_string : held world 0.
Proof.
  unfold held. eapply reach_child; [apply reach_root with (r := 2)| |].
  - vm_compute. left.
  - vm_compute. reflexivity.
  - vm_compute. left.
Qed.
End Demo.

Lemma heap_no_dangling_witness : reachable Demo.none Demo.world /\ held Demo.world 0 /\
  is_Some (hget (core Demo.world) 0) /\ (err_span (core Demo.world) 1 = Some (mkSpan 5 6 0)).
Proof.
  split; [exact Demo.world_reachable|]. split; [exact Demo.held_string|].
  split; [|vm_compute; reflexivity]. exact (proj1 (heap_no_dangling Demo.none Demo.world 0 Demo.world_reachable Demo.held_string)).
Defined.

(** The collection by thread 1 keeps the first string and frees the second one's slot and span. *)
Lemma gc_exact_witness : allowed Demo.world (Collect 1) = true /\
  exists w', step Demo.none Demo.world (Collect 1) = Some w' /\ hget (core w') 0 = Some (Obj.Str [104; 105]%Z) /\ NoDup (core_free (core w') ++ caches_of (threads w')).
Proof.
  assert (Ha : allowed Demo.world (Collect 1) = true) by (vm_compute; reflexivity).
  split; [exact Ha|]. destruct (gc_exact _ _ _ Demo.world_reachable Ha) as (w' & E & H1 & _ & H3 & _).
  exists w'. split; [exact E|]. split; [|exact H3]. apply H1. split; [vm_compute; reflexivity|exact Demo.held_string].
Defined.
Example gc_frees_garbage : match step Demo.none Demo.world (Collect 1) with
  | Some w => hget (core w) 1 = None /\ err_span (core w) 1 = None /\ 1 ∈ core_free (core w)
  | None => False end.
Proof. vm_compute. repeat split. left. Qed.

