(* ===== verification/GcCoord.v ===== *)
(** * The stop-the-world coordinator: [src/src/vm/gc_coord.rs]

    [State] is the state behind the coordinator's mutex, with the [stw] flag ([max_stop], a
    duration, is left out).  A thread's position is its [pc]: a critical section under the lock is
    one step, a wait on the condition variable is a position with an [asleep] flag that
    [notify_all] clears, and so may a spurious wake-up.  A [notify_all] made right after the unlock
    belongs to the unlocking step.  A safepoint's relaxed load of [stw] may return anything, so [Poll] takes
    the value it saw.  Counters and ticket numbers are unbounded.

    [Sys] runs any number of threads in any interleaving.  The theorems say what the collector
    relies on (everyone else is stopped, every root is handed in), that no step panics, and that a
    requested stop ends. *)

From stdpp Require Import base list.
From S2P Require Import Prelude.
Local Open Scope nat_scope.

Inductive Phase := Idle | Requested | Collecting.
#[global] Instance Phase_eq_dec : EqDecision Phase.
Proof. solve_decision. Defined.

Record State := mkState {
  phase : Phase; attached : nat; stopped : nat; gc_epoch : nat; stopped_roots : list nat;
  detached_roots : list (nat * list nat); next_ticket : nat; stops : nat; stw : bool;
}.
Definition new_coord : State := mkState Idle 0 0 0 [] [] 0 0 false.

(** ** The critical sections *)

(** The body of [attach] after [wait_idle]. *)
Definition attach (st : State) : State :=
  mkState (phase st) (attached st + 1) (stopped st) (gc_epoch st) (stopped_roots st) (detached_roots st) (next_ticket st)
    (stops st) (stw st).

(** [GcCoord::leave]: the state and whether it wakes; [None] is the underflow panic. *)
Definition leave (st : State) : option (State * bool) :=
  if attached st =? 0 then None
  else Some (mkState (phase st) (attached st - 1) (stopped st) (gc_epoch st) (stopped_roots st) (detached_roots st)
               (next_ticket st) (stops st) (stw st), bool_decide (phase st = Requested)).

(** [GcCoord::park], up to its wait; it wakes everyone. *)
Definition park (st : State) (roots : list nat) : State :=
  mkState (phase st) (attached st) (stopped st + 1) (gc_epoch st) (stopped_roots st ++ roots) (detached_roots st)
    (next_ticket st) (stops st) (stw st).

(** [Attached::detach]: the ticket's number and epoch. *)
Definition detach (st : State) (roots : list nat) : option (State * bool * (nat * nat)) :=
  let id := next_ticket st in
  let epoch := gc_epoch st in
  '(st, w) ← leave (mkState (phase st) (attached st) (stopped st) (gc_epoch st) (stopped_roots st)
                      (detached_roots st ++ [(id, roots)]) (id + 1) (stops st) (stw st));
  Some (st, w, (id, epoch)).

(** [request_collect] in [Idle], up to its wait. *)
Definition request (st : State) : State :=
  mkState Requested (attached st) (stopped st) (gc_epoch st) (stopped_roots st) (detached_roots st) (next_ticket st)
    (stops st) true.
(** The negated condition of its wait. *)
Definition all_stopped (st : State) : bool := attached st <=? stopped st + 1.
(** The rest of it: the roots the collector runs with. *)
Definition begin_collect (st : State) (own_roots : list nat) : State * list nat :=
  (mkState Collecting (attached st) (stopped st) (gc_epoch st) [] (detached_roots st) (next_ticket st) (stops st + 1) (stw st),
   own_roots ++ stopped_roots st ++ (detached_roots st ≫= snd)).

(** [Release::drop]; it wakes everyone. *)
Definition release (st : State) : State :=
  mkState Idle (attached st) 0 (gc_epoch st + 1) [] (detached_roots st) (next_ticket st) (stops st) false.

(** [Vec::swap_remove] at an index in range, and [withdraw]; [None] is the [expect]. *)
Definition swap_remove {A} (l : list A) (k : nat) : list A :=
  let init := list.take (length l - 1) l in
  match list.last l with Some x => if k <? length init then <[k := x]> init else init | None => [] end.
Definition withdraw (st : State) (id : nat) : option State :=
  '(at_, _) ← list_find (fun e => e.1 = id) (detached_roots st);
  Some (mkState (phase st) (attached st) (stopped st) (gc_epoch st) (stopped_roots st)
          (swap_remove (detached_roots st) at_) (next_ticket st) (stops st) (stw st)).

(** The body of [reattach] after [wait_idle]; the flag is whether a collection ran. *)
Definition reattach (st : State) (id epoch : nat) : option (State * bool) :=
  st ← withdraw st id; let st := attach st in Some (st, negb (gc_epoch st =? epoch)).

(** ** Threads *)
Inductive pc :=
| Out
| AttachWait (asleep : bool)
| Run
| AtLock
| Parked (epoch : nat) (asleep : bool)
| ReqWait (asleep : bool)
| Collect (union : list nat)
| Detached (id epoch : nat)
| ReattachWait (id epoch : nat) (asleep : bool).
(** [roots] is what the thread hands in: it does not change while the thread is not running. *)
Record Thread := mkThread { at_ : pc; roots : list nat }.

Definition wake (t : Thread) : Thread :=
  mkThread (match at_ t with
            | AttachWait _ => AttachWait false
            | Parked e _ => Parked e false
            | ReqWait _ => ReqWait false
            | ReattachWait id e _ => ReattachWait id e false
            | p => p
            end) (roots t).

Inductive act :=
| AAttach | AWake | AMutate (rs : list nat) | APoll (saw : bool) | AStop | ADetach | ALeave | ARequest | ARelease
| AReattach | ADropTicket | ASpurious.

Record Sys := mkSys { st : State; thr : list Thread }.
Definition start_sys (n : nat) : Sys := mkSys new_coord (replicate n (mkThread Out [])).

(** What a step of one thread gives: its new position, the state, and whether everyone is woken. *)
Inductive outcome := Refuse | Panic | Next (st : State) (t : Thread) (notify : bool).
Definition of_option (o : option (State * bool)) (t : Thread) : outcome :=
  match o with Some (st, w) => Next st t w | None => Panic end.

(** [while phase != Idle { wait }] then the body. *)
Definition attach_loop (st : State) (rs : list nat) : outcome :=
  if bool_decide (phase st = Idle) then Next (attach st) (mkThread Run rs) false
  else Next st (mkThread (AttachWait true) rs) false.
Definition reattach_loop (st : State) (id epoch : nat) (rs : list nat) : outcome :=
  if bool_decide (phase st = Idle)
  then match reattach st id epoch with Some (st, _) => Next st (mkThread Run rs) false | None => Panic end
  else Next st (mkThread (ReattachWait id epoch true) rs) false.
(** [while stopped + 1 < attached { wait }] then the collection. *)
Definition request_loop (st : State) (rs : list nat) : outcome :=
  if all_stopped st then let '(st, union) := begin_collect st rs in Next st (mkThread (Collect union) rs) false
  else Next st (mkThread (ReqWait true) rs) false.
(** [while gc_epoch == epoch { wait }]. *)
Definition park_loop (st : State) (epoch : nat) (rs : list nat) : outcome :=
  if gc_epoch st =? epoch then Next st (mkThread (Parked epoch true) rs) false else Next st (mkThread Run rs) false.
Definition park_here (st : State) (rs : list nat) : outcome :=
  Next (park st rs) (mkThread (Parked (gc_epoch st) true) rs) true.

Definition thread_step (st : State) (t : Thread) (a : act) : outcome :=
  let rs := roots t in
  match at_ t, a with
  | Out, AAttach => attach_loop st rs
  | AttachWait false, AWake => attach_loop st rs
  | Run, AMutate rs => Next st (mkThread Run rs) false
  | Run, APoll saw => Next st (mkThread (if saw then AtLock else Run) rs) false
  | AtLock, AStop => if bool_decide (phase st = Idle) then Next st (mkThread Run rs) false else park_here st rs
  | Parked epoch false, AWake => park_loop st epoch rs
  | Run, ADetach =>
      match detach st rs with Some (st, w, (id, e)) => Next st (mkThread (Detached id e) rs) w | None => Panic end
  | Run, ALeave => of_option (leave st) (mkThread Out [])
  | Run, ARequest => if bool_decide (phase st = Idle) then request_loop (request st) rs else park_here st rs
  | ReqWait false, AWake => request_loop st rs
  | Collect _, ARelease => Next (release st) (mkThread Run rs) true
  | Detached id epoch, AReattach => reattach_loop st id epoch rs
  | ReattachWait id epoch false, AWake => reattach_loop st id epoch rs
  | Detached id _, ADropTicket =>
      match withdraw st id with Some st => Next st (mkThread Out []) false | None => Panic end
  | (AttachWait _ | Parked _ _ | ReqWait _ | ReattachWait _ _ _), ASpurious => Next st (wake t) false
  | _, _ => Refuse
  end.

(** The whole system: thread [i] takes the step; a notify wakes the others (a thread that notifies
    is not itself asleep until it waits). *)
Definition sys_next (s : Sys) (i : nat) (st' : State) (t' : Thread) (notify : bool) : Sys :=
  mkSys st' (<[i := t']> (if notify then wake <$> thr s else thr s)).
Inductive sys_step (s : Sys) : Sys -> Prop :=
| sys_step_intro i t a st' t' n :
    thr s !! i = Some t -> thread_step (st s) t a = Next st' t' n -> sys_step s (sys_next s i st' t' n).
Inductive reachable (n : nat) : Sys -> Prop :=
| reachable_start : reachable n (start_sys n)
| reachable_step s s' : reachable n s -> sys_step s s' -> reachable n s'.

(** ** The invariant *)
Definition att (t : Thread) : nat :=
  match at_ t with Run | AtLock | Parked _ _ | ReqWait _ | Collect _ => 1 | _ => 0 end.
Definition owner (t : Thread) : nat := match at_ t with ReqWait _ | Collect _ => 1 | _ => 0 end.
Definition now (e : nat) (t : Thread) : nat := match at_ t with Parked e' _ => if e =? e' then 1 else 0 | _ => 0 end.
(** An attached thread the stop still waits for. *)
Definition loose (e : nat) (t : Thread) : nat :=
  match at_ t with Run | AtLock => 1 | Parked e' _ => if e =? e' then 0 else 1 | _ => 0 end.
Definition now_roots (e : nat) (t : Thread) : list nat := if now e t =? 0 then [] else roots t.
Definition published (t : Thread) : list (nat * list nat) :=
  match at_ t with Detached id _ | ReattachWait id _ _ => [(id, roots t)] | _ => [] end.

(** What a position says of the state; [asleep] only while the waited-for condition is false. *)
Definition thread_ok (st : State) (t : Thread) : Prop :=
  match at_ t with
  | Out => roots t = []
  | AttachWait asleep => roots t = [] /\ (asleep = true -> phase st <> Idle)
  | ReattachWait _ e asleep => e <= gc_epoch st /\ (asleep = true -> phase st <> Idle)
  | Parked e asleep => e <= gc_epoch st /\ (asleep = true -> e = gc_epoch st)
  | ReqWait asleep => phase st = Requested /\ (asleep = true -> all_stopped st = false)
  | Collect _ => phase st = Collecting
  | Detached _ e => e <= gc_epoch st
  | Run | AtLock => True
  end.

Record inv (st : State) (ts : list Thread) : Prop := {
  i_att : attached st = sum_list_with att ts;
  i_own : sum_list_with owner ts = if decide (phase st = Idle) then 0 else 1;
  i_stop : stopped st = sum_list_with (now (gc_epoch st)) ts;
  i_roots : stopped_roots st ≡ₚ if decide (phase st = Collecting) then [] else ts ≫= now_roots (gc_epoch st);
  i_pub : detached_roots st ≡ₚ ts ≫= published;
  i_ids : NoDup (detached_roots st).*1 /\ Forall (fun id => id < next_ticket st) (detached_roots st).*1;
  i_idle : phase st = Idle -> stopped st = 0;
  i_coll : phase st = Collecting -> attached st = stopped st + 1;
  i_thr : Forall (thread_ok st) ts;
  i_union : forall t union, t ∈ ts -> at_ t = Collect union ->
    roots t ⊆ union /\ (ts ≫= now_roots (gc_epoch st)) ⊆ union /\ (detached_roots st ≫= snd) ⊆ union;
  i_stw : stw st = negb (bool_decide (phase st = Idle));
}.

Lemma inv_perm st ts ts' : ts ≡ₚ ts' -> inv st ts -> inv st ts'.
Proof.
  intros E [H1 H2 H3 H4 H5 H6 H7 H8 H9 H10 H11].
  assert (Hs : forall f : Thread -> nat, sum_list_with f ts = sum_list_with f ts') by (intros f; by rewrite E).
  split; rewrite <- ?Hs; try done.
  - rewrite H4. case_decide; [done|]. by rewrite E.
  - by rewrite H5, E.
  - by rewrite <- E.
  - intros t union. rewrite <- E. apply H10.
Qed.

(** A wake-up changes no count. *)
Lemma wake_same e t : att (wake t) = att t /\ owner (wake t) = owner t /\ now e (wake t) = now e t /\
  loose e (wake t) = loose e t /\ now_roots e (wake t) = now_roots e t /\ published (wake t) = published t /\
  (forall u, at_ (wake t) = Collect u <-> at_ t = Collect u).
Proof. destruct t as [p rs]. unfold now_roots. by destruct p. Qed.
Lemma wake_ok st t : thread_ok st t -> thread_ok st (wake t).
Proof. destruct t as [p rs]. destruct p; unfold thread_ok; simpl; intuition done. Qed.

Lemma sum_with_ext {A B} (f : A -> nat) (g : B -> nat) (h : A -> B) l : (forall x, g (h x) = f x) ->
  sum_list_with g (h <$> l) = sum_list_with f l.
Proof. intros H. induction l as [|x l IH]; [done|]. csimpl. by rewrite H, IH. Qed.
Lemma bind_with_ext {A B C} (f : A -> list C) (g : B -> list C) (h : A -> B) l : (forall x, g (h x) = f x) ->
  (h <$> l) ≫= g = l ≫= f.
Proof. intros H. induction l as [|x l IH]; [done|]. csimpl. by rewrite H, IH. Qed.

Lemma inv_wake st ts : inv st ts -> inv st (wake <$> ts).
Proof.
  intros [H1 H2 H3 H4 H5 H6 H7 H8 H9 H10 H11].
  rewrite <- (sum_with_ext att att wake) in H1 by apply (wake_same 0).
  rewrite <- (sum_with_ext owner owner wake) in H2 by apply (wake_same 0).
  rewrite <- (sum_with_ext (now _) (now (gc_epoch st)) wake) in H3 by apply wake_same.
  rewrite <- (bind_with_ext (now_roots _) (now_roots (gc_epoch st)) wake) in H4 by apply wake_same.
  rewrite <- (bind_with_ext published published wake) in H5 by apply (wake_same 0).
  split; try done.
  - apply Forall_fmap. eapply list.Forall_impl; [exact H9|]. intros t. apply wake_ok.
  - intros t union (u & -> & Hu)%list_elem_of_fmap Ht. rewrite (bind_with_ext (now_roots (gc_epoch st))) by apply wake_same.
    apply (H10 u); [done|]. by apply (wake_same 0 u).
Qed.

Lemma loose_sum e ts : sum_list_with att ts = sum_list_with (now e) ts + sum_list_with owner ts + sum_list_with (loose e) ts.
Proof.
  induction ts as [|[p rs] ts IH]; [done|]. simpl. rewrite IH. unfold att, now, owner, loose. simpl.
  destruct p as [| | | |e' | | | |]; try lia. destruct (e =? e'); lia.
Qed.
Lemma sum_zero {A} (f : A -> nat) l x : sum_list_with f l = 0 -> x ∈ l -> f x = 0.
Proof. intros H Hx. apply (sum_list_with_in _ f) in Hx. lia. Qed.

(** Rules for the others' positions when the state changes. *)
Definition same_counts (s s' : State) : Prop := attached s' = attached s /\ stopped s' = stopped s.
Lemma ok_counts s s' t : phase s' = phase s -> gc_epoch s' = gc_epoch s ->
  same_counts s s' \/ (phase s = Requested -> wake t = t) -> thread_ok s t -> thread_ok s' t.
Proof.
  intros E1 E2 Hw. destruct t as [p rs]. unfold thread_ok. cbn [at_ roots]. rewrite E1, E2. destruct p; try done.
  intros [Hp Hs]. split; [done|]. destruct Hw as [[E3 E4]|Hw]; [unfold all_stopped; by rewrite E3, E4|].
  specialize (Hw Hp). injection Hw as <-. done.
Qed.
Lemma forall_counts s s' ts : phase s' = phase s -> gc_epoch s' = gc_epoch s ->
  same_counts s s' \/ (phase s = Requested -> wake <$> ts = ts) -> Forall (thread_ok s) ts -> Forall (thread_ok s') ts.
Proof.
  intros E1 E2 Hw. rewrite !list.Forall_forall. intros H t Ht. apply (ok_counts s); [done..| |by apply H].
  destruct Hw as [Hw|Hw]; [by left|right].
  intros Hp. specialize (Hw Hp). apply list_elem_of_lookup in Ht as [i Hi]. pose proof Hi as Hi'.
  rewrite <- Hw, list_lookup_fmap, Hi in Hi'. simpl in Hi'. congruence.
Qed.
Lemma wake_wake (ts : list Thread) : wake <$> (wake <$> ts) = wake <$> ts.
Proof. rewrite <- list_fmap_compose. apply list_fmap_ext. intros i [[] rs] _; done. Qed.

Lemma swap_remove_perm {A} (l : list A) k x : l !! k = Some x -> l ≡ₚ x :: swap_remove l k.
Proof.
  intros Hk. unfold swap_remove. destruct (list.last l) as [y|] eqn:El; [|apply last_None in El; by subst].
  apply last_Some in El as [init ->]. rewrite length_app. simpl.
  replace (length init + 1 - 1) with (length init) by lia. rewrite take_app_length. destruct (Nat.ltb_spec k (length init)) as [H|H].
  - rewrite lookup_app_l in Hk by done. rewrite insert_take_drop by done. rewrite <- (take_drop_middle init k x Hk) at 1.
    solve_Permutation.
  - rewrite lookup_app_r in Hk by lia. apply list_lookup_singleton_Some in Hk as [_ <-]. solve_Permutation.
Qed.

(** A published entry can be withdrawn, and nothing else goes. *)
Lemma withdraw_spec st id rs rest : detached_roots st ≡ₚ (id, rs) :: rest -> NoDup (detached_roots st).*1 ->
  exists st', withdraw st id = Some st' /\ detached_roots st' ≡ₚ rest /\
    st' = mkState (phase st) (attached st) (stopped st) (gc_epoch st) (stopped_roots st) (detached_roots st')
            (next_ticket st) (stops st) (stw st).
Proof.
  intros E N. unfold withdraw. assert (Hin : (id, rs) ∈ detached_roots st) by (rewrite E; left).
  destruct (list_find_elem_of (fun e : nat * list nat => e.1 = id) _ _ Hin eq_refl) as [[k [id' rs']] Ek].
  rewrite Ek. apply list_find_Some in Ek as (Hk & Hid & _). simpl in *. subst id'.
  pose proof (swap_remove_perm _ _ _ Hk) as Hp. eexists. split; [reflexivity|]. split; [|done]. simpl.
  assert (rs' = rs) as ->.
  { rewrite E in N. csimpl in N. apply list.NoDup_cons in N as [Hn _].
    assert (Hin' : (id, rs') ∈ detached_roots st) by (by eapply list_elem_of_lookup_2).
    rewrite E in Hin'. apply elem_of_cons in Hin' as [|Hr]; [congruence|].
    destruct Hn. apply (list_elem_of_fmap_2 fst) in Hr. done. }
  rewrite E in Hp at 1. by apply Permutation_cons_inv in Hp.
Qed.

(** One thread's move in an unchanged phase and epoch: its new shares balance the fields. *)
Record move (s s' : State) (t t' : Thread) (rest : list Thread) : Prop := {
  m_phase : phase s' = phase s /\ gc_epoch s' = gc_epoch s /\ stw s' = stw s;
  m_att : attached s' + att t = attached s + att t';
  m_own : owner t' = owner t;
  m_stop : stopped s' + now (gc_epoch s) t = stopped s + now (gc_epoch s) t';
  m_idle : phase s = Idle -> now (gc_epoch s) t' <= now (gc_epoch s) t;
  m_coll : phase s = Collecting -> att t' = att t /\ now_roots (gc_epoch s) t' = now_roots (gc_epoch s) t /\
    now (gc_epoch s) t' = now (gc_epoch s) t /\ stopped_roots s' = stopped_roots s /\
    (detached_roots s' ≫= snd) ⊆ (detached_roots s ≫= snd);
  m_roots : phase s <> Collecting ->
    stopped_roots s' ++ now_roots (gc_epoch s) t ≡ₚ stopped_roots s ++ now_roots (gc_epoch s) t';
  m_pub : detached_roots s' ++ published t ≡ₚ detached_roots s ++ published t';
  m_ids : NoDup (detached_roots s').*1 /\ Forall (fun id => id < next_ticket s') (detached_roots s').*1;
  m_ok : thread_ok s' t';
  m_awake : same_counts s s' \/ (phase s = Requested -> wake <$> rest = rest);
  m_union : forall u, at_ t' = Collect u -> at_ t = Collect u /\ roots t' = roots t;
}.

Lemma inv_move s s' t t' rest : inv s (t :: rest) -> move s s' t t' rest -> inv s' (t' :: rest).
Proof.
  intros [H1 H2 H3 H4 H5 H6 H7 H8 H9 H10 H11] [(P1 & P2 & P3) M1 M2 M3 M4 M5 M6 M7 M8 M9 M10 M11].
  csimpl in *. apply list.Forall_cons in H9 as [_ H9]. split; csimpl; rewrite ?P1, ?P2, ?P3; try done.
  - lia.
  - by rewrite M2.
  - lia.
  - case_decide as Ec.
    + destruct (M5 Ec) as (_ & _ & _ & -> & _). by rewrite H4.
    + specialize (M6 Ec). rewrite H4 in M6. apply (Permutation_app_inv_r (now_roots (gc_epoch s) t)). rewrite M6. solve_Permutation.
  - rewrite H5 in M7. apply (Permutation_app_inv_r (published t)). rewrite M7. solve_Permutation.
  - intros Hi. specialize (H7 Hi). specialize (M4 Hi). lia.
  - intros Hc. specialize (H8 Hc). destruct (M5 Hc) as (E & _ & E' & _). lia.
  - apply list.Forall_cons. split; [done|]. by apply (forall_counts s).
  - intros q u Hq Ha. assert (Hc : phase s = Collecting).
    { apply elem_of_cons in Hq as [->|Hq]; [unfold thread_ok in M9; rewrite Ha in M9; congruence|].
      rewrite list.Forall_forall in H9. specialize (H9 q Hq). unfold thread_ok in H9. by rewrite Ha in H9. }
    destruct (M5 Hc) as (_ & -> & _ & _ & Hsub).
    assert (Hu : roots q ⊆ u /\ (now_roots (gc_epoch s) t ++ (rest ≫= now_roots (gc_epoch s))) ⊆ u /\ (detached_roots s ≫= snd) ⊆ u).
    { apply elem_of_cons in Hq as [->|Hq]; [|by apply H10; [right|]].
      destruct (M11 u Ha) as [Ea ->]. apply (H10 t u); [left|done]. }
    destruct Hu as (U1 & U2 & U3). split; [done|]. split; [done|]. by etrans.
Qed.

(** Positions whose shares compute. *)
Ltac shares := unfold now_roots, published, att, owner, now, thread_ok in *; cbn [at_ roots] in *.

Section Transitions.
Context (s : State) (rest : list Thread).

(** A move inside the thread, the state unchanged. *)
Lemma inv_local t t' : inv s (t :: rest) -> att t' = att t -> owner t' = owner t -> now (gc_epoch s) t' = now (gc_epoch s) t ->
  (now (gc_epoch s) t = 0 \/ roots t' = roots t) -> published t' = published t -> thread_ok s t' ->
  (forall u, at_ t' = Collect u -> at_ t = Collect u /\ roots t' = roots t) -> inv s (t' :: rest).
Proof.
  intros I E1 E2 E3 E4 E5 E6 E7.
  assert (E8 : now_roots (gc_epoch s) t' = now_roots (gc_epoch s) t).
  { unfold now_roots. rewrite E3. destruct (now _ t) eqn:E; [done|]. by destruct E4 as [|E4]; [|rewrite E4]. }
  apply (inv_move s s t); [done|]. split; rewrite ?E1, ?E3, ?E5, ?E8; try done; [apply (i_ids _ _ I)|by left].
Qed.

(** While the collector runs, no attached thread is loose. *)
Lemma collecting_loose ts t : inv s ts -> phase s = Collecting -> t ∈ ts -> loose (gc_epoch s) t = 0.
Proof.
  intros I Hc Ht. apply (sum_zero _ ts); [|done]. pose proof (loose_sum (gc_epoch s) ts) as H.
  rewrite <- (i_att _ _ I), <- (i_stop _ _ I), (i_own _ _ I), (i_coll _ _ I Hc), decide_False in H by congruence. lia.
Qed.
Lemma run_not_collecting p rs : inv s (mkThread p rs :: rest) -> p = Run \/ p = AtLock -> phase s <> Collecting.
Proof.
  intros I Hp Hc. pose proof (collecting_loose _ (mkThread p rs) I Hc (list_elem_of_here _ _)) as H.
  destruct Hp; by subst.
Qed.

Lemma inv_attach p : p = Out \/ p = AttachWait false -> forall rs, inv s (mkThread p rs :: rest) -> phase s = Idle ->
  inv (attach s) (mkThread Run rs :: rest).
Proof.
  intros Hp rs I Hi. apply (inv_move s _ (mkThread p rs)); [done|].
  destruct Hp; subst p; split; shares; simpl; try done; try lia; try congruence; try apply (i_ids _ _ I); right; congruence.
Qed.

Lemma leave_spec rs : inv s (mkThread Run rs :: rest) -> leave s =
  Some (mkState (phase s) (attached s - 1) (stopped s) (gc_epoch s) (stopped_roots s) (detached_roots s)
          (next_ticket s) (stops s) (stw s), bool_decide (phase s = Requested)) /\ 0 < attached s.
Proof.
  intros I. pose proof (i_att _ _ I) as H. csimpl in H. unfold att in H at 1. cbn [at_] in H. unfold leave.
  destruct (Nat.eqb_spec (attached s) 0); [lia|]. split; [done|lia].
Qed.

Lemma inv_leave rs : inv s (mkThread Run rs :: rest) -> (phase s = Requested -> wake <$> rest = rest) ->
  exists s', leave s = Some (s', bool_decide (phase s = Requested)) /\ inv s' (mkThread Out [] :: rest).
Proof.
  intros I Hw. destruct (leave_spec rs I) as [-> Hpos]. eexists. split; [reflexivity|].
  pose proof (run_not_collecting Run rs I (or_introl eq_refl)) as Hn.
  apply (inv_move s _ (mkThread Run rs)); [done|].
  split; shares; simpl; try done; try lia; try apply (i_ids _ _ I); by right.
Qed.

Lemma inv_detach rs : inv s (mkThread Run rs :: rest) -> (phase s = Requested -> wake <$> rest = rest) ->
  exists s' id e, detach s rs = Some (s', bool_decide (phase s = Requested), (id, e)) /\ gc_epoch s' = gc_epoch s /\
    inv s' (mkThread (Detached id e) rs :: rest).
Proof.
  intros I Hw. destruct (leave_spec rs I) as [_ Hpos]. unfold detach, leave. cbn [attached].
  destruct (Nat.eqb_spec (attached s) 0); [lia|]. cbn [mbind option_bind]. eexists _, _, _. split; [reflexivity|].
  split; [done|]. pose proof (run_not_collecting Run rs I (or_introl eq_refl)) as Hn.
  destruct (i_ids _ _ I) as [Hnd Hlt].
  apply (inv_move s _ (mkThread Run rs)); [done|]. split; shares; simpl; try done; try lia; try by right.
  - rewrite app_nil_r. done.
  - rewrite fmap_app. simpl. split.
    + apply list.NoDup_app. split; [done|]. split; [|apply list.NoDup_singleton].
      intros x Hx ->%list_elem_of_singleton. rewrite list.Forall_forall in Hlt. specialize (Hlt _ Hx). lia.
    + apply Forall_app. split; [|apply list.Forall_singleton; lia]. eapply list.Forall_impl; [exact Hlt|]. simpl. lia.
Qed.

Lemma inv_park p rs : p = Run \/ p = AtLock -> inv s (mkThread p rs :: rest) -> phase s <> Idle -> wake <$> rest = rest ->
  inv (park s rs) (mkThread (Parked (gc_epoch s) true) rs :: rest).
Proof.
  intros Hp I Hi Hw. pose proof (run_not_collecting p rs I Hp) as Hn.
  apply (inv_move s _ (mkThread p rs)); [done|].
  destruct Hp; subst p; split; shares; simpl; rewrite ?Nat.eqb_refl; simpl; try done; try lia; try apply (i_ids _ _ I);
    try (by right); by rewrite app_nil_r.
Qed.

Lemma inv_withdraw p id e rs : p = Detached id e \/ p = ReattachWait id e false -> inv s (mkThread p rs :: rest) ->
  exists s', withdraw s id = Some s' /\ phase s' = phase s /\ gc_epoch s' = gc_epoch s /\ inv s' (mkThread Out [] :: rest).
Proof.
  intros Hp I.
  assert (Hpub : detached_roots s ≡ₚ (id, rs) :: (rest ≫= published)).
  { rewrite (i_pub _ _ I). csimpl. destruct Hp; by subst p. }
  destruct (i_ids _ _ I) as [Hnd Hlt]. destruct (withdraw_spec s id rs _ Hpub Hnd) as (s' & -> & Hd & Es).
  exists s'. split; [done|]. rewrite Es. split; [done|]. split; [done|].
  assert (Hids : NoDup (detached_roots s').*1 /\ Forall (fun id => id < next_ticket s) (detached_roots s').*1).
  { rewrite Hpub in Hnd, Hlt. csimpl in *. rewrite Hd. apply list.NoDup_cons in Hnd as [_ Hnd].
    apply list.Forall_cons in Hlt as [_ Hlt]. done. }
  assert (Hsub : (detached_roots s' ≫= snd) ⊆ (detached_roots s ≫= snd)).
  { intros r. rewrite Hd, Hpub. csimpl. rewrite elem_of_app. by right. }
  assert (Hbal : detached_roots s' ++ [(id, rs)] ≡ₚ detached_roots s ++ []).
  { rewrite Hpub, Hd. solve_Permutation. }
  apply (inv_move s _ (mkThread p rs)); [done|].
  destruct Hp; subst p; split; shares; simpl; try done; try lia; by left.
Qed.

(** The phase changes: the requester is alone in its role. *)
Lemma owner_alone t : inv s (t :: rest) -> owner t = 1 -> phase s <> Idle /\ forall q, q ∈ rest -> owner q = 0.
Proof.
  intros I Ho. pose proof (i_own _ _ I) as H. csimpl in H. destruct (decide (phase s = Idle)); [lia|].
  split; [done|]. intros q Hq. apply (sum_zero _ rest); [lia|done].
Qed.
Lemma phase_ok s' q : owner q = 0 -> gc_epoch s' = gc_epoch s -> phase s' <> Idle -> thread_ok s q -> thread_ok s' q.
Proof.
  intros Ho E Hp. destruct q as [p rs]. unfold thread_ok, owner in *. cbn [at_ roots] in *. rewrite E.
  destruct p; try done; tauto.
Qed.

Lemma inv_request rs : inv s (mkThread Run rs :: rest) -> phase s = Idle -> inv (request s) (mkThread (ReqWait false) rs :: rest).
Proof.
  intros [H1 H2 H3 H4 H5 H6 H7 H8 H9 H10 H11] Hi. csimpl in *. rewrite Hi in *.
  rewrite decide_True in H2 by done. simpl in H2. apply list.Forall_cons in H9 as [_ H9].
  split; csimpl; try done.
  - by rewrite H2.
  - apply list.Forall_cons. split; [done|]. rewrite list.Forall_forall in H9 |- *. intros q Hq.
    apply phase_ok; [|done|done|by apply H9]. by apply (sum_zero _ rest).
  - intros q u [->|Hq]%elem_of_cons Ha; [done|]. assert (Ho : owner q = 0) by (by apply (sum_zero _ rest)).
    unfold owner in Ho. by rewrite Ha in Ho.
Qed.

Lemma inv_begin rs : inv s (mkThread (ReqWait false) rs :: rest) -> all_stopped s = true ->
  inv (begin_collect s rs).1 (mkThread (Collect (begin_collect s rs).2) rs :: rest).
Proof.
  intros I Ha. destruct (owner_alone _ I eq_refl) as [Hn Ho].
  assert (Hp : phase s = Requested) by (pose proof (i_thr _ _ I) as H; apply list.Forall_cons in H as [[H _] _]; done).
  pose proof (loose_sum (gc_epoch s) (mkThread (ReqWait false) rs :: rest)) as Hl.
  rewrite <- (i_att _ _ I), <- (i_stop _ _ I), (i_own _ _ I), decide_False in Hl by done.
  apply Nat.leb_le in Ha. destruct I as [H1 H2 H3 H4 H5 H6 H7 H8 H9 H10 H11]. csimpl in *.
  rewrite Hp in *. rewrite decide_False in H2 by done. rewrite decide_False in H4 by done. apply list.Forall_cons in H9 as [_ H9].
  split; csimpl; try done.
  - lia.
  - apply list.Forall_cons. split; [done|]. rewrite list.Forall_forall in H9 |- *. intros q Hq.
    apply phase_ok; [by apply Ho|done|done|by apply H9].
  - intros q u [->|Hq]%elem_of_cons Hu.
    + simpl in Hu. injection Hu as <-. cbn [roots]. split; [|split]; intros r Hr; rewrite !elem_of_app; [by left| |by right; right].
      right; left. rewrite H4. done.
    + specialize (Ho q Hq). unfold owner in Ho. by rewrite Hu in Ho.
Qed.
Lemma inv_release u rs : inv s (mkThread (Collect u) rs :: rest) ->
  inv (release s) (mkThread Run rs :: (wake <$> rest)).
Proof.
  intros I. destruct (owner_alone _ I eq_refl) as [Hn Ho].
  apply inv_wake in I. csimpl in I. change (wake (mkThread (Collect u) rs)) with (mkThread (Collect u) rs) in I.
  set (ws := wake <$> rest) in *. assert (Ho' : forall q, q ∈ ws -> owner q = 0).
  { intros q (q' & -> & Hq)%list_elem_of_fmap. destruct (wake_same 0 q') as (_ & -> & _). by apply Ho. }
  assert (Hold : forall q, q ∈ ws -> now (gc_epoch s + 1) q = 0).
  { intros q Hq. pose proof (i_thr _ _ I) as H. rewrite list.Forall_forall in H. specialize (H q (list_elem_of_further _ _ _ Hq)).
    unfold thread_ok, now in *. destruct (at_ q) as [| | | |e| | | |]; try done. destruct (Nat.eqb_spec (gc_epoch s + 1) e); [lia|done]. }
  destruct I as [H1 H2 H3 H4 H5 H6 H7 H8 H9 H10 H11]. csimpl in *. apply list.Forall_cons in H9 as [Hme H9].
  assert (Hsum : sum_list_with (now (gc_epoch s + 1)) ws = 0).
  { clear -Hold. induction ws as [|q ws IH]; [done|]. simpl. rewrite Hold by left. apply IH. intros q' Hq'. apply Hold. by right. }
  assert (Hbind : ws ≫= now_roots (gc_epoch s + 1) = []).
  { clear -Hold. induction ws as [|q ws IH]; [done|]. csimpl. unfold now_roots at 1. rewrite Hold by left. simpl.
    apply IH. intros q' Hq'. apply Hold. by right. }
  rewrite decide_False in H2 by done. split; csimpl; try done.
  - lia.
  - by rewrite Hbind.
  - apply list.Forall_cons. split; [done|]. rewrite list.Forall_forall in H9 |- *. intros q Hq. specialize (H9 q Hq).
    specialize (Ho' q Hq). apply list_elem_of_fmap in Hq as ([p qs] & -> & _).
    unfold thread_ok, owner in *. destruct p; simpl in *; try done; intuition (try done; try lia).
  - intros q x [->|Hq]%elem_of_cons Hx; [done|]. specialize (Ho' q Hq). unfold owner in Ho'. by rewrite Hx in Ho'.
Qed.
End Transitions.

(** ** Every step keeps the invariant and none panics *)
Definition good (rest : list Thread) (o : outcome) : Prop :=
  match o with Refuse => True | Panic => False | Next s' t' n => inv s' (t' :: if n then wake <$> rest else rest) end.

Section Good.
Context (s : State) (rest : list Thread) (rs : list nat).

(** A move of the thread alone, its shares equal by computation. *)
Ltac local t := apply (inv_local s rest t); [done|done|done|done| | done| |done]; csimpl;
  first [by left | by right | done | idtac].

Lemma attach_loop_good p : p = Out \/ p = AttachWait false -> inv s (mkThread p rs :: rest) -> good rest (attach_loop s rs).
Proof.
  intros Hp I. unfold attach_loop. case_bool_decide as Hi; simpl; [by eapply inv_attach|].
  assert (Hr : rs = []) by (pose proof (i_thr _ _ I) as H; apply list.Forall_cons in H as [H _]; destruct Hp; subst p; apply H).
  destruct Hp; subst p; [local (mkThread Out rs)|local (mkThread (AttachWait false) rs)].
Qed.

Lemma reattach_loop_good p id e : p = Detached id e \/ p = ReattachWait id e false -> inv s (mkThread p rs :: rest) ->
  good rest (reattach_loop s id e rs).
Proof.
  intros Hp I. unfold reattach_loop. case_bool_decide as Hi.
  - destruct (inv_withdraw s rest p id e rs Hp I) as (s' & E & Ep & _ & I'). unfold reattach. rewrite E. simpl.
    apply (inv_local _ _ (mkThread Run [])); try done; [|by left]. eapply inv_attach; [by left|done|congruence].
  - assert (He : e <= gc_epoch s).
    { pose proof (i_thr _ _ I) as H. apply list.Forall_cons in H as [H _]. destruct Hp; subst p; apply H. }
    destruct Hp; subst p; simpl; [local (mkThread (Detached id e) rs)|local (mkThread (ReattachWait id e false) rs)].
Qed.

Lemma request_loop_good : inv s (mkThread (ReqWait false) rs :: rest) -> good rest (request_loop s rs).
Proof.
  intros I. unfold request_loop. destruct (all_stopped s) eqn:Ha; [by apply inv_begin|]. simpl.
  pose proof (i_thr _ _ I) as H. apply list.Forall_cons in H as [[H _] _].
  local (mkThread (ReqWait false) rs).
Qed.

Lemma park_loop_good e : inv s (mkThread (Parked e false) rs :: rest) -> good rest (park_loop s e rs).
Proof.
  intros I. unfold park_loop. destruct (Nat.eqb_spec (gc_epoch s) e) as [E|E]; simpl.
  - local (mkThread (Parked e false) rs). split; [lia|done].
  - apply (inv_local s rest (mkThread (Parked e false) rs)); try done; csimpl; unfold now; cbn [at_]; rewrite (proj2 (Nat.eqb_neq _ _) E); by auto.
Qed.

Lemma wake_rest t : inv s (t :: rest) -> wake t = t -> inv s (t :: (wake <$> rest)).
Proof. intros I E. apply inv_wake in I. csimpl in I. by rewrite E in I. Qed.

Lemma park_here_good p : p = Run \/ p = AtLock -> inv s (mkThread p rs :: rest) -> phase s <> Idle -> good rest (park_here s rs).
Proof.
  intros Hp I Hi. simpl. apply (inv_park s (wake <$> rest) p); [done| |done|apply wake_wake].
  apply wake_rest; [done|]. destruct Hp; by subst p.
Qed.

(** Waking the rest when the leaver finds a waiting requester. *)
Lemma leaver_rest : inv s (mkThread Run rs :: rest) ->
  inv s (mkThread Run rs :: if bool_decide (phase s = Requested) then wake <$> rest else rest) /\
  (phase s = Requested -> wake <$> (if bool_decide (phase s = Requested) then wake <$> rest else rest) =
     if bool_decide (phase s = Requested) then wake <$> rest else rest).
Proof. intros I. case_bool_decide; [split; [by apply wake_rest|intros; apply wake_wake]|by split]. Qed.
End Good.

Lemma wake_self s t rest : inv s (t :: rest) -> inv s (wake t :: rest).
Proof.
  intros I. pose proof (i_thr _ _ I) as H. apply list.Forall_cons in H as [H _].
  destruct (wake_same (gc_epoch s) t) as (E1 & E2 & E3 & _ & _ & E4 & E5).
  apply (inv_local s rest t); try done; [by right|by apply wake_ok|]. intros u Hu. split; [by apply E5|done].
Qed.

Lemma leave_good s rest rs : inv s (mkThread Run rs :: rest) -> good rest (of_option (leave s) (mkThread Out [])).
Proof.
  intros I. destruct (leaver_rest s rest rs I) as [I' Hw]. by destruct (inv_leave s _ rs I' Hw) as (s' & -> & I2).
Qed.
Lemma detach_good s rest rs : inv s (mkThread Run rs :: rest) -> good rest
  match detach s rs with Some (st0, w, (id, e)) => Next st0 (mkThread (Detached id e) rs) w | None => Panic end.
Proof.
  intros I. destruct (leaver_rest s rest rs I) as [I' Hw]. by destruct (inv_detach s _ rs I' Hw) as (s' & id & e & -> & _ & I2).
Qed.

Lemma thread_step_good s t rest a : inv s (t :: rest) -> good rest (thread_step s t a).
Proof.
  intros I. pose proof (wake_self s t rest I) as Iw. destruct t as [p rs]. unfold thread_step. cbn [at_ roots].
  destruct p as [|[]| | |e b|b|u|id e|id e b]; destruct a as [| |rs'|saw| | | | | | | |]; try exact Logic.I;
    try (destruct b; try exact Logic.I); try exact Iw.
  all: try (eapply attach_loop_good; [|exact I]; by auto).
  all: try (eapply reattach_loop_good; [|exact I]; by auto).
  all: try (by apply request_loop_good).
  all: try (by apply park_loop_good).
  - apply (inv_local s rest (mkThread Run rs)); try done; by left.
  - destruct saw; [|done]. apply (inv_local s rest (mkThread Run rs)); try done; by left.
  - by apply detach_good.
  - by eapply leave_good.
  - case_bool_decide as Hi; [|eapply park_here_good; [by left|done|done]]. by apply request_loop_good, inv_request.
  - case_bool_decide as Hi; [|eapply park_here_good; [by right|done|done]].
    apply (inv_local s rest (mkThread AtLock rs)); try done; by left.
  - by eapply inv_release.
  - destruct (inv_withdraw s rest _ id e rs (or_introl eq_refl) I) as (s' & -> & _ & _ & I'). done.
Qed.

Definition others (ts : list Thread) (i : nat) : list Thread := list.take i ts ++ drop (S i) ts.
Lemma split_at ts i t : ts !! i = Some t -> ts ≡ₚ t :: others ts i.
Proof. intros H. unfold others. rewrite <- (take_drop_middle _ _ _ H) at 1. solve_Permutation. Qed.
Lemma others_elem ts i j q : ts !! j = Some q -> j <> i -> q ∈ others ts i.
Proof.
  intros Hj Hne. unfold others. apply elem_of_app. destruct (decide (j < i)) as [Hlt|Hge].
  - left. eapply list_elem_of_lookup_2. by rewrite lookup_take_lt.
  - right. apply (list_elem_of_lookup_2 _ (j - S i)). rewrite lookup_drop. by replace (S i + (j - S i)) with j by lia.
Qed.
Lemma split_next s i t st' t' n : thr s !! i = Some t ->
  thr (sys_next s i st' t' n) ≡ₚ t' :: if n then wake <$> others (thr s) i else others (thr s) i.
Proof.
  intros H. simpl. pose proof (lookup_lt_Some _ _ _ H) as Hlt. destruct n; unfold others.
  - rewrite insert_take_drop by (by rewrite length_fmap). rewrite fmap_app, fmap_take, fmap_drop. solve_Permutation.
  - rewrite insert_take_drop by done. solve_Permutation.
Qed.

Lemma start_inv n : inv new_coord (thr (start_sys n)).
Proof.
  simpl. assert (Hs : forall f : Thread -> nat, f (mkThread Out []) = 0 -> sum_list_with f (replicate n (mkThread Out [])) = 0).
  { intros f Hf. induction n as [|n IH]; [done|]. simpl. by rewrite Hf, IH. }
  assert (Hb : forall X (f : Thread -> list X), f (mkThread Out []) = [] -> replicate n (mkThread Out []) ≫= f = []).
  { clear Hs. intros X f Hf. induction n as [|n IH]; [done|]. csimpl. by rewrite Hf, IH. }
  split; csimpl; rewrite ?Hs, ?Hb by done; try done.
  - split; constructor.
  - by apply Forall_replicate.
  - intros t u [-> _]%elem_of_replicate. done.
Qed.

Lemma coord_reachable_inv n s : reachable n s -> inv (st s) (thr s).
Proof.
  induction 1 as [|s s' _ I Hs]; [apply start_inv|]. destruct Hs as [i t a st' t' k Ht Hn].
  apply (inv_perm _ _ _ (split_at _ _ _ Ht)) in I. pose proof (thread_step_good _ _ _ a I) as G. rewrite Hn in G.
  eapply inv_perm, G. symmetry. by eapply split_next.
Qed.

(** ** What the collector relies on *)

(** C9: While a thread's collector runs, every other thread is parked in this stop, detached,
    waiting to (re)attach or gone: none runs, and none is about to.  The roots it was given
    contain its own, every parked thread's and every detached thread's. *)
Theorem stop_the_world (n : nat) (s : Sys) (i j : nat) (t q : Thread) (union : list nat) (Hs : reachable n s)
  (Hi : thr s !! i = Some t) (Hc : at_ t = Collect union) (Hj : thr s !! j = Some q) :
  (j <> i -> at_ q <> Run /\ at_ q <> AtLock /\ owner q = 0 /\
    forall e b, at_ q = Parked e b -> e = gc_epoch (st s)) /\ roots q ⊆ union.
Proof.
  pose proof (coord_reachable_inv n s Hs) as I. pose proof (list_elem_of_lookup_2 _ _ _ Hi) as Hti.
  assert (Hp : phase (st s) = Collecting).
  { pose proof (i_thr _ _ I) as H. rewrite list.Forall_forall in H. specialize (H t Hti). unfold thread_ok in H. by rewrite Hc in H. }
  destruct (i_union _ _ I t union Hti Hc) as (U1 & U2 & U3). destruct (decide (j = i)) as [->|Hne].
  { split; [done|]. by simplify_eq. }
  pose proof (list_elem_of_lookup_2 _ _ _ Hj) as Hqj. pose proof (collecting_loose _ _ q I Hp Hqj) as Hl.
  assert (Ho : owner q = 0).
  { pose proof I as I2. apply (inv_perm _ _ _ (split_at _ _ _ Hi)) in I2. apply (owner_alone _ (others (thr s) i) t) in I2 as [_ Ho].
    - apply Ho. by eapply others_elem.
    - unfold owner. by rewrite Hc. }
  destruct q as [p rs]. unfold loose, owner in *. cbn [at_ roots] in *. split.
  - intros _. destruct p as [| | | |e b| | | |]; try done.
    split; [done|]. split; [done|]. split; [done|]. intros e' b' [= <- <-]. by destruct (Nat.eqb_spec (gc_epoch (st s)) e).
  - assert (Hpub : forall x, x ∈ published (mkThread p rs) -> x.2 ⊆ union).
    { intros x Hx r Hr. apply U3, list_elem_of_bind. exists x. split; [done|]. rewrite (i_pub _ _ I).
      apply list_elem_of_bind. by exists (mkThread p rs). }
    pose proof (i_thr _ _ I) as H. rewrite list.Forall_forall in H. specialize (H _ Hqj). unfold thread_ok in H.
    destruct p as [| | | |e b| | |id e|id e b]; try done; cbn [at_ roots] in H.
    + rewrite H. apply list_subseteq_nil.
    + destruct H as [-> _]. apply list_subseteq_nil.
    + etrans; [|exact U2]. intros r Hr. apply list_elem_of_bind. exists (mkThread (Parked e b) rs). split; [|done].
      unfold now_roots, now. cbn [at_ roots]. by destruct (gc_epoch (st s) =? e).
    + apply (Hpub (id, rs)). left.
    + apply (Hpub (id, rs)). left.
Qed.

(** C28: No step of any thread panics: [leave] never underflows the count of attached threads, and a
    ticket's roots are still published when it reattaches or drops.  No wake-up is lost: a thread
    sleeps on the condition variable only while what it waits for does not hold. *)
Theorem coord_no_lost_wakeup (n : nat) (s : Sys) (i : nat) (t : Thread) (Hs : reachable n s) (Hi : thr s !! i = Some t) :
  (forall a, thread_step (st s) t a <> Panic) /\
  match at_ t with
  | AttachWait true | ReattachWait _ _ true => phase (st s) <> Idle
  | Parked e true => gc_epoch (st s) = e
  | ReqWait true => stopped (st s) + 1 < attached (st s)
  | _ => True
  end.
Proof.
  pose proof (coord_reachable_inv n s Hs) as I. pose proof (list_elem_of_lookup_2 _ _ _ Hi) as Hti. split.
  - intros a E. apply (inv_perm _ _ _ (split_at _ _ _ Hi)) in I. pose proof (thread_step_good _ _ _ a I) as G. by rewrite E in G.
  - pose proof (i_thr _ _ I) as H. rewrite list.Forall_forall in H. specialize (H t Hti). unfold thread_ok in H.
    destruct (at_ t) as [|[]| | |e []|[]| | |id e []]; try done; destruct H as [H1 H2]; specialize (H2 eq_refl); try done.
    unfold all_stopped in H2. apply Nat.leb_gt in H2. lia.
Qed.

(** ** A requested stop ends *)
Definition obedient (a : act) : bool := match a with AMutate _ | APoll false | ASpurious => false | _ => true end.

(** [k] steps in which every running thread heads for a safepoint, a detach or its end, none of
    them the release. *)
Inductive obey : Sys -> nat -> Sys -> Prop :=
| obey_0 s : obey s 0 s
| obey_S s i t a st' t' n k s' : thr s !! i = Some t -> obedient a = true -> a <> ARelease ->
    thread_step (st s) t a = Next st' t' n -> obey (sys_next s i st' t' n) k s' -> obey s (S k) s'.

Definition weight (e : nat) (t : Thread) : nat :=
  match at_ t with
  | Out | AtLock | ReqWait _ => 1
  | AttachWait _ | ReattachWait _ _ _ | Collect _ => 0
  | Run => 3
  | Detached _ _ => 2
  | Parked e' _ => if e =? e' then 0 else 4
  end.
Definition woken (t : Thread) : nat :=
  match at_ t with AttachWait false | ReattachWait _ _ false | Parked _ false | ReqWait false => 1 | _ => 0 end.
Definition variant (e : nat) (ts : list Thread) : nat :=
  (length ts + 1) * sum_list_with (weight e) ts + sum_list_with woken ts.

Lemma sum_bound {A} (f : A -> nat) b l : (forall x, f x <= b) -> sum_list_with f l <= length l * b.
Proof. intros H. induction l as [|x l IH]; [done|]. simpl. specialize (H x). lia. Qed.
Lemma woken_bound t : woken t <= 1.
Proof. unfold woken. destruct (at_ t) as [|[]| | |? []|[]| | |? ? []]; lia. Qed.
Lemma variant_bound e ts : variant e ts <= (length ts + 1) * (length ts * 4) + length ts.
Proof.
  unfold variant. pose proof (sum_bound woken 1 ts woken_bound).
  assert (H2 : sum_list_with (weight e) ts <= length ts * 4).
  { apply sum_bound. intros t. unfold weight. destruct (at_ t); try lia. destruct (_ =? _); lia. }
  nia.
Qed.
Lemma variant_perm e ts ts' : ts ≡ₚ ts' -> variant e ts = variant e ts'.
Proof. intros E. unfold variant. by rewrite E. Qed.
Lemma wake_weight e ts : sum_list_with (weight e) (wake <$> ts) = sum_list_with (weight e) ts.
Proof. apply sum_with_ext. by intros [[] rs]. Qed.

(** Either the thread gives up weight, or it goes to sleep and wakes nobody. *)
Lemma variant_step e (t t' : Thread) rest (n : bool) :
  weight e t' < weight e t \/ (n = false /\ weight e t' = weight e t /\ woken t' < woken t) ->
  variant e (t' :: if n then wake <$> rest else rest) < variant e (t :: rest).
Proof.
  intros H. unfold variant. pose proof (woken_bound t'). pose proof (woken_bound t).
  pose proof (sum_bound woken 1 (wake <$> rest) woken_bound) as Hw. rewrite length_fmap in Hw.
  pose proof (sum_bound woken 1 rest woken_bound). destruct H as [H|(-> & E & H)]; [|simpl; rewrite E; nia].
  destruct n; simpl; rewrite ?wake_weight, ?length_fmap; nia.
Qed.

Lemma withdraw_same s id s' : withdraw s id = Some s' -> phase s' = phase s /\ gc_epoch s' = gc_epoch s.
Proof. unfold withdraw. by intros ([k x] & _ & [= <-])%bind_Some. Qed.

Lemma obey_decreases s t rest a s' t' n : inv s (t :: rest) -> phase s <> Idle -> obedient a = true -> a <> ARelease ->
  thread_step s t a = Next s' t' n -> phase s' <> Idle /\ gc_epoch s' = gc_epoch s /\
    variant (gc_epoch s) (t' :: if n then wake <$> rest else rest) < variant (gc_epoch s) (t :: rest).
Proof.
  intros I Hp Ho Ha E.
  cut (phase s' <> Idle /\ gc_epoch s' = gc_epoch s /\ (weight (gc_epoch s) t' < weight (gc_epoch s) t \/
    (n = false /\ weight (gc_epoch s) t' = weight (gc_epoch s) t /\ woken t' < woken t))).
  { intros (H1 & H2 & H3). split; [done|]. split; [done|]. by apply variant_step. }
  revert E. destruct t as [p rs]. unfold thread_step. cbn [at_ roots].
  unfold attach_loop, reattach_loop, park_here, request_loop, park_loop, detach, leave. rewrite ?bool_decide_eq_false_2 by done.
  destruct p as [|[]| | |e b|b|u|id e|id e b]; destruct a as [| |rs'|[]| | | | | | | |]; try done; try (destruct b; try done).
  all: intros E; simplify_eq/=; try (destruct (attached s =? 0); simplify_eq/=).
  all: try (destruct (Nat.eqb_spec (gc_epoch s) e); simplify_eq/=).
  all: try (destruct (all_stopped s); simplify_eq/=).
  all: try (destruct (withdraw s id) as [s1|] eqn:Ew; [apply withdraw_same in Ew as [E1 E2]|]; simplify_eq/=).
  all: unfold weight, woken; cbn [at_]; rewrite ?Nat.eqb_refl.
  all: try (split; [congruence|]; split; [congruence|]; lia).
  all: match goal with |- context [?x =? ?y] => destruct (Nat.eqb_spec x y) end; [done|]; split; [done|]; split; [done|lia].
Qed.

Lemma sum_pos {A} (f : A -> nat) l : 0 < sum_list_with f l -> exists i x, l !! i = Some x /\ 0 < f x.
Proof.
  induction l as [|x l IH]; simpl; [lia|]. destruct (decide (0 < f x)) as [H|H]; [by exists 0, x|].
  intros Hl. destruct IH as (i & y & E & Hy); [lia|]. by exists (S i), y.
Qed.

(** A stop under way always has a thread that can take an obedient step. *)
Lemma stop_not_stuck s ts : inv s ts -> phase s <> Idle ->
  exists i t a s' t' n, ts !! i = Some t /\ obedient a = true /\ thread_step s t a = Next s' t' n.
Proof.
  intros I Hp. pose proof (i_own _ _ I) as Ho. rewrite decide_False in Ho by done.
  destruct (sum_pos owner ts) as (i & [p rs] & Hi & Hw); [lia|]. pose proof (i_thr _ _ I) as Hok. rewrite list.Forall_forall in Hok.
  pose proof (Hok _ (list_elem_of_lookup_2 _ _ _ Hi)) as Hme. unfold owner in Hw. unfold thread_ok in Hme. cbn [at_] in *.
  destruct p as [| | | | |[]|u| |]; try lia.
  - destruct Hme as [_ Hns]. specialize (Hns eq_refl). unfold all_stopped in Hns. apply Nat.leb_gt in Hns.
    pose proof (loose_sum (gc_epoch s) ts) as Hl. rewrite <- (i_att _ _ I), <- (i_stop _ _ I), Ho in Hl.
    destruct (sum_pos (loose (gc_epoch s)) ts) as (j & [p qs] & Hj & Hq); [lia|].
    pose proof (Hok _ (list_elem_of_lookup_2 _ _ _ Hj)) as Hme. unfold loose in Hq. unfold thread_ok in Hme. cbn [at_] in *.
    destruct p as [| | | |e b| | | |]; try lia.
    + by eexists j, _, (APoll true), _, _, _.
    + eexists j, _, AStop, _, _, _. split; [done|]. split; [done|]. unfold thread_step. cbn [at_]. by rewrite bool_decide_eq_false_2.
    + destruct Hme as [_ Hb]. destruct (Nat.eqb_spec (gc_epoch s) e) as [|Hne]; [lia|].
      destruct b; [by specialize (Hb eq_refl)|]. eexists j, _, AWake, _, _, _. split; [done|]. split; [done|].
      unfold thread_step, park_loop. cbn [at_]. by rewrite (proj2 (Nat.eqb_neq _ _) Hne).
  - destruct (all_stopped s) eqn:Ea; eexists i, _, AWake, _, _, _; (split; [done|]; split; [done|]);
      unfold thread_step, request_loop; cbn [at_]; by rewrite Ea.
  - by eexists i, _, ARelease, _, _, _.
Qed.

Lemma obey_spec s k s' : obey s k s' -> inv (st s) (thr s) -> phase (st s) <> Idle ->
  inv (st s') (thr s') /\ phase (st s') <> Idle /\ k + variant (gc_epoch (st s')) (thr s') <= variant (gc_epoch (st s)) (thr s).
Proof.
  induction 1 as [s|s i t a st' t' n k s' Hi Ho Ha Hs _ IH]; intros I Hp; [done|].
  pose proof (split_at _ _ _ Hi) as Eo. apply (inv_perm _ _ _ Eo) in I.
  pose proof (thread_step_good _ _ _ a I) as G. rewrite Hs in G. destruct (obey_decreases _ _ _ _ _ _ _ I Hp Ho Ha Hs) as (P1 & P2 & P3).
  pose proof (split_next s i t st' t' n Hi) as En. destruct IH as (I' & P' & Hv); [by eapply inv_perm, G|done|].
  split; [done|]. split; [done|]. rewrite (variant_perm _ _ _ En) in Hv. rewrite (variant_perm _ _ _ Eo).
  cbn [sys_next st] in Hv. rewrite P2 in Hv. lia.
Qed.

(** C29: A requested stop ends.  Once a thread has asked for a collection, and while each running
    thread keeps reaching a safepoint (or detaches, leaves or asks too), the coordinator cannot
    get stuck, and the collection is released after at most [(n + 1) * 4n + n] steps of the
    [n] threads, in any order: every obedient run without the release is at most that long, and
    at its end some thread can still step. *)
Theorem stop_ends (n : nat) (s : Sys) (k : nat) (s' : Sys) (Hs : reachable n s) (Hp : phase (st s) <> Idle) (Ho : obey s k s') :
  k <= (n + 1) * (n * 4) + n /\ phase (st s') <> Idle /\
  exists i t a st' t' b, thr s' !! i = Some t /\ obedient a = true /\ thread_step (st s') t a = Next st' t' b.
Proof.
  pose proof (coord_reachable_inv n s Hs) as I. destruct (obey_spec _ _ _ Ho I Hp) as (I' & P' & Hv).
  split; [|split; [done|by apply stop_not_stuck]].
  assert (Hn : length (thr s) = n).
  { clear -Hs. induction Hs as [|s s' _ IH Hs]; [apply length_replicate|]. destruct Hs. simpl.
    rewrite length_insert. destruct n0; by rewrite ?length_fmap. }
  pose proof (variant_bound (gc_epoch (st s)) (thr s)) as Hb. rewrite Hn in Hb. lia.
Qed.

(** ** Runs *)
Fixpoint run_sys (s : Sys) (acts : list (nat * act)) : option Sys :=
  match acts with
  | [] => Some s
  | (i, a) :: acts =>
      t ← thr s !! i;
      match thread_step (st s) t a with Next st' t' n => run_sys (sys_next s i st' t' n) acts | _ => None end
  end.
Lemma run_sys_reachable n acts s s' : reachable n s -> run_sys s acts = Some s' -> reachable n s'.
Proof.
  revert s. induction acts as [|[i a] acts IH]; intros s Hs; simpl; [by intros [= <-]|].
  intros (t & Hi & H)%bind_Some. destruct (thread_step _ t a) as [| |st' t' b] eqn:E; try done.
  eapply IH, H. eapply reachable_step; [done|]. by eapply sys_step_intro.
Qed.

(** Thread 2 detaches with root 7; thread 0 asks; thread 1 still runs, then stops. *)
Module CoordDemo.
Definition asking : list (nat * act) :=
  [(0, AAttach); (1, AAttach); (2, AAttach); (0, AMutate [1; 2]); (1, AMutate [3]); (2, AMutate [7]); (2, ADetach); (0, ARequest)].
Definition stopping : list (nat * act) := [(1, APoll true); (1, AStop); (0, AWake)].
Definition asked : Sys := Eval cbv in default (start_sys 3) (run_sys (start_sys 3) asking).
Definition collecting : Sys := Eval cbv in default asked (run_sys asked stopping).
Lemma asked_reachable : reachable 3 asked.
Proof. apply (run_sys_reachable 3 asking (start_sys 3)); [apply reachable_start|reflexivity]. Qed.
Lemma collecting_reachable : reachable 3 collecting.
Proof. apply (run_sys_reachable 3 stopping asked); [apply asked_reachable|reflexivity]. Qed.
End CoordDemo.

Lemma stop_the_world_witness : exists t q, thr CoordDemo.collecting !! 0 = Some t /\ at_ t = Collect [1; 2; 3; 7] /\
  thr CoordDemo.collecting !! 2 = Some q /\ roots q = [7] /\ at_ q <> Run.
Proof.
  eexists _, _. split; [reflexivity|]. split; [reflexivity|]. split; [reflexivity|]. split; [reflexivity|].
  refine (proj1 (proj1 (stop_the_world 3 CoordDemo.collecting 0 2 _ _ _ CoordDemo.collecting_reachable eq_refl eq_refl eq_refl) _)).
  lia.
Defined.

Lemma coord_no_lost_wakeup_witness : exists t, thr CoordDemo.asked !! 0 = Some t /\ at_ t = ReqWait true /\
  stopped (st CoordDemo.asked) + 1 < attached (st CoordDemo.asked).
Proof.
  eexists. split; [reflexivity|]. split; [reflexivity|].
  exact (proj2 (coord_no_lost_wakeup 3 CoordDemo.asked 0 _ CoordDemo.asked_reachable eq_refl)).
Defined.

Lemma stop_ends_witness : phase (st CoordDemo.asked) <> Idle /\ obey CoordDemo.asked 3 CoordDemo.collecting /\ 3 <= (3 + 1) * (3 * 4) + 3.
Proof.
  assert (Hp : phase (st CoordDemo.asked) <> Idle) by (vm_compute; discriminate).
  assert (Ho : obey CoordDemo.asked 3 CoordDemo.collecting).
  { eapply (obey_S _ 1 _ (APoll true)); [reflexivity|reflexivity|discriminate|reflexivity|].
    eapply (obey_S _ 1 _ AStop); [reflexivity|reflexivity|discriminate|reflexivity|].
    eapply (obey_S _ 0 _ AWake); [reflexivity|reflexivity|discriminate|reflexivity|].
    vm_compute. constructor. }
  split; [exact Hp|]. split; [exact Ho|].
  exact (proj1 (stop_ends 3 CoordDemo.asked 3 CoordDemo.collecting CoordDemo.asked_reachable Hp Ho)).
Defined.
