(* ===== verification/Equality.v ===== *)
(** * Structural equality and hashing: [src/src/vm/equality.rs], [src/src/vm/hash.rs]

    The heap is read through [get] ([Heap::get], [None] is its panic).  Recursion is bounded by the
    depth budget of the source: [n] here is [MAX_STRUCTURAL_DEPTH + 1 - (walk_base + depth)], so
    [0] is the depth fault.  A user [eq] or [hash] hook re-enters the interpreter: what a call of
    it answers at a budget is an argument.  Rooting ([with_elem_roots]) does not change a result
    and is left out (a collection keeps what a thread holds: [World.v]).

    The specification [same] is structural equality as a relation: the theorems say that the walk
    decides it, that it is an equivalence where [==] promises one, and that equal keys have equal
    hashes. *)

From Stdlib Require Import SpecFloat.
From S2P Require Import Channel.
From stdpp Require Import base list gmap.
From S2P Require Import Prelude Consteval Value Arith MapData Obj.
Local Open Scope nat_scope.

#[global] Instance tagged_eq_dec : EqDecision tagged.
Proof. solve_decision. Defined.
#[global] Instance Identity_eq_dec : EqDecision Identity.
Proof. solve_decision. Defined.

Definition MAX_STRUCTURAL_DEPTH : Z := 10000.
(** The budget left at [depth] under a hook that has used [walk_base]. *)
Definition budget (walk_base depth : Z) : nat := Z.to_nat (MAX_STRUCTURAL_DEPTH + 1 - (walk_base + depth)).

(** A depth fault, a fault of a hook, an unhashable key, or a panic. *)
Inductive fault := DepthExceeded | HookFault | Unhashable | Dangling.
Inductive res (A : Type) := Ok (a : A) | Err (e : fault).
Arguments Ok {A} a.
Arguments Err {A} e.
Definition rbind {A B} (m : res A) (k : A -> res B) : res B := match m with Ok a => k a | Err e => Err e end.
Notation "'let*' x := m 'in' k" := (rbind m (fun x => k)) (at level 10, x binder, k at level 200).

Section Walk.
Context (heap : nat -> option Obj).
Context (eq_hook : nat -> tagged -> tagged -> option (res bool)).
Context (hash_hook : nat -> tagged -> res Z).
(** [DefaultHasher] over a byte slice. *)
Context (hash_bytes : list Z -> Z).

Definition get (r : Z) : res Obj := match heap (Z.to_nat r) with Some o => Ok o | None => Err Dangling end.

Definition int_val (v : tagged) : res (option Z) :=
  match v with
  | TInt n => Ok (Some n)
  | TObj r => let* o := get r in Ok (match o with Obj.BigInt n => Some n | _ => None end)
  | _ => Ok None
  end.
Definition is_float (v : tagged) : bool := match v with TFloat _ => true | _ => false end.
Definition float_of (v : tagged) : res F64.f64 :=
  match v with
  | TFloat r => let* o := get r in match o with Obj.FloatBox f => Ok f | _ => Err Dangling end
  | _ => Err Dangling
  end.
(** [v.view()] is [Obj] for both heap tags. *)
Definition handle (v : tagged) : option Z := match v with TObj r | TFloat r => Some r | _ => None end.

Definition float_eq (a b : F64.f64) : bool := match F64.compare a b with Some Eq => true | _ => false end.
Definition int_float_eq (n : Z) (f : F64.f64) : bool := match cmp_int_f64 n f with Some Eq => true | _ => false end.

(** The loops of the container arms. *)
Fixpoint eq_all (eq : tagged -> tagged -> res bool) (xs ys : list tagged) : res bool :=
  match xs, ys with
  | x :: xs, y :: ys => let* b := eq x y in if b then eq_all eq xs ys else Ok false
  | _, _ => Ok true
  end.
Fixpoint find_match {A} (m : A -> res bool) (ys : list A) : res bool :=
  match ys with [] => Ok false | y :: ys => let* b := m y in if b then Ok true else find_match m ys end.
Fixpoint all_match {A} (m : A -> A -> res bool) (xs ys : list A) : res bool :=
  match xs with [] => Ok true | x :: xs => let* b := find_match (m x) ys in if b then all_match m xs ys else Ok false end.
Definition pair_eq (eq : tagged -> tagged -> res bool) (a b : tagged * tagged) : res bool :=
  let* k := eq a.1 b.1 in if k then eq a.2 b.2 else Ok false.
Definition seq_eq (eq : tagged -> tagged -> res bool) (xs ys : list tagged) : res bool :=
  if length xs =? length ys then eq_all eq xs ys else Ok false.
Definition bag_eq {A} (m : A -> A -> res bool) (xs ys : list A) : res bool :=
  if length xs =? length ys then all_match m xs ys else Ok false.

Definition map_pairs (m : TableData (MapEntry tagged)) : list (tagged * tagged) :=
  (fun '(_, k, v) => (k, v)) <$> entries m.
Definition set_elems (s : TableData (SetEntry tagged)) : list tagged := (entries s).*2.

(** The object arms after the hook and the identity shortcut; [eq] is [elem_equal] one level down. *)
Definition obj_equal (eq : tagged -> tagged -> res bool) (a b : Obj) : res bool :=
  match a, b with
  | Obj.Str x, Obj.Str y | Obj.Bytes x, Obj.Bytes y => Ok (bool_decide (x = y))
  | Obj.ByteArray x, Obj.ByteArray y => Ok (bool_decide (items x = items y))
  | Obj.Bytes x, Obj.ByteArray y => Ok (bool_decide (x = items y))
  | Obj.ByteArray x, Obj.Bytes y => Ok (bool_decide (items x = y))
  | Obj.List x, Obj.List y | Obj.Tuple x, Obj.Tuple y => seq_eq eq (items x) (items y)
  | Obj.Map x _ _, Obj.Map y _ _ => bag_eq (pair_eq eq) (map_pairs x) (map_pairs y)
  | Obj.Set_ x _ _, Obj.Set_ y _ _ => bag_eq eq (set_elems x) (set_elems y)
  | Obj.Struct ta fa, Obj.Struct tb fb => if (ta =? tb)%Z then seq_eq eq (Fields.iter fa) (Fields.iter fb) else Ok false
  | Obj.Enum va pa, Obj.Enum vb pb => if (va =? vb)%Z then seq_eq eq (items pa) (items pb) else Ok false
  | Obj.Builtin x, Obj.Builtin y => Ok (x =? y)%Z
  | Obj.BigInt x, Obj.BigInt y => Ok (x =? y)%Z
  | Obj.FloatBox x, Obj.FloatBox y => Ok (float_eq x y)
  | a, b => Ok (match identity a, identity b with
                | CoreKey d x, CoreKey e y => (d =? e)%Z && (x =? y)%Z
                | _, _ => false
                end)
  end.

(** [values_equal_guarded] at budget [n]. *)
Fixpoint values_equal_guarded (n : nat) (l r : tagged) : res bool :=
  match n with
  | 0 => Err DepthExceeded
  | S n =>
      let* li := int_val l in
      let* ri := int_val r in
      match li, ri with
      | Some a, Some b => Ok (a =? b)%Z
      | _, _ =>
          match li, is_float r, ri, is_float l with
          | Some a, true, _, _ => let* f := float_of r in Ok (int_float_eq a f)
          | _, _, Some b, true => let* f := float_of l in Ok (int_float_eq b f)
          | _, true, _, true => let* f := float_of l in let* g := float_of r in Ok (float_eq f g)
          | _, _, _, _ =>
              match l, r with
              | TBool a, TBool b => Ok (eqb a b)
              | TNil, TNil => Ok true
              | _, _ =>
                  match handle l, handle r with
                  | Some ha, Some hb =>
                      match eq_hook n l r with
                      | Some b => b
                      | None =>
                          if Z.to_nat ha =? Z.to_nat hb then Ok true
                          else
                            let* a := get ha in
                            let* b := get hb in
                            obj_equal (fun x y => if decide (x = y) then Ok true else values_equal_guarded n x y) a b
                      end
                  | _, _ => Ok false
                  end
              end
          end
      end
  end.
(** [elem_equal]: identity first. *)
Definition elem_equal (n : nat) (l r : tagged) : res bool :=
  if decide (l = r) then Ok true else values_equal_guarded n l r.

(** [seq_slot]: the first index equal to the needle. *)
Fixpoint seq_slot_from (i : nat) (n : nat) (hay : list tagged) (needle : tagged) : res (option nat) :=
  match hay with
  | [] => Ok None
  | v :: hay => let* b := elem_equal n v needle in if b then Ok (Some i) else seq_slot_from (S i) n hay needle
  end.
Definition seq_slot (n : nat) (hay : list tagged) (needle : tagged) : res (option nat) := seq_slot_from 0 n hay needle.

(** ** Hashing *)

(** [f64::to_bits]; a NaN as the quiet one. *)
Definition to_bits (f : F64.f64) : Z :=
  let sign (s : bool) := if s then Z.shiftl 1 63 else 0%Z in
  match f with
  | S754_zero s => sign s
  | S754_infinity s => Z.lor (sign s) (Z.shiftl 2047 52)
  | S754_nan => Z.shiftl 4095 51
  | S754_finite s m e =>
      Z.lor (sign s) (if (Zpos m <? 2 ^ 52)%Z then Zpos m else Z.lor (Z.shiftl (e + 1075) 52) (Zpos m - 2 ^ 52))
  end.
Definition int_hash (n : Z) : Z := to_bits (if (n =? 0)%Z then S754_zero false else F64.of_i64 n).
Definition float_hash (f : F64.f64) : Z := to_bits (if F64.is_zero f then S754_zero false else f).

(** [scalar_hash]. *)
Definition scalar_hash (v : tagged) : res Z :=
  match v with
  | TFloat _ => let* f := float_of v in Ok (float_hash f)
  | TInt n => Ok (int_hash n)
  | TBool b => Ok (Z.b2z b)
  | TNil => Ok 0%Z
  | TObj r =>
      let* o := get r in
      Ok (match o with
          | Obj.Str s | Obj.Bytes s => hash_bytes s
          | Obj.BigInt n => int_hash n
          | Obj.FloatBox f => float_hash f
          | _ => 0%Z
          end)
  | TUninit _ => Err Dangling
  end.

(** The tuple's accumulator loop. *)
Fixpoint hash_all (hash : tagged -> res Z) (acc : Z) (xs : list tagged) : res Z :=
  match xs with
  | [] => Ok acc
  | e :: xs => let* x := hash e in hash_all hash (Z.lxor ((acc * 1000003) mod 2 ^ 64) x) xs
  end.
(** [hash_value_d] at budget [n]. *)
Fixpoint hash_value_d (n : nat) (v : tagged) : res Z :=
  match n with
  | 0 => Err DepthExceeded
  | S n =>
      match v with
      | TObj r =>
          let* o := get r in
          match o with
          | Obj.Struct _ _ | Obj.Enum _ _ => hash_hook n v
          | Obj.Tuple its => hash_all (hash_value_d n) (Z.lxor 3430008 (Z.of_nat (length (items its)))) (items its)
          | Obj.Str _ | Obj.Bytes _ | Obj.BigInt _ => scalar_hash v
          | _ => Err Unhashable
          end
      | _ => scalar_hash v
      end
  end.
(** [is_flat_hash_key]. *)
Definition is_flat_hash_key (v : tagged) : res bool :=
  match v with
  | TObj r => let* o := get r in Ok (match o with Obj.Str _ | Obj.Bytes _ | Obj.BigInt _ => true | _ => false end)
  | _ => Ok true
  end.

(** ** The specification *)

(** What a value is, its box read. *)
Inductive view := NInt (n : Z) | NFloat (f : F64.f64) | NBool (b : bool) | NNil | NObj (r : nat) (o : Obj) | NOther.
Definition vview (v : tagged) : option view :=
  match v with
  | TInt n => Some (NInt n)
  | TBool b => Some (NBool b)
  | TNil => Some NNil
  | TUninit _ => Some NOther
  | TFloat r => match heap (Z.to_nat r) with Some (Obj.FloatBox f) => Some (NFloat f) | _ => None end
  | TObj r =>
      match heap (Z.to_nat r) with
      | Some (Obj.BigInt n) => Some (NInt n)
      | Some (Obj.FloatBox _) | None => None
      | Some o => Some (NObj (Z.to_nat r) o)
      end
  end.

Definition elem (R : tagged -> tagged -> Prop) (x y : tagged) : Prop := x = y \/ R x y.
Definition bag_same {A} (R : A -> A -> Prop) (xs ys : list A) : Prop :=
  length xs = length ys /\ forall x, x ∈ xs -> exists y, y ∈ ys /\ R x y.
Definition pair_same (R : tagged -> tagged -> Prop) (a b : tagged * tagged) : Prop := R a.1 b.1 /\ R a.2 b.2.

(** What of an object [==] looks at. *)
Inductive seq_kind := KList | KTuple | KStruct (tid : Z) | KEnum (variant_id : Z).
Inductive shape :=
| SStr (s : list Z) | SBytes (b : list Z) | SSeq (k : seq_kind) (xs : list tagged) | SMap (ps : list (tagged * tagged))
| SSet (xs : list tagged) | SBuiltin (id : Z) | SInt (n : Z) | SFloat (f : F64.f64) | SCore (d a : Z) | SSlot.
Definition shape_of (o : Obj) : shape :=
  match o with
  | Obj.Str s => SStr s
  | Obj.Bytes b => SBytes b
  | Obj.ByteArray b => SBytes (items b)
  | Obj.List x => SSeq KList (items x)
  | Obj.Tuple x => SSeq KTuple (items x)
  | Obj.Struct tid f => SSeq (KStruct tid) (Fields.iter f)
  | Obj.Enum vid p => SSeq (KEnum vid) (items p)
  | Obj.Map m _ _ => SMap (map_pairs m)
  | Obj.Set_ s _ _ => SSet (set_elems s)
  | Obj.Builtin id => SBuiltin id
  | Obj.BigInt n => SInt n
  | Obj.FloatBox f => SFloat f
  | o => match identity o with CoreKey d a => SCore d a | _ => SSlot end
  end.
(** Contents of two objects; [R] relates their elements. *)
Definition shape_same (R : tagged -> tagged -> Prop) (a b : shape) : Prop :=
  match a, b with
  | SStr x, SStr y | SBytes x, SBytes y => x = y
  | SSeq j xs, SSeq k ys => j = k /\ Forall2 R xs ys
  | SMap ps, SMap qs => bag_same (pair_same R) ps qs
  | SSet xs, SSet ys => bag_same R xs ys
  | SBuiltin x, SBuiltin y | SInt x, SInt y => x = y
  | SFloat x, SFloat y => F64.compare x y = Some Eq
  | SCore d x, SCore e y => d = e /\ x = y
  | _, _ => False
  end.
Definition obj_same (R : tagged -> tagged -> Prop) (a b : Obj) : Prop := shape_same R (shape_of a) (shape_of b).
Definition view_same (R : tagged -> tagged -> Prop) (x y : view) : Prop :=
  match x, y with
  | NInt a, NInt b => a = b
  | NInt a, NFloat f | NFloat f, NInt a => cmp_int_f64 a f = Some Eq
  | NFloat f, NFloat g => F64.compare f g = Some Eq
  | NBool a, NBool b => a = b
  | NNil, NNil => True
  | NObj p a, NObj q b => p = q \/ obj_same R a b
  | _, _ => False
  end.
(** Equal within [n] levels, and equal. *)
Fixpoint same (n : nat) (l r : tagged) : Prop :=
  match n with
  | 0 => False
  | S n => exists x y, vview l = Some x /\ vview r = Some y /\ view_same (elem (same n)) x y
  end.
Definition equal (l r : tagged) : Prop := exists n, same n l r.
End Walk.

(** ** Structure of the relation *)
Section Spec.
Context (heap : nat -> option Obj).
Implicit Types (R S : tagged -> tagged -> Prop).

Lemma bag_same_mono {A} (P Q : A -> A -> Prop) xs ys : (forall x y, P x y -> Q x y) -> bag_same P xs ys -> bag_same Q xs ys.
Proof. intros H [E F]. split; [done|]. intros x Hx. destruct (F x Hx) as (y & Hy & HP). exists y. auto. Qed.
Lemma obj_same_mono R S a b : (forall x y, R x y -> S x y) -> obj_same R a b -> obj_same S a b.
Proof.
  intros H. assert (HP : forall p q, pair_same R p q -> pair_same S p q) by (intros p q [? ?]; split; auto).
  unfold obj_same. destruct (shape_of a), (shape_of b); try done; cbn [shape_same]; try (apply bag_same_mono; done).
  intros [E F]. split; [done|]. by eapply list.Forall2_impl.
Qed.
Lemma view_same_mono R S x y : (forall x y, R x y -> S x y) -> view_same R x y -> view_same S x y.
Proof. intros H. destruct x, y; try done. cbn. intros [->|Ho]; [by left|right]. by eapply obj_same_mono. Qed.
Lemma elem_mono R S x y : (forall x y, R x y -> S x y) -> elem R x y -> elem S x y.
Proof. intros H [->|HR]; [by left|right; auto]. Qed.

Lemma same_step n l r : same heap n l r -> same heap (Datatypes.S n) l r.
Proof.
  revert l r. induction n as [|n IH]; intros l r; [done|]. intros (x & y & Hx & Hy & H). exists x, y. split; [done|]. split; [done|].
  eapply view_same_mono, H. intros u v. apply elem_mono. exact IH.
Qed.
Lemma same_le n m l r : n <= m -> same heap n l r -> same heap m l r.
Proof. induction 1; [done|]. intros. by apply same_step, IHle. Qed.

(** Finitely many pairs, each equal at some depth, are equal at one depth. *)
Definition lifts {A} (P : nat -> A -> A -> Prop) : Prop := forall n m x y, n <= m -> P n x y -> P m x y.
Lemma forall2_sup {A} (P : nat -> A -> A -> Prop) xs ys : lifts P ->
  Forall2 (fun x y => exists n, P n x y) xs ys -> exists n, Forall2 (P n) xs ys.
Proof.
  intros L. induction 1 as [|x y xs ys [n Hn] _ [m Hm]]; [by exists 0|]. exists (n `max` m). constructor; [eapply L, Hn; lia|].
  eapply list.Forall2_impl; [exact Hm|]. intros u v. apply L. lia.
Qed.
Lemma bag_sup {A} (P : nat -> A -> A -> Prop) xs ys : lifts P ->
  bag_same (fun x y => exists n, P n x y) xs ys -> exists n, bag_same (P n) xs ys.
Proof.
  intros L [E F]. cut (exists n, forall x, x ∈ xs -> exists y, y ∈ ys /\ P n x y); [intros [n Hn]; by exists n|].
  clear E. induction xs as [|x xs IH]; [exists 0; by intros x ?%elem_of_nil|].
  destruct IH as [n Hn]; [intros u Hu; apply F; by right|]. destruct (F x (list_elem_of_here _ _)) as (y & Hy & m & Hm).
  exists (n `max` m). intros u [->|Hu]%elem_of_cons; [exists y; split; [done|]; eapply L, Hm; lia|].
  destruct (Hn u Hu) as (v & Hv & Hp). exists v. split; [done|]. eapply L, Hp; lia.
Qed.
Lemma elem_lifts : lifts (fun n => elem (same heap n)).
Proof. intros n m x y Hle. apply elem_mono. intros u v. by apply same_le. Qed.
Lemma elem_sup x y : elem (equal heap) x y -> exists n, elem (same heap n) x y.
Proof. intros [->|[n Hn]]; [exists 0; by left|exists n; by right]. Qed.
Lemma pair_lifts : lifts (fun n => pair_same (elem (same heap n))).
Proof. intros n m p q Hle [H1 H2]. split; by eapply elem_lifts. Qed.
Lemma pair_sup p q : pair_same (elem (equal heap)) p q -> exists n, pair_same (elem (same heap n)) p q.
Proof.
  intros [[n Hn]%elem_sup [m Hm]%elem_sup]. exists (n `max` m). split; [eapply (elem_lifts n)|eapply (elem_lifts m)]; try done; lia.
Qed.

Lemma obj_same_sup a b : obj_same (elem (equal heap)) a b -> exists n, obj_same (elem (same heap n)) a b.
Proof.
  unfold obj_same. destruct (shape_of a), (shape_of b); cbn [shape_same]; intros H; try (exists 0; exact H).
  - destruct H as [-> H]. destruct (forall2_sup (fun n => elem (same heap n)) xs xs0) as [n Hn]; [apply elem_lifts| |by exists n].
    eapply list.Forall2_impl; [exact H|apply elem_sup].
  - apply (bag_sup (fun n => pair_same (elem (same heap n)))); [apply pair_lifts|].
    eapply bag_same_mono, H. intros ? ?. apply pair_sup.
  - apply (bag_sup (fun n => elem (same heap n))); [apply elem_lifts|]. eapply bag_same_mono, H. intros ? ?. apply elem_sup.
Qed.

(** Equality is the fixed point of one level. *)
Lemma equal_unfold l r : equal heap l r <->
  exists x y, vview heap l = Some x /\ vview heap r = Some y /\ view_same (elem (equal heap)) x y.
Proof.
  split.
  - intros [[|n] H]; [done|]. destruct H as (x & y & Hx & Hy & H). exists x, y. split; [done|]. split; [done|].
    eapply view_same_mono, H. intros u v. apply elem_mono. intros; by exists n.
  - intros (x & y & Hx & Hy & H). assert (Hn : exists n, view_same (elem (same heap n)) x y).
    { destruct x, y; try (exists 0; exact H). cbn in *. destruct H as [->|[n Hn]%obj_same_sup]; [exists 0; by left|exists n; by right]. }
    destruct Hn as [n Hn]. exists (Datatypes.S n), x, y. done.
Qed.
End Spec.

(** ** The walk decides equality *)

(** [m] decides [P], or faults on the depth with [E] as the reason. *)
Definition dec (E : Prop) (m : res bool) (P : Prop) : Prop :=
  match m with Ok b => b = true <-> P | Err e => e = DepthExceeded /\ E end.

Lemma dec_iff E m P Q : (P <-> Q) -> dec E m P -> dec E m Q.
Proof. intros H. destruct m as [b|e]; simpl; [by rewrite H|done]. Qed.
Lemma dec_weaken (E E' : Prop) m P : (E -> E') -> dec E m P -> dec E' m P.
Proof. destruct m; simpl; [done|]. intros ? [? ?]; auto. Qed.
Lemma dec_and E (m1 m2 : res bool) P Q : dec E m1 P -> dec E m2 Q -> dec E (let* b := m1 in if b then m2 else Ok false) (P /\ Q).
Proof. destruct m1 as [[]|e]; simpl; [|intros H _|done]; [intros H; apply dec_iff; tauto|]. split; [done|]. intros [?%H _]. done. Qed.
Lemma dec_or E (m1 m2 : res bool) P Q : dec E m1 P -> dec E m2 Q -> dec E (let* b := m1 in if b then Ok true else m2) (P \/ Q).
Proof.
  destruct m1 as [[]|e]; simpl; [|intros H|done].
  - intros H _. split; [|done]. intros _. left. by apply H.
  - apply dec_iff. split; [by right|]. intros [?%H|?]; done.
Qed.
Lemma dec_true E P : P -> dec E (Ok true) P.
Proof. done. Qed.

Section Loops.
Context (E : Prop) {A : Type} (m : A -> A -> res bool) (R : A -> A -> Prop).

Lemma find_match_dec x ys : (forall y, y ∈ ys -> dec E (m x y) (R x y)) ->
  dec E (find_match (m x) ys) (exists y, y ∈ ys /\ R x y).
Proof.
  induction ys as [|y ys IH]; intros H; simpl.
  - split; [done|]. by intros (y & ?%elem_of_nil & _).
  - apply (dec_iff _ _ (R x y \/ exists z, z ∈ ys /\ R x z)).
    + split; [intros [HR|(z & Hz & HR)]; [exists y; split; [left|done]|exists z; split; [by right|done]]|].
      intros (z & [->|Hz]%elem_of_cons & HR); [by left|right; by exists z].
    + apply dec_or; [apply H; left|]. apply IH. intros z Hz. apply H. by right.
Qed.
Lemma all_match_dec xs ys : (forall x y, x ∈ xs -> y ∈ ys -> dec E (m x y) (R x y)) ->
  dec E (all_match m xs ys) (forall x, x ∈ xs -> exists y, y ∈ ys /\ R x y).
Proof.
  induction xs as [|x xs IH]; intros H; simpl.
  - split; [|done]. by intros _ x ?%elem_of_nil.
  - apply (dec_iff _ _ ((exists y, y ∈ ys /\ R x y) /\ forall x, x ∈ xs -> exists y, y ∈ ys /\ R x y)).
    + split; [intros [H1 H2] u [->|Hu]%elem_of_cons; auto|]. intros Ha. split; [apply Ha; left|]. intros u Hu. apply Ha. by right.
    + apply dec_and; [apply find_match_dec; intros; apply H; [left|done]|]. apply IH. intros; apply H; [by right|done].
Qed.
Lemma bag_dec xs ys : (forall x y, x ∈ xs -> y ∈ ys -> dec E (m x y) (R x y)) -> dec E (bag_eq m xs ys) (bag_same R xs ys).
Proof.
  intros H. unfold bag_eq, bag_same. destruct (Nat.eqb_spec (length xs) (length ys)) as [El|El].
  - eapply dec_iff, all_match_dec, H. tauto.
  - split; [done|]. by intros [? _].
Qed.
End Loops.

Lemma seq_dec E (m : tagged -> tagged -> res bool) R xs ys : (forall x y, x ∈ xs -> y ∈ ys -> dec E (m x y) (R x y)) ->
  dec E (seq_eq m xs ys) (Forall2 R xs ys).
Proof.
  intros H. unfold seq_eq. destruct (Nat.eqb_spec (length xs) (length ys)) as [El|El].
  - revert ys El H. induction xs as [|x xs IH]; intros [|y ys] El H; try done; simpl in *.
    apply (dec_iff _ _ (R x y /\ Forall2 R xs ys)); [by rewrite list.Forall2_cons|].
    apply dec_and; [apply H; left|]. apply IH; [lia|]. intros; apply H; by right.
  - split; [done|]. by intros ?%Forall2_length.
Qed.

(** The object arms, by shape. *)
Definition shape_equal (eq : tagged -> tagged -> res bool) (a b : shape) : res bool :=
  match a, b with
  | SStr x, SStr y | SBytes x, SBytes y => Ok (bool_decide (x = y))
  | SSeq KList xs, SSeq KList ys | SSeq KTuple xs, SSeq KTuple ys => seq_eq eq xs ys
  | SSeq (KStruct j) xs, SSeq (KStruct k) ys | SSeq (KEnum j) xs, SSeq (KEnum k) ys =>
      if (j =? k)%Z then seq_eq eq xs ys else Ok false
  | SMap ps, SMap qs => bag_eq (pair_eq eq) ps qs
  | SSet xs, SSet ys => bag_eq eq xs ys
  | SBuiltin x, SBuiltin y | SInt x, SInt y => Ok (x =? y)%Z
  | SFloat x, SFloat y => Ok (float_eq x y)
  | SCore d x, SCore e y => Ok ((d =? e)%Z && (x =? y)%Z)
  | _, _ => Ok false
  end.
Lemma obj_equal_shape eq a b : obj_equal eq a b = shape_equal eq (shape_of a) (shape_of b).
Proof. destruct a, b; reflexivity. Qed.

(** An object's element values. *)
Definition parts (o : Obj) : list tagged :=
  match shape_of o with
  | SSeq _ xs | SSet xs => xs
  | SMap ps => ps ≫= fun p => [p.1; p.2]
  | _ => []
  end.
Lemma map_part ps (p : tagged * tagged) : p ∈ ps -> p.1 ∈ (ps ≫= fun p => [p.1; p.2]) /\ p.2 ∈ (ps ≫= fun p => [p.1; p.2]).
Proof. intros Hp. split; apply list_elem_of_bind; exists p; (split; [|done]); [left|right; left]. Qed.

Lemma float_eq_iff f g : float_eq f g = true <-> F64.compare f g = Some Eq.
Proof. unfold float_eq. destruct (F64.compare f g) as [[]|]; done. Qed.
Lemma int_float_eq_iff n f : int_float_eq n f = true <-> cmp_int_f64 n f = Some Eq.
Proof. unfold int_float_eq. destruct (cmp_int_f64 n f) as [[]|]; done. Qed.

Lemma obj_dec E eq R a b : (forall x y, x ∈ parts a -> y ∈ parts b -> dec E (eq x y) (R x y)) ->
  dec E (obj_equal eq a b) (obj_same R a b).
Proof.
  rewrite obj_equal_shape. unfold obj_same, parts. destruct (shape_of a) as [| |j xs|ps|xs| | | | |], (shape_of b) as [| |k ys|qs|ys| | | | |];
    intros H; cbn [shape_equal shape_same]; try (split; [done|done]); try (unfold dec; apply bool_decide_eq_true); try (unfold dec; apply Z.eqb_eq);
    try (destruct j; split; done).
  - destruct j, k; try (apply (dec_iff _ _ _ _ (conj (conj eq_refl) (fun p => proj2 p))); by apply seq_dec);
      try (split; [done|by intros [? _]]);
      match goal with |- context [(?x =? ?y)%Z] => destruct (Z.eqb_spec x y) as [->|Hne] end;
      try (apply (dec_iff _ _ _ _ (conj (conj eq_refl) (fun p => proj2 p))); by apply seq_dec);
      (split; [done|]); intros [[= ?] _]; done.
  - apply bag_dec. intros p q Hp Hq. destruct (map_part _ _ Hp), (map_part _ _ Hq). apply dec_and; by apply H.
  - by apply bag_dec.
  - apply float_eq_iff.
  - simpl. by rewrite andb_true_iff, !Z.eqb_eq.
Qed.

Section Decide.
Context (heap : nat -> option Obj) (eq_hook : nat -> tagged -> tagged -> option (res bool)).
(** The program declares no [eq] hook ([Program::any_eq_hook] is false). *)
Context (no_hook : forall n l r, eq_hook n l r = None).

Definition live (v : tagged) : Prop := is_Some (vview heap v).
(** No element of a heap object dangles ([World.heap_no_dangling]), and a float box is behind a float tag. *)
Definition closed : Prop := forall r o v, heap r = Some o -> v ∈ parts o -> live v.
(** A rank that falls from an object to its elements: the heap has no cycle below it. *)
Definition vrank (rank : nat -> nat) (v : tagged) : nat := match handle v with Some r => rank (Z.to_nat r) | None => 0 end.
Definition acyclic (rank : nat -> nat) : Prop := forall r o v, heap r = Some o -> v ∈ parts o -> vrank rank v < rank r.

Definition view_equal (eq : tagged -> tagged -> res bool) (x y : view) : res bool :=
  match x, y with
  | NInt a, NInt b => Ok (a =? b)%Z
  | NInt a, NFloat f | NFloat f, NInt a => Ok (int_float_eq a f)
  | NFloat f, NFloat g => Ok (float_eq f g)
  | NBool a, NBool b => Ok (eqb a b)
  | NNil, NNil => Ok true
  | NObj p a, NObj q b => if p =? q then Ok true else obj_equal eq a b
  | _, _ => Ok false
  end.

Lemma vview_obj v x : vview heap v = Some x -> int_val heap v = Ok (match x with NInt n => Some n | _ => None end) /\
  is_float v = (match x with NFloat _ => true | _ => false end) /\
  (forall f, x = NFloat f -> float_of heap v = Ok f).
Proof.
  destruct v; simpl; try (intros [= <-]; done); unfold get; destruct (heap _) as [o|] eqn:E; try done.
  - destruct o; try done; intros [= <-]; done.
  - destruct o; try done; intros [= <-]; split; [done|split; [done|]]; by intros ? [= <-].
Qed.

Definition big (o : Obj) : bool := match o with Obj.BigInt _ | Obj.FloatBox _ => true | _ => false end.
Lemma vview_inv v x : vview heap v = Some x ->
  match x with
  | NInt n => v = TInt n \/ exists r, v = TObj r /\ heap (Z.to_nat r) = Some (Obj.BigInt n)
  | NFloat f => exists r, v = TFloat r /\ heap (Z.to_nat r) = Some (Obj.FloatBox f)
  | NBool b => v = TBool b
  | NNil => v = TNil
  | NObj p o => exists r, v = TObj r /\ p = Z.to_nat r /\ heap (Z.to_nat r) = Some o /\ big o = false
  | NOther => exists l, v = TUninit l
  end.
Proof.
  destruct v; simpl; try (intros [= <-]; by eauto); destruct (heap _) as [o|] eqn:E; try done.
  - destruct o; try done; intros [= <-]; eauto 10.
  - destruct o; try done; intros [= <-]; eauto.
Qed.
Lemma obj_big_false eq a b : big a = false -> big b = true -> obj_equal eq a b = Ok false /\ obj_equal eq b a = Ok false.
Proof. destruct b; try done; destruct a; try done; split; reflexivity. Qed.

Lemma mixed_false eq ra rb a b : heap (Z.to_nat ra) = Some a -> heap (Z.to_nat rb) = Some b -> big a <> big b ->
  (if Z.to_nat ra =? Z.to_nat rb then Ok true
   else let* a := get heap ra in let* b := get heap rb in obj_equal eq a b) = Ok false.
Proof.
  intros Ha Hb Hne. destruct (Nat.eqb_spec (Z.to_nat ra) (Z.to_nat rb)) as [E|E]; [rewrite E in Ha; congruence|].
  unfold get. rewrite Ha, Hb. cbn [rbind]. destruct (big a) eqn:Ea, (big b) eqn:Eb; try done; [by apply (obj_big_false eq b a)|by apply (obj_big_false eq a b)].
Qed.

(** One level of the walk, on what the values are. *)
Lemma veq_view n l r x y : vview heap l = Some x -> vview heap r = Some y ->
  values_equal_guarded heap eq_hook (S n) l r = view_equal (elem_equal heap eq_hook n) x y.
Proof.
  intros Hx Hy. destruct (vview_obj l x Hx) as (E1 & E2 & E3), (vview_obj r y Hy) as (F1 & F2 & F3).
  apply vview_inv in Hx, Hy. cbn [values_equal_guarded]. rewrite E1, F1, E2, F2. cbn [rbind].
  destruct x as [a|f|a| |p a|], y as [b|g|b| |q b|]; rewrite ?(E3 _ eq_refl), ?(F3 _ eq_refl); cbn [rbind view_equal];
    try reflexivity; repeat match goal with
    | H : _ \/ _ |- _ => destruct H as [->|H]
    | H : exists _, _ |- _ => destruct H as [? H]
    | H : _ /\ _ |- _ => destruct H as [? H]
    end; subst; try reflexivity; cbn [handle]; rewrite ?no_hook.
  1-4: eapply mixed_false; [eassumption|eassumption|]; cbn [big]; congruence.
  destruct (_ =? _); [done|]. unfold get. repeat match goal with H : heap _ = Some _ |- _ => rewrite H; clear H end. done.
Qed.

Lemma view_dec E eq R x y : (forall p q a b u v, x = NObj p a -> y = NObj q b -> u ∈ parts a -> v ∈ parts b -> dec E (eq u v) (R u v)) ->
  dec E (view_equal eq x y) (view_same R x y).
Proof.
  intros H. destruct x as [a|f|a| |p a|], y as [b|g|b| |q b|]; cbn [view_equal view_same]; try (split; done); unfold dec at 1.
  - apply Z.eqb_eq.
  - apply int_float_eq_iff.
  - apply int_float_eq_iff.
  - apply float_eq_iff.
  - apply eqb_true_iff.
  - change (dec E (if p =? q then Ok true else obj_equal eq a b) (p = q \/ obj_same R a b)).
    destruct (Nat.eqb_spec p q) as [->|Hne]; [split; [by left|done]|].
    apply (dec_iff _ _ (obj_same R a b)); [tauto|]. apply obj_dec. intros u v. by apply (H p q a b).
Qed.

Lemma elem_dec (E : Prop) n x y : dec E (values_equal_guarded heap eq_hook n x y) (equal heap x y) ->
  dec E (elem_equal heap eq_hook n x y) (elem (equal heap) x y).
Proof.
  intros H. unfold elem_equal. case_decide as Hd; [split; [by left|done]|]. eapply dec_iff, H. unfold elem. tauto.
Qed.

(** The walk decides equality, and the depth fault is raised only at a value whose nesting uses up
    the budget. *)
Lemma walk_decides n l r : closed -> live l -> live r ->
  dec (forall rank, acyclic rank -> n <= vrank rank l) (values_equal_guarded heap eq_hook n l r) (equal heap l r).
Proof.
  intros Hc. revert l r. induction n as [|n IH]; intros l r [x Hx] [y Hy]; [split; [done|lia]|].
  rewrite (veq_view n l r x y Hx Hy).
  apply (dec_iff _ _ (view_same (elem (equal heap)) x y)).
  { rewrite equal_unfold. split; [intros H; by exists x, y|]. intros (x' & y' & Hx' & Hy' & H). by simplify_eq. }
  apply view_dec. intros p q a b u v -> -> Hu Hv. apply vview_inv in Hx as (rl & -> & -> & Ha & _), Hy as (rr & -> & -> & Hb & _).
  apply (dec_weaken (forall rank, acyclic rank -> n <= vrank rank u)).
  { intros H rank Hr. specialize (H rank Hr). specialize (Hr _ _ _ Ha Hu). unfold vrank at 1. cbn [handle]. lia. }
  apply elem_dec, IH; [exact (Hc _ _ _ Ha Hu)|exact (Hc _ _ _ Hb Hv)].
Qed.
End Decide.

(** ** Numbers *)
Lemma float_same f g : F64.compare f g = Some Eq <->
  f <> S754_nan /\ (f = g \/ exists s t, f = S754_zero s /\ g = S754_zero t).
Proof.
  unfold F64.compare. split.
  - destruct f as [s|s| |s m e], g as [t|t| |t m' e']; try done; simpl; try (by destruct s); try (by destruct t).
    + intros _. split; [done|]. right. by exists s, t.
    + destruct s, t; try done; intros _; (split; [done|by left]).
    + destruct s, t; try done; destruct (Z.compare_spec e e') as [->| |]; try done;
        destruct (Pos.compare_cont Eq m m') eqn:E; try done; apply Pos.compare_eq in E as ->; intros _; (split; [done|by left]).
  - intros [Hn [->|(s & t & -> & ->)]]; [|done]. destruct g as [s|s| |s m e]; simpl; try done.
    + by destruct s.
    + change (Pos.compare_cont Eq m m) with (Pos.compare m m). rewrite Z.compare_refl, Pos.compare_refl. by destruct s.
Qed.

(** An [i64] equal to a float is its value. *)
Definition exact_int (n : Z) (f : F64.f64) : Prop :=
  match f with
  | S754_zero _ => n = 0%Z
  | S754_finite s m e =>
      let z := if s then Zneg m else Zpos m in
      ((0 <= e /\ n = z * 2 ^ e) \/ (e < 0 /\ z = n * 2 ^ (- e)))%Z
  | _ => False
  end.
Lemma int_same n f : cmp_int_f64 n f = Some Eq -> exact_int n f.
Proof.
  destruct f as [s|s| |s m e]; unfold cmp_int_f64; simpl; try done.
  - by destruct n.
  - by destruct s.
  - set (z := if s then Zneg m else Zpos m). destruct (Z.leb_spec 0 e) as [He|He]; simpl.
    + destruct (2 ^ 63 <=? _)%Z; [done|]. destruct (_ <? _)%Z; [done|]. destruct (Z.compare_spec n (Z.shiftl z e)) as [->| |]; try done.
      intros _. left. split; [done|]. by rewrite Z.shiftl_mul_pow2.
    + destruct (2 ^ 63 <=? _)%Z; [done|]. destruct (_ <? _)%Z; [done|].
      destruct (Z.compare_spec n (Z.shiftr z (- e))) as [->| |]; try done.
      destruct (Z.eqb_spec (z mod 2 ^ (- e)) 0) as [Hm|Hm]; [|done]. intros _. right. split; [done|].
      rewrite Z.shiftr_div_pow2 by lia. pose proof (Z.div_mod z (2 ^ (- e)) ltac:(lia)). lia.
Qed.

(** A canonical float is determined by its integer value. *)
Lemma exact_log2 n s m e : exact_int n (S754_finite s m e) ->
  (n <> 0 /\ (n <? 0) = s /\ Z.log2 (Z.abs n) = Z.log2 (Zpos m) + e)%Z.
Proof.
  unfold exact_int. set (z := if s then Zneg m else Zpos m).
  assert (Hz : Z.abs z = Zpos m /\ (z <? 0)%Z = s /\ z <> 0%Z) by (unfold z; by destruct s). destruct Hz as (Ha & Hs & H0).
  intros [[He ->]|[He E]].
  - assert (0 < 2 ^ e)%Z by lia. split; [nia|]. split.
    + rewrite <- Hs. destruct (Z.ltb_spec z 0), (Z.ltb_spec (z * 2 ^ e) 0); try done; nia.
    + rewrite Z.abs_mul, Ha, (Z.abs_eq (2 ^ e)) by lia. rewrite Z.log2_mul_pow2; lia.
  - assert (0 < 2 ^ (- e))%Z by lia. split; [nia|]. split.
    + rewrite <- Hs. destruct (Z.ltb_spec z 0), (Z.ltb_spec n 0); try done; nia.
    + rewrite <- Ha, E, Z.abs_mul, (Z.abs_eq (2 ^ (- e))) by lia. rewrite Z.log2_mul_pow2 by nia. lia.
Qed.
Lemma exact_unique n f g : exact_int n f -> exact_int n g -> float_ok f -> float_ok g -> F64.compare f g = Some Eq.
Proof.
  intros Hf Hg Of Og. apply float_same. destruct f as [s|s| |s m e]; [|done|done|].
  - split; [done|]. simpl in Hf. subst n. destruct g as [t|t| |t m' e']; [|done|done|].
    + right. by exists s, t.
    + by apply exact_log2 in Hg as [? _].
  - split; [done|]. left. pose proof (exact_log2 _ _ _ _ Hf) as (H0 & Hs & Hl). destruct g as [t|t| |t m' e']; [done|done|done|].
    pose proof (exact_log2 _ _ _ _ Hg) as (_ & Ht & Hl').
    unfold float_ok, valid_binary, bounded, canonical_mantissa in Of, Og.
    apply andb_prop in Of as [Of%Z.eqb_eq _], Og as [Og%Z.eqb_eq _]. rewrite digits_log2 in Of, Og.
    assert (e = e') as <-.
    { rewrite <- Of, <- Og. f_equal. lia. }
    assert (s = t) as <- by congruence. f_equal. unfold exact_int in Hf, Hg.
    destruct s, Hf as [[He Hf]|[He Hf]], Hg as [[He' Hg]|[He' Hg]]; try lia.
    + rewrite Hf in Hg. apply Z.mul_reg_r in Hg; [congruence|]. apply Z.pow_nonzero; lia.
    + rewrite Hf in Hg. apply Z.mul_reg_r in Hg; [congruence|]. apply Z.pow_nonzero; lia.
Qed.

(** ** An equivalence *)

(** Equal sizes and injective matching make a matching onto. *)
Lemma bag_onto {A} (R : A -> A -> Prop) xs ys :
  (forall i j x x' y, xs !! i = Some x -> xs !! j = Some x' -> R x y -> R x' y -> i = j) ->
  bag_same R xs ys -> forall y, y ∈ ys -> exists x, x ∈ xs /\ R x y.
Proof.
  intros Hinj [El HF] y Hy.
  assert (Hjs : exists js, Forall2 (fun x j => exists y, ys !! j = Some y /\ R x y) xs js).
  { clear Hinj El Hy. induction xs as [|x xs IH]; [by exists []|]. destruct IH as [js Hjs]; [intros u Hu; apply HF; by right|].
    destruct (HF x (list_elem_of_here _ _)) as (z & [j Hj]%list_elem_of_lookup & HR). exists (j :: js).
    apply list.Forall2_cons. split; [by exists z|done]. }
  destruct Hjs as [js Hjs]. pose proof (list.Forall2_length _ _ _ Hjs) as Elj.
  assert (Hnd : NoDup js).
  { apply NoDup_alt. intros i j k Hi Hj. destruct (Forall2_lookup_r _ _ _ _ _ Hjs Hi) as (x & Hx & z & Hz & HR).
    destruct (Forall2_lookup_r _ _ _ _ _ Hjs Hj) as (x' & Hx' & z' & Hz' & HR'). simplify_eq. by eapply Hinj. }
  assert (Hp : js ≡ₚ seq 0 (length ys)).
  { apply submseteq_length_Permutation; [|rewrite length_seq; lia]. apply NoDup_submseteq; [done|].
    intros j [i Hi]%list_elem_of_lookup. destruct (Forall2_lookup_r _ _ _ _ _ Hjs Hi) as (x & _ & z & Hz & _).
    apply elem_of_seq. apply lookup_lt_Some in Hz. lia. }
  apply list_elem_of_lookup in Hy as [j Hj]. assert (Hin : j ∈ js).
  { rewrite Hp. apply elem_of_seq. apply lookup_lt_Some in Hj. lia. }
  apply list_elem_of_lookup in Hin as [i Hi]. destruct (Forall2_lookup_r _ _ _ _ _ Hjs Hi) as (x & Hx & z & Hz & HR).
  simplify_eq. exists x. split; [by eapply list_elem_of_lookup_2|done].
Qed.

Section Equivalence.
Context (heap : nat -> option Obj).

(** Map keys and set elements are pairwise different, as the probes of [MapProbe.v] keep them. *)
Definition distinct (ks : list tagged) : Prop :=
  forall i j x y, ks !! i = Some x -> ks !! j = Some y -> elem (equal heap) x y -> i = j.
Definition heap_ok : Prop := forall r o, heap r = Some o ->
  match o with
  | Obj.FloatBox f => float_ok f
  | Obj.Map m _ _ => distinct (map_pairs m).*1
  | Obj.Set_ s _ _ => distinct (set_elems s)
  | _ => True
  end.

Definition per {A} (R : A -> A -> Prop) : Prop := (forall x y, R x y -> R y x) /\ (forall x y z, R x y -> R y z -> R x z).

Lemma elem_per (R : tagged -> tagged -> Prop) : per R -> per (elem R).
Proof.
  intros [Hs Ht]. split.
  - intros x y [->|H]; [by left|right; auto].
  - intros x y z [->|H] [->|H']; [by left|by right|by right|right; by eapply Ht].
Qed.

Lemma forall2_trans {A} (R : A -> A -> Prop) xs ys zs : (forall x y z, R x y -> R y z -> R x z) ->
  Forall2 R xs ys -> Forall2 R ys zs -> Forall2 R xs zs.
Proof.
  intros Ht H. revert zs. induction H as [|x y xs ys HR _ IH]; intros zs Hz; [done|].
  apply Forall2_cons_inv_l in Hz as (z & zs' & H1 & H2 & ->). constructor; [by eapply Ht|by apply IH].
Qed.
Lemma bag_trans {A} (R : A -> A -> Prop) xs ys zs : (forall x y z, R x y -> R y z -> R x z) ->
  bag_same R xs ys -> bag_same R ys zs -> bag_same R xs zs.
Proof.
  intros Ht [E1 F1] [E2 F2]. split; [congruence|]. intros x Hx. destruct (F1 x Hx) as (y & Hy & H1).
  destruct (F2 y Hy) as (z & Hz & H2). exists z. split; [done|by eapply Ht].
Qed.
Lemma bag_sym {A} (R : A -> A -> Prop) xs ys : (forall x y, R x y -> R y x) ->
  (forall i j x x' y, xs !! i = Some x -> xs !! j = Some x' -> R x y -> R x' y -> i = j) ->
  bag_same R xs ys -> bag_same R ys xs.
Proof.
  intros Hs Hi H. split; [symmetry; apply H|]. intros y Hy. destruct (bag_onto R xs ys Hi H y Hy) as (x & Hx & HR). exists x. auto.
Qed.

(** The shapes of the objects of a good heap keep the two laws. *)
Lemma obj_same_sym R r a b : heap_ok -> heap r = Some a -> per R -> (forall x y, R x y -> elem (equal heap) x y) ->
  obj_same R a b -> obj_same R b a.
Proof.
  intros Hok Ha [Hs Ht] Hsub. specialize (Hok r a Ha). unfold obj_same.
  destruct (shape_of b) as [| |k ys|qs|ys| | | | |] eqn:Eb; destruct (shape_of a) as [| |j xs|ps|xs| | | | |] eqn:Ea; try done; cbn [shape_same].
  - intros [-> H]. split; [done|]. apply Forall2_flip. eapply list.Forall2_impl; [exact H|]. auto.
  - assert (Hd : distinct ps.*1) by (by destruct a; simplify_eq/=).
    apply bag_sym; [intros p q [? ?]; split; auto|]. intros i j p p' q Hi Hj [H1 _] [H2 _].
    apply (Hd i j p.1 p'.1); [by rewrite list_lookup_fmap, Hi|by rewrite list_lookup_fmap, Hj|]. apply Hsub. by eapply Ht, Hs.
  - assert (Hd : distinct xs) by (by destruct a; simplify_eq/=).
    apply bag_sym; [done|]. intros i j p p' q Hi Hj H1 H2. apply (Hd i j p p'); [done|done|]. apply Hsub. by eapply Ht, Hs.
  - intros H. apply float_same in H as [Hn [->|(s & t & -> & ->)]]; [|done]. apply float_same. split; [done|by left].
  - by intros [-> ->].
Qed.
Lemma obj_same_trans R a b c : per R -> obj_same R a b -> obj_same R b c -> obj_same R a c.
Proof.
  intros [Hs Ht]. unfold obj_same.
  destruct (shape_of a) as [| |j xs|ps|xs| | | | |], (shape_of b) as [| |k ys|qs|ys| | | | |]; try done;
    destruct (shape_of c) as [| |k' zs|rs|zs| | | | |]; try done; cbn [shape_same]; try congruence.
  - intros [-> H1] [-> H2]. split; [done|]. by eapply forall2_trans.
  - apply bag_trans. intros p q s [? ?] [? ?]. split; by eapply Ht.
  - by apply bag_trans.
  - rewrite !float_same. intros [Hn H1] [_ H2]. split; [done|]. destruct H1 as [->|(s & t & -> & ->)]; [done|].
    destruct H2 as [<-|(s' & t' & _ & ->)]; right; eauto.
  - intros [-> ->] [-> ->]. done.
Qed.

Lemma view_float v f : heap_ok -> vview heap v = Some (NFloat f) -> float_ok f.
Proof. intros Hok Hv. apply vview_inv in Hv as (r & _ & Hr). exact (Hok _ _ Hr). Qed.

Lemma int_float_unique a b f : cmp_int_f64 a f = Some Eq -> cmp_int_f64 b f = Some Eq -> a = b.
Proof.
  intros Ha%int_same Hb%int_same. destruct f as [s|s| |s m e]; try done; simpl in Ha, Hb; [congruence|].
  destruct Ha as [[He ->]|[He Ha]], Hb as [[? ->]|[? Hb]]; try lia. rewrite Ha in Hb. apply Z.mul_reg_r in Hb; [done|].
  apply Z.pow_nonzero; lia.
Qed.
Lemma cmp_zero a s t : cmp_int_f64 a (S754_zero s) = cmp_int_f64 a (S754_zero t).
Proof. done. Qed.
Lemma int_float_trans a f g : cmp_int_f64 a f = Some Eq -> F64.compare f g = Some Eq -> cmp_int_f64 a g = Some Eq.
Proof. intros Ha [_ [->|(s & t & -> & ->)]]%float_same; [done|]. by rewrite (cmp_zero _ t s). Qed.
Lemma float_sym f g : F64.compare f g = Some Eq -> F64.compare g f = Some Eq.
Proof. intros [Hn [->|(s & t & -> & ->)]]%float_same; [|done]. apply float_same. by split; [|left]. Qed.

(** One level: the laws of the elements carry over to the values. *)
Lemma level_per n : heap_ok -> per (same heap n) -> per (same heap (S n)).
Proof.
  intros Hok Hp. pose proof (elem_per _ Hp) as He.
  assert (Hsub : forall x y, elem (same heap n) x y -> elem (equal heap) x y) by (intros x y; apply elem_mono; intros; by exists n).
  split.
  - intros l r (x & y & Hx & Hy & H). exists y, x. split; [done|]. split; [done|].
    destruct x as [a|f|a| |p a|], y as [b|g|b| |q b|]; try done; cbn [view_same] in *; try (by apply float_sym).
    destruct H as [->|H]; [by left|right]. apply vview_inv in Hx as (rl & _ & _ & Ha & _). by eapply obj_same_sym.
  - intros l m r (x & y & Hx & Hy & H1) (y' & z & Hy' & Hz & H2). rewrite Hy in Hy'. injection Hy' as <-.
    exists x, z. split; [done|]. split; [done|].
    destruct x as [a|f|a| |p a|], y as [b|g|b| |q b|]; try done; destruct z as [c|k|c| |s c|]; try done; cbn [view_same] in *; try congruence.
    + by eapply int_float_unique.
    + by eapply int_float_trans.
    + eapply exact_unique; [apply int_same, H1|apply int_same, H2|by eapply view_float|by eapply view_float].
    + eapply int_float_trans; [exact H2|]. by apply float_sym.
    + apply float_same in H1 as [Hn [->|(s & t & -> & ->)]]; [done|]. apply float_same in H2 as [_ [<-|(s' & t' & _ & ->)]]; done.
    + destruct H1 as [->|H1].
      * apply vview_inv in Hx as (rl & _ & -> & Ha & _), Hy as (rm & _ & E & Hb & _). rewrite <- E, Ha in Hb. by simplify_eq.
      * destruct H2 as [->|H2]; [|right; by eapply obj_same_trans].
        apply vview_inv in Hy as (rl & _ & -> & Hb & _), Hz as (rm & _ & E & Hc & _). rewrite <- E, Hb in Hc. simplify_eq. by right.
Qed.

Lemma same_per n : heap_ok -> per (same heap n).
Proof. intros Hok. induction n as [|n IH]; [by split|by apply level_per]. Qed.
Lemma equal_per : heap_ok -> per (equal heap).
Proof.
  intros Hok. split.
  - intros x y [n Hn]. exists n. by apply (same_per n Hok).
  - intros x y z [n Hn] [m Hm]. exists (n `max` m). eapply (same_per _ Hok); [eapply (same_le _ n), Hn; lia|eapply (same_le _ m), Hm; lia].
Qed.
End Equivalence.

(** ** An exactly representable int converts to its float *)
Lemma shr_exact p m : SpecFloat.iter_pos shr_1 p (Build_shr_record (m * 2 ^ Zpos p) false false) = Build_shr_record m false false.
Proof.
  assert (H1 : forall z, shr_1 (Build_shr_record (2 * z) false false) = Build_shr_record z false false) by (by intros [|z|z]).
  revert m. induction p as [p IH|p IH|]; intros m; cbn [SpecFloat.iter_pos].
  - replace (m * 2 ^ Zpos p~1)%Z with (2 * ((m * 2 ^ Zpos p) * 2 ^ Zpos p))%Z.
    + by rewrite H1, !IH.
    + replace (Zpos p~1) with (1 + (Zpos p + Zpos p))%Z by lia. rewrite !Z.pow_add_r by lia. lia.
  - replace (m * 2 ^ Zpos p~0)%Z with ((m * 2 ^ Zpos p) * 2 ^ Zpos p)%Z; [by rewrite !IH|].
    replace (Zpos p~0) with (Zpos p + Zpos p)%Z by lia. rewrite Z.pow_add_r by lia. lia.
  - rewrite Z.pow_1_r, Z.mul_comm. apply H1.
Qed.

(** Rounding a canonical mantissa changes nothing. *)
Lemma round_canonical s m e : float_ok (S754_finite s m e) ->
  binary_round_aux F64.prec F64.emax s (Zpos m) e loc_Exact = S754_finite s m e.
Proof.
  intros Hok. unfold float_ok, valid_binary, bounded, canonical_mantissa in Hok. apply andb_prop in Hok as [Hc%Z.eqb_eq Hb].
  assert (Hs : shr_fexp F64.prec F64.emax (Zpos m) e loc_Exact = (Build_shr_record (Zpos m) false false, e)).
  { unfold shr_fexp. cbn [Zdigits2 shr_record_of_loc]. by rewrite Hc, Z.sub_diag. }
  unfold binary_round_aux. rewrite Hs. cbn [shr_m loc_of_shr_record round_nearest_even]. rewrite Hs. cbn [shr_m]. by rewrite Hb.
Qed.

Lemma round_exact s k m e : float_ok (S754_finite s m e) ->
  (0 <= e /\ Zpos k = Zpos m * 2 ^ e \/ e < 0 /\ Zpos m = Zpos k * 2 ^ (- e))%Z ->
  binary_round F64.prec F64.emax s k 0 = S754_finite s m e.
Proof.
  intros Hok Hk. pose proof Hok as Hc. unfold float_ok, valid_binary, bounded, canonical_mantissa in Hc.
  apply andb_prop in Hc as [Hc%Z.eqb_eq Hb].
  assert (Hd : fexp F64.prec F64.emax (Zpos (digits2_pos k) + 0) = e).
  { rewrite <- Hc at 1. f_equal. rewrite !digits_log2. destruct Hk as [[He ->]|[He Hk]]; [rewrite Z.log2_mul_pow2; lia|].
    rewrite Hk, Z.log2_mul_pow2; lia. }
  unfold binary_round, shl_align. rewrite Hd, Z.sub_0_r. destruct Hk as [[He Hk]|[He Hk]].
  - destruct e as [|p|p]; [|clear Hd|lia].
    + rewrite Z.pow_0_r, Z.mul_1_r in Hk. injection Hk as ->. by apply round_canonical.
    + pose proof (round_canonical _ _ _ Hok) as Hr. unfold binary_round_aux in Hr |- *.
      assert (Hs : shr_fexp F64.prec F64.emax (Zpos k) 0 loc_Exact = (Build_shr_record (Zpos m) false false, Zpos p)).
      { unfold shr_fexp. cbn [Zdigits2 shr_record_of_loc]. rewrite Z.sub_0_r.
        replace (fexp F64.prec F64.emax (Zpos (digits2_pos k) + 0)) with (Zpos p); [cbn [shr]; by rewrite Hk, shr_exact|].
        rewrite <- Hc at 1. f_equal. rewrite !digits_log2, Hk, Z.log2_mul_pow2; lia. }
      rewrite Hs. cbn [shr_m loc_of_shr_record round_nearest_even].
      assert (Hs2 : shr_fexp F64.prec F64.emax (Zpos m) (Zpos p) loc_Exact = (Build_shr_record (Zpos m) false false, Zpos p)).
      { unfold shr_fexp. cbn [Zdigits2 shr_record_of_loc]. by rewrite Hc, Z.sub_diag. }
      rewrite Hs2. cbn [shr_m]. by rewrite Hb.
  - destruct e as [|p|p]; [lia|lia|].
    assert (Hm : Pos.iter xO k p = m).
    { enough (Zpos (Pos.iter xO k p) = Zpos m) by congruence. rewrite shl_pos, Hk. done. }
    rewrite Hm. by apply round_canonical.
Qed.

Lemma of_i64_exact n f : exact_int n f -> float_ok f -> n <> 0%Z -> F64.of_i64 n = f.
Proof.
  intros He Hok Hn. destruct f as [s|s| |s m e]; try done. pose proof (exact_log2 _ _ _ _ He) as (_ & Hs & _).
  unfold F64.of_i64, binary_normalize. destruct n as [|k|k]; [done| |]; simpl in Hs; subst s; apply round_exact; try done;
    unfold exact_int in He; cbv beta iota zeta in He;
    destruct He as [[? He]|[? He]]; [left|right]; (split; [done|]).
  all: change (Zneg k <? 0)%Z with true in He; cbv iota in He; lia.
Qed.
Lemma int_float_hash n f : cmp_int_f64 n f = Some Eq -> float_ok f -> int_hash n = float_hash f.
Proof.
  intros He%int_same Hok. unfold int_hash, float_hash. destruct (Z.eqb_spec n 0) as [->|Hn].
  - destruct f as [s|s| |s m e]; try done. by apply exact_log2 in He as [? _].
  - rewrite (of_i64_exact n f) by done. by destruct f.
Qed.
Lemma float_float_hash f g : F64.compare f g = Some Eq -> float_hash f = float_hash g.
Proof. by intros [_ [->|(s & t & -> & ->)]]%float_same. Qed.

(** ** Equal keys hash equally *)
Section HashEqual.
Context (heap : nat -> option Obj) (hash_hook : nat -> tagged -> res Z) (hash_bytes : list Z -> Z).
Context (Hok : heap_ok heap).
(** The contract of a user [hash]: equal values, equal hashes. *)
Context (hook_ok : forall n m l r x y, elem (equal heap) l r -> hash_hook n l = Ok x -> hash_hook m r = Ok y -> x = y).
Let hash := hash_value_d heap hash_hook hash_bytes.

Lemma hash_all_same (R : tagged -> tagged -> Prop) (h1 h2 : tagged -> res Z) xs ys : Forall2 R xs ys ->
  (forall x y a b, R x y -> h1 x = Ok a -> h2 y = Ok b -> a = b) ->
  forall acc a b, hash_all h1 acc xs = Ok a -> hash_all h2 acc ys = Ok b -> a = b.
Proof.
  intros H Hh. induction H as [|x y xs ys HR _ IH]; intros acc a b; simpl; [congruence|].
  destruct (h1 x) as [u|] eqn:E1; [|done]. destruct (h2 y) as [v|] eqn:E2; [|done]. cbn [rbind].
  rewrite (Hh x y u v HR E1 E2). apply IH.
Qed.

(** The object arms of [hash_value_d]. *)
Definition obj_hash (n : nat) (v : tagged) (o : Obj) : res Z :=
  match o with
  | Obj.Struct _ _ | Obj.Enum _ _ => hash_hook n v
  | Obj.Tuple its => hash_all (hash n) (Z.lxor 3430008 (Z.of_nat (length (items its)))) (items its)
  | Obj.Str s | Obj.Bytes s => Ok (hash_bytes s)
  | _ => Err Unhashable
  end.
Definition view_hash (n : nat) (v : tagged) (x : view) : res Z :=
  match x with
  | NInt a => Ok (int_hash a)
  | NFloat f => Ok (float_hash f)
  | NBool b => Ok (Z.b2z b)
  | NNil => Ok 0%Z
  | NObj _ o => obj_hash n v o
  | NOther => Err Dangling
  end.
Lemma hash_view n v x : vview heap v = Some x -> hash (S n) v = view_hash n v x.
Proof.
  unfold hash. destruct v; simpl; try (intros [= <-]; done); unfold get; destruct (heap _) as [o|] eqn:E; try done;
    destruct o; try done; intros [= <-]; try done; simpl; unfold get; by rewrite E.
Qed.
Lemma obj_hash_same n m l r a b x y : elem (equal heap) l r ->
  (forall u v c d, elem (equal heap) u v -> hash n u = Ok c -> hash m v = Ok d -> c = d) ->
  obj_same (elem (equal heap)) a b -> obj_hash n l a = Ok x -> obj_hash m r b = Ok y -> x = y.
Proof.
  intros Hlr IH. unfold obj_same. destruct a; try done; destruct b; try done; cbn [shape_of shape_same obj_hash];
    try (intros _; by apply hook_ok); try (intros ->; congruence); try (by intros [? _]).
  intros [_ H]. rewrite <- (list.Forall2_length _ _ _ H). by apply (hash_all_same _ _ _ _ _ H).
Qed.

Lemma hash_same n m l r x y : elem (equal heap) l r -> hash n l = Ok x -> hash m r = Ok y -> x = y.
Proof.
  revert m l r x y. induction n as [|n IH]; intros [|m] l r x y Hlr; try done.
  assert (Hrefl : forall o, obj_hash n l o = Ok x -> obj_hash m r o = Ok y -> x = y).
  { destruct o; try done; cbn [obj_hash]; try congruence; try (by apply hook_ok).
    apply (hash_all_same eq); [by induction (items its); constructor|]. intros u v c d ->. apply IH. by left. }
  destruct Hlr as [<-|Heq].
  - destruct (vview heap l) as [v|] eqn:Ev.
    + rewrite !(hash_view _ _ _ Ev). destruct v as [a|f|b| |p o|]; cbn [view_hash]; try congruence. apply Hrefl.
    + unfold hash. destruct l as [k|k|k| |b|k]; try done; simpl; simpl in Ev; unfold get; destruct (heap _) as [[]|] eqn:E; try done; simpl;
        unfold get; rewrite E; simpl; congruence.
  - pose proof Heq as Heq0. apply equal_unfold in Heq as (v & w & Hv & Hw & H). rewrite (hash_view _ _ _ Hv), (hash_view _ _ _ Hw).
    destruct v as [a|f|a| |p a|], w as [b|g|b| |q b|]; try done; cbn [view_hash view_same] in *; try congruence.
    + rewrite (int_float_hash a g H); [congruence|by eapply view_float].
    + rewrite (int_float_hash b f H); [congruence|by eapply view_float].
    + rewrite (float_float_hash f g H). congruence.
    + destruct H as [->|H]; [|apply obj_hash_same; [by right|intros; by eapply IH|done]].
      apply vview_inv in Hv as (rl & _ & -> & Ha & _), Hw as (rr & _ & E & Hb & _). rewrite E in Ha. rewrite Ha in Hb.
      injection Hb as <-. apply Hrefl.
Qed.
End HashEqual.

(** ** The theorems *)

(** C24: The depth-guarded walk decides structural equality.  In a program with no [eq] hook, on a
    heap without dangling elements, it answers [true] exactly for equal values (and [false]
    exactly for unequal ones); its only other outcome is the depth fault, raised only when the
    left value nests at least as deep as the budget, so never on a cyclic-free value shallower
    than [MAX_STRUCTURAL_DEPTH]. *)
Theorem equality_decides (heap : nat -> option Obj) eq_hook (n : nat) (l r : tagged)
  (Hh : forall n l r, eq_hook n l r = None) (Hc : closed heap) (Hl : live heap l) (Hr : live heap r) :
  match values_equal_guarded heap eq_hook n l r with
  | Ok b => b = true <-> equal heap l r
  | Err e => e = DepthExceeded /\ forall rank, acyclic heap rank -> n <= vrank rank l
  end.
Proof. exact (walk_decides heap eq_hook Hh n l r Hc Hl Hr). Qed.

(** Equality is an equivalence where it promises one.  On a heap whose maps and sets hold
    pairwise different keys, [==] is symmetric and transitive (an int, a boxed int and a float of
    the same value included, beyond 2^53 too), whatever budgets the answers came from; and the
    element comparison is reflexive as well, for a NaN too. *)
Lemma equality_equivalence (heap : nat -> option Obj) eq_hook (n m k : nat) (x y z : tagged)
  (Hh : forall n l r, eq_hook n l r = None) (Hok : heap_ok heap) (Hc : closed heap)
  (Hx : live heap x) (Hy : live heap y) (Hz : live heap z)
  (Hxy : values_equal_guarded heap eq_hook n x y = Ok true) :
  elem_equal heap eq_hook n x x = Ok true /\
  (forall b, values_equal_guarded heap eq_hook m y x = Ok b -> b = true) /\
  (forall b, values_equal_guarded heap eq_hook m y z = Ok true -> values_equal_guarded heap eq_hook k x z = Ok b -> b = true).
Proof.
  destruct (equal_per heap Hok) as [Hs Ht].
  assert (W : forall n l r b, live heap l -> live heap r -> values_equal_guarded heap eq_hook n l r = Ok b -> b = true <-> equal heap l r).
  { intros n' l r b Hl Hr E. pose proof (walk_decides heap eq_hook Hh n' l r Hc Hl Hr) as H. by rewrite E in H. }
  apply (W n) in Hxy; [|done|done]. split; [unfold elem_equal; by rewrite decide_True|]. split.
  - intros b Hb. apply (W m y x b Hy Hx Hb). by apply Hs, Hxy.
  - intros b Hyz Hb. apply (W k x z b Hx Hz Hb). apply (Ht x y z); [by apply Hxy|by apply (W m y z true Hy Hz Hyz)].
Qed.

(** C33: Equal keys hash equally, so a table finds a key by any value equal to it: [3], a boxed [3]
    and [3.0] alike, strings and bytes by content, tuples element by element, records through
    their [hash] hook (given that the hook respects equality). *)
Theorem equal_keys_hash (heap : nat -> option Obj) (hash_hook : nat -> tagged -> res Z) (hash_bytes : list Z -> Z)
  (n m : nat) (l r : tagged) (x y : Z) (Hok : heap_ok heap)
  (Hhook : forall n m l r x y, elem (equal heap) l r -> hash_hook n l = Ok x -> hash_hook m r = Ok y -> x = y)
  (Heq : equal heap l r) (Hl : hash_value_d heap hash_hook hash_bytes n l = Ok x)
  (Hr : hash_value_d heap hash_hook hash_bytes m r = Ok y) : x = y.
Proof. eapply (hash_same heap hash_hook hash_bytes Hok Hhook); [by right|exact Hl|exact Hr]. Qed.

(** [(3, "a")] and [(3.0, "a")], with boxes of their own. *)
Module EqDemo.
Definition heap (r : nat) : option Obj :=
  match r with
  | 0 => Some (Obj.Tuple (mkRVec [TInt 3; TObj 1] 2%Z))
  | 1 | 4 => Some (Obj.Str [97%Z])
  | 2 => Some (Obj.Tuple (mkRVec [TFloat 3; TObj 4] 2%Z))
  | 3 => Some (Obj.FloatBox (F64.of_i64 3))
  | _ => None
  end.
Definition no_hook (n : nat) (l r : tagged) : option (res bool) := None.
Definition const_hash (n : nat) (v : tagged) : res Z := Ok 7%Z.
Definition len_hash (b : list Z) : Z := Z.of_nat (length b).
Lemma is_closed : closed heap.
Proof.
  intros r o v. do 5 (destruct r as [|r]; [intros [= <-]; cbn; intros H; repeat (apply elem_of_cons in H as [->|H]; [by eexists|]);
    by apply elem_of_nil in H|]). done.
Qed.
Lemma is_ok : heap_ok heap.
Proof. intros r o. do 5 (destruct r as [|r]; [intros [= <-]; reflexivity || exact Logic.I|]). done. Qed.
Lemma equal_tuples : values_equal_guarded heap no_hook 5 (TObj 0) (TObj 2) = Ok true.
Proof. reflexivity. Qed.
Lemma live_tuple r : r = 0%Z \/ r = 2%Z -> live heap (TObj r).
Proof. intros [->| ->]; by eexists. Qed.
End EqDemo.

Lemma equality_decides_witness : closed EqDemo.heap /\ equal EqDemo.heap (TObj 0) (TObj 2).
Proof.
  split; [exact EqDemo.is_closed|].
  pose proof (equality_decides EqDemo.heap EqDemo.no_hook 5 (TObj 0) (TObj 2) (fun _ _ _ => eq_refl) EqDemo.is_closed
    (EqDemo.live_tuple 0 (or_introl eq_refl)) (EqDemo.live_tuple 2 (or_intror eq_refl))) as H.
  rewrite EqDemo.equal_tuples in H. apply H. reflexivity.
Defined.
Lemma equal_keys_hash_witness : equal EqDemo.heap (TObj 0) (TObj 2) /\ exists x y,
  hash_value_d EqDemo.heap EqDemo.const_hash EqDemo.len_hash 5 (TObj 0) = Ok x /\
  hash_value_d EqDemo.heap EqDemo.const_hash EqDemo.len_hash 5 (TObj 2) = Ok y /\ x = y.
Proof.
  assert (He : equal EqDemo.heap (TObj 0) (TObj 2)).
  { pose proof (walk_decides EqDemo.heap EqDemo.no_hook (fun _ _ _ => eq_refl) 5 (TObj 0) (TObj 2) EqDemo.is_closed
      (EqDemo.live_tuple 0 (or_introl eq_refl)) (EqDemo.live_tuple 2 (or_intror eq_refl))) as H.
    rewrite EqDemo.equal_tuples in H. apply H. reflexivity. }
  split; [exact He|]. eexists _, _. split; [vm_compute; reflexivity|]. split; [vm_compute; reflexivity|].
  apply (equal_keys_hash EqDemo.heap EqDemo.const_hash EqDemo.len_hash 5 5 (TObj 0) (TObj 2));
    [exact EqDemo.is_ok|unfold EqDemo.const_hash; congruence|exact He|vm_compute; reflexivity|vm_compute; reflexivity].
Defined.
