(* ===== verification/Disjoint.v ===== *)
(** * The checker's disjoint types and the VM's equal values

    [may_be_equal] of the checker ([Assignable.v]) against [values_equal_guarded] of the VM
    ([Equality.v]): where a refused comparison would have been [True] at run time. *)

From S2P Require Import Channel.
From stdpp Require Import base list gmap strings.
From S2P Require Import Prelude Value MapData Obj Equality Ty TyVar Assignable.
Set Warnings "-register-all".
Local Open Scope nat_scope.

(** Whatever is refused for elements is refused for lists of them. *)
Lemma list_refused `{TyVarPayloads} J n S T s s' :
  may_be_equal J n S T s = Some (false, s') ->
  may_be_equal J (1 + n) (Ty.TList S) (Ty.TList T) s = Some (false, s').
Proof. done. Qed.

Lemma empty_lists_equal heap eq_hook n l r :
  eq_hook n (Value.TObj l) (Value.TObj r) = None ->
  heap (Z.to_nat l) = Some (Obj.List (mkRVec [] 0%Z)) ->
  heap (Z.to_nat r) = Some (Obj.List (mkRVec [] 0%Z)) ->
  values_equal_guarded heap eq_hook (1 + n) (Value.TObj l) (Value.TObj r) = Equality.Ok true.
Proof.
  intros Hh Hl Hr. simpl. unfold get. rewrite Hl, Hr. simpl. rewrite Hh.
  by destruct (Z.to_nat l =? Z.to_nat r).
Qed.

(** A refused comparison can hold.  [==] between a [List[int]] and a [List[str]] is refused as
    provably disjoint, for any conformance tables and any store of type variables, but two empty
    lists, one of each type, are equal at run time. *)
Lemma disjoint_lists_equal `{TyVarPayloads} J s n heap eq_hook m l r :
  eq_hook m (Value.TObj l) (Value.TObj r) = None ->
  heap (Z.to_nat l) = Some (Obj.List (mkRVec [] 0%Z)) ->
  heap (Z.to_nat r) = Some (Obj.List (mkRVec [] 0%Z)) ->
  may_be_equal J (2 + n) (Ty.TList Ty.TInt) (Ty.TList Ty.TStr) s = Some (false, s) /\
  values_equal_guarded heap eq_hook (1 + m) (Value.TObj l) (Value.TObj r) = Equality.Ok true.
Proof.
  intros Hh Hl Hr. split; [|by apply empty_lists_equal].
  apply (list_refused J (1 + n)). exact (join_closed (rigid_param J) n s Ty.TInt Ty.TStr eq_refl eq_refl).
Qed.

Example disjoint_lists_example :
  may_be_equal any_judgements 2 (Ty.TList Ty.TInt) (Ty.TList Ty.TStr) tyvars_default =
    Some (false, tyvars_default) /\
  values_equal_guarded (fun _ => Some (Obj.List (mkRVec [] 0%Z))) EqDemo.no_hook 1
    (Value.TObj 0) (Value.TObj 1) = Equality.Ok true.
Proof.
  apply (disjoint_lists_equal any_judgements tyvars_default 0 (fun _ => Some (Obj.List (mkRVec [] 0%Z)))
    EqDemo.no_hook 0 0%Z 1%Z); reflexivity.
Qed.
