(* ===== verification/SetOps.v ===== *)
(** * Sets, [unique] and [dedup]: the set algebra and the [Unique] and [Dedup] arms of
      [src/src/vm/core_method.rs], [set_slot] of [src/src/vm/equality.rs], [set_from_iter] of
      [src/src/vm/builtins.rs]

    The operations that build a set of their own: every membership test asks the hash index of
    [MapData] for candidates by the cached hash and confirms each with [elem_equal] of [Equality].
    [unique] has two ways, the index when every element is a flat key and a scan otherwise.  As in
    [Equality], [n] is the depth budget, the heap is read-only, and rooting is left out.

    The theorems compose the two components: the results are those of mathematical sets modulo
    [==], in insertion order, and both ways of [unique] give the same list. *)

From S2P Require Import Channel.
From stdpp Require Import base list gmap.
From S2P Require Import Prelude Value MapData Obj Equality.
Local Open Scope nat_scope.

Abbreviation SetData := (TableData (SetEntry tagged)).

Section SetOps.
Context (heap : nat -> option Obj).
Context (eq_hook : nat -> tagged -> tagged -> option (res bool)).
Context (hash_hook : nat -> tagged -> res Z).
Context (hash_bytes : list Z -> Z).
Context (n : nat).
Abbreviation elem_equal := (elem_equal heap eq_hook n).
Abbreviation hash_value := (hash_value_d heap hash_hook hash_bytes n).

(** [set_slot]: the first candidate that equals [key]; [RVec::get] panics past the end. *)
Fixpoint set_slot (es : list (SetEntry tagged)) (cands : list nat) (key : tagged) : res (option nat) :=
  match cands with
  | [] => Ok None
  | p :: cands =>
      match es !! p with
      | None => Err Dangling
      | Some (_, e) => let* b := elem_equal e key in if b then Ok (Some p) else set_slot es cands key
      end
  end.
(** [SetData::push], with its capacity panic. *)
Definition set_push (s : SetData) (he : Z) (e : tagged) : res SetData :=
  match push s (he, e) with Some s => Ok s | None => Err Dangling end.

(** The closure [add]. *)
Definition add (s : SetData) (he : Z) (e : tagged) : res SetData :=
  let* pos := set_slot (entries s) (candidates (index s) (entries s) he) e in
  match pos with None => set_push s he e | Some _ => Ok s end.
Fixpoint add_all (s : SetData) (es : list (SetEntry tagged)) : res SetData :=
  match es with [] => Ok s | (he, e) :: es => let* s := add s he e in add_all s es end.

Inductive SetMethod := Union | Intersection | Difference.

(** The loop of [Intersection] and [Difference]. *)
Fixpoint keep_loop (keep_when_present : bool) (other out : SetData) (mine : list (SetEntry tagged)) : res SetData :=
  match mine with
  | [] => Ok out
  | (he, e) :: mine =>
      let* pos := set_slot (entries other) (candidates (index other) (entries other) he) e in
      let in_other := match pos with Some _ => true | None => false end in
      let* out := (if eqb in_other keep_when_present then add out he e else Ok out) in
      keep_loop keep_when_present other out mine
  end.
Definition set_algebra (which : SetMethod) (mine other : SetData) : res SetData :=
  match which with
  | Union => add_all empty_table (entries mine ++ entries other)
  | Intersection => keep_loop true other empty_table (entries mine)
  | Difference => keep_loop false other empty_table (entries mine)
  end.

(** [set_from_iter] of snapshot elements: all hashes first, then the build. *)
Fixpoint hashes (xs : list tagged) : res (list (SetEntry tagged)) :=
  match xs with [] => Ok [] | x :: xs => let* h := hash_value x in let* es := hashes xs in Ok ((h, x) :: es) end.
Definition set_from_iter (xs : list tagged) : res SetData := let* es := hashes xs in add_all empty_table es.

(** ** [unique] and [dedup] *)
Fixpoint all_flat (xs : list tagged) : res bool :=
  match xs with [] => Ok true | x :: xs => let* b := is_flat_hash_key heap x in if b then all_flat xs else Ok false end.
Fixpoint unique_hashed (seen : SetData) (xs : list tagged) : res SetData :=
  match xs with
  | [] => Ok seen
  | v :: xs =>
      let* hv := scalar_hash heap hash_bytes v in
      let* dup := set_slot (entries seen) (candidates (index seen) (entries seen) hv) v in
      let* seen := (match dup with None => set_push seen hv v | Some _ => Ok seen end) in
      unique_hashed seen xs
  end.
Fixpoint unique_scanned (out xs : list tagged) : res (list tagged) :=
  match xs with
  | [] => Ok out
  | v :: xs =>
      let* p := seq_slot heap eq_hook n out v in
      unique_scanned (match p with None => out ++ [v] | Some _ => out end) xs
  end.
Definition list_unique (xs : list tagged) : res (list tagged) :=
  let* flat := all_flat xs in
  if flat : bool then let* seen := unique_hashed empty_table xs in Ok (set_elems seen)
  else unique_scanned [] xs.
Fixpoint dedup_loop (out xs : list tagged) : res (list tagged) :=
  match xs with
  | [] => Ok out
  | v :: xs =>
      let* keep := (match list.last out with Some p => let* b := elem_equal p v in Ok (negb b) | None => Ok true end) in
      dedup_loop (if keep : bool then out ++ [v] else out) xs
  end.
Definition list_dedup (xs : list tagged) : res (list tagged) := dedup_loop [] xs.
End SetOps.

(** ** The specification *)

(** [ys] is what of [xs] keeps [P], which sees an element and those before it, [before] included. *)
Inductive selected {A} (P : list A -> A -> Prop) : list A -> list A -> list A -> Prop :=
| sel_nil before : selected P before [] []
| sel_keep before x xs ys : P before x -> selected P (before ++ [x]) xs ys -> selected P before (x :: xs) (x :: ys)
| sel_drop before x xs ys : ~ P before x -> selected P (before ++ [x]) xs ys -> selected P before (x :: xs) ys.

Lemma selected_det {A} (P : list A -> A -> Prop) before xs ys zs : selected P before xs ys -> selected P before xs zs -> ys = zs.
Proof. intros H. revert zs. induction H; intros zs; inversion 1; subst; [done|f_equal; auto|done|done|auto]. Qed.
Lemma selected_sublist {A} (P : list A -> A -> Prop) before xs ys : selected P before xs ys -> sublist ys xs.
Proof. induction 1; by constructor. Qed.
Lemma selected_iff {A} (P Q : list A -> A -> Prop) xs before ys :
  (forall pre x post, xs = pre ++ x :: post -> P (before ++ pre) x <-> Q (before ++ pre) x) ->
  selected P before xs ys -> selected Q before xs ys.
Proof.
  intros HPQ H. induction H as [before|before x xs ys Hx _ IH|before x xs ys Hx _ IH]; [constructor| |].
  - apply sel_keep; [rewrite <- (app_nil_r before); rewrite <- (app_nil_r before) in Hx; by apply (HPQ [] x xs)|].
    apply IH. intros pre y post ->. rewrite <- (assoc_L (++)). by apply (HPQ (x :: pre) y post).
  - apply sel_drop; [rewrite <- (app_nil_r before); rewrite <- (app_nil_r before) in Hx; by rewrite <- (HPQ [] x xs)|].
    apply IH. intros pre y post ->. rewrite <- (assoc_L (++)). by apply (HPQ (x :: pre) y post).
Qed.
Lemma selected_split {A} (P : list A -> A -> Prop) before xs xs' zs : selected P before (xs ++ xs') zs ->
  exists ys ys', zs = ys ++ ys' /\ selected P before xs ys /\ selected P (before ++ xs) xs' ys'.
Proof.
  revert before zs. induction xs as [|x xs IH]; intros before zs; simpl.
  - intros H. exists [], zs. rewrite app_nil_r. split; [done|]. by split; [constructor|].
  - inversion 1 as [|? ? ? ys Hx Hr|? ? ? ? Hx Hr]; subst; destruct (IH _ _ Hr) as (ys1 & ys2 & -> & H1 & H2);
      rewrite <- (assoc_L (++)) in H2.
    + exists (x :: ys1), ys2. split; [done|]. by split; [constructor|].
    + exists ys1, ys2. split; [done|]. by split; [apply sel_drop|].
Qed.
Lemma selected_free {A} (P : A -> Prop) before before' xs ys : selected (fun _ => P) before xs ys -> selected (fun _ => P) before' xs ys.
Proof. intros H. revert before'. induction H; intros b; [constructor|by apply sel_keep|by apply sel_drop]. Qed.
(** Without the context. *)
Lemma selected_elem {A} (P : A -> Prop) before xs ys y : selected (fun _ => P) before xs ys -> y ∈ ys <-> y ∈ xs /\ P y.
Proof.
  induction 1 as [before|before x xs ys Hx _ IH|before x xs ys Hx _ IH].
  - split; [by intros ?%elem_of_nil|by intros [?%elem_of_nil _]].
  - rewrite !elem_of_cons, IH. split; [intros [->|[? ?]]; auto|]. intros [[->|?] ?]; auto.
  - rewrite elem_of_cons, IH. split; [intros [? ?]; auto|]. intros [[->|?] ?]; [done|auto].
Qed.

(** The outcomes: an answer, a depth fault for the reason [deep], or a table past its capacity. *)
Definition answers {A} (deep full : Prop) (m : res A) (Q : A -> Prop) : Prop :=
  match m with Ok a => Q a | Err DepthExceeded => deep | Err Dangling => full | Err _ => False end.

Lemma answers_bind {A B} deep full (m : res A) (k : A -> res B) P Q :
  answers deep full m P -> (forall a, P a -> answers deep full (k a) Q) -> answers deep full (rbind m k) Q.
Proof. destruct m as [a|[]]; simpl; auto. Qed.
Lemma answers_mono {A} (deep full deep' full' : Prop) (m : res A) (P Q : A -> Prop) :
  answers deep full m P -> (deep -> deep') -> (full -> full') -> (forall a, P a -> Q a) -> answers deep' full' m Q.
Proof. destruct m as [a|[]]; simpl; auto. Qed.
Lemma dec_answers (E deep full : Prop) m P : dec E m P -> (E -> deep) -> answers deep full m (fun b => b = true <-> P).
Proof. destruct m as [b|e]; simpl; [done|]. intros [-> He] H. auto. Qed.

(** ** Loops over the index *)
Section Proofs.
Context (heap : nat -> option Obj) (eq_hook : nat -> tagged -> tagged -> option (res bool)) (n : nat).
Context (no_hook : forall n l r, eq_hook n l r = None) (Hok : heap_ok heap) (Hc : closed heap).
(** The cached hash of a value: equal values, equal hashes. *)
Context (hashed : Z -> tagged -> Prop).
Context (hashed_same : forall h k x y, hashed h x -> hashed k y -> elem (equal heap) x y -> h = k).
Abbreviation R := (elem (equal heap)).

(** [x] nests as deep as the budget; some value of [xs] does. *)
Definition too_deep (xs : list tagged) : Prop := exists x, x ∈ xs /\ forall rank, acyclic heap rank -> n <= vrank rank x.
Definition holds (xs : list tagged) (x : tagged) : Prop := exists y, y ∈ xs /\ R y x.
Definition ok_entry (e : SetEntry tagged) : Prop := hashed e.1 e.2 /\ live heap e.2.
(** A set as the operations keep it: the index in step, the cached hashes right, no two elements equal. *)
Definition set_ok (s : SetData) : Prop :=
  table_inv s /\ Forall ok_entry (entries s) /\ distinct heap (set_elems s).

Lemma R_refl x : R x x.
Proof. by left. Qed.
Lemma R_sym x y : R x y -> R y x.
Proof. apply (elem_per _ (equal_per heap Hok)). Qed.
Lemma R_trans x y z : R x y -> R y z -> R x z.
Proof. apply (elem_per _ (equal_per heap Hok)). Qed.
Lemma holds_app xs ys x : holds (xs ++ ys) x <-> holds xs x \/ holds ys x.
Proof.
  unfold holds. split; [intros (y & [?|?]%elem_of_app & ?); eauto|].
  intros [(y & ? & ?)|(y & ? & ?)]; exists y; rewrite elem_of_app; auto.
Qed.
Lemma holds_one y x : holds [y] x <-> R y x.
Proof. unfold holds. split; [by intros (z & ->%list_elem_of_singleton & ?)|]. intros ?. exists y. split; [by left|done]. Qed.
Lemma holds_nil x : ~ holds [] x.
Proof. by intros (y & ?%elem_of_nil & _). Qed.
Lemma too_deep_mono xs ys : xs ⊆ ys -> too_deep xs -> too_deep ys.
Proof. intros H (x & ? & ?). exists x. auto. Qed.
Lemma distinct_snoc xs x : distinct heap xs -> ~ holds xs x -> distinct heap (xs ++ [x]).
Proof.
  intros Hd Hx i j u v Hi Hj Huv. apply lookup_app_Some in Hi as [Hi|[Hli Hi]], Hj as [Hj|[Hlj Hj]].
  - by eapply Hd.
  - apply list_lookup_singleton_Some in Hj as [_ <-]. destruct Hx. exists u. split; [by eapply list_elem_of_lookup_2|done].
  - apply list_lookup_singleton_Some in Hi as [_ <-]. destruct Hx. exists v. split; [by eapply list_elem_of_lookup_2|by apply R_sym].
  - apply list_lookup_singleton_Some in Hi as [? _], Hj as [? _]. lia.
Qed.
Lemma distinct_app xs x ys : distinct heap (xs ++ x :: ys) -> ~ holds xs x.
Proof.
  intros Hd (y & [i Hi]%list_elem_of_lookup & HR). apply lookup_lt_Some in Hi as Hlt.
  assert (i = length xs); [|lia]. eapply Hd; [by apply lookup_app_l_Some|by apply list_lookup_middle|done].
Qed.

Lemma elem_answers x y full : live heap x -> live heap y ->
  answers (too_deep [x]) full (elem_equal heap eq_hook n x y) (fun b => b = true <-> R x y).
Proof.
  intros Hx Hy. eapply dec_answers; [apply elem_dec; by apply walk_decides|]. intros H. exists x. split; [by left|done].
Qed.

Lemma scan_ok es cands key full : Forall ok_entry es -> live heap key -> (forall p, p ∈ cands -> is_Some (es !! p)) ->
  answers (too_deep es.*2) full (set_slot heap eq_hook n es cands key)
    (fun pos => match pos with
                | Some p => exists e, es !! p = Some e /\ R e.2 key
                | None => forall p e, p ∈ cands -> es !! p = Some e -> ~ R e.2 key
                end).
Proof.
  intros Hes Hk. induction cands as [|p cands IH]; intros Hp; simpl; [by intros p e ?%elem_of_nil|].
  destruct (Hp p) as [[he e] Ep]; [by left|]. rewrite Ep. rewrite list.Forall_forall in Hes.
  destruct (Hes (he, e)) as [_ Hl]; [by eapply list_elem_of_lookup_2|].
  eapply answers_bind; [eapply answers_mono; [exact (elem_answers e key full Hl Hk)| |exact id|exact (fun _ => id)]|].
  - apply too_deep_mono. intros x ->%list_elem_of_singleton. eapply list_elem_of_lookup_2. by rewrite list_lookup_fmap, Ep.
  - intros [] Hb; [exists (he, e); split; [done|by apply Hb]|].
    eapply answers_mono; [apply IH; intros q Hq; apply Hp; by right|done|done|]. intros [q|]; [done|].
    intros HN q e' [->|Hq]%elem_of_cons Eq; [|by apply (HN q)]. rewrite Ep in Eq. injection Eq as <-. by rewrite <- Hb.
Qed.

(** A membership test through the index. *)
Lemma set_slot_ok s he key full : set_ok s -> ok_entry (he, key) ->
  answers (too_deep (set_elems s)) full (set_slot heap eq_hook n (entries s) (candidates (index s) (entries s) he) key)
    (fun pos => match pos with Some _ => holds (set_elems s) key | None => ~ holds (set_elems s) key end).
Proof.
  intros (Hi & He & _) [Hh Hl]. destruct (table_candidates s he Hi) as [_ Hcand].
  eapply answers_mono; [apply scan_ok; [done|done|by intros p (e & -> & _)%Hcand]|done|done|]. intros [p|].
  - intros (e & Ep & HR). exists e.2. split; [|done]. eapply list_elem_of_lookup_2. unfold set_elems. by rewrite list_lookup_fmap, Ep.
  - intros HN (y & (p & Hp)%list_elem_of_lookup & HR). unfold set_elems in Hp. rewrite list_lookup_fmap in Hp.
    destruct (entries s !! p) as [e|] eqn:Ep; [|done]. simpl in Hp. injection Hp as <-.
    apply (HN p e); [|done|done]. apply Hcand. exists e. split; [done|].
    rewrite list.Forall_forall in He. destruct (He e) as [He' _]; [by eapply list_elem_of_lookup_2|].
    exact (hashed_same _ _ _ _ He' Hh HR).
Qed.

(** Appending a new element. *)
Lemma set_push_ok s he e full : set_ok s -> ok_entry (he, e) -> ~ holds (set_elems s) e ->
  ((MAX_ENTRIES < Z.of_nat (S (length (entries s))))%Z -> full) ->
  answers (A := SetData) False full (set_push s he e) (fun s' => set_ok s' /\ entries s' = entries s ++ [(he, e)]).
Proof.
  intros (Hi & He & Hd) Hen Hnot Hfull. unfold set_push. destruct (Z_lt_ge_dec (Z.of_nat (length (entries s))) MAX_ENTRIES) as [Hlt|Hge].
  - destruct (push_inv s (he, e) Hi Hlt) as (s' & -> & Es & _ & Hi'). simpl. split; [|done]. split; [done|]. rewrite Es. split.
    + apply Forall_app. split; [done|]. by apply Forall_singleton.
    + unfold set_elems. rewrite Es, fmap_app. by apply distinct_snoc.
  - rewrite push_full by lia. simpl. apply Hfull. lia.
Qed.

Lemma add_ok s he e full : set_ok s -> ok_entry (he, e) -> ((MAX_ENTRIES < Z.of_nat (S (length (entries s))))%Z -> full) ->
  answers (too_deep (set_elems s)) full (add heap eq_hook n s he e) (fun s' => set_ok s' /\
    (holds (set_elems s) e /\ s' = s \/ ~ holds (set_elems s) e /\ entries s' = entries s ++ [(he, e)])).
Proof.
  intros Hs Hen Hfull. eapply answers_bind; [by apply set_slot_ok|]. intros [p|] Hp; [simpl; auto|].
  eapply answers_mono; [by apply (set_push_ok s he e full)|done|done|]. intros s' [? ?]. auto.
Qed.

(** What a loop of additions has seen, and what it kept of it. *)
Lemma add_seen (old new : list tagged) base before (e : tagged) :
  (forall x, holds old x <-> holds (base ++ before) x) ->
  (holds old e /\ new = old \/ ~ holds old e /\ new = old ++ [e]) ->
  forall x, holds new x <-> holds (base ++ before ++ [e]) x.
Proof.
  intros Hseen Hnew x. rewrite (assoc_L (++)), holds_app, <- Hseen, holds_one.
  destruct Hnew as [[(y & Hy & HR) ->]|[_ ->]]; [|by rewrite holds_app, holds_one].
  split; [auto|]. intros [?|HR']; [done|]. exists y. split; [done|]. by eapply R_trans.
Qed.

Lemma add_all_ok s es base before (full : Prop) : set_ok s -> Forall ok_entry es ->
  (forall x, holds (set_elems s) x <-> holds (base ++ before.*2) x) ->
  ((MAX_ENTRIES < Z.of_nat (length (entries s) + length es))%Z -> full) ->
  answers (too_deep (set_elems s ++ es.*2)) full (add_all heap eq_hook n s es) (fun s' => set_ok s' /\
    (forall x, holds (set_elems s') x <-> holds (base ++ before.*2 ++ es.*2) x) /\ exists zs,
    entries s' = entries s ++ zs /\ selected (fun before e => ~ holds (base ++ before.*2) e.2) before es zs).
Proof.
  intros Hs Hes. revert s before Hs. induction Hes as [|[he e] es Hen _ IH]; intros s before Hs Hseen Hfull; simpl.
  { split; [done|]. split; [by rewrite app_nil_r|]. exists []. split; [by rewrite app_nil_r|constructor]. }
  eapply answers_bind; [eapply answers_mono; [apply (add_ok s he e full); [done|done|intros; apply Hfull; simpl; lia]| |done|exact (fun _ => id)]|].
  { apply too_deep_mono. intros x Hx. rewrite elem_of_app. by left. }
  intros s' [Hs' Hadd].
  assert (Hnew : holds (set_elems s) e /\ set_elems s' = set_elems s \/ ~ holds (set_elems s) e /\ set_elems s' = set_elems s ++ [e]).
  { destruct Hadd as [[? ->]|[? E]]; [auto|]. right. split; [done|]. unfold set_elems. by rewrite E, fmap_app. }
  eapply answers_mono; [apply (IH s' (before ++ [(he, e)])); [done| |]| |done|].
  - rewrite fmap_app. by apply (add_seen (set_elems s)).
  - intros. apply Hfull. destruct Hadd as [[_ ->]|[_ E]]; [simpl; lia|]. rewrite E, length_app in *. simpl in *. lia.
  - apply too_deep_mono. intros x. rewrite !elem_of_app, elem_of_cons. destruct Hnew as [[_ ->]|[_ ->]]; [tauto|].
    rewrite elem_of_app, list_elem_of_singleton. tauto.
  - intros t (Ht & Hall & zs & Et & Hz). split; [done|].
    split; [intros x; rewrite Hall, fmap_app, <- (assoc_L (++)); done|]. rewrite Hseen in Hadd. destruct Hadd as [[Hh ->]|[Hh E]].
    + exists zs. split; [done|]. by apply sel_drop; [intros []|].
    + exists ((he, e) :: zs). rewrite Et, E, <- (assoc_L (++)). split; [done|]. by apply sel_keep.
Qed.

Lemma empty_ok : set_ok empty_table.
Proof.
  split; [split; [done|by left]|]. split; [constructor|]. intros i j x y Hi; by destruct i.
Qed.

(** A set built from nothing holds the first of each class. *)
Lemma add_all_empty es (full : Prop) : Forall ok_entry es -> ((MAX_ENTRIES < Z.of_nat (length es))%Z -> full) ->
  answers (too_deep es.*2) full (add_all heap eq_hook n empty_table es) (fun s' => set_ok s' /\
    (forall x, holds (set_elems s') x <-> holds es.*2 x) /\ selected (fun before e => ~ holds before.*2 e.2) [] es (entries s')).
Proof.
  intros He Hf. eapply answers_mono; [apply (add_all_ok empty_table es [] [] full); [apply empty_ok|done|done|done]|done|done|].
  by intros s' (Hs & Hall & zs & -> & Hz).
Qed.
Lemma selected_elems before es zs : selected (fun before (e : SetEntry tagged) => ~ holds before.*2 e.2) before es zs ->
  selected (fun before x => ~ holds before x) before.*2 es.*2 zs.*2.
Proof.
  induction 1 as [?|? [h e] ? ? Hx _ IH|? [h e] ? ? Hx _ IH]; [constructor| |]; rewrite fmap_app in IH; [by apply sel_keep|by apply sel_drop].
Qed.

(** Intersection and difference: what is kept is new to [out], since [mine] holds it once. *)
Lemma keep_loop_ok (keep : bool) other out mine before : set_ok other -> set_ok out -> Forall ok_entry mine ->
  distinct heap (set_elems out ++ mine.*2) -> (Z.of_nat (length (entries out) + length mine) <= MAX_ENTRIES)%Z ->
  answers (too_deep (set_elems other ++ set_elems out ++ mine.*2)) False (keep_loop heap eq_hook n keep other out mine)
    (fun s' => set_ok s' /\ exists zs, entries s' = entries out ++ zs /\
       selected (fun _ e => if keep then holds (set_elems other) e.2 else ~ holds (set_elems other) e.2) before mine zs).
Proof.
  intros Ho Hs Hm. revert out before Hs. induction Hm as [|[he e] mine Hen _ IH]; intros out before Hs Hd Hmax; simpl.
  { split; [done|]. exists []. split; [by rewrite app_nil_r|constructor]. }
  eapply answers_bind; [eapply answers_mono; [by apply (set_slot_ok other he e False)| |done|exact (fun _ => id)]|].
  { apply too_deep_mono. intros x Hx. rewrite elem_of_app. by left. }
  intros pos Hpos. set (b := match pos with Some _ => true | None => false end).
  assert (Hb : eqb b keep = true <-> (if keep then holds (set_elems other) e else ~ holds (set_elems other) e)).
  { unfold b. destruct pos, keep; simpl; split; done. }
  clearbody b. destruct (eqb b keep).
  - eapply answers_bind; [eapply answers_mono; [apply (add_ok out he e False); [done|done|simpl in Hmax; lia]| |done|exact (fun _ => id)]|].
    { apply too_deep_mono. intros x Hx. rewrite !elem_of_app. auto. }
    intros out' [Hs' [[Hh _]|[_ E]]]; [by apply distinct_app in Hd|].
    assert (Ee : set_elems out' = set_elems out ++ [e]) by (unfold set_elems; by rewrite E, fmap_app).
    eapply answers_mono; [apply (IH out' (before ++ [(he, e)])); [done| |]| |done|].
    + rewrite Ee, <- (assoc_L (++)). exact Hd.
    + rewrite E, length_app. simpl in *. lia.
    + apply too_deep_mono. intros x. rewrite Ee, !elem_of_app, !elem_of_cons. rewrite elem_of_nil. tauto.
    + intros t [Ht (zs & Et & Hz)]. split; [done|]. exists ((he, e) :: zs). rewrite Et, E, <- (assoc_L (++)). split; [done|].
      apply sel_keep; [by apply Hb|done].
  - simpl. eapply answers_mono; [apply (IH out (before ++ [(he, e)])); [done| |simpl in *; lia]| |done|].
    + intros i j x y Hi Hj Hxy. assert (G : forall i x, (set_elems out ++ mine.*2) !! i = Some x ->
        (set_elems out ++ e :: mine.*2) !! (if decide (i < length (set_elems out)) then i else S i) = Some x).
      { intros i' x' Hi'. case_decide; [by rewrite lookup_app_l in * by done|]. rewrite lookup_app_r in * by lia.
        rewrite Nat.sub_succ_l by lia. done. }
      specialize (Hd _ _ _ _ (G i x Hi) (G j y Hj) Hxy). repeat case_decide; lia.
    + apply too_deep_mono. intros x. rewrite !elem_of_app, elem_of_cons. tauto.
    + intros t [Ht (zs & Et & Hz)]. split; [done|]. exists zs. split; [done|]. apply sel_drop; [|done]. by rewrite <- Hb.
Qed.

(** A set's own elements are all new. *)
Lemma selected_own s : set_ok s -> forall zs, selected (fun before e => ~ holds before.*2 e.2) [] (entries s) zs -> zs = entries s.
Proof.
  intros (_ & _ & Hd) zs Hz. eapply selected_det; [exact Hz|]. clear Hz.
  assert (G : forall es pre, distinct heap (pre ++ es).*2 -> selected (fun before (e : SetEntry tagged) => ~ holds before.*2 e.2) pre es es).
  { induction es as [|[h e] es IH]; intros pre Hp; constructor.
    - rewrite fmap_app in Hp. by apply distinct_app in Hp.
    - apply IH. by rewrite <- (assoc_L (++)). }
  by apply (G _ []).
Qed.

(** ** Lists *)

Lemma seq_slot_ok out key i full : Forall (live heap) out -> live heap key ->
  answers (too_deep out) full (seq_slot_from heap eq_hook i n out key)
    (fun pos => match pos with Some _ => holds out key | None => ~ holds out key end).
Proof.
  intros Ho Hk. revert i. induction Ho as [|x out Hx _ IH]; intros i; simpl; [apply holds_nil|].
  eapply answers_bind; [eapply answers_mono; [exact (elem_answers x key full Hx Hk)| |exact id|exact (fun _ => id)]|].
  { apply too_deep_mono. intros y ->%list_elem_of_singleton. by left. }
  intros [] Hb; [exists x; split; [by left|by apply Hb]|].
  eapply answers_mono; [apply IH|apply too_deep_mono; by right|done|].
  intros [p|]; change (x :: out) with ([x] ++ out); rewrite holds_app, holds_one; [auto|]. intros HN [?|?]; [by apply Hb in H|done].
Qed.

Definition first_of (before : list tagged) (x : tagged) : Prop := ~ holds before x.
Lemma unique_scanned_ok xs out before : Forall (live heap) xs -> Forall (live heap) out ->
  (forall x, holds out x <-> holds before x) ->
  answers (too_deep (out ++ xs)) False (unique_scanned heap eq_hook n out xs) (fun ys =>
    (forall x, holds ys x <-> holds (before ++ xs) x) /\ exists zs, ys = out ++ zs /\ selected first_of before xs zs).
Proof.
  intros Hxs. revert out before. induction Hxs as [|x xs Hx _ IH]; intros out before Ho Hseen; simpl.
  { split; [by rewrite app_nil_r|]. exists []. split; [by rewrite app_nil_r|constructor]. }
  eapply answers_bind; [eapply answers_mono; [by apply (seq_slot_ok out x 0 False)| |done|exact (fun _ => id)]|].
  { apply too_deep_mono. intros y Hy. rewrite elem_of_app. by left. }
  intros p Hp. set (new := match p with None => out ++ [x] | Some _ => out end).
  assert (Hnew : holds out x /\ new = out \/ ~ holds out x /\ new = out ++ [x]) by (unfold new; destruct p; auto).
  clearbody new. eapply answers_mono; [apply (IH new (before ++ [x]))| |done|].
  - destruct Hnew as [[_ ->]|[_ ->]]; [done|]. apply Forall_app. split; [done|by apply Forall_singleton].
  - by apply (add_seen out new [] before x).
  - apply too_deep_mono. intros y. destruct Hnew as [[_ ->]|[_ ->]]; rewrite !elem_of_app, ?elem_of_cons, ?elem_of_nil; tauto.
  - intros ys (Hall & zs & -> & Hz). split; [intros y; rewrite Hall, <- (assoc_L (++)); done|]. unfold first_of in *. destruct Hnew as [[Hh ->]|[Hh ->]]; rewrite Hseen in Hh.
    + exists zs. split; [done|]. apply sel_drop; [auto|done].
    + exists (x :: zs). rewrite <- (assoc_L (++)). split; [done|]. by apply sel_keep.
Qed.

(** The first of a run of equals. *)
Definition starts_run (before : list tagged) (x : tagged) : Prop := forall y, list.last before = Some y -> ~ R y x.
Lemma dedup_loop_ok xs out before : Forall (live heap) xs -> Forall (live heap) out ->
  option_Forall2 R (list.last out) (list.last before) ->
  answers (too_deep (out ++ xs)) False (dedup_loop heap eq_hook n out xs) (fun ys => exists zs, ys = out ++ zs /\ selected starts_run before xs zs).
Proof.
  intros Hxs. revert out before. induction Hxs as [|x xs Hx _ IH]; intros out before Ho Hl; simpl.
  { exists []. split; [by rewrite app_nil_r|constructor]. }
  apply (answers_bind _ _ _ _ (fun keep : bool => if keep then starts_run before x else exists y z, list.last out = Some y /\ list.last before = Some z /\ R y x /\ R z x)).
  { inversion Hl as [y z Hyz Ey Ez|Ey Ez]; [|by intros y; rewrite <- Ez].
    eapply answers_bind; [eapply answers_mono; [apply (elem_answers y x False); [|done]| |done|exact (fun _ => id)]|].
    - rewrite list.Forall_forall in Ho. apply Ho, list.last_Some_elem_of. by rewrite <- Ey.
    - apply too_deep_mono. intros u ->%list_elem_of_singleton. rewrite elem_of_app. left. apply list.last_Some_elem_of. by rewrite <- Ey.
    - intros [] Hb; simpl.
      + exists y, z. split; [done|]. split; [done|]. split; [by apply Hb|]. eapply R_trans; [by apply R_sym|by apply Hb].
      + intros u Eu HR. rewrite <- Ez in Eu. injection Eu as <-. assert (false = true); [|done]. apply Hb. by eapply R_trans. }
  intros [] Hk.
  - eapply answers_mono; [apply (IH (out ++ [x]) (before ++ [x]))| |done|].
    + apply Forall_app. split; [done|by apply Forall_singleton].
    + rewrite !list.last_snoc. constructor. apply R_refl.
    + apply too_deep_mono. intros u. rewrite <- (assoc_L (++)). done.
    + intros ys (zs & -> & Hz). exists (x :: zs). rewrite <- (assoc_L (++)). split; [done|]. by apply sel_keep.
  - destruct Hk as (y & z & Ey & Ez & HRy & HRz). eapply answers_mono; [apply (IH out (before ++ [x])); [done|]| |done|].
    + rewrite Ey, list.last_snoc. by constructor.
    + apply too_deep_mono. intros u. rewrite !elem_of_app, elem_of_cons. tauto.
    + intros ys (zs & -> & Hz). exists zs. split; [done|]. apply sel_drop; [|done]. intros Hn. by apply (Hn z).
Qed.
End Proofs.

(** ** The theorems *)

(** A value of a running program: its handles are live, and it is no sentinel of a local slot. *)
Definition value (heap : nat -> option Obj) (v : tagged) : Prop :=
  live heap v /\ match v with TUninit _ => False | _ => True end.

(** The cached hash of an element is its hash at some budget. *)
Definition hash_of_value (heap : nat -> option Obj) hash_hook hash_bytes (h : Z) (v : tagged) : Prop :=
  exists m, hash_value_d heap hash_hook hash_bytes m v = Ok h.
Definition flat_hash (heap : nat -> option Obj) hash_bytes (h : Z) (v : tagged) : Prop :=
  is_flat_hash_key heap v = Ok true /\ scalar_hash heap hash_bytes v = Ok h.

Lemma flat_hash_value heap hash_bytes h v : flat_hash heap hash_bytes h v ->
  hash_value_d heap (fun _ _ => Err Unhashable) hash_bytes 1 v = Ok h.
Proof.
  intros [Hf Hs]. destruct v as [k|r|r| |b|k]; try done. simpl in *. unfold get in *. destruct (heap (Z.to_nat r)) as [o|]; [|done].
  by destruct o.
Qed.
Lemma flat_hash_same heap hash_bytes h k x y : heap_ok heap -> flat_hash heap hash_bytes h x -> flat_hash heap hash_bytes k y ->
  elem (equal heap) x y -> h = k.
Proof.
  intros Hok Hx%flat_hash_value Hy%flat_hash_value HR.
  eapply (hash_same heap (fun _ _ => Err Unhashable) hash_bytes Hok); [done|exact HR|exact Hx|exact Hy].
Qed.
Lemma flat_has_hash heap hash_bytes v : value heap v -> is_flat_hash_key heap v = Ok true -> exists h, flat_hash heap hash_bytes h v.
Proof.
  intros [[x Hx] Hu] Hf. unfold flat_hash. destruct v as [k|r|r| |b|k]; simpl in *; unfold get in *; [by eexists| | |by eexists|by eexists|done].
  - destruct (heap (Z.to_nat r)) as [o|]; [|done]. destruct o; try done; by eexists.
  - destruct (heap (Z.to_nat r)) as [o|]; [|done]. destruct o; try done; by eexists.
Qed.
Lemma all_flat_ok heap xs : Forall (value heap) xs -> exists b, all_flat heap xs = Ok b /\ (b = true -> Forall (fun v => is_flat_hash_key heap v = Ok true) xs).
Proof.
  induction 1 as [|v xs [[x Hv] _] _ (b & E & Hb)]; simpl; [by exists true|].
  assert (exists f, is_flat_hash_key heap v = Ok f) as [f Ef].
  { destruct v as [k|r|r| |c|k]; simpl in *; [by eexists| |by eexists..]. unfold get. destruct (heap (Z.to_nat r)); [by eexists|done]. }
  rewrite Ef. destruct f; simpl; [|by exists false]. exists b. split; [done|]. intros Et. constructor; [done|by apply Hb].
Qed.

(** The index way of [unique] is the additions of the hashed elements. *)
Lemma unique_hashed_add heap eq_hook hash_bytes n xs : Forall (value heap) xs ->
  Forall (fun v => is_flat_hash_key heap v = Ok true) xs ->
  exists es, es.*2 = xs /\ Forall (ok_entry heap (flat_hash heap hash_bytes)) es /\
    forall s, unique_hashed heap eq_hook hash_bytes n s xs = add_all heap eq_hook n s es.
Proof.
  intros Hv. induction Hv as [|v xs Hv _ IH]; intros Hf; [by exists []|].
  apply list.Forall_cons in Hf as [Hf Hfs]. destruct (IH Hfs) as (es & Ex & He & E).
  destruct (flat_has_hash heap hash_bytes v Hv Hf) as [h Hh]. exists ((h, v) :: es). split; [by rewrite fmap_cons, Ex|]. split.
  { constructor; [|done]. split; [done|apply Hv]. }
  intros s. simpl. destruct Hh as [_ ->]. cbn [rbind]. unfold add. destruct (set_slot _ _ _ _ _ _) as [[p|]|]; cbn [rbind]; [done| |done].
  destruct (set_push s h v); cbn [rbind]; done.
Qed.

(** C22: [unique] keeps exactly the elements that equal no earlier one, in order, whichever way it
    takes: through the hash index when every element is a flat key, by scanning otherwise; and
    [dedup] keeps exactly those that differ from the element just before.  In a program without
    [eq] hooks the only other outcomes are the depth fault, for an element that nests as deep as the
    budget, and a list of more elements than a table holds. *)
Theorem list_unique_first (heap : nat -> option Obj) eq_hook hash_bytes (n : nat) (xs : list tagged)
  (Hh : forall n l r, eq_hook n l r = None) (Hok : heap_ok heap) (Hc : closed heap) (Hv : Forall (value heap) xs) :
  answers (too_deep heap n xs) (MAX_ENTRIES < Z.of_nat (length xs))%Z (list_unique heap eq_hook hash_bytes n xs)
    (fun ys => selected (first_of heap) [] xs ys /\ forall x, x ∈ xs -> holds heap ys x) /\
  answers (too_deep heap n xs) False (list_dedup heap eq_hook n xs) (fun ys => selected (starts_run heap) [] xs ys).
Proof.
  assert (Hl : Forall (live heap) xs) by (eapply list.Forall_impl; [exact Hv|by intros v []]). split.
  - destruct (all_flat_ok heap xs Hv) as (b & Eb & Hf). unfold list_unique. rewrite Eb. cbn [rbind]. destruct b.
    + destruct (unique_hashed_add heap eq_hook hash_bytes n xs Hv (Hf eq_refl)) as (es & Ex & He & ->).
      rewrite <- Ex. eapply answers_bind; [apply (add_all_empty heap eq_hook n Hh Hok Hc (flat_hash heap hash_bytes)); [|done|by rewrite length_fmap]|].
      { intros h k x y. by apply flat_hash_same. }
      intros s' (_ & Hall & Hz). split; [by apply (selected_elems heap [] es)|]. intros x Hx. apply Hall. exists x. split; [done|by left].
    + eapply answers_mono; [apply (unique_scanned_ok heap eq_hook n Hh Hok Hc xs [] []); [done|constructor|done]|done|done|].
      intros ys (Hall & zs & -> & Hz). split; [done|]. intros x Hx. apply Hall. exists x. split; [done|by left].
  - eapply answers_mono; [apply (dedup_loop_ok heap eq_hook n Hh Hok Hc xs [] []); [done|constructor|constructor]|done|done|].
    by intros ys (zs & -> & Hz).
Qed.

(** *** Set algebra *)
Section Algebra.
Context (heap : nat -> option Obj) (hash_hook : nat -> tagged -> res Z) (hash_bytes : list Z -> Z).
(** A set object: [set_ok] with the hashes of the program. *)
Definition good_set : SetData -> Prop := set_ok heap (hash_of_value heap hash_hook hash_bytes).

(** The elements of the result, in order. *)
Definition algebra (which : SetMethod) (mine other out : list (SetEntry tagged)) : Prop :=
  match which with
  | Union => exists zs, out = mine ++ zs /\ selected (fun _ e => ~ holds heap mine.*2 e.2) [] other zs
  | Intersection => selected (fun _ e => holds heap other.*2 e.2) [] mine out
  | Difference => selected (fun _ e => ~ holds heap other.*2 e.2) [] mine out
  end.
(** Membership modulo [==]. *)
Definition member (which : SetMethod) (mine other : list tagged) (x : tagged) : Prop :=
  match which with
  | Union => holds heap mine x \/ holds heap other x
  | Intersection => holds heap mine x /\ holds heap other x
  | Difference => holds heap mine x /\ ~ holds heap other x
  end.

Context (Hok : heap_ok heap).
Lemma holds_same xs x y : elem (equal heap) x y -> holds heap xs x <-> holds heap xs y.
Proof.
  intros H. split; intros (z & Hz & Hr); exists z; (split; [done|]); eapply (R_trans heap Hok); eauto. by apply (R_sym heap Hok).
Qed.
Lemma holds_selected (P : tagged -> Prop) es zs x : (forall x y, elem (equal heap) x y -> P x <-> P y) ->
  selected (fun _ (e : SetEntry tagged) => P e.2) [] es zs -> holds heap zs.*2 x <-> holds heap es.*2 x /\ P x.
Proof.
  intros HP Hz. assert (Hin : forall y, y ∈ zs.*2 <-> y ∈ es.*2 /\ P y).
  { intros y. rewrite !list_elem_of_fmap. setoid_rewrite (selected_elem (fun e : SetEntry tagged => P e.2) [] es zs _ Hz).
    split; [intros (e & -> & ? & ?); split; [by exists e|done]|]. intros [(e & -> & ?) ?]. by exists e. }
  unfold holds. split.
  - intros (y & [Hy HPy]%Hin & HR). split; [by exists y|]. by apply (HP y x).
  - intros [(y & Hy & HR) HPx]. exists y. split; [|done]. apply Hin. split; [done|]. by apply (HP y x).
Qed.
Lemma not_holds_same xs x y : elem (equal heap) x y -> ~ holds heap xs x <-> ~ holds heap xs y.
Proof. intros H. by rewrite (holds_same xs x y H). Qed.
End Algebra.

(** C11: In a program without [eq] methods of its own, the set algebra is that of mathematical sets
    modulo [==].  Assume that no [eq] hook answers, that the heap is well formed and every handle in it
    live, and that a [hash] hook gives equal values equal hashes.  Then for two sets whose index is in
    step with their elements and whose elements are pairwise different, the result is such a set
    again; it keeps the receiver's elements in order, each exactly when the operation says so, and
    the argument's new ones after them for [union]; and a value is a member of it exactly as in the
    union, intersection or difference.  Under these assumptions the only other outcomes are the depth
    fault, for an element that nests as deep as the budget, and a union too large for a table; a user's
    [eq] could also fault or write the sets, which is not covered. *)
Theorem set_algebra_correct (heap : nat -> option Obj) eq_hook hash_hook hash_bytes (n : nat) (which : SetMethod) (mine other : SetData)
  (Hh : forall n l r, eq_hook n l r = None) (Hok : heap_ok heap) (Hc : closed heap)
  (Hhook : forall n m l r x y, elem (equal heap) l r -> hash_hook n l = Ok x -> hash_hook m r = Ok y -> x = y)
  (Hm : good_set heap hash_hook hash_bytes mine) (Ho : good_set heap hash_hook hash_bytes other) :
  answers (too_deep heap n (set_elems mine ++ set_elems other))
    (which = Union /\ (MAX_ENTRIES < Z.of_nat (length (entries mine) + length (entries other)))%Z)
    (set_algebra heap eq_hook n which mine other)
    (fun out => good_set heap hash_hook hash_bytes out /\ algebra heap which (entries mine) (entries other) (entries out) /\
       forall x, holds heap (set_elems out) x <-> member heap which (set_elems mine) (set_elems other) x).
Proof.
  set (hashed := hash_of_value heap hash_hook hash_bytes) in *.
  assert (Hhash : forall h k x y, hashed h x -> hashed k y -> elem (equal heap) x y -> h = k).
  { intros h k x y [m Hx] [m' Hy] HR. exact (hash_same heap hash_hook hash_bytes Hok Hhook m m' x y h k HR Hx Hy). }
  destruct Hm as (Hmi & Hme & Hmd), Ho as (Hoi & Hoe & Hod).
  assert (Hkeep : forall keep : bool, answers (too_deep heap n (set_elems mine ++ set_elems other)) False
    (keep_loop heap eq_hook n keep other empty_table (entries mine)) (fun out => good_set heap hash_hook hash_bytes out /\
       selected (fun _ e => if keep then holds heap (set_elems other) e.2 else ~ holds heap (set_elems other) e.2) [] (entries mine) (entries out))).
  { intros keep. eapply answers_mono; [apply (keep_loop_ok heap eq_hook n Hh Hok Hc hashed Hhash keep other empty_table (entries mine) []);
      [done|apply empty_ok|done|done|apply Hmi]| |done|].
    - apply too_deep_mono. intros x. rewrite !elem_of_app. unfold set_elems at 2. simpl. rewrite elem_of_nil. unfold set_elems. tauto.
    - by intros out [Hout (zs & -> & Hz)]. }
  destruct which; cbn [set_algebra].
  - eapply answers_mono; [apply (add_all_empty heap eq_hook n Hh Hok Hc hashed Hhash (entries mine ++ entries other)
      (MAX_ENTRIES < Z.of_nat (length (entries mine) + length (entries other)))%Z); [by apply Forall_app|by rewrite length_app]| |done|].
    { apply too_deep_mono. by rewrite fmap_app. }
    intros out (Hout & Hall & Hz). split; [done|].
    split; [|intros x; rewrite Hall, fmap_app; apply holds_app].
    apply selected_split in Hz as (ys & zs & -> & Hy & Hz).
    rewrite (selected_own heap hashed mine (conj Hmi (conj Hme Hmd)) ys Hy). exists zs. split; [done|].
    eapply selected_free, selected_iff, Hz. intros pre e post E. cbn beta. rewrite fmap_app, holds_app. split; [tauto|].
    intros Hn [?|Hp]; [by apply Hn|]. unfold set_elems in Hod. rewrite E, fmap_app in Hod. by apply distinct_app in Hod.
  - eapply answers_mono; [apply (Hkeep true)|done|done|]. intros out [Hout Hz]. split; [done|]. split; [exact Hz|].
    intros x. exact (holds_selected heap (fun x => holds heap (set_elems other) x) _ _ x (holds_same heap Hok (set_elems other)) Hz).
  - eapply answers_mono; [apply (Hkeep false)|done|done|]. intros out [Hout Hz]. split; [done|]. split; [exact Hz|].
    intros x. exact (holds_selected heap (fun x => ~ holds heap (set_elems other) x) _ _ x (not_holds_same heap Hok (set_elems other)) Hz).
Qed.

(** [Set.from_iter]: a set, of the first of each class of equal elements. *)
Lemma set_from_iter_ok (heap : nat -> option Obj) eq_hook hash_hook hash_bytes (n : nat) (xs : list tagged) es
  (Hh : forall n l r, eq_hook n l r = None) (Hok : heap_ok heap) (Hc : closed heap)
  (Hhook : forall n m l r x y, elem (equal heap) l r -> hash_hook n l = Ok x -> hash_hook m r = Ok y -> x = y)
  (Hl : Forall (live heap) xs) (He : hashes heap hash_hook hash_bytes n xs = Ok es) :
  answers (too_deep heap n xs) (MAX_ENTRIES < Z.of_nat (length xs))%Z (set_from_iter heap eq_hook hash_hook hash_bytes n xs)
    (fun s => good_set heap hash_hook hash_bytes s /\ (forall x, holds heap (set_elems s) x <-> holds heap xs x) /\
       selected (first_of heap) [] xs (set_elems s)).
Proof.
  assert (Hes : es.*2 = xs /\ Forall (ok_entry heap (hash_of_value heap hash_hook hash_bytes)) es).
  { revert es He. induction Hl as [|x xs Hx _ IH]; intros es; simpl; [by intros [= <-]|].
    destruct (hash_value_d heap hash_hook hash_bytes n x) as [h|] eqn:Eh; [|done]. cbn [rbind].
    destruct (hashes heap hash_hook hash_bytes n xs) as [es'|]; [|done]. intros [= <-]. destruct (IH es' eq_refl) as [<- Ho].
    split; [done|]. constructor; [|done]. split; [by exists n|done]. }
  destruct Hes as [<- Ho]. unfold set_from_iter. rewrite He. cbn [rbind]. rewrite length_fmap.
  eapply answers_mono; [apply (add_all_empty heap eq_hook n Hh Hok Hc (hash_of_value heap hash_hook hash_bytes))|done|exact (fun H => H)|]; [|done|done|].
  - intros h k x y [m Hx] [m' Hy] HR. exact (hash_same heap hash_hook hash_bytes Hok Hhook m m' x y h k HR Hx Hy).
  - intros s (Hs & Hall & Hz). split; [done|]. split; [done|]. by apply (selected_elems heap [] es).
Qed.

(** [3], ["a"], [3.0], an ["a"] of its own and [2]; and two equal tuples. *)
Module SetDemo.
Definition xs : list tagged := [TInt 3; TObj 1; TFloat 3; TObj 4; TInt 2].
Definition make (xs : list tagged) : SetData :=
  match set_from_iter EqDemo.heap EqDemo.no_hook EqDemo.const_hash EqDemo.len_hash 5 xs with Ok s => s | Err _ => empty_table end.
Lemma values r : Forall (value EqDemo.heap) r -> Forall (live EqDemo.heap) r.
Proof. intros H. eapply list.Forall_impl; [exact H|by intros v []]. Qed.
Lemma xs_values : Forall (value EqDemo.heap) xs.
Proof. repeat (constructor; [split; [by eexists|done]|]). constructor. Qed.
Lemma hook_ok : forall n m l r x y, elem (equal EqDemo.heap) l r -> EqDemo.const_hash n l = Ok x -> EqDemo.const_hash m r = Ok y -> x = y.
Proof. unfold EqDemo.const_hash. congruence. Qed.
Lemma make_good r es : Forall (live EqDemo.heap) r -> hashes EqDemo.heap EqDemo.const_hash EqDemo.len_hash 5 r = Ok es ->
  good_set EqDemo.heap EqDemo.const_hash EqDemo.len_hash (make r).
Proof.
  intros Hl He. pose proof (set_from_iter_ok EqDemo.heap EqDemo.no_hook EqDemo.const_hash EqDemo.len_hash 5 r es
    (fun _ _ _ => eq_refl) EqDemo.is_ok EqDemo.is_closed hook_ok Hl He) as H. unfold make.
  destruct (set_from_iter _ _ _ _ _ _) as [s|]; [apply H|apply empty_ok].
Qed.
End SetDemo.

Lemma list_unique_first_witness :
  list_unique EqDemo.heap EqDemo.no_hook EqDemo.len_hash 5 SetDemo.xs = Ok [TInt 3; TObj 1; TInt 2] /\
  list_dedup EqDemo.heap EqDemo.no_hook 5 [TInt 3; TFloat 3; TInt 2; TInt 3] = Ok [TInt 3; TInt 2; TInt 3] /\
  selected (first_of EqDemo.heap) [] SetDemo.xs [TInt 3; TObj 1; TInt 2].
Proof.
  assert (E : list_unique EqDemo.heap EqDemo.no_hook EqDemo.len_hash 5 SetDemo.xs = Ok [TInt 3; TObj 1; TInt 2]) by (vm_compute; reflexivity).
  split; [exact E|]. split; [vm_compute; reflexivity|].
  pose proof (list_unique_first EqDemo.heap EqDemo.no_hook EqDemo.len_hash 5 SetDemo.xs (fun _ _ _ => eq_refl) EqDemo.is_ok
    EqDemo.is_closed SetDemo.xs_values) as [H _]. rewrite E in H. apply H.
Defined.

(** [{3, "a"}] and [{2, 3.0}]. *)
Lemma set_algebra_correct_witness :
  (fun s => set_elems s) <$> [SetDemo.make [TInt 3; TObj 1]; SetDemo.make [TInt 2; TFloat 3]] = [[TInt 3; TObj 1]; [TInt 2; TFloat 3]] /\
  exists out, set_algebra EqDemo.heap EqDemo.no_hook 5 Intersection (SetDemo.make [TInt 3; TObj 1]) (SetDemo.make [TInt 2; TFloat 3]) = Ok out /\
    set_elems out = [TInt 3] /\ good_set EqDemo.heap EqDemo.const_hash EqDemo.len_hash out.
Proof.
  split; [vm_compute; reflexivity|].
  assert (L : Forall (live EqDemo.heap) [TInt 3; TObj 1] /\ Forall (live EqDemo.heap) [TInt 2; TFloat 3]).
  { split; repeat (constructor; [by eexists|]); constructor. }
  pose proof (set_algebra_correct EqDemo.heap EqDemo.no_hook EqDemo.const_hash EqDemo.len_hash 5 Intersection
    (SetDemo.make [TInt 3; TObj 1]) (SetDemo.make [TInt 2; TFloat 3]) (fun _ _ _ => eq_refl) EqDemo.is_ok EqDemo.is_closed SetDemo.hook_ok) as H.
  specialize (H (SetDemo.make_good _ _ (proj1 L) eq_refl) (SetDemo.make_good _ _ (proj2 L) eq_refl)).
  destruct (set_algebra _ _ _ _ _ _) as [out|] eqn:E; [|vm_compute in E; discriminate].
  exists out. split; [reflexivity|]. split; [vm_compute in E; injection E as <-; reflexivity|apply H].
Defined.
