(* ===== verification/Ordering.v ===== *)
(** * The order behind [sort], [min], [max] and [compare]: [src/src/vm/compare.rs], [float_order] of
      [src/src/vm/arith.rs], [value_order] of [src/src/vm/equality.rs], [order_key] of
      [src/src/vm/list_hof.rs]

    [order_key] compares two values under the total order: tuples and lists lexicographically,
    records by the user's [compare], floats by [float_order], everything else by [Arith.compare].
    The walk over a container re-reads it at every step, since a user [compare] may write it; such
    a walk need not end, so the functions have fuel, and running out of it is the [RPanic] outcome
    (the source never returns there: an endless loop, or a stack overflow of the host).

    The specification reads a value into an [okey], a tree of scalars, and orders the trees by
    [kcmp].  The theorems: on values without records [order_key] with enough fuel answers [kcmp]
    and leaves the state alone; [kcmp] is a total preorder; away from NaN it is the order of [<], and
    NaNs stand outside the infinities by the sign and payload of their words. *)

From Stdlib Require Import SpecFloat.
From S2P Require Import Channel.
From stdpp Require Import strings.
From S2P Require Import Equality.
From S2P Require Import Prelude Consteval Value Arith.
Local Open Scope Z_scope.
Local Open Scope chz_scope.

(** ** Floats *)

(** A NaN's word: all exponent bits and some mantissa bit; the sign and the rest are free. *)
Definition is_nan_word (w : Z) : Prop := 0 <= w < 2 ^ 64 /\ 2047 * 2 ^ 52 < w mod 2 ^ 63.

(** [F64] has one NaN, the machine one per sign and payload, and [total_cmp] tells them apart.  So the
    heap also says which NaN a float box holds: [nan_word h r] is the word of the box at [r] when its
    float is NaN.  A box is never written, and an allocation leaves the other boxes alone. *)
Class NanWords (H : Type) {ops : HeapOps H} := {
  nan_word : H -> Z -> Z;
  nan_word_ok : forall h r, is_nan_word (nan_word h r);
  nan_halloc : forall h o r, hget h r <> None -> nan_word (halloc h o).1 r = nan_word h r;
}.
(** The word of the operand [v] when its float is NaN.  An int as a float is no NaN. *)
Definition nan_at {H} {ops : HeapOps H} {nans : NanWords H} (h : H) (v : tagged) : Z :=
  match v with TFloat r => nan_word h r | _ => 0 end.

(** [f64::to_bits]: [nan] is the word in case of a NaN. *)
Definition float_bits (nan : Z) (f : F64.f64) : Z := match f with S754_nan => nan | _ => to_bits f end.
(** [f64::total_cmp]: the words as [i64], the magnitude bits of a negative one flipped. *)
Definition word_key (w : Z) : Z :=
  let left := I64.wrap w in
  Z.lxor left (I64.wrap (Z.shiftr ((Z.shiftr left 63) mod 2 ^ 64) 1)).
Definition total_key (nan : Z) (f : F64.f64) : Z := word_key (float_bits nan f).
Definition total_cmp (nan_a : Z) (a : F64.f64) (nan_b : Z) (b : F64.f64) : comparison :=
  total_key nan_a a ?= total_key nan_b b.
Definition float_order (nan_a : Z) (a : F64.f64) (nan_b : Z) (b : F64.f64) : comparison :=
  if F64.is_zero a && F64.is_zero b then Eq else total_cmp nan_a a nan_b b.

(** ** The walk *)
Section Walk.
Context {H : Type} `{HeapLaws H} {nans : NanWords H}.
Context (type_name : H -> tagged -> string).
(** [invoke_hook(Hook::Compare, l, [r])]: [None] when the receiver's type has no [compare]. *)
Context (compare_hook : tagged -> tagged -> Span -> M H (option tagged)).
Context (missing_hook : H -> tagged -> Span -> RuntimeError).

Definition struct_compare (l r : tagged) (span : Span) : M H comparison :=
  res <- compare_hook l r span ;;
  match res with
  | None => fun vm => (RErr (missing_hook (heap vm) l span), vm)
  | Some res =>
      fun vm => match int_val (heap vm) res with
                | Some n => (ROk (n ?= 0), vm)
                | None => (RErr (vm_err ("compare() must return int, got " +:+ type_name (heap vm) res) span), vm)
                end
  end.

(** [with_roots]: the roots go on the operand stack, and both ends of [f] truncate it back. *)
Definition with_roots {A} (roots : list tagged) (f : M H A) : M H A := fun vm =>
  let base := length (stack vm) in
  let '(out, vm) := f (set_stack vm (stack vm ++ roots)) in
  (out, set_stack vm (take base (stack vm))).

(** The length of a tuple or list and its element [i], read from the heap now. *)
Definition seq_elem (h : H) (v : tagged) (i : nat) : nat * option tagged :=
  match view_obj v with
  | Some r => match hget h r with
              | Some (OTuple xs | OList xs) => (length xs, xs !! i)
              | _ => (0%nat, None)
              end
  | None => (0%nat, None)
  end.

(** Both are structs or enums: the gate in front of [struct_compare]. *)
Definition record_pair (h : H) (a b : tagged) : bool := is_record_value h a && is_record_value h b.

Fixpoint order_key (fuel : nat) (a b : tagged) (span : Span) : M H comparison :=
  match fuel with
  | O => panic
  | S fuel => fun vm =>
      if seq_pair (heap vm) a b then
        (o <- with_roots [a; b] (seq_walk fuel a b true span 0) ;; ret (default Eq o)) vm
      else if record_pair (heap vm) a b then struct_compare a b span vm
      else if is_float a && is_float b then
        (x <- float_of a ;; y <- float_of b ;; ret (float_order (nan_at (heap vm) a) x (nan_at (heap vm) b) y)) vm
      else match compare (heap vm) a b with
           | Some ord => (ROk ord, vm)
           | None =>
               if is_numeric (heap vm) a && is_numeric (heap vm) b then
                 (x <- as_f64 a ;; y <- as_f64 b ;; ret (float_order (nan_at (heap vm) a) x (nan_at (heap vm) b) y)) vm
               else (RErr (vm_err ("sort_by_key keys are not comparable: " +:+ type_name (heap vm) a +:+
                                   " vs " +:+ type_name (heap vm) b) span), vm)
           end
  end
(** The loop of [seq_order] from index [i]. *)
with seq_walk (fuel : nat) (a b : tagged) (total : bool) (span : Span) (i : nat) : M H (option comparison) :=
  match fuel with
  | O => panic
  | S fuel => fun vm =>
      let '(len_a, x) := seq_elem (heap vm) a i in
      let '(len_b, y) := seq_elem (heap vm) b i in
      match x, y with
      | Some x, Some y =>
          (o <- elem_order fuel x y total span ;;
           match o with
           | Some Eq => seq_walk fuel a b total span (S i)
           | other => ret other
           end) vm
      | _, _ => (ROk (Some (Nat.compare len_a len_b)), vm)
      end
  end
with elem_order (fuel : nat) (x y : tagged) (total : bool) (span : Span) : M H (option comparison) :=
  match fuel with
  | O => panic
  | S fuel =>
      if decide (x = y) then ret (Some Eq)
      else with_roots [x; y] (fun vm =>
        if total then (o <- order_key fuel x y span ;; ret (Some o)) vm
        else if seq_pair (heap vm) x y then with_roots [x; y] (seq_walk fuel x y false span 0) vm
        else if record_pair (heap vm) x y then (o <- struct_compare x y span ;; ret (Some o)) vm
        else (ROk (compare (heap vm) x y), vm))
  end.

Definition seq_order (fuel : nat) (a b : tagged) (total : bool) (span : Span) : M H (option comparison) :=
  with_roots [a; b] (seq_walk fuel a b total span 0).

(** [value_order] of the sort of scalars. *)
Definition value_order (a b : tagged) : M H comparison := fun vm =>
  if is_float a && is_float b then
    (x <- float_of a ;; y <- float_of b ;; ret (float_order (nan_at (heap vm) a) x (nan_at (heap vm) b) y)) vm
  else (ROk (default Eq (compare (heap vm) a b)), vm).
End Walk.

(** ** The specification: trees of scalars and their order *)

Section Lex.
Context {A : Type} (cmp : A -> A -> comparison).
Fixpoint lex (xs ys : list A) : comparison :=
  match xs, ys with
  | [], [] => Eq
  | [], _ => Lt
  | _, [] => Gt
  | x :: xs, y :: ys => match cmp x y with Eq => lex xs ys | c => c end
  end.
End Lex.

Inductive okey :=
| KInt (n : Z)
(** A float, and the word of its box in case it is NaN. *)
| KFloat (f : F64.f64) (nan : Z)
| KBool (b : bool)
| KStr (s : string)
| KBytes (l : list Z)
| KTuple (ks : list okey)
| KList (ks : list okey).

Definition rank (k : okey) : Z :=
  match k with
  | KInt _ => 0 | KFloat _ _ => 1 | KBool _ => 2 | KStr _ => 3 | KBytes _ => 4 | KTuple _ => 5 | KList _ => 6
  end.

(** Where a float stands: the place of its word, the two zeros at one place. *)
Definition fkey (nan : Z) (f : F64.f64) : Z := if F64.is_zero f then 0 else total_key nan f.

Fixpoint kcmp (a b : okey) : comparison :=
  match a, b with
  | KInt x, KInt y => x ?= y
  | KFloat x n, KFloat y m => fkey n x ?= fkey m y
  | KBool x, KBool y => Z.b2z x ?= Z.b2z y
  | KStr x, KStr y => String.compare x y
  | KBytes x, KBytes y => lex Z.compare x y
  | KTuple xs, KTuple ys | KList xs, KList ys => lex kcmp xs ys
  | _, _ => rank a ?= rank b
  end.

(** The key of a value: [n] bounds the nesting.  Records, maps and the like have none. *)
Fixpoint key_of {H} {ops : HeapOps H} {nans : NanWords H} (n : nat) (h : H) (v : tagged) : option okey :=
  match n with
  | O => None
  | S n =>
      match v with
      | TInt z => Some (KInt z)
      | TBool b => Some (KBool b)
      | TFloat r =>
          match hget h r with
          | Some (OFloatBox f) => if valid_binary F64.prec F64.emax f then Some (KFloat f (nan_word h r)) else None
          | _ => None
          end
      | TObj r =>
          match hget h r with
          | Some (OBigInt z) => Some (KInt z)
          | Some (OStr s) => Some (KStr s)
          | Some (OBytes b | OByteArray b) => Some (KBytes b)
          | Some (OTuple xs) => KTuple <$> mapM (key_of n h) xs
          | Some (OList xs) => KList <$> mapM (key_of n h) xs
          | _ => None
          end
      | _ => None
      end
  end.

(** What the checker proves of the elements of a sortable list: they have one type. *)
Inductive ktype := TyInt | TyFloat | TyBool | TyStr | TyBytes | TyTuple (ts : list ktype) | TyList (t : ktype).
Fixpoint has_type (t : ktype) (k : okey) : bool :=
  match t, k with
  | TyInt, KInt _ | TyFloat, KFloat _ _ | TyBool, KBool _ | TyStr, KStr _ | TyBytes, KBytes _ => true
  | TyTuple ts, KTuple ks =>
      (fix all (ts : list ktype) (ks : list okey) : bool :=
         match ts, ks with
         | [], [] => true
         | t :: ts, k :: ks => has_type t k && all ts ks
         | _, _ => false
         end) ts ks
  | TyList t, KList ks => forallb (has_type t) ks
  | _, _ => false
  end.

(** Fuel for a comparison: two turns per element and nesting. *)
Fixpoint weight (k : okey) : nat :=
  match k with
  | KTuple ks | KList ks => S (S (list_sum ((fun k => S (S (weight k))) <$> ks)))
  | _ => 1
  end.

(** Two keys that [compare] can compare: the same constructors where both have an element. *)
Fixpoint alike (a b : okey) : bool :=
  match a, b with
  | KInt _, KInt _ | KFloat _ _, KFloat _ _ | KBool _, KBool _ | KStr _, KStr _ | KBytes _, KBytes _ => true
  | KTuple xs, KTuple ys | KList xs, KList ys =>
      (fix all (xs ys : list okey) : bool :=
         match xs, ys with x :: xs, y :: ys => alike x y && all xs ys | _, _ => true end) xs ys
  | _, _ => false
  end.

Section OkeyInd.
Context (P : okey -> Prop).
Context (Hscalar : forall k, (match k with KTuple _ | KList _ => False | _ => True end) -> P k).
Context (Htuple : forall ks, Forall P ks -> P (KTuple ks)) (Hlist : forall ks, Forall P ks -> P (KList ks)).
Fixpoint okey_nested (k : okey) : P k :=
  let all := fix all (ks : list okey) : Forall P ks :=
    match ks with [] => Forall_nil_2 P | k :: ks => Forall_cons_2 P k ks (okey_nested k) (all ks) end in
  match k with
  | KTuple ks => Htuple ks (all ks)
  | KList ks => Hlist ks (all ks)
  | k => Hscalar k I
  end.
End OkeyInd.

(** ** Comparisons that order: [cmp] behaves as a total preorder around [a] *)
Record ordered {A} (cmp : A -> A -> comparison) (a : A) : Prop := {
  ord_refl : cmp a a = Eq;
  ord_sym b : cmp b a = CompOpp (cmp a b);
  ord_eq_l b c : cmp a b = Eq -> cmp b c = cmp a c;
  ord_eq_r b c : cmp b c = Eq -> cmp a b = cmp a c;
  ord_lt b c : cmp a b = Lt -> cmp b c = Lt -> cmp a c = Lt;
}.

Lemma ordered_Z (a : Z) : ordered Z.compare a.
Proof.
  split; [apply Z.compare_refl|intros; by rewrite Z.compare_antisym| | |].
  - intros b c. by intros ->%Z.compare_eq.
  - intros b c. by intros ->%Z.compare_eq.
  - intros b c. rewrite !Z.compare_lt_iff. lia.
Qed.

Lemma ordered_via {A B} (f : A -> B) cmp a : ordered cmp (f a) -> ordered (fun x y => cmp (f x) (f y)) a.
Proof. intros []. by split; eauto. Qed.

(** The same laws for three given elements. *)
Definition laws {A} (cmp : A -> A -> comparison) (a b c : A) : Prop :=
  cmp a a = Eq /\ cmp b a = CompOpp (cmp a b) /\ (cmp a b = Eq -> cmp b c = cmp a c) /\
  (cmp b c = Eq -> cmp a b = cmp a c) /\ (cmp a b = Lt -> cmp b c = Lt -> cmp a c = Lt).
Lemma ordered_laws {A} (cmp : A -> A -> comparison) a : ordered cmp a <-> forall b c, laws cmp a b c.
Proof.
  split; [intros [] b c; by split_and!; eauto|]. intros L.
  split; [apply (L a a)|intros b; apply (L b b)|intros b c; apply (L b c)..].
Qed.
Lemma laws_at {A B} (f : A -> B) cmp cmp' x y z : (forall x y, cmp' (f x) (f y) = cmp x y) ->
  ordered cmp x -> laws cmp' (f x) (f y) (f z).
Proof. intros E O. unfold laws. rewrite !E. by apply ordered_laws. Qed.

Lemma ordered_lex {A} (cmp : A -> A -> comparison) xs : Forall (ordered cmp) xs -> ordered (lex cmp) xs.
Proof.
  induction 1 as [|x xs [R S L E T] _ [IR IS IL IE IT]].
  - split; [done|by intros []|by intros [] []|by intros [] []|by intros [] []].
  - split; simpl.
    + by rewrite R.
    + intros [|y ys]; [done|]. simpl. rewrite (S y). destruct (cmp x y); simpl; auto.
    + intros [|y ys] c; [done|]. destruct (cmp x y) eqn:Exy; try done. intros Hl. destruct c as [|z zs]; [done|].
      simpl. rewrite (L y z Exy). destruct (cmp x z); auto.
    + intros [|y ys] [|z zs]; simpl; try done. destruct (cmp y z) eqn:Eyz; try done. intros Hl.
      rewrite (E y z Eyz). destruct (cmp x z); auto.
    + intros [|y ys] [|z zs]; simpl; try done.
      destruct (cmp x y) eqn:Exy; [|intros _|done]; destruct (cmp y z) eqn:Eyz; try done.
      * rewrite <- (L y z Exy), Eyz. apply IT.
      * by rewrite <- (L y z Exy), Eyz.
      * by rewrite <- (E y z Eyz), Exy.
      * by rewrite (T y z Exy Eyz).
Qed.

Definition codes (s : string) : list Z := (fun c => Z.of_N (Ascii.N_of_ascii c)) <$> String.list_ascii_of_string s.
Lemma string_compare_lex s t : String.compare s t = lex Z.compare (codes s) (codes t).
Proof.
  revert t. induction s as [|c s IH]; intros [|d t]; try done.
  unfold codes in *. simpl. rewrite IH. unfold Ascii.compare. by rewrite N2Z.inj_compare.
Qed.

Lemma ordered_Zlist (l : list Z) : ordered (lex Z.compare) l.
Proof. apply ordered_lex, Forall_true, ordered_Z. Qed.

Section KeyLaws.
Abbreviation cmp := kcmp.

Lemma kcmp_rank a b : rank a <> rank b -> cmp a b = (rank a ?= rank b).
Proof. destruct a, b; done. Qed.

(** Only keys of one rank need an argument. *)
Lemma ordered_by_rank k :
  (forall b c, rank b = rank k -> rank c = rank k -> laws cmp k b c) -> ordered cmp k.
Proof.
  intros G. apply ordered_laws. intros b c.
  destruct (decide (rank b = rank k)) as [Eb|Nb], (decide (rank c = rank k)) as [Ec|Nc]; [by apply G|..].
  - destruct (G b b Eb Eb) as (R & S' & _). split_and!; [done|done|..]; rewrite ?(kcmp_rank b c), ?(kcmp_rank k c) by congruence.
    + by rewrite Eb.
    + intros ?%Z.compare_eq. congruence.
    + by rewrite Eb.
  - destruct (G k k eq_refl eq_refl) as (R & _). split_and!; [done|..]; rewrite ?(kcmp_rank k b), ?(kcmp_rank b k), ?(kcmp_rank b c) by congruence.
    + apply Z.compare_antisym.
    + intros ?%Z.compare_eq. congruence.
    + intros ?%Z.compare_eq. congruence.
    + rewrite !Z.compare_lt_iff. lia.
  - destruct (G k k eq_refl eq_refl) as (R & _). split_and!; [done|..]; rewrite ?(kcmp_rank k b), ?(kcmp_rank b k), ?(kcmp_rank k c) by congruence.
    + apply Z.compare_antisym.
    + intros ?%Z.compare_eq. congruence.
    + destruct (decide (rank b = rank c)) as [->|N]; [done|]. rewrite kcmp_rank by done. intros ?%Z.compare_eq. congruence.
    + destruct (decide (rank b = rank c)) as [->|N]; [done|]. rewrite kcmp_rank by done. rewrite !Z.compare_lt_iff. lia.
Qed.

Lemma kcmp_ordered k : ordered cmp k.
Proof.
  induction k as [k Hk|ks IH|ks IH] using okey_nested; apply ordered_by_rank;
    intros b c Eb Ec; destruct b, c; try done; try destruct k; try done.
  - apply (laws_at KInt Z.compare); [done|apply ordered_Z].
  - apply (laws_at (fun p => KFloat p.1 p.2) (fun p q => fkey p.2 p.1 ?= fkey q.2 q.1) _ (f1, nan1) (f, nan) (f0, nan0));
      [done|apply (ordered_via (fun p => fkey p.2 p.1) Z.compare), ordered_Z].
  - apply (laws_at KBool (fun x y => Z.b2z x ?= Z.b2z y)); [done|apply (ordered_via _ Z.compare), ordered_Z].
  - apply (laws_at KStr (fun x y => lex Z.compare (codes x) (codes y))); [apply string_compare_lex|].
    apply (ordered_via codes), ordered_Zlist.
  - apply (laws_at KBytes (lex Z.compare)); [done|apply ordered_Zlist].
  - apply (laws_at KTuple (lex cmp)); [done|by apply ordered_lex].
  - apply (laws_at KList (lex cmp)); [done|by apply ordered_lex].
Qed.
End KeyLaws.

(** ** Floats: the word order is the numeric order *)

Definition magnitude (f : F64.f64) : Z :=
  match f with
  | S754_zero _ => 0
  | S754_infinity _ => 2047 * 2 ^ 52
  | S754_finite _ m e => if Zpos m <? 2 ^ 52 then Zpos m else (e + 1075) * 2 ^ 52 + (Zpos m - 2 ^ 52)
  | S754_nan => 0
  end.
Definition signbit (f : F64.f64) : bool :=
  match f with S754_zero s | S754_infinity s | S754_finite s _ _ => s | S754_nan => false end.

(** The canonical mantissas of a double. *)
Lemma float_ok_finite s m e : float_ok (S754_finite s m e) ->
  (Zpos m < 2 ^ 52 -> e = -1074) /\ Zpos m < 2 ^ 53 /\ -1074 <= e <= 971.
Proof.
  unfold float_ok, valid_binary, bounded, canonical_mantissa, fexp, F64.prec, F64.emax. simpl.
  intros [H1%Z.eqb_eq H2%Z.leb_le]%andb_true_iff. rewrite digits_log2 in H1. unfold SpecFloat.emin in H1.
  assert (E : Z.log2 (Zpos m) < 52 -> e = -1074) by lia.
  assert (L : Z.log2 (Zpos m) < 53) by lia.
  split; [intros Hm; apply E, Z.log2_lt_pow2; lia|]. split; [apply Z.log2_lt_pow2; lia|lia].
Qed.

Lemma magnitude_bound f : float_ok f -> 0 <= magnitude f < 2 ^ 63 /\ (F64.is_zero f = false -> f <> S754_nan -> 0 < magnitude f).
Proof.
  intros Hok. destruct f as [s|s| |s m e]; simpl; [split; [lia|done]|lia|split; [lia|done]|].
  apply float_ok_finite in Hok as (Hs & Hm & He). destruct (Z.ltb_spec (Zpos m) (2 ^ 52)); split; lia.
Qed.

Lemma to_bits_signed f : float_ok f -> f <> S754_nan -> to_bits f = (if signbit f then 2 ^ 63 else 0) + magnitude f.
Proof.
  intros Hok Hn. pose proof (magnitude_bound f Hok) as [Hb _].
  assert (G : forall m, 0 <= m < 2 ^ 63 -> Z.lor (if signbit f then Z.shiftl 1 63 else 0) m = (if signbit f then 2 ^ 63 else 0) + m).
  { intros m Hm. destruct (signbit f); [|done]. apply (lor_low 1 63 m); lia. }
  destruct f as [s|s| |s m e]; simpl signbit in *; simpl magnitude in *; unfold to_bits.
  - by destruct s.
  - by apply G.
  - done.
  - assert (E : (if Zpos m <? 2 ^ 52 then Zpos m else Z.lor (Z.shiftl (e + 1075) 52) (Zpos m - 2 ^ 52)) =
      (if Zpos m <? 2 ^ 52 then Zpos m else (e + 1075) * 2 ^ 52 + (Zpos m - 2 ^ 52))).
    { apply float_ok_finite in Hok as (_ & ? & _). destruct (Z.ltb_spec (Zpos m) (2 ^ 52)); [done|].
      rewrite Z.shiftl_mul_pow2, lor_low; lia. }
    rewrite E. by apply G.
Qed.

Lemma flip_magnitude m : 0 <= m < 2 ^ 63 -> Z.lxor (m - 2 ^ 63) (2 ^ 63 - 1) = - 1 - m.
Proof.
  intros Hm. replace (m - 2 ^ 63) with (Z.lnot (2 ^ 63 - 1 - m)) by (unfold Z.lnot; lia).
  rewrite <- Z.lnot_lxor_l. replace (-1 - m) with (Z.lnot m) by (unfold Z.lnot; lia). f_equal.
  change (2 ^ 63 - 1) with (Z.ones 63). apply Z.bits_inj'. intros n Hn.
  assert (E : Z.ones 63 - m = Z.ldiff (Z.ones 63) m).
  { apply Z.sub_nocarry_ldiff. apply Z.bits_inj'. intros k Hk. rewrite Z.ldiff_spec, Z.bits_0.
    destruct (Z.lt_ge_cases k 63); [rewrite Z.ones_spec_low by lia; by destruct (Z.testbit m k)|].
    rewrite (Z.bits_above_log2 m k); [done|lia|]. destruct (decide (m = 0)) as [->|]; [simpl; lia|].
    apply Z.log2_lt_pow2; [lia|]. apply (Z.lt_le_trans _ (2 ^ 63)); [lia|]. apply Z.pow_le_mono_r; lia. }
  rewrite E, Z.lxor_spec, Z.ldiff_spec. destruct (Z.lt_ge_cases n 63).
  - rewrite Z.ones_spec_low by lia. by destruct (Z.testbit m n).
  - rewrite Z.ones_spec_high by lia. rewrite (Z.bits_above_log2 m n); [done|lia|].
    destruct (decide (m = 0)) as [->|]; [simpl; lia|].
    apply Z.log2_lt_pow2; [lia|]. apply (Z.lt_le_trans _ (2 ^ 63)); [lia|]. apply Z.pow_le_mono_r; lia.
Qed.

Lemma word_key_signed (s : bool) m : 0 <= m < 2 ^ 63 ->
  word_key ((if s then 2 ^ 63 else 0) + m) = if s then -1 - m else m.
Proof.
  intros Hb. unfold word_key. destruct s.
  - assert (E : I64.wrap (2 ^ 63 + m) = m - 2 ^ 63).
    { unfold I64.wrap. replace (2 ^ 63 + m + 2 ^ 63) with (m + 1 * 2 ^ 64) by lia. rewrite Z.mod_add, Z.mod_small; lia. }
    rewrite E. assert (Es : Z.shiftr (m - 2 ^ 63) 63 = -1).
    { rewrite Z.shiftr_div_pow2 by lia. symmetry. apply Z.div_unique with m; lia. }
    rewrite Es. apply flip_magnitude. lia.
  - rewrite Z.add_0_l, I64.wrap_id by (unfold I64.ok, I64.MIN, I64.MAX; lia).
    rewrite (Z.shiftr_eq_0 m 63); [apply Z.lxor_0_r|lia|].
    destruct (decide (m = 0)) as [->|]; [simpl; lia|]. apply Z.log2_lt_pow2; lia.
Qed.

Lemma magnitude_compare s1 m1 e1 s2 m2 e2 :
  float_ok (S754_finite s1 m1 e1) -> float_ok (S754_finite s2 m2 e2) ->
  (magnitude (S754_finite s1 m1 e1) ?= magnitude (S754_finite s2 m2 e2)) =
  match e1 ?= e2 with Eq => Pos.compare_cont Eq m1 m2 | c => c end.
Proof.
  intros (H1 & L1 & B1)%float_ok_finite (H2 & L2 & B2)%float_ok_finite. simpl.
  change (Pos.compare_cont Eq m1 m2) with (Zpos m1 ?= Zpos m2).
  destruct (Z.compare_spec e1 e2) as [->|He|He].
  - destruct (Z.ltb_spec (Zpos m1) (2 ^ 52)), (Z.ltb_spec (Zpos m2) (2 ^ 52)).
    + done.
    + rewrite (proj2 (Z.compare_lt_iff (Zpos m1) (Zpos m2))) by lia. apply Z.compare_lt_iff. lia.
    + rewrite (proj2 (Z.compare_gt_iff (Zpos m1) (Zpos m2))) by lia. apply Z.compare_gt_iff. lia.
    + destruct (Z.compare_spec (Zpos m1) (Zpos m2)); [apply Z.compare_eq_iff|apply Z.compare_lt_iff|apply Z.compare_gt_iff]; lia.
  - apply Z.compare_lt_iff. destruct (Z.ltb_spec (Zpos m1) (2 ^ 52)), (Z.ltb_spec (Zpos m2) (2 ^ 52)); lia.
  - apply Z.compare_gt_iff. destruct (Z.ltb_spec (Zpos m1) (2 ^ 52)), (Z.ltb_spec (Zpos m2) (2 ^ 52)); lia.
Qed.

Lemma compare_same a b c d : (a < b <-> c < d) -> (a = b <-> c = d) -> (a ?= b) = (c ?= d).
Proof.
  intros H1 H2. destruct (Z.compare_spec c d) as [E|E|E].
  - apply Z.compare_eq_iff. tauto.
  - apply Z.compare_lt_iff. tauto.
  - apply Z.compare_gt_iff. lia.
Qed.

Section FloatKeys.
Section OneFloat.
Context (nan_bits : Z) (Hnan : is_nan_word nan_bits).

Definition fsign (f : F64.f64) : bool := match f with S754_nan => 2 ^ 63 <=? nan_bits | _ => signbit f end.
Definition fmag (f : F64.f64) : Z := match f with S754_nan => nan_bits mod 2 ^ 63 | _ => magnitude f end.

Lemma fmag_bound f : float_ok f -> 0 <= fmag f < 2 ^ 63 /\ (F64.is_zero f = false -> 0 < fmag f).
Proof.
  intros Hok. pose proof (magnitude_bound f Hok) as [Hb Hp]. destruct f as [s|s| |s m e]; simpl in *.
  3: { pose proof (Z.mod_pos_bound nan_bits (2 ^ 63)). destruct Hnan. split; lia. }
  all: split; auto.
Qed.

Lemma total_key_signed f : float_ok f -> total_key nan_bits f = if fsign f then -1 - fmag f else fmag f.
Proof.
  intros Hok. pose proof (fmag_bound f Hok) as [Hb _]. unfold total_key. rewrite <- word_key_signed by done. f_equal.
  destruct f as [s|s| |s m e]; [by apply to_bits_signed..| |by apply to_bits_signed].
  simpl. destruct Hnan as [Hn _]. pose proof (Z.div_mod nan_bits (2 ^ 63)). destruct (Z.leb_spec (2 ^ 63) nan_bits).
  - assert (nan_bits / 2 ^ 63 = 1); [|lia]. symmetry. apply Z.div_unique with (nan_bits - 2 ^ 63); lia.
  - rewrite Z.mod_small by lia. lia.
Qed.

Lemma fkey_signed f : float_ok f -> fkey nan_bits f = if F64.is_zero f then 0 else if fsign f then -1 - fmag f else fmag f.
Proof. intros Hok. unfold fkey. destruct (F64.is_zero f); [done|by apply total_key_signed]. Qed.

End OneFloat.

Context (n m : Z) (Hn : is_nan_word n) (Hm : is_nan_word m).
Lemma float_order_fkey x y : float_ok x -> float_ok y ->
  float_order n x m y = (fkey n x ?= fkey m y).
Proof.
  intros Hx Hy. rewrite !fkey_signed by done. unfold float_order, total_cmp. rewrite !total_key_signed by done.
  pose proof (fmag_bound n Hn x Hx) as [Bx Px]. pose proof (fmag_bound m Hm y Hy) as [By Py].
  assert (Zx : F64.is_zero x = true -> fmag n x = 0) by by destruct x.
  assert (Zy : F64.is_zero y = true -> fmag m y = 0) by by destruct y.
  destruct (F64.is_zero x), (F64.is_zero y); cbn [andb]; try done; apply compare_same;
    try specialize (Zx eq_refl); try specialize (Zy eq_refl); try specialize (Px eq_refl); try specialize (Py eq_refl);
    destruct (fsign n x), (fsign m y); lia.
Qed.

(** Away from NaN this is [partial_cmp], the order of [<]. *)
Lemma compare_fkey x y : float_ok x -> float_ok y -> x <> S754_nan -> y <> S754_nan ->
  F64.compare x y = Some (fkey n x ?= fkey m y).
Proof.
  intros Hx Hy Nx Ny. rewrite !fkey_signed by done.
  pose proof (fmag_bound n Hn x Hx) as [Bx Px]. pose proof (fmag_bound m Hm y Hy) as [By Py].
  unfold F64.compare.
  destruct x as [s1|s1| |s1 m1 e1], y as [s2|s2| |s2 m2 e2]; try done; cbn [F64.is_zero fsign signbit] in *;
    try (specialize (Px eq_refl)); try (specialize (Py eq_refl)).
  all: try (destruct s1, s2; cbn [SFcompare]; f_equal; symmetry;
    first [by rewrite Z.compare_refl|apply Z.compare_lt_iff; cbn [fmag magnitude] in *; lia|apply Z.compare_gt_iff; cbn [fmag magnitude] in *; lia]).
  - apply float_ok_finite in Hy as (? & ? & ?). destruct s1, s2; cbn [SFcompare fmag magnitude] in *; f_equal; symmetry;
      (destruct (Z.ltb_spec (Zpos m2) (2 ^ 52)); first [apply Z.compare_lt_iff; lia|apply Z.compare_gt_iff; lia]).
  - apply float_ok_finite in Hx as (? & ? & ?). destruct s1, s2; cbn [SFcompare fmag magnitude] in *; f_equal; symmetry;
      (destruct (Z.ltb_spec (Zpos m1) (2 ^ 52)); first [apply Z.compare_lt_iff; lia|apply Z.compare_gt_iff; lia]).
  - pose proof (magnitude_compare s1 m1 e1 s2 m2 e2 Hx Hy) as E. change (fmag ?n ?f) with (magnitude f) in *.
    set (a := magnitude (S754_finite s1 m1 e1)) in *. set (b := magnitude (S754_finite s2 m2 e2)) in *.
    destruct s1, s2; cbn [SFcompare]; f_equal; [|symmetry; apply Z.compare_lt_iff; lia|symmetry; apply Z.compare_gt_iff; lia|].
    + transitivity (CompOpp (a ?= b)); [by rewrite E; destruct (e1 ?= e2)|]. rewrite <- Z.compare_antisym. apply compare_same; lia.
    + rewrite E. by destruct (e1 ?= e2).
Qed.

(** NaN is beyond the infinities, on the side of its sign. *)
Definition nan_place (f : F64.f64) (w : Z) (g : F64.f64) (v : Z) (c : comparison) : Prop :=
  match f, g with
  | S754_nan, S754_nan =>
      c = match 2 ^ 63 <=? w, 2 ^ 63 <=? v with
          | true, true => v mod 2 ^ 63 ?= w mod 2 ^ 63
          | true, false => Lt
          | false, true => Gt
          | false, false => w mod 2 ^ 63 ?= v mod 2 ^ 63
          end
  | S754_nan, _ => c = if 2 ^ 63 <=? w then Lt else Gt
  | _, S754_nan => c = if 2 ^ 63 <=? v then Gt else Lt
  | _, _ => True
  end.

Lemma fkey_number w f : is_nan_word w -> float_ok f -> f <> S754_nan -> -1 - 2047 * 2 ^ 52 <= fkey w f <= 2047 * 2 ^ 52.
Proof.
  intros Hw Hok Hf. rewrite fkey_signed by done. assert (Hb : 0 <= fmag w f <= 2047 * 2 ^ 52).
  { destruct f as [s|s| |s k e]; simpl; try done. apply float_ok_finite in Hok as (? & ? & ?).
    destruct (Z.ltb_spec (Zpos k) (2 ^ 52)); lia. }
  destruct (F64.is_zero f), (fsign w f); lia.
Qed.
Lemma fkey_nan w : is_nan_word w -> fkey w S754_nan = if 2 ^ 63 <=? w then -1 - w mod 2 ^ 63 else w mod 2 ^ 63.
Proof. intros Hw. by apply (fkey_signed w Hw S754_nan). Qed.

Lemma kcmp_nan f g : float_ok f -> float_ok g -> nan_place f n g m (fkey n f ?= fkey m g).
Proof.
  intros Hf Hg. pose proof Hn as [_ Bn]. pose proof Hm as [_ Bm].
  pose proof (fkey_nan n Hn) as En. pose proof (fkey_nan m Hm) as Em.
  assert (N : forall x : F64.f64, x = S754_nan \/ x <> S754_nan) by (intros []; auto; by right).
  destruct (N f) as [->|Nf], (N g) as [->|Ng].
  - simpl. rewrite En, Em. destruct (2 ^ 63 <=? n), (2 ^ 63 <=? m); try apply compare_same; try lia;
      first [apply Z.compare_lt_iff; lia|apply Z.compare_gt_iff; lia].
  - pose proof (fkey_number m g Hm Hg Ng). assert (G : (fkey n S754_nan ?= fkey m g) = if 2 ^ 63 <=? n then Lt else Gt).
    { rewrite En. destruct (2 ^ 63 <=? n); [apply Z.compare_lt_iff; lia|apply Z.compare_gt_iff; lia]. }
    by destruct g.
  - pose proof (fkey_number n f Hn Hf Nf). assert (G : (fkey n f ?= fkey m S754_nan) = if 2 ^ 63 <=? m then Gt else Lt).
    { rewrite Em. destruct (2 ^ 63 <=? m); [apply Z.compare_gt_iff; lia|apply Z.compare_lt_iff; lia]. }
    by destruct f.
  - by destruct f, g.
Qed.
End FloatKeys.

(** ** Reading a value's key *)

Fixpoint nan_free (k : okey) : bool :=
  match k with
  | KFloat S754_nan _ => false
  | KTuple ks | KList ks => forallb nan_free ks
  | _ => true
  end.

Section Keys.
Context {H : Type} `{HeapLaws H} {nans : NanWords H}.
Context (type_name : H -> tagged -> string).
Context (compare_hook : tagged -> tagged -> Span -> M H (option tagged)).
Context (missing_hook : H -> tagged -> Span -> RuntimeError).
Abbreviation cmp := kcmp.
Abbreviation order_key := (order_key type_name compare_hook missing_hook).
Abbreviation seq_walk := (seq_walk type_name compare_hook missing_hook).
Abbreviation elem_order := (elem_order type_name compare_hook missing_hook).
Implicit Types (vm : Vm H) (h : H).

Lemma key_float n h r k : key_of n h (TFloat r) = Some k ->
  exists f, hget h r = Some (OFloatBox f) /\ k = KFloat f (nan_word h r) /\ float_ok f.
Proof.
  destruct n; [done|]. simpl. destruct (hget h r) as [[]|]; try done.
  destruct (valid_binary F64.prec F64.emax f) eqn:E; [|done]. intros [= <-]. by exists f.
Qed.

Lemma key_float_ok n h x f w : key_of n h x = Some (KFloat f w) -> float_ok f /\ is_nan_word w.
Proof.
  destruct n, x as [z|r|r| |b|l]; try done; simpl.
  - destruct (hget h r) as [[]|]; try done; by destruct (mapM (key_of n h) xs).
  - destruct (hget h r) as [[]|]; try done. destruct (valid_binary F64.prec F64.emax f0) eqn:E; [|done].
    intros [= <- <-]. split; [done|apply nan_word_ok].
Qed.

(** A tuple or list has the keys of its elements; everything else with a key is a scalar. *)
Definition seq_key (n : nat) h (v : tagged) (k : okey) (xs : list tagged) (ks : list okey) : Prop :=
  exists r, v = TObj r /\ mapM (key_of n h) xs = Some ks /\
    (hget h r = Some (OTuple xs) /\ k = KTuple ks \/ hget h r = Some (OList xs) /\ k = KList ks).
Definition scalar h (v : tagged) (k : okey) : Prop :=
  seq_kind h v = None /\ is_record_value h v = false /\
  match k with
  | KInt z => int_val h v = Some z /\ is_float v = false
  | KFloat f n => is_float v = true /\ float_val h v = Some f /\ float_ok f /\ n = nan_at h v
  | KBool b => v = TBool b
  | KStr s => exists r, v = TObj r /\ hget h r = Some (OStr s)
  | KBytes l => exists r, v = TObj r /\ (hget h r = Some (OBytes l) \/ hget h r = Some (OByteArray l))
  | _ => False
  end.

Lemma key_cases n h v k : key_of (S n) h v = Some k -> scalar h v k \/ exists xs ks, seq_key n h v k xs ks.
Proof.
  intros E. destruct v as [z|r|r| |b|l]; simpl in E; try done.
  - injection E as <-. by left.
  - unfold scalar, is_record_value, seq_kind, is_record, seq_key. simpl.
    destruct (hget h r) as [[]|] eqn:Er; try done; try (injection E as <-).
    all: try (left; rewrite ?Er; by eauto 10).
    + right. destruct (mapM (key_of n h) xs) as [ks|] eqn:Em; [|done]. simpl in E. injection E as <-. exists xs, ks, r. auto.
    + right. destruct (mapM (key_of n h) xs) as [ks|] eqn:Em; [|done]. simpl in E. injection E as <-. exists xs, ks, r. auto.
  - left. destruct (hget h r) as [[]|] eqn:Er; try done. destruct (valid_binary _ _ f) eqn:Ev; [|done].
    injection E as <-. split; [done|]. split; [done|]. split; [done|]. simpl. rewrite Er. by split_and!.
  - injection E as <-. by left.
Qed.

(** [compare] of two scalars of one kind. *)
Lemma compare_scalars h x y kx ky : scalar h x kx -> scalar h y ky -> alike kx ky = true ->
  (exists a n b m, kx = KFloat a n /\ ky = KFloat b m) \/
  (is_float x && is_float y = false /\ compare h x y = Some (cmp kx ky)).
Proof.
  intros (Sx & Rx & Cx) (Sy & Ry & Cy) Ha. destruct kx, ky; try done.
  - right. destruct Cx as [Ex Fx], Cy as [Ey Fy]. split; [by rewrite Fx|]. unfold compare. by rewrite Ex, Ey.
  - left. by do 4 eexists.
  - right. by subst.
  - right. destruct Cx as (r & -> & Ex), Cy as (q & -> & Ey). split; [done|].
    unfold compare. simpl. by rewrite Ex, Ey.
  - right. destruct Cx as (r & -> & Ex), Cy as (q & -> & Ey). split; [done|]. unfold compare. simpl.
    destruct Ex as [Ex|Ex], Ey as [Ey|Ey]; rewrite Ex, Ey; f_equal.
Qed.

Lemma nan_at_ok h v : is_float v = true -> is_nan_word (nan_at h v).
Proof. destruct v; try done. intros _. apply nan_word_ok. Qed.

Lemma compare_floats h x y a n b m : scalar h x (KFloat a n) -> scalar h y (KFloat b m) -> a <> S754_nan -> b <> S754_nan ->
  compare h x y = Some (cmp (KFloat a n) (KFloat b m)).
Proof.
  intros (_ & _ & Fx & Ex & Ox & ->) (_ & _ & Fy & Ey & Oy & ->) Na Nb. destruct x, y; try done.
  unfold compare. rewrite Ex, Ey. simpl. by apply compare_fkey; [apply nan_word_ok..| | | |].
Qed.

Lemma order_floats vm x y a n b m : scalar (heap vm) x (KFloat a n) -> scalar (heap vm) y (KFloat b m) ->
  (a <- float_of x ;; b <- float_of y ;; ret (float_order (nan_at (heap vm) x) a (nan_at (heap vm) y) b)) vm =
    (ROk (cmp (KFloat a n) (KFloat b m)), vm).
Proof.
  intros (_ & _ & Fx & Ex & Ox & ->) (_ & _ & Fy & Ey & Oy & ->).
  unfold bind, float_of, or_panic. rewrite Ex, Ey. unfold ret. by rewrite float_order_fkey; [|apply nan_at_ok..| |].
Qed.

Lemma scalar_pair h x y kx ky : scalar h x kx -> scalar h y ky -> seq_pair h x y = false /\ record_pair h x y = false.
Proof. intros (Sx & Rx & _) _. unfold seq_pair, record_pair. by rewrite Sx, Rx. Qed.

Lemma with_roots_pure {A} roots (f : M H A) vm r :
  (forall s, f (set_stack vm s) = (r, set_stack vm s)) -> with_roots roots f vm = (r, vm).
Proof.
  intros E. unfold with_roots. rewrite E. simpl. rewrite take_app_length. by destruct vm.
Qed.

(** A key stays while the objects do. *)
Lemma key_of_mono n h h' v k : (forall r o, hget h r = Some o -> hget h' r = Some o) ->
  (forall r, hget h r <> None -> nan_word h' r = nan_word h r) ->
  key_of n h v = Some k -> key_of n h' v = Some k.
Proof.
  intros Hl Hw. revert v k. induction n as [|n IH]; intros v k E; [done|].
  assert (Hm : forall xs ks, mapM (key_of n h) xs = Some ks -> mapM (key_of n h') xs = Some ks).
  { intros xs ks Em. apply mapM_Some. apply mapM_Some in Em. eapply Forall2_impl; [apply IH|exact Em]. }
  destruct v as [z|r|r| |b|l]; simpl in *; try done; (destruct (hget h r) as [o|] eqn:Er; [|done]); rewrite (Hl _ _ Er); destruct o; try done.
  - destruct (mapM (key_of n h) xs) as [ks|] eqn:Em; [|done]. by rewrite (Hm _ _ Em).
  - destruct (mapM (key_of n h) xs) as [ks|] eqn:Em; [|done]. by rewrite (Hm _ _ Em).
  - by rewrite Hw by congruence.
Qed.

(** ** The walk computes the order of the keys *)

Definition sums (ks : list okey) : nat := list_sum ((fun k => S (S (weight k))) <$> ks).

Lemma sums_cons k ks : sums (k :: ks) = S (S (weight k + sums ks)).
Proof. done. Qed.

(** What an element comparison at depth [n] answers. *)
Definition elem_spec (n : nat) (total : bool) (span : Span) : Prop :=
  forall fuel x y kx ky vm, key_of n (heap vm) x = Some kx -> key_of n (heap vm) y = Some ky ->
    alike kx ky = true -> (total = false -> nan_free kx && nan_free ky = true) -> (S (weight kx) <= fuel)%nat ->
    elem_order fuel x y total span vm = (ROk (Some (cmp kx ky)), vm).
Definition order_spec (n : nat) (span : Span) : Prop :=
  forall fuel x y kx ky vm, key_of n (heap vm) x = Some kx -> key_of n (heap vm) y = Some ky ->
    alike kx ky = true -> (weight kx <= fuel)%nat -> order_key fuel x y span vm = (ROk (cmp kx ky), vm).

Fixpoint alike_all (xs ys : list okey) : bool :=
  match xs, ys with x :: xs, y :: ys => alike x y && alike_all xs ys | _, _ => true end.

Lemma seq_elem_key n h v k xs ks i : seq_key n h v k xs ks -> seq_elem h v i = (length ks, xs !! i).
Proof. intros (r & -> & Em & [[Er _]|[Er _]]); unfold seq_elem; simpl; rewrite Er; f_equal; by eapply length_mapM. Qed.

Lemma walk_keys n total span fuel a b ka kb xs ys kxs kys i vm :
  elem_spec n total span ->
  seq_key n (heap vm) a ka xs kxs -> seq_key n (heap vm) b kb ys kys ->
  alike_all (drop i kxs) (drop i kys) = true ->
  (total = false -> forallb nan_free (drop i kxs) && forallb nan_free (drop i kys) = true) ->
  (i <= length kxs)%nat -> (i <= length kys)%nat -> (S (sums (drop i kxs)) <= fuel)%nat ->
  seq_walk fuel a b total span i vm = (ROk (Some (lex cmp (drop i kxs) (drop i kys))), vm).
Proof.
  intros Hel Ha Hb. revert i. induction fuel as [|fuel IH]; intros i Hal Hnf Hi1 Hi2 Hf; [lia|].
  cbn [Ordering.seq_walk]. rewrite (seq_elem_key _ _ _ _ _ _ _ Ha), (seq_elem_key _ _ _ _ _ _ _ Hb).
  pose proof Ha as (_ & _ & Mx & _). pose proof Hb as (_ & _ & My & _).
  apply mapM_Some_1 in Mx, My.
  destruct (kxs !! i) as [kx|] eqn:Ekx.
  - destruct (Forall2_lookup_r _ _ _ _ _ Mx Ekx) as (x & Ex & Kx). rewrite Ex.
    rewrite (drop_S _ _ _ Ekx) in *. destruct (kys !! i) as [ky|] eqn:Eky.
    + destruct (Forall2_lookup_r _ _ _ _ _ My Eky) as (y & Ey & Ky). rewrite Ey.
      rewrite (drop_S _ _ _ Eky) in *. cbn [alike_all] in Hal. apply andb_true_iff in Hal as [Hxy Hal].
      rewrite sums_cons in Hf.
      assert (Hn : total = false -> (nan_free kx && nan_free ky = true) /\
        forallb nan_free (drop (S i) kxs) && forallb nan_free (drop (S i) kys) = true).
      { intros Ht. specialize (Hnf Ht). simpl in Hnf. rewrite !andb_true_iff in *. tauto. }
      unfold bind. erewrite Hel; [|exact Kx|exact Ky|done|by intros; apply Hn|lia]. cbn [lex].
      destruct (cmp kx ky) eqn:Ec; [|done|done].
      apply IH; [done|by intros; apply Hn| | |lia]; apply lookup_lt_Some in Ekx, Eky; lia.
    + assert (ys !! i = None) as -> by (apply lookup_ge_None; rewrite (Forall2_length My); by apply lookup_ge_None).
      apply lookup_ge_None in Eky. rewrite (drop_ge kys) by done. cbn [lex].
      apply lookup_lt_Some in Ekx. by rewrite (proj2 (Nat.compare_gt_iff (length kxs) (length kys))) by lia.
  - assert (xs !! i = None) as -> by (apply lookup_ge_None; rewrite (Forall2_length Mx); by apply lookup_ge_None).
    apply lookup_ge_None in Ekx. rewrite (drop_ge kxs) by done.
    destruct (decide (i = length kys)) as [->|].
    + rewrite drop_ge by done. cbn [lex]. by rewrite (proj2 (Nat.compare_eq_iff (length kxs) (length kys))) by lia.
    + rewrite (proj2 (Nat.compare_lt_iff (length kxs) (length kys))) by lia.
      destruct (drop i kys) eqn:Ed; [|done]. apply (f_equal length) in Ed. rewrite length_drop in Ed. simpl in Ed. lia.
Qed.

Lemma alike_seq n h x y kx ky xs ys kxs kys : seq_key n h x kx xs kxs -> seq_key n h y ky ys kys ->
  alike kx ky = true -> seq_pair h x y = true /\ alike_all kxs kys = true /\ cmp kx ky = lex cmp kxs kys /\
  weight kx = S (S (sums kxs)) /\ (nan_free kx && nan_free ky = forallb nan_free kxs && forallb nan_free kys).
Proof.
  intros (r & -> & _ & Ex) (q & -> & _ & Ey) Ha. unfold seq_pair, seq_kind.
  destruct Ex as [[-> ->]|[-> ->]], Ey as [[-> ->]|[-> ->]]; try done; (split_and!; [done|exact Ha|done..]).
Qed.

Lemma key_scalar_seq n h x y kx ky xs ks : scalar h x kx -> seq_key n h y ky xs ks -> alike kx ky = false /\ alike ky kx = false.
Proof. intros (_ & _ & Cx) (q & -> & _ & [[_ ->]|[_ ->]]); by destruct kx. Qed.

(** The sequence case, from the elements one level down. *)
Lemma seq_spec n total span fuel x y kx ky xs ys kxs kys vm :
  elem_spec n total span -> seq_key n (heap vm) x kx xs kxs -> seq_key n (heap vm) y ky ys kys ->
  alike kx ky = true -> (total = false -> nan_free kx && nan_free ky = true) -> (weight kx <= S fuel)%nat ->
  with_roots [x; y] (seq_walk fuel x y total span 0) vm = (ROk (Some (cmp kx ky)), vm).
Proof.
  intros Hel Hx Hy Ha Hn Hw. destruct (alike_seq _ _ _ _ _ _ _ _ _ _ Hx Hy Ha) as (_ & Hal & -> & Ew & En).
  apply with_roots_pure. intros s. erewrite walk_keys; [|done|exact Hx|exact Hy|done|..]; rewrite ?drop_0; try done; try lia.
  intros Ht. rewrite <- En. by apply Hn.
Qed.

Lemma order_step n span : elem_spec n true span -> order_spec (S n) span.
Proof.
  intros Hel [|fuel] x y kx ky vm Kx Ky Ha Hw; [by destruct kx; simpl in Hw; lia|]. cbn [Ordering.order_key].
  apply key_cases in Kx as [Sx|(xs & kxs & Qx)], Ky as [Sy|(ys & kys & Qy)].
  - destruct (scalar_pair _ _ _ _ _ Sx Sy) as [-> ->].
    destruct (compare_scalars _ _ _ _ _ Sx Sy Ha) as [(a & n1 & b & n2 & -> & ->)|[-> ->]]; [|done].
    pose proof Sx as (_ & _ & -> & _). pose proof Sy as (_ & _ & -> & _). by apply order_floats.
  - destruct (key_scalar_seq _ _ _ _ _ _ _ _ Sx Qy). congruence.
  - destruct (key_scalar_seq _ _ _ _ _ _ _ _ Sy Qx). congruence.
  - destruct (alike_seq _ _ _ _ _ _ _ _ _ _ Qx Qy Ha) as (-> & _). unfold bind.
    by erewrite seq_spec; [|exact Hel|exact Qx|exact Qy|done..].
Qed.

Lemma elem_step n total span : order_spec (S n) span -> elem_spec n false span -> elem_spec (S n) total span.
Proof.
  intros Hord Hel [|fuel] x y kx ky vm Kx Ky Ha Hn Hw; [lia|]. cbn [Ordering.elem_order].
  destruct (decide (x = y)) as [->|Hne].
  { rewrite Kx in Ky. injection Ky as ->. unfold ret. by rewrite (ord_refl _ _ (kcmp_ordered ky)). }
  apply with_roots_pure. intros s. destruct total.
  { unfold bind, ret. by erewrite Hord; [|exact Kx|exact Ky|done|lia]. }
  specialize (Hn eq_refl). apply key_cases in Kx as [Sx|(xs & kxs & Qx)], Ky as [Sy|(ys & kys & Qy)]; cbn [heap set_stack].
  - destruct (scalar_pair _ _ _ _ _ Sx Sy) as [-> ->].
    destruct (compare_scalars _ _ _ _ _ Sx Sy Ha) as [(a & n1 & b & n2 & -> & ->)|[_ ->]]; [|done].
    apply andb_true_iff in Hn as [Na Nb]. rewrite (compare_floats _ _ _ _ _ _ _ Sx Sy); [done|by intros ->|by intros ->].
  - destruct (key_scalar_seq _ _ _ _ _ _ _ _ Sx Qy). congruence.
  - destruct (key_scalar_seq _ _ _ _ _ _ _ _ Sy Qx). congruence.
  - destruct (alike_seq _ _ _ _ _ _ _ _ _ _ Qx Qy Ha) as (-> & _).
    erewrite seq_spec; [done|exact Hel|exact Qx|exact Qy|done|done|lia].
Qed.

Lemma order_keys n span : order_spec n span /\ (forall total, elem_spec n total span).
Proof.
  induction n as [|n [IH1 IH2]]; [by split; [intros ? ? ? ? ? ? [=]|intros ? ? ? ? ? ? ? [=]]|].
  pose proof (order_step n span (IH2 true)) as Ho. split; [done|]. intros total. by apply elem_step.
Qed.

(** Elements of one type compare. *)
Lemma has_type_alike t : forall a b, has_type t a = true -> has_type t b = true -> alike a b = true.
Proof.
  revert t. fix IH 1. intros [| | | | |ts|t] a b; destruct a, b; try done; simpl.
  - revert ks0 ks. induction ts as [|t ts IHts]; intros [|k0 ks0] [|k ks]; try done.
    intros [H1 H2]%andb_true_iff [H3 H4]%andb_true_iff. apply andb_true_iff. split; [by apply (IH t)|by apply IHts].
  - revert ks0. induction ks as [|k ks IHks]; intros [|k0 ks0]; try done. simpl.
    intros [H1 H2]%andb_true_iff [H3 H4]%andb_true_iff. apply andb_true_iff. split; [by apply (IH t)|by apply IHks].
Qed.

Lemma order_key_answers n t fuel x y kx ky span vm :
  key_of n (heap vm) x = Some kx -> key_of n (heap vm) y = Some ky -> has_type t kx = true -> has_type t ky = true ->
  (weight kx <= fuel)%nat -> order_key fuel x y span vm = (ROk (cmp kx ky), vm).
Proof. intros Kx Ky Tx Ty Hf. by eapply order_keys; [| |eapply has_type_alike|]. Qed.

(** C32: the order behind [sort], [min], [max] and [compare] is a total preorder on values without
    records.  On two values of one type [order_key] answers it and leaves the state as it was.  Away
    from NaN it is the order of the operators; NaNs come by the sign and payload of their words, the
    negative ones before every number and the positive ones after. *)
Theorem order_key_total n t fuel x y kx ky span vm :
  key_of n (heap vm) x = Some kx -> key_of n (heap vm) y = Some ky -> has_type t kx = true -> has_type t ky = true ->
  (weight kx <= fuel)%nat ->
  order_key fuel x y span vm = (ROk (cmp kx ky), vm) /\ ordered cmp kx /\
  (nan_free kx && nan_free ky = true ->
   if seq_pair (heap vm) x y
   then seq_order type_name compare_hook missing_hook fuel x y false span vm = (ROk (Some (cmp kx ky)), vm)
   else compare (heap vm) x y = Some (cmp kx ky)) /\
  (forall f nf g ng, kx = KFloat f nf -> ky = KFloat g ng -> nan_place f nf g ng (cmp kx ky)).
Proof.
  intros Kx Ky Tx Ty Hf. pose proof (has_type_alike t _ _ Tx Ty) as Ha. destruct (order_keys n span) as [Ho He].
  split; [by eapply order_key_answers|]. split; [apply kcmp_ordered|].
  split; [|intros f nf g ng -> ->; apply key_float_ok in Kx as [Of Wf], Ky as [Og Wg]; by apply kcmp_nan].
  intros Hn. destruct n as [|n]; [done|].
  apply key_cases in Kx as [Sx|(xs & kxs & Qx)], Ky as [Sy|(ys & kys & Qy)].
  - destruct (scalar_pair _ _ _ _ _ Sx Sy) as [-> _].
    destruct (compare_scalars _ _ _ _ _ Sx Sy Ha) as [(a & n1 & b & n2 & -> & ->)|[_ ->]]; [|done].
    apply andb_true_iff in Hn as [Na Nb]. apply (compare_floats _ _ _ _ _ _ _ Sx Sy); [by intros ->|by intros ->].
  - destruct (key_scalar_seq _ _ _ _ _ _ _ _ Sx Qy). congruence.
  - destruct (key_scalar_seq _ _ _ _ _ _ _ _ Sy Qx). congruence.
  - destruct (alike_seq _ _ _ _ _ _ _ _ _ _ Qx Qy Ha) as (-> & _). unfold seq_order.
    destruct (order_keys n span) as [_ He']. eapply seq_spec; [apply He'|exact Qx|exact Qy|done|done|lia].
Qed.
End Keys.

(** Two pairs [(1, 2.0)] and [(1, NaN)] on a slab whose NaNs are negative at even addresses. *)
Module OrderDemo.
Definition slab : list Obj := [OFloatBox (F64.of_i64 2); OFloatBox S754_nan; OTuple [TInt 1; TFloat 0]; OTuple [TInt 1; TFloat 1]].
Definition vm : Vm (list Obj) := mkVm slab [] 0 [].
Definition quiet_nan (r : Z) : Z := (if Z.even r then 2 ^ 63 else 0) + 2047 * 2 ^ 52 + 2 ^ 51.
Lemma quiet_nan_ok r : is_nan_word (quiet_nan r).
Proof. unfold quiet_nan, is_nan_word. by destruct (Z.even r). Qed.
#[global] Instance slab_nans : NanWords (list Obj) :=
  {| nan_word h r := quiet_nan r; nan_word_ok h := quiet_nan_ok; nan_halloc h o r Hr := eq_refl |}.
Definition two : okey := KTuple [KInt 1; KFloat (F64.of_i64 2) (quiet_nan 0)].
Definition not_a_number : okey := KTuple [KInt 1; KFloat S754_nan (quiet_nan 1)].
Definition pair : ktype := TyTuple [TyInt; TyFloat].
Definition no_text (h : list Obj) (v : tagged) : string := "".
Definition no_compare (l r : tagged) (sp : Span) : M (list Obj) (option tagged) := ret None.
Definition no_hook (h : list Obj) (v : tagged) (sp : Span) : RuntimeError := vm_err "" sp.
End OrderDemo.

Lemma order_key_total_witness :
  key_of 2 (heap OrderDemo.vm) (TObj 2) = Some OrderDemo.two /\ key_of 2 (heap OrderDemo.vm) (TObj 3) = Some OrderDemo.not_a_number /\
  let run := order_key OrderDemo.no_text OrderDemo.no_compare OrderDemo.no_hook 9 (TObj 2) (TObj 3) (mkSpan 0 0 0) in
  run OrderDemo.vm = (ROk Lt, OrderDemo.vm) /\ ordered kcmp OrderDemo.two.
Proof.
  split; [vm_compute; reflexivity|]. split; [vm_compute; reflexivity|].
  destruct (order_key_total OrderDemo.no_text OrderDemo.no_compare OrderDemo.no_hook 2 OrderDemo.pair 9
    (TObj 2) (TObj 3) OrderDemo.two OrderDemo.not_a_number (mkSpan 0 0 0) OrderDemo.vm) as (Er & Eo & _).
  - vm_compute. reflexivity.
  - vm_compute. reflexivity.
  - reflexivity.
  - reflexivity.
  - simpl. lia.
  - split; [exact Er|exact Eo].
Defined.
