(* ===== verification/Reentry.v ===== *)
(** * Natives that re-enter the interpreter: list objects, roots and callbacks

    The list primitives, [guarded] ([src/src/vm/exec.rs]) and [alloc_enum]
    ([src/src/vm/json_decode.rs]) that the list methods of [src/src/vm/list_hof.rs] are written with,
    over the machine of [Arith].  The interpreter behind [invoke_value] is not modelled: a callback
    is any function on machine states that keeps the contract [reentrant].  It may run any code, so
    it may write every object the program can name; what it cannot name, a handle that only the
    native's own slots of the operand stack hold ([private]), it leaves alone.

    [wp] is the calculus the theorems about natives are proved in, and [quiet] says that between
    two callbacks a native writes only the objects it allocated itself. *)

From stdpp Require Import strings sets.
From S2P Require Import Prelude Consteval Value Arith.
Local Open Scope chz_scope.

(** ** The heap, with stores *)
Class HeapStore (H : Type) := { hset : H -> Z -> Obj -> H }.

(** The objects an object of this model names.  Sets, maps and the rest are behind [OSet] and
    [OOther]. *)
Definition obj_values (o : Obj) : list tagged :=
  match o with OList xs | OTuple xs | OStruct _ xs | OEnum _ xs => xs | _ => [] end.

(** [private h r]: the program cannot name [r]; no object holds it, nor any root but the native's. *)
Class StoreLaws (H : Type) {ops : HeapOps H} {sto : HeapStore H} (private : H -> Z -> Prop) := {
  hset_get : forall h r o, hget h r <> None -> hget (hset h r o) r = Some o;
  hset_other : forall h r o q, q <> r -> hget (hset h r o) q = hget h q;
  private_unnamed : forall h r q o, private h r -> hget h q = Some o -> TObj r ∉ obj_values o;
  private_new : forall h o, TObj (halloc h o).2 ∉ obj_values o -> private (halloc h o).1 (halloc h o).2;
  private_halloc : forall h o r, private h r -> TObj r ∉ obj_values o -> private (halloc h o).1 r;
  private_hset : forall h q o r, private h r -> TObj r ∉ obj_values o -> private (hset h q o) r;
}.

(** ** List primitives *)
Section Lists.
Context {H : Type} `{HeapLaws H} `{HeapStore H}.

(** [heap.get(r).as_list()], with [unreachable!] on another object. *)
Definition list_at (r : Z) : M H (list tagged) := fun vm =>
  match hget (heap vm) r with Some (OList xs) => (ROk xs, vm) | _ => (RPanic, vm) end.
(** [RVec::get] panics out of range. *)
Definition list_get (r : Z) (i : nat) : M H tagged := fun vm =>
  match hget (heap vm) r with
  | Some (OList xs) => match xs !! i with Some v => (ROk v, vm) | None => (RPanic, vm) end
  | _ => (RPanic, vm)
  end.
(** [heap.write(r)] panics on a dangling handle; an object of another kind is left alone. *)
Definition list_write (r : Z) (f : list tagged -> list tagged) : M H unit := fun vm =>
  match hget (heap vm) r with
  | Some (OList xs) => (ROk tt, set_heap vm (hset (heap vm) r (OList (f xs))))
  | Some _ => (ROk tt, vm)
  | None => (RPanic, vm)
  end.
Definition list_push (r : Z) (v : tagged) : M H unit := list_write r (fun xs => xs ++ [v]).
Definition list_replace (r : Z) (ys : list tagged) : M H unit := list_write r (fun _ => ys).

Fixpoint pops (n : nat) : M H unit := match n with O => ret tt | S n => pop ;;; pops n end.
(** [self.stack[i]], read and written. *)
Definition stack_get (i : nat) : M H tagged := fun vm =>
  match stack vm !! i with Some v => (ROk v, vm) | None => (RPanic, vm) end.
Definition stack_set (i : nat) (v : tagged) : M H unit := fun vm =>
  if (i <? length (stack vm))%nat then (ROk tt, set_stack vm (<[i := v]> (stack vm))) else (RPanic, vm).

Definition VID_SOME : Z := 2.
Definition VID_NONE_VARIANT : Z := 3.
(** [alloc_enum("Option", ..)]. *)
Definition alloc_option (v : option tagged) : M H tagged :=
  r <- alloc (match v with Some v => OEnum VID_SOME [v] | None => OEnum VID_NONE_VARIANT [] end) ;; ret (TObj r).

(** The first lines of every native here: root the receiver, snapshot it, root the snapshot. *)
Definition snapshot (src : Z) : M H Z :=
  push (TObj src) ;;; elems <- list_at src ;; snap <- alloc (OList elems) ;; push (TObj snap) ;;; ret snap.

(** A [for] loop over [0..n] that may [break]. *)
Inductive flow (S : Type) := Continue (s : S) | Break (s : S).
Arguments Continue {S} s.
Arguments Break {S} s.
Fixpoint for_range {S} (idx : list nat) (s : S) (body : nat -> S -> M H (flow S)) : M H S :=
  match idx with
  | [] => ret s
  | i :: idx => c <- body i s ;; match c with Continue s => for_range idx s body | Break s => ret s end
  end.

(** [self.guarded(|vm| vm.invoke_value(f, args, span))]: the halt checkpoint, then the call. *)
Definition guarded {A} (checkpoint : M H unit) (f : M H A) : M H A := checkpoint ;;; f.
End Lists.
Arguments Continue {S} s.
Arguments Break {S} s.

(** ** Postconditions of runs: the third outcome, a panic, has none *)
Section Wp.
Context {H : Type}.
Implicit Types (vm : Vm H).

Definition wp {A} (m : M H A) (Q : A -> Vm H -> Prop) (E : RuntimeError -> Vm H -> Prop) vm : Prop :=
  match m vm with (ROk a, vm) => Q a vm | (RErr e, vm) => E e vm | (RPanic, _) => False end.

Lemma vwp_mono {A} (m : M H A) (Q Q' : A -> Vm H -> Prop) (E E' : RuntimeError -> Vm H -> Prop) vm :
  wp m Q E vm -> (forall a v, Q a v -> Q' a v) -> (forall e v, E e v -> E' e v) -> wp m Q' E' vm.
Proof. unfold wp. destruct (m vm) as [[]]; auto. Qed.
Lemma vwp_ret {A} (a : A) (Q : A -> Vm H -> Prop) (E : RuntimeError -> Vm H -> Prop) vm : Q a vm -> wp (ret a) Q E vm.
Proof. done. Qed.
Lemma vwp_bind {A B} (m : M H A) (k : A -> M H B) Q E vm :
  wp m (fun a v => wp (k a) Q E v) E vm -> wp (bind m k) Q E vm.
Proof. unfold wp, bind. by destruct (m vm) as [[]]. Qed.
(** The run itself, beside what is known of it. *)
Lemma wp_run {A} (m : M H A) (Q : A -> Vm H -> Prop) (E : RuntimeError -> Vm H -> Prop) vm :
  wp m Q E vm -> wp m (fun a v => Q a v /\ m vm = (ROk a, v)) (fun e v => E e v /\ m vm = (RErr e, v)) vm.
Proof. unfold wp. by destruct (m vm) as [[]]. Qed.
Lemma wp_eq {A} (m : M H A) r vm v (Q : A -> Vm H -> Prop) (E : RuntimeError -> Vm H -> Prop) :
  m vm = (ROk r, v) -> Q r v -> wp m Q E vm.
Proof. unfold wp. by intros ->. Qed.
Lemma wp_push x (Q : unit -> Vm H -> Prop) (E : RuntimeError -> Vm H -> Prop) vm :
  Q tt (set_stack vm (stack vm ++ [x])) -> wp (push x) Q E vm.
Proof. done. Qed.
Lemma wp_pop s x (Q : tagged -> Vm H -> Prop) (E : RuntimeError -> Vm H -> Prop) vm :
  stack vm = s ++ [x] -> Q x (set_stack vm s) -> wp pop Q E vm.
Proof. intros Es HQ. unfold wp, pop. rewrite Es, vec_pop_snoc. done. Qed.
Lemma wp_pops s xs (Q : unit -> Vm H -> Prop) (E : RuntimeError -> Vm H -> Prop) vm :
  stack vm = s ++ xs -> Q tt (set_stack vm s) -> wp (pops (length xs)) Q E vm.
Proof.
  revert vm. induction xs as [|x xs IH] using rev_ind; intros vm Es HQ.
  - simpl. apply vwp_ret. rewrite app_nil_r in Es. subst s. by destruct vm.
  - rewrite length_app, Nat.add_comm. simpl. apply vwp_bind. eapply wp_pop; [by rewrite Es, (assoc_L (++))|].
    apply IH; [done|]. by destruct vm.
Qed.

(** A loop keeps an invariant of the index. *)
Lemma wp_for_range {S} (Inv : nat -> S -> Vm H -> Prop) (Out : S -> Vm H -> Prop) E (body : nat -> S -> M H (flow S)) n i k s vm :
  (i + k = n)%nat -> Inv i s vm ->
  (forall i s vm, (i < n)%nat -> Inv i s vm ->
     wp (body i s) (fun c v => match c with Continue s => Inv (Datatypes.S i) s v | Break s => Out s v end) E vm) ->
  (forall s vm, Inv n s vm -> Out s vm) ->
  wp (for_range (seq i k) s body) Out E vm.
Proof.
  revert i s vm. induction k as [|k IH]; intros i s vm Hn HI Hb Ho; simpl.
  - apply vwp_ret, Ho. by replace n with i by lia.
  - apply vwp_bind. eapply vwp_mono; [apply Hb; [lia|done]| |done].
    intros [s'|s'] v Hv; [|done]. apply IH; [lia|done|done|done].
Qed.
End Wp.

(** ** Callbacks *)
Section Contract.
Context {H : Type} {ops : HeapOps H} {hlaws : HeapLaws H} {sto : HeapStore H}.
Context {private : H -> Z -> Prop} {slaws : StoreLaws H private}.
Implicit Types (vm : Vm H).

(** A run of the interpreter that was handed the values [named] and hands back [out a]: it returns or
    raises, pops what it pushed, frees nothing the stack roots and turns no list into another object,
    and neither changes, stores nor hands back an object the program could not name before. *)
Record reentrant {A} (named : list tagged) (out : A -> list tagged) (m : M H A) : Prop := {
  re_runs : forall vm, (m vm).1 <> RPanic;
  re_stack : forall vm, stack (m vm).2 = stack vm;
  re_list : forall vm r xs, TObj r ∈ stack vm -> hget (heap vm) r = Some (OList xs) ->
    exists ys, hget (heap (m vm).2) r = Some (OList ys);
  re_private : forall vm r, private (heap vm) r -> TObj r ∈ stack vm -> TObj r ∉ named ->
    hget (heap (m vm).2) r = hget (heap vm) r /\ private (heap (m vm).2) r /\
    forall a, (m vm).1 = ROk a -> TObj r ∉ out a;
}.

Lemma reentrant_seq {A B} named (o1 : A -> list tagged) (o2 : B -> list tagged) m1 m2 :
  reentrant [] o1 m1 -> reentrant named o2 m2 -> reentrant named o2 (m1 ;;; m2).
Proof.
  intros [N1 S1 L1 P1] [N2 S2 L2 P2]. split; intros vm; unfold bind.
  - specialize (N1 vm). by destruct (m1 vm) as [[] v].
  - specialize (S1 vm). destruct (m1 vm) as [[] v]; simpl in *; try done. by rewrite S2.
  - intros r xs Hr Hg. specialize (S1 vm). destruct (L1 vm r xs Hr Hg) as [ys Hy].
    destruct (m1 vm) as [[] v]; simpl in *; eauto. eapply L2; [by rewrite S1|done].
  - intros r Hp Hr Hn. specialize (S1 vm). destruct (P1 vm r Hp Hr (not_elem_of_nil _)) as (E1 & Hp1 & _).
    destruct (m1 vm) as [[] v]; simpl in *; try done. rewrite <- E1. apply P2; [done|by rewrite S1|done].
Qed.

(** Between two callbacks a native leaves alone what it did not allocate. *)
Definition quiet (ps : list Z) vm vm' : Prop :=
  forall r, r ∉ ps -> hget (heap vm) r <> None -> hget (heap vm') r = hget (heap vm) r.
Lemma quiet_refl ps vm : quiet ps vm vm.
Proof. done. Qed.
Lemma quiet_trans ps v1 v2 v3 : quiet ps v1 v2 -> quiet ps v2 v3 -> quiet ps v1 v3.
Proof. intros Q1 Q2 r Hr Hl. rewrite Q2; [by apply Q1|done|by rewrite Q1]. Qed.
Lemma quiet_mono ps ps' vm vm' : quiet ps vm vm' -> ps ⊆ ps' -> quiet ps' vm vm'.
Proof. intros Q Hs r Hr. apply Q. intros ?%Hs. done. Qed.
Lemma quiet_fresh ps vm vm' r : quiet ps vm vm' -> r ∉ ps -> hget (heap vm') r = None -> hget (heap vm) r = None.
Proof.
  intros Q Hr E. destruct (hget (heap vm) r) eqn:El; [|done]. rewrite (Q r Hr) in E by congruence. congruence.
Qed.
Lemma quiet_stack ps vm s : quiet ps vm (set_stack vm s).
Proof. done. Qed.

(** ** The state of a native

    Over the stack of its caller stand the receiver [src], the handles of the lists it allocated
    ([mine], with their items) and whatever else it roots ([extra]). *)
Record native (vm0 : Vm H) (src : Z) (mine : list (Z * list tagged)) (extra : list tagged) vm : Prop := {
  nat_stack : stack vm = stack vm0 ++ TObj src :: ((fun p => TObj p.1) <$> mine) ++ extra;
  nat_src : exists xs, hget (heap vm) src = Some (OList xs);
  nat_mine : forall r xs, (r, xs) ∈ mine -> hget (heap vm) r = Some (OList xs) /\ private (heap vm) r;
  nat_distinct : NoDup (src :: mine.*1);
}.

Definition foreign (mine : list (Z * list tagged)) (v : tagged) : Prop := forall r, r ∈ mine.*1 -> v <> TObj r.

(** The items of a list are none of the native's own. *)
Lemma native_items vm0 src mine extra vm r xs x :
  native vm0 src mine extra vm -> (r, xs) ∈ mine -> x ∈ xs -> foreign mine x.
Proof.
  intros [_ _ Hm _] Hr Hx p (ys & -> & Hp)%list_elem_of_fmap ->. destruct ys as [p ys].
  destruct (Hm r xs Hr) as [Er _], (Hm p ys Hp) as [_ Pp]. by apply (private_unnamed _ _ _ _ Pp Er).
Qed.

Lemma native_call {A} vm0 src mine extra named (out : A -> list tagged) m vm :
  reentrant named out m -> native vm0 src mine extra vm -> (forall v, v ∈ named -> foreign mine v) ->
  wp m (fun a v => native vm0 src mine extra v /\ (forall x, x ∈ out a -> foreign mine x))
       (fun e v => native vm0 src mine extra v) vm.
Proof.
  intros [N S' L P] [Es [xs Hs] Hm Hd] Hf.
  assert (Hst : forall r ys, (r, ys) ∈ mine -> TObj r ∈ stack vm).
  { intros r ys Hr. rewrite Es, elem_of_app, elem_of_cons, elem_of_app. right. right. left.
    apply list_elem_of_fmap. by exists (r, ys). }
  assert (Hn : native vm0 src mine extra (m vm).2).
  { split; [by rewrite S'| | |done].
    - eapply L, Hs. rewrite Es, elem_of_app, elem_of_cons. auto.
    - intros r ys Hr. destruct (Hm r ys Hr) as [Eg Pg]. destruct (P vm r Pg (Hst r ys Hr)) as (E & Pr & _).
      + intros Hi. eapply (Hf _ Hi r); [apply list_elem_of_fmap; by exists (r, ys)|done].
      + by rewrite E. }
  assert (Ho : forall a, (m vm).1 = ROk a -> forall x, x ∈ out a -> foreign mine x).
  { intros a Ea x Hx r ([r' ys] & -> & Hr)%list_elem_of_fmap ->. destruct (Hm r' ys Hr) as [_ Pg].
    destruct (P vm r' Pg (Hst r' ys Hr)) as (_ & _ & Ho); [|by eapply Ho].
    intros Hi. eapply (Hf _ Hi r'); [apply list_elem_of_fmap; by exists (r', ys)|done]. }
  specialize (N vm). unfold wp. destruct (m vm) as [[a|e|] v]; simpl in *; [by split; [|apply Ho]|done|done].
Qed.

(** *** The native's own steps *)
Lemma native_get vm0 src mine extra vm r xs i x (Q : tagged -> Vm H -> Prop) (E : RuntimeError -> Vm H -> Prop) :
  native vm0 src mine extra vm -> (r, xs) ∈ mine -> xs !! i = Some x -> Q x vm -> wp (list_get r i) Q E vm.
Proof. intros [_ _ Hm _] Hr Hi HQ. destruct (Hm r xs Hr) as [Er _]. unfold wp, list_get. by rewrite Er, Hi. Qed.

Lemma native_list_at vm0 src mine extra vm r xs (Q : list tagged -> Vm H -> Prop) (E : RuntimeError -> Vm H -> Prop) :
  native vm0 src mine extra vm -> (r, xs) ∈ mine -> Q xs vm -> wp (list_at r) Q E vm.
Proof. intros [_ _ Hm _] Hr HQ. destruct (Hm r xs Hr) as [Er _]. unfold wp, list_at. by rewrite Er. Qed.

(** A write to the last list the native allocated. *)
Lemma native_write vm0 src mine extra vm r xs f (Q : unit -> Vm H -> Prop) (E : RuntimeError -> Vm H -> Prop) :
  native vm0 src (mine ++ [(r, xs)]) extra vm -> (forall x, x ∈ f xs -> foreign (mine ++ [(r, xs)]) x) ->
  (forall v, native vm0 src (mine ++ [(r, f xs)]) extra v -> quiet [r] vm v -> stack v = stack vm -> Q tt v) ->
  wp (list_write r f) Q E vm.
Proof.
  intros [Es [ys Hs] Hm Hd] Hf HQ. assert (Hin : (r, xs) ∈ mine ++ [(r, xs)]) by (rewrite elem_of_app; right; by left).
  destruct (Hm r xs Hin) as [Er Pr]. unfold wp, list_write. rewrite Er. apply HQ; [|intros q Hq _; apply hset_other; intros ->; apply Hq; by left|done].
  rewrite fmap_app in Hd. simpl in Hd. apply list.NoDup_cons in Hd as [Hsr Hd].
  assert (Hrm : r ∉ mine.*1).
  { apply list.NoDup_app in Hd as (_ & Hd & _). intros Hi. apply (Hd r Hi). by left. }
  assert (Hpriv : forall p zs, (p, zs) ∈ mine ++ [(r, xs)] -> private (hset (heap vm) r (OList (f xs))) p).
  { intros p zs Hp. apply private_hset; [by apply (Hm p zs)|]. intros Hx. eapply (Hf _ Hx p); [|done].
    apply list_elem_of_fmap. by exists (p, zs). }
  split; simpl.
  - rewrite Es, !fmap_app. done.
  - exists ys. rewrite hset_other; [done|]. intros ->. apply Hsr. rewrite elem_of_app. right. by left.
  - intros p zs [Hp|Hp]%elem_of_app.
    + assert (Hp' : (p, zs) ∈ mine ++ [(r, xs)]) by (rewrite elem_of_app; by left).
      split; [|by eapply Hpriv]. rewrite hset_other; [by apply Hm|]. intros ->. apply Hrm, list_elem_of_fmap. by exists (r, zs).
    + apply list_elem_of_singleton in Hp as [= -> ->]. split; [apply hset_get; by rewrite Er|by eapply Hpriv].
  - rewrite fmap_app. simpl. by apply list.NoDup_cons.
Qed.

(** Allocating a list and rooting it: the new one holds nothing of the native's. *)
Lemma native_alloc vm0 src mine vm xs (Q : Z -> Vm H -> Prop) (E : RuntimeError -> Vm H -> Prop) :
  native vm0 src mine [] vm -> (forall x, x ∈ xs -> foreign mine x /\ forall r, x = TObj r -> hget (heap vm) r <> None) ->
  (forall r v, native vm0 src (mine ++ [(r, xs)]) [] v -> hget (heap vm) r = None -> quiet [] vm v ->
    Q r v) ->
  wp (r <- alloc (OList xs) ;; push (TObj r) ;;; ret r) Q E vm.
Proof.
  intros [Es [ys Hs] Hm Hd] Hx HQ. apply vwp_bind. unfold wp at 1, alloc.
  destruct (halloc (heap vm) (OList xs)) as [h r] eqn:Ea.
  pose proof (halloc_get (heap vm) (OList xs)) as G. pose proof (halloc_fresh (heap vm) (OList xs)) as F.
  pose proof (halloc_other (heap vm) (OList xs)) as O. pose proof (halloc_live (heap vm) (OList xs)) as L.
  pose proof (private_new (heap vm) (OList xs)) as PN. pose proof (private_halloc (heap vm) (OList xs)) as PO.
  rewrite Ea in *. simpl in *. apply vwp_bind, wp_push, vwp_ret. apply HQ; [|done|].
  - split; simpl.
    + rewrite Es, fmap_app, !app_nil_r, <- (assoc_L (++)). done.
    + exists ys. by apply L.
    + intros p zs [Hp|Hp]%elem_of_app.
      * destruct (Hm p zs Hp) as [Ep Pp]. split; [by apply L|]. apply PO; [done|]. intros Hi.
        destruct (Hx _ Hi) as [Hf _]. apply (Hf p); [apply list_elem_of_fmap; by exists (p, zs)|done].
      * apply list_elem_of_singleton in Hp as [= -> ->]. split; [done|]. apply PN. intros Hi.
        destruct (Hx _ Hi) as [_ Hl]. by apply (Hl r).
    + rewrite fmap_app. simpl. rewrite app_comm_cons. apply list.NoDup_app. split; [done|]. split; [|apply NoDup_singleton].
      intros p Hp ->%list_elem_of_singleton. apply elem_of_cons in Hp as [->|([p zs] & -> & Hp)%list_elem_of_fmap]; [congruence|].
      destruct (Hm p zs Hp) as [Ep _]. simpl in *. congruence.
  - intros p _ Hp. apply O. intros ->. done.
Qed.

(** A live receiver whose items are live. *)
Definition live_list (h : H) (src : Z) (elems : list tagged) : Prop :=
  hget h src = Some (OList elems) /\ forall r, TObj r ∈ elems -> hget h r <> None.

Lemma native_snapshot vm0 src elems (Q : Z -> Vm H -> Prop) (E : RuntimeError -> Vm H -> Prop) :
  live_list (heap vm0) src elems ->
  (forall r v, native vm0 src [(r, elems)] [] v -> hget (heap vm0) r = None -> quiet [] vm0 v -> Q r v) ->
  wp (snapshot src) Q E vm0.
Proof.
  intros [Hs Hl] HQ. unfold snapshot. apply vwp_bind, wp_push, vwp_bind. unfold wp at 1, list_at. simpl. rewrite Hs.
  apply (native_alloc vm0 src []).
  - split; simpl; [done|by exists elems|by intros ? ? ?%elem_of_nil|]. apply NoDup_singleton.
  - intros x Hx. split; [by intros r ?%elem_of_nil|]. intros r ->. by apply Hl.
  - intros r v Hn Hr Hq. by apply HQ.
Qed.

(** One more root, read and replaced in place, and taken off again. *)
Lemma native_stack vm0 src mine extra extra' vm :
  native vm0 src mine extra vm ->
  native vm0 src mine extra' (set_stack vm (stack vm0 ++ TObj src :: ((fun p => TObj p.1) <$> mine) ++ extra')).
Proof. intros [_ Hs Hm Hd]. by split. Qed.
Lemma native_top vm0 src mine x vm : native vm0 src mine [x] vm ->
  exists s, stack vm = s ++ [x] /\ length s = (length (stack vm0) + S (length mine))%nat /\
    forall extra, stack vm0 ++ TObj src :: ((fun p => TObj p.1) <$> mine) ++ extra = s ++ extra.
Proof.
  intros [Es _ _ _]. exists (stack vm0 ++ TObj src :: ((fun p => TObj p.1) <$> mine)).
  split; [by rewrite Es, <- (assoc_L (++))|]. split; [by rewrite length_app; simpl; rewrite length_fmap|].
  intros extra. by rewrite <- (assoc_L (++)).
Qed.

Lemma wp_alloc_option o vm (Q : tagged -> Vm H -> Prop) (E : RuntimeError -> Vm H -> Prop) :
  (forall r v, hget (heap v) r = Some (match o with Some w => OEnum VID_SOME [w] | None => OEnum VID_NONE_VARIANT [] end) ->
    quiet [] vm v -> stack v = stack vm -> Q (TObj r) v) -> wp (alloc_option o) Q E vm.
Proof.
  intros HQ. unfold alloc_option. set (obj := match o with Some w => _ | None => _ end) in *. apply vwp_bind. unfold wp at 1, alloc.
  pose proof (halloc_get (heap vm) obj) as G. pose proof (halloc_fresh (heap vm) obj) as F.
  pose proof (halloc_other (heap vm) obj) as O. destruct (halloc (heap vm) obj) as [h r]. simpl in *.
  apply vwp_ret, HQ; [done| |done]. intros p _ Hp. apply O. intros ->. done.
Qed.

(** Leaving: the roots come off and the caller's stack is as it was. *)
Lemma native_leave vm0 src mine vm (Q : unit -> Vm H -> Prop) (E : RuntimeError -> Vm H -> Prop) n :
  native vm0 src mine [] vm -> n = S (length mine) ->
  Q tt (set_stack vm (stack vm0)) -> wp (pops n) Q E vm.
Proof.
  intros [Es _ _ _] -> HQ. rewrite app_nil_r in Es.
  replace (S (length mine)) with (length (TObj src :: ((fun p => TObj p.1) <$> mine))) by (simpl; by rewrite length_fmap).
  by eapply wp_pops.
Qed.
End Contract.

(** ** A heap and an interpreter that keep the promises *)
Module ReentryDemo.
Record store := mkStore { globals : list Z; objs : list (Z * Obj) }.
Definition named (o : Obj) : list Z := omap (fun v => match v with TObj r => Some r | _ => None end) (obj_values o).
Fixpoint assoc (l : list (Z * Obj)) (r : Z) : option Obj :=
  match l with [] => None | (q, o) :: l => if (q =? r)%Z then Some o else assoc l r end.
Definition top (l : list Z) : Z := foldr Z.max 0%Z l.
Definition used (h : store) : list Z := globals h ++ (objs h).*1 ++ (objs h ≫= (fun p => named p.2)).
Definition fresh (h : store) (o : Obj) : Z := (1 + top (used h ++ named o))%Z.

#[global] Instance demo_ops : HeapOps store := {
  hget h r := assoc (objs h) r;
  halloc h o := (mkStore (globals h) ((fresh h o, o) :: objs h), fresh h o);
}.
#[global] Instance demo_store : HeapStore store := { hset h r o := mkStore (globals h) ((r, o) :: objs h) }.
Definition private (h : store) (r : Z) : Prop := r ∉ globals h /\ forall q o, hget h q = Some o -> TObj r ∉ obj_values o.

Lemma top_bound l r : r ∈ l -> (r <= top l)%Z.
Proof. induction l as [|x l IH]; [by intros ?%elem_of_nil|]. simpl. intros [->|Hr]%elem_of_cons; [lia|]. specialize (IH Hr). lia. Qed.
Lemma assoc_in l r o : assoc l r = Some o -> (r, o) ∈ l.
Proof.
  induction l as [|[q p] l IH]; [done|]. simpl. destruct (Z.eqb_spec q r) as [->|]; [intros [= ->]; by left|].
  intros E. right. by apply IH.
Qed.
Lemma named_in r o : TObj r ∈ obj_values o -> r ∈ named o.
Proof. intros Hr. apply list_elem_of_omap. by exists (TObj r). Qed.
Lemma fresh_new h o : hget h (fresh h o) = None /\ (fresh h o ∉ globals h) /\
  forall q o', hget h q = Some o' -> TObj (fresh h o) ∉ obj_values o'.
Proof.
  assert (Hb : forall r, r ∈ used h -> (r < fresh h o)%Z).
  { intros r Hr. pose proof (top_bound (used h ++ named o) r) as Ht. unfold fresh. rewrite elem_of_app in Ht. specialize (Ht (or_introl Hr)). lia. }
  split; [|split].
  - destruct (hget h (fresh h o)) as [p|] eqn:E; [|done]. apply assoc_in in E. assert (fresh h o < fresh h o)%Z; [|lia].
    apply Hb. unfold used. rewrite !elem_of_app. right. left. apply list_elem_of_fmap. by exists (fresh h o, p).
  - intros Hi. assert (fresh h o < fresh h o)%Z; [|lia]. apply Hb. unfold used. rewrite elem_of_app. by left.
  - intros q o' E Hi%named_in. apply assoc_in in E. assert (fresh h o < fresh h o)%Z; [|lia]. apply Hb. unfold used.
    rewrite !elem_of_app. right. right. apply list_elem_of_bind. by exists (q, o').
Qed.

Lemma assoc_cons r o l q : assoc ((r, o) :: l) q = if (r =? q)%Z then Some o else assoc l q.
Proof. done. Qed.

#[global] Instance demo_laws : HeapLaws store.
Proof.
  split; intros h o; cbn [halloc hget demo_ops fst snd objs].
  - by rewrite assoc_cons, Z.eqb_refl.
  - apply (fresh_new h o).
  - intros r Hr. rewrite assoc_cons. destruct (Z.eqb_spec (fresh h o) r); [congruence|done].
Qed.

Lemma private_cons h r q o : private h r -> TObj r ∉ obj_values o -> private (mkStore (globals h) ((q, o) :: objs h)) r.
Proof.
  intros [Hg Hp] Ho. split; [done|]. intros q' o'. cbn [hget demo_ops objs]. rewrite assoc_cons.
  destruct (q =? q')%Z; [by intros [= <-]|apply Hp].
Qed.

#[global] Instance demo_store_laws : StoreLaws store private.
Proof.
  split.
  - intros h r o _. cbn [hget hset demo_ops demo_store objs]. by rewrite assoc_cons, Z.eqb_refl.
  - intros h r o q Hq. cbn [hget hset demo_ops demo_store objs]. rewrite assoc_cons. destruct (Z.eqb_spec r q); [congruence|done].
  - intros h r q o [_ Hp]. apply Hp.
  - intros h o Ho. destruct (fresh_new h o) as (_ & Hg & Hp). by apply private_cons.
  - intros h o r Hr Ho. by apply private_cons.
  - intros h q o r Hr Ho. by apply private_cons.
Qed.

(** A callback that empties the first global list and answers whether its argument is above 1; with
    two arguments it is a comparator. *)
Definition clear_global : M store unit := fun vm =>
  match globals (heap vm) with
  | g :: _ => match hget (heap vm) g with
              | Some (OList _) => (ROk tt, set_heap vm (hset (heap vm) g (OList [])))
              | _ => (ROk tt, vm)
              end
  | [] => (ROk tt, vm)
  end.
Definition invoke (f : tagged) (args : list tagged) (span : Span) : M store tagged :=
  match args with
  | [TInt a; TInt b] => ret (TInt (a - b))
  | [TInt n] => clear_global ;;; ret (TBool (1 <? n)%Z)
  | _ => throw (vm_err "not callable" span)
  end.
Definition no_halt : M store unit := ret tt.

Lemma reentrant_pure {A} args (out : A -> list tagged) r :
  r <> RPanic -> (forall p a, TObj p ∉ args -> r = ROk a -> TObj p ∉ out a) -> reentrant (private := private) args out (fun vm => (r, vm)).
Proof. intros Hr Ho. split; [done|done|by intros vm p xs _ E; exists xs|]. intros vm p Hp _ Hn. split; [done|]. split; [done|]. intros a. by apply Ho. Qed.

Lemma no_halt_reentrant : reentrant (private := private) [] (fun _ => []) no_halt.
Proof. apply reentrant_pure; [done|]. intros ? ? _ _. apply not_elem_of_nil. Qed.

Lemma clear_global_reentrant : reentrant (private := private) [] (fun _ => []) clear_global.
Proof.
  split; intros vm; unfold clear_global; (destruct (globals (heap vm)) as [|g gs] eqn:Eg; [|destruct (hget (heap vm) g) as [o|] eqn:Eo; [destruct o|]]);
    try done; try (by intros p ws _ E; exists ws); try (intros p Hp _ _; (split; [done|]); (split; [done|]); intros; apply not_elem_of_nil).
  - intros p ys _ Ep. cbn [snd heap set_heap]. destruct (decide (p = g)) as [->|Hne].
    + exists []. by apply hset_get; rewrite Eo.
    + exists ys. by rewrite hset_other.
  - intros p [Hg Hp] _ _. cbn [snd heap set_heap]. split; [|split; [|intros; apply not_elem_of_nil]].
    + apply hset_other. intros ->. apply Hg. rewrite Eg. by left.
    + by apply private_cons; [|apply not_elem_of_nil].
Qed.

Lemma invoke_reentrant span f args : reentrant (private := private) (f :: args) (fun v => [v]) (invoke f args span).
Proof.
  destruct args as [|x [|y [|z zs]]]; try (by apply reentrant_pure).
  - destruct x as [n| | | | |]; try (by apply reentrant_pure). eapply reentrant_seq; [apply clear_global_reentrant|].
    apply reentrant_pure; [done|]. intros p a _ [= <-]. by intros ?%list_elem_of_singleton.
  - destruct x as [a| | | | |]; try (by apply reentrant_pure); destruct y as [b| | | | |]; try (by apply reentrant_pure).
    apply reentrant_pure; [done|]. intros p v _ [= <-]. by intros ?%list_elem_of_singleton.
  - destruct x, y; by apply reentrant_pure.
Qed.

(** Slot 5 holds the list [3, 1, 2], and the program can name it. *)
Definition vm : Vm store := mkVm (mkStore [5%Z] [(5%Z, OList [TInt 3; TInt 1; TInt 2])]) [] 0 [].
Definition span : Span := mkSpan 0 0 0.
End ReentryDemo.
