(* ===== verification/ListHof.v ===== *)
(** * The higher-order list methods: [list_hof] of [src/src/vm/list_hof.rs]

    [map], [filter], [fold], [take_while], [drop_while], [count] and [position] as the source writes
    them: snapshot the receiver, root what is held across a callback, loop over the snapshot.  The
    specification [hof_next] is a function of the elements at the call and of the answers so far:
    which call comes next, or what the method returns.  The theorem says that a run is exactly the
    calls the specification asks for, whatever the callback does to the receiver.  A fault of the
    callback returns before the pops, as the source's [?] does: the native's roots stay on the
    stack for the handler's truncation. *)

From stdpp Require Import strings.
From S2P Require Import Prelude Consteval Value Arith Reentry.
Local Open Scope chz_scope.

Inductive HofMethod := HMap | HFilter | HFold | HTakeWhile | HDropWhile | HCount | HPosition.
Definition method_name (m : HofMethod) : string :=
  match m with
  | HMap => "map" | HFilter => "filter" | HFold => "fold" | HTakeWhile => "take_while"
  | HDropWhile => "drop_while" | HCount => "count" | HPosition => "position"
  end.
Definition as_bool (v : tagged) : option bool := match v with TBool b => Some b | _ => None end.

Section Hof.
Context {H : Type} {ops : HeapOps H} {hlaws : HeapLaws H} {sto : HeapStore H}.
Context (type_name : H -> tagged -> string).
Context (show_nat : nat -> string).
Context (checkpoint : M H unit).
Context (invoke_value : tagged -> list tagged -> Span -> M H tagged).
Abbreviation Vm := (Vm H).

Definition call (f : tagged) (args : list tagged) (span : Span) : M H tagged := guarded checkpoint (invoke_value f args span).

Definition arity_message (name : string) (want got : nat) : string :=
  "'" +:+ name +:+ "' expects " +:+ show_nat want +:+ " argument(s), got " +:+ show_nat got.
Definition not_bool (what : string) (out : tagged) (h : H) : string :=
  what +:+ " predicate must return bool, got " +:+ type_name h out.
Definition raise {A} (msg : H -> string) (span : Span) : M H A :=
  fun vm => (RErr (vm_err (msg (heap vm)) span), vm).

Definition hof_map_filter (is_filter : bool) (snap : Z) (n : nat) (f : tagged) (span : Span) : M H tagged :=
  res <- (r <- alloc (OList []) ;; push (TObj r) ;;; ret r) ;;
  for_range (seq 0 n) tt (fun i _ =>
    elem <- list_get snap i ;;
    out <- call f [elem] span ;;
    (if is_filter then
       match as_bool out with
       | Some true => list_push res elem
       | Some false => ret tt
       | None => pops 3 ;;; raise (not_bool "filter" out) span
       end
     else list_push res out) ;;; ret (Continue tt)) ;;;
  pops 3 ;;; ret (TObj res).

Definition hof_fold (snap : Z) (n : nat) (init f : tagged) (span : Span) : M H tagged :=
  push init ;;;
  acc_slot <- gets (fun vm => (length (stack vm) - 1)%nat) ;;
  for_range (seq 0 n) tt (fun i _ =>
    elem <- list_get snap i ;;
    acc <- stack_get acc_slot ;;
    new <- call f [acc; elem] span ;;
    stack_set acc_slot new ;;; ret (Continue tt)) ;;;
  acc <- pop ;; pops 2 ;;; ret acc.

Definition hof_while (is_drop : bool) (name : string) (snap : Z) (n : nat) (f : tagged) (span : Span) : M H tagged :=
  res <- (r <- alloc (OList []) ;; push (TObj r) ;;; ret r) ;;
  cut <- for_range (seq 0 n) n (fun i cut =>
    elem <- list_get snap i ;;
    out <- call f [elem] span ;;
    match as_bool out with
    | Some true => (if is_drop then ret tt else list_push res elem) ;;; ret (Continue cut)
    | Some false => ret (Break i)
    | None => pops 3 ;;; raise (not_bool name out) span
    end) ;;
  (if is_drop then
     for_range (seq cut (n - cut)) tt (fun i _ => elem <- list_get snap i ;; list_push res elem ;;; ret (Continue tt))
   else ret tt) ;;;
  pops 3 ;;; ret (TObj res).

Definition hof_count (is_pos : bool) (name : string) (snap : Z) (n : nat) (f : tagged) (span : Span) : M H tagged :=
  cf <- for_range (seq 0 n) (0%Z, None) (fun i '(count, found) =>
    elem <- list_get snap i ;;
    out <- call f [elem] span ;;
    match as_bool out with
    | Some true => if is_pos then ret (Break (count, Some i)) else ret (Continue ((count + 1)%Z, found))
    | Some false => ret (Continue (count, found))
    | None => pops 2 ;;; raise (not_bool name out) span
    end) ;;
  pops 2 ;;;
  if is_pos then alloc_option ((fun i => TInt (Z.of_nat i)) <$> cf.2) else ret (TInt cf.1).

Definition list_hof (src : Z) (m : HofMethod) (args : list tagged) (span : Span) : M H tagged :=
  snap <- snapshot src ;;
  n <- (xs <- list_at snap ;; ret (length xs)) ;;
  let want := match m with HFold => 2%nat | _ => 1%nat end in
  match m, args with
  | HMap, [f] => hof_map_filter false snap n f span
  | HFilter, [f] => hof_map_filter true snap n f span
  | HFold, [init; f] => hof_fold snap n init f span
  | HTakeWhile, [f] => hof_while false (method_name m) snap n f span
  | HDropWhile, [f] => hof_while true (method_name m) snap n f span
  | HCount, [f] => hof_count false (method_name m) snap n f span
  | HPosition, [f] => hof_count true (method_name m) snap n f span
  | _, _ => pops 2 ;;; raise (fun _ => arity_message (method_name m) want (length args)) span
  end.
End Hof.

(** ** The specification *)
Inductive answer := AList (xs : list tagged) | AValue (v : tagged) | AOption (v : option tagged).
Inductive next := Call (args : list tagged) | Bad (out : tagged) | Done (a : answer).

Definition is_true_value (v : tagged) : bool := match v with TBool true => true | _ => false end.
(** The elements answered [true]. *)
Definition kept (elems outs : list tagged) : list tagged :=
  (filter (fun p => is_true_value p.2 = true) (zip elems outs)).*1.

(** A predicate's last answer: not a bool, or one that ends the loop. *)
Definition hof_stop (m : HofMethod) (elems outs : list tagged) : option next :=
  match m, list.last outs with
  | HMap, _ | HFold, _ | _, None => None
  | HTakeWhile, Some (TBool false) => Some (Done (AList (take (pred (length outs)) elems)))
  | HDropWhile, Some (TBool false) => Some (Done (AList (drop (pred (length outs)) elems)))
  | HPosition, Some (TBool true) => Some (Done (AOption (Some (TInt (Z.of_nat (pred (length outs)))))))
  | _, Some (TBool _) => None
  | _, Some out => Some (Bad out)
  end.
(** The answer when every element was asked. *)
Definition hof_done (m : HofMethod) (init : tagged) (elems outs : list tagged) : answer :=
  match m with
  | HMap => AList outs
  | HFilter => AList (kept elems outs)
  | HFold => AValue (default init (list.last outs))
  | HTakeWhile => AList elems
  | HDropWhile => AList []
  | HCount => AValue (TInt (Z.of_nat (length (kept elems outs))))
  | HPosition => AOption None
  end.
Definition hof_next (m : HofMethod) (init : tagged) (elems outs : list tagged) : next :=
  match hof_stop m elems outs with
  | Some s => s
  | None =>
      match elems !! length outs with
      | Some x => Call (match m with HFold => [default init (list.last outs); x] | _ => [x] end)
      | None => Done (hof_done m init elems outs)
      end
  end.

Definition bad_name (m : HofMethod) : string := match m with HFilter => "filter" | _ => method_name m end.
Definition hof_args (m : HofMethod) (init f : tagged) : list tagged := match m with HFold => [init; f] | _ => [f] end.

Section Refine.
Context {H : Type} {ops : HeapOps H} {hlaws : HeapLaws H} {sto : HeapStore H}.
Context {private : H -> Z -> Prop} {slaws : StoreLaws H private}.
Context (type_name : H -> tagged -> string) (show_nat : nat -> string).
Context (checkpoint : M H unit).
Context (invoke_value : tagged -> list tagged -> Span -> M H tagged).
Context (span : Span).
Implicit Types (vm : Vm H).
Abbreviation call := (call checkpoint invoke_value).
Abbreviation list_hof := (list_hof type_name show_nat checkpoint invoke_value).

(** How a value stands for an answer. *)
Definition represents (h : H) (a : answer) (v : tagged) : Prop :=
  match a with
  | AList xs => exists r, v = TObj r /\ hget h r = Some (OList xs)
  | AValue w => v = w
  | AOption (Some w) => exists r, v = TObj r /\ hget h r = Some (OEnum VID_SOME [w])
  | AOption None => exists r, v = TObj r /\ hget h r = Some (OEnum VID_NONE_VARIANT [])
  end.

(** The calls made so far, in order, and what came back: each is the one the specification asks for,
    from a state that differs from the one before only in the native's own objects [ps]. *)
Inductive answered (ps : list Z) (m : HofMethod) (init f : tagged) (elems : list tagged) (vm0 : Vm H) : list tagged -> Vm H -> Prop :=
| answered_nil vm : quiet ps vm0 vm -> answered ps m init f elems vm0 [] vm
| answered_call outs args out vm v vm' :
    answered ps m init f elems vm0 outs vm -> hof_next m init elems outs = Call args ->
    call f args span vm = (ROk out, v) -> quiet ps v vm' -> answered ps m init f elems vm0 (outs ++ [out]) vm'.

(** What a run of [list_hof] does. *)
Definition hof_post (m : HofMethod) (init f : tagged) (elems : list tagged) vm0 (r : outcome tagged) vm' : Prop :=
  exists ps outs vm, Forall (fun p => hget (heap vm0) p = None) ps /\
    answered ps m init f elems vm0 outs vm /\
    match hof_next m init elems outs with
    | Call args => exists e, call f args span vm = (RErr e, vm') /\ r = RErr e
    | Bad out => stack vm' = stack vm0 /\ quiet ps vm vm' /\
        r = RErr (vm_err (not_bool type_name (bad_name m) out (heap vm')) span)
    | Done a => exists v, r = ROk v /\ represents (heap vm') a v /\ stack vm' = stack vm0 /\ quiet ps vm vm'
    end.

Context (Hcheck : @reentrant H ops private unit [] (fun _ => []) checkpoint).
Context (Hinvoke : forall f args, @reentrant H ops private tagged (f :: args) (fun v => [v]) (invoke_value f args span)).

Lemma call_reentrant f args : @reentrant H ops private tagged (f :: args) (fun v => [v]) (call f args span).
Proof. unfold ListHof.call, guarded. eapply reentrant_seq; [exact Hcheck|apply Hinvoke]. Qed.

Section Run.
Context (m : HofMethod) (init f : tagged) (elems : list tagged) (vm0 : Vm H) (src : Z).
Context (Hf : forall r, f = TObj r -> hget (heap vm0) r <> None).
Abbreviation native := (@native H ops private).
Abbreviation post := (hof_post m init f elems vm0).
Abbreviation on_err := (fun e v => post (RErr e) v).

Lemma zip_snoc (xs outs : list tagged) x out : xs !! length outs = Some x -> zip xs (outs ++ [out]) = zip xs outs ++ [(x, out)].
Proof.
  revert xs. induction outs as [|o outs IH]; intros [|y xs]; simpl; try done.
  - intros [= ->]. by destruct xs.
  - intros Hx. f_equal. by apply IH.
Qed.
Lemma kept_snoc xs outs x out : xs !! length outs = Some x ->
  kept xs (outs ++ [out]) = kept xs outs ++ (if is_true_value out then [x] else []).
Proof.
  intros Hx. unfold kept. rewrite (zip_snoc _ _ _ _ Hx), list.filter_app, fmap_app. f_equal.
  rewrite list.filter_cons. simpl. by destruct (is_true_value out).
Qed.

(** The state of a loop after [length outs] answers, none of which ended it. *)
Record looping (ps : list Z) (snap : Z) (more : list (Z * list tagged)) (extra outs : list tagged) vm : Prop := {
  lp_native : native vm0 src ((snap, elems) :: more) extra vm;
  lp_mine : forall r, r ∈ snap :: more.*1 -> r ∈ ps /\ hget (heap vm0) r = None;
  lp_fresh : Forall (fun p => hget (heap vm0) p = None) ps;
  lp_answered : answered ps m init f elems vm0 outs vm;
  lp_stop : hof_stop m elems outs = None;
}.

(** The arguments of the next call. *)
Definition asked (outs : list tagged) (x : tagged) : list tagged :=
  match m with HFold => [default init (list.last outs); x] | _ => [x] end.

Lemma next_call ps snap more extra outs vm x :
  looping ps snap more extra outs vm -> elems !! length outs = Some x -> hof_next m init elems outs = Call (asked outs x).
Proof. intros L Hx. unfold hof_next. by rewrite (lp_stop _ _ _ _ _ _ L), Hx. Qed.
Lemma next_done ps snap more extra outs vm :
  looping ps snap more extra outs vm -> length outs = length elems -> hof_next m init elems outs = Done (hof_done m init elems outs).
Proof. intros L Hl. unfold hof_next. by rewrite (lp_stop _ _ _ _ _ _ L), Hl, lookup_ge_None_2 by lia. Qed.

Lemma item_foreign ps snap more extra outs vm x i :
  looping ps snap more extra outs vm -> elems !! i = Some x -> foreign ((snap, elems) :: more) x.
Proof. intros L Hx. eapply native_items; [apply L|by left|]. by eapply list_elem_of_lookup_2. Qed.

(** One element: call [f] on it, and go on with the answer. *)
Lemma loop_call {S} ps snap more extra outs vm x (K : tagged -> M H S) (Q : S -> Vm H -> Prop) :
  looping ps snap more extra outs vm -> elems !! length outs = Some x ->
  (forall a, a ∈ asked outs x -> foreign ((snap, elems) :: more) a) ->
  (forall out v, native vm0 src ((snap, elems) :: more) extra v -> foreign ((snap, elems) :: more) out ->
     (forall v', quiet ps v v' -> answered ps m init f elems vm0 (outs ++ [out]) v') -> wp (K out) Q on_err v) ->
  wp (out <- call f (asked outs x) span ;; K out) Q on_err vm.
Proof.
  intros L Hx Ha HK. pose proof (next_call _ _ _ _ _ _ _ L Hx) as En. apply vwp_bind.
  eapply vwp_mono; [eapply wp_run, native_call; [apply call_reentrant|apply L|]| |].
  - intros a [->|Hin]%elem_of_cons; [|by apply Ha]. intros r Hr ->.
    destruct (lp_mine _ _ _ _ _ _ L r Hr) as [_ Hn]. by apply (Hf r).
  - cbn beta. intros out v [[Hn Ho] Er]. apply HK; [done|apply Ho; by left|].
    intros v' Hq. eapply answered_call; [apply L|exact En|exact Er|exact Hq].
  - cbn beta. intros e v [_ Er]. exists ps, outs, vm. split; [apply L|]. split; [apply L|]. rewrite En. by exists e.
Qed.

(** The method ends: the roots come off, and the answer is the specification's. *)
Lemma leave_done ps outs vm vm' a v :
  Forall (fun p => hget (heap vm0) p = None) ps -> answered ps m init f elems vm0 outs vm ->
  hof_next m init elems outs = Done a -> quiet ps vm vm' -> represents (heap vm') a v -> stack vm' = stack vm0 ->
  post (ROk v) vm'.
Proof. intros Hps Ha En Hq Hr Hs. exists ps, outs, vm. split; [done|]. split; [done|]. rewrite En. eauto 10. Qed.

Lemma leave_bad {S} ps mine outs vm out what (Q : S -> Vm H -> Prop) n :
  Forall (fun p => hget (heap vm0) p = None) ps -> answered ps m init f elems vm0 outs vm ->
  hof_next m init elems outs = Bad out -> what = bad_name m ->
  native vm0 src mine [] vm -> n = Datatypes.S (length mine) ->
  wp (pops n ;;; raise (not_bool type_name what out) span) Q on_err vm.
Proof.
  intros Hps Ha En -> Hn ->. apply vwp_bind. eapply native_leave; [exact Hn|done|].
  unfold wp, raise. exists ps, outs, vm. split; [done|]. split; [done|]. rewrite En. split; [done|]. split; [done|]. done.
Qed.

Lemma looping_next ps snap more more' extra extra' outs out vm v :
  looping ps snap more extra outs vm -> more'.*1 = more.*1 -> native vm0 src ((snap, elems) :: more') extra' v ->
  answered ps m init f elems vm0 (outs ++ [out]) v -> hof_stop m elems (outs ++ [out]) = None ->
  looping ps snap more' extra' (outs ++ [out]) v.
Proof. intros L Em Hn Ha Hs. split; [done|rewrite Em; apply L|apply L|done|done]. Qed.

(** A push to the result list. *)
Lemma push_result snap res acc v x (Q : unit -> Vm H -> Prop) (E : RuntimeError -> Vm H -> Prop) :
  native vm0 src [(snap, elems); (res, acc)] [] v -> foreign [(snap, elems); (res, acc)] x ->
  (forall v', native vm0 src [(snap, elems); (res, acc ++ [x])] [] v' -> quiet [res] v v' -> Q tt v') ->
  wp (list_push res x) Q E v.
Proof.
  intros Hn Hx HQ. eapply (native_write vm0 src [(snap, elems)]); [exact Hn| |auto].
  intros y [Hy|Hy]%elem_of_app; [|apply list_elem_of_singleton in Hy; by subst y].
  eapply native_items; [exact Hn|right; by left|done].
Qed.

Lemma start_looping snap res vm v acc : native vm0 src [(snap, elems); (res, acc)] [] v ->
  hget (heap vm0) snap = None -> hget (heap vm) res = None -> quiet [] vm0 vm -> quiet [] vm v ->
  looping [snap; res] snap [(res, acc)] [] [] v.
Proof.
  intros Hn Hs Hr Q0 Q1. assert (Hr0 : hget (heap vm0) res = None) by (eapply quiet_fresh; [exact Q0|apply not_elem_of_nil|done]).
  split; [done| | | |by destruct m].
  - intros r [->|[->| []%elem_of_nil]%elem_of_cons]%elem_of_cons; (split; [|done]); [by left|right; by left].
  - by repeat constructor.
  - apply answered_nil. apply (quiet_mono []); [by eapply quiet_trans|apply list_subseteq_nil].
Qed.

Lemma quiet_result snap res v v' : quiet [res] v v' -> quiet [snap; res] v v'.
Proof. intros Hq. eapply quiet_mono; [exact Hq|]. intros ? ->%list_elem_of_singleton. right. by left. Qed.

Lemma as_bool_Some out b : as_bool out = Some b -> out = TBool b.
Proof. destruct out; try done. by intros [= ->]. Qed.

(** The answers of a predicate method: one that goes on, and one that is no bool. *)
Definition is_predicate : bool := match m with HMap | HFold => false | _ => true end.
Lemma next_bad outs out : is_predicate = true -> as_bool out = None -> hof_next m init elems (outs ++ [out]) = Bad out.
Proof. unfold is_predicate, hof_next, hof_stop. rewrite last_snoc. by destruct m, out. Qed.

(** One turn of a loop over the snapshot that hands [f] the element alone: what is left to do once
    the answer is there. *)
Lemma loop_element {S} ps snap more outs w x i (K : tagged -> tagged -> M H S) (Q : S -> Vm H -> Prop) :
  looping ps snap more [] outs w -> i = length outs -> elems !! i = Some x -> m <> HFold ->
  (forall out v, native vm0 src ((snap, elems) :: more) [] v -> foreign ((snap, elems) :: more) x -> foreign ((snap, elems) :: more) out ->
     answered ps m init f elems vm0 (outs ++ [out]) v ->
     (forall v' more', more'.*1 = more.*1 -> quiet ps v v' -> native vm0 src ((snap, elems) :: more') [] v' ->
        hof_stop m elems (outs ++ [out]) = None -> looping ps snap more' [] (outs ++ [out]) v') ->
     wp (K x out) Q on_err v) ->
  wp (elem <- list_get snap i ;; out <- call f [elem] span ;; K elem out) Q on_err w.
Proof.
  intros L -> Hx Hm HK. pose proof (item_foreign _ _ _ _ _ _ _ _ L Hx) as Fx.
  assert (Ea : [x] = asked outs x) by (unfold asked; by destruct m). apply vwp_bind.
  eapply native_get; [apply L|by left|exact Hx|]. rewrite Ea.
  eapply loop_call; [exact L|exact Hx|rewrite <- Ea; by intros a ->%list_elem_of_singleton|].
  intros out v Hn Fo Ha. apply HK; [done|done|done|by apply Ha|].
  intros v' more' Em Hq Hn' Hs. eapply looping_next; [exact L|exact Em|exact Hn'|by apply Ha|exact Hs].
Qed.

Section MapFilter.
Context (is_filter : bool) (Em : m = if is_filter then HFilter else HMap).
Definition map_acc (outs : list tagged) : list tagged := if is_filter then kept elems outs else outs.
Definition map_inv (snap res : Z) (i : nat) (_ : unit) (w : Vm H) : Prop :=
  exists outs, length outs = i /\ looping [snap; res] snap [(res, map_acc outs)] [] outs w.

Lemma map_filter_body snap res i w : (i < length elems)%nat -> map_inv snap res i tt w ->
  wp (elem <- list_get snap i ;;
      out <- call f [elem] span ;;
      (if is_filter then
         match as_bool out with
         | Some true => list_push res elem
         | Some false => ret tt
         | None => pops 3 ;;; raise (not_bool type_name "filter" out) span
         end
       else list_push res out) ;;; ret (Continue tt))
     (fun c v => match c with Continue s => map_inv snap res (S i) s v | Break s => map_inv snap res (length elems) s v end) on_err w.
Proof.
  intros Hi (outs & Hl & L). destruct (lookup_lt_is_Some_2 elems i Hi) as [x Hx].
  eapply loop_element; [exact L|done|exact Hx|rewrite Em; by destruct is_filter|]. intros out v Hn Fx Fo Ha Hgo.
  assert (Hnext : forall v', quiet [res] v v' -> native vm0 src [(snap, elems); (res, map_acc (outs ++ [out]))] [] v' ->
    hof_stop m elems (outs ++ [out]) = None -> map_inv snap res (S i) tt v').
  { intros v' Hq Hn' Hs. exists (outs ++ [out]). split; [rewrite length_app; simpl; lia|].
    apply (Hgo v' [(res, map_acc (outs ++ [out]))]); [done|by apply quiet_result|done|done]. }
  subst i. unfold map_acc in Hnext, Hn. destruct is_filter; [destruct (as_bool out) as [b|] eqn:Eo|].
  - apply as_bool_Some in Eo as ->. rewrite (kept_snoc _ _ _ _ Hx) in Hnext.
    assert (Hs : hof_stop m elems (outs ++ [TBool b]) = None) by (unfold hof_stop; by rewrite Em, last_snoc).
    apply vwp_bind. destruct b.
    + eapply push_result; [exact Hn|done|]. intros v' Hn' Hq. apply vwp_ret. by apply Hnext.
    + apply vwp_ret, vwp_ret. apply Hnext; [done|by rewrite app_nil_r|done].
  - apply vwp_bind. eapply leave_bad; [apply L|exact Ha|apply next_bad; [unfold is_predicate; by rewrite Em|done]|by rewrite Em|exact Hn|done].
  - apply vwp_bind. eapply push_result; [exact Hn|done|]. intros v' Hn' Hq. apply vwp_ret. apply Hnext; [done|done|].
    unfold hof_stop. by rewrite Em.
Qed.

Lemma map_filter_ok snap vm :
  native vm0 src [(snap, elems)] [] vm -> hget (heap vm0) snap = None -> quiet [] vm0 vm ->
  wp (hof_map_filter type_name checkpoint invoke_value is_filter snap (length elems) f span) (fun v => post (ROk v)) on_err vm.
Proof.
  intros Hn Hs Q0. unfold hof_map_filter. apply vwp_bind. eapply (native_alloc vm0 src [(snap, elems)]); [exact Hn|by intros x ?%elem_of_nil|].
  intros res v Hn1 Hr Q1. pose proof (start_looping snap res vm v [] Hn1 Hs Hr Q0 Q1) as L0. apply vwp_bind.
  eapply vwp_mono; [apply (wp_for_range (map_inv snap res) (map_inv snap res (length elems)) on_err _ (length elems))| |done].
  - done.
  - exists []. split; [done|]. unfold map_acc. by destruct is_filter, elems.
  - intros i [] w. apply map_filter_body.
  - done.
  - intros [] w (outs & Hl & L). cbn beta. apply vwp_bind. eapply native_leave; [apply L|done|]. apply vwp_ret.
    eapply leave_done; [apply L|apply L|by eapply next_done| | |done]; [done|].
    destruct L as [[_ _ Hm _] _ _ _ _]. destruct (Hm res (map_acc outs)) as [Er _]; [right; by left|].
    rewrite Em. unfold map_acc in Er. destruct is_filter; by exists res.
Qed.
End MapFilter.

Section Fold.
Context (Em : m = HFold) (Hinit : forall r, init = TObj r -> hget (heap vm0) r <> None).
(** The accumulator stands above the roots of the receiver and the snapshot. *)
Definition acc_of (outs : list tagged) : tagged := default init (list.last outs).
Definition fold_slot : nat := (length (stack vm0) + 2)%nat.
Definition fold_inv (snap : Z) (i : nat) (_ : unit) (w : Vm H) : Prop := exists outs, length outs = i /\
  looping [snap] snap [] [acc_of outs] outs w /\ foreign [(snap, elems)] (acc_of outs).

Lemma fold_body snap i w : (i < length elems)%nat -> fold_inv snap i tt w ->
  wp (elem <- list_get snap i ;;
      acc <- stack_get fold_slot ;;
      new <- call f [acc; elem] span ;;
      stack_set fold_slot new ;;; ret (Continue tt))
     (fun c v => match c with Continue s => fold_inv snap (S i) s v | Break s => fold_inv snap (length elems) s v end) on_err w.
Proof.
  intros Hi (outs & Hl & L & Fa). destruct (lookup_lt_is_Some_2 elems i Hi) as [x Hx]. apply vwp_bind.
  eapply native_get; [apply L|by left|exact Hx|]. subst i. pose proof (item_foreign _ _ _ _ _ _ _ _ L Hx) as Fx.
  destruct (native_top _ _ _ _ _ (lp_native _ _ _ _ _ _ L)) as (s & Es & Els & _). change (length s = fold_slot) in Els.
  apply vwp_bind. unfold wp at 1, stack_get. rewrite Es, lookup_app_r, <- Els, Nat.sub_diag by lia. cbn [lookup list_lookup].
  assert (Ea : [acc_of outs; x] = asked outs x) by (unfold asked; by rewrite Em). rewrite Ea.
  eapply loop_call; [exact L|exact Hx|rewrite <- Ea; by intros a [->| ->%list_elem_of_singleton]%elem_of_cons|].
  intros out v1 Hn2 Fo Ha. destruct (native_top _ _ _ _ _ Hn2) as (s2 & Es2 & Els2 & Ext2). change (length s2 = fold_slot) in Els2.
  apply vwp_bind. unfold wp at 1, stack_set. rewrite Es2, length_app, Els, <- Els2.
  rewrite (proj2 (Nat.ltb_lt _ _)) by (simpl; lia). apply vwp_ret.
  rewrite insert_app_r_alt, Nat.sub_diag by done. cbn [insert list_insert]. rewrite <- Ext2.
  exists (outs ++ [out]). split; [rewrite length_app; simpl; lia|].
  assert (Eo : acc_of (outs ++ [out]) = out) by (unfold acc_of; by rewrite last_snoc). rewrite Eo. split; [|done].
  eapply looping_next; [exact L|done|eapply native_stack; exact Hn2|by apply Ha|unfold hof_stop; by rewrite Em].
Qed.

Lemma fold_ok snap vm :
  native vm0 src [(snap, elems)] [] vm -> hget (heap vm0) snap = None -> quiet [] vm0 vm ->
  wp (hof_fold checkpoint invoke_value snap (length elems) init f span) (fun v => post (ROk v)) on_err vm.
Proof.
  intros Hn Hs Q0. unfold hof_fold. pose proof (native_stack _ _ _ _ [init] _ Hn) as Hn1. apply vwp_bind, wp_push.
  assert (E : set_stack vm (stack vm ++ [init]) =
    set_stack vm (stack vm0 ++ TObj src :: ((fun p => TObj p.1) <$> [(snap, elems)]) ++ [init])).
  { destruct Hn as [-> _ _ _]. by rewrite app_nil_r, <- (assoc_L (++)). }
  rewrite E. clear E. set (v := set_stack _ _) in *. apply vwp_bind. unfold wp at 1, gets.
  destruct (native_top _ _ _ _ _ Hn1) as (s & Es & Els & _).
  assert (Eslot : (length (stack v) - 1)%nat = fold_slot).
  { rewrite Es, length_app, Els. unfold fold_slot. simpl. lia. }
  rewrite Eslot. apply vwp_bind.
  eapply vwp_mono; [apply (wp_for_range (fold_inv snap) (fold_inv snap (length elems)) on_err _ (length elems))| |done].
  - done.
  - exists []. split; [done|]. split.
    + split; [done| |by constructor| |unfold hof_stop; by rewrite Em].
      * intros r [->|[]%elem_of_nil]%elem_of_cons. split; [by left|done].
      * apply answered_nil. by apply (quiet_mono []); [|apply list_subseteq_nil].
    + intros r [->|[]%elem_of_nil]%elem_of_cons. intros Ei. by apply (Hinit snap Ei).
  - intros i [] w. apply fold_body.
  - done.
  - intros [] w (outs & Hl & L & _). cbn beta. destruct (native_top _ _ _ _ _ (lp_native _ _ _ _ _ _ L)) as (s' & Es' & _ & Ext').
    apply vwp_bind. eapply wp_pop; [exact Es'|]. apply vwp_bind. eapply (native_leave vm0 src [(snap, elems)]); [|done|].
    + rewrite <- (app_nil_r s'), <- Ext'. eapply native_stack, L.
    + apply vwp_ret. eapply leave_done; [apply L|apply L|by eapply next_done|done|by rewrite Em|done].
Qed.
End Fold.

(** The suffix loop of [drop_while]. *)
Lemma drop_suffix snap res cut w (Q : unit -> Vm H -> Prop) (E : RuntimeError -> Vm H -> Prop) : (cut <= length elems)%nat ->
  native vm0 src [(snap, elems); (res, [])] [] w ->
  (forall v, native vm0 src [(snap, elems); (res, drop cut elems)] [] v -> quiet [res] w v -> Q tt v) ->
  wp (for_range (seq cut (length elems - cut)) tt (fun i _ => elem <- list_get snap i ;; list_push res elem ;;; ret (Continue tt))) Q E w.
Proof.
  intros Hc Hn HQ. set (Inv := fun (i : nat) (_ : unit) v => (cut <= i)%nat /\
    native vm0 src [(snap, elems); (res, take (i - cut) (drop cut elems))] [] v /\ quiet [res] w v).
  apply (wp_for_range Inv _ _ _ (length elems)); [lia|by unfold Inv; rewrite Nat.sub_diag| |].
  - intros i [] v Hi (Hci & Hn' & Hq). destruct (lookup_lt_is_Some_2 elems i Hi) as [x Hx]. apply vwp_bind.
    eapply native_get; [exact Hn'|by left|exact Hx|]. apply vwp_bind.
    eapply push_result; [exact Hn'|eapply native_items; [exact Hn'|by left|by eapply list_elem_of_lookup_2]|].
    intros v' Hn2 Hq2. apply vwp_ret. split; [lia|]. split; [|by eapply quiet_trans].
    rewrite Nat.sub_succ_l by done. erewrite take_S_r; [exact Hn2|]. rewrite lookup_drop. by replace (cut + (i - cut))%nat with i by lia.
  - intros [] v (_ & Hn' & Hq). apply HQ; [|done]. by rewrite take_ge in Hn' by (rewrite length_drop; lia).
Qed.

Section While.
Context (is_drop : bool) (Em : m = if is_drop then HDropWhile else HTakeWhile).
Definition while_acc (i : nat) : list tagged := if is_drop then [] else take i elems.
Definition while_answer (cut : nat) : list tagged := if is_drop then drop cut elems else take cut elems.
Definition while_inv (snap res : Z) (i cut : nat) (w : Vm H) : Prop :=
  cut = length elems /\ exists outs, length outs = i /\ looping [snap; res] snap [(res, while_acc i)] [] outs w.
Definition while_out (snap res : Z) (cut : nat) (w : Vm H) : Prop :=
  (cut <= length elems)%nat /\ exists outs,
    native vm0 src [(snap, elems); (res, while_acc cut)] [] w /\ answered [snap; res] m init f elems vm0 outs w /\
    hof_next m init elems outs = Done (AList (while_answer cut)).

Lemma while_stop outs b : hof_stop m elems (outs ++ [TBool b]) =
  if b then None else Some (Done (AList (while_answer (length outs)))).
Proof.
  unfold hof_stop, while_answer. rewrite Em, last_snoc, length_app, Nat.add_comm. simpl. by destruct is_drop, b.
Qed.

Lemma while_body snap res i cut w : (i < length elems)%nat -> while_inv snap res i cut w ->
  wp (elem <- list_get snap i ;;
      out <- call f [elem] span ;;
      match as_bool out with
      | Some true => (if is_drop then ret tt else list_push res elem) ;;; ret (Continue cut)
      | Some false => ret (Break i)
      | None => pops 3 ;;; raise (not_bool type_name (method_name m) out) span
      end)
     (fun c v => match c with Continue s => while_inv snap res (S i) s v | Break s => while_out snap res s v end) on_err w.
Proof.
  intros Hi (-> & outs & Hl & L). destruct (lookup_lt_is_Some_2 elems i Hi) as [x Hx].
  eapply loop_element; [exact L|done|exact Hx|rewrite Em; by destruct is_drop|]. intros out v Hn Fx Fo Ha Hgo. subst i.
  destruct (as_bool out) as [b|] eqn:Eo.
  - apply as_bool_Some in Eo as ->. pose proof (while_stop outs b) as Hs. destruct b.
    + assert (Hnext : forall v', quiet [res] v v' -> native vm0 src [(snap, elems); (res, while_acc (S (length outs)))] [] v' ->
        while_inv snap res (S (length outs)) (length elems) v').
      { intros v' Hq Hn'. split; [done|]. exists (outs ++ [TBool true]). split; [rewrite length_app; simpl; lia|].
        apply (Hgo v' [(res, while_acc (S (length outs)))]); [done|by apply quiet_result|done|done]. }
      apply vwp_bind. unfold while_acc in Hnext, Hn. destruct is_drop.
      * apply vwp_ret, vwp_ret. by apply Hnext.
      * eapply push_result; [exact Hn|done|]. intros v' Hn' Hq. apply vwp_ret. apply Hnext; [done|by erewrite take_S_r].
    + apply vwp_ret. split; [lia|]. exists (outs ++ [TBool false]). split; [exact Hn|]. split; [exact Ha|].
      unfold hof_next. by rewrite Hs.
  - eapply leave_bad; [apply L|exact Ha|apply next_bad; [|done]|..|exact Hn|done]; unfold is_predicate; rewrite Em; by destruct is_drop.
Qed.

Lemma while_ok snap vm :
  native vm0 src [(snap, elems)] [] vm -> hget (heap vm0) snap = None -> quiet [] vm0 vm ->
  wp (hof_while type_name checkpoint invoke_value is_drop (method_name m) snap (length elems) f span) (fun v => post (ROk v)) on_err vm.
Proof.
  intros Hn Hs Q0. unfold hof_while. apply vwp_bind. eapply (native_alloc vm0 src [(snap, elems)]); [exact Hn|by intros x ?%elem_of_nil|].
  intros res v Hn1 Hr Q1. pose proof (start_looping snap res vm v [] Hn1 Hs Hr Q0 Q1) as L0.
  apply vwp_bind. eapply vwp_mono; [apply (wp_for_range (while_inv snap res) (while_out snap res) on_err _ (length elems))| |done].
  - done.
  - split; [done|]. exists []. split; [done|]. unfold while_acc. by destruct is_drop.
  - intros i cut w. apply while_body.
  - intros cut w (-> & outs & Hl & L). split; [done|]. exists outs. split; [apply L|]. split; [apply L|].
    rewrite (next_done _ _ _ _ _ _ L Hl), Em. unfold while_answer. rewrite drop_ge, take_ge by done. by destruct is_drop.
  - intros cut w (Hc & outs & Hn2 & Ha & En). cbn beta. apply vwp_bind.
    assert (Hend : forall v', native vm0 src [(snap, elems); (res, while_answer cut)] [] v' ->
      quiet [snap; res] w v' -> wp (pops 3 ;;; ret (TObj res)) (fun v => post (ROk v)) on_err v').
    { intros v' Hn' Hq. apply vwp_bind. eapply native_leave; [exact Hn'|done|]. apply vwp_ret.
      eapply leave_done; [apply L0|exact Ha|exact En|exact Hq| |done].
      destruct Hn' as [_ _ Hm _]. destruct (Hm res (while_answer cut)) as [Er _]; [right; by left|]. by exists res. }
    unfold while_acc in Hn2. unfold while_answer in Hend. destruct is_drop; [|apply vwp_ret; by apply Hend].
    apply drop_suffix; [done|exact Hn2|]. intros v' Hn' Hq. apply Hend; [done|by apply quiet_result].
Qed.
End While.

Section Count.
Context (is_pos : bool) (Em : m = if is_pos then HPosition else HCount).
Definition count_answer (cf : Z * option nat) : answer :=
  if is_pos then AOption ((fun i => TInt (Z.of_nat i)) <$> cf.2) else AValue (TInt cf.1).
Definition count_inv (snap : Z) (i : nat) (cf : Z * option nat) (w : Vm H) : Prop :=
  exists outs, length outs = i /\ looping [snap] snap [] [] outs w /\ cf = (Z.of_nat (length (kept elems outs)), None).
Definition count_out (snap : Z) (cf : Z * option nat) (w : Vm H) : Prop :=
  exists outs, native vm0 src [(snap, elems)] [] w /\ answered [snap] m init f elems vm0 outs w /\
    hof_next m init elems outs = Done (count_answer cf).

Lemma count_stop outs b : hof_stop m elems (outs ++ [TBool b]) =
  if b && is_pos then Some (Done (AOption (Some (TInt (Z.of_nat (length outs)))))) else None.
Proof. unfold hof_stop. rewrite Em, last_snoc, length_app, Nat.add_comm. simpl. by destruct is_pos, b. Qed.

Lemma count_body snap i cf w : (i < length elems)%nat -> count_inv snap i cf w ->
  wp ((fun '(count, found) =>
      elem <- list_get snap i ;;
      out <- call f [elem] span ;;
      match as_bool out with
      | Some true => if is_pos then ret (Break (count, Some i)) else ret (Continue ((count + 1)%Z, found))
      | Some false => ret (Continue (count, found))
      | None => pops 2 ;;; raise (not_bool type_name (method_name m) out) span
      end) cf)
     (fun c v => match c with Continue s => count_inv snap (S i) s v | Break s => count_out snap s v end) on_err w.
Proof.
  intros Hi (outs & Hl & L & ->). destruct (lookup_lt_is_Some_2 elems i Hi) as [x Hx].
  eapply loop_element; [exact L|done|exact Hx|rewrite Em; by destruct is_pos|]. intros out v Hn Fx Fo Ha Hgo. subst i.
  destruct (as_bool out) as [b|] eqn:Eo.
  - apply as_bool_Some in Eo as ->. pose proof (count_stop outs b) as Hs.
    assert (Hnext : b && is_pos = false ->
      count_inv snap (S (length outs)) (Z.of_nat (length (kept elems outs)) + (if b then 1 else 0), None)%Z v).
    { intros Eb. rewrite Eb in Hs. exists (outs ++ [TBool b]). split; [rewrite length_app; simpl; lia|].
      split; [by apply (Hgo v [])|]. f_equal. rewrite (kept_snoc _ _ _ _ Hx), length_app. destruct b; simpl; lia. }
    destruct b.
    + destruct is_pos eqn:Ep; apply vwp_ret; [|by apply Hnext]. exists (outs ++ [TBool true]). split; [exact Hn|].
      split; [exact Ha|]. unfold hof_next. rewrite Hs. unfold count_answer. by rewrite Ep.
    + apply vwp_ret. rewrite <- (Z.add_0_r (Z.of_nat (length (kept elems outs)))). by apply Hnext.
  - eapply leave_bad; [apply L|exact Ha|apply next_bad; [|done]|..|exact Hn|done]; unfold is_predicate; rewrite Em; by destruct is_pos.
Qed.

Lemma count_ok snap vm :
  native vm0 src [(snap, elems)] [] vm -> hget (heap vm0) snap = None -> quiet [] vm0 vm ->
  wp (hof_count type_name checkpoint invoke_value is_pos (method_name m) snap (length elems) f span) (fun v => post (ROk v)) on_err vm.
Proof.
  intros Hn Hs Q0. unfold hof_count.
  apply vwp_bind. eapply vwp_mono; [apply (wp_for_range (count_inv snap) (count_out snap) on_err _ (length elems))| |done].
  - done.
  - exists []. split; [done|]. split; [|by destruct elems]. split; [done| |by constructor| |by destruct m].
    + intros r [->|[]%elem_of_nil]%elem_of_cons. split; [by left|done].
    + apply answered_nil. by apply (quiet_mono []); [|apply list_subseteq_nil].
  - intros i cf w. apply count_body.
  - intros cf w (outs & Hl & L & ->). exists outs. split; [apply L|]. split; [apply L|].
    rewrite (next_done _ _ _ _ _ _ L Hl), Em. unfold count_answer. by destruct is_pos.
  - intros [count found] w (outs & Hn2 & Ha & En). cbn beta. apply vwp_bind. eapply native_leave; [exact Hn2|done|].
    assert (Hps : Forall (fun p => hget (heap vm0) p = None) [snap]) by by constructor.
    unfold count_answer in En. cbn [fst snd] in *. destruct is_pos.
    + apply wp_alloc_option. intros r v Hr Hq Hst. eapply leave_done; [exact Hps|exact Ha|exact En|..|by rewrite Hst].
      * apply (quiet_mono []); [exact Hq|apply list_subseteq_nil].
      * destruct found; by exists r.
    + apply vwp_ret. by eapply leave_done.
Qed.
End Count.
End Run.

(** C10: the higher-order list methods iterate a snapshot.  Whatever the callback does to the
    receiver, a run is the calls the specification asks for over the elements at the call, in order;
    between them the native writes no object but its own, and what it returns is the specification's
    answer. *)
Theorem list_hof_refines m init f elems vm0 src :
  live_list (heap vm0) src elems ->
  (forall r, f = TObj r \/ m = HFold /\ init = TObj r -> hget (heap vm0) r <> None) ->
  wp (list_hof src m (hof_args m init f) span)
     (fun v vm => hof_post m init f elems vm0 (ROk v) vm) (fun e vm => hof_post m init f elems vm0 (RErr e) vm) vm0.
Proof.
  intros Hl Hlive. unfold ListHof.list_hof. apply vwp_bind. eapply native_snapshot; [exact Hl|]. intros snap vm Hn Hs Hq.
  apply vwp_bind, vwp_bind. eapply native_list_at; [exact Hn|by left|]. apply vwp_ret. cbn beta zeta.
  assert (Hf : forall r, f = TObj r -> hget (heap vm0) r <> None) by auto.
  destruct m; cbn [hof_args].
  - by eapply map_filter_ok.
  - by eapply map_filter_ok.
  - apply (fold_ok HFold init f elems vm0 src Hf eq_refl); [intros r Hr; apply Hlive; auto|done..].
  - by apply (while_ok HTakeWhile init f elems vm0 src Hf false eq_refl).
  - by apply (while_ok HDropWhile init f elems vm0 src Hf true eq_refl).
  - by apply (count_ok HCount init f elems vm0 src Hf false eq_refl).
  - by apply (count_ok HPosition init f elems vm0 src Hf true eq_refl).
Qed.
End Refine.

(** [filter] of a receiver that the callback empties: the elements at the call are still visited. *)
Lemma list_hof_refines_witness :
  live_list (heap ReentryDemo.vm) 5 [TInt 3; TInt 1; TInt 2] /\
  let run := list_hof (fun _ _ => ""%string) (fun _ => ""%string) ReentryDemo.no_halt ReentryDemo.invoke 5 HFilter [TNil] ReentryDemo.span in
  wp run
    (fun v vm => hof_post (fun _ _ => ""%string) ReentryDemo.no_halt ReentryDemo.invoke ReentryDemo.span HFilter TNil TNil
       [TInt 3; TInt 1; TInt 2] ReentryDemo.vm (ROk v) vm)
    (fun e vm => hof_post (fun _ _ => ""%string) ReentryDemo.no_halt ReentryDemo.invoke ReentryDemo.span HFilter TNil TNil
       [TInt 3; TInt 1; TInt 2] ReentryDemo.vm (RErr e) vm) ReentryDemo.vm /\
  (hget (heap (run ReentryDemo.vm).2) 5 = Some (OList [])) /\ (hget (heap (run ReentryDemo.vm).2) 7 = Some (OList [TInt 3; TInt 2])).
Proof.
  assert (Hl : live_list (heap ReentryDemo.vm) 5 [TInt 3; TInt 1; TInt 2]).
  { split; [reflexivity|]. intros r. rewrite !elem_of_cons. intros [?|[?|[?|[]%elem_of_nil]]]; discriminate. }
  split; [exact Hl|]. intros run. split; [|split; vm_compute; reflexivity].
  apply (list_hof_refines (private := ReentryDemo.private) (fun _ _ => ""%string) (fun _ => ""%string) ReentryDemo.no_halt
    ReentryDemo.invoke ReentryDemo.span ReentryDemo.no_halt_reentrant (ReentryDemo.invoke_reentrant ReentryDemo.span) HFilter TNil TNil).
  - exact Hl.
  - intros r [?|[? _]]; discriminate.
Defined.
