(* ===== verification/ListSort.v ===== *)
(** * Sorting lists: [sort], [sort_by], [sort_by_key], [min], [max], [min_by], [max_by]

    [list_sort_by], [list_sort_by_key], [msort_indices], [msort_indices_by_key], [compare_with],
    [sort_mutation_check], [list_reduce_extreme] and [list_min_max_by] of
    [src/src/vm/list_hof.rs], [list_sort_structs] and [msort_indices_structs] of
    [src/src/vm/hash.rs], and the [Sort], [Min] and [Max] arms of [src/src/vm/core_method.rs].

    The three sorts are one stable merge sort of positions that differ in the comparison, so the
    model has it once, with the comparison as an argument.  Each sort works on a snapshot; before it
    writes the result back it checks that the receiver still equals the snapshot.  [sort_by] of the
    Rust library, which orders scalars, is a stable insertion sort here. *)

From stdpp Require Import strings sets sorting.
From S2P Require Import Prelude Consteval Value Arith Ordering Reentry ListHof.
Local Open Scope chz_scope.

Section Natives.
Context {H : Type} {ops : HeapOps H} {hlaws : HeapLaws H} {sto : HeapStore H} {nans : NanWords H}.
Context (type_name : H -> tagged -> string) (show_nat : nat -> string).
Context (checkpoint : M H unit).
Context (invoke_value : tagged -> list tagged -> Span -> M H tagged).
Context (compare_hook : tagged -> tagged -> Span -> M H (option tagged)).
Context (missing_hook : H -> tagged -> Span -> RuntimeError).
(** Turns of the ordering walk ([Ordering]). *)
Context (fuel : nat).
Abbreviation call := (call checkpoint invoke_value).
Abbreviation order_key := (order_key type_name compare_hook missing_hook fuel).

(** [match m { Ok(x) => x, Err(e) => { pop ..; return Err(e) } }]. *)
Definition unroot_on_err {A} (n : nat) (m : M H A) : M H A := fun vm =>
  match m vm with
  | (RErr e, vm) => (pops n ;;; throw e) vm
  | r => r
  end.

(** ** The merge sort *)
Section MergeSort.
(** The left element goes first: the comparison of two elements is at most zero. *)
Context (first : tagged -> tagged -> M H bool).
Context (data : Z).

(** The merge loop over the rests of both halves. *)
Fixpoint merge_loop (left : list nat) : list nat -> M H (list nat) :=
  fix merge_right (right : list nat) : M H (list nat) :=
    match left, right with
    | l :: left', r :: right' =>
        a <- list_get data l ;;
        b <- list_get data r ;;
        le <- first a b ;;
        if le then out <- merge_loop left' right ;; ret (l :: out)
        else out <- merge_right right' ;; ret (r :: out)
    | _, _ => ret (left ++ right)
    end.

(** [n] bounds the recursion: the halves are shorter. *)
Fixpoint msort (n : nat) (idx : list nat) : M H (list nat) :=
  match n with
  | O => ret idx
  | S n =>
      if (length idx <=? 1)%nat then ret idx
      else
        let mid := (length idx / 2)%nat in
        left <- msort n (take mid idx) ;;
        right <- msort n (drop mid idx) ;;
        merge_loop left right
  end.
End MergeSort.

Definition compare_with (cmp a b : tagged) (span : Span) : M H Z :=
  res <- call cmp [a; b] span ;;
  fun vm => match int_val (heap vm) res with
            | Some n => (ROk n, vm)
            | None => raise (fun h => "sort_by comparator must return int, got " +:+ type_name h res) span vm
            end.

Definition msort_indices (src : Z) (idx : list nat) (cmp : tagged) (span : Span) : M H (list nat) :=
  msort (fun a b => n <- compare_with cmp a b span ;; ret (n <=? 0)%Z) src (length idx) idx.
Definition is_le (c : comparison) : bool := match c with Gt => false | _ => true end.
(** [msort_indices_by_key] and [msort_indices_structs]. *)
Definition msort_ordered (data : Z) (idx : list nat) (span : Span) : M H (list nat) :=
  msort (fun a b => o <- order_key a b span ;; ret (is_le o)) data (length idx) idx.

(** ** The mutation check and the write-back *)
Definition sort_mutation_check (src snap : Z) (name : string) (span : Span) : M H unit := fun vm =>
  match hget (heap vm) src, hget (heap vm) snap with
  | None, _ | _, None => (RPanic, vm)
  | Some (OList cur), Some (OList elems) =>
      if decide (cur = elems) then (ROk tt, vm)
      else raise (fun _ => "list modified during '" +:+ name +:+
        "' -- a sort callback must not mutate the list being sorted") span vm
  | _, _ => raise (fun _ => "list modified during '" +:+ name +:+
        "' -- a sort callback must not mutate the list being sorted") span vm
  end.

(** [order.iter().map(|&i| v.get(i)).collect()]. *)
Definition reorder (snap : Z) (order : list nat) : M H (list tagged) :=
  elems <- list_at snap ;;
  match mapM (fun i => elems !! i) order with Some ys => ret ys | None => panic end.

(** From the sorted positions to the end, with [roots] of the native's on the stack. *)
Definition write_back (src snap : Z) (order : M H (list nat)) (roots : nat) (name : string) (span : Span) : M H tagged :=
  order <- unroot_on_err roots order ;;
  unroot_on_err roots (sort_mutation_check src snap name span) ;;;
  ys <- reorder snap order ;;
  list_replace src ys ;;;
  pops roots ;;; ret TNil.

Definition positions (snap : Z) : M H (list nat) := elems <- list_at snap ;; ret (seq 0 (length elems)).

Definition list_sort_by (src : Z) (args : list tagged) (span : Span) : M H tagged :=
  match args with
  | [cmp] =>
      snap <- snapshot src ;;
      idx <- positions snap ;;
      write_back src snap (msort_indices snap idx cmp span) 2 "sort_by" span
  | _ => raise (fun _ => arity_message show_nat "sort_by" 1 (length args)) span
  end.

(** The keys list: one call of [f] per element of the snapshot. *)
Definition collect_keys (snap : Z) (n : nat) (f : tagged) (span : Span) : M H Z :=
  keys <- (r <- alloc (OList []) ;; push (TObj r) ;;; ret r) ;;
  for_range (seq 0 n) tt (fun i _ =>
    e <- list_get snap i ;;
    k <- unroot_on_err 3 (call f [e] span) ;;
    list_push keys k ;;; ret (Continue tt)) ;;;
  ret keys.

Definition list_sort_by_key (src : Z) (args : list tagged) (span : Span) : M H tagged :=
  match args with
  | [f] =>
      snap <- snapshot src ;;
      idx <- positions snap ;;
      keys <- collect_keys snap (length idx) f span ;;
      write_back src snap (msort_ordered keys idx span) 3 "sort_by_key" span
  | _ => raise (fun _ => arity_message show_nat "sort_by_key" 1 (length args)) span
  end.

Definition list_sort_structs (src : Z) (span : Span) : M H tagged :=
  snap <- snapshot src ;;
  idx <- positions snap ;;
  write_back src snap (msort_ordered snap idx span) 2 "sort" span.

(** [slice::sort_by], a stable sort whose comparison here never fails. *)
Fixpoint std_insert (cmp : tagged -> tagged -> M H comparison) (x : tagged) (ys : list tagged) : M H (list tagged) :=
  match ys with
  | [] => ret [x]
  | y :: ys' => o <- cmp x y ;; if is_le o then ret (x :: ys) else out <- std_insert cmp x ys' ;; ret (y :: out)
  end.
Fixpoint std_sort_by (cmp : tagged -> tagged -> M H comparison) (xs : list tagged) : M H (list tagged) :=
  match xs with [] => ret [] | x :: xs => ys <- std_sort_by cmp xs ;; std_insert cmp x ys end.

(** The first element is a record or a sequence: such a list is sorted by [list_sort_structs]. *)
Definition user_compare (h : H) (elems : list tagged) : bool :=
  match elems with
  | TObj r :: _ => match hget h r with Some (OStruct _ _ | OEnum _ _ | OTuple _ | OList _) => true | _ => false end
  | _ => false
  end.

(** The [Sort] arm. *)
Definition list_sort (src : Z) (args : list tagged) (span : Span) : M H tagged :=
  match args with
  | [] =>
      elems <- list_at src ;;
      special <- gets (fun vm => user_compare (heap vm) elems) ;;
      if special : bool then list_sort_structs src span
      else ys <- std_sort_by value_order elems ;; list_replace src ys ;;; ret TNil
  | _ => raise (fun _ => arity_message show_nat "sort" 0 (length args)) span
  end.

(** ** The extremes *)

(** The scan of positions [1..n] for the first extreme of [data]. *)
Definition displaces (is_max : bool) (o : comparison) : bool :=
  match o with Lt => negb is_max | Gt => is_max | Eq => false end.
Definition scan_extreme (data : Z) (n : nat) (is_max : bool) (span : Span) : M H nat :=
  for_range (seq 1 (n - 1)) 0%nat (fun i best =>
    cur <- list_get data i ;;
    best_v <- list_get data best ;;
    o <- order_key cur best_v span ;;
    ret (Continue (if displaces is_max o then i else best))).

Definition list_reduce_extreme (src : Z) (is_max : bool) (span : Span) : M H tagged :=
  snap <- snapshot src ;;
  elems <- list_at snap ;;
  if (length elems =? 0)%nat then pops 2 ;;; alloc_option None
  else
    best <- unroot_on_err 2 (scan_extreme snap (length elems) is_max span) ;;
    result <- list_get snap best ;;
    some <- alloc_option (Some result) ;; pops 2 ;;; ret some.

Definition list_min_max_by (src : Z) (args : list tagged) (is_max : bool) (span : Span) : M H tagged :=
  match args with
  | [f] =>
      snap <- snapshot src ;;
      elems <- list_at snap ;;
      if (length elems =? 0)%nat then pops 2 ;;; alloc_option None
      else
        keys <- collect_keys snap (length elems) f span ;;
        best <- unroot_on_err 3 (scan_extreme keys (length elems) is_max span) ;;
        result <- list_get snap best ;;
        some <- alloc_option (Some result) ;; pops 3 ;;; ret some
  | _ => raise (fun _ => arity_message show_nat (if is_max then "max_by" else "min_by") 1 (length args)) span
  end.
End Natives.

(** ** The reference: insertion sort *)
Section Reference.
Context {A : Type} (leb : A -> A -> bool).

Fixpoint insert_sorted (x : A) (ys : list A) : list A :=
  match ys with [] => [x] | y :: ys' => if leb x y then x :: ys else y :: insert_sorted x ys' end.
Definition isort (xs : list A) : list A := foldr insert_sorted [] xs.

(** [ys] is [xs] in order, and equals keep their places. *)
Definition stable_sorted (xs ys : list A) : Prop :=
  StronglySorted (fun a b => leb a b = true) ys /\ ys ≡ₚ xs /\
  forall x, x ∈ xs -> filter (fun y => leb x y && leb y x = true) ys = filter (fun y => leb x y && leb y x = true) xs.

(** [leb] is a total preorder on [xs]. *)
Definition preorder_on (xs : list A) : Prop :=
  (forall a b, a ∈ xs -> b ∈ xs -> leb a b = true \/ leb b a = true) /\
  (forall a b c, a ∈ xs -> b ∈ xs -> c ∈ xs -> leb a b = true -> leb b c = true -> leb a c = true).

Lemma preorder_mono xs ys : preorder_on xs -> ys ⊆ xs -> preorder_on ys.
Proof. intros [T R] Hs. split; [intros; apply T; auto|intros a b c ? ? ?; apply R; auto]. Qed.

Lemma insert_perm x ys : insert_sorted x ys ≡ₚ x :: ys.
Proof. induction ys as [|y ys IH]; simpl; [done|]. destruct (leb x y); [done|]. rewrite IH. apply perm_swap. Qed.
Lemma isort_perm xs : isort xs ≡ₚ xs.
Proof. induction xs as [|x xs IH]; simpl; [done|]. by rewrite insert_perm, IH. Qed.
Lemma isort_elem x xs : x ∈ isort xs <-> x ∈ xs.
Proof. by rewrite isort_perm. Qed.

Lemma insert_strong x ys : preorder_on (x :: ys) -> StronglySorted (fun a b => leb a b = true) ys ->
  StronglySorted (fun a b => leb a b = true) (insert_sorted x ys).
Proof.
  induction ys as [|y ys IH]; intros P Hs; simpl; [repeat constructor|].
  apply sorting.StronglySorted_cons in Hs as [Hy Hs]. destruct (leb x y) eqn:E.
  - apply sorting.StronglySorted_cons. split; [|by apply sorting.StronglySorted_cons].
    apply list.Forall_forall. intros z [->|Hz]%elem_of_cons; [done|]. rewrite list.Forall_forall in Hy.
    destruct P as [_ T]. apply (T x y z); [by left|right; by left|right; by right|done|by apply Hy].
  - apply sorting.StronglySorted_cons. split.
    + apply list.Forall_forall. intros z. rewrite insert_perm. intros [->|Hz]%elem_of_cons.
      * destruct P as [T _]. destruct (T x y); [by left|right; by left|congruence|done].
      * rewrite list.Forall_forall in Hy. by apply Hy.
    + apply IH; [|done]. eapply preorder_mono; [exact P|]. intros z [->|?]%elem_of_cons; [by left|right; by right].
Qed.

Lemma insert_stable x ys z : preorder_on (z :: x :: ys) ->
  filter (fun y => leb z y && leb y z = true) (insert_sorted x ys) = filter (fun y => leb z y && leb y z = true) (x :: ys).
Proof.
  induction ys as [|y ys IH]; intros P; [done|]. cbn [insert_sorted]. destruct (leb x y) eqn:E; [done|].
  rewrite !(list.filter_cons _ y), IH.
  2: { eapply preorder_mono; [exact P|]. intros w [->|[->|?]%elem_of_cons]%elem_of_cons; [by left|right; by left|right; right; by right]. }
  rewrite !(list.filter_cons _ x), (list.filter_cons _ y). destruct P as [_ T].
  destruct (decide (leb z y && leb y z = true)) as [[Hzy Hyz]%andb_true_iff|]; [|done].
  destruct (decide (leb z x && leb x z = true)) as [[Hzx Hxz]%andb_true_iff|]; [|done].
  rewrite (T x z y) in E; [done| |by left| |done|done]; [right; by left|right; right; by left].
Qed.

Lemma isort_stable xs : preorder_on xs -> stable_sorted xs (isort xs).
Proof.
  intros P. split; [|split; [apply isort_perm|]].
  - induction xs as [|x xs IH]; simpl; [constructor|]. apply insert_strong.
    + eapply preorder_mono; [exact P|]. intros z. by rewrite !elem_of_cons, isort_elem.
    + apply IH. eapply preorder_mono; [exact P|]. intros z Hz. by right.
  - intros z Hz. assert (G : forall ws, ws ⊆ xs ->
      filter (fun y => leb z y && leb y z = true) (isort ws) = filter (fun y => leb z y && leb y z = true) ws); [|by apply G].
    intros ws. induction ws as [|w ws IH]; intros Hs; [done|]. cbn [isort foldr]. rewrite insert_stable.
    + rewrite !(list.filter_cons _ w). fold (isort ws). rewrite IH; [done|]. intros y Hy. apply Hs. by right.
    + eapply preorder_mono; [exact P|]. intros y [->|[->|Hy]%elem_of_cons]%elem_of_cons; [done|apply Hs; by left|].
      change (y ∈ isort ws) in Hy. rewrite isort_elem in Hy. apply Hs. by right.
Qed.

(** Merging keeps the order of insertion. *)
Fixpoint merge (xs : list A) : list A -> list A :=
  fix merge_right (ys : list A) : list A :=
    match xs, ys with
    | x :: xs', y :: ys' => if leb x y then x :: merge xs' ys else y :: merge_right ys'
    | _, _ => xs ++ ys
    end.
Lemma merge_cons x xs y ys :
  merge (x :: xs) (y :: ys) = if leb x y then x :: merge xs (y :: ys) else y :: merge (x :: xs) ys.
Proof. done. Qed.
Lemma merge_nil_l ys : merge [] ys = ys.
Proof. by destruct ys. Qed.
Lemma merge_nil_r xs : merge xs [] = xs.
Proof. destruct xs; simpl; [done|]. by rewrite app_nil_r. Qed.

Lemma insert_merge x xs ys : preorder_on (x :: xs ++ ys) -> insert_sorted x (merge xs ys) = merge (insert_sorted x xs) ys.
Proof.
  revert ys. induction xs as [|a xs IHx]; intros ys.
  - rewrite merge_nil_l. induction ys as [|b ys IHy]; intros P; [by rewrite merge_nil_r|].
    cbn [insert_sorted]. rewrite merge_cons. destruct (leb x b); [by rewrite merge_nil_l|]. f_equal. apply IHy.
    eapply preorder_mono; [exact P|]. intros z [->|?]%elem_of_cons; [by left|]. right. by right.
  - induction ys as [|b ys IHy]; intros P; [by rewrite !merge_nil_r|].
    assert (Px : preorder_on (x :: xs ++ b :: ys)).
    { eapply preorder_mono; [exact P|]. intros z [->|?]%elem_of_cons; [by left|]. right. by right. }
    assert (Py : preorder_on (x :: (a :: xs) ++ ys)).
    { eapply preorder_mono; [exact P|]. intros z. rewrite !elem_of_cons, !elem_of_app, !elem_of_cons. tauto. }
    assert (Hin : x ∈ x :: (a :: xs) ++ b :: ys /\ a ∈ x :: (a :: xs) ++ b :: ys /\ b ∈ x :: (a :: xs) ++ b :: ys).
    { split_and!; [by left|right; by left|right; right; apply elem_of_app; right; by left]. }
    destruct Hin as (Ix & Ia & Ib). destruct P as [T R]. rewrite merge_cons. destruct (leb a b) eqn:Eab.
    + cbn [insert_sorted]. destruct (leb x a) eqn:Exa; rewrite ?merge_cons, ?Eab.
      * by rewrite (R x a b Ix Ia Ib Exa Eab).
      * f_equal. by apply IHx.
    + cbn [insert_sorted]. destruct (leb x b) eqn:Exb.
      * assert (Eba : leb b a = true) by (destruct (T a b Ia Ib); congruence).
        rewrite (R x b a Ix Ib Ia Exb Eba), !merge_cons, Exb, Eab. done.
      * rewrite (IHy Py). cbn [insert_sorted]. destruct (leb x a); rewrite ?merge_cons, ?Exb, ?Eab; done.
Qed.

Lemma merge_isort xs ys : preorder_on (xs ++ ys) -> merge (isort xs) (isort ys) = isort (xs ++ ys).
Proof.
  induction xs as [|x xs IH]; intros P; [by rewrite merge_nil_l|]. cbn [app isort foldr]. fold (isort xs) (isort (xs ++ ys)).
  rewrite <- IH; [|eapply preorder_mono; [exact P|]; intros z Hz; by right].
  symmetry. apply insert_merge. eapply preorder_mono; [exact P|].
  intros z. change ((x :: xs) ++ ys) with (x :: (xs ++ ys)). rewrite !elem_of_cons, !elem_of_app, !isort_elem. done.
Qed.
End Reference.

(** Sorting commutes with a renaming that keeps the order. *)
Lemma isort_map {A B} (f : A -> B) (le1 : A -> A -> bool) (le2 : B -> B -> bool) xs :
  (forall a b, a ∈ xs -> b ∈ xs -> le1 a b = le2 (f a) (f b)) -> f <$> isort le1 xs = isort le2 (f <$> xs).
Proof.
  intros E. assert (G : forall x ys, x ∈ xs -> ys ⊆ xs -> f <$> insert_sorted le1 x ys = insert_sorted le2 (f x) (f <$> ys)).
  { intros x ys Hx. induction ys as [|y ys IH]; intros Hs; [done|]. cbn. rewrite <- E by (auto; apply Hs; by left).
    destruct (le1 x y); [done|]. cbn. f_equal. apply IH. intros z ?. apply Hs. by right. }
  assert (G2 : forall ys, ys ⊆ xs -> f <$> isort le1 ys = isort le2 (f <$> ys)); [|by apply G2].
  intros ys. induction ys as [|y ys IH]; intros Hs; [done|]. cbn. fold (isort le1 ys). rewrite G.
  - fold (isort le2 (f <$> ys)). f_equal. apply IH. intros z ?. apply Hs. by right.
  - apply Hs. by left.
  - intros z Hz. rewrite isort_elem in Hz. apply Hs. by right.
Qed.

(** ** The merge sort is the reference, for any comparison that returns *)
Section Engine.
Context {H : Type} {ops : HeapOps H}.
Context (first : tagged -> tagged -> M H bool) (data : Z) (ds : list tagged).
(** What the state keeps across a comparison, and what its answer means. *)
Context (J : Vm H -> Prop) (E : RuntimeError -> Vm H -> Prop) (R : tagged -> tagged -> bool -> Prop).
Context (Hdata : forall vm, J vm -> hget (heap vm) data = Some (OList ds)).
Context (Hfirst : forall a b vm, a ∈ ds -> b ∈ ds -> J vm -> wp (first a b) (fun ans v => J v /\ R a b ans) E vm).

Definition key_at (i : nat) : tagged := default TNil (ds !! i).
Definition at_key (leb : tagged -> tagged -> bool) (i j : nat) : bool := leb (key_at i) (key_at j).
Definition answers (leb : tagged -> tagged -> bool) : Prop := forall a b ans, R a b ans -> ans = leb a b.
Abbreviation in_range := (Forall (fun i => (i < length ds)%nat)).

Lemma key_at_elem i : (i < length ds)%nat -> ds !! i = Some (key_at i) /\ key_at i ∈ ds.
Proof.
  intros [x Hx]%lookup_lt_is_Some_2. unfold key_at. rewrite Hx. split; [done|]. by eapply list_elem_of_lookup_2.
Qed.

Lemma get_key i (Q : tagged -> Vm H -> Prop) vm : (i < length ds)%nat -> J vm -> Q (key_at i) vm -> wp (list_get data i) Q E vm.
Proof. intros Hi HJ HQ. unfold wp, list_get. rewrite (Hdata _ HJ). by destruct (key_at_elem i Hi) as [-> _]. Qed.

Lemma at_key_preorder leb idx : preorder_on leb ds -> in_range idx -> preorder_on (at_key leb) idx.
Proof.
  intros [T Tr] Hi. rewrite list.Forall_forall in Hi. unfold at_key.
  split; [intros i j Hin Hjn; apply T|intros i j k Hin Hjn Hkn; apply Tr]; by apply key_at_elem, Hi.
Qed.

Definition merged (left right : list nat) (out : list nat) (v : Vm H) : Prop :=
  J v /\ out ≡ₚ left ++ right /\ forall leb, answers leb -> out = merge (at_key leb) left right.

Lemma merge_loop_ok left right vm : in_range left -> in_range right -> J vm ->
  wp (merge_loop first data left right) (merged left right) E vm.
Proof.
  revert right vm. induction left as [|l left IHl]; intros right vm.
  { intros _ _ HJ. destruct right; apply vwp_ret; (split; [done|]); by split. }
  revert vm. induction right as [|r right IHr]; intros vm Hl Hr HJ.
  { apply vwp_ret. by split. }
  cbn [merge_loop]. pose proof Hl as [Hl1 Hl2]%list.Forall_cons. pose proof Hr as [Hr1 Hr2]%list.Forall_cons.
  apply vwp_bind. apply get_key; [done..|]. apply vwp_bind. apply get_key; [done..|]. apply vwp_bind.
  eapply vwp_mono; [apply Hfirst; [by apply key_at_elem|by apply key_at_elem|done]| |done].
  intros ans v [HJ' HR]. destruct ans; apply vwp_bind.
  - eapply vwp_mono; [apply (IHl (r :: right)); done| |done]. intros out w (Jw & Pw & Mw). apply vwp_ret. split; [done|]. split.
    + by rewrite Pw.
    + intros leb Hleb. rewrite merge_cons. unfold at_key at 1. rewrite <- (Hleb _ _ _ HR). f_equal. by apply Mw.
  - eapply vwp_mono; [apply IHr; done| |done]. intros out w (Jw & Pw & Mw). apply vwp_ret. split; [done|]. split.
    + rewrite Pw. apply (Permutation_middle (l :: left) right r).
    + intros leb Hleb. rewrite merge_cons. unfold at_key at 1. rewrite <- (Hleb _ _ _ HR). f_equal. by apply Mw.
Qed.

Definition sorted_positions (idx out : list nat) (v : Vm H) : Prop :=
  J v /\ out ≡ₚ idx /\ forall leb, answers leb -> preorder_on leb ds -> out = isort (at_key leb) idx.

Lemma msort_ok n idx vm : in_range idx -> (length idx <= n)%nat -> J vm ->
  wp (msort first data n idx) (sorted_positions idx) E vm.
Proof.
  revert idx vm. induction n as [|n IH]; intros idx vm Hr Hn HJ; cbn [msort].
  { destruct idx; [|simpl in Hn; lia]. by apply vwp_ret. }
  destruct (Nat.leb_spec (length idx) 1) as [Hle|Hgt].
  { apply vwp_ret. split; [done|]. split; [done|]. by destruct idx as [|i [|]]; [|..|simpl in Hle; lia]. }
  set (mid := (length idx / 2)%nat).
  assert (Hmid : (0 < mid < length idx)%nat).
  { split; [apply Nat.div_str_pos; lia|apply Nat.div_lt; lia]. }
  rewrite <- (take_drop mid idx) in Hr. apply Forall_app in Hr as [Hr1 Hr2].
  apply vwp_bind. eapply vwp_mono; [apply IH; [done|rewrite length_take; lia|done]| |done].
  intros lo v (J1 & P1 & S1). apply vwp_bind. eapply vwp_mono; [apply IH; [done|rewrite length_drop; lia|done]| |done].
  intros hi w (J2 & P2 & S2). eapply vwp_mono; [apply merge_loop_ok; [by rewrite P1|by rewrite P2|done]| |done].
  intros out u (J3 & P3 & M3). split; [done|]. split.
  - by rewrite P3, P1, P2, take_drop.
  - intros leb Hleb Hp. rewrite (M3 leb Hleb), (S1 leb Hleb Hp), (S2 leb Hleb Hp), merge_isort, take_drop; [done|].
    apply at_key_preorder; [done|]. by apply Forall_app.
Qed.
End Engine.

(** ** Positions and elements *)
Lemma key_at_seq xs : key_at xs <$> seq 0 (length xs) = xs.
Proof.
  apply list_eq. intros i. rewrite list_lookup_fmap. destruct (decide (i < length xs)%nat).
  - rewrite lookup_seq_lt by done. simpl. unfold key_at. by destruct (lookup_lt_is_Some_2 xs i) as [x ->].
  - rewrite lookup_seq_ge, lookup_ge_None_2 by lia. done.
Qed.

(** Reading a permutation of the positions reads a permutation of the elements. *)
Lemma reorder_positions xs order : order ≡ₚ seq 0 (length xs) ->
  mapM (fun i => xs !! i) order = Some (key_at xs <$> order) /\ key_at xs <$> order ≡ₚ xs.
Proof.
  intros P. split; [|rewrite P; by rewrite key_at_seq].
  assert (Hr : Forall (fun i => (i < length xs)%nat) order).
  { apply list.Forall_forall. intros i. rewrite P, elem_of_seq. lia. }
  clear P. induction Hr as [|i order Hi _ IH]; [done|]. simpl. rewrite IH.
  destruct (key_at_elem xs i Hi) as [-> _]. done.
Qed.

Lemma isort_positions xs leb : key_at xs <$> isort (at_key xs leb) (seq 0 (length xs)) = isort leb xs.
Proof. by rewrite (isort_map (key_at xs) _ leb), key_at_seq. Qed.

Lemma seq_in_range n : Forall (fun i => (i < n)%nat) (seq 0 n).
Proof. apply list.Forall_forall. intros i. rewrite elem_of_seq. lia. Qed.

(** ** What a sort does *)
Section Sorts.
Context {H : Type} {ops : HeapOps H} {hlaws : HeapLaws H} {sto : HeapStore H} {nans : NanWords H}.
Context {private : H -> Z -> Prop} {slaws : StoreLaws H private}.
Context (type_name : H -> tagged -> string) (show_nat : nat -> string).
Context (checkpoint : M H unit).
Context (invoke_value : tagged -> list tagged -> Span -> M H tagged).
Context (compare_hook : tagged -> tagged -> Span -> M H (option tagged)).
Context (missing_hook : H -> tagged -> Span -> RuntimeError).
Context (fuel : nat) (span : Span).
Implicit Types (vm : Vm H).
Abbreviation native := (@native H ops private).
Abbreviation call := (call checkpoint invoke_value).

Definition mutation_error (name : string) : RuntimeError :=
  vm_err ("list modified during '" +:+ name +:+ "' -- a sort callback must not mutate the list being sorted") span.

Lemma unroot_err {A} n (m : M H A) (Q : A -> Vm H -> Prop) (E E' : RuntimeError -> Vm H -> Prop) vm :
  wp m Q E' vm -> (forall e v, E' e v -> wp (pops n) (fun _ => E e) E v) -> wp (unroot_on_err n m) Q E vm.
Proof.
  intros Hm He. unfold wp, unroot_on_err in *. destruct (m vm) as [[a|e|] v]; try done. specialize (He e v Hm).
  unfold bind, throw. by destruct (pops n v) as [[] w].
Qed.

(** The end of every sort, with the native's state [native], once the positions are sorted. *)
Lemma write_back_ok vm0 src mine snap elems order roots name (Ok : list nat -> Vm H -> Prop) (Bad : RuntimeError -> Vm H -> Prop)
    (Q : tagged -> Vm H -> Prop) (E : RuntimeError -> Vm H -> Prop) vm :
  (snap, elems) ∈ mine -> roots = S (length mine) ->
  wp order (fun out v => native vm0 src mine [] v /\ out ≡ₚ seq 0 (length elems) /\ Ok out v)
           (fun e v => native vm0 src mine [] v /\ Bad e v) vm ->
  (forall e v, Bad e v -> E e (set_stack v (stack vm0))) ->
  (forall out v, native vm0 src mine [] v -> Ok out v -> hget (heap v) src <> Some (OList elems) ->
    E (mutation_error name) (set_stack v (stack vm0))) ->
  (forall out v, native vm0 src mine [] v -> out ≡ₚ seq 0 (length elems) -> Ok out v -> hget (heap v) src = Some (OList elems) ->
    Q TNil (set_stack (set_heap v (hset (heap v) src (OList (key_at elems <$> out)))) (stack vm0))) ->
  wp (write_back src snap order roots name span) Q E vm.
Proof.
  intros Hin -> Hord Hbad Hmut Hok. unfold write_back. apply vwp_bind.
  eapply unroot_err with (E' := fun e v => native vm0 src mine [] v /\ Bad e v).
  2: { intros e v [Hn Hb]. eapply native_leave; [exact Hn|done|]. by apply Hbad. }
  eapply vwp_mono; [exact Hord| |intros e v HE; exact HE].
  intros out v (Hn & Hp & Ho). pose proof Hn as [Es [cur Hcur] Hm Hd]. destruct (Hm snap elems Hin) as [Hsn _].
  apply vwp_bind. eapply unroot_err with (E' := fun e w => e = mutation_error name /\ w = v /\ hget (heap v) src <> Some (OList elems)).
  2: { intros e w (-> & -> & Hne). eapply native_leave; [exact Hn|done|]. eapply Hmut; [exact Hn|exact Ho|exact Hne]. }
  unfold wp at 1, sort_mutation_check. rewrite Hcur, Hsn. destruct (decide (cur = elems)) as [->|Hne].
  2: { unfold raise. split; [done|]. split; [done|]. congruence. }
  apply vwp_bind. unfold reorder. apply vwp_bind. eapply native_list_at; [exact Hn|exact Hin|].
  destruct (reorder_positions elems out Hp) as [-> _]. apply vwp_ret. apply vwp_bind.
  unfold wp at 1, list_replace, list_write. rewrite Hcur. apply vwp_bind.
  rewrite app_nil_r in Es.
  replace (S (length mine)) with (length (TObj src :: ((fun p => TObj p.1) <$> mine))) by (simpl; by rewrite length_fmap).
  eapply wp_pops; [exact Es|]. apply vwp_ret. by eapply Hok.
Qed.

Context (Hcheck : @reentrant H ops private unit [] (fun _ => []) checkpoint).
Context (Hinvoke : forall f args, @reentrant H ops private tagged (f :: args) (fun v => [v]) (invoke_value f args span)).

(** *** [sort_by]: any callback *)
Section SortBy.
Context (cmp : tagged) (elems : list tagged) (vm0 : Vm H) (src : Z).

(** A state that calls of [cmp] lead to: between them the native writes only [ps]. *)
Inductive ran (ps : list Z) : Vm H -> Prop :=
| ran_start vm : quiet ps vm0 vm -> ran ps vm
| ran_call vm args v : ran ps vm -> quiet ps (call cmp args span vm).2 v -> ran ps v.

(** The three ways it fails: a call raised, a call gave no int, or the receiver was changed. *)
Definition sort_by_fault (ps : list Z) (e : RuntimeError) (v : Vm H) : Prop :=
  (exists a b vm, a ∈ elems /\ b ∈ elems /\ ran ps vm /\ call cmp [a; b] span vm = (RErr e, v)) \/
  (exists a b vm out, a ∈ elems /\ b ∈ elems /\ ran ps vm /\ call cmp [a; b] span vm = (ROk out, v) /\
     int_val (heap v) out = None /\
     e = vm_err ("sort_by comparator must return int, got " +:+ type_name (heap v) out) span) \/
  (ran ps v /\ hget (heap v) src <> Some (OList elems) /\ e = mutation_error "sort_by").

(** An int answer [n] to [(a, b)] was given in some run. *)
Definition compared (a b : tagged) (ans : bool) : Prop :=
  exists vm out v n, call cmp [a; b] span vm = (ROk out, v) /\ int_val (heap v) out = Some n /\ ans = (n <=? 0)%Z.
(** The comparator decides [leb]. *)
Definition comparator_decides (leb : tagged -> tagged -> bool) : Prop :=
  forall a b vm out v n, a ∈ elems -> b ∈ elems -> call cmp [a; b] span vm = (ROk out, v) ->
    int_val (heap v) out = Some n -> (n <=? 0)%Z = leb a b.

(** Success: the receiver was as at the call, and holds its elements, sorted if there is an order. *)
Definition sort_by_done (r : tagged) (vm' : Vm H) : Prop :=
  r = TNil /\ stack vm' = stack vm0 /\ exists ps vm ys,
    Forall (fun p => hget (heap vm0) p = None) ps /\ ran ps vm /\ hget (heap vm) src = Some (OList elems) /\
    hget (heap vm') src = Some (OList ys) /\ quiet [src] vm vm' /\ ys ≡ₚ elems /\
    forall leb, preorder_on leb elems -> comparator_decides leb -> stable_sorted leb elems ys.
(** Failure: nothing was written back. *)
Definition sort_by_failed (e : RuntimeError) (vm' : Vm H) : Prop :=
  stack vm' = stack vm0 /\ exists ps vm,
    Forall (fun p => hget (heap vm0) p = None) ps /\ sort_by_fault ps e vm /\ heap vm' = heap vm.

Lemma first_sort_by snap a b vm : (forall r, cmp = TObj r -> hget (heap vm0) r <> None) -> hget (heap vm0) snap = None ->
  a ∈ elems -> b ∈ elems -> native vm0 src [(snap, elems)] [] vm /\ ran [snap] vm ->
  wp (n <- compare_with type_name checkpoint invoke_value cmp a b span ;; ret (n <=? 0)%Z)
    (fun ans v => (native vm0 src [(snap, elems)] [] v /\ ran [snap] v) /\ (compared a b ans /\ a ∈ elems /\ b ∈ elems))
    (fun e v => native vm0 src [(snap, elems)] [] v /\ sort_by_fault [snap] e v) vm.
Proof.
  intros Hcmp Hs Ha Hb [Hn Hr]. apply vwp_bind. unfold compare_with. apply vwp_bind.
  assert (Hf : forall x, x ∈ elems -> foreign [(snap, elems)] x) by (intros x Hx; eapply native_items; [exact Hn|by left|done]).
  eapply vwp_mono; [eapply wp_run, native_call; [apply (call_reentrant checkpoint invoke_value span Hcheck Hinvoke)|exact Hn|]| |].
  - intros x [->|[->| ->%list_elem_of_singleton]%elem_of_cons]%elem_of_cons; [|by apply Hf..].
    intros r [->|[]%elem_of_nil]%elem_of_cons E. by apply (Hcmp snap).
  - cbn beta. intros out v [[Hn' _] Er]. assert (Hr' : ran [snap] v).
    { eapply ran_call; [exact Hr|]. by rewrite Er. }
    unfold wp. destruct (int_val (heap v) out) as [n|] eqn:En.
    + split; [done|]. split; [|done]. by exists vm, out, v, n.
    + unfold raise. split; [done|]. right. left. by exists a, b, vm, out.
  - cbn beta. intros e v [Hn' Er]. split; [done|]. left. by exists a, b, vm.
Qed.

(** C8: [sort_by] is a stable sort under any comparator.  Whatever the comparator does, the call
    never panics and leaves the operand stack as it was.  It succeeds only if the receiver is still
    what it was at the call, and then holds a permutation of it: the stable sort when the
    comparator's signs decide a total preorder.  It fails only when a call raised or gave no int, or
    when the comparator changed the receiver, and then the native has written nothing. *)
Theorem sort_by_correct :
  live_list (heap vm0) src elems -> (forall r, cmp = TObj r -> hget (heap vm0) r <> None) ->
  wp (list_sort_by type_name show_nat checkpoint invoke_value src [cmp] span)
    sort_by_done sort_by_failed vm0.
Proof.
  intros Hl Hcmp. unfold list_sort_by. apply vwp_bind. eapply native_snapshot; [exact Hl|]. intros snap vm Hn Hs Hq.
  apply vwp_bind. unfold positions. apply vwp_bind. eapply native_list_at; [exact Hn|by left|]. apply vwp_ret. cbn beta.
  assert (Hps : Forall (fun p => hget (heap vm0) p = None) [snap]) by by constructor.
  eapply (write_back_ok vm0 src [(snap, elems)] snap elems _ _ _
    (fun out v => ran [snap] v /\ forall leb, preorder_on leb elems -> comparator_decides leb ->
       out = isort (at_key elems leb) (seq 0 (length elems))) (sort_by_fault [snap])); [by left|done|..].
  - eapply vwp_mono; [apply (msort_ok _ snap elems (fun v => native vm0 src [(snap, elems)] [] v /\ ran [snap] v)
      (fun e v => native vm0 src [(snap, elems)] [] v /\ sort_by_fault [snap] e v)
      (fun a b ans => compared a b ans /\ a ∈ elems /\ b ∈ elems))| |done].
    + intros v [[_ _ Hm _] _]. by apply (Hm snap elems); left.
    + intros a b v Ha Hb HJ. by apply first_sort_by.
    + apply seq_in_range.
    + done.
    + split; [done|]. apply ran_start. apply (quiet_mono []); [done|apply list_subseteq_nil].
    + intros out v ((Hn' & Hr) & Hp & Hsort). split; [done|]. split; [done|]. split; [done|].
      intros leb Hpre Hdec. apply Hsort; [|done]. intros a b ans ((w & o & w' & n & Ec & Ei & ->) & Ha & Hb). by eapply Hdec.
  - intros e v Hbad. split; [done|]. by exists [snap], v.
  - intros out v _ [Hr _] Hne. split; [done|]. exists [snap], v. split; [done|]. split; [|done]. right. by right.
  - intros out v Hn' Hp [Hr Hsort] Hsrc. split; [done|]. split; [done|]. exists [snap], v, (key_at elems <$> out).
    destruct (reorder_positions elems out Hp) as [_ Hperm]. split_and!; [done|done|done| | |done|].
    + apply hset_get. by rewrite Hsrc.
    + intros q Hq' _. apply hset_other. intros ->. apply Hq'. by left.
    + intros leb Hpre Hdec. rewrite (Hsort leb Hpre Hdec), isort_positions. by apply isort_stable.
Qed.
End SortBy.

(** *** [sort]: the order of the keys *)
Definition key_le (n : nat) (h : H) (a b : tagged) : bool :=
  match key_of n h a, key_of n h b with Some ka, Some kb => is_le (kcmp ka kb) | _, _ => true end.

Lemma is_le_total ka kb : is_le (kcmp ka kb) = true \/ is_le (kcmp kb ka) = true.
Proof. rewrite (ord_sym _ _ (kcmp_ordered ka) kb). destruct (kcmp ka kb); auto. Qed.
Lemma is_le_trans ka kb kc : is_le (kcmp ka kb) = true -> is_le (kcmp kb kc) = true -> is_le (kcmp ka kc) = true.
Proof.
  destruct (kcmp_ordered ka) as [_ _ L R T]. intros H1 H2.
  destruct (kcmp ka kb) eqn:E1; [by rewrite <- (L kb kc E1)| |done].
  destruct (kcmp kb kc) eqn:E2; [by rewrite <- (R kb kc E2), E1|by rewrite (T kb kc E1 E2)|done].
Qed.

(** The elements have keys of one type, small enough for the fuel. *)
Definition sortable (n : nat) (t : ktype) (h : H) (elems : list tagged) : Prop :=
  forall x, x ∈ elems -> exists k, key_of n h x = Some k /\ has_type t k = true /\ (weight k <= fuel)%nat.

Lemma key_le_preorder n t h elems : sortable n t h elems -> preorder_on (key_le n h) elems.
Proof.
  intros Hs. unfold key_le. split.
  - intros a b (ka & -> & _)%Hs (kb & -> & _)%Hs. apply is_le_total.
  - intros a b c (ka & -> & _)%Hs (kb & -> & _)%Hs (kc & -> & _)%Hs. apply is_le_trans.
Qed.

Lemma std_sort_pure (cmp : tagged -> tagged -> M H comparison) (c : tagged -> tagged -> comparison) xs vm :
  (forall a b, a ∈ xs -> b ∈ xs -> cmp a b vm = (ROk (c a b), vm)) ->
  std_sort_by cmp xs vm = (ROk (isort (fun a b => is_le (c a b)) xs), vm).
Proof.
  intros Hc. assert (Gi : forall x ys, x ∈ xs -> ys ⊆ xs ->
    std_insert cmp x ys vm = (ROk (insert_sorted (fun a b => is_le (c a b)) x ys), vm)).
  { intros x ys Hx. induction ys as [|y ys IH]; intros Hs; [done|]. cbn [std_insert insert_sorted]. unfold bind at 1.
    rewrite Hc by (auto; apply Hs; by left). destruct (is_le (c x y)); [done|]. unfold bind. rewrite IH; [done|].
    intros z ?. apply Hs. by right. }
  assert (Gs : forall ys, ys ⊆ xs -> std_sort_by cmp ys vm = (ROk (isort (fun a b => is_le (c a b)) ys), vm)); [|by apply Gs].
  intros ys. induction ys as [|y ys IH]; intros Hs; [done|]. cbn [std_sort_by]. unfold bind.
  rewrite IH by (intros z ?; apply Hs; by right). cbn [isort foldr]. fold (isort (fun a b => is_le (c a b)) ys). apply Gi.
  - apply Hs. by left.
  - intros z Hz. rewrite isort_elem in Hz. apply Hs. by right.
Qed.

(** [value_order] on two scalars of one type. *)
Lemma value_order_keys vm a b ka kb : scalar (heap vm) a ka -> scalar (heap vm) b kb -> alike ka kb = true ->
  value_order a b vm = (ROk (kcmp ka kb), vm).
Proof.
  intros Sa Sb Hal. unfold value_order.
  destruct (compare_scalars _ _ _ _ _ Sa Sb Hal) as [(x & nx & y & ny & -> & ->)|[-> ->]]; [|done].
  pose proof Sa as (_ & _ & -> & _). pose proof Sb as (_ & _ & -> & _). by apply order_floats.
Qed.

Lemma user_compare_seq n t vm elems : sortable n t (heap vm) elems ->
  if user_compare (heap vm) elems then True
  else forall x, x ∈ elems -> exists k, key_of n (heap vm) x = Some k /\ has_type t k = true /\ scalar (heap vm) x k.
Proof.
  intros Hs. destruct elems as [|x0 elems]; [by intros x ?%elem_of_nil|].
  destruct (Hs x0) as (k0 & K0 & T0 & _); [by left|]. destruct n as [|n]; [done|].
  pose proof (key_cases _ _ _ _ K0) as [S0|(xs & ks & r & -> & _ & [[Er _]|[Er _]])]; [|by simpl; rewrite Er..].
  assert (Eu : user_compare (heap vm) (x0 :: elems) = false).
  { destruct S0 as (Sk & Sr & _). destruct x0; try done. simpl in *. destruct (hget (heap vm) r) as [[]|]; done. }
  rewrite Eu. intros x Hx. destruct (Hs x Hx) as (k & K & T & _). exists k. split; [done|]. split; [done|].
  pose proof (key_cases _ _ _ _ K) as [Sx|(xs & ks & Qx)]; [done|]. exfalso.
  destruct (key_scalar_seq _ _ _ _ _ _ _ _ S0 Qx) as [E _]. by rewrite (has_type_alike t) in E.
Qed.

(** The snapshot is one allocation: the NaNs stay as they are, and so do the keys. *)
Lemma snapshot_words src (Q : Z -> Vm H -> Prop) (E : RuntimeError -> Vm H -> Prop) vm0 : wp (snapshot src) Q E vm0 ->
  wp (snapshot src) (fun r v => Q r v /\ forall q, hget (heap vm0) q <> None -> nan_word (heap v) q = nan_word (heap vm0) q) E vm0.
Proof.
  unfold wp, snapshot, bind, push, list_at, alloc. simpl. destruct (hget (heap vm0) src) as [[]|]; try done.
  change (heap (set_stack vm0 _)) with (heap vm0).
  destruct (halloc (heap vm0) (OList xs)) as [h r] eqn:Ea. intros HQ. split; [done|]. intros q Hq.
  rewrite <- (nan_halloc (heap vm0) (OList xs) q Hq). by rewrite Ea.
Qed.
Lemma snapshot_keys n k x (vm0 vm : Vm H) : quiet [] vm0 vm ->
  (forall q, hget (heap vm0) q <> None -> nan_word (heap vm) q = nan_word (heap vm0) q) ->
  key_of n (heap vm0) x = Some k -> key_of n (heap vm) x = Some k.
Proof. intros Hq Hw. apply key_of_mono; [|done]. intros r o E. rewrite Hq; [done|apply not_elem_of_nil|congruence]. Qed.

Lemma sort_structs_ok n t elems vm0 src : live_list (heap vm0) src elems -> sortable n t (heap vm0) elems ->
  wp (list_sort_structs type_name compare_hook missing_hook fuel src span)
    (fun r vm' => r = TNil /\ stack vm' = stack vm0 /\ hget (heap vm') src = Some (OList (isort (key_le n (heap vm0)) elems)) /\
       quiet [src] vm0 vm') (fun _ _ => False) vm0.
Proof.
  intros Hl Hs. unfold list_sort_structs. apply vwp_bind.
  eapply vwp_mono; [apply snapshot_words; eapply native_snapshot; [exact Hl|]; intros snap vm Hn _ Hq; exact (conj Hn Hq)| |exact (fun e v HE => HE)].
  cbn beta. intros snap vm [[Hn Hq] Hw].
  apply vwp_bind. unfold positions. apply vwp_bind. eapply native_list_at; [exact Hn|by left|]. apply vwp_ret. cbn beta.
  eapply (write_back_ok vm0 src [(snap, elems)] snap elems _ _ _
    (fun out v => quiet [] vm0 v /\ out = isort (at_key elems (key_le n (heap vm0))) (seq 0 (length elems))) (fun _ _ => False));
    [by left|done| |done|..].
  - eapply vwp_mono; [apply (msort_ok _ snap elems (fun v => v = vm)
      (fun e v => False) (fun a b ans => ans = key_le n (heap vm0) a b))| |done].
    + intros v ->. destruct Hn as [_ _ Hm _]. by apply (Hm snap elems); left.
    + intros a b v Ha Hb ->. destruct (Hs a Ha) as (ka & Ka & Ta & Wa), (Hs b Hb) as (kb & Kb & Tb & _).
      pose proof (order_key_answers type_name compare_hook missing_hook n t fuel a b ka kb span vm
        (snapshot_keys _ _ _ _ _ Hq Hw Ka) (snapshot_keys _ _ _ _ _ Hq Hw Kb) Ta Tb Wa) as Eo.
      apply vwp_bind. eapply wp_eq; [exact Eo|]. apply vwp_ret. split; [done|]. unfold key_le. by rewrite Ka, Kb.
    + apply seq_in_range.
    + done.
    + done.
    + intros out v (-> & Hp & Hsort). split; [done|]. split; [done|]. split; [done|].
      apply Hsort; [by intros a b ans|by eapply key_le_preorder].
  - intros out v _ [Hq' _] Hne. apply Hne. destruct Hl as [Hl _]. by rewrite Hq'; [|apply not_elem_of_nil|congruence].
  - intros out v Hn' Hp [Hq' ->] Hsrc. rewrite isort_positions. split; [done|]. split; [done|]. split.
    + apply hset_get. by rewrite Hsrc.
    + intros q Hq2 Hlq. cbn [heap set_stack set_heap]. rewrite hset_other by (intros ->; apply Hq2; by left).
      apply Hq'; [apply not_elem_of_nil|done].
Qed.

(** *** [sort_by_key]: keys once per element, then the order of the keys *)
Abbreviation answered := (answered checkpoint invoke_value span).

(** The order of the walk on two keys of a state whose objects the run leaves alone. *)
Lemma order_sortable n t ks a b vm : sortable n t (heap vm) ks -> a ∈ ks -> b ∈ ks -> exists ka kb,
  key_of n (heap vm) a = Some ka /\ key_of n (heap vm) b = Some kb /\
  order_key type_name compare_hook missing_hook fuel a b span vm = (ROk (kcmp ka kb), vm).
Proof.
  intros Hs (ka & Ka & Ta & Wa)%Hs (kb & Kb & Tb & _)%Hs. exists ka, kb. split; [done|]. split; [done|].
  by apply (order_key_answers type_name compare_hook missing_hook n t).
Qed.

(** The failure of a key: the calls before it answered, and the next one raised. *)
Definition key_fault (ps : list Z) (f : tagged) (elems : list tagged) (vm0 : Vm H) (e : RuntimeError) (v : Vm H) : Prop :=
  exists outs vm x, answered ps HMap TNil f elems vm0 outs vm /\ elems !! length outs = Some x /\
    call f [x] span vm = (RErr e, v).

Lemma collect_keys_ok vm0 src snap elems f vm (Q : Z -> Vm H -> Prop) (E : RuntimeError -> Vm H -> Prop) :
  (forall r, f = TObj r -> hget (heap vm0) r <> None) ->
  native vm0 src [(snap, elems)] [] vm -> hget (heap vm0) snap = None -> quiet [] vm0 vm ->
  (forall keys ks v, native vm0 src [(snap, elems); (keys, ks)] [] v -> hget (heap vm0) keys = None ->
     answered [snap; keys] HMap TNil f elems vm0 ks v -> length ks = length elems -> Q keys v) ->
  (forall keys e v, hget (heap vm0) keys = None -> key_fault [snap; keys] f elems vm0 e v ->
     E e (set_stack v (stack vm0))) ->
  wp (collect_keys checkpoint invoke_value snap (length elems) f span) Q E vm.
Proof.
  intros Hf Hn Hs Q0 HQ HE. unfold collect_keys. apply vwp_bind.
  eapply (native_alloc vm0 src [(snap, elems)]); [exact Hn|by intros x ?%elem_of_nil|].
  intros keys v Hn1 Hk0 Q1. assert (Hk : hget (heap vm0) keys = None) by (eapply quiet_fresh; [exact Q0|apply not_elem_of_nil|done]).
  set (Inv := fun (i : nat) (_ : unit) w => exists ks, length ks = i /\
    native vm0 src [(snap, elems); (keys, ks)] [] w /\ answered [snap; keys] HMap TNil f elems vm0 ks w).
  apply vwp_bind. eapply vwp_mono; [apply (wp_for_range Inv (Inv (length elems)) E _ (length elems))| |done].
  - done.
  - exists []. split; [done|]. split; [done|]. apply answered_nil.
    apply (quiet_mono []); [by eapply quiet_trans|apply list_subseteq_nil].
  - intros i [] w Hi (ks & Hl & Hw & Ha). destruct (lookup_lt_is_Some_2 elems i Hi) as [x Hx]. apply vwp_bind.
    eapply native_get; [exact Hw|by left|exact Hx|]. subst i.
    assert (Fx : foreign [(snap, elems); (keys, ks)] x) by (eapply native_items; [exact Hw|by left|by eapply list_elem_of_lookup_2]).
    apply vwp_bind. eapply unroot_err with (E' := fun e v => native vm0 src [(snap, elems); (keys, ks)] [] v /\
      key_fault [snap; keys] f elems vm0 e v).
    2: { intros e u [Hu Hb]. eapply native_leave; [exact Hu|done|]. by eapply HE. }
    eapply vwp_mono; [eapply wp_run, native_call; [apply (call_reentrant checkpoint invoke_value span Hcheck Hinvoke)|exact Hw|]| |].
    + intros y [->| ->%list_elem_of_singleton]%elem_of_cons; [|done].
      intros r [->|[->|[]%elem_of_nil]%elem_of_cons]%elem_of_cons E0; by eapply Hf.
    + cbn beta. intros k u [[Hu Fo] Er]. apply vwp_bind. eapply push_result; [exact Hu|apply Fo; by left|].
      intros u' Hu' Hq. apply vwp_ret. exists (ks ++ [k]). split; [rewrite length_app; simpl; lia|]. split; [done|].
      eapply answered_call; [exact Ha| |exact Er|].
      * unfold hof_next. simpl. by rewrite Hx.
      * eapply quiet_mono; [exact Hq|]. intros ? ->%list_elem_of_singleton. right. by left.
    + cbn beta. intros e u [Hu Er]. split; [done|]. by exists ks, w, x.
  - done.
  - intros [] w (ks & Hl & Hw & Ha). apply vwp_ret. by eapply HQ.
Qed.

Lemma sort_by_key_correct n t f elems vm0 src :
  live_list (heap vm0) src elems -> (forall r, f = TObj r -> hget (heap vm0) r <> None) ->
  (forall ps ks vm, answered ps HMap TNil f elems vm0 ks vm -> length ks = length elems -> sortable n t (heap vm) ks) ->
  wp (list_sort_by_key type_name show_nat checkpoint invoke_value compare_hook missing_hook fuel src [f] span)
    (fun r vm' => r = TNil /\ stack vm' = stack vm0 /\ exists ps ks vm zs,
       Forall (fun p => hget (heap vm0) p = None) ps /\ answered ps HMap TNil f elems vm0 ks vm /\ length ks = length elems /\
       hget (heap vm) src = Some (OList elems) /\ hget (heap vm') src = Some (OList zs.*2) /\ quiet [src] vm vm' /\
       stable_sorted (fun p q => key_le n (heap vm) p.1 q.1) (zip ks elems) zs)
    (fun e vm' => stack vm' = stack vm0 /\ exists ps vm, Forall (fun p => hget (heap vm0) p = None) ps /\ heap vm' = heap vm /\
       (key_fault ps f elems vm0 e vm \/
        exists ks, answered ps HMap TNil f elems vm0 ks vm /\ hget (heap vm) src <> Some (OList elems) /\ e = mutation_error "sort_by_key"))
    vm0.
Proof.
  intros Hl Hf Hkeys. unfold list_sort_by_key. apply vwp_bind. eapply native_snapshot; [exact Hl|]. intros snap vm Hn Hs Hq.
  apply vwp_bind. unfold positions. apply vwp_bind. eapply native_list_at; [exact Hn|by left|]. apply vwp_ret. cbn beta. rewrite length_seq.
  apply vwp_bind. eapply collect_keys_ok; [exact Hf|exact Hn|exact Hs|exact Hq| |].
  2: { intros keys e v Hk Hb. split; [done|]. exists [snap; keys], v. split; [by repeat constructor|]. split; [done|]. by left. }
  intros keys ks v Hn1 Hk Ha Hlen. pose proof (Hkeys _ _ _ Ha Hlen) as Hsort.
  assert (Hps : Forall (fun p => hget (heap vm0) p = None) [snap; keys]) by by repeat constructor.
  eapply (write_back_ok vm0 src [(snap, elems); (keys, ks)] snap elems _ _ _
    (fun out w => w = v /\ out = isort (at_key ks (key_le n (heap v))) (seq 0 (length elems))) (fun _ _ => False));
    [by left|done| |done|..].
  - rewrite <- Hlen. eapply vwp_mono; [apply (msort_ok _ keys ks (fun w => w = v) (fun e w => False)
      (fun a b ans => ans = key_le n (heap v) a b))| |done].
    + intros w ->. destruct Hn1 as [_ _ Hm _]. apply (Hm keys ks). right. by left.
    + intros a b w Ha' Hb' ->. destruct (order_sortable n t ks a b v Hsort Ha' Hb') as (ka & kb & Ka & Kb & Eo).
      apply vwp_bind. eapply wp_eq; [exact Eo|]. apply vwp_ret. split; [done|]. unfold key_le. by rewrite Ka, Kb.
    + apply seq_in_range.
    + done.
    + done.
    + intros out w (-> & Hp & Hso). split; [done|]. split; [done|]. split; [done|].
      apply Hso; [by intros a b ans|by eapply key_le_preorder].
  - intros out w Hn' [-> _] Hne. split; [done|]. exists [snap; keys], v. split; [done|]. split; [done|]. right. by exists ks.
  - intros out w Hn' Hp [-> ->] Hsrc. split; [done|]. split; [done|].
    set (le := fun p q : tagged * tagged => key_le n (heap v) p.1 q.1).
    set (at_pair := fun i => (key_at ks i, key_at elems i)).
    assert (Ez : at_pair <$> seq 0 (length elems) = zip ks elems).
    { rewrite <- (key_at_seq ks) at 1. rewrite <- (key_at_seq elems) at 2. rewrite Hlen. unfold at_pair.
      clear. induction (seq 0 (length elems)) as [|i l IH]; [done|]. simpl. by f_equal. }
    exists [snap; keys], ks, v, (isort le (zip ks elems)). split_and!; [done|done|done|done| | |].
    + cbn [heap set_stack set_heap]. rewrite hset_get by (by rewrite Hsrc). do 2 f_equal.
      rewrite <- Ez, <- (isort_map at_pair (at_key ks (key_le n (heap v)))) by done. by rewrite <- list_fmap_compose.
    + intros q Hq' _. apply hset_other. intros ->. apply Hq'. by left.
    + apply isort_stable. destruct (key_le_preorder n t _ _ Hsort) as [T R].
      assert (Hin : forall p : tagged * tagged, p ∈ zip ks elems -> p.1 ∈ ks).
      { intros [a b] Hp'. by apply elem_of_zip_l in Hp'. }
      split; [intros p q Hp1 Hq1; apply T; auto|intros p q r Hp1 Hq1 Hr1; apply R; auto].
Qed.

(** *** [min] and [max]: the first extreme *)

(** Position [best] holds the first of the keys that nothing displaces. *)
Definition first_extreme (is_max : bool) (kks : list okey) (i best : nat) : Prop :=
  exists kb, kks !! best = Some kb /\ forall j kj, (j < i)%nat -> kks !! j = Some kj ->
    displaces is_max (kcmp kj kb) = false /\ ((j < best)%nat -> displaces is_max (kcmp kb kj) = true).

Lemma extreme_step is_max kks i best k kb : kks !! i = Some k -> kks !! best = Some kb -> (best < i)%nat ->
  first_extreme is_max kks i best ->
  first_extreme is_max kks (S i) (if displaces is_max (kcmp k kb) then i else best).
Proof.
  intros Hk Hkb Hlt (kb' & Hkb' & Hall). simplify_eq. destruct (kcmp_ordered k) as [R Sy L Rr T].
  destruct (displaces is_max (kcmp k kb)) eqn:Ed.
  - exists k. split; [done|]. intros j kj Hj Hkj. destruct (decide (j = i)) as [->|Hne].
    { simplify_eq. rewrite R. split; [done|lia]. }
    destruct (Hall j kj) as [Hd _]; [lia|done|]. rewrite (Sy kj).
    assert (Hm : displaces is_max (kcmp k kj) = true).
    { pose proof (ord_sym _ _ (kcmp_ordered kj) kb) as Sj. destruct is_max; simpl in *.
      - destruct (kcmp k kj) eqn:Ekj; [|exfalso|done].
        + rewrite <- (L kj kb Ekj) in Ed. destruct (kcmp kj kb); done.
        + destruct (kcmp kj kb) eqn:Ejb; [rewrite <- (Rr kj kb Ejb), Ekj in Ed; done| |done].
          by rewrite (T kj kb Ekj Ejb) in Ed.
      - destruct (kcmp k kb) eqn:Ekb; try done. destruct (kcmp kj kb) eqn:Ejb; simpl in *; try done.
        + by rewrite <- (Rr kb kj Sj), Ekb.
        + by rewrite (T kb kj Ekb Sj). }
    rewrite Hm. split; [|done]. by destruct is_max, (kcmp k kj).
  - exists kb. split; [done|]. intros j kj Hj Hkj. destruct (decide (j = i)) as [->|Hne]; [|by apply Hall; [lia|]].
    simplify_eq. split; [done|lia].
Qed.

(** The scan over a list of sortable values that the native's state keeps. *)
Lemma scan_extreme_ok n t data ds kks is_max (Q : nat -> Vm H -> Prop) (E : RuntimeError -> Vm H -> Prop) vm :
  sortable n t (heap vm) ds -> hget (heap vm) data = Some (OList ds) -> Forall2 (fun x k => key_of n (heap vm) x = Some k) ds kks ->
  ds <> [] -> (forall best, (best < length ds)%nat -> first_extreme is_max kks (length ds) best -> Q best vm) ->
  wp (scan_extreme type_name compare_hook missing_hook fuel data (length ds) is_max span) Q E vm.
Proof.
  intros Hs Hd Hk Hne HQ. unfold scan_extreme. pose proof (Forall2_length Hk) as Hlen.
  assert (Hpos : (0 < length ds)%nat) by (destruct ds; simpl; [done|lia]).
  assert (Hget : forall i, (i < length ds)%nat -> exists x k, ds !! i = Some x /\ kks !! i = Some k /\ key_of n (heap vm) x = Some k).
  { intros i [x Hx]%lookup_lt_is_Some_2. destruct (Forall2_lookup_l _ _ _ _ _ Hk Hx) as (k & ? & ?). eauto. }
  eapply (wp_for_range (fun i best w => w = vm /\ (best < i)%nat /\ first_extreme is_max kks i best) _ E _ (length ds)).
  - lia.
  - split; [done|]. split; [lia|]. destruct (Hget 0%nat Hpos) as (x & k & _ & Hk0 & _). exists k. split; [done|].
    intros j kj Hj Hkj. replace j with 0%nat in * by lia. simplify_eq. rewrite (ord_refl _ _ (kcmp_ordered k)). split; [done|lia].
  - intros i best w Hi (-> & Hb & Hext). destruct (Hget i Hi) as (x & k & Hx & Hki & Kx).
    destruct (Hget best) as (y & kb & Hy & Hkb & Ky); [lia|].
    apply vwp_bind. unfold wp at 1, list_get. rewrite Hd, Hx. apply vwp_bind. unfold wp at 1, list_get. rewrite Hd, Hy.
    destruct (order_sortable n t ds x y vm Hs) as (k' & kb' & Kx' & Ky' & Eo); [by eapply list_elem_of_lookup_2..|].
    assert (k' = k) as -> by congruence. assert (kb' = kb) as -> by congruence.
    apply vwp_bind. eapply wp_eq; [exact Eo|]. apply vwp_ret. split; [done|].
    split; [destruct (displaces is_max (kcmp k kb)); lia|by apply extreme_step].
  - intros best w (-> & Hb & Hext). by apply HQ.
Qed.

Lemma list_reduce_extreme_ok n t is_max elems kks vm0 src :
  live_list (heap vm0) src elems -> sortable n t (heap vm0) elems ->
  Forall2 (fun x k => key_of n (heap vm0) x = Some k) elems kks ->
  wp (list_reduce_extreme type_name compare_hook missing_hook fuel src is_max span)
    (fun r vm' => stack vm' = stack vm0 /\ quiet [] vm0 vm' /\
       if (length elems =? 0)%nat then represents (heap vm') (AOption None) r
       else exists best x, elems !! best = Some x /\ first_extreme is_max kks (length elems) best /\ represents (heap vm') (AOption (Some x)) r)
    (fun _ _ => False) vm0.
Proof.
  intros Hl Hs Hk. unfold list_reduce_extreme. apply vwp_bind.
  eapply vwp_mono; [apply snapshot_words; eapply native_snapshot; [exact Hl|]; intros snap vm Hn _ Hq; exact (conj Hn Hq)| |exact (fun e v HE => HE)].
  cbn beta. intros snap vm [[Hn Hq] Hw].
  apply vwp_bind. eapply native_list_at; [exact Hn|by left|]. destruct (Nat.eqb_spec (length elems) 0) as [Hz|Hnz].
  - apply vwp_bind. eapply native_leave; [exact Hn|done|]. apply wp_alloc_option. intros r v Hr Hqv Hst.
    split; [done|]. split; [by eapply quiet_trans; [exact Hq|]|]. by exists r.
  - destruct Hn as [Es Hsrc Hm Hd]. destruct (Hm snap elems) as [Hsn _]; [by left|].
    apply vwp_bind. eapply unroot_err with (E' := fun _ _ => False); [|done].
    apply (scan_extreme_ok n t snap elems kks); [|done| |by destruct elems|].
    + intros x (k & K & T & W)%Hs. exists k. split; [by eapply snapshot_keys|done].
    + eapply Forall2_impl; [|exact Hk]. intros x k. by apply snapshot_keys.
    + intros best Hb Hext. destruct (lookup_lt_is_Some_2 elems best Hb) as [x Hx].
      apply vwp_bind. unfold wp at 1, list_get. rewrite Hsn, Hx. apply vwp_bind, wp_alloc_option. intros r v Hr Hqv Hst.
      apply vwp_bind. eapply (wp_pops (stack vm0) [TObj src; TObj snap]); [by rewrite Hst, Es|]. apply vwp_ret.
      split; [done|]. split; [by eapply quiet_trans; [exact Hq|]|]. exists best, x. split; [done|]. split; [done|]. by exists r.
Qed.

(** C19: [sort] of values without records always succeeds: it leaves in the receiver the stable sort
    of its elements by their keys, whichever of its two paths it takes, and changes no other object.
    The order is the one of the operators on everything but NaN; NaNs go by sign and payload, the
    negative ones to the front and the positive ones to the back. *)
Theorem sort_total n t elems vm0 src :
  live_list (heap vm0) src elems -> sortable n t (heap vm0) elems ->
  exists vm' ys, list_sort type_name show_nat compare_hook missing_hook fuel src [] span vm0 = (ROk TNil, vm') /\
    hget (heap vm') src = Some (OList ys) /\ stable_sorted (key_le n (heap vm0)) elems ys /\
    stack vm' = stack vm0 /\ quiet [src] vm0 vm'.
Proof.
  intros Hl Hs. assert (G : wp (list_sort type_name show_nat compare_hook missing_hook fuel src [] span)
    (fun r vm' => r = TNil /\ stack vm' = stack vm0 /\ hget (heap vm') src = Some (OList (isort (key_le n (heap vm0)) elems)) /\
       quiet [src] vm0 vm') (fun _ _ => False) vm0).
  { unfold list_sort. apply vwp_bind. destruct Hl as [Hsrc Hlive]. eapply wp_eq; [unfold list_at; by rewrite Hsrc|].
    apply vwp_bind. unfold wp at 1, gets. pose proof (user_compare_seq n t vm0 elems Hs) as Hu.
    destruct (user_compare (heap vm0) elems); [by apply (sort_structs_ok n t)|].
    apply vwp_bind. eapply wp_eq; [apply (std_sort_pure _ (fun a b =>
      match key_of n (heap vm0) a, key_of n (heap vm0) b with Some ka, Some kb => kcmp ka kb | _, _ => Eq end))|].
    - intros a b (ka & Ka & Ta & Sa)%Hu (kb & Kb & Tb & Sb)%Hu. rewrite Ka, Kb. apply value_order_keys; [done|done|].
      by apply (has_type_alike t).
    - assert (Ei : isort (fun a b => is_le match key_of n (heap vm0) a, key_of n (heap vm0) b with
          | Some ka, Some kb => kcmp ka kb | _, _ => Eq end) elems = isort (key_le n (heap vm0)) elems).
      { rewrite <- (list_fmap_id elems) at 2. rewrite <- (isort_map id (fun a b => is_le match key_of n (heap vm0) a, key_of n (heap vm0) b with
          | Some ka, Some kb => kcmp ka kb | _, _ => Eq end)); [by rewrite list_fmap_id|].
        intros a b _ _. unfold key_le. simpl. destruct (key_of n (heap vm0) a), (key_of n (heap vm0) b); done. }
      rewrite Ei. apply vwp_bind. unfold wp at 1, list_replace, list_write. rewrite Hsrc. apply vwp_ret. split; [done|]. split; [done|].
      split; [apply hset_get; by rewrite Hsrc|]. intros q Hq _. apply hset_other. intros ->. apply Hq. by left. }
  unfold wp in G. destruct (list_sort _ _ _ _ _ _ _ _ vm0) as [[r|e|] vm']; [|done..]. destruct G as (-> & Es & Eg & Eq').
  exists vm', (isort (key_le n (heap vm0)) elems). split_and!; try done. by eapply isort_stable, key_le_preorder.
Qed.
End Sorts.

(** ** Instances on the heap of [ReentryDemo] *)
Import ReentryDemo.
Definition no_text (h : store) (v : tagged) : string := "".
Definition no_digits (n : nat) : string := "".
Definition no_compare (l r : tagged) (sp : Span) : M store (option tagged) := ret None.
Definition no_hook (h : store) (v : tagged) (sp : Span) : RuntimeError := vm_err "" sp.

Lemma demo_live (e : list tagged) : (forall r, TObj r ∉ e) -> hget (heap vm) 5 = Some (OList e) -> live_list (heap vm) 5 e.
Proof. intros Hn E. split; [done|]. by intros r ?%Hn. Qed.

Lemma sort_by_correct_witness :
  live_list (heap vm) 5 [TInt 3; TInt 1; TInt 2] /\
  wp (list_sort_by no_text no_digits no_halt invoke 5 [TNil] span)
    (sort_by_done no_halt invoke span TNil [TInt 3; TInt 1; TInt 2] vm 5)
    (sort_by_failed no_text no_halt invoke span TNil [TInt 3; TInt 1; TInt 2] vm 5) vm /\
  (hget (heap (list_sort_by no_text no_digits no_halt invoke 5 [TNil] span vm).2) 5 = Some (OList [TInt 1; TInt 2; TInt 3])).
Proof.
  assert (Hl : live_list (heap vm) 5 [TInt 3; TInt 1; TInt 2]).
  { apply demo_live; [|reflexivity]. intros r. rewrite !elem_of_cons. intros [?|[?|[?|[]%elem_of_nil]]]; discriminate. }
  split; [exact Hl|]. split; [|vm_compute; reflexivity].
  apply (sort_by_correct (private := private)).
  - apply no_halt_reentrant.
  - apply invoke_reentrant.
  - exact Hl.
  - intros r. discriminate.
Defined.

(** [[nan, 1.0, -nan].sort()] puts the negative NaN first and the positive one last. *)
#[global] Instance demo_nans : NanWords store :=
  {| nan_word h r := OrderDemo.quiet_nan r; nan_word_ok h := OrderDemo.quiet_nan_ok; nan_halloc h o r Hr := eq_refl |}.
Definition nans_vm : Vm store := mkVm
  (mkStore [5]%Z [(1, OFloatBox SpecFloat.S754_nan); (2, OFloatBox SpecFloat.S754_nan); (3, OFloatBox (F64.of_i64 1)); (5, OList [TFloat 1; TFloat 3; TFloat 2])]%Z)
  [] 0 [].

Lemma sort_total_witness :
  sortable 3 1 TyFloat (heap nans_vm) [TFloat 1; TFloat 3; TFloat 2] /\
  (exists vm' ys, list_sort no_text no_digits no_compare no_hook 3 5 [] span nans_vm = (ROk TNil, vm') /\
    hget (heap vm') 5 = Some (OList ys) /\ stable_sorted (key_le 1 (heap nans_vm)) [TFloat 1; TFloat 3; TFloat 2] ys /\
    stack vm' = stack nans_vm /\ quiet [5%Z] nans_vm vm') /\
  hget (heap (list_sort no_text no_digits no_compare no_hook 3 5 [] span nans_vm).2) 5 = Some (OList [TFloat 2; TFloat 3; TFloat 1]).
Proof.
  assert (Hs : sortable 3 1 TyFloat (heap nans_vm) [TFloat 1; TFloat 3; TFloat 2]).
  { intros x. rewrite !elem_of_cons. intros [->|[->|[->|[]%elem_of_nil]]]; eexists; (split; [reflexivity|]); (split; [reflexivity|]); simpl; lia. }
  split; [exact Hs|]. split; [|vm_compute; reflexivity].
  apply (sort_total (private := private)) with (t := TyFloat).
  - split; [reflexivity|]. intros r. rewrite !elem_of_cons. intros [?|[?|[?|[]%elem_of_nil]]]; discriminate.
  - exact Hs.
Defined.
