(* ===== verification/ListOps.v ===== *)
(** * The list methods without callbacks: the [List] arm of [core_method] in
      [src/src/vm/core_method.rs], [list_repeat], [expect_list_obj] and [int_arg] of
      [src/src/vm/list_hof.rs]

    The methods that read or write the list under a handle and never call back, over the machine of
    [Arith] and the list primitives of [Reentry].  [items] of the source is the list read at
    dispatch.  Whether the allocator has room for a block is an argument.

    The specification [list_spec] is a function of the list's contents and of typed arguments; the
    theorem says that a method run computes it, writes no other object, and allocates what it
    returns, also when the argument is the receiver itself. *)

From Stdlib Require Import SpecFloat.
From stdpp Require Import strings sets.
From S2P Require Import Prelude Consteval Value Arith Slice Reentry.
Local Open Scope Z_scope.
Local Open Scope chz_scope.

Section ListOps.
Context {H : Type} {ops : HeapOps H} {hlaws : HeapLaws H} {sto : HeapStore H}.
Context (type_name : H -> tagged -> string) (show : Z -> string).
(** The allocator has room for a block of that many values. *)
Context (can_alloc : Z -> bool).

Definition raise {A} (msg : H -> string) (span : Span) : M H A :=
  fun vm => (RErr (vm_err (msg (heap vm)) span), vm).
Definition arity_err (name : string) (args : list tagged) (n : nat) (span : Span) : M H unit :=
  if (length args =? n)%nat then ret tt
  else raise (fun _ => name +:+ "() expects " +:+ show (Z.of_nat n) +:+ " argument(s), got " +:+ show (Z.of_nat (length args))) span.
(** [args[i]]. *)
Definition arg (args : list tagged) (i : nat) : M H tagged :=
  match args !! i with Some v => ret v | None => panic end.
Definition expect_list_obj (method : string) (v : tagged) (span : Span) : M H (list tagged) := fun vm =>
  match v with
  | TObj r =>
      match hget (heap vm) r with
      | Some (OList xs) => (ROk xs, vm)
      | Some _ => raise (fun h => method +:+ "() expects a list argument, got " +:+ type_name h v) span vm
      | None => (RPanic, vm)
      end
  | _ => raise (fun h => method +:+ "() expects a list argument, got " +:+ type_name h v) span vm
  end.
Definition int_arg (method : string) (v : tagged) (span : Span) : M H Z := fun vm =>
  match int_val (heap vm) v with
  | Some n => (ROk n, vm)
  | None => raise (fun h => method +:+ "() expects an int argument, got " +:+ type_name h v) span vm
  end.
(** [let Some(n) = self.int_val(v) else { unreachable!() }]. *)
Definition int_or_panic (v : tagged) : M H Z := or_panic (fun vm => int_val (heap vm) v).
Definition alloc_list (xs : list tagged) : M H tagged := r <- alloc (OList xs) ;; ret (TObj r).

Definition list_len (src : Z) (args : list tagged) (span : Span) : M H tagged :=
  items <- list_at src ;; arity_err "len" args 0 span ;;; ret (TInt (Z.of_nat (length items))).
Definition list_push_method (src : Z) (args : list tagged) (span : Span) : M H tagged :=
  arity_err "push" args 1 span ;;; v <- arg args 0 ;; list_push src v ;;; ret TNil.
(** [RVec::pop]. *)
Definition list_pop (src : Z) (args : list tagged) (span : Span) : M H tagged :=
  arity_err "pop" args 0 span ;;;
  items <- list_at src ;;
  list_write src (fun xs => take (length xs - 1) xs) ;;;
  alloc_option (list.last items).
Definition list_reverse (src : Z) (args : list tagged) (span : Span) : M H tagged :=
  arity_err "reverse" args 0 span ;;; elems <- list_at src ;; list_replace src (reverse elems) ;;; ret TNil.
Definition list_concat (src : Z) (args : list tagged) (span : Span) : M H tagged :=
  items <- list_at src ;; arity_err "concat" args 1 span ;;;
  a <- arg args 0 ;; other <- expect_list_obj "concat" a span ;; alloc_list (items ++ other).
Definition list_extend (src : Z) (args : list tagged) (span : Span) : M H tagged :=
  arity_err "extend" args 1 span ;;;
  a <- arg args 0 ;; appended <- expect_list_obj "extend" a span ;;
  list_write src (fun xs => xs ++ appended) ;;; ret TNil.
Definition list_first (src : Z) (args : list tagged) (span : Span) : M H tagged :=
  arity_err "first" args 0 span ;;; items <- list_at src ;; alloc_option (items !! 0%nat).
Definition list_last (src : Z) (args : list tagged) (span : Span) : M H tagged :=
  arity_err "last" args 0 span ;;; items <- list_at src ;;
  alloc_option (if (length items =? 0)%nat then None else items !! (length items - 1)%nat).
Definition list_reversed (src : Z) (args : list tagged) (span : Span) : M H tagged :=
  arity_err "reversed" args 0 span ;;; items <- list_at src ;; alloc_list (reverse items).
Definition list_copy (src : Z) (args : list tagged) (span : Span) : M H tagged :=
  arity_err "copy" args 0 span ;;; items <- list_at src ;; alloc_list items.

(** [RVec::insert] and [RVec::remove]. *)
Definition rvec_insert (i : nat) (v : tagged) (xs : list tagged) : list tagged :=
  let i := Nat.min i (length xs) in take i xs ++ v :: drop i xs.
Definition rvec_remove (i : nat) (xs : list tagged) : list tagged :=
  if (length xs <=? i)%nat then xs else take i xs ++ drop (S i) xs.
Definition list_insert (src : Z) (args : list tagged) (span : Span) : M H tagged :=
  arity_err "insert" args 2 span ;;;
  a <- arg args 0 ;; i <- int_or_panic a ;; x <- arg args 1 ;; items <- list_at src ;;
  let len := Z.of_nat (length items) in
  let idx := Z.to_nat (if i <? 0 then Z.max (i + len) 0 else Z.min i len) in
  list_write src (rvec_insert idx x) ;;; ret TNil.
Definition list_remove (src : Z) (args : list tagged) (span : Span) : M H tagged :=
  arity_err "remove" args 1 span ;;;
  a <- arg args 0 ;; i <- int_or_panic a ;; items <- list_at src ;;
  let len := Z.of_nat (length items) in
  let fault := raise (fun _ => "index " +:+ show i +:+ " out of bounds (len " +:+ show len +:+ ")") span in
  match norm_index i len with
  | None => fault
  | Some idx =>
      list_write src (rvec_remove (Z.to_nat idx)) ;;;
      match items !! Z.to_nat idx with Some v => ret v | None => fault end
  end.

(** The [for _ in 0..n] of [list_repeat]. *)
Fixpoint repeat_loop (n : nat) (src out : list tagged) : list tagged :=
  match n with O => out | S n => repeat_loop n src (out ++ src) end.
Definition USIZE_MAX : Z := 2 ^ 64 - 1.
Definition list_repeat (src : Z) (args : list tagged) (span : Span) : M H tagged :=
  arity_err "repeat" args 1 span ;;;
  a <- arg args 0 ;; n <- int_arg "repeat" a span ;; items <- list_at src ;;
  if (n <=? 0) || (length items =? 0)%nat then alloc_list []
  else
    let total := Z.of_nat (length items) * n in
    if (total <=? USIZE_MAX) && can_alloc total then alloc_list (repeat_loop (Z.to_nat n) items [])
    else raise (fun _ => "list repeat capacity overflow") span.

(** [Chunk] and [Windows]: an inner list, pushed to the rooted outer one. *)
Definition push_inner (outer : Z) (xs : list tagged) : M H unit :=
  inner <- alloc (OList xs) ;; list_push outer (TObj inner).
Fixpoint chunk_loop (fuel : nat) (outer : Z) (items : list tagged) (n start : nat) : M H unit :=
  match fuel with
  | O => panic
  | S fuel =>
      if (start <? length items)%nat then
        let end_ := Nat.min (start + n) (length items) in
        push_inner outer (take (end_ - start) (drop start items)) ;;;
        chunk_loop fuel outer items n end_
      else ret tt
  end.
Fixpoint windows_loop (outer : Z) (items : list tagged) (n : nat) (starts : list nat) : M H unit :=
  match starts with
  | [] => ret tt
  | start :: starts => push_inner outer (take n (drop start items)) ;;; windows_loop outer items n starts
  end.
(** A round of [chunk] moves [start]: one round per element and one more. *)
Definition list_chunk_windows (windows : bool) (src : Z) (args : list tagged) (span : Span) : M H tagged :=
  arity_err (if windows then "windows" else "chunk") args 1 span ;;;
  a <- arg args 0 ;; n <- int_or_panic a ;;
  if n <=? 0 then
    raise (fun _ => (if windows then "window" else "chunk") +:+ " size must be positive, got " +:+ show n) span
  else
    items <- list_at src ;;
    outer <- alloc (OList []) ;;
    push (TObj outer) ;;;
    (if windows then
       if n <=? Z.of_nat (length items)
       then windows_loop outer items (Z.to_nat n) (seq 0 (S (length items - Z.to_nat n)))
       else ret tt
     else chunk_loop (S (length items)) outer items (Z.to_nat n) 0) ;;;
    pop ;;; ret (TObj outer).

(** *** [sum] *)
Definition f_ge (a b : F64.f64) : bool := match F64.compare a b with Some Gt | Some Eq => true | _ => false end.
Definition is_finite (f : F64.f64) : bool := match f with S754_zero _ | S754_finite _ _ _ => true | _ => false end.
Definition not_numeric (v : tagged) (h : H) : string := "sum() expects a numeric list, got an element of type " +:+ type_name h v.
(** One step of the compensated sum. *)
Definition neumaier (hi lo x : F64.f64) : F64.f64 * F64.f64 :=
  let t := F64.add hi x in
  let lo := if f_ge (SFabs hi) (SFabs x) then F64.add lo (F64.add (F64.sub hi t) x)
            else F64.add lo (F64.add (F64.sub x t) hi) in
  (t, lo).
Fixpoint sum_floats (hi lo : F64.f64) (elems : list tagged) (span : Span) : M H F64.f64 :=
  match elems with
  | [] => ret (if negb (F64.is_zero lo) && is_finite lo then F64.add hi lo else hi)
  | v :: elems =>
      x <- (if is_float v then float_of v
            else fun vm => match int_val (heap vm) v with
                           | Some n => (ROk (F64.of_i64 n), vm)
                           | None => raise (not_numeric v) span vm
                           end) ;;
      let '(hi, lo) := neumaier hi lo x in sum_floats hi lo elems span
  end.
Fixpoint sum_ints (acc : Z) (elems : list tagged) (span : Span) : M H Z :=
  match elems with
  | [] => ret acc
  | v :: elems =>
      acc <- (fun vm => match int_val (heap vm) v with
                        | Some n => int_op BinaryOp.Add acc n span vm
                        | None => raise (not_numeric v) span vm
                        end) ;;
      sum_ints acc elems span
  end.
Definition list_sum (src : Z) (args : list tagged) (span : Span) : M H tagged :=
  seed_is_float <- (if (length args =? 1)%nat then ret true else arity_err "sum" args 0 span ;;; ret false) ;;
  elems <- list_at src ;;
  if seed_is_float || existsb is_float elems
  then f <- sum_floats (S754_zero false) (S754_zero false) elems span ;; box_float f
  else n <- sum_ints 0 elems span ;; make_int n.

(** The arms by method, behind the read of the receiver. *)
Inductive ListMethod := Len | Push | Pop | Reverse | Concat | Extend | First | Last | Repeat | Reversed | Copy | Insert | Remove | Chunk | Windows | Sum.
Definition list_method (which : ListMethod) (src : Z) (args : list tagged) (span : Span) : M H tagged :=
  list_at src ;;;
  match which with
  | Len => list_len src args span | Push => list_push_method src args span | Pop => list_pop src args span
  | Reverse => list_reverse src args span | Concat => list_concat src args span | Extend => list_extend src args span
  | First => list_first src args span | Last => list_last src args span | Repeat => list_repeat src args span
  | Reversed => list_reversed src args span | Copy => list_copy src args span | Insert => list_insert src args span
  | Remove => list_remove src args span | Chunk => list_chunk_windows false src args span
  | Windows => list_chunk_windows true src args span | Sum => list_sum src args span
  end.
End ListOps.

(** ** The specification *)

(** A call with its arguments read. *)
Inductive list_op :=
| OpLen | OpPush (v : tagged) | OpPop | OpReverse | OpConcat (ys : list tagged) | OpExtend (ys : list tagged) | OpFirst | OpLast
| OpRepeat (n : Z) | OpReversed | OpCopy | OpInsert (i : Z) (v : tagged) | OpRemove (i : Z) | OpChunk (n : Z) | OpWindows (n : Z).
Inductive reply :=
| RNil | RInt (n : Z) | RValue (v : tagged) | ROption (o : option tagged) | RList (ys : list tagged) | RLists (yss : list (list tagged))
| RFail (msg : string).

Section Spec.
Context (show : Z -> string) (can_alloc : Z -> bool).

(** Position [i] from the front, or from the back when negative, moved into [0..len]. *)
Definition clamped (i : Z) (len : nat) : nat := Z.to_nat (Z.max 0 (Z.min (if i <? 0 then i + Z.of_nat len else i) (Z.of_nat len))).
(** Piece [i] of length [n]; the last may be shorter. *)
Definition pieces (n : nat) (xs : list tagged) : list (list tagged) :=
  (fun i => take n (drop (i * n) xs)) <$> seq 0 ((length xs + n - 1) / n).
Definition frames (n : nat) (xs : list tagged) : list (list tagged) :=
  (fun i => take n (drop i xs)) <$> seq 0 (S (length xs) - n).

(** The receiver's contents afterwards, and the reply. *)
Definition list_spec (op : list_op) (xs : list tagged) : list tagged * reply :=
  match op with
  | OpLen => (xs, RInt (Z.of_nat (length xs)))
  | OpPush v => (xs ++ [v], RNil)
  | OpPop => (take (length xs - 1) xs, ROption (list.last xs))
  | OpReverse => (reverse xs, RNil)
  | OpConcat ys => (xs, RList (xs ++ ys))
  | OpExtend ys => (xs ++ ys, RNil)
  | OpFirst => (xs, ROption (head xs))
  | OpLast => (xs, ROption (list.last xs))
  | OpRepeat n =>
      let ys := concat (replicate (Z.to_nat n) xs) in
      (xs, if bool_decide (ys = []) || (Z.of_nat (length ys) <=? USIZE_MAX) && can_alloc (Z.of_nat (length ys))
           then RList ys else RFail "list repeat capacity overflow")
  | OpReversed => (xs, RList (reverse xs))
  | OpCopy => (xs, RList xs)
  | OpInsert i v => (take (clamped i (length xs)) xs ++ v :: drop (clamped i (length xs)) xs, RNil)
  | OpRemove i =>
      let k := if i <? 0 then i + Z.of_nat (length xs) else i in
      match (if 0 <=? k then xs !! Z.to_nat k else None) with
      | Some v => (delete (Z.to_nat k) xs, RValue v)
      | None => (xs, RFail ("index " +:+ show i +:+ " out of bounds (len " +:+ show (Z.of_nat (length xs)) +:+ ")"))
      end
  | OpChunk n => (xs, if 0 <? n then RLists (pieces (Z.to_nat n) xs) else RFail ("chunk size must be positive, got " +:+ show n))
  | OpWindows n => (xs, if 0 <? n then RLists (frames (Z.to_nat n) xs) else RFail ("window size must be positive, got " +:+ show n))
  end.
Definition op_method (op : list_op) : ListMethod :=
  match op with
  | OpLen => Len | OpPush _ => Push | OpPop => Pop | OpReverse => Reverse | OpConcat _ => Concat | OpExtend _ => Extend
  | OpFirst => First | OpLast => Last | OpRepeat _ => Repeat | OpReversed => Reversed | OpCopy => Copy
  | OpInsert _ _ => Insert | OpRemove _ => Remove | OpChunk _ => Chunk | OpWindows _ => Windows
  end.
End Spec.

Section Refine.
Context {H : Type} {ops : HeapOps H} {hlaws : HeapLaws H} {sto : HeapStore H}.
Context {private : H -> Z -> Prop} {slaws : StoreLaws H private}.
Context (type_name : H -> tagged -> string) (show : Z -> string) (can_alloc : Z -> bool) (span : Span).
Implicit Types (vm : Vm H).

(** The arguments on the stack stand for those of [op]: an int may be boxed, a list is read now. *)
Definition op_args (h : H) (op : list_op) (args : list tagged) : Prop :=
  match op with
  | OpLen | OpPop | OpReverse | OpFirst | OpLast | OpReversed | OpCopy => args = []
  | OpPush v => args = [v]
  | OpConcat ys | OpExtend ys => exists r, args = [TObj r] /\ hget h r = Some (OList ys)
  | OpRepeat n | OpRemove n | OpChunk n | OpWindows n => exists a, args = [a] /\ int_val h a = Some n
  | OpInsert i v => exists a, args = [a; v] /\ int_val h a = Some i
  end.
(** A value of state [h'] that stands for a reply: a new object of the run from [h], or no object at all. *)
Definition replies (h h' : H) (r : reply) (v : tagged) : Prop :=
  let fresh r o := hget h r = None /\ hget h' r = Some o in
  match r with
  | RNil => v = TNil
  | RInt n => v = TInt n
  | RValue w => v = w
  | ROption o => exists r, v = TObj r /\ fresh r (match o with Some w => OEnum VID_SOME [w] | None => OEnum VID_NONE_VARIANT [] end)
  | RList ys => exists r, v = TObj r /\ fresh r (OList ys)
  | RLists yss => exists r rs, v = TObj r /\ NoDup (r :: rs) /\ fresh r (OList (TObj <$> rs)) /\ Forall2 (fun r ys => fresh r (OList ys)) rs yss
  | RFail _ => False
  end.

(** What a run does to the receiver [src], with contents [xs], and to the rest. *)
Definition op_post (op : list_op) (src : Z) (xs : list tagged) vm (r : outcome tagged) vm' : Prop :=
  hget (heap vm') src = Some (OList (list_spec show can_alloc op xs).1) /\
  quiet [src] vm vm' /\ stack vm' = stack vm /\
  match (list_spec show can_alloc op xs).2 with
  | RFail msg => r = RErr (vm_err msg span)
  | a => exists v, r = ROk v /\ replies (heap vm) (heap vm') a v
  end.

(** *** Steps *)
Lemma wp_list_at src xs vm (Q : list tagged -> Vm H -> Prop) (E : RuntimeError -> Vm H -> Prop) :
  hget (heap vm) src = Some (OList xs) -> Q xs vm -> wp (list_at src) Q E vm.
Proof. intros Hs HQ. unfold wp, list_at. by rewrite Hs. Qed.
Lemma wp_list_write src f xs vm (Q : unit -> Vm H -> Prop) (E : RuntimeError -> Vm H -> Prop) :
  hget (heap vm) src = Some (OList xs) ->
  (forall vm', hget (heap vm') src = Some (OList (f xs)) -> (forall q, q <> src -> hget (heap vm') q = hget (heap vm) q) ->
     stack vm' = stack vm -> Q tt vm') -> wp (list_write src f) Q E vm.
Proof.
  intros Hs HQ. unfold wp, list_write. rewrite Hs. apply HQ; [by apply hset_get; rewrite Hs|intros q Hq; by apply hset_other|done].
Qed.
Lemma wp_alloc o vm (Q : Z -> Vm H -> Prop) (E : RuntimeError -> Vm H -> Prop) :
  (forall r vm', hget (heap vm) r = None -> hget (heap vm') r = Some o -> (forall q, q <> r -> hget (heap vm') q = hget (heap vm) q) ->
     stack vm' = stack vm -> Q r vm') -> wp (alloc o) Q E vm.
Proof.
  intros HQ. unfold wp, alloc. pose proof (halloc_get (heap vm) o) as G. pose proof (halloc_fresh (heap vm) o) as F.
  pose proof (halloc_other (heap vm) o) as O. destruct (halloc (heap vm) o) as [h r]. by apply HQ.
Qed.

(** A new object returned, after the receiver took its new contents. *)
Lemma returns_new op src xs vm vm1 o a : hget (heap vm) src = Some (OList xs) ->
  (list_spec show can_alloc op xs).2 = a -> (forall msg, a <> RFail msg) ->
  hget (heap vm1) src = Some (OList (list_spec show can_alloc op xs).1) -> (forall q, q <> src -> hget (heap vm1) q = hget (heap vm) q) ->
  stack vm1 = stack vm ->
  (forall r h', hget (heap vm) r = None -> hget h' r = Some o -> replies (heap vm) h' a (TObj r)) ->
  wp (r <- alloc o ;; ret (TObj r)) (fun v => op_post op src xs vm (ROk v)) (fun e => op_post op src xs vm (RErr e)) vm1.
Proof.
  intros Hs Ea Hf H1 H2 H3 Hr. apply vwp_bind, wp_alloc. intros r vm' F G O S. apply vwp_ret.
  assert (Hne : r <> src) by (intros ->; congruence). split; [by rewrite O|]. split.
  - intros q Hq Hl. rewrite list_elem_of_singleton in Hq. rewrite O; [by apply H2|]. intros ->. rewrite H2 in F by done. done.
  - split; [congruence|]. rewrite Ea. destruct a; try (eexists; split; [done|apply Hr; [by rewrite <- H2|done]]). by destruct (Hf msg).
Qed.
(** The receiver took its new contents, and nothing is allocated. *)
Lemma returns_plain op src xs vm vm1 v :
  (forall msg, (list_spec show can_alloc op xs).2 <> RFail msg) ->
  hget (heap vm1) src = Some (OList (list_spec show can_alloc op xs).1) -> (forall q, q <> src -> hget (heap vm1) q = hget (heap vm) q) ->
  stack vm1 = stack vm -> replies (heap vm) (heap vm1) (list_spec show can_alloc op xs).2 v ->
  op_post op src xs vm (ROk v) vm1.
Proof.
  intros Hf H1 H2 H3 Hr. split; [done|]. split; [intros q Hq _; rewrite list_elem_of_singleton in Hq; by apply H2|]. split; [done|].
  destruct (list_spec show can_alloc op xs).2; try (by exists v). by destruct (Hf msg).
Qed.

(** *** Pieces *)

(** The outer list while it is filled: the inner ones so far, each a new object. *)
Record filled (vm0 : Vm H) (outer : Z) (yss : list (list tagged)) vm : Prop := {
  fi_outer : exists rs, hget (heap vm0) outer = None /\ hget (heap vm) outer = Some (OList (TObj <$> rs)) /\ NoDup (outer :: rs) /\
    Forall2 (fun r ys => hget (heap vm0) r = None /\ hget (heap vm) r = Some (OList ys)) rs yss;
  fi_quiet : quiet [] vm0 vm;
  fi_stack : stack vm = stack vm0 ++ [TObj outer];
}.
Lemma push_inner_ok vm0 outer yss ys vm (Q : unit -> Vm H -> Prop) (E : RuntimeError -> Vm H -> Prop) :
  filled vm0 outer yss vm -> (forall vm', filled vm0 outer (yss ++ [ys]) vm' -> Q tt vm') -> wp (push_inner outer ys) Q E vm.
Proof.
  intros [(rs & F0 & Ho & Hd & Hrs) Hq Hst] HQ. apply vwp_bind, wp_alloc. intros r vm1 F G O S.
  assert (Hro : r <> outer) by (intros ->; congruence).
  assert (Hrr : r ∉ rs). { intros [i Hi]%list_elem_of_lookup. destruct (Forall2_lookup_l _ _ _ _ _ Hrs Hi) as (? & _ & _ & E'). congruence. }
  assert (Hr0 : hget (heap vm0) r = None).
  { destruct (hget (heap vm0) r) eqn:E0; [|done]. rewrite <- (Hq r), F in E0; [done|apply not_elem_of_nil|congruence]. }
  eapply wp_list_write; [by rewrite O|]. intros vm2 G2 O2 S2. apply HQ. split; [|intros q Hn Hl; rewrite O2, O; [by apply Hq| |]; intros ->; congruence|congruence].
  exists (rs ++ [r]). split; [done|]. split; [by rewrite fmap_app|]. apply list.NoDup_cons in Hd as [Hor Hd]. split.
  - apply list.NoDup_cons. rewrite elem_of_app, list_elem_of_singleton. split; [intros [?|?]; congruence|].
    apply list.NoDup_app. split; [done|]. split; [|apply NoDup_singleton]. by intros x Hx ->%list_elem_of_singleton.
  - apply Forall2_app; [|constructor; [|constructor]; split; [done|by rewrite O2]].
    apply Forall2_same_length_lookup_2; [by eapply Forall2_length|]. intros i x y Hx Hy.
    destruct (Forall2_lookup_lr _ _ _ _ _ _ Hrs Hx Hy) as [Ha Hb]. split; [done|].
    assert (x ∈ rs) by (by eapply list_elem_of_lookup_2). rewrite O2, O; [done| |]; intros ->; congruence.
Qed.

Lemma piece_count (len n i : nat) : (0 < n)%nat -> (i * n < len)%nat <-> (i < (len + n - 1) / n)%nat.
Proof.
  intros Hn. pose proof (Nat.div_mod (len + n - 1) n ltac:(lia)) as Hd. pose proof (Nat.mod_upper_bound (len + n - 1) n ltac:(lia)) as Hm.
  set (k := ((len + n - 1) / n)%nat) in *. split; intros Hi.
  - assert (~ (k <= i)%nat); [|lia]. intros Hk. assert (k * n <= i * n)%nat by (apply Nat.mul_le_mono_r; lia). lia.
  - assert ((i + 1) * n <= k * n)%nat by (apply Nat.mul_le_mono_r; lia). lia.
Qed.
Lemma chunk_loop_ok vm0 outer items n fuel i yss vm (Q : unit -> Vm H -> Prop) (E : RuntimeError -> Vm H -> Prop) :
  (0 < n)%nat -> (length items - i * n < fuel)%nat -> filled vm0 outer yss vm ->
  (forall vm', filled vm0 outer (yss ++ ((fun i => take n (drop (i * n) items)) <$> seq i ((length items + n - 1) / n - i))) vm' -> Q tt vm') ->
  wp (chunk_loop fuel outer items n (Nat.min (i * n) (length items))) Q E vm.
Proof.
  intros Hn. revert i yss vm. induction fuel as [|fuel IH]; intros i yss vm Hf Hfill HQ; [lia|]. cbn [chunk_loop].
  pose proof (piece_count (length items) n i Hn) as Hc. destruct (Nat.ltb_spec (Nat.min (i * n) (length items)) (length items)) as [Hlt|Hge].
  - replace (Nat.min (i * n) (length items)) with (i * n)%nat by lia.
    replace ((length items + n - 1) / n - i)%nat with (S ((length items + n - 1) / n - S i))%nat in HQ by lia.
    assert (Ep : take (Nat.min (i * n + n) (length items) - i * n) (drop (i * n) items) = take n (drop (i * n) items)).
    { destruct (Nat.le_ge_cases (i * n + n) (length items)); [f_equal; lia|]. rewrite !take_ge; [done|rewrite length_drop; lia..]. }
    rewrite Ep. apply vwp_bind, (push_inner_ok vm0 outer yss (take n (drop (i * n) items))); [done|]. intros vm1 Hfill1.
    replace (Nat.min (i * n + n) (length items)) with (Nat.min (S i * n) (length items)) by (simpl; lia).
    eapply IH; [simpl; lia|exact Hfill1|]. rewrite <- (assoc_L (++)). exact HQ.
  - apply vwp_ret, HQ. replace ((length items + n - 1) / n - i)%nat with 0%nat by lia. simpl. by rewrite app_nil_r.
Qed.
Lemma windows_loop_ok vm0 outer items n starts yss vm (Q : unit -> Vm H -> Prop) (E : RuntimeError -> Vm H -> Prop) :
  filled vm0 outer yss vm -> (forall vm', filled vm0 outer (yss ++ ((fun i => take n (drop i items)) <$> starts)) vm' -> Q tt vm') ->
  wp (windows_loop outer items n starts) Q E vm.
Proof.
  revert yss vm. induction starts as [|i starts IH]; intros yss vm Hfill HQ; simpl; [apply vwp_ret, HQ; by rewrite app_nil_r|].
  apply vwp_bind, (push_inner_ok vm0 outer yss (take n (drop i items))); [done|]. intros vm1 Hfill1. eapply IH; [exact Hfill1|].
  rewrite <- (assoc_L (++)). exact HQ.
Qed.

(** *** The methods *)
Abbreviation runs op src xs vm m :=
  (wp m (fun v => op_post op src xs vm (ROk v)) (fun e => op_post op src xs vm (RErr e)) vm).

Lemma wp_int_or_panic v k vm (Q : Z -> Vm H -> Prop) (E : RuntimeError -> Vm H -> Prop) :
  int_val (heap vm) v = Some k -> Q k vm -> wp (int_or_panic v) Q E vm.
Proof. intros Hv HQ. unfold wp, int_or_panic, or_panic. by rewrite Hv. Qed.
Lemma quiet_live ps vm vm' r o : quiet ps vm vm' -> r ∉ ps -> hget (heap vm) r = Some o -> hget (heap vm') r = Some o.
Proof. intros Q Hr E. rewrite Q; [done|done|by rewrite E]. Qed.

Lemma raises op src xs vm msg (Q : tagged -> Vm H -> Prop) : hget (heap vm) src = Some (OList xs) ->
  list_spec show can_alloc op xs = (xs, RFail msg) ->
  wp (raise (fun _ => msg) span) Q (fun e => op_post op src xs vm (RErr e)) vm.
Proof. intros Hs E. unfold wp, raise, op_post. rewrite E. simpl. done. Qed.

Lemma chunk_windows_ok (windows : bool) n src xs args vm : hget (heap vm) src = Some (OList xs) ->
  op_args (heap vm) (OpChunk n) args ->
  runs (if windows then OpWindows n else OpChunk n) src xs vm (list_chunk_windows show windows src args span).
Proof.
  intros Hs (a & -> & Ha). unfold list_chunk_windows. apply vwp_bind, (vwp_ret tt), vwp_bind, (vwp_ret a), vwp_bind.
  eapply wp_int_or_panic; [done|]. destruct (Z.leb_spec n 0) as [Hn|Hn].
  { destruct windows; (apply raises; [done|]); simpl; by rewrite (proj2 (Z.ltb_ge 0 n)) by lia. }
  apply vwp_bind. eapply wp_list_at; [done|]. apply vwp_bind, wp_alloc. intros outer vm1 F G O S. apply vwp_bind, wp_push.
  set (vm2 := set_stack vm1 _).
  assert (Hfill : filled vm outer [] vm2).
  { split; [|intros q _ Hq; apply O; congruence|by unfold vm2; simpl; rewrite S]. exists []. split; [done|]. split; [done|].
    split; [apply NoDup_singleton|constructor]. }
  clearbody vm2. clear G O S vm1.
  set (yss := if windows then frames (Z.to_nat n) xs else pieces (Z.to_nat n) xs).
  apply vwp_bind. assert (W : forall Q E, (forall vm', filled vm outer yss vm' -> Q tt vm') ->
    wp (if windows then if n <=? Z.of_nat (length xs) then windows_loop outer xs (Z.to_nat n) (seq 0 (Datatypes.S (length xs - Z.to_nat n))) else ret tt
        else chunk_loop (Datatypes.S (length xs)) outer xs (Z.to_nat n) 0) Q E vm2).
  { intros Q E HQ. unfold yss in HQ. destruct windows.
    - unfold frames in HQ. destruct (Z.leb_spec n (Z.of_nat (length xs))).
      + apply (windows_loop_ok vm outer xs (Z.to_nat n) _ []); [done|]. intros vm' Hvm'. apply HQ.
        by replace (Datatypes.S (length xs) - Z.to_nat n)%nat with (Datatypes.S (length xs - Z.to_nat n)) by lia.
      + apply vwp_ret, HQ. by replace (Datatypes.S (length xs) - Z.to_nat n)%nat with 0%nat by lia.
    - apply (chunk_loop_ok vm outer xs (Z.to_nat n) _ 0 []); [lia|lia|done|]. by rewrite Nat.sub_0_r. }
  apply W. clear W. intros vm' [(rs & F0 & Ho & Hd & Hrs) Hq Hst]. apply vwp_bind. eapply wp_pop; [exact Hst|]. apply vwp_ret.
  assert (Hsrc : hget (heap vm') src = Some (OList xs)) by (eapply quiet_live; [exact Hq|apply not_elem_of_nil|done]).
  assert (Espec : list_spec show can_alloc (if windows then OpWindows n else OpChunk n) xs = (xs, RLists yss)).
  { unfold yss. destruct windows; simpl; by rewrite (proj2 (Z.ltb_lt 0 n)) by lia. }
  unfold op_post. rewrite Espec. split; [done|]. split; [intros q _; apply Hq, not_elem_of_nil|]. split; [done|].
  exists (TObj outer). split; [done|]. by exists outer, rs.
Qed.

Lemma repeat_loop_concat n src out : repeat_loop n src out = out ++ concat (replicate n src).
Proof. revert out. induction n as [|n IH]; intros out; simpl; [by rewrite app_nil_r|]. by rewrite IH, <- (assoc_L (++)). Qed.
Lemma length_repeats n (src : list tagged) : length (concat (replicate n src)) = (n * length src)%nat.
Proof. induction n as [|n IH]; [done|]. simpl. by rewrite length_app, IH. Qed.

Lemma list_repeat_ok n src xs args vm : hget (heap vm) src = Some (OList xs) -> op_args (heap vm) (OpRepeat n) args ->
  runs (OpRepeat n) src xs vm (list_repeat type_name show can_alloc src args span).
Proof.
  intros Hs (a & -> & Ha). unfold list_repeat. apply vwp_bind, (vwp_ret tt), vwp_bind, (vwp_ret a), vwp_bind.
  assert (Hi : int_arg type_name "repeat" a span vm = (ROk n, vm)) by (unfold int_arg; by rewrite Ha).
  eapply wp_eq; [exact Hi|]. apply vwp_bind. eapply wp_list_at; [done|].
  pose proof (length_repeats (Z.to_nat n) xs) as Hl. destruct ((n <=? 0) || (length xs =? 0)%nat) eqn:E0.
  - assert (E : concat (replicate (Z.to_nat n) xs) = []) by (apply nil_length_inv; rewrite Hl; apply orb_true_iff in E0 as [?%Z.leb_le|?%Nat.eqb_eq]; [by rewrite Z2Nat.nonpos|lia]).
    eapply returns_new; [done|simpl; rewrite E; done|done|done|done|done|]. intros r h' F G. by exists r.
  - apply orb_false_iff in E0 as [Hn%Z.leb_gt Hx%Nat.eqb_neq].
    assert (E : bool_decide (concat (replicate (Z.to_nat n) xs) = []) = false).
    { apply bool_decide_eq_false. intros E. rewrite E in Hl. cbn [length] in Hl. symmetry in Hl. apply Nat.mul_eq_0 in Hl. lia. }
    assert (Et : Z.of_nat (length (concat (replicate (Z.to_nat n) xs))) = Z.of_nat (length xs) * n) by (rewrite Hl, Nat2Z.inj_mul, Z2Nat.id by lia; lia).
    destruct ((Z.of_nat (length xs) * n <=? USIZE_MAX) && can_alloc (Z.of_nat (length xs) * n)) eqn:Ec.
    + rewrite repeat_loop_concat. eapply returns_new; [done|simpl; rewrite E, Et, Ec; done|done|done|done|done|]. intros r h' F G. by exists r.
    + apply raises; [done|]. simpl. by rewrite E, Et, Ec.
Qed.

Lemma list_insert_ok i v src xs args vm : hget (heap vm) src = Some (OList xs) -> op_args (heap vm) (OpInsert i v) args ->
  runs (OpInsert i v) src xs vm (list_insert show src args span).
Proof.
  intros Hs (a & -> & Ha). unfold list_insert. apply vwp_bind, (vwp_ret tt), vwp_bind, (vwp_ret a), vwp_bind.
  eapply wp_int_or_panic; [done|]. apply vwp_bind, (vwp_ret v), vwp_bind. eapply wp_list_at; [done|]. apply vwp_bind.
  eapply wp_list_write; [done|]. intros vm1 G O S. apply vwp_ret. apply returns_plain; [done| |done|done|done].
  rewrite G. cbn [list_spec fst]. unfold rvec_insert. do 2 f_equal.
  assert (E : Nat.min (Z.to_nat (if i <? 0 then Z.max (i + Z.of_nat (length xs)) 0 else Z.min i (Z.of_nat (length xs)))) (length xs) = clamped i (length xs)).
  { unfold clamped. destruct (Z.ltb_spec i 0); lia. }
  by rewrite E.
Qed.
Lemma list_remove_ok i src xs args vm : hget (heap vm) src = Some (OList xs) -> op_args (heap vm) (OpRemove i) args ->
  runs (OpRemove i) src xs vm (list_remove show src args span).
Proof.
  intros Hs (a & -> & Ha). unfold list_remove. apply vwp_bind, (vwp_ret tt), vwp_bind, (vwp_ret a), vwp_bind.
  eapply wp_int_or_panic; [done|]. apply vwp_bind. eapply wp_list_at; [done|]. unfold norm_index.
  set (k := if i <? 0 then i + Z.of_nat (length xs) else i). destruct ((0 <=? k) && (k <? Z.of_nat (length xs))) eqn:Ek.
  - destruct (lookup_lt_is_Some_2 xs (Z.to_nat k)) as [v Hv]; [lia|].
    assert (Espec : list_spec show can_alloc (OpRemove i) xs = (delete (Z.to_nat k) xs, RValue v)).
    { cbn [list_spec]. fold k. rewrite (proj2 (Z.leb_le 0 k)) by lia. by rewrite Hv. }
    apply vwp_bind. eapply wp_list_write; [done|]. intros vm1 G O S. rewrite Hv. apply vwp_ret.
    apply returns_plain; rewrite ?Espec; [done| |done|done|done]. rewrite G. unfold rvec_remove.
    destruct (Nat.leb_spec (length xs) (Z.to_nat k)); [lia|]. cbn [fst]. by rewrite delete_take_drop.
  - apply raises; [done|]. cbn [list_spec]. fold k. destruct (Z.leb_spec 0 k); [|done].
    by rewrite lookup_ge_None_2 by (simpl in Ek; lia).
Qed.

(** C35: The list methods do what [list_spec] says, on contents: each replies as specified, leaves
    the receiver with the specified contents and every other live object as it was, and restores
    the operand stack; a list it returns, and each piece of [chunk] and [windows], is an object of
    its own.  The argument of [concat] and [extend] may be the receiver itself.  A rejected call
    changes nothing. *)
Theorem list_methods_refine (op : list_op) (src : Z) (xs args : list tagged) vm
  (Hs : hget (heap vm) src = Some (OList xs)) (Ha : op_args (heap vm) op args) :
  exists r vm', list_method type_name show can_alloc (op_method op) src args span vm = (r, vm') /\ op_post op src xs vm r vm'.
Proof.
  assert (W : runs op src xs vm (list_method type_name show can_alloc (op_method op) src args span)).
  { apply vwp_bind. eapply wp_list_at; [done|]. destruct op; cbn [op_method op_args] in *;
      try (by apply list_repeat_ok); try (by apply list_insert_ok); try (by apply list_remove_ok);
      try (by apply (chunk_windows_ok false)); try (by apply (chunk_windows_ok true)).
    - subst args. apply vwp_bind. eapply wp_list_at; [done|]. apply vwp_bind, (vwp_ret tt), vwp_ret. by apply returns_plain.
    - subst args. apply vwp_bind, (vwp_ret tt), vwp_bind, (vwp_ret v), vwp_bind. eapply wp_list_write; [done|]. intros vm1 G O S.
      apply vwp_ret. by apply returns_plain.
    - subst args. apply vwp_bind, (vwp_ret tt), vwp_bind. eapply wp_list_at; [done|]. apply vwp_bind. eapply wp_list_write; [done|].
      intros vm1 G O S. eapply returns_new; [done|done|done|done|done|done|]. intros r h' F G'. by exists r.
    - subst args. apply vwp_bind, (vwp_ret tt), vwp_bind. eapply wp_list_at; [done|]. apply vwp_bind. eapply wp_list_write; [done|].
      intros vm1 G O S. apply vwp_ret. by apply returns_plain.
    - destruct Ha as (q & -> & Hq). apply vwp_bind. eapply wp_list_at; [done|]. apply vwp_bind, (vwp_ret tt), vwp_bind, (vwp_ret (TObj q)), vwp_bind.
      eapply wp_eq; [unfold expect_list_obj; by rewrite Hq|]. eapply returns_new; [done|done|done|done|done|done|]. intros r h' F G. by exists r.
    - destruct Ha as (q & -> & Hq). apply vwp_bind, (vwp_ret tt), vwp_bind, (vwp_ret (TObj q)), vwp_bind.
      eapply wp_eq; [unfold expect_list_obj; by rewrite Hq|]. apply vwp_bind. eapply wp_list_write; [done|]. intros vm1 G O S.
      apply vwp_ret. by apply returns_plain.
    - subst args. apply vwp_bind, (vwp_ret tt), vwp_bind. eapply wp_list_at; [done|]. eapply returns_new; [done|done|done|done|done|done|].
      intros r h' F G. exists r. by destruct xs.
    - subst args. apply vwp_bind, (vwp_ret tt), vwp_bind. eapply wp_list_at; [done|]. eapply returns_new; [done|done|done|done|done|done|].
      intros r h' F G. exists r. split; [done|]. split; [done|]. rewrite G. rewrite list.last_lookup.
      destruct xs as [|x xs]; [done|]. simpl. by rewrite Nat.sub_0_r.
    - subst args. apply vwp_bind, (vwp_ret tt), vwp_bind. eapply wp_list_at; [done|]. eapply returns_new; [done|done|done|done|done|done|].
      intros r h' F G. by exists r.
    - subst args. apply vwp_bind, (vwp_ret tt), vwp_bind. eapply wp_list_at; [done|]. eapply returns_new; [done|done|done|done|done|done|].
      intros r h' F G. by exists r. }
  unfold wp in W. destruct (list_method _ _ _ _ _ _ _ vm) as [[v|e|] vm'] eqn:E; [by exists (ROk v), vm'|by exists (RErr e), vm'|done].
Qed.
End Refine.

(** ** [sum] of ints *)
Section Sum.
Context {H : Type} {ops : HeapOps H}.
Context (type_name : H -> tagged -> string) (span : Span).
Definition total (ns : list Z) : Z := foldr Z.add 0 ns.

(** The sum is exact when every partial sum is an [i64], and a fault, never a wrapped value, when
    one is not; the state is left alone. *)
Lemma sum_ints_exact acc elems ns (vm : Vm H) : Forall2 (fun v n => int_val (heap vm) v = Some n) elems ns ->
  ((forall k, (k <= length ns)%nat -> I64.ok (acc + total (take k ns))) -> sum_ints type_name acc elems span vm = (ROk (acc + total ns), vm)) /\
  (forall k, (k <= length ns)%nat -> I64.ok acc -> ~ I64.ok (acc + total (take k ns)) ->
     exists e, sum_ints type_name acc elems span vm = (RErr e, vm)).
Proof.
  intros Hv. revert acc. induction Hv as [|v n elems ns Hv _ IH]; intros acc.
  { split; [intros _; by rewrite Z.add_0_r|]. intros k _ Ha Hn. destruct Hn. rewrite take_nil. by rewrite Z.add_0_r. }
  cbn [sum_ints]. unfold bind. rewrite Hv. unfold int_op. cbn [int_binop operand_fault].
  destruct (I64.checked_add acc n) as [m|] eqn:Em; cbn [ok_or ret throw].
  - apply I64.checked_Some in Em as [-> Hm]. destruct (IH (acc + n)) as [IH1 IH2]. split.
    + intros Hall. rewrite IH1; [by rewrite <- Z.add_assoc|]. intros k Hk. specialize (Hall (S k)). cbn [take total foldr length] in Hall.
      rewrite <- Z.add_assoc. apply Hall. lia.
    + intros [|k] Hk Ha Hn; [destruct Hn; simpl; by rewrite Z.add_0_r|]. apply (IH2 k); [simpl in Hk; lia|done|].
      cbn [take total foldr] in Hn. by rewrite <- Z.add_assoc.
  - apply I64.checked_None in Em. split; [|by eexists]. intros Hall. destruct Em. specialize (Hall 1%nat).
    cbn [take total foldr length] in Hall. rewrite Z.add_0_r in Hall. apply Hall. lia.
Qed.
End Sum.

(** [xs.extend(xs)] and [xs.chunk(2)] of a list the program holds under handle 5. *)
Lemma list_methods_refine_witness :
  let tn := (fun (_ : ReentryDemo.store) (_ : tagged) => ""%string) in
  let sh := (fun _ : Z => ""%string) in
  let xs := [TInt 3; TInt 1; TInt 2] in
  hget (heap ReentryDemo.vm) 5 = Some (OList xs) /\
  (exists r vm', list_method tn sh (fun _ => true) Extend 5 [TObj 5] ReentryDemo.span ReentryDemo.vm = (r, vm') /\
     op_post sh (fun _ => true) ReentryDemo.span (OpExtend xs) 5 xs ReentryDemo.vm r vm') /\
  (exists vm', list_method tn sh (fun _ => true) Chunk 5 [TInt 2] ReentryDemo.span ReentryDemo.vm = (ROk (TObj 6), vm') /\
     hget (heap vm') 6 = Some (OList [TObj 7; TObj 8]) /\ hget (heap vm') 7 = Some (OList [TInt 3; TInt 1]) /\
     hget (heap vm') 8 = Some (OList [TInt 2])).
Proof.
  intros tn sh xs. split; [reflexivity|]. split.
  - apply (list_methods_refine (private := ReentryDemo.private) tn sh (fun _ => true) ReentryDemo.span (OpExtend xs) 5 xs [TObj 5] ReentryDemo.vm);
      [reflexivity|by exists 5].
  - eexists. split; [vm_compute; reflexivity|]. split; [vm_compute; reflexivity|]. split; vm_compute; reflexivity.
Defined.
