(* ===== verification/Rand.v ===== *)
(** * [std.rand]: the SplitMix64 stream and the draw of an int in a range, [src/src/native/rand.rs]

    The process-global [Mutex<u64>] is a state passed through, a [u64] is a [Z] in [0, 2^64).  Each
    draw takes the lock for itself, so the model is of draws that no other task interleaves.  The
    theorem says that the rejection loop of [rand.int] ends from every state and that it is unbiased. *)

From Stdlib Require Import Znumtheory.
From stdpp Require Import strings.
From S2P Require Import Prelude Value.
Local Open Scope Z_scope.

Definition GAMMA : Z := 0x9E3779B97F4A7C15.
(** [z ^ (z >> k)]. *)
Definition xorshift (k z : Z) : Z := Z.lxor z (Z.shiftr z k).
Definition mix (z : Z) : Z :=
  let z := to_u64 (xorshift 30 z * 0xBF58476D1CE4E5B9) in
  let z := to_u64 (xorshift 27 z * 0x94D049BB133111EB) in
  xorshift 31 z.
(** One step: the drawn word and the state after it. *)
Definition next_u64 (state : Z) : Z * Z :=
  let state := to_u64 (state + GAMMA) in (mix state, state).

Definition seed (n : Z) : Z := to_u64 n.
Definition rand_bool (state : Z) : bool * Z :=
  let (r, state) := next_u64 state in (Z.land r 1 =? 1, state).

Definition U64_MAX : Z := 2 ^ 64 - 1.
(** The bound below which [int] accepts a draw. *)
Definition zone (range : Z) : Z := U64_MAX - U64_MAX mod range.
(** The [loop] of [int]: [None] when the fuel ran out. *)
Fixpoint draw_below (fuel : nat) (limit state : Z) : option (Z * Z) :=
  match fuel with
  | O => None
  | S fuel =>
      let (r, state) := next_u64 state in
      if r <? limit then Some (r, state) else draw_below fuel limit state
  end.
Definition rand_int (fuel : nat) (lo hi state : Z) : option (result Z string * Z) :=
  if hi <=? lo then Some (Err "rand.int(lo, hi): hi must be > lo"%string, state)
  else
    let range := to_u64 (hi - lo) in
    match draw_below fuel (zone range) state with
    | None => None
    | Some (r, state) => Some (Ok (I64.wrap (lo + I64.wrap (r mod range))), state)
    end.

(** ** The mixer is a permutation of the words *)
Definition word (z : Z) : Prop := 0 <= z < 2 ^ 64.
Lemma to_u64_word z : word (to_u64 z).
Proof. apply Z.mod_pos_bound. lia. Qed.
Lemma to_u64_id z : word z -> to_u64 z = z.
Proof. intros H. by apply Z.mod_small. Qed.

Definition unxorshift (k z : Z) : Z := Z.lxor (xorshift k z) (Z.shiftr z (2 * k)).
Lemma word_bits z : 0 <= z -> (word z <-> forall i, 64 <= i -> Z.testbit z i = false).
Proof.
  intros Hz. split.
  - intros [_ H] i Hi. destruct (Z.eq_dec z 0) as [->|]; [apply Z.bits_0|]. apply Z.bits_above_log2; [done|].
    apply Z.log2_lt_pow2; [lia|]. eapply Z.lt_le_trans; [exact H|]. apply Z.pow_le_mono_r; lia.
  - intros H. split; [done|]. destruct (Z.le_gt_cases (2 ^ 64) z) as [Hge|]; [|done].
    assert (64 <= Z.log2 z) by (apply Z.log2_le_pow2; lia). specialize (H (Z.log2 z) ltac:(lia)).
    rewrite Z.bit_log2 in H by lia. done.
Qed.
Lemma lxor_word a b : word a -> word b -> word (Z.lxor a b).
Proof.
  intros Ha Hb. apply word_bits; [apply Z.lxor_nonneg; unfold word in *; lia|]. intros i Hi.
  rewrite Z.lxor_spec, (proj1 (word_bits a ltac:(unfold word in *; lia)) Ha), (proj1 (word_bits b ltac:(unfold word in *; lia)) Hb) by done. done.
Qed.
Lemma shiftr_word k z : 0 <= k -> word z -> word (Z.shiftr z k).
Proof. unfold word. intros Hk Hz. rewrite Z.shiftr_div_pow2 by done. split; [apply Z.div_pos; lia|]. apply Z.div_lt_upper_bound; [lia|nia]. Qed.
Lemma xorshift_word k z : 0 <= k -> word z -> word (xorshift k z).
Proof. intros Hk Hz. apply lxor_word; [done|by apply shiftr_word]. Qed.
Lemma unxorshift_word k z : 0 <= k -> word z -> word (unxorshift k z).
Proof. intros Hk Hz. apply lxor_word; [by apply xorshift_word|apply shiftr_word; [lia|done]]. Qed.
(** Three shifts leave nothing of a word. *)
Lemma shift_out k z : 22 <= k -> word z -> Z.shiftr z (3 * k) = 0.
Proof.
  intros Hk Hz. rewrite Z.shiftr_div_pow2 by lia. apply Z.div_small. unfold word in Hz. split; [lia|].
  eapply Z.lt_le_trans; [apply Hz|]. apply Z.pow_le_mono_r; lia.
Qed.
#[local] Ltac shifts :=
  let Hk := fresh in let Hz := fresh in let H0 := fresh in
  intros Hk Hz; pose proof (shift_out _ _ Hk Hz) as H0; unfold unxorshift, xorshift;
  rewrite !Z.shiftr_lxor, !Z.shiftr_shiftr by lia;
  match type of H0 with Z.shiftr ?z (3 * ?k) = 0 =>
    try replace (2 * k + k) with (3 * k) by lia; try replace (k + 2 * k) with (3 * k) by lia; replace (k + k) with (2 * k) by lia;
    rewrite H0, !Z.lxor_0_r, <- !Z.lxor_assoc; apply Z.bits_inj'; intros ? _; rewrite !Z.lxor_spec;
    repeat match goal with |- context [Z.testbit ?a ?b] => destruct (Z.testbit a b) end; done
  end.
Lemma xor_un k z : 22 <= k -> word z -> xorshift k (unxorshift k z) = z.
Proof. shifts. Qed.
Lemma unxor k z : 22 <= k -> word z -> unxorshift k (xorshift k z) = z.
Proof. shifts. Qed.

Definition unmix (z : Z) : Z :=
  let z := to_u64 (unxorshift 31 z * 0x319642B2D24D8EC3) in
  let z := to_u64 (unxorshift 27 z * 0x96DE1B173F119089) in
  unxorshift 30 z.
Lemma unmul a b z : a * b mod 2 ^ 64 = 1 -> word z -> to_u64 (to_u64 (z * a) * b) = z.
Proof.
  intros Hab Hz. unfold to_u64. rewrite Z.mul_mod_idemp_l by lia. rewrite <- Z.mul_assoc, Z.mul_mod, Hab, Z.mul_1_r, Z.mod_mod by lia.
  by apply Z.mod_small.
Qed.
(** The two multipliers are odd, so they have inverses. *)
Definition mul1 (z : Z) : Z := to_u64 (z * 0xBF58476D1CE4E5B9).
Definition mul2 (z : Z) : Z := to_u64 (z * 0x94D049BB133111EB).
Definition unmul1 (z : Z) : Z := to_u64 (z * 0x96DE1B173F119089).
Definition unmul2 (z : Z) : Z := to_u64 (z * 0x319642B2D24D8EC3).
Lemma unmul1_mul1 z : word z -> unmul1 (mul1 z) = z.
Proof. by apply unmul. Qed.
Lemma mul1_unmul1 z : word z -> mul1 (unmul1 z) = z.
Proof. by apply unmul. Qed.
Lemma unmul2_mul2 z : word z -> unmul2 (mul2 z) = z.
Proof. by apply unmul. Qed.
Lemma mul2_unmul2 z : word z -> mul2 (unmul2 z) = z.
Proof. by apply unmul. Qed.
Lemma mul_words z : word (mul1 z) /\ word (mul2 z) /\ word (unmul1 z) /\ word (unmul2 z).
Proof. repeat split; apply to_u64_word. Qed.

Lemma mix_steps z : mix z = xorshift 31 (mul2 (xorshift 27 (mul1 (xorshift 30 z)))).
Proof. reflexivity. Qed.
Lemma unmix_steps z : unmix z = unxorshift 30 (unmul1 (unxorshift 27 (unmul2 (unxorshift 31 z)))).
Proof. reflexivity. Qed.
Create HintDb word.
#[local] Hint Extern 1 (word _) => first [apply mul_words | apply xorshift_word; [lia|] | apply unxorshift_word; [lia|] | assumption] : word.
#[local] Opaque xorshift unxorshift mul1 mul2 unmul1 unmul2.
Lemma mix_word z : word z -> word (mix z).
Proof. intros Hz. rewrite mix_steps. auto with word. Qed.
Lemma unmix_word z : word z -> word (unmix z).
Proof. intros Hz. rewrite unmix_steps. auto with word. Qed.
Lemma unmix_mix z : word z -> unmix (mix z) = z.
Proof.
  intros Hz. rewrite mix_steps, unmix_steps.
  by rewrite unxor, unmul2_mul2, unxor, unmul1_mul1, unxor by (lia || auto with word).
Qed.
Lemma mix_unmix z : word z -> mix (unmix z) = z.
Proof.
  intros Hz. rewrite mix_steps, unmix_steps.
  by rewrite xor_un, mul1_unmul1, xor_un, mul2_unmul2, xor_un by (lia || auto with word).
Qed.
#[local] Transparent xorshift unxorshift mul1 mul2 unmul1 unmul2.

(** ** The stream: a sequence of [2^64] different words *)
Definition state_at (k s : Z) : Z := to_u64 (s + k * GAMMA).
Definition draw_at (k s : Z) : Z := mix (state_at k s).
Lemma state_at_next k s : next_u64 (state_at k s) = (draw_at (k + 1) s, state_at (k + 1) s).
Proof.
  unfold next_u64, draw_at, state_at. unfold to_u64. rewrite Z.add_mod_idemp_l by lia.
  by replace (s + k * GAMMA + GAMMA) with (s + (k + 1) * GAMMA) by ring.
Qed.
Lemma state_at_0 s : word s -> state_at 0 s = s.
Proof. intros Hs. unfold state_at. rewrite Z.mul_0_l, Z.add_0_r. by apply to_u64_id. Qed.
Lemma draw_at_word k s : word (draw_at k s).
Proof. apply mix_word, to_u64_word. Qed.
Lemma mix_inj a b : word a -> word b -> mix a = mix b -> a = b.
Proof. intros Ha Hb H. by rewrite <- (unmix_mix a), <- (unmix_mix b), H. Qed.
(** No word comes twice in a period. *)
Lemma draws_distinct i j s : 0 <= i < 2 ^ 64 -> 0 <= j < 2 ^ 64 -> draw_at (1 + i) s = draw_at (1 + j) s -> i = j.
Proof.
  intros Hi Hj H%mix_inj; try apply to_u64_word. unfold state_at, to_u64 in H.
  assert (Hd : (i * GAMMA - j * GAMMA) mod 2 ^ 64 = 0).
  { replace (i * GAMMA - j * GAMMA) with ((s + (1 + i) * GAMMA) - (s + (1 + j) * GAMMA)) by ring. by rewrite Zminus_mod, H, Z.sub_diag. }
  assert (Hm : (i - j) mod 2 ^ 64 = 0).
  { assert (Hinv : GAMMA * 0xF1DE83E19937733D mod 2 ^ 64 = 1) by reflexivity.
    transitivity (((i * GAMMA - j * GAMMA) * 0xF1DE83E19937733D) mod 2 ^ 64); [|by rewrite Z.mul_mod, Hd by lia].
    rewrite <- Z.mul_sub_distr_r, <- Z.mul_assoc, Z.mul_mod, Hinv, Z.mul_1_r, Z.mod_mod by lia. done. }
  apply Z.mod_divide in Hm as [c Hc]; [|lia]. nia.
Qed.

(** ** The rejection loop *)
Lemma draw_below_first limit s (k : nat) : word s -> (1 <= k)%nat -> draw_at (Z.of_nat k) s < limit ->
  (forall j, 1 <= j < Z.of_nat k -> limit <= draw_at j s) ->
  forall fuel, (k <= fuel)%nat -> draw_below fuel limit s = Some (draw_at (Z.of_nat k) s, state_at (Z.of_nat k) s).
Proof.
  intros Hs Hk Ha Hr. assert (H : forall n i, 0 <= i -> i + Z.of_nat (S n) = Z.of_nat k -> forall fuel, (S n <= fuel)%nat ->
    draw_below fuel limit (state_at i s) = Some (draw_at (Z.of_nat k) s, state_at (Z.of_nat k) s)).
  { induction n as [|n IH]; intros i Hi0 Hi [|fuel] Hf; try lia; cbn [draw_below]; rewrite state_at_next.
    - replace (i + 1) with (Z.of_nat k) by lia. by rewrite (proj2 (Z.ltb_lt _ _) Ha).
    - rewrite (proj2 (Z.ltb_ge _ _)) by (apply Hr; lia). apply IH; lia. }
  intros fuel Hf. rewrite <- (state_at_0 s Hs) at 1. destruct k as [|n]; [lia|]. by apply (H n 0); [lia|lia|].
Qed.
(** A first accepted draw among the first [n], unless they are all rejected. *)
Lemma first_below limit s n :
  (exists k : nat, (1 <= k <= n)%nat /\ draw_at (Z.of_nat k) s < limit /\ forall j, 1 <= j < Z.of_nat k -> limit <= draw_at j s) \/
  (forall j, 1 <= j <= Z.of_nat n -> limit <= draw_at j s).
Proof.
  induction n as [|n [(k & Hk & H)|IH]]; [right; lia|left; exists k; split; [lia|done]|].
  destruct (Z.lt_ge_cases (draw_at (Z.of_nat (S n)) s) limit) as [Hlt|Hge].
  - left. exists (S n). split; [lia|split; [done|]]. intros j Hj. apply IH. lia.
  - right. intros j Hj. destruct (Z.eq_dec j (Z.of_nat (S n))) as [->|]; [done|]. apply IH. lia.
Qed.
(** As the draws differ, no more of them are rejected than there are words from [limit] on. *)
Lemma rejected_few limit s n : 0 < limit <= 2 ^ 64 -> (forall j, 1 <= j <= Z.of_nat n -> limit <= draw_at j s) -> Z.of_nat n <= 2 ^ 64 - limit.
Proof.
  intros Hl. assert (Hn : forall n : nat, Z.of_nat n <= 2 ^ 64 -> (forall j, 1 <= j <= Z.of_nat n -> limit <= draw_at j s) -> Z.of_nat n <= 2 ^ 64 - limit).
  { clear n. intros n Hn H. set (ds := (fun i => draw_at (1 + i) s) <$> seqZ 0 (Z.of_nat n)).
    enough (length ds <= length (seqZ limit (2 ^ 64 - limit)))%nat as Hlen by (unfold ds in Hlen; rewrite length_fmap, !length_seqZ in Hlen; lia).
    apply NoDup_incl_length.
    - apply NoDup_ListNoDup, NoDup_fmap_2_strong; [|apply NoDup_seqZ]. intros i j Hi%elem_of_seqZ Hj%elem_of_seqZ. apply draws_distinct; lia.
    - intros w Hw. apply list_elem_of_In in Hw. apply list_elem_of_In. apply list_elem_of_fmap in Hw as (i & -> & Hi%elem_of_seqZ).
      apply elem_of_seqZ. specialize (H (1 + i) ltac:(lia)). pose proof (draw_at_word (1 + i) s). unfold word in *. lia. }
  intros H. destruct (Z.le_gt_cases (Z.of_nat n) (2 ^ 64)) as [|Hgt]; [by apply Hn|].
  specialize (Hn (Z.to_nat (2 ^ 64)) ltac:(lia) ltac:(intros j Hj; apply H; lia)). lia.
Qed.

(** ** The range *)
Lemma range_word lo hi : I64.ok lo -> I64.ok hi -> lo < hi -> to_u64 (hi - lo) = hi - lo.
Proof. unfold I64.ok, I64.MIN, I64.MAX. intros Hlo Hhi H. apply to_u64_id. unfold word. lia. Qed.
Lemma zone_mul range : 1 <= range <= U64_MAX -> zone range = range * (U64_MAX / range) /\ 0 < U64_MAX / range /\ 2 ^ 64 - range <= zone range < 2 ^ 64.
Proof.
  intros H. unfold zone. pose proof (Z.div_mod U64_MAX range ltac:(lia)). pose proof (Z.mod_pos_bound U64_MAX range ltac:(lia)).
  assert (0 < U64_MAX / range) by (apply Z.div_str_pos; lia). unfold U64_MAX in *. lia.
Qed.
(** Rust's [lo.wrapping_add((r % range) as i64)] does not wrap in effect. *)
Lemma offset_exact lo hi r : I64.ok lo -> I64.ok hi -> lo < hi -> 0 <= r ->
  I64.wrap (lo + I64.wrap (r mod (hi - lo))) = lo + r mod (hi - lo).
Proof.
  intros Hlo Hhi H Hr. pose proof (Z.mod_pos_bound r (hi - lo) ltac:(lia)) as Hm. set (m := r mod (hi - lo)) in *. clearbody m.
  assert (E : I64.wrap (lo + I64.wrap m) = I64.wrap (lo + m)).
  { unfold I64.wrap. f_equal. replace (lo + ((m + 2 ^ 63) mod 2 ^ 64 - 2 ^ 63) + 2 ^ 63) with (lo + (m + 2 ^ 63) mod 2 ^ 64) by lia.
    rewrite Z.add_mod_idemp_r by lia. f_equal. lia. }
  rewrite E. apply I64.wrap_id. unfold I64.ok in *. lia.
Qed.
(** The draws below [zone range] that leave the remainder [v - lo]. *)
Lemma residue lo hi v r : lo < hi -> lo <= v < hi -> 0 <= r ->
  (r < (hi - lo) * (U64_MAX / (hi - lo)) /\ lo + r mod (hi - lo) = v) <-> exists j, 0 <= j < U64_MAX / (hi - lo) /\ r = (v - lo) + j * (hi - lo).
Proof.
  intros H Hv Hr. set (d := hi - lo). set (q := U64_MAX / d). assert (0 < d) by lia. split.
  - intros [Hlt <-]. exists (r / d). pose proof (Z.div_mod r d ltac:(lia)). split; [|lia].
    split; [by apply Z.div_pos|]. apply Z.div_lt_upper_bound; lia.
  - intros (j & Hj & ->). split; [unfold d in *; nia|]. rewrite Z.mod_add, Z.mod_small by lia. lia.
Qed.
(** The state before a draw. *)
Definition before (r : Z) : Z := to_u64 (unmix r - GAMMA).
Lemma next_before r s : word r -> word s -> (next_u64 s).1 = r <-> s = before r.
Proof.
  intros Hr Hs. unfold next_u64, before. cbn [fst]. split.
  - intros <-. rewrite unmix_mix by apply to_u64_word. unfold to_u64. rewrite Zminus_mod_idemp_l.
    replace (s + GAMMA - GAMMA) with s by ring. symmetry. by apply to_u64_id.
  - intros ->. rewrite <- (mix_unmix r Hr) at 2. f_equal. unfold to_u64. rewrite Z.add_mod_idemp_l by lia.
    replace (unmix r - GAMMA + GAMMA) with (unmix r) by ring. apply to_u64_id. by apply unmix_word.
Qed.
Lemma before_word r : word (before r).
Proof. apply to_u64_word. Qed.
Lemma before_draw r : word r -> (next_u64 (before r)).1 = r.
Proof. intros Hr. by apply next_before; [|apply before_word|]. Qed.
Lemma before_inj a b : word a -> word b -> before a = before b -> a = b.
Proof. intros Ha Hb H. apply before_draw in Ha, Hb. congruence. Qed.

(** Some number of draws, at most [hi - lo] of them rejected, ends the loop, whatever the state. *)
Lemma rand_int_ends lo hi s : I64.ok lo -> I64.ok hi -> word s -> lo < hi ->
  exists (k : nat) v, 1 <= Z.of_nat k <= hi - lo + 1 /\ lo <= v < hi /\
    forall fuel, (k <= fuel)%nat -> rand_int fuel lo hi s = Some (Ok v, state_at (Z.of_nat k) s).
Proof.
  intros Hlo Hhi Hs Hlt. assert (Hd : 1 <= hi - lo <= U64_MAX) by (unfold I64.ok, I64.MIN, I64.MAX, U64_MAX in *; lia).
  destruct (zone_mul _ Hd) as (_ & _ & Hz). unfold rand_int. rewrite (proj2 (Z.leb_gt _ _) Hlt), range_word by done.
  destruct (first_below (zone (hi - lo)) s (Z.to_nat (hi - lo + 1))) as [(k & Hk & Ha & Hr)|Hr].
  - pose proof (draw_at_word (Z.of_nat k) s) as [Hw _]. exists k, (lo + draw_at (Z.of_nat k) s mod (hi - lo)).
    pose proof (Z.mod_pos_bound (draw_at (Z.of_nat k) s) (hi - lo) ltac:(lia)). split; [lia|split; [lia|]]. intros fuel Hf.
    rewrite (draw_below_first _ s k) by (done || lia). by rewrite offset_exact.
  - apply rejected_few in Hr; unfold U64_MAX in *; lia.
Qed.
(** [from v j]: the states from which the first draw gives [v]. *)
Lemma rand_int_first lo hi v s : I64.ok lo -> I64.ok hi -> word s -> lo <= v < hi ->
  (exists t, rand_int 1 lo hi s = Some (Ok v, t)) <-> exists j, 0 <= j < U64_MAX / (hi - lo) /\ s = before ((v - lo) + j * (hi - lo)).
Proof.
  intros Hlo Hhi Hs Hv. assert (Hlt : lo < hi) by lia. assert (Hd : 1 <= hi - lo <= U64_MAX) by (unfold I64.ok, I64.MIN, I64.MAX, U64_MAX in *; lia).
  destruct (zone_mul _ Hd) as (Ez & _ & Hz). unfold rand_int. rewrite (proj2 (Z.leb_gt _ _) Hlt), range_word by done.
  assert (Hr : word (next_u64 s).1) by (apply mix_word, to_u64_word).
  assert (Hj : forall j, 0 <= j < U64_MAX / (hi - lo) -> word ((v - lo) + j * (hi - lo))) by (intros j Hj; unfold word; nia).
  transitivity ((next_u64 s).1 < zone (hi - lo) /\ lo + (next_u64 s).1 mod (hi - lo) = v).
  - cbn [draw_below]. destruct (next_u64 s) as [r t]. cbn [fst] in *. destruct (Z.ltb_spec r (zone (hi - lo))) as [Hz'|Hz'].
    + rewrite offset_exact by (done || apply Hr). split; [intros (t' & [= <- _]); done|intros [_ <-]; by eexists].
    + split; [intros (? & [=])|lia].
  - rewrite Ez, residue by (done || apply Hr). split; intros (j & Hj' & E); exists j; (split; [done|]).
    + by apply (next_before _ s (Hj j Hj') Hs).
    + by apply (next_before _ s (Hj j Hj') Hs).
Qed.

(** C23: [rand.int(lo, hi)] faults without drawing when [hi <= lo]; otherwise the rejection loop
    ends from every state of the generator, after at most [hi - lo] rejected draws, with an int in
    [lo, hi); and the first draw is unbiased: every int of the range is drawn from exactly
    [u64::MAX / (hi - lo)] states, no state counted twice. *)
Theorem rand_int_unbiased lo hi s : I64.ok lo -> I64.ok hi -> word s ->
  (hi <= lo -> forall fuel, rand_int fuel lo hi s = Some (Err "rand.int(lo, hi): hi must be > lo"%string, s)) /\
  (lo < hi ->
    (exists (k : nat) v, 1 <= Z.of_nat k <= hi - lo + 1 /\ lo <= v < hi /\
       forall fuel, (k <= fuel)%nat -> rand_int fuel lo hi s = Some (Ok v, state_at (Z.of_nat k) s)) /\
    let share := U64_MAX / (hi - lo) in
    0 < share /\ exists from : Z -> Z -> Z,
      (forall v j, lo <= v < hi -> 0 <= j < share -> word (from v j)) /\
      (forall v j v' j', lo <= v < hi -> 0 <= j < share -> lo <= v' < hi -> 0 <= j' < share ->
         from v j = from v' j' -> v = v' /\ j = j') /\
      forall v s', lo <= v < hi -> word s' ->
        (exists t, rand_int 1 lo hi s' = Some (Ok v, t)) <-> exists j, 0 <= j < share /\ s' = from v j).
Proof.
  intros Hlo Hhi Hs. split; [intros Hle fuel; unfold rand_int; by rewrite (proj2 (Z.leb_le _ _) Hle)|].
  intros Hlt. split; [by apply rand_int_ends|]. assert (Hd : 1 <= hi - lo <= U64_MAX) by (unfold I64.ok, I64.MIN, I64.MAX, U64_MAX in *; lia).
  destruct (zone_mul _ Hd) as (Ez & Hq & Hz). split; [done|]. exists (fun v j => before ((v - lo) + j * (hi - lo))).
  split; [intros; apply before_word|]. split; [|intros v s' Hv Hs'; by apply rand_int_first].
  intros v j v' j' Hv Hj Hv' Hj' E%before_inj; [|unfold word; nia..].
  assert (j = j') as ->; [|lia]. destruct (Z.lt_trichotomy j j') as [|[|]]; [nia|done|nia].
Qed.
Lemma rand_int_unbiased_witness :
  rand_int 9 5 5 (seed 1) = Some (Err "rand.int(lo, hi): hi must be > lo"%string, seed 1) /\
  exists (k : nat) v, 1 <= Z.of_nat k <= 101 /\ 0 <= v < 100 /\ rand_int k 0 100 (seed 1) = Some (Ok v, state_at (Z.of_nat k) (seed 1)).
Proof.
  assert (W : word (seed 1)) by (split; [discriminate|reflexivity]).
  assert (O : forall z, I64.is_i64 z = true -> I64.ok z) by (intros z; apply I64.is_i64_spec).
  split; [apply (rand_int_unbiased 5 5 (seed 1) (O 5 eq_refl) (O 5 eq_refl) W); lia|].
  destruct (proj2 (rand_int_unbiased 0 100 (seed 1) (O 0 eq_refl) (O 100 eq_refl) W) eq_refl) as [(k & v & Hk & Hv & H) _].
  exists k, v. repeat split; [lia..|]. by apply H.
Defined.

Example draws_of_seed_0 : next_u64 (seed 0) = (16294208416658607535, GAMMA).
Proof. vm_compute. reflexivity. Qed.
(** A range of one int does reject a draw, [u64::MAX]. *)
Lemma range_one_rejects : zone 1 = U64_MAX /\ word (before U64_MAX) /\ rand_int 1 7 8 (before U64_MAX) = None.
Proof. split; [reflexivity|split; [apply before_word|reflexivity]]. Qed.
