(* ===== verification/NumTheory.v ===== *)
(** * Integer number theory of [std.math], [src/src/native/math.rs]

    [gcd_u64], [lcm_i64], [factorial_i64], [comb_i64], [perm_i64] and the natives [abs], [sign] and
    [gcd] on ints.  A loop of the source takes fuel here; the theorems bound its rounds and give the
    results as those of Euclid's, Pascal's and the factorial recursions on unbounded integers, with a
    fault exactly where these leave [i64].  An [i128] step wraps as Rust's release build wraps it. *)

From Stdlib Require Import Znumtheory.
From stdpp Require Import strings pretty.
From S2P Require Import Prelude Consteval.
Local Open Scope Z_scope.

Section NumTheory.
Context (show : Z -> string).

(** A math function names no binary operator. *)
Definition overflow_text (op : IntOp) : string := message (Overflow op) (fun _ => ""%string).
(** [unsigned_abs]. *)
Definition unsigned_abs (a : Z) : Z := Z.abs a.
Definition U64_MAX : Z := 2 ^ 64 - 1.
Definition i128 (z : Z) : Z := (z + 2 ^ 127) mod 2 ^ 128 - 2 ^ 127.
Definition try_i64 (z : Z) (e : string) : result Z string := if I64.is_i64 z then Ok z else Err e.

Definition abs (v : Z) : result Z string := ok_or (I64.checked (Z.abs v)) (overflow_text OpAbs).
Definition sign (v : Z) : Z := Z.sgn v.

Fixpoint gcd_u64 (fuel : nat) (a b : Z) : option Z :=
  match fuel with
  | O => None
  | S fuel => if b =? 0 then Some a else gcd_u64 fuel b (a mod b)
  end.
Definition gcd (fuel : nat) (a b : Z) : option (result Z string) :=
  match gcd_u64 fuel (unsigned_abs a) (unsigned_abs b) with
  | None => None
  | Some g => Some (try_i64 g (overflow_text OpGcd))
  end.
Definition lcm_i64 (fuel : nat) (a b : Z) : option (result Z string) :=
  if (a =? 0) || (b =? 0) then Some (Ok 0)
  else
    let a := unsigned_abs a in let b := unsigned_abs b in
    match gcd_u64 fuel a b with
    | None => None
    | Some g =>
        let l := Z.quot a g * b in
        Some (if l >? U64_MAX then Err (overflow_text OpLcm) else try_i64 l (overflow_text OpLcm))
    end.

Definition factorial_i64 (n : Z) : result Z string :=
  if n <? 0 then Err ("factorial: n must be non-negative, got " +:+ show n)
  else if n >? 20 then Err ("factorial: " +:+ show n +:+ "! overflows i64 (max is 20!)")
  else Ok (fold_left (fun acc i => I64.wrap (acc * i)) (seqZ 1 n) 1).

(** The [for i in 0..k] of [comb_i64] from [i] on; [None] when the fuel ran out, an inner [None]
    for the early return. *)
Fixpoint comb_loop (fuel : nat) (n k i acc : Z) : option (option Z) :=
  match fuel with
  | O => None
  | S fuel =>
      if i <? k then
        let acc := i128 (Z.quot (i128 (acc * (n - i))) (i + 1)) in
        if acc >? I64.MAX then Some None else comb_loop fuel n k (i + 1) acc
      else Some (Some acc)
  end.
Definition comb_i64 (fuel : nat) (n k : Z) : option (result Z string) :=
  if (n <? 0) || (k <? 0) then
    Some (Err ("comb: n and k must be non-negative, got n=" +:+ show n +:+ " k=" +:+ show k))
  else if k >? n then Some (Ok 0)
  else
    let k := Z.min k (n - k) in
    let e := "comb: C(" +:+ show n +:+ "," +:+ show k +:+ ") exceeds i64 range" in
    match comb_loop fuel n k 0 1 with
    | None => None
    | Some None => Some (Err e)
    | Some (Some acc) => Some (try_i64 acc e)
    end.

Fixpoint perm_loop (fuel : nat) (n k i acc : Z) : option (option Z) :=
  match fuel with
  | O => None
  | S fuel =>
      if i <? k then
        let acc := i128 (acc * (n - i)) in
        if acc >? I64.MAX then Some None else perm_loop fuel n k (i + 1) acc
      else Some (Some acc)
  end.
Definition perm_i64 (fuel : nat) (n k : Z) : option (result Z string) :=
  if (n <? 0) || (k <? 0) then
    Some (Err ("perm: n and k must be non-negative, got n=" +:+ show n +:+ " k=" +:+ show k))
  else if k >? n then Some (Ok 0)
  else
    let e := "perm: P(" +:+ show n +:+ "," +:+ show k +:+ ") exceeds i64 range" in
    match perm_loop fuel n k 0 1 with
    | None => None
    | Some None => Some (Err e)
    | Some (Some acc) => Some (try_i64 acc e)
    end.

(** ** The reference: Pascal's triangle and the factorial *)
Fixpoint choose (n k : nat) : Z :=
  match n, k with
  | _, O => 1
  | O, S _ => 0
  | S n, S k => choose n k + choose n (S k)
  end.
Fixpoint factorial (n : nat) : Z := match n with O => 1 | S n => Z.of_nat (S n) * factorial n end.

Lemma choose_0 n : choose n 0 = 1.
Proof. by destruct n. Qed.
Lemma choose_gt n k : (n < k)%nat -> choose n k = 0.
Proof. revert k. induction n as [|n IH]; intros [|k] H; try lia; [done|]. cbn [choose]. rewrite !IH by lia. done. Qed.
Lemma choose_nn n : choose n n = 1.
Proof. induction n as [|n IH]; [done|]. cbn [choose]. rewrite IH, choose_gt by lia. done. Qed.
Lemma choose_pos n k : (k <= n)%nat -> 0 < choose n k.
Proof.
  revert k. induction n as [|n IH]; intros [|k] H; try (rewrite ?choose_0; lia). cbn [choose].
  destruct (Nat.eq_dec k n) as [->|]; [rewrite choose_nn, choose_gt by lia; lia|]. pose proof (IH k ltac:(lia)). pose proof (IH (S k) ltac:(lia)). lia.
Qed.
(** The step of [comb_i64], and the absorption law. *)
Lemma choose_step n k : Z.of_nat (S k) * choose n (S k) = (Z.of_nat n - Z.of_nat k) * choose n k.
Proof.
  revert k. induction n as [|n IH]; intros k; [destruct k; cbn [choose]; lia|]. cbn [choose]. pose proof (IH k) as Hk.
  destruct k as [|k]; [rewrite choose_0 in *; lia|]. pose proof (IH k) as Hk'. cbn [choose]. nia.
Qed.
Lemma choose_absorb n k : Z.of_nat (S k) * choose (S n) (S k) = Z.of_nat (S n) * choose n k.
Proof. cbn [choose]. pose proof (choose_step n k). nia. Qed.
Lemma choose_sym n k : (k <= n)%nat -> choose n k = choose n (n - k).
Proof.
  revert k. induction n as [|n IH]; intros k H; [by replace k with O by lia|].
  destruct k as [|k]; [rewrite Nat.sub_0_r, choose_nn; by rewrite choose_0|]. replace (S n - S k)%nat with (n - k)%nat by lia.
  destruct (Nat.eq_dec k n) as [->|Hk]; [rewrite Nat.sub_diag, choose_0; apply choose_nn|].
  destruct (n - k)%nat as [|m] eqn:E; [lia|]. cbn [choose]. rewrite (IH k), (IH (S k)) by lia.
  replace (n - k)%nat with (S m) by lia. replace (n - S k)%nat with m by lia. lia.
Qed.
Lemma choose_grows n k : (2 * S k <= n)%nat -> choose n k <= choose n (S k).
Proof. intros H. pose proof (choose_step n k). pose proof (choose_pos n k ltac:(lia)). nia. Qed.
Lemma choose_mono n i k : (i <= k)%nat -> (2 * k <= n)%nat -> choose n i <= choose n k.
Proof. intros H. induction H as [|k H IH]; [lia|]. intros Hk. etransitivity; [apply IH; lia|by apply choose_grows]. Qed.
Lemma choose_pow2 n k : (2 * k <= n)%nat -> 2 ^ Z.of_nat k <= choose n k.
Proof.
  revert n. induction k as [|k IH]; intros n H; [rewrite choose_0; lia|]. destruct n as [|n]; [lia|].
  pose proof (choose_absorb n k). specialize (IH n ltac:(lia)). rewrite Nat2Z.inj_succ, Z.pow_succ_r by lia. nia.
Qed.
Lemma factorial_pos n : 0 < factorial n.
Proof. induction n as [|n IH]; [done|]. cbn [factorial]. lia. Qed.
Lemma factorial_mono m n : (m <= n)%nat -> factorial m <= factorial n.
Proof. intros H. induction H as [|n H IH]; [lia|]. cbn [factorial]. pose proof (factorial_pos n). nia. Qed.

(** ** Euclid's loop *)
Lemma gcd_loop fuel a b : 0 <= b <= a -> (if b =? 0 then 1 else Z.log2 a + Z.log2 b + 2) <= Z.of_nat fuel ->
  gcd_u64 fuel a b = Some (Z.gcd a b).
Proof.
  revert a b. induction fuel as [|fuel IH]; intros a b Hab Hf.
  { pose proof (Z.log2_nonneg a). pose proof (Z.log2_nonneg b). destruct (b =? 0); lia. }
  cbn [gcd_u64]. destruct (Z.eqb_spec b 0) as [->|Hb]; [by rewrite Z.gcd_0_r, Z.abs_eq by lia|].
  pose proof (Z.mod_pos_bound a b ltac:(lia)) as Hm. rewrite IH.
  - rewrite (Z.gcd_comm b), Z.gcd_mod by done. by rewrite Z.gcd_comm.
  - lia.
  - pose proof (Z.log2_nonneg a). pose proof (Z.log2_nonneg b). destruct (Z.eqb_spec (a mod b) 0) as [|Hr]; [lia|].
    assert (2 * (a mod b) <= a) as H2 by (pose proof (Z.div_mod a b ltac:(lia)); pose proof (Z.div_str_pos a b ltac:(lia)); nia).
    apply Z.log2_le_mono in H2. rewrite Z.log2_double in H2 by lia. lia.
Qed.
Lemma log2_word z : 0 <= z <= 2 ^ 63 -> Z.log2 z <= 63.
Proof. intros H. rewrite <- (Z.log2_pow2 63) by lia. apply Z.log2_le_mono. lia. Qed.
Lemma gcd_u64_ok fuel a b : I64.ok a -> I64.ok b -> (130 <= fuel)%nat -> gcd_u64 fuel (unsigned_abs a) (unsigned_abs b) = Some (Z.gcd a b).
Proof.
  unfold I64.ok, I64.MIN, I64.MAX, unsigned_abs. intros Ha Hb Hf. rewrite <- (Z.gcd_abs_l a), <- (Z.gcd_abs_r (Z.abs a) b).
  pose proof (log2_word (Z.abs a) ltac:(lia)). pose proof (log2_word (Z.abs b) ltac:(lia)).
  destruct (Z.le_gt_cases (Z.abs b) (Z.abs a)) as [|Hgt]; [apply gcd_loop; [lia|]; destruct (_ =? _); lia|].
  destruct fuel as [|fuel]; [lia|]. cbn [gcd_u64]. rewrite (proj2 (Z.eqb_neq _ _)) by lia. rewrite Z.mod_small by lia.
  rewrite (Z.gcd_comm (Z.abs a)). apply gcd_loop; [lia|]. destruct (_ =? _); lia.
Qed.

(** ** The two products *)
Lemma i128_id z : - 2 ^ 127 <= z < 2 ^ 127 -> i128 z = z.
Proof. intros H. unfold i128. rewrite Z.mod_small by lia. lia. Qed.
Lemma i128_mul a b : 0 <= a <= I64.MAX -> 0 <= b <= I64.MAX -> i128 (a * b) = a * b.
Proof.
  intros Ha Hb. apply i128_id. pose proof (Z.mul_le_mono_nonneg a I64.MAX b I64.MAX ltac:(lia) ltac:(lia) ltac:(lia) ltac:(lia)) as H.
  assert (I64.MAX * I64.MAX < 2 ^ 127) by reflexivity. assert (0 <= a * b) by (apply Z.mul_nonneg_nonneg; lia). lia.
Qed.
Lemma comb_loop_ok fuel n k i : (2 * k <= n)%nat -> Z.of_nat n <= I64.MAX -> (i <= k)%nat -> choose n i <= I64.MAX -> 64 <= Z.of_nat (i + fuel) ->
  comb_loop fuel (Z.of_nat n) (Z.of_nat k) (Z.of_nat i) (choose n i) = Some (if choose n k <=? I64.MAX then Some (choose n k) else None).
Proof.
  intros Hk Hn. revert i. induction fuel as [|fuel IH]; intros i Hi Hc Hf.
  { exfalso. pose proof (choose_pow2 n i ltac:(lia)) as Hp. pose proof (Z.pow_le_mono_r 2 64 (Z.of_nat i) ltac:(lia) ltac:(lia)). unfold I64.MAX in *. lia. }
  cbn [comb_loop]. destruct (Z.ltb_spec (Z.of_nat i) (Z.of_nat k)) as [Hlt|Hge].
  - pose proof (choose_step n i) as Hs. pose proof (choose_pos n i ltac:(lia)) as Hp. pose proof (choose_pos n (S i) ltac:(lia)) as Hp'. pose proof (choose_mono n (S i) k ltac:(lia) Hk) as Hm.
    rewrite i128_mul by lia.
    replace (choose n i * (Z.of_nat n - Z.of_nat i)) with (choose n (S i) * (Z.of_nat i + 1)) by lia.
    rewrite Z.quot_mul by lia. rewrite i128_id, Z.gtb_ltb.
    2: { pose proof (i128_mul (choose n i) (Z.of_nat n - Z.of_nat i) ltac:(lia) ltac:(lia)) as Hb. unfold i128 in Hb.
         pose proof (Z.mod_pos_bound (choose n i * (Z.of_nat n - Z.of_nat i) + 2 ^ 127) (2 ^ 128) ltac:(lia)). nia. }
    destruct (Z.ltb_spec I64.MAX (choose n (S i))) as [Hbig|Hok].
    + by rewrite (proj2 (Z.leb_gt _ _)) by lia.
    + replace (Z.of_nat i + 1) with (Z.of_nat (S i)) by lia. apply IH; lia.
  - replace i with k in * by lia. by rewrite (proj2 (Z.leb_le _ _) Hc).
Qed.
Definition arrange (n k : nat) : Z := factorial k * choose n k.
Lemma arrange_step n k : arrange n (S k) = arrange n k * (Z.of_nat n - Z.of_nat k).
Proof. unfold arrange. cbn [factorial]. transitivity (factorial k * (Z.of_nat (S k) * choose n (S k))); [ring|]. rewrite choose_step. ring. Qed.
Lemma arrange_pos n k : (k <= n)%nat -> 0 < arrange n k.
Proof. intros H. apply Z.mul_pos_pos; [apply factorial_pos|by apply choose_pos]. Qed.
Lemma arrange_mono n i k : (i <= k)%nat -> (k <= n)%nat -> arrange n i <= arrange n k.
Proof.
  intros H. induction H as [|k H IH]; [lia|]. intros Hk. rewrite arrange_step. pose proof (arrange_pos n k ltac:(lia)). specialize (IH ltac:(lia)). nia.
Qed.
Lemma perm_loop_ok fuel n k i : (k <= n)%nat -> Z.of_nat n <= I64.MAX -> (i <= k)%nat -> arrange n i <= I64.MAX -> 21 <= Z.of_nat (i + fuel) ->
  perm_loop fuel (Z.of_nat n) (Z.of_nat k) (Z.of_nat i) (arrange n i) = Some (if arrange n k <=? I64.MAX then Some (arrange n k) else None).
Proof.
  intros Hk Hn. revert i. induction fuel as [|fuel IH]; intros i Hi Hc Hf.
  { exfalso. pose proof (factorial_mono 21 i ltac:(lia)) as Hp. pose proof (choose_pos n i ltac:(lia)). unfold arrange in Hc.
    assert (I64.MAX < factorial 21) by reflexivity. nia. }
  cbn [perm_loop]. destruct (Z.ltb_spec (Z.of_nat i) (Z.of_nat k)) as [Hlt|Hge].
  - pose proof (arrange_step n i) as Hs. pose proof (arrange_pos n i ltac:(lia)) as Hp. pose proof (arrange_mono n (S i) k ltac:(lia) Hk) as Hm.
    rewrite i128_mul by lia. rewrite <- Hs, Z.gtb_ltb.
    destruct (Z.ltb_spec I64.MAX (arrange n (S i))) as [Hbig|Hok].
    + by rewrite (proj2 (Z.leb_gt _ _)) by lia.
    + replace (Z.of_nat i + 1) with (Z.of_nat (S i)) by lia. apply IH; lia.
  - replace i with k in * by lia. by rewrite (proj2 (Z.leb_le _ _) Hc).
Qed.

(** ** The results *)

(** [r] is [z], or a fault because [z] is not an [i64]. *)
Definition exact (r : result Z string) (z : Z) : Prop :=
  match r with Ok v => v = z /\ I64.ok z | Err _ => ~ I64.ok z end.
Lemma try_exact z e : exact (try_i64 z e) z.
Proof. unfold try_i64. destruct (I64.is_i64 z) eqn:E; [split; [done|by apply I64.is_i64_spec]|]. cbn. rewrite <- I64.is_i64_spec, E. done. Qed.
Lemma not_i64 z : I64.MAX < z -> ~ I64.ok z.
Proof. unfold I64.ok. lia. Qed.
Lemma gcd_exact fuel a b : I64.ok a -> I64.ok b -> (130 <= fuel)%nat -> exists r, gcd fuel a b = Some r /\ exact r (Z.gcd a b).
Proof. intros Ha Hb Hf. unfold gcd. rewrite gcd_u64_ok by done. eexists. split; [done|apply try_exact]. Qed.
Lemma lcm_exact fuel a b : I64.ok a -> I64.ok b -> (130 <= fuel)%nat -> exists r, lcm_i64 fuel a b = Some r /\ exact r (Z.lcm a b).
Proof.
  intros Ha Hb Hf. unfold lcm_i64. destruct (Z.eqb_spec a 0) as [->|Ha0]; [by eexists|].
  destruct (Z.eqb_spec b 0) as [->|Hb0]; [rewrite Z.lcm_0_r; by eexists|]. cbn [orb]. rewrite gcd_u64_ok by done. eexists. split; [done|].
  assert (Z.gcd a b <> 0) as Hg by (intros [? _]%Z.gcd_eq_0; done). pose proof (Z.gcd_nonneg a b).
  assert (E : Z.quot (unsigned_abs a) (Z.gcd a b) * unsigned_abs b = Z.lcm a b).
  { unfold unsigned_abs. rewrite <- (Z.lcm_abs_l a), <- (Z.lcm_abs_r (Z.abs a)), <- (Z.gcd_abs_l a), <- (Z.gcd_abs_r (Z.abs a)) in *.
    rewrite Z.quot_div_nonneg, Z.lcm_equiv2, <- Z.lcm_equiv1 by lia. unfold Z.lcm. symmetry. apply Z.abs_eq.
    apply Z.mul_nonneg_nonneg; [lia|]. apply Z.div_pos; lia. }
  rewrite E. destruct (Z.gtb_spec (Z.lcm a b) U64_MAX) as [Hbig|]; [|apply try_exact]. apply not_i64. unfold I64.MAX, U64_MAX in *. lia.
Qed.
Lemma abs_exact a : exact (abs a) (Z.abs a).
Proof.
  unfold abs, I64.checked. destruct (I64.is_i64 (Z.abs a)) eqn:E; [split; [done|by apply I64.is_i64_spec]|].
  cbn. rewrite <- I64.is_i64_spec, E. done.
Qed.
Lemma factorial_exact n : 0 <= n -> exact (factorial_i64 n) (factorial (Z.to_nat n)).
Proof.
  intros Hn. unfold factorial_i64. rewrite (proj2 (Z.ltb_ge _ _) Hn). destruct (Z.gtb_spec n 20) as [Hbig|Hsmall].
  - apply not_i64. eapply Z.lt_le_trans; [|apply (factorial_mono 21); lia]. reflexivity.
  - assert (H : Forall (fun n => fold_left (fun acc i => I64.wrap (acc * i)) (seqZ 1 n) 1 = factorial (Z.to_nat n) /\ I64.is_i64 (factorial (Z.to_nat n)) = true) (seqZ 0 21))
      by (repeat constructor).
    rewrite list.Forall_forall in H. destruct (H n) as [E Ho]; [apply elem_of_seqZ; lia|]. split; [done|by apply I64.is_i64_spec].
Qed.
Lemma comb_exact fuel n k : 0 <= n -> 0 <= k -> I64.ok n -> I64.ok k -> (130 <= fuel)%nat ->
  exists r, comb_i64 fuel n k = Some r /\ exact r (choose (Z.to_nat n) (Z.to_nat k)).
Proof.
  intros Hn Hk On Ok' Hf. unfold comb_i64. rewrite (proj2 (Z.ltb_ge _ _) Hn), (proj2 (Z.ltb_ge _ _) Hk). cbn [orb].
  destruct (Z.gtb_spec k n) as [Hgt|Hle]; [eexists; split; [done|]; rewrite choose_gt by lia; done|].
  set (m := Z.min k (n - k)). assert (Hc : choose (Z.to_nat n) (Z.to_nat k) = choose (Z.to_nat n) (Z.to_nat m)).
  { unfold m. destruct (Z.min_spec k (n - k)) as [[_ ->]|[_ ->]]; [done|]. rewrite choose_sym by lia. f_equal. lia. }
  pose proof (comb_loop_ok fuel (Z.to_nat n) (Z.to_nat m) 0) as H. rewrite choose_0, !Z2Nat.id in H by lia. change (Z.of_nat 0) with 0 in H.
  unfold I64.ok in On. rewrite H by (unfold I64.MAX in *; lia). rewrite Hc. destruct (Z.leb_spec (choose (Z.to_nat n) (Z.to_nat m)) I64.MAX) as [|Hbig].
  - eexists. split; [done|apply try_exact].
  - eexists. split; [done|by apply not_i64].
Qed.
Lemma perm_exact fuel n k : 0 <= n -> 0 <= k -> I64.ok n -> I64.ok k -> (130 <= fuel)%nat ->
  exists r, perm_i64 fuel n k = Some r /\ exact r (arrange (Z.to_nat n) (Z.to_nat k)).
Proof.
  intros Hn Hk On Ok' Hf. unfold perm_i64. rewrite (proj2 (Z.ltb_ge _ _) Hn), (proj2 (Z.ltb_ge _ _) Hk). cbn [orb].
  destruct (Z.gtb_spec k n) as [Hgt|Hle]; [eexists; split; [done|]; unfold arrange; rewrite choose_gt, Z.mul_0_r by lia; done|].
  pose proof (perm_loop_ok fuel (Z.to_nat n) (Z.to_nat k) 0) as H. unfold arrange in H at 1 2. rewrite choose_0, !Z2Nat.id in H by lia. change (factorial 0 * 1) with 1 in H. change (Z.of_nat 0) with 0 in H.
  unfold I64.ok in On. rewrite H by (unfold I64.MAX in *; lia). destruct (Z.leb_spec (arrange (Z.to_nat n) (Z.to_nat k)) I64.MAX) as [|Hbig].
  - eexists. split; [done|apply try_exact].
  - eexists. split; [done|by apply not_i64].
Qed.

(** C39: the int functions of [std.math] end on every two ints, their loops within 130 rounds, and
    are exact: [abs], [gcd], [lcm], [factorial], [comb] and [perm] give the absolute value, the
    greatest common divisor, the least common multiple, the factorial, the entry of Pascal's
    triangle and the number of arrangements, and report an error exactly when that number is outside
    [i64], or when an argument of the last three is negative.  No step of an [i128] product wraps. *)
Theorem math_ints_exact fuel a b : I64.ok a -> I64.ok b -> (130 <= fuel)%nat ->
  exact (abs a) (Z.abs a) /\
  (exists r, gcd fuel a b = Some r /\ exact r (Z.gcd a b)) /\
  (exists r, lcm_i64 fuel a b = Some r /\ exact r (Z.lcm a b)) /\
  (if 0 <=? a then exact (factorial_i64 a) (factorial (Z.to_nat a)) else exists e, factorial_i64 a = Err e) /\
  (if (0 <=? a) && (0 <=? b) then
     (exists r, comb_i64 fuel a b = Some r /\ exact r (choose (Z.to_nat a) (Z.to_nat b))) /\
     (exists r, perm_i64 fuel a b = Some r /\ exact r (factorial (Z.to_nat b) * choose (Z.to_nat a) (Z.to_nat b)))
   else (exists e, comb_i64 fuel a b = Some (Err e)) /\ (exists e, perm_i64 fuel a b = Some (Err e))).
Proof.
  intros Ha Hb Hf. split; [apply abs_exact|]. split; [by apply gcd_exact|]. split; [by apply lcm_exact|]. split.
  - destruct (Z.leb_spec 0 a) as [|Hn]; [by apply factorial_exact|]. unfold factorial_i64. rewrite (proj2 (Z.ltb_lt _ _) Hn). by eexists.
  - destruct (Z.leb_spec 0 a) as [|Hn]; [destruct (Z.leb_spec 0 b) as [|Hn]|]; cbn [andb];
      [split; [by apply comb_exact|by apply perm_exact]|..]; unfold comb_i64, perm_i64;
      rewrite (proj2 (Z.ltb_lt _ _) Hn), ?orb_true_r; split; by eexists.
Qed.
End NumTheory.

Definition show10 (z : Z) : string := pretty z.
Lemma math_ints_exact_witness :
  gcd 130 I64.MIN 0 = Some (Err "integer overflow in gcd"%string) /\ lcm_i64 130 4 6 = Some (Ok 12) /\
  comb_i64 show10 130 66 33 = Some (Ok 7219428434016265740) /\ perm_i64 show10 130 21 20 = Some (Err "perm: P(21,20) exceeds i64 range"%string) /\
  exact (factorial_i64 show10 10) (factorial 10) /\ (exists r, comb_i64 show10 130 10 3 = Some r /\ exact r 120).
Proof.
  repeat (split; [reflexivity|]).
  assert (O : forall z, I64.is_i64 z = true -> I64.ok z) by (intros z; apply I64.is_i64_spec).
  destruct (math_ints_exact show10 130 10 3 (O 10 eq_refl) (O 3 eq_refl) ltac:(lia)) as (_ & _ & _ & H & H' & _). by split.
Defined.
(** The error of [comb] names the smaller of [k] and [n - k], not the argument. *)
Lemma comb_error_names_the_smaller_k : comb_i64 show10 130 100 60 = Some (Err "comb: C(100,40) exceeds i64 range"%string).
Proof. reflexivity. Qed.
